(* ===== verification/_CoqProject ===== *)
-Q . S2P
Prelude.v
Consts.v
Notify.v
Actor.v
Executor.v
BlockRanges.v
Merkle.v
Nmt.v
Dah.v
Header.v
Share.v
Float64.v
Blob.v
Eds.v
ShwapIds.v
NodeCids.v
Containers.v
Byzantine.v
Store.v
InMemoryStore.v
StoreWait.v
RedbStore.v
IndexedDbStore.v
EitherStore.v
PeerTracker.v
HeaderEx.v
HeaderExClient.v
HeaderExCodec.v
HeaderExBehaviour.v
P2pWorker.v
Shwap.v
ShwapFetch.v
HeaderSession.v
Syncer.v
SyncerRun.v
Pruner.v
Daser.v
StateTypes.v
Wire.v
Serializers.v
BlockRangesIter.v
RpcConfig.v
Events.v
P2pHandle.v
P2pInit.v
HeaderGenerator.v
SquareGenerator.v
TxClient.v
GrpcMessages.v
NodeConfig.v
NodeApi.v
Handles.v
WasmWorker.v
WasmConfig.v
Mobile.v
MobileLocks.v
Node.v
Shutdown.v
