(* ===== verification/Prelude.v ===== *)
(** * Lumina: a verification library for the Celestia light node

    Lumina (the crates [celestia-types] in src/types, [lumina-node] in src/node, the browser node
    [lumina-node-wasm] in src/node-wasm, the mobile bindings in src/node-uniffi and the client [celestia-grpc] in src/grpc) is a light node for Celestia.  It follows the chain by headers only: a header carries the
    commit of the validators and a data availability header (DAH, the roots of the rows
    and columns of the block's extended square).  A node asks trusted peers for the head of
    the network, fetches the headers it misses in batches, verifies that they are signed
    and linked, stores them, and then samples the availability of the blocks behind them.

    ** How the parts interact, and where they are modelled

    The syncer computes which heights are missing from the ranges of the store, has a
    session of the p2p component fetch them over the header exchange, and inserts the
    result; the store checks a batch against the ranges and against the stored neighbours
    by the verification of headers.  The worker of the p2p component keeps the account of the
    peers, feeds the exchange, verifies gossiped headers and fraud proofs, and asks for shares
    and rows by content id, which are verified against the stored headers when they arrive.
    The sampling scheduler picks blocks of the store, records
    the content ids of the samples it fetches and then the verdict; the pruner removes old
    headers and the blocks recorded for them.  The node builds the components from its
    configuration, lets them share one store, answers queries, and stops them in order; in a browser
    it runs in a worker to which pages send commands over message ports.  Beside the node, the
    transaction client signs and submits transactions to a consensus node.  The files follow that order from below; the name of a
    definition is the name in the source, with a short prefix where two types have a
    function of the same name ([im_] in-memory store, [rd_] redb store, [idb_] and [ib_] browser
    store, [eh_] extended header, [dah_] data availability header, [eds_] extended data square,
    [befp_] fraud proof, [w_] a field of the syncer's worker, [d_] a field of the sampling
    worker, [wk_] and [p2p_] the p2p worker).

    - Prelude: results, errors and panics; machine integers; vectors; shared tactics.
    - Consts: src/types/src/consts.rs (protocol constants, application versions).
    - Notify: the loop that waits for a notification, of utils/counter.rs and of the stores.
    - Actor: a worker behind a handle, asked by commands over a bounded channel.
    - Executor: src/node/src/executor.rs and utils/fused_reusable_future.rs, timers and futures.
    - BlockRanges: src/node/src/block_ranges.rs, ranges of heights and sorted lists of
      ranges, with insertion, removal, constraints on insertion, and popping.
    - Merkle: src/types/src/merkle_proof.rs, RFC 6962 proofs over a class [MerkleHash].
    - Nmt: src/types/src/nmt.rs and nmt/namespaced_hash.rs, namespaces and their hashes.
    - Dah: src/types/src/data_availability_header.rs, the DAH, its hash, row proofs.
    - Header: src/types/src/trust_level.rs, block.rs, validator_set.rs and
      extended_header.rs: validation of a header, verification of commits and of ranges.
    - Float64: the double precision arithmetic of commitments and of the transaction client.
    - Share: src/types/src/share.rs and share/info_byte.rs.
    - Blob: src/types/src/blob.rs, blob/commitment.rs and blob/msg_pay_for_blobs.rs: blobs as
      shares and back, and the commitment to a blob.
    - Eds: src/types/src/eds.rs, the extended data square, its trees, and its DAH.
    - ShwapIds: the ids of src/types/src/row.rs, sample.rs and row_namespace_data.rs, and the
      content ids that carry them.
    - NodeCids: the content ids of nodes and leaves of the namespaced tree (nmt.rs, share.rs).
    - Containers: the rows, samples and namespaced rows of the same files, with
      nmt/namespace_proof.rs and share/proof.rs.
    - Byzantine: src/types/src/byzantine.rs, the bad encoding fraud proof.
    - Store: src/node/src/store.rs and store/utils.rs: the trait [Store], the checks shared
      by its implementations, and the contract [StoreSpec] (below).
    - InMemoryStore, RedbStore, EitherStore: the implementations of the trait in
      src/node/src/store/.  Each is an instance of [Store] and of [StoreSpec], and refines the
      abstract store of Store.v ([StoreRefines]).
    - StoreWait: [wait_new_head] and [wait_height] of the stores.
    - IndexedDbStore: store/indexed_db_store.rs, the store of browsers, with its migrations.
    - PeerTracker: src/node/src/peer_tracker.rs.
    - HeaderEx: src/node/src/p2p/header_ex/ (utils, client, server): requests and answers.
    - HeaderExClient: header_ex/client.rs, the table of outstanding requests and the tasks.
    - HeaderExCodec: the codec of header_ex.rs, requests and responses on a stream.
    - HeaderExBehaviour: the server's queue (header_ex/server.rs) and the behaviour that joins
      client and server (header_ex.rs).
    - P2pWorker: the worker of src/node/src/p2p.rs, from its start to its stop.
    - Shwap, ShwapFetch: src/node/src/p2p/shwap.rs, the content id of a sample and the
      verification of what arrives, and the requests of p2p.rs for rows, samples and blobs.
    - HeaderSession: src/node/src/p2p/header_session.rs and its users in p2p.rs.
    - Syncer: src/node/src/syncer.rs, the worker and its handlers.
    - SyncerRun: the event loops of syncer.rs, initialization, and the life of the worker.
    - Pruner: src/node/src/pruner.rs.
    - Daser: src/node/src/daser.rs, the sampling scheduler.
    - StateTypes: src/types/src/state/, addresses, coins, bit arrays, transactions, accounts.
    - Wire: the protobuf and JSON forms in src/types/src/extended_header.rs, block.rs,
      block/data.rs, data_availability_header.rs, share/proof.rs and fraud_proof.rs.
    - Serializers: src/proto/src/serializers/, serializers/hash.rs, and namespaces as JSON.
    - BlockRangesIter: block ranges as iterators, as texts and as values of serde.
    - RpcConfig: src/rpc/src/tx_config.rs, options of transactions over JSON-RPC.
    - Events: src/node/src/events.rs, the events with their texts and their channel.
    - P2pHandle: src/node/src/utils.rs, p2p/connection_control.rs, and the bootnodes and the
      requests of single headers of p2p.rs.
    - P2pInit: the settings that [Worker::new] of p2p.rs gives to the behaviours of libp2p.
    - HeaderGenerator, SquareGenerator: src/types/src/test_utils.rs and the generator of
      byzantine.rs, with which chains and blocks are made for tests.
    - TxClient: src/grpc/src/tx.rs, signing, fees, submission and confirmation.
    - GrpcMessages: src/grpc/src/grpc.rs and grpc/, the methods of the gRPC client.
    - NodeConfig: src/node/src/network.rs and node/builder.rs.
    - NodeApi: the methods of [Node] in src/node/src/node.rs.
    - Handles: the methods of [P2p] (p2p.rs) and [Syncer] (syncer.rs) that ask their workers.
    - WasmWorker: src/node-wasm/src/commands.rs, ports.rs, worker.rs and the methods of client.rs.
    - WasmConfig: the configuration in src/node-wasm/src/client.rs, and utils.rs.
    - Mobile, MobileLocks: src/node-uniffi/src/, what mobile applications see, and their calls over
      the locks of the node.
    - Node: src/node/src/node.rs, the components interleaved on the shared store.
    - Shutdown: src/node/src/utils/counter.rs, utils/token.rs, executor.rs, and [Node::stop].

    ** How code becomes definitions

    A function that returns [Result] is a function into [res E A], which has a third case
    [Panic] for an [unwrap] on the wrong variant, an index out of range, a failed
    assertion ([debug_assert!] included), or arithmetic overflow (as in overflow-checked builds).  Stateful code passes
    its state explicitly: the record of a store, of a session, of the worker; a function
    that may fail after it changed the state returns both.  Asynchronous code runs between
    two [await]s as one step: what other tasks may do in between is an argument (the
    order in which requests complete and their answers are a [schedule], the events of the
    syncer, of the exchange and of the p2p worker are lists, the clock is a function from the
    number of the reading).  What a component sends (answers, events, calls to libp2p) is a log
    in its state; a one-shot channel is a number.  Where threads or tasks interleave (the node, the
    submissions of transactions, stopping) a choice says who makes the next step, and theorems
    are about every sequence of choices or every reachable state.  Machine
    integers are [Z] with the width written out where the code can reach it.

    Loops over collections are structural recursions; the session and the event loops recurse
    on the schedule or the list of events, so they need no fuel.  Other loops take fuel, and a
    theorem gives fuel with which they end: the recursion that builds a Merkle proof (it halves
    the number of leaves: the number of leaves), a pass of the pruner (one more than there are
    headers), the search of the sampling scheduler for the next header (two), splitting a blob
    (one more than its bytes), the sizes of the trees of a commitment (one more than the
    number of shares), rounding up to a power of two (64, the number of bits; the theorem also
    says when rounding up never ends), reconstruction
    of all blobs (one more than there are shares), and reading the messages of a response (one
    more than the limit of its size, as every message has at least one byte).

    Code outside the repository is a parameter: class [MerkleHash] (SHA-256), class
    [DahExternals] (the Merkle root of tendermint), class [Tendermint] (hashes, signatures,
    sign bytes, clock arithmetic, height increment, protobuf coding of headers), class
    [StoreCodec] (protobuf coding of sampling metadata), class [UnstableSort]
    ([sort_unstable_by_key]: sorted and a permutation, ties in any order),
    [time_checked_sub] and [duration_since] (clock arithmetic), class [CidExternals]
    (multihashes, conversion of content ids), classes [NmtExternals] and [NmtProofs] (the
    namespaced tree of nmt-rs and its proofs), [LeopardCodec] and [LeopardReconstruct] (the
    erasure code), [ShwapCodec] and [Prost] (protobuf coding of containers and of messages of
    the exchange), [PeerTypes] (peers, addresses and connections of libp2p), [RequestSender]
    and [BitswapClient] (the request-response and bitswap behaviours), [JsSerde] (numbers of
    JavaScript), [Bech32], [Ruint], [BitvecLimit] and [PublicKeys] (text of addresses, large
    numbers, bit vectors, keys), [TendermintProto] and [CommitProto] (protobuf coding of the
    parts of a header), [TxExternals] (protobuf coding and signing of transactions; what the
    consensus node answers is an argument), [Signing] (keys and constructors of tendermint),
    [TextEncodings] (hex and base64), [NmtHasher] (the hasher of nmt-rs), the parser of addresses,
    the answers of a DNS server, the generation of keys, the blockstore, and the random numbers.  The laws that theorems need are
    the classes [CollisionFree], [DomainSeparated] and those named [...Spec], and every
    one of them is inhabited by the small concrete instances (named [toy_...]) on which the
    witnesses evaluate.

    ** What the theorems show

    - Ranges: every operation is exact on the set of heights, never panics, and keeps the
      lists sorted and canonical; the verdict of the insertion check is exact.
    - Merkle proofs and the DAH: completeness, soundness and binding of the proofs and of
      the hash of the DAH.
    - Headers: [verify_commit_light] accepts exactly on more than two thirds of the power
      (and two accepted commits share more than one third); [validate] and
      [verify_adjacent_range] imply what a light client relies on; the last hash fixes the
      verified history.
    - Blobs: shares and blobs convert one into the other, a commitment binds the data, and
      its trees have the sizes of a reference definition (for up to 2^52 shares: the code takes
      the square root in double precision, which is exact up to there).
    - Square: a square is accepted exactly when it is well formed, extension of the original
      data gives a well-formed square of code words, and the data root binds all shares.
    - Containers and retrieval: what is built verifies, what verifies is part of the square,
      and the blobs of a namespace fetched from untrusted peers are exactly those of the block.
    - Fraud proofs: a correctly encoded row or column cannot be accused with shares in their
      places, and a badly encoded one can be.
    - Stores: an abstract store is a map from heights to headers in which neighbours are
      linked, with the sampling metadata and the accepted heights; [abs_step] says which result
      an operation may have and what it does, and [StoreSpec] how the operations of the trait
      act on the map of headers.  For all sequences of operations the results and the reads of
      an implementation are those of a run of the abstract store (a simulation): an
      insertion answers [Ok] exactly when its headers were added, all of them, and headers that
      extend the stored chain are never rejected.  The cached head of the browser store is right
      as long as no removal empties the store; that store also migrates older databases.
    - Waiting: a wait for a new head or for a height misses no insertion that happens after it was
      first polled, however writers interleave; the sampling worker polls too late, which is
      stated too.
    - Peers: the tracker refines the set of open connections, with exact counters and
      events; the p2p worker keeps that through every execution and through its stop, but for
      connections established during the stop, where a counter underflows; when the worker has
      ended no request or query is outstanding.
    - Exchange: what a client accepts, which head is chosen; every request is answered exactly
      once and with what it asked for; messages survive the stream up to the limits; and the
      composition of server, stream and client over any store with the contract.
    - Gossip: headers delivered are verified one against the other and ascend; the network is
      declared compromised exactly on fraud proofs that validate, and remains so.
    - Session: the fetched range is complete, in order and terminates, for every order in
      which requests complete and every mixture of short and failed answers.
    - Syncer: proved against [StoreSpec] only, hence for every store.  The event loop is
      safe on all events; the next batch is exactly what is missing; with peers that answer
      from one chain the store converges to that chain, as far back as the syncing window.
    - Sampling: content ids stand for samples one for one; the newest block that needs it is
      sampled, and what is going to be fetched is recorded first; a verdict is exact; the
      event loop is safe on all events and gets through every stored block.
    - Pruner: a pass removes exactly the old headers and the blocks recorded for them; when
      the blockstore fails it ends with that error and no header is gone before its blocks.
    - Node: with every configuration that the builder accepts, the components interleave on the
      store without harming each other; [Node::stop] never panics, is never stuck and ends with
      both stores closed; waiting for blocking tasks loses no wakeup.
    - Names: nodes of different networks share no protocol and no topic; bootnodes are grouped
      by their peers exactly; a header asked for by hash or height is the one returned.
    - Transactions: the transactions that the node answered with success were signed with
      consecutive sequences whatever runs at the same time, a submission ends after a bounded number of rounds, the estimate of the gas is within
      one unit of the formula; addresses, transactions and accounts survive their other forms.
    - Messages: headers, blocks and proofs survive their protobuf forms, and what is decoded is
      rejected exactly when a part is missing or malformed.
    - Generators: a generated chain validates and verifies, header by header and as a whole, and
      a broken one does not; generated squares are valid, and corrupted ones are caught by the
      fraud proof that comes with them.
    - Browser node: every call of a page returns the response to its own command, whatever other
      pages do, however late pings are answered and whatever messages are lost; the worker answers what its node answers; the
      configuration of a page becomes the builder it describes.
    - Handles: commands are taken in the order in which they were sent, and every call gets the answer to
      its own command or an error once the worker is gone.
    - Mobile node: at most one node runs and calls return, unless one of them waits for a peer (or a trusted one), which
      blocks stopping the node and all later calls; events and configuration are passed on unchanged.
    - Values as JSON: every hand-written serializer is read back by its deserializer.
    - Events: subscribers get the events in order, and all of them unless they lag too far.
    - Futures: a value beats its timeout when both are ready; the reusable future is never polled
      after it was ready; yielding in a browser never panics, wherever it is cancelled.
    - Behaviour that the code probably does not intend is stated as a theorem too (the
      properties of kind error in PROJECT.json).

    ** What is not modelled

    The behaviours and transports of libp2p (their settings are in P2pInit); the registration of callbacks on JavaScript
    objects; the command line; the declarations of the methods of the JSON-RPC client and the
    transports of the gRPC client; derived serde code; I/O errors of the databases; log output. *)

From stdpp Require Export prelude gmap.

#[global] Open Scope Z_scope.

(** ** Results, errors and panics

    A Rust function that returns [Result<A, E>] is modelled by a value of
    [res E A].  The third constructor stands for an unwinding panic: an
    [expect] or [unwrap] on the wrong variant, an index out of bounds, an
    [unreachable!], or an arithmetic overflow on a machine integer (the
    overflow-checked profile). *)
Inductive res (E A : Type) : Type :=
| Ok (a : A)
| Err (e : E)
| Panic.
Arguments Ok {E A} _.
Arguments Err {E A} _.
Arguments Panic {E A}.

#[global] Instance res_ret {E} : MRet (res E) := λ A a, Ok a.
#[global] Instance res_bind {E} : MBind (res E) := λ A B k c,
  match c with Ok a => k a | Err e => Err e | Panic => Panic end.
#[global] Instance res_fmap {E} : FMap (res E) := λ A B f c,
  match c with Ok a => Ok (f a) | Err e => Err e | Panic => Panic end.

(** [Result::map_err]. *)
Definition map_err {E E' A} (f : E → E') (c : res E A) : res E' A :=
  match c with Ok a => Ok a | Err e => Err (f e) | Panic => Panic end.

(** [Option::ok_or] and [Option::expect]; [Result::expect]. *)
Definition ok_or {E A} (o : option A) (e : E) : res E A :=
  match o with Some a => Ok a | None => Err e end.
Definition expect {E A} (o : option A) : res E A :=
  match o with Some a => Ok a | None => Panic end.
Definition expect_ok {E E' A} (c : res E A) : res E' A :=
  match c with Ok a => Ok a | _ => Panic end.
Definition is_ok {E A} (c : res E A) : bool :=
  match c with Ok _ => true | _ => false end.
(** [debug_assert!], in a build that checks it. *)
Definition debug_assert {E} (b : bool) : res E unit := if b then Ok tt else Panic.

(** An early return: [if !b { return Err(e) }]. *)
Definition ensure {E} (b : bool) (e : E) : res E unit :=
  if b then Ok tt else Err e.

Definition no_panic {E A} (c : res E A) : Prop := c ≠ Panic.

(** ** Loops with fuel

    A loop whose recursion is not structural takes fuel and returns [run E A]: [None] when
    the fuel is used up, which says nothing about the code.  The theorems about such loops
    give fuel that is enough. *)
Definition run (E A : Type) : Type := option (res E A).
#[global] Instance run_ret {E} : MRet (run E) := λ A a, Some (Ok a).
#[global] Instance run_bind {E} : MBind (run E) := λ A B k c,
  match c with
  | Some (Ok a) => k a
  | Some (Err e) => Some (Err e)
  | Some Panic => Some Panic
  | None => None
  end.
Definition lift {E A} (c : res E A) : run E A := Some c.

(** ** Machine integers

    A [u64] (or [usize], on the 64-bit targets) is a [Z]; the operations of the
    standard library that saturate, check or wrap are written out. *)
Definition u16_max : Z := 65535.
Definition u32_max : Z := 4294967295.
Definition u64_max : Z := 18446744073709551615.
Definition i64_max : Z := 9223372036854775807.

Definition is_u16 (x : Z) : Prop := 0 ≤ x ≤ u16_max.
Definition is_u64 (x : Z) : Prop := 0 ≤ x ≤ u64_max.

Definition saturating_sub (x y : Z) : Z := if x <? y then 0 else x - y.
Definition saturating_add (x y : Z) : Z := if u64_max <? x + y then u64_max else x + y.
Definition checked_sub (x y : Z) : option Z := if x <? y then None else Some (x - y).
Definition checked_add (x y : Z) : option Z := if u64_max <? x + y then None else Some (x + y).
Definition checked_mul (x y : Z) : option Z := if u64_max <? x * y then None else Some (x * y).
Definition checked_div (x y : Z) : option Z := if y =? 0 then None else Some (x / y).
Definition div_ceil (x y : Z) : Z := if x mod y =? 0 then x / y else x / y + 1.
Definition clamp (x lo hi : Z) : Z := if x <? lo then lo else if hi <? x then hi else x.

(** The cast [as i64] from an unsigned 64-bit integer. *)
Definition as_i64 (x : Z) : Z := (x + 2 ^ 63) mod 2 ^ 64 - 2 ^ 63.

(** The plain [+] and [-] on [u64], which panic on overflow. *)
Definition u64_add {E} (x y : Z) : res E Z := expect (checked_add x y).
Definition u64_sub {E} (x y : Z) : res E Z := expect (checked_sub x y).

Definition u16_add {E} (x y : Z) : res E Z :=
  if u16_max <? x + y then Panic else Ok (x + y).

(** ** Vectors

    Indexing, [insert] and [drain] of a [Vec] (or [SmallVec]) panic out of range. *)
Definition vec_index {E A} (l : list A) (i : nat) : res E A := expect (l !! i).
Definition vec_insert {E A} (i : nat) (x : A) (l : list A) : res E (list A) :=
  if bool_decide (i ≤ length l)%nat then Ok (take i l ++ x :: drop i l) else Panic.
(** [v.drain(s..=e)]: what stays in the vector and what is drained. *)
Definition vec_drain {E A} (s e : nat) (l : list A) : res E (list A * list A) :=
  if bool_decide (s ≤ S e ∧ S e ≤ length l)%nat
  then Ok (take s l ++ drop (S e) l, take (S e - s) (drop s l)) else Panic.

(** ** Automation *)

(** Unfold the machine-integer helpers and let [lia] decide the comparisons. *)
Ltac unfold_ints :=
  unfold u64_add, u64_sub, checked_sub, checked_add, checked_mul, checked_div,
    saturating_sub, saturating_add, clamp, is_u64, is_u16, u16_max, u32_max,
    u64_max, i64_max, expect in *.

(** Case on the conditions of the [if]s of the goal (of a hypothesis), the
    innermost first. *)
Ltac destruct_cond b :=
  lazymatch b with
  | context [if _ then _ else _] => fail
  | _ => lazymatch type of b with bool => destruct b eqn:? end
  end.
Ltac case_ifs :=
  repeat match goal with
  | |- context [if ?b then _ else _] => destruct_cond b
  end.
Ltac case_ifs_in H :=
  repeat match type of H with
  | context [if ?b then _ else _] => destruct_cond b
  end.

(** Invert [c ≫= k = Ok v]: the computation returned, and so did its continuation. *)
Lemma bind_Ok {E A B} (c : res E A) (k : A → res E B) v :
  c ≫= k = Ok v ↔ ∃ a, c = Ok a ∧ k a = Ok v.
Proof. destruct c; split; naive_solver. Qed.

Lemma bind_Err {E A B} (c : res E A) (k : A → res E B) e :
  c ≫= k = Err e ↔ c = Err e ∨ ∃ a, c = Ok a ∧ k a = Err e.
Proof.
  destruct c; split; naive_solver.
Qed.

Lemma bind_Panic {E A B} (c : res E A) (k : A → res E B) :
  c ≫= k = Panic ↔ c = Panic ∨ ∃ a, c = Ok a ∧ k a = Panic.
Proof. destruct c; split; naive_solver. Qed.

Lemma bind_assoc_res {E A B C} (c : res E A) (k : A → res E B) (k' : B → res E C) :
  (c ≫= k) ≫= k' = c ≫= λ a, k a ≫= k'.
Proof. by destruct c. Qed.

Lemma bind_step {E A B} {c : res E A} {a} {k : A → res E B} {r} : c = Ok a → k a = r → c ≫= k = r.
Proof. by intros -> <-. Qed.

Lemma ensure_Ok {E} b (e : E) u : ensure b e = Ok u ↔ b = true.
Proof. destruct b, u; cbv; naive_solver. Qed.

Lemma map_err_Ok {E E' A} (f : E → E') (c : res E A) a :
  map_err f c = Ok a ↔ c = Ok a.
Proof. destruct c; cbv; naive_solver. Qed.

Lemma expect_Ok {E A} (o : option A) (a : A) : @expect E A o = Ok a ↔ o = Some a.
Proof. destruct o; cbv; naive_solver. Qed.

Lemma expect_ok_Ok {E E' A} (c : res E A) (a : A) :
  @expect_ok E E' A c = Ok a ↔ c = Ok a.
Proof. destruct c; cbv; naive_solver. Qed.

Lemma ok_or_Ok {E A} (o : option A) (e : E) a : ok_or o e = Ok a ↔ o = Some a.
Proof. destruct o; cbv; naive_solver. Qed.

(** [inv_res H] turns a run that returned [Ok] into the runs of its steps. *)
Ltac inv_res H :=
  lazymatch type of H with
  | _ ≫= _ = Ok _ =>
      apply bind_Ok in H; let Hc := fresh "Hc" in
      destruct H as (? & Hc & H); inv_res Hc; inv_res H
  | ensure _ _ = Ok _ => apply (proj1 (ensure_Ok _ _ _)) in H
  | map_err _ _ = Ok _ => apply (proj1 (map_err_Ok _ _ _)) in H; inv_res H
  | expect _ = Ok _ => apply (proj1 (expect_Ok _ _)) in H
  | expect_ok _ = Ok _ => apply (proj1 (expect_ok_Ok _ _)) in H; inv_res H
  | ok_or _ _ = Ok _ => apply (proj1 (ok_or_Ok _ _ _)) in H
  | Ok _ = Ok _ => injection H as H
  | _ => idtac
  end.

Lemma u64_add_Ok {E} x y : x + y ≤ u64_max → @u64_add E x y = Ok (x + y).
Proof. unfold u64_add, checked_add. intros. case_ifs; [lia|done]. Qed.
Lemma u64_sub_Ok {E} x y : y ≤ x → @u64_sub E x y = Ok (x - y).
Proof. unfold u64_sub, checked_sub. intros. case_ifs; [lia|done]. Qed.
Lemma u64_add_inv {E} x y z : @u64_add E x y = Ok z → z = x + y ∧ x + y ≤ u64_max.
Proof. unfold u64_add, checked_add. case_ifs; [done|]. intros [= <-]. split; [done|lia]. Qed.
Lemma u64_sub_cases {E} x y : @u64_sub E x y = Panic ∨ @u64_sub E x y = Ok (x - y) ∧ y ≤ x.
Proof. unfold u64_sub, checked_sub. case_ifs; [by left|right; by split; [|lia]]. Qed.

Lemma as_i64_id x : 0 ≤ x ≤ i64_max → as_i64 x = x.
Proof. unfold as_i64, i64_max. intros. rewrite Z.mod_small by lia. lia. Qed.

(** A traversal that stops at the first error. *)
Lemma mapM_res_Ok {E A B} (f : A → res E B) l k :
  mapM f l = Ok k ↔ Forall2 (λ x y, f x = Ok y) l k.
Proof.
  split.
  - revert k; induction l as [|x l IH]; simpl; intros k H; inv_res H.
    + by injection H as <-.
    + injection H as <-. constructor; auto.
  - induction 1 as [|x y l k Hxy _ IH]; [done|]. simpl. rewrite Hxy. cbv [mbind res_bind] in *.
    by rewrite IH.
Qed.

Lemma mapM_no_panic {E A B} (f : A → res E B) l : Forall (λ x, f x ≠ Panic) l → mapM f l ≠ Panic.
Proof.
  induction 1 as [|x l Hx _ IH]; [done|]. cbn [mapM]. cbv [mbind res_bind] in *.
  destruct (f x); [|done|done]. by destruct (mapM f l).
Qed.

Lemma mapM_total {E A B} (f : A → res E B) l : forallb (λ x, is_ok (f x)) l = true → ∃ k, mapM f l = Ok k.
Proof.
  induction l as [|x l IH]; [by exists []|]. cbn [forallb]. intros [Hx Hl]%andb_true_iff.
  destruct (IH Hl) as [k Hk]. destruct (f x) as [y| |] eqn:Ef; [|done|done]. exists (y :: k). cbn [mapM].
  rewrite Ef. cbv [mbind res_bind] in *. by rewrite Hk.
Qed.

(** ** Vectors: lemmas *)
Lemma vec_insert_app {E A} (l1 l2 : list A) x :
  @vec_insert E A (length l1) x (l1 ++ l2) = Ok (l1 ++ x :: l2).
Proof.
  unfold vec_insert. rewrite bool_decide_true by (rewrite length_app; lia).
  by rewrite take_app_length, drop_app_length.
Qed.

Lemma vec_drain_app {E A} (l1 l2 l3 : list A) e :
  l2 ≠ [] → e = (length l1 + length l2 - 1)%nat →
  @vec_drain E A (length l1) e (l1 ++ l2 ++ l3) = Ok (l1 ++ l3, l2).
Proof.
  intros Hne ->. destruct l2 as [|y l2]; [done|]. unfold vec_drain; simpl.
  replace (S (length l1 + S (length l2) - 1)) with (length (l1 ++ y :: l2))
    by (rewrite length_app; simpl; lia).
  rewrite bool_decide_true by (rewrite !length_app; simpl; rewrite ?length_app; lia).
  rewrite take_app_length. change (l1 ++ y :: l2 ++ l3) with (l1 ++ (y :: l2) ++ l3).
  rewrite (assoc_L (++)), drop_app_length, <-(assoc_L (++)), drop_app_length.
  replace (length (l1 ++ y :: l2) - length l1)%nat with (length (y :: l2))
    by (rewrite length_app; simpl; lia).
  by rewrite take_app_length.
Qed.

Lemma vec_index_Some {E A} (l : list A) i x : l !! i = Some x → @vec_index E A l i = Ok x.
Proof. by unfold vec_index; intros ->. Qed.

Lemma filter_all {A} (P : A → Prop) `{∀ x, Decision (P x)} (l : list A) : (∀ x, x ∈ l → P x) → filter P l = l.
Proof.
  induction l as [|x l IH]; intros Hl; [done|]. rewrite filter_cons_True by (apply Hl; left).
  f_equal. apply IH. intros y Hy. apply Hl. by right.
Qed.

Lemma filter_none {A} (P : A → Prop) `{∀ x, Decision (P x)} l : (∀ x, x ∈ l → ¬ P x) → filter P l = [].
Proof. intros Hl. apply elem_of_nil_inv. intros x [HP Hin]%list_elem_of_filter. by eapply Hl. Qed.

(** *** Weights of maps *)

(** The sum of the weights of the values, for arguments that steps run out. *)
Definition map_weight `{Countable K} {A} (f : A → nat) (m : gmap K A) : nat := map_fold (λ _ x n, f x + n)%nat O m.

Lemma map_weight_new `{Countable K} {A} (f : A → nat) (m : gmap K A) k x : m !! k = None →
  map_weight f (<[k := x]> m) = (f x + map_weight f m)%nat.
Proof. intros Hn. unfold map_weight. rewrite map_fold_insert_L; [done| |done]. intros. lia. Qed.
Lemma map_weight_insert `{Countable K} {A} (f : A → nat) (m : gmap K A) k old new : m !! k = Some old →
  (map_weight f (<[k := new]> m) + f old = map_weight f m + f new)%nat.
Proof.
  intros Hl. rewrite <-(insert_delete_id m k old Hl) at 2. rewrite <-(insert_delete_eq m k new).
  rewrite !map_weight_new by apply lookup_delete_eq. lia.
Qed.
Lemma map_weight_insert_le `{Countable K} {A} (f : A → nat) (m : gmap K A) k new :
  (map_weight f (<[k := new]> m) ≤ map_weight f m + f new)%nat.
Proof.
  destruct (m !! k) as [old|] eqn:Hl; [|rewrite map_weight_new by done; lia].
  pose proof (map_weight_insert f _ _ _ new Hl). lia.
Qed.
Lemma map_weight_fmap_le `{Countable K} {A} (f : A → nat) (g : A → A) (m : gmap K A) : (∀ x, f (g x) ≤ f x)%nat →
  (map_weight f (g <$> m) ≤ map_weight f m)%nat.
Proof.
  intros Hg. induction m as [|k x m Hn IH] using map_ind; [by rewrite fmap_empty|].
  rewrite fmap_insert, !map_weight_new; [|done|by rewrite lookup_fmap, Hn]. specialize (Hg x). lia.
Qed.
