(* ===== verification/Consts.v ===== *)
(** * Protocol constants (src/types/src/consts.rs)

    The app versions and the constants of the celestia-app and celestia-core
    protocols that the other components use. *)

From S2P Require Import Prelude.

(** ** consts::genesis and consts::version *)
Definition MAX_CHAIN_ID_LEN : nat := 50.
Definition BLOCK_PROTOCOL : Z := 11.

(** ** consts::appconsts *)
Inductive AppVersion := V1 | V2 | V3.
#[global] Instance AppVersion_eq_dec : EqDecision AppVersion.
Proof. solve_decision. Defined.

Definition v1_VERSION : Z := 1.
Definition v2_VERSION : Z := 2.
Definition v3_VERSION : Z := 3.
Definition LATEST_VERSION : Z := v3_VERSION.

Definition AppVersion_from_u64 (version : Z) : option AppVersion :=
  if version =? v1_VERSION then Some V1
  else if version =? v2_VERSION then Some V2
  else if version =? v3_VERSION then Some V3
  else None.

Definition AppVersion_as_u64 (v : AppVersion) : Z :=
  match v with V1 => v1_VERSION | V2 => v2_VERSION | V3 => v3_VERSION end.

(** [AppVersion::latest]; [None] is the panic of its [expect]. *)
Definition AppVersion_latest : option AppVersion := AppVersion_from_u64 LATEST_VERSION.

Definition square_size_upper_bound (app_version : AppVersion) : nat :=
  match app_version with V1 => 128 | V2 => 128 | V3 => 128 end.
Definition subtree_root_threshold (app_version : AppVersion) : Z :=
  match app_version with V1 => 64 | V2 => 64 | V3 => 64 end.
Definition tx_size_cost_per_byte (app_version : AppVersion) : Z :=
  match app_version with V1 | V2 | V3 => 10 end.
Definition gas_per_blob_byte (app_version : AppVersion) : Z :=
  match app_version with V1 | V2 | V3 => 8 end.

Definition NAMESPACE_SIZE : nat := 29.
Definition SHARE_SIZE : nat := 512.
Definition SHARE_INFO_BYTES : nat := 1.
Definition SEQUENCE_LEN_BYTES : nat := 4.
Definition SHARE_VERSION_ZERO : Z := 0.
Definition COMPACT_SHARE_RESERVED_BYTES : nat := 4.
Definition FIRST_SPARSE_SHARE_CONTENT_SIZE : nat :=
  SHARE_SIZE - NAMESPACE_SIZE - SHARE_INFO_BYTES - SEQUENCE_LEN_BYTES.
Definition CONTINUATION_SPARSE_SHARE_CONTENT_SIZE : nat :=
  SHARE_SIZE - NAMESPACE_SIZE - SHARE_INFO_BYTES.
Definition MIN_SQUARE_SIZE : nat := 1.
Definition MIN_SHARE_COUNT : nat := MIN_SQUARE_SIZE * MIN_SQUARE_SIZE.
Definition MAX_SHARE_VERSION : Z := 127.

(** ** consts::data_availability_header *)
Definition max_extended_square_width (app_version : AppVersion) : nat :=
  square_size_upper_bound app_version * 2.
Definition MIN_EXTENDED_SQUARE_WIDTH : nat := MIN_SQUARE_SIZE * 2.

(** ** Lemmas *)

Lemma AppVersion_roundtrip v : AppVersion_from_u64 (AppVersion_as_u64 v) = Some v.
Proof. by destruct v. Qed.

Lemma AppVersion_from_u64_Some n v : AppVersion_from_u64 n = Some v → n = AppVersion_as_u64 v.
Proof. unfold AppVersion_from_u64. intros. case_ifs_in H; simplify_eq; simpl; lia. Qed.

Lemma AppVersion_latest_max v : ∃ l, AppVersion_latest = Some l ∧
  AppVersion_as_u64 v ≤ AppVersion_as_u64 l.
Proof. exists V3. split; [done|]. by destruct v. Qed.
