(* ===== verification/Notify.v ===== *)
(** * Waiting for notifications

    The loop in which the program waits for a change made by other tasks, as written in
    [Counter::wait_guards] (src/node/src/utils/counter.rs) and in [wait_new_head] and
    [wait_height] of the stores (src/node/src/store/): a future [notified] is created first, then
    a condition is tested, then the future is awaited and created anew.  [Notify] is of tokio:
    [notify_waiters] reaches every future that has been created, awaited or not, and nothing is
    kept for futures created later. *)

From S2P Require Import Prelude.

(** Where the loop is: before it creates the future, between that and the test, at the [await],
    or finished with a result.  The flag says whether the future has been notified. *)
Inductive Loop (A : Type) :=
| Creating
| Testing (notified : bool)
| Awaiting (notified : bool)
| Returned (a : A).
Arguments Creating {A}. Arguments Testing {A} _. Arguments Awaiting {A} _. Arguments Returned {A} _.

(** [notify.notify_waiters()], as the loop sees it. *)
Definition notify_waiters {A} (l : Loop A) : Loop A :=
  match l with Testing _ => Testing true | Awaiting _ => Awaiting true | l => l end.

(** A step of the loop, where [test] is what the test would find now; [None] while it waits. *)
Definition loop_step {A} (test : option A) (l : Loop A) : option (Loop A) :=
  match l with
  | Creating => Some (Testing false)
  | Testing n => Some (match test with Some a => Returned a | None => Awaiting n end)
  | Awaiting n => if n then Some Creating else None
  | Returned _ => None
  end.

(** ** Lemmas *)

(** What is left to do; a notification may send the loop around once more. *)
Definition loop_weight {A} (l : Loop A) : nat :=
  match l with
  | Creating => 3 | Testing false => 2 | Testing true => 6 | Awaiting false => 1 | Awaiting true => 5 | Returned _ => 0
  end.

Lemma loop_step_weight {A} test (l l' : Loop A) : loop_step test l = Some l' → (loop_weight l' < loop_weight l)%nat.
Proof. destruct l as [|[]|[]|], test; intros [= <-]; cbn; lia. Qed.
Lemma notify_weight {A} (l : Loop A) : (loop_weight (notify_waiters l) ≤ loop_weight l + 4)%nat.
Proof. destruct l as [|[]|[]|]; cbn; lia. Qed.

(** The loop cannot move exactly when it awaits without having been notified, or is finished. *)
Lemma loop_stuck {A} test (l : Loop A) : loop_step test l = None → l = Awaiting false ∨ ∃ a, l = Returned a.
Proof. destruct l as [|n|[]|a]; [done|done|done|by left|right; by exists a]. Qed.
Lemma notify_not_waiting {A} (l : Loop A) : notify_waiters l ≠ Awaiting false.
Proof. by destruct l. Qed.
Lemma notify_returned {A} (l : Loop A) a : notify_waiters l = Returned a → l = Returned a.
Proof. by destruct l. Qed.
(** A loop that comes to wait without having been notified found nothing. *)
Lemma loop_waits {A} test (l : Loop A) : loop_step test l = Some (Awaiting false) → test = None.
Proof. destruct l as [|n|[]|a], test; done. Qed.
Lemma loop_returns {A} test (l : Loop A) a : loop_step test l = Some (Returned a) → test = Some a.
Proof. destruct l as [|n|[]|x], test; cbn; congruence. Qed.
