(* ===== verification/Actor.v ===== *)
(** * Workers that are asked by commands

    The p2p component and the syncer are each a worker task behind a handle: a method of the handle
    sends a command over a bounded channel ([mpsc::channel(16)] of tokio), with the sending end of a
    one-shot channel for the answer, which it then awaits.  This file models that pattern once: any number
    of calls, each between its [await]s, one worker that takes commands in order and may keep the
    sender of an answer for later, and a worker that is stopped, ends with a fatal error, or panics.

    Dropping the worker drops the commands that are still queued and the senders it kept: their
    receivers fail. *)

From S2P Require Import Prelude.

Definition COMMANDS_CAPACITY : nat := 16.

(** The loop runs; the worker stops without taking commands ([on_stop]); it is gone. *)
Inductive WorkerPhase := Running | Stopping | Dead.
#[export] Instance WorkerPhase_eq_dec : EqDecision WorkerPhase.
Proof. solve_decision. Defined.

Section Actor.
Context {W Cmd Reply Ev : Type}.

(** What handling a command does with the sender of its answer, whose type is [reply_fits]. *)
Inductive Answered := Replied (r : Reply) | KeepsSender | DropsSender.
Context (needs_reply : Cmd → bool) (reply_fits : Cmd → Reply → bool).
(** The handler ([None]: it panics) and the other events of the loop of the worker. *)
Context (handle : W → Cmd → option (W * Answered)) (on_event : W → Ev → option W).

(** How a call ends: the command could not be sent; it was sent and nothing is awaited; the answer;
    the sender of the answer was dropped. *)
Inductive Outcome := NotSent | Sent | Got (r : Reply) | NoAnswer.
Inductive Call := Sending (c : Cmd) | Waiting (c : Cmd) | Kept (c : Cmd) | Finished (c : Cmd) (o : Outcome).

(** [ac_sent] and [ac_handled] record the commands sent, and those taken with the state of the worker
    at that time. *)
Record Actor := {
  ac_worker : W; ac_phase : WorkerPhase; ac_queue : list (nat * Cmd); ac_calls : gmap nat Call;
  ac_sent : list (nat * Cmd); ac_handled : list (nat * Cmd * W)
}.
Definition actor_new (w : W) : Actor :=
  {| ac_worker := w; ac_phase := Running; ac_queue := []; ac_calls := ∅; ac_sent := []; ac_handled := [] |}.

Definition drop_sender (call : Call) : Call :=
  match call with Waiting c | Kept c => Finished c NoAnswer | call => call end.
Definition worker_gone (a : Actor) : Actor :=
  {| ac_worker := ac_worker a; ac_phase := Dead; ac_queue := []; ac_calls := drop_sender <$> ac_calls a;
     ac_sent := ac_sent a; ac_handled := ac_handled a |}.
Definition with_calls (a : Actor) (calls : gmap nat Call) : Actor :=
  {| ac_worker := ac_worker a; ac_phase := ac_phase a; ac_queue := ac_queue a; ac_calls := calls;
     ac_sent := ac_sent a; ac_handled := ac_handled a |}.

Inductive Choice :=
| NewCall (id : nat) (c : Cmd)
| Send (id : nat)
| Take
| Event (ev : Ev)
| AnswerKept (id : nat) (r : option Reply)
| Cancel
| End.

(** [cmd_tx.send(..)]: fails when the receiver is gone, waits while the channel is full. *)
Definition send_step (a : Actor) (id : nat) (c : Cmd) : option Actor :=
  match ac_phase a with
  | Dead => Some (with_calls a (<[id := Finished c NotSent]> (ac_calls a)))
  | _ =>
      if (length (ac_queue a) <? COMMANDS_CAPACITY)%nat then
        Some {| ac_worker := ac_worker a; ac_phase := ac_phase a; ac_queue := ac_queue a ++ [(id, c)];
                ac_calls := <[id := if needs_reply c then Waiting c else Finished c Sent]> (ac_calls a);
                ac_sent := ac_sent a ++ [(id, c)]; ac_handled := ac_handled a |}
      else None
  end.
(** The worker takes a command. *)
Definition take_step (a : Actor) (id : nat) (c : Cmd) (queue : list (nat * Cmd)) : Actor :=
  match handle (ac_worker a) c with
  | None => worker_gone {| ac_worker := ac_worker a; ac_phase := Running; ac_queue := queue; ac_calls := ac_calls a;
                           ac_sent := ac_sent a; ac_handled := ac_handled a ++ [(id, c, ac_worker a)] |}
  | Some (w, answered) =>
      let call := match answered with Replied r => Finished c (Got r) | KeepsSender => Kept c | DropsSender => Finished c NoAnswer end in
      {| ac_worker := w; ac_phase := Running; ac_queue := queue;
         ac_calls := if needs_reply c then <[id := call]> (ac_calls a) else ac_calls a;
         ac_sent := ac_sent a; ac_handled := ac_handled a ++ [(id, c, ac_worker a)] |}
  end.
Definition actor_step (a : Actor) (ch : Choice) : option Actor :=
  match ch with
  | NewCall id c =>
      match ac_calls a !! id with
      | None => Some (with_calls a (<[id := Sending c]> (ac_calls a)))
      | Some _ => None
      end
  | Send id => match ac_calls a !! id with Some (Sending c) => send_step a id c | _ => None end
  | Take =>
      match ac_phase a, ac_queue a with
      | Running, (id, c) :: queue => Some (take_step a id c queue)
      | _, _ => None
      end
  | Event ev =>
      match ac_phase a with
      | Running =>
          Some (match on_event (ac_worker a) ev with
                | Some w => {| ac_worker := w; ac_phase := Running; ac_queue := ac_queue a; ac_calls := ac_calls a;
                               ac_sent := ac_sent a; ac_handled := ac_handled a |}
                | None => worker_gone a
                end)
      | _ => None
      end
  | AnswerKept id r =>
      match ac_calls a !! id with
      | Some (Kept c) => if from_option (reply_fits c) true r then Some (with_calls a (<[id := Finished c (from_option Got NoAnswer r)]> (ac_calls a))) else None
      | _ => None
      end
  | Cancel =>
      match ac_phase a with
      | Running => Some {| ac_worker := ac_worker a; ac_phase := Stopping; ac_queue := ac_queue a; ac_calls := ac_calls a;
                           ac_sent := ac_sent a; ac_handled := ac_handled a |}
      | _ => None
      end
  | End => match ac_phase a with Stopping => Some (worker_gone a) | _ => None end
  end.
Fixpoint actor_run (a : Actor) (choices : list Choice) : option Actor :=
  match choices with
  | [] => Some a
  | ch :: choices => a ← actor_step a ch; actor_run a choices
  end.
Inductive reachable (w : W) : Actor → Prop :=
| reach_new : reachable w (actor_new w)
| reach_step a ch a' : reachable w a → actor_step a ch = Some a' → reachable w a'.

(** ** The invariant *)

Definition call_cmd (call : Call) : Cmd := match call with Sending c | Waiting c | Kept c | Finished c _ => c end.
(** What the record says about a call. *)
Definition call_ok (a : Actor) (id : nat) (call : Call) : Prop :=
  match call with
  | Sending c => id ∉ (ac_sent a).*1
  | Waiting c => (id, c) ∈ ac_queue a ∧ needs_reply c = true
  | Kept c => needs_reply c = true ∧ ∃ w w', (id, c, w) ∈ ac_handled a ∧ handle w c = Some (w', KeepsSender)
  | Finished c NotSent => id ∉ (ac_sent a).*1 ∧ ac_phase a = Dead
  | Finished c Sent => needs_reply c = false ∧ (id, c) ∈ ac_sent a
  | Finished c (Got r) => needs_reply c = true ∧ ∃ w w' answered, (id, c, w) ∈ ac_handled a ∧
      handle w c = Some (w', answered) ∧ (answered = Replied r ∨ answered = KeepsSender ∧ reply_fits c r = true)
  | Finished c NoAnswer => needs_reply c = true ∧ (id, c) ∈ ac_sent a
  end.
Record actor_inv (a : Actor) : Prop := {
  inv_once : NoDup (ac_sent a).*1;
  inv_called id c : (id, c) ∈ ac_sent a → ∃ call, ac_calls a !! id = Some call ∧ call_cmd call = c;
  inv_fifo : (ac_handled a).*1 ++ ac_queue a `prefix_of` ac_sent a;
  inv_alive : ac_phase a ≠ Dead → (ac_handled a).*1 ++ ac_queue a = ac_sent a;
  inv_dead : ac_phase a = Dead → ac_queue a = [] ∧ ∀ id c, ac_calls a !! id ≠ Some (Waiting c) ∧ ac_calls a !! id ≠ Some (Kept c);
  inv_room : (length (ac_queue a) ≤ COMMANDS_CAPACITY)%nat;
  inv_calls id call : ac_calls a !! id = Some call → call_ok a id call
}.

(** ** Lemmas *)

Lemma queue_sent a id c : actor_inv a → (id, c) ∈ ac_queue a → (id, c) ∈ ac_sent a.
Proof. intros I Hq. destruct (inv_fifo _ I) as [k ->]. apply elem_of_app. left. apply elem_of_app. by right. Qed.
Lemma handled_sent a id c w : actor_inv a → (id, c, w) ∈ ac_handled a → (id, c) ∈ ac_sent a.
Proof.
  intros I Hh. destruct (inv_fifo _ I) as [k ->]. apply elem_of_app. left. apply elem_of_app. left.
  apply list_elem_of_fmap. by exists (id, c, w).
Qed.
Lemma sent_id a id c : (id, c) ∈ ac_sent a → id ∈ (ac_sent a).*1.
Proof. intros Hs. apply list_elem_of_fmap. by exists (id, c). Qed.
Lemma not_called_not_sent a id : actor_inv a → ac_calls a !! id = None → id ∉ (ac_sent a).*1.
Proof.
  intros I Hn Hs. apply list_elem_of_fmap in Hs as ([id' c]&->&Hs). destruct (inv_called _ I _ _ Hs) as (?&?&_). cbn in *. congruence.
Qed.

(** Steps that only change calls. *)
Lemma with_calls_inv a id call : actor_inv a → call_ok a id call →
  (∀ c, (id, c) ∈ ac_sent a → call_cmd call = c) → (ac_phase a = Dead → match call with Waiting _ | Kept _ => False | _ => True end) →
  actor_inv (with_calls a (<[id := call]> (ac_calls a))).
Proof.
  intros I Hok Hcmd Hdead. split; cbn [with_calls ac_worker ac_phase ac_queue ac_calls ac_sent ac_handled];
    try apply I.
  - intros id' c Hs. destruct (decide (id' = id)) as [->|Hne].
    + exists call. rewrite lookup_insert_eq. eauto.
    + rewrite lookup_insert_ne by done. by apply I.
  - intros Hd. destruct (inv_dead _ I Hd) as [Hq Hc]. split; [done|]. intros id' c.
    destruct (decide (id' = id)) as [->|Hne]; [rewrite lookup_insert_eq|rewrite lookup_insert_ne by done; apply Hc].
    specialize (Hdead Hd). split; intros [= ->]; done.
  - intros id' call' Hl. apply lookup_insert_Some in Hl as [[<- <-]|[_ Hl]]; [exact Hok|].
    by apply (inv_calls _ I) in Hl.
Qed.

(** The end of the worker, which has handled [h]. *)
Lemma worker_gone_inv a w ph q h : actor_inv a → ac_handled a `prefix_of` h → h.*1 `prefix_of` ac_sent a →
  actor_inv (worker_gone {| ac_worker := w; ac_phase := ph; ac_queue := q; ac_calls := ac_calls a; ac_sent := ac_sent a; ac_handled := h |}).
Proof.
  intros I Hh Hs. assert (∀ x, x ∈ ac_handled a → x ∈ h) as Hin by (intros x Hx; destruct Hh as [k ->]; apply elem_of_app; by left).
  split; cbn [worker_gone ac_worker ac_phase ac_queue ac_calls ac_sent ac_handled]; [apply I| | |done| |cbn; lia|].
  - intros id c Hc. destruct (inv_called _ I _ _ Hc) as (call&Hl&<-). exists (drop_sender call).
    rewrite lookup_fmap, Hl. split; [done|]. by destruct call.
  - by rewrite app_nil_r.
  - intros _. split; [done|]. intros id c. rewrite lookup_fmap. destruct (ac_calls a !! id) as [[]|]; done.
  - intros id call Hl. rewrite lookup_fmap in Hl. destruct (ac_calls a !! id) as [call0|] eqn:Hl0; [|done]. injection Hl as <-.
    apply (inv_calls _ I) in Hl0. destruct call0 as [c|c|c|c []]; cbn in *; try done.
    + destruct Hl0 as [Hq Hn]. split; [done|]. by apply queue_sent.
    + destruct Hl0 as (Hn&w0&w'&Hw&_). split; [done|]. by eapply handled_sent.
    + by destruct Hl0.
    + destruct Hl0 as (Hn&w0&w'&an&Hw&?). split; [done|]. exists w0, w', an. split; [by apply Hin|done].
Qed.
Lemma gone_inv a : actor_inv a → actor_inv (worker_gone a).
Proof.
  intros I. destruct a as [w ph q calls sent h]. apply (worker_gone_inv _ w ph q h I); cbn; [done|].
  etrans; [|exact (inv_fifo _ I)]. apply prefix_app_r. done.
Qed.

Lemma send_step_inv a id c a' : actor_inv a → ac_calls a !! id = Some (Sending c) → send_step a id c = Some a' → actor_inv a'.
Proof.
  intros I Hl Hstep. pose proof (inv_calls _ I _ _ Hl) as Hns. cbn in Hns. unfold send_step in Hstep.
  destruct (decide (ac_phase a = Dead)) as [Hd|Hd].
  { rewrite Hd in Hstep. injection Hstep as <-. apply with_calls_inv; [done|done| |done].
    intros c' Hs. by apply sent_id in Hs. }
  assert ((if (length (ac_queue a) <? COMMANDS_CAPACITY)%nat then
        Some {| ac_worker := ac_worker a; ac_phase := ac_phase a; ac_queue := ac_queue a ++ [(id, c)];
                ac_calls := <[id := if needs_reply c then Waiting c else Finished c Sent]> (ac_calls a);
                ac_sent := ac_sent a ++ [(id, c)]; ac_handled := ac_handled a |}
      else None) = Some a') as Hs by (by destruct (ac_phase a)). clear Hstep.
  destruct (Nat.ltb_spec (length (ac_queue a)) COMMANDS_CAPACITY) as [Hroom|]; [|done]. injection Hs as <-.
  split; cbn [ac_worker ac_phase ac_queue ac_calls ac_sent ac_handled].
  - rewrite fmap_app. apply NoDup_app. split; [apply I|]. split; [|apply NoDup_singleton].
    intros x Hx ->%list_elem_of_singleton. done.
  - intros id' c' Hs. apply elem_of_app in Hs as [Hs|[= -> ->]%list_elem_of_singleton].
    + rewrite lookup_insert_ne; [by apply I|]. intros <-. by apply sent_id in Hs.
    + rewrite lookup_insert_eq. eexists. split; [done|]. by destruct (needs_reply c).
  - rewrite app_assoc, (inv_alive _ I Hd). done.
  - intros _. by rewrite app_assoc, (inv_alive _ I Hd).
  - done.
  - rewrite length_app. cbn. lia.
  - intros id' call Hl'. apply lookup_insert_Some in Hl' as [[<- <-]|[Hne Hl']].
    + destruct (needs_reply c) eqn:Hn; (split; [|done] || (split; [done|])); apply elem_of_app; right; by apply list_elem_of_singleton.
    + apply (inv_calls _ I) in Hl'. destruct call as [c'|c'|c'|c' []]; cbn in *; try done.
      * rewrite fmap_app. intros [?|?%list_elem_of_singleton]%elem_of_app; done.
      * destruct Hl' as [Hq ?]. split; [apply elem_of_app; by left|done].
      * by destruct Hl'.
      * destruct Hl'. split; [done|]. apply elem_of_app. by left.
      * destruct Hl'. split; [done|]. apply elem_of_app. by left.
Qed.

Lemma take_step_inv a id c queue : actor_inv a → ac_phase a = Running → ac_queue a = (id, c) :: queue →
  actor_inv (take_step a id c queue).
Proof.
  intros I Hph Hq. pose proof (inv_alive _ I) as Hsent. rewrite Hph, Hq in Hsent. specialize (Hsent ltac:(done)).
  assert (((ac_handled a ++ [(id, c, ac_worker a)]).*1) ++ queue = ac_sent a) as Hsent'.
  { rewrite fmap_app, <-app_assoc. exact Hsent. }
  unfold take_step. destruct (handle (ac_worker a) c) as [[w answered]|] eqn:Hh.
  2:{ apply worker_gone_inv; [done|by apply prefix_app_r|]. exists queue. by rewrite Hsent'. }
  assert (∀ c', (id, c') ∉ queue) as Hid.
  { intros c' Hin. pose proof (inv_once _ I) as Hnd. rewrite <-Hsent, fmap_app, fmap_cons in Hnd.
    apply NoDup_app in Hnd as (_&_&Hnd). apply NoDup_cons in Hnd as [Hnd _]. apply Hnd. apply list_elem_of_fmap. by exists (id, c'). }
  assert ((id, c) ∈ ac_sent a) as Hs by (apply queue_sent; [done|]; rewrite Hq; apply list_elem_of_here).
  assert (∀ id' call, ac_calls a !! id' = Some call → (id' = id → needs_reply c = false) →
    call_ok {| ac_worker := w; ac_phase := Running; ac_queue := queue; ac_calls := ac_calls a; ac_sent := ac_sent a;
               ac_handled := ac_handled a ++ [(id, c, ac_worker a)] |} id' call) as Hothers.
  { intros id' call Hl Hne. pose proof (inv_calls _ I _ _ Hl) as Hok. destruct call as [c'|c'|c'|c' []]; cbn in *; try done.
    - destruct Hok as [Hin Hn]. split; [|done]. rewrite Hq in Hin. apply elem_of_cons in Hin as [[= -> ->]|Hin]; [|done].
      by rewrite Hne in Hn.
    - destruct Hok as (Hn&w0&w'&Hin&Hk). split; [done|]. exists w0, w'. split; [apply elem_of_app; by left|done].
    - destruct Hok as [_ Hd]. congruence.
    - destruct Hok as (Hn&w0&w'&an&Hin&?). split; [done|]. exists w0, w', an. split; [apply elem_of_app; by left|done]. }
  split; cbn [ac_worker ac_phase ac_queue ac_calls ac_sent ac_handled]; [apply I| |by rewrite Hsent'|by rewrite Hsent'|done| |].
  - intros id' c' Hs'. destruct (inv_called _ I _ _ Hs') as (call&Hl&Hc). destruct (needs_reply c); [|by exists call].
    destruct (decide (id' = id)) as [->|Hne]; [|rewrite lookup_insert_ne by done; by exists call].
    rewrite lookup_insert_eq. eexists. split; [done|].
    destruct (inv_called _ I _ _ Hs) as (call'&Hl'&Hc'). rewrite Hl in Hl'. injection Hl' as <-.
    rewrite <-Hc, Hc'. by destruct answered.
  - pose proof (inv_room _ I) as Hr. rewrite Hq in Hr. cbn in Hr. lia.
  - intros id' call Hl. destruct (needs_reply c) eqn:Hn; [|by apply Hothers].
    apply lookup_insert_Some in Hl as [[<- <-]|[Hne Hl]]; [|by apply Hothers].
    assert ((id, c, ac_worker a) ∈ ac_handled a ++ [(id, c, ac_worker a)]) as Hin
      by (apply elem_of_app; right; by apply list_elem_of_singleton).
    destruct answered as [r| |]; cbn; split; try done; eauto 10.
Qed.

Lemma actor_step_inv a ch a' : actor_inv a → actor_step a ch = Some a' → actor_inv a'.
Proof.
  intros I. destruct ch as [id c|id| |ev|id r| |]; cbn [actor_step].
  - destruct (ac_calls a !! id) eqn:Hl; [done|]. intros [= <-]. pose proof (not_called_not_sent _ _ I Hl) as Hns.
    apply with_calls_inv; [done|done| |done]. intros c' Hs. by apply sent_id in Hs.
  - destruct (ac_calls a !! id) as [[c| | |]|] eqn:Hl; try done. by apply send_step_inv.
  - destruct (ac_phase a) eqn:Hph; [|done|done]. destruct (ac_queue a) as [|[id c] queue] eqn:Hq; [done|]. intros [= <-].
    by apply take_step_inv.
  - destruct (ac_phase a) eqn:Hph; [|done|done]. destruct (on_event _ ev) as [w|]; intros [= <-]; [|by apply gone_inv].
    destruct a as [w0 ph q calls sent h]. cbn in *. subst ph. by destruct I; split.
  - destruct (ac_calls a !! id) as [[| |c|]|] eqn:Hl; try done. destruct (from_option (reply_fits c) true r) eqn:Hfits; [|done]. intros [= <-]. pose proof (inv_calls _ I _ _ Hl) as (Hn&w&w'&Hin&Hk).
    assert ((id, c) ∈ ac_sent a) as Hs by (by eapply handled_sent).
    apply with_calls_inv; [done| | |done].
    + destruct r as [r|]; cbn; eauto 10.
    + intros c' Hs'. destruct (inv_called _ I _ _ Hs') as (call&Hl'&<-). rewrite Hl in Hl'. by injection Hl' as <-.
  - destruct (ac_phase a) eqn:Hph; [|done|done]. intros [= <-].
    assert (ac_phase a ≠ Dead) as Hnd by (by rewrite Hph). split; cbn; try apply I; [|done|].
    + intros _. by apply I.
    + intros id call Hl. apply (inv_calls _ I) in Hl. destruct call as [|?|?|? []]; try done. by destruct Hl.
  - destruct (ac_phase a) eqn:Hph; [done| |done]. intros [= <-]. by apply gone_inv.
Qed.
Lemma actor_reachable_inv w a : reachable w a → actor_inv a.
Proof.
  induction 1 as [|a ch a' _ IH Hstep]; [|by eapply actor_step_inv].
  split; cbn; try done; [constructor|intros id c []%elem_of_nil|lia].
Qed.
Lemma actor_run_reachable w a choices a' : reachable w a → actor_run a choices = Some a' → reachable w a'.
Proof.
  revert a; induction choices as [|ch choices IH]; intros a Hr Hrun; cbn in Hrun; [by injection Hrun as <-|].
  destruct (actor_step a ch) as [a1|] eqn:Hs; [|done]. apply (IH a1); [by eapply reach_step|done].
Qed.

Lemma actor_run_ends w choices : reachable w (default (actor_new w) (actor_run (actor_new w) choices)).
Proof.
  destruct (actor_run (actor_new w) choices) as [a|] eqn:Hrun; [|constructor]. eapply actor_run_reachable; [constructor|done].
Qed.

(** ** Progress *)

Definition call_weight (call : Call) : nat := match call with Sending _ => 5 | Waiting _ => 2 | Kept _ => 1 | Finished _ _ => 0 end.
Definition actor_weight (a : Actor) : nat :=
  (map_weight call_weight (ac_calls a) + 2 * length (ac_queue a) + match ac_phase a with Running => 2 | Stopping => 1 | Dead => 0 end)%nat.

Lemma calls_weight_drop (calls : gmap nat Call) : (map_weight call_weight (drop_sender <$> calls) ≤ map_weight call_weight calls)%nat.
Proof. apply map_weight_fmap_le. intros []; cbn; lia. Qed.

(** Steps of calls and of the worker towards their end; new calls and what arrives from elsewhere are not. *)
Definition own_step (ch : Choice) : bool := match ch with NewCall _ _ | Event _ => false | _ => true end.

Lemma own_step_weight a ch a' : own_step ch = true → actor_step a ch = Some a' → (actor_weight a' < actor_weight a)%nat.
Proof.
  unfold actor_weight. destruct ch as [id c|id| |ev|id r| |]; [done| | |done| | |]; intros _; cbn [actor_step].
  - destruct (ac_calls a !! id) as [[c| | |]|] eqn:Hl; try done. unfold send_step.
    assert (∀ call, (call_weight call ≤ 2)%nat → (map_weight call_weight (<[id := call]> (ac_calls a)) + 3 ≤ map_weight call_weight (ac_calls a))%nat) as Hw.
    { intros call Hc. pose proof (map_weight_insert call_weight _ _ _ call Hl). cbn in *. lia. }
    assert (call_weight (if needs_reply c then Waiting c else Finished c Sent) ≤ 2)%nat as H2 by (destruct (needs_reply c); cbn; lia).
    pose proof (Hw _ H2). pose proof (Hw (Finished c NotSent) ltac:(cbn; lia)).
    destruct (ac_phase a) eqn:Hph; (try destruct (_ <? _)%nat; [|done]) || idtac; intros [= <-]; cbn [with_calls ac_calls ac_queue ac_phase];
      rewrite ?Hph, ?length_app; cbn [length]; lia.
  - destruct (ac_phase a) eqn:Hph; [|done|done]. destruct (ac_queue a) as [|[id c] queue]; [done|]. intros [= <-]. unfold take_step.
    destruct (handle _ c) as [[w answered]|].
    + cbn [ac_calls ac_queue ac_phase length]. destruct (needs_reply c); [|lia].
      pose proof (map_weight_insert_le call_weight (ac_calls a) id (match answered with Replied r => Finished c (Got r) | KeepsSender => Kept c
        | DropsSender => Finished c NoAnswer end)) as Hle. destruct answered; cbn in *; lia.
    + pose proof (calls_weight_drop (ac_calls a)). cbn [worker_gone ac_calls ac_queue ac_phase length]. lia.
  - destruct (ac_calls a !! id) as [[| |c|]|] eqn:Hl; try done. destruct (from_option (reply_fits c) true r) eqn:Hfits; [|done]. intros [= <-]. cbn [with_calls ac_calls ac_queue ac_phase].
    pose proof (map_weight_insert call_weight _ _ _ (Finished c (from_option Got NoAnswer r)) Hl). cbn in *. lia.
  - destruct (ac_phase a) eqn:Hph; [|done|done]. intros [= <-]. cbn [ac_calls ac_queue ac_phase]. lia.
  - destruct (ac_phase a) eqn:Hph; [done| |done]. intros [= <-]. cbn [worker_gone ac_calls ac_queue ac_phase length].
    pose proof (calls_weight_drop (ac_calls a)). lia.
Qed.

(** The steps that no call has to wait for. *)
Definition call_step (ch : Choice) : bool := match ch with Send _ | Take | End => true | _ => false end.

(** While somebody waits, somebody can move: a caller, the worker while it runs, or its end. *)
Lemma call_step_enabled a id call : actor_inv a → ac_calls a !! id = Some call → (0 < call_weight call)%nat →
  (∀ c, call ≠ Kept c) → ∃ ch a', call_step ch = true ∧ actor_step a ch = Some a'.
Proof.
  intros I Hl Hw Hk. destruct (ac_phase a) eqn:Hph.
  - destruct (ac_queue a) as [|[id' c'] queue] eqn:Hq.
    + destruct call as [c|c|c|]; [| |by destruct (Hk c)|cbn in Hw; lia].
      * exists (Send id). cbn [actor_step]. rewrite Hl. unfold send_step. rewrite Hph, Hq. eauto.
      * apply (inv_calls _ I) in Hl as [Hin _]. rewrite Hq in Hin. by apply elem_of_nil in Hin.
    + exists Take. cbn [actor_step]. rewrite Hph, Hq. eauto.
  - exists End. cbn [actor_step]. rewrite Hph. eauto.
  - destruct (inv_dead _ I Hph) as [_ Hd]. destruct call as [c|c|c|]; [| | |cbn in Hw; lia].
    + exists (Send id). cbn [actor_step]. rewrite Hl. unfold send_step. rewrite Hph. eauto.
    + by destruct (Hd id c).
    + by destruct (Hd id c).
Qed.

(** However calls, the worker and its end interleave: commands are taken in the order in which
    they were sent, each at most once; a call that has ended got the answer to its own command, given by
    a state of the worker (or later, when the worker kept the sender), or it failed because the
    worker is gone, never to have been sent or to be left without an answer.  Steps of calls and of
    the worker run out, and when they have every call has ended or its sender is kept; none is
    kept once the worker is gone. *)
Theorem calls_answered w a : reachable w a →
  NoDup (ac_sent a).*1 ∧ (ac_handled a).*1 `prefix_of` ac_sent a ∧
  (∀ id c o, ac_calls a !! id = Some (Finished c o) → call_ok a id (Finished c o)) ∧
  (∀ ch a', own_step ch = true → actor_step a ch = Some a' → (actor_weight a' < actor_weight a)%nat) ∧
  ((∀ ch, call_step ch = true → actor_step a ch = None) →
     ∀ id call, ac_calls a !! id = Some call → (∃ c o, call = Finished c o) ∨ (ac_phase a ≠ Dead ∧ ∃ c, call = Kept c)).
Proof.
  intros Hr. pose proof (actor_reachable_inv _ _ Hr) as I. split_and!.
  - apply I.
  - etrans; [|exact (inv_fifo _ I)]. by apply prefix_app_r.
  - intros id c o. apply I.
  - intros ch a' Hown Hstep. by eapply own_step_weight.
  - intros Hrest id call Hl. destruct call as [c|c|c|c o]; [| | |left; eauto].
    1-2: destruct (call_step_enabled a id _ I Hl) as (ch&a'&Hcs&Hstep); [cbn; lia|done|]; by rewrite Hrest in Hstep.
    right. split; [|eauto]. intros Hd. by destruct (inv_dead _ I Hd) as [_ Hc], (Hc id c).
Qed.
End Actor.
