(* ===== verification/Executor.v ===== *)
(** * Timers and futures (src/node/src/executor.rs and utils/fused_reusable_future.rs)

    The timers of browsers, the future with a timeout, the reusable future of the syncer, and the future with
    which a task in a browser lets the event loop of JavaScript run.  A future is a
    state with a function that polls it; polling one again after it was ready is an error of the
    caller, which may panic. *)

From S2P Require Import Prelude.

Inductive Poll (A : Type) := Ready (a : A) | Pending.
Arguments Ready {A} _. Arguments Pending {A}.

(** ** Timers of browsers *)

(** [u32::try_from(duration.as_millis().max(1)).unwrap_or(u32::MAX)], of a duration in nanoseconds. *)
Definition timer_millis (duration : Z) : Z :=
  let millis := Z.max (duration / 1000000) 1 in
  if millis <=? 2 ^ 32 - 1 then millis else 2 ^ 32 - 1.

(** ** A future with a timeout *)

Section Timeout.
Context {F A : Type} (poll_value : F → Poll A * F).
Inductive Elapsed := ElapsedError.

(** [Timeout::poll]; [fired] says whether the delay is ready. *)
Definition timeout_poll (value : F) (fired : bool) : Poll (res Elapsed A) * F :=
  match poll_value value with
  | (Ready v, value) => (Ready (Ok v), value)
  | (Pending, value) => (if fired then Ready (Err ElapsedError) else Pending, value)
  end.
(** Polled until it is ready; a timer that has fired stays so. *)
Fixpoint timeout_run (value : F) (fired : list bool) : option (res Elapsed A) :=
  match fired with
  | [] => None
  | b :: fired =>
      match timeout_poll value b with
      | (Ready r, _) => Some r
      | (Pending, value) => timeout_run value fired
      end
  end.
(** The future alone: at which of [n] polls it is ready. *)
Fixpoint ready_at (value : F) (n : nat) : option (nat * A) :=
  match n with
  | O => None
  | S n =>
      match poll_value value with
      | (Ready v, _) => Some (O, v)
      | (Pending, value) => '(i, v) ← ready_at value n; Some (S i, v)
      end
  end.
(** The first poll that finds the timer fired. *)
Fixpoint fires_at (fired : list bool) : option nat :=
  match fired with
  | [] => None
  | true :: _ => Some O
  | false :: fired => S <$> fires_at fired
  end.

(** The value is returned exactly when it is ready no later than the timer: it wins when both are
    ready at the same poll, and the timeout is returned only when the value is late. *)
Theorem timeout_exact value fired :
  timeout_run value fired =
    match ready_at value (length fired), fires_at fired with
    | Some (i, v), Some j => if (i <=? j)%nat then Some (Ok v) else Some (Err ElapsedError)
    | Some (_, v), None => Some (Ok v)
    | None, Some _ => Some (Err ElapsedError)
    | None, None => None
    end.
Proof.
  revert value; induction fired as [|b fired IH]; intros value; [done|]. cbn [timeout_run length ready_at fires_at]. unfold timeout_poll.
  destruct (poll_value value) as [[v|] value']; [by destruct b; [|destruct (fires_at fired)]|]. destruct b.
  - by destruct (ready_at value' (length fired)) as [[i v]|].
  - rewrite IH. destruct (ready_at value' (length fired)) as [[i v]|], (fires_at fired); done.
Qed.
End Timeout.

(** A timer of a browser waits for the duration cut to milliseconds, at least one and at most 2^32 - 1: it
    fires too early by less than a millisecond, or, for durations of fifty days and more, when
    they are cut. *)
Theorem timer_millis_exact d : 0 ≤ d →
  1 ≤ timer_millis d ≤ 2 ^ 32 - 1 ∧
  (1000000 ≤ d < 2 ^ 32 * 1000000 → timer_millis d * 1000000 ≤ d < (timer_millis d + 1) * 1000000) ∧
  (2 ^ 32 * 1000000 ≤ d → timer_millis d = 2 ^ 32 - 1).
Proof.
  intros Hd. unfold timer_millis. pose proof (Z.div_mod d 1000000 ltac:(lia)). pose proof (Z.mod_pos_bound d 1000000 ltac:(lia)).
  destruct (Z.leb_spec (Z.max (d / 1000000) 1) (2 ^ 32 - 1)); lia.
Qed.
Lemma timer_millis_exact_witness : timer_millis 1999999 * 1000000 ≤ 1999999.
Proof. apply (timer_millis_exact 1999999 ltac:(lia)). lia. Defined.

(** ** The reusable future (fused_reusable_future.rs) *)

Section Fused.
Context {F A : Type} (poll_future : F → Poll A * F).

(** A boxed future: [std::future::pending()], one in progress, or one that was ready and must not be
    polled again. *)
Inductive Boxed := Never | Running (f : F) | Completed.
Definition boxed_poll (b : Boxed) : res Empty_set (Poll A * Boxed) :=
  match b with
  | Never => Ok (Pending, Never)
  | Running f => Ok (match poll_future f with (Ready a, _) => (Ready a, Completed) | (Pending, f) => (Pending, Running f) end)
  | Completed => Panic
  end.

Record FusedReusableFuture := { fu_fut : Boxed; fu_terminated : bool }.
Definition fused_terminated : FusedReusableFuture := {| fu_fut := Never; fu_terminated := true |}.
Definition fused_terminate (u : FusedReusableFuture) : FusedReusableFuture :=
  if negb (fu_terminated u) then {| fu_fut := Never; fu_terminated := true |} else u.
Definition fused_is_terminated (u : FusedReusableFuture) : bool := fu_terminated u.
Definition fused_set (u : FusedReusableFuture) (f : F) : FusedReusableFuture := {| fu_fut := Running f; fu_terminated := false |}.
Definition fused_poll (u : FusedReusableFuture) : res Empty_set (Poll A * FusedReusableFuture) :=
  if fu_terminated u then Ok (Pending, u) else
  '(p, fut) ← boxed_poll (fu_fut u);
  match p with
  | Ready val => Ok (Ready val, {| fu_fut := fut; fu_terminated := true |})
  | Pending => Ok (Pending, {| fu_fut := fut; fu_terminated := fu_terminated u |})
  end.

Inductive FusedOp := Terminate | SetFuture (f : F) | PollIt.
(** The operations in order, with the values it was ready with. *)
Fixpoint fused_run (u : FusedReusableFuture) (ops : list FusedOp) : res Empty_set (list A * FusedReusableFuture) :=
  match ops with
  | [] => Ok ([], u)
  | Terminate :: ops => fused_run (fused_terminate u) ops
  | SetFuture f :: ops => fused_run (fused_set u f) ops
  | PollIt :: ops =>
      '(p, u) ← fused_poll u;
      '(l, u) ← fused_run u ops;
      Ok (match p with Ready a => a :: l | Pending => l end, u)
  end.

(** What the operations mean: a slot with at most one future, which is emptied when it is ready. *)
Fixpoint slot_run (slot : option F) (ops : list FusedOp) : list A * option F :=
  match ops with
  | [] => ([], slot)
  | Terminate :: ops => slot_run None ops
  | SetFuture f :: ops => slot_run (Some f) ops
  | PollIt :: ops =>
      match slot with
      | None => slot_run None ops
      | Some f =>
          match poll_future f with
          | (Ready a, _) => let '(l, slot) := slot_run None ops in (a :: l, slot)
          | (Pending, f) => slot_run (Some f) ops
          end
      end
  end.
Definition slot_of (u : FusedReusableFuture) : option F :=
  match fu_fut u with Running f => if fu_terminated u then None else Some f | _ => None end.
Definition fused_ok (u : FusedReusableFuture) : Prop := match fu_fut u with Running _ => fu_terminated u = false | _ => fu_terminated u = true end.

(** Whatever is done with it in whatever order, the future that was set is never polled after it was
    ready, and the reusable future behaves as a slot: it is terminated exactly while the slot is
    empty, and then never ready. *)
Theorem fused_refines_slot ops : ∃ u, fused_run fused_terminated ops = Ok ((slot_run None ops).1, u) ∧
  slot_of u = (slot_run None ops).2 ∧ (fused_is_terminated u = true ↔ slot_of u = None).
Proof.
  assert (∀ u, fused_ok u → ∃ u', fused_run u ops = Ok ((slot_run (slot_of u) ops).1, u') ∧ fused_ok u' ∧
    slot_of u' = (slot_run (slot_of u) ops).2) as Hgen.
  { induction ops as [|[|f|] ops IH]; intros u Hu.
    - by exists u.
    - assert (slot_of (fused_terminate u) = None) as Hs by (unfold fused_terminate, slot_of; destruct u as [[] []]; done).
      destruct (IH (fused_terminate u)) as (u'&H1&H2&H3).
      { unfold fused_terminate, fused_ok in *. destruct u as [[] []]; done. }
      rewrite Hs in *. by exists u'.
    - destruct (IH (fused_set u f)) as (u'&H1&H2&H3); [done|]. by exists u'.
    - cbn [fused_run slot_run]. destruct u as [[|f|] []]; try done; cbn [fused_poll fu_terminated fu_fut boxed_poll mbind res_bind slot_of].
      + destruct (IH {| fu_fut := Never; fu_terminated := true |} eq_refl) as (u'&->&H2&H3). by exists u'.
      + destruct (poll_future f) as [[a|] f'].
        * destruct (IH {| fu_fut := Completed; fu_terminated := true |} eq_refl) as (u'&H1&H2&H3). cbn [slot_of fu_fut] in *.
          cbn. rewrite H1. cbn. destruct (slot_run None ops) as [l s]. by exists u'.
        * destruct (IH {| fu_fut := Running f'; fu_terminated := false |} eq_refl) as (u'&H1&H2&H3). cbn [slot_of fu_fut fu_terminated] in *.
          cbn. rewrite H1. by exists u'.
      + destruct (IH {| fu_fut := Completed; fu_terminated := true |} eq_refl) as (u'&->&H2&H3). by exists u'. }
  destruct (Hgen fused_terminated eq_refl) as (u&H1&H2&H3). exists u. split; [exact H1|]. split; [exact H3|].
  unfold fused_is_terminated, fused_ok, slot_of in *. destruct u as [[] []]; done.
Qed.
End Fused.

(** ** Yielding to the event loop of JavaScript *)

Module YieldNow.

(** The future of [yield_now] from its first poll on: the cell [yielded], whether a waker is stored, the timer
    that calls the closure (set, not yet fired or cleared), the guard [ClearTimeoutOnCancel], how often
    the task was woken, and whether it returned or was dropped. *)
Record Yield := {
  y_started : bool; y_yielded : bool; y_waker : bool; y_timer : bool; y_guard : bool; y_wakes : nat; y_ready : bool; y_dropped : bool
}.
Definition yield_new : Yield :=
  {| y_started := false; y_yielded := false; y_waker := false; y_timer := false; y_guard := false; y_wakes := 0; y_ready := false; y_dropped := false |}.

(** Up to the first [await]: [setTimeout] and the guard. *)
Definition yield_start (y : Yield) : Yield :=
  if y_started y then y
  else {| y_started := true; y_yielded := y_yielded y; y_waker := y_waker y; y_timer := true; y_guard := true;
          y_wakes := y_wakes y; y_ready := y_ready y; y_dropped := y_dropped y |}.
(** The closure in [poll_fn], and [guard.disarm()] once it is ready. *)
Definition yield_poll (y : Yield) : Yield :=
  let y := yield_start y in
  if y_yielded y then
    {| y_started := true; y_yielded := true; y_waker := y_waker y; y_timer := y_timer y; y_guard := false;
       y_wakes := y_wakes y; y_ready := true; y_dropped := y_dropped y |}
  else
    {| y_started := true; y_yielded := false; y_waker := true; y_timer := y_timer y; y_guard := y_guard y;
       y_wakes := y_wakes y; y_ready := false; y_dropped := y_dropped y |}.
(** The event loop calls [wake_closure]: [waker.borrow_mut().take().unwrap().wake()].  The closure is gone with
    the future, so a call after that fails. *)
Definition yield_fire (y : Yield) : res Empty_set Yield :=
  if y_dropped y then Panic else
  if y_waker y then
    Ok {| y_started := y_started y; y_yielded := true; y_waker := false; y_timer := false; y_guard := y_guard y;
          y_wakes := S (y_wakes y); y_ready := y_ready y; y_dropped := y_dropped y |}
  else Panic.
(** The future is dropped: the guard, unless disarmed, clears the timer. *)
Definition yield_drop (y : Yield) : Yield :=
  {| y_started := y_started y; y_yielded := y_yielded y; y_waker := y_waker y; y_timer := y_timer y && negb (y_guard y);
     y_guard := false; y_wakes := y_wakes y; y_ready := y_ready y; y_dropped := true |}.

Inductive YieldOp := PollOp | Fire | DropOp.
(** What can happen: the task polls until it is ready or drops the future; the event loop calls the
    closure while the timer is set. *)
Definition yield_step (y : Yield) (op : YieldOp) : option (res Empty_set Yield) :=
  match op with
  | PollOp => if y_ready y || y_dropped y then None else Some (Ok (yield_poll y))
  | Fire => if y_timer y then Some (yield_fire y) else None
  | DropOp => if y_dropped y then None else Some (Ok (yield_drop y))
  end.
Inductive yield_reachable : Yield → Prop :=
| yr_new : yield_reachable yield_new
| yr_step y op y' : yield_reachable y → yield_step y op = Some (Ok y') → yield_reachable y'.

Record yield_inv (y : Yield) : Prop := {
  yi_timer : y_timer y = true → y_waker y = true ∧ y_dropped y = false ∧ y_yielded y = false ∧ y_guard y = true;
  yi_waker : y_waker y = true → y_yielded y = false;
  yi_waiting : y_started y = true → y_dropped y = false → y_yielded y = false → y_timer y = true ∧ y_waker y = true;
  yi_wakes : y_wakes y = if y_yielded y then 1%nat else O;
  yi_ready : y_ready y = true → y_yielded y = true;
  yi_started : y_started y = false → y_timer y = false ∧ y_yielded y = false ∧ y_waker y = false
}.
Lemma yield_poll_inv y : yield_inv y → y_dropped y = false → y_ready y = false → yield_inv (yield_poll y).
Proof.
  intros [Ht Hw Hwait Hwakes _ Hst] Hd Hr. unfold yield_poll, yield_start.
  destruct (y_started y) eqn:Hs; [destruct (y_yielded y) eqn:Hy|destruct (Hst eq_refl) as (Ht0&Hy&Hw0); cbn; rewrite Hy]; split; cbn; try done.
  - intros Hti. by destruct (Ht Hti) as (_&_&?&_).
  - intros Hti. by destruct (Ht Hti) as (_&?&_&?).
  - intros _ _ _. by destruct (Hwait eq_refl Hd eq_refl).
  - by rewrite Hwakes, Hy.
Qed.
Lemma yield_fire_inv y y' : yield_inv y → y_timer y = true → yield_fire y = Ok y' → yield_inv y'.
Proof.
  intros [Ht Hw Hwait Hwakes Hready Hst] Hti. destruct (Ht Hti) as (Hwk&Hd&Hy&Hg). unfold yield_fire. rewrite Hd, Hwk. intros [= <-].
  split; cbn; try done; [by rewrite Hwakes, Hy|]. intros Hs. destruct (Hst Hs). congruence.
Qed.
Lemma yield_drop_inv y : yield_inv y → y_dropped y = false → yield_inv (yield_drop y).
Proof.
  intros [Ht Hw Hwait Hwakes Hready Hst] Hd.
  assert (y_timer y && negb (y_guard y) = false) as Hgone.
  { destruct (y_timer y) eqn:Hti; [|done]. by destruct (Ht eq_refl) as (_&_&_&->). }
  split; cbn; rewrite ?Hgone; try done. intros Hs. by destruct (Hst Hs) as (_&?&?).
Qed.
Lemma yield_step_inv y op y' : yield_inv y → yield_step y op = Some (Ok y') → yield_inv y'.
Proof.
  intros I. destruct op; cbn [yield_step].
  - destruct (y_ready y) eqn:Hr; [done|]. destruct (y_dropped y) eqn:Hd; [done|]. intros [= <-]. by apply yield_poll_inv.
  - destruct (y_timer y) eqn:Ht; [|done]. intros [= Hf]. by eapply yield_fire_inv.
  - destruct (y_dropped y) eqn:Hd; [done|]. intros [= <-]. by apply yield_drop_inv.
Qed.
Lemma yield_reachable_inv y : yield_reachable y → yield_inv y.
Proof. induction 1 as [|y op y' _ IH Hs]; [by split|by eapply yield_step_inv]. Qed.

(** Yielding never panics, wherever the task is dropped: the closure is called only while it exists and
    with a waker stored.  The future is ready only after the event loop has run, the task is
    woken at most once, and while it waits the timer is set; when the timer has fired the next
    poll is ready; nothing is called after the future was dropped. *)
Theorem yield_now_correct y : yield_reachable y →
  (∀ op, yield_step y op ≠ Some Panic) ∧
  (y_ready y = true → y_wakes y = 1%nat) ∧ (y_wakes y ≤ 1)%nat ∧
  (y_started y = true → y_ready y = false → y_dropped y = false →
     (∃ y', yield_step y Fire = Some (Ok y')) ∨ y_ready (yield_poll y) = true) ∧
  (y_dropped y = true → yield_step y Fire = None).
Proof.
  intros Hr. destruct (yield_reachable_inv _ Hr) as [Ht Hw Hwait Hwakes Hready Hst]. split_and!.
  - intros [] Hp; cbn in Hp; [by case_match| |by case_match]. destruct (y_timer y) eqn:Htm; [|done].
    destruct (Ht eq_refl) as (Hwk&Hd&_). unfold yield_fire in Hp. by rewrite Hwk, Hd in Hp.
  - intros Hy. by rewrite Hwakes, (Hready Hy).
  - rewrite Hwakes. destruct (y_yielded y); lia.
  - intros Hs Hnr Hd. destruct (y_yielded y) eqn:Hy.
    + right. unfold yield_poll, yield_start. by rewrite Hs, Hy.
    + left. destruct (Hwait Hs Hd eq_refl) as [Htm Hwk]. unfold yield_step, yield_fire. rewrite Htm, Hd, Hwk. eauto.
  - intros Hd. cbn. destruct (y_timer y) eqn:Htm; [|done]. destruct (Ht eq_refl) as (_&?&_). congruence.
Qed.
Lemma yield_now_correct_witness : (y_wakes (yield_poll yield_new) ≤ 1)%nat.
Proof. apply yield_now_correct. apply (yr_step yield_new PollOp); [constructor|reflexivity]. Defined.
End YieldNow.
