(* ===== verification/BlockRanges.v ===== *)
(** * Block ranges (src/node/src/block_ranges.rs)

    Inclusive ranges of block heights and sorted lists of them, the data
    structure every other component of the node keeps its bookkeeping in: the
    stores record which heights they hold, the sampler its queue.  The
    operations are those of the source, early exits of the loops included; a
    [debug_assert!] that fails and an addition that overflows are a panic.  The
    specification reads a list of ranges as the set of heights it contains. *)

From S2P Require Import Prelude.

(** ** Data *)

(** [BlockRange = RangeInclusive<u64>].  (The flag by which an iterated range
    remembers that it is exhausted is not represented: no range is iterated in
    place.) *)
Record BlockRange := BR { br_start : Z; br_end : Z }.

Declare Scope range_scope.
Delimit Scope range_scope with range.
Notation "a ..= b" := (BR a b) (at level 55, no associativity) : range_scope.
#[global] Open Scope range_scope.

#[global] Instance BlockRange_eq_dec : EqDecision BlockRange.
Proof. solve_decision. Defined.

Inductive BlockRangesError :=
| UnsortedBlockRanges
| InvalidBlockRange (r : BlockRange)
| BlockRangeOverlap (to_insert overlap : BlockRange)
| NoAdjacentNeighbors (r : BlockRange).

Notation BlockRanges := (list BlockRange).

(** ** One range: the trait BlockRangeExt *)

Definition range_validate (r : BlockRange) : res BlockRangesError unit :=
  if (0 <? br_start r) && (br_start r <=? br_end r) then Ok tt
  else Err (InvalidBlockRange r).

(** [RangeInclusive::contains] and [RangeInclusive::is_empty]. *)
Definition range_contains (r : BlockRange) (h : Z) : bool :=
  (br_start r <=? h) && (h <=? br_end r).
Definition range_is_empty (r : BlockRange) : bool :=
  negb (br_start r <=? br_end r).

Definition range_len {E} (r : BlockRange) : res E Z :=
  match checked_sub (br_end r) (br_start r) with
  | Some difference => u64_add difference 1
  | None => Ok 0
  end.

Definition is_adjacent {E} (r other : BlockRange) : res E bool :=
  debug_assert (is_ok (range_validate r)) ;;
  debug_assert (is_ok (range_validate other)) ;;
  Ok (if br_end r =? saturating_sub (br_start other) 1 then true
      else if saturating_sub (br_start r) 1 =? br_end other then true
      else false).

Definition is_overlapping {E} (r other : BlockRange) : res E bool :=
  debug_assert (is_ok (range_validate r)) ;;
  debug_assert (is_ok (range_validate other)) ;;
  Ok (if (br_start r <? br_start other) && range_contains other (br_end r) then true
      else if (br_end other <? br_end r) && range_contains other (br_start r) then true
      else if (br_start other <=? br_start r) && (br_end r <=? br_end other) then true
      else if (br_start r <=? br_start other) && (br_end other <=? br_end r) then true
      else false).

Definition left_of {E} (r other : BlockRange) : res E bool :=
  debug_assert (is_ok (range_validate r)) ;;
  debug_assert (is_ok (range_validate other)) ;;
  Ok (br_end r <? br_start other).

Definition truncate_left (r : BlockRange) (limit : Z) : BlockRange :=
  if range_is_empty r then 1 ..= 0 else
  match checked_add (saturating_sub (br_end r) limit) 1 with
  | None => 1 ..= 0
  | Some adjusted_start => Z.max (br_start r) adjusted_start ..= br_end r
  end.

Definition truncate_right (r : BlockRange) (limit : Z) : BlockRange :=
  if range_is_empty r then 1 ..= 0 else
  match checked_sub (saturating_add (br_start r) limit) 1 with
  | None => 1 ..= 0
  | Some adjusted_end => br_start r ..= Z.min (br_end r) adjusted_end
  end.

(** ** Lists of ranges: the struct BlockRanges *)

(** The loop of [from_vec], with the previous range of the iteration. *)
Fixpoint from_vec_loop (prev : option BlockRange) (ranges : BlockRanges)
    : res BlockRangesError unit :=
  match ranges with
  | [] => Ok tt
  | range :: ranges =>
      range_validate range ;;
      (match prev with
       | Some prev =>
           if br_start range <=? br_end prev then Err UnsortedBlockRanges else Ok tt
       | None => Ok tt
       end) ;;
      from_vec_loop (Some range) ranges
  end.
Definition from_vec (ranges : BlockRanges) : res BlockRangesError BlockRanges :=
  from_vec_loop None ranges ;; Ok ranges.

Definition ranges_contains (rs : BlockRanges) (height : Z) : bool :=
  existsb (λ r, range_contains r height) rs.
Definition ranges_is_empty (rs : BlockRanges) : bool :=
  forallb range_is_empty rs.
Definition ranges_head (rs : BlockRanges) : option Z := br_end <$> last rs.
Definition ranges_tail (rs : BlockRanges) : option Z := br_start <$> head rs.

(** The loop of [find_affected_ranges], with its early exit. *)
Fixpoint find_affected_loop {E} (range : BlockRange) (i : nat)
    (start_idx end_idx : option nat) (rs : BlockRanges) : res E (option nat * option nat) :=
  match rs with
  | [] => Ok (start_idx, end_idx)
  | r :: rs =>
      affected ← (overlapping ← is_overlapping r range;
                  if overlapping : bool then Ok true else is_adjacent r range);
      if affected : bool then
        find_affected_loop range (S i)
          (match start_idx with None => Some i | Some s => Some s end) (Some i) rs
      else match end_idx with
           | Some _ => Ok (start_idx, end_idx)
           | None => find_affected_loop range (S i) start_idx end_idx rs
           end
  end.
Definition find_affected_ranges {E} (rs : BlockRanges) (range : BlockRange)
    : res E (option (nat * nat)) :=
  debug_assert (is_ok (range_validate range)) ;;
  '(start_idx, end_idx) ← find_affected_loop range 0 None None rs;
  Ok (match start_idx, end_idx with Some s, Some e => Some (s, e) | _, _ => None end).

Definition calc_overlap (to_insert first_range last_range : BlockRange) : BlockRange :=
  Z.max (br_start first_range) (br_start to_insert)
  ..= Z.min (br_end last_range) (br_end to_insert).

Definition check_insertion_constraints (rs : BlockRanges) (to_insert : BlockRange)
    : res BlockRangesError (bool * bool) :=
  range_validate to_insert ;;
  match last rs with
  | None => Ok (false, false)
  | Some head_range =>
      new_head ← left_of head_range to_insert;
      if new_head : bool then
        prev_exists ← is_adjacent head_range to_insert;
        Ok (prev_exists, false)
      else
      affected ← find_affected_ranges rs to_insert;
      match affected with
      | None => Err (NoAdjacentNeighbors to_insert)
      | Some (first_idx, last_idx) =>
          first ← vec_index rs first_idx;
          last ← vec_index rs last_idx;
          num_of_ranges ← u64_sub (Z.of_nat last_idx) (Z.of_nat first_idx);
          match num_of_ranges + 1 with
          | 0 => Panic
          | 1 =>
              overlapping ← is_overlapping first to_insert;
              if overlapping : bool
              then Err (BlockRangeOverlap to_insert (calc_overlap to_insert first last))
              else
                on_left ← left_of first to_insert;
                Ok (if on_left : bool then (true, false) else (false, true))
          | 2 =>
              adjacent ← (first_adjacent ← is_adjacent first to_insert;
                          if first_adjacent : bool then is_adjacent last to_insert else Ok false);
              if adjacent : bool
              then Ok (true, true)
              else Err (BlockRangeOverlap to_insert (calc_overlap to_insert first last))
          | _ => Err (BlockRangeOverlap to_insert (calc_overlap to_insert first last))
          end
      end
  end.

(** [pop_head] and [pop_tail]: the height taken out and the ranges left. *)
Definition pop_head (rs : BlockRanges) : res Empty_set (option Z * BlockRanges) :=
  match last rs with
  | None => Ok (None, rs)
  | Some l =>
      let head := br_end l in
      len ← range_len l;
      if len =? 1 then Ok (Some head, take (length rs - 1) rs)
      else e ← u64_sub (br_end l) 1;
           Ok (Some head, <[(length rs - 1)%nat := br_start l ..= e]> rs)
  end.

Definition pop_tail (rs : BlockRanges) : res Empty_set (option Z * BlockRanges) :=
  match rs with
  | [] => Ok (None, rs)
  | f :: rest =>
      let tail := br_start f in
      len ← range_len f;
      if len =? 1 then Ok (Some tail, rest)
      else s ← u64_add (br_start f) 1;
           Ok (Some tail, (s ..= br_end f) :: rest)
  end.

(** The search of [insert_relaxed] for the place of a range nothing touches. *)
Fixpoint insert_before (range : BlockRange) (i : nat) (rs : BlockRanges) : option nat :=
  match rs with
  | [] => None
  | r :: rs => if br_end range <? br_start r then Some i
               else insert_before range (S i) rs
  end.

(** The mutating operations return the new contents; they fail, leaving the
    contents as they are, only in their first line. *)
Definition insert_relaxed (rs : BlockRanges) (range : BlockRange)
    : res BlockRangesError BlockRanges :=
  range_validate range ;;
  affected ← find_affected_ranges rs range;
  match affected with
  | Some (start_idx, end_idx) =>
      first ← vec_index rs start_idx;
      last ← vec_index rs end_idx;
      let s := Z.min (br_start first) (br_start range) in
      let e := Z.max (br_end last) (br_end range) in
      drained ← vec_drain start_idx end_idx rs;
      vec_insert start_idx (s ..= e) drained.1
  | None =>
      match insert_before range 0 rs with
      | Some i => vec_insert i range rs
      | None => Ok (rs ++ [range])
      end
  end.

Definition remove_relaxed (rs : BlockRanges) (range : BlockRange)
    : res BlockRangesError BlockRanges :=
  range_validate range ;;
  affected ← find_affected_ranges rs range;
  match affected with
  | None => Ok rs
  | Some (start_idx, end_idx) =>
      drained ← vec_drain start_idx end_idx rs;
      first_range ← expect (head drained.2);
      last_range ← expect (last drained.2);
      rs1 ← (if br_end range <? br_end last_range then
               s ← u64_add (br_end range) 1;
               vec_insert start_idx (s ..= br_end last_range) drained.1
             else Ok drained.1);
      if br_start first_range <? br_start range then
        e ← u64_sub (br_start range) 1;
        vec_insert start_idx (br_start first_range ..= e) rs1
      else Ok rs1
  end.

(** [impl Add] and [impl Sub]: fold the ranges of the right operand in. *)
Fixpoint ranges_add (rs rhs : BlockRanges) : res Empty_set BlockRanges :=
  match rhs with
  | [] => Ok rs
  | range :: rhs => rs' ← expect_ok (insert_relaxed rs range); ranges_add rs' rhs
  end.
Fixpoint ranges_sub (rs rhs : BlockRanges) : res Empty_set BlockRanges :=
  match rhs with
  | [] => Ok rs
  | range :: rhs => rs' ← expect_ok (remove_relaxed rs range); ranges_sub rs' rhs
  end.

(** ** Specification vocabulary *)

(** What [range_validate] accepts, on [u64] bounds. *)
Definition range_valid (r : BlockRange) : Prop :=
  0 < br_start r ∧ br_start r ≤ br_end r ∧ br_end r ≤ u64_max.

(** A list of ranges read as a set of heights. *)
Definition in_range (h : Z) (r : BlockRange) : Prop := br_start r ≤ h ≤ br_end r.
Definition in_ranges (h : Z) (rs : BlockRanges) : Prop := Exists (in_range h) rs.

(** The ranges are non-empty, ascending, and leave more than [g] heights
    between [lo] and the first one and between neighbours. *)
Fixpoint chain (g lo : Z) (rs : BlockRanges) : Prop :=
  match rs with
  | [] => True
  | r :: rs => lo + g < br_start r ∧ br_start r ≤ br_end r ∧ br_end r ≤ u64_max ∧
               chain g (br_end r) rs
  end.

(** [sorted_ranges] is what [from_vec] checks.  [canonical] ranges moreover do
    not touch each other, so that a set of heights has one representation. *)
Definition sorted_ranges (rs : BlockRanges) : Prop := chain 0 0 rs.
Definition canonical (rs : BlockRanges) : Prop := chain 1 (-1) rs.

Fixpoint last_end (lo : Z) (rs : BlockRanges) : Z :=
  match rs with [] => lo | r :: rs => last_end (br_end r) rs end.

(** The number of heights of a range. *)
Definition range_size (r : BlockRange) : Z := Z.max 0 (br_end r - br_start r + 1).

(** Where a stored range lies relative to a range to insert or remove. *)
Definition far_left (range r : BlockRange) : Prop := br_end r + 1 < br_start range.
Definition far_right (range r : BlockRange) : Prop := br_end range + 1 < br_start r.
Definition touching (range r : BlockRange) : Prop :=
  br_start range ≤ br_end r + 1 ∧ br_start r ≤ br_end range + 1.

#[global] Instance range_valid_dec r : Decision (range_valid r).
Proof. unfold range_valid. apply _. Defined.
#[global] Instance in_range_dec h r : Decision (in_range h r).
Proof. unfold in_range. apply _. Defined.
#[global] Instance in_ranges_dec h rs : Decision (in_ranges h rs).
Proof. unfold in_ranges. apply _. Defined.
#[global] Instance chain_dec g lo rs : Decision (chain g lo rs).
Proof. revert lo. induction rs; intros lo; simpl; apply _. Defined.
#[global] Instance sorted_ranges_dec rs : Decision (sorted_ranges rs).
Proof. unfold sorted_ranges. apply _. Defined.
#[global] Instance canonical_dec rs : Decision (canonical rs).
Proof. unfold canonical. apply _. Defined.
#[global] Instance far_left_dec range r : Decision (far_left range r).
Proof. unfold far_left. apply _. Defined.
#[global] Instance far_right_dec range r : Decision (far_right range r).
Proof. unfold far_right. apply _. Defined.

Ltac range_tac :=
  unfold range_valid, in_range, far_left, far_right, touching, range_contains,
    range_is_empty, saturating_sub, u64_max in *; simpl in *; lia.

Create HintDb lumina.

(** ** Lemmas: one range *)

Lemma range_validate_Ok r : range_valid r → range_validate r = Ok tt.
Proof. unfold range_validate. intros ?. case_ifs; [done|range_tac]. Qed.

Lemma range_validate_Ok_inv r u : range_validate r = Ok u →
  0 < br_start r ∧ br_start r ≤ br_end r.
Proof. unfold range_validate. case_ifs; [lia|done]. Qed.

Lemma range_contains_spec r h : range_contains r h = true ↔ in_range h r.
Proof. range_tac. Qed.

(** The assertions hold for valid ranges, and the operations decide what they are named for. *)
Lemma is_overlapping_Ok {E} r range : range_valid r → range_valid range →
  @is_overlapping E r range = Ok (bool_decide (br_start range ≤ br_end r ∧ br_start r ≤ br_end range)).
Proof.
  intros Hr Hg. unfold is_overlapping. rewrite !range_validate_Ok by done. cbn. f_equal.
  case_ifs; symmetry; first [apply bool_decide_true; range_tac|apply bool_decide_false; range_tac].
Qed.

Lemma is_adjacent_Ok {E} r range : range_valid r → range_valid range →
  @is_adjacent E r range = Ok (bool_decide (br_end r + 1 = br_start range ∨ br_end range + 1 = br_start r)).
Proof.
  intros Hr Hg. unfold is_adjacent. rewrite !range_validate_Ok by done. cbn. f_equal.
  unfold saturating_sub. case_ifs; symmetry; first [apply bool_decide_true; range_tac|apply bool_decide_false; range_tac].
Qed.

Lemma left_of_Ok {E} r range : range_valid r → range_valid range →
  @left_of E r range = Ok (br_end r <? br_start range).
Proof. intros Hr Hg. unfold left_of. by rewrite !range_validate_Ok. Qed.

(** The condition of the loop of [find_affected_ranges]. *)
Lemma affected_spec {E} r range : range_valid r → range_valid range →
  (overlapping ← @is_overlapping E r range; if overlapping : bool then Ok true else is_adjacent r range) =
  Ok (bool_decide (touching range r)).
Proof.
  intros Hr Hg. rewrite is_overlapping_Ok, is_adjacent_Ok by done. cbn [mbind res_bind].
  case_bool_decide; f_equal; [symmetry; apply bool_decide_true; range_tac|].
  apply bool_decide_ext. range_tac.
Qed.

Lemma range_len_Ok {E} r : 0 < br_start r ∨ br_end r < u64_max → 0 ≤ br_start r → br_end r ≤ u64_max →
  @range_len E r = Ok (range_size r).
Proof.
  intros Hlt H0 Hmax. unfold range_len, checked_sub, range_size. case_ifs; [f_equal; lia|].
  rewrite u64_add_Ok by lia. f_equal. lia.
Qed.

(** The only range of 64-bit heights whose length overflows. *)
Example range_len_overflow : @range_len unit (0 ..= u64_max) = Panic.
Proof. reflexivity. Qed.

(** ** Lemmas: chains *)

Lemma chain_app g lo l1 l2 :
  chain g lo (l1 ++ l2) ↔ chain g lo l1 ∧ chain g (last_end lo l1) l2.
Proof. revert lo; induction l1 as [|r l1 IH]; intros lo; simpl; [tauto|rewrite IH; tauto]. Qed.

Lemma chain_lb g lo rs : 0 ≤ g → chain g lo rs →
  Forall (λ r, lo + g < br_start r ∧ br_start r ≤ br_end r ∧ br_end r ≤ u64_max) rs.
Proof.
  intros Hg. revert lo; induction rs as [|r rs IH]; intros lo; simpl; [done|].
  intros (?&?&?&Hc). constructor; [lia|]. eapply Forall_impl; [by apply IH|].
  simpl; lia.
Qed.

Lemma chain_valid g rs : 0 ≤ g → chain g (-g) rs → Forall range_valid rs.
Proof.
  intros Hg Hc. eapply Forall_impl; [by eapply chain_lb|]. unfold range_valid; simpl; lia.
Qed.

Lemma chain_ub g lo rs : 0 ≤ g → chain g lo rs →
  Forall (λ r, br_end r ≤ last_end lo rs) rs ∧ lo ≤ last_end lo rs.
Proof.
  intros Hg. revert lo; induction rs as [|r rs IH]; intros lo; simpl; [split; [done|lia]|].
  intros (?&?&?&Hc). destruct (IH _ Hc) as [? ?]. split; [by constructor|lia].
Qed.

Lemma chain_weaken g lo lo' rs :
  chain g lo rs → Forall (λ r, lo' + g < br_start r) rs → chain g lo' rs.
Proof. destruct rs; simpl; [done|]. inversion 2; subst; tauto. Qed.

Lemma chain_gap g g' lo lo' rs : g' ≤ g → lo' + g' ≤ lo + g →
  chain g lo rs → chain g' lo' rs.
Proof.
  intros Hg. revert lo lo'; induction rs as [|r rs IH]; intros lo lo' ?; simpl; [done|].
  intros (?&?&?&Hc). repeat split; [lia..|]. eapply IH; [|done]. lia.
Qed.

Lemma last_end_lt g lo x rs :
  lo + g < x → Forall (λ r, br_end r + g < x) rs → last_end lo rs + g < x.
Proof.
  revert lo; induction rs as [|r rs IH]; intros lo ?; simpl; [done|].
  inversion 1; subst; auto.
Qed.

Lemma last_end_snoc lo rs r : last_end lo (rs ++ [r]) = br_end r.
Proof. revert lo; induction rs; intros lo; simpl; auto. Qed.

Lemma last_end_last lo rs : last_end lo rs = default lo (br_end <$> last rs).
Proof.
  induction rs as [|r rs _] using rev_ind; [done|].
  by rewrite last_end_snoc, last_snoc.
Qed.

Lemma canonical_sorted rs : canonical rs → sorted_ranges rs.
Proof. apply chain_gap; lia. Qed.

(** ** Lemmas: sets of heights *)

Lemma in_ranges_nil h : in_ranges h [] ↔ False.
Proof. apply Exists_nil. Qed.
Lemma in_ranges_cons h r rs : in_ranges h (r :: rs) ↔ in_range h r ∨ in_ranges h rs.
Proof. apply Exists_cons. Qed.
Lemma in_ranges_app h l1 l2 : in_ranges h (l1 ++ l2) ↔ in_ranges h l1 ∨ in_ranges h l2.
Proof. apply Exists_app. Qed.

Lemma ranges_contains_spec rs h : ranges_contains rs h = true ↔ in_ranges h rs.
Proof.
  induction rs as [|r rs IH]; simpl.
  - by rewrite in_ranges_nil.
  - by rewrite orb_true_iff, range_contains_spec, IH, in_ranges_cons.
Qed.

Lemma in_ranges_Forall h rs (P : Z → Prop) :
  Forall (λ r, ∀ h, in_range h r → P h) rs → in_ranges h rs → P h.
Proof. unfold in_ranges. rewrite Forall_forall, Exists_exists. naive_solver. Qed.

Lemma in_ranges_lb g lo rs h : 0 ≤ g → chain g lo rs → in_ranges h rs → lo + g < h.
Proof.
  intros Hg Hc. apply in_ranges_Forall with (P := λ h, lo + g < h).
  eapply Forall_impl; [by eapply chain_lb|]. unfold in_range; simpl; lia.
Qed.

Lemma in_ranges_ub g lo rs h : 0 ≤ g → chain g lo rs → in_ranges h rs → h ≤ last_end lo rs.
Proof.
  intros Hg Hc. apply in_ranges_Forall with (P := λ h, h ≤ last_end lo rs).
  eapply Forall_impl; [by apply (chain_ub g)|]. unfold in_range; simpl; lia.
Qed.

Lemma in_ranges_u64 g rs h : 0 ≤ g → chain g (-g) rs → in_ranges h rs → 0 < h ≤ u64_max.
Proof.
  intros Hg Hc. apply in_ranges_Forall with (P := λ h, 0 < h ≤ u64_max).
  eapply Forall_impl; [by eapply chain_valid|]. unfold in_range, range_valid; simpl; lia.
Qed.

#[export] Hint Rewrite in_ranges_nil in_ranges_cons in_ranges_app : lumina.

(** ** The ranges an insertion or a removal affects *)

Lemma split_touching g lo rs range : 0 ≤ g → chain g lo rs → range_valid range →
  ∃ pre mid post, rs = pre ++ mid ++ post ∧ Forall (far_left range) pre ∧
    Forall (touching range) mid ∧ Forall (far_right range) post.
Proof.
  intros Hg Hc Hv. revert lo Hc; induction rs as [|r rs IH]; intros lo.
  { intros _. by exists [], [], []. }
  intros (?&?&?&Hc). pose proof (chain_lb _ _ _ Hg Hc) as Hlb.
  destruct (IH _ Hc) as (pre&mid&post&->&Hpre&Hmid&Hpost).
  destruct (decide (far_left range r)) as [Hl|Hl].
  { exists (r :: pre), mid, post. auto. }
  assert (pre = []) as ->.
  { destruct pre as [|p pre]; [done|]. apply Forall_cons in Hpre as [Hp _].
    apply Forall_cons in Hlb as [Hp' _]. range_tac. }
  destruct (decide (far_right range r)) as [Hr|Hr].
  - exists [], [], (r :: mid ++ post). split; [done|]. do 2 (split; [done|]).
    constructor; [done|]. eapply Forall_impl; [exact Hlb|]. range_tac.
  - exists [], (r :: mid), post. split_and!; auto. constructor; [range_tac|done].
Qed.

Lemma find_loop_pre {E} range i pre rest :
  Forall range_valid pre → range_valid range → Forall (far_left range) pre →
  @find_affected_loop E range i None None (pre ++ rest) =
  find_affected_loop range (i + length pre) None None rest.
Proof.
  intros Hv Hr. revert i; induction pre as [|p pre IH]; intros i Hf; [by rewrite Nat.add_0_r|].
  apply Forall_cons in Hv as [Hvp Hv]. apply Forall_cons in Hf as [Hfp Hf].
  cbn [app find_affected_loop length]. rewrite affected_spec, bool_decide_false by (done || range_tac).
  cbn [mbind res_bind]. rewrite IH by done. f_equal; lia.
Qed.

Lemma find_loop_mid {E} range i s e mid rest :
  Forall range_valid mid → range_valid range → Forall (touching range) mid → mid ≠ [] →
  @find_affected_loop E range i s e (mid ++ rest) =
  find_affected_loop range (i + length mid) (Some (default i s))
    (Some (i + length mid - 1)%nat) rest.
Proof.
  intros Hv Hr. revert i s e; induction mid as [|p mid IH]; intros i s e Hf Hne; [done|].
  apply Forall_cons in Hv as [Hvp Hv]. apply Forall_cons in Hf as [Hfp Hf].
  cbn [app find_affected_loop length]. rewrite affected_spec, bool_decide_true by done. cbn [mbind res_bind].
  destruct (decide (mid = [])) as [->|Hm].
  - simpl. replace (i + 1)%nat with (S i) by lia. do 2 f_equal; [by destruct s|f_equal; lia].
  - rewrite IH by done. f_equal; [lia| by destruct s |f_equal; lia].
Qed.

Lemma find_loop_post {E} range i s e post :
  Forall range_valid post → range_valid range → Forall (far_right range) post →
  @find_affected_loop E range i s e post = Ok (s, e).
Proof.
  intros Hv Hr. revert i; induction post as [|p post IH]; intros i Hf; [done|].
  apply Forall_cons in Hv as [Hvp Hv]. apply Forall_cons in Hf as [Hfp Hf].
  cbn [app find_affected_loop length]. rewrite affected_spec, bool_decide_false by (done || range_tac).
  cbn [mbind res_bind].
  destruct e; auto.
Qed.

(** The loop with its early exit finds exactly the block of touching ranges. *)
Lemma find_affected_spec {E} g rs range : 0 ≤ g → chain g (-g) rs → range_valid range →
  ∃ pre mid post, rs = pre ++ mid ++ post ∧ Forall (far_left range) pre ∧
    Forall (touching range) mid ∧ Forall (far_right range) post ∧
    @find_affected_ranges E rs range =
      Ok (match mid with [] => None | _ => Some (length pre, length pre + length mid - 1)%nat end).
Proof.
  intros Hg Hc Hr. pose proof (chain_valid _ _ Hg Hc) as Hv.
  destruct (split_touching _ _ _ _ Hg Hc Hr) as (pre&mid&post&->&Hpre&Hmid&Hpost).
  exists pre, mid, post. do 4 (split; [done|]).
  rewrite !Forall_app in Hv. destruct Hv as (Hvpre&Hvmid&Hvpost).
  unfold find_affected_ranges. rewrite range_validate_Ok by done. cbn [is_ok debug_assert mbind res_bind].
  rewrite find_loop_pre by done.
  destruct (decide (mid = [])) as [->|Hne].
  - simpl. by rewrite find_loop_post.
  - rewrite find_loop_mid, find_loop_post by done. by destruct mid.
Qed.

Lemma insert_before_spec range i pre post :
  range_valid range → Forall range_valid pre → Forall (far_left range) pre →
  Forall (far_right range) post →
  insert_before range i (pre ++ post) =
    match post with [] => None | _ => Some (i + length pre)%nat end.
Proof.
  intros Hr Hv Hpre Hpost. revert i; induction pre as [|p pre IH]; intros i; simpl.
  - destruct Hpost as [|p post Hp]; [done|]. simpl. case_ifs; [f_equal; lia|range_tac].
  - apply Forall_cons in Hv as [Hvp Hv]. apply Forall_cons in Hpre as [Hfp Hpre].
    case_ifs; [range_tac|]. rewrite IH by done. destruct post; [done|f_equal; lia].
Qed.

Lemma cons_snoc {A} (x : A) l : ∃ k y, x :: l = k ++ [y].
Proof. induction l using rev_ind; [by exists [], x|]. by eexists (x :: l), _. Qed.

Lemma far_left_disjoint range rs h : range_valid range →
  Forall (far_left range) rs → in_ranges h rs → ¬ in_range h range.
Proof.
  intros Hr Hf. apply in_ranges_Forall with (P := λ h, ¬ in_range h range).
  eapply Forall_impl; [exact Hf|]. range_tac.
Qed.
Lemma far_right_disjoint range rs h : range_valid range →
  Forall (far_right range) rs → in_ranges h rs → ¬ in_range h range.
Proof.
  intros Hr Hf. apply in_ranges_Forall with (P := λ h, ¬ in_range h range).
  eapply Forall_impl; [exact Hf|]. range_tac.
Qed.

(** A non-empty block of touching ranges and the range they touch span one range. *)
Lemma touching_span g lo f mid' l mid0 range h :
  0 ≤ g → chain g lo (f :: mid') → f :: mid' = mid0 ++ [l] → range_valid range →
  Forall (touching range) (f :: mid') →
  in_range h (Z.min (br_start f) (br_start range) ..= Z.max (br_end l) (br_end range)) ↔
  in_ranges h (f :: mid') ∨ in_range h range.
Proof.
  intros Hg Hc Hl Hr Ht. pose proof (chain_ub _ _ _ Hg Hc) as [Hub _].
  destruct Hc as (?&?&?&Hc). pose proof (chain_lb _ _ _ Hg Hc) as Hlb.
  pose proof (proj1 (Forall_cons _ _ _) Ht) as [Htf _].
  assert (touching range l ∧ br_start l ≤ br_end l) as [Htl Hll].
  { assert (l ∈ f :: mid') as Hin by (rewrite Hl; set_solver).
    split; [by eapply Forall_forall|].
    apply list_elem_of_In in Hin as [<-|Hin%list_elem_of_In]; [done|].
    pose proof (proj1 (Forall_forall _ _) Hlb _ Hin). simpl in *; lia. }
  rewrite Hl in Hub at 1. rewrite Hl, last_end_snoc in Hub.
  split.
  - intros Hh. destruct (decide (in_range h range)); [tauto|left].
    destruct (decide (h < br_start range)); [apply in_ranges_cons; left; range_tac|].
    rewrite Hl, in_ranges_app, in_ranges_cons. right; left. range_tac.
  - intros [Hh|Hh]; [|range_tac]. rewrite <-Hl in Hub.
    unfold in_ranges in Hh. rewrite Exists_exists in Hh. destruct Hh as (p&Hp&Hph).
    pose proof (proj1 (Forall_forall _ _) Hub _ Hp).
    apply list_elem_of_In in Hp as [<-|Hp%list_elem_of_In]; [range_tac|].
    pose proof (proj1 (Forall_forall _ _) Hlb _ Hp). range_tac.
Qed.

(** Replacing the affected block by ranges that stay within its span keeps the chain. *)
Lemma chain_glue g pre mid post new :
  0 ≤ g → chain g (-g) (pre ++ mid ++ post) →
  chain g (last_end (-g) pre) new →
  (Forall (λ r, last_end (last_end (-g) pre) new + g < br_start r) post) →
  chain g (-g) (pre ++ new ++ post).
Proof.
  intros Hg Hc Hn Hp. rewrite !chain_app in Hc |- *. destruct Hc as (Hpre&Hmid&Hpost).
  split; [done|]. split; [done|]. by eapply chain_weaken.
Qed.

Lemma last_end_indep a b rs : rs ≠ [] → last_end a rs = last_end b rs.
Proof. by destruct rs. Qed.

Lemma chain_last_end g lo rs : 0 ≤ g → lo ≤ u64_max → chain g lo rs →
  lo ≤ last_end lo rs ≤ u64_max.
Proof.
  intros Hg Hlo Hc. split; [by apply (chain_ub g)|].
  revert lo Hlo Hc. induction rs as [|r rs IH]; intros lo Hlo; simpl; [done|].
  intros (?&?&?&?). by apply IH.
Qed.

(** A block of touching ranges, seen from both of its ends. *)
Lemma block_ends (pre : BlockRanges) f mid' post :
  ∃ mid0 l, f :: mid' = mid0 ++ [l] ∧
    (pre ++ (f :: mid') ++ post) !! length pre = Some f ∧
    (pre ++ (f :: mid') ++ post) !! (length pre + length (f :: mid') - 1)%nat = Some l ∧
    ∀ lo, last_end lo (f :: mid') = br_end l.
Proof.
  destruct (cons_snoc f mid') as (mid0&l&Hl). exists mid0, l. split; [done|]. split_and!.
  - by apply list_lookup_middle.
  - rewrite Hl, length_app, <-(assoc_L (++)). rewrite lookup_app_r by (simpl; lia).
    apply list_lookup_middle. simpl; lia.
  - intros lo. by rewrite Hl, last_end_snoc.
Qed.

(** *** insert_relaxed *)

Lemma insert_relaxed_split g rs range : 0 ≤ g → chain g (-g) rs → range_valid range →
  ∃ pre mid post m, rs = pre ++ mid ++ post ∧ Forall (far_left range) pre ∧
    Forall (far_right range) post ∧
    insert_relaxed rs range = Ok (pre ++ [m] ++ post) ∧
    br_start m = Z.min (br_start (default range (head mid))) (br_start range) ∧
    br_end m = Z.max (last_end (br_end range) mid) (br_end range) ∧
    ∀ h, in_range h m ↔ in_ranges h mid ∨ in_range h range.
Proof.
  intros Hg Hc Hr. pose proof (chain_valid _ _ Hg Hc) as Hv.
  destruct (find_affected_spec (E := BlockRangesError) _ _ _ Hg Hc Hr) as (pre&mid&post&->&Hpre&Hmid&Hpost&Hf).
  rewrite !Forall_app in Hv. destruct Hv as (Hvpre&Hvmid&Hvpost).
  unfold insert_relaxed. rewrite range_validate_Ok by done; simpl. rewrite Hf. cbv [mbind res_bind].
  destruct mid as [|f mid'].
  - exists pre, [], post, range. do 3 (split; [done|]). split_and!; try (simpl; lia).
    + simpl. rewrite insert_before_spec by done. destruct post; [by rewrite app_nil_r|].
      by rewrite Nat.add_0_l, vec_insert_app.
    + intros h. rewrite in_ranges_nil. tauto.
  - destruct (block_ends pre f mid' post) as (mid0&l&Hl&Hf0&Hl0&Hle).
    exists pre, (f :: mid'), post,
      (Z.min (br_start f) (br_start range) ..= Z.max (br_end l) (br_end range)).
    do 3 (split; [done|]). split_and!.
    + rewrite (vec_index_Some _ _ _ Hf0), (vec_index_Some _ _ _ Hl0).
      unfold mbind, res_bind. rewrite vec_drain_app by done. simpl. by rewrite vec_insert_app.
    + done.
    + by rewrite Hle.
    + intros h. rewrite !chain_app in Hc. destruct Hc as (_&Hc&_). by eapply touching_span.
Qed.

(** Insertion never fails on a valid range, keeps the invariant, and adds
    exactly the heights of the range. *)
Lemma insert_relaxed_chain g rs range : 0 ≤ g ≤ 1 → chain g (-g) rs → range_valid range →
  ∃ rs', insert_relaxed rs range = Ok rs' ∧ chain g (-g) rs' ∧
    ∀ h, in_ranges h rs' ↔ in_ranges h rs ∨ in_range h range.
Proof.
  intros Hg Hc Hr. destruct (insert_relaxed_split g rs range) as
    (pre&mid&post&m&->&Hpre&Hpost&->&Hs&He&Hm); [lia|done..|].
  eexists; split; [done|]. split; [|intros h; autorewrite with lumina; rewrite Hm; tauto].
  pose proof Hc as Hc'. rewrite !chain_app in Hc'. destruct Hc' as (Hcpre&Hcmid&Hcpost).
  assert (last_end (-g) pre + g < br_start range) as Hle.
  { apply last_end_lt; [range_tac|]. eapply Forall_impl; [exact Hpre|]. range_tac. }
  pose proof (chain_last_end g (-g) pre (proj1 Hg) ltac:(range_tac) Hcpre) as Hpu.
  pose proof (chain_last_end g _ _ (proj1 Hg) (proj2 Hpu) Hcmid) as Hmu.
  assert (mid = [] ∨ last_end (br_end range) mid = last_end (last_end (-g) pre) mid ∧
    last_end (-g) pre + g < br_start (default range (head mid)) ≤ u64_max) as Hcase.
  { destruct mid as [|f mid']; [by left|right]. split; [by apply last_end_indep|].
    destruct Hcmid as (?&?&?&_). simpl; lia. }
  eapply chain_glue; [lia|done| |].
  - simpl. rewrite Hs, He. destruct Hcase as [->|[-> ?]]; [|range_tac]. simpl. range_tac.
  - simpl. rewrite He. apply Forall_forall. intros p Hp.
    pose proof (proj1 (Forall_forall _ _) Hpost _ Hp).
    pose proof (chain_lb _ _ _ (proj1 Hg) Hcpost) as Hlb.
    pose proof (proj1 (Forall_forall _ _) Hlb _ Hp).
    destruct Hcase as [->|[-> ?]]; range_tac.
Qed.

(** *** remove_relaxed *)

(** What is left of the block [f .. l] once [range] is cut out of it. *)
Definition cut_left (f range : BlockRange) : BlockRanges :=
  if br_start f <? br_start range then [br_start f ..= br_start range - 1] else [].
Definition cut_right (l range : BlockRange) : BlockRanges :=
  if br_end range <? br_end l then [br_end range + 1 ..= br_end l] else [].

Lemma in_cut_left h f range : in_ranges h (cut_left f range) ↔ br_start f ≤ h < br_start range.
Proof.
  unfold cut_left. case_ifs; autorewrite with lumina; range_tac.
Qed.
Lemma in_cut_right h l range : in_ranges h (cut_right l range) ↔ br_end range < h ≤ br_end l.
Proof.
  unfold cut_right. case_ifs; autorewrite with lumina; range_tac.
Qed.

Lemma remove_relaxed_split g rs range : 0 ≤ g → chain g (-g) rs → range_valid range →
  (remove_relaxed rs range = Ok rs ∧ ∀ h, in_ranges h rs → ¬ in_range h range) ∨
  ∃ pre f mid' mid0 l post, rs = pre ++ (f :: mid') ++ post ∧ f :: mid' = mid0 ++ [l] ∧
    Forall (far_left range) pre ∧ Forall (touching range) (f :: mid') ∧
    Forall (far_right range) post ∧
    remove_relaxed rs range = Ok (pre ++ (cut_left f range ++ cut_right l range) ++ post).
Proof.
  intros Hg Hc Hr. pose proof (chain_valid _ _ Hg Hc) as Hv.
  destruct (find_affected_spec (E := BlockRangesError) _ _ _ Hg Hc Hr) as (pre&mid&post&->&Hpre&Hmid&Hpost&Hf).
  unfold remove_relaxed. rewrite range_validate_Ok by done; simpl. rewrite Hf. cbv [mbind res_bind].
  destruct mid as [|f mid'].
  { left. split; [done|]. intros h. simpl. rewrite in_ranges_app.
    intros [Hh|Hh]; [by eapply far_left_disjoint|by eapply far_right_disjoint]. }
  right. destruct (block_ends pre f mid' post) as (mid0&l&Hl&_&_&Hle).
  exists pre, f, mid', mid0, l, post. do 5 (split; [done|]).
  assert (range_valid l) as Hvl.
  { rewrite Hl, !Forall_app, Forall_singleton in Hv. tauto. }
  unfold mbind, res_bind. rewrite vec_drain_app by done. simpl.
  change (match mid' with [] => Some f | _ => _ end) with (last (f :: mid')).
  rewrite Hl, last_snoc. simpl. unfold cut_left, cut_right.
  destruct (br_end range <? br_end l) eqn:E1, (br_start f <? br_start range) eqn:E2;
    rewrite ?u64_add_Ok, ?u64_sub_Ok by range_tac; rewrite ?vec_insert_app; done.
Qed.

Lemma remove_relaxed_chain g rs range : 0 ≤ g ≤ 1 → chain g (-g) rs → range_valid range →
  ∃ rs', remove_relaxed rs range = Ok rs' ∧ chain g (-g) rs' ∧
    ∀ h, in_ranges h rs' ↔ in_ranges h rs ∧ ¬ in_range h range.
Proof.
  intros Hg Hc Hr. destruct (remove_relaxed_split g rs range) as
    [[-> Hno]|(pre&f&mid'&mid0&l&post&->&Hl&Hpre&Hmid&Hpost&->)]; [lia|done..| |].
  { exists rs. split; [done|]. split; [done|]. naive_solver. }
  eexists; split; [done|].
  pose proof Hc as Hc'. rewrite !chain_app in Hc'. destruct Hc' as (Hcpre&Hcmid&Hcpost).
  assert (last_end (-g) pre + g < br_start range) as Hle.
  { apply last_end_lt; [range_tac|]. eapply Forall_impl; [exact Hpre|]. range_tac. }
  assert (Hlast : last_end (last_end (-g) pre) (f :: mid') = br_end l) by (by rewrite Hl, last_end_snoc).
  pose proof (chain_ub _ _ _ (proj1 Hg) Hcmid) as [Hub _]. rewrite Hlast in Hub, Hcpost.
  assert (touching range l ∧ range_valid l) as [Htl Hvl].
  { pose proof (chain_valid _ _ (proj1 Hg) Hc) as Hv.
    rewrite Hl, !Forall_app, Forall_singleton in Hv.
    rewrite Hl, Forall_app, Forall_singleton in Hmid. tauto. }
  pose proof (proj1 (Forall_cons _ _ _) Hmid) as [Htf _].
  assert (last_end (-g) pre + g < br_start f ∧ br_start f ≤ br_end f ∧ br_end f ≤ u64_max) as (?&?&?).
  { destruct Hcmid as (?&?&?&_). done. }
  split.
  - eapply chain_glue; [lia|done| |].
    + unfold cut_left, cut_right. case_ifs; simpl; range_tac.
    + apply Forall_forall. intros p Hp.
      pose proof (proj1 (Forall_forall _ _) Hpost _ Hp).
      pose proof (proj1 (Forall_forall _ _) (chain_lb _ _ _ (proj1 Hg) Hcpost) _ Hp).
      unfold cut_left, cut_right. case_ifs; range_tac.
  - intros h. rewrite !in_ranges_app, in_cut_left, in_cut_right.
    pose proof (touching_span g _ f mid' l mid0 range h (proj1 Hg) Hcmid Hl Hr Hmid) as Hspan.
    pose proof (far_left_disjoint range pre h Hr Hpre) as Hp1.
    pose proof (far_right_disjoint range post h Hr Hpost) as Hp2.
    assert (in_ranges h (f :: mid') ∧ ¬ in_range h range ↔
      br_start f ≤ h < br_start range ∨ br_end range < h ≤ br_end l) as Hcut.
    { unfold in_range in Hspan |- *; simpl in Hspan. destruct Hspan as [Hs1 Hs2]. split.
      - intros [HM ?]. specialize (Hs2 (or_introl HM)). range_tac.
      - intros Hh. destruct Hs1; [range_tac|split; [done|range_tac]|range_tac]. }
    tauto.
Qed.

(** *** The operators [+] and [-] *)

Lemma ranges_add_chain g rs rhs : 0 ≤ g ≤ 1 → chain g (-g) rs → Forall range_valid rhs →
  ∃ rs', ranges_add rs rhs = Ok rs' ∧ chain g (-g) rs' ∧
    ∀ h, in_ranges h rs' ↔ in_ranges h rs ∨ in_ranges h rhs.
Proof.
  intros Hg Hc Hv. revert rs Hc; induction Hv as [|r rhs Hr Hv IH]; intros rs Hc; simpl.
  { exists rs. split; [done|]. split; [done|]. intros h. autorewrite with lumina. tauto. }
  destruct (insert_relaxed_chain g rs r Hg Hc Hr) as (rs1&->&Hc1&Hin1). simpl.
  destruct (IH rs1 Hc1) as (rs2&->&Hc2&Hin2).
  exists rs2. split; [done|]. split; [done|]. intros h.
  rewrite Hin2, Hin1, in_ranges_cons. tauto.
Qed.

Lemma ranges_sub_chain g rs rhs : 0 ≤ g ≤ 1 → chain g (-g) rs → Forall range_valid rhs →
  ∃ rs', ranges_sub rs rhs = Ok rs' ∧ chain g (-g) rs' ∧
    ∀ h, in_ranges h rs' ↔ in_ranges h rs ∧ ¬ in_ranges h rhs.
Proof.
  intros Hg Hc Hv. revert rs Hc; induction Hv as [|r rhs Hr Hv IH]; intros rs Hc; simpl.
  { exists rs. split; [done|]. split; [done|]. intros h. autorewrite with lumina. tauto. }
  destruct (remove_relaxed_chain g rs r Hg Hc Hr) as (rs1&->&Hc1&Hin1). simpl.
  destruct (IH rs1 Hc1) as (rs2&->&Hc2&Hin2).
  exists rs2. split; [done|]. split; [done|]. intros h.
  rewrite Hin2, Hin1, in_ranges_cons. tauto.
Qed.

(** *** pop_head and pop_tail *)

Lemma pop_tail_chain g rs : 0 ≤ g → chain g (-g) rs →
  (rs = [] ∧ pop_tail rs = Ok (None, [])) ∨
  ∃ t rs', pop_tail rs = Ok (Some t, rs') ∧ ranges_tail rs = Some t ∧ chain g (-g) rs' ∧
    in_ranges t rs ∧ (∀ h, in_ranges h rs → t ≤ h) ∧
    ∀ h, in_ranges h rs' ↔ in_ranges h rs ∧ h ≠ t.
Proof.
  intros Hg Hc. destruct rs as [|f rest]; [by left|right].
  assert (∀ h, in_ranges h rest → br_end f < h) as Hlb.
  { intros h Hh. destruct Hc as (_&_&_&Hc). pose proof (in_ranges_lb _ _ _ _ Hg Hc Hh). lia. }
  simpl in Hc. destruct Hc as (?&?&?&Hc).
  unfold pop_tail. rewrite range_len_Ok by lia. unfold range_size. cbv [mbind res_bind]. case_ifs.
  - exists (br_start f), rest. split_and!; try done.
    + eapply chain_gap; [..|exact Hc]; lia.
    + apply in_ranges_cons; left; range_tac.
    + intros h. rewrite in_ranges_cons. intros [?|Hh%Hlb]; range_tac.
    + intros h. rewrite in_ranges_cons. split; [intros Hh; pose proof (Hlb h Hh); split; [tauto|lia]|].
      intros [[?|?] ?]; [range_tac|done].
  - rewrite u64_add_Ok by lia. simpl. exists (br_start f), ((br_start f + 1 ..= br_end f) :: rest).
    split_and!; try done.
    + simpl. split_and!; [lia..|done].
    + apply in_ranges_cons; left; range_tac.
    + intros h. rewrite in_ranges_cons. intros [?|Hh%Hlb]; range_tac.
    + intros h. rewrite !in_ranges_cons.
      split; [intros [?|Hh]; [split; [left|]; range_tac|pose proof (Hlb h Hh); split; [tauto|lia]]|].
      intros [[?|?] ?]; [left; range_tac|tauto].
Qed.

Lemma pop_head_chain g rs : 0 ≤ g → chain g (-g) rs →
  (rs = [] ∧ pop_head rs = Ok (None, [])) ∨
  ∃ t rs', pop_head rs = Ok (Some t, rs') ∧ ranges_head rs = Some t ∧ chain g (-g) rs' ∧
    in_ranges t rs ∧ (∀ h, in_ranges h rs → h ≤ t) ∧
    ∀ h, in_ranges h rs' ↔ in_ranges h rs ∧ h ≠ t.
Proof.
  intros Hg Hc. destruct rs as [|l rest _] using rev_ind; [by left|right].
  assert (∀ h, in_ranges h rest → h < br_start l) as Hub.
  { intros h Hh. apply chain_app in Hc as [Hc (?&?)].
    pose proof (in_ranges_ub _ _ _ _ Hg Hc Hh). lia. }
  pose proof (chain_valid _ _ Hg Hc) as Hv. rewrite Forall_app, Forall_singleton in Hv.
  destruct Hv as [_ Hv]. apply chain_app in Hc as [Hc (?&?&?&_)].
  unfold pop_head, ranges_head. rewrite last_snoc, range_len_Ok, length_app by range_tac. unfold range_size. simpl.
  replace (length rest + 1 - 1)%nat with (length rest + 0)%nat by lia. case_ifs.
  - exists (br_end l), rest. rewrite Nat.add_0_r, take_app_length. split_and!; try done.
    + apply in_ranges_app; right; apply in_ranges_cons; left; range_tac.
    + intros h. autorewrite with lumina. intros [Hh%Hub|[?|[]]]; range_tac.
    + intros h. autorewrite with lumina. split; [intros Hh; pose proof (Hub h Hh); split; [tauto|lia]|].
      intros [[?|[?|[]]] ?]; [done|range_tac].
  - rewrite u64_sub_Ok by range_tac. simpl.
    exists (br_end l), (rest ++ [br_start l ..= br_end l - 1]).
    rewrite insert_app_r; simpl. split_and!; try done.
    + apply chain_app; split; [done|]. simpl. split_and!; lia || done.
    + apply in_ranges_app; right; apply in_ranges_cons; left; range_tac.
    + intros h. autorewrite with lumina. intros [Hh%Hub|[?|[]]]; range_tac.
    + intros h. autorewrite with lumina.
      split; [intros [Hh|[?|[]]]; [pose proof (Hub h Hh); split; [tauto|lia]|split; [right; left|]; range_tac]|].
      intros [[?|[?|[]]] ?]; [tauto|right; left; range_tac].
Qed.

(** *** Canonical ranges are determined by the heights they contain *)

Lemma canonical_ext_lo lo rs1 rs2 : chain 1 lo rs1 → chain 1 lo rs2 →
  (∀ h, in_ranges h rs1 ↔ in_ranges h rs2) → rs1 = rs2.
Proof.
  revert lo rs2; induction rs1 as [|r1 rs1 IH]; intros lo [|r2 rs2] H1 H2 Heq; [done|..].
  - exfalso. destruct H2 as (?&?&?). apply (in_ranges_nil (br_start r2)), Heq, in_ranges_cons.
    left; range_tac.
  - exfalso. destruct H1 as (?&?&?). apply (in_ranges_nil (br_start r1)), Heq, in_ranges_cons.
    left; range_tac.
  - destruct H1 as (?&?&?&H1), H2 as (?&?&?&H2).
    assert (∀ h, in_ranges h rs1 → br_end r1 + 1 < h) as L1 by (intros h; apply in_ranges_lb; [lia|done]).
    assert (∀ h, in_ranges h rs2 → br_end r2 + 1 < h) as L2 by (intros h; apply in_ranges_lb; [lia|done]).
    assert (∀ h, (in_range h r1 ∨ in_ranges h rs1) ↔ (in_range h r2 ∨ in_ranges h rs2)) as E.
    { intros h. rewrite <-!in_ranges_cons. apply Heq. }
    assert (br_start r1 = br_start r2 ∧ br_end r1 = br_end r2) as [Es Ee].
    { pose proof (proj1 (E (br_start r1)) ltac:(left; range_tac)) as A.
      pose proof (proj2 (E (br_start r2)) ltac:(left; range_tac)) as B.
      assert (br_start r1 = br_start r2) as Hs.
      { destruct A as [A|A%L2], B as [B|B%L1]; range_tac. }
      split; [done|]. destruct (Z.lt_trichotomy (br_end r1) (br_end r2)) as [Hlt|[?|Hlt]]; [exfalso|done|exfalso].
      - destruct (proj2 (E (br_end r1 + 1)) ltac:(left; range_tac)) as [?|C%L1]; range_tac.
      - destruct (proj1 (E (br_end r2 + 1)) ltac:(left; range_tac)) as [?|C%L2]; range_tac. }
    destruct r1, r2; simpl in *; subst. f_equal. eapply IH; [exact H1|exact H2|].
    intros h. specialize (E h). split; intros Hh.
    + pose proof (L1 h Hh). destruct (proj1 E (or_intror Hh)); [range_tac|done].
    + pose proof (L2 h Hh). destruct (proj2 E (or_intror Hh)); [range_tac|done].
Qed.

(** *** from_vec *)

Lemma from_vec_loop_spec prev rs : Forall (λ r, br_end r ≤ u64_max) rs →
  from_vec_loop prev rs = Ok tt ↔
  chain 0 0 rs ∧ match prev with Some p => Forall (λ r, br_end p < br_start r) rs | None => True end.
Proof.
  intros Hb. revert prev; induction Hb as [|r rs Hr Hb IH]; intros prev; simpl.
  { split; [|done]. by destruct prev. }
  unfold range_validate. destruct (_ && _) eqn:E; simpl.
  2:{ split; [done|]. range_tac. }
  assert (chain 0 0 rs ∧ Forall (λ r', br_end r < br_start r') rs ↔ chain 0 (br_end r) rs) as Hc.
  { split.
    - intros [Hc Hf]. eapply chain_weaken; [exact Hc|]. eapply Forall_impl; [exact Hf|]. simpl; lia.
    - intros Hc. split; [eapply chain_gap; [..|exact Hc]; lia|].
      eapply Forall_impl; [by apply (chain_lb 0)|]. simpl; lia. }
  destruct prev as [p|]; simpl.
  - destruct (br_start r <=? br_end p) eqn:E2; simpl.
    + split; [done|]. intros [_ Hf]. apply Forall_cons in Hf as [Hf _]. lia.
    + rewrite IH, Hc, Forall_cons. split; [|tauto].
      intros Hcr. split; [split_and!; try done; lia|]. split; [lia|].
      eapply Forall_impl; [by apply (chain_lb 0)|]. simpl; lia.
  - rewrite IH, Hc. split; [|tauto]. intros. split_and!; try done; lia.
Qed.

Lemma from_vec_sorted rs : sorted_ranges rs → from_vec rs = Ok rs.
Proof.
  intros Hc. unfold from_vec.
  assert (Forall (λ r, br_end r ≤ u64_max) rs) as Hb.
  { eapply Forall_impl; [by apply (chain_lb 0)|]. simpl; lia. }
  by rewrite (proj2 (from_vec_loop_spec None rs Hb)).
Qed.

(** *** check_insertion_constraints *)

(** No height of the range is stored yet. *)
Definition disjoint_from (range : BlockRange) (rs : BlockRanges) : Prop :=
  ∀ h, in_range h range → ¬ in_ranges h rs.

Lemma head_left_of rs hd range : sorted_ranges rs → last rs = Some hd → range_valid range →
  br_end hd < br_start range →
  disjoint_from range rs ∧ last_end 0 rs < br_start range ∧
  (br_end hd + 1 = br_start range ∨ br_end range + 1 = br_start hd ↔ in_ranges (br_start range - 1) rs) ∧
  ¬ in_ranges (br_end range + 1) rs.
Proof.
  intros Hc Hl Hr Hlo. assert (last_end 0 rs = br_end hd) as He.
  { by rewrite last_end_last, Hl. }
  apply last_Some in Hl as [rs0 ->]. pose proof (chain_valid 0 _ ltac:(lia) Hc) as Hv.
  rewrite Forall_app, Forall_singleton in Hv. destruct Hv as [_ Hv].
  assert (∀ h, in_ranges h (rs0 ++ [hd]) → h ≤ br_end hd) as Hub.
  { intros h. rewrite <-He. apply (in_ranges_ub 0); [lia|done]. }
  split_and!.
  - intros h Hh Hin%Hub. range_tac.
  - range_tac.
  - split.
    + intros ?. apply in_ranges_app; right. apply in_ranges_cons; left. range_tac.
    + intros Hin%Hub. range_tac.
  - intros Hin%Hub. range_tac.
Qed.

(** The verdict on one decomposition of the stored ranges around the range. *)
Lemma block_heights pre mid post range h :
  range_valid range → Forall (far_left range) pre → Forall (far_right range) post →
  br_start range - 1 ≤ h ≤ br_end range + 1 →
  in_ranges h (pre ++ mid ++ post) ↔ in_ranges h mid.
Proof.
  intros Hr Hpre Hpost Hh. rewrite !in_ranges_app.
  assert (¬ in_ranges h pre).
  { intros Hin. eapply in_ranges_Forall with (P := λ h, h < br_start range - 1) in Hin; [lia|].
    eapply Forall_impl; [exact Hpre|]. range_tac. }
  assert (¬ in_ranges h post).
  { intros Hin. eapply in_ranges_Forall with (P := λ h, br_end range + 1 < h) in Hin; [lia|].
    eapply Forall_impl; [exact Hpost|]. range_tac. }
  tauto.
Qed.

Lemma block_disjoint pre mid post range :
  range_valid range → Forall (far_left range) pre → Forall (far_right range) post →
  disjoint_from range (pre ++ mid ++ post) ↔ disjoint_from range mid.
Proof.
  intros. unfold disjoint_from. split; intros Hd h Hh Hin; apply (Hd h Hh);
    (rewrite block_heights by (done || range_tac)) || (rewrite block_heights in Hin by (done || range_tac)); done.
Qed.

(** What the verdict says about the stored ranges [rs] and the range [r]. *)
Definition insertion_verdict (rs : BlockRanges) (r : BlockRange)
    (v : res BlockRangesError (bool * bool)) : Prop :=
  match v with
  | Ok (prev, next) =>
      disjoint_from r rs ∧
      (prev = true ↔ in_ranges (br_start r - 1) rs) ∧
      (next = true ↔ in_ranges (br_end r + 1) rs) ∧
      (rs = [] ∨ last_end 0 rs < br_start r ∨ prev = true ∨ next = true)
  | Err (BlockRangeOverlap r' o) =>
      r' = r ∧ br_start r ≤ br_start o ∧ br_start o ≤ br_end o ∧ br_end o ≤ br_end r ∧
      ∃ h, in_range h r ∧ in_ranges h rs
  | Err (NoAdjacentNeighbors r') =>
      r' = r ∧ disjoint_from r rs ∧ br_start r ≤ last_end 0 rs ∧
      ¬ in_ranges (br_start r - 1) rs ∧ ¬ in_ranges (br_end r + 1) rs
  | _ => False
  end.

Lemma in_block_head h f mid : in_range h f → in_ranges h (f :: mid).
Proof. intros. apply in_ranges_cons; by left. Qed.
Lemma in_block_last h mid0 l : in_range h l → in_ranges h (mid0 ++ [l]).
Proof. intros. apply in_ranges_app; right. apply in_ranges_cons; by left. Qed.

(** One affected range: it overlaps, or it is the neighbour on one side. *)
Lemma verdict_one pre f post range :
  range_valid range → range_valid f → touching range f →
  Forall (far_left range) pre → Forall (far_right range) post →
  insertion_verdict (pre ++ [f] ++ post) range
    (if bool_decide (br_start range ≤ br_end f ∧ br_start f ≤ br_end range)
     then Err (BlockRangeOverlap range (calc_overlap range f f))
     else Ok (if br_end f <? br_start range then (true, false) else (false, true))).
Proof.
  intros Hr Hf Ht Hpre Hpost. case_bool_decide as Hno.
  - unfold calc_overlap; simpl.
    split_and!; try done; try lia; [range_tac..|].
    exists (Z.max (br_start f) (br_start range)). split; [range_tac|].
    rewrite (block_heights pre [f] post range) by (done || range_tac). apply in_block_head. range_tac.
  - assert (disjoint_from range (pre ++ [f] ++ post)) as Hd.
    { apply block_disjoint; [done..|]. intros h Hh. rewrite in_ranges_cons, in_ranges_nil. range_tac. }
    destruct (br_end f <? br_start range) eqn:El; simpl; (split; [done|]);
      rewrite !(block_heights pre [f] post range) by (done || range_tac);
      rewrite !in_ranges_cons, !in_ranges_nil; (split_and!; [range_tac..|tauto]).
Qed.

Lemma both_adjacent {E} f l range : range_valid range → range_valid f → range_valid l → br_end f < br_start l →
  (first_adjacent ← @is_adjacent E f range; if first_adjacent : bool then is_adjacent l range else Ok false) =
  Ok (bool_decide (br_end f + 1 = br_start range ∧ br_end range + 1 = br_start l)).
Proof.
  intros Hr Hf Hl Hlt. rewrite !is_adjacent_Ok by done. cbn [mbind res_bind].
  case_bool_decide; f_equal; [apply bool_decide_ext; range_tac|].
  symmetry. apply bool_decide_false. range_tac.
Qed.

(** Two affected ranges: the range fills the gap between them, or it overlaps. *)
Lemma verdict_two pre f l post range :
  range_valid range → range_valid f → range_valid l → br_end f < br_start l →
  touching range f → touching range l →
  Forall (far_left range) pre → Forall (far_right range) post →
  insertion_verdict (pre ++ [f; l] ++ post) range
    (if bool_decide (br_end f + 1 = br_start range ∧ br_end range + 1 = br_start l) then Ok (true, true)
     else Err (BlockRangeOverlap range (calc_overlap range f l))).
Proof.
  intros Hr Hf Hl Hlt Htf Htl Hpre Hpost.
  case_bool_decide as Hadj.
  - destruct Hadj as [Ef El]. simpl. split.
    + apply (block_disjoint pre [f; l] post); [done..|]. intros h Hh.
      rewrite !in_ranges_cons, in_ranges_nil. range_tac.
    + rewrite !(block_heights pre [f; l] post range) by (done || range_tac).
      rewrite !in_ranges_cons, !in_ranges_nil. split_and!; [range_tac..|tauto].
  - unfold calc_overlap; simpl. split_and!; [done|range_tac..|].
    destruct (decide (br_start range ≤ br_end f)) as [Hof|Hof].
    + exists (Z.max (br_start f) (br_start range)). split; [range_tac|].
      rewrite (block_heights pre [f; l] post range) by (done || range_tac). apply in_block_head. range_tac.
    + exists (br_start l). split; [range_tac|].
      rewrite (block_heights pre [f; l] post range) by (done || range_tac).
      apply (in_block_last _ [f]). range_tac.
Qed.

(** Three or more: the ones in the middle lie inside the range. *)
Lemma verdict_many pre f m rest mid0 l post range :
  range_valid range → range_valid m → range_valid l →
  f :: m :: rest = mid0 ++ [l] → br_start f < br_start m → br_end m < br_start l →
  touching range f → touching range l → br_end f < br_start m →
  Forall (far_left range) pre → Forall (far_right range) post →
  insertion_verdict (pre ++ (f :: m :: rest) ++ post) range
    (Err (BlockRangeOverlap range (calc_overlap range f l))).
Proof.
  intros Hr Hm Hl Heq Hfm Hml Htf Htl Hfm' Hpre Hpost.
  unfold calc_overlap; simpl. split_and!; [done|range_tac..|].
  exists (br_start m). split; [range_tac|].
  rewrite (block_heights pre (f :: m :: rest) post range) by (done || range_tac).
  apply in_ranges_cons; right. apply in_block_head. range_tac.
Qed.

Lemma sorted_block_facts pre f m rest mid0 l post :
  sorted_ranges (pre ++ (f :: m :: rest) ++ post) → f :: m :: rest = mid0 ++ [l] →
  br_end f < br_start m ∧ (rest = [] ∧ m = l ∨ rest ≠ [] ∧ br_end m < br_start l).
Proof.
  unfold sorted_ranges. rewrite !chain_app. intros (_&(?&?&?&?&?&?&Hc)&_) Heq.
  split; [lia|]. destruct rest as [|x rest].
  - left. destruct mid0 as [|? [|? [|??]]]; naive_solver.
  - right. split; [done|]. assert (l ∈ x :: rest) as Hin.
    { destruct (cons_snoc x rest) as (k&y&Hy). rewrite Hy in Heq.
      assert (l = y) as ->; [|rewrite Hy; set_solver].
      change (f :: m :: k ++ [y]) with ((f :: m :: k) ++ [y]) in Heq. by apply app_inj_2 in Heq as [_ [=]]. }
    pose proof (proj1 (Forall_forall _ _) (chain_lb 0 _ _ ltac:(lia) Hc) _ Hin). simpl in *; lia.
Qed.

Lemma check_insertion_verdict rs range : sorted_ranges rs → range_valid range →
  insertion_verdict rs range (check_insertion_constraints rs range).
Proof.
  intros Hc Hr. unfold check_insertion_constraints. rewrite range_validate_Ok by done. simpl.
  destruct (last rs) as [hd|] eqn:El.
  2:{ apply last_None in El as ->. split; [by intros h _ ?%in_ranges_nil|].
      rewrite !in_ranges_nil. naive_solver. }
  pose proof (chain_valid 0 _ ltac:(lia) Hc) as Hv.
  assert (range_valid hd) as Hvhd.
  { apply last_Some in El as [rs0 ->]. apply Forall_app in Hv as [_ Hv]. by rewrite Forall_singleton in Hv. }
  rewrite left_of_Ok by done. unfold mbind at 1, res_bind at 1. destruct (Z.ltb_spec (br_end hd) (br_start range)) as [Elo|Elo].
  { destruct (head_left_of rs hd range) as (?&?&?&?); [done..|]. rewrite is_adjacent_Ok by done.
    simpl. rewrite bool_decide_eq_true. split_and!; [done..|naive_solver|naive_solver]. }
  assert (br_start range ≤ last_end 0 rs) as Hle.
  { rewrite last_end_last, El. simpl. range_tac. }
  destruct (find_affected_spec (E := BlockRangesError) 0 rs range) as (pre&mid&post&->&Hpre&Hmid&Hpost&->); [lia|done..|].
  unfold mbind at 1, res_bind at 1. rewrite !Forall_app in Hv. destruct Hv as (_&Hvm&_).
  destruct mid as [|f mid'].
  { simpl. split_and!; try done.
    - apply (block_disjoint pre [] post); [done..|]. by intros h _ ?%in_ranges_nil.
    - rewrite (block_heights pre [] post range) by (done || range_tac). rewrite in_ranges_nil. tauto.
    - rewrite (block_heights pre [] post range) by (done || range_tac). rewrite in_ranges_nil. tauto. }
  destruct (block_ends pre f mid' post) as (mid0&l&Hl&Hf0&Hl0&_).
  rewrite (vec_index_Some _ _ _ Hf0), (vec_index_Some _ _ _ Hl0). simpl mbind.
  rewrite u64_sub_Ok by (simpl; lia). unfold mbind, res_bind.
  replace (_ - _ + 1) with (Z.of_nat (length (f :: mid'))) by (simpl; lia).
  apply Forall_cons in Hmid as [Htf Hmid], Hvm as [Hvf Hvm].
  assert (touching range l ∧ range_valid l) as [Htl Hvl].
  { assert (l ∈ f :: mid') as Hin by (rewrite Hl; set_solver).
    apply list_elem_of_In in Hin as [<-|Hin%list_elem_of_In]; [done|].
    split; by eapply Forall_forall. }
  destruct mid' as [|m rest].
  { destruct mid0 as [|? [|??]]; [|naive_solver..]. simpl in Hl. injection Hl as <-.
    rewrite is_overlapping_Ok, left_of_Ok by done. by apply verdict_one. }
  apply Forall_cons in Hvm as [Hvm _].
  destruct (sorted_block_facts _ _ _ _ _ _ _ Hc Hl) as [Hfm [[-> ->]|[Hne Hml]]].
  { pose proof (both_adjacent (E := BlockRangesError) f l range Hr Hvf Hvl Hfm) as Hb. cbv [mbind res_bind] in Hb.
    cbn [length Z.of_nat Pos.of_succ_nat Pos.succ]. rewrite Hb. by apply verdict_two. }
  replace (length (f :: m :: rest)) with (S (S (S (length rest - 1)))).
  2:{ destruct rest; simpl; [done|lia]. }
  assert (∀ n, 2 < n → ∀ (A B C D : res BlockRangesError (bool * bool)),
    match n with 0 => A | 1 => B | 2 => C | _ => D end = D) as Hmatch.
  { intros n Hn A B C D. destruct n as [|p|p]; [lia| |lia]. destruct p as [p|p|]; [..|lia].
    - by destruct p.
    - by destruct p; try lia. }
  rewrite Hmatch by lia. eapply verdict_many; try done; range_tac.
Qed.

(** *** Truncation *)

Lemma truncate_right_in r limit h : 0 ≤ br_start r → br_end r ≤ u64_max → 0 ≤ limit ≤ u64_max →
  in_range h (truncate_right r limit) ↔
  in_range h r ∧ h < Z.min (br_start r + limit) u64_max.
Proof.
  intros. unfold truncate_right, checked_sub, saturating_add, u64_max.
  case_ifs; simpl; range_tac.
Qed.

Lemma truncate_left_in r limit h : 0 < br_start r → br_end r ≤ u64_max → 0 ≤ limit ≤ u64_max →
  in_range h (truncate_left r limit) ↔ in_range h r ∧ br_end r - limit < h.
Proof.
  intros. unfold truncate_left, checked_add, saturating_sub, u64_max.
  case_ifs; simpl; range_tac.
Qed.

(** ** Properties *)

Lemma range_validate_invalid r : br_end r ≤ u64_max → ¬ range_valid r →
  range_validate r = Err (InvalidBlockRange r).
Proof. unfold range_validate. intros. case_ifs; [range_tac|done]. Qed.

(** C14. [insert_relaxed] returns an error exactly on an invalid range.  On a valid
    one it never panics, keeps the ranges sorted (and canonical, when they were),
    and the heights contained afterwards are the old ones and those of the range. *)
Theorem insert_relaxed_correct rs range :
  sorted_ranges rs → br_end range ≤ u64_max →
  (¬ range_valid range ∧ insert_relaxed rs range = Err (InvalidBlockRange range)) ∨
  (range_valid range ∧ ∃ rs', insert_relaxed rs range = Ok rs' ∧ sorted_ranges rs' ∧
     (canonical rs → canonical rs') ∧
     ∀ h, in_ranges h rs' ↔ in_ranges h rs ∨ in_range h range).
Proof.
  intros Hc Hb. destruct (decide (range_valid range)) as [Hr|Hr]; [right|left].
  - split; [done|]. destruct (insert_relaxed_chain 0 rs range) as (rs'&Heq&Hc'&Hin); [lia|done..|].
    exists rs'. do 2 (split; [done|]). split; [|done]. intros Hcan.
    destruct (insert_relaxed_chain 1 rs range) as (rs''&Heq'&?&_); [lia|done..|].
    rewrite Heq in Heq'. by injection Heq' as <-.
  - split; [done|]. unfold insert_relaxed. by rewrite range_validate_invalid.
Qed.

Lemma insert_relaxed_correct_witness :
  sorted_ranges [2 ..= 3; 6 ..= 9] ∧
  ∃ rs', insert_relaxed [2 ..= 3; 6 ..= 9] (4 ..= 7) = Ok rs' ∧ in_ranges 5 rs'.
Proof.
  assert (sorted_ranges [2 ..= 3; 6 ..= 9]) as Hs by (vm_compute; naive_solver).
  split; [exact Hs|].
  destruct (insert_relaxed_correct [2 ..= 3; 6 ..= 9] (4 ..= 7) Hs) as [[Hn _]|(_&rs'&Hok&_&_&Hin)].
  - vm_compute; discriminate.
  - exfalso. apply Hn. vm_compute; naive_solver.
  - exists rs'. split; [exact Hok|]. apply Hin. right. vm_compute; split; discriminate.
Defined.

(** [remove_relaxed] returns an error exactly on an invalid range.  On a valid
    one it never panics, keeps the ranges sorted (and canonical, when they were),
    and the heights contained afterwards are the old ones outside the range. *)
Theorem remove_relaxed_correct rs range :
  sorted_ranges rs → br_end range ≤ u64_max →
  (¬ range_valid range ∧ remove_relaxed rs range = Err (InvalidBlockRange range)) ∨
  (range_valid range ∧ ∃ rs', remove_relaxed rs range = Ok rs' ∧ sorted_ranges rs' ∧
     (canonical rs → canonical rs') ∧
     ∀ h, in_ranges h rs' ↔ in_ranges h rs ∧ ¬ in_range h range).
Proof.
  intros Hc Hb. destruct (decide (range_valid range)) as [Hr|Hr]; [right|left].
  - split; [done|]. destruct (remove_relaxed_chain 0 rs range) as (rs'&Heq&Hc'&Hin); [lia|done..|].
    exists rs'. do 2 (split; [done|]). split; [|done]. intros Hcan.
    destruct (remove_relaxed_chain 1 rs range) as (rs''&Heq'&?&_); [lia|done..|].
    rewrite Heq in Heq'. by injection Heq' as <-.
  - split; [done|]. unfold remove_relaxed. by rewrite range_validate_invalid.
Qed.

Lemma remove_relaxed_correct_witness :
  sorted_ranges [2 ..= 3; 6 ..= 9] ∧
  ∃ rs', remove_relaxed [2 ..= 3; 6 ..= 9] (3 ..= 7) = Ok rs' ∧ in_ranges 8 rs'.
Proof.
  assert (sorted_ranges [2 ..= 3; 6 ..= 9]) as Hs by (vm_compute; naive_solver).
  split; [exact Hs|].
  destruct (remove_relaxed_correct [2 ..= 3; 6 ..= 9] (3 ..= 7) Hs) as [[Hn _]|(_&rs'&Hok&_&_&Hin)].
  - vm_compute; discriminate.
  - exfalso. apply Hn. vm_compute; naive_solver.
  - exists rs'. split; [exact Hok|]. apply Hin. split.
    + apply ranges_contains_spec. reflexivity.
    + intros [H1 H2]. vm_compute in H2. apply H2. reflexivity.
Defined.

(** [check_insertion_constraints] never panics and its verdict is exact.
    [Ok (prev, next)]: no height of the range is stored, [prev] and [next] say
    whether the heights just below and just above it are, and the range is a
    new head or has such a neighbour.  [BlockRangeOverlap]: some height is stored
    already, and the reported overlap is a non-empty part of the range.
    [NoAdjacentNeighbors]: nothing overlaps or touches a range that is not a
    new head.  An invalid range is reported as such. *)
Theorem check_insertion_constraints_correct rs range :
  sorted_ranges rs → br_end range ≤ u64_max →
  if decide (range_valid range)
  then insertion_verdict rs range (check_insertion_constraints rs range)
  else check_insertion_constraints rs range = Err (InvalidBlockRange range).
Proof.
  intros Hc Hb. case_decide; [by apply check_insertion_verdict|].
  unfold check_insertion_constraints. by rewrite range_validate_invalid.
Qed.

Lemma check_insertion_constraints_correct_witness :
  check_insertion_constraints [1 ..= 3; 6 ..= 9] (4 ..= 5) = Ok (true, true) ∧
  in_ranges (5 + 1) [1 ..= 3; 6 ..= 9].
Proof.
  assert (sorted_ranges [1 ..= 3; 6 ..= 9]) as Hs by (vm_compute; naive_solver).
  assert (check_insertion_constraints [1 ..= 3; 6 ..= 9] (4 ..= 5) = Ok (true, true)) as He by reflexivity.
  split; [exact He|].
  pose proof (check_insertion_constraints_correct _ (4 ..= 5) Hs ltac:(vm_compute; discriminate)) as H.
  rewrite decide_True in H by (vm_compute; naive_solver). rewrite He in H.
  destruct H as (_&_&Hn&_). apply Hn. reflexivity.
Defined.

(** The operators [+] and [-] on block ranges never hit their [expect]s and
    are union and difference of the sets of heights; they keep the left operand
    sorted, and canonical when it was. *)
Theorem ranges_add_sub_correct rs rhs :
  sorted_ranges rs → sorted_ranges rhs →
  (∃ sum, ranges_add rs rhs = Ok sum ∧ sorted_ranges sum ∧ (canonical rs → canonical sum) ∧
     ∀ h, in_ranges h sum ↔ in_ranges h rs ∨ in_ranges h rhs) ∧
  (∃ diff, ranges_sub rs rhs = Ok diff ∧ sorted_ranges diff ∧ (canonical rs → canonical diff) ∧
     ∀ h, in_ranges h diff ↔ in_ranges h rs ∧ ¬ in_ranges h rhs).
Proof.
  intros Hc Hr%(chain_valid 0); [|lia]. split.
  - destruct (ranges_add_chain 0 rs rhs) as (s&Heq&Hs&Hin); [lia|done..|].
    exists s. do 2 (split; [done|]). split; [|done]. intros Hcan.
    destruct (ranges_add_chain 1 rs rhs) as (s'&Heq'&?&_); [lia|done..|].
    rewrite Heq in Heq'. by injection Heq' as <-.
  - destruct (ranges_sub_chain 0 rs rhs) as (s&Heq&Hs&Hin); [lia|done..|].
    exists s. do 2 (split; [done|]). split; [|done]. intros Hcan.
    destruct (ranges_sub_chain 1 rs rhs) as (s'&Heq'&?&_); [lia|done..|].
    rewrite Heq in Heq'. by injection Heq' as <-.
Qed.

Lemma ranges_add_sub_correct_witness :
  ∃ diff, ranges_sub [1 ..= 9] [2 ..= 3; 5 ..= 5] = Ok diff ∧ in_ranges 4 diff.
Proof.
  destruct (ranges_add_sub_correct [1 ..= 9] [2 ..= 3; 5 ..= 5]) as [_ (diff&Hok&_&_&Hin)].
  - vm_compute; naive_solver.
  - vm_compute; naive_solver.
  - exists diff. split; [exact Hok|]. apply Hin. split.
    + apply ranges_contains_spec. reflexivity.
    + intros H%ranges_contains_spec. vm_compute in H. discriminate H.
Defined.

(** [pop_head] and [pop_tail] (the two ends of the iterator over the heights)
    never panic; on empty ranges they return [None], otherwise the greatest,
    respectively the least, height contained, which they remove and nothing
    else, keeping the ranges sorted and canonical. *)
Theorem pop_correct g rs :
  0 ≤ g → chain g (-g) rs →
  (rs = [] ∧ pop_head rs = Ok (None, []) ∧ pop_tail rs = Ok (None, [])) ∨
  (∃ t rs', pop_head rs = Ok (Some t, rs') ∧ ranges_head rs = Some t ∧ chain g (-g) rs' ∧
     in_ranges t rs ∧ (∀ h, in_ranges h rs → h ≤ t) ∧
     ∀ h, in_ranges h rs' ↔ in_ranges h rs ∧ h ≠ t) ∧
  (∃ t rs', pop_tail rs = Ok (Some t, rs') ∧ ranges_tail rs = Some t ∧ chain g (-g) rs' ∧
     in_ranges t rs ∧ (∀ h, in_ranges h rs → t ≤ h) ∧
     ∀ h, in_ranges h rs' ↔ in_ranges h rs ∧ h ≠ t).
Proof.
  intros Hg Hc. destruct (pop_head_chain g rs Hg Hc) as [[-> ?]|?]; [left; auto|].
  destruct (pop_tail_chain g rs Hg Hc) as [[-> ?]|?]; [naive_solver|]. right. auto.
Qed.

Lemma pop_correct_witness : ∃ t rs', pop_head [1 ..= 2; 5 ..= 6] = Ok (Some t, rs') ∧ ¬ in_ranges t rs'.
Proof.
  destruct (pop_correct 1 [1 ..= 2; 5 ..= 6]) as [[H _]|[(t&rs'&Hok&_&_&_&_&Hin) _]].
  - discriminate.
  - vm_compute; naive_solver.
  - discriminate H.
  - exists t, rs'. split; [exact Hok|]. intros H%Hin. destruct H as [_ H]. apply H. reflexivity.
Defined.

(** On canonical ranges the representation is determined by the heights:
    inserting two ranges gives the same list in either order, and removing a
    range just inserted where nothing was stored gives the original list back. *)
Theorem insert_remove_roundtrip rs r1 r2 :
  canonical rs → range_valid r1 → range_valid r2 →
  (insert_relaxed rs r1 ≫= λ rs1, insert_relaxed rs1 r2) =
  (insert_relaxed rs r2 ≫= λ rs2, insert_relaxed rs2 r1) ∧
  (disjoint_from r1 rs → (insert_relaxed rs r1 ≫= λ rs1, remove_relaxed rs1 r1) = Ok rs).
Proof.
  intros Hc H1 H2.
  destruct (insert_relaxed_chain 1 rs r1) as (a1&->&Ha1&Hi1); [lia|done..|].
  destruct (insert_relaxed_chain 1 rs r2) as (a2&->&Ha2&Hi2); [lia|done..|]. simpl.
  destruct (insert_relaxed_chain 1 a1 r2) as (b1&->&Hb1&Hj1); [lia|done..|].
  destruct (insert_relaxed_chain 1 a2 r1) as (b2&->&Hb2&Hj2); [lia|done..|].
  destruct (remove_relaxed_chain 1 a1 r1) as (c1&->&Hc1&Hk1); [lia|done..|].
  split.
  - f_equal. eapply canonical_ext_lo; [done..|]. intros h. rewrite Hj1, Hj2, Hi1, Hi2. tauto.
  - intros Hd. f_equal. eapply canonical_ext_lo; [done..|]. intros h. rewrite Hk1, Hi1.
    specialize (Hd h). tauto.
Qed.

Lemma insert_remove_roundtrip_witness :
  (insert_relaxed [1 ..= 2; 8 ..= 9] (4 ..= 5) ≫= λ rs1, remove_relaxed rs1 (4 ..= 5))
    = Ok [1 ..= 2; 8 ..= 9].
Proof.
  apply (insert_remove_roundtrip [1 ..= 2; 8 ..= 9] (4 ..= 5) (7 ..= 7)).
  - vm_compute; naive_solver.
  - vm_compute; naive_solver.
  - vm_compute; naive_solver.
  - intros h [H1 H2] H. simpl in *. apply ranges_contains_spec in H.
    assert (h = 4 ∨ h = 5) as [-> | ->] by lia; vm_compute in H; discriminate H.
Defined.
