(* ===== verification/Merkle.v ===== *)
(** * Merkle proofs (src/types/src/merkle_proof.rs)

    Construction and verification of inclusion proofs in the RFC 6962 binary
    Merkle tree of tendermint.  The hash function is a parameter, the class
    [MerkleHash]; what the soundness of verification needs of it is the class
    [CollisionFree].  Indices and lengths ([usize]) are natural numbers. *)

From S2P Require Import Prelude.

(** ** The hash function *)

(** The trait [tendermint::merkle::MerkleHash]. *)
Class MerkleHash (H : Type) := {
  hash_eq_dec :: EqDecision H;
  empty_hash : H;
  leaf_hash : list Z → H;
  inner_hash : H → H → H
}.

(** Collision resistance, idealised: no two leaves and no two pairs of children
    have the same hash. *)
Class CollisionFree (H : Type) `{MerkleHash H} := {
  leaf_hash_inj : Inj (=) (=) leaf_hash;
  inner_hash_inj : Inj2 (=) (=) (=) inner_hash
}.

(** Domain separation: the three kinds of node never have the same hash. *)
Class DomainSeparated (H : Type) `{MerkleHash H} := {
  leaf_ne_inner l a b : leaf_hash l ≠ inner_hash a b;
  empty_ne_leaf l : empty_hash ≠ leaf_hash l;
  empty_ne_inner a b : empty_hash ≠ inner_hash a b
}.

(** [usize::next_power_of_two]. *)
Definition next_power_of_two (n : nat) : nat := (2 ^ Nat.log2_up n)%nat.

Inductive MerkleError :=
| IndexOutOfRange (index len : nat)
| DifferentLeaf
| ExtraAunts
| AuntsMissing
| RootMismatch
| NegativeIndex
| NonPositiveTotal
| InvalidHashSize.

Section Merkle.
Context {H : Type} `{MerkleHash H}.

(** ** Data *)

Record MerkleProof := {
  mp_index : nat;
  mp_total : nat;
  mp_leaf_hash : H;
  mp_aunts : list H
}.

(** ** Operations *)

(** [hash_leaves_collecting_aunts]: the root of the subtree and the vector of
    aunts after the call.  [fuel] bounds the depth of the recursion; the length
    of [leaves] is always enough. *)
Fixpoint hash_leaves_collecting_aunts (fuel first_leaf_index leaf_to_prove : nat)
    (leaves : list (list Z)) (aunts : list H) : res MerkleError (H * list H) :=
  match fuel with
  | O => Panic
  | S fuel =>
      let total := length leaves in
      match leaves with
      | [] => Ok (empty_hash, aunts)
      | [leaf] => Ok (leaf_hash leaf, aunts)
      | _ =>
          let subtrees_split := (next_power_of_two total / 2)%nat in
          '(left_root, aunts) ← hash_leaves_collecting_aunts fuel
            first_leaf_index leaf_to_prove (take subtrees_split leaves) aunts;
          '(right_root, aunts) ← hash_leaves_collecting_aunts fuel
            (first_leaf_index + subtrees_split) leaf_to_prove
            (drop subtrees_split leaves) aunts;
          let aunts :=
            if (first_leaf_index <=? leaf_to_prove)%nat &&
               (leaf_to_prove <? first_leaf_index + total)%nat
            then if (leaf_to_prove <? first_leaf_index + subtrees_split)%nat
                 then aunts ++ [right_root] else aunts ++ [left_root]
            else aunts in
          Ok (inner_hash left_root right_root, aunts)
      end
  end.

Definition MerkleProof_new (leaf_to_prove : nat) (leaves : list (list Z))
    : res MerkleError (MerkleProof * H) :=
  if (length leaves <=? leaf_to_prove)%nat
  then Err (IndexOutOfRange leaf_to_prove (length leaves)) else
  '(root, aunts) ← hash_leaves_collecting_aunts (length leaves) 0 leaf_to_prove leaves [];
  leaf ← vec_index leaves leaf_to_prove;
  Ok ({| mp_index := leaf_to_prove; mp_total := length leaves;
         mp_leaf_hash := leaf_hash leaf; mp_aunts := aunts |}, root).

(** [subtree_root_from_aunts] takes the aunts from the end ([split_last]); here
    they are given in reverse, so that the recursion is structural. *)
Fixpoint subtree_root_from_aunts (index total : nat) (leaf : H) (rev_aunts : list H)
    : res MerkleError H :=
  if (total =? 1)%nat then
    match rev_aunts with [] => Ok leaf | _ => Err ExtraAunts end
  else
    let subtrees_split := (next_power_of_two total / 2)%nat in
    match rev_aunts with
    | [] => Err AuntsMissing
    | sibling :: rev_aunts =>
        if (index <? subtrees_split)%nat then
          left_hash ← subtree_root_from_aunts index subtrees_split leaf rev_aunts;
          Ok (inner_hash left_hash sibling)
        else
          right_hash ← subtree_root_from_aunts (index - subtrees_split)
            (total - subtrees_split) leaf rev_aunts;
          Ok (inner_hash sibling right_hash)
    end.

Definition MerkleProof_verify (p : MerkleProof) (leaf : list Z) (root : H)
    : res MerkleError unit :=
  let leaf := leaf_hash leaf in
  if decide (leaf ≠ mp_leaf_hash p) then Err DifferentLeaf else
  computed_root ← subtree_root_from_aunts (mp_index p) (mp_total p) leaf (rev (mp_aunts p));
  if decide (computed_root ≠ root) then Err RootMismatch else Ok tt.

(** The protobuf form: [index] and [total] are [i64], hashes are byte vectors
    ([hash_of_bytes] is the conversion to a fixed-size hash). *)
Record RawMerkleProof := {
  raw_mp_index : Z;
  raw_mp_total : Z;
  raw_mp_leaf_hash : list Z;
  raw_mp_aunts : list (list Z)
}.

Definition MerkleProof_try_from (hash_of_bytes : list Z → option H) (value : RawMerkleProof)
    : res MerkleError MerkleProof :=
  if raw_mp_index value <? 0 then Err NegativeIndex else
  if raw_mp_total value <=? 0 then Err NonPositiveTotal else
  lh ← ok_or (hash_of_bytes (raw_mp_leaf_hash value)) InvalidHashSize;
  aunts ← ok_or (mapM hash_of_bytes (raw_mp_aunts value)) InvalidHashSize;
  Ok {| mp_index := Z.to_nat (raw_mp_index value); mp_total := Z.to_nat (raw_mp_total value);
        mp_leaf_hash := lh; mp_aunts := aunts |}.

Definition MerkleProof_into_raw (bytes_of_hash : H → list Z) (p : MerkleProof) : RawMerkleProof :=
  {| raw_mp_index := as_i64 (Z.of_nat (mp_index p)); raw_mp_total := as_i64 (Z.of_nat (mp_total p));
     raw_mp_leaf_hash := bytes_of_hash (mp_leaf_hash p);
     raw_mp_aunts := bytes_of_hash <$> mp_aunts p |}.

(** ** Specification: the Merkle tree *)

Inductive tree := TEmpty | TLeaf (leaf : list Z) | TNode (l r : tree).

Fixpoint tree_root (t : tree) : H :=
  match t with
  | TEmpty => empty_hash
  | TLeaf l => leaf_hash l
  | TNode l r => inner_hash (tree_root l) (tree_root r)
  end.

(** The tree of RFC 6962 over a list of leaves: the left subtree holds the
    largest power of two of leaves that leaves something for the right one. *)
Inductive merkle_tree : list (list Z) → tree → Prop :=
| mt_empty : merkle_tree [] TEmpty
| mt_leaf l : merkle_tree [l] (TLeaf l)
| mt_node ls k l r : (2 ≤ length ls)%nat → k = (next_power_of_two (length ls) / 2)%nat →
    merkle_tree (take k ls) l → merkle_tree (drop k ls) r → merkle_tree ls (TNode l r).

(** ** Lemmas *)

Lemma split_bounds n : (2 ≤ n)%nat →
  (0 < next_power_of_two n / 2 ∧ next_power_of_two n / 2 < n)%nat.
Proof.
  intros Hn. unfold next_power_of_two. pose proof (Nat.log2_up_spec n ltac:(lia)) as [Hs _].
  pose proof (Nat.log2_up_pos n ltac:(lia)). destruct (Nat.log2_up n) as [|m]; [lia|].
  rewrite Nat.pow_succ_r', Nat.mul_comm, Nat.div_mul by lia. simpl in Hs.
  pose proof (Nat.pow_nonzero 2 m). lia.
Qed.

Lemma merkle_tree_exists ls : ∃ t, merkle_tree ls t.
Proof.
  remember (length ls) as n eqn:Hn. revert ls Hn.
  induction n as [n IH] using lt_wf_ind; intros ls ->.
  destruct ls as [|l1 [|l2 ls]]; [by eexists; constructor..|].
  set (l := l1 :: l2 :: ls) in *. assert (2 ≤ length l)%nat as Hl by (simpl; lia).
  pose proof (split_bounds _ Hl) as [Hk1 Hk2].
  destruct (IH (length (take (next_power_of_two (length l) / 2) l))) with (ls := take (next_power_of_two (length l) / 2) l) as [t1 H1];
    [rewrite length_take; lia|done|].
  destruct (IH (length (drop (next_power_of_two (length l) / 2) l))) with (ls := drop (next_power_of_two (length l) / 2) l) as [t2 H2];
    [rewrite length_drop; lia|done|].
  exists (TNode t1 t2). by econstructor.
Qed.

Lemma merkle_tree_fun ls t1 t2 : merkle_tree ls t1 → merkle_tree ls t2 → t1 = t2.
Proof.
  intros H1. revert t2. induction H1 as [|l|ls k l r Hl Hk H1 IH1 H2 IH2]; intros t2 Ht2;
    inversion Ht2; subst; simpl in *; try done; try lia.
  f_equal; auto.
Qed.

(** One unfolding of the recursion on two or more leaves. *)
Lemma collect_aunts_step fuel first i ls aunts : (2 ≤ length ls)%nat →
  hash_leaves_collecting_aunts (S fuel) first i ls aunts =
  let k := (next_power_of_two (length ls) / 2)%nat in
  '(l, a1) ← hash_leaves_collecting_aunts fuel first i (take k ls) aunts;
  '(r, a2) ← hash_leaves_collecting_aunts fuel (first + k) i (drop k ls) a1;
  Ok (inner_hash l r,
      if (first <=? i)%nat && (i <? first + length ls)%nat
      then if (i <? first + k)%nat then a2 ++ [r] else a2 ++ [l] else a2).
Proof. intros. by destruct ls as [|? [|??]]; simpl in *; [lia..|]. Qed.

Lemma root_from_aunts_step index total leaf sibling aunts : (2 ≤ total)%nat →
  subtree_root_from_aunts index total leaf (sibling :: aunts) =
  let k := (next_power_of_two total / 2)%nat in
  if (index <? k)%nat
  then h ← subtree_root_from_aunts index k leaf aunts; Ok (inner_hash h sibling)
  else h ← subtree_root_from_aunts (index - k) (total - k) leaf aunts; Ok (inner_hash sibling h).
Proof. intros. simpl. by destruct (Nat.eqb_spec total 1); [lia|]. Qed.

(** Both phases at once: the recursion computes the root of the tree, and the
    aunts it appends are what verification needs to recompute that root. *)
Lemma collect_aunts_spec fuel first i ls aunts :
  (1 ≤ fuel)%nat → (length ls ≤ fuel)%nat →
  ∃ t extra, merkle_tree ls t ∧
    hash_leaves_collecting_aunts fuel first i ls aunts = Ok (tree_root t, aunts ++ extra) ∧
    (¬ (first ≤ i < first + length ls)%nat → extra = []) ∧
    ((first ≤ i < first + length ls)%nat → ∀ leaf, ls !! (i - first)%nat = Some leaf →
      subtree_root_from_aunts (i - first) (length ls) (leaf_hash leaf) (rev extra)
        = Ok (tree_root t)).
Proof.
  revert first ls aunts. induction fuel as [|fuel IH]; intros first ls aunts H1 Hf; [lia|].
  destruct ls as [|l1 [|l2 ls]].
  { exists TEmpty, []. simpl. rewrite app_nil_r. split; [constructor|]. split_and!; done || lia. }
  { exists (TLeaf l1), []. simpl. rewrite app_nil_r. split; [constructor|]. split_and!; try done.
    intros ? leaf. replace (i - first)%nat with 0%nat by lia. simpl. naive_solver. }
  assert (2 ≤ length (l1 :: l2 :: ls))%nat as Hl by (simpl; lia).
  remember (l1 :: l2 :: ls) as l eqn:El. clear El l1 l2 ls.
  pose proof (split_bounds _ Hl) as [Hk1 Hk2].
  rewrite collect_aunts_step by done. cbv zeta.
  remember (next_power_of_two (length l) / 2)%nat as k eqn:Hk.
  destruct (IH first (take k l) aunts) as (t1&e1&Ht1&Hr1&Hn1&Hv1); [simpl in *; lia|rewrite length_take; lia|].
  destruct (IH (first + k)%nat (drop k l) (aunts ++ e1)) as (t2&e2&Ht2&Hr2&Hn2&Hv2);
    [simpl in *; lia|rewrite length_drop; lia|].
  rewrite length_take in Hn1. rewrite length_take in Hv1.
  rewrite length_drop in Hn2. rewrite length_drop in Hv2.
  unfold mbind, res_bind. rewrite Hr1. cbv beta iota. rewrite Hr2. cbv beta iota.
  exists (TNode t1 t2), (e1 ++ e2 ++
    if (first <=? i)%nat && (i <? first + length l)%nat
    then if (i <? first + k)%nat then [tree_root t2] else [tree_root t1] else []).
  split; [by econstructor|]. split.
  { do 2 f_equal. case_ifs; rewrite <-?(assoc_L (++)), ?app_nil_r; done. }
  split.
  { intros Hno. rewrite Hn1 by (clear -Hno Hk2; lia). rewrite Hn2 by (clear -Hno Hk2; lia).
    destruct (Nat.leb_spec first i), (Nat.ltb_spec i (first + length l)); simpl; done || (clear -Hno H2 H3; lia). }
  intros Hi leaf Hleaf. destruct (Nat.leb_spec first i); [|lia].
  destruct (Nat.ltb_spec i (first + length l)); [|lia]. simpl andb. cbv iota.
  destruct (Nat.ltb_spec i (first + k)).
  - rewrite (Hn2 ltac:(lia)), rev_app_distr. simpl rev. simpl app.
    rewrite root_from_aunts_step, <-Hk by done. cbv zeta.
    destruct (Nat.ltb_spec (i - first) k); [|lia].
    rewrite Nat.min_l in Hv1 by lia. rewrite (Hv1 ltac:(lia) leaf); [done|].
    by rewrite lookup_take_lt by lia.
  - rewrite (Hn1 ltac:(lia)). simpl app. rewrite rev_app_distr. simpl rev. simpl app.
    rewrite root_from_aunts_step, <-Hk by done. cbv zeta.
    destruct (Nat.ltb_spec (i - first) k); [lia|].
    replace (i - first - k)%nat with (i - (first + k))%nat by lia.
    rewrite (Hv2 ltac:(lia) leaf); [done|].
    rewrite lookup_drop. by replace (k + (i - (first + k)))%nat with (i - first)%nat by lia.
Qed.

(** Verification binds the leaf to its position, when hashes do not collide. *)
Lemma root_from_aunts_sound `{!CollisionFree H} ls t index lh aunts :
  merkle_tree ls t → (index < length ls)%nat →
  subtree_root_from_aunts index (length ls) lh aunts = Ok (tree_root t) →
  ∃ leaf, ls !! index = Some leaf ∧ lh = leaf_hash leaf.
Proof.
  intros Ht. revert index aunts.
  induction Ht as [|l|ls k l r Hl Hk H1 IH1 H2 IH2]; intros index aunts Hi Hr.
  - simpl in Hi. lia.
  - exists l. simpl in Hi. replace index with 0%nat by lia. split; [done|].
    destruct aunts; [|done]. simpl in Hr. by injection Hr.
  - destruct aunts as [|s aunts].
    { simpl in Hr. destruct (Nat.eqb_spec (length ls) 1); [lia|done]. }
    rewrite root_from_aunts_step in Hr by done. cbv zeta in Hr. rewrite <-Hk in Hr.
    pose proof (split_bounds _ Hl) as [Hk1 Hk2]. rewrite <-Hk in Hk1, Hk2.
    destruct (Nat.ltb_spec index k) as [Hlt|Hge]; inv_res Hr; simpl in Hr;
      apply inner_hash_inj in Hr as [-> ->].
    + replace k with (length (take k ls)) in Hc at 1 by (rewrite length_take; lia).
      apply IH1 in Hc as (leaf&Hleaf&->); [|rewrite length_take; lia].
      exists leaf. split; [|done]. by rewrite lookup_take_lt in Hleaf by lia.
    + replace (length ls - k)%nat with (length (drop k ls)) in Hc by (rewrite length_drop; lia).
      apply IH2 in Hc as (leaf&Hleaf&->); [|rewrite length_drop; lia].
      exists leaf. split; [|done]. rewrite lookup_drop in Hleaf.
      by replace (k + (index - k))%nat with index in Hleaf by lia.
Qed.

(** Past the end of the tree, the index no longer matters. *)
Lemma root_from_aunts_past_end total i j leaf aunts :
  (total ≤ S i)%nat → (total ≤ S j)%nat →
  subtree_root_from_aunts i total leaf aunts = subtree_root_from_aunts j total leaf aunts.
Proof.
  revert total i j; induction aunts as [|s aunts IH]; intros total i j Hi Hj; [done|].
  destruct (decide (2 ≤ total)%nat) as [Ht|Ht].
  - rewrite !root_from_aunts_step by done. cbv zeta. pose proof (split_bounds _ Ht).
    destruct (Nat.ltb_spec i (next_power_of_two total / 2)); [lia|].
    destruct (Nat.ltb_spec j (next_power_of_two total / 2)); [lia|].
    by rewrite (IH _ _ (j - next_power_of_two total / 2)%nat) by lia.
  - destruct total as [|[|]]; [|done|lia]. simpl. by rewrite (IH _ _ (j - 0)%nat) by lia.
Qed.

(** The leaves of a tree, and that the root determines them. *)
Fixpoint tree_leaves (t : tree) : list (list Z) :=
  match t with TEmpty => [] | TLeaf l => [l] | TNode l r => tree_leaves l ++ tree_leaves r end.

Lemma merkle_tree_leaves ls t : merkle_tree ls t → tree_leaves t = ls.
Proof.
  induction 1 as [| |ls k l r Hl Hk H1 IH1 H2 IH2]; try done.
  simpl. by rewrite IH1, IH2, take_drop.
Qed.

Lemma tree_root_inj `{!CollisionFree H, !DomainSeparated H} t1 t2 :
  tree_root t1 = tree_root t2 → t1 = t2.
Proof.
  revert t2; induction t1 as [|l|l1 IH1 r1 IH2]; intros [|l'|l2 r2] Heq; simpl in Heq; try done.
  - by apply empty_ne_leaf in Heq.
  - by apply empty_ne_inner in Heq.
  - by symmetry in Heq; apply empty_ne_leaf in Heq.
  - apply leaf_hash_inj in Heq. by subst.
  - by apply leaf_ne_inner in Heq.
  - by symmetry in Heq; apply empty_ne_inner in Heq.
  - by symmetry in Heq; apply leaf_ne_inner in Heq.
  - apply inner_hash_inj in Heq as [H1 H2]. by rewrite (IH1 _ H1), (IH2 _ H2).
Qed.

Lemma merkle_root_binds `{!CollisionFree H, !DomainSeparated H} ls1 t1 ls2 t2 :
  merkle_tree ls1 t1 → merkle_tree ls2 t2 → tree_root t1 = tree_root t2 → ls1 = ls2.
Proof.
  intros H1 H2 Heq%tree_root_inj. subst.
  by rewrite <-(merkle_tree_leaves _ _ H1), <-(merkle_tree_leaves _ _ H2).
Qed.

(** A proof made by [new] has the root of the tree and passes verification. *)
Lemma proof_new_verify i leaves leaf : leaves !! i = Some leaf →
  ∃ p t, merkle_tree leaves t ∧ MerkleProof_new i leaves = Ok (p, tree_root t) ∧
    mp_index p = i ∧ mp_total p = length leaves ∧
    MerkleProof_verify p leaf (tree_root t) = Ok tt.
Proof.
  intros Hleaf. pose proof (lookup_lt_Some _ _ _ Hleaf) as Hi. unfold MerkleProof_new.
  destruct (Nat.leb_spec (length leaves) i); [lia|].
  destruct (collect_aunts_spec (length leaves) 0 i leaves []) as (t&extra&Ht&Hr&_&Hv);
    [lia..|]. rewrite Hr, (vec_index_Some _ _ _ Hleaf). cbv [mbind res_bind].
  eexists _, t. do 4 (split; [done|]). unfold MerkleProof_verify. simpl.
  rewrite decide_False by naive_solver.
  rewrite Nat.sub_0_r in Hv. rewrite (Hv ltac:(lia) leaf Hleaf).
  cbv [mbind res_bind]. by rewrite decide_False by naive_solver.
Qed.

Lemma proof_verify_sound `{!CollisionFree H} (p : MerkleProof) leaves t leaf :
  merkle_tree leaves t → mp_total p = length leaves → (mp_index p < mp_total p)%nat →
  MerkleProof_verify p leaf (tree_root t) = Ok tt → leaves !! mp_index p = Some leaf.
Proof.
  intros Ht Htot Hi. unfold MerkleProof_verify. destruct (decide _) as [|Hl]; [done|].
  intros Hv. inv_res Hv. destruct (decide _) as [|Hr]; [done|].
  apply dec_stable in Hr as ->. rewrite Htot in *.
  destruct (root_from_aunts_sound leaves t _ _ _ Ht Hi Hc) as (leaf'&Hleaf&Heq).
  apply leaf_hash_inj in Heq. by subst.
Qed.

(** ** Properties *)

(** Proving is complete.  [MerkleProof::new] fails exactly when the index is
    out of range; otherwise it returns the root of the RFC 6962 tree over the
    leaves together with a proof for that position, which [verify] accepts for
    the leaf at the position and that root.  In particular the recursion always
    terminates and never panics. *)
Theorem merkle_proof_complete i leaves :
  ((length leaves ≤ i)%nat →
    MerkleProof_new i leaves = Err (IndexOutOfRange i (length leaves))) ∧
  (∀ leaf, leaves !! i = Some leaf →
    ∃ p t, merkle_tree leaves t ∧ MerkleProof_new i leaves = Ok (p, tree_root t) ∧
      mp_index p = i ∧ mp_total p = length leaves ∧
      MerkleProof_verify p leaf (tree_root t) = Ok tt).
Proof.
  split; [|apply proof_new_verify].
  intros Hi. unfold MerkleProof_new. by destruct (Nat.leb_spec (length leaves) i); [|lia].
Qed.

(** Verification is sound.  When hashes do not collide, a proof with an index
    in range that [verify] accepts against the root of a tree over [leaves] (of
    the number of leaves the proof states) can only be for the leaf that is at
    that index. *)
Theorem merkle_verify_sound `{!CollisionFree H} (p : MerkleProof) leaves t leaf :
  merkle_tree leaves t → mp_total p = length leaves → (mp_index p < mp_total p)%nat →
  MerkleProof_verify p leaf (tree_root t) = Ok tt → leaves !! mp_index p = Some leaf.
Proof. apply proof_verify_sound. Qed.

(** The index of a proof is not authenticated past the end of the tree: a proof
    for the last leaf still verifies when its index is replaced by any larger
    one, although the documentation of [verify] promises an error when index
    and number of leaves are inconsistent. *)
Theorem merkle_verify_index_malleable aunts lh total j leaf root :
  (0 < total)%nat → (total ≤ j)%nat →
  MerkleProof_verify {| mp_index := j; mp_total := total; mp_leaf_hash := lh; mp_aunts := aunts |}
    leaf root =
  MerkleProof_verify {| mp_index := total - 1; mp_total := total; mp_leaf_hash := lh;
    mp_aunts := aunts |} leaf root.
Proof.
  intros. unfold MerkleProof_verify. simpl.
  by rewrite (root_from_aunts_past_end total j (total - 1)) by lia.
Qed.

Lemma merkle_raw_inverse (hash_of_bytes : list Z → option H) (bytes_of_hash : H → list Z) p :
  Forall (λ h, hash_of_bytes (bytes_of_hash h) = Some h) (mp_leaf_hash p :: mp_aunts p) →
  Z.of_nat (mp_index p) ≤ i64_max → 0 < Z.of_nat (mp_total p) ≤ i64_max →
  MerkleProof_try_from hash_of_bytes (MerkleProof_into_raw bytes_of_hash p) = Ok p.
Proof.
  intros [Hl Ha]%Forall_cons Hi Ht. unfold MerkleProof_try_from, MerkleProof_into_raw. simpl.
  rewrite !as_i64_id by lia. case_ifs; [lia..|]. rewrite Hl.
  assert (mapM hash_of_bytes (bytes_of_hash <$> mp_aunts p) = Some (mp_aunts p)) as ->
    by (by apply mapM_Some, Forall2_fmap_l, Forall_Forall2_diag).
  cbv [mbind res_bind ok_or]. rewrite !Nat2Z.id. by destruct p.
Qed.

(** The protobuf form round-trips: decoding the encoding of a proof whose
    [index] and [total] fit in an [i64] gives the proof back, given that hashes
    are read back from their own bytes. *)
Theorem merkle_proof_raw_roundtrip (hash_of_bytes : list Z → option H)
    (bytes_of_hash : H → list Z) p :
  (∀ h, hash_of_bytes (bytes_of_hash h) = Some h) →
  Z.of_nat (mp_index p) ≤ i64_max → 0 < Z.of_nat (mp_total p) ≤ i64_max →
  MerkleProof_try_from hash_of_bytes (MerkleProof_into_raw bytes_of_hash p) = Ok p.
Proof. intros Hb. apply merkle_raw_inverse, Forall_true. done. Qed.

End Merkle.
Arguments MerkleProof : clear implicits.

(** ** Witnesses

    The free term algebra is a hash function without collisions: a hash is the
    tree itself. *)
#[global] Instance tree_eq_dec : EqDecision tree.
Proof. solve_decision. Defined.
#[local] Instance tree_MerkleHash : MerkleHash tree :=
  {| empty_hash := TEmpty; leaf_hash := TLeaf; inner_hash := TNode |}.
#[local] Instance tree_CollisionFree : CollisionFree tree.
Proof. split; repeat intro; simpl in *; by simplify_eq. Qed.
#[local] Instance tree_DomainSeparated : DomainSeparated tree.
Proof. by split. Qed.

Definition three_leaves : list (list Z) := [[1]; [2]; [3]].
Definition three_leaves_tree : tree := TNode (TNode (TLeaf [1]) (TLeaf [2])) (TLeaf [3]).
Lemma three_leaves_tree_ok : merkle_tree three_leaves three_leaves_tree.
Proof. repeat (econstructor; try (simpl; lia)). Qed.

Lemma merkle_proof_complete_witness :
  ∃ p t, merkle_tree three_leaves t ∧ MerkleProof_new 2 three_leaves = Ok (p, tree_root t) ∧
    mp_index p = 2%nat ∧ mp_total p = 3%nat ∧ MerkleProof_verify p [3] (tree_root t) = Ok tt.
Proof. apply (proj2 (merkle_proof_complete 2 three_leaves) [3]). reflexivity. Defined.

Lemma merkle_verify_sound_witness : three_leaves !! 1%nat = Some [2].
Proof.
  apply (merkle_verify_sound
    {| mp_index := 1; mp_total := 3; mp_leaf_hash := TLeaf [2]; mp_aunts := [TLeaf [1]; TLeaf [3]] |}
    three_leaves three_leaves_tree [2] three_leaves_tree_ok); [reflexivity|simpl; lia|reflexivity].
Defined.

Lemma merkle_verify_index_malleable_witness :
  MerkleProof_verify {| mp_index := 7; mp_total := 3; mp_leaf_hash := TLeaf [3];
    mp_aunts := [TNode (TLeaf [1]) (TLeaf [2])] |} [3] three_leaves_tree = Ok tt.
Proof.
  rewrite (merkle_verify_index_malleable [TNode (TLeaf [1]) (TLeaf [2])] (TLeaf [3]) 3 7 [3]
    three_leaves_tree); [reflexivity|lia|lia].
Defined.

(** A toy encoding of hashes for the round trip: single-leaf trees and their leaf. *)
Lemma merkle_proof_raw_roundtrip_witness :
  MerkleProof_try_from (H := list Z) (λ b, Some b)
    (MerkleProof_into_raw (H := list Z) (λ h, h)
      {| mp_index := 1; mp_total := 3; mp_leaf_hash := [2]; mp_aunts := [[1]; [3]] |}) =
  Ok {| mp_index := 1; mp_total := 3; mp_leaf_hash := [2]; mp_aunts := [[1]; [3]] |}.
Proof.
  apply (merkle_proof_raw_roundtrip (H := list Z) (λ b, Some b) (λ h, h)
    {| mp_index := 1; mp_total := 3; mp_leaf_hash := [2]; mp_aunts := [[1]; [3]] |});
    [done|unfold i64_max; simpl; lia..].
Defined.
