(* ===== verification/Nmt.v ===== *)
(** * Namespaces and namespaced hashes (src/types/src/nmt.rs, src/types/src/nmt/)

    A namespace is 29 bytes: a version and an id.  The namespaced Merkle tree itself is the
    external crate nmt-rs, represented by the class [NmtExternals]; what is modelled here is
    the crate's own code: the constructors of namespaces with their validation, the order on
    namespaces and what is reserved, and namespaced hashes as bytes. *)

From S2P Require Import Prelude Consts.

(** ** Bytes *)

Definition byte := Z.
Definition bytes := list Z.
Definition is_byte (b : Z) : Prop := 0 ≤ b ≤ 255.
Definition are_bytes (l : bytes) : Prop := Forall is_byte l.

(** The derived order on byte arrays: lexicographic. *)
Fixpoint bytes_le (a b : bytes) : bool :=
  match a, b with
  | [], _ => true
  | _ :: _, [] => false
  | x :: a, y :: b => (x <? y) || ((x =? y) && bytes_le a b)
  end.
Definition bytes_lt (a b : bytes) : bool := negb (bytes_le b a).

(** ** Integers as bytes: [put_u64], [get_u64] and the like of the crate bytes *)

Fixpoint be_bytes (n : nat) (x : Z) : bytes :=
  match n with
  | O => []
  | S n => (x / 256 ^ Z.of_nat n) mod 256 :: be_bytes n x
  end.
Definition be_value (l : bytes) : Z := foldl (λ acc b, acc * 256 + b) 0 l.

(** Reading [n] bytes off the front of the buffer panics when there are fewer. *)
Definition get_be {E} (n : nat) (buffer : bytes) : res E (Z * bytes) :=
  if (length buffer <? n)%nat then Panic else Ok (be_value (take n buffer), drop n buffer).

(** [split_at] panics past the end. *)
Definition split_at {E} (n : nat) (buffer : bytes) : res E (bytes * bytes) :=
  if (length buffer <? n)%nat then Panic else Ok (take n buffer, drop n buffer).

(** ** Namespaces *)

Definition NS_VER_SIZE : nat := 1.
Definition NS_ID_SIZE : nat := 28.
Definition NS_SIZE : nat := NS_VER_SIZE + NS_ID_SIZE.
Definition NS_ID_V0_SIZE : nat := 10.

(** [struct Namespace(nmt_rs::NamespaceId<NS_SIZE>)]: its bytes. *)
Definition Namespace := bytes.

Inductive NsError :=
| InvalidNamespaceSize
| InvalidNamespaceV0
| InvalidNamespaceV255
| UnsupportedNamespaceVersion (n : Z)
| InvalidNmtNodeOrder.

(** [Namespace::const_v0]: [id] is an array of ten bytes. *)
Definition const_v0 (id : bytes) : Namespace := repeat 0 (NS_SIZE - NS_ID_V0_SIZE) ++ id.
(** [Namespace::const_v255]: 29 bytes of 255 with the last one replaced. *)
Definition const_v255 (id : byte) : Namespace := <[NS_ID_SIZE := id]> (repeat 255 NS_SIZE).

(** The length match, the all-zero prefix, and [copy_from_slice] at the end of a
    zeroed array. *)
Definition new_v0 (id : bytes) : res NsError Namespace :=
  id_pos ← (if (length id =? NS_ID_SIZE)%nat then Ok (NS_ID_SIZE - NS_ID_V0_SIZE)%nat
            else if (length id <=? NS_ID_V0_SIZE)%nat then Ok 0%nat
            else Err InvalidNamespaceSize);
  let prefix := take id_pos id in
  let id := drop id_pos id in
  if existsb (λ x, negb (x =? 0)) prefix then Err InvalidNamespaceV0
  else Ok (repeat 0 (NS_SIZE - length id) ++ id).

Definition new_v255 (id : bytes) : res NsError Namespace :=
  if negb (length id =? NS_ID_SIZE)%nat then Err InvalidNamespaceSize else
  id_last ← expect (last id);
  if forallb (λ x, x =? 255) (take (length id - 1) id) then Ok (const_v255 id_last)
  else Err InvalidNamespaceV255.

Definition Namespace_new (version : byte) (id : bytes) : res NsError Namespace :=
  if version =? 0 then new_v0 id
  else if version =? 255 then new_v255 id
  else Err (UnsupportedNamespaceVersion version).

Definition Namespace_from_raw (b : bytes) : res NsError Namespace :=
  if negb (length b =? NS_SIZE)%nat then Err InvalidNamespaceSize else
  version ← vec_index b 0; Namespace_new version (drop 1 b).

Definition Namespace_version (ns : Namespace) : res NsError byte := vec_index ns 0.
Definition Namespace_id (ns : Namespace) : bytes := drop 1 ns.
Definition Namespace_id_v0 (ns : Namespace) : res NsError (option bytes) :=
  version ← Namespace_version ns;
  Ok (if version =? 0 then Some (drop (NS_SIZE - NS_ID_V0_SIZE) ns) else None).

Definition TRANSACTION : Namespace := const_v0 [0;0;0;0;0;0;0;0;0;1].
Definition PAY_FOR_BLOB : Namespace := const_v0 [0;0;0;0;0;0;0;0;0;4].
Definition MAX_PRIMARY_RESERVED : Namespace := const_v0 [0;0;0;0;0;0;0;0;0;255].
Definition PRIMARY_RESERVED_PADDING : Namespace := MAX_PRIMARY_RESERVED.
Definition MIN_SECONDARY_RESERVED : Namespace := const_v255 0.
Definition TAIL_PADDING : Namespace := const_v255 254.
Definition PARITY_SHARE : Namespace := const_v255 255.

Definition is_reserved (ns : Namespace) : bool :=
  bytes_le ns MAX_PRIMARY_RESERVED || bytes_le MIN_SECONDARY_RESERVED ns.

(** ** Namespaced hashes (nmt/namespaced_hash.rs) *)

(** [nmt_rs::NamespacedHash]: the least and the greatest namespace below a node
    and its hash. *)
Record NamespacedHash := {
  min_namespace : Namespace;
  max_namespace : Namespace;
  nh_hash : bytes
}.
#[global] Instance NamespacedHash_eq_dec : EqDecision NamespacedHash.
Proof. solve_decision. Defined.

Definition HASH_SIZE : nat := 32.
Definition NAMESPACED_HASH_SIZE : nat := 2 * NS_SIZE + HASH_SIZE.

(** Three [copy_from_slice] into consecutive parts of the array. *)
Definition nh_to_array (h : NamespacedHash) : bytes :=
  min_namespace h ++ max_namespace h ++ nh_hash h.

Definition validate_namespace_order (h : NamespacedHash) : res NsError unit :=
  if bytes_lt (max_namespace h) (min_namespace h) then Err InvalidNmtNodeOrder else Ok tt.

(** The sizes the Rust types give: arrays of fixed length. *)
Definition nh_wf (h : NamespacedHash) : Prop :=
  length (min_namespace h) = NS_SIZE ∧ length (max_namespace h) = NS_SIZE ∧
  length (nh_hash h) = HASH_SIZE.

(** ** Specification *)

(** The namespaces that exist, by version: 18 zero bytes and a suffix of ten, or
    27 bytes of 255 and a last byte. *)
Definition valid_v0 (ns : Namespace) : Prop :=
  ∃ suffix, length suffix = NS_ID_V0_SIZE ∧ ns = repeat 0 19 ++ suffix.
Definition valid_v255 (ns : Namespace) : Prop := ∃ b, ns = repeat 255 28 ++ [b].
Definition valid_namespace (ns : Namespace) : Prop := valid_v0 ns ∨ valid_v255 ns.

(** ** Lemmas: bytes *)

Lemma length_be_bytes n x : length (be_bytes n x) = n.
Proof. induction n; simpl; congruence. Qed.

Lemma are_bytes_be n x : are_bytes (be_bytes n x).
Proof.
  induction n as [|n IH]; simpl; constructor; [|done].
  pose proof (Z.mod_pos_bound (x / 256 ^ Z.of_nat n) 256 ltac:(lia)). unfold is_byte. lia.
Qed.

Lemma be_value_app l1 l2 : be_value (l1 ++ l2) = be_value l1 * 256 ^ Z.of_nat (length l2) + be_value l2.
Proof.
  unfold be_value. rewrite foldl_app. generalize (foldl (λ acc b : Z, acc * 256 + b) 0 l1). intros a.
  revert a; induction l2 as [|b l2 IH]; intros a; cbn [foldl length]; [change (Z.of_nat 0) with 0; lia|].
  rewrite IH, (IH (0 * 256 + b)), Nat2Z.inj_succ, Z.pow_succ_r by lia. lia.
Qed.

Lemma be_value_be_bytes n x : be_value (be_bytes n x) = x mod 256 ^ Z.of_nat n.
Proof.
  induction n as [|n IH]; cbn [be_bytes]; [by rewrite Z.mod_1_r|].
  change (_ :: be_bytes n x) with ([(x / 256 ^ Z.of_nat n) mod 256] ++ be_bytes n x).
  rewrite be_value_app, length_be_bytes, IH, Nat2Z.inj_succ, Z.pow_succ_r by lia.
  rewrite (Z.mul_comm 256), Z.rem_mul_r by lia. unfold be_value; simpl. lia.
Qed.

Lemma be_value_bound l : are_bytes l → 0 ≤ be_value l < 256 ^ Z.of_nat (length l).
Proof.
  induction l as [|b l IH] using rev_ind; [done|]. intros [Hl Hb]%Forall_app.
  rewrite Forall_singleton in Hb. unfold is_byte in Hb. specialize (IH Hl).
  rewrite be_value_app, length_app. simpl length. rewrite Nat2Z.inj_add, Z.pow_add_r by lia.
  change (be_value [b]) with b. change (256 ^ Z.of_nat 1) with 256. lia.
Qed.

Lemma be_bytes_mod n x k : (n ≤ k)%nat → be_bytes n (x mod 256 ^ Z.of_nat k) = be_bytes n x.
Proof.
  intros Hk. induction n as [|n IH]; [done|]. cbn [be_bytes]. rewrite IH by lia. f_equal.
  assert (0 < 256 ^ Z.of_nat n) as Hn by (apply Z.pow_pos_nonneg; lia).
  assert (0 < 256 ^ (Z.of_nat k - Z.of_nat n - 1)) as Hc by (apply Z.pow_pos_nonneg; lia).
  replace (256 ^ Z.of_nat k)
    with (256 ^ Z.of_nat n * (256 * 256 ^ (Z.of_nat k - Z.of_nat n - 1)))
    by (rewrite <-Z.pow_succ_r, <-Z.pow_add_r by lia; f_equal; lia).
  pose proof (Z.mod_pos_bound x _ Hn) as Hx.
  rewrite (Z.rem_mul_r x) by lia. rewrite (Z.mul_comm (256 ^ Z.of_nat n)), Z.div_add by lia.
  rewrite (Z.div_small (x mod _)), Z.add_0_l, (Z.rem_mul_r (x / _)) by lia.
  by rewrite (Z.mul_comm 256), Z.mod_add, Z.mod_mod by lia.
Qed.

Lemma be_bytes_be_value l : are_bytes l → be_bytes (length l) (be_value l) = l.
Proof.
  induction l as [|b l IH]; [done|]. intros [Hb Hl]%Forall_cons. unfold is_byte in Hb.
  pose proof (be_value_bound l Hl) as Hv. cbn [be_bytes length].
  change (be_value (b :: l)) with (be_value ([b] ++ l)). rewrite be_value_app.
  change (be_value [b]) with b. f_equal.
  - rewrite Z.add_comm, Z.div_add, (Z.div_small (be_value l)) by lia. rewrite Z.mod_small; lia.
  - rewrite <-(be_bytes_mod _ _ (length l)) by done.
    rewrite Z.add_comm, Z.mod_add, be_bytes_mod by lia. by apply IH.
Qed.

Lemma be_bytes_2 x : is_u16 x → be_value (be_bytes 2 x) = x.
Proof. intros [? ?]. unfold u16_max in *. rewrite be_value_be_bytes, Z.mod_small; lia. Qed.
Lemma be_bytes_8 x : is_u64 x → be_value (be_bytes 8 x) = x.
Proof. intros [? ?]. unfold u64_max in *. rewrite be_value_be_bytes, Z.mod_small; lia. Qed.

Lemma be_value_2 l : are_bytes l → length l = 2%nat →
  is_u16 (be_value l) ∧ be_bytes 2 (be_value l) = l.
Proof.
  intros Hl Hlen. pose proof (be_value_bound l Hl) as Hb. rewrite Hlen in Hb.
  split; [unfold is_u16, u16_max; lia|]. rewrite <-Hlen. by apply be_bytes_be_value.
Qed.
Lemma be_value_8 l : are_bytes l → length l = 8%nat →
  is_u64 (be_value l) ∧ be_bytes 8 (be_value l) = l.
Proof.
  intros Hl Hlen. pose proof (be_value_bound l Hl) as Hb. rewrite Hlen in Hb.
  split; [unfold is_u64, u64_max; lia|]. rewrite <-Hlen. by apply be_bytes_be_value.
Qed.

(** Reading from the front of two parts. *)
Lemma get_be_app {E} n l1 l2 : length l1 = n → @get_be E n (l1 ++ l2) = Ok (be_value l1, l2).
Proof.
  intros <-. unfold get_be. rewrite length_app.
  destruct (Nat.ltb_spec (length l1 + length l2) (length l1)); [lia|].
  by rewrite take_app_length, drop_app_length.
Qed.
Lemma split_at_app {E} n l1 l2 : length l1 = n → @split_at E n (l1 ++ l2) = Ok (l1, l2).
Proof.
  intros <-. unfold split_at. rewrite length_app.
  destruct (Nat.ltb_spec (length l1 + length l2) (length l1)); [lia|].
  by rewrite take_app_length, drop_app_length.
Qed.

Lemma split_bytes (l : bytes) n k : length l = (n + k)%nat → are_bytes l →
  ∃ l1 l2, l = l1 ++ l2 ∧ length l1 = n ∧ length l2 = k ∧ are_bytes l1 ∧ are_bytes l2.
Proof.
  intros Hlen Hl. exists (take n l), (drop n l). rewrite take_drop. split; [done|].
  rewrite length_take, length_drop. split; [lia|]. split; [lia|].
  by split; [apply Forall_take|apply Forall_drop].
Qed.

(** ** Lemmas: namespaces *)

Lemma bytes_le_refl a : bytes_le a a = true.
Proof. induction a as [|x a IH]; [done|]. simpl. rewrite IH. lia. Qed.

Lemma bytes_le_total a b : bytes_le a b = true ∨ bytes_le b a = true.
Proof.
  revert b; induction a as [|x a IH]; intros [|y b]; simpl; auto.
  destruct (IH b) as [E|E]; rewrite E; lia.
Qed.

Lemma bytes_le_antisym a b : bytes_le a b = true → bytes_le b a = true → a = b.
Proof.
  revert b; induction a as [|x a IH]; intros [|y b]; simpl; try done.
  intros H1 H2. destruct (bytes_le a b) eqn:E1, (bytes_le b a) eqn:E2;
    try (exfalso; lia). f_equal; [lia|auto].
Qed.

Lemma bytes_le_trans a b c : bytes_le a b = true → bytes_le b c = true → bytes_le a c = true.
Proof.
  revert b c; induction a as [|x a IH]; intros [|y b] [|z c]; simpl; try done.
  intros H1 H2. specialize (IH b c).
  destruct (bytes_le a b) eqn:E1, (bytes_le b c) eqn:E2; try rewrite IH by done; lia.
Qed.

(** Below (above) a run of the least (greatest) byte there is only that run. *)
Lemma bytes_le_zeros n ns b :
  are_bytes ns → length ns = S n → 0 ≤ b →
  bytes_le ns (repeat 0 n ++ [b]) = true ↔ ∃ x, ns = repeat 0 n ++ [x] ∧ x ≤ b.
Proof.
  revert ns; induction n as [|n IH]; intros [|y ns] Hb Hl Hpos; try done.
  - destruct ns; [|done]. simpl. split; [|intros (x&[=->]&?); lia].
    intros. exists y. split; [done|lia].
  - cbn [bytes_le repeat app]. apply Forall_cons in Hb as [Hy Hb]. unfold is_byte in Hy. simpl in Hl.
    specialize (IH ns Hb ltac:(lia) Hpos). split.
    + intros [H|[Hy0 H]%andb_true_iff]%orb_true_iff; [lia|].
      apply IH in H as (x&->&?). exists x. split; [f_equal; lia|done].
    + intros (x&[=->->]&?). rewrite (proj2 IH) by naive_solver. lia.
Qed.

Lemma bytes_ge_255 n ns b :
  are_bytes ns → length ns = S n → b ≤ 255 →
  bytes_le (repeat 255 n ++ [b]) ns = true ↔ ∃ x, ns = repeat 255 n ++ [x] ∧ b ≤ x.
Proof.
  revert ns; induction n as [|n IH]; intros [|y ns] Hb Hl Hpos; try done.
  - destruct ns; [|done]. simpl. split; [|intros (x&[=->]&?); lia].
    intros. exists y. split; [done|lia].
  - cbn [bytes_le repeat app]. apply Forall_cons in Hb as [Hy Hb]. unfold is_byte in Hy. simpl in Hl.
    specialize (IH ns Hb ltac:(lia) Hpos). split.
    + intros [H|[Hy0 H]%andb_true_iff]%orb_true_iff; [lia|].
      apply IH in H as (x&->&?). exists x. split; [f_equal; lia|done].
    + intros (x&[=->->]&?). rewrite (proj2 IH) by naive_solver. lia.
Qed.

Lemma not_existsb_zeros l : existsb (λ x, negb (x =? 0)) l = false ↔ l = repeat 0 (length l).
Proof.
  induction l as [|x l IH]; [done|]. simpl. split.
  - intros [H1 H2]%orb_false_iff. apply IH in H2. f_equal; [lia|done].
  - intros [= -> H]. apply IH in H. by rewrite H.
Qed.

Lemma forallb_255 l : forallb (λ x, x =? 255) l = true ↔ l = repeat 255 (length l).
Proof.
  induction l as [|x l IH]; [done|]. simpl. split.
  - intros [H1 H2]%andb_true_iff. apply IH in H2. f_equal; [lia|done].
  - intros [= -> H]. apply IH in H. by rewrite H.
Qed.

Lemma const_v255_eq b : const_v255 b = repeat 255 28 ++ [b].
Proof. reflexivity. Qed.

(** [new_v255] accepts the 28-byte ids that start with 27 bytes of 255. *)
Lemma new_v255_spec id ns :
  new_v255 id = Ok ns ↔ ∃ b, id = repeat 255 27 ++ [b] ∧ ns = repeat 255 28 ++ [b].
Proof.
  unfold new_v255, NS_ID_SIZE. destruct (Nat.eqb_spec (length id) 28) as [Hl|Hl]; simpl negb; cbv iota.
  - destruct (last id) as [b|] eqn:Hlast; [|by apply last_None in Hlast as ->].
    apply last_Some in Hlast as [l ->]. rewrite length_app in Hl. simpl in Hl.
    cbv [mbind res_bind expect]. rewrite length_app. simpl length.
    rewrite Nat.add_sub, take_app_length.
    assert (length l = 27%nat) as E27 by lia.
    destruct (forallb _ l) eqn:E.
    + apply forallb_255 in E. rewrite E27 in E. rewrite const_v255_eq. split.
      * intros [= <-]. exists b. by rewrite E.
      * intros (b'&Heq&->). apply app_inj_tail in Heq as [_ ->]. done.
    + split; [done|]. intros (b'&Heq&->). apply app_inj_tail in Heq as [-> _].
      by rewrite (proj2 (forallb_255 _)) in E.
  - split; [done|]. intros (b&->&_). done.
Qed.

(** [new_v0] on a full id: 18 zeros and the suffix. *)
Lemma new_v0_full id ns : length id = NS_ID_SIZE →
  new_v0 id = Ok ns ↔ ∃ suffix, length suffix = NS_ID_V0_SIZE ∧
    id = repeat 0 18 ++ suffix ∧ ns = repeat 0 19 ++ suffix.
Proof.
  intros Hl. unfold new_v0. rewrite Hl, Nat.eqb_refl. cbv [mbind res_bind].
  change (NS_ID_SIZE - NS_ID_V0_SIZE)%nat with 18%nat. unfold NS_ID_SIZE in Hl.
  assert (length (take 18 id) = 18%nat) as Ht by (rewrite length_take; lia).
  assert (length (drop 18 id) = 10%nat) as Hd by (rewrite length_drop; lia).
  destruct (existsb _ _) eqn:E.
  - split; [done|]. intros (s&Hs&->&_). rewrite take_app_length' in E by done. by vm_compute in E.
  - apply not_existsb_zeros in E. rewrite Ht in E. rewrite Hd. split.
    + intros [= <-]. exists (drop 18 id). split; [done|]. split; [|done].
      rewrite <-E. by rewrite take_drop.
    + intros (s&Hs&->&->). by rewrite drop_app_length' by done.
Qed.

Lemma new_v0_short id : (length id ≤ NS_ID_V0_SIZE)%nat →
  new_v0 id = Ok (repeat 0 (NS_SIZE - length id) ++ id).
Proof.
  intros Hl. unfold new_v0, NS_ID_V0_SIZE, NS_ID_SIZE in *.
  destruct (Nat.eqb_spec (length id) 28); [lia|]. destruct (Nat.leb_spec (length id) 10); [|lia].
  done.
Qed.

Lemma valid_namespace_length ns : valid_namespace ns → length ns = NS_SIZE.
Proof. intros [(s&Hs&->)|[b ->]]; rewrite length_app, repeat_length, ?Hs; done. Qed.

(** ** The tree (external code, crate nmt-rs) *)

(** [Nmt::push_leaf] for each leaf and then [root], with the hasher that ignores the
    parity namespace; [None] is the error of a [push_leaf]. *)
Class NmtExternals := nmt_root : list (bytes * Namespace) → option NamespacedHash.

(** Leaves whose namespaces do not decrease are accepted. *)
Fixpoint ns_sorted (leaves : list (bytes * Namespace)) : Prop :=
  match leaves with
  | [] => True
  | leaf :: leaves => Forall (λ x, bytes_le leaf.2 x.2 = true) leaves ∧ ns_sorted leaves
  end.
Class NmtExternalsSpec `{NmtExternals} : Prop :=
  nmt_root_sorted leaves : ns_sorted leaves → ∃ h, nmt_root leaves = Some h ∧ nh_wf h.

(** No two lists of leaves whose roots have the same hash (SHA-256 does not collide). *)
Class NmtCollisionFree `{NmtExternals} : Prop :=
  nmt_root_inj l1 l2 h1 h2 : nmt_root l1 = Some h1 → nmt_root l2 = Some h2 →
    nh_hash h1 = nh_hash h2 → l1 = l2.

Lemma same_ns_sorted {A} (f : A → bytes) (ns : Namespace) l : ns_sorted ((λ s, (f s, ns)) <$> l).
Proof.
  induction l as [|s l IH]; [done|]. split; [|exact IH]. apply Forall_fmap, Forall_true.
  intros x. apply bytes_le_refl.
Qed.

(** ** Properties *)

(** Parsing a namespace accepts exactly the valid ones, unchanged:
    [Namespace::from_raw] returns [Ok ns] if and only if the input is [ns] itself
    and it is 18 zero id bytes with a ten-byte suffix under version 0, or 27 bytes
    of 255 and a last byte under version 255.  It never panics on 29 bytes. *)
Theorem namespace_from_raw_exact b ns :
  (Namespace_from_raw b = Ok ns ↔ ns = b ∧ valid_namespace ns) ∧ Namespace_from_raw b ≠ Panic.
Proof.
  unfold Namespace_from_raw, Namespace_new, NS_SIZE, NS_VER_SIZE, NS_ID_SIZE.
  destruct (Nat.eqb_spec (length b) (1 + 28)) as [Hl|Hl]; simpl negb; cbv iota.
  2:{ split; [|done]. split; [done|]. intros [-> H]. by apply valid_namespace_length in H. }
  destruct b as [|v id]; [done|]. simpl in Hl. simpl. injection Hl as Hl. unfold drop.
  destruct (Z.eqb_spec v 0) as [->|Hv0].
  { split.
    - rewrite new_v0_full by done. split.
      + intros (s&Hs&->&->). split; [done|]. left. by exists s.
      + intros [-> [(s&Hs&Heq)|[c Heq]]]; [|done]. injection Heq as Heq. exists s.
        by rewrite Heq.
    - unfold new_v0. cbv [mbind res_bind]. by case_ifs. }
  destruct (Z.eqb_spec v 255) as [->|Hv255].
  - split.
    + rewrite new_v255_spec. split.
      * intros (c&->&->). split; [done|]. right. by exists c.
      * intros [-> [(s&Hs&Heq)|[c Heq]]]; [done|]. injection Heq as Heq. exists c. by rewrite Heq.
    + unfold new_v255. destruct (last id) eqn:E; [cbv [mbind res_bind expect]; by case_ifs|].
      by apply last_None in E as ->.
  - split; [|done]. split; [done|]. intros [-> [(s&Hs&Heq)|[c Heq]]]; by injection Heq.
Qed.

(** [is_reserved] singles out the reserved namespaces: among the valid ones,
    those of version 255 and those of version 0 whose id is at most 0xff. *)
Theorem is_reserved_exact ns :
  valid_namespace ns → are_bytes ns →
  is_reserved ns = true ↔ valid_v255 ns ∨ ∃ b, ns = repeat 0 28 ++ [b].
Proof.
  intros Hv Hb. pose proof (valid_namespace_length _ Hv) as Hl. unfold is_reserved.
  change MAX_PRIMARY_RESERVED with (repeat 0 28 ++ [255]).
  change MIN_SECONDARY_RESERVED with (repeat 255 28 ++ [0]).
  rewrite orb_true_iff, bytes_le_zeros, bytes_ge_255 by (done || lia).
  assert (∀ c x, ns = repeat c 28 ++ [x] → is_byte x) as Hx.
  { intros c x ->. apply Forall_app in Hb as [_ Hb]. by inversion Hb. }
  unfold is_byte in Hx. split.
  - intros [(x&->&?)|(x&->&?)]; [right|left]; by exists x.
  - intros [[x ->]|[x ->]]; [right|left]; exists x; (split; [done|]).
    + by destruct (Hx 255 x eq_refl).
    + by destruct (Hx 0 x eq_refl).
Qed.

(** ** Witnesses *)
Lemma is_reserved_exact_witness :
  is_reserved PAY_FOR_BLOB = true ↔ valid_v255 PAY_FOR_BLOB ∨ ∃ b, PAY_FOR_BLOB = repeat 0 28 ++ [b].
Proof.
  apply (is_reserved_exact PAY_FOR_BLOB).
  - left. exists [0;0;0;0;0;0;0;0;0;4]. split; reflexivity.
  - unfold are_bytes, is_byte. repeat constructor; lia.
Defined.

(** A concrete tree: the root records the leaves. *)
Definition toy_nmt_root (leaves : list (bytes * Namespace)) : option NamespacedHash :=
  if forallb (λ '(a, b), bytes_le a.2 b.2) (zip leaves (tail leaves)) then
    Some {| min_namespace := repeat 0 29; max_namespace := repeat 255 29;
            nh_hash := Z.pos (encode leaves) :: repeat 0 31 |}
  else None.
#[local] Instance toy_NmtExternals : NmtExternals := toy_nmt_root.
#[local] Instance toy_NmtExternalsSpec : NmtExternalsSpec.
Proof.
  intros leaves Hs. unfold nmt_root, toy_NmtExternals, toy_nmt_root.
  assert (forallb (λ '(a, b), bytes_le a.2 b.2) (zip leaves (tail leaves)) = true) as ->.
  2:{ eexists. split; [done|]. split_and!; [done|done|]. done. }
  induction leaves as [|x [|y l] IH]; [done..|]. destruct Hs as [Hx Hs].
  apply Forall_cons in Hx as [Hxy _]. cbn [tail zip zip_with forallb] in *. apply andb_true_intro.
  split; [exact Hxy|by apply IH].
Qed.
#[local] Instance toy_NmtCollisionFree : NmtCollisionFree.
Proof.
  intros l1 l2 h1 h2. unfold nmt_root, toy_NmtExternals, toy_nmt_root.
  case_match; [|done]. case_match; [|done]. intros [= <-] [= <-] [= Heq]. by apply encode_inj in Heq.
Qed.
