(* ===== verification/Dah.v ===== *)
(** * Data availability headers (src/types/src/data_availability_header.rs)

    The row and column roots of the extended data square, the commitment to them,
    and proofs that rows are committed to.  [simple_hash_from_byte_vectors] and
    the decoding of a namespaced hash are external code (tendermint, nmt-rs):
    they are the class [DahExternals], and what is relied on is
    [DahExternalsSpec]. *)

From S2P Require Import Prelude Consts Nmt Merkle.

(** ** Data *)

(** [tendermint::hash::Hash]. *)
Inductive Hash := Sha256 (digest : bytes) | NoHash.
#[global] Instance Hash_eq_dec : EqDecision Hash.
Proof. solve_decision. Defined.

#[global] Instance Hash_countable : Countable Hash.
Proof.
  apply (inj_countable' (λ h, match h with Sha256 d => Some d | NoHash => None end)
    (λ o, match o with Some d => Sha256 d | None => NoHash end)). by intros [].
Defined.

(** [eds::AxisType]. *)
Inductive AxisType := Row | Col.
#[global] Instance AxisType_eq_dec : EqDecision AxisType.
Proof. solve_decision. Defined.

Definition AxisType_try_from (value : Z) : option AxisType :=
  if value =? 0 then Some Row else if value =? 1 then Some Col else None.

Record DataAvailabilityHeader := {
  row_roots : list NamespacedHash;
  column_roots : list NamespacedHash
}.
#[global] Instance DataAvailabilityHeader_eq_dec : EqDecision DataAvailabilityHeader.
Proof. solve_decision. Defined.

Record RowProof := {
  rp_row_roots : list NamespacedHash;
  rp_proofs : list (MerkleProof bytes);
  rp_start_row : Z;
  rp_end_row : Z
}.

Inductive DahError :=
| RootsLenMismatch (columns rows : nat)
| TooFewRoots (rows : nat)
| TooManyRoots (rows max : nat)
| DahMerkle (e : MerkleError)
| RowRootsLenMismatch
| StartAfterEnd
| RowProofLenMismatch
| EmptyHash
| InvalidNamespacedHash
| RowExceedsU16.

(** ** External code *)

Class DahExternals := {
  dah_hasher :: MerkleHash bytes;
  (** [tendermint::merkle::simple_hash_from_byte_vectors::<Sha256>] *)
  simple_hash_from_byte_vectors : list bytes → bytes;
  (** [<NamespacedHash as TryFrom<&[u8]>>::try_from] *)
  nh_from_raw : bytes → option NamespacedHash
}.

(** The root of the RFC 6962 tree; decoding inverts the byte layout. *)
Class DahExternalsSpec `{DahExternals} := {
  simple_hash_root ls t : merkle_tree ls t → simple_hash_from_byte_vectors ls = tree_root t;
  nh_from_raw_to_array h : nh_wf h → nh_from_raw (nh_to_array h) = Some h
}.

Section Dah.
Context `{DahExternals}.

(** ** Operations *)

Definition dah_new_unchecked (rows columns : list NamespacedHash) : DataAvailabilityHeader :=
  {| row_roots := rows; column_roots := columns |}.

Definition dah_validate_basic (dah : DataAvailabilityHeader) (app_version : AppVersion)
    : res DahError unit :=
  let max := max_extended_square_width app_version in
  if negb (length (column_roots dah) =? length (row_roots dah))%nat
  then Err (RootsLenMismatch (length (column_roots dah)) (length (row_roots dah))) else
  if (length (row_roots dah) <? MIN_EXTENDED_SQUARE_WIDTH)%nat
  then Err (TooFewRoots (length (row_roots dah))) else
  if (max <? length (row_roots dah))%nat
  then Err (TooManyRoots (length (row_roots dah)) max) else
  Ok tt.

Definition dah_new (rows columns : list NamespacedHash) (app_version : AppVersion)
    : res DahError DataAvailabilityHeader :=
  let dah := dah_new_unchecked rows columns in
  _ ← dah_validate_basic dah app_version; Ok dah.

Definition row_root (dah : DataAvailabilityHeader) (row : Z) : option NamespacedHash :=
  row_roots dah !! Z.to_nat row.
Definition column_root (dah : DataAvailabilityHeader) (column : Z) : option NamespacedHash :=
  column_roots dah !! Z.to_nat column.
Definition dah_root (dah : DataAvailabilityHeader) (axis : AxisType) (index : Z)
    : option NamespacedHash :=
  match axis with Col => column_root dah index | Row => row_root dah index end.

(** The local [all_roots] of [hash] and of [row_proof]. *)
Definition all_roots (dah : DataAvailabilityHeader) : list bytes :=
  nh_to_array <$> row_roots dah ++ column_roots dah.

Definition dah_hash (dah : DataAvailabilityHeader) : Hash :=
  Sha256 (simple_hash_from_byte_vectors (all_roots dah)).

(** [len().try_into().expect()] to [u16]. *)
Definition square_width (dah : DataAvailabilityHeader) : res DahError Z :=
  let len := Z.of_nat (length (row_roots dah)) in
  if u16_max <? len then Panic else Ok len.

(** The body of the loop of [row_proof]. *)
Definition row_proof_step (dah : DataAvailabilityHeader) (idx : nat)
    : res DahError (MerkleProof bytes * NamespacedHash) :=
  '(proof, _) ← map_err DahMerkle (MerkleProof_new idx (all_roots dah));
  row ← ok_or (row_root dah (Z.of_nat idx))
          (DahMerkle (IndexOutOfRange idx (length (row_roots dah))));
  Ok (proof, row).

Definition row_proof (dah : DataAvailabilityHeader) (start_row end_row : Z) : res DahError RowProof :=
  let rows := seq (Z.to_nat start_row) (Z.to_nat (end_row + 1 - start_row)) in
  l ← mapM (row_proof_step dah) rows;
  Ok {| rp_proofs := fst <$> l; rp_row_roots := snd <$> l;
        rp_start_row := start_row; rp_end_row := end_row |}.

Fixpoint row_proof_verify_loop (l : list (NamespacedHash * MerkleProof bytes)) (root : bytes)
    : res DahError unit :=
  match l with
  | [] => Ok tt
  | (row_root, proof) :: l =>
      _ ← map_err DahMerkle (MerkleProof_verify proof (nh_to_array row_root) root);
      row_proof_verify_loop l root
  end.

Definition RowProof_verify (p : RowProof) (root : Hash) : res DahError unit :=
  if negb (length (rp_row_roots p) =? length (rp_proofs p))%nat then Err RowRootsLenMismatch else
  if rp_end_row p <? rp_start_row p then Err StartAfterEnd else
  length_ ← u16_add (rp_end_row p - rp_start_row p) 1;
  if negb (length_ =? Z.of_nat (length (rp_proofs p))) then Err RowProofLenMismatch else
  match root with
  | NoHash => Err EmptyHash
  | Sha256 root => row_proof_verify_loop (zip (rp_row_roots p) (rp_proofs p)) root
  end.

(** The protobuf form. *)
Record RawDataAvailabilityHeader := {
  raw_row_roots : list bytes;
  raw_column_roots : list bytes
}.

Definition dah_try_from (value : RawDataAvailabilityHeader) : res DahError DataAvailabilityHeader :=
  rows ← mapM (λ b, ok_or (nh_from_raw b) InvalidNamespacedHash) (raw_row_roots value);
  columns ← mapM (λ b, ok_or (nh_from_raw b) InvalidNamespacedHash) (raw_column_roots value);
  Ok {| row_roots := rows; column_roots := columns |}.

Definition dah_into_raw (dah : DataAvailabilityHeader) : RawDataAvailabilityHeader :=
  {| raw_row_roots := nh_to_array <$> row_roots dah;
     raw_column_roots := nh_to_array <$> column_roots dah |}.

(** ** Lemmas *)

(** The fixed sizes of the Rust types. *)
Definition dah_wf (dah : DataAvailabilityHeader) : Prop :=
  Forall nh_wf (row_roots dah) ∧ Forall nh_wf (column_roots dah).

Lemma nh_to_array_inj h1 h2 :
  nh_wf h1 → nh_wf h2 → nh_to_array h1 = nh_to_array h2 → h1 = h2.
Proof.
  destruct h1, h2. unfold nh_to_array, nh_wf. simpl. intros (?&?&?) (?&?&?) Heq.
  apply app_inj_1 in Heq as [-> Heq]; [|congruence].
  apply app_inj_1 in Heq as [-> ->]; [done|congruence].
Qed.

Lemma nh_arrays_inj l1 l2 : Forall nh_wf l1 → Forall nh_wf l2 →
  nh_to_array <$> l1 = nh_to_array <$> l2 → l1 = l2.
Proof.
  intros H1. revert l2; induction H1 as [|h1 l1 Hh1 _ IH]; intros [|h2 l2] H2 Heq; try done.
  apply Forall_cons in H2 as [Hh2 H2]. injection Heq as Hh Hl.
  f_equal; [by apply nh_to_array_inj|by apply IH].
Qed.

Lemma dah_validate_Ok dah v u :
  dah_validate_basic dah v = Ok u ↔
  length (column_roots dah) = length (row_roots dah) ∧
  (MIN_EXTENDED_SQUARE_WIDTH ≤ length (row_roots dah) ≤ max_extended_square_width v)%nat.
Proof.
  unfold dah_validate_basic. destruct u.
  destruct (Nat.eqb_spec (length (column_roots dah)) (length (row_roots dah))) as [E|E];
    simpl negb; cbv iota; [|naive_solver].
  destruct (Nat.ltb_spec (length (row_roots dah)) MIN_EXTENDED_SQUARE_WIDTH);
    [split; [done|lia]|].
  destruct (Nat.ltb_spec (max_extended_square_width v) (length (row_roots dah)));
    [split; [done|lia]|]. split; [lia|done].
Qed.

Lemma row_proof_verify_loop_Ok l root :
  row_proof_verify_loop l root = Ok tt ↔
  Forall (λ rp, MerkleProof_verify rp.2 (nh_to_array rp.1) root = Ok tt) l.
Proof.
  induction l as [|[r p] l IH]; [done|]. simpl. rewrite Forall_cons, <-IH. simpl. split.
  - intros Hv. inv_res Hv. by destruct x.
  - intros [-> Hv]. done.
Qed.

(** One step of [row_proof]: the proof of a row verifies against the commitment. *)
Lemma row_proof_step_Ok `{!DahExternalsSpec} dah idx r :
  row_roots dah !! idx = Some r →
  ∃ p, row_proof_step dah idx = Ok (p, r) ∧
    MerkleProof_verify p (nh_to_array r) (simple_hash_from_byte_vectors (all_roots dah)) = Ok tt.
Proof.
  intros Hr. assert (all_roots dah !! idx = Some (nh_to_array r)) as Hl.
  { unfold all_roots. rewrite list_lookup_fmap, lookup_app_l by by eapply lookup_lt_Some.
    by rewrite Hr. }
  destruct (proof_new_verify _ _ _ Hl) as (p&t&Ht&Hn&_&_&Hv). exists p.
  unfold row_proof_step, row_root. rewrite Hn, Nat2Z.id, Hr. simpl.
  by rewrite (simple_hash_root _ _ Ht).
Qed.

Lemma row_proof_steps_Ok `{!DahExternalsSpec} dah s n :
  (s + n ≤ length (row_roots dah))%nat →
  ∃ l, mapM (row_proof_step dah) (seq s n) = Ok l ∧
    snd <$> l = take n (drop s (row_roots dah)) ∧ length l = n ∧
    Forall (λ rp, MerkleProof_verify rp.1 (nh_to_array rp.2)
      (simple_hash_from_byte_vectors (all_roots dah)) = Ok tt) l.
Proof.
  revert s. induction n as [|n IH]; intros s Hn; [by exists []|].
  destruct (lookup_lt_is_Some_2 (row_roots dah) s) as [r Hr]; [lia|].
  destruct (row_proof_step_Ok dah s r Hr) as (p&Hp&Hv).
  destruct (IH (S s)) as (l&Hl&Hsn&Hlen&Hf); [lia|]. exists ((p, r) :: l). cbn [seq mapM].
  rewrite Hp. cbv [mbind res_bind] in *. rewrite Hl. split; [done|]. split; [|split].
  - rewrite (drop_S _ _ _ Hr), fmap_cons. cbn [take]. by rewrite Hsn.
  - simpl. by rewrite Hlen.
  - by constructor.
Qed.

Lemma RowProof_verify_Ok p root :
  RowProof_verify p (Sha256 root) = Ok tt ↔
  length (rp_row_roots p) = length (rp_proofs p) ∧
  rp_end_row p - rp_start_row p + 1 = Z.of_nat (length (rp_proofs p)) ∧
  rp_start_row p ≤ rp_end_row p ∧ rp_end_row p - rp_start_row p + 1 ≤ u16_max ∧
  Forall (λ rp, MerkleProof_verify rp.2 (nh_to_array rp.1) root = Ok tt)
    (zip (rp_row_roots p) (rp_proofs p)).
Proof.
  unfold RowProof_verify, u16_add. rewrite <-row_proof_verify_loop_Ok.
  destruct (Nat.eqb_spec (length (rp_row_roots p)) (length (rp_proofs p))) as [E|E];
    simpl negb; cbv iota; [|naive_solver].
  destruct (Z.ltb_spec (rp_end_row p) (rp_start_row p)); [split; [done|lia]|].
  destruct (Z.ltb_spec u16_max (rp_end_row p - rp_start_row p + 1));
    cbv [mbind res_bind]; [split; [done|lia]|].
  destruct (Z.eqb_spec (rp_end_row p - rp_start_row p + 1) (Z.of_nat (length (rp_proofs p))));
    simpl negb; cbv iota; [naive_solver|]. split; [done|lia].
Qed.

(** ** Properties *)

(** Row proofs are complete: for every range of rows of the square,
    [row_proof] succeeds, returns the roots of exactly those rows, and the proof
    verifies against the hash of the header. *)
Theorem row_proof_complete `{!DahExternalsSpec} dah start_row end_row :
  0 ≤ start_row ≤ end_row → end_row < Z.of_nat (length (row_roots dah)) ≤ u16_max →
  ∃ p, row_proof dah start_row end_row = Ok p ∧
    rp_row_roots p = take (Z.to_nat (end_row + 1 - start_row))
      (drop (Z.to_nat start_row) (row_roots dah)) ∧
    RowProof_verify p (dah_hash dah) = Ok tt.
Proof.
  intros Hs He. unfold row_proof, dah_hash.
  set (n := Z.to_nat (end_row + 1 - start_row)). set (s := Z.to_nat start_row).
  destruct (row_proof_steps_Ok dah s n) as (l&Hl&Hr&Hlen&Hv); [lia|].
  rewrite Hl. cbv [mbind res_bind]. eexists. do 2 (split; [done|]).
  apply RowProof_verify_Ok. simpl. rewrite !length_fmap, Hlen.
  split; [done|]. split; [lia|]. split; [lia|]. split; [lia|].
  clear -Hv. induction Hv as [|[] l Hx _ IH]; [done|]. by constructor.
Qed.

(** Row proofs are sound: if a row proof verifies against the hash of a header
    and hashes do not collide, each root it carries whose Merkle proof is for a
    tree of that size and an index in range is the root the header has at that
    index among its rows and columns. *)
Theorem row_proof_sound `{!DahExternalsSpec, !CollisionFree bytes} dah p k r mp :
  RowProof_verify p (dah_hash dah) = Ok tt →
  rp_row_roots p !! k = Some r → rp_proofs p !! k = Some mp →
  mp_total mp = length (all_roots dah) → (mp_index mp < mp_total mp)%nat →
  all_roots dah !! mp_index mp = Some (nh_to_array r).
Proof.
  unfold dah_hash. rewrite RowProof_verify_Ok. intros (_&_&_&_&Hf) Hr Hp Ht Hi.
  rewrite Forall_lookup in Hf. specialize (Hf k (r, mp)).
  destruct (merkle_tree_exists (all_roots dah)) as [t Htree].
  rewrite (simple_hash_root _ _ Htree) in Hf.
  apply (proof_verify_sound mp _ t); [done..|]. apply Hf.
  apply lookup_zip_with_Some. eauto.
Qed.

(** The rows a proof claims are not checked: the rows [start_row..=end_row] can
    be moved to any other range of the same length and the proof still verifies,
    because [verify] compares neither them nor the kind of axis with the indices
    of the Merkle proofs. *)
Theorem row_proof_position_unbound p root d :
  RowProof_verify {| rp_row_roots := rp_row_roots p; rp_proofs := rp_proofs p;
    rp_start_row := rp_start_row p + d; rp_end_row := rp_end_row p + d |} root =
  RowProof_verify p root.
Proof.
  unfold RowProof_verify. simpl.
  replace (rp_end_row p + d <? rp_start_row p + d) with (rp_end_row p <? rp_start_row p) by lia.
  by replace (rp_end_row p + d - (rp_start_row p + d)) with (rp_end_row p - rp_start_row p) by lia.
Qed.

(** The hash of a header commits to all its roots: two headers that pass
    validation and have the same hash have the same rows and the same columns,
    when hashes do not collide. *)
Theorem dah_hash_binding `{!DahExternalsSpec, !CollisionFree bytes, !DomainSeparated bytes}
    dah1 dah2 v1 v2 :
  dah_wf dah1 → dah_wf dah2 →
  dah_validate_basic dah1 v1 = Ok tt → dah_validate_basic dah2 v2 = Ok tt →
  dah_hash dah1 = dah_hash dah2 → dah1 = dah2.
Proof.
  intros [Hr1 Hc1] [Hr2 Hc2] [Hl1 _]%dah_validate_Ok [Hl2 _]%dah_validate_Ok [= Heq].
  destruct (merkle_tree_exists (all_roots dah1)) as [t1 Ht1].
  destruct (merkle_tree_exists (all_roots dah2)) as [t2 Ht2].
  rewrite (simple_hash_root _ _ Ht1), (simple_hash_root _ _ Ht2) in Heq.
  apply (merkle_root_binds _ _ _ _ Ht1 Ht2) in Heq. unfold all_roots in Heq.
  apply nh_arrays_inj in Heq; [|by apply Forall_app..].
  pose proof (f_equal length Heq) as Hlen. rewrite !length_app in Hlen.
  apply app_inj_1 in Heq as [??]; [|lia]. destruct dah1, dah2; simpl in *. by subst.
Qed.

(** The protobuf form of a header round-trips. *)
Theorem dah_raw_roundtrip `{!DahExternalsSpec} dah :
  dah_wf dah → dah_try_from (dah_into_raw dah) = Ok dah.
Proof.
  assert (∀ l, Forall nh_wf l →
    mapM (λ b, ok_or (nh_from_raw b) InvalidNamespacedHash) (nh_to_array <$> l) = Ok l) as Hm.
  { intros l Hl. apply mapM_res_Ok, Forall2_fmap_l, Forall_Forall2_diag.
    eapply Forall_impl; [exact Hl|]. intros h Hh. simpl. by rewrite nh_from_raw_to_array. }
  intros [Hr Hc]. unfold dah_try_from, dah_into_raw. simpl.
  rewrite (Hm _ Hr), (Hm _ Hc). by destruct dah.
Qed.

End Dah.

(** ** Witnesses

    A hash without collisions on byte lists: the kind of node, the length of the
    left child, and both children. *)
#[local] Instance toy_MerkleHash : MerkleHash bytes :=
  {| empty_hash := [2]; leaf_hash := λ l, 0 :: l;
     inner_hash := λ a b, 1 :: Z.of_nat (length a) :: a ++ b |}.
#[local] Instance toy_CollisionFree : CollisionFree bytes.
Proof.
  split; repeat intro; simpl in *; simplify_eq; [done|].
  match goal with H : _ ++ _ = _ ++ _ |- _ => by apply app_inj_1 in H; [|lia] end.
Qed.
#[local] Instance toy_DomainSeparated : DomainSeparated bytes.
Proof. by split. Qed.

Fixpoint toy_root (fuel : nat) (ls : list bytes) : bytes :=
  match fuel, ls with
  | O, _ | _, [] => empty_hash
  | S fuel, [l] => leaf_hash l
  | S fuel, _ =>
      let k := (next_power_of_two (length ls) / 2)%nat in
      inner_hash (toy_root fuel (take k ls)) (toy_root fuel (drop k ls))
  end.

#[local] Instance toy_DahExternals : DahExternals := {|
  simple_hash_from_byte_vectors ls := toy_root (length ls) ls;
  nh_from_raw b :=
    if (length b =? NAMESPACED_HASH_SIZE)%nat
    then Some {| min_namespace := take 29 b; max_namespace := take 29 (drop 29 b);
                 nh_hash := drop 29 (drop 29 b) |}
    else None
|}.

Lemma toy_root_spec fuel ls t : (length ls ≤ fuel)%nat → merkle_tree ls t →
  toy_root fuel ls = tree_root t.
Proof.
  intros Hf Ht. revert fuel Hf. induction Ht as [|l|ls k l r Hl Hk H1 IH1 H2 IH2]; intros fuel Hf.
  - by destruct fuel.
  - destruct fuel; [simpl in *; lia|done].
  - pose proof (split_bounds _ Hl) as [Hk1 Hk2]. rewrite <-Hk in Hk1, Hk2.
    destruct fuel as [|fuel]; [lia|]. destruct ls as [|a [|b ls]]; [simpl in Hl; lia..|].
    cbn [tree_root]. rewrite <-(IH1 fuel) by (rewrite length_take; lia).
    rewrite <-(IH2 fuel) by (rewrite length_drop; lia). by subst k.
Qed.

#[local] Instance toy_DahExternalsSpec : DahExternalsSpec.
Proof.
  split.
  - intros ls t Ht. by apply toy_root_spec.
  - intros [mn mx h] (H1&H2&H3). simpl in *. unfold nh_to_array. simpl.
    rewrite !length_app, H1, H2, H3. cbn -[take drop].
    rewrite (take_app_length' mn), (drop_app_length' mn) by done.
    by rewrite (take_app_length' mx), (drop_app_length' mx) by done.
Qed.

Definition toy_nh (b : Z) : NamespacedHash :=
  {| min_namespace := repeat 0 29; max_namespace := repeat b 29; nh_hash := repeat b 32 |}.
Definition toy_dah : DataAvailabilityHeader :=
  {| row_roots := [toy_nh 1; toy_nh 2]; column_roots := [toy_nh 3; toy_nh 4] |}.
Definition toy_proof : MerkleProof bytes :=
  {| mp_index := 1; mp_total := 4; mp_leaf_hash := leaf_hash (nh_to_array (toy_nh 2));
     mp_aunts := [leaf_hash (nh_to_array (toy_nh 1));
       inner_hash (leaf_hash (nh_to_array (toy_nh 3))) (leaf_hash (nh_to_array (toy_nh 4)))] |}.
Definition toy_row_proof : RowProof :=
  {| rp_row_roots := [toy_nh 2]; rp_proofs := [toy_proof]; rp_start_row := 1; rp_end_row := 1 |}.

Lemma row_proof_complete_witness : ∃ p, row_proof toy_dah 0 1 = Ok p ∧
  rp_row_roots p = row_roots toy_dah ∧ RowProof_verify p (dah_hash toy_dah) = Ok tt.
Proof. apply (row_proof_complete toy_dah 0 1); unfold u16_max; simpl; lia. Defined.

Lemma row_proof_sound_witness :
  all_roots toy_dah !! 1%nat = Some (nh_to_array (toy_nh 2)).
Proof.
  apply (row_proof_sound toy_dah toy_row_proof 0 (toy_nh 2) toy_proof);
    [vm_compute; reflexivity|reflexivity|reflexivity|reflexivity|simpl; lia].
Defined.

Lemma dah_hash_binding_witness : toy_dah = dah_new_unchecked [toy_nh 1; toy_nh 2] [toy_nh 3; toy_nh 4].
Proof.
  apply (dah_hash_binding toy_dah (dah_new_unchecked [toy_nh 1; toy_nh 2] [toy_nh 3; toy_nh 4]) V1 V3);
    [repeat constructor..|reflexivity|reflexivity|reflexivity].
Defined.

Lemma dah_raw_roundtrip_witness : dah_try_from (dah_into_raw toy_dah) = Ok toy_dah.
Proof. apply (dah_raw_roundtrip toy_dah). repeat constructor. Defined.
