(* ===== verification/Header.v ===== *)
(** * Headers, commits and validator sets

    src/types/src/trust_level.rs, block.rs, validator_set.rs, extended_header.rs:
    validation of an extended header against its own commit, and verification of
    an untrusted header (or a range of them) against a trusted one.

    The data types of the tendermint crate are records with its fields; its
    functions are the class [Tendermint], and what is relied on of them is
    [TendermintSpec].  Heights, voting powers and times (nanoseconds) are [Z]. *)

From S2P Require Import Prelude Consts Nmt Merkle Dah.

(** ** Data of the tendermint crate *)

Record BlockId := {
  bid_hash : Hash;
  bid_parts_total : Z;
  bid_parts_hash : Hash
}.
#[global] Instance BlockId_eq_dec : EqDecision BlockId.
Proof. solve_decision. Defined.

Record Header := {
  version_block : Z;
  version_app : Z;
  h_chain_id : bytes;
  h_height : Z;
  h_time : Z;
  last_block_id : option BlockId;
  last_commit_hash : option Hash;
  data_hash : option Hash;
  validators_hash : Hash;
  next_validators_hash : Hash;
  consensus_hash : Hash;
  app_hash : bytes;
  last_results_hash : option Hash;
  evidence_hash : option Hash;
  proposer_address : bytes
}.
#[global] Instance Header_eq_dec : EqDecision Header.
Proof. solve_decision. Defined.

Inductive CommitSig :=
| BlockIdFlagAbsent
| BlockIdFlagCommit (validator_address : bytes) (timestamp : Z) (signature : option bytes)
| BlockIdFlagNil (validator_address : bytes) (timestamp : Z) (signature : option bytes).
#[global] Instance CommitSig_eq_dec : EqDecision CommitSig.
Proof. solve_decision. Defined.

Record Commit := {
  c_height : Z;
  c_round : Z;
  c_block_id : BlockId;
  c_signatures : list CommitSig
}.
#[global] Instance Commit_eq_dec : EqDecision Commit.
Proof. solve_decision. Defined.

(** [validator::Info] and [validator::Set]. *)
Record Validator := {
  val_address : bytes;
  val_pub_key : bytes;
  val_power : Z
}.
#[global] Instance Validator_eq_dec : EqDecision Validator.
Proof. solve_decision. Defined.

Record ValidatorSet := {
  validators : list Validator;
  proposer : option Validator;
  total_voting_power : Z
}.
#[global] Instance ValidatorSet_eq_dec : EqDecision ValidatorSet.
Proof. solve_decision. Defined.

(** The vote a commit signature stands for; always a precommit without extension. *)
Record Vote := {
  vote_height : Z;
  vote_round : Z;
  vote_block_id : option BlockId;
  vote_timestamp : option Z;
  vote_validator_address : bytes;
  vote_validator_index : Z;
  vote_signature : option bytes
}.

(** ** Data of this crate *)

Record TrustLevelRatio := { numerator : Z; denominator : Z }.

Record ExtendedHeader := {
  eh_header : Header;
  eh_commit : Commit;
  eh_validator_set : ValidatorSet;
  eh_dah : DataAvailabilityHeader
}.
#[global] Instance ExtendedHeader_eq_dec : EqDecision ExtendedHeader.
Proof. solve_decision. Defined.

Inductive HeaderError :=
(* header, commit and validator set validation *)
| VersionMismatch | ChainIdTooLong | HeightZero | GenesisWithLastBlockId | NoLastBlockId
| BlockIdZero | NoSignaturesInCommit | NoSignatureInCommitSig | BadSignatureLength
| NoValidators | NoProposer
(* votes and commits *)
| InvalidSignatureIndex (index : nat) (height : Z)
| UnexpectedAbsentSignature | ValidatorIndexOverflow | InvalidSignature
| VotingPowerOverflow | VotingPowerDivision
| SignaturesLenMismatch | CommitHeightMismatch | NoSignature
| NotEnoughVotingPower (tallied needed : Z)
| DoubleVote (prev_idx idx : nat)
(* extended header *)
| DecodeError | ValidatorsHashMismatch | DataHashMismatch | CommitHeaderHeightMismatch
| BlockHashMismatch | UnsupportedAppVersion (version : Z) | DahInvalid (e : DahError)
| HeightNotGreater | DifferentChain | TimeNotAfter | TimeFromFuture
| NextValidatorsMismatch | LastHashMismatch | NotAdjacent.

(** ** External code *)

Class Tendermint := {
  header_hash : Header → Hash;
  valset_hash : ValidatorSet → Hash;
  (** [Vote::into_signable_vec] *)
  signable_vec : Vote → bytes → bytes;
  (** [Info::verify_signature::<Verifier>(message, signature).is_ok()] *)
  verify_signature : Validator → bytes → bytes → bool;
  (** [ValidatorIndex::try_from(usize)] *)
  validator_index_try_from : nat → option Z;
  (** [Time::checked_add] *)
  time_checked_add : Z → Z → option Z;
  (** [Height::increment]; [None] is its panic *)
  height_increment : Z → option Z;
  (** protobuf decoding and encoding, [ExtendedHeader::decode] and [encode_vec] *)
  eh_decode : bytes → option ExtendedHeader;
  eh_encode : ExtendedHeader → bytes
}.

Class TendermintSpec `{Tendermint} := {
  height_increment_Some h h' : height_increment h = Some h' → h' = h + 1;
  height_increment_total h : 0 ≤ h < i64_max → is_Some (height_increment h);
  time_checked_add_Some t d t' : time_checked_add t d = Some t' → t' = t + d;
  eh_decode_encode e : eh_decode (eh_encode e) = Some e
}.

Definition GENESIS_HEIGHT : Z := 1.
Definition SIGNATURE_LENGTH : nat := 64.
(** Ten seconds. *)
Definition VERIFY_CLOCK_DRIFT : Z := 10 * 1000000000.

(** ** trust_level.rs *)

Definition DEFAULT_TRUST_LEVEL : TrustLevelRatio := {| numerator := 1; denominator := 3 |}.

Definition voting_power_needed (t : TrustLevelRatio) (total : Z) : res HeaderError Z :=
  p ← ok_or (checked_mul (numerator t) total) VotingPowerOverflow;
  ok_or (checked_div p (denominator t)) VotingPowerDivision.

Section Header.
Context `{Tendermint} `{DahExternals}.

(** ** block.rs *)

Definition header_validate_basic (h : Header) : res HeaderError unit :=
  if negb (version_block h =? BLOCK_PROTOCOL) then Err VersionMismatch else
  if (MAX_CHAIN_ID_LEN <? length (h_chain_id h))%nat then Err ChainIdTooLong else
  if h_height h =? 0 then Err HeightZero else
  if (h_height h =? GENESIS_HEIGHT) && bool_decide (is_Some (last_block_id h))
  then Err GenesisWithLastBlockId else
  if negb (h_height h =? GENESIS_HEIGHT) && bool_decide (last_block_id h = None)
  then Err NoLastBlockId else
  Ok tt.

Definition is_zero (id : BlockId) : bool :=
  match bid_hash id with NoHash => true | _ => false end &&
  match bid_parts_hash id with NoHash => true | _ => false end &&
  (bid_parts_total id =? 0).

Definition commit_sig_validate_basic (s : CommitSig) : res HeaderError unit :=
  match s with
  | BlockIdFlagAbsent => Ok tt
  | BlockIdFlagCommit _ _ signature | BlockIdFlagNil _ _ signature =>
      match signature with
      | Some signature =>
          if (length signature =? 0)%nat then Err NoSignatureInCommitSig else
          if negb (length signature =? SIGNATURE_LENGTH)%nat then Err BadSignatureLength else
          Ok tt
      | None => Err NoSignatureInCommitSig
      end
  end.

Fixpoint commit_sigs_validate (l : list CommitSig) : res HeaderError unit :=
  match l with
  | [] => Ok tt
  | s :: l => _ ← commit_sig_validate_basic s; commit_sigs_validate l
  end.

Definition commit_validate_basic (c : Commit) : res HeaderError unit :=
  if GENESIS_HEIGHT <=? c_height c then
    if is_zero (c_block_id c) then Err BlockIdZero else
    if (length (c_signatures c) =? 0)%nat then Err NoSignaturesInCommit else
    commit_sigs_validate (c_signatures c)
  else Ok tt.

Definition vote_sign_bytes (c : Commit) (chain_id : bytes) (signature_idx : nat)
    : res HeaderError bytes :=
  sig ← ok_or (c_signatures c !! signature_idx) (InvalidSignatureIndex signature_idx (c_height c));
  '(validator_address, timestamp, signature) ←
    match sig with
    | BlockIdFlagCommit a t s | BlockIdFlagNil a t s => Ok (a, t, s)
    | BlockIdFlagAbsent => Err UnexpectedAbsentSignature
    end;
  validator_index ← ok_or (validator_index_try_from signature_idx) ValidatorIndexOverflow;
  Ok (signable_vec
    {| vote_height := c_height c; vote_round := c_round c; vote_block_id := Some (c_block_id c);
       vote_timestamp := Some timestamp; vote_validator_address := validator_address;
       vote_validator_index := validator_index; vote_signature := signature |} chain_id).

(** ** validator_set.rs *)

Definition valset_validate_basic (s : ValidatorSet) : res HeaderError unit :=
  if (length (validators s) =? 0)%nat then Err NoValidators else
  if bool_decide (proposer s = None) then Err NoProposer else Ok tt.

(** The loop of [verify_commit_light] over [validators.zip(signatures).enumerate()]. *)
Fixpoint verify_commit_light_loop (commit : Commit) (chain_id : bytes) (needed : Z)
    (idx : nat) (l : list (Validator * CommitSig)) (tallied : Z) : res HeaderError unit :=
  match l with
  | [] => Err (NotEnoughVotingPower tallied needed)
  | (validator, commit_sig) :: l =>
      match commit_sig with
      | BlockIdFlagCommit _ _ (Some signature) =>
          vote_sign ← vote_sign_bytes commit chain_id idx;
          _ ← ensure (verify_signature validator vote_sign signature) InvalidSignature;
          tallied ← u64_add tallied (val_power validator);
          if needed <? tallied then Ok tt
          else verify_commit_light_loop commit chain_id needed (S idx) l tallied
      | BlockIdFlagCommit _ _ None => Err NoSignature
      | _ => verify_commit_light_loop commit chain_id needed (S idx) l tallied
      end
  end.

Definition verify_commit_light (s : ValidatorSet) (chain_id : bytes) (height : Z)
    (commit : Commit) : res HeaderError unit :=
  if negb (length (validators s) =? length (c_signatures commit))%nat
  then Err SignaturesLenMismatch else
  if negb (height =? c_height commit) then Err CommitHeightMismatch else
  needed ← voting_power_needed {| numerator := 2; denominator := 3 |} (total_voting_power s);
  verify_commit_light_loop commit chain_id needed 0
    (zip (validators s) (c_signatures commit)) 0.

(** [find_validator]: the first validator with the address, with its index. *)
Fixpoint find_validator_from (idx : nat) (vals : list Validator) (val_id : bytes)
    : option (nat * Validator) :=
  match vals with
  | [] => None
  | v :: vals =>
      if bool_decide (val_address v = val_id) then Some (idx, v)
      else find_validator_from (S idx) vals val_id
  end.
Definition find_validator (s : ValidatorSet) (val_id : bytes) : option (nat * Validator) :=
  find_validator_from 0 (validators s) val_id.

Fixpoint verify_trusting_loop (s : ValidatorSet) (commit : Commit) (chain_id : bytes)
    (needed : Z) (idx : nat) (l : list CommitSig) (seen_vals : gmap nat nat) (tallied : Z)
    : res HeaderError unit :=
  match l with
  | [] => Err (NotEnoughVotingPower tallied needed)
  | commit_sig :: l =>
      match commit_sig with
      | BlockIdFlagCommit val_id _ (Some signature) =>
          match find_validator s val_id with
          | None => verify_trusting_loop s commit chain_id needed (S idx) l seen_vals tallied
          | Some (val_idx, validator) =>
              match seen_vals !! val_idx with
              | Some prev_idx => Err (DoubleVote prev_idx idx)
              | None =>
                  let seen_vals := <[val_idx := idx]> seen_vals in
                  vote_sign ← vote_sign_bytes commit chain_id idx;
                  _ ← ensure (verify_signature validator vote_sign signature) InvalidSignature;
                  tallied ← u64_add tallied (val_power validator);
                  if needed <? tallied then Ok tt
                  else verify_trusting_loop s commit chain_id needed (S idx) l seen_vals tallied
              end
          end
      | BlockIdFlagCommit _ _ None => Err NoSignature
      | _ => verify_trusting_loop s commit chain_id needed (S idx) l seen_vals tallied
      end
  end.

Definition verify_commit_light_trusting (s : ValidatorSet) (chain_id : bytes) (commit : Commit)
    (trust_level : TrustLevelRatio) : res HeaderError unit :=
  needed ← voting_power_needed trust_level (total_voting_power s);
  verify_trusting_loop s commit chain_id needed 0 (c_signatures commit) ∅ 0.

(** ** extended_header.rs *)

Definition eh_app_version (e : ExtendedHeader) : res HeaderError AppVersion :=
  let app_version := version_app (eh_header e) in
  ok_or (AppVersion_from_u64 app_version) (UnsupportedAppVersion app_version).
Definition eh_chain_id (e : ExtendedHeader) : bytes := h_chain_id (eh_header e).
Definition eh_height (e : ExtendedHeader) : Z := h_height (eh_header e).
Definition eh_time (e : ExtendedHeader) : Z := h_time (eh_header e).
Definition eh_hash (e : ExtendedHeader) : Hash := bid_hash (c_block_id (eh_commit e)).
Definition last_header_hash (e : ExtendedHeader) : Hash :=
  default NoHash (bid_hash <$> last_block_id (eh_header e)).

Definition eh_validate (e : ExtendedHeader) : res HeaderError unit :=
  _ ← header_validate_basic (eh_header e);
  _ ← commit_validate_basic (eh_commit e);
  _ ← valset_validate_basic (eh_validator_set e);
  _ ← ensure (bool_decide (valset_hash (eh_validator_set e) = validators_hash (eh_header e)))
        ValidatorsHashMismatch;
  _ ← ensure (bool_decide (dah_hash (eh_dah e) = default NoHash (data_hash (eh_header e))))
        DataHashMismatch;
  _ ← ensure (c_height (eh_commit e) =? eh_height e) CommitHeaderHeightMismatch;
  _ ← ensure (bool_decide (eh_hash e = header_hash (eh_header e))) BlockHashMismatch;
  _ ← verify_commit_light (eh_validator_set e) (h_chain_id (eh_header e)) (eh_height e)
        (eh_commit e);
  app_version ← eh_app_version e;
  map_err DahInvalid (dah_validate_basic (eh_dah e) app_version).

Definition decode_and_validate (b : bytes) : res HeaderError ExtendedHeader :=
  header ← ok_or (eh_decode b) DecodeError;
  _ ← eh_validate header;
  Ok header.

(** [verify] reads the clock once: [now]. *)
Definition eh_verify (now : Z) (self untrusted : ExtendedHeader) : res HeaderError unit :=
  if eh_height untrusted <=? eh_height self then Err HeightNotGreater else
  if negb (bool_decide (eh_chain_id untrusted = eh_chain_id self)) then Err DifferentChain else
  if negb (eh_time self <? eh_time untrusted) then Err TimeNotAfter else
  valid_until ← expect (time_checked_add now VERIFY_CLOCK_DRIFT);
  if negb (eh_time untrusted <? valid_until) then Err TimeFromFuture else
  next ← expect (height_increment (eh_height self));
  if next =? eh_height untrusted then
    if negb (bool_decide (validators_hash (eh_header untrusted)
             = next_validators_hash (eh_header self))) then Err NextValidatorsMismatch else
    if negb (bool_decide (last_header_hash untrusted = eh_hash self)) then Err LastHashMismatch else
    Ok tt
  else
    verify_commit_light_trusting (eh_validator_set self) (eh_chain_id self)
      (eh_commit untrusted) DEFAULT_TRUST_LEVEL.

(** The loop of [verify_range]; [now i] is the reading of the clock in the [i]-th
    call of [verify]. *)
Fixpoint verify_range_loop (now : nat → Z) (i : nat) (trusted : ExtendedHeader)
    (l : list ExtendedHeader) : res HeaderError unit :=
  match l with
  | [] => Ok tt
  | untrusted :: l =>
      _ ← (if (i =? 0)%nat then Ok tt else
             next ← expect (height_increment (eh_height trusted));
             ensure (next =? eh_height untrusted) NotAdjacent);
      _ ← eh_verify (now i) trusted untrusted;
      verify_range_loop now (S i) untrusted l
  end.
Definition verify_range (now : nat → Z) (self : ExtendedHeader) (untrusted : list ExtendedHeader)
    : res HeaderError unit :=
  verify_range_loop now 0 self untrusted.

Definition verify_adjacent_range (now : nat → Z) (self : ExtendedHeader)
    (untrusted : list ExtendedHeader) : res HeaderError unit :=
  match untrusted with
  | [] => Ok tt
  | first :: _ =>
      next ← expect (height_increment (eh_height self));
      if negb (next =? eh_height first) then Err NotAdjacent else
      verify_range now self untrusted
  end.

(** ** Specification *)

(** What a validator set built by tendermint satisfies: the total is the sum of the
    powers, and fits in an [i64]. *)
Definition power_sum (l : list Validator) : Z := foldr (λ v n, val_power v + n) 0 l.
Definition valset_wf (s : ValidatorSet) : Prop :=
  Forall (λ v, 0 ≤ val_power v) (validators s) ∧
  total_voting_power s = power_sum (validators s) ∧ total_voting_power s ≤ i64_max.

(** Entry [idx] of the commit is a vote for the block with a valid signature of [v]. *)
Definition voted (commit : Commit) (chain_id : bytes) (idx : nat) (v : Validator) : bool :=
  match c_signatures commit !! idx with
  | Some (BlockIdFlagCommit _ _ (Some signature)) =>
      match vote_sign_bytes commit chain_id idx with
      | Ok message => verify_signature v message signature
      | _ => false
      end
  | _ => false
  end.

(** Entry [idx] claims to be a vote for the block. *)
Definition claims_vote (commit : Commit) (idx : nat) : bool :=
  match c_signatures commit !! idx with Some (BlockIdFlagCommit _ _ _) => true | _ => false end.

(** The voting power of the validators whose index satisfies [P]. *)
Fixpoint power_where_from (idx : nat) (l : list Validator) (P : nat → Validator → bool) : Z :=
  match l with
  | [] => 0
  | v :: l => (if P idx v then val_power v else 0) + power_where_from (S idx) l P
  end.
Definition power_where (s : ValidatorSet) (P : nat → Validator → bool) : Z :=
  power_where_from 0 (validators s) P.

(** [v], at index [i] of [s], has a valid vote somewhere in the commit, under the
    address that [find_validator] resolves to it. *)
Definition voted_by_address (s : ValidatorSet) (commit : Commit) (chain_id : bytes)
    (i : nat) (v : Validator) : Prop :=
  ∃ idx a t sig, c_signatures commit !! idx = Some (BlockIdFlagCommit a t (Some sig)) ∧
    find_validator s a = Some (i, v) ∧ voted commit chain_id idx v = true.

(** [l] continues [trusted] without gaps, every header linked to the one before. *)
Fixpoint linked (trusted : ExtendedHeader) (l : list ExtendedHeader) : Prop :=
  match l with
  | [] => True
  | e :: l =>
      eh_height e = eh_height trusted + 1 ∧
      last_header_hash e = eh_hash trusted ∧
      validators_hash (eh_header e) = next_validators_hash (eh_header trusted) ∧
      eh_chain_id e = eh_chain_id trusted ∧
      eh_time trusted < eh_time e ∧
      linked e l
  end.

(** ** Lemmas *)

Lemma voting_power_needed_Ok t total n : 0 ≤ numerator t * total →
  voting_power_needed t total = Ok n ↔
  numerator t * total ≤ u64_max ∧ denominator t ≠ 0 ∧ n = numerator t * total / denominator t.
Proof.
  intros Hpos. unfold voting_power_needed, checked_mul, checked_div.
  destruct (Z.ltb_spec u64_max (numerator t * total)); cbv [mbind res_bind ok_or]; [split; [done|lia]|].
  destruct (Z.eqb_spec (denominator t) 0); [split; [done|lia]|].
  split; [intros [= <-]; auto|]. by intros (_&_&->).
Qed.

(** More than the quotient is more than the fraction. *)
Lemma above_quotient a b n : 0 < b → a / b < n → a < n * b.
Proof. intros Hb Hn. pose proof (Z.mod_pos_bound a b Hb). pose proof (Z.div_mod a b). nia. Qed.
Lemma above_fraction a b n : 0 < b → a < n * b → a / b < n.
Proof. intros Hb Hn. apply Z.div_lt_upper_bound; lia. Qed.

Lemma power_where_le idx l P Q :
  Forall (λ v, 0 ≤ val_power v) l → (∀ i v, P i v = true → Q i v = true) →
  power_where_from idx l P ≤ power_where_from idx l Q.
Proof.
  intros Hl HPQ. revert idx. induction Hl as [|v l Hv _ IH]; intros idx; simpl; [done|].
  specialize (IH (S idx)). specialize (HPQ idx v). destruct (P idx v), (Q idx v); lia || naive_solver.
Qed.

Lemma power_where_total idx l : power_where_from idx l (λ _ _, true) = power_sum l.
Proof. revert idx; induction l as [|v l IH]; intros idx; simpl; [done|]. by rewrite IH. Qed.

(** Inclusion and exclusion. *)
Lemma power_where_and_or idx l P Q :
  power_where_from idx l P + power_where_from idx l Q =
  power_where_from idx l (λ i v, P i v && Q i v) + power_where_from idx l (λ i v, P i v || Q i v).
Proof.
  revert idx; induction l as [|v l IH]; intros idx; simpl; [done|].
  specialize (IH (S idx)). destruct (P idx v), (Q idx v); simpl; lia.
Qed.

(** Adding the index of one validator adds its power. *)
Lemma power_where_insert idx l (X : gset nat) k v :
  l !! k = Some v → (idx + k)%nat ∉ X →
  power_where_from idx l (λ i _, bool_decide (i ∈ {[ (idx + k)%nat ]} ∪ X)) =
  power_where_from idx l (λ i _, bool_decide (i ∈ X)) + val_power v.
Proof.
  revert idx k; induction l as [|w l IH]; intros idx k Hk Hn; [done|]. simpl.
  destruct k as [|k]; simpl in Hk.
  - injection Hk as ->. rewrite Nat.add_0_r in *. rewrite bool_decide_true by set_solver.
    rewrite (bool_decide_false (idx ∈ X)) by done.
    assert (∀ m, (idx < m)%nat →
      power_where_from m l (λ i _, bool_decide (i ∈ {[idx]} ∪ X)) =
      power_where_from m l (λ i _, bool_decide (i ∈ X))) as Hrest.
    { clear. induction l as [|w l IH]; intros m Hm; [done|]. simpl.
      rewrite (IH (S m)) by lia. f_equal.
      by rewrite (bool_decide_ext (m ∈ {[idx]} ∪ X) (m ∈ X)) by
        (rewrite elem_of_union, elem_of_singleton; split; [intros [?|?]; [lia|done]|auto]). }
    rewrite Hrest by lia. lia.
  - replace (idx + S k)%nat with (S idx + k)%nat in * by lia.
    rewrite (IH _ _ Hk Hn).
    rewrite (bool_decide_ext (idx ∈ {[(S idx + k)%nat]} ∪ X) (idx ∈ X)) by
      (rewrite elem_of_union, elem_of_singleton; split; [intros [?|?]; [lia|done]|auto]). lia.
Qed.

(** The loop of [verify_commit_light] from index [idx]: its tally is the power of
    valid votes it has gone through. *)
Lemma light_loop_sound commit chain_id needed idx vals sigs tallied :
  (∀ k sig, sigs !! k = Some sig → c_signatures commit !! (idx + k)%nat = Some sig) →
  length vals = length sigs → Forall (λ v, 0 ≤ val_power v) vals →
  verify_commit_light_loop commit chain_id needed idx (zip vals sigs) tallied = Ok tt →
  needed < tallied + power_where_from idx vals (voted commit chain_id).
Proof.
  intros Hsig Hlen Hpos. revert idx sigs tallied Hsig Hlen.
  induction Hpos as [|v vals Hv Hpos IH]; intros idx [|sig sigs] tallied Hsig Hlen; try done.
  pose proof (Hsig 0%nat sig eq_refl) as Hs0. rewrite Nat.add_0_r in Hs0. simpl.
  assert (∀ t, verify_commit_light_loop commit chain_id needed (S idx) (zip vals sigs) t = Ok tt →
    needed < t + power_where_from (S idx) vals (voted commit chain_id)) as Hrec.
  { intros t Ht. apply (IH (S idx) sigs); [|simpl in Hlen; lia|done].
    intros k sig' Hk. replace (S idx + k)%nat with (idx + S k)%nat by lia. by apply Hsig. }
  pose proof (power_where_le (S idx) vals (λ _ _, false) (voted commit chain_id) Hpos
    ltac:(done)) as Hge.
  assert (power_where_from (S idx) vals (λ _ _, false) = 0) as Hz.
  { clear. generalize (S idx). induction vals; intros; simpl; [done|]. by rewrite IHvals. }
  assert (0 ≤ if voted commit chain_id idx v then val_power v else 0) by (case_ifs; lia).
  destruct sig as [|a t [signature|]|]; intros Hrun; try done; try (apply Hrec in Hrun; lia).
  inv_res Hrun. unfold u64_add, checked_add in Hc1. case_ifs_in Hc1; [done|].
  injection Hc1 as <-. assert (voted commit chain_id idx v = true) as Hvote.
  { unfold voted. by rewrite Hs0, Hc. }
  rewrite Hvote. destruct (Z.ltb_spec needed (tallied + val_power v)); [lia|].
  apply Hrec in Hrun. lia.
Qed.

(** Conversely, when every vote of the commit is valid and there is enough power,
    the loop succeeds. *)
Lemma light_loop_complete commit chain_id needed idx vals sigs tallied :
  (∀ k sig, sigs !! k = Some sig → c_signatures commit !! (idx + k)%nat = Some sig) →
  length vals = length sigs → Forall (λ v, 0 ≤ val_power v) vals →
  (∀ k v, vals !! k = Some v → claims_vote commit (idx + k) = true →
    voted commit chain_id (idx + k) v = true) →
  0 ≤ tallied → tallied + power_sum vals ≤ u64_max →
  tallied ≤ needed < tallied + power_where_from idx vals (voted commit chain_id) →
  verify_commit_light_loop commit chain_id needed idx (zip vals sigs) tallied = Ok tt.
Proof.
  intros Hsig Hlen Hpos. revert idx sigs tallied Hsig Hlen.
  induction Hpos as [|v vals Hv Hpos IH]; intros idx [|sig sigs] tallied Hsig Hlen Hval Ht Hsum Hn;
    simpl in *; try lia.
  pose proof (Hsig 0%nat sig eq_refl) as Hs0. pose proof (Hval 0%nat v eq_refl) as Hv0.
  rewrite Nat.add_0_r in Hs0, Hv0.
  assert (∀ t, 0 ≤ t → t + power_sum vals ≤ u64_max →
    t ≤ needed < t + power_where_from (S idx) vals (voted commit chain_id) →
    verify_commit_light_loop commit chain_id needed (S idx) (zip vals sigs) t = Ok tt) as Hrec.
  { intros t. apply IH; [|lia|].
    - intros k sig' Hk. replace (S idx + k)%nat with (idx + S k)%nat by lia. by apply Hsig.
    - intros k w Hk. replace (S idx + k)%nat with (idx + S k)%nat by lia. by apply Hval. }
  unfold claims_vote in Hv0. unfold voted in Hv0, Hn. rewrite Hs0 in Hv0, Hn.
  fold (voted commit chain_id) in Hn. assert (0 ≤ power_sum vals) as Hps.
  { rewrite <-(power_where_total 0). clear -Hpos. generalize 0%nat.
    induction Hpos as [|v vals Hv _ IH]; intros i; simpl; [done|]. specialize (IH (S i)). lia. }
  destruct sig as [|a t [signature|]|]; try (apply Hrec; lia).
  - specialize (Hv0 eq_refl). destruct (vote_sign_bytes commit chain_id idx) as [m|e|]; try done.
    cbv [mbind res_bind ensure]. rewrite Hv0 in *. rewrite u64_add_Ok by lia.
    destruct (Z.ltb_spec needed (tallied + val_power v)); [done|]. apply Hrec; lia.
  - by specialize (Hv0 eq_refl).
Qed.

Lemma find_validator_from_lookup idx vals a i v :
  find_validator_from idx vals a = Some (i, v) →
  (idx ≤ i)%nat ∧ vals !! (i - idx)%nat = Some v ∧ val_address v = a.
Proof.
  revert idx; induction vals as [|w vals IH]; intros idx; simpl; [done|].
  destruct (bool_decide_reflect (val_address w = a)).
  - intros [= <- <-]. rewrite Nat.sub_diag. split; [lia|done].
  - intros Hf. apply IH in Hf as (?&?&?). split; [lia|].
    by replace (i - idx)%nat with (S (i - S idx)) by lia.
Qed.

(** The loop of the optimistic verification: the tally is the power of the
    validators seen so far, each of them seen once. *)
Lemma trusting_loop_sound s commit chain_id needed idx l seen tallied :
  (∀ k sig, l !! k = Some sig → c_signatures commit !! (idx + k)%nat = Some sig) →
  (∀ i, i ∈ dom seen → ∃ v, validators s !! i = Some v ∧ voted_by_address s commit chain_id i v) →
  tallied = power_where s (λ i _, bool_decide (i ∈ dom seen)) →
  verify_trusting_loop s commit chain_id needed idx l seen tallied = Ok tt →
  ∃ signers : gset nat,
    (∀ i, i ∈ signers → ∃ v, validators s !! i = Some v ∧ voted_by_address s commit chain_id i v) ∧
    needed < power_where s (λ i _, bool_decide (i ∈ signers)).
Proof.
  revert idx seen tallied; induction l as [|sig l IH]; intros idx seen tallied Hsig Hseen Ht; [done|].
  pose proof (Hsig 0%nat sig eq_refl) as Hs0. rewrite Nat.add_0_r in Hs0. simpl.
  assert (∀ k sig, l !! k = Some sig → c_signatures commit !! (S idx + k)%nat = Some sig) as Hsig'.
  { intros k sig' Hk. replace (S idx + k)%nat with (idx + S k)%nat by lia. by apply Hsig. }
  destruct sig as [|a t [signature|]|]; try done; [by eauto| |by eauto].
  destruct (find_validator s a) as [[i v]|] eqn:Hfind; [|by eauto].
  destruct (seen !! i) as [|] eqn:Hi; [done|]. intros Hrun. inv_res Hrun.
  unfold u64_add, checked_add in Hc1. case_ifs_in Hc1; [done|]. injection Hc1 as <-.
  pose proof (find_validator_from_lookup _ _ _ _ _ Hfind) as (_&Hv&_).
  rewrite Nat.sub_0_r in Hv.
  assert (∀ j, j ∈ dom (<[i := idx]> seen) →
    ∃ v, validators s !! j = Some v ∧ voted_by_address s commit chain_id j v) as Hseen'.
  { intros j. rewrite dom_insert, elem_of_union, elem_of_singleton. intros [->|?]; [|by auto].
    exists v. split; [done|]. exists idx, a, t, signature. do 2 (split; [done|]).
    unfold voted. by rewrite Hs0, Hc. }
  assert (tallied + val_power v = power_where s (λ j _, bool_decide (j ∈ dom (<[i := idx]> seen))))
    as Ht'.
  { rewrite Ht. unfold power_where. rewrite dom_insert_L.
    rewrite (power_where_insert 0 (validators s) (dom seen) i v Hv); [done|].
    by apply not_elem_of_dom. }
  destruct (Z.ltb_spec needed (tallied + val_power v)); [|by eauto].
  exists (dom (<[i := idx]> seen)). split; [done|]. lia.
Qed.

(** What an accepting [verify] has checked. *)
Lemma eh_verify_Ok `{!TendermintSpec} now self e :
  eh_verify now self e = Ok tt →
  eh_height self < eh_height e ∧ eh_chain_id e = eh_chain_id self ∧
  eh_time self < eh_time e < now + VERIFY_CLOCK_DRIFT ∧
  (eh_height e = eh_height self + 1 →
    validators_hash (eh_header e) = next_validators_hash (eh_header self) ∧
    last_header_hash e = eh_hash self) ∧
  (eh_height e ≠ eh_height self + 1 →
    verify_commit_light_trusting (eh_validator_set self) (eh_chain_id self) (eh_commit e)
      DEFAULT_TRUST_LEVEL = Ok tt).
Proof.
  unfold eh_verify. destruct (Z.leb_spec (eh_height e) (eh_height self)); [done|].
  destruct (bool_decide_reflect (eh_chain_id e = eh_chain_id self)); [|done]. simpl negb; cbv iota.
  destruct (Z.ltb_spec (eh_time self) (eh_time e)); [|done]. simpl negb; cbv iota.
  intros Hv. inv_res Hv. rename Hc into Hadd. apply time_checked_add_Some in Hadd as ->.
  destruct (Z.ltb_spec (eh_time e) (now + VERIFY_CLOCK_DRIFT)); [|done].
  simpl negb in Hv; cbv iota in Hv. inv_res Hv. rename Hc into Hinc.
  apply height_increment_Some in Hinc as ->.
  do 3 (split; [done|]). destruct (Z.eqb_spec (eh_height self + 1) (eh_height e)).
  - split; [|lia]. intros _.
    destruct (bool_decide_reflect (validators_hash (eh_header e)
      = next_validators_hash (eh_header self))); [|done].
    by destruct (bool_decide_reflect (last_header_hash e = eh_hash self)).
  - split; [lia|]. done.
Qed.

(** The clock can be read: adding the drift does not leave the range of times. *)
Definition clock_ok (now : nat → Z) : Prop :=
  ∀ i, is_Some (time_checked_add (now i) VERIFY_CLOCK_DRIFT).

(** Between adjacent headers [verify] never panics. *)
Lemma eh_verify_adjacent_no_panic `{!TendermintSpec} now self e :
  is_Some (time_checked_add now VERIFY_CLOCK_DRIFT) → 0 ≤ eh_height self < i64_max →
  eh_height e = eh_height self + 1 → eh_verify now self e ≠ Panic.
Proof.
  intros [t Ht] Hh He. destruct (height_increment_total _ Hh) as [h' Hi].
  pose proof (height_increment_Some _ _ Hi) as ->. unfold eh_verify. rewrite Ht, Hi, He.
  simpl expect. cbv [mbind res_bind]. rewrite Z.eqb_refl. by case_ifs.
Qed.

(** [verify] accepts a linked successor that is not from the future. *)
Lemma eh_verify_linked `{!TendermintSpec} now self e :
  is_Some (time_checked_add now VERIFY_CLOCK_DRIFT) → 0 ≤ eh_height self < i64_max →
  linked self [e] → eh_time e < now + VERIFY_CLOCK_DRIFT → eh_verify now self e = Ok tt.
Proof.
  intros [t Ht] Hh (He&Hlast&Hvals&Hchain&Htime&_) Hnow.
  destruct (height_increment_total _ Hh) as [h' Hi].
  pose proof (height_increment_Some _ _ Hi) as ->. pose proof (time_checked_add_Some _ _ _ Ht) as ->.
  unfold eh_verify. rewrite Ht, Hi, He. simpl expect. cbv [mbind res_bind].
  rewrite Z.eqb_refl, !bool_decide_true by done.
  rewrite (proj2 (Z.leb_gt _ _)), (proj2 (Z.ltb_lt _ _) Htime), (proj2 (Z.ltb_lt _ _) Hnow) by lia.
  done.
Qed.

Lemma verify_range_loop_complete `{!TendermintSpec} now i trusted l :
  clock_ok now → Forall (λ e, 0 ≤ eh_height e < i64_max) (trusted :: l) → linked trusted l →
  Forall (λ e, ∀ i, eh_time e < now i + VERIFY_CLOCK_DRIFT) l →
  verify_range_loop now i trusted l = Ok tt.
Proof.
  intros Hclock. revert i trusted; induction l as [|e l IH]; intros i trusted Hh Hl Ht; [done|].
  apply Forall_cons in Hh as [Hb Hh]. apply Forall_cons in Ht as [Hte Ht].
  destruct (height_increment_total _ Hb) as [h' Hi].
  pose proof (height_increment_Some _ _ Hi) as ->. cbn [verify_range_loop].
  destruct Hl as (He&Hlast&Hvals&Hchain&Htime&Hl).
  rewrite Hi. simpl expect. cbv [mbind res_bind]. rewrite He, Z.eqb_refl. simpl ensure.
  rewrite (eh_verify_linked (now i) trusted e); [|apply Hclock|done|by simpl; auto 10|apply Hte].
  destruct (i =? 0)%nat; by apply IH.
Qed.

Lemma verify_adjacent_range_complete `{!TendermintSpec} now self l :
  clock_ok now → Forall (λ e, 0 ≤ eh_height e < i64_max) (self :: l) → linked self l →
  Forall (λ e, ∀ i, eh_time e < now i + VERIFY_CLOCK_DRIFT) l →
  verify_adjacent_range now self l = Ok tt.
Proof.
  intros Hclock Hh Hl Ht. unfold verify_adjacent_range. destruct l as [|e l]; [done|].
  pose proof Hh as Hh'. apply Forall_cons in Hh' as [Hb _].
  destruct (height_increment_total _ Hb) as [h' Hi].
  pose proof (height_increment_Some _ _ Hi) as ->. rewrite Hi. simpl.
  destruct (Z.eqb_spec (eh_height self + 1) (eh_height e)); [|destruct Hl as [? _]; lia].
  by apply verify_range_loop_complete.
Qed.

Lemma verify_range_loop_no_panic `{!TendermintSpec} now i trusted l :
  clock_ok now → Forall (λ e, 0 ≤ eh_height e < i64_max) (trusted :: l) →
  (∀ e, head l = Some e → i = 0%nat → eh_height e = eh_height trusted + 1) →
  verify_range_loop now i trusted l ≠ Panic.
Proof.
  intros Hclock. revert i trusted; induction l as [|e l IH]; intros i trusted Hh Hfirst; [done|].
  apply Forall_cons in Hh as [Ht Hh]. destruct (height_increment_total _ Ht) as [h' Hi].
  pose proof (height_increment_Some _ _ Hi) as ->. cbn [verify_range_loop].
  assert (eh_height e = eh_height trusted + 1 →
    (eh_verify (now i) trusted e ≫= λ _, verify_range_loop now (S i) e l) ≠ Panic) as Hrest.
  { intros He. pose proof (eh_verify_adjacent_no_panic (now i) trusted e (Hclock i) Ht He) as Hnp.
    destruct (eh_verify (now i) trusted e); [|done..]. by apply IH. }
  destruct (Nat.eqb_spec i 0) as [->|].
  - apply Hrest. by apply Hfirst.
  - rewrite Hi. simpl. unfold ensure.
    destruct (Z.eqb_spec (eh_height trusted + 1) (eh_height e)); [|done]. apply Hrest. lia.
Qed.

Lemma verify_adjacent_range_no_panic `{!TendermintSpec} now self l :
  clock_ok now → Forall (λ e, 0 ≤ eh_height e < i64_max) (self :: l) →
  verify_adjacent_range now self l ≠ Panic.
Proof.
  intros Hclock Hh. unfold verify_adjacent_range. destruct l as [|e l]; [done|].
  pose proof Hh as Hh'. apply Forall_cons in Hh' as [Ht _].
  destruct (height_increment_total _ Ht) as [h' Hi].
  pose proof (height_increment_Some _ _ Hi) as ->. rewrite Hi. simpl.
  destruct (Z.eqb_spec (eh_height self + 1) (eh_height e)); [|done]. simpl.
  apply verify_range_loop_no_panic; [done..|]. by intros e' [= <-] _.
Qed.

Lemma verify_range_loop_linked `{!TendermintSpec} now i trusted l :
  verify_range_loop now i trusted l = Ok tt →
  (∀ e, head l = Some e → i = 0%nat → eh_height e = eh_height trusted + 1) →
  linked trusted l ∧
  ∀ k e, l !! k = Some e → eh_time e < now (i + k)%nat + VERIFY_CLOCK_DRIFT.
Proof.
  revert i trusted; induction l as [|e l IH]; intros i trusted Hrun Hfirst; [done|].
  cbn [verify_range_loop] in Hrun. inv_res Hrun.
  destruct x0. apply eh_verify_Ok in Hc0 as (_&Hchain&[Ht1 Ht2]&Hadj&_).
  assert (eh_height e = eh_height trusted + 1) as Hh.
  { destruct (Nat.eqb_spec i 0) as [->|]; [by apply Hfirst|].
    inv_res Hc. apply height_increment_Some in Hc0. lia. }
  destruct (Hadj Hh) as [Hvals Hlast]. apply IH in Hrun as [Hl Htl]; [|done].
  split; [simpl; do 5 (split; [done|]); done|].
  intros [|k] e' Hk; [injection Hk as <-; by rewrite Nat.add_0_r|].
  replace (i + S k)%nat with (S i + k)%nat by lia. by apply Htl.
Qed.

(** [l] is linked and ends in [e]: stepping back from [e] is determined by hashes. *)
Lemma linked_app trusted l1 l2 :
  linked trusted (l1 ++ l2) ↔ linked trusted l1 ∧ linked (default trusted (last l1)) l2.
Proof.
  revert trusted; induction l1 as [|e l1 IH]; intros trusted; simpl; [naive_solver|].
  rewrite IH. assert (default e (last l1) = default trusted (last (e :: l1))) as <-; [|naive_solver].
  destruct l1 as [|e' l1]; [done|]. rewrite last_cons_cons. by destruct (last (e' :: l1)) eqn:E;
    [|apply last_None in E].
Qed.

(** Validation, check by check. *)
Lemma eh_validate_Ok e : eh_validate e = Ok tt →
  header_validate_basic (eh_header e) = Ok tt ∧
  valset_hash (eh_validator_set e) = validators_hash (eh_header e) ∧
  dah_hash (eh_dah e) = default NoHash (data_hash (eh_header e)) ∧
  c_height (eh_commit e) = eh_height e ∧
  eh_hash e = header_hash (eh_header e) ∧
  verify_commit_light (eh_validator_set e) (h_chain_id (eh_header e)) (eh_height e) (eh_commit e)
    = Ok tt ∧
  ∃ v, AppVersion_from_u64 (version_app (eh_header e)) = Some v ∧
    dah_validate_basic (eh_dah e) v = Ok tt.
Proof.
  unfold eh_validate, eh_app_version. intros Hv. inv_res Hv.
  repeat match goal with x : unit |- _ => destruct x end.
  repeat match goal with Hb : bool_decide _ = true |- _ => apply bool_decide_eq_true in Hb end.
  do 3 (split; [done|]). split; [lia|]. naive_solver.
Qed.

Lemma header_validate_Ok h : header_validate_basic h = Ok tt →
  h_height h ≠ 0 ∧ (h_height h = 1 ↔ last_block_id h = None) ∧ version_block h = BLOCK_PROTOCOL.
Proof.
  unfold header_validate_basic, GENESIS_HEIGHT.
  destruct (Z.eqb_spec (version_block h) BLOCK_PROTOCOL); [|done]. simpl negb; cbv iota.
  destruct (_ <? _)%nat; [done|]. destruct (Z.eqb_spec (h_height h) 0); [done|].
  destruct (last_block_id h), (Z.eqb_spec (h_height h) 1); simpl; naive_solver.
Qed.

Lemma light_sound s chain_id height commit : Forall (λ v, 0 ≤ val_power v) (validators s) →
  0 ≤ total_voting_power s → verify_commit_light s chain_id height commit = Ok tt →
  height = c_height commit ∧ length (validators s) = length (c_signatures commit) ∧
  2 * total_voting_power s < 3 * power_where s (voted commit chain_id).
Proof.
  intros Hpos Htot. unfold verify_commit_light.
  destruct (Nat.eqb_spec (length (validators s)) (length (c_signatures commit))); [|done].
  simpl negb; cbv iota. destruct (Z.eqb_spec height (c_height commit)); [|done].
  simpl negb; cbv iota. intros Hv. inv_res Hv.
  apply voting_power_needed_Ok in Hc as (_&_&->); [|simpl; lia]. simpl in Hv.
  apply light_loop_sound in Hv; [|done..]. do 2 (split; [done|]).
  apply above_quotient in Hv; [|lia]. unfold power_where. lia.
Qed.

(** A hash-linked chain of validated headers is determined by its last hash. *)
Lemma linked_history_unique t1 t2 l1 l2 e1 e2 :
  Inj (=) (=) header_hash → length l1 = length l2 →
  linked t1 l1 → linked t2 l2 →
  Forall (λ e, eh_validate e = Ok tt) l1 → Forall (λ e, eh_validate e = Ok tt) l2 →
  last l1 = Some e1 → last l2 = Some e2 → eh_hash e1 = eh_hash e2 →
  eh_header <$> l1 = eh_header <$> l2.
Proof.
  intros Hinj. revert l2 e1 e2.
  induction l1 as [|x l1 IH] using rev_ind; intros l2 e1 e2 Hlen Hl1 Hl2 Hf1 Hf2 Hla1 Hla2 Heq;
    [done|]. destruct l2 as [|y l2 _] using rev_ind; [done|].
  rewrite last_snoc in Hla1, Hla2. injection Hla1 as ->. injection Hla2 as ->.
  apply Forall_app in Hf1 as [Hf1 [Hx _]%Forall_cons].
  apply Forall_app in Hf2 as [Hf2 [Hy _]%Forall_cons].
  apply linked_app in Hl1 as [Hl1 (_&Hp1&_)]. apply linked_app in Hl2 as [Hl2 (_&Hp2&_)].
  apply eh_validate_Ok in Hx as (_&_&_&_&Hh1&_). apply eh_validate_Ok in Hy as (_&_&_&_&Hh2&_).
  assert (eh_header e1 = eh_header e2) as Hhd by (apply Hinj; congruence).
  rewrite !fmap_app, !length_app in *. simpl in *. rewrite Hhd. f_equal.
  unfold last_header_hash in Hp1, Hp2. rewrite Hhd, Hp2 in Hp1.
  destruct (last l1) as [x|] eqn:E1, (last l2) as [y|] eqn:E2.
  - apply (IH l2 x y); try done. lia.
  - apply last_None in E2 as ->. destruct l1; [done|simpl in Hlen; lia].
  - apply last_None in E1 as ->. destruct l2; [done|simpl in Hlen; lia].
  - apply last_None in E1 as ->. by apply last_None in E2 as ->.
Qed.

Lemma adjacent_range_linked `{!TendermintSpec} now self l :
  verify_adjacent_range now self l = Ok tt →
  linked self l ∧ ∀ k e, l !! k = Some e → eh_time e < now k + VERIFY_CLOCK_DRIFT.
Proof.
  unfold verify_adjacent_range. destruct l as [|e l]; [done|].
  intros Hv. inv_res Hv. apply height_increment_Some in Hc as ->.
  destruct (Z.eqb_spec (eh_height self + 1) (eh_height e)); [|done].
  simpl negb in Hv; cbv iota in Hv.
  apply verify_range_loop_linked in Hv; [done|]. intros e' [= <-] _. done.
Qed.

(** ** Properties *)

(** C4. [verify_commit_light] accepts a commit only if it has one entry per
    validator, is for the given height, and validators with strictly more than two
    thirds of the total voting power have a valid signature, at their own index, on
    a vote for its block.  Conversely it accepts whenever this holds and no entry
    that claims to be such a vote is invalid; in particular neither the tally nor
    the threshold overflows. *)
Theorem verify_commit_light_correct s chain_id height commit : valset_wf s →
  (verify_commit_light s chain_id height commit = Ok tt →
    height = c_height commit ∧ length (validators s) = length (c_signatures commit) ∧
    2 * total_voting_power s < 3 * power_where s (voted commit chain_id)) ∧
  (height = c_height commit → length (validators s) = length (c_signatures commit) →
    (∀ i v, validators s !! i = Some v → claims_vote commit i = true →
      voted commit chain_id i v = true) →
    2 * total_voting_power s < 3 * power_where s (voted commit chain_id) →
    verify_commit_light s chain_id height commit = Ok tt).
Proof.
  intros (Hpos&Htot&Hmax).
  assert (0 ≤ total_voting_power s) as Hnn.
  { rewrite Htot. clear -Hpos. induction Hpos; simpl; lia. }
  split; [by apply light_sound|]. intros -> Hlen Hval Hpow. unfold verify_commit_light.
  rewrite Hlen, Nat.eqb_refl, Z.eqb_refl. simpl negb; cbv iota.
  assert (voting_power_needed {| numerator := 2; denominator := 3 |} (total_voting_power s)
    = Ok (2 * total_voting_power s / 3)) as ->.
  { apply voting_power_needed_Ok; simpl; [lia|]. unfold u64_max. unfold i64_max in Hmax.
    split; [lia|done]. }
  cbv [mbind res_bind]. unfold power_where in Hpow.
  apply light_loop_complete; try done; [unfold u64_max; unfold i64_max in Hmax; lia|].
  split; [apply Z.div_pos; lia|]. apply above_fraction; lia.
Qed.

(** Quorums intersect: if [verify_commit_light] accepts two commits with the same
    validator set, then validators with more than a third of the total voting power
    have validly signed both.  Two blocks accepted at one height expose them. *)
Theorem accepted_commits_intersect s chain_id h1 h2 c1 c2 : valset_wf s →
  verify_commit_light s chain_id h1 c1 = Ok tt → verify_commit_light s chain_id h2 c2 = Ok tt →
  total_voting_power s <
    3 * power_where s (λ i v, voted c1 chain_id i v && voted c2 chain_id i v).
Proof.
  intros (Hpos&Htot&_) H1 H2.
  assert (0 ≤ total_voting_power s) as Hnn.
  { rewrite Htot. clear -Hpos. induction Hpos; simpl; lia. }
  apply light_sound in H1 as (_&_&H1); [|done..]. apply light_sound in H2 as (_&_&H2); [|done..].
  unfold power_where in *.
  pose proof (power_where_and_or 0 (validators s) (voted c1 chain_id) (voted c2 chain_id)).
  pose proof (power_where_le 0 (validators s)
    (λ i v, voted c1 chain_id i v || voted c2 chain_id i v) (λ _ _, true) Hpos ltac:(done)) as Hle.
  rewrite power_where_total in Hle. lia.
Qed.

(** Optimistic verification: [verify_commit_light_trusting] accepts only if a set
    of distinct validators of the trusted set, each with a valid vote in the commit,
    holds strictly more than the trust level's share of the trusted voting power. *)
Theorem verify_commit_light_trusting_sound s chain_id commit level :
  0 ≤ numerator level → 0 < denominator level → 0 ≤ total_voting_power s →
  verify_commit_light_trusting s chain_id commit level = Ok tt →
  ∃ signers : gset nat,
    (∀ i, i ∈ signers → ∃ v, validators s !! i = Some v ∧ voted_by_address s commit chain_id i v) ∧
    numerator level * total_voting_power s <
      power_where s (λ i _, bool_decide (i ∈ signers)) * denominator level.
Proof.
  intros Hnum Hden Htot. unfold verify_commit_light_trusting. intros Hv. inv_res Hv.
  apply voting_power_needed_Ok in Hc as (_&_&->); [|nia].
  apply trusting_loop_sound in Hv as (signers&Hs&Hn); [|by auto|set_solver|].
  - exists signers. split; [done|]. by apply above_quotient.
  - unfold power_where. rewrite dom_empty_L. generalize 0%nat. clear.
    induction (validators s) as [|v l IH]; intros i; simpl; [done|].
    rewrite bool_decide_false by set_solver. by rewrite <-IH.
Qed.

(** C16. What a validated extended header guarantees: it is not of height 0 and links
    to a previous block unless it is the genesis; its commit is for this very header
    (height and hash) and is signed by more than two thirds of the power of a
    validator set with the hash the header states; and its data availability header
    is the one the header commits to and of a size the app version allows. *)
Theorem eh_validate_sound e : valset_wf (eh_validator_set e) → eh_validate e = Ok tt →
  eh_height e ≠ 0 ∧ (eh_height e = 1 ↔ last_block_id (eh_header e) = None) ∧
  eh_hash e = header_hash (eh_header e) ∧ c_height (eh_commit e) = eh_height e ∧
  valset_hash (eh_validator_set e) = validators_hash (eh_header e) ∧
  2 * total_voting_power (eh_validator_set e)
    < 3 * power_where (eh_validator_set e) (voted (eh_commit e) (eh_chain_id e)) ∧
  data_hash (eh_header e) = Some (dah_hash (eh_dah e)) ∧
  length (column_roots (eh_dah e)) = length (row_roots (eh_dah e)) ∧
  (2 ≤ length (row_roots (eh_dah e)) ≤ 256)%nat.
Proof.
  intros (Hpos&Htot&_) (Hb&Hvals&Hdah&Hch&Hhash&Hl&v&_&Hd)%eh_validate_Ok.
  apply header_validate_Ok in Hb as (?&?&_).
  apply light_sound in Hl as (_&_&Hl); [|done|].
  2:{ rewrite Htot. clear -Hpos. induction Hpos; simpl; lia. }
  apply dah_validate_Ok in Hd as [Hlen Hw].
  assert (max_extended_square_width v = 256%nat) as Hmax by by destruct v.
  unfold MIN_EXTENDED_SQUARE_WIDTH, MIN_SQUARE_SIZE in Hw.
  assert (data_hash (eh_header e) = Some (dah_hash (eh_dah e))) as ->.
  { destruct (data_hash (eh_header e)); simpl in Hdah; [by rewrite Hdah|done]. }
  do 8 (split; [done|]). lia.
Qed.

(** C15. [verify_adjacent_range] accepts only gap-free continuations of the trusted
    header: heights go up by one, every header carries the hash of the previous one
    and the validator set the previous one announced, the chain id is the same, block
    times strictly increase, and none is further in the future than the clock drift. *)
Theorem verify_adjacent_range_sound `{!TendermintSpec} now self l :
  verify_adjacent_range now self l = Ok tt →
  linked self l ∧ ∀ k e, l !! k = Some e → eh_time e < now k + VERIFY_CLOCK_DRIFT.
Proof. apply adjacent_range_linked. Qed.

(** The hash of the last header fixes the whole history.  If two ranges of the
    same length are verified by [verify_adjacent_range] against trusted headers,
    consist of validated headers, and end in headers with the same hash, then they
    are the same headers (given that header hashes do not collide). *)
Theorem verified_history_unique `{!TendermintSpec} now1 now2 t1 t2 l1 l2 e1 e2 :
  Inj (=) (=) header_hash → length l1 = length l2 →
  verify_adjacent_range now1 t1 l1 = Ok tt → verify_adjacent_range now2 t2 l2 = Ok tt →
  Forall (λ e, eh_validate e = Ok tt) l1 → Forall (λ e, eh_validate e = Ok tt) l2 →
  last l1 = Some e1 → last l2 = Some e2 → eh_hash e1 = eh_hash e2 →
  eh_header <$> l1 = eh_header <$> l2.
Proof.
  intros Hinj Hlen [Hl1 _]%adjacent_range_linked [Hl2 _]%adjacent_range_linked.
  by apply (linked_history_unique t1 t2).
Qed.

End Header.

(** ** Witnesses

    A toy chain: one validator, signatures that name their signer, and header
    hashes that are the whole header, encoded. *)
#[global] Instance BlockId_countable : Countable BlockId.
Proof.
  apply (inj_countable' (λ b, (bid_hash b, bid_parts_total b, bid_parts_hash b))
    (λ '(x, y, z), {| bid_hash := x; bid_parts_total := y; bid_parts_hash := z |})). by intros [].
Defined.
#[global] Instance Header_countable : Countable Header.
Proof.
  apply (inj_countable'
    (λ h, ((version_block h, version_app h, h_chain_id h, h_height h, h_time h),
      (last_block_id h, last_commit_hash h, data_hash h, validators_hash h, next_validators_hash h),
      (consensus_hash h, app_hash h, last_results_hash h, evidence_hash h, proposer_address h)))
    (λ '((a, b, c, d, e), (f, g, h, i, j), (k, l, m, n, o)),
      {| version_block := a; version_app := b; h_chain_id := c; h_height := d; h_time := e;
         last_block_id := f; last_commit_hash := g; data_hash := h; validators_hash := i;
         next_validators_hash := j; consensus_hash := k; app_hash := l; last_results_hash := m;
         evidence_hash := n; proposer_address := o |})). by intros [].
Defined.
#[global] Instance CommitSig_countable : Countable CommitSig.
Proof.
  apply (inj_countable'
    (λ s, match s with
      | BlockIdFlagAbsent => inl ()
      | BlockIdFlagCommit a t g => inr (inl (a, t, g))
      | BlockIdFlagNil a t g => inr (inr (a, t, g)) end)
    (λ x, match x with
      | inl _ => BlockIdFlagAbsent
      | inr (inl (a, t, g)) => BlockIdFlagCommit a t g
      | inr (inr (a, t, g)) => BlockIdFlagNil a t g end)). by intros [].
Defined.
#[global] Instance Commit_countable : Countable Commit.
Proof.
  apply (inj_countable' (λ c, (c_height c, c_round c, c_block_id c, c_signatures c))
    (λ '(a, b, c, d), {| c_height := a; c_round := b; c_block_id := c; c_signatures := d |})).
  by intros [].
Defined.
#[global] Instance Validator_countable : Countable Validator.
Proof.
  apply (inj_countable' (λ v, (val_address v, val_pub_key v, val_power v))
    (λ '(a, b, c), {| val_address := a; val_pub_key := b; val_power := c |})). by intros [].
Defined.
#[global] Instance ValidatorSet_countable : Countable ValidatorSet.
Proof.
  apply (inj_countable' (λ s, (validators s, proposer s, total_voting_power s))
    (λ '(a, b, c), {| validators := a; proposer := b; total_voting_power := c |})). by intros [].
Defined.
#[global] Instance NamespacedHash_countable : Countable NamespacedHash.
Proof.
  apply (inj_countable' (λ h, (min_namespace h, max_namespace h, nh_hash h))
    (λ '(a, b, c), {| min_namespace := a; max_namespace := b; nh_hash := c |})). by intros [].
Defined.
#[global] Instance Dah_countable : Countable DataAvailabilityHeader.
Proof.
  apply (inj_countable' (λ d, (row_roots d, column_roots d))
    (λ '(a, b), {| row_roots := a; column_roots := b |})). by intros [].
Defined.
#[global] Instance ExtendedHeader_countable : Countable ExtendedHeader.
Proof.
  apply (inj_countable' (λ e, (eh_header e, eh_commit e, eh_validator_set e, eh_dah e))
    (λ '(a, b, c, d), {| eh_header := a; eh_commit := b; eh_validator_set := c; eh_dah := d |})).
  by intros [].
Defined.

Definition enc_bytes (l : bytes) : bytes := Z.of_nat (length l) :: l.
Definition enc_hash (h : Hash) : bytes :=
  match h with Sha256 d => 1 :: enc_bytes d | NoHash => [0] end.
Definition enc_option {A} (f : A → bytes) (o : option A) : bytes :=
  match o with Some a => 1 :: f a | None => [0] end.
Definition enc_block_id (b : BlockId) : bytes :=
  bid_parts_total b :: enc_hash (bid_hash b) ++ enc_hash (bid_parts_hash b).
Definition enc_header (h : Header) : bytes :=
  enc_bytes [version_block h; version_app h; h_height h; h_time h] ++
  enc_bytes (h_chain_id h) ++ enc_option enc_block_id (last_block_id h) ++
  enc_option enc_hash (last_commit_hash h) ++ enc_option enc_hash (data_hash h) ++
  enc_hash (validators_hash h) ++ enc_hash (next_validators_hash h) ++
  enc_hash (consensus_hash h) ++ enc_bytes (app_hash h) ++
  enc_option enc_hash (last_results_hash h) ++ enc_option enc_hash (evidence_hash h) ++
  enc_bytes (proposer_address h).

(** [f] is a prefix code. *)
Definition prefix_code {A} (f : A → bytes) : Prop :=
  ∀ x y r r', f x ++ r = f y ++ r' → x = y ∧ r = r'.
Lemma enc_bytes_prefix : prefix_code enc_bytes.
Proof. intros x y r r' [= Hl Heq]. apply app_inj_1 in Heq; [done|lia]. Qed.
Lemma enc_hash_prefix : prefix_code enc_hash.
Proof.
  intros [d|] [d'|] r r' Heq; try discriminate Heq; injection Heq; [|by intros ->].
  intros Heq' Hl. apply app_inj_1 in Heq' as [-> ->]; [done|lia].
Qed.
Lemma enc_option_prefix {A} (f : A → bytes) : prefix_code f → prefix_code (enc_option f).
Proof.
  intros Hf [x|] [y|] r r' Heq; try discriminate Heq; injection Heq; [|by intros ->].
  intros Heq'. by apply Hf in Heq' as [-> ->].
Qed.
Lemma enc_block_id_prefix : prefix_code enc_block_id.
Proof.
  intros [] [] r r'. unfold enc_block_id. simpl. rewrite <-!(assoc_L (++)). intros [= -> Heq].
  apply enc_hash_prefix in Heq as [-> Heq]. by apply enc_hash_prefix in Heq as [-> ->].
Qed.
#[local] Opaque enc_bytes enc_hash enc_option.
Lemma enc_header_inj : Inj (=) (=) enc_header.
Proof.
  intros [] []. unfold enc_header. simpl. intros Heq.
  apply enc_bytes_prefix in Heq as [[= -> -> -> ->] Heq].
  repeat match goal with
  | Heq : _ ++ _ = _ ++ _ |- _ =>
      first [apply enc_bytes_prefix in Heq as [-> Heq] | apply enc_hash_prefix in Heq as [-> Heq]
            |apply (enc_option_prefix _ enc_hash_prefix) in Heq as [-> Heq]
            |apply (enc_option_prefix _ enc_block_id_prefix) in Heq as [-> Heq]]
  end.
  apply (f_equal (λ l, l ++ [])) in Heq. by apply enc_bytes_prefix in Heq as [-> _].
Qed.
#[local] Transparent enc_bytes enc_hash enc_option.

#[local] Existing Instances toy_DahExternals toy_DahExternalsSpec.

Definition toy_validator : Validator := {| val_address := [7]; val_pub_key := [7]; val_power := 10 |}.
Definition toy_valset : ValidatorSet :=
  {| validators := [toy_validator]; proposer := Some toy_validator; total_voting_power := 10 |}.
Lemma toy_valset_wf : valset_wf toy_valset.
Proof. split; [by repeat constructor|]. split; done. Qed.

Definition toy_header (height : Z) (last_id : option BlockId) : Header :=
  {| version_block := 11; version_app := 1; h_chain_id := [99]; h_height := height;
     h_time := 100 * height; last_block_id := last_id; last_commit_hash := None;
     data_hash := Some (dah_hash toy_dah); validators_hash := Sha256 [1];
     next_validators_hash := Sha256 [1]; consensus_hash := NoHash; app_hash := [];
     last_results_hash := None; evidence_hash := None; proposer_address := [7] |}.

Definition toy_block_id (h : Header) : BlockId :=
  {| bid_hash := Sha256 (enc_header h); bid_parts_total := 1; bid_parts_hash := NoHash |}.
Definition toy_eh (height : Z) (last_id : option BlockId) : ExtendedHeader :=
  let h := toy_header height last_id in
  {| eh_header := h;
     eh_commit := {| c_height := height; c_round := 0; c_block_id := toy_block_id h;
       c_signatures := [BlockIdFlagCommit [7] (100 * height) (Some (repeat 1 64))] |};
     eh_validator_set := toy_valset; eh_dah := toy_dah |}.
Definition toy_1 : ExtendedHeader := toy_eh 1 None.
Definition toy_2 : ExtendedHeader := toy_eh 2 (Some (c_block_id (eh_commit toy_1))).
Definition toy_3 : ExtendedHeader := toy_eh 3 (Some (c_block_id (eh_commit toy_2))).

#[local] Instance toy_Tendermint : Tendermint := {|
  header_hash h := Sha256 (enc_header h);
  valset_hash s := Sha256 [Z.of_nat (length (validators s))];
  signable_vec v _ := vote_validator_address v;
  verify_signature v m _ := bool_decide (m = val_address v);
  validator_index_try_from n := Some (Z.of_nat n);
  time_checked_add t d := Some (t + d);
  height_increment h := if h <? i64_max then Some (h + 1) else None;
  eh_decode b :=
    match b with
    | [1] => Some toy_1 | [2] => Some toy_2 | [3] => Some toy_3
    | [0; Z.pos p] => decode p
    | _ => None
    end;
  (** short codes for the toy headers, a generic code for all others *)
  eh_encode e :=
    if decide (e = toy_1) then [1] else if decide (e = toy_2) then [2]
    else if decide (e = toy_3) then [3] else [0; Z.pos (encode e)]
|}.
#[local] Instance toy_TendermintSpec : TendermintSpec.
Proof.
  split; [| |by intros t d t' [= <-]|].
  - intros h h'. cbv [height_increment toy_Tendermint]. case_ifs; by intros [= <-].
  - intros h Hh. cbv [height_increment toy_Tendermint].
    destruct (Z.ltb_spec h i64_max); [by eexists|lia].
  - intros e. cbv [eh_decode eh_encode toy_Tendermint].
    repeat case_decide; subst; try done. by rewrite decode_encode.
Qed.
Lemma toy_header_hash_inj : Inj (=) (=) (header_hash (Tendermint := toy_Tendermint)).
Proof.
  intros h1 h2 Heq. apply enc_header_inj.
  exact (f_equal (λ h, match h with Sha256 d => d | NoHash => [] end) Heq).
Qed.

Lemma verify_commit_light_correct_witness :
  verify_commit_light toy_valset [99] 2 (eh_commit toy_2) = Ok tt.
Proof.
  apply (proj2 (verify_commit_light_correct toy_valset [99] 2 (eh_commit toy_2) toy_valset_wf));
    [reflexivity|reflexivity| |reflexivity].
  intros [|i] v Hv; [injection Hv as <-; reflexivity|done].
Defined.

Lemma accepted_commits_intersect_witness :
  10 < 3 * power_where toy_valset
    (λ i v, voted (eh_commit toy_1) [99] i v && voted (eh_commit toy_2) [99] i v).
Proof.
  apply (accepted_commits_intersect toy_valset [99] 1 2 (eh_commit toy_1) (eh_commit toy_2)
    toy_valset_wf); reflexivity.
Defined.

Lemma verify_commit_light_trusting_sound_witness :
  ∃ signers : gset nat,
    (∀ i, i ∈ signers → ∃ v, validators toy_valset !! i = Some v ∧
      voted_by_address toy_valset (eh_commit toy_2) [99] i v) ∧
    1 * 10 < power_where toy_valset (λ i _, bool_decide (i ∈ signers)) * 3.
Proof.
  apply (verify_commit_light_trusting_sound toy_valset [99] (eh_commit toy_2) DEFAULT_TRUST_LEVEL);
    [simpl; lia..|reflexivity].
Defined.

Lemma eh_validate_sound_witness : eh_height toy_2 ≠ 0 ∧ eh_hash toy_2 = header_hash (eh_header toy_2).
Proof.
  destruct (eh_validate_sound toy_2 toy_valset_wf) as (H1&_&H2&_); [vm_compute; reflexivity|].
  split; assumption.
Defined.

Lemma verify_adjacent_range_sound_witness : linked toy_1 [toy_2; toy_3].
Proof.
  apply (verify_adjacent_range_sound (λ _, 1000) toy_1 [toy_2; toy_3]). vm_compute. reflexivity.
Defined.

Lemma verified_history_unique_witness :
  eh_header <$> [toy_2; toy_3] = eh_header <$> [toy_2; toy_3].
Proof.
  apply (verified_history_unique (λ _, 1000) (λ _, 2000) toy_1 toy_1 [toy_2; toy_3] [toy_2; toy_3]
    toy_3 toy_3 toy_header_hash_inj);
    first [reflexivity | vm_compute; reflexivity | repeat constructor; vm_compute; reflexivity].
Defined.
