(* ===== verification/Share.v ===== *)
(** * Shares (src/types/src/share.rs, src/types/src/share/info_byte.rs)

    A share is 512 bytes: a namespace, an info byte (share version and the flag of the
    first share of a sequence), in the first share of a sequence its length, and data.
    Parity shares carry no structure.  The content id of a share as a node of the
    namespaced Merkle tree, serde and wasm glue are not represented. *)

From S2P Require Import Prelude Consts Nmt Merkle Dah.

(** ** Errors of the crate (src/types/src/error.rs), as far as data is concerned *)

Inductive TypesError :=
| ENamespace (e : NsError)
| EDah (e : DahError)
| MissingProof
| MissingShares
| WrongProofType
| UnsupportedShareVersion (v : Z)
| InvalidShareSize (n : nat)
| InvalidNmtLeafSize (n : nat)
| ShareSequenceLenExceeded (n : nat)
| InvalidAxis (n : Z)
| RangeProofError
| ERootMismatch
| EValidation
| EVerification
| MaxShareVersionExceeded (v : Z)
| ENmt
| EProtobuf
| ELeopardCodec
| EdsIndexOutOfRange (row column : Z)
| EdsInvalidDimentions
| EZeroBlockHeight
| ExpectedShareWithSequenceStart
| UnexpectedReservedNamespace
| UnexpectedSequenceStart
| BlobSharesMetadataMismatch
| BlobTooLarge
| EmptyBlobList
| InvalidComittmentLength
| EInvalidAddress.

(** ** The info byte *)

(** [struct InfoByte(u8)]: its byte. *)
Definition InfoByte := Z.

(** [version << 1] keeps the low eight bits. *)
Definition InfoByte_new (version : Z) (is_sequence_start : bool) : res TypesError InfoByte :=
  if MAX_SHARE_VERSION <? version then Err (MaxShareVersionExceeded version) else
  let prefix := Z.land (Z.shiftl version 1) 255 in
  let sequence_start := if is_sequence_start then 1 else 0 in
  if 255 <? prefix + sequence_start then Panic else Ok (prefix + sequence_start).
Definition InfoByte_version (b : InfoByte) : Z := Z.shiftr b 1.
Definition InfoByte_is_sequence_start (b : InfoByte) : bool := b mod 2 =? 1.
Definition InfoByte_from_raw (byte : Z) : res TypesError InfoByte :=
  let version := Z.shiftr byte 1 in
  if MAX_SHARE_VERSION <? version then Err (MaxShareVersionExceeded version) else Ok byte.

(** ** Shares *)

Definition SHARE_SEQUENCE_LENGTH_OFFSET : nat := NS_SIZE + SHARE_INFO_BYTES.

Record Share := { sh_data : bytes; sh_is_parity : bool }.
#[global] Instance Share_eq_dec : EqDecision Share.
Proof. solve_decision. Defined.

Definition Share_from_raw (data : bytes) : res TypesError Share :=
  if negb (length data =? SHARE_SIZE)%nat then Err (InvalidShareSize (length data)) else
  _ ← map_err ENamespace (Namespace_from_raw (take NS_SIZE data));
  byte ← vec_index data NS_SIZE;
  _ ← InfoByte_from_raw byte;
  Ok {| sh_data := data; sh_is_parity := false |}.

Definition Share_parity (data : bytes) : res TypesError Share :=
  if negb (length data =? SHARE_SIZE)%nat then Err (InvalidShareSize (length data)) else
  Ok {| sh_data := data; sh_is_parity := true |}.

(** The slices of these getters are within the array of 512 bytes. *)
Definition share_namespace (s : Share) : Namespace :=
  if negb (sh_is_parity s) then take NS_SIZE (sh_data s) else PARITY_SHARE.

Definition share_info_byte (s : Share) : option InfoByte :=
  if negb (sh_is_parity s) then sh_data s !! NS_SIZE else None.

Definition share_sequence_length (s : Share) : option Z :=
  info_byte ← share_info_byte s;
  if InfoByte_is_sequence_start info_byte
  then Some (be_value (take SEQUENCE_LEN_BYTES (drop SHARE_SEQUENCE_LENGTH_OFFSET (sh_data s))))
  else None.

Definition share_payload (s : Share) : option bytes :=
  info_byte ← share_info_byte s;
  let start := (if InfoByte_is_sequence_start info_byte
                then SHARE_SEQUENCE_LENGTH_OFFSET + SEQUENCE_LEN_BYTES
                else SHARE_SEQUENCE_LENGTH_OFFSET)%nat in
  Some (drop start (sh_data s)).

(** ** Specification *)

(** The shares the constructors return. *)
Definition share_ok (s : Share) : Prop :=
  length (sh_data s) = SHARE_SIZE ∧
  (sh_is_parity s = false → valid_namespace (take NS_SIZE (sh_data s))).

(** ** Lemmas *)

Lemma InfoByte_new_spec v start : 0 ≤ v ≤ MAX_SHARE_VERSION →
  ∃ b, InfoByte_new v start = Ok b ∧ is_byte b ∧ InfoByte_version b = v ∧
    InfoByte_is_sequence_start b = start.
Proof.
  unfold MAX_SHARE_VERSION. intros Hv. unfold InfoByte_new, MAX_SHARE_VERSION.
  destruct (Z.ltb_spec 127 v); [lia|].
  change 255 with (Z.ones 8). rewrite Z.land_ones, Z.shiftl_mul_pow2 by lia.
  rewrite Z.mod_small by lia. change (Z.ones 8) with 255.
  unfold InfoByte_version, InfoByte_is_sequence_start, is_byte.
  destruct start.
  - destruct (Z.ltb_spec 255 (v * 2 ^ 1 + 1)); [lia|]. eexists. split; [done|].
    rewrite Z.shiftr_div_pow2 by lia. change (2 ^ 1) with 2. split; [lia|]. split; [|apply Z.eqb_eq]; Z.to_euclidean_division_equations; lia.
  - destruct (Z.ltb_spec 255 (v * 2 ^ 1 + 0)); [lia|]. eexists. split; [done|].
    rewrite Z.shiftr_div_pow2 by lia. change (2 ^ 1) with 2. split; [lia|]. split; [|apply Z.eqb_neq]; Z.to_euclidean_division_equations; lia.
Qed.

(** Every byte is an info byte: the check of the version cannot fail. *)
Lemma InfoByte_from_raw_Ok b : is_byte b → InfoByte_from_raw b = Ok b.
Proof.
  intros [? ?]. unfold InfoByte_from_raw, MAX_SHARE_VERSION.
  rewrite Z.shiftr_div_pow2 by lia. change (2 ^ 1) with 2. destruct (Z.ltb_spec 127 (b / 2)); [Z.to_euclidean_division_equations; lia|done].
Qed.

Lemma Share_from_raw_Ok data s : are_bytes data →
  Share_from_raw data = Ok s ↔
  length data = SHARE_SIZE ∧ valid_namespace (take NS_SIZE data) ∧
  s = {| sh_data := data; sh_is_parity := false |}.
Proof.
  intros Hb. unfold Share_from_raw. destruct (Nat.eqb_spec (length data) SHARE_SIZE) as [Hl|]; simpl negb;
    cbv iota; [|naive_solver].
  destruct (lookup_lt_is_Some_2 data NS_SIZE) as [x Hx]; [rewrite Hl; vm_compute; lia|].
  assert (is_byte x) as Hxb by by eapply Forall_lookup_1 in Hb.
  pose proof (namespace_from_raw_exact (take NS_SIZE data) (take NS_SIZE data)) as [Hns Hnp].
  unfold vec_index. rewrite Hx.
  destruct (Namespace_from_raw (take NS_SIZE data)) as [ns|e|] eqn:E; cbn [map_err];
    cbv [mbind res_bind expect].
  - rewrite InfoByte_from_raw_Ok by done. apply namespace_from_raw_exact in E as [-> Hv]. naive_solver.
  - split; [done|]. intros (_&Hv&_). by specialize (proj2 Hns (conj eq_refl Hv)).
  - done.
Qed.

Lemma Share_from_raw_no_panic data : are_bytes data → Share_from_raw data ≠ Panic.
Proof.
  intros Hb. unfold Share_from_raw. destruct (Nat.eqb_spec (length data) SHARE_SIZE) as [Hl|]; [|done].
  destruct (lookup_lt_is_Some_2 data NS_SIZE) as [x Hx]; [rewrite Hl; vm_compute; lia|].
  assert (is_byte x) as Hxb by by eapply Forall_lookup_1 in Hb.
  unfold vec_index. rewrite Hx. cbn [negb]. cbv [mbind res_bind expect].
  destruct (Namespace_from_raw (take NS_SIZE data)) eqn:E; cbn [map_err]; [|done|].
  - by rewrite InfoByte_from_raw_Ok.
  - by apply (namespace_from_raw_exact _ []) in E.
Qed.

Lemma Share_parity_Ok data s :
  Share_parity data = Ok s ↔
  length data = SHARE_SIZE ∧ s = {| sh_data := data; sh_is_parity := true |}.
Proof.
  unfold Share_parity. destruct (Nat.eqb_spec (length data) SHARE_SIZE); simpl; naive_solver.
Qed.
