(* ===== verification/Float64.v ===== *)
(** * Double precision numbers

    The operations of [f64] that the transaction client uses for gas and fees, and the blob
    commitment for the size of a square: the casts from and to [u64], the product, the square
    root and [ceil].  A number is a [spec_float] of the standard library with
    53 bits of mantissa and exponents up to 1024 (binary64 of IEEE 754, rounding to nearest, ties
    to even); a product or a root is rounded once from the exact one.

    The lemmas give the error of a rounded product against the exact product as an inequality
    between integers, which is what bounds on estimated gas need, and show that the square root
    of an integer up to 2^52, rounded up or down to an integer, is the exact one. *)

From Stdlib Require Import SpecFloat.
From S2P Require Import Prelude.

Definition f64 := spec_float.
Definition f64_prec : Z := 53.
Definition f64_emax : Z := 1024.

(** [n as f64] for an unsigned integer. *)
Definition u64_as_f64 (n : Z) : f64 := binary_normalize f64_prec f64_emax n 0 false.
Definition f64_mul (x y : f64) : f64 := SFmul f64_prec f64_emax x y.

(** The integer part of [m * 2^e]. *)
Definition int_part (m : positive) (e : Z) : Z := if 0 <=? e then Zpos m * 2 ^ e else Zpos m / 2 ^ (- e).

(** [x as u64]: towards zero, saturating, and 0 for NaN. *)
Definition f64_as_u64 (x : f64) : Z :=
  match x with
  | S754_zero _ | S754_nan | S754_infinity true | S754_finite true _ _ => 0
  | S754_infinity false => u64_max
  | S754_finite false m e => Z.min u64_max (int_part m e)
  end.

(** [f64::ceil]. *)
Definition f64_ceil (x : f64) : f64 :=
  match x with
  | S754_finite s m e =>
      if 0 <=? e then x
      else if s then
        (if int_part m e =? 0 then S754_zero true else binary_normalize f64_prec f64_emax (- int_part m e) 0 true)
      else binary_normalize f64_prec f64_emax
             (if Zpos m mod 2 ^ (- e) =? 0 then int_part m e else int_part m e + 1) 0 false
  | _ => x
  end.

(** ** Rounding *)

Lemma digits2_bounds p : 2 ^ (Zpos (digits2_pos p) - 1) ≤ Zpos p < 2 ^ Zpos (digits2_pos p).
Proof.
  induction p as [p IH|p IH|]; [| |done]; cbn [digits2_pos]; rewrite Pos2Z.inj_succ;
    rewrite Z.pow_succ_r by lia; replace (Z.succ _ - 1) with (Z.succ (Zpos (digits2_pos p) - 1)) by lia;
    rewrite Z.pow_succ_r by lia; lia.
Qed.

Lemma digits2_unique p d : 0 < d → 2 ^ (d - 1) ≤ Zpos p < 2 ^ d → Zpos (digits2_pos p) = d.
Proof.
  intros Hd [Hlo Hhi]. destruct (digits2_bounds p) as [Hl Hh].
  assert (Zpos (digits2_pos p) - 1 < d) by (apply (Z.pow_lt_mono_r_iff 2); lia).
  assert (d - 1 < Zpos (digits2_pos p)) by (apply (Z.pow_lt_mono_r_iff 2); lia). lia.
Qed.

Lemma shr_1_m mrs : 0 ≤ shr_m mrs → shr_m (shr_1 mrs) = shr_m mrs / 2.
Proof.
  destruct mrs as [[|[p|p|]|p] r s]; cbn [shr_m shr_1]; try done; intros Hm.
  - apply (Z.div_unique _ 2 (Zpos p) 1); lia.
  - apply (Z.div_unique _ 2 (Zpos p) 0); lia.
Qed.

Lemma iter_shr n mrs : 0 ≤ shr_m mrs → shr_m (SpecFloat.iter_pos shr_1 n mrs) = shr_m mrs / 2 ^ Zpos n.
Proof.
  revert mrs; induction n as [n IH|n IH|]; intros mrs Hm; cbn [SpecFloat.iter_pos]; [| |by apply shr_1_m].
  - pose proof (shr_1_m mrs Hm) as H1. assert (0 ≤ shr_m (shr_1 mrs)) as Hp1 by (rewrite H1; apply Z.div_pos; lia).
    assert (0 ≤ shr_m (SpecFloat.iter_pos shr_1 n (shr_1 mrs))) as Hp2 by (rewrite IH by done; apply Z.div_pos; lia).
    rewrite (IH _ Hp2), (IH _ Hp1), H1. rewrite !Z.div_div by lia. f_equal.
    replace (Zpos n~1) with (1 + Zpos n + Zpos n) by lia. rewrite !Z.pow_add_r by lia. lia.
  - assert (0 ≤ shr_m (SpecFloat.iter_pos shr_1 n mrs)) as Hp by (rewrite IH by done; apply Z.div_pos; lia).
    rewrite (IH _ Hp), (IH _ Hm). rewrite Z.div_div by lia. f_equal.
    replace (Zpos n~0) with (Zpos n + Zpos n) by lia. rewrite Z.pow_add_r by lia. lia.
Qed.

(** The number of digits to drop is the excess over the precision, for exponents in range. *)
Lemma shr_fexp_spec p e : 53 ≤ Zpos (digits2_pos p) → -1074 ≤ e →
  let k := Zpos (digits2_pos p) - 53 in
  shr_m (fst (shr_fexp f64_prec f64_emax (Zpos p) e loc_Exact)) = Zpos p / 2 ^ k ∧
  snd (shr_fexp f64_prec f64_emax (Zpos p) e loc_Exact) = e + k.
Proof.
  intros Hd He k. unfold shr_fexp, fexp, emin, f64_prec, f64_emax. cbn [Zdigits2 shr_record_of_loc].
  replace (Z.max (Zpos (digits2_pos p) + e - 53) (3 - 1024 - 53) - e) with k by lia.
  assert (0 ≤ k) by lia. destruct k as [|kp|kp]; [|by cbn [shr fst snd]; rewrite iter_shr by done|lia].
  cbn [shr fst snd shr_m]. by rewrite Z.div_1_r, Z.add_0_r.
Qed.

Lemma round_even_cases q l : round_nearest_even q l = q ∨ round_nearest_even q l = q + 1.
Proof. destruct l as [|[]]; cbn; [by left| |by left|by right]. destruct (Z.even q); [by left|by right]. Qed.

(** Rounding a number of at least 53 digits moves it by at most its 2^52-nd part. *)
Lemma binary_round_aux_spec p e : 53 ≤ Zpos (digits2_pos p) → -1074 ≤ e →
  Zpos (digits2_pos p) + e ≤ 1000 →
  ∃ m e', binary_round_aux f64_prec f64_emax false (Zpos p) e loc_Exact = S754_finite false m e' ∧ e ≤ e' ∧
    2 ^ 52 * (Zpos p - Zpos m * 2 ^ (e' - e)) ≤ Zpos p ∧ 2 ^ 52 * (Zpos m * 2 ^ (e' - e) - Zpos p) ≤ Zpos p.
Proof.
  intros Hd He Hmax. destruct (shr_fexp_spec p e Hd He) as [Hm1 He1]. set (k := Zpos (digits2_pos p) - 53) in *.
  unfold binary_round_aux. destruct (shr_fexp f64_prec f64_emax (Zpos p) e loc_Exact) as [mrs e1]. cbn [fst snd] in Hm1, He1.
  subst e1. destruct (digits2_bounds p) as [Hlo Hhi]. assert (0 ≤ k) as Hk by lia.
  assert (0 < 2 ^ k) as Hpk by (apply Z.pow_pos_nonneg; lia).
  assert (2 ^ 52 * 2 ^ k ≤ Zpos p) as Hlo'.
  { rewrite <-Z.pow_add_r by lia. etrans; [|exact Hlo]. apply Z.pow_le_mono_r; lia. }
  assert (Zpos p < 2 ^ 53 * 2 ^ k) as Hhi' by (rewrite <-Z.pow_add_r by lia; by replace (53 + k) with (Zpos (digits2_pos p)) by lia).
  set (q := Zpos p / 2 ^ k) in *. rewrite Hm1.
  assert (q * 2 ^ k ≤ Zpos p < (q + 1) * 2 ^ k) as [Hq1 Hq2].
  { pose proof (Z.div_mod (Zpos p) (2 ^ k) ltac:(lia)) as Hdm. fold q in Hdm.
    pose proof (Z.mod_pos_bound (Zpos p) (2 ^ k) Hpk). lia. }
  assert (2 ^ 52 ≤ q < 2 ^ 53) as [Hql Hqh] by nia.
  set (m1 := round_nearest_even q (loc_of_shr_record mrs)).
  assert (m1 = q ∨ m1 = q + 1) as Hm by apply round_even_cases.
  destruct m1 as [|p1|p1] eqn:E1; [lia| |lia].
  destruct (decide (Zpos p1 = 2 ^ 53)) as [Hp1|Hp1].
  - assert (Zpos (digits2_pos p1) = 54) as Hd1 by (apply digits2_unique; lia).
    destruct (shr_fexp_spec p1 (e + k) ltac:(lia) ltac:(lia)) as [Hm2 He2]. rewrite Hd1 in Hm2, He2.
    destruct (shr_fexp _ _ (Zpos p1) (e + k) loc_Exact) as [mrs2 e2]. cbn [fst snd] in Hm2, He2. subst e2. rewrite Hp1 in Hm2.
    change (2 ^ 53 / 2 ^ (54 - 53)) with (Zpos (2 ^ 52)) in Hm2. rewrite Hm2.
    rewrite (proj2 (Z.leb_le _ _)) by (unfold f64_emax, f64_prec; lia). eexists _, _. split; [done|].
    replace (e + k + (54 - 53) - e) with (k + 1) by lia. rewrite Z.pow_add_r by lia.
    change (Zpos (2 ^ 52)) with (2 ^ 52). split; [lia|]. nia.
  - assert (Zpos (digits2_pos p1) = 53) as Hd1 by (apply digits2_unique; lia).
    destruct (shr_fexp_spec p1 (e + k) ltac:(lia) ltac:(lia)) as [Hm2 He2]. rewrite Hd1 in Hm2, He2.
    change (2 ^ (53 - 53)) with 1 in Hm2. rewrite Z.div_1_r in Hm2.
    destruct (shr_fexp _ _ (Zpos p1) (e + k) loc_Exact) as [mrs2 e2]. cbn [fst snd] in Hm2, He2. subst e2. rewrite Hm2.
    rewrite (proj2 (Z.leb_le _ _)) by (unfold f64_emax, f64_prec; lia). eexists _, _. split; [done|].
    replace (e + k + (53 - 53) - e) with k by lia. split; [lia|]. nia.
Qed.

Lemma binary_round_aux_exact p e : Zpos (digits2_pos p) = 53 → -1074 ≤ e ≤ 900 →
  binary_round_aux f64_prec f64_emax false (Zpos p) e loc_Exact = S754_finite false p e.
Proof.
  intros Hd He. unfold binary_round_aux, shr_fexp, fexp, emin, f64_prec, f64_emax. cbn [Zdigits2 shr_record_of_loc].
  rewrite Hd. replace (Z.max (53 + e - 53) (3 - 1024 - 53) - e) with 0 by lia. cbn [shr shr_m loc_of_shr_record round_nearest_even Zdigits2].
  rewrite Hd. replace (Z.max (53 + e - 53) (3 - 1024 - 53) - e) with 0 by lia. cbn [shr shr_m].
  by rewrite (proj2 (Z.leb_le _ _)) by lia.
Qed.

Lemma iter_xO p n : Zpos (Pos.iter xO p n) = Zpos p * 2 ^ Zpos n.
Proof.
  revert p; induction n as [|n IH] using Pos.peano_ind; intros p; [rewrite Z.pow_1_r; cbn; lia|].
  rewrite Pos.iter_succ. change (Zpos (Pos.iter xO p n)~0) with (2 * Zpos (Pos.iter xO p n)).
  rewrite IH, Pos2Z.inj_succ, Z.pow_succ_r by lia. lia.
Qed.

(** Integers below 2^53 are exact. *)
Lemma u64_as_f64_spec g : 0 < g < 2 ^ 53 →
  ∃ m s, u64_as_f64 g = S754_finite false m (- s) ∧ 0 ≤ s ≤ 52 ∧ Zpos m = g * 2 ^ s ∧ Zpos (digits2_pos m) = 53.
Proof.
  intros [Hpos Hlt]. destruct g as [|p|p]; [lia| |lia]. destruct (digits2_bounds p) as [Hlo Hhi].
  set (d := Zpos (digits2_pos p)) in *.
  assert (d ≤ 53).
  { assert (d - 1 < 53); [|lia]. apply (Z.pow_lt_mono_r_iff 2); lia. }
  assert (0 < d) by (unfold d; lia).
  unfold u64_as_f64. cbn [binary_normalize]. unfold binary_round. fold d.
  assert (fexp f64_prec f64_emax (d + 0) = - (53 - d)) as -> by (unfold fexp, emin, f64_emax, f64_prec; lia).
  clearbody d. unfold shl_align.
  destruct (53 - d) as [|s|s] eqn:Hs; [| |lia].
  - exists p, 0. change (- 0 - 0) with 0. assert (d = 53) as -> by lia.
    assert (Zpos (digits2_pos p) = 53) by (apply digits2_unique; lia).
    rewrite binary_round_aux_exact by lia. split_and!; [done|lia|lia|lia|done].
  - exists (Pos.iter xO p s), (Zpos s). change (- Zpos s - 0) with (Zneg s). cbv beta iota zeta.
    assert (Zpos (digits2_pos (Pos.iter xO p s)) = 53) as Hd.
    { apply digits2_unique; [done|]. rewrite iter_xO.
      assert (2 ^ (53 - 1) = 2 ^ (d - 1) * 2 ^ Zpos s ∧ 2 ^ 53 = 2 ^ d * 2 ^ Zpos s) as [-> ->]; [|nia].
      rewrite <-!Z.pow_add_r by lia. split; f_equal; lia. }
    rewrite binary_round_aux_exact by lia. split_and!; [done|lia|lia|by rewrite iter_xO|done].
Qed.

Lemma int_part_scaled m e s : e = - s → 0 ≤ s → ∀ e', e ≤ e' → int_part m e' = Zpos m * 2 ^ (e' - e) / 2 ^ s.
Proof.
  intros -> Hs e' He. unfold int_part. assert (0 < 2 ^ s) by (apply Z.pow_pos_nonneg; lia).
  destruct (0 <=? e') eqn:E; [apply Z.leb_le in E|apply Z.leb_gt in E].
  - replace (e' - - s) with (e' + s) by lia. rewrite Z.pow_add_r, Z.mul_assoc, Z.div_mul by lia. done.
  - replace s with (- e' + (e' - - s)) at 2 by lia. rewrite Z.pow_add_r by lia.
    rewrite Z.div_mul_cancel_r; [done| |]; apply Z.pow_nonzero; lia.
Qed.

(** The literal [1.1]. *)
Definition f64_1_1 : f64 := S754_finite false 4953959590107546 (-52).

(** Multiplying an amount of gas by [1.1] and casting back: never more than eleven tenths,
    and at most one below. *)
Lemma times_1_1_bounds g : 0 ≤ g ≤ 2 ^ 48 →
  11 * g / 10 - 1 ≤ f64_as_u64 (f64_mul (u64_as_f64 g) f64_1_1) ≤ 11 * g / 10.
Proof.
  intros [H0 Hg]. destruct (decide (g = 0)) as [->|Hne]; [vm_compute; split; discriminate|].
  destruct (u64_as_f64_spec g ltac:(lia)) as (m&s&->&Hs&Hm&Hd). unfold f64_mul, f64_1_1. cbn [SFmul xorb].
  set (c := 4953959590107546%positive). destruct (digits2_bounds (m * c)) as [Hlo Hhi].
  destruct (digits2_bounds m) as [Hml Hmh]. rewrite Hd in Hml, Hmh. change (53 - 1) with 52 in Hml.
  rewrite Pos2Z.inj_mul in Hlo, Hhi. assert (Zpos c = 4953959590107546) as Hc by done.
  set (d := Zpos (digits2_pos (m * c))) in *.
  assert (53 ≤ d) by (assert (52 < d); [apply (Z.pow_lt_mono_r_iff 2); [lia|lia|nia]|lia]).
  assert (d ≤ 107) by (assert (d - 1 < 106); [apply (Z.pow_lt_mono_r_iff 2); [lia|lia|nia]|lia]).
  destruct (binary_round_aux_spec (m * c) (- s + -52)) as (m'&e'&->&He&Hb1&Hb2); [done|lia|fold d; lia|].
  rewrite Pos2Z.inj_mul, Hm, Hc in Hb1, Hb2. cbn [f64_as_u64].
  rewrite (int_part_scaled m' (- s + -52) (s + 52)) by lia.
  set (x := Zpos m' * 2 ^ (e' - (- s + -52))) in *. rewrite Z.pow_add_r by lia.
  assert (0 < 2 ^ s) as Hps by (apply Z.pow_pos_nonneg; lia). set (t := 2 ^ s) in *. clearbody x t.
  assert (x ≤ 11 * g / 10 * (t * 2 ^ 52) + (t * 2 ^ 52 - 1) ∧ (11 * g / 10 - 1) * (t * 2 ^ 52) ≤ x) as [Hup Hlow].
  { pose proof (Z.div_mod (11 * g) 10 ltac:(lia)) as Hdm. pose proof (Z.mod_pos_bound (11 * g) 10 ltac:(lia)) as Hr.
    set (q := 11 * g / 10) in *. set (r := (11 * g) mod 10) in *. clearbody q r. clear -Hb1 Hb2 Hg H0 Hps Hdm Hr.
    assert (0 ≤ g * t) by (apply Z.mul_nonneg_nonneg; lia).
    assert (g * t ≤ 2 ^ 48 * t) by (apply Z.mul_le_mono_nonneg_r; lia).
    assert (11 * (g * t) = 10 * (q * t) + r * t) by (rewrite Z.mul_assoc, Hdm; ring).
    assert (0 ≤ r * t) by (apply Z.mul_nonneg_nonneg; lia).
    assert (r * t ≤ 9 * t) by (apply Z.mul_le_mono_nonneg_r; lia).
    rewrite !(Z.mul_assoc _ t). rewrite (Z.mul_sub_distr_r q 1 t).
    set (u := g * t) in *. set (v := q * t) in *. set (w := r * t) in *. clearbody u v w. split; lia. }
  assert (x / (t * 2 ^ 52) ≤ 11 * g / 10) by (apply Z.lt_succ_r, Z.div_lt_upper_bound; lia).
  assert (11 * g / 10 - 1 ≤ x / (t * 2 ^ 52)) by (apply Z.div_le_lower_bound; lia).
  assert (11 * g / 10 ≤ u64_max) by (apply Z.div_le_upper_bound; unfold u64_max; lia). lia.
Qed.

(** ** Square roots *)

Definition f64_sqrt (x : f64) : f64 := SFsqrt f64_prec f64_emax x.

(** A mantissa of 53 digits is rounded by its position between two numbers only. *)
Lemma binary_round_aux_53 q e l : Zpos (digits2_pos q) = 53 → -1074 ≤ e ≤ 900 →
  ∃ m d, binary_round_aux f64_prec f64_emax false (Zpos q) e l = S754_finite false m (e + d) ∧ 0 ≤ d ≤ 1 ∧
    Zpos m * 2 ^ d = round_nearest_even (Zpos q) l.
Proof.
  intros Hd He. destruct (digits2_bounds q) as [Hlo Hhi]. rewrite Hd in Hlo, Hhi.
  unfold binary_round_aux, shr_fexp at 1. cbn [Zdigits2]. rewrite Hd.
  replace (fexp f64_prec f64_emax (53 + e) - e) with 0 by (unfold fexp, emin, f64_prec, f64_emax; lia). cbn [shr].
  assert (shr_m (shr_record_of_loc (Zpos q) l) = Zpos q ∧ loc_of_shr_record (shr_record_of_loc (Zpos q) l) = l) as [-> ->]
    by (by destruct l as [|[]]).
  pose proof (round_even_cases (Zpos q) l) as Hm. set (m1 := round_nearest_even (Zpos q) l) in *.
  destruct m1 as [|p1|p1] eqn:E1; [lia| |lia]. destruct (decide (Zpos p1 = 2 ^ 53)) as [Hp1|Hp1].
  - assert (Zpos (digits2_pos p1) = 54) as Hd1 by (apply digits2_unique; lia).
    destruct (shr_fexp_spec p1 e ltac:(lia) ltac:(lia)) as [Hm2 He2]. rewrite Hd1 in Hm2, He2.
    destruct (shr_fexp _ _ (Zpos p1) e loc_Exact) as [mrs2 e2]. cbn [fst snd] in Hm2, He2. subst e2. rewrite Hp1 in Hm2.
    change (2 ^ 53 / 2 ^ (54 - 53)) with (Zpos (2 ^ 52)) in Hm2. rewrite Hm2.
    rewrite (proj2 (Z.leb_le _ _)) by (unfold f64_emax, f64_prec; lia). eexists _, 1. split; [done|].
    split; [lia|]. rewrite Hp1. done.
  - assert (Zpos (digits2_pos p1) = 53) as Hd1 by (apply digits2_unique; lia).
    destruct (shr_fexp_spec p1 e ltac:(lia) ltac:(lia)) as [Hm2 He2]. rewrite Hd1 in Hm2, He2.
    change (2 ^ (53 - 53)) with 1 in Hm2. rewrite Z.div_1_r in Hm2.
    destruct (shr_fexp _ _ (Zpos p1) e loc_Exact) as [mrs2 e2]. cbn [fst snd] in Hm2, He2. subst e2. rewrite Hm2.
    rewrite (proj2 (Z.leb_le _ _)) by (unfold f64_emax, f64_prec; lia). exists p1, 0.
    replace (e + (53 - 53)) with (e + 0) by lia. split; [done|]. split; [lia|]. lia.
Qed.

(** The square root of an integer up to 2^52, in units of [2^-k]: rounded down or up, and up
    exactly when the rest is greater than the root. *)
Lemma f64_sqrt_spec g : 0 < g ≤ 2 ^ 52 →
  ∃ m d k r, f64_sqrt (u64_as_f64 g) = S754_finite false m (d - k) ∧ 0 ≤ d ≤ 1 ∧ 26 ≤ k ∧
    Zpos m * 2 ^ d = r ∧
    let q := Z.sqrt (g * 2 ^ (2 * k)) in
    (r = q ∨ r = q + 1) ∧ (r = q + 1 ↔ q < g * 2 ^ (2 * k) - q * q).
Proof.
  intros [Hpos Hg]. destruct (u64_as_f64_spec g ltac:(lia)) as (m&s&->&Hs&Hm&Hd).
  destruct (digits2_bounds m) as [Hml Hmh]. rewrite Hd in Hml, Hmh. change (53 - 1) with 52 in Hml.
  assert (0 < 2 ^ s) as Hps by (apply Z.pow_pos_nonneg; lia).
  set (h := s / 2 + s mod 2). set (k := 26 + h).
  assert (s = 2 * h - s mod 2 ∧ 0 ≤ s mod 2 < 2) as [Hsh Hs2].
  { pose proof (Z.div_mod s 2 ltac:(lia)). pose proof (Z.mod_pos_bound s 2 ltac:(lia)). unfold h. lia. }
  assert (0 ≤ h ≤ 26) as Hh by lia.
  assert (Z.div2 (- s) = - h) as Hdiv1.
  { rewrite Z.div2_div. symmetry. apply (Z.div_unique _ _ _ (s mod 2)); lia. }
  assert (Z.div2 (53 + - s + 1) = 27 - h) as Hdiv2.
  { rewrite Z.div2_div. symmetry. apply (Z.div_unique _ _ _ (s mod 2)); lia. }
  unfold f64_sqrt, SFsqrt, SFsqrt_core_binary. cbn [Zdigits2]. rewrite Hd, Hdiv1, Hdiv2.
  replace (Z.min (fexp f64_prec f64_emax (27 - h)) (- h)) with (- k)
    by (unfold fexp, emin, f64_prec, f64_emax, k; lia).
  replace (- s - 2 * - k) with (52 + s mod 2) by lia.
  assert (match 52 + s mod 2 with 0 => Zpos m | Zpos _ => Z.shiftl (Zpos m) (52 + s mod 2) | Zneg _ => 0 end = g * 2 ^ (2 * k)) as ->.
  { assert (Z.shiftl (Zpos m) (52 + s mod 2) = g * 2 ^ (2 * k)) as Hsl.
    { rewrite Z.shiftl_mul_pow2, Hm, <-Z.mul_assoc, <-Z.pow_add_r by lia. f_equal. f_equal. lia. }
    destruct (52 + s mod 2) eqn:E; [lia|done|lia]. }
  set (n := g * 2 ^ (2 * k)).
  assert (n = Zpos m * 2 ^ (52 + s mod 2)) as Hn.
  { unfold n. rewrite Hm, <-Z.mul_assoc, <-Z.pow_add_r by lia. f_equal. f_equal. lia. }
  assert (2 ^ 104 ≤ n < 2 ^ 106) as Hnb.
  { rewrite Hn, Z.pow_add_r by lia. assert (1 ≤ 2 ^ (s mod 2) ≤ 2).
    { assert (s mod 2 = 0 ∨ s mod 2 = 1) as [-> | ->] by lia; cbn; lia. } nia. }
  pose proof (Z.sqrtrem_sqrt n) as Hq. pose proof (Z.sqrt_spec n ltac:(lia)) as Hqs.
  assert (0 ≤ Z.sqrt n) as Hq0 by apply Z.sqrt_nonneg.
  pose proof (Z.sqrtrem_spec n ltac:(lia)) as Hr. destruct (Z.sqrtrem n) as [q r]. cbn [fst] in Hq. subst q.
  set (q := Z.sqrt n) in *. assert (2 ^ 52 ≤ q < 2 ^ 53) as Hqb by nia.
  destruct q as [|p|p] eqn:Ep; [lia| |lia].
  assert (Zpos (digits2_pos p) = 53) as Hdp by (apply digits2_unique; lia).
  set (l := if r =? 0 then loc_Exact else loc_Inexact (if r <=? Zpos p then Lt else Gt)).
  destruct (binary_round_aux_53 p (- k) l Hdp ltac:(lia)) as (m'&d&->&Hdd&Hround).
  exists m', d, k, (round_nearest_even (Zpos p) l). replace (d - k) with (- k + d) by lia.
  split; [done|]. split; [lia|]. split; [lia|]. split; [done|]. fold n. rewrite (eq_refl : Z.sqrt n = q), Ep.
  split; [apply round_even_cases|]. assert (r = n - Zpos p * Zpos p) as <- by lia.
  subst l. destruct (Z.eqb_spec r 0); [cbn [round_nearest_even]; lia|].
  destruct (Z.leb_spec r (Zpos p)); cbn [round_nearest_even]; lia.
Qed.

(** The integer that is reached from the root in units of [2^-k]. *)
Lemma sqrt_units g k r : 0 < g → 0 ≤ k → (Z.sqrt g < 2 ^ k ∨ Z.sqrt g * Z.sqrt g = g) →
  let q := Z.sqrt (g * 2 ^ (2 * k)) in
  (r = q ∨ r = q + 1) → (r = q + 1 ↔ q < g * 2 ^ (2 * k) - q * q) →
  (Z.sqrt g * Z.sqrt g = g → r = Z.sqrt g * 2 ^ k) ∧
  (Z.sqrt g * Z.sqrt g < g → Z.sqrt g * 2 ^ k < r < (Z.sqrt g + 1) * 2 ^ k).
Proof.
  intros Hg Hk Hsmall q Hr Hup. set (c := Z.sqrt g) in *.
  assert (0 < 2 ^ k) as Hpk by (apply Z.pow_pos_nonneg; lia).
  assert (2 ^ (2 * k) = 2 ^ k * 2 ^ k) as Hpow by (rewrite <-Z.pow_add_r by lia; f_equal; lia).
  destruct (Z.sqrt_spec g ltac:(lia)) as [Hc1 Hc2]. fold c in Hc1, Hc2. assert (0 ≤ c) as Hc0 by apply Z.sqrt_nonneg.
  destruct (Z.sqrt_spec (g * 2 ^ (2 * k)) ltac:(apply Z.mul_nonneg_nonneg; lia)) as [Hq1 Hq2]. fold q in Hq1, Hq2.
  assert (0 ≤ q) as Hq0 by apply Z.sqrt_nonneg. rewrite Hpow in *. set (t := 2 ^ k) in *. clearbody t q c. clear Hpow.
  assert (c * t ≤ q) as Hlow by nia. split.
  - intros Hsq. assert (q = c * t) as -> by nia. destruct Hr as [|Hr]; [done|]. apply Hup in Hr. nia.
  - intros Hlt. destruct Hsmall as [Hsmall|]; [|lia]. assert (q < (c + 1) * t) as Hqlt by nia. split.
    + destruct (decide (q = c * t)) as [Heq|]; [|lia]. rewrite (proj2 Hup); [lia|].
      subst q. assert ((c * c + 1) * (t * t) ≤ g * (t * t)) by nia. nia.
    + destruct Hr as [->|Hr]; [done|]. pose proof (proj1 Hup Hr) as Hgt. rewrite Hr.
      destruct (decide (q = (c + 1) * t - 1)) as [Heq|]; [exfalso|lia].
      assert (g * (t * t) ≤ ((c + 1) * (c + 1) - 1) * (t * t)) by nia.
      assert (c + 1 ≤ t) by lia. assert ((c + 1) * t ≤ t * t) by nia. nia.
Qed.

Lemma f64_sqrt_range g : 0 < g ≤ 2 ^ 52 →
  ∃ m d k, f64_sqrt (u64_as_f64 g) = S754_finite false m (d - k) ∧ 0 ≤ d ≤ 1 ∧ 26 ≤ k ∧
    let r := Zpos m * 2 ^ d in
    (Z.sqrt g * Z.sqrt g = g → r = Z.sqrt g * 2 ^ k) ∧
    (Z.sqrt g * Z.sqrt g < g → Z.sqrt g * 2 ^ k < r < (Z.sqrt g + 1) * 2 ^ k).
Proof.
  intros Hg. destruct (f64_sqrt_spec g Hg) as (m&d&k&r&Hs&Hd&Hk&Hr&Hcase&Hup).
  exists m, d, k. split; [done|]. split; [done|]. split; [done|]. cbv zeta. rewrite Hr. apply sqrt_units; try done; [lia|lia|].
  destruct (decide (g = 2 ^ 52)) as [->|]; [right; vm_compute; reflexivity|left].
  apply Z.lt_le_trans with (2 ^ 26); [|apply Z.pow_le_mono_r; lia]. apply Z.sqrt_lt_square; lia.
Qed.

(** An integer that a product by a power of two reaches: [int_part] and the rest. *)
Lemma int_part_units m d k : 0 ≤ d < k →
  int_part m (d - k) = Zpos m * 2 ^ d / 2 ^ k ∧
  (Zpos m mod 2 ^ (- (d - k)) = 0 ↔ (Zpos m * 2 ^ d) mod 2 ^ k = 0).
Proof.
  intros Hd. unfold int_part. destruct (Z.leb_spec 0 (d - k)); [lia|].
  assert (2 ^ k = 2 ^ (- (d - k)) * 2 ^ d) as -> by (rewrite <-Z.pow_add_r by lia; f_equal; lia).
  assert (2 ^ (- (d - k)) ≠ 0 ∧ 2 ^ d ≠ 0) as [H1 H2] by (split; apply Z.pow_nonzero; lia).
  rewrite Z.div_mul_cancel_r by done. split; [done|]. rewrite Z.mul_mod_distr_r by done.
  split; [by intros ->|]. intros [?|?]%Z.mul_eq_0; [done|by destruct H2].
Qed.

Lemma f64_as_u64_int g : 0 ≤ g < 2 ^ 53 → f64_as_u64 (u64_as_f64 g) = g.
Proof.
  intros [H0 Hg]. destruct (decide (g = 0)) as [->|]; [done|].
  destruct (u64_as_f64_spec g ltac:(lia)) as (m&s&->&Hs&Hm&_). cbn [f64_as_u64].
  assert (int_part m (- s) = g) as ->; [|unfold u64_max; lia].
  rewrite (int_part_scaled m (- s) s) by lia. rewrite Z.sub_diag, Z.mul_1_r, Hm. apply Z.div_mul, Z.pow_nonzero; lia.
Qed.

(** [(n as f64).sqrt().ceil() as u64] is the square root rounded up, for integers up to 2^52. *)
Lemma f64_sqrt_ceil_exact n : 0 ≤ n ≤ 2 ^ 52 → f64_as_u64 (f64_ceil (f64_sqrt (u64_as_f64 n))) = Z.sqrt_up n.
Proof.
  intros [H0 Hn]. destruct (decide (n = 0)) as [->|]; [done|].
  destruct (f64_sqrt_range n ltac:(lia)) as (m&d&k&->&Hd&Hk&Hsq&Hnsq).
  cbn [f64_ceil]. destruct (Z.leb_spec 0 (d - k)); [lia|].
  destruct (int_part_units m d k ltac:(lia)) as [-> Hmod]. set (r := Zpos m * 2 ^ d) in *.
  assert (0 < 2 ^ k) as Hpk by (apply Z.pow_pos_nonneg; lia).
  destruct (Z.sqrt_spec n ltac:(lia)) as [Hc1 Hc2]. set (c := Z.sqrt n) in *. assert (0 ≤ c) by apply Z.sqrt_nonneg.
  assert (c ≤ 2 ^ 26) as Hc by nia.
  assert ((if Zpos m mod 2 ^ (- (d - k)) =? 0 then r / 2 ^ k else r / 2 ^ k + 1) = Z.sqrt_up n) as ->.
  { destruct (Z.eq_dec (c * c) n) as [Heq|Hne].
    - rewrite (Hsq Heq) in *. rewrite (proj2 (Z.eqb_eq _ _)) by (apply Hmod, Z.mod_mul; lia).
      rewrite Z.div_mul by lia. rewrite <-Heq. symmetry. apply Z.sqrt_up_square. lia.
    - specialize (Hnsq ltac:(lia)). assert (Z.sqrt_up n = c + 1) as ->.
      { apply Z.sqrt_up_unique; [lia|]. unfold Z.succ. split; [|lia].
        replace (Z.pred (c + 1)) with c by lia. lia. }
      pose proof (Z.div_mod r (2 ^ k) ltac:(lia)) as Hdm. pose proof (Z.mod_pos_bound r (2 ^ k) Hpk) as Hb.
      destruct (Z.eqb_spec (Zpos m mod 2 ^ (- (d - k))) 0) as [Hz|Hz]; rewrite Hmod in Hz; nia. }
  assert (0 ≤ Z.sqrt_up n < 2 ^ 53) as Hup.
  { split; [apply Z.sqrt_up_nonneg|]. apply Z.le_lt_trans with (2 ^ 26); [|done].
    change (2 ^ 26) with (Z.sqrt_up (2 ^ 52)). by apply Z.sqrt_up_le_mono. }
  apply (f64_as_u64_int _ Hup).
Qed.

(** [f64::sqrt(n as f64) as usize] is the square root rounded down, for integers up to 2^52. *)
Lemma f64_sqrt_trunc_exact n : 0 ≤ n ≤ 2 ^ 52 → f64_as_u64 (f64_sqrt (u64_as_f64 n)) = Z.sqrt n.
Proof.
  intros [H0 Hn]. destruct (decide (n = 0)) as [->|]; [done|].
  destruct (f64_sqrt_range n ltac:(lia)) as (m&d&k&->&Hd&Hk&Hsq&Hnsq). cbn [f64_as_u64].
  destruct (int_part_units m d k ltac:(lia)) as [-> _]. set (r := Zpos m * 2 ^ d) in *.
  assert (0 < 2 ^ k) as Hpk by (apply Z.pow_pos_nonneg; lia).
  destruct (Z.sqrt_spec n ltac:(lia)) as [Hc1 Hc2]. set (c := Z.sqrt n) in *. assert (0 ≤ c) by apply Z.sqrt_nonneg.
  assert (r / 2 ^ k = c) as ->; [|unfold u64_max; nia].
  symmetry. apply (Z.div_unique _ _ _ (r - c * 2 ^ k)); [left|lia].
  destruct (Z.eq_dec (c * c) n) as [Heq|Hne]; [rewrite (Hsq Heq); lia|specialize (Hnsq ltac:(lia)); lia].
Qed.

(** Beyond 2^52 the two part: the root of 2^52 + 1 is rounded to 2^26. *)
Example f64_sqrt_ceil_inexact :
  f64_as_u64 (f64_ceil (f64_sqrt (u64_as_f64 (2 ^ 52 + 1)))) = 2 ^ 26 ∧ Z.sqrt_up (2 ^ 52 + 1) = 2 ^ 26 + 1.
Proof. vm_compute. split; reflexivity. Qed.
