(* ===== verification/Blob.v ===== *)
(** * Blobs and commitments (src/types/src/blob.rs, src/types/src/blob/commitment.rs,
    src/types/src/blob/msg_pay_for_blobs.rs)

    A blob is data in a namespace.  It is split into shares, and its commitment is the
    Merkle root of the roots of namespaced Merkle trees over groups of these shares.  The
    tree itself is the external crate nmt-rs: [nmt_root] of the class [NmtExternals] is the
    root of a tree into which the leaves were pushed one by one.

    The minimal square size is computed in double precision, as in the code (Float64.v). *)

From stdpp Require Import sorting.
From S2P Require Import Prelude Consts Float64 Nmt Merkle Dah Share.

(** ** Splitting a blob into shares *)

(** [bytes.resize(n, 0)]. *)
Definition resize (n : nat) (b : bytes) : bytes := take n b ++ repeat 0 (n - length b).
(** Copying into the slice [b[s..s + length src]]. *)
Definition copy_at {E} (s : nat) (src b : bytes) : res E bytes :=
  if (length b <? s + length src)%nat then Panic
  else Ok (take s b ++ src ++ drop (s + length src) b).

(** The cursor is the data and the position. *)
Definition build_sparse_share_v0 (namespace : Namespace) (data : bytes) (position : nat)
    : res TypesError (Share * nat) :=
  let is_first_share := (position =? 0)%nat in
  let data_len := length data in
  info_byte ← InfoByte_new SHARE_VERSION_ZERO is_first_share;
  let bytes := namespace ++ [info_byte] in
  bytes ← (if is_first_share then
             if u32_max <? Z.of_nat data_len then Err (ShareSequenceLenExceeded data_len)
             else Ok (bytes ++ be_bytes 4 (Z.of_nat data_len))
           else Ok bytes);
  let current_size := length bytes in
  available_space ← expect (if (SHARE_SIZE <? current_size)%nat then None
                            else Some (SHARE_SIZE - current_size)%nat);
  let read_amount := Nat.min available_space (length data - position) in
  let bytes := resize SHARE_SIZE bytes in
  bytes ← copy_at current_size (take read_amount (drop position data)) bytes;
  share ← Share_from_raw bytes;
  Ok (share, (position + read_amount)%nat).

Fixpoint split_loop (fuel : nat) (namespace : Namespace) (data : bytes) (position : nat)
    : run TypesError (list Share) :=
  match fuel with
  | O => None
  | S fuel =>
      if (position <? length data)%nat then
        '(share, position) ← lift (build_sparse_share_v0 namespace data position);
        shares ← split_loop fuel namespace data position;
        Some (Ok (share :: shares))
      else Some (Ok [])
  end.

(** One iteration per share, each takes at least one byte. *)
Definition split_blob_to_shares (namespace : Namespace) (share_version : Z) (blob_data : bytes)
    : run TypesError (list Share) :=
  if negb (share_version =? SHARE_VERSION_ZERO)
  then Some (Err (UnsupportedShareVersion share_version))
  else split_loop (S (length blob_data)) namespace blob_data 0.

(** ** The sizes of the subtrees *)

(** [u64::checked_shl]: only the amount is checked, bits may be shifted out. *)
Definition checked_shl (x k : Z) : option Z :=
  if k <? 64 then Some ((x * 2 ^ k) mod 2 ^ 64) else None.

Fixpoint round_up_loop {E} (fuel : nat) (po2 x : Z) : run E (option Z) :=
  match fuel with
  | O => None
  | S fuel =>
      if x <=? po2 then Some (Ok (Some po2))
      else match checked_shl po2 1 with
           | Some next_po2 => round_up_loop fuel next_po2 x
           | None => Some (Ok None)
           end
  end.
(** Sixty-four iterations reach the greatest power of two. *)
Definition round_up_to_power_of_2 {E} (x : Z) : run E (option Z) := round_up_loop 64 1 x.

Definition round_down_to_power_of_2 {E} (x : Z) : run E (option Z) :=
  po2 ← round_up_to_power_of_2 x;
  Some (Ok (match po2 with
            | Some po2 => Some (if po2 =? x then x else po2 / 2)
            | None => None
            end)).

Definition blob_min_square_size {E} (share_count : Z) : run E Z :=
  po2 ← round_up_to_power_of_2 (f64_as_u64 (f64_ceil (f64_sqrt (u64_as_f64 share_count))));
  lift (expect po2).

Definition subtree_width {E} (share_count subtree_root_threshold : Z) : run E Z :=
  s ← lift (expect (checked_div share_count subtree_root_threshold));
  let s := if negb (share_count mod subtree_root_threshold =? 0) then s + 1 else s in
  po2 ← round_up_to_power_of_2 s;
  s ← lift (expect po2);
  m ← blob_min_square_size share_count;
  Some (Ok (Z.min s m)).

Fixpoint mmr_loop {E} (fuel : nat) (total_size max_tree_size : Z) : run E (list Z) :=
  match fuel with
  | O => None
  | S fuel =>
      if total_size =? 0 then Some (Ok []) else
      if max_tree_size <=? total_size then
        rest ← mmr_loop fuel (total_size - max_tree_size) max_tree_size;
        Some (Ok (max_tree_size :: rest))
      else
        po2 ← round_down_to_power_of_2 total_size;
        tree_size ← lift (expect po2);
        rest ← mmr_loop fuel (total_size - tree_size) max_tree_size;
        Some (Ok (tree_size :: rest))
  end.
Definition merkle_mountain_range_sizes {E} (total_size max_tree_size : Z) : run E (list Z) :=
  mmr_loop (S (Z.to_nat total_size)) total_size max_tree_size.

(** ** Reading shares back *)

Definition shares_needed_for_blob (blob_len : Z) : Z :=
  match checked_sub blob_len (Z.of_nat FIRST_SPARSE_SHARE_CONTENT_SIZE) with
  | None => 1
  | Some without_first_share =>
      1 + div_ceil without_first_share (Z.of_nat CONTINUATION_SPARSE_SHARE_CONTENT_SIZE)
  end.

(** The loop [for _ in 1..shares_needed]: [n] shares are left to read.  The iterator is the
    list of what it has not returned yet. *)
Fixpoint reconstruct_loop (namespace : Namespace) (share_version : Z) (n : Z) (data : bytes)
    (shares : list Share) : res TypesError (bytes * list Share) :=
  if n <=? 0 then Ok (data, shares) else
  match shares with
  | [] => Err MissingShares
  | share :: shares =>
      if negb (bool_decide (share_namespace share = namespace)) then Err BlobSharesMetadataMismatch else
      info_byte ← expect (share_info_byte share);
      if negb (InfoByte_version info_byte =? share_version) then Err BlobSharesMetadataMismatch else
      if bool_decide (is_Some (share_sequence_length share)) then Err UnexpectedSequenceStart else
      payload ← expect (share_payload share);
      reconstruct_loop namespace share_version (n - 1) (data ++ payload) shares
  end.

(** [shares.find(...)] drops what it skips. *)
Fixpoint find_start (shares : list Share) : option (Share * list Share) :=
  match shares with
  | [] => None
  | share :: shares =>
      if bool_decide (is_Some (share_sequence_length share)) then Some (share, shares)
      else find_start shares
  end.

(** ** Commitments *)

(** [struct Commitment { hash: merkle::Hash }]: its hash. *)
Definition Commitment := bytes.

Section Blobs.
Context `{DahExternals} `{NmtExternals}.

(** The loop that cuts the shares into the leaf sets. *)
Fixpoint leaf_sets (tree_sizes : list Z) (shares : list Share) : res TypesError (list (list Share)) :=
  match tree_sizes with
  | [] => Ok []
  | size :: tree_sizes =>
      let size := Z.to_nat size in
      if (length shares <? size)%nat then Panic else
      rest ← leaf_sets tree_sizes (drop size shares);
      Ok (take size shares :: rest)
  end.

(** The root over one leaf set. *)
Definition subtree_root (namespace : Namespace) (leaf_set : list Share) : res TypesError bytes :=
  root ← ok_or (nmt_root ((λ s, (sh_data s, namespace)) <$> leaf_set)) ENmt;
  Ok (nh_to_array root).

Definition Commitment_from_shares (namespace : Namespace) (shares : list Share)
    (subtree_root_threshold : Z) : run TypesError Commitment :=
  width ← subtree_width (Z.of_nat (length shares)) subtree_root_threshold;
  tree_sizes ← merkle_mountain_range_sizes (Z.of_nat (length shares)) width;
  sets ← lift (leaf_sets tree_sizes shares);
  subtree_roots ← lift (mapM (subtree_root namespace) sets);
  Some (Ok (simple_hash_from_byte_vectors subtree_roots)).

Definition Commitment_from_blob (namespace : Namespace) (blob_data : bytes) (share_version : Z)
    (subtree_root_threshold : Z) : run TypesError Commitment :=
  shares ← split_blob_to_shares namespace share_version blob_data;
  Commitment_from_shares namespace shares subtree_root_threshold.

(** ** Blobs *)

Record Blob := {
  b_namespace : Namespace;
  b_data : bytes;
  b_share_version : Z;
  b_commitment : Commitment;
  b_index : option Z
}.

Definition Blob_new (namespace : Namespace) (data : bytes) (app_version : AppVersion)
    : run TypesError Blob :=
  commitment ← Commitment_from_blob namespace data 0 (subtree_root_threshold app_version);
  Some (Ok {| b_namespace := namespace; b_data := data; b_share_version := 0;
              b_commitment := commitment; b_index := None |}).

(** [RawBlob]; the signer is not read. *)
Record RawBlob := {
  raw_namespace_id : bytes;
  raw_namespace_version : Z;
  raw_data : bytes;
  raw_share_version : Z
}.

(** The casts [as u8] keep the low eight bits. *)
Definition Blob_from_raw (raw : RawBlob) (app_version : AppVersion) : run TypesError Blob :=
  namespace ← lift (map_err ENamespace
                (Namespace_new (raw_namespace_version raw mod 256) (raw_namespace_id raw)));
  commitment ← Commitment_from_blob namespace (raw_data raw) (raw_share_version raw mod 256)
                 (subtree_root_threshold app_version);
  Some (Ok {| b_namespace := namespace; b_data := raw_data raw;
              b_share_version := raw_share_version raw mod 256;
              b_commitment := commitment; b_index := None |}).

Definition Blob_into_raw (value : Blob) : res TypesError RawBlob :=
  version ← map_err ENamespace (Namespace_version (b_namespace value));
  Ok {| raw_namespace_id := Namespace_id (b_namespace value); raw_namespace_version := version;
        raw_data := b_data value; raw_share_version := b_share_version value |}.

Definition Blob_validate (b : Blob) (app_version : AppVersion) : run TypesError unit :=
  computed_commitment ← Commitment_from_blob (b_namespace b) (b_data b) (b_share_version b)
                          (subtree_root_threshold app_version);
  if bool_decide (b_commitment b = computed_commitment) then Some (Ok tt) else Some (Err EValidation).

Definition Blob_to_shares (b : Blob) : run TypesError (list Share) :=
  split_blob_to_shares (b_namespace b) (b_share_version b) (b_data b).

(** The same on the length of the data. *)
Definition Blob_shares_len (b : Blob) : Z := shares_needed_for_blob (Z.of_nat (length (b_data b))).

(** Also returns what is left of the iterator. *)
Definition reconstruct_iter (shares : list Share) (app_version : AppVersion)
    : run TypesError (Blob * list Share) :=
  match shares with
  | [] => Some (Err MissingShares)
  | first_share :: shares =>
      blob_len ← lift (ok_or (share_sequence_length first_share) ExpectedShareWithSequenceStart);
      let namespace := share_namespace first_share in
      if is_reserved namespace then Some (Err UnexpectedReservedNamespace) else
      info_byte ← lift (expect (share_info_byte first_share));
      let share_version := InfoByte_version info_byte in
      let shares_needed := shares_needed_for_blob blob_len in
      payload ← lift (expect (share_payload first_share));
      '(data, shares) ← lift (reconstruct_loop namespace share_version (shares_needed - 1) payload shares);
      let data := take (Z.to_nat blob_len) data in
      blob ← Blob_new namespace data app_version;
      Some (Ok (blob, shares))
  end.
Definition Blob_reconstruct (shares : list Share) (app_version : AppVersion) : run TypesError Blob :=
  '(blob, _) ← reconstruct_iter shares app_version; Some (Ok blob).

(** Each iteration takes at least one share off the iterator. *)
Fixpoint reconstruct_all_loop (fuel : nat) (shares : list Share) (app_version : AppVersion)
    : run TypesError (list Blob) :=
  match fuel with
  | O => None
  | S fuel =>
      match find_start shares with
      | None => Some (Ok [])
      | Some (start, shares) =>
          '(blob, shares) ← reconstruct_iter (start :: shares) app_version;
          blobs ← reconstruct_all_loop fuel shares app_version;
          Some (Ok (blob :: blobs))
      end
  end.
Definition Blob_reconstruct_all (shares : list Share) (app_version : AppVersion)
    : run TypesError (list Blob) :=
  let shares := filter (λ s, is_reserved (share_namespace s) = false) shares in
  reconstruct_all_loop (S (length shares)) shares app_version.
End Blobs.

(** ** Paying for blobs (blob/msg_pay_for_blobs.rs)

    The address of the signer is an argument, with its parsing and printing. *)

Record MsgPayForBlobs (Address : Type) := {
  pfb_signer : Address;
  pfb_namespaces : list Namespace;
  pfb_blob_sizes : list Z;
  pfb_share_commitments : list Commitment;
  pfb_share_versions : list Z
}.
Arguments pfb_signer {_}.
Arguments pfb_namespaces {_}.
Arguments pfb_blob_sizes {_}.
Arguments pfb_share_commitments {_}.
Arguments pfb_share_versions {_}.

Definition MsgPayForBlobs_new {Address} (blobs : list Blob) (signer : Address)
    : res TypesError (MsgPayForBlobs Address) :=
  if (length blobs =? 0)%nat then Err EmptyBlobList else
  blob_sizes ← mapM (λ blob, let len := Z.of_nat (length (b_data blob)) in
                             if u32_max <? len then Err BlobTooLarge else Ok len) blobs;
  Ok {| pfb_signer := signer; pfb_namespaces := b_namespace <$> blobs; pfb_blob_sizes := blob_sizes;
        pfb_share_commitments := b_commitment <$> blobs; pfb_share_versions := b_share_version <$> blobs |}.

Record RawMsgPayForBlobs := {
  rpfb_signer : bytes; rpfb_namespaces : list bytes; rpfb_blob_sizes : list Z;
  rpfb_share_commitments : list bytes; rpfb_share_versions : list Z
}.
Definition MsgPayForBlobs_into_raw {Address} (to_string : Address → bytes) (msg : MsgPayForBlobs Address)
    : RawMsgPayForBlobs :=
  {| rpfb_signer := to_string (pfb_signer msg); rpfb_namespaces := pfb_namespaces msg;
     rpfb_blob_sizes := pfb_blob_sizes msg; rpfb_share_commitments := pfb_share_commitments msg;
     rpfb_share_versions := pfb_share_versions msg |}.

(** A commitment is an array of 32 bytes. *)
Definition MsgPayForBlobs_try_from {Address} (parse : bytes → option Address) (msg : RawMsgPayForBlobs)
    : res TypesError (MsgPayForBlobs Address) :=
  namespaces ← mapM (λ n, map_err ENamespace (Namespace_from_raw n)) (rpfb_namespaces msg);
  share_commitments ← mapM (λ c : bytes, if (length c =? HASH_SIZE)%nat then Ok c
                                         else Err InvalidComittmentLength) (rpfb_share_commitments msg);
  signer ← ok_or (parse (rpfb_signer msg)) EInvalidAddress;
  Ok {| pfb_signer := signer; pfb_namespaces := namespaces; pfb_blob_sizes := rpfb_blob_sizes msg;
        pfb_share_commitments := share_commitments; pfb_share_versions := rpfb_share_versions msg |}.

(** The message for blobs survives its protobuf form. *)
Lemma msg_pay_for_blobs_roundtrip {Address} (to_string : Address → bytes) parse blobs signer msg :
  (∀ a, parse (to_string a) = Some a) →
  Forall (λ b, valid_namespace (b_namespace b) ∧ length (b_commitment b) = HASH_SIZE) blobs →
  MsgPayForBlobs_new blobs signer = Ok msg →
  MsgPayForBlobs_try_from parse (MsgPayForBlobs_into_raw to_string msg) = Ok msg.
Proof.
  intros Hparse Hb Hnew. unfold MsgPayForBlobs_new in Hnew. case_ifs_in Hnew; [done|].
  apply bind_Ok in Hnew as (sizes&_&Hnew). injection Hnew as <-.
  unfold MsgPayForBlobs_try_from, MsgPayForBlobs_into_raw.
  cbn [rpfb_namespaces rpfb_share_commitments rpfb_signer rpfb_blob_sizes rpfb_share_versions pfb_signer
       pfb_namespaces pfb_blob_sizes pfb_share_commitments pfb_share_versions].
  rewrite (proj2 (mapM_res_Ok _ (b_namespace <$> blobs) (b_namespace <$> blobs))).
  2:{ apply Forall_Forall2_diag, Forall_fmap. eapply Forall_impl; [exact Hb|]. intros b [Hv _]. cbn.
      by rewrite (proj2 (proj1 (namespace_from_raw_exact _ _)) (conj eq_refl Hv)). }
  apply (bind_step eq_refl). apply (bind_step (a := b_commitment <$> blobs)).
  { apply mapM_res_Ok, Forall_Forall2_diag, Forall_fmap. eapply Forall_impl; [exact Hb|]. intros b [_ Hl]. cbn.
    by rewrite Hl. }
  by rewrite Hparse.
Qed.

(** ** Lemmas: powers of two *)

(** [2 ^ j] is the least power of two that is at least [x]. *)
Definition least_pow2 (x j : Z) : Prop := 0 ≤ j ≤ 63 ∧ x ≤ 2 ^ j ∧ (j = 0 ∨ 2 ^ (j - 1) < x).

Lemma pow2_63 k : 0 ≤ k ≤ 63 → 0 < 2 ^ k ≤ 2 ^ 63.
Proof. intros. split; [apply Z.pow_pos_nonneg; lia|apply Z.pow_le_mono_r; lia]. Qed.

Lemma checked_shl_pow2 k : 0 ≤ k < 63 → checked_shl (2 ^ k) 1 = Some (2 ^ (k + 1)).
Proof.
  intros Hk. unfold checked_shl. cbn [Z.ltb Z.compare Pos.compare Pos.compare_cont].
  rewrite <-Z.pow_add_r by lia. rewrite Z.mod_small; [done|].
  split; [apply Z.pow_nonneg; lia|apply Z.pow_lt_mono_r; lia].
Qed.

Lemma round_up_loop_spec {E} fuel k x : 0 ≤ k ≤ 63 → 63 - k < Z.of_nat fuel → x ≤ 2 ^ 63 →
  (k = 0 ∨ 2 ^ (k - 1) < x) →
  ∃ j, @round_up_loop E fuel (2 ^ k) x = Some (Ok (Some (2 ^ j))) ∧ least_pow2 x j.
Proof.
  revert k; induction fuel as [|fuel IH]; intros k Hk Hf Hx Hlow; [lia|]. cbn [round_up_loop].
  destruct (Z.leb_spec x (2 ^ k)) as [Hle|Hgt].
  { exists k. split; [done|]. unfold least_pow2. lia. }
  assert (k < 63) by (destruct (decide (k = 63)) as [->|]; lia).
  rewrite checked_shl_pow2 by lia. apply IH; [lia..|]. right. by replace (k + 1 - 1) with k by lia.
Qed.

Lemma round_up_spec {E} x : x ≤ 2 ^ 63 →
  ∃ j, @round_up_to_power_of_2 E x = Some (Ok (Some (2 ^ j))) ∧ least_pow2 x j.
Proof. intros Hx. apply (round_up_loop_spec 64 0); lia. Qed.

(** Beyond the greatest power of two the loop never ends: the bit is shifted out, and zero
    stays zero. *)
Lemma round_up_loop_zero {E} fuel x : 0 < x → @round_up_loop E fuel 0 x = None.
Proof.
  intros Hx. induction fuel as [|fuel IH]; [done|]. cbn [round_up_loop].
  destruct (Z.leb_spec x 0); [lia|]. exact IH.
Qed.
Lemma round_up_loop_diverges {E} fuel k x : 0 ≤ k ≤ 63 → 2 ^ 63 < x →
  @round_up_loop E fuel (2 ^ k) x = None.
Proof.
  revert k; induction fuel as [|fuel IH]; intros k Hk Hx; [done|]. cbn [round_up_loop].
  pose proof (pow2_63 k Hk). destruct (Z.leb_spec x (2 ^ k)); [lia|].
  destruct (decide (k = 63)) as [->|Hne].
  - change (checked_shl (2 ^ 63) 1) with (Some 0). apply round_up_loop_zero. lia.
  - rewrite checked_shl_pow2 by lia. apply IH; lia.
Qed.

Lemma round_down_spec {E} x : 0 < x ≤ 2 ^ 63 →
  ∃ j, @round_down_to_power_of_2 E x = Some (Ok (Some (2 ^ j))) ∧ 0 ≤ j ≤ 63 ∧
    2 ^ j ≤ x < 2 ^ (j + 1).
Proof.
  intros [Hpos Hx]. unfold round_down_to_power_of_2.
  destruct (@round_up_spec E x Hx) as (j&->&Hj&Hle&Hlow). cbv [mbind run_bind].
  destruct (Z.eqb_spec (2 ^ j) x) as [Heq|Hne].
  - exists j. rewrite Heq. split; [done|]. split; [done|]. rewrite Z.pow_add_r, Heq by lia. lia.
  - destruct Hlow as [->|Hlow]; [lia|]. assert (0 < j) by (destruct (decide (j = 0)) as [->|]; lia).
    assert (2 ^ j = 2 ^ (j - 1) * 2) as Hpow
      by (replace j with (j - 1 + 1) at 1 by lia; by rewrite Z.pow_add_r by lia).
    exists (j - 1). rewrite Hpow, Z.div_mul by lia. split; [done|]. split; [lia|].
    replace (j - 1 + 1) with j by lia. lia.
Qed.

(** The width of the subtrees is a power of two. *)
Lemma subtree_width_spec {E} n t : 0 ≤ n ≤ 2 ^ 52 → 0 < t →
  ∃ j, @subtree_width E n t = Some (Ok (2 ^ j)) ∧ 0 ≤ j ≤ 63 ∧
    ∃ a b, least_pow2 (div_ceil n t) a ∧ least_pow2 (Z.sqrt_up n) b ∧ j = Z.min a b.
Proof.
  intros Hn Ht. unfold subtree_width, checked_div. destruct (Z.eqb_spec t 0); [lia|].
  cbv [mbind run_bind lift expect].
  assert ((if negb (n mod t =? 0) then n / t + 1 else n / t) = div_ceil n t) as ->
    by (unfold div_ceil; by destruct (n mod t =? 0)).
  assert (div_ceil n t ≤ 2 ^ 63).
  { unfold div_ceil. pose proof (Z.div_le_upper_bound n t n ltac:(lia) ltac:(nia)).
    destruct (Z.eqb_spec (n mod t) 0); [lia|].
    destruct (decide (n / t = n)) as [Hd|]; [|lia]. exfalso.
    pose proof (Z.div_mod n t ltac:(lia)). pose proof (Z.mod_pos_bound n t Ht). nia. }
  destruct (@round_up_spec E (div_ceil n t)) as (a&->&Ha); [done|].
  unfold blob_min_square_size. rewrite f64_sqrt_ceil_exact by done. pose proof (Z.sqrt_up_le_lin n ltac:(lia)).
  destruct (@round_up_spec E (Z.sqrt_up n)) as (b&->&Hb); [lia|]. cbv [mbind run_bind lift expect].
  exists (Z.min a b). destruct Ha as (Ha&Ha2), Hb as (Hb&Hb2).
  split; [|split; [lia|by exists a, b]]. do 2 f_equal.
  destruct (Z.min_spec a b) as [[? ->]|[? ->]].
  - apply Z.min_l. by apply Z.pow_le_mono_r; lia.
  - apply Z.min_r. apply Z.pow_le_mono_r; lia.
Qed.

(** ** Lemmas: the mountain range *)

(** The reference: full trees as long as they fit, then the binary digits of the rest. *)
Fixpoint bits_desc (k : nat) (r : Z) : list Z :=
  match k with
  | O => []
  | S k => if Z.testbit r (Z.of_nat k) then 2 ^ Z.of_nat k :: bits_desc k r else bits_desc k r
  end.
Definition mmr_sizes (n : Z) (k : nat) : list Z :=
  repeat (2 ^ Z.of_nat k) (Z.to_nat (n / 2 ^ Z.of_nat k)) ++ bits_desc k (n mod 2 ^ Z.of_nat k).

Lemma testbit_top r k : 0 ≤ r < 2 ^ (Z.of_nat k + 1) → Z.testbit r (Z.of_nat k) = (2 ^ Z.of_nat k <=? r).
Proof.
  intros Hr. rewrite Z.pow_add_r in Hr by lia. change (2 ^ 1) with 2 in Hr.
  destruct (Z.leb_spec (2 ^ Z.of_nat k) r) as [Hle|Hgt].
  - apply Z.testbit_true; [lia|].
    replace (r / 2 ^ Z.of_nat k) with 1; [done|]. apply (Z.div_unique _ _ _ (r - 2 ^ Z.of_nat k)); lia.
  - apply Z.testbit_false; [lia|]. by rewrite Z.div_small by lia.
Qed.

Lemma bits_desc_low k r r' : (∀ i, (i < k)%nat → Z.testbit r (Z.of_nat i) = Z.testbit r' (Z.of_nat i)) →
  bits_desc k r = bits_desc k r'.
Proof.
  induction k as [|k IH]; intros Heq; [done|]. cbn [bits_desc]. rewrite (Heq k) by lia.
  by rewrite IH by (intros; apply Heq; lia).
Qed.

Lemma bits_desc_small k j r : (j ≤ k)%nat → 0 ≤ r < 2 ^ Z.of_nat j → bits_desc k r = bits_desc j r.
Proof.
  induction k as [|k IH]; intros Hj Hr; [by replace j with 0%nat by lia|].
  destruct (decide (j = S k)) as [->|Hne]; [done|]. cbn [bits_desc].
  pose proof (Z.pow_le_mono_r 2 (Z.of_nat j) (Z.of_nat k) ltac:(lia) ltac:(lia)) as Hp.
  rewrite testbit_top by (rewrite Z.pow_add_r by lia; lia).
  destruct (Z.leb_spec (2 ^ Z.of_nat k) r); [lia|]. apply IH; [lia|done].
Qed.

Lemma bits_desc_cons k j r : (j < k)%nat → 2 ^ Z.of_nat j ≤ r < 2 ^ (Z.of_nat j + 1) →
  bits_desc k r = 2 ^ Z.of_nat j :: bits_desc k (r - 2 ^ Z.of_nat j).
Proof.
  intros Hj Hr. assert (0 < 2 ^ Z.of_nat j) by (apply Z.pow_pos_nonneg; lia).
  rewrite (bits_desc_small k (S j) r); [|lia|].
  2:{ rewrite Nat2Z.inj_succ. replace (Z.succ (Z.of_nat j)) with (Z.of_nat j + 1) by lia. lia. }
  cbn [bits_desc]. rewrite testbit_top by lia. destruct (Z.leb_spec (2 ^ Z.of_nat j) r); [|lia].
  rewrite Z.pow_add_r in Hr by lia. change (2 ^ 1) with 2 in Hr.
  rewrite (bits_desc_small k j (r - _)) by lia. f_equal. apply bits_desc_low. intros i Hi.
  replace r with ((r - 2 ^ Z.of_nat j) + 1 * 2 ^ Z.of_nat j) at 1 by lia.
  rewrite <-(Z.mod_pow2_bits_low (_ + _) (Z.of_nat j)) by lia. rewrite Z.mod_add by lia.
  by rewrite Z.mod_small by lia.
Qed.

Lemma mmr_loop_spec {E} fuel n k : 0 ≤ n ≤ 2 ^ 63 → n < Z.of_nat fuel → (k ≤ 63)%nat →
  @mmr_loop E fuel n (2 ^ Z.of_nat k) = Some (Ok (mmr_sizes n k)).
Proof.
  revert n; induction fuel as [|fuel IH]; intros n Hn Hf Hk; [lia|]. cbn [mmr_loop].
  assert (0 < 2 ^ Z.of_nat k) as Hpk by (apply Z.pow_pos_nonneg; lia). unfold mmr_sizes.
  destruct (Z.eqb_spec n 0) as [->|Hn0].
  { rewrite Z.div_0_l, Z.mod_0_l by lia. simpl. by rewrite (bits_desc_small k 0) by (simpl; lia). }
  destruct (Z.leb_spec (2 ^ Z.of_nat k) n) as [Hle|Hlt].
  - rewrite IH by lia. cbv [mbind run_bind]. do 2 f_equal. unfold mmr_sizes.
    replace n with (n - 2 ^ Z.of_nat k + 1 * 2 ^ Z.of_nat k) at 3 4 by lia.
    rewrite Z.div_add, Z.mod_add by lia.
    rewrite Z2Nat.inj_add by (try apply Z.div_pos; lia). rewrite Nat.add_comm. done.
  - destruct (@round_down_spec E n) as (j&->&Hj&Hjn); [lia|]. cbv [mbind run_bind lift expect].
    assert (0 < 2 ^ j) by (apply Z.pow_pos_nonneg; lia).
    rewrite IH by lia. unfold mmr_sizes. rewrite !Z.div_small, !Z.mod_small by lia. simpl.
    assert (j < Z.of_nat k).
    { destruct (decide (Z.of_nat k ≤ j)); [|lia]. pose proof (Z.pow_le_mono_r 2 (Z.of_nat k) j). lia. }
    rewrite (bits_desc_cons k (Z.to_nat j) n) by (rewrite ?Z2Nat.id; lia). by rewrite Z2Nat.id by lia.
Qed.

Definition sum_sizes (l : list Z) : Z := foldr Z.add 0 l.

Lemma sum_sizes_app l1 l2 : sum_sizes (l1 ++ l2) = sum_sizes l1 + sum_sizes l2.
Proof. unfold sum_sizes. induction l1 as [|x l1 IH]; simpl; lia. Qed.

Lemma sum_bits_desc k r : sum_sizes (bits_desc k r) = r mod 2 ^ Z.of_nat k.
Proof.
  induction k as [|k IH]; [by rewrite Z.mod_1_r|]. cbn [bits_desc].
  assert (0 < 2 ^ Z.of_nat k) by (apply Z.pow_pos_nonneg; lia).
  replace (Z.of_nat (S k)) with (Z.of_nat k + 1) by lia. rewrite Z.pow_add_r by lia. change (2 ^ 1) with 2.
  rewrite Z.rem_mul_r, <-Z.testbit_spec' by lia.
  destruct (Z.testbit r (Z.of_nat k)); unfold sum_sizes in *; cbn [foldr]; rewrite IH; simpl; lia.
Qed.

Lemma sum_mmr_sizes n k : 0 ≤ n → sum_sizes (mmr_sizes n k) = n.
Proof.
  intros Hn. assert (0 < 2 ^ Z.of_nat k) by (apply Z.pow_pos_nonneg; lia). unfold mmr_sizes.
  assert (∀ m x, sum_sizes (repeat x m) = Z.of_nat m * x) as Hrep.
  { intros m x. unfold sum_sizes. induction m as [|m IH]; [done|]. cbn [repeat foldr]. lia. }
  rewrite sum_sizes_app, Hrep, sum_bits_desc, Z.mod_mod by lia.
  rewrite Z2Nat.id by (apply Z.div_pos; lia). pose proof (Z.div_mod n (2 ^ Z.of_nat k)). lia.
Qed.

Lemma bits_desc_pow2 k r : Forall (λ s, ∃ j, (j < k)%nat ∧ s = 2 ^ Z.of_nat j) (bits_desc k r).
Proof.
  induction k as [|k IH]; cbn [bits_desc]; [done|].
  assert (Forall (λ s, ∃ j, (j < S k)%nat ∧ s = 2 ^ Z.of_nat j) (bits_desc k r)).
  { eapply Forall_impl; [exact IH|]. intros s (j&?&->). exists j. split; [lia|done]. }
  destruct (Z.testbit r (Z.of_nat k)); [|done]. constructor; [|done]. exists k. split; [lia|done].
Qed.

Lemma mmr_sizes_pow2 n k : Forall (λ s, ∃ j, (j ≤ k)%nat ∧ s = 2 ^ Z.of_nat j) (mmr_sizes n k).
Proof.
  apply Forall_app_2.
  - induction (Z.to_nat (n / 2 ^ Z.of_nat k)) as [|m IH]; [constructor|]. constructor; [by exists k|done].
  - eapply Forall_impl; [apply bits_desc_pow2|]. intros s (j&?&->). exists j. split; [lia|done].
Qed.

(** ** Lemmas: the leaf sets *)

Lemma leaf_sets_spec sizes shares : Forall (λ s, 0 ≤ s) sizes →
  sum_sizes sizes = Z.of_nat (length shares) →
  ∃ sets, leaf_sets sizes shares = Ok sets ∧ concat sets = shares ∧
    Forall2 (λ s set, Z.of_nat (length set) = s) sizes sets.
Proof.
  intros Hpos. revert shares; induction Hpos as [|s sizes Hs Hpos IH]; intros shares Hsum.
  { exists []. destruct shares; [|done]. split_and!; [done|done|constructor]. }
  unfold sum_sizes in Hsum. cbn [foldr] in Hsum. cbn [leaf_sets].
  assert (0 ≤ foldr Z.add 0 sizes) by (clear -Hpos; induction Hpos; simpl; lia).
  destruct (Nat.ltb_spec (length shares) (Z.to_nat s)); [lia|].
  destruct (IH (drop (Z.to_nat s) shares)) as (sets&->&Hcat&Hlen);
    [unfold sum_sizes; rewrite length_drop; lia|].
  cbv [mbind res_bind]. eexists. split; [done|]. simpl. rewrite Hcat, take_drop. split; [done|].
  constructor; [rewrite length_take; lia|done].
Qed.

Lemma subtree_roots_spec `{NmtExternalsSpec} ns sets :
  ∃ roots, mapM (subtree_root ns) sets = Ok roots ∧
    Forall2 (λ set root, ∃ h, nmt_root ((λ s, (sh_data s, ns)) <$> set) = Some h ∧ nh_wf h ∧
      root = nh_to_array h) sets roots.
Proof.
  induction sets as [|set sets (roots&Hroots&Hall)]; [exists []; by split|].
  destruct (nmt_root_sorted _ (same_ns_sorted sh_data ns set)) as (h&Hh&Hwf).
  exists (nh_to_array h :: roots). split; [|constructor; [by exists h|done]].
  assert (subtree_root ns set = Ok (nh_to_array h)) as Hset by (unfold subtree_root; by rewrite Hh).
  cbn [mapM]. rewrite Hset, Hroots. done.
Qed.

(** What a commitment is made of. *)
Lemma from_shares_spec `{DahExternals} `{NmtExternalsSpec} ns shares t :
  0 < t → Z.of_nat (length shares) ≤ 2 ^ 52 →
  ∃ sets roots, concat sets = shares ∧
    Forall2 (λ set root, ∃ h, nmt_root ((λ s, (sh_data s, ns)) <$> set) = Some h ∧ nh_wf h ∧
      root = nh_to_array h) sets roots ∧
    Commitment_from_shares ns shares t = Some (Ok (simple_hash_from_byte_vectors roots)) ∧
    ∃ k, (k ≤ 63)%nat ∧ subtree_width (E := TypesError) (Z.of_nat (length shares)) t
        = Some (Ok (2 ^ Z.of_nat k)) ∧
      Forall2 (λ s set, Z.of_nat (length set) = s) (mmr_sizes (Z.of_nat (length shares)) k) sets.
Proof.
  intros Ht Hlen. unfold Commitment_from_shares.
  destruct (@subtree_width_spec TypesError (Z.of_nat (length shares)) t) as (j&Hw&Hj&_); [lia|done|].
  rewrite <-(Z2Nat.id j) in Hw by lia. set (k := Z.to_nat j) in *.
  rewrite Hw. cbv [mbind run_bind]. unfold merkle_mountain_range_sizes.
  rewrite mmr_loop_spec by lia.
  destruct (leaf_sets_spec (mmr_sizes (Z.of_nat (length shares)) k) shares) as (sets&->&Hcat&Hsets).
  { eapply Forall_impl; [apply mmr_sizes_pow2|]. intros s (i&_&->). apply Z.pow_nonneg. lia. }
  { by rewrite sum_mmr_sizes by lia. }
  destruct (subtree_roots_spec ns sets) as (roots&Hroots&Hall). unfold lift.
  rewrite Hroots. exists sets, roots. split_and!; try done.
  exists k. split_and!; [lia|done|done].
Qed.

(** ** Lemmas: shares of a blob *)

(** The bytes of a share: namespace, info byte and what follows. *)
Definition sparse (ns : Namespace) (b : Z) (rest : bytes) : Share :=
  {| sh_data := ns ++ b :: rest; sh_is_parity := false |}.

Section Sparse.
Context (ns : Namespace) (Hns : length ns = NS_SIZE).

Lemma sparse_namespace b rest : share_namespace (sparse ns b rest) = ns.
Proof.
  unfold share_namespace, sparse. cbn [sh_data sh_is_parity negb]. by rewrite take_app_length' by done.
Qed.
Lemma sparse_info_byte b rest : share_info_byte (sparse ns b rest) = Some b.
Proof.
  unfold share_info_byte, sparse. cbn [sh_data sh_is_parity negb]. by apply list_lookup_middle.
Qed.
Lemma sparse_drop b rest n : drop (SHARE_SEQUENCE_LENGTH_OFFSET + n) (ns ++ b :: rest) = drop n rest.
Proof.
  change (b :: rest) with ([b] ++ rest). rewrite (assoc_L (++)).
  rewrite drop_app_ge by (rewrite length_app, Hns; unfold SHARE_SEQUENCE_LENGTH_OFFSET, SHARE_INFO_BYTES; simpl; lia).
  rewrite length_app, Hns. f_equal. unfold SHARE_SEQUENCE_LENGTH_OFFSET, SHARE_INFO_BYTES. simpl. lia.
Qed.
Lemma sparse_start rest : share_sequence_length (sparse ns 1 rest) = Some (be_value (take 4 rest)).
Proof.
  unfold share_sequence_length. rewrite sparse_info_byte. cbv [mbind option_bind].
  cbn [sh_data sparse]. change (InfoByte_is_sequence_start 1) with true. cbv iota.
  by rewrite <-(Nat.add_0_r SHARE_SEQUENCE_LENGTH_OFFSET), sparse_drop, drop_0.
Qed.
Lemma sparse_continuation rest : share_sequence_length (sparse ns 0 rest) = None.
Proof. unfold share_sequence_length. by rewrite sparse_info_byte. Qed.
Lemma sparse_payload_start rest : share_payload (sparse ns 1 rest) = Some (drop 4 rest).
Proof.
  unfold share_payload. rewrite sparse_info_byte. cbv [mbind option_bind]. cbn [sh_data sparse].
  change (InfoByte_is_sequence_start 1) with true. cbv iota. by rewrite sparse_drop.
Qed.
Lemma sparse_payload_continuation rest : share_payload (sparse ns 0 rest) = Some rest.
Proof.
  unfold share_payload. rewrite sparse_info_byte. cbv [mbind option_bind].
  cbn [sh_data sparse]. change (InfoByte_is_sequence_start 0) with false. cbv iota.
  by rewrite <-(Nat.add_0_r SHARE_SEQUENCE_LENGTH_OFFSET), sparse_drop, drop_0.
Qed.
End Sparse.

Lemma copy_resize {E} (hdr chunk : bytes) n : (length hdr + length chunk ≤ n)%nat →
  @copy_at E (length hdr) chunk (resize n hdr)
  = Ok (hdr ++ chunk ++ repeat 0 (n - length hdr - length chunk)).
Proof.
  intros Hle. unfold copy_at, resize. rewrite take_ge by lia. rewrite length_app, repeat_length.
  destruct (Nat.ltb_spec (length hdr + (n - length hdr)) (length hdr + length chunk)); [lia|].
  rewrite take_app_length, drop_app_ge by lia. do 3 f_equal.
  replace (n - length hdr)%nat with (length chunk + (n - length hdr - length chunk))%nat by lia.
  rewrite repeat_app, drop_app_length' by (rewrite repeat_length; lia). f_equal. lia.
Qed.

(** Room for data in a share. *)
Definition room (first : bool) : nat :=
  if first then FIRST_SPARSE_SHARE_CONTENT_SIZE else CONTINUATION_SPARSE_SHARE_CONTENT_SIZE.

(** What follows the info byte. *)
Definition share_body (data : bytes) (position : nat) : bytes :=
  let first := (position =? 0)%nat in
  let chunk := take (room first) (drop position data) in
  (if first then be_bytes 4 (Z.of_nat (length data)) else []) ++ chunk
    ++ repeat 0 (room first - length chunk).

Lemma build_share_spec ns data position :
  valid_namespace ns → are_bytes ns → are_bytes data → (position < length data)%nat →
  Z.of_nat (length data) ≤ u32_max →
  build_sparse_share_v0 ns data position
  = Ok (sparse ns (if (position =? 0)%nat then 1 else 0) (share_body data position),
        (position + Nat.min (room (position =? 0)%nat) (length data - position))%nat).
Proof.
  intros Hv Hnb Hdb Hpos Hlen. pose proof (valid_namespace_length ns Hv) as Hns.
  unfold build_sparse_share_v0. set (first := (position =? 0)%nat).
  assert (InfoByte_new SHARE_VERSION_ZERO first = Ok (if first then 1 else 0)) as -> by by destruct first.
  cbv [mbind res_bind]. set (ib := if first then 1 else 0).
  set (hdr := (ns ++ [ib]) ++ if first then be_bytes 4 (Z.of_nat (length data)) else []).
  assert ((if first then if u32_max <? Z.of_nat (length data) then Err (ShareSequenceLenExceeded (length data))
    else Ok ((ns ++ [ib]) ++ be_bytes 4 (Z.of_nat (length data))) else Ok (ns ++ [ib])) = Ok (E := TypesError) hdr)
    as ->.
  { unfold hdr. destruct (Z.ltb_spec u32_max (Z.of_nat (length data))); [lia|].
    destruct first; [done|]. by rewrite app_nil_r. }
  assert (length hdr = SHARE_SIZE - room first ∧ room first < SHARE_SIZE)%nat as [Hh Hr].
  { unfold hdr. rewrite !length_app, Hns. destruct first; [|simpl; split; [done|vm_compute; lia]].
    rewrite length_be_bytes. split; [done|vm_compute; lia]. }
  rewrite Hh. destruct (Nat.ltb_spec SHARE_SIZE (SHARE_SIZE - room first)); [lia|]. cbn [expect].
  replace (SHARE_SIZE - (SHARE_SIZE - room first))%nat with (room first) by lia.
  set (chunk := take (Nat.min (room first) (length data - position)) (drop position data)).
  assert (chunk = take (room first) (drop position data)) as Hchunk.
  { unfold chunk. rewrite <-length_drop. destruct (Nat.min_spec (room first) (length (drop position data)))
      as [[? ->]|[? ->]]; [done|]. by rewrite !take_ge by lia. }
  assert (length chunk = Nat.min (room first) (length data - position)) as Hcl
    by (rewrite Hchunk, length_take, length_drop; lia).
  rewrite <-Hh, copy_resize by lia.
  assert (hdr ++ chunk ++ repeat 0 (SHARE_SIZE - length hdr - length chunk)
    = ns ++ ib :: share_body data position) as ->.
  { unfold hdr, share_body. fold first. rewrite <-Hchunk.
    replace (SHARE_SIZE - length (_ ++ _) - length chunk)%nat with (room first - length chunk)%nat
      by (fold hdr; lia). by rewrite <-!(assoc_L (++)). }
  assert (are_bytes (ns ++ ib :: share_body data position)) as Hb.
  { apply Forall_app_2; [done|]. constructor; [unfold ib, is_byte; destruct first; lia|].
    unfold share_body. fold first. apply Forall_app_2; [destruct first; [apply are_bytes_be|constructor]|].
    apply Forall_app_2; [by apply Forall_take, Forall_drop|].
    apply Forall_forall. intros x Hx. apply list_elem_of_In, repeat_spec in Hx as ->. unfold is_byte. lia. }
  rewrite (proj2 (Share_from_raw_Ok _ (sparse ns ib (share_body data position)) Hb)); [done|].
  split; [|split; [by rewrite take_app_length' by done|done]].
  rewrite length_app, Hns. simpl length. unfold share_body. fold first.
  rewrite !length_app, repeat_length, <-Hchunk. destruct first.
  - rewrite length_be_bytes, Hcl. change (room true) with 478%nat in *.
    change NS_SIZE with 29%nat. change SHARE_SIZE with 512%nat. lia.
  - rewrite Hcl. change (room false) with 482%nat in *. simpl length.
    change NS_SIZE with 29%nat. change SHARE_SIZE with 512%nat. lia.
Qed.

Section BlobShares.
Context (ns : Namespace) (Hv : valid_namespace ns) (Hnb : are_bytes ns).
Context (data : bytes) (Hdb : are_bytes data) (Hlen : Z.of_nat (length data) ≤ u32_max).

(** A share that continues the blob. *)
Definition continuation (s : Share) : Prop := ∃ body, s = sparse ns 0 body.

Lemma split_loop_step fuel position : (position < length data)%nat →
  split_loop (S fuel) ns data position
  = shares ← split_loop fuel ns data
      (position + Nat.min (room (position =? 0)%nat) (length data - position))%nat;
    Some (Ok (sparse ns (if (position =? 0)%nat then 1 else 0) (share_body data position) :: shares)).
Proof.
  intros Hpos. cbn [split_loop]. destruct (Nat.ltb_spec position (length data)); [|lia].
  by rewrite build_share_spec by done.
Qed.

Lemma div_ceil_step x y : 0 < y → 0 < x → div_ceil x y = 1 + div_ceil (x - Z.min y x) y.
Proof.
  intros Hy Hx. unfold div_ceil. destruct (Z.le_gt_cases y x) as [Hle|Hgt].
  - rewrite Z.min_l by lia. assert (∃ z, x = z + 1 * y) as [z ->] by (exists (x - y); lia).
    replace (z + 1 * y - y) with z by lia. rewrite Z.mod_add, Z.div_add by lia.
    destruct (z mod y =? 0); lia.
  - rewrite Z.min_r by lia. rewrite Z.sub_diag, Z.mod_0_l, Z.div_0_l, Z.mod_small, Z.div_small by lia.
    destruct (Z.eqb_spec x 0); simpl; lia.
Qed.

Lemma split_rest_spec fuel position :
  (0 < position ≤ length data)%nat → (length data - position < fuel)%nat →
  ∃ shares, split_loop fuel ns data position = Some (Ok shares) ∧
    Forall continuation shares ∧
    Z.of_nat (length shares) = div_ceil (Z.of_nat (length data) - Z.of_nat position) 482 ∧
    ∀ acc rest, ∃ pad, reconstruct_loop ns 0 (Z.of_nat (length shares)) acc (shares ++ rest)
      = Ok (acc ++ drop position data ++ pad, rest).
Proof.
  revert position; induction fuel as [|fuel IH]; intros position Hpos Hf; [lia|].
  destruct (decide (position = length data)) as [->|Hne].
  { cbn [split_loop]. rewrite Nat.ltb_irrefl. exists []. rewrite Z.sub_diag, drop_all.
    split_and!; [done|constructor|done|]. intros acc rest. exists []. simpl. by destruct rest; rewrite app_nil_r. }
  rewrite split_loop_step by lia. destruct (Nat.eqb_spec position 0); [lia|].
  change (room false) with 482%nat. set (amount := Nat.min 482 (length data - position)).
  destruct (IH (position + amount)%nat) as (shares&->&Hcont&Hsl&Hrec); [lia..|]. cbv [mbind run_bind].
  eexists. split; [done|]. split; [constructor; [by eexists|done]|]. split.
  { cbn [length]. rewrite Nat2Z.inj_succ, Hsl.
    rewrite (div_ceil_step (Z.of_nat (length data) - Z.of_nat position)) by lia.
    rewrite <-Z.add_1_l. do 2 f_equal. lia. }
  intros acc rest. pose proof (valid_namespace_length ns Hv) as Hns.
  cbn [length app reconstruct_loop]. rewrite Nat2Z.inj_succ.
  destruct (Z.leb_spec (Z.succ (Z.of_nat (length shares))) 0); [lia|].
  rewrite sparse_namespace, bool_decide_true by done. cbn [negb].
  rewrite sparse_info_byte by done. cbv [mbind res_bind]. cbn [expect].
  change (InfoByte_version 0 =? 0) with true. cbn [negb].
  rewrite sparse_continuation, bool_decide_false by (done || by intros []).
  rewrite sparse_payload_continuation by done. cbn [expect].
  replace (Z.succ (Z.of_nat (length shares)) - 1) with (Z.of_nat (length shares)) by lia.
  destruct (Hrec (acc ++ share_body data position) rest) as [pad ->]. unfold share_body.
  destruct (Nat.eqb_spec position 0); [lia|]. change (room false) with 482%nat. cbn [app].
  destruct (decide (482 ≤ length data - position)%nat) as [Hfull|Hlast].
  - exists pad. do 2 f_equal. unfold amount. rewrite Nat.min_l by lia.
    rewrite length_take, length_drop, Nat.min_l, Nat.sub_diag by lia. cbn [repeat].
    rewrite app_nil_r, <-drop_drop, <-(assoc_L (++)). f_equal.
    by rewrite (assoc_L (++)), take_drop.
  - eexists. do 2 f_equal. unfold amount. rewrite Nat.min_r by lia.
    rewrite (take_ge (drop position data)) by (rewrite length_drop; lia).
    rewrite (drop_ge data (position + _)) by lia. rewrite <-!(assoc_L (++)). done.
Qed.

(** The whole blob: a first share and continuations, from which the data can be read. *)
Lemma split_spec : data ≠ [] →
  ∃ shares, split_blob_to_shares ns 0 data = Some (Ok (sparse ns 1 (share_body data 0) :: shares)) ∧
    Forall continuation shares ∧
    1 + Z.of_nat (length shares) = shares_needed_for_blob (Z.of_nat (length data)) ∧
    ∀ rest, ∃ pad, reconstruct_loop ns 0 (Z.of_nat (length shares)) (drop 4 (share_body data 0))
      (shares ++ rest) = Ok (data ++ pad, rest).
Proof.
  intros Hne. assert (0 < length data)%nat as Hpos by (destruct data; [done|simpl; lia]).
  unfold split_blob_to_shares. cbn [negb Z.eqb SHARE_VERSION_ZERO].
  rewrite split_loop_step by done. cbn [Nat.eqb]. change (room true) with 478%nat.
  rewrite Nat.sub_0_r, Nat.add_0_l. set (n := Nat.min 478 (length data)).
  destruct (split_rest_spec (length data) n) as (shares&->&Hcont&Hsl&Hrec); [lia..|].
  exists shares. cbv [mbind run_bind]. split; [done|]. split; [done|]. split.
  { unfold shares_needed_for_blob, checked_sub. change (Z.of_nat FIRST_SPARSE_SHARE_CONTENT_SIZE) with 478.
    change (Z.of_nat CONTINUATION_SPARSE_SHARE_CONTENT_SIZE) with 482. rewrite Hsl.
    destruct (Z.ltb_spec (Z.of_nat (length data)) 478).
    - replace (Z.of_nat (length data) - Z.of_nat n) with 0 by lia. done.
    - by replace (Z.of_nat n) with 478 by lia. }
  intros rest. destruct (Hrec (drop 4 (share_body data 0)) rest) as [pad ->].
  unfold share_body. cbn [Nat.eqb]. change (room true) with 478%nat. rewrite drop_0.
  rewrite drop_app_length' by by rewrite length_be_bytes.
  destruct (decide (478 ≤ length data)%nat) as [Hfull|Hlast].
  - exists pad. do 2 f_equal. rewrite length_take. unfold n. rewrite Nat.min_l, Nat.sub_diag by lia.
    cbn [repeat]. by rewrite app_nil_r, (assoc_L (++)), take_drop.
  - eexists. do 2 f_equal. unfold n. rewrite Nat.min_r, drop_all by lia.
    rewrite (take_ge data) by lia. cbn [app]. by rewrite <-(assoc_L (++)).
Qed.

Lemma first_share_length : data ≠ [] →
  share_sequence_length (sparse ns 1 (share_body data 0)) = Some (Z.of_nat (length data)).
Proof.
  intros Hne. rewrite sparse_start by by apply valid_namespace_length. unfold share_body. cbn [Nat.eqb].
  rewrite take_app_length' by by rewrite length_be_bytes.
  rewrite be_value_be_bytes, Z.mod_small; [done|]. unfold u32_max in Hlen. lia.
Qed.
End BlobShares.

(** The shares of a blob determine its data. *)
Lemma split_inj ns d1 d2 shares : valid_namespace ns → are_bytes ns → are_bytes d1 → are_bytes d2 →
  Z.of_nat (length d1) ≤ u32_max → Z.of_nat (length d2) ≤ u32_max →
  split_blob_to_shares ns 0 d1 = Some (Ok shares) →
  split_blob_to_shares ns 0 d2 = Some (Ok shares) → d1 = d2.
Proof.
  intros Hv Hnb Hb1 Hb2 Hl1 Hl2 H1 H2.
  destruct (decide (d1 = [])) as [->|Hn1], (decide (d2 = [])) as [->|Hn2]; [done|..].
  - injection H1 as <-. destruct (split_spec ns Hv Hnb d2 Hb2 Hl2 Hn2) as (?&E&_). congruence.
  - injection H2 as <-. destruct (split_spec ns Hv Hnb d1 Hb1 Hl1 Hn1) as (?&E&_). congruence.
  - destruct (split_spec ns Hv Hnb d1 Hb1 Hl1 Hn1) as (s1&E1&_&_&R1).
    destruct (split_spec ns Hv Hnb d2 Hb2 Hl2 Hn2) as (s2&E2&_&_&R2).
    rewrite E1 in H1. rewrite E2 in H2. injection H1 as <-.
    assert (sparse ns 1 (share_body d2 0) :: s2 = sparse ns 1 (share_body d1 0) :: s1) as Hsh by congruence.
    clear H2. pose proof (f_equal (fmap sh_data ∘ head) Hsh) as Hfirst. apply (f_equal tail) in Hsh.
    cbn in Hfirst, Hsh. subst s2. injection Hfirst as Hfirst.
    pose proof (first_share_length ns Hv d1 Hl1 Hn1) as L1.
    pose proof (first_share_length ns Hv d2 Hl2 Hn2) as L2.
    assert (share_body d2 0 = share_body d1 0) as Hbody by (apply app_inv_head in Hfirst; exact (f_equal tail Hfirst)).
    destruct (R1 []) as [p1 R1']. destruct (R2 []) as [p2 R2'].
    rewrite Hbody in *. rewrite L1 in L2. rewrite R1' in R2'.
    injection L2 as L. apply Nat2Z.inj in L. injection R2' as R.
    apply (f_equal (take (length d1))) in R.
    by rewrite take_app_length, L, take_app_length in R.
Qed.

(** ** Properties *)

(** The namespaces and data of blobs that users submit. *)
Definition blob_input (ns : Namespace) (data : bytes) : Prop :=
  valid_namespace ns ∧ are_bytes ns ∧ is_reserved ns = false ∧ are_bytes data ∧
  Z.of_nat (length data) ≤ u32_max.

Lemma shares_count_bound n : 0 ≤ n ≤ u32_max → shares_needed_for_blob n ≤ 2 ^ 52.
Proof.
  intros Hn. unfold shares_needed_for_blob, checked_sub, div_ceil.
  change (Z.of_nat FIRST_SPARSE_SHARE_CONTENT_SIZE) with 478.
  change (Z.of_nat CONTINUATION_SPARSE_SHARE_CONTENT_SIZE) with 482.
  unfold u32_max in Hn. destruct (Z.ltb_spec n 478); [lia|].
  pose proof (Z.div_le_upper_bound (n - 478) 482 n ltac:(lia) ltac:(lia)). case_ifs; lia.
Qed.

Section Properties.
Context `{DahExternals} `{NmtExternals} `{!NmtExternalsSpec}.

(** The commitment of every such blob exists. *)
Lemma from_blob_spec ns data v : blob_input ns data →
  ∃ shares sets roots, split_blob_to_shares ns 0 data = Some (Ok shares) ∧
    concat sets = shares ∧
    Forall2 (λ set root, ∃ h, nmt_root ((λ s, (sh_data s, ns)) <$> set) = Some h ∧ nh_wf h ∧
      root = nh_to_array h) sets roots ∧
    Commitment_from_blob ns data 0 (subtree_root_threshold v)
      = Some (Ok (simple_hash_from_byte_vectors roots)).
Proof.
  intros (Hv&Hnb&_&Hdb&Hlen).
  assert (∃ shares, split_blob_to_shares ns 0 data = Some (Ok shares) ∧ Z.of_nat (length shares) ≤ 2 ^ 52)
    as (shares&Hsplit&Hcount).
  { destruct (decide (data = [])) as [->|Hne]; [by exists []|].
    destruct (split_spec ns Hv Hnb data Hdb Hlen Hne) as (shares&Hs&_&Hc&_).
    eexists. split; [exact Hs|]. cbn [length].
    pose proof (shares_count_bound (Z.of_nat (length data))). lia. }
  destruct (from_shares_spec ns shares (subtree_root_threshold v)) as (sets&roots&Hcat&Hroots&Hc&_);
    [by destruct v|done|].
  exists shares, sets, roots. split_and!; try done. unfold Commitment_from_blob. by rewrite Hsplit.
Qed.

Lemma Blob_new_spec ns data v : blob_input ns data →
  ∃ b, Blob_new ns data v = Some (Ok b) ∧ b_namespace b = ns ∧ b_data b = data ∧ b_share_version b = 0.
Proof.
  intros Hin. destruct (from_blob_spec ns data v Hin) as (_&_&roots&_&_&_&Hc).
  unfold Blob_new. rewrite Hc. eexists. split; [done|]. done.
Qed.

Lemma reconstruct_shares_spec ns data v : blob_input ns data → data ≠ [] →
  ∃ b first shares, Blob_new ns data v = Some (Ok b) ∧
    Blob_to_shares b = Some (Ok (first :: shares)) ∧
    is_Some (share_sequence_length first) ∧
    Z.of_nat (length (first :: shares)) = Blob_shares_len b ∧
    (∀ s, s ∈ first :: shares → share_namespace s = ns) ∧
    ∀ rest, reconstruct_iter (first :: shares ++ rest) v = Some (Ok (b, rest)).
Proof.
  intros Hin Hne. pose proof Hin as (Hv&Hnb&Hres&Hdb&Hlen).
  destruct (Blob_new_spec ns data v Hin) as (b&Hnew&<-&<-&Hver).
  destruct (split_spec _ Hv Hnb _ Hdb Hlen Hne) as (shares&Hs&Hcont&Hc&Hrec).
  pose proof (first_share_length _ Hv _ Hlen Hne) as Hfirst.
  pose proof (valid_namespace_length _ Hv) as Hns.
  eexists _, _, _. split; [exact Hnew|]. split; [unfold Blob_to_shares; rewrite Hver; exact Hs|].
  split; [by eexists|]. split; [unfold Blob_shares_len; rewrite <-Hc; cbn [length]; lia|]. split.
  { intros s [->|Hin']%elem_of_cons; [by apply sparse_namespace|].
    rewrite Forall_forall in Hcont. destruct (Hcont _ Hin') as [body ->]. by apply sparse_namespace. }
  intros rest. unfold reconstruct_iter. rewrite Hfirst. cbn [ok_or lift]. unfold lift.
  cbv [mbind run_bind]. rewrite sparse_namespace, Hres by done. rewrite sparse_info_byte by done.
  cbn [expect]. rewrite sparse_payload_start by done. cbn [expect]. change (InfoByte_version 1) with 0.
  replace (shares_needed_for_blob _ - 1) with (Z.of_nat (length shares)) by lia.
  destruct (Hrec rest) as [pad ->]. rewrite Nat2Z.id, take_app_length. by rewrite Hnew.
Qed.

(** C25. A blob survives being split into shares: for data of at least one and at most
    [u32::MAX] bytes in a namespace that is not reserved, [Blob::new] and [to_shares]
    succeed, [shares_len] is the number of shares, all shares are in the blob's namespace,
    and [reconstruct] of these shares, whatever follows them, is the blob itself. *)
Theorem blob_shares_roundtrip ns data v : blob_input ns data → data ≠ [] →
  ∃ b shares, Blob_new ns data v = Some (Ok b) ∧ b_namespace b = ns ∧ b_data b = data ∧
    Blob_to_shares b = Some (Ok shares) ∧ Z.of_nat (length shares) = Blob_shares_len b ∧
    (∀ s, s ∈ shares → share_namespace s = ns) ∧
    ∀ rest, Blob_reconstruct (shares ++ rest) v = Some (Ok b).
Proof.
  intros Hin Hne. destruct (reconstruct_shares_spec ns data v Hin Hne)
    as (b&first&shares&Hnew&Hsh&_&Hlen&Hns&Hrec).
  destruct (Blob_new_spec ns data v Hin) as (b'&Hnew'&?&?&_). rewrite Hnew in Hnew'. injection Hnew' as <-.
  exists b, (first :: shares). split_and!; try done.
  intros rest. unfold Blob_reconstruct. cbn [app]. by rewrite Hrec.
Qed.

(** Shares that are not the start of a blob, such as padding. *)
Definition no_start (s : Share) : Prop := share_sequence_length s = None.

(** The shares of blobs one after the other, with other shares in between. *)
Inductive layout (v : AppVersion) : list Blob → list Share → Prop :=
| layout_end junk : Forall no_start junk → layout v [] junk
| layout_blob junk b shares blobs rest : Forall no_start junk →
    blob_input (b_namespace b) (b_data b) → b_data b ≠ [] →
    Blob_new (b_namespace b) (b_data b) v = Some (Ok b) →
    Blob_to_shares b = Some (Ok shares) →
    layout v blobs rest → layout v (b :: blobs) (junk ++ shares ++ rest).

Lemma find_start_skip junk l : Forall no_start junk → find_start (junk ++ l) = find_start l.
Proof.
  induction 1 as [|s junk Hs _ IH]; [done|]. cbn [find_start app].
  rewrite bool_decide_false; [done|]. rewrite Hs. by intros [].
Qed.

(** [reconstruct_all] finds all the blobs of a block: of shares that are, outside the
    reserved namespaces, the shares of some blobs in order with arbitrary shares in between
    that start no sequence, it returns exactly these blobs, commitments included. *)
Theorem reconstruct_all_correct v blobs l :
  layout v blobs (filter (λ s, is_reserved (share_namespace s) = false) l) →
  Blob_reconstruct_all l v = Some (Ok blobs).
Proof.
  unfold Blob_reconstruct_all. intros Hl. set (shares := filter _ _) in *.
  assert (∀ fuel, (length shares < fuel)%nat → reconstruct_all_loop fuel shares v = Some (Ok blobs))
    as Hloop; [|apply Hloop; lia].
  generalize dependent shares. intros shares Hl. induction Hl as [junk Hj|junk b sh blobs rest Hj Hin Hne Hnew Hsh _ IH];
    intros [|fuel] Hf; try lia; cbn [reconstruct_all_loop].
  - rewrite <-(app_nil_r junk), find_start_skip by done. done.
  - destruct (reconstruct_shares_spec _ _ v Hin Hne) as (b'&first&shares&Hnew'&Hsh'&Hfirst&_&_&Hrec).
    rewrite Hnew in Hnew'. injection Hnew' as <-. rewrite Hsh in Hsh'. injection Hsh' as ->.
    rewrite find_start_skip by done. cbn [app find_start]. rewrite bool_decide_true by done.
    rewrite Hrec. cbv [mbind run_bind]. rewrite IH; [done|].
    rewrite !length_app in Hf. simpl in Hf. lia.
Qed.

Lemma Blob_validate_Ok b v : Blob_validate b v = Some (Ok tt) →
  b_share_version b = 0 ∧
  Commitment_from_blob (b_namespace b) (b_data b) 0 (subtree_root_threshold v)
    = Some (Ok (b_commitment b)).
Proof.
  unfold Blob_validate. intros Hval.
  assert (b_share_version b = 0) as Hver.
  { unfold Commitment_from_blob, split_blob_to_shares, SHARE_VERSION_ZERO in Hval.
    destruct (Z.eqb_spec (b_share_version b) 0); [done|]. cbv [negb mbind run_bind] in Hval. done. }
  rewrite Hver in Hval. split; [done|]. cbv [mbind run_bind] in Hval. repeat case_match; simplify_eq.
  case_bool_decide; [|done]. by f_equal; f_equal.
Qed.

Lemma split_no_parity ns data shares :
  split_blob_to_shares ns 0 data = Some (Ok shares) → blob_input ns data →
  Forall (λ s, sh_is_parity s = false) shares.
Proof.
  intros Hs (Hv&Hnb&_&Hdb&Hlen). destruct (decide (data = [])) as [->|Hne]; [by injection Hs as <-|].
  destruct (split_spec ns Hv Hnb data Hdb Hlen Hne) as (tl&E&Hc&_). rewrite Hs in E. injection E as ->.
  constructor; [done|]. eapply Forall_impl; [exact Hc|]. by intros s [body ->].
Qed.

Lemma shares_data_inj shares shares' :
  Forall (λ s, sh_is_parity s = false) shares → Forall (λ s, sh_is_parity s = false) shares' →
  sh_data <$> shares = sh_data <$> shares' → shares = shares'.
Proof.
  intros Hp Hp' Heq. revert shares' Hp' Heq. induction Hp as [|[d p] l Hp _ IH]; intros [|[d' p'] l'] Hp' Heq; try done.
  apply Forall_cons in Hp' as [Hp1 Hp2]. simpl in *. injection Heq as -> Heq. subst. by rewrite (IH l').
Qed.

Lemma sets_data_eq `{!NmtCollisionFree} ns sets1 sets2 roots :
  Forall2 (λ set root, ∃ h, nmt_root ((λ s, (sh_data s, ns)) <$> set) = Some h ∧ nh_wf h ∧
    root = nh_to_array h) sets1 roots →
  Forall2 (λ set root, ∃ h, nmt_root ((λ s, (sh_data s, ns)) <$> set) = Some h ∧ nh_wf h ∧
    root = nh_to_array h) sets2 roots →
  sh_data <$> concat sets1 = sh_data <$> concat sets2.
Proof.
  intros Hs1. revert sets2; induction Hs1 as [|set1 root sets1 roots (h1&Hr1&Hw1&->) _ IH];
    intros sets2 Hs2; inversion Hs2 as [|set2 root2 sets2' roots2 (h2&Hr2&Hw2&Heq) Hs2']; subst; [done|].
  apply nh_to_array_inj in Heq; [|done..]. subst h2. simpl. rewrite !fmap_app, (IH sets2' Hs2'). f_equal.
  pose proof (nmt_root_inj _ _ _ _ Hr1 Hr2 eq_refl) as Hsets.
  apply (f_equal (fmap fst)) in Hsets. by rewrite <-!list_fmap_compose in Hsets.
Qed.

(** C26. The commitment binds the data: a new blob passes validation, and two blobs in one
    namespace that pass validation and have the same commitment carry the same data (also
    under different application versions), when hashes do not collide. *)
Theorem blob_commitment_binding
    `{!DahExternalsSpec, !CollisionFree bytes, !DomainSeparated bytes, !NmtCollisionFree} b1 b2 v1 v2 :
  blob_input (b_namespace b1) (b_data b1) → blob_input (b_namespace b2) (b_data b2) →
  (∀ b, Blob_new (b_namespace b1) (b_data b1) v1 = Some (Ok b) → Blob_validate b v1 = Some (Ok tt)) ∧
  (Blob_validate b1 v1 = Some (Ok tt) → Blob_validate b2 v2 = Some (Ok tt) →
   b_namespace b1 = b_namespace b2 → b_commitment b1 = b_commitment b2 → b_data b1 = b_data b2).
Proof.
  intros Hin1 Hin2. split.
  { intros b. unfold Blob_new, Blob_validate. destruct (from_blob_spec _ _ v1 Hin1) as (_&_&roots&_&_&_&Hc).
    rewrite Hc. cbv [mbind run_bind]. intros [= <-]. cbn [b_namespace b_data b_share_version b_commitment].
    rewrite Hc. by rewrite bool_decide_true. }
  intros [_ Hval1]%Blob_validate_Ok [_ Hval2]%Blob_validate_Ok Hns Hcom. rewrite <-Hns in *.
  destruct (from_blob_spec _ _ v1 Hin1) as (sh1&sets1&roots1&Hs1&Hcat1&Hr1&Hc1).
  destruct (from_blob_spec _ _ v2 Hin2) as (sh2&sets2&roots2&Hs2&Hcat2&Hr2&Hc2).
  assert (simple_hash_from_byte_vectors roots1 = simple_hash_from_byte_vectors roots2) as Heq by congruence.
  destruct (merkle_tree_exists roots1) as [t1 Ht1]. destruct (merkle_tree_exists roots2) as [t2 Ht2].
  rewrite (simple_hash_root _ _ Ht1), (simple_hash_root _ _ Ht2) in Heq.
  apply (merkle_root_binds _ _ _ _ Ht1 Ht2) in Heq. subst roots2.
  pose proof (sets_data_eq _ _ _ _ Hr1 Hr2) as Hdata. rewrite Hcat1, Hcat2 in Hdata.
  pose proof (shares_data_inj _ _ (split_no_parity _ _ _ Hs1 Hin1) (split_no_parity _ _ _ Hs2 Hin2) Hdata)
    as ->.
  destruct Hin1 as (Hv&Hnb&_&Hdb1&Hl1), Hin2 as (_&_&_&Hdb2&Hl2).
  by apply (split_inj (b_namespace b1) _ _ sh2).
Qed.
End Properties.

Lemma length_bits_desc k r : (length (bits_desc k r) ≤ k)%nat.
Proof. induction k as [|k IH]; cbn [bits_desc]; [done|]. destruct (Z.testbit _ _); simpl; lia. Qed.

(** The sizes do not increase. *)
Lemma bits_desc_sorted k r : StronglySorted Z.ge (bits_desc k r) ∧ Forall (λ s, s ≤ 2 ^ Z.of_nat k) (bits_desc k r).
Proof.
  induction k as [|k [IHs IHb]]; cbn [bits_desc]; [by split; constructor|].
  assert (2 ^ Z.of_nat k ≤ 2 ^ Z.of_nat (S k)) as Hle by (apply Z.pow_le_mono_r; lia).
  assert (Forall (λ s, s ≤ 2 ^ Z.of_nat (S k)) (bits_desc k r)) as Hb
    by (eapply Forall_impl; [exact IHb|]; cbn; lia).
  destruct (Z.testbit _ _); [|done]. split; constructor; try done.
  eapply Forall_impl; [exact IHb|]. cbn. lia.
Qed.
Lemma mmr_sizes_sorted n k : StronglySorted Z.ge (mmr_sizes n k).
Proof.
  unfold mmr_sizes. destruct (bits_desc_sorted k (n mod 2 ^ Z.of_nat k)) as [Hs Hb].
  induction (Z.to_nat _) as [|j IH]; [done|]. cbn [repeat app]. constructor; [done|]. apply Forall_app. split.
  - apply Forall_forall. intros x Hx%list_elem_of_In%repeat_spec. lia.
  - eapply Forall_impl; [exact Hb|]. cbn. lia.
Qed.

(** C33. The subtrees of a commitment: for up to 2^52 shares (the numbers whose square root the
    code computes exactly in double precision) and any positive threshold the width is a power
    of two, the lesser of the least ones that reach the number of shares divided by the
    threshold (rounded up) and its square root (rounded up); the loop for the sizes ends and
    computes the reference (full trees, then the binary digits of the rest); the sizes are
    powers of two up to the width, do not increase, add up to the number of shares, and there
    are at most [n / width + log2 width] of them. *)
Theorem commitment_sizes_correct {E} n t : 0 ≤ n ≤ 2 ^ 52 → 0 < t →
  ∃ k : nat, @subtree_width E n t = Some (Ok (2 ^ Z.of_nat k)) ∧
    (∃ a b, least_pow2 (div_ceil n t) a ∧ least_pow2 (Z.sqrt_up n) b ∧ Z.of_nat k = Z.min a b) ∧
    @merkle_mountain_range_sizes E n (2 ^ Z.of_nat k) = Some (Ok (mmr_sizes n k)) ∧
    Forall (λ s, ∃ j, (j ≤ k)%nat ∧ s = 2 ^ Z.of_nat j) (mmr_sizes n k) ∧
    StronglySorted Z.ge (mmr_sizes n k) ∧
    sum_sizes (mmr_sizes n k) = n ∧
    Z.of_nat (length (mmr_sizes n k)) ≤ n / 2 ^ Z.of_nat k + Z.of_nat k.
Proof.
  intros Hn Ht. destruct (@subtree_width_spec E n t Hn Ht) as (j&Hw&Hj&Hmin).
  exists (Z.to_nat j). rewrite !Z2Nat.id by lia. split_and!; [done|done| | | | |].
  - rewrite <-(Z2Nat.id j) at 1 by lia. apply mmr_loop_spec; lia.
  - apply mmr_sizes_pow2.
  - apply mmr_sizes_sorted.
  - apply sum_mmr_sizes. lia.
  - unfold mmr_sizes. rewrite length_app, repeat_length.
    pose proof (length_bits_desc (Z.to_nat j) (n mod 2 ^ Z.of_nat (Z.to_nat j))).
    rewrite Z2Nat.id in * by lia. assert (0 ≤ n / 2 ^ j) by (apply Z.div_pos; [lia|apply Z.pow_pos_nonneg; lia]). lia.
Qed.

(** [round_up_to_power_of_2] returns the least power of two that is at least its
    argument (not strictly greater, as its comment says) up to 2^63; beyond, it runs for
    ever instead of returning [None], since [checked_shl] does not detect that the bit is
    shifted out. *)
Theorem round_up_to_power_of_2_exact {E} x :
  (x ≤ 2 ^ 63 → ∃ j, @round_up_to_power_of_2 E x = Some (Ok (Some (2 ^ j))) ∧ least_pow2 x j) ∧
  (2 ^ 63 < x → ∀ fuel, @round_up_loop E fuel 1 x = None).
Proof.
  split; [apply round_up_spec|]. intros Hx fuel. apply (round_up_loop_diverges fuel 0); lia.
Qed.

(** ** Witnesses *)

#[local] Existing Instances toy_MerkleHash toy_CollisionFree toy_DomainSeparated toy_DahExternals
  toy_DahExternalsSpec toy_NmtExternals toy_NmtExternalsSpec toy_NmtCollisionFree.

Definition toy_ns : Namespace := const_v0 [0;0;0;0;0;0;0;0;1;7].
Lemma toy_ns_bytes : are_bytes toy_ns.
Proof. unfold are_bytes, is_byte. repeat constructor; lia. Qed.
Lemma toy_ns_valid : valid_namespace toy_ns.
Proof. left. exists [0;0;0;0;0;0;0;0;1;7]. split; reflexivity. Qed.
Lemma toy_input n : Z.of_nat n ≤ u32_max → blob_input toy_ns (repeat 7 n).
Proof.
  intros Hn. split_and!; [exact toy_ns_valid|exact toy_ns_bytes|reflexivity| |by rewrite repeat_length].
  unfold are_bytes, is_byte. clear. induction n; simpl; constructor; [lia|done].
Qed.

(** Two blobs: of one share, and of two. *)
Definition toy_blob (n : nat) : Blob :=
  match Blob_new toy_ns (repeat 7 n) V3 with
  | Some (Ok b) => b
  | _ => {| b_namespace := []; b_data := []; b_share_version := 0; b_commitment := []; b_index := None |}
  end.
Definition toy_shares (n : nat) : list Share :=
  match Blob_to_shares (toy_blob n) with Some (Ok l) => l | _ => [] end.
Lemma toy_blob_spec n : Z.of_nat n ≤ u32_max → Blob_new toy_ns (repeat 7 n) V3 = Some (Ok (toy_blob n)) ∧
  b_namespace (toy_blob n) = toy_ns ∧ b_data (toy_blob n) = repeat 7 n ∧
  ((0 < n)%nat → Blob_to_shares (toy_blob n) = Some (Ok (toy_shares n))).
Proof.
  intros Hn. destruct (Blob_new_spec toy_ns (repeat 7 n) V3 (toy_input n Hn)) as (b&Hnew&Hns&Hd&_).
  assert (toy_blob n = b) as Heq by (unfold toy_blob; by rewrite Hnew).
  rewrite Heq, Hnew. split_and!; [done..|]. intros Hpos.
  destruct (reconstruct_shares_spec toy_ns (repeat 7 n) V3 (toy_input n Hn)) as (b'&s&l&Hnew'&Hsh&_);
    [by destruct n; [lia|]|].
  assert (b' = b) as -> by congruence. unfold toy_shares. by rewrite Heq, Hsh.
Qed.

Lemma blob_shares_roundtrip_witness :
  ∃ b shares, Blob_new toy_ns (repeat 7 600) V3 = Some (Ok b) ∧ Blob_to_shares b = Some (Ok shares) ∧
    Blob_reconstruct (shares ++ toy_shares 3) V3 = Some (Ok b).
Proof.
  destruct (blob_shares_roundtrip toy_ns (repeat 7 600) V3) as (b&shares&Hnew&_&_&Hsh&_&_&Hrec).
  - apply toy_input. vm_compute. discriminate.
  - discriminate.
  - exists b, shares. split; [exact Hnew|]. split; [exact Hsh|]. apply Hrec.
Defined.

(** Padding of the namespace between the blobs, and a reserved share after them. *)
Definition toy_padding (ns : Namespace) (b : Z) : Share := sparse ns b (repeat 0 482).
Definition toy_block : list Share :=
  toy_shares 600 ++ [toy_padding toy_ns 0] ++ toy_shares 3 ++ [toy_padding TAIL_PADDING 1].

Lemma toy_block_filtered : filter (λ s, is_reserved (share_namespace s) = false) toy_block
  = [] ++ toy_shares 600 ++ [toy_padding toy_ns 0] ++ toy_shares 3 ++ [].
Proof. vm_compute. reflexivity. Qed.

Lemma reconstruct_all_correct_witness :
  Blob_reconstruct_all toy_block V3 = Some (Ok [toy_blob 600; toy_blob 3]).
Proof.
  apply reconstruct_all_correct. rewrite toy_block_filtered.
  destruct (toy_blob_spec 600) as (Hn1&Hns1&Hd1&Hs1); [vm_compute; discriminate|].
  destruct (toy_blob_spec 3) as (Hn2&Hns2&Hd2&Hs2); [vm_compute; discriminate|].
  apply layout_blob; [constructor| | | |apply Hs1; lia|apply (layout_blob V3 [toy_padding toy_ns 0])].
  - rewrite Hns1, Hd1. apply toy_input. vm_compute. discriminate.
  - rewrite Hd1. discriminate.
  - rewrite Hns1, Hd1. exact Hn1.
  - constructor; [reflexivity|constructor].
  - rewrite Hns2, Hd2. apply toy_input. vm_compute. discriminate.
  - rewrite Hd2. discriminate.
  - rewrite Hns2, Hd2. exact Hn2.
  - apply Hs2. lia.
  - apply layout_end. constructor.
Defined.

(** The same blob as retrieved from the chain. *)
Definition toy_retrieved : Blob :=
  {| b_namespace := toy_ns; b_data := repeat 7 3; b_share_version := 0;
     b_commitment := b_commitment (toy_blob 3); b_index := Some 9 |}.
Lemma toy_retrieved_input : blob_input (b_namespace (toy_blob 3)) (b_data (toy_blob 3)).
Proof.
  destruct (toy_blob_spec 3) as (_&->&->&_); [vm_compute; discriminate|].
  apply toy_input. vm_compute. discriminate.
Qed.

Lemma blob_commitment_binding_witness : b_data (toy_blob 3) = b_data toy_retrieved.
Proof.
  apply (proj2 (blob_commitment_binding (toy_blob 3) toy_retrieved V3 V1 toy_retrieved_input
    (toy_input 3 ltac:(vm_compute; discriminate)))); vm_compute; reflexivity.
Defined.

Lemma commitment_sizes_correct_witness :
  @subtree_width TypesError 300 64 = Some (Ok 8) ∧
  ∃ k : nat, @subtree_width TypesError 300 64 = Some (Ok (2 ^ Z.of_nat k)) ∧
    sum_sizes (mmr_sizes 300 k) = 300.
Proof.
  split; [vm_compute; reflexivity|].
  destruct (@commitment_sizes_correct TypesError 300 64) as (k&Hw&_&_&_&_&Hsum&_); [lia|lia|].
  exists k. split; [exact Hw|exact Hsum].
Defined.

Lemma round_up_to_power_of_2_exact_witness :
  (∃ j, @round_up_to_power_of_2 TypesError 5 = Some (Ok (Some (2 ^ j))) ∧ least_pow2 5 j) ∧
  @round_up_loop TypesError 1000 1 u64_max = None.
Proof.
  split; [apply (round_up_to_power_of_2_exact 5); lia|].
  apply (round_up_to_power_of_2_exact u64_max). unfold u64_max. lia.
Defined.
