(* ===== verification/Eds.v ===== *)
(** * The extended data square (src/types/src/eds.rs, and [from_eds] of
    src/types/src/data_availability_header.rs)

    A block's shares in a square whose first quadrant is the original data and whose other
    quadrants are parity.  The erasure code is the external crate leopard-codec: the class
    [LeopardCodec].  [f64::sqrt] of a number of shares, cast back to an integer, is its
    integer square root (up to 2^52: [f64_sqrt_trunc_exact] of Float64.v), so [Z.sqrt] is used. *)

From S2P Require Import Prelude Consts Nmt Merkle Dah Share.

(** ** Data *)

Record ExtendedDataSquare := {
  eds_data_square : list Share;
  eds_codec : bytes;
  eds_square_width : Z
}.

(** [leopard_codec::encode]: replaces the shards from [data_shards] on by parity; [None] is
    its error. *)
Class LeopardCodec := leopard_encode : list bytes → nat → option (list bytes).

(** ** Coordinates *)

Definition is_ods_square (row column square_width : Z) : bool :=
  let ods_width := square_width / 2 in (row <? ods_width) && (column <? ods_width).
Definition flatten_index (row col square_width : Z) : nat := Z.to_nat (row * square_width + col).

(** [(0..n)] on [u16]. *)
Definition indexes (n : Z) : list Z := seqZ 0 n.

(** ** Construction *)

(** [u16::count_ones]. *)
Definition count_ones (x : Z) : nat := length (filter (λ i, Z.testbit x i = true) (seqZ 0 16)).

(** The closure [check_share] up to the namespace order. *)
Definition square_share (shares : list bytes) (square_width row col : Z) : res TypesError Share :=
  data ← vec_index shares (flatten_index row col square_width);
  if is_ods_square row col square_width then Share_from_raw data else Share_parity data.

(** The inner loops: the shares at the coordinates, in namespace order. *)
Fixpoint check_axis (shares : list bytes) (square_width : Z) (coords : list (Z * Z))
    (prev_ns : option Namespace) : res TypesError (list Share) :=
  match coords with
  | [] => Ok []
  | (row, col) :: coords =>
      share ← square_share shares square_width row col;
      if match prev_ns with
         | Some prev_ns => bytes_lt (share_namespace share) prev_ns
         | None => false
         end then Err EValidation else
      rest ← check_axis shares square_width coords (Some (share_namespace share));
      Ok (share :: rest)
  end.

Definition axis_coords (axis : AxisType) (square_width index : Z) : list (Z * Z) :=
  (λ i, match axis with Row => (index, i) | Col => (i, index) end) <$> indexes square_width.

Definition eds_new (shares : list bytes) (codec : bytes) (app_version : AppVersion)
    : res TypesError ExtendedDataSquare :=
  let min_shares := (MIN_EXTENDED_SQUARE_WIDTH * MIN_EXTENDED_SQUARE_WIDTH)%nat in
  let max_width := max_extended_square_width app_version in
  let max_shares := (max_width * max_width)%nat in
  if (length shares <? min_shares)%nat then Err EValidation else
  if (max_shares <? length shares)%nat then Err EValidation else
  let square_width := Z.sqrt (Z.of_nat (length shares)) in
  if negb (square_width * square_width =? Z.of_nat (length shares)) then Err EdsInvalidDimentions else
  if u16_max <? square_width then Err EdsInvalidDimentions else
  if negb (count_ones square_width =? 1)%nat then Err EdsInvalidDimentions else
  _ ← mapM (λ col, check_axis shares square_width (axis_coords Col square_width col) None)
        (indexes square_width);
  data_square ← mapM (λ row, check_axis shares square_width (axis_coords Row square_width row) None)
                  (indexes square_width);
  Ok {| eds_data_square := concat data_square; eds_codec := codec; eds_square_width := square_width |}.

(** ** Access *)

Definition eds_share (eds : ExtendedDataSquare) (row column : Z) : res TypesError Share :=
  let index := Z.to_nat (row * eds_square_width eds + column) in
  ok_or (eds_data_square eds !! index) (EdsIndexOutOfRange row column).

Definition eds_axis (eds : ExtendedDataSquare) (axis : AxisType) (index : Z)
    : res TypesError (list Share) :=
  mapM (λ '(row, col), eds_share eds row col) (axis_coords axis (eds_square_width eds) index).
Definition eds_row (eds : ExtendedDataSquare) (index : Z) : res TypesError (list Share) :=
  eds_axis eds Row index.
Definition eds_column (eds : ExtendedDataSquare) (index : Z) : res TypesError (list Share) :=
  eds_axis eds Col index.

(** The leaf of a share: its bytes and its namespace. *)
Definition share_leaf (s : Share) : bytes * Namespace := (sh_data s, share_namespace s).

Section Nmt.
Context `{NmtExternals}.

(** The loop that pushes the shares; the tree is the list of its leaves, and a push fails
    when the longer tree has no root. *)
Fixpoint push_leaves (leaves : list (bytes * Namespace)) (shares : list (res TypesError Share))
    : res TypesError (list (bytes * Namespace)) :=
  match shares with
  | [] => Ok leaves
  | share :: shares =>
      share ← share;
      _ ← ok_or (nmt_root (leaves ++ [share_leaf share])) ENmt;
      push_leaves (leaves ++ [share_leaf share]) shares
  end.

Definition eds_axis_nmt (eds : ExtendedDataSquare) (axis : AxisType) (index : Z)
    : res TypesError (list (bytes * Namespace)) :=
  push_leaves [] ((λ '(row, col), eds_share eds row col)
                    <$> axis_coords axis (eds_square_width eds) index).

(** [row_nmt(i).expect().root()]; the root of a tree that was built exists. *)
Definition axis_root (eds : ExtendedDataSquare) (axis : AxisType) (index : Z)
    : res TypesError NamespacedHash :=
  leaves ← expect_ok (eds_axis_nmt eds axis index);
  expect (nmt_root leaves).

Definition dah_from_eds (eds : ExtendedDataSquare) : res TypesError DataAvailabilityHeader :=
  roots ← mapM (λ i, row_root ← axis_root eds Row i;
                     column_root ← axis_root eds Col i;
                     Ok (row_root, column_root)) (indexes (eds_square_width eds));
  Ok {| row_roots := fst <$> roots; column_roots := snd <$> roots |}.
End Nmt.

(** ** Construction from the original data *)

Section FromOds.
Context `{LeopardCodec}.

(** [vec![0; SHARE_SIZE]]. *)
Definition zero_share : bytes := repeat 0 SHARE_SIZE.

(** Rows of the ODS and parity shares interleaved; [drain(..ods_width)]. *)
Fixpoint interleave (n ods_width : nat) (ods_shares : list bytes) : list bytes :=
  match n with
  | O => []
  | S n => take ods_width ods_shares ++ repeat zero_share ods_width
             ++ interleave n ods_width (drop ods_width ods_shares)
  end.

(** [chunks_mut(width)] from [start] on, each encoded in place. *)
Fixpoint encode_rows (n : nat) (start eds_width ods_width : nat) (shares : list bytes)
    : res TypesError (list bytes) :=
  match n with
  | O => Ok shares
  | S n =>
      row ← ok_or (leopard_encode (take eds_width (drop start shares)) ods_width) ELeopardCodec;
      shares ← Ok (take start shares ++ row ++ drop (start + eds_width) shares);
      encode_rows n (start + eds_width) eds_width ods_width shares
  end.

(** [iter_mut().skip(col).step_by(width)]: reading and writing back a column. *)
Definition read_column (col eds_width : nat) (shares : list bytes) : list bytes :=
  (λ i, default ([] : bytes) (shares !! (i * eds_width + col)%nat)) <$> seq 0 eds_width.
Definition write_column (col eds_width : nat) (column shares : list bytes) : list bytes :=
  foldl (λ s '(i, x), <[(i * eds_width + col)%nat := x]> s) shares (imap pair column).
Fixpoint encode_columns (cols : list nat) (eds_width ods_width : nat) (shares : list bytes)
    : res TypesError (list bytes) :=
  match cols with
  | [] => Ok shares
  | col :: cols =>
      column ← ok_or (leopard_encode (read_column col eds_width shares) ods_width) ELeopardCodec;
      encode_columns cols eds_width ods_width (write_column col eds_width column shares)
  end.

Definition eds_from_ods (ods_shares : list bytes) (app_version : AppVersion)
    : res TypesError ExtendedDataSquare :=
  let ods_width := Z.to_nat (Z.sqrt (Z.of_nat (length ods_shares))) in
  if negb (ods_width * ods_width =? length ods_shares)%nat then Err EdsInvalidDimentions else
  let eds_width := (ods_width * 2)%nat in
  (* [chunks_mut] of a width of zero panics *)
  if (eds_width =? 0)%nat then Panic else
  let eds_shares := interleave ods_width ods_width ods_shares in
  let eds_shares := eds_shares
    ++ repeat zero_share (eds_width * eds_width - length eds_shares) in
  eds_shares ← encode_rows ods_width 0 eds_width ods_width eds_shares;
  eds_shares ← encode_columns (seq 0 ods_width) eds_width ods_width eds_shares;
  eds_shares ← encode_rows ods_width (ods_width * eds_width) eds_width ods_width eds_shares;
  eds_new eds_shares [76; 101; 111; 112; 97; 114; 100] app_version.

(** The square of an empty block: one share of tail padding. *)
Definition empty_ods : res TypesError (list bytes) :=
  info_byte ← expect_ok (InfoByte_new 0 true);
  Ok [TAIL_PADDING ++ [info_byte] ++ repeat 0 (SHARE_SIZE - NS_SIZE - 1)].
Definition eds_empty : res TypesError ExtendedDataSquare :=
  ods ← empty_ods; expect_ok (eds_from_ods ods V1).
End FromOds.

(** ** The form that is serialized *)

Record RawExtendedDataSquare := { raw_data_square : list bytes; raw_codec : bytes }.
Definition eds_from_raw (raw_eds : RawExtendedDataSquare) (app_version : AppVersion)
    : res TypesError ExtendedDataSquare :=
  eds_new (raw_data_square raw_eds) (raw_codec raw_eds) app_version.
Definition eds_into_raw (eds : ExtendedDataSquare) : RawExtendedDataSquare :=
  {| raw_data_square := sh_data <$> eds_data_square eds; raw_codec := eds_codec eds |}.

(** ** Specification *)

(** The share at a position; [None] outside the list. *)
Definition at_ (l : list Share) (w r c : Z) : option Share := l !! Z.to_nat (r * w + c).

(** Neighbours on an axis are in namespace order. *)
Definition in_order (l : list Share) (w r c r' c' : Z) : Prop :=
  ∀ s s', at_ l w r c = Some s → at_ l w r' c' = Some s' →
    bytes_le (share_namespace s) (share_namespace s') = true.

Record eds_wf (v : AppVersion) (eds : ExtendedDataSquare) : Prop := {
  eds_pow2 : ∃ k, 1 ≤ k ∧ eds_square_width eds = 2 ^ k;
  eds_bounds : 2 ≤ eds_square_width eds ≤ Z.of_nat (max_extended_square_width v);
  eds_length : Z.of_nat (length (eds_data_square eds)) = eds_square_width eds * eds_square_width eds;
  eds_shares r c s : 0 ≤ r < eds_square_width eds → 0 ≤ c < eds_square_width eds →
    at_ (eds_data_square eds) (eds_square_width eds) r c = Some s →
    share_ok s ∧ sh_is_parity s = negb (is_ods_square r c (eds_square_width eds));
  eds_rows r c : 0 ≤ r < eds_square_width eds → 0 ≤ c → c + 1 < eds_square_width eds →
    in_order (eds_data_square eds) (eds_square_width eds) r c r (c + 1);
  eds_cols r c : 0 ≤ r → r + 1 < eds_square_width eds → 0 ≤ c < eds_square_width eds →
    in_order (eds_data_square eds) (eds_square_width eds) r c (r + 1) c
}.

(** ** Lemmas: widths *)

Lemma max_width_256 v : max_extended_square_width v = 256%nat.
Proof. by destruct v. Qed.

Lemma count_ones_pow2 w : 2 ≤ w ≤ 256 → count_ones w = 1%nat ↔ ∃ k, 1 ≤ k ∧ w = 2 ^ k.
Proof.
  intros Hw. split.
  - assert (Forall (λ w, count_ones w = 1%nat → w ∈ ((λ k, 2 ^ k) <$> seqZ 1 8)) (seqZ 2 255)) as Hall.
    { apply (bool_decide_eq_true_1 _). vm_compute. reflexivity. }
    rewrite Forall_forall in Hall. intros Hc. specialize (Hall w).
    destruct (proj1 (list_elem_of_fmap _ _ _) (Hall ltac:(apply elem_of_seqZ; lia) Hc)) as (k&->&Hk).
    apply elem_of_seqZ in Hk. exists k. split; [lia|done].
  - intros (k&Hk&->). assert (k ≤ 8) as Hk8.
    { destruct (decide (k ≤ 8)); [done|]. pose proof (Z.pow_le_mono_r 2 9 k ltac:(lia) ltac:(lia)). lia. }
    assert (Forall (λ k, count_ones (2 ^ k) = 1%nat) (seqZ 1 8)) as Hall.
    { apply (bool_decide_eq_true_1 _). vm_compute. reflexivity. }
    rewrite Forall_forall in Hall. apply Hall, elem_of_seqZ. lia.
Qed.

(** The checks on the number of shares. *)
Definition dims_ok (v : AppVersion) (n : nat) (w : Z) : Prop :=
  (∃ k, 1 ≤ k ∧ w = 2 ^ k) ∧ 2 ≤ w ≤ Z.of_nat (max_extended_square_width v) ∧ Z.of_nat n = w * w.

Lemma dims_checks v (shares : list bytes) codec w : dims_ok v (length shares) w →
  eds_new shares codec v =
    _ ← mapM (λ col, check_axis shares w (axis_coords Col w col) None) (indexes w);
    data_square ← mapM (λ row, check_axis shares w (axis_coords Row w row) None) (indexes w);
    Ok {| eds_data_square := concat data_square; eds_codec := codec; eds_square_width := w |}.
Proof.
  intros (Hp&Hb&Hn). rewrite max_width_256 in Hb. unfold eds_new. rewrite max_width_256, Hn.
  rewrite Z.sqrt_square by lia. change (MIN_EXTENDED_SQUARE_WIDTH * MIN_EXTENDED_SQUARE_WIDTH)%nat with 4%nat.
  destruct (Nat.ltb_spec (length shares) 4); [nia|].
  destruct (Nat.ltb_spec (256 * 256) (length shares)); [nia|]. rewrite Z.eqb_refl. cbn [negb].
  destruct (Z.ltb_spec u16_max w); [unfold u16_max in *; lia|].
  by rewrite (proj2 (count_ones_pow2 w ltac:(lia)) Hp).
Qed.

Lemma dims_checks_inv v (shares : list bytes) codec :
  (∃ w, dims_ok v (length shares) w) ∨
  ∃ e, eds_new shares codec v = Err e.
Proof.
  unfold eds_new. rewrite max_width_256. set (w := Z.sqrt (Z.of_nat (length shares))).
  change (MIN_EXTENDED_SQUARE_WIDTH * MIN_EXTENDED_SQUARE_WIDTH)%nat with 4%nat.
  destruct (Nat.ltb_spec (length shares) 4) as [|H4]; [right; by eexists|].
  destruct (Nat.ltb_spec (256 * 256) (length shares)) as [|Hmax]; [right; by eexists|].
  destruct (Z.eqb_spec (w * w) (Z.of_nat (length shares))) as [Hsq|]; [|right; by eexists]. cbn [negb].
  assert (0 ≤ w) by apply Z.sqrt_nonneg. assert (2 ≤ w ≤ 256) as Hw by nia.
  destruct (Z.ltb_spec u16_max w); [right; by eexists|].
  destruct (Nat.eqb_spec (count_ones w) 1) as [Hc|]; [|right; by eexists].
  left. exists w. split; [by apply count_ones_pow2|]. rewrite max_width_256. lia.
Qed.

(** ** Lemmas: a square in row-major order *)

Lemma lookup_concat_rows {A} (rows : list (list A)) w r c :
  Forall (λ l, length l = w) rows → (c < w)%nat →
  concat rows !! (r * w + c)%nat = rows !! r ≫= (.!! c).
Proof.
  intros Hrows Hc. revert r. induction Hrows as [|l rows Hl Hrows IH]; intros r; [done|].
  destruct r as [|r]; cbn [concat].
  - rewrite lookup_app_l by lia. done.
  - rewrite lookup_app_r by lia. rewrite Hl. replace (S r * w + c - w)%nat with (r * w + c)%nat by lia.
    apply IH.
Qed.

Definition grid {A} (w : Z) (f : Z → Z → A) : list A :=
  concat ((λ r, f r <$> seqZ 0 w) <$> seqZ 0 w).

Section Grid.
Context {A : Type} (w : Z) (f : Z → Z → A).

Lemma grid_rows : Forall (λ l, length l = Z.to_nat w) ((λ r, f r <$> seqZ 0 w) <$> seqZ 0 w).
Proof. apply Forall_fmap, Forall_true. intros r. cbn. by rewrite length_fmap, length_seqZ. Qed.

Lemma grid_lookup r c : 0 ≤ r < w → 0 ≤ c < w → grid w f !! Z.to_nat (r * w + c) = Some (f r c).
Proof.
  intros Hr Hc. unfold grid. replace (Z.to_nat (r * w + c)) with (Z.to_nat r * Z.to_nat w + Z.to_nat c)%nat by nia.
  rewrite lookup_concat_rows by (apply grid_rows || lia).
  rewrite list_lookup_fmap, lookup_seqZ_lt by lia. cbn. rewrite list_lookup_fmap, lookup_seqZ_lt by lia.
  cbn. by rewrite !Z.add_0_l, !Z2Nat.id by lia.
Qed.

Lemma length_grid : 0 ≤ w → Z.of_nat (length (grid w f)) = w * w.
Proof.
  intros Hw. unfold grid. assert (∀ rows : list (list A), Forall (λ l, length l = Z.to_nat w) rows →
    length (concat rows) = (length rows * Z.to_nat w)%nat) as Hlen.
  { induction 1 as [|l rows Hl _ IH]; [done|]. cbn [concat length]. rewrite length_app, IH, Hl. lia. }
  rewrite Hlen by apply grid_rows. rewrite length_fmap, length_seqZ. lia.
Qed.

Lemma coords_of_index i : (i < Z.to_nat w * Z.to_nat w)%nat →
  ∃ r c, 0 ≤ r < w ∧ 0 ≤ c < w ∧ i = Z.to_nat (r * w + c).
Proof.
  intros Hi. exists (Z.of_nat i / w), (Z.of_nat i mod w).
  pose proof (Z.mod_pos_bound (Z.of_nat i) w ltac:(nia)).
  pose proof (Z.div_mod (Z.of_nat i) w ltac:(nia)). split; [|split]; [|lia|nia].
  split; [apply Z.div_pos; lia|apply Z.div_lt_upper_bound; nia].
Qed.

Lemma grid_unique l : 0 ≤ w → Z.of_nat (length l) = w * w →
  (∀ r c, 0 ≤ r < w → 0 ≤ c < w → l !! Z.to_nat (r * w + c) = Some (f r c)) → l = grid w f.
Proof.
  intros Hw Hl Hat. pose proof (length_grid Hw) as Hg. apply list_eq. intros i.
  destruct (decide (i < Z.to_nat w * Z.to_nat w)%nat) as [Hi|].
  - destruct (coords_of_index i Hi) as (r&c&Hr&Hc&->). by rewrite Hat, grid_lookup.
  - rewrite !lookup_ge_None_2 by nia. done.
Qed.

Lemma grid_fmap {B} (g : A → B) : g <$> grid w f = grid w (λ r c, g (f r c)).
Proof.
  unfold grid. generalize (seqZ 0 w) at 2 4. intros rows. induction rows as [|r rows IH]; [done|].
  cbn [fmap list_fmap concat] in *. rewrite fmap_app. f_equal; [|exact IH]. by rewrite <-list_fmap_compose.
Qed.
End Grid.

Lemma grid_ext {A} w (f g : Z → Z → A) : 0 ≤ w →
  (∀ r c, 0 ≤ r < w → 0 ≤ c < w → f r c = g r c) → grid w f = grid w g.
Proof.
  intros Hw Hfg. apply grid_unique; [done|by apply length_grid|].
  intros r c Hr Hc. by rewrite grid_lookup, Hfg.
Qed.

(** ** Lemmas: the checks of an axis *)

(** Each namespace is at least the one before it. *)
Fixpoint ns_chain (prev_ns : option Namespace) (l : list Share) : Prop :=
  match l with
  | [] => True
  | s :: l =>
      match prev_ns with Some ns => bytes_le ns (share_namespace s) = true | None => True end ∧
      ns_chain (Some (share_namespace s)) l
  end.

Lemma ns_chain_adjacent prev l : ns_chain prev l ↔
  (∀ ns s, prev = Some ns → l !! 0%nat = Some s → bytes_le ns (share_namespace s) = true) ∧
  ∀ i s s', l !! i = Some s → l !! Datatypes.S i = Some s' →
    bytes_le (share_namespace s) (share_namespace s') = true.
Proof.
  revert prev. induction l as [|s l IH]; intros prev; cbn [ns_chain]; [done|]. rewrite IH. split.
  - intros (Hp&Hs&Hl). split; [intros ns s' -> [= <-]; done|].
    intros [|i] t t'; cbn [lookup list_lookup]; [|apply Hl]. intros [= <-] Ht'. by apply (Hs _ _ eq_refl).
  - intros (Hp&Hl). split_and!; [destruct prev; [by apply (Hp _ s)|done]| |].
    + intros ns t [= <-] Ht. by apply (Hl 0%nat).
    + intros i t t' Ht Ht'. by apply (Hl (Datatypes.S i)).
Qed.

Lemma ns_chain_sorted prev l : ns_chain prev l →
  ns_sorted (share_leaf <$> l) ∧
  ∀ ns, prev = Some ns → Forall (λ x, bytes_le ns x.2 = true) (share_leaf <$> l).
Proof.
  revert prev. induction l as [|s l IH]; intros prev; cbn [ns_chain]; [by intros; split; [|constructor]|].
  intros (Hp&Hl). apply IH in Hl as [Hl Hs]. cbn [fmap list_fmap ns_sorted]. split.
  - split; [|exact Hl]. by apply Hs.
  - intros ns ->. constructor; [done|]. eapply Forall_impl; [by apply Hs|].
    cbn. intros x. by apply bytes_le_trans.
Qed.

Section Checks.
Context (shares : list bytes) (w : Z).

(** The share at a position, when it is one. *)
Definition sq (r c : Z) : Share :=
  match square_share shares w r c with
  | Ok s => s
  | _ => {| sh_data := []; sh_is_parity := false |}
  end.

Lemma check_axis_Ok coords prev l :
  check_axis shares w coords prev = Ok l ↔
  Forall (λ '(r, c), square_share shares w r c = Ok (sq r c)) coords ∧
  l = (λ '(r, c), sq r c) <$> coords ∧ ns_chain prev l.
Proof.
  revert prev l. induction coords as [|[r c] coords IH]; intros prev l; cbn [check_axis fmap list_fmap].
  { split; [intros [= <-]; by split_and!|intros (_&->&_); done]. }
  unfold sq at 1 2. rewrite Forall_cons. destruct (square_share shares w r c) as [s| |] eqn:Es; cbv [mbind res_bind].
  2,3: split; [done|by intros ((?&?)&?)].
  set (bad := match prev with Some _ => _ | None => _ end).
  assert (bad = false ↔ match prev with Some ns => bytes_le ns (share_namespace s) = true | None => True end) as Hbad.
  { subst bad. destruct prev as [ns|]; [|done]. unfold bytes_lt. by destruct (bytes_le ns _). }
  destruct bad.
  { split; [done|]. intros (_&->&[Hc _]). by discriminate (proj2 Hbad Hc). }
  specialize (IH (Some (share_namespace s))).
  destruct (check_axis shares w coords _) as [rest|e|] eqn:Er.
  - destruct (IH rest) as [IH' _]. destruct (IH' eq_refl) as (Hall&->&Hch). split.
    + intros [= <-]. split_and!; [done..|]. cbn [ns_chain]. tauto.
    + intros (_&->&_). done.
  - split; [done|]. intros ([_ Hall]&->&[_ Hch]). by discriminate (proj2 (IH _) (conj Hall (conj eq_refl Hch))).
  - split; [done|]. intros ([_ Hall]&->&[_ Hch]). by discriminate (proj2 (IH _) (conj Hall (conj eq_refl Hch))).
Qed.

Lemma check_axis_no_panic coords prev :
  Forall (λ '(r, c), square_share shares w r c ≠ Panic) coords →
  check_axis shares w coords prev ≠ Panic.
Proof.
  intros Hc. revert prev. induction Hc as [|[r c] coords Hrc _ IH]; intros prev; cbn [check_axis]; [done|].
  destruct (square_share shares w r c) as [s| |]; cbv [mbind res_bind]; [|done|done].
  case_ifs; [done|]. specialize (IH (Some (share_namespace s))). by destruct (check_axis _ _ _ _).
Qed.

Lemma square_share_Ok r c s : Forall are_bytes shares →
  square_share shares w r c = Ok s ↔
  shares !! flatten_index r c w = Some (sh_data s) ∧ share_ok s ∧
  sh_is_parity s = negb (is_ods_square r c w).
Proof.
  intros Hb. unfold square_share, vec_index, share_ok.
  destruct (shares !! flatten_index r c w) as [data|] eqn:Ed; cbv [mbind res_bind expect]; [|naive_solver].
  assert (are_bytes data) by by eapply Forall_lookup_1 in Hb. destruct s as [sd sp]. cbn.
  destruct (is_ods_square r c w); cbn [negb].
  - rewrite Share_from_raw_Ok by done. naive_solver.
  - rewrite Share_parity_Ok. naive_solver.
Qed.

Lemma square_share_no_panic r c : Forall are_bytes shares →
  (flatten_index r c w < length shares)%nat → square_share shares w r c ≠ Panic.
Proof.
  intros Hb [data Hd]%lookup_lt_is_Some. unfold square_share, vec_index. rewrite Hd.
  cbv [mbind res_bind expect]. case_ifs.
  - apply Share_from_raw_no_panic. by eapply Forall_lookup_1 in Hb.
  - unfold Share_parity. by case_ifs.
Qed.
End Checks.

(** Both namespace orders of a square given by its positions. *)
Definition axis_of {A} (f : Z → Z → A) (axis : AxisType) (w index : Z) : list A :=
  (λ '(r, c), f r c) <$> axis_coords axis w index.

Lemma axis_of_lookup {A} (f : Z → Z → A) axis w index i : (i < Z.to_nat w)%nat →
  axis_of f axis w index !! i =
    Some (match axis with Row => f index (Z.of_nat i) | Col => f (Z.of_nat i) index end).
Proof.
  intros Hi. unfold axis_of, axis_coords, indexes. rewrite !list_lookup_fmap, lookup_seqZ_lt by lia.
  cbn. by destruct axis.
Qed.
Lemma length_axis_of {A} (f : Z → Z → A) axis w index : length (axis_of f axis w index) = Z.to_nat w.
Proof. unfold axis_of, axis_coords, indexes. by rewrite !length_fmap, length_seqZ. Qed.

Lemma axis_chain f axis w index :
  ns_chain None (axis_of f axis w index) ↔
  ∀ i, 0 ≤ i → i + 1 < w →
    bytes_le (share_namespace (match axis with Row => f index i | Col => f i index end))
      (share_namespace (match axis with Row => f index (i + 1) | Col => f (i + 1) index end)) = true.
Proof.
  rewrite ns_chain_adjacent. split.
  - intros [_ Hl] i Hi Hw. apply (Hl (Z.to_nat i)); rewrite axis_of_lookup by lia; f_equal; destruct axis; f_equal; lia.
  - intros Hl. split; [done|]. intros i s s' Hs Hs'.
    pose proof (lookup_lt_Some _ _ _ Hs') as Hlt. rewrite length_axis_of in Hlt.
    rewrite axis_of_lookup in Hs, Hs' by lia. injection Hs as <-. injection Hs' as <-.
    specialize (Hl (Z.of_nat i) ltac:(lia) ltac:(lia)).
    replace (Z.of_nat (Datatypes.S i)) with (Z.of_nat i + 1) by lia. by destruct axis.
Qed.

(** A relation that is a function on part of its domain. *)
Lemma Forall2_function {A B} (P : A → B → Prop) (Q : A → Prop) (g : A → B) l k :
  (∀ x y, P x y ↔ Q x ∧ y = g x) → Forall2 P l k ↔ Forall Q l ∧ k = g <$> l.
Proof.
  intros HP. split.
  - induction 1 as [|x y l k Hxy _ [IH1 ->]]; [by split|]. apply HP in Hxy as [Hx ->]. by split; [constructor|].
  - intros [Hl ->]. induction Hl as [|x l Hx _ IH]; constructor; [by apply HP|done].
Qed.

Lemma Forall_indexes (P : Z → Prop) w : Forall P (indexes w) ↔ ∀ i, 0 ≤ i < w → P i.
Proof.
  unfold indexes. rewrite Forall_forall. split; intros HP i Hi; apply HP; [apply elem_of_seqZ|apply elem_of_seqZ in Hi]; lia.
Qed.

Lemma check_axes_Ok shares w axis l :
  mapM (λ i, check_axis shares w (axis_coords axis w i) None) (indexes w) = Ok l ↔
  (∀ r c, 0 ≤ r < w → 0 ≤ c < w → square_share shares w r c = Ok (sq shares w r c)) ∧
  (∀ i, 0 ≤ i < w → ns_chain None (axis_of (sq shares w) axis w i)) ∧
  l = (λ i, axis_of (sq shares w) axis w i) <$> indexes w.
Proof.
  rewrite mapM_res_Ok, (Forall2_function _
    (λ i, (∀ j, 0 ≤ j < w → match axis with
            | Row => square_share shares w i j = Ok (sq shares w i j)
            | Col => square_share shares w j i = Ok (sq shares w j i)
            end) ∧ ns_chain None (axis_of (sq shares w) axis w i))
    (λ i, axis_of (sq shares w) axis w i)).
  - rewrite Forall_indexes. split; [|intros (Hs&Hc&->)].
    + intros (Hs&->). split_and!; [|naive_solver|done]. intros r c Hr Hc.
      destruct axis; [by apply (Hs r)|by apply (Hs c)].
    + split; [|done]. intros i Hi. split; [|by apply Hc]. intros j Hj. destruct axis; by apply Hs.
  - intros i y. rewrite check_axis_Ok. unfold axis_of. unfold axis_coords at 1. rewrite Forall_fmap, Forall_indexes.
    unfold compose. split.
    + intros (Hs&->&Hc). split_and!; [|done|done]. intros j Hj. specialize (Hs j Hj). by destruct axis.
    + intros ((Hs&Hc)&->). split_and!; [|done|done]. intros j Hj. specialize (Hs j Hj). by destruct axis.
Qed.

Lemma eds_new_Ok v shares codec w eds : dims_ok v (length shares) w →
  eds_new shares codec v = Ok eds ↔
  (∀ r c, 0 ≤ r < w → 0 ≤ c < w → square_share shares w r c = Ok (sq shares w r c)) ∧
  (∀ axis i, 0 ≤ i < w → ns_chain None (axis_of (sq shares w) axis w i)) ∧
  eds = {| eds_data_square := grid w (sq shares w); eds_codec := codec; eds_square_width := w |}.
Proof.
  intros Hd. rewrite (dims_checks v shares codec w Hd).
  assert (concat ((λ i, axis_of (sq shares w) Row w i) <$> indexes w) = grid w (sq shares w)) as Hg.
  { unfold grid, axis_of, axis_coords, indexes. f_equal. apply list_fmap_ext. intros _ i _.
    by rewrite <-list_fmap_compose. }
  rewrite <-Hg. split.
  - intros He. inv_res He. subst eds. apply check_axes_Ok in Hc as (Hs&Hcols&_).
    apply check_axes_Ok in Hc0 as (_&Hrows&->). split_and!; [done| |done]. intros [] i Hi; auto.
  - intros (Hs&Hch&->).
    apply bind_Ok. eexists. split; [apply check_axes_Ok; split_and!; [done|by intros; apply Hch|done]|].
    apply bind_Ok. eexists. split; [apply check_axes_Ok; split_and!; [done|by intros; apply Hch|done]|done].
Qed.

Lemma eds_new_no_panic v shares codec : Forall are_bytes shares → eds_new shares codec v ≠ Panic.
Proof.
  intros Hb. destruct (dims_checks_inv v shares codec) as [[w Hd]|[e ->]]; [|done].
  rewrite (dims_checks v shares codec w Hd). destruct Hd as (_&Hw&Hn).
  assert (∀ axis, mapM (λ i, check_axis shares w (axis_coords axis w i) None) (indexes w) ≠ Panic) as Hp.
  { intros axis. apply mapM_no_panic, Forall_indexes. intros i Hi. apply check_axis_no_panic.
    unfold axis_coords. apply Forall_fmap, Forall_indexes. intros j Hj. unfold compose.
    destruct axis; apply square_share_no_panic; (done || unfold flatten_index; nia). }
  intros [Hc|(?&_&[Hr|(?&_&?)]%bind_Panic)]%bind_Panic; [by apply (Hp Col)|by apply (Hp Row)|done].
Qed.

(** ** Lemmas: well-formed squares *)

Section Wf.
Context (v : AppVersion) (eds : ExtendedDataSquare) (Hwf : eds_wf v eds).
#[local] Notation w := (eds_square_width eds).
#[local] Notation data := (eds_data_square eds).

Lemma eds_wf_at r c : 0 ≤ r < w → 0 ≤ c < w → ∃ s, at_ data w r c = Some s.
Proof.
  intros Hr Hc. apply lookup_lt_is_Some. pose proof (eds_length _ _ Hwf). nia.
Qed.

Lemma eds_wf_dims : dims_ok v (length data) w.
Proof. exact (conj (eds_pow2 _ _ Hwf) (conj (eds_bounds _ _ Hwf) (eds_length _ _ Hwf))). Qed.

(** What [check_axis] reads of the bytes of a well-formed square. *)
Lemma eds_wf_sq r c : Forall are_bytes (sh_data <$> data) → 0 ≤ r < w → 0 ≤ c < w →
  square_share (sh_data <$> data) w r c = Ok (sq (sh_data <$> data) w r c) ∧
  at_ data w r c = Some (sq (sh_data <$> data) w r c).
Proof.
  intros Hb Hr Hc. destruct (eds_wf_at r c Hr Hc) as [s Hs].
  destruct (eds_shares _ _ Hwf r c s Hr Hc Hs) as [Hok Hp].
  assert (square_share (sh_data <$> data) w r c = Ok s) as Hsq.
  { apply square_share_Ok; [done|]. split_and!; [|done|done]. unfold flatten_index.
    unfold at_ in Hs. by rewrite list_lookup_fmap, Hs. }
  unfold sq. by rewrite Hsq.
Qed.
End Wf.

Lemma grid_wf v shares codec w : Forall are_bytes shares → dims_ok v (length shares) w →
  (∀ r c, 0 ≤ r < w → 0 ≤ c < w → square_share shares w r c = Ok (sq shares w r c)) →
  (∀ axis i, 0 ≤ i < w → ns_chain None (axis_of (sq shares w) axis w i)) →
  eds_wf v {| eds_data_square := grid w (sq shares w); eds_codec := codec; eds_square_width := w |} ∧
  sh_data <$> grid w (sq shares w) = shares.
Proof.
  intros Hb (Hp&Hw&Hn) Hsq Hch. assert (0 ≤ w) as Hw0 by lia. split.
  - split; cbn [eds_square_width eds_data_square]; [done..| | | |]; unfold in_order, at_.
    + by apply length_grid.
    + intros r c s Hr Hc. rewrite grid_lookup by done. intros [= <-].
      pose proof (Hsq r c Hr Hc) as Hs. apply square_share_Ok in Hs as (_&?&?); done.
    + intros r c Hr Hc0 Hc1 s s'. rewrite !grid_lookup by lia. intros [= <-] [= <-].
      by apply (proj1 (axis_chain (sq shares w) Row w r) (Hch Row r Hr)).
    + intros r c Hr0 Hr1 Hc s s'. rewrite !grid_lookup by lia. intros [= <-] [= <-].
      by apply (proj1 (axis_chain (sq shares w) Col w c) (Hch Col c Hc)).
  - rewrite grid_fmap. symmetry. apply grid_unique; [done..|]. intros r c Hr Hc.
    pose proof (Hsq r c Hr Hc) as Hs. apply square_share_Ok in Hs as (?&_&_); done.
Qed.

Lemma eds_new_wf v shares codec eds : Forall are_bytes shares → eds_new shares codec v = Ok eds →
  eds_wf v eds ∧ sh_data <$> eds_data_square eds = shares ∧ eds_codec eds = codec.
Proof.
  intros Hb He. destruct (dims_checks_inv v shares codec) as [[w Hd]|[e He']]; [|congruence].
  apply (proj1 (eds_new_Ok v shares codec w eds Hd)) in He. destruct He as (Hs&Hch&->).
  destruct (grid_wf v shares codec w Hb Hd Hs Hch) as [Hwf Hdata]. by split_and!.
Qed.

Lemma eds_wf_new v eds : Forall are_bytes (sh_data <$> eds_data_square eds) → eds_wf v eds →
  eds_new (sh_data <$> eds_data_square eds) (eds_codec eds) v = Ok eds.
Proof.
  intros Hb Hwf. pose proof (eds_wf_dims _ _ Hwf) as Hd.
  rewrite <-(length_fmap sh_data) in Hd. apply (eds_new_Ok _ _ _ _ _ Hd). destruct Hd as (_&Hw&_).
  split_and!; [intros r c Hr Hc; by apply (eds_wf_sq v)| |].
  - intros axis i Hi. apply axis_chain. intros j Hj Hj'.
    destruct axis; [apply (eds_rows _ _ Hwf i j)|apply (eds_cols _ _ Hwf j i)]; try lia;
      apply (eds_wf_sq v); (done || lia).
  - destruct eds as [data codec w]. cbn [eds_data_square eds_codec eds_square_width] in *. f_equal.
    apply grid_unique; [lia|apply (eds_length _ _ Hwf)|]. intros r c Hr Hc.
    by apply (eds_wf_sq v {| eds_data_square := data; eds_codec := codec; eds_square_width := w |}).
Qed.

(** The share at a position of a well-formed square. *)
Definition cell (eds : ExtendedDataSquare) (r c : Z) : Share :=
  default {| sh_data := []; sh_is_parity := false |} (at_ (eds_data_square eds) (eds_square_width eds) r c).

Section Access.
Context (v : AppVersion) (eds : ExtendedDataSquare) (Hwf : eds_wf v eds).
#[local] Notation w := (eds_square_width eds).

Lemma cell_at r c : 0 ≤ r < w → 0 ≤ c < w →
  at_ (eds_data_square eds) w r c = Some (cell eds r c).
Proof. intros Hr Hc. unfold cell. by destruct (eds_wf_at v eds Hwf r c Hr Hc) as [s ->]. Qed.

Lemma eds_data_grid : eds_data_square eds = grid w (cell eds).
Proof.
  pose proof (eds_bounds _ _ Hwf). apply grid_unique; [lia|apply (eds_length _ _ Hwf)|].
  intros r c Hr Hc. by apply cell_at.
Qed.

Lemma eds_share_in r c : 0 ≤ r < w → 0 ≤ c < w → eds_share eds r c = Ok (cell eds r c).
Proof. intros Hr Hc. unfold eds_share. pose proof (cell_at r c Hr Hc) as Hs. unfold at_ in Hs. by rewrite Hs. Qed.

Lemma axis_shares axis i : 0 ≤ i < w →
  (λ '(row, col), eds_share eds row col) <$> axis_coords axis w i = Ok <$> axis_of (cell eds) axis w i.
Proof.
  intros Hi. unfold axis_of, axis_coords. rewrite <-!list_fmap_compose. apply list_fmap_ext.
  intros k j Hj. unfold indexes in Hj. apply lookup_seqZ in Hj as [-> Hk]. cbn.
  destruct axis; apply eds_share_in; lia.
Qed.

Lemma eds_axis_in axis i : 0 ≤ i < w → eds_axis eds axis i = Ok (axis_of (cell eds) axis w i).
Proof.
  intros Hi. pose proof (axis_shares axis i Hi) as Hs. unfold eds_axis. apply mapM_res_Ok.
  assert (∀ (l : list (Z * Z)) k, (λ '(row, col), eds_share eds row col) <$> l = Ok <$> k →
    Forall2 (λ x y, (λ '(row, col), eds_share eds row col) x = Ok y) l k) as HF.
  { induction l as [|x l IH]; intros [|y k] [=]; constructor; [done|by apply IH]. }
  by apply HF.
Qed.

Lemma cell_chain axis i : 0 ≤ i < w → ns_chain None (axis_of (cell eds) axis w i).
Proof.
  intros Hi. apply axis_chain. intros j Hj Hj'.
  destruct axis; [apply (eds_rows _ _ Hwf i j)|apply (eds_cols _ _ Hwf j i)]; try apply cell_at; lia.
Qed.

Lemma cell_ok r c : 0 ≤ r < w → 0 ≤ c < w →
  share_ok (cell eds r c) ∧ sh_is_parity (cell eds r c) = negb (is_ods_square r c w).
Proof. intros Hr Hc. by apply (eds_shares _ _ Hwf r c _ Hr Hc), cell_at. Qed.

Lemma axis_leaves_sorted axis i : 0 ≤ i < w → ns_sorted (share_leaf <$> axis_of (cell eds) axis w i).
Proof. intros Hi. eapply proj1, ns_chain_sorted, cell_chain, Hi. Qed.

Context `{NmtExternalsSpec}.

Lemma ns_sorted_app l1 l2 : ns_sorted (l1 ++ l2) → ns_sorted l1.
Proof.
  induction l1 as [|x l1 IH]; [done|]. cbn [app ns_sorted]. intros [Hx Hl].
  apply Forall_app in Hx as [Hx _]. by split; [|apply IH].
Qed.

Lemma push_leaves_sorted leaves l : ns_sorted (leaves ++ (share_leaf <$> l)) →
  push_leaves leaves (Ok <$> l) = Ok (leaves ++ (share_leaf <$> l)).
Proof.
  revert leaves. induction l as [|s l IH]; intros leaves Hs; [by rewrite app_nil_r|].
  change (share_leaf <$> s :: l) with ([share_leaf s] ++ (share_leaf <$> l)) in Hs |- *.
  rewrite (assoc_L (++)) in Hs |- *. change (Ok <$> s :: l) with (Ok (E:=TypesError) s :: (Ok <$> l)).
  cbn [push_leaves].
  destruct (nmt_root_sorted (leaves ++ [share_leaf s])) as (h&Hh&_); [by eapply ns_sorted_app|].
  cbv [mbind res_bind]. rewrite Hh. cbn [ok_or]. by apply IH.
Qed.

Lemma axis_root_in axis i : 0 ≤ i < w → ∃ h, axis_root eds axis i = Ok h ∧ nh_wf h ∧
  nmt_root (share_leaf <$> axis_of (cell eds) axis w i) = Some h.
Proof.
  intros Hi. pose proof (axis_leaves_sorted axis i Hi) as Hs. destruct (nmt_root_sorted _ Hs) as (h&Hh&Hwfh).
  exists h. split_and!; [|done..]. unfold axis_root, eds_axis_nmt. rewrite axis_shares by done.
  rewrite (push_leaves_sorted []) by done. cbn [expect_ok app]. cbv [mbind res_bind]. by rewrite Hh.
Qed.

Lemma from_eds_spec : ∃ dah, dah_from_eds eds = Ok dah ∧ dah_wf dah ∧
  dah_validate_basic dah v = Ok tt ∧
  ∀ axis i, 0 ≤ i < w → ∃ h, dah_root dah axis i = Some h ∧
    nmt_root (share_leaf <$> axis_of (cell eds) axis w i) = Some h.
Proof.
  set (R := λ axis i h, nh_wf h ∧ nmt_root (share_leaf <$> axis_of (cell eds) axis w i) = Some h).
  pose proof (eds_bounds _ _ Hwf) as Hb.
  assert (∃ roots, mapM (λ i, row_root ← axis_root eds Row i; column_root ← axis_root eds Col i;
      Ok (row_root, column_root)) (indexes w) = Ok roots ∧
    Forall2 (λ i r, R Row i r.1 ∧ R Col i r.2) (indexes w) roots) as (roots&Hm&Hr).
  { assert (∀ l, (∀ i, i ∈ l → 0 ≤ i < w) → ∃ roots, mapM (λ i, row_root ← axis_root eds Row i;
        column_root ← axis_root eds Col i; Ok (row_root, column_root)) l = Ok roots ∧
      Forall2 (λ i r, R Row i r.1 ∧ R Col i r.2) l roots) as Hl.
    { induction l as [|i l IH]; intros Hin; [by exists []|].
      destruct IH as (roots&Hm&Hr); [intros; apply Hin; by right|].
      destruct (axis_root_in Row i) as (h1&E1&W1&N1); [apply Hin; by left|].
      destruct (axis_root_in Col i) as (h2&E2&W2&N2); [apply Hin; by left|].
      exists ((h1, h2) :: roots). split; [|by constructor]. cbn [mapM].
      rewrite E1, E2. cbv [mbind res_bind] in *. by rewrite Hm. }
    apply Hl. intros i Hi. by apply elem_of_seqZ in Hi. }
  exists {| row_roots := fst <$> roots; column_roots := snd <$> roots |}.
  pose proof (Forall2_length _ _ _ Hr) as Hlen. unfold indexes in Hlen. rewrite length_seqZ in Hlen.
  split; [unfold dah_from_eds; by rewrite Hm|]. split; [|split].
  - clear -Hr. split; apply Forall_fmap; induction Hr as [|i r l roots [[? _] [? _]] _ IH]; by constructor.
  - apply dah_validate_Ok. cbn. rewrite !length_fmap, <-Hlen. rewrite max_width_256 in *.
    change MIN_EXTENDED_SQUARE_WIDTH with 2%nat. lia.
  - intros axis i Hi. assert (indexes w !! Z.to_nat i = Some i) as Hx.
    { unfold indexes. rewrite lookup_seqZ_lt by lia. f_equal. lia. }
    destruct (Forall2_lookup_l _ _ _ _ _ Hr Hx) as ([h1 h2]&Hrt&[_ H1']&[_ H2']).
    destruct axis; cbn [dah_root]; unfold row_root, column_root; cbn; rewrite list_lookup_fmap, Hrt; eauto.
Qed.

Lemma from_eds_width dah : dah_from_eds eds = Ok dah →
  eds_square_width eds = Z.of_nat (length (row_roots dah)).
Proof.
  clear -Hwf. pose proof (eds_bounds _ _ Hwf). intros Hd. unfold dah_from_eds in Hd. inv_res Hd. subst dah.
  apply mapM_res_Ok, Forall2_length in Hc. cbn. unfold indexes in Hc. rewrite length_seqZ in Hc.
  rewrite length_fmap. lia.
Qed.
End Access.

(** ** Lemmas: parity data *)

(** Shards of one share each are encoded: the data shards stay, and the parity shards have
    the size of a share. *)
Definition is_shard (s : bytes) : Prop := length s = SHARE_SIZE ∧ are_bytes s.
Class LeopardCodecSpec `{LeopardCodec} : Prop := {
  leopard_encode_total shards n : (0 < n)%nat → length shards = (n * 2)%nat → (n ≤ 128)%nat →
    Forall is_shard shards → ∃ out, leopard_encode shards n = Some out;
  leopard_encode_data shards n out : leopard_encode shards n = Some out →
    length out = length shards ∧ take n out = take n shards ∧
    (Forall is_shard shards → Forall is_shard out)
}.

(** The parity half of [l] belongs to its data half. *)
Definition codeword `{LeopardCodec} (k : nat) (l : list bytes) : Prop :=
  ∃ shards, take k shards = take k l ∧ leopard_encode shards k = Some l.

Section Parity.
Context `{LeopardCodecSpec} (k : nat).
#[local] Notation w := (k * 2)%nat.

Definition read_row (row : nat) (shares : list bytes) : list bytes :=
  (λ i, default ([] : bytes) (shares !! (row * w + i)%nat)) <$> seq 0 w.

Lemma read_row_slice r (l : list bytes) : (r < w)%nat → length l = (w * w)%nat →
  take w (drop (r * w) l) = read_row r l.
Proof.
  clear. intros Hr Hl. unfold read_row. apply list_eq. intros i. rewrite list_lookup_fmap.
  destruct (decide (i < w)%nat) as [Hi|Hi].
  - rewrite lookup_take_lt, lookup_drop, lookup_seq_lt by done. cbn.
    destruct (lookup_lt_is_Some_2 l (r * w + i)) as [x Hx]; [nia|]. by rewrite Hx.
  - rewrite lookup_take_ge by lia. by rewrite lookup_seq_ge by lia.
Qed.

(** Two squares that agree on a row (a column) read the same there. *)
Lemma read_row_ext r (l l' : list bytes) :
  (∀ c, (c < w)%nat → l !! (r * w + c)%nat = l' !! (r * w + c)%nat) → read_row r l = read_row r l'.
Proof.
  clear. intros Hl. apply list_fmap_ext. intros i x Hx. apply lookup_seq in Hx as [-> Hx]. cbn.
  by rewrite Hl.
Qed.
Lemma read_column_ext c (l l' : list bytes) :
  (∀ r, (r < w)%nat → l !! (r * w + c)%nat = l' !! (r * w + c)%nat) →
  read_column c w l = read_column c w l'.
Proof.
  clear. intros Hl. apply list_fmap_ext. intros i x Hx. apply lookup_seq in Hx as [-> Hx]. cbn.
  by rewrite Hl.
Qed.

(** Replacing one row. *)
Lemma replace_row r (l row : list bytes) : (r < w)%nat → length l = (w * w)%nat → length row = w →
  let l' := take (r * w) l ++ row ++ drop (r * w + w) l in
  length l' = (w * w)%nat ∧ read_row r l' = row ∧
  ∀ r' c, (r' < w)%nat → (c < w)%nat →
    l' !! (r' * w + c)%nat = if decide (r' = r) then row !! c else l !! (r' * w + c)%nat.
Proof.
  clear. intros Hr Hl Hrow l'.
  assert (∀ r' c, (r' < w)%nat → (c < w)%nat →
    l' !! (r' * w + c)%nat = if decide (r' = r) then row !! c else l !! (r' * w + c)%nat) as Hat.
  { intros r' c Hr' Hc. subst l'. assert (length (take (r * w) l) = r * w)%nat as Ht by (rewrite length_take; nia).
    case_decide as Heq; [subst r'|].
    - rewrite lookup_app_r by lia. rewrite lookup_app_l by lia. f_equal. lia.
    - destruct (decide (r' < r)%nat) as [Hlt|Hge].
      + rewrite lookup_app_l by nia. apply lookup_take_lt. nia.
      + rewrite lookup_app_r, lookup_app_r by nia. rewrite lookup_drop. f_equal. nia. }
  split_and!; [subst l'; rewrite !length_app, length_take, length_drop; nia| |done].
  unfold read_row. apply list_eq. intros i. rewrite list_lookup_fmap.
  destruct (decide (i < w)%nat) as [Hi|Hi].
  - rewrite lookup_seq_lt by done. cbn. rewrite Hat, decide_True by done.
    by destruct (lookup_lt_is_Some_2 row i ltac:(lia)) as [x ->].
  - rewrite lookup_seq_ge by lia. rewrite lookup_ge_None_2 by lia. done.
Qed.

(** Writing one column. *)
Lemma write_column_spec c (l column : list bytes) : (c < w)%nat → length l = (w * w)%nat → length column = w →
  let l' := write_column c w column l in
  length l' = (w * w)%nat ∧ read_column c w l' = column ∧
  ∀ r c', (r < w)%nat → (c' < w)%nat →
    l' !! (r * w + c')%nat = if decide (c' = c) then column !! r else l !! (r * w + c')%nat.
Proof.
  clear. intros Hc Hl Hcol l'.
  assert (∀ col s (l : list bytes), (s + length col ≤ w)%nat → length l = (w * w)%nat →
    let l' := foldl (λ s '(i, x), <[(i * w + c)%nat := x]> s) l (imap (λ i x, ((s + i)%nat, x)) col) in
    length l' = (w * w)%nat ∧ ∀ r c', (r < w)%nat → (c' < w)%nat →
      l' !! (r * w + c')%nat = if decide (c' = c ∧ (s ≤ r < s + length col)%nat)
                               then col !! (r - s)%nat else l !! (r * w + c')%nat) as Hgen.
  { clear -Hc. induction col as [|x col IH]; intros s l Hs Hl.
    { split; [done|]. intros r c' Hr Hc'. rewrite decide_False; [done|]. cbn. lia. }
    cbn [imap foldl]. rewrite Nat.add_0_r. cbn [length] in Hs.
    replace (imap ((λ i x, ((s + i)%nat, x)) ∘ Datatypes.S) col) with (imap (λ i x, ((Datatypes.S s + i)%nat, x)) col)
      by (apply imap_ext; intros i y _; cbn; f_equal; lia).
    destruct (IH (Datatypes.S s) (<[(s * w + c)%nat:=x]> l)) as [Hl' Hat]; [lia|by rewrite length_insert|].
    split; [done|]. intros r c' Hr Hc'. rewrite Hat by done.
    destruct (decide (c' = c)) as [->|Hne].
    - destruct (decide (r = s)) as [->|Hrs].
      + rewrite decide_False by lia. rewrite decide_True by (cbn; lia).
        rewrite Nat.sub_diag. apply list_lookup_insert_eq. rewrite Hl. nia.
      + destruct (decide (s < r < s + Datatypes.S (length col))%nat) as [Hin|Hout].
        * rewrite !decide_True by (cbn; lia). replace (r - s)%nat with (Datatypes.S (r - Datatypes.S s)) by lia. done.
        * rewrite !decide_False by (cbn; lia). apply list_lookup_insert_ne. intros Heq.
          apply Hrs. nia.
    - rewrite !decide_False by tauto. apply list_lookup_insert_ne. intros Heq. apply Hne.
      assert (s = r) as -> by nia. lia. }
  destruct (Hgen column 0%nat l ltac:(lia) Hl) as [Hl' Hat]. split_and!; [done| |].
  - unfold read_column. apply list_eq. intros i. rewrite list_lookup_fmap.
    destruct (decide (i < w)%nat) as [Hi|Hi].
    + rewrite lookup_seq_lt by done. cbn. unfold l', write_column. rewrite Hat, decide_True by lia.
      rewrite Nat.sub_0_r. by destruct (lookup_lt_is_Some_2 column i ltac:(lia)) as [x ->].
    + rewrite lookup_seq_ge by lia. rewrite lookup_ge_None_2 by lia. done.
  - intros r c' Hr Hc'. unfold l', write_column. rewrite Hat by done.
    destruct (decide (c' = c)); [rewrite decide_True by lia; by rewrite Nat.sub_0_r|by rewrite decide_False by tauto].
Qed.
Lemma codeword_refl shards out : leopard_encode shards k = Some out → codeword k out.
Proof. intros Ho. exists shards. split; [|done]. by destruct (leopard_encode_data _ _ _ Ho) as (_&->&_). Qed.

Lemma shards_slice l (f : nat → nat) : Forall is_shard l → (∀ i, (i < w)%nat → (f i < length l)%nat) →
  Forall is_shard ((λ i, default ([] : bytes) (l !! f i)) <$> seq 0 w).
Proof.
  clear. intros Hl Hf. apply Forall_fmap, Forall_forall. intros i Hi. apply elem_of_seq in Hi. cbn.
  destruct (lookup_lt_is_Some_2 l (f i)) as [x Hx]; [apply Hf; lia|]. rewrite Hx. by eapply Forall_lookup_1 in Hl.
Qed.

Lemma length_read_row r l : length (read_row r l) = w.
Proof. unfold read_row. by rewrite length_fmap, length_seq. Qed.
Lemma length_read_column c l : length (read_column c w l) = w.
Proof. unfold read_column. by rewrite length_fmap, length_seq. Qed.

(** What stays and what is encoded by a pass over some rows. *)
Definition same_at (P : nat → nat → Prop) (l l' : list bytes) : Prop :=
  ∀ r c, (r < w)%nat → (c < w)%nat → P r c → l' !! (r * w + c)%nat = l !! (r * w + c)%nat.

Lemma take_lookup_same {A} n (l l' : list A) i : take n l = take n l' → (i < n)%nat → l !! i = l' !! i.
Proof. intros Ht Hi. rewrite <-(lookup_take_lt l n i Hi), Ht. by apply lookup_take_lt. Qed.

Lemma encode_rows_spec n s l : (0 < k ≤ 128)%nat → (s + n ≤ w)%nat →
  length l = (w * w)%nat → Forall is_shard l →
  ∃ l', encode_rows n (s * w) w k l = Ok l' ∧ length l' = (w * w)%nat ∧ Forall is_shard l' ∧
    same_at (λ r c, (r < s ∨ s + n ≤ r ∨ c < k)%nat) l l' ∧
    ∀ r, (s ≤ r < s + n)%nat → codeword k (read_row r l').
Proof.
  intros Hk. revert s l. induction n as [|n IH]; intros s l Hs Hl Hsh; cbn [encode_rows].
  { exists l. split_and!; [done..|]. intros; lia. }
  rewrite read_row_slice by lia.
  assert (Forall is_shard (read_row s l)) as Hrow by (apply shards_slice; [done|intros; nia]).
  destruct (leopard_encode_total (read_row s l) k) as [out Ho]; [lia|apply length_read_row|lia|done|].
  destruct (leopard_encode_data _ _ _ Ho) as (Hlo&Hto&Hso). rewrite length_read_row in Hlo.
  destruct (replace_row s l out ltac:(lia) Hl Hlo) as (Hl1&Hr1&Hat).
  set (l1 := take (s * w) l ++ out ++ drop (s * w + w) l) in *.
  assert (Forall is_shard l1) as Hsh1.
  { subst l1. rewrite !Forall_app. split_and!; [by apply Forall_take|by apply Hso|by apply Forall_drop]. }
  destruct (IH (Datatypes.S s) l1 ltac:(lia) Hl1 Hsh1) as (l'&He&Hl'&Hsh'&Hsame&Hcw).
  exists l'. rewrite Ho. cbn [ok_or]. cbv [mbind res_bind]. fold l1.
  replace (s * w + w)%nat with (Datatypes.S s * w)%nat by lia. split_and!; [done..| |].
  - intros r c Hr Hc Hor. rewrite (Hsame r c Hr Hc) by lia. rewrite (Hat r c Hr Hc).
    case_decide; [subst r|done]. rewrite (take_lookup_same k out (read_row s l) c Hto) by lia.
    unfold read_row. rewrite list_lookup_fmap, lookup_seq_lt by lia. cbn.
    by destruct (lookup_lt_is_Some_2 l (s * w + c)%nat ltac:(nia)) as [x ->].
  - intros r Hr. destruct (decide (r = s)) as [->|]; [|apply Hcw; lia].
    rewrite (read_row_ext s l' l1) by (intros c Hc; apply Hsame; lia). rewrite Hr1. by apply (codeword_refl _ _ Ho).
Qed.

Lemma Forall_write_column (P : bytes → Prop) c column l : Forall P l → Forall P column →
  Forall P (write_column c w column l).
Proof.
  intros Hl Hc. unfold write_column.
  assert (Forall (λ x, P x.2) (imap pair column)) as Hi.
  { apply Forall_lookup. intros i x Hx. rewrite list_lookup_imap in Hx.
    apply fmap_Some in Hx as (y&Hy&->). by eapply Forall_lookup_1 in Hc. }
  revert l Hl. induction Hi as [|[i x] ix Hx _ IH]; intros l Hl; [done|]. cbn [foldl].
  apply IH. by apply Forall_insert.
Qed.

Lemma encode_columns_spec cols l : (0 < k ≤ 128)%nat → Forall (λ c, c < w)%nat cols → NoDup cols →
  length l = (w * w)%nat → Forall is_shard l →
  ∃ l', encode_columns cols w k l = Ok l' ∧ length l' = (w * w)%nat ∧ Forall is_shard l' ∧
    same_at (λ r c, c ∉ cols ∨ (r < k)%nat) l l' ∧ ∀ c, c ∈ cols → codeword k (read_column c w l').
Proof.
  intros Hk Hcols. revert l. induction Hcols as [|c cols Hc Hcols IH]; intros l Hnd Hl Hsh; cbn [encode_columns].
  { exists l. split_and!; [done..|]. by intros c ?%not_elem_of_nil. }
  apply NoDup_cons in Hnd as [Hnin Hnd].
  assert (Forall is_shard (read_column c w l)) as Hcol by (apply shards_slice; [done|intros; nia]).
  destruct (leopard_encode_total (read_column c w l) k) as [out Ho]; [lia|apply length_read_column|lia|done|].
  destruct (leopard_encode_data _ _ _ Ho) as (Hlo&Hto&Hso). rewrite length_read_column in Hlo.
  destruct (write_column_spec c l out Hc Hl Hlo) as (Hl1&Hr1&Hat).
  set (l1 := write_column c w out l) in *.
  assert (Forall is_shard l1) as Hsh1 by (apply Forall_write_column; [done|by apply Hso]).
  destruct (IH l1 Hnd Hl1 Hsh1) as (l'&He&Hl'&Hsh'&Hsame&Hcw).
  exists l'. rewrite Ho. cbn [ok_or]. cbv [mbind res_bind]. fold l1. split_and!; [done..| |].
  - intros r c' Hr Hc' Hor. rewrite (Hsame r c' Hr Hc') by (rewrite elem_of_cons in Hor; tauto).
    rewrite (Hat r c' Hr Hc'). case_decide; [subst c'|done].
    destruct Hor as [Hor|Hrk]; [by rewrite elem_of_cons in Hor; destruct Hor; left|].
    rewrite (take_lookup_same k out (read_column c w l) r Hto) by lia.
    unfold read_column. rewrite list_lookup_fmap, lookup_seq_lt by lia. cbn.
    by destruct (lookup_lt_is_Some_2 l (r * w + c)%nat ltac:(nia)) as [x ->].
  - intros c' [->|Hin]%elem_of_cons; [|by apply Hcw].
    rewrite (read_column_ext c l' l1) by (intros r Hr; apply Hsame; [done|done|by left]).
    rewrite Hr1. by apply (codeword_refl _ _ Ho).
Qed.
End Parity.

(** ** Lemmas: the square of given data *)

Definition ns_of (s : bytes) : Namespace := take NS_SIZE s.

(** [k] rows of [k] shares that an extended square can have as its first quadrant. *)
Record ods_ok (k : nat) (ods : list bytes) : Prop := {
  ods_length : length ods = (k * k)%nat;
  ods_width : (1 ≤ k ≤ 128)%nat ∧ ∃ j, k = (2 ^ j)%nat;
  ods_shards : Forall (λ s, is_shard s ∧ valid_namespace (ns_of s)) ods;
  ods_rows r c s s' : (r < k)%nat → (c + 1 < k)%nat → ods !! (r * k + c)%nat = Some s →
    ods !! (r * k + (c + 1))%nat = Some s' → bytes_le (ns_of s) (ns_of s') = true;
  ods_columns r c s s' : (r + 1 < k)%nat → (c < k)%nat → ods !! (r * k + c)%nat = Some s →
    ods !! ((r + 1) * k + c)%nat = Some s' → bytes_le (ns_of s) (ns_of s') = true
}.

Lemma Forall_repeat_same {A} (P : A → Prop) x n : P x → Forall P (repeat x n).
Proof. intros Hx. induction n; by constructor. Qed.
Lemma zero_share_shard : is_shard zero_share.
Proof. split; [apply repeat_length|]. apply Forall_repeat_same. unfold is_byte. lia. Qed.

Lemma bytes_le_parity ns : are_bytes ns → (length ns ≤ NS_SIZE)%nat → bytes_le ns PARITY_SHARE = true.
Proof.
  change PARITY_SHARE with (repeat 255 NS_SIZE). generalize NS_SIZE. intros n Hb. revert n.
  induction Hb as [|x ns [Hx0 Hx] _ IH]; intros [|n] Hl; cbn [repeat bytes_le length] in *; [done..|lia|].
  rewrite IH by lia. lia.
Qed.

Lemma interleave_spec n k ods : length ods = (n * k)%nat → Forall is_shard ods →
  length (interleave n k ods) = (n * (k * 2))%nat ∧ Forall is_shard (interleave n k ods) ∧
  ∀ r c, (r < n)%nat → (c < k)%nat → interleave n k ods !! (r * (k * 2) + c)%nat = ods !! (r * k + c)%nat.
Proof.
  revert ods. induction n as [|n IH]; intros ods Hl Hs; cbn [interleave].
  { split_and!; [done|constructor|]. intros; lia. }
  destruct (IH (drop k ods)) as (Hl'&Hs'&Hat); [rewrite length_drop; lia|by apply Forall_drop|].
  assert (length (take k ods) = k) as Ht by (rewrite length_take; lia). split_and!.
  - rewrite !length_app, repeat_length, Ht, Hl'. lia.
  - rewrite !Forall_app. split_and!; [by apply Forall_take| |done].
    apply Forall_repeat_same, zero_share_shard.
  - intros [|r] c Hr Hc.
    + rewrite lookup_app_l by lia. by apply lookup_take_lt.
    + rewrite lookup_app_r by lia. rewrite lookup_app_r by (rewrite repeat_length; lia).
      rewrite Ht, repeat_length.
      replace (Datatypes.S r * (k * 2) + c - k - k)%nat with (r * (k * 2) + c)%nat by lia.
      rewrite Hat by lia. rewrite lookup_drop. f_equal. lia.
Qed.

Section FromOdsSpec.
Context `{LeopardCodecSpec} (k : nat) (ods : list bytes) (Hods : ods_ok k ods).
#[local] Notation w := (k * 2)%nat.

(** The three passes. *)
Lemma extend_spec : ∃ l,
  (∀ v, eds_from_ods ods v = eds_new l [76; 101; 111; 112; 97; 114; 100] v) ∧
  length l = (w * w)%nat ∧ Forall is_shard l ∧
  (∀ r c, (r < k)%nat → (c < k)%nat → l !! (r * w + c)%nat = ods !! (r * k + c)%nat) ∧
  (∀ r, (r < w)%nat → codeword k (read_row k r l)) ∧
  (∀ c, (c < k)%nat → codeword k (read_column c w l)).
Proof.
  destruct Hods as [Hlen [Hk _] Hsh _ _].
  assert (Forall is_shard ods) as Hsh' by (eapply Forall_impl; [exact Hsh|]; by intros x []).
  destruct (interleave_spec k k ods Hlen Hsh') as (Hl0&Hs0&Hat0).
  set (l0 := interleave k k ods ++ repeat zero_share (w * w - length (interleave k k ods))).
  assert (length l0 = (w * w)%nat) as Hl0' by (subst l0; rewrite length_app, repeat_length; nia).
  assert (Forall is_shard l0) as Hs0'.
  { apply Forall_app. split; [done|]. apply Forall_repeat_same, zero_share_shard. }
  destruct (encode_rows_spec k k 0 l0) as (l1&E1&L1&S1&Same1&C1); [lia|lia|done..|].
  destruct (encode_columns_spec k (seq 0 k) l1) as (l2&E2&L2&S2&Same2&C2); [lia| |apply NoDup_ListNoDup, seq_NoDup|done..|].
  { apply Forall_forall. intros c Hc%elem_of_seq. lia. }
  destruct (encode_rows_spec k k k l2) as (l3&E3&L3&S3&Same3&C3); [lia|lia|done..|].
  exists l3. split_and!; [|done|done| | |].
  - intros v. unfold eds_from_ods. rewrite Hlen.
    replace (Z.to_nat (Z.sqrt (Z.of_nat (k * k)))) with k
      by (rewrite Nat2Z.inj_mul, Z.sqrt_square by lia; lia).
    rewrite Nat.eqb_refl. cbn [negb]. destruct (Nat.eqb_spec w 0); [lia|].
    fold l0. apply (bind_step E1), (bind_step E2), (bind_step E3), eq_refl.
  - intros r c Hr Hc. rewrite (Same3 r c), (Same2 r c), (Same1 r c) by lia.
    subst l0. rewrite lookup_app_l by nia. by apply Hat0.
  - intros r Hr. destruct (decide (r < k)%nat) as [Hrk|]; [|apply C3; lia].
    rewrite (read_row_ext k r l3 l1); [apply C1; lia|]. intros c Hc.
    rewrite (Same3 r c), (Same2 r c) by lia. done.
  - intros c Hc. rewrite (read_column_ext k c l3 l2); [apply C2, elem_of_seq; lia|].
    intros r Hr. apply Same3; lia.
Qed.
(** Widths that are powers of two. *)
Lemma ods_dims v : dims_ok v (w * w) (Z.of_nat w).
Proof.
  destruct Hods as [_ [Hk [j Hj]] _ _ _]. split_and!.
  - exists (Z.of_nat j + 1). split; [lia|]. rewrite Z.pow_add_r by lia. rewrite Hj, Nat2Z.inj_mul, Nat2Z.inj_pow. done.
  - lia.
  - rewrite max_width_256. lia.
  - lia.
Qed.

(** Extended shares of the right size and the data quadrant decide what [new] reads. *)
Lemma extended_sq l r c : length l = (w * w)%nat → Forall is_shard l →
  (∀ r c, (r < k)%nat → (c < k)%nat → l !! (r * w + c)%nat = ods !! (r * k + c)%nat) →
  0 ≤ r < Z.of_nat w → 0 ≤ c < Z.of_nat w →
  square_share l (Z.of_nat w) r c = Ok (sq l (Z.of_nat w) r c) ∧
  l !! (Z.to_nat r * w + Z.to_nat c)%nat = Some (sh_data (sq l (Z.of_nat w) r c)) ∧
  share_namespace (sq l (Z.of_nat w) r c) =
    (if is_ods_square r c (Z.of_nat w) then ns_of (sh_data (sq l (Z.of_nat w) r c)) else PARITY_SHARE) ∧
  (is_ods_square r c (Z.of_nat w) = true →
    ods !! (Z.to_nat r * k + Z.to_nat c)%nat = Some (sh_data (sq l (Z.of_nat w) r c))).
Proof.
  intros Hl Hsh Hat Hr Hc.
  destruct (lookup_lt_is_Some_2 l (Z.to_nat r * w + Z.to_nat c)) as [x Hx]; [nia|].
  assert (is_shard x) as [Hxl Hxb] by by eapply Forall_lookup_1 in Hsh.
  assert (is_ods_square r c (Z.of_nat w) = true → ods !! (Z.to_nat r * k + Z.to_nat c)%nat = Some x) as Hox.
  { unfold is_ods_square. rewrite Nat2Z.inj_mul, Z.div_mul, andb_true_iff, !Z.ltb_lt by lia. intros [??].
    rewrite <-Hat by lia. done. }
  set (s := {| sh_data := x; sh_is_parity := negb (is_ods_square r c (Z.of_nat w)) |}).
  assert (square_share l (Z.of_nat w) r c = Ok s) as Hs.
  { apply square_share_Ok; [eapply Forall_impl; [exact Hsh|]; by intros ? []|]. split_and!; [| |done].
    - unfold flatten_index. replace (Z.to_nat (r * Z.of_nat w + c)) with (Z.to_nat r * w + Z.to_nat c)%nat by nia. done.
    - split; [done|]. cbn. intros Hods'%negb_false_iff. specialize (Hox Hods').
      eapply Forall_lookup_1 in Hox; [|apply (ods_shards _ _ Hods)]. apply Hox. }
  unfold sq. rewrite Hs. split_and!; [done|done| |done]. unfold share_namespace. cbn.
  by destruct (is_ods_square r c _).
Qed.

Lemma extended_chain l axis i : length l = (w * w)%nat → Forall is_shard l →
  (∀ r c, (r < k)%nat → (c < k)%nat → l !! (r * w + c)%nat = ods !! (r * k + c)%nat) →
  0 ≤ i < Z.of_nat w → ns_chain None (axis_of (sq l (Z.of_nat w)) axis (Z.of_nat w) i).
Proof.
  intros Hl Hsh Hat Hi. apply axis_chain. intros j Hj Hj'.
  assert (∀ r c r' c', 0 ≤ r < Z.of_nat w → 0 ≤ c < Z.of_nat w → 0 ≤ r' < Z.of_nat w → 0 ≤ c' < Z.of_nat w →
    (is_ods_square r' c' (Z.of_nat w) = true → is_ods_square r c (Z.of_nat w) = true ∧ ∀ s s',
      ods !! (Z.to_nat r * k + Z.to_nat c)%nat = Some s → ods !! (Z.to_nat r' * k + Z.to_nat c')%nat = Some s' →
      bytes_le (ns_of s) (ns_of s') = true) →
    bytes_le (share_namespace (sq l (Z.of_nat w) r c)) (share_namespace (sq l (Z.of_nat w) r' c')) = true) as Hle.
  { intros r c r' c' Hr Hc Hr' Hc' Hord.
    destruct (extended_sq l r c Hl Hsh Hat Hr Hc) as (_&Hd&->&Ho).
    destruct (extended_sq l r' c' Hl Hsh Hat Hr' Hc') as (_&_&->&Ho').
    destruct (is_ods_square r' c' _).
    - destruct (Hord eq_refl) as [Hods1 Hle]. rewrite Hods1 in *. apply Hle; auto.
    - case_ifs; [|apply bytes_le_refl]. destruct (Forall_lookup_1 _ _ _ _ Hsh Hd) as [Hdl Hdb].
      apply bytes_le_parity; [by apply Forall_take|]. unfold ns_of. rewrite length_take. lia. }
  assert (∀ a b : Z, is_ods_square a b (Z.of_nat w) = true ↔ a < Z.of_nat k ∧ b < Z.of_nat k) as Hq.
  { intros a b. unfold is_ods_square. by rewrite Nat2Z.inj_mul, Z.div_mul, andb_true_iff, !Z.ltb_lt by lia. }
  destruct axis; apply Hle; try lia; rewrite !Hq; intros [??]; (split; [lia|]); intros s s' Hs Hs'.
  - apply (ods_rows _ _ Hods (Z.to_nat i) (Z.to_nat j) s s'); [lia|lia|done|].
    by replace (Z.to_nat j + 1)%nat with (Z.to_nat (j + 1)) by lia.
  - apply (ods_columns _ _ Hods (Z.to_nat j) (Z.to_nat i) s s'); [lia|lia|done|].
    by replace (Z.to_nat j + 1)%nat with (Z.to_nat (j + 1)) by lia.
Qed.
End FromOdsSpec.

Lemma from_ods_spec `{LeopardCodecSpec} k ods v : ods_ok k ods →
  ∃ eds, eds_from_ods ods v = Ok eds ∧ eds_wf v eds ∧ eds_square_width eds = Z.of_nat (k * 2) ∧
    (∀ r c, (r < k)%nat → (c < k)%nat →
      sh_data <$> eds_data_square eds !! (r * (k * 2) + c)%nat = ods !! (r * k + c)%nat) ∧
    (∀ r, (r < k * 2)%nat → codeword k (read_row k r (sh_data <$> eds_data_square eds))) ∧
    (∀ c, (c < k)%nat → codeword k (read_column c (k * 2) (sh_data <$> eds_data_square eds))).
Proof.
  intros Hods. destruct (extend_spec k ods Hods) as (l&He&Hl&Hsh&Hat&Hrows&Hcols).
  pose proof (ods_dims k ods Hods v) as Hd. rewrite <-Hl in Hd.
  assert (Forall are_bytes l) as Hb by (eapply Forall_impl; [exact Hsh|]; by intros ? []).
  assert (∀ r c, 0 ≤ r < Z.of_nat (k * 2) → 0 ≤ c < Z.of_nat (k * 2) →
    square_share l (Z.of_nat (k * 2)) r c = Ok (sq l (Z.of_nat (k * 2)) r c)) as Hsq
    by (intros; by apply (extended_sq k ods Hods)).
  assert (∀ axis i, 0 ≤ i < Z.of_nat (k * 2) →
    ns_chain None (axis_of (sq l (Z.of_nat (k * 2))) axis (Z.of_nat (k * 2)) i)) as Hch
    by (intros; by apply (extended_chain k ods Hods)).
  eexists. split; [rewrite He; by apply (eds_new_Ok v _ _ _ _ Hd)|].
  destruct (grid_wf v l [76; 101; 111; 112; 97; 114; 100] _ Hb Hd Hsq Hch) as [Hwf Hdata].
  cbn [eds_square_width eds_data_square]. split_and!; [done|done| |by rewrite Hdata..].
  intros r c Hr Hc. by rewrite <-list_lookup_fmap, Hdata, Hat.
Qed.

(** ** Properties *)

(** C11. The constructor of the extended data square accepts exactly the well-formed squares:
    on any bytes [ExtendedDataSquare::new] returns a square if and only if the square has
    these bytes, its width is a power of two from 2 up to the maximum of the app version,
    every share has 512 bytes, the shares of the first quadrant (and only they) are not
    parity and have valid namespaces, and the namespaces do not decrease along any row or
    column.  It never panics. *)
Theorem eds_new_exact v shares codec eds : Forall are_bytes shares →
  (eds_new shares codec v = Ok eds ↔
    eds_wf v eds ∧ sh_data <$> eds_data_square eds = shares ∧ eds_codec eds = codec) ∧
  eds_new shares codec v ≠ Panic.
Proof.
  intros Hb. split; [|by apply eds_new_no_panic]. split; [by apply eds_new_wf|].
  intros (Hwf&<-&<-). by apply (eds_wf_new v).
Qed.

(** C27. Extending data: for every original square of [k] by [k] shares (a power of two up to
    128, valid namespaces in order along rows and columns), [ExtendedDataSquare::from_ods]
    returns a well-formed square of twice the width whose first quadrant is that data, all of
    whose rows and whose first [k] columns are code words of the erasure code. *)
Theorem eds_from_ods_correct `{LeopardCodecSpec} k ods v : ods_ok k ods →
  ∃ eds, eds_from_ods ods v = Ok eds ∧ eds_wf v eds ∧ eds_square_width eds = Z.of_nat (k * 2) ∧
    (∀ r c, (r < k)%nat → (c < k)%nat →
      sh_data <$> eds_data_square eds !! (r * (k * 2) + c)%nat = ods !! (r * k + c)%nat) ∧
    (∀ r, (r < k * 2)%nat → codeword k (read_row k r (sh_data <$> eds_data_square eds))) ∧
    (∀ c, (c < k)%nat → codeword k (read_column c (k * 2) (sh_data <$> eds_data_square eds))).
Proof. apply from_ods_spec. Qed.

(** The data availability header of a square: for every well-formed square
    [DataAvailabilityHeader::from_eds] returns a header (none of its [expect]s fails) that
    passes validation, and each of its roots is the root of the namespaced tree over exactly
    the shares that [axis] returns for that row or column. *)
Theorem dah_from_eds_correct `{NmtExternalsSpec} v eds : eds_wf v eds →
  ∃ dah, dah_from_eds eds = Ok dah ∧ dah_validate_basic dah v = Ok tt ∧
    ∀ axis i, 0 ≤ i < eds_square_width eds → ∃ shares h,
      eds_axis eds axis i = Ok shares ∧ dah_root dah axis i = Some h ∧
      nmt_root (share_leaf <$> shares) = Some h.
Proof.
  intros Hwf. destruct (from_eds_spec v eds Hwf) as (dah&Hdah&_&Hv&Hr). exists dah.
  split_and!; [done|done|]. intros axis i Hi. destruct (Hr axis i Hi) as (h&Hh&Hn).
  exists (axis_of (cell eds) axis (eds_square_width eds) i), h. by rewrite (eds_axis_in v).
Qed.

(** C12. The data root binds the block: two well-formed squares whose data availability
    headers have the same hash hold the same shares, when hashes do not collide. *)
Theorem data_root_binds_square `{NmtExternalsSpec, !NmtCollisionFree}
    `{DahExternalsSpec, !CollisionFree bytes, !DomainSeparated bytes} v1 v2 eds1 eds2 dah1 dah2 :
  eds_wf v1 eds1 → eds_wf v2 eds2 → dah_from_eds eds1 = Ok dah1 → dah_from_eds eds2 = Ok dah2 →
  dah_hash dah1 = dah_hash dah2 → eds_data_square eds1 = eds_data_square eds2.
Proof.
  intros Hwf1 Hwf2 E1 E2 Hh.
  destruct (from_eds_spec v1 eds1 Hwf1) as (d1&E1'&W1&V1&R1). rewrite E1 in E1'. injection E1' as <-.
  destruct (from_eds_spec v2 eds2 Hwf2) as (d2&E2'&W2&V2&R2). rewrite E2 in E2'. injection E2' as <-.
  pose proof (dah_hash_binding dah1 dah2 v1 v2 W1 W2 V1 V2 Hh) as <-.
  assert (eds_square_width eds1 = eds_square_width eds2) as Hw.
  { apply (from_eds_width v1 eds1 Hwf1) in E1. apply (from_eds_width v2 eds2 Hwf2) in E2. congruence. }
  rewrite (eds_data_grid v1 eds1), (eds_data_grid v2 eds2), <-Hw by done.
  pose proof (eds_bounds _ _ Hwf1) as Hb. apply grid_ext; [lia|]. intros r c Hr Hc.
  destruct (R1 Row r Hr) as (h1&Hh1&N1). destruct (R2 Row r) as (h2&Hh2&N2); [lia|].
  rewrite Hh1 in Hh2. injection Hh2 as <-. rewrite <-Hw in N2.
  pose proof (nmt_root_inj _ _ _ _ N1 N2 eq_refl) as Hl.
  assert (share_leaf (cell eds1 r c) = share_leaf (cell eds2 r c)) as Hleaf.
  { apply (f_equal (lookup (Z.to_nat c))) in Hl. rewrite !list_lookup_fmap, !axis_of_lookup, Z2Nat.id in Hl by lia.
    cbn [fmap option_fmap option_map] in Hl. congruence. }
  destruct (cell_ok v1 eds1 Hwf1 r c Hr Hc) as [_ P1].
  destruct (cell_ok v2 eds2 Hwf2 r c) as [_ P2]; [lia..|].
  rewrite <-Hw, <-P1 in P2. apply (f_equal fst) in Hleaf. destruct (cell eds1 r c), (cell eds2 r c). cbn in Hleaf, P2. congruence.
Qed.

(** Coordinates are not checked one by one: a column beyond the width reads a share of
    a later row, so [share] returns an error only when the flattened index is outside the
    square. *)
Theorem eds_share_column_overflow v eds row column : eds_wf v eds →
  0 ≤ row → 0 ≤ column →
  let w := eds_square_width eds in
  (row * w + column < w * w →
    eds_share eds row column = eds_share eds (row + column / w) (column mod w) ∧
    ∃ s, eds_share eds row column = Ok s) ∧
  (w * w ≤ row * w + column → eds_share eds row column = Err (EdsIndexOutOfRange row column)).
Proof.
  intros Hwf Hr Hc w. pose proof (eds_bounds _ _ Hwf) as Hb. pose proof (eds_length _ _ Hwf) as Hl. fold w in Hb, Hl.
  unfold eds_share. fold w. split; intros Hi.
  - replace ((row + column / w) * w + column mod w) with (row * w + column)
      by (pose proof (Z.div_mod column w ltac:(lia)); lia).
    destruct (lookup_lt_is_Some_2 (eds_data_square eds) (Z.to_nat (row * w + column))) as [s ->]; [lia|]. cbn. eauto.
  - by rewrite lookup_ge_None_2 by lia.
Qed.

(** ** Witnesses

    The erasure code that repeats the data; the tree and the hash of the files before. *)
#[local] Instance toy_LeopardCodec : LeopardCodec := λ shards n,
  if (length shards =? n * 2)%nat then Some (take n shards ++ take n shards) else None.
#[local] Instance toy_LeopardCodecSpec : LeopardCodecSpec.
Proof.
  split; unfold leopard_encode, toy_LeopardCodec.
  - intros shards n _ -> _ _. rewrite Nat.eqb_refl. eauto.
  - intros shards n out. destruct (Nat.eqb_spec (length shards) (n * 2)) as [Hl|]; [|done]. intros [= <-].
    assert (length (take n shards) = n) as Ht by (rewrite length_take; lia). split_and!.
    + rewrite length_app. lia.
    + by rewrite take_app_length'.
    + intros Hs. apply Forall_app. by split; apply Forall_take.
Qed.
#[local] Existing Instances toy_NmtExternals toy_NmtExternalsSpec toy_NmtCollisionFree
  toy_MerkleHash toy_CollisionFree toy_DomainSeparated toy_DahExternals toy_DahExternalsSpec.

Definition toy_tail : bytes := TAIL_PADDING ++ [1] ++ repeat 0 482.
Definition toy_square : ExtendedDataSquare :=
  {| eds_data_square := {| sh_data := toy_tail; sh_is_parity := false |}
       :: repeat {| sh_data := toy_tail; sh_is_parity := true |} 3;
     eds_codec := [76]; eds_square_width := 2 |}.
Lemma toy_tail_bytes : are_bytes toy_tail.
Proof. apply (bool_decide_eq_true_1 (Forall (λ b, 0 ≤ b ≤ 255) toy_tail)). vm_compute. reflexivity. Qed.
Lemma toy_tails_bytes : Forall are_bytes (repeat toy_tail 4).
Proof. apply Forall_repeat_same, toy_tail_bytes. Qed.
Lemma toy_square_new : eds_new (repeat toy_tail 4) [76] V3 = Ok toy_square.
Proof. vm_compute. reflexivity. Qed.
Lemma toy_square_wf : eds_wf V3 toy_square.
Proof. apply (eds_new_wf V3 _ [76] _ toy_tails_bytes toy_square_new). Qed.

Lemma eds_new_exact_witness : eds_wf V3 toy_square.
Proof. apply (eds_new_exact V3 (repeat toy_tail 4) [76] toy_square toy_tails_bytes), toy_square_new. Defined.

Lemma eds_from_ods_correct_witness : ∃ eds, eds_from_ods [toy_tail] V1 = Ok eds ∧ eds_square_width eds = 2.
Proof.
  destruct (eds_from_ods_correct 1 [toy_tail] V1) as (eds&He&_&Hw&_); [|by exists eds].
  split; [done|split; [lia|by exists 0%nat]| |lia|lia].
  constructor; [|done]. split; [split; [done|apply toy_tail_bytes]|]. right. by exists 254.
Defined.

Lemma dah_from_eds_correct_witness : ∃ dah, dah_from_eds toy_square = Ok dah ∧ dah_validate_basic dah V3 = Ok tt.
Proof.
  destruct (dah_from_eds_correct V3 toy_square toy_square_wf) as (dah&Hd&Hv&_). by exists dah.
Defined.

Lemma data_root_binds_square_witness : eds_data_square toy_square = eds_data_square toy_square.
Proof.
  destruct (from_eds_spec V3 toy_square toy_square_wf) as (dah&Hd&_).
  exact (data_root_binds_square V3 V3 toy_square toy_square dah dah toy_square_wf toy_square_wf Hd Hd eq_refl).
Defined.

Lemma eds_share_column_overflow_witness : eds_share toy_square 0 3 = eds_share toy_square 1 1.
Proof. apply (eds_share_column_overflow V3 toy_square 0 3 toy_square_wf); vm_compute; done. Defined.
