(* ===== verification/ShwapIds.v ===== *)
(** * Identifiers of the shwap protocol (src/types/src/row.rs, sample.rs,
    row_namespace_data.rs)

    The ids of rows, samples and namespaced rows, their binary form, and the content ids
    that carry this form as digest.  The crates cid, multihash and beetswap are external:
    a content id is the record of its parts, and the two functions that the ids go through
    are the class [CidExternals]. *)

From S2P Require Import Prelude Consts Nmt.

(** ** Content ids *)

Inductive CidVersion := CidV0 | CidV1.
#[global] Instance CidVersion_eq_dec : EqDecision CidVersion.
Proof. solve_decision. Defined.

(** [multihash::Multihash]: a code and a digest; its size is the length of the digest. *)
Record Multihash := { mh_code : Z; mh_digest : bytes }.
#[global] Instance Multihash_eq_dec : EqDecision Multihash.
Proof. solve_decision. Defined.

(** [cid::CidGeneric].  The bound on the size of the digest is not part of the data. *)
Record CidGeneric := { cid_version : CidVersion; cid_codec : Z; cid_hash : Multihash }.
#[global] Instance CidGeneric_eq_dec : EqDecision CidGeneric.
Proof. solve_decision. Defined.

(** [cid::Cid], which is [CidGeneric<64>]. *)
Definition Cid := CidGeneric.
#[global] Instance Cid_eq_dec : EqDecision Cid := CidGeneric_eq_dec.
#[global] Instance Cid_countable : Countable Cid.
Proof.
  apply (inj_countable'
    (λ c, (bool_decide (cid_version c = CidV0), cid_codec c, mh_code (cid_hash c), mh_digest (cid_hash c)))
    (λ '(v, codec, code, digest),
       {| cid_version := if v : bool then CidV0 else CidV1; cid_codec := codec;
          cid_hash := {| mh_code := code; mh_digest := digest |} |})).
  by intros [[] ? []].
Defined.

(** [CidGeneric::new_v1]. *)
Definition cid_new_v1 (codec : Z) (hash : Multihash) : CidGeneric :=
  {| cid_version := CidV1; cid_codec := codec; cid_hash := hash |}.

Class CidExternals := {
  (** [Multihash::<S>::wrap], [None] for its error *)
  mh_wrap : nat → Z → bytes → option Multihash;
  (** [beetswap::utils::convert_cid], to [CidGeneric<64>] *)
  beetswap_convert_cid : CidGeneric → option Cid
}.

(** Both only check that the digest fits. *)
Class CidExternalsSpec `{CidExternals} : Prop := {
  mh_wrap_fits size code digest : (length digest ≤ size)%nat →
    mh_wrap size code digest = Some {| mh_code := code; mh_digest := digest |};
  convert_cid_fits cid : (length (mh_digest (cid_hash cid)) ≤ 64)%nat →
    beetswap_convert_cid cid = Some cid
}.

(** [blockstore::block::CidError]; the texts of [InvalidCid] are not represented. *)
Inductive CidError :=
| InvalidCidCodec (codec : Z)
| InvalidMultihashLength (len : nat)
| InvalidMultihashCode (code expected : Z)
| InvalidCid.

(** The error of the constructors. *)
Inductive IdError := ZeroBlockHeight.

(** ** Rows *)

Definition EDS_ID_SIZE : nat := 8.
Definition ROW_ID_SIZE : nat := EDS_ID_SIZE + 2.
Definition ROW_ID_MULTIHASH_CODE : Z := 0x7801.
Definition ROW_ID_CODEC : Z := 0x7800.

Record EdsId := { eds_height : Z }.
Record RowId := { ri_eds_id : EdsId; ri_index : Z }.

Definition RowId_new (index height : Z) : res IdError RowId :=
  if height =? 0 then Err ZeroBlockHeight
  else Ok {| ri_index := index; ri_eds_id := {| eds_height := height |} |}.
Definition RowId_block_height (id : RowId) : Z := eds_height (ri_eds_id id).

Definition RowId_encode (id : RowId) : bytes :=
  be_bytes 8 (RowId_block_height id) ++ be_bytes 2 (ri_index id).

Definition RowId_decode (buffer : bytes) : res CidError RowId :=
  if negb (length buffer =? ROW_ID_SIZE)%nat
  then Err (InvalidMultihashLength (length buffer)) else
  '(height, buffer) ← get_be 8 buffer;
  '(index, _) ← get_be 2 buffer;
  if height =? 0 then Err InvalidCid
  else Ok {| ri_eds_id := {| eds_height := height |}; ri_index := index |}.

(** The checks that the three [TryFrom<CidGeneric<S>>] share, and then [decode]. *)
Definition cid_try_into {A} (codec' : Z) (size' : nat) (code' : Z)
    (decode : bytes → res CidError A) (cid : CidGeneric) : res CidError A :=
  let codec := cid_codec cid in
  if negb (codec =? codec') then Err (InvalidCidCodec codec) else
  let hash := cid_hash cid in
  let size := length (mh_digest hash) in
  if negb (size =? size')%nat then Err (InvalidMultihashLength size) else
  let code := mh_code hash in
  if negb (code =? code') then Err (InvalidMultihashCode code code') else
  decode (mh_digest hash).

Definition RowId_try_from (cid : CidGeneric) : res CidError RowId :=
  cid_try_into ROW_ID_CODEC ROW_ID_SIZE ROW_ID_MULTIHASH_CODE RowId_decode cid.

Definition RowId_into_cid `{CidExternals} (row : RowId) : res CidError CidGeneric :=
  mh ← expect (mh_wrap ROW_ID_SIZE ROW_ID_MULTIHASH_CODE (RowId_encode row));
  Ok (cid_new_v1 ROW_ID_CODEC mh).

(** ** Samples *)

Definition SAMPLE_ID_SIZE : nat := 12.
Definition SAMPLE_ID_MULTIHASH_CODE : Z := 0x7811.
Definition SAMPLE_ID_CODEC : Z := 0x7810.

Record SampleId := { si_row_id : RowId; si_column_index : Z }.

Definition SampleId_new (row_index column_index block_height : Z) : res IdError SampleId :=
  if block_height =? 0 then Err ZeroBlockHeight else
  row_id ← RowId_new row_index block_height;
  Ok {| si_row_id := row_id; si_column_index := column_index |}.
Definition SampleId_block_height (id : SampleId) : Z := RowId_block_height (si_row_id id).
Definition SampleId_row_index (id : SampleId) : Z := ri_index (si_row_id id).

Definition SampleId_encode (id : SampleId) : bytes :=
  RowId_encode (si_row_id id) ++ be_bytes 2 (si_column_index id).

Definition SampleId_decode (buffer : bytes) : res CidError SampleId :=
  if negb (length buffer =? SAMPLE_ID_SIZE)%nat
  then Err (InvalidMultihashLength (length buffer)) else
  '(row_bytes, col_bytes) ← split_at ROW_ID_SIZE buffer;
  row_id ← RowId_decode row_bytes;
  '(column_index, _) ← get_be 2 col_bytes;
  Ok {| si_row_id := row_id; si_column_index := column_index |}.

Definition SampleId_try_from (cid : CidGeneric) : res CidError SampleId :=
  cid_try_into SAMPLE_ID_CODEC SAMPLE_ID_SIZE SAMPLE_ID_MULTIHASH_CODE SampleId_decode cid.

Definition SampleId_into_cid `{CidExternals} (sample_id : SampleId) : res CidError CidGeneric :=
  mh ← expect (mh_wrap SAMPLE_ID_SIZE SAMPLE_ID_MULTIHASH_CODE (SampleId_encode sample_id));
  Ok (cid_new_v1 SAMPLE_ID_CODEC mh).

(** ** Rows of a namespace *)

Definition ROW_NAMESPACE_DATA_ID_SIZE : nat := 39.
Definition ROW_NAMESPACE_DATA_ID_MULTIHASH_CODE : Z := 0x7821.
Definition ROW_NAMESPACE_DATA_CODEC : Z := 0x7820.

Record RowNamespaceDataId := { rn_row_id : RowId; rn_namespace : Namespace }.

Definition RowNamespaceDataId_new (namespace : Namespace) (row_index block_height : Z)
    : res IdError RowNamespaceDataId :=
  if block_height =? 0 then Err ZeroBlockHeight else
  row_id ← RowId_new row_index block_height;
  Ok {| rn_row_id := row_id; rn_namespace := namespace |}.
Definition RowNamespaceDataId_block_height (id : RowNamespaceDataId) : Z :=
  RowId_block_height (rn_row_id id).
Definition RowNamespaceDataId_row_index (id : RowNamespaceDataId) : Z := ri_index (rn_row_id id).

Definition RowNamespaceDataId_encode (id : RowNamespaceDataId) : bytes :=
  RowId_encode (rn_row_id id) ++ rn_namespace id.

Definition RowNamespaceDataId_decode (buffer : bytes) : res CidError RowNamespaceDataId :=
  if negb (length buffer =? ROW_NAMESPACE_DATA_ID_SIZE)%nat
  then Err (InvalidMultihashLength (length buffer)) else
  '(row_bytes, ns_bytes) ← split_at ROW_ID_SIZE buffer;
  row_id ← RowId_decode row_bytes;
  namespace ← map_err (λ _, InvalidCid) (Namespace_from_raw ns_bytes);
  Ok {| rn_row_id := row_id; rn_namespace := namespace |}.

Definition RowNamespaceDataId_try_from (cid : CidGeneric) : res CidError RowNamespaceDataId :=
  cid_try_into ROW_NAMESPACE_DATA_CODEC ROW_NAMESPACE_DATA_ID_SIZE
    ROW_NAMESPACE_DATA_ID_MULTIHASH_CODE RowNamespaceDataId_decode cid.

Definition RowNamespaceDataId_into_cid `{CidExternals} (id : RowNamespaceDataId)
    : res CidError CidGeneric :=
  mh ← expect (mh_wrap ROW_NAMESPACE_DATA_ID_SIZE ROW_NAMESPACE_DATA_ID_MULTIHASH_CODE
                 (RowNamespaceDataId_encode id));
  Ok (cid_new_v1 ROW_NAMESPACE_DATA_CODEC mh).

(** ** Specification *)

Definition row_id_ok (id : RowId) : Prop :=
  0 < RowId_block_height id ∧ is_u64 (RowId_block_height id) ∧ is_u16 (ri_index id).
Definition sample_id_ok (id : SampleId) : Prop :=
  row_id_ok (si_row_id id) ∧ is_u16 (si_column_index id).
Definition row_namespace_data_id_ok (id : RowNamespaceDataId) : Prop :=
  row_id_ok (rn_row_id id) ∧ are_bytes (rn_namespace id) ∧ valid_namespace (rn_namespace id).

(** An encoding into [size] bytes whose image is exactly what decodes. *)
Definition exact_encoding {A} (ok : A → Prop) (size : nat) (encode : A → bytes)
    (decode : bytes → res CidError A) : Prop :=
  (∀ id, ok id → length (encode id) = size ∧ are_bytes (encode id) ∧ decode (encode id) = Ok id) ∧
  (∀ b id, are_bytes b → decode b = Ok id → ok id ∧ encode id = b) ∧
  (∀ b, decode b ≠ Panic).

(** Content ids that stand for ids, one for one. *)
Definition cid_bijection {A} (ok : A → Prop) (into : A → res CidError CidGeneric)
    (try_from : CidGeneric → res CidError A) : Prop :=
  (∀ id, ok id → ∃ cid, into id = Ok cid ∧ try_from cid = Ok id) ∧
  (∀ cid id, cid_version cid = CidV1 → are_bytes (mh_digest (cid_hash cid)) →
     try_from cid = Ok id → ok id ∧ into id = Ok cid) ∧
  (∀ cid, try_from cid ≠ Panic).

Lemma exact_encoding_cid `{CidExternalsSpec} {A} (ok : A → Prop) codec size code encode decode :
  exact_encoding ok size encode decode →
  cid_bijection ok
    (λ id, mh ← expect (mh_wrap size code (encode id)); Ok (cid_new_v1 codec mh))
    (cid_try_into codec size code decode).
Proof.
  intros (Henc&Hdec&Hnp). assert (∀ b, length b = size → mh_wrap size code b
    = Some {| mh_code := code; mh_digest := b |}) as Hwrap.
  { intros b Hb. apply mh_wrap_fits. lia. }
  split; [|split].
  - intros id Hid. destruct (Henc id Hid) as (Hlen&Hb&Hd). rewrite Hwrap by done.
    eexists. split; [done|]. unfold cid_try_into; simpl.
    by rewrite Z.eqb_refl, Hlen, Nat.eqb_refl, Z.eqb_refl.
  - intros [v c [k d]] id Hv Hb. unfold cid_try_into. simpl in *. subst v.
    destruct (Z.eqb_spec c codec) as [->|]; [|done]. destruct (Nat.eqb_spec (length d) size); [|done].
    destruct (Z.eqb_spec k code) as [->|]; [|done]. simpl. intros Hd.
    destruct (Hdec d id Hb Hd) as [Hok <-]. split; [done|]. by rewrite Hwrap.
  - intros cid. unfold cid_try_into. case_ifs; [done..|]. apply Hnp.
Qed.

Lemma row_id_encoding : exact_encoding row_id_ok ROW_ID_SIZE RowId_encode RowId_decode.
Proof.
  split; [|split].
  - intros [[h] i] (Hpos&Hh&Hi). unfold RowId_encode, RowId_decode, RowId_block_height in *.
    cbn [ri_eds_id ri_index eds_height] in *.
    assert (length (be_bytes 8 h ++ be_bytes 2 i) = 10%nat) as Hlen
      by by rewrite length_app, !length_be_bytes.
    split; [done|]. split; [by apply Forall_app_2; apply are_bytes_be|].
    rewrite Hlen. change (negb _) with false. cbv iota. rewrite get_be_app by apply length_be_bytes. cbv [mbind res_bind].
    rewrite <-(app_nil_r (be_bytes 2 i)), get_be_app by apply length_be_bytes.
    rewrite be_bytes_8, be_bytes_2 by done. by destruct (Z.eqb_spec h 0); [lia|].
  - intros b id Hb. unfold RowId_decode. destruct (Nat.eqb_spec (length b) ROW_ID_SIZE) as [Hl|]; [|done].
    cbn [negb]. destruct (split_bytes b 8 2 Hl Hb) as (l1&l2&->&H1&H2&Hb1&Hb2).
    rewrite get_be_app by done. cbv [mbind res_bind].
    rewrite <-(app_nil_r l2), get_be_app by done. destruct (Z.eqb_spec (be_value l1) 0); [done|].
    destruct (be_value_8 l1) as [Hu1 He1]; [done..|]. destruct (be_value_2 l2) as [Hu2 He2]; [done..|].
    intros [= <-]. unfold row_id_ok, RowId_encode, RowId_block_height. simpl ri_eds_id. simpl ri_index.
    simpl eds_height. rewrite He1, He2, app_nil_r. split_and!; try done. destruct Hu1; lia.
  - intros b. unfold RowId_decode. destruct (Nat.eqb_spec (length b) ROW_ID_SIZE) as [Hl|]; [|done].
    rewrite <-(take_drop 8 b). rewrite get_be_app by (rewrite length_take, Hl; done).
    cbv [mbind res_bind]. rewrite <-(app_nil_r (drop 8 b)), get_be_app by (rewrite length_drop, Hl; done).
    by case_ifs.
Qed.

Lemma sample_id_encoding : exact_encoding sample_id_ok SAMPLE_ID_SIZE SampleId_encode SampleId_decode.
Proof.
  destruct row_id_encoding as (Henc&Hdec&Hnp). split; [|split].
  - intros [r c] [Hr Hc]. unfold SampleId_encode, SampleId_decode in *.
    cbn [si_row_id si_column_index] in *.
    destruct (Henc r Hr) as (Hlen&Hb&Hd).
    rewrite length_app, Hlen, length_be_bytes. split; [done|].
    split; [by apply Forall_app_2; [|apply are_bytes_be]|]. change (negb _) with false. cbv iota.
    rewrite split_at_app by done. cbv [mbind res_bind]. rewrite Hd.
    rewrite <-(app_nil_r (be_bytes 2 c)), get_be_app by apply length_be_bytes. by rewrite be_bytes_2.
  - intros b id Hb. unfold SampleId_decode.
    destruct (Nat.eqb_spec (length b) SAMPLE_ID_SIZE) as [Hl|]; [|done]. cbn [negb].
    destruct (split_bytes b 10 2 Hl Hb) as (l1&l2&->&H1&H2&Hb1&Hb2).
    rewrite split_at_app by done. cbv [mbind res_bind].
    destruct (RowId_decode l1) as [r| |] eqn:Hr; [|done..]. apply Hdec in Hr as [Hr He]; [|done].
    rewrite <-(app_nil_r l2), get_be_app by done. intros [= <-].
    destruct (be_value_2 l2) as [Hu2 He2]; [done..|]. split; [done|].
    unfold SampleId_encode. cbn [si_row_id si_column_index]. by rewrite He, He2, app_nil_r.
  - intros b. unfold SampleId_decode. destruct (Nat.eqb_spec (length b) SAMPLE_ID_SIZE) as [Hl|]; [|done].
    rewrite <-(take_drop 10 b). rewrite split_at_app by (rewrite length_take, Hl; done).
    cbv [mbind res_bind]. destruct (RowId_decode _) eqn:E; [|done|by apply Hnp in E].
    by rewrite <-(app_nil_r (drop 10 b)), get_be_app by (rewrite length_drop, Hl; done).
Qed.

Lemma row_namespace_data_id_encoding : exact_encoding row_namespace_data_id_ok
  ROW_NAMESPACE_DATA_ID_SIZE RowNamespaceDataId_encode RowNamespaceDataId_decode.
Proof.
  destruct row_id_encoding as (Henc&Hdec&Hnp). split; [|split].
  - intros [r ns] (Hr&Hnb&Hns). unfold RowNamespaceDataId_encode, RowNamespaceDataId_decode in *.
    simpl rn_row_id in *. simpl rn_namespace in *. destruct (Henc r Hr) as (Hlen&Hb&Hd).
    rewrite length_app, Hlen, (valid_namespace_length ns) by done. split; [done|].
    split; [by apply Forall_app_2|]. cbn [negb].
    change (ROW_ID_SIZE + NS_SIZE =? ROW_NAMESPACE_DATA_ID_SIZE)%nat with true. cbn [negb].
    rewrite split_at_app by done. cbv [mbind res_bind]. rewrite Hd.
    by rewrite (proj2 (proj1 (namespace_from_raw_exact ns ns))).
  - intros b id Hb. unfold RowNamespaceDataId_decode.
    destruct (Nat.eqb_spec (length b) ROW_NAMESPACE_DATA_ID_SIZE) as [Hl|]; [|done]. cbn [negb].
    destruct (split_bytes b 10 29 Hl Hb) as (l1&l2&->&H1&H2&Hb1&Hb2).
    rewrite split_at_app by done. cbv [mbind res_bind].
    destruct (RowId_decode l1) as [r| |] eqn:Hr; [|done..]. apply Hdec in Hr as [Hr He]; [|done].
    destruct (Namespace_from_raw l2) as [ns| |] eqn:Hns; [|done..].
    apply namespace_from_raw_exact in Hns as [-> Hns]. simpl. intros [= <-].
    split; [done|]. unfold RowNamespaceDataId_encode. cbn [rn_row_id rn_namespace]. by rewrite He.
  - intros b. unfold RowNamespaceDataId_decode.
    destruct (Nat.eqb_spec (length b) ROW_NAMESPACE_DATA_ID_SIZE) as [Hl|]; [|done].
    rewrite <-(take_drop 10 b). rewrite split_at_app by (rewrite length_take, Hl; done).
    cbv [mbind res_bind].
    destruct (RowId_decode _) eqn:E; [|done|by apply Hnp in E].
    destruct (Namespace_from_raw _) eqn:E'; [done|done|].
    by apply (namespace_from_raw_exact _ []) in E'.
Qed.

(** ** Properties *)

(** The content ids of the shwap protocol stand for the ids one for one, for rows,
    samples and rows of a namespace: a valid id (nonzero height) converts into a content
    id, never hitting the [unwrap], that converts back to it; a content id that is accepted
    is the one its id converts into; the conversion of an arbitrary content id never
    panics; and no content id is accepted for two kinds of id. *)
Theorem shwap_ids_one_for_one `{CidExternalsSpec} :
  cid_bijection row_id_ok RowId_into_cid RowId_try_from ∧
  cid_bijection sample_id_ok SampleId_into_cid SampleId_try_from ∧
  cid_bijection row_namespace_data_id_ok RowNamespaceDataId_into_cid RowNamespaceDataId_try_from ∧
  ∀ cid row sample ns,
    ¬ (RowId_try_from cid = Ok row ∧ SampleId_try_from cid = Ok sample) ∧
    ¬ (RowId_try_from cid = Ok row ∧ RowNamespaceDataId_try_from cid = Ok ns) ∧
    ¬ (SampleId_try_from cid = Ok sample ∧ RowNamespaceDataId_try_from cid = Ok ns).
Proof.
  split; [|split; [|split]].
  - apply exact_encoding_cid, row_id_encoding.
  - apply exact_encoding_cid, sample_id_encoding.
  - apply exact_encoding_cid, row_namespace_data_id_encoding.
  - intros cid row sample ns.
    unfold RowId_try_from, SampleId_try_from, RowNamespaceDataId_try_from, cid_try_into.
    destruct (Z.eqb_spec (cid_codec cid) ROW_ID_CODEC) as [->|]; simpl; [naive_solver|].
    destruct (Z.eqb_spec (cid_codec cid) SAMPLE_ID_CODEC) as [->|]; simpl; naive_solver.
Qed.

(** ** Witnesses *)

Definition toy_mh_wrap (size : nat) (code : Z) (digest : bytes) : option Multihash :=
  if (length digest <=? size)%nat then Some {| mh_code := code; mh_digest := digest |} else None.
Definition toy_convert_cid (cid : CidGeneric) : option Cid :=
  if (length (mh_digest (cid_hash cid)) <=? 64)%nat then Some cid else None.
Definition toy_CidExternals : CidExternals :=
  {| mh_wrap := toy_mh_wrap; beetswap_convert_cid := toy_convert_cid |}.
Lemma toy_CidExternalsSpec : @CidExternalsSpec toy_CidExternals.
Proof.
  split.
  - intros size code digest Hl. simpl. unfold toy_mh_wrap. by destruct (Nat.leb_spec (length digest) size); [|lia].
  - intros cid Hl. simpl. unfold toy_convert_cid.
    by destruct (Nat.leb_spec (length (mh_digest (cid_hash cid))) 64); [|lia].
Qed.

(** The sample at row 1, column 258 of block 515. *)
Definition toy_sample_id : SampleId :=
  {| si_row_id := {| ri_eds_id := {| eds_height := 515 |}; ri_index := 1 |}; si_column_index := 258 |}.
Definition toy_sample_cid : Cid :=
  cid_new_v1 SAMPLE_ID_CODEC
    {| mh_code := SAMPLE_ID_MULTIHASH_CODE; mh_digest := [0;0;0;0;0;0;2;3; 0;1; 1;2] |}.

Lemma shwap_ids_one_for_one_witness :
  @SampleId_into_cid toy_CidExternals toy_sample_id = Ok toy_sample_cid ∧
  ∃ cid, @SampleId_into_cid toy_CidExternals toy_sample_id = Ok cid ∧
    SampleId_try_from cid = Ok toy_sample_id.
Proof.
  split; [vm_compute; reflexivity|].
  apply (proj1 (proj1 (proj2 (@shwap_ids_one_for_one toy_CidExternals toy_CidExternalsSpec)))).
  unfold sample_id_ok, row_id_ok, is_u64, is_u16, u64_max, u16_max, RowId_block_height. simpl. lia.
Defined.
