(* ===== verification/NodeCids.v ===== *)
(** * Content ids of the namespaced tree (src/types/src/nmt.rs and share.rs)

    A node of the tree is addressed by the hash of its children, a leaf by the hash of the share.  The
    hasher is of nmt-rs: class [NmtHasher]; the Rust types give its results their sizes. *)

From S2P Require Import Prelude Consts Nmt Merkle Dah Share ShwapIds.

Definition NMT_MULTIHASH_CODE : Z := 0x7700.
Definition NMT_CODEC : Z := 0x7701.
Definition NMT_ID_SIZE : nat := 2 * NS_SIZE + HASH_SIZE.

(** [NamespacedSha2Hasher::with_ignore_max_ns(true)]. *)
Class NmtHasher := {
  hash_nodes : NamespacedHash → NamespacedHash → NamespacedHash;
  hash_leaf : bytes → NamespacedHash
}.
Class NmtHasherSpec `{NmtHasher} : Prop := {
  hash_nodes_wf l r : nh_wf (hash_nodes l r);
  hash_leaf_wf b : nh_wf (hash_leaf b)
}.

Section NodeCids.
Context `{CidExternals} `{NmtHasher}.

Record NodePair := { np_left : NamespacedHash; np_right : NamespacedHash }.
Definition NodePair_validate_namespace_order (p : NodePair) : res NsError unit :=
  _ ← validate_namespace_order (np_left p);
  _ ← validate_namespace_order (np_right p);
  if bytes_lt (min_namespace (np_right p)) (max_namespace (np_left p)) then Err InvalidNmtNodeOrder else Ok tt.

(** [CidError::InvalidDataFormat] is the error of the order. *)
Definition nmt_cid {E} (digest : bytes) : res E CidGeneric :=
  mh ← expect (mh_wrap NMT_ID_SIZE NMT_MULTIHASH_CODE digest);
  Ok (cid_new_v1 NMT_CODEC mh).
Definition NodePair_cid (p : NodePair) : res NsError CidGeneric :=
  _ ← NodePair_validate_namespace_order p;
  nmt_cid (nh_to_array (hash_nodes (np_left p) (np_right p))).
Definition Share_cid (s : Share) : res NsError CidGeneric := nmt_cid (nh_to_array (hash_leaf (sh_data s))).

Context `{!CidExternalsSpec} `{!NmtHasherSpec}.

Lemma nmt_cid_wf {E} h : nh_wf h →
  nmt_cid (E := E) (nh_to_array h) =
    Ok (cid_new_v1 NMT_CODEC {| mh_code := NMT_MULTIHASH_CODE; mh_digest := nh_to_array h |}).
Proof.
  intros (Hmin&Hmax&Hh). unfold nmt_cid. rewrite mh_wrap_fits; [done|]. unfold nh_to_array, NMT_ID_SIZE.
  rewrite !length_app, Hmin, Hmax, Hh. lia.
Qed.

(** A pair of nodes has a content id exactly when the namespaces of the two nodes and of the pair are
    in order, and the id then carries the hash of their parent; a share always has one, with its
    hash as a leaf.  The [unwrap]s of the multihashes never fail. *)
Theorem node_cids_exact l r s :
  let ordered := bytes_lt (max_namespace l) (min_namespace l) = false ∧ bytes_lt (max_namespace r) (min_namespace r) = false ∧
    bytes_lt (min_namespace r) (max_namespace l) = false in
  (∀ c, NodePair_cid {| np_left := l; np_right := r |} = Ok c ↔ ordered ∧
     c = cid_new_v1 NMT_CODEC {| mh_code := NMT_MULTIHASH_CODE; mh_digest := nh_to_array (hash_nodes l r) |}) ∧
  NodePair_cid {| np_left := l; np_right := r |} ≠ Panic ∧
  Share_cid s = Ok (cid_new_v1 NMT_CODEC {| mh_code := NMT_MULTIHASH_CODE; mh_digest := nh_to_array (hash_leaf (sh_data s)) |}).
Proof.
  unfold NodePair_cid, NodePair_validate_namespace_order, validate_namespace_order, Share_cid. cbn [np_left np_right].
  rewrite !nmt_cid_wf by (apply hash_nodes_wf || apply hash_leaf_wf).
  destruct (bytes_lt (max_namespace l) (min_namespace l)); cbn [mbind res_bind]; [split_and!; [|done|done]; naive_solver|].
  destruct (bytes_lt (max_namespace r) (min_namespace r)); cbn [mbind res_bind]; [split_and!; [|done|done]; naive_solver|].
  destruct (bytes_lt (min_namespace r) (max_namespace l)); cbn [mbind res_bind]; split_and!; try done; naive_solver.
Qed.
End NodeCids.

(** ** A concrete pair *)

#[local] Existing Instances toy_CidExternals toy_CidExternalsSpec.
(** The parent spans both children; the hash is constant. *)
Definition toy_node (lo hi : bytes) : NamespacedHash := {| min_namespace := lo; max_namespace := hi; nh_hash := repeat 1 32 |}.
#[local] Instance toy_hasher : NmtHasher := {|
  hash_nodes l r := toy_node (firstn NS_SIZE (min_namespace l ++ repeat 0 NS_SIZE)) (firstn NS_SIZE (max_namespace r ++ repeat 0 NS_SIZE));
  hash_leaf b := toy_node (firstn NS_SIZE (b ++ repeat 0 NS_SIZE)) (firstn NS_SIZE (b ++ repeat 0 NS_SIZE))
|}.
Lemma toy_node_wf lo hi : nh_wf (toy_node (firstn NS_SIZE (lo ++ repeat 0 NS_SIZE)) (firstn NS_SIZE (hi ++ repeat 0 NS_SIZE))).
Proof.
  unfold nh_wf, toy_node. cbn [min_namespace max_namespace nh_hash].
  rewrite !length_firstn, !length_app, !repeat_length. split_and!; [lia|lia|done].
Qed.
#[local] Instance toy_hasher_spec : NmtHasherSpec.
Proof. split; intros; apply toy_node_wf. Qed.
Lemma node_cids_exact_witness :
  NodePair_cid {| np_left := toy_node (repeat 2 29) (repeat 1 29); np_right := toy_node (repeat 2 29) (repeat 2 29) |} ≠ Panic.
Proof.
  apply (node_cids_exact (toy_node (repeat 2 29) (repeat 1 29)) (toy_node (repeat 2 29) (repeat 2 29)) {| sh_data := []; sh_is_parity := true |}).
Defined.
