(* ===== verification/Containers.v ===== *)
(** * Proofs and containers of the shwap protocol (src/types/src/nmt/namespace_proof.rs,
    row.rs, sample.rs, row_namespace_data.rs, share/proof.rs, and [get_namespace_data] of
    eds.rs)

    What travels between nodes: a row, a sample with its proof, the shares of a namespace in
    a row with their proof, and a proof of shares against the data root.  Building and
    verifying proofs over the namespaced tree is the external crate nmt-rs (the class
    [NmtProofs]), the erasure code is leopard-codec. *)

From S2P Require Import Prelude Consts Nmt Merkle Dah Share Eds ShwapIds.

(** ** Namespace proofs *)

(** [nmt_rs::simple_merkle::proof::Proof]; the range is of [u32]. *)
Record NmtProof := { np_siblings : list NamespacedHash; np_start : Z; np_end : Z }.

(** [nmt_rs::nmt_proof::NamespaceProof], which [struct NamespaceProof] wraps. *)
Inductive NamespaceProof :=
| PresenceProof (proof : NmtProof) (ignore_max_ns : bool)
| AbsenceProof (proof : NmtProof) (ignore_max_ns : bool) (leaf : option NamespacedHash).

(** The fields and the kind of a proof. *)
Definition np_proof (p : NamespaceProof) : NmtProof :=
  match p with PresenceProof proof _ | AbsenceProof proof _ _ => proof end.
Definition siblings (p : NamespaceProof) : list NamespacedHash := np_siblings (np_proof p).
Definition start_idx (p : NamespaceProof) : Z := np_start (np_proof p).
Definition end_idx (p : NamespaceProof) : Z := np_end (np_proof p).
Definition is_of_absence (p : NamespaceProof) : bool :=
  match p with AbsenceProof _ _ _ => true | PresenceProof _ _ => false end.
Definition is_of_presence (p : NamespaceProof) : bool := negb (is_of_absence p).

Definition np_leaf (p : NamespaceProof) : option NamespacedHash :=
  match p with AbsenceProof _ _ leaf => leaf | PresenceProof _ _ => None end.
Definition max_ns_ignored (p : NamespaceProof) : bool :=
  match p with AbsenceProof _ ignore_max_ns _ | PresenceProof _ ignore_max_ns => ignore_max_ns end.

(** [1 << siblings.len()] on [usize] overflows from 64 siblings on. *)
Definition total_leaves (p : NamespaceProof) : res TypesError (option Z) :=
  if saturating_sub (end_idx p) (start_idx p) =? 1 then
    if (63 <? length (siblings p))%nat then Panic
    else Ok (Some (Z.shiftl 1 (Z.of_nat (length (siblings p)))))
  else Ok None.

(** ** External code *)

(** Of nmt-rs; an error is [None], or [false] for the verifications. *)
Class NmtProofs := {
  (** [Nmt::build_range_proof] on a tree with these leaves *)
  build_range_proof : list (bytes * Namespace) → Z → Z → NmtProof;
  (** [Nmt::get_namespace_proof] *)
  get_namespace_proof : list (bytes * Namespace) → Namespace → NamespaceProof;
  (** [NamespaceProof::verify_range] *)
  verify_range : NamespaceProof → NamespacedHash → list bytes → Namespace → bool;
  (** [NamespaceProof::verify_complete_namespace] *)
  verify_complete_namespace : NamespaceProof → NamespacedHash → list bytes → Namespace → bool;
  (** [NamespacedHash::contains] *)
  nh_contains : NamespacedHash → Namespace → bool;
  (** [NamespaceProof::convert_to_absence_proof], on a proof of presence *)
  convert_to_absence_proof : NamespaceProof → NamespacedHash → NamespaceProof
}.

(** [leopard_codec::reconstruct]: fills the empty shards. *)
Class LeopardReconstruct := leopard_reconstruct : list bytes → nat → option (list bytes).

(** ** Protobuf form of proofs *)

Record RawProof := {
  raw_start : Z; raw_end : Z; raw_nodes : list bytes; raw_leaf_hash : bytes;
  raw_is_max_namespace_ignored : bool
}.

(** The casts [as u32] (from [i64]) and [as i32] (from [i64]). *)
Definition as_u32 (x : Z) : Z := x mod 2 ^ 32.
Definition as_i32 (x : Z) : Z := (x + 2 ^ 31) mod 2 ^ 32 - 2 ^ 31.

Section Proofs.
Context `{DahExternals} `{NmtProofs}.

Definition nh_from_raw_res (b : bytes) : res TypesError NamespacedHash := ok_or (nh_from_raw b) (EDah InvalidNamespacedHash).

Definition NamespaceProof_try_from (value : RawProof) : res TypesError NamespaceProof :=
  siblings ← mapM nh_from_raw_res (raw_nodes value);
  let proof := PresenceProof {| np_siblings := siblings; np_start := as_u32 (raw_start value);
                                np_end := as_u32 (raw_end value) |}
                 (raw_is_max_namespace_ignored value) in
  if negb (length (raw_leaf_hash value) =? 0)%nat then
    leaf ← nh_from_raw_res (raw_leaf_hash value);
    Ok (convert_to_absence_proof proof leaf)
  else Ok proof.
End Proofs.

Definition NamespaceProof_into_raw (value : NamespaceProof) : RawProof :=
  {| raw_start := start_idx value; raw_end := end_idx value;
     raw_nodes := nh_to_array <$> siblings value;
     raw_leaf_hash := default [] (nh_to_array <$> np_leaf value);
     raw_is_max_namespace_ignored := max_ns_ignored value |}.

(** [celestia.core.v1.proof.NMTProof], with [i32] indices. *)
Record RawNmtProof := {
  rnp_start : Z; rnp_end : Z; rnp_nodes : list bytes; rnp_leaf_hash : bytes
}.
Definition NamespaceProof_try_from_nmt `{DahExternals} `{NmtProofs} (value : RawNmtProof)
    : res TypesError NamespaceProof :=
  NamespaceProof_try_from
    {| raw_start := rnp_start value; raw_end := rnp_end value; raw_nodes := rnp_nodes value;
       raw_leaf_hash := rnp_leaf_hash value; raw_is_max_namespace_ignored := true |}.
Definition NamespaceProof_into_nmt (value : NamespaceProof) : RawNmtProof :=
  let raw_proof := NamespaceProof_into_raw value in
  {| rnp_start := as_i32 (raw_start raw_proof); rnp_end := as_i32 (raw_end raw_proof);
     rnp_nodes := raw_nodes raw_proof; rnp_leaf_hash := raw_leaf_hash raw_proof |}.

(** ** Rows *)

(** [struct Row]. *)
Record RowData := { row_shares : list Share }.

Definition Row_new (index : Z) (eds : ExtendedDataSquare) : res TypesError RowData :=
  shares ← eds_row eds index; Ok {| row_shares := shares |}.

Definition Row_verify `{NmtExternals} (self : RowData) (id : RowId) (dah : DataAvailabilityHeader)
    : res TypesError unit :=
  let row := ri_index id in
  tree ← push_leaves [] (Ok <$> row_shares self);
  root ← ok_or (row_root dah row) (EdsIndexOutOfRange row 0);
  tree_root ← expect (nmt_root tree);
  if negb (bool_decide (nh_hash tree_root = nh_hash root)) then Err ERootMismatch else Ok tt.

(** [celestia_proto::shwap::Row]; the getter of the enumeration reads an unknown value as
    the default. *)
Inductive HalfSide := HLeft | HRight.
Record RawRow := { raw_shares_half : list bytes; raw_half_side : Z }.
Definition half_side (row : RawRow) : HalfSide := if raw_half_side row =? 1 then HRight else HLeft.

(** Data in the first quadrant, parity elsewhere. *)
Definition row_share (row_index : Z) (data_shares : nat) (col_index : nat) (shr : bytes)
    : res TypesError Share :=
  if (row_index <? Z.of_nat data_shares) && (col_index <? data_shares)%nat
  then Share_from_raw shr else Share_parity shr.

Definition Row_from_raw `{LeopardCodec, LeopardReconstruct} (id : RowId) (row : RawRow)
    : res TypesError RowData :=
  let data_shares := length (raw_shares_half row) in
  shares ← (match half_side row with
            | HLeft => ok_or (leopard_encode (raw_shares_half row ++ repeat zero_share data_shares)
                                data_shares) ELeopardCodec
            | HRight => ok_or (leopard_reconstruct (repeat ([] : bytes) data_shares ++ raw_shares_half row)
                                 data_shares) ELeopardCodec
            end);
  shares ← mapM (λ '(col_index, shr), row_share (ri_index id) data_shares col_index shr)
             (imap pair shares);
  Ok {| row_shares := shares |}.

Definition Row_into_raw (row : RowData) : RawRow :=
  let square_width := length (row_shares row) in
  {| raw_shares_half := take (square_width / 2) (sh_data <$> row_shares row); raw_half_side := 0 |}.

(** ** Samples *)

Record Sample := { sample_proof_type : AxisType; sample_share : Share; sample_proof : NamespaceProof }.

Definition Sample_new `{NmtExternals, NmtProofs} (row_index column_index : Z) (proof_type : AxisType)
    (eds : ExtendedDataSquare) : res TypesError Sample :=
  share ← eds_share eds row_index column_index;
  range_proof ← (match proof_type with
                 | Row => tree ← eds_axis_nmt eds Row row_index;
                     Ok (build_range_proof tree column_index (column_index + 1))
                 | Col => tree ← eds_axis_nmt eds Col column_index;
                     Ok (build_range_proof tree row_index (row_index + 1))
                 end);
  Ok {| sample_proof_type := proof_type; sample_share := share;
        sample_proof := PresenceProof range_proof true |}.

Definition Sample_verify `{NmtProofs} (self : Sample) (id : SampleId) (dah : DataAvailabilityHeader)
    : res TypesError unit :=
  root ← (match sample_proof_type self with
          | Row => ok_or (row_root dah (SampleId_row_index id))
                     (EdsIndexOutOfRange (SampleId_row_index id) 0)
          | Col => ok_or (column_root dah (si_column_index id))
                     (EdsIndexOutOfRange 0 (si_column_index id))
          end);
  ensure (verify_range (sample_proof self) root [sh_data (sample_share self)]
            (share_namespace (sample_share self))) RangeProofError.

Record RawSample := { raw_share : option bytes; raw_proof : option RawProof; raw_proof_type : Z }.

Definition Sample_from_raw `{DahExternals, NmtProofs} (id : SampleId) (sample : RawSample)
    : res TypesError Sample :=
  proof ← ok_or (raw_proof sample) MissingProof;
  proof ← NamespaceProof_try_from proof;
  proof_type ← ok_or (AxisType_try_from (raw_proof_type sample)) (InvalidAxis (raw_proof_type sample));
  if is_of_absence proof then Err WrongProofType else
  share ← ok_or (raw_share sample) EValidation;
  total ← total_leaves proof;
  square_size ← ok_or total EValidation;
  share ← (if (SampleId_row_index id <? square_size / 2) && (si_column_index id <? square_size / 2)
           then Share_from_raw share else Share_parity share);
  Ok {| sample_proof_type := proof_type; sample_share := share; sample_proof := proof |}.

(** [proof_type as i32]. *)
Definition axis_as_i32 (axis : AxisType) : Z := match axis with Row => 0 | Col => 1 end.
Definition Sample_into_raw (sample : Sample) : RawSample :=
  {| raw_share := Some (sh_data (sample_share sample));
     raw_proof := Some (NamespaceProof_into_raw (sample_proof sample));
     raw_proof_type := axis_as_i32 (sample_proof_type sample) |}.

(** ** The shares of a namespace in a row *)

Record RowNamespaceData := { rnd_proof : NamespaceProof; rnd_shares : list Share }.

Definition RowNamespaceData_verify `{NmtProofs} (self : RowNamespaceData) (id : RowNamespaceDataId)
    (dah : DataAvailabilityHeader) : res TypesError unit :=
  let is_empty := (length (rnd_shares self) =? 0)%nat in
  if (is_empty && is_of_presence (rnd_proof self)) || (negb is_empty && is_of_absence (rnd_proof self))
  then Err WrongProofType else
  let row := RowNamespaceDataId_row_index id in
  root ← ok_or (row_root dah row) (EdsIndexOutOfRange row 0);
  ensure (verify_complete_namespace (rnd_proof self) root (sh_data <$> rnd_shares self)
            (rn_namespace id)) RangeProofError.

Record RawRowNamespaceData := { rrnd_shares : list bytes; rrnd_proof : option RawProof }.

Definition RowNamespaceData_from_raw `{DahExternals, NmtProofs} (id : RowNamespaceDataId)
    (namespace_data : RawRowNamespaceData) : res TypesError RowNamespaceData :=
  proof ← ok_or (rrnd_proof namespace_data) MissingProof;
  shares ← mapM (λ shr, if negb (bool_decide (rn_namespace id = PARITY_SHARE))
                        then Share_from_raw shr else Share_parity shr) (rrnd_shares namespace_data);
  if negb (forallb (λ shr, bool_decide (share_namespace shr = rn_namespace id)) shares)
  then Err EValidation else
  proof ← NamespaceProof_try_from proof;
  Ok {| rnd_shares := shares; rnd_proof := proof |}.

Definition RowNamespaceData_into_raw (d : RowNamespaceData) : RawRowNamespaceData :=
  {| rrnd_shares := sh_data <$> rnd_shares d;
     rrnd_proof := Some (NamespaceProof_into_raw (rnd_proof d)) |}.

(** [TryFrom<RawRowNamespaceData>], without an id: every share is taken as data. *)
Definition RowNamespaceData_try_from `{DahExternals, NmtProofs} (value : RawRowNamespaceData)
    : res TypesError RowNamespaceData :=
  proof ← ok_or (rrnd_proof value) MissingProof;
  proof ← NamespaceProof_try_from proof;
  shares ← mapM Share_from_raw (rrnd_shares value);
  Ok {| rnd_proof := proof; rnd_shares := shares |}.

(** The inner loop of [get_namespace_data]: the row is searched up to a greater namespace. *)
Fixpoint collect_namespace (namespace : Namespace) (shares : list (res TypesError Share))
    : res TypesError (list Share) :=
  match shares with
  | [] => Ok []
  | share :: shares =>
      share ← share;
      if bytes_lt (share_namespace share) namespace then collect_namespace namespace shares
      else if bool_decide (share_namespace share = namespace) then
        rest ← collect_namespace namespace shares; Ok (share :: rest)
      else Ok []
  end.

Fixpoint namespace_data_loop `{NmtExternals, NmtProofs} (eds : ExtendedDataSquare)
    (namespace : Namespace) (dah : DataAvailabilityHeader) (height : Z) (rows : list Z)
    : res TypesError (list (RowNamespaceDataId * RowNamespaceData)) :=
  match rows with
  | [] => Ok []
  | row :: rows =>
      match row_root dah row with
      | None => Ok []
      | Some root =>
          if negb (nh_contains root namespace)
          then namespace_data_loop eds namespace dah height rows else
          shares ← collect_namespace namespace
            ((λ col, eds_share eds row col) <$> indexes (eds_square_width eds));
          tree ← eds_axis_nmt eds Row row;
          let proof := get_namespace_proof tree namespace in
          id ← map_err (λ _, EZeroBlockHeight) (RowNamespaceDataId_new namespace row height);
          rest ← namespace_data_loop eds namespace dah height rows;
          Ok ((id, {| rnd_proof := proof; rnd_shares := shares |}) :: rest)
      end
  end.

Definition get_namespace_data `{NmtExternals, NmtProofs} (eds : ExtendedDataSquare)
    (namespace : Namespace) (dah : DataAvailabilityHeader) (height : Z)
    : res TypesError (list (RowNamespaceDataId * RowNamespaceData)) :=
  namespace_data_loop eds namespace dah height (indexes (eds_square_width eds)).

(** ** Proofs of shares against the data root *)

Record ShareProof := {
  sp_data : list bytes; sp_namespace_id : Namespace; sp_share_proofs : list NamespaceProof;
  sp_row_proof : RowProof
}.

(** The sum of the lengths of the ranges, on [u32]. *)
Fixpoint shares_needed_loop (shares_needed : Z) (proofs : list NamespaceProof) : res TypesError Z :=
  match proofs with
  | [] => Ok shares_needed
  | proof :: proofs =>
      if is_of_absence proof then Err EVerification else
      if end_idx proof <=? start_idx proof then Err EVerification else
      let shares_needed := shares_needed + (end_idx proof - start_idx proof) in
      if u32_max <? shares_needed then Panic else shares_needed_loop shares_needed proofs
  end.

Fixpoint share_proofs_loop `{NmtProofs} (namespace_id : Namespace) (data : list bytes)
    (l : list (NamespaceProof * NamespacedHash)) : res TypesError unit :=
  match l with
  | [] => Ok tt
  | (proof, row) :: l =>
      let amount := Z.to_nat (end_idx proof - start_idx proof) in
      if (length data <? amount)%nat then Panic else
      if negb (verify_range proof row (take amount data) namespace_id) then Err RangeProofError else
      share_proofs_loop namespace_id (drop amount data) l
  end.

Definition ShareProof_verify `{DahExternals, NmtProofs} (self : ShareProof) (root : Hash)
    : res TypesError unit :=
  let row_roots := rp_row_roots (sp_row_proof self) in
  if negb (length (sp_share_proofs self) =? length row_roots)%nat then Err EVerification else
  shares_needed ← shares_needed_loop 0 (sp_share_proofs self);
  if negb (shares_needed =? Z.of_nat (length (sp_data self))) then Err EVerification else
  _ ← map_err EDah (RowProof_verify (sp_row_proof self) root);
  share_proofs_loop (sp_namespace_id self) (sp_data self) (zip (sp_share_proofs self) row_roots).

(** ** Specification of the external code *)

(** The leaves of a namespace. *)
Definition ns_leaves (ns : Namespace) (leaves : list (bytes * Namespace)) : list bytes :=
  fst <$> filter (λ x, x.2 = ns) leaves.

(** Proofs that the tree builds verify; what verifies against a root is in the tree with that
    root (SHA-256 does not collide), and complete for the namespace where that is claimed.
    The hasher ignores the parity namespace in ranges, so nothing is said about it. *)
Class NmtProofsSpec `{NmtExternals} `{NmtProofs} : Prop := {
  range_proof_verifies leaves h i d ns :
    nmt_root leaves = Some h → leaves !! Z.to_nat i = Some (d, ns) → 0 ≤ i →
    verify_range (PresenceProof (build_range_proof leaves i (i + 1)) true) h [d] ns = true;
  range_proof_shape leaves i k : length leaves = (2 ^ k)%nat → 0 ≤ i < Z.of_nat (length leaves) →
    let p := build_range_proof leaves i (i + 1) in
    np_start p = i ∧ np_end p = i + 1 ∧ length (np_siblings p) = k ∧ Forall nh_wf (np_siblings p);
  verify_range_sound p leaves h l ns :
    nmt_root leaves = Some h → verify_range p h l ns = true → Forall (λ d, (d, ns) ∈ leaves) l;
  namespace_proof_verifies leaves h ns :
    ns_sorted leaves → nmt_root leaves = Some h → ns ≠ PARITY_SHARE → nh_contains h ns = true →
    verify_complete_namespace (get_namespace_proof leaves ns) h (ns_leaves ns leaves) ns = true ∧
    (is_of_presence (get_namespace_proof leaves ns) = true ↔ ns_leaves ns leaves ≠ []);
  verify_complete_sound p leaves h l ns :
    nmt_root leaves = Some h → ns ≠ PARITY_SHARE →
    verify_complete_namespace p h l ns = true → l = ns_leaves ns leaves;
  contains_leaf leaves h d ns :
    nmt_root leaves = Some h → (d, ns) ∈ leaves → ns ≠ PARITY_SHARE → nh_contains h ns = true;
  convert_presence p ignore_max_ns leaf :
    convert_to_absence_proof (PresenceProof p ignore_max_ns) leaf = AbsenceProof p ignore_max_ns (Some leaf)
}.

(** ** Lemmas: proofs as bytes *)

(** Proofs of the sizes the Rust types give, with the leaf an absence proof carries. *)
Definition nproof_wf (p : NamespaceProof) : Prop :=
  Forall nh_wf (siblings p) ∧ 0 ≤ start_idx p ≤ u32_max ∧ 0 ≤ end_idx p ≤ u32_max ∧
  match p with AbsenceProof _ _ leaf => ∃ h, leaf = Some h ∧ nh_wf h | PresenceProof _ _ => True end.

Lemma as_u32_small x : 0 ≤ x ≤ u32_max → as_u32 x = x.
Proof. unfold as_u32, u32_max. intros. apply Z.mod_small. lia. Qed.
Lemma as_u32_i32 x : 0 ≤ x ≤ u32_max → as_u32 (as_i32 x) = x.
Proof.
  unfold as_u32, as_i32, u32_max. intros Hx. rewrite Zminus_mod_idemp_l.
  replace (x + 2 ^ 31 - 2 ^ 31) with x by lia. apply Z.mod_small. lia.
Qed.

Section ProofBytes.
Context `{DahExternalsSpec} `{NmtExternals} `{!NmtProofs} `{!NmtProofsSpec}.

Lemma siblings_from_raw l : Forall nh_wf l → mapM nh_from_raw_res (nh_to_array <$> l) = Ok l.
Proof.
  intros Hl. apply mapM_res_Ok, Forall2_fmap_l, Forall_Forall2_diag. eapply Forall_impl; [exact Hl|].
  intros h Hh. cbn. unfold nh_from_raw_res. by rewrite nh_from_raw_to_array.
Qed.

Lemma try_from_parts p raw : nproof_wf p →
  raw_nodes raw = nh_to_array <$> siblings p → as_u32 (raw_start raw) = start_idx p →
  as_u32 (raw_end raw) = end_idx p → raw_leaf_hash raw = default [] (nh_to_array <$> np_leaf p) →
  raw_is_max_namespace_ignored raw = max_ns_ignored p → NamespaceProof_try_from raw = Ok p.
Proof.
  intros (Hs&_&_&Hp) En Es Ee El Ei. unfold NamespaceProof_try_from.
  rewrite En, siblings_from_raw, Es, Ee, El, Ei by done. cbv [mbind res_bind].
  destruct p as [[sib s e] ig|[sib s e] ig leaf]; [done|]. destruct Hp as (h&->&Hh).
  cbn [np_leaf fmap option_fmap option_map default from_option id].
  assert (length (nh_to_array h) = NAMESPACED_HASH_SIZE) as ->.
  { destruct Hh as (L1&L2&L3). unfold nh_to_array. by rewrite !length_app, L1, L2, L3. }
  cbn [negb Nat.eqb]. change (NAMESPACED_HASH_SIZE =? 0)%nat with false. cbn [negb].
  unfold nh_from_raw_res. rewrite nh_from_raw_to_array by done. cbn [ok_or].
  by rewrite convert_presence.
Qed.

Lemma proof_raw_roundtrip p : nproof_wf p → NamespaceProof_try_from (NamespaceProof_into_raw p) = Ok p.
Proof.
  intros Hp. apply try_from_parts; [done|done| | |done|done]; apply as_u32_small; by destruct Hp as (_&?&?&_).
Qed.

Lemma proof_nmt_roundtrip p : nproof_wf p → max_ns_ignored p = true →
  NamespaceProof_try_from_nmt (NamespaceProof_into_nmt p) = Ok p.
Proof.
  intros Hp Hi. apply try_from_parts; [done|done| | |done|done]; apply as_u32_i32; by destruct Hp as (_&?&?&_).
Qed.
End ProofBytes.

(** ** Lemmas: containers of a well-formed square *)

Section Of.
Context `{NmtExternalsSpec} `{!NmtProofs} (v : AppVersion) (eds : ExtendedDataSquare)
  (dah : DataAvailabilityHeader) (Hwf : eds_wf v eds) (Hdah : dah_from_eds eds = Ok dah).
#[local] Notation w := (eds_square_width eds).

Definition axis_leaves (axis : AxisType) (i : Z) : list (bytes * Namespace) :=
  share_leaf <$> axis_of (cell eds) axis w i.

Lemma dah_axis_root axis i : 0 ≤ i < w → ∃ h, dah_root dah axis i = Some h ∧
  nmt_root (axis_leaves axis i) = Some h.
Proof.
  intros Hi. destruct (from_eds_spec v eds Hwf) as (dah'&Hd&_&_&Hr).
  rewrite Hdah in Hd. injection Hd as <-. by apply Hr.
Qed.

Lemma dah_axis_none axis i : w ≤ i → dah_root dah axis i = None.
Proof.
  intros Hi. pose proof (from_eds_width v eds Hwf dah Hdah) as Hw.
  destruct (from_eds_spec v eds Hwf) as (dah'&Hd&_&Hv&_). rewrite Hdah in Hd. injection Hd as <-.
  apply dah_validate_Ok in Hv as [Hl _].
  destruct axis; cbn; unfold row_root, column_root; apply lookup_ge_None_2; lia.
Qed.

(** A root of the header is the root of an axis of the square. *)
Lemma dah_axis_inv axis i h : 0 ≤ i → dah_root dah axis i = Some h →
  0 ≤ i < w ∧ nmt_root (axis_leaves axis i) = Some h.
Proof.
  intros Hi Hh. destruct (decide (i < w)) as [Hlt|Hge]; [|rewrite dah_axis_none in Hh; [done|lia]].
  split; [lia|]. destruct (dah_axis_root axis i) as (h'&Hh'&Hn); [lia|]. congruence.
Qed.

Lemma axis_nmt_in axis i : 0 ≤ i < w → eds_axis_nmt eds axis i = Ok (axis_leaves axis i).
Proof.
  intros Hi. unfold eds_axis_nmt. rewrite (axis_shares v) by done.
  by rewrite (push_leaves_sorted []) by by apply (axis_leaves_sorted v).
Qed.

Lemma elem_of_axis_leaves axis i d ns : (d, ns) ∈ axis_leaves axis i → ∃ j, 0 ≤ j < w ∧
  let s := match axis with Row => cell eds i j | Col => cell eds j i end in
  sh_data s = d ∧ share_namespace s = ns.
Proof.
  clear. intros Hin. apply list_elem_of_lookup in Hin as [j Hj]. unfold axis_leaves in Hj.
  rewrite list_lookup_fmap in Hj. apply fmap_Some in Hj as (s&Hs&Hl).
  pose proof (lookup_lt_Some _ _ _ Hs) as Hlt. rewrite length_axis_of in Hlt.
  rewrite axis_of_lookup in Hs by done. injection Hs as <-. injection Hl as -> ->.
  exists (Z.of_nat j). split; [lia|]. by destruct axis.
Qed.

Lemma axis_leaves_lookup axis i j : 0 ≤ j < w → axis_leaves axis i !! Z.to_nat j =
  Some (share_leaf (match axis with Row => cell eds i j | Col => cell eds j i end)).
Proof.
  clear. intros Hj. unfold axis_leaves. rewrite list_lookup_fmap, axis_of_lookup by lia. cbn.
  rewrite Z2Nat.id by lia. by destruct axis.
Qed.

Lemma length_axis_leaves axis i : length (axis_leaves axis i) = Z.to_nat w.
Proof. clear. unfold axis_leaves. by rewrite length_fmap, length_axis_of. Qed.

(** The width as a power of two. *)
Lemma eds_width_pow2 : ∃ k, (1 ≤ k ≤ 8)%nat ∧ Z.to_nat w = (2 ^ k)%nat ∧ w = 2 ^ Z.of_nat k.
Proof.
  clear Hdah. destruct (eds_pow2 _ _ Hwf) as (k&Hk&Hw). pose proof (eds_bounds _ _ Hwf) as Hb.
  rewrite max_width_256 in Hb. assert (k ≤ 8).
  { destruct (decide (k ≤ 8)); [done|]. pose proof (Z.pow_le_mono_r 2 9 k ltac:(lia) ltac:(lia)). lia. }
  exists (Z.to_nat k). split; [lia|]. rewrite Hw, Z2Nat.id by lia. split; [|done].
  apply Nat2Z.inj. rewrite Nat2Z.inj_pow. rewrite !Z2Nat.id by lia. done.
Qed.
End Of.

(** ** Lemmas: samples *)

(** Every share consists of bytes. *)
Definition square_bytes (eds : ExtendedDataSquare) : Prop :=
  Forall (λ s, are_bytes (sh_data s)) (eds_data_square eds).

Definition sample_id (row col height : Z) : SampleId :=
  {| si_row_id := {| ri_eds_id := {| eds_height := height |}; ri_index := row |}; si_column_index := col |}.

Lemma cell_bytes v eds r c : eds_wf v eds → square_bytes eds →
  0 ≤ r < eds_square_width eds → 0 ≤ c < eds_square_width eds → are_bytes (sh_data (cell eds r c)).
Proof.
  intros Hwf Hb Hr Hc. pose proof (cell_at v eds Hwf r c Hr Hc) as Hat. unfold at_ in Hat.
  by apply (Forall_lookup_1 _ _ _ _ Hb Hat).
Qed.

(** Reading a share of the square as the position says gives that share. *)
Lemma reread_cell v eds r c : eds_wf v eds → square_bytes eds →
  0 ≤ r < eds_square_width eds → 0 ≤ c < eds_square_width eds →
  (if is_ods_square r c (eds_square_width eds) then Share_from_raw (sh_data (cell eds r c))
   else Share_parity (sh_data (cell eds r c))) = Ok (cell eds r c).
Proof.
  intros Hwf Hb Hr Hc. destruct (cell_ok v eds Hwf r c Hr Hc) as [[Hl Hv] Hp].
  pose proof (cell_bytes v eds r c Hwf Hb Hr Hc) as Hcb.
  destruct (cell eds r c) as [data par]. cbn in *. subst par.
  destruct (is_ods_square r c _); cbn [negb] in *.
  - apply Share_from_raw_Ok; [done|]. split_and!; [done|by apply Hv|done].
  - apply Share_parity_Ok. by split.
Qed.

Section Samples.
Context `{DahExternalsSpec} `{NmtExternalsSpec} `{!NmtProofs} `{!NmtProofsSpec} (v : AppVersion)
  (eds : ExtendedDataSquare) (dah : DataAvailabilityHeader) (Hwf : eds_wf v eds)
  (Hdah : dah_from_eds eds = Ok dah).
#[local] Notation w := (eds_square_width eds).

(** Where a proof of a position starts, and which axis it is on. *)
Definition along (axis : AxisType) (r c : Z) : Z := match axis with Row => c | Col => r end.
Definition across (axis : AxisType) (r c : Z) : Z := match axis with Row => r | Col => c end.

Lemma Sample_new_in axis r c : 0 ≤ r < w → 0 ≤ c < w →
  Sample_new r c axis eds = Ok {| sample_proof_type := axis; sample_share := cell eds r c;
    sample_proof := PresenceProof (build_range_proof (axis_leaves eds axis (across axis r c))
                                     (along axis r c) (along axis r c + 1)) true |}.
Proof.
  intros Hr Hc. unfold Sample_new. rewrite (eds_share_in v) by done. cbv [mbind res_bind].
  destruct axis; cbn [across along]; by rewrite (axis_nmt_in v).
Qed.

(** A sample of the position [r], [c] as it arrives at a node that asked for [r'], [c'] on the
    same axis and in the same quadrant. *)
Lemma sample_accepted axis r c r' c' height s : square_bytes eds →
  0 ≤ r < w → 0 ≤ c < w → 0 ≤ r' < w → 0 ≤ c' < w →
  across axis r c = across axis r' c' → is_ods_square r c w = is_ods_square r' c' w →
  Sample_new r c axis eds = Ok s →
  Sample_from_raw (sample_id r' c' height) (Sample_into_raw s) = Ok s ∧
  Sample_verify s (sample_id r' c' height) dah = Ok tt.
Proof.
  intros Hb Hr Hc Hr' Hc' Hax Hq Hs. rewrite Sample_new_in in Hs by done. injection Hs as <-.
  assert (0 ≤ across axis r c < w ∧ 0 ≤ along axis r c < w) as [Hi Hj] by by destruct axis.
  destruct (eds_width_pow2 v eds Hwf) as (k&Hk&Hw&HwZ).
  assert (length (axis_leaves eds axis (across axis r c)) = (2 ^ k)%nat) as Hlen
    by by rewrite length_axis_leaves.
  destruct (range_proof_shape (axis_leaves eds axis (across axis r c)) (along axis r c) k) as (Es&Ee&El&Hn);
    [done|rewrite length_axis_leaves; lia|].
  set (p := build_range_proof _ _ _) in *. split.
  - unfold Sample_from_raw, Sample_into_raw.
    cbn [raw_proof raw_share raw_proof_type sample_proof_type sample_share sample_proof ok_or].
    cbv [mbind res_bind]. rewrite proof_raw_roundtrip.
    2:{ split_and!; [exact Hn|..]; unfold start_idx, end_idx; cbn [np_proof]; rewrite ?Es, ?Ee;
        pose proof (eds_bounds _ _ Hwf); rewrite max_width_256 in *; unfold u32_max; try lia. }
    assert (AxisType_try_from (axis_as_i32 axis) = Some axis) as -> by by destruct axis.
    cbn [is_of_absence ok_or]. unfold total_leaves, start_idx, end_idx, siblings. cbn [np_proof].
    rewrite Es, Ee, El. assert (saturating_sub (along axis r c + 1) (along axis r c) = 1) as ->.
    { unfold saturating_sub. case_ifs; lia. }
    cbn [Z.eqb Pos.eqb]. destruct (Nat.ltb_spec 63 k); [lia|].
    rewrite Z.shiftl_1_l, <-HwZ. cbn [ok_or]. cbn [SampleId_row_index sample_id si_row_id ri_index si_column_index].
    change ((r' <? w / 2) && (c' <? w / 2)) with (is_ods_square r' c' w). rewrite <-Hq.
    by rewrite (reread_cell v) by done.
  - unfold Sample_verify. cbn [sample_proof_type sample_share sample_proof].
    destruct (dah_axis_root v eds dah Hwf Hdah axis (across axis r c) Hi) as (h&Hh&Hroot).
    assert ((match axis with
      | Row => ok_or (row_root dah (SampleId_row_index (sample_id r' c' height)))
                 (EdsIndexOutOfRange (SampleId_row_index (sample_id r' c' height)) 0)
      | Col => ok_or (column_root dah (si_column_index (sample_id r' c' height)))
                 (EdsIndexOutOfRange 0 (si_column_index (sample_id r' c' height)))
      end) = Ok h) as ->.
    { cbn in Hax. destruct axis; cbn in Hax, Hh |- *; rewrite <-Hax; by rewrite Hh. }
    cbv [mbind res_bind]. apply ensure_Ok. apply (range_proof_verifies _ _ _ _ _ Hroot); [|lia].
    rewrite axis_leaves_lookup by done. by destruct axis.
Qed.

Lemma sample_verified s id : 0 ≤ SampleId_row_index id → 0 ≤ si_column_index id →
  Sample_verify s id dah = Ok tt → ∃ r c, 0 ≤ r < w ∧ 0 ≤ c < w ∧
    across (sample_proof_type s) r c = across (sample_proof_type s) (SampleId_row_index id) (si_column_index id) ∧
    sh_data (cell eds r c) = sh_data (sample_share s) ∧
    share_namespace (cell eds r c) = share_namespace (sample_share s).
Proof.
  intros Hr0 Hc0 Hv. unfold Sample_verify in Hv. destruct s as [axis share proof].
  cbn [sample_proof_type sample_share sample_proof] in *.
  assert (∃ h, dah_root dah axis (across axis (SampleId_row_index id) (si_column_index id)) = Some h ∧
    verify_range proof h [sh_data share] (share_namespace share) = true) as (h&Hh&Hvr).
  { destruct axis; cbn [across dah_root]; inv_res Hv; eauto. }
  apply (dah_axis_inv v eds dah Hwf Hdah) in Hh as [Hi Hroot]; [|by destruct axis].
  apply (verify_range_sound _ _ _ _ _ Hroot) in Hvr. rewrite Forall_singleton in Hvr.
  apply elem_of_axis_leaves in Hvr as (j&Hj&Hd&Hn). destruct axis; cbn [across] in *.
  - exists (SampleId_row_index id), j. exact (conj Hi (conj Hj (conj eq_refl (conj Hd Hn)))).
  - exists j, (si_column_index id). exact (conj Hj (conj Hi (conj eq_refl (conj Hd Hn)))).
Qed.
End Samples.

(** ** Lemmas: rows *)

(** Parity shards are computed from the data shards alone; from the parity half of a code
    word the data half is recovered; nothing changes when no shard is missing. *)
Class LeopardReconstructSpec `{LeopardCodec} `{LeopardReconstruct} : Prop := {
  encode_data_only shards shards' n : length shards = length shards' → take n shards = take n shards' →
    leopard_encode shards n = leopard_encode shards' n;
  reconstruct_parity k l : length l = (k * 2)%nat → Forall is_shard l → codeword k l →
    leopard_reconstruct (repeat ([] : bytes) k ++ drop k l) k = Some l;
  reconstruct_full k l : length l = (k * 2)%nat → Forall is_shard l → leopard_reconstruct l k = Some l
}.

Lemma push_leaves_Ok `{NmtExternals} leaves l t :
  push_leaves leaves (Ok <$> l) = Ok t → t = leaves ++ (share_leaf <$> l).
Proof.
  revert leaves. induction l as [|s l IH]; intros leaves Hp; cbn [fmap list_fmap push_leaves] in Hp.
  - injection Hp as <-. by rewrite app_nil_r.
  - inv_res Hp. subst x. apply IH in Hp as ->.
    change (share_leaf <$> s :: l) with ([share_leaf s] ++ (share_leaf <$> l)). by rewrite (assoc_L (++)).
Qed.

Section Rows.
Context `{NmtExternalsSpec} (v : AppVersion)
  (eds : ExtendedDataSquare) (dah : DataAvailabilityHeader) (Hwf : eds_wf v eds)
  (Hdah : dah_from_eds eds = Ok dah).
#[local] Notation w := (eds_square_width eds).

Definition row_id (row height : Z) : RowId := {| ri_eds_id := {| eds_height := height |}; ri_index := row |}.

Lemma Row_new_in i : 0 ≤ i < w → Row_new i eds = Ok {| row_shares := axis_of (cell eds) Row w i |}.
Proof. intros Hi. unfold Row_new, eds_row. by rewrite (eds_axis_in v). Qed.

Lemma row_new_verifies i height : 0 ≤ i < w →
  Row_verify {| row_shares := axis_of (cell eds) Row w i |} (row_id i height) dah = Ok tt.
Proof.
  intros Hi. unfold Row_verify. cbn [row_shares row_id ri_index].
  rewrite (push_leaves_sorted []) by by apply (axis_leaves_sorted v).
  destruct (dah_axis_root v eds dah Hwf Hdah Row i Hi) as (h&Hh&Hroot). cbn [dah_root] in Hh.
  rewrite Hh. cbn [ok_or app]. cbv [mbind res_bind]. unfold axis_leaves in Hroot. rewrite Hroot.
  cbn [expect]. by rewrite bool_decide_true.
Qed.

Lemma row_verified `{!NmtCollisionFree} row id : 0 ≤ ri_index id → Row_verify row id dah = Ok tt →
  0 ≤ ri_index id < w ∧ share_leaf <$> row_shares row = axis_leaves eds Row (ri_index id).
Proof.
  intros Hi Hv. unfold Row_verify in Hv. inv_res Hv. apply push_leaves_Ok in Hc as ->. cbn [app] in *.
  apply (dah_axis_inv v eds dah Hwf Hdah Row) in Hc0 as [Hin Hroot]; [|done]. split; [done|].
  destruct (decide (nh_hash x1 = nh_hash x0)) as [Heq|Hne].
  - by apply (nmt_root_inj _ _ _ _ Hc1 Hroot).
  - by rewrite bool_decide_false in Hv.
Qed.

Context `{LeopardCodecSpec} `{!LeopardReconstruct} `{!LeopardReconstructSpec}.

Lemma row_reread i : 0 ≤ i < w → square_bytes eds →
  mapM (λ '(col_index, shr), row_share i (Z.to_nat (w / 2)) col_index shr)
    (imap pair (sh_data <$> axis_of (cell eds) Row w i)) = Ok (axis_of (cell eds) Row w i).
Proof.
  intros Hi Hb. pose proof (eds_bounds _ _ Hwf) as Hw.
  apply mapM_res_Ok, Forall2_same_length_lookup. split.
  { by rewrite length_imap, length_fmap. }
  intros j [j' d] s Hj Hs. rewrite list_lookup_imap, list_lookup_fmap, Hs in Hj. injection Hj as <- <-.
  pose proof (lookup_lt_Some _ _ _ Hs) as Hlt. rewrite length_axis_of in Hlt.
  rewrite axis_of_lookup in Hs by done. injection Hs as <-.
  rewrite <-(reread_cell v eds i (Z.of_nat j)) by (done || lia). unfold row_share, is_ods_square.
  assert (0 ≤ w / 2) by (apply Z.div_pos; lia). rewrite Z2Nat.id by done.
  replace (j <? Z.to_nat (w / 2))%nat with (Z.of_nat j <? w / 2); [done|].
  destruct (Z.ltb_spec (Z.of_nat j) (w / 2)), (Nat.ltb_spec j (Z.to_nat (w / 2))); lia.
Qed.

(** Either half of a row that is a code word gives the row back. *)
Lemma row_from_half i height (right : bool) : 0 ≤ i < w → square_bytes eds →
  let data := sh_data <$> axis_of (cell eds) Row w i in let k := Z.to_nat (w / 2) in
  codeword k data →
  Row_from_raw (row_id i height)
    {| raw_shares_half := if right then drop k data else take k data;
       raw_half_side := if right then 1 else 0 |} = Ok {| row_shares := axis_of (cell eds) Row w i |}.
Proof.
  intros Hi Hb data k Hcw. pose proof (eds_bounds _ _ Hwf) as Hw.
  destruct (eds_width_pow2 v eds Hwf) as (n&Hn&_&HwZ).
  assert (length data = (k * 2)%nat) as Hl.
  { subst data k. rewrite length_fmap, length_axis_of.
    assert (w = w / 2 * 2); [|lia]. rewrite HwZ. replace (Z.of_nat n) with (Z.of_nat (n - 1) + 1) by lia.
    rewrite Z.pow_add_r, Z.div_mul by lia. lia. }
  assert (Forall is_shard data) as Hsh.
  { subst data. apply Forall_fmap, Forall_lookup. intros j s Hs.
    pose proof (lookup_lt_Some _ _ _ Hs) as Hlt. rewrite length_axis_of in Hlt.
    rewrite axis_of_lookup in Hs by done. injection Hs as <-. split.
    - apply (cell_ok v eds Hwf i (Z.of_nat j)); lia.
    - apply (cell_bytes v); (done || lia). }
  unfold Row_from_raw. cbn [raw_shares_half row_id ri_index].
  assert (length (if right then drop k data else take k data) = k) as ->
    by (destruct right; rewrite ?length_drop, ?length_take; lia).
  destruct right; cbn [half_side raw_half_side Z.eqb Pos.eqb].
  - rewrite reconstruct_parity by done. cbn [ok_or]. apply (bind_step eq_refl).
    by apply (bind_step (row_reread i Hi Hb)).
  - destruct Hcw as (shards&Ht&He). pose proof (leopard_encode_data _ _ _ He) as (Hls&_).
    rewrite (encode_data_only _ shards), He.
    + cbn [ok_or]. apply (bind_step eq_refl). by apply (bind_step (row_reread i Hi Hb)).
    + rewrite length_app, length_take, repeat_length. lia.
    + rewrite take_app_length' by (rewrite length_take; lia). done.
Qed.
End Rows.

(** ** Lemmas: the shares of a namespace *)

Lemma bytes_lt_not_le a b : bytes_lt a b = true ↔ bytes_le b a = false.
Proof. unfold bytes_lt. by destruct (bytes_le b a). Qed.

(** In a row in namespace order the search may stop at the first greater namespace. *)
Lemma collect_namespace_sorted ns l : ns_sorted (share_leaf <$> l) →
  collect_namespace ns (Ok <$> l) = Ok (filter (λ s, share_namespace s = ns) l).
Proof.
  induction l as [|s l IH]; [done|]. intros [Hs Hl].
  change (collect_namespace ns (Ok <$> s :: l)) with
    (if bytes_lt (share_namespace s) ns then collect_namespace ns (Ok <$> l)
     else if bool_decide (share_namespace s = ns) then
       (rest ← collect_namespace ns (Ok <$> l); Ok (s :: rest)) else Ok []).
  rewrite filter_cons. specialize (IH Hl).
  destruct (bytes_lt (share_namespace s) ns) eqn:Elt.
  - rewrite decide_False; [done|]. intros <-. by rewrite bytes_lt_not_le, bytes_le_refl in Elt.
  - destruct (decide (share_namespace s = ns)) as [Heq|Hne].
    + rewrite bool_decide_true by done. by rewrite IH.
    + rewrite bool_decide_false by done. f_equal. symmetry.
      apply filter_none. intros s' Hin <-.
      rewrite Forall_fmap, Forall_forall in Hs. specialize (Hs _ Hin). cbn in Hs.
      assert (bytes_le (share_namespace s') (share_namespace s) = true) as Hle
        by (apply not_false_is_true; by rewrite <-bytes_lt_not_le, Elt).
      apply Hne. by apply bytes_le_antisym.
Qed.

Lemma ns_leaves_shares ns l : ns_leaves ns (share_leaf <$> l) = sh_data <$> filter (λ s, share_namespace s = ns) l.
Proof.
  unfold ns_leaves. induction l as [|s l IH]; [done|].
  change (share_leaf <$> s :: l) with (share_leaf s :: (share_leaf <$> l)). rewrite !filter_cons. cbn [share_leaf snd].
  case_decide; [|done]. change (sh_data <$> s :: filter (λ s0, share_namespace s0 = ns) l) with
    (sh_data s :: (sh_data <$> filter (λ s0, share_namespace s0 = ns) l)). by rewrite <-IH.
Qed.

(** The shares of a namespace in a square. *)
Definition ns_shares (ns : Namespace) (eds : ExtendedDataSquare) : list Share :=
  filter (λ s, share_namespace s = ns) (eds_data_square eds).

Section NamespaceData.
Context `{NmtExternalsSpec} `{!NmtProofs} `{!NmtProofsSpec} (v : AppVersion)
  (eds : ExtendedDataSquare) (dah : DataAvailabilityHeader) (Hwf : eds_wf v eds)
  (Hdah : dah_from_eds eds = Ok dah) (ns : Namespace) (Hns : ns ≠ PARITY_SHARE).
#[local] Notation w := (eds_square_width eds).

Definition ns_row (i : Z) : list Share := filter (λ s, share_namespace s = ns) (axis_of (cell eds) Row w i).
Definition ns_entry (height i : Z) : RowNamespaceDataId * RowNamespaceData :=
  ({| rn_row_id := row_id i height; rn_namespace := ns |},
   {| rnd_proof := get_namespace_proof (axis_leaves eds Row i) ns; rnd_shares := ns_row i |}).
Definition ns_in_row (i : Z) : Prop := ∃ h, row_root dah i = Some h ∧ nh_contains h ns = true.
#[local] Instance ns_in_row_dec i : Decision (ns_in_row i).
Proof.
  destruct (row_root dah i) as [h|] eqn:E; [destruct (nh_contains h ns) eqn:E'|].
  - left. by exists h.
  - right. intros (h'&?&?). congruence.
  - right. intros (h'&?&?). congruence.
Defined.

Lemma namespace_data_loop_spec height rows : 0 < height → Forall (λ i, 0 ≤ i < w) rows →
  namespace_data_loop eds ns dah height rows = Ok (ns_entry height <$> filter ns_in_row rows).
Proof.
  intros Hh. induction 1 as [|i rows Hi _ IH]; [done|]. cbn [namespace_data_loop]. rewrite filter_cons.
  destruct (dah_axis_root v eds dah Hwf Hdah Row i Hi) as (h&Hr&Hroot). cbn [dah_root] in Hr. rewrite Hr.
  destruct (nh_contains h ns) eqn:Ec; cbn [negb].
  - rewrite decide_True by by exists h.
    assert ((λ col, eds_share eds i col) <$> indexes w = Ok <$> axis_of (cell eds) Row w i) as ->.
    { rewrite <-(axis_shares v) by done. unfold axis_coords. by rewrite <-list_fmap_compose. }
    rewrite collect_namespace_sorted by by apply (axis_leaves_sorted v). rewrite (axis_nmt_in v) by done.
    unfold RowNamespaceDataId_new, RowId_new. destruct (Z.eqb_spec height 0); [lia|].
    cbv [mbind res_bind map_err]. by rewrite IH.
  - rewrite decide_False; [done|]. intros (h'&Hr'&Hc). congruence.
Qed.

Lemma ns_row_absent i : 0 ≤ i < w → ¬ ns_in_row i → ns_row i = [].
Proof.
  intros Hi Hn. destruct (ns_row i) as [|s l] eqn:El; [done|]. exfalso. apply Hn.
  destruct (dah_axis_root v eds dah Hwf Hdah Row i Hi) as (h&Hr&Hroot). exists h. split; [done|].
  assert (s ∈ ns_row i) as Hin by (rewrite El; by left). unfold ns_row in Hin.
  apply list_elem_of_filter in Hin as [Hs Hin].
  apply (contains_leaf _ _ (sh_data s) ns Hroot); [|done]. apply list_elem_of_fmap. exists s. by rewrite <-Hs.
Qed.

Lemma ns_entries_concat height rows : Forall (λ i, 0 ≤ i < w) rows →
  concat ((λ e, rnd_shares e.2) <$> (ns_entry height <$> filter ns_in_row rows)) = concat (ns_row <$> rows).
Proof.
  induction 1 as [|i rows Hi _ IH]; [done|]. rewrite filter_cons, fmap_cons. cbn [concat]. rewrite <-IH.
  case_decide as Hd; [done|]. by rewrite ns_row_absent.
Qed.

Lemma ns_entry_verifies height i : 0 ≤ i < w → ns_in_row i →
  RowNamespaceData_verify (ns_entry height i).2 (ns_entry height i).1 dah = Ok tt.
Proof.
  intros Hi (h&Hr&Hc). destruct (dah_axis_root v eds dah Hwf Hdah Row i Hi) as (h'&Hr'&Hroot).
  cbn [dah_root] in Hr'. assert (h' = h) as -> by congruence.
  destruct (namespace_proof_verifies (axis_leaves eds Row i) h ns) as [Hver Hpres];
    [by apply (axis_leaves_sorted v)|done..|].
  assert (ns_leaves ns (axis_leaves eds Row i) = sh_data <$> ns_row i) as Hl by apply ns_leaves_shares.
  rewrite Hl in Hver, Hpres. unfold RowNamespaceData_verify. cbn [ns_entry fst snd rnd_shares rnd_proof].
  unfold is_of_presence in *. cbn [RowNamespaceDataId_row_index rn_row_id row_id ri_index rn_namespace].
  assert (((length (ns_row i) =? 0)%nat && negb (is_of_absence (get_namespace_proof (axis_leaves eds Row i) ns))
    || negb (length (ns_row i) =? 0)%nat && is_of_absence (get_namespace_proof (axis_leaves eds Row i) ns)) = false) as ->.
  { destruct (ns_row i); cbn [length Nat.eqb fmap list_fmap] in *; destruct (is_of_absence _); cbn in *; try done.
    - by destruct (proj1 Hpres eq_refl).
    - by destruct (proj2 Hpres ltac:(done)). }
  rewrite Hr. cbv [mbind res_bind ok_or]. by apply ensure_Ok.
Qed.

Lemma namespace_data_verified d id : 0 ≤ RowNamespaceDataId_row_index id → rn_namespace id = ns →
  RowNamespaceData_verify d id dah = Ok tt →
  0 ≤ RowNamespaceDataId_row_index id < w ∧
  sh_data <$> rnd_shares d = sh_data <$> ns_row (RowNamespaceDataId_row_index id).
Proof.
  intros Hi Hid Hv. unfold RowNamespaceData_verify in Hv. case_ifs_in Hv; [done|]. inv_res Hv.
  apply (dah_axis_inv v eds dah Hwf Hdah Row) in Hc as [Hin Hroot]; [|done]. split; [done|].
  rewrite Hid in Hv. apply (verify_complete_sound _ _ _ _ _ Hroot Hns) in Hv. rewrite Hv. apply ns_leaves_shares.
Qed.
End NamespaceData.

Lemma filter_grid ns w (f : Z → Z → Share) :
  filter (λ s, share_namespace s = ns) (grid w f)
  = concat ((λ r, filter (λ s, share_namespace s = ns) (f r <$> seqZ 0 w)) <$> seqZ 0 w).
Proof.
  unfold grid. generalize (seqZ 0 w) at 2 4. intros rows. induction rows as [|r rows IH]; [done|].
  rewrite !fmap_cons. cbn [concat]. by rewrite filter_app, IH.
Qed.

(** ** Lemmas: share proofs *)

Definition amount (p : NamespaceProof) : nat := Z.to_nat (end_idx p - start_idx p).

Lemma shares_needed_loop_Ok acc proofs n : shares_needed_loop acc proofs = Ok n →
  n = acc + Z.of_nat (sum_list (amount <$> proofs)).
Proof.
  revert acc. induction proofs as [|p proofs IH]; intros acc Hn; cbn [shares_needed_loop] in Hn.
  { injection Hn as <-. cbn. lia. }
  case_ifs_in Hn; try done. apply IH in Hn as ->. cbn [fmap list_fmap sum_list sum_list_with]. unfold amount at 2.
  change (sum_list_with id ?l) with (sum_list l). cbn. unfold amount. lia.
Qed.

Lemma share_proofs_loop_Ok `{NmtProofs} ns data l : share_proofs_loop ns data l = Ok tt →
  length data = sum_list ((λ x, amount x.1) <$> l) →
  ∀ d, d ∈ data → ∃ p h sl, (p, h) ∈ l ∧ verify_range p h sl ns = true ∧ d ∈ sl.
Proof.
  revert data. induction l as [|[p h] l IH]; intros data Hv Hlen d Hd; cbn [share_proofs_loop] in Hv.
  { cbn in Hlen. apply nil_length_inv in Hlen as ->. by apply not_elem_of_nil in Hd. }
  fold (amount p) in Hv. case_ifs_in Hv; try done. cbn in Hlen.
  rewrite <-(take_drop (amount p) data) in Hd. apply elem_of_app in Hd as [Hd|Hd].
  - exists p, h, (take (amount p) data). split; [by left|]. split; [|done]. by apply negb_false_iff.
  - destruct (IH _ Hv) with d as (p'&h'&sl&Hin&?&?); [rewrite length_drop; lia|done|].
    exists p', h', sl. split; [by right|done].
Qed.

Lemma ShareProof_verify_Ok `{DahExternals, NmtProofs} sp root : ShareProof_verify sp root = Ok tt →
  RowProof_verify (sp_row_proof sp) root = Ok tt ∧
  ∀ d, d ∈ sp_data sp → ∃ p h sl, h ∈ rp_row_roots (sp_row_proof sp) ∧
    verify_range p h sl (sp_namespace_id sp) = true ∧ d ∈ sl.
Proof.
  intros Hv. unfold ShareProof_verify in Hv.
  destruct (Nat.eqb_spec (length (sp_share_proofs sp)) (length (rp_row_roots (sp_row_proof sp)))) as [Hl|]; [|done].
  cbn [negb] in Hv. apply bind_Ok in Hv as (n&Hn&Hv). apply shares_needed_loop_Ok in Hn.
  destruct (Z.eqb_spec n (Z.of_nat (length (sp_data sp)))) as [Hd|]; [|done]. cbn [negb] in Hv.
  apply bind_Ok in Hv as ([]&Hr&Hv). apply map_err_Ok in Hr. split; [done|]. intros d Hin.
  destruct (share_proofs_loop_Ok _ _ _ Hv) with d as (p&h&sl&Hph&?&?); [|done|].
  - change (λ x : NamespaceProof * NamespacedHash, amount x.1) with (amount ∘ fst (B:=NamespacedHash)).
    rewrite list_fmap_compose, fst_zip by lia. lia.
  - exists p, h, sl. split; [by eapply elem_of_zip_r|done].
Qed.

(** An encoded root of the header is the root of a row or a column. *)
Lemma dah_root_of_array `{DahExternals} `{NmtExternalsSpec} v eds dah h k : eds_wf v eds →
  dah_from_eds eds = Ok dah → nh_wf h → all_roots dah !! k = Some (nh_to_array h) →
  ∃ axis i, 0 ≤ i < eds_square_width eds ∧ nmt_root (axis_leaves eds axis i) = Some h.
Proof.
  intros Hwf Hdah Hh Hk. destruct (from_eds_spec v eds Hwf) as (dah'&Hd&[Wr Wc]&_&_).
  rewrite Hdah in Hd. injection Hd as <-. unfold all_roots in Hk. rewrite list_lookup_fmap in Hk.
  apply fmap_Some in Hk as (h'&Hk&Heq).
  assert (nh_wf h') as Hh' by (apply (Forall_lookup_1 _ _ _ _ (proj2 (Forall_app _ _ _) (conj Wr Wc)) Hk)).
  apply nh_to_array_inj in Heq as <-; [|done..]. apply lookup_app_Some in Hk as [Hk|[_ Hk]].
  - exists Row, (Z.of_nat k). apply (dah_axis_inv v eds dah Hwf Hdah Row); [lia|]. cbn. unfold row_root. by rewrite Nat2Z.id.
  - exists Col, (Z.of_nat (k - length (row_roots dah))). apply (dah_axis_inv v eds dah Hwf Hdah Col); [lia|].
    cbn. unfold column_root. by rewrite Nat2Z.id.
Qed.

(** ** Properties *)

Section NamespaceProperties.
Context `{NmtExternalsSpec} `{!NmtProofs} `{!NmtProofsSpec}.

(** All the data of a namespace and nothing else: on a well-formed square with its header
    [get_namespace_data] returns rows whose shares, put together, are exactly the shares of the
    square with that namespace in order, and each row verifies under the id it comes with. *)
Theorem get_namespace_data_correct v eds dah ns height :
  eds_wf v eds → dah_from_eds eds = Ok dah → ns ≠ PARITY_SHARE → 0 < height →
  ∃ rows, get_namespace_data eds ns dah height = Ok rows ∧
    concat ((λ e, rnd_shares e.2) <$> rows) = filter (λ s, share_namespace s = ns) (eds_data_square eds) ∧
    Forall (λ '(id, d), rn_namespace id = ns ∧ RowNamespaceDataId_block_height id = height ∧
                        RowNamespaceData_verify d id dah = Ok tt) rows.
Proof.
  intros Hwf Hdah Hns Hh.
  assert (Forall (λ i, 0 ≤ i < eds_square_width eds) (indexes (eds_square_width eds))) as Hall
    by by apply Forall_indexes.
  eexists. split; [by apply (namespace_data_loop_spec v eds dah Hwf Hdah ns)|]. split.
  - rewrite (ns_entries_concat v eds dah Hwf Hdah ns Hns) by done.
    rewrite (eds_data_grid v eds Hwf), filter_grid. f_equal. apply list_fmap_ext. intros _ r _.
    unfold ns_row, axis_of, axis_coords. by rewrite <-list_fmap_compose.
  - apply Forall_fmap, Forall_forall. intros i [Hi Hin]%list_elem_of_filter.
    rewrite Forall_forall in Hall. specialize (Hall i Hin). split_and!; [done|done|].
    by apply (ns_entry_verifies v eds dah Hwf Hdah ns Hns height i).
Qed.

(** Namespace data that verifies is complete: if [RowNamespaceData::verify] succeeds under
    an id, its shares are (as bytes, in order) all the shares of the id's namespace in the
    id's row of the square, none added and none left out. *)
Theorem namespace_data_verify_complete v eds dah d id :
  eds_wf v eds → dah_from_eds eds = Ok dah → rn_namespace id ≠ PARITY_SHARE →
  0 ≤ RowNamespaceDataId_row_index id → RowNamespaceData_verify d id dah = Ok tt →
  ∃ shares, eds_row eds (RowNamespaceDataId_row_index id) = Ok shares ∧
    sh_data <$> rnd_shares d = sh_data <$> filter (λ s, share_namespace s = rn_namespace id) shares.
Proof.
  intros Hwf Hdah Hns Hi Hv.
  destruct (namespace_data_verified v eds dah Hwf Hdah (rn_namespace id) Hns d id Hi eq_refl Hv) as [Hin Hd].
  eexists. split; [by apply (eds_axis_in v)|done].
Qed.

End NamespaceProperties.

Section Properties.
Context `{DahExternalsSpec} `{NmtExternalsSpec} `{!NmtProofs} `{!NmtProofsSpec}.

(** A sample that a full node makes is accepted: for every position of a well-formed
    square and either axis, [Sample::new] succeeds with the share of that position, what
    [from_raw] reads of its protobuf form is the same sample, and it verifies against the
    header of the square. *)
Theorem sample_roundtrip_verifies v eds dah axis row col height :
  eds_wf v eds → square_bytes eds → dah_from_eds eds = Ok dah →
  0 ≤ row < eds_square_width eds → 0 ≤ col < eds_square_width eds →
  ∃ s, Sample_new row col axis eds = Ok s ∧ eds_share eds row col = Ok (sample_share s) ∧
    Sample_from_raw (sample_id row col height) (Sample_into_raw s) = Ok s ∧
    Sample_verify s (sample_id row col height) dah = Ok tt.
Proof.
  intros Hwf Hb Hdah Hr Hc. eexists. split; [by apply (Sample_new_in v)|].
  cbn [sample_share]. split; [by apply (eds_share_in v)|].
  apply (sample_accepted v eds dah Hwf Hdah axis row col row col height); try done.
  by apply (Sample_new_in v).
Qed.

(** A sample that verifies is in the block: if [Sample::verify] succeeds against the
    header of a well-formed square, the square has a share with the same bytes and the same
    namespace on the row (for a column proof: the column) that the id names. *)
Theorem sample_verify_sound v eds dah s id :
  eds_wf v eds → dah_from_eds eds = Ok dah →
  0 ≤ SampleId_row_index id → 0 ≤ si_column_index id → Sample_verify s id dah = Ok tt →
  ∃ row col share, 0 ≤ row < eds_square_width eds ∧ 0 ≤ col < eds_square_width eds ∧
    eds_share eds row col = Ok share ∧
    match sample_proof_type s with Row => row = SampleId_row_index id | Col => col = si_column_index id end ∧
    sh_data share = sh_data (sample_share s) ∧ share_namespace share = share_namespace (sample_share s).
Proof.
  intros Hwf Hdah Hr Hc Hv.
  destruct (sample_verified v eds dah Hwf Hdah s id Hr Hc Hv) as (r&c&Hr'&Hc'&Ha&Hd&Hn).
  exists r, c, (cell eds r c). do 2 (split; [done|]). split; [by apply (eds_share_in v)|]. split; [|done].
  by destruct (sample_proof_type s).
Qed.

(** The position of a sample along the axis of its proof is not checked: a node that asks
    for the share at [row], [col'] accepts, after decoding and verifying, the share at [row],
    [col] of the same row, as long as both are data or both are parity; the start of the
    proven range is never compared with the id. *)
Theorem sample_position_unbound v eds dah row col col' height s :
  eds_wf v eds → square_bytes eds → dah_from_eds eds = Ok dah →
  0 ≤ row < eds_square_width eds → 0 ≤ col < eds_square_width eds → 0 ≤ col' < eds_square_width eds →
  is_ods_square row col (eds_square_width eds) = is_ods_square row col' (eds_square_width eds) →
  Sample_new row col Row eds = Ok s →
  Sample_from_raw (sample_id row col' height) (Sample_into_raw s) = Ok s ∧
  Sample_verify s (sample_id row col' height) dah = Ok tt.
Proof.
  intros Hwf Hb Hdah Hr Hc Hc' Hq Hs. by apply (sample_accepted v eds dah Hwf Hdah Row row col row col').
Qed.

(** Decoding a sample can panic: a proof of one leaf with 64 or more sibling hashes makes
    the number of leaves, [1 << siblings.len()], overflow. *)
Theorem sample_from_raw_panics id share siblings start proof_type :
  Forall nh_wf siblings → (64 ≤ length siblings)%nat → 0 ≤ start < u32_max →
  AxisType_try_from proof_type ≠ None →
  Sample_from_raw id
    {| raw_share := Some share; raw_proof_type := proof_type;
       raw_proof := Some {| raw_start := start; raw_end := start + 1; raw_nodes := nh_to_array <$> siblings;
                            raw_leaf_hash := []; raw_is_max_namespace_ignored := true |} |} = Panic.
Proof.
  intros Hs Hl Hst Ht.
  set (p := PresenceProof {| np_siblings := siblings; np_start := start; np_end := start + 1 |} true).
  unfold Sample_from_raw. cbn [raw_proof raw_share raw_proof_type ok_or]. cbv [mbind res_bind].
  assert (nproof_wf p) as Hp by (split; [exact Hs|]; cbn; unfold u32_max in *; split_and!; (lia || done)).
  set (raw := {| raw_start := start |}).
  rewrite (try_from_parts p raw Hp eq_refl (as_u32_small start ltac:(lia)) (as_u32_small (start + 1) ltac:(lia))
             eq_refl eq_refl).
  destruct (AxisType_try_from proof_type); [|done]. cbn [ok_or is_of_absence p].
  unfold total_leaves, saturating_sub, start_idx, end_idx, Containers.siblings.
  cbn [np_proof np_siblings np_start np_end p].
  destruct (Z.ltb_spec (start + 1) start); [lia|]. replace (start + 1 - start) with 1 by lia. cbn [Z.eqb Pos.eqb].
  destruct (Nat.ltb_spec 63 (length siblings)); [done|lia].
Qed.

(** Rows: the row that [Row::new] makes verifies, and the shares of any row that verifies
    under an id are, bytes and namespaces, the shares of that row of the square. *)
Theorem row_verify_exact `{!NmtCollisionFree} v eds dah id :
  eds_wf v eds → dah_from_eds eds = Ok dah → 0 ≤ ri_index id →
  (ri_index id < eds_square_width eds → ∃ row, Row_new (ri_index id) eds = Ok row ∧ Row_verify row id dah = Ok tt) ∧
  (∀ row, Row_verify row id dah = Ok tt → ∃ row', Row_new (ri_index id) eds = Ok row' ∧
    sh_data <$> row_shares row = sh_data <$> row_shares row' ∧
    share_namespace <$> row_shares row = share_namespace <$> row_shares row').
Proof.
  intros Hwf Hdah Hi. split.
  - intros Hlt. eexists. split; [apply (Row_new_in v); [done|lia]|]. destruct id as [[height] i].
    apply (row_new_verifies v eds dah Hwf Hdah i height). cbn in *. lia.
  - intros row Hv. destruct (row_verified v eds dah Hwf Hdah row id Hi Hv) as [Hin Hl].
    eexists. split; [by apply (Row_new_in v)|]. cbn [row_shares]. unfold axis_leaves in Hl.
    split; [apply (f_equal (fmap fst)) in Hl|apply (f_equal (fmap snd)) in Hl];
      rewrite <-!list_fmap_compose in Hl; exact Hl.
Qed.

(** Half a row is enough: from the left half of a row that is a code word (what a peer
    sends) and from its right half, [Row::from_raw] recovers the whole row, with the shares
    of the first quadrant as data and the others as parity. *)
Theorem row_raw_roundtrip `{LeopardCodecSpec} `{!LeopardReconstruct} `{!LeopardReconstructSpec}
    v eds i height row :
  eds_wf v eds → square_bytes eds → 0 ≤ i < eds_square_width eds → Row_new i eds = Ok row →
  let k := Z.to_nat (eds_square_width eds / 2) in
  codeword k (sh_data <$> row_shares row) →
  Row_from_raw (row_id i height) (Row_into_raw row) = Ok row ∧
  Row_from_raw (row_id i height)
    {| raw_shares_half := drop k (sh_data <$> row_shares row); raw_half_side := 1 |} = Ok row.
Proof.
  intros Hwf Hb Hi Hrow k Hcw. rewrite (Row_new_in v) in Hrow by done. injection Hrow as <-.
  cbn [row_shares] in Hcw. split; [|by apply (row_from_half v eds Hwf i height true)].
  unfold Row_into_raw. cbn [row_shares].
  replace (length (axis_of (cell eds) Row (eds_square_width eds) i) / 2)%nat with k.
  - by apply (row_from_half v eds Hwf i height false).
  - rewrite length_axis_of. pose proof (eds_bounds _ _ Hwf). subst k.
    rewrite Z2Nat.inj_div by lia. done.
Qed.

(** Share proofs are sound down to the square: if [ShareProof::verify] succeeds against the
    hash of the header of a well-formed square, and the row proof is for a tree with as many
    leaves as the header has roots, every share it carries is a share of the square and has the
    proof's namespace. *)
Theorem share_proof_sound `{!CollisionFree bytes} v eds dah sp :
  eds_wf v eds → dah_from_eds eds = Ok dah → ShareProof_verify sp (dah_hash dah) = Ok tt →
  Forall nh_wf (rp_row_roots (sp_row_proof sp)) →
  Forall (λ mp, mp_total mp = length (all_roots dah) ∧ (mp_index mp < mp_total mp)%nat)
    (rp_proofs (sp_row_proof sp)) →
  ∀ d, d ∈ sp_data sp → ∃ row col share, eds_share eds row col = Ok share ∧ sh_data share = d ∧
    share_namespace share = sp_namespace_id sp.
Proof.
  intros Hwf Hdah Hv Hnh Hmp d Hd. apply ShareProof_verify_Ok in Hv as [Hrow Hdata].
  destruct (Hdata d Hd) as (p&h&sl&Hh&Hver&Hsl).
  apply list_elem_of_lookup in Hh as [k Hk].
  assert (length (rp_row_roots (sp_row_proof sp)) = length (rp_proofs (sp_row_proof sp))) as Hlen
    by (apply RowProof_verify_Ok in Hrow; tauto).
  destruct (lookup_lt_is_Some_2 (rp_proofs (sp_row_proof sp)) k) as [mp Hkmp];
    [apply lookup_lt_Some in Hk; lia|].
  destruct (Forall_lookup_1 _ _ _ _ Hmp Hkmp) as [Ht Hidx].
  pose proof (row_proof_sound dah _ k h mp Hrow Hk Hkmp Ht Hidx) as Hroot.
  destruct (dah_root_of_array v eds dah h (mp_index mp) Hwf Hdah (Forall_lookup_1 _ _ _ _ Hnh Hk) Hroot)
    as (axis&i&Hi&Hn).
  apply (verify_range_sound _ _ _ _ _ Hn) in Hver. rewrite Forall_forall in Hver.
  apply Hver, elem_of_axis_leaves in Hsl as (j&Hj&Hdj&Hnj). destruct axis.
  - exists i, j, (cell eds i j). split; [by apply (eds_share_in v)|done].
  - exists j, i, (cell eds j i). split; [by apply (eds_share_in v)|done].
Qed.
End Properties.

(** ** Witnesses

    Proofs over the tree of Nmt.v, whose root records the leaves. *)
#[local] Existing Instances toy_NmtExternals toy_NmtExternalsSpec toy_NmtCollisionFree
  toy_MerkleHash toy_CollisionFree toy_DomainSeparated toy_DahExternals toy_DahExternalsSpec
  toy_LeopardCodec toy_LeopardCodecSpec.

Definition toy_leaves (h : NamespacedHash) : list (bytes * Namespace) :=
  match nh_hash h with Z.pos e :: _ => default [] (decode e) | _ => [] end.
#[local] Instance toy_NmtProofs : NmtProofs := {|
  build_range_proof leaves i j :=
    {| np_siblings := repeat (toy_nh 1) (Nat.log2 (length leaves)); np_start := i; np_end := j |};
  get_namespace_proof leaves ns :=
    let p := {| np_siblings := []; np_start := 0; np_end := 0 |} in
    if decide (ns_leaves ns leaves = []) then AbsenceProof p true None else PresenceProof p true;
  verify_range p h l ns := forallb (λ d, bool_decide ((d, ns) ∈ toy_leaves h)) l;
  verify_complete_namespace p h l ns := bool_decide (l = ns_leaves ns (toy_leaves h));
  nh_contains h ns := existsb (λ x, bool_decide (x.2 = ns)) (toy_leaves h);
  convert_to_absence_proof p leaf := AbsenceProof (np_proof p) (max_ns_ignored p) (Some leaf)
|}.

Lemma toy_leaves_root leaves h : nmt_root leaves = Some h → toy_leaves h = leaves.
Proof.
  unfold nmt_root, toy_NmtExternals, toy_nmt_root. case_match; [|done]. intros [= <-].
  unfold toy_leaves. cbn [nh_hash]. by rewrite decode_encode.
Qed.
#[local] Instance toy_NmtProofsSpec : NmtProofsSpec.
Proof.
  split; cbn.
  - intros leaves h i d ns Hr Hl _. rewrite (toy_leaves_root _ _ Hr), bool_decide_true; [done|].
    by eapply list_elem_of_lookup_2.
  - intros leaves i k Hl Hi. split_and!; [done|done| |].
    + by rewrite repeat_length, Hl, Nat.log2_pow2 by lia.
    + by apply Forall_repeat_same.
  - intros _ leaves h l ns Hr Hv. rewrite (toy_leaves_root _ _ Hr) in Hv.
    apply Forall_forall. intros d Hd. rewrite forallb_forall in Hv.
    eapply bool_decide_eq_true_1, Hv. by apply list_elem_of_In.
  - intros leaves h ns _ Hr _ _. rewrite (toy_leaves_root _ _ Hr). split; [by apply bool_decide_true|].
    by case_decide as Hd; cbn; rewrite ?Hd.
  - intros _ leaves h l ns Hr _ Hv. rewrite (toy_leaves_root _ _ Hr) in Hv. by apply bool_decide_eq_true in Hv.
  - intros leaves h d ns Hr Hin _. rewrite (toy_leaves_root _ _ Hr). apply existsb_exists.
    exists (d, ns). split; [by apply list_elem_of_In|by apply bool_decide_true].
  - done.
Qed.

(** A missing shard of a repetition is its other copy. *)
Definition toy_fill (a b : bytes) : bytes := match a with [] => b | _ => a end.
#[local] Instance toy_LeopardReconstruct : LeopardReconstruct := λ shards n,
  if (length shards =? n * 2)%nat then
    Some (zip_with toy_fill (take n shards) (drop n shards)
            ++ zip_with toy_fill (drop n shards) (take n shards))
  else None.
Lemma zip_fill_left l1 l2 : length l1 = length l2 → Forall is_shard l1 → zip_with toy_fill l1 l2 = l1.
Proof.
  intros Hl Hs. revert l2 Hl. induction Hs as [|x l1 [Hx _] _ IH]; intros [|y l2] [=]; [done|].
  cbn [zip_with]. rewrite IH by done. by destruct x.
Qed.
Lemma zip_fill_empty l k : length l = k → zip_with toy_fill (repeat ([] : bytes) k) l = l.
Proof. intros <-. induction l as [|x l IH]; [done|]. cbn [length repeat zip_with toy_fill]. by rewrite IH. Qed.
#[local] Instance toy_LeopardReconstructSpec : LeopardReconstructSpec.
Proof.
  split; unfold leopard_encode, toy_LeopardCodec, leopard_reconstruct, toy_LeopardReconstruct.
  - intros shards shards' n -> ->. done.
  - intros k l Hl Hs (shards&Ht&He). unfold leopard_encode, toy_LeopardCodec in He. case_match; [|done].
    injection He as He. rewrite Ht in He.
    assert (length (take k l) = k) as Hk by (rewrite length_take; lia).
    assert (drop k l = take k l) as Hd by (rewrite <-He at 1; by rewrite drop_app_length').
    rewrite Hd, length_app, repeat_length, Hk, take_app_length', drop_app_length' by (by rewrite repeat_length).
    destruct (Nat.eqb_spec (k + k) (k * 2)); [|lia]. rewrite zip_fill_empty by done.
    rewrite zip_fill_left; [by rewrite He|by rewrite repeat_length|by apply Forall_take].
  - intros k l Hl Hs. rewrite Hl, Nat.eqb_refl. f_equal.
    rewrite !zip_fill_left; [apply take_drop|rewrite length_take, length_drop; lia|by apply Forall_drop|
      rewrite length_take, length_drop; lia|by apply Forall_take].
Qed.

Definition toy_square_dah : DataAvailabilityHeader :=
  match dah_from_eds toy_square with Ok dah => dah | _ => toy_dah end.
Lemma toy_square_dah_of : dah_from_eds toy_square = Ok toy_square_dah.
Proof. destruct (from_eds_spec V3 toy_square toy_square_wf) as (dah&Hd&_). unfold toy_square_dah. by rewrite Hd. Qed.
Lemma toy_square_bytes : square_bytes toy_square.
Proof. constructor; [apply toy_tail_bytes|]. apply Forall_repeat_same, toy_tail_bytes. Qed.
Definition toy_sample (axis : AxisType) : Sample :=
  match Sample_new 0 1 axis toy_square with
  | Ok s => s
  | _ => {| sample_proof_type := axis; sample_share := cell toy_square 0 0;
            sample_proof := PresenceProof {| np_siblings := []; np_start := 0; np_end := 0 |} true |}
  end.
Lemma toy_sample_new axis : Sample_new 0 1 axis toy_square = Ok (toy_sample axis).
Proof. unfold toy_sample. rewrite (Sample_new_in V3 toy_square toy_square_wf axis 0 1) by (cbn; lia). done. Qed.

Lemma sample_roundtrip_verifies_witness : ∃ s, Sample_new 1 0 Col toy_square = Ok s ∧
  Sample_verify s (sample_id 1 0 5) toy_square_dah = Ok tt.
Proof.
  destruct (sample_roundtrip_verifies V3 toy_square toy_square_dah Col 1 0 5) as (s&Hs&_&_&Hv);
    [apply toy_square_wf|apply toy_square_bytes|apply toy_square_dah_of|cbn; lia|cbn; lia|]. by exists s.
Defined.

Lemma toy_sample_accepted axis : Sample_verify (toy_sample axis) (sample_id 0 1 5) toy_square_dah = Ok tt.
Proof.
  apply (sample_accepted V3 toy_square toy_square_dah toy_square_wf toy_square_dah_of axis 0 1 0 1);
    [apply toy_square_bytes|cbn; lia..|done|done|apply toy_sample_new].
Qed.

Lemma sample_verify_sound_witness : ∃ row share, eds_share toy_square row 1 = Ok share ∧
  sh_data share = sh_data (sample_share (toy_sample Col)).
Proof.
  destruct (sample_verify_sound V3 toy_square toy_square_dah (toy_sample Col) (sample_id 0 1 5)
    toy_square_wf toy_square_dah_of ltac:(cbn; lia) ltac:(cbn; lia) (toy_sample_accepted Col))
    as (row&col&share&_&_&Hs&Hax&Hd&_).
  assert (sample_proof_type (toy_sample Col) = Col) as Ht by reflexivity. rewrite Ht in Hax. subst col.
  by exists row, share.
Defined.

Lemma sample_position_unbound_witness :
  ∃ s, Sample_new 1 0 Row toy_square = Ok s ∧ Sample_verify s (sample_id 1 1 5) toy_square_dah = Ok tt.
Proof.
  eexists. split; [apply (Sample_new_in V3 toy_square toy_square_wf Row 1 0); cbn; lia|].
  apply (sample_position_unbound V3 toy_square toy_square_dah 1 0 1 5);
    [apply toy_square_wf|apply toy_square_bytes|apply toy_square_dah_of|cbn; lia..|reflexivity|].
  apply (Sample_new_in V3 toy_square toy_square_wf Row 1 0); cbn; lia.
Defined.

Lemma sample_from_raw_panics_witness : Sample_from_raw (sample_id 0 0 1)
  {| raw_share := Some toy_tail; raw_proof_type := 0;
     raw_proof := Some {| raw_start := 0; raw_end := 1; raw_nodes := nh_to_array <$> repeat (toy_nh 1) 64;
                          raw_leaf_hash := []; raw_is_max_namespace_ignored := true |} |} = Panic.
Proof.
  apply (sample_from_raw_panics (sample_id 0 0 1) toy_tail (repeat (toy_nh 1) 64) 0 0);
    [by apply Forall_repeat_same|by rewrite repeat_length|unfold u32_max; lia|done].
Defined.

Lemma row_verify_exact_witness : ∃ row, Row_new 1 toy_square = Ok row ∧ Row_verify row (row_id 1 7) toy_square_dah = Ok tt.
Proof.
  apply (row_verify_exact V3 toy_square toy_square_dah (row_id 1 7) toy_square_wf toy_square_dah_of);
    vm_compute; done.
Defined.

Lemma row_raw_roundtrip_witness : ∃ row, Row_new 0 toy_square = Ok row ∧
  Row_from_raw (row_id 0 7) (Row_into_raw row) = Ok row.
Proof.
  eexists. split; [apply (Row_new_in V3 toy_square toy_square_wf); cbn; lia|].
  apply (row_raw_roundtrip V3 toy_square 0 7);
    [apply toy_square_wf|apply toy_square_bytes|cbn; lia|apply (Row_new_in V3 toy_square toy_square_wf); cbn; lia|].
  exists [toy_tail; toy_tail]. split; vm_compute; reflexivity.
Defined.

Lemma get_namespace_data_correct_witness : ∃ rows,
  get_namespace_data toy_square TAIL_PADDING toy_square_dah 5 = Ok rows ∧
  concat ((λ e, rnd_shares e.2) <$> rows) = [cell toy_square 0 0].
Proof.
  destruct (get_namespace_data_correct V3 toy_square toy_square_dah TAIL_PADDING 5) as (rows&Hr&Hc&_);
    [apply toy_square_wf|apply toy_square_dah_of|by vm_compute|lia|].
  exists rows. split; [done|]. rewrite Hc. vm_compute. reflexivity.
Defined.

Lemma namespace_data_verify_complete_witness : ∃ shares, eds_row toy_square 0 = Ok shares ∧
  sh_data <$> ns_row toy_square TAIL_PADDING 0 = sh_data <$> filter (λ s, share_namespace s = TAIL_PADDING) shares.
Proof.
  destruct (dah_axis_root V3 toy_square toy_square_dah toy_square_wf toy_square_dah_of Row 0) as (h&Hh&Hr); [cbn; lia|].
  apply (namespace_data_verify_complete V3 toy_square toy_square_dah
    {| rnd_proof := get_namespace_proof (axis_leaves toy_square Row 0) TAIL_PADDING; rnd_shares := ns_row toy_square TAIL_PADDING 0 |}
    {| rn_row_id := row_id 0 5; rn_namespace := TAIL_PADDING |} toy_square_wf toy_square_dah_of); [by vm_compute|cbn; lia|].
  apply (ns_entry_verifies V3 toy_square toy_square_dah toy_square_wf toy_square_dah_of TAIL_PADDING);
    [by vm_compute|cbn; lia|]. exists h. split; [done|].
  apply (contains_leaf _ _ toy_tail TAIL_PADDING Hr); [by left|by vm_compute].
Defined.

Definition toy_share_proof : ShareProof :=
  {| sp_data := [toy_tail]; sp_namespace_id := TAIL_PADDING;
     sp_share_proofs := [PresenceProof {| np_siblings := []; np_start := 0; np_end := 1 |} true];
     sp_row_proof := match row_proof toy_square_dah 0 0 with Ok p => p | _ => toy_row_proof end |}.
Lemma share_proof_sound_witness : ∃ row col share, eds_share toy_square row col = Ok share ∧
  sh_data share = toy_tail ∧ share_namespace share = TAIL_PADDING.
Proof.
  apply (share_proof_sound V3 toy_square toy_square_dah toy_share_proof toy_square_wf toy_square_dah_of).
  - vm_compute. reflexivity.
  - apply (bool_decide_eq_true_1 (Forall (λ h, length (min_namespace h) = NS_SIZE ∧
      length (max_namespace h) = NS_SIZE ∧ length (nh_hash h) = HASH_SIZE) _)). vm_compute. reflexivity.
  - apply (bool_decide_eq_true_1 _). vm_compute. reflexivity.
  - by left.
Defined.
