(* ===== verification/Byzantine.v ===== *)
(** * Fraud proofs (src/types/src/byzantine.rs, src/types/src/fraud_proof.rs)

    A proof that a row or column of a block's square is badly encoded: shares of the axis,
    each with a proof of inclusion.  [validate] rebuilds the axis from the shares and compares
    the root with the header's.  Protobuf encodings are a parameter. *)

From S2P Require Import Prelude Consts Nmt Merkle Dah Header Share Eds ShwapIds Containers.

(** ** Data *)

Record NmtLeaf := { leaf_namespace : Namespace; leaf_share : bytes }.
Record ShareWithProof := { swp_leaf : NmtLeaf; swp_proof : NamespaceProof; swp_proof_axis : AxisType }.
Record BadEncodingFraudProof := {
  befp_header_hash : Hash;
  befp_block_height : Z;
  befp_shares : list (option ShareWithProof);
  befp_index : Z;
  befp_axis : AxisType
}.

Definition NmtLeaf_new (b : bytes) : res TypesError NmtLeaf :=
  if negb (length b =? SHARE_SIZE + NS_SIZE)%nat then Err (InvalidNmtLeafSize (length b)) else
  '(b, share) ← split_at NS_SIZE b;
  namespace ← map_err ENamespace (Namespace_from_raw b);
  Ok {| leaf_namespace := namespace; leaf_share := share |}.
Definition NmtLeaf_to_vec (leaf : NmtLeaf) : bytes := leaf_namespace leaf ++ leaf_share leaf.

(** ** Validation *)

Section Befp.
Context `{!NmtExternals} `{!NmtProofs} `{!LeopardCodec} `{!LeopardReconstruct}.

(** The root a share is proven against. *)
Definition share_root (axis : AxisType) (dah : DataAvailabilityHeader) (index share_idx : Z)
    (proof_axis : AxisType) : option NamespacedHash :=
  match axis, proof_axis with
  | Row, Row => row_root dah index
  | Row, Col => column_root dah share_idx
  | Col, Row => row_root dah share_idx
  | Col, Col => column_root dah index
  end.

(** The loop over the shares with their indices, from [share_idx] on. *)
Fixpoint verify_shares (axis : AxisType) (dah : DataAvailabilityHeader) (index share_idx : Z)
    (shares : list (option ShareWithProof)) : res TypesError unit :=
  match shares with
  | [] => Ok tt
  | None :: shares => verify_shares axis dah index (share_idx + 1) shares
  | Some s :: shares =>
      root ← expect (share_root axis dah index share_idx (swp_proof_axis s));
      _ ← ensure (verify_range (swp_proof s) root [leaf_share (swp_leaf s)] (leaf_namespace (swp_leaf s)))
            RangeProofError;
      verify_shares axis dah index (share_idx + 1) shares
  end.

(** The tree of the rebuilt axis, [None] when a push fails; the slice and the [unwrap] can
    panic. *)
Fixpoint rebuild_tree (ods_width n : nat) (leaves : list (bytes * Namespace)) (shares : list bytes)
    : res TypesError (option (list (bytes * Namespace))) :=
  match shares with
  | [] => Ok (Some leaves)
  | share :: shares =>
      ns ← (if (n <? ods_width)%nat then
              '(ns, _) ← split_at NS_SIZE share; expect_ok (Namespace_from_raw ns)
            else Ok PARITY_SHARE);
      match nmt_root (leaves ++ [(share, ns)]) with
      | None => Ok None
      | Some _ => rebuild_tree ods_width (S n) (leaves ++ [(share, ns)]) shares
      end
  end.

Definition befp_share_data (s : option ShareWithProof) : bytes :=
  match s with Some s => leaf_share (swp_leaf s) | None => [] end.

Definition befp_validate (self : BadEncodingFraudProof) (header : ExtendedHeader) : res TypesError unit :=
  let dah := eh_dah header in
  if negb (eh_height header =? befp_block_height self) then Err EValidation else
  if negb (length (row_roots dah) =? length (column_roots dah))%nat then Err EValidation else
  square_width ← expect_ok (square_width dah);
  let ods_width := square_width / 2 in
  if square_width <=? befp_index self then Err EValidation else
  if negb (Z.of_nat (length (befp_shares self)) =? square_width) then Err EValidation else
  let shares_count := length (filter (λ s, is_Some s) (befp_shares self)) in
  if Z.of_nat shares_count <? ods_width then Err EValidation else
  _ ← verify_shares (befp_axis self) dah (befp_index self) 0 (befp_shares self);
  let rebuilt_shares := befp_share_data <$> befp_shares self in
  match leopard_reconstruct rebuilt_shares (Z.to_nat ods_width) with
  | None => Ok tt
  | Some rebuilt_shares =>
      match leopard_encode rebuilt_shares (Z.to_nat ods_width) with
      | None => Ok tt
      | Some rebuilt_shares =>
          tree ← rebuild_tree (Z.to_nat ods_width) 0 [] rebuilt_shares;
          match tree with
          | None => Ok tt
          | Some leaves =>
              expected_root ← expect (dah_root dah (befp_axis self) (befp_index self));
              root ← expect (nmt_root leaves);
              if bool_decide (root = expected_root) then Err EValidation else Ok tt
          end
      end
  end.

(** ** Making a fraud proof (the module [test_utils]) *)

(** The tree a share is proven in, and its place there. *)
Definition proof_place (axis proof_axis : AxisType) (axis_idx share_idx : Z) : AxisType * Z * Z :=
  match axis, proof_axis with
  | Row, Row => (Row, axis_idx, share_idx)
  | Row, Col => (Col, share_idx, axis_idx)
  | Col, Row => (Row, share_idx, axis_idx)
  | Col, Col => (Col, axis_idx, share_idx)
  end.
(** [get_index_with_proof] reads the leaf and builds the proof of its range. *)
Definition befp_share (eds : ExtendedDataSquare) (axis : AxisType) (axis_idx : Z) (proof_axis : AxisType)
    (share_idx : Z) : res TypesError ShareWithProof :=
  let '(tree, tree_idx, idx) := proof_place axis proof_axis axis_idx share_idx in
  nmt ← expect_ok (eds_axis_nmt eds tree tree_idx);
  '(share, _) ← expect (nmt !! Z.to_nat idx);
  ns ← (if is_ods_square axis_idx share_idx (eds_square_width eds)
        then expect_ok (Namespace_from_raw (take NS_SIZE share)) else Ok PARITY_SHARE);
  Ok {| swp_leaf := {| leaf_namespace := ns; leaf_share := share |};
        swp_proof := PresenceProof (build_range_proof nmt idx (idx + 1)) true; swp_proof_axis := proof_axis |}.
(** The axis of each proof is random. *)
Definition befp_from_header_and_eds (eh : ExtendedHeader) (eds : ExtendedDataSquare) (axis_idx : Z) (axis : AxisType)
    (proof_axes : Z → AxisType) : res TypesError BadEncodingFraudProof :=
  shares ← mapM (λ j, s ← befp_share eds axis axis_idx (proof_axes j) j; Ok (Some s)) (indexes (eds_square_width eds));
  Ok {| befp_header_hash := eh_hash eh; befp_block_height := eh_height eh; befp_shares := shares;
        befp_index := axis_idx; befp_axis := axis |}.
End Befp.

(** ** Protobuf form *)

Record RawShareWithProof := { rswp_data : bytes; rswp_proof : option RawProof; rswp_proof_axis : Z }.
(** The default message. *)
Definition RawShareWithProof_default : RawShareWithProof :=
  {| rswp_data := []; rswp_proof := None; rswp_proof_axis := 0 |}.
Record RawBadEncodingFraudProof := {
  rbefp_header_hash : bytes; rbefp_height : Z; rbefp_shares : list RawShareWithProof;
  rbefp_index : Z; rbefp_axis : Z
}.

Section Raw.
Context `{!DahExternals} `{!NmtProofs}.

Definition ShareWithProof_try_from (value : RawShareWithProof) : res TypesError ShareWithProof :=
  leaf ← NmtLeaf_new (rswp_data value);
  proof ← ok_or (rswp_proof value) MissingProof;
  proof ← NamespaceProof_try_from proof;
  if is_of_absence proof then Err WrongProofType else
  proof_axis ← ok_or (AxisType_try_from (rswp_proof_axis value)) (InvalidAxis (rswp_proof_axis value));
  Ok {| swp_leaf := leaf; swp_proof := proof; swp_proof_axis := proof_axis |}.
Definition ShareWithProof_into_raw (value : ShareWithProof) : RawShareWithProof :=
  {| rswp_data := NmtLeaf_to_vec (swp_leaf value);
     rswp_proof := Some (NamespaceProof_into_raw (swp_proof value));
     rswp_proof_axis := axis_as_i32 (swp_proof_axis value) |}.

(** [Hash::try_from(Vec<u8>)] and [Height::try_from(u64)] of tendermint, with [None] for
    their errors. *)
Context (hash_try_from : bytes → option Hash) (hash_into : Hash → bytes) (height_try_from : Z → option Z).

Definition befp_try_from (value : RawBadEncodingFraudProof) : res TypesError BadEncodingFraudProof :=
  axis ← ok_or (AxisType_try_from (rbefp_axis value)) (InvalidAxis (rbefp_axis value));
  index ← (if u16_max <? rbefp_index value then Err EdsInvalidDimentions else Ok (rbefp_index value));
  shares ← mapM (λ share, if bool_decide (is_Some (rswp_proof share))
                          then Some <$> ShareWithProof_try_from share else Ok None) (rbefp_shares value);
  header_hash ← ok_or (hash_try_from (rbefp_header_hash value)) EProtobuf;
  block_height ← ok_or (height_try_from (rbefp_height value)) EProtobuf;
  Ok {| befp_header_hash := header_hash; befp_block_height := block_height; befp_shares := shares;
        befp_index := index; befp_axis := axis |}.
Definition befp_into_raw (value : BadEncodingFraudProof) : RawBadEncodingFraudProof :=
  {| rbefp_header_hash := hash_into (befp_header_hash value); rbefp_height := befp_block_height value;
     rbefp_shares := (λ share, default RawShareWithProof_default (ShareWithProof_into_raw <$> share))
                       <$> befp_shares value;
     rbefp_index := befp_index value; rbefp_axis := axis_as_i32 (befp_axis value) |}.
End Raw.

(** ** Lemmas: the rebuilt tree *)

(** The leaf [validate] makes of a rebuilt share at place [n], and the leaves from there on. *)
Definition rebuilt_leaf (k n : nat) (s : bytes) : bytes * Namespace :=
  (s, if (n <? k)%nat then ns_of s else PARITY_SHARE).
Definition rebuilt_from (k n : nat) (shares : list bytes) : list (bytes * Namespace) :=
  imap (λ j s, rebuilt_leaf k (n + j) s) shares.

(** Shares in the data half have a namespace. *)
Definition data_half_ok (k n : nat) (shares : list bytes) : Prop :=
  ∀ j (s : bytes), shares !! j = Some s → (n + j < k)%nat → (NS_SIZE ≤ length s)%nat ∧ valid_namespace (ns_of s).

Lemma rebuilt_from_cons k n s shares : rebuilt_from k n (s :: shares)
  = rebuilt_leaf k n s :: rebuilt_from k (S n) shares.
Proof.
  unfold rebuilt_from. rewrite imap_cons, Nat.add_0_r. f_equal. apply imap_ext. intros i x _. cbn.
  by rewrite Nat.add_succ_r.
Qed.

Lemma rebuilt_fst k n shares : fst <$> rebuilt_from k n shares = shares.
Proof.
  revert n. induction shares as [|s shares IH]; intros n; [done|].
  rewrite rebuilt_from_cons, fmap_cons. by rewrite IH.
Qed.

Section Rebuild.
Context `{!NmtExternals} `{!NmtExternalsSpec} (k : nat).

Lemma rebuild_tree_cons n leaves s shares : ((n < k)%nat → (NS_SIZE ≤ length s)%nat ∧ valid_namespace (ns_of s)) →
  rebuild_tree k n leaves (s :: shares) =
    match nmt_root (leaves ++ [rebuilt_leaf k n s]) with
    | None => Ok None
    | Some _ => rebuild_tree k (S n) (leaves ++ [rebuilt_leaf k n s]) shares
    end.
Proof.
  intros Hs. unfold rebuilt_leaf. cbn [rebuild_tree]. destruct (Nat.ltb_spec n k) as [Hn|]; [|done].
  destruct (Hs Hn) as [Hl Hv]. unfold split_at. destruct (Nat.ltb_spec (length s) NS_SIZE); [lia|].
  cbv [mbind res_bind]. fold (ns_of s).
  by rewrite (proj2 (proj1 (namespace_from_raw_exact (ns_of s) (ns_of s))) (conj eq_refl Hv)).
Qed.

Lemma rebuild_tree_panics n leaves s shares : (n < k)%nat → (NS_SIZE ≤ length s)%nat →
  ¬ valid_namespace (ns_of s) → rebuild_tree k n leaves (s :: shares) = Panic.
Proof.
  intros Hn Hl Hv. cbn [rebuild_tree]. destruct (Nat.ltb_spec n k); [|lia]. unfold split_at.
  destruct (Nat.ltb_spec (length s) NS_SIZE); [lia|]. cbv [mbind res_bind]. fold (ns_of s).
  destruct (Namespace_from_raw (ns_of s)) as [ns| |] eqn:E; [|done|done].
  by apply namespace_from_raw_exact in E as [-> ?].
Qed.

Lemma rebuild_tree_spec n leaves shares : data_half_ok k n shares →
  ∃ o, rebuild_tree k n leaves shares = Ok o ∧
    (o = None ∨ o = Some (leaves ++ rebuilt_from k n shares) ∧
      (shares = [] ∨ ∃ h, nmt_root (leaves ++ rebuilt_from k n shares) = Some h)) ∧
    (ns_sorted (leaves ++ rebuilt_from k n shares) → o = Some (leaves ++ rebuilt_from k n shares)).
Proof.
  revert n leaves. induction shares as [|s shares IH]; intros n leaves Hok.
  { exists (Some leaves). cbn. rewrite app_nil_r. split; [done|]. split; [right; auto|done]. }
  rewrite rebuild_tree_cons by (intros Hn; apply (Hok 0%nat s eq_refl); lia).
  rewrite rebuilt_from_cons. set (leaf := rebuilt_leaf k n s). rewrite (cons_middle leaf leaves (rebuilt_from k (S n) shares)), (assoc_L (++)).
  destruct (nmt_root (leaves ++ [leaf])) as [h|] eqn:Eh.
  - destruct (IH (S n) (leaves ++ [leaf])) as (o&Ho&Hor&Hsrt).
    { intros j x Hj Hlt. apply (Hok (S j) x Hj). lia. }
    exists o. split; [done|]. split; [|done]. destruct Hor as [->|[-> [->|Hh]]]; [by left|..].
    + right. split; [done|]. right. exists h. cbn. by rewrite app_nil_r.
    + right. by split; [|right].
  - exists None. split; [done|]. split; [by left|]. intros Hs.
    destruct (nmt_root_sorted (leaves ++ [leaf])) as (h&Hh&_); [by eapply ns_sorted_app|]. congruence.
Qed.
End Rebuild.

(** ** Lemmas: validation against the header of a square *)

Section Validate.
Context `{!NmtExternals} `{!NmtExternalsSpec} `{!NmtProofs} `{!LeopardCodec} `{!LeopardReconstruct}
  (v : AppVersion) (eds : ExtendedDataSquare) (header : ExtendedHeader) (Hwf : eds_wf v eds)
  (Hdah : dah_from_eds eds = Ok (eh_dah header)).
#[local] Notation w := (eds_square_width eds).
#[local] Notation k := (Z.to_nat (eds_square_width eds / 2)).

Definition axis_data (axis : AxisType) (i : Z) : list bytes := sh_data <$> axis_of (cell eds) axis w i.

Lemma eds_width_half : w = 2 * (w / 2) ∧ 1 ≤ w / 2 ≤ 128.
Proof.
  clear Hdah. destruct (eds_width_pow2 v eds Hwf) as (n&Hn&_&Hw).
  pose proof (eds_bounds _ _ Hwf) as Hb. rewrite max_width_256 in Hb.
  replace (Z.of_nat n) with (Z.of_nat (n - 1) + 1) in Hw by lia. rewrite Z.pow_add_r in Hw by lia.
  change (2 ^ 1) with 2 in Hw. rewrite Hw, Z.div_mul by lia. lia.
Qed.

Lemma length_axis_data axis i : length (axis_data axis i) = (k * 2)%nat.
Proof.
  clear Hdah. unfold axis_data. rewrite length_fmap, length_axis_of. destruct eds_width_half as [Hw Hb]. lia.
Qed.

Lemma axis_data_lookup axis i j : (j < Z.to_nat w)%nat → axis_data axis i !! j =
  Some (sh_data (match axis with Row => cell eds i (Z.of_nat j) | Col => cell eds (Z.of_nat j) i end)).
Proof.
  clear. intros Hj. unfold axis_data. rewrite list_lookup_fmap, axis_of_lookup by done. by destruct axis.
Qed.

Lemma axis_data_shards axis i : 0 ≤ i < w → square_bytes eds → Forall is_shard (axis_data axis i).
Proof.
  clear Hdah. intros Hi Hb. apply Forall_lookup. intros j s Hs.
  pose proof (lookup_lt_Some _ _ _ Hs) as Hlt. rewrite length_axis_data in Hlt.
  destruct eds_width_half as [Hw _]. rewrite axis_data_lookup in Hs by lia. injection Hs as <-.
  split; destruct axis; (apply (cell_bytes v); (done || lia)) || (apply (cell_ok v eds Hwf); lia).
Qed.

(** The shares of a data row or column as [validate] reads them. *)
Lemma axis_rebuilt axis i : 0 ≤ i < w / 2 → rebuilt_from k 0 (axis_data axis i) = axis_leaves eds axis i.
Proof.
  clear Hdah. intros Hi. destruct eds_width_half as [Hw Hb]. apply list_eq. intros j.
  unfold rebuilt_from, axis_leaves. rewrite list_lookup_imap, list_lookup_fmap.
  destruct (decide (j < Z.to_nat w)%nat) as [Hj|Hj].
  - rewrite axis_data_lookup, axis_of_lookup by done. cbn [fmap option_fmap option_map]. f_equal.
    set (s := match axis with Row => _ | Col => _ end).
    assert (sh_is_parity s = negb (j <? k)%nat) as Hp.
    { subst s. destruct axis; [destruct (cell_ok v eds Hwf i (Z.of_nat j)) as [_ ->]|
        destruct (cell_ok v eds Hwf (Z.of_nat j) i) as [_ ->]]; try lia; unfold is_ods_square; f_equal;
        destruct (Z.ltb_spec i (w / 2)), (Z.ltb_spec (Z.of_nat j) (w / 2)), (Nat.ltb_spec j k); lia || done. }
    unfold rebuilt_leaf, share_leaf, share_namespace. rewrite Hp, Nat.add_0_l. by destruct (j <? k)%nat.
  - rewrite (lookup_ge_None_2 (axis_data axis i)), (lookup_ge_None_2 (axis_of _ _ _ _)); [done|..].
    + rewrite length_axis_of. lia.
    + rewrite length_axis_data. lia.
Qed.

Lemma axis_data_half axis i : 0 ≤ i < w / 2 → data_half_ok k 0 (axis_data axis i).
Proof.
  clear Hdah. intros Hi j s Hj Hlt. destruct eds_width_half as [Hw Hb].
  rewrite axis_data_lookup in Hj by lia. injection Hj as <-.
  assert (∀ r c, 0 ≤ r < w / 2 → 0 ≤ c < w / 2 → (NS_SIZE ≤ length (sh_data (cell eds r c)))%nat ∧
    valid_namespace (ns_of (sh_data (cell eds r c)))) as Hc.
  { intros r c Hr Hc. destruct (cell_ok v eds Hwf r c) as [[Hl Hv] Hp]; [lia..|]. split.
    - rewrite Hl. vm_compute. lia.
    - apply Hv. rewrite Hp. unfold is_ods_square. destruct (Z.ltb_spec r (w / 2)), (Z.ltb_spec c (w / 2)); (lia || done). }
  destruct axis; apply Hc; lia.
Qed.

(** [validate] from the proofs of the shares on. *)
Definition befp_rebuild (p : BadEncodingFraudProof) : res TypesError unit :=
  _ ← verify_shares (befp_axis p) (eh_dah header) (befp_index p) 0 (befp_shares p);
  match leopard_reconstruct (befp_share_data <$> befp_shares p) k with
  | None => Ok tt
  | Some rebuilt =>
      match leopard_encode rebuilt k with
      | None => Ok tt
      | Some rebuilt =>
          tree ← rebuild_tree k 0 [] rebuilt;
          match tree with
          | None => Ok tt
          | Some leaves =>
              expected_root ← expect (dah_root (eh_dah header) (befp_axis p) (befp_index p));
              root ← expect (nmt_root leaves);
              if bool_decide (root = expected_root) then Err EValidation else Ok tt
          end
      end
  end.

Lemma befp_validate_sizes p : eh_height header = befp_block_height p → 0 ≤ befp_index p < w →
  length (befp_shares p) = Z.to_nat w →
  befp_validate p header =
    if (length (filter (λ s, is_Some s) (befp_shares p)) <? k)%nat then Err EValidation else befp_rebuild p.
Proof.
  intros Hh Hi Hl. destruct eds_width_half as [Hw Hb]. unfold befp_validate. rewrite Hh, Z.eqb_refl.
  pose proof (from_eds_width v eds Hwf _ Hdah) as Hlen.
  destruct (from_eds_spec v eds Hwf) as (dah'&Hd&_&Hv&_). rewrite Hdah in Hd. injection Hd as <-.
  apply dah_validate_Ok in Hv as [Hcols _]. rewrite Hcols, Nat.eqb_refl. cbn [negb].
  unfold square_width. rewrite <-Hlen. destruct (Z.ltb_spec u16_max w); [unfold u16_max in *; lia|].
  cbn [expect_ok]. apply (bind_step eq_refl). cbn beta zeta.
  destruct (Z.leb_spec w (befp_index p)); [lia|].
  destruct (Z.eqb_spec (Z.of_nat (length (befp_shares p))) w); [|lia]. cbn [negb].
  destruct (Z.ltb_spec (Z.of_nat (length (filter (λ s, is_Some s) (befp_shares p)))) (w / 2)),
    (Nat.ltb_spec (length (filter (λ s, is_Some s) (befp_shares p))) k); (lia || done).
Qed.

Lemma befp_validate_rebuild p : eh_height header = befp_block_height p → 0 ≤ befp_index p < w →
  length (befp_shares p) = Z.to_nat w → (k ≤ length (filter (λ s, is_Some s) (befp_shares p)))%nat →
  befp_validate p header = befp_rebuild p.
Proof.
  intros Hh Hi Hl Hc. rewrite befp_validate_sizes by done.
  destruct (Nat.ltb_spec (length (filter (λ s, is_Some s) (befp_shares p))) k); [lia|done].
Qed.

Lemma verify_shares_no_panic axis i n shares : 0 ≤ i < w → 0 ≤ n → n + Z.of_nat (length shares) ≤ w →
  verify_shares axis (eh_dah header) i n shares ≠ Panic.
Proof.
  intros Hi. revert n. induction shares as [|[s|] shares IH]; intros n Hn Hl; cbn [verify_shares length] in *; [done| |apply IH; lia].
  assert (∃ h, share_root axis (eh_dah header) i n (swp_proof_axis s) = Some h) as [h ->].
  { destruct (dah_axis_root v eds _ Hwf Hdah Row i Hi) as (h1&H1'&_).
    destruct (dah_axis_root v eds _ Hwf Hdah Col i Hi) as (h2&H2'&_).
    destruct (dah_axis_root v eds _ Hwf Hdah Row n) as (h3&H3'&_); [lia|].
    destruct (dah_axis_root v eds _ Hwf Hdah Col n) as (h4&H4'&_); [lia|].
    destruct axis, (swp_proof_axis s); cbn; eauto. }
  cbn [expect]. cbv [mbind res_bind ensure]. case_ifs; [apply IH; lia|done].
Qed.

(** Shares that do not rebuild to the axis are taken as fraud. *)
Lemma befp_accepts `{!NmtCollisionFree} p data out : eh_height header = befp_block_height p →
  0 ≤ befp_index p < w / 2 → length (befp_shares p) = Z.to_nat w →
  (k ≤ length (filter (λ s, is_Some s) (befp_shares p)))%nat →
  verify_shares (befp_axis p) (eh_dah header) (befp_index p) 0 (befp_shares p) = Ok tt →
  leopard_reconstruct (befp_share_data <$> befp_shares p) k = Some data → leopard_encode data k = Some out →
  out ≠ [] → data_half_ok k 0 out → out ≠ axis_data (befp_axis p) (befp_index p) →
  befp_validate p header = Ok tt.
Proof.
  intros Hh Hi Hl Hc Hver Hrec Henc Hne Hhalf Hdiff. destruct eds_width_half as [Hw Hb].
  rewrite befp_validate_rebuild by (done || lia). unfold befp_rebuild. rewrite Hver, Hrec, Henc.
  destruct (rebuild_tree_spec k 0 [] out Hhalf) as (o&Ho&Hor&_). cbv [mbind res_bind]. rewrite Ho.
  destruct Hor as [->|[-> [->|[h Hh']]]]; [done|done|]. cbn [app] in *.
  destruct (dah_axis_root v eds _ Hwf Hdah (befp_axis p) (befp_index p)) as (h0&Hr&Hroot); [lia|].
  rewrite Hr, Hh'. cbn [expect]. rewrite bool_decide_false; [done|]. intros ->. apply Hdiff.
  pose proof (nmt_root_inj _ _ _ _ Hh' Hroot eq_refl) as Heq. apply (f_equal (fmap fst)) in Heq.
  rewrite rebuilt_fst in Heq. rewrite Heq. unfold axis_leaves, axis_data. by rewrite <-list_fmap_compose.
Qed.
End Validate.

(** ** Lemmas: fraud proofs made of shares of the square *)

(** The shares at the places [pos] of an axis, each with its proof on that axis. *)
Definition axis_cell (eds : ExtendedDataSquare) (axis : AxisType) (i j : Z) : Share :=
  match axis with Row => cell eds i j | Col => cell eds j i end.
Definition shares_at `{!NmtProofs} (eds : ExtendedDataSquare) (axis : AxisType) (i : Z) (pos : list Z)
    : list (option ShareWithProof) :=
  (λ j, Some {| swp_leaf := {| leaf_namespace := share_namespace (axis_cell eds axis i j);
                               leaf_share := sh_data (axis_cell eds axis i j) |};
                swp_proof := PresenceProof (build_range_proof (axis_leaves eds axis i) j (j + 1)) true;
                swp_proof_axis := axis |}) <$> pos.
Definition befp_of `{!NmtProofs} (eds : ExtendedDataSquare) (header : ExtendedHeader) (axis : AxisType)
    (i : Z) (pos : list Z) : BadEncodingFraudProof :=
  {| befp_header_hash := NoHash; befp_block_height := eh_height header;
     befp_shares := shares_at eds axis i pos; befp_index := i; befp_axis := axis |}.

Section SharesAt.
Context `{!NmtExternals} `{!NmtExternalsSpec} `{!NmtProofs} `{!NmtProofsSpec}
  (v : AppVersion) (eds : ExtendedDataSquare) (header : ExtendedHeader) (Hwf : eds_wf v eds)
  (Hdah : dah_from_eds eds = Ok (eh_dah header)).
#[local] Notation w := (eds_square_width eds).

Lemma verify_shares_at axis i pos n : 0 ≤ i < w → Forall (λ j, 0 ≤ j < w) pos →
  verify_shares axis (eh_dah header) i n (shares_at eds axis i pos) = Ok tt.
Proof.
  intros Hi Hpos. revert n. induction Hpos as [|j pos Hj _ IH]; intros n; [done|].
  destruct (dah_axis_root v eds _ Hwf Hdah axis i Hi) as (h&Hh&Hroot). cbn [shares_at fmap list_fmap verify_shares].
  assert (share_root axis (eh_dah header) i n axis = Some h) as Hs by by destruct axis.
  cbn [swp_proof_axis swp_proof swp_leaf leaf_share leaf_namespace]. rewrite Hs. cbn [expect].
  cbv [mbind res_bind]. rewrite (range_proof_verifies _ _ _ _ _ Hroot); [apply IH| |lia].
  rewrite axis_leaves_lookup by done. by destruct axis.
Qed.

Lemma shares_at_data axis i pos : befp_share_data <$> shares_at eds axis i pos
  = (λ j, sh_data (axis_cell eds axis i j)) <$> pos.
Proof. unfold shares_at. by rewrite <-list_fmap_compose. Qed.

Lemma filter_all_Some {A B} (f : A → B) (l : list A) : filter (λ s, is_Some s) ((λ x, Some (f x)) <$> l) = (λ x, Some (f x)) <$> l.
Proof. induction l as [|x l IH]; [done|]. rewrite fmap_cons, filter_cons_True by by eexists. by rewrite IH. Qed.

Lemma shares_at_count axis i pos : length (filter (λ s, is_Some s) (shares_at eds axis i pos)) = length pos.
Proof.
  unfold shares_at. by rewrite filter_all_Some, length_fmap.
Qed.

(** The shares of a whole axis, each proven on the axis drawn for it. *)
Definition share_proven (axis : AxisType) (i : Z) (proof_axis : AxisType) (j : Z) : ShareWithProof :=
  let '(tree, tree_idx, idx) := proof_place axis proof_axis i j in
  {| swp_leaf := {| leaf_namespace := share_namespace (axis_cell eds axis i j);
                    leaf_share := sh_data (axis_cell eds axis i j) |};
     swp_proof := PresenceProof (build_range_proof (axis_leaves eds tree tree_idx) idx (idx + 1)) true;
     swp_proof_axis := proof_axis |}.

Lemma proof_place_in axis proof_axis i j tree tree_idx idx : 0 ≤ i < w → 0 ≤ j < w →
  proof_place axis proof_axis i j = (tree, tree_idx, idx) → 0 ≤ tree_idx < w ∧ 0 ≤ idx < w ∧
  axis_leaves eds tree tree_idx !! Z.to_nat idx = Some (share_leaf (axis_cell eds axis i j)) ∧
  ∀ dah, share_root axis dah i j proof_axis = dah_root dah tree tree_idx.
Proof.
  intros Hi Hj. destruct axis, proof_axis; intros [= <- <- <-]; (split_and!; [lia..| |done]); by apply axis_leaves_lookup.
Qed.

Lemma befp_share_in axis i proof_axis j : square_bytes eds → 0 ≤ i < w → 0 ≤ j < w →
  befp_share eds axis i proof_axis j = Ok (share_proven axis i proof_axis j).
Proof.
  intros Hb Hi Hj. unfold befp_share, share_proven.
  destruct (proof_place axis proof_axis i j) as [[tree tree_idx] idx] eqn:Ep.
  destruct (proof_place_in _ _ _ _ _ _ _ Hi Hj Ep) as (Ht&Hx&Hl&_).
  rewrite (axis_nmt_in v eds Hwf) by done. cbn [expect_ok mbind res_bind]. rewrite Hl. cbn [expect mbind res_bind share_leaf].
  assert ((if is_ods_square i j w then expect_ok (Namespace_from_raw (take NS_SIZE (sh_data (axis_cell eds axis i j))))
    else Ok PARITY_SHARE) = (Ok (share_namespace (axis_cell eds axis i j)) : res TypesError _)) as ->; [|done].
  assert (share_ok (axis_cell eds axis i j) ∧ sh_is_parity (axis_cell eds axis i j) = negb (is_ods_square i j w)) as [Hs Hp].
  { destruct axis; cbn; destruct (cell_ok v eds Hwf i j Hi Hj), (cell_ok v eds Hwf j i Hj Hi); [done|split; [done|]].
    unfold is_ods_square in *. by rewrite andb_comm. }
  unfold share_namespace. rewrite Hp. destruct (is_ods_square i j w); cbn [negb]; [|done].
  destruct Hs as [_ Hs]. rewrite (proj2 (proj1 (namespace_from_raw_exact _ _)) (conj eq_refl (Hs Hp))). done.
Qed.

Lemma befp_from_in axis i axes : square_bytes eds → 0 ≤ i < w →
  befp_from_header_and_eds header eds i axis axes =
    Ok {| befp_header_hash := eh_hash header; befp_block_height := eh_height header;
          befp_shares := (λ j, Some (share_proven axis i (axes j) j)) <$> seqZ 0 w; befp_index := i; befp_axis := axis |}.
Proof.
  intros Hb Hi. unfold befp_from_header_and_eds.
  assert (mapM (λ j, s ← befp_share eds axis i (axes j) j; Ok (Some s)) (indexes w) =
    Ok ((λ j, Some (share_proven axis i (axes j) j)) <$> seqZ 0 w)) as ->; [|done].
  apply mapM_res_Ok, Forall2_fmap_r, Forall_Forall2_diag, Forall_forall. intros j Hj%elem_of_seqZ.
  rewrite befp_share_in by (done || lia). done.
Qed.

Lemma verify_shares_proven axis i axes m n : 0 ≤ i < w → 0 ≤ n → n + m ≤ w →
  verify_shares axis (eh_dah header) i n ((λ j, Some (share_proven axis i (axes j) j)) <$> seqZ n m) = Ok tt.
Proof.
  intros Hi. destruct (decide (m < 0)) as [Hm|Hm]; [by rewrite seqZ_nil by lia|].
  assert (m = Z.of_nat (Z.to_nat m)) as -> by lia. generalize (Z.to_nat m) as m'. clear m Hm. intros m'.
  revert n; induction m' as [|m' IH]; intros n Hn Hm; [done|]. rewrite seqZ_cons by lia.
  replace (Z.pred (Z.of_nat (Datatypes.S m'))) with (Z.of_nat m') by lia. rewrite fmap_cons. cbn [verify_shares].
  assert (swp_leaf (share_proven axis i (axes n) n) = {| leaf_namespace := share_namespace (axis_cell eds axis i n);
    leaf_share := sh_data (axis_cell eds axis i n) |} ∧ swp_proof_axis (share_proven axis i (axes n) n) = axes n) as [Hsl Hsa].
  { unfold share_proven. by destruct axis, (axes n). }
  rewrite Hsl, Hsa. cbn [leaf_namespace leaf_share].
  destruct (proof_place axis (axes n) i n) as [[tree tree_idx] idx] eqn:Ep.
  assert (swp_proof (share_proven axis i (axes n) n) =
    PresenceProof (build_range_proof (axis_leaves eds tree tree_idx) idx (idx + 1)) true) as ->
    by (unfold share_proven; by rewrite Ep).
  assert (0 ≤ n < w) as Hnw by lia. destruct (proof_place_in _ _ _ _ _ _ _ Hi Hnw Ep) as (Ht&Hx&Hl&Hr). rewrite Hr.
  destruct (dah_axis_root v eds _ Hwf Hdah tree tree_idx Ht) as (h&Hh&Hroot). rewrite Hh. cbn [expect mbind res_bind].
  rewrite (range_proof_verifies _ _ _ _ _ Hroot Hl) by lia. cbn [ensure mbind res_bind].
  rewrite <- Z.add_1_r. apply IH; lia.
Qed.

Lemma shares_at_all axis i : (λ j, sh_data (axis_cell eds axis i j)) <$> seqZ 0 w = axis_data eds axis i.
Proof.
  unfold axis_data, axis_of, axis_coords, indexes. rewrite <-!list_fmap_compose. apply list_fmap_ext.
  intros _ j _. by destruct axis.
Qed.

Lemma shares_proven_data axis i axes :
  befp_share_data <$> ((λ j, Some (share_proven axis i (axes j) j)) <$> seqZ 0 w) = axis_data eds axis i.
Proof.
  rewrite <- shares_at_all, <- list_fmap_compose. apply list_fmap_ext. intros _ j _. cbn.
  unfold share_proven. by destruct axis, (axes j).
Qed.
End SharesAt.

(** A code word is recovered from any [k] of its shards. *)
Definition recovers `{!LeopardCodec} `{!LeopardReconstruct} (k : nat) : Prop :=
  ∀ shards l, length l = (k * 2)%nat → Forall is_shard l → codeword k l →
    Forall2 (λ s x, s = [] ∨ s = x) shards l → (k ≤ length (filter (λ s, s ≠ []) shards))%nat →
    leopard_reconstruct shards k = Some l.

(** ** Properties *)

Section Properties.
Context `{!NmtExternals} `{!NmtExternalsSpec} `{!NmtProofs} `{!NmtProofsSpec}.
Context `{!LeopardCodec} `{!LeopardCodecSpec} `{!LeopardReconstruct} `{!LeopardReconstructSpec}.

(** The fraud proof of a badly encoded axis, on any header with the roots of the square. *)
Lemma bad_encoding_found `{!NmtCollisionFree} v eds header axis i axes :
  eds_wf v eds → square_bytes eds → dah_from_eds eds = Ok (eh_dah header) →
  0 ≤ i < eds_square_width eds / 2 →
  ¬ codeword (Z.to_nat (eds_square_width eds / 2)) (axis_data eds axis i) →
  ∃ proof, befp_from_header_and_eds header eds i axis axes = Ok proof ∧ befp_validate proof header = Ok tt.
Proof.
  intros Hwf Hb Hdah Hi Hncw. destruct (eds_width_half v eds Hwf) as [Hw Hk].
  assert (Forall is_shard (axis_data eds axis i)) as Hsh by (apply (axis_data_shards v); (done || lia)).
  pose proof (length_axis_data v eds Hwf axis i) as Hld.
  destruct (leopard_encode_total (axis_data eds axis i) (Z.to_nat (eds_square_width eds / 2))) as [out Ho];
    [lia|done|lia|done|].
  destruct (leopard_encode_data _ _ _ Ho) as (Hlo&Hto&_).
  eexists. split; [apply (befp_from_in v eds header Hwf axis i axes Hb); lia|].
  apply (befp_accepts v eds header Hwf Hdah _ (axis_data eds axis i) out); cbn [befp_block_height befp_index
    befp_shares befp_axis]; rewrite ?shares_proven_data.
  - done.
  - done.
  - by rewrite length_fmap, length_seqZ.
  - rewrite filter_all_Some. rewrite length_fmap, length_seqZ. lia.
  - apply (verify_shares_proven v); (done || lia).
  - by apply reconstruct_full.
  - done.
  - intros ->. cbn in Hlo. lia.
  - intros j s Hj Hlt. apply (axis_data_half v eds Hwf axis i Hi j); [|done].
    etransitivity; [apply (take_lookup_same _ _ _ j (eq_sym Hto)); lia|exact Hj].
  - intros ->. apply Hncw. by exists (axis_data eds axis i).
Qed.

(** C13. A well-encoded axis cannot be accused with shares in their places: on the header of a
    well-formed square, if a row or column of the data half is a code word and every share
    of a fraud proof against it has the bytes of the share at that place, [validate] returns
    an error (it neither accepts nor panics). *)
Theorem befp_rejects_good_encoding v eds header p :
  eds_wf v eds → square_bytes eds → dah_from_eds eds = Ok (eh_dah header) →
  let k := Z.to_nat (eds_square_width eds / 2) in
  recovers k → 0 ≤ befp_index p < eds_square_width eds / 2 →
  codeword k (axis_data eds (befp_axis p) (befp_index p)) →
  Forall2 (λ o x, ∀ s, o = Some s → leaf_share (swp_leaf s) = x)
    (befp_shares p) (axis_data eds (befp_axis p) (befp_index p)) →
  ∃ e, befp_validate p header = Err e.
Proof.
  intros Hwf Hb Hdah k Hrecov Hi Hcw Hpl. destruct (eds_width_half v eds Hwf) as [Hw Hk].
  pose proof (length_axis_data v eds Hwf (befp_axis p) (befp_index p)) as Hld. fold k in Hld.
  pose proof (Forall2_length _ _ _ Hpl) as Hlen.
  destruct (decide (eh_height header = befp_block_height p)) as [Hh|Hh].
  2:{ exists EValidation. unfold befp_validate. by destruct (Z.eqb_spec (eh_height header) (befp_block_height p)). }
  rewrite (befp_validate_sizes v eds header Hwf Hdah) by (done || lia). fold k.
  destruct (Nat.ltb_spec (length (filter (λ s, is_Some s) (befp_shares p))) k) as [|Hc]; [by eexists|].
  unfold befp_rebuild. fold k.
  pose proof (verify_shares_no_panic v eds header Hwf Hdah (befp_axis p) (befp_index p) 0 (befp_shares p)) as Hnp.
  destruct (verify_shares _ _ _ _ _) as [[]|e|] eqn:Ev; [|by exists e|destruct Hnp; (done || lia)].
  cbv [mbind res_bind].
  assert (Forall is_shard (axis_data eds (befp_axis p) (befp_index p))) as Hsh
    by (apply (axis_data_shards v); (done || lia)).
  rewrite (Hrecov (befp_share_data <$> befp_shares p) (axis_data eds (befp_axis p) (befp_index p))); [|done..| |].
  - assert (leopard_encode (axis_data eds (befp_axis p) (befp_index p)) k
      = Some (axis_data eds (befp_axis p) (befp_index p))) as Henc.
    { destruct Hcw as (shards&Ht&He). pose proof (leopard_encode_data _ _ _ He) as (Hl&_).
      by rewrite (encode_data_only _ shards). }
    rewrite Henc. destruct (rebuild_tree_spec k 0 [] (axis_data eds (befp_axis p) (befp_index p))) as (o&Ho&_&Hs).
    { by apply (axis_data_half v). }
    cbn [app] in Hs. unfold k in Hs at 1. rewrite (axis_rebuilt v eds Hwf) in Hs by lia.
    rewrite Ho, Hs by (apply (axis_leaves_sorted v eds Hwf); lia).
    destruct (dah_axis_root v eds _ Hwf Hdah (befp_axis p) (befp_index p)) as (h&Hr&Hroot); [lia|].
    unfold k. rewrite Hr, (axis_rebuilt v eds Hwf), Hroot by lia. cbn [expect]. rewrite bool_decide_true by done.
    by eexists.
  - apply Forall2_fmap_l. eapply Forall2_impl; [exact Hpl|]. intros [s|] x Hs; [right|by left]. by apply Hs.
  - etransitivity; [exact Hc|]. clear -Hpl Hsh. revert Hsh. induction Hpl as [|o x l k' Hx _ IH]; [done|].
    intros [[Hxl _] Hsh]%Forall_cons. specialize (IH Hsh). rewrite fmap_cons, !filter_cons.
    destruct o as [s|]; cbn [befp_share_data].
    + rewrite decide_True by by eexists. rewrite (Hx s eq_refl), decide_True by by intros ->. cbn. lia.
    + rewrite decide_False by by intros [??]. rewrite decide_False by naive_solver. done.
Qed.

(** C31. Bad encoding is found: if a row or column of the data half of a well-formed square is
    not a code word, [befp_from_header_and_eds] makes a fraud proof of it that every holder of
    the header accepts, whichever axis each of its shares is proven on. *)
Theorem befp_accepts_bad_encoding `{!NmtCollisionFree} v eds header axis i axes :
  eds_wf v eds → square_bytes eds → dah_from_eds eds = Ok (eh_dah header) →
  0 ≤ i < eds_square_width eds / 2 →
  ¬ codeword (Z.to_nat (eds_square_width eds / 2)) (axis_data eds axis i) →
  ∃ proof, befp_from_header_and_eds header eds i axis axes = Ok proof ∧ befp_validate proof header = Ok tt.
Proof. apply bad_encoding_found. Qed.

(** C38. Honest blocks can be accused: the place of a share in a fraud proof is not bound to its
    Merkle proof.  For any well-formed square, a proof that shows shares of one data row (or
    column) in other places, so that the data half differs from the true one, is accepted
    although every share in it is a share of that axis, correctly encoded or not. *)
Theorem befp_accepts_misplaced_shares `{!NmtCollisionFree} v eds header axis i pos :
  eds_wf v eds → square_bytes eds → dah_from_eds eds = Ok (eh_dah header) →
  let k := Z.to_nat (eds_square_width eds / 2) in
  0 ≤ i < eds_square_width eds / 2 → length pos = (k * 2)%nat →
  Forall (λ j, 0 ≤ j < eds_square_width eds) pos → Forall (λ j, j < eds_square_width eds / 2) (take k pos) →
  take k ((λ j, sh_data (axis_cell eds axis i j)) <$> pos) ≠ take k (axis_data eds axis i) →
  befp_validate (befp_of eds header axis i pos) header = Ok tt.
Proof.
  intros Hwf Hb Hdah k Hi Hl Hpos Hhalf Hdiff. destruct (eds_width_half v eds Hwf) as [Hw Hk].
  set (data := (λ j, sh_data (axis_cell eds axis i j)) <$> pos) in *.
  assert (Forall is_shard data) as Hsh.
  { apply Forall_fmap. eapply Forall_impl; [exact Hpos|]. intros j Hj. unfold compose.
    pose proof (axis_data_shards v eds Hwf axis i ltac:(lia) Hb) as Hsh. rewrite Forall_lookup in Hsh.
    cbn beta in Hj. apply (Hsh (Z.to_nat j)). rewrite axis_data_lookup by lia. by rewrite Z2Nat.id by lia. }
  assert (length data = (k * 2)%nat) as Hld by (unfold data; by rewrite length_fmap).
  destruct (leopard_encode_total data k) as [out Ho]; [lia|done|lia|done|].
  destruct (leopard_encode_data _ _ _ Ho) as (Hlo&Hto&_).
  apply (befp_accepts v eds header Hwf Hdah _ data out); cbn [befp_of befp_block_height befp_index
    befp_shares befp_axis]; rewrite ?shares_at_count, ?shares_at_data.
  - done.
  - done.
  - unfold shares_at. rewrite length_fmap. lia.
  - fold k. lia.
  - apply (verify_shares_at v); (done || lia).
  - by apply reconstruct_full.
  - done.
  - intros ->. cbn in Hlo. lia.
  - intros j s Hj Hlt. fold k in Hlt. rewrite (take_lookup_same k out data j Hto) in Hj by lia.
    unfold data in Hj. rewrite list_lookup_fmap in Hj. apply fmap_Some in Hj as (x&Hx&->).
    assert (x < eds_square_width eds / 2) as Hxlt.
    { apply (Forall_lookup_1 _ _ j x Hhalf). by rewrite lookup_take_lt by lia. }
    pose proof (Forall_lookup_1 _ _ _ _ Hpos Hx) as Hx0. cbn in Hx0.
    apply (axis_data_half v eds Hwf axis i Hi (Z.to_nat x)); [|lia].
    rewrite axis_data_lookup by lia. rewrite Z2Nat.id by lia. done.
  - intros ->. fold k in Hto. by rewrite Hto in Hdiff.
Qed.

(** Fraud proofs about the parity half can panic: the shares of a row (column) of the second
    half are parity bytes, yet [validate] reads namespaces from its first shares and unwraps
    the result; it panics when the first one has none. *)
Theorem befp_parity_axis_panics v eds header axis i :
  eds_wf v eds → square_bytes eds → dah_from_eds eds = Ok (eh_dah header) →
  eds_square_width eds / 2 ≤ i < eds_square_width eds →
  ¬ valid_namespace (ns_of (sh_data (axis_cell eds axis i 0))) →
  befp_validate (befp_of eds header axis i (seqZ 0 (eds_square_width eds))) header = Panic.
Proof.
  intros Hwf Hb Hdah Hi Hns. destruct (eds_width_half v eds Hwf) as [Hw Hk].
  set (k := Z.to_nat (eds_square_width eds / 2)).
  assert (Forall is_shard (axis_data eds axis i)) as Hsh by (apply (axis_data_shards v); (done || lia)).
  pose proof (length_axis_data v eds Hwf axis i) as Hld.
  destruct (leopard_encode_total (axis_data eds axis i) k) as [out Ho]; [lia|done|lia|done|].
  destruct (leopard_encode_data _ _ _ Ho) as (Hlo&Hto&_).
  rewrite (befp_validate_rebuild v eds header Hwf Hdah); unfold befp_rebuild; cbn [befp_of befp_block_height befp_index befp_shares befp_axis];
    rewrite ?shares_at_count, ?shares_at_data, ?shares_at_all, ?length_seqZ.
  - rewrite (verify_shares_at v) by (done || (apply Forall_forall; intros j Hj%elem_of_seqZ; lia) || lia).
    fold k. rewrite reconstruct_full, Ho by done. cbv [mbind res_bind].
    destruct out as [|x out]; [cbn in Hlo; lia|].
    assert (axis_data eds axis i !! 0%nat = Some x) as Hx
      by (rewrite <-(take_lookup_same k (x :: out) _ 0 Hto); (done || lia)).
    assert (is_shard x) as [Hxl _] by apply (Forall_lookup_1 _ _ _ _ Hsh Hx).
    rewrite axis_data_lookup in Hx by lia. injection Hx as <-.
    rewrite rebuild_tree_panics; [done|lia|rewrite Hxl; vm_compute; lia|exact Hns].
  - done.
  - lia.
  - unfold shares_at. by rewrite length_fmap, length_seqZ.
  - lia.
Qed.
End Properties.

(** ** Witnesses *)

#[local] Existing Instances toy_NmtExternals toy_NmtExternalsSpec toy_NmtCollisionFree toy_LeopardCodec
  toy_LeopardCodecSpec toy_LeopardReconstruct toy_LeopardReconstructSpec toy_NmtProofs toy_NmtProofsSpec.

Definition toy_header_of (eds : ExtendedDataSquare) : ExtendedHeader :=
  {| eh_header := eh_header toy_1; eh_commit := eh_commit toy_1; eh_validator_set := eh_validator_set toy_1;
     eh_dah := match dah_from_eds eds with Ok dah => dah | _ => toy_dah end |}.
Lemma toy_header_dah eds : eds_wf V3 eds → dah_from_eds eds = Ok (eh_dah (toy_header_of eds)).
Proof. intros Hwf. destruct (from_eds_spec V3 eds Hwf) as (dah&Hd&_). cbn. by rewrite Hd. Qed.

(** Squares given by their bytes. *)
Definition toy_eds (shares : list bytes) : ExtendedDataSquare :=
  match eds_new shares [76] V3 with Ok eds => eds | _ => toy_square end.
Definition all_bytes (shares : list bytes) : bool := forallb (forallb (λ b, (0 <=? b) && (b <=? 255))) shares.
Lemma toy_eds_spec shares : all_bytes shares = true → is_ok (eds_new shares [76] V3) = true →
  eds_wf V3 (toy_eds shares) ∧ square_bytes (toy_eds shares).
Proof.
  intros Hb Hok. assert (Forall are_bytes shares) as Hbs.
  { apply Forall_forall. intros s Hs. apply Forall_forall. intros b Hbb.
    unfold all_bytes in Hb. rewrite forallb_forall in Hb. apply list_elem_of_In, Hb in Hs.
    rewrite forallb_forall in Hs. apply list_elem_of_In, Hs in Hbb. unfold is_byte. lia. }
  unfold toy_eds. destruct (eds_new shares [76] V3) as [eds| |] eqn:E; [|done|done].
  destruct (eds_new_wf V3 shares [76] eds Hbs E) as (Hwf&Hd&_). split; [done|].
  rewrite <-Hd, Forall_fmap in Hbs. exact Hbs.
Qed.

(** Parity that does not belong to the data. *)
Definition toy_parity : bytes := repeat 7 512.
Definition toy_bad : ExtendedDataSquare := toy_eds [toy_tail; toy_parity; toy_parity; toy_parity].
Lemma toy_bad_spec : eds_wf V3 toy_bad ∧ square_bytes toy_bad.
Proof. apply toy_eds_spec; vm_compute; reflexivity. Qed.

(** A square of two different data shares in each row. *)
Definition toy_other : bytes := TAIL_PADDING ++ [1] ++ repeat 9 482.
Definition toy_four : ExtendedDataSquare :=
  toy_eds (concat (repeat [toy_tail; toy_other; toy_tail; toy_other] 4)).
Lemma toy_four_spec : eds_wf V3 toy_four ∧ square_bytes toy_four.
Proof. apply toy_eds_spec; vm_compute; reflexivity. Qed.

Lemma toy_recovers : recovers 1.
Proof.
  intros shards l Hl Hs (sh&Ht&He) Hpl Hc. unfold leopard_encode, toy_LeopardCodec in He. case_match; [|done].
  injection He as He. rewrite Ht in He. destruct l as [|a [|b [|]]]; try done. cbn in He. injection He as <-.
  destruct shards as [|x [|y [|]]]; try by apply Forall2_length in Hpl.
  apply Forall2_cons in Hpl as [Hx [Hy _]%Forall2_cons].
  unfold leopard_reconstruct, toy_LeopardReconstruct. cbn [length Nat.eqb Nat.mul Nat.add take drop zip_with app].
  destruct Hx as [->| ->], Hy as [->| ->]; [by vm_compute in Hc; lia|by destruct a..].
Qed.

Lemma befp_rejects_good_encoding_witness :
  ∃ e, befp_validate (befp_of toy_square (toy_header_of toy_square) Row 0 [0; 1]) (toy_header_of toy_square) = Err e.
Proof.
  apply (befp_rejects_good_encoding V3 toy_square (toy_header_of toy_square)
    (befp_of toy_square (toy_header_of toy_square) Row 0 [0; 1]));
    [apply toy_square_wf|apply toy_square_bytes|apply toy_header_dah, toy_square_wf|apply toy_recovers|vm_compute; split; congruence| |].
  - exists [toy_tail; toy_tail]. split; vm_compute; reflexivity.
  - apply Forall2_cons. split; [|apply Forall2_cons; split; [|constructor]]; intros s [= <-]; vm_compute; reflexivity.
Defined.

Lemma befp_accepts_bad_encoding_witness :
  ∃ proof, befp_from_header_and_eds (toy_header_of toy_bad) toy_bad 0 Row (λ j, if j =? 0 then Col else Row) = Ok proof ∧
    befp_validate proof (toy_header_of toy_bad) = Ok tt.
Proof.
  apply (befp_accepts_bad_encoding V3 toy_bad (toy_header_of toy_bad) Row 0 (λ j, if j =? 0 then Col else Row));
    [apply toy_bad_spec|apply toy_bad_spec|apply toy_header_dah, toy_bad_spec|vm_compute; split; congruence|].
  intros (shards&Ht&He). unfold leopard_encode, toy_LeopardCodec in He. case_match; [|done].
  apply (inj Some) in He. rewrite Ht in He. apply (f_equal (λ l, bool_decide (l !! 0%nat = l !! 1%nat))) in He.
  vm_compute in He. done.
Defined.

Lemma befp_accepts_misplaced_shares_witness :
  befp_validate (befp_of toy_four (toy_header_of toy_four) Row 0 [1; 0; 2; 3]) (toy_header_of toy_four) = Ok tt.
Proof.
  apply (befp_accepts_misplaced_shares V3 toy_four (toy_header_of toy_four) Row 0 [1; 0; 2; 3]);
    [apply toy_four_spec|apply toy_four_spec|apply toy_header_dah, toy_four_spec|vm_compute; split; congruence|
     vm_compute; reflexivity|apply (bool_decide_eq_true_1 _); vm_compute; reflexivity..|].
  intros Heq. apply (f_equal (λ l : list bytes, bool_decide (l !! 0%nat = Some toy_tail))) in Heq.
  vm_compute in Heq. done.
Defined.

Lemma befp_parity_axis_panics_witness :
  befp_validate (befp_of toy_bad (toy_header_of toy_bad) Row 1 (seqZ 0 2)) (toy_header_of toy_bad) = Panic.
Proof.
  apply (befp_parity_axis_panics V3 toy_bad (toy_header_of toy_bad) Row 1);
    [apply toy_bad_spec|apply toy_bad_spec|apply toy_header_dah, toy_bad_spec|vm_compute; split; congruence|].
  intros [(suffix&_&Heq)|[b Heq]]; apply (f_equal (lookup 0%nat)) in Heq; vm_compute in Heq; done.
Defined.
