(* ===== verification/Store.v ===== *)
(** * The header store: interface (src/node/src/store.rs, src/node/src/store/utils.rs)

    The data and errors of the store, the default method [get_range] and its
    conversion of bounds, the checks on headers before insertion, and the trait
    [Store] itself: a class of operations ([Store]) and the class of what clients
    may rely on ([StoreSpec]), stated over an abstract map from heights to headers.
    The implementations are in InMemoryStore.v and RedbStore.v. *)

From S2P Require Import Prelude Consts BlockRanges Nmt Merkle Dah Header ShwapIds.

(** ** Data *)

Inductive SamplingStatus := Unknown | Accepted | Rejected.
#[global] Instance SamplingStatus_eq_dec : EqDecision SamplingStatus.
Proof. solve_decision. Defined.

Record SamplingMetadata := { status : SamplingStatus; cids : list Cid }.
#[global] Instance SamplingMetadata_eq_dec : EqDecision SamplingMetadata.
Proof. solve_decision. Defined.

Inductive StoreInsertionError :=
| HeadersVerificationFailed (e : HeaderError)
| NeighborsVerificationFailed (e : HeaderError)
| ContraintsNotMet (e : BlockRangesError)
| HashExists (hash : Hash).

Inductive StoreError :=
| NotFound
| InsertionFailed (e : StoreInsertionError)
| StoredDataError
| FatalDatabaseError
| ExecutorError
| OpenFailed.

Definition store_error_is_fatal (e : StoreError) : bool :=
  match e with
  | StoredDataError | FatalDatabaseError | ExecutorError | OpenFailed => true
  | NotFound | InsertionFailed _ => false
  end.

(** [Hash::as_bytes]. *)
Definition hash_as_bytes (h : Hash) : bytes := match h with Sha256 d => d | NoHash => [] end.

(** The protobuf form of the sampling metadata. *)
Record RawSamplingMetadata := {
  raw_accepted : bool;
  raw_cids : list bytes;
  raw_unknown : bool
}.

(** [read_bytes] is [Cid::read_bytes]; [None] is its error. *)
Definition SamplingMetadata_try_from (read_bytes : bytes → option Cid) (item : RawSamplingMetadata)
    : option SamplingMetadata :=
  let st := if raw_unknown item then Unknown
            else if raw_accepted item then Accepted else Rejected in
  cs ← mapM read_bytes (raw_cids item);
  Some {| status := st; cids := cs |}.

Definition SamplingMetadata_into_raw (to_bytes : Cid → bytes) (item : SamplingMetadata)
    : RawSamplingMetadata :=
  let '(accepted, unknown) :=
    match status item with
    | Unknown => (false, true)
    | Accepted => (true, false)
    | Rejected => (false, false)
    end in
  {| raw_accepted := accepted; raw_cids := to_bytes <$> cids item; raw_unknown := unknown |}.

(** How an update merges new cids into the stored ones: the loop shared by the
    implementations of [update_sampling_metadata]. *)
Definition merge_cids (old new : list Cid) : list Cid :=
  foldl (λ acc cid, if bool_decide (cid ∈ acc) then acc else acc ++ [cid]) old new.

(** The entry that an update leaves. *)
Definition updated_metadata (old : option SamplingMetadata) (st : SamplingStatus) (cs : list Cid)
    : SamplingMetadata :=
  {| status := st; cids := match old with None => cs | Some md => merge_cids (cids md) cs end |}.

(** Ranges as pairs, the form in which the databases keep them. *)
Definition raw_of_ranges (rs : BlockRanges) : list (Z * Z) := (λ r, (br_start r, br_end r)) <$> rs.
Definition ranges_of_raw (l : list (Z * Z)) : BlockRanges := (λ '(s, e), s ..= e) <$> l.

Lemma ranges_raw_roundtrip rs : ranges_of_raw (raw_of_ranges rs) = rs.
Proof.
  unfold ranges_of_raw, raw_of_ranges. rewrite <-list_fmap_compose.
  induction rs as [|[] rs IH]; [done|]. rewrite fmap_cons. by f_equal.
Qed.

(** ** The conversion of bounds *)

Inductive Bound := Unbounded | Included (x : Z) | Excluded (x : Z).

(** The last two arms of each match are reached only when the guards before them
    failed.  [x - 1] of the end cannot underflow, [0] is matched before. *)
Definition to_headers_range (start_bound end_bound : Bound) (last_index : Z)
    : res StoreError BlockRange :=
  s ← match start_bound with
      | Unbounded => Ok 1
      | Included x => if (last_index <? x) || (x =? 0) then Err NotFound else Ok x
      | Excluded x => if last_index <=? x then Err NotFound else u64_add x 1
      end;
  e ← match end_bound with
      | Unbounded => Ok last_index
      | Included x => if last_index <? x then Err NotFound else Ok x
      | Excluded x =>
          limit ← u64_add last_index 1;
          if limit <? x then Err NotFound
          else if x =? 0 then Ok 0 else u64_sub x 1
      end;
  Ok (s ..= e).

(** ** The trait *)

Class Store (S : Type) := {
  st_get_head : S → res StoreError ExtendedHeader;
  st_get_by_hash : S → Hash → res StoreError ExtendedHeader;
  st_get_by_height : S → Z → res StoreError ExtendedHeader;
  st_head_height : S → res StoreError Z;
  st_has : S → Hash → bool;
  st_has_at : S → Z → bool;
  st_update_sampling_metadata :
    S → Z → SamplingStatus → list Cid → res StoreError unit * S;
  st_get_sampling_metadata : S → Z → res StoreError (option SamplingMetadata);
  (** [now] is the clock that header verification reads *)
  st_insert : (nat → Z) → S → list ExtendedHeader → res StoreError unit * S;
  st_get_stored_header_ranges : S → res StoreError BlockRanges;
  st_get_accepted_sampling_ranges : S → res StoreError BlockRanges;
  st_remove_last : S → res StoreError Z * S
}.

(** The heights of an inclusive range, in order. *)
Definition range_heights (r : BlockRange) : list Z :=
  seqZ (br_start r) (br_end r - br_start r + 1).

(** The default method [get_range]. *)
Definition get_range {S} `{Store S} (s : S) (start_bound end_bound : Bound)
    : res StoreError (list ExtendedHeader) :=
  head_height ← st_head_height s;
  range ← to_headers_range start_bound end_bound head_height;
  mapM (st_get_by_height s) (range_heights range).

Section Store.
Context `{Tendermint} `{DahExternals}.

(** ** Checks before insertion (store/utils.rs) *)

(** [TryFrom<Vec<ExtendedHeader>> for VerifiedExtendedHeaders]. *)
Definition verified_try_from (now : nat → Z) (headers : list ExtendedHeader)
    : res HeaderError (list ExtendedHeader) :=
  match headers with
  | [] => Ok []
  | head :: tl => _ ← verify_adjacent_range now head tl; Ok headers
  end.

(** [validate_headers]; the yields between chunks have no effect on the result. *)
Fixpoint validate_headers (headers : list ExtendedHeader) : res HeaderError unit :=
  match headers with
  | [] => Ok tt
  | header :: headers => _ ← eh_validate header; validate_headers headers
  end.

(** [verify_against_neighbours], which the implementations share up to how they read
    a neighbour: [get]. *)
Definition verify_prev (get : Z → res StoreError ExtendedHeader) (now : Z)
    (lowest_header : option ExtendedHeader) : res StoreError unit :=
  match lowest_header with
  | Some lowest_header =>
      h ← u64_sub (eh_height lowest_header) 1;
      prev ← get h;
      map_err (λ e, InsertionFailed (NeighborsVerificationFailed e))
        (eh_verify now prev lowest_header)
  | None => Ok tt
  end.
Definition verify_next (get : Z → res StoreError ExtendedHeader) (now : Z)
    (highest_header : option ExtendedHeader) : res StoreError unit :=
  match highest_header with
  | Some highest_header =>
      h ← u64_add (eh_height highest_header) 1;
      next ← get h;
      map_err (λ e, InsertionFailed (NeighborsVerificationFailed e))
        (eh_verify now highest_header next)
  | None => Ok tt
  end.
Definition verify_against_neighbours (get : Z → res StoreError ExtendedHeader) (now : nat → Z)
    (lowest_header highest_header : option ExtendedHeader) : res StoreError unit :=
  _ ← verify_prev get (now 0%nat) lowest_header;
  verify_next get (now 1%nat) highest_header.

(** ** The contract *)

(** The abstract store: a map from heights to headers. *)
Definition insert_all (m : gmap Z ExtendedHeader) (l : list ExtendedHeader)
    : gmap Z ExtendedHeader :=
  foldl (λ m e, <[eh_height e := e]> m) m l.

(** Headers are at their height, and neighbours are linked: whatever is stored at
    [h + 1] carries the hash of what is stored at [h], its announced validators, the
    same chain id and a later time. *)
Definition store_ok (valid : ExtendedHeader → Prop) (m : gmap Z ExtendedHeader) : Prop :=
  (∀ h e, m !! h = Some e → eh_height e = h ∧ valid e) ∧
  (∀ h e e', m !! h = Some e → m !! (h + 1) = Some e' → linked e [e']).

(** Headers with the same hash bytes have the same height, among the ones considered. *)
Definition hash_determines_height (valid : ExtendedHeader → Prop) : Prop :=
  ∀ e1 e2, valid e1 → valid e2 →
    hash_as_bytes (eh_hash e1) = hash_as_bytes (eh_hash e2) → eh_height e1 = eh_height e2.

(** The headers that are inserted: their hash determines their height, and the
    height is not the last one an [i64] can hold. *)
Class ValidHeaders (valid : ExtendedHeader → Prop) : Prop := {
  valid_hash_bytes : hash_determines_height valid;
  valid_height e : valid e → 0 ≤ eh_height e < i64_max
}.

Lemma valid_hash `{!ValidHeaders valid} e1 e2 :
  valid e1 → valid e2 → eh_hash e1 = eh_hash e2 → eh_height e1 = eh_height e2.
Proof. intros H1 H2 Heq. apply valid_hash_bytes; [done..|]. by rewrite Heq. Qed.

(** Headers that passed validation are such headers, when header hashes do not
    collide. *)
Definition validated (e : ExtendedHeader) : Prop :=
  eh_validate e = Ok tt ∧ 0 ≤ eh_height e < i64_max.
Lemma validated_ValidHeaders :
  Inj (=) (=) (λ h, hash_as_bytes (header_hash h)) → ValidHeaders validated.
Proof.
  intros Hinj. split; [|by intros e [_ ?]].
  intros e1 e2 [(_&_&_&_&H1&_)%eh_validate_Ok _] [(_&_&_&_&H2&_)%eh_validate_Ok _] Heq.
  unfold eh_height. f_equal. apply Hinj. by rewrite <-H1, <-H2.
Qed.

(** [t] is the least height of [m]. *)
Definition is_tail (m : gmap Z ExtendedHeader) (t : Z) : Prop :=
  is_Some (m !! t) ∧ ∀ h, is_Some (m !! h) → t ≤ h.
Definition is_head (m : gmap Z ExtendedHeader) (t : Z) : Prop :=
  is_Some (m !! t) ∧ ∀ h, is_Some (m !! h) → h ≤ t.

(** Heights [lo..=hi] may be filled: they are a new head, or touch a stored height. *)
Definition anchored (m : gmap Z ExtendedHeader) (lo hi : Z) : Prop :=
  (∀ h, is_Some (m !! h) → h < lo) ∨ is_Some (m !! (lo - 1)) ∨ is_Some (m !! (hi + 1)).

(** The headers [l] are a verified chain over heights that are free in [m] and may be
    filled. *)
Definition insertable (m : gmap Z ExtendedHeader) (l : list ExtendedHeader) : Prop :=
  match l with
  | [] => True
  | hd :: tl => linked hd tl ∧ anchored m (eh_height hd) (eh_height hd + Z.of_nat (length tl))
  end ∧
  Forall (λ e, m !! eh_height e = None) l.

(** The header passes the check against the clock, whenever it is read. *)
Definition timely (now : nat → Z) (e : ExtendedHeader) : Prop :=
  ∀ i, eh_time e < now i + VERIFY_CLOCK_DRIFT.

(** The headers [l] extend the chain stored in [m]: their heights are free and anchored,
    they are linked to each other and to their stored neighbours, and no header is from
    the future. *)
Definition extends (now : nat → Z) (m : gmap Z ExtendedHeader) (l : list ExtendedHeader) : Prop :=
  match l with
  | [] => True
  | hd :: tl =>
      0 < eh_height hd ∧ linked hd tl ∧ Forall (λ e, m !! eh_height e = None) l ∧
      anchored m (eh_height hd) (eh_height hd + Z.of_nat (length tl)) ∧
      (∀ p, m !! (eh_height hd - 1) = Some p → linked p [hd]) ∧
      (∀ la n, last l = Some la → m !! (eh_height la + 1) = Some n → linked la [n]) ∧
      Forall (timely now) l ∧ ∀ h e, m !! h = Some e → timely now e
  end.

(** What a store promises, for headers that satisfy [valid]: [store_rep s m] says
    that the state [s] holds exactly the headers [m]. *)
Class StoreSpec (S : Type) `{Store S} (valid : ExtendedHeader → Prop) := {
  store_rep : S → gmap Z ExtendedHeader → Prop;
  store_rep_ok s m : store_rep s m → store_ok valid m;
  spec_stored_ranges s m : store_rep s m →
    ∃ rs, st_get_stored_header_ranges s = Ok rs ∧ canonical rs ∧
      ∀ h, in_ranges h rs ↔ is_Some (m !! h);
  spec_get_by_height s m h : store_rep s m →
    st_get_by_height s h = ok_or (m !! h) NotFound;
  spec_has_at s m h : store_rep s m → st_has_at s h = bool_decide (is_Some (m !! h));
  spec_get_by_hash s m h e : store_rep s m → m !! h = Some e →
    st_get_by_hash s (eh_hash e) = Ok e;
  spec_head_height s m : store_rep s m →
    (m = ∅ ∧ st_head_height s = Err NotFound) ∨
    ∃ t, st_head_height s = Ok t ∧ is_head m t;
  spec_get_head s m : store_rep s m →
    (m = ∅ ∧ st_get_head s = Err NotFound) ∨
    ∃ t e, st_get_head s = Ok e ∧ is_head m t ∧ m !! t = Some e;
  (** an insertion adds all the headers or changes nothing, and never fails fatally;
      headers that extend the stored chain are not rejected *)
  spec_insert s m now l : store_rep s m → Forall valid l → clock_ok now →
    (st_insert now s l).1 = Ok tt ∧ insertable m l ∧
      store_rep (st_insert now s l).2 (insert_all m l) ∨
    (∃ e, (st_insert now s l).1 = Err (InsertionFailed e)) ∧ store_rep (st_insert now s l).2 m ∧
      ¬ extends now m l;
  spec_update_sampling s m h st cs : store_rep s m →
    store_rep (st_update_sampling_metadata s h st cs).2 m ∧
    (st_update_sampling_metadata s h st cs).1
      = if bool_decide (is_Some (m !! h)) then Ok tt else Err NotFound;
  (** the metadata of a stored height is updated, and the accepted heights follow *)
  spec_accepted s m : store_rep s m →
    ∃ rs, st_get_accepted_sampling_ranges s = Ok rs ∧ canonical rs;
  spec_sampled s m h st cs : store_rep s m → is_Some (m !! h) →
    ∃ old rs rs', st_get_sampling_metadata s h = Ok old ∧
      st_get_sampling_metadata (st_update_sampling_metadata s h st cs).2 h
        = Ok (Some (updated_metadata old st cs)) ∧
      st_get_accepted_sampling_ranges s = Ok rs ∧
      st_get_accepted_sampling_ranges (st_update_sampling_metadata s h st cs).2 = Ok rs' ∧
      ∀ k, in_ranges k rs' ↔ if bool_decide (k = h) then st = Accepted else in_ranges k rs;
  (** removal takes the least height out *)
  spec_remove_last s m : store_rep s m →
    (m = ∅ ∧ st_remove_last s = (Err NotFound, s)) ∨
    ∃ t s', st_remove_last s = (Ok t, s') ∧ is_tail m t ∧ store_rep s' (delete t m) ∧
      ∀ h, is_Some (delete t m !! h) → st_get_sampling_metadata s' h = st_get_sampling_metadata s h
}.

(** ** The abstract store *)

(** Operations that change a store, and what they return. *)
Inductive store_op :=
| OpInsert (now : nat → Z) (l : list ExtendedHeader)
| OpUpdateSampling (h : Z) (st : SamplingStatus) (cs : list Cid)
| OpRemoveLast.

Inductive store_result :=
| RDone (r : res StoreError unit)
| RRemoved (r : res StoreError Z).

(** What an implementation does on an operation: the state it leaves, and its answer. *)
Definition run_op {S} `{Store S} (s : S) (op : store_op) : S :=
  match op with
  | OpInsert now l => (st_insert now s l).2
  | OpUpdateSampling h st cs => (st_update_sampling_metadata s h st cs).2
  | OpRemoveLast => (st_remove_last s).2
  end.
Definition op_result {S} `{Store S} (s : S) (op : store_op) : store_result :=
  match op with
  | OpInsert now l => RDone (st_insert now s l).1
  | OpUpdateSampling h st cs => RDone (st_update_sampling_metadata s h st cs).1
  | OpRemoveLast => RRemoved (st_remove_last s).1
  end.
Fixpoint op_results {S} `{Store S} (s : S) (ops : list store_op) : list store_result :=
  match ops with
  | [] => []
  | op :: ops => op_result s op :: op_results (run_op s op) ops
  end.

(** The state: the headers by height, the sampling metadata by height, and the heights
    that are recorded as accepted. *)
Record abs_store := {
  ab_headers : gmap Z ExtendedHeader;
  ab_metadata : gmap Z SamplingMetadata;
  ab_accepted : gset Z
}.
Definition abs_empty : abs_store := {| ab_headers := ∅; ab_metadata := ∅; ab_accepted := ∅ |}.

Definition abs_put_headers (l : list ExtendedHeader) (a : abs_store) : abs_store :=
  {| ab_headers := insert_all (ab_headers a) l; ab_metadata := ab_metadata a;
     ab_accepted := ab_accepted a |}.
Definition abs_put_metadata (h : Z) (st : SamplingStatus) (cs : list Cid) (a : abs_store) : abs_store :=
  {| ab_headers := ab_headers a;
     ab_metadata := <[h := updated_metadata (ab_metadata a !! h) st cs]> (ab_metadata a);
     ab_accepted := if bool_decide (st = Accepted) then {[ h ]} ∪ ab_accepted a
                    else ab_accepted a ∖ {[ h ]} |}.
(** [keep]: the databases leave the metadata of a removed header in its table, the
    in-memory store does not; the accepted heights stay in all of them. *)
Definition abs_remove (keep : bool) (h : Z) (a : abs_store) : abs_store :=
  {| ab_headers := delete h (ab_headers a);
     ab_metadata := if keep then ab_metadata a else delete h (ab_metadata a);
     ab_accepted := ab_accepted a |}.

(** One operation with its answer.  [Ok] is answered exactly when the state changes, in the
    way the operation says; an insertion may be rejected only when its headers do not
    extend the stored chain, an update only when the height is not stored, and a removal
    only when nothing is stored. *)
Inductive abs_step (keep : bool) (a : abs_store) : store_op → store_result → abs_store → Prop :=
| abs_insert now l : insertable (ab_headers a) l →
    abs_step keep a (OpInsert now l) (RDone (Ok tt)) (abs_put_headers l a)
| abs_insert_rejected now l e : ¬ extends now (ab_headers a) l →
    abs_step keep a (OpInsert now l) (RDone (Err (InsertionFailed e))) a
| abs_update_sampling h st cs : is_Some (ab_headers a !! h) →
    abs_step keep a (OpUpdateSampling h st cs) (RDone (Ok tt)) (abs_put_metadata h st cs a)
| abs_update_missing h st cs : ab_headers a !! h = None →
    abs_step keep a (OpUpdateSampling h st cs) (RDone (Err NotFound)) a
| abs_remove_last t : is_tail (ab_headers a) t →
    abs_step keep a OpRemoveLast (RRemoved (Ok t)) (abs_remove keep t a)
| abs_remove_none : ab_headers a = ∅ →
    abs_step keep a OpRemoveLast (RRemoved (Err NotFound)) a.

Inductive abs_run (keep : bool) : abs_store → list store_op → list store_result → abs_store → Prop :=
| abs_run_nil a : abs_run keep a [] [] a
| abs_run_cons a1 op r a2 ops rs a3 :
    abs_step keep a1 op r a2 → abs_run keep a2 ops rs a3 →
    abs_run keep a1 (op :: ops) (r :: rs) a3.

(** The headers an operation brings in are valid, and it can read the clock. *)
Definition op_valid (valid : ExtendedHeader → Prop) (op : store_op) : Prop :=
  match op with OpInsert now l => Forall valid l ∧ clock_ok now | _ => True end.

(** Every read of [s] answers from [a]; [ok] says which heights can be asked for. *)
Record store_answers {S} `{Store S} (ok : Z → bool) (s : S) (a : abs_store) : Prop := {
  sa_get_by_height h : ok h = true → st_get_by_height s h = ok_or (ab_headers a !! h) NotFound;
  sa_has_at h : ok h = true → st_has_at s h = bool_decide (is_Some (ab_headers a !! h));
  sa_get_by_hash h e : ab_headers a !! h = Some e → st_get_by_hash s (eh_hash e) = Ok e;
  sa_stored_ranges : ∃ rs, st_get_stored_header_ranges s = Ok rs ∧ canonical rs ∧
    ∀ h, in_ranges h rs ↔ is_Some (ab_headers a !! h);
  sa_metadata h : ok h = true → st_get_sampling_metadata s h =
    if bool_decide (is_Some (ab_headers a !! h)) then Ok (ab_metadata a !! h) else Err NotFound;
  sa_accepted_ranges : ∃ rs, st_get_accepted_sampling_ranges s = Ok rs ∧ canonical rs ∧
    ∀ h, in_ranges h rs ↔ h ∈ ab_accepted a
}.

(** The head is the header at the greatest stored height. *)
Definition head_answers {S} `{Store S} (s : S) (a : abs_store) : Prop :=
  match st_get_head s with
  | Ok e => is_head (ab_headers a) (eh_height e) ∧ ab_headers a !! eh_height e = Some e
  | Err e => e = NotFound ∧ ab_headers a = ∅
  | Panic => False
  end.

(** An implementation of the abstract store: every operation is one of its steps, with the
    same answer. *)
Class StoreRefines (S : Type) `{Store S} (valid : ExtendedHeader → Prop) (keep : bool) := {
  abs_rep : S → abs_store → Prop;
  refines_step s a op : abs_rep s a → op_valid valid op →
    ∃ a', abs_step keep a op (op_result s op) a' ∧ abs_rep (run_op s op) a'
}.

(** ** Lemmas *)

(** Simulation: the answers and the final state of any sequence of operations are the ones
    of the abstract store. *)
Lemma store_simulation {S} `{Store S} valid keep `{!StoreRefines S valid keep} s a ops :
  abs_rep s a → Forall (op_valid valid) ops →
  ∃ a', abs_run keep a ops (op_results s ops) a' ∧ abs_rep (foldl run_op s ops) a'.
Proof.
  revert s a; induction ops as [|op ops IH]; intros s a Hrep Hops.
  { exists a. split; [constructor|done]. }
  apply Forall_cons in Hops as [Hop Hops].
  destruct (refines_step s a op Hrep Hop) as (a1&Hstep&Hrep1).
  destruct (IH _ a1 Hrep1 Hops) as (a'&Hrun&Hrep'). exists a'. split; [|done].
  by econstructor.
Qed.

Lemma ok_or_inj {E A} (o o' : option A) (e : E) : ok_or o e = ok_or o' e → o = o'.
Proof. destruct o, o'; intros Heq; try discriminate Heq; [by injection Heq as ->|done]. Qed.

(** A store that keeps its contract answers the head of its headers. *)
Lemma head_answers_spec {S} `{Store S} valid `{!StoreSpec S valid} s a :
  store_rep s (ab_headers a) → head_answers s a.
Proof.
  intros Hrep. unfold head_answers.
  destruct (spec_get_head s _ Hrep) as [[He ->]|(t&e&->&Ht&He)]; [done|].
  destruct (proj1 (store_rep_ok _ _ Hrep) _ _ He) as [-> _]. done.
Qed.

(** The accepted heights after an update. *)
Lemma accepted_put (rs rs' : BlockRanges) (acc : gset Z) h st :
  (∀ k, in_ranges k rs ↔ k ∈ acc) →
  (∀ k, in_ranges k rs' ↔ if bool_decide (k = h) then st = Accepted else in_ranges k rs) →
  ∀ k, in_ranges k rs' ↔
    k ∈ (if bool_decide (st = Accepted) then {[ h ]} ∪ acc else acc ∖ {[ h ]}).
Proof.
  intros Hrs Hrs' k. rewrite Hrs'. repeat case_bool_decide; subst; rewrite ?Hrs; set_solver.
Qed.


Lemma linked_heights t l k e : linked t l → l !! k = Some e → eh_height e = eh_height t + 1 + Z.of_nat k.
Proof.
  revert t k; induction l as [|x l IH]; intros t [|k] Hl Hk; try done; simpl in *.
  - injection Hk as ->. lia.
  - destruct Hl as (?&?&?&?&?&Hl). apply (IH x k) in Hk; [lia|done].
Qed.

(** Verified headers: a first one and a linked continuation. *)
Lemma verified_try_from_Ok `{!TendermintSpec} now headers l : verified_try_from now headers = Ok l →
  l = headers ∧ match l with [] => True | head :: tl => linked head tl end.
Proof.
  unfold verified_try_from. destruct headers as [|head tl]; [by intros [= <-]|].
  intros Hv. inv_res Hv. subst l. destruct x. by apply adjacent_range_linked in Hc as [Hc _].
Qed.

Lemma verified_try_from_no_panic `{!TendermintSpec} now headers :
  clock_ok now → Forall (λ e, 0 ≤ eh_height e < i64_max) headers →
  verified_try_from now headers ≠ Panic.
Proof.
  intros Hclock Hh. destruct headers as [|hd tl]; [done|]. simpl.
  pose proof (verify_adjacent_range_no_panic now hd tl Hclock Hh).
  by destruct (verify_adjacent_range now hd tl).
Qed.

Lemma verified_heights hd tl k e : linked hd tl → (hd :: tl) !! k = Some e →
  eh_height e = eh_height hd + Z.of_nat k.
Proof.
  intros Hl. destruct k as [|k]; simpl; [intros [= ->]; lia|].
  intros Hk. rewrite (linked_heights _ _ _ _ Hl Hk). lia.
Qed.

Lemma verified_last hd tl l : linked hd tl → last (hd :: tl) = Some l →
  eh_height l = eh_height hd + Z.of_nat (length tl).
Proof.
  intros Hl Hlast. rewrite last_lookup in Hlast. simpl in Hlast.
  by apply (verified_heights hd tl _ l Hl) in Hlast.
Qed.

Lemma verified_NoDup hd tl : linked hd tl → NoDup (eh_height <$> hd :: tl).
Proof.
  intros Hl. apply NoDup_alt. intros i j h. rewrite !list_lookup_fmap.
  intros (e1&He1&->)%fmap_Some (e2&He2&Heq)%fmap_Some.
  rewrite (verified_heights _ _ _ _ Hl He1), (verified_heights _ _ _ _ Hl He2) in Heq. lia.
Qed.

(** Consecutive headers fill an interval of the map. *)
Lemma lookup_insert_all m l start h :
  (∀ k e, l !! k = Some e → eh_height e = start + Z.of_nat k) →
  insert_all m l !! h =
  if bool_decide (start ≤ h < start + Z.of_nat (length l)) then l !! Z.to_nat (h - start) else m !! h.
Proof.
  unfold insert_all. revert m start; induction l as [|e l IH]; intros m start Hh; simpl.
  - rewrite bool_decide_false by lia. done.
  - pose proof (Hh 0%nat e eq_refl) as He. rewrite (IH _ (start + 1)).
    2:{ intros k e' Hk. rewrite (Hh (S k) e' Hk). lia. }
    rewrite Z.add_0_r in He. destruct (decide (h = start)) as [->|Hne].
    + rewrite bool_decide_false by lia. rewrite bool_decide_true by lia.
      rewrite He, Z.sub_diag. by rewrite lookup_insert_eq.
    + rewrite (lookup_insert_ne) by lia. repeat case_bool_decide; try lia; [|done].
      by replace (Z.to_nat (h - start)) with (S (Z.to_nat (h - (start + 1)))) by lia.
Qed.

Lemma insert_all_mono m l h : is_Some (m !! h) → is_Some (insert_all m l !! h).
Proof.
  unfold insert_all. revert m; induction l as [|e l IH]; intros m Hm; simpl; [done|].
  apply IH. destruct (decide (h = eh_height e)) as [->|Hne].
  - rewrite lookup_insert_eq. by eexists.
  - by rewrite lookup_insert_ne by done.
Qed.

(** What an accepted [verify] between neighbours gives. *)
Lemma verify_neighbours `{!TendermintSpec} now e e' :
  eh_verify now e e' = Ok tt → eh_height e' = eh_height e + 1 → linked e [e'].
Proof. intros (?&?&[??]&Hadj&_)%eh_verify_Ok Hh. destruct (Hadj Hh). simpl. auto 10. Qed.

Lemma linked_lookup t l k x y : linked t l → (t :: l) !! k = Some x → (t :: l) !! S k = Some y →
  linked x [y].
Proof.
  revert t k; induction l as [|e l IH]; intros t k Hl Hx Hy; [done|].
  simpl in Hl. destruct Hl as (H1&H2&H3&H4&H5&Hl). destruct k as [|k]; simpl in *.
  - injection Hx as ->. injection Hy as ->. auto 10.
  - by apply (IH e k).
Qed.

(** Inserting a verified range next to verified neighbours keeps the map linked. *)
Lemma insert_all_ok valid m hd tl :
  store_ok valid m → linked hd tl → Forall valid (hd :: tl) →
  (∀ h, eh_height hd ≤ h ≤ eh_height hd + Z.of_nat (length tl) → m !! h = None) →
  (∀ p, m !! (eh_height hd - 1) = Some p → linked p [hd]) →
  (∀ l n, last (hd :: tl) = Some l → m !! (eh_height l + 1) = Some n → linked l [n]) →
  store_ok valid (insert_all m (hd :: tl)).
Proof.
  intros [Hm Hadj] Hl Hval Hfree Hprev Hnext.
  assert (∀ h, insert_all m (hd :: tl) !! h = if bool_decide
    (eh_height hd ≤ h < eh_height hd + Z.of_nat (S (length tl)))
    then (hd :: tl) !! Z.to_nat (h - eh_height hd) else m !! h) as Hlook.
  { intros h. apply (lookup_insert_all _ (hd :: tl)). intros k e. by apply verified_heights. }
  split.
  - intros h e. rewrite Hlook. case_bool_decide; [|by apply Hm]. intros Hk. split.
    + rewrite (verified_heights _ _ _ _ Hl Hk). lia.
    + rewrite Forall_lookup in Hval. by eapply Hval.
  - intros h e e'. rewrite !Hlook. repeat case_bool_decide; try lia; intros He He'.
    + apply (linked_lookup hd tl (Z.to_nat (h - eh_height hd))); [done..|].
      by replace (S (Z.to_nat (h - eh_height hd))) with (Z.to_nat (h + 1 - eh_height hd)) by lia.
    + assert (last (hd :: tl) = Some e) as Hlast.
      { rewrite last_lookup. simpl Init.Nat.pred. rewrite <-He. f_equal. lia. }
      apply (Hnext e); [done|]. rewrite (verified_last _ _ _ Hl Hlast).
      by replace (eh_height hd + Z.of_nat (length tl) + 1) with (h + 1) by lia.
    + assert (h = eh_height hd - 1) as -> by lia.
      replace (Z.to_nat (eh_height hd - 1 + 1 - eh_height hd)) with 0%nat in He' by lia.
      simpl in He'. injection He' as <-. by apply Hprev.
    + by eapply Hadj.
Qed.

Lemma store_ok_delete valid m h : store_ok valid m → store_ok valid (delete h m).
Proof.
  intros [Hm Hadj]. split.
  - intros k e [_ Hk]%lookup_delete_Some. by apply Hm.
  - intros k e e' [_ Hk]%lookup_delete_Some [_ Hk']%lookup_delete_Some. by eapply Hadj.
Qed.

(** A verification that succeeds with [P], or fails without a fatal error, and not when
    [P] holds and the header [e] is [timely]. *)
Definition checked (r : res StoreError unit) (timely : Prop) (P : Prop) : Prop :=
  (∃ e, r = Err (InsertionFailed e)) ∧ ¬ (timely ∧ P) ∨ r = Ok tt ∧ P.

Section Neighbours.
Context `{!TendermintSpec} (valid : ExtendedHeader → Prop) `{!ValidHeaders valid}.
Context (m : gmap Z ExtendedHeader) (get : Z → res StoreError ExtendedHeader).
Context (Hok : store_ok valid m) (Hget : ∀ h e, m !! h = Some e → get h = Ok e).

Lemma verify_prev_spec now hd (prev : bool) :
  is_Some (time_checked_add now VERIFY_CLOCK_DRIFT) → valid hd →
  (prev = true ↔ is_Some (m !! (eh_height hd - 1))) →
  checked (verify_prev get now (if prev then Some hd else None))
    (eh_time hd < now + VERIFY_CLOCK_DRIFT)
    (∀ p, m !! (eh_height hd - 1) = Some p → linked p [hd]).
Proof.
  intros Hclock Hhd Hprev. pose proof (valid_height _ Hhd). unfold verify_prev.
  destruct prev.
  - destruct (proj1 Hprev eq_refl) as [p Hp]. destruct (proj1 Hok _ _ Hp) as [Hph Hpv].
    pose proof (valid_height _ Hpv). rewrite u64_sub_Ok by lia. cbv [mbind res_bind].
    rewrite (Hget _ _ Hp).
    pose proof (eh_verify_adjacent_no_panic now p hd Hclock ltac:(lia) ltac:(lia)).
    destruct (eh_verify now p hd) as [[]|e|] eqn:Ev; [right|left|done].
    2:{ split; [by eexists|]. intros [Ht Hlink].
        rewrite (eh_verify_linked now p hd) in Ev; [done|done|lia|by apply Hlink|done]. }
    split; [done|]. intros p' Hp'. rewrite Hp in Hp'. injection Hp' as <-.
    eapply verify_neighbours; [exact Ev|lia].
  - right. split; [done|]. intros p Hp. assert (false = true) by (apply Hprev; eauto). done.
Qed.

Lemma verify_next_spec now tl (next : bool) :
  is_Some (time_checked_add now VERIFY_CLOCK_DRIFT) → valid tl →
  (next = true ↔ is_Some (m !! (eh_height tl + 1))) →
  checked (verify_next get now (if next then Some tl else None))
    (∀ n, m !! (eh_height tl + 1) = Some n → eh_time n < now + VERIFY_CLOCK_DRIFT)
    (∀ n, m !! (eh_height tl + 1) = Some n → linked tl [n]).
Proof.
  intros Hclock Htl Hnext. pose proof (valid_height _ Htl). unfold verify_next.
  destruct next.
  - destruct (proj1 Hnext eq_refl) as [n Hn]. destruct (proj1 Hok _ _ Hn) as [Hnh Hnv].
    rewrite u64_add_Ok by (unfold u64_max, i64_max in *; lia). cbv [mbind res_bind].
    rewrite (Hget _ _ Hn).
    pose proof (eh_verify_adjacent_no_panic now tl n Hclock ltac:(lia) ltac:(lia)).
    destruct (eh_verify now tl n) as [[]|e|] eqn:Ev; [right|left|done].
    2:{ split; [by eexists|]. intros [Ht Hlink].
        rewrite (eh_verify_linked now tl n) in Ev; [done|done|lia|by apply Hlink|by apply Ht]. }
    split; [done|]. intros n' Hn'. rewrite Hn in Hn'. injection Hn' as <-.
    eapply verify_neighbours; [exact Ev|lia].
  - right. split; [done|]. intros n Hn. assert (false = true) by (apply Hnext; eauto). done.
Qed.

(** Neighbour verification never panics, and when it succeeds the new headers link to
    the stored ones on both sides. *)
Lemma verify_against_neighbours_spec now hd tl (prev next : bool) :
  clock_ok now → valid hd → valid tl →
  (prev = true ↔ is_Some (m !! (eh_height hd - 1))) →
  (next = true ↔ is_Some (m !! (eh_height tl + 1))) →
  checked (verify_against_neighbours get now (if prev then Some hd else None)
      (if next then Some tl else None))
    (timely now hd ∧ ∀ n, m !! (eh_height tl + 1) = Some n → timely now n)
    ((∀ p, m !! (eh_height hd - 1) = Some p → linked p [hd]) ∧
     (∀ n, m !! (eh_height tl + 1) = Some n → linked tl [n])).
Proof.
  intros Hclock Hhd Htl Hprev Hnext. unfold verify_against_neighbours.
  destruct (verify_prev_spec (now 0%nat) hd prev (Hclock _) Hhd Hprev)
    as [[[e ->] Hno]|[-> Hp]].
  { left. split; [by eexists|]. intros [[Ht _] [? _]]. apply Hno. split; [apply Ht|done]. }
  cbv [mbind res_bind].
  destruct (verify_next_spec (now 1%nat) tl next (Hclock _) Htl Hnext)
    as [[[e ->] Hno]|[-> Hn]]; [|by right].
  left. split; [by eexists|]. intros [[_ Ht] [_ ?]]. apply Hno. split; [|done].
  intros n Hn. by apply Ht.
Qed.
End Neighbours.

(** Sampling: merging keeps the old cids and adds the new ones, once. *)
Lemma elem_of_merge_cids old new c : c ∈ merge_cids old new ↔ c ∈ old ∨ c ∈ new.
Proof.
  unfold merge_cids. revert old; induction new as [|x new IH]; intros old; simpl.
  - split; [auto|]. by intros [?|?%elem_of_nil].
  - rewrite IH, elem_of_cons. case_bool_decide as Hx.
    + split; [tauto|]. intros [?|[->|?]]; auto.
    + rewrite elem_of_app, list_elem_of_singleton. tauto.
Qed.

Lemma NoDup_merge_cids old new : NoDup old → NoDup (merge_cids old new).
Proof.
  unfold merge_cids. revert old; induction new as [|x new IH]; intros old Hnd; simpl; [done|].
  apply IH. case_bool_decide as Hx; [done|]. apply NoDup_app. split; [done|].
  split; [|apply NoDup_singleton]. intros y Hy ->%list_elem_of_singleton. done.
Qed.

(** Ranges that represent the domain of the map. *)
Definition ranges_dom (rs : BlockRanges) (m : gmap Z ExtendedHeader) : Prop :=
  canonical rs ∧ ∀ h, in_ranges h rs ↔ is_Some (m !! h).

Lemma ranges_dom_head rs m : ranges_dom rs m →
  (m = ∅ ∧ ranges_head rs = None) ∨ ∃ t, ranges_head rs = Some t ∧ is_head m t.
Proof.
  intros [Hc Hdom]. destruct (pop_head_chain 1 rs) as [[-> _]|(t&rs'&_&Ht&_&Hin&Hmax&_)]; [lia|done|..].
  - left. split; [|done]. apply map_empty. intros h. destruct (m !! h) eqn:E; [|done].
    assert (in_ranges h []) as []%in_ranges_nil. apply Hdom. eauto.
  - right. exists t. split; [done|]. split; [by apply Hdom|]. intros h Hh. by apply Hmax, Hdom.
Qed.

Lemma ranges_dom_tail rs m : ranges_dom rs m →
  (m = ∅ ∧ rs = [] ∧ pop_tail rs = Ok (None, [])) ∨
  ∃ t rs', pop_tail rs = Ok (Some t, rs') ∧ ranges_tail rs = Some t ∧ is_tail m t ∧
    ranges_dom rs' (delete t m).
Proof.
  intros [Hc Hdom]. destruct (pop_tail_chain 1 rs) as [[-> Hp]|(t&rs'&Hp&Ht&Hc'&Hin&Hmin&Hrs')];
    [lia|done|..].
  - left. split; [|done]. apply map_empty. intros h. destruct (m !! h) eqn:E; [|done].
    assert (in_ranges h []) as []%in_ranges_nil. apply Hdom. eauto.
  - right. exists t, rs'. do 2 (split; [done|]). split.
    { split; [by apply Hdom|]. intros h Hh. by apply Hmin, Hdom. }
    split; [done|]. intros h. rewrite Hrs', Hdom.
    destruct (decide (h = t)) as [->|Hne].
    + rewrite lookup_delete_eq, is_Some_alt. naive_solver.
    + rewrite lookup_delete_ne by done. naive_solver.
Qed.

(** A verified range whose heights are free extends the ranges and the map alike. *)
Lemma ranges_dom_insert rs m hd tl rs' : ranges_dom rs m → linked hd tl →
  0 < eh_height hd → eh_height hd + Z.of_nat (length tl) ≤ u64_max →
  insert_relaxed rs (eh_height hd ..= eh_height hd + Z.of_nat (length tl)) = Ok rs' →
  ranges_dom rs' (insert_all m (hd :: tl)).
Proof.
  intros [Hc Hdom] Hl Hpos Hmax Hins.
  destruct (insert_relaxed_chain 1 rs (eh_height hd ..= eh_height hd + Z.of_nat (length tl)))
    as (rs1&Heq&Hc'&Hin); [lia|done|unfold range_valid; simpl; lia|].
  rewrite Heq in Hins. injection Hins as <-. split; [done|]. intros h. rewrite Hin, Hdom.
  rewrite (lookup_insert_all m (hd :: tl) (eh_height hd)).
  2:{ intros k e. by apply verified_heights. }
  unfold in_range. simpl br_start. simpl br_end. case_bool_decide as Hb; simpl length in Hb.
  - split; [intros _|intros _; right; lia]. apply lookup_lt_is_Some_2. simpl. lia.
  - split; [intros [?|?]; [done|lia]|by left].
Qed.

(** A range with free and anchored heights is not rejected. *)
Lemma verdict_rejects rs m hd tl e : ranges_dom rs m → linked hd tl →
  range_valid (eh_height hd ..= eh_height hd + Z.of_nat (length tl)) →
  insertion_verdict rs (eh_height hd ..= eh_height hd + Z.of_nat (length tl)) (Err e) →
  Forall (λ e, m !! eh_height e = None) (hd :: tl) →
  anchored m (eh_height hd) (eh_height hd + Z.of_nat (length tl)) → False.
Proof.
  intros [Hc Hdom] Hl Hv Hver Hfree Hanch. destruct e as [| |r o|r]; simpl in Hver; [done..| |].
  - destruct Hver as (_&_&_&_&h&Hh&Hin). apply Hdom in Hin as [e He]. unfold in_range in Hh; simpl in Hh.
    destruct (lookup_lt_is_Some_2 (hd :: tl) (Z.to_nat (h - eh_height hd))) as [e' He'];
      [simpl; lia|].
    eapply Forall_lookup_1 in Hfree; [|done]. simpl in Hfree.
    rewrite (verified_heights _ _ _ _ Hl He') in Hfree.
    replace (eh_height hd + Z.of_nat (Z.to_nat (h - eh_height hd))) with h in Hfree by lia. congruence.
  - destruct Hver as (_&_&Hle&Hp&Hn). rewrite Hdom in Hp. rewrite Hdom in Hn.
    destruct Hanch as [Hhead|[?|?]]; [|done..].
    destruct (last rs) as [r'|] eqn:Hlast.
    2:{ apply last_None in Hlast as ->. unfold range_valid in Hv. simpl in *. lia. }
    rewrite last_end_last, Hlast in Hle. simpl in Hle. apply last_Some in Hlast as [rs0 ->].
    pose proof (chain_valid 1 _ ltac:(lia) Hc) as Hval. rewrite Forall_app, Forall_singleton in Hval.
    assert (in_ranges (br_end r') (rs0 ++ [r'])) as Hin by (apply in_block_last; range_tac).
    apply Hdom, Hhead in Hin. lia.
Qed.

(** What is let through is anchored. *)
Lemma verdict_anchored rs m r prev next : ranges_dom rs m →
  insertion_verdict rs r (Ok (prev, next)) → anchored m (br_start r) (br_end r).
Proof.
  intros [Hc Hdom] (_&Hp&Hn&Hanch). unfold anchored. rewrite <-!Hdom.
  destruct Hanch as [->|[Hlt|[->| ->]]]; [| |right; left; by apply Hp|right; right; by apply Hn].
  - left. intros h Hh. by apply Hdom, in_ranges_nil in Hh.
  - left. intros h Hh%Hdom. destruct rs as [|x rs]; [by apply in_ranges_nil in Hh|].
    apply (in_ranges_ub 1 (-1) (x :: rs) h ltac:(lia) Hc) in Hh. change (last_end 0 (x :: rs)) with (last_end (-1) (x :: rs)) in Hlt. lia.
Qed.

(** The checks before an insertion, against the map: what [check_insertion_constraints]
    lets through has free heights and knows which neighbours exist. *)
Lemma constraints_spec rs m hd tl : ranges_dom rs m → linked hd tl →
  0 ≤ eh_height hd → eh_height hd + Z.of_nat (length tl) ≤ u64_max →
  (∃ e, check_insertion_constraints rs (eh_height hd ..= eh_height hd + Z.of_nat (length tl)) = Err e) ∧
    ¬ (0 < eh_height hd ∧ Forall (λ e, m !! eh_height e = None) (hd :: tl) ∧
       anchored m (eh_height hd) (eh_height hd + Z.of_nat (length tl))) ∨
  ∃ prev next : bool,
    check_insertion_constraints rs (eh_height hd ..= eh_height hd + Z.of_nat (length tl))
      = Ok (prev, next) ∧ 0 < eh_height hd ∧
    (∀ h, eh_height hd ≤ h ≤ eh_height hd + Z.of_nat (length tl) → m !! h = None) ∧
    anchored m (eh_height hd) (eh_height hd + Z.of_nat (length tl)) ∧
    (prev = true ↔ is_Some (m !! (eh_height hd - 1))) ∧
    (next = true ↔ is_Some (m !! (eh_height hd + Z.of_nat (length tl) + 1))) ∧
    ∃ rs', insert_relaxed rs (eh_height hd ..= eh_height hd + Z.of_nat (length tl)) = Ok rs' ∧
      ranges_dom rs' (insert_all m (hd :: tl)).
Proof.
  intros Hd Hl Hpos Hmax. set (r := eh_height hd ..= _). destruct (decide (range_valid r)) as [Hv|Hv].
  2:{ left. split; [|intros (?&_); apply Hv; unfold range_valid; simpl; lia].
      unfold check_insertion_constraints. by rewrite range_validate_invalid; [eexists|simpl; lia|]. }
  assert (0 < eh_height hd) as Hpos' by (unfold range_valid in Hv; simpl in Hv; lia).
  destruct Hd as [Hc Hdom] eqn:EHd. clear EHd.
  pose proof (check_insertion_verdict rs r (canonical_sorted _ Hc) Hv) as Hver.
  destruct (check_insertion_constraints rs r) as [[prev next]|e|]; [right|left|done].
  2:{ split; [by eexists|]. intros (_&Hfree&Hanch). by eapply verdict_rejects. }
  destruct Hver as (Hdis&Hprev&Hnext&Hanch). exists prev, next. split; [done|]. split; [done|]. split.
  { intros h Hh. apply eq_None_not_Some. rewrite <-Hdom. by apply Hdis. }
  split; [by apply (verdict_anchored rs m r prev next)|]. rewrite <-!Hdom. split; [done|]. split; [done|].
  destruct (insert_relaxed_chain 1 rs r) as (rs'&Heq&Hc'&Hin); [lia|done..|].
  exists rs'. split; [done|]. by apply (ranges_dom_insert rs).
Qed.

(** How the checks of an implementation fail on headers that extend the chain: not at all. *)
Lemma extends_later now m l n : extends now m l → extends (λ i, now (n + i)%nat) m l.
Proof.
  destruct l as [|hd tl]; [done|]. intros (?&?&?&?&?&?&Ht&Hm). split_and!; [done..| |].
  - eapply Forall_impl; [exact Ht|]. intros e He i. apply He.
  - intros h e He i. by apply (Hm h).
Qed.

Lemma extends_verified `{!TendermintSpec} valid `{!ValidHeaders valid} now m l :
  clock_ok now → Forall valid l → extends now m l → verified_try_from now l = Ok l.
Proof.
  intros Hclock Hval. destruct l as [|hd tl]; [done|]. intros (_&Hl&_&_&_&_&Ht&_). simpl.
  apply Forall_cons in Ht as [_ Ht]. rewrite verify_adjacent_range_complete; try done.
  eapply Forall_impl; [exact Hval|]. apply valid_height.
Qed.

Lemma not_extends_constraints now m hd tl :
  ¬ (0 < eh_height hd ∧ Forall (λ e, m !! eh_height e = None) (hd :: tl) ∧
     anchored m (eh_height hd) (eh_height hd + Z.of_nat (length tl))) → ¬ extends now m (hd :: tl).
Proof. intros Hno (?&?&?&?&_). by apply Hno. Qed.

Lemma not_extends_neighbours now m hd tl la : last (hd :: tl) = Some la →
  ¬ ((timely now hd ∧ ∀ n, m !! (eh_height la + 1) = Some n → timely now n) ∧
     (∀ p, m !! (eh_height hd - 1) = Some p → linked p [hd]) ∧
     (∀ n, m !! (eh_height la + 1) = Some n → linked la [n])) → ¬ extends now m (hd :: tl).
Proof.
  intros Hla Hno (_&_&_&_&Hp&Hn&Ht&Hm). apply Hno. apply Forall_cons in Ht as [Ht _].
  split_and!; [done| |done|]; intros n Hln; eauto.
Qed.

Lemma ranges_dom_valid rs m h : ranges_dom rs m → is_Some (m !! h) → range_valid (h ..= h).
Proof.
  intros [Hc Hdom] Hh. apply Hdom in Hh. apply (in_ranges_u64 1) in Hh; [|lia|done].
  unfold range_valid. simpl. lia.
Qed.

(** How a sampling result changes the accepted ranges. *)
Lemma accepted_update_spec rs h st : canonical rs → range_valid (h ..= h) →
  ∃ rs', match st with
    | Accepted => insert_relaxed rs (h ..= h)
    | _ => remove_relaxed rs (h ..= h) end = Ok rs' ∧ canonical rs' ∧
    ∀ k, in_ranges k rs' ↔ if bool_decide (k = h) then st = Accepted else in_ranges k rs.
Proof.
  intros Hc Hv.
  destruct (insert_relaxed_chain 1 rs (h ..= h) ltac:(lia) Hc Hv) as (ri&Hri&Hci&Hini).
  destruct (remove_relaxed_chain 1 rs (h ..= h) ltac:(lia) Hc Hv) as (rr&Hrr&Hcr&Hinr).
  unfold in_range in *. simpl in *.
  destruct st; [exists rr|exists ri|exists rr]; (do 2 (split; [done|])); intros k;
    rewrite ?Hini, ?Hinr; case_bool_decide; naive_solver lia.
Qed.

Lemma ranges_dom_contains rs m h : ranges_dom rs m →
  ranges_contains rs h = bool_decide (is_Some (m !! h)).
Proof.
  intros [_ Hdom]. apply eq_true_iff_eq. by rewrite ranges_contains_spec, bool_decide_eq_true.
Qed.

(** The heights that bounds denote in a store with head [t]. *)
Definition bound_lo (b : Bound) : Z :=
  match b with Unbounded => 1 | Included x => x | Excluded x => x + 1 end.
Definition bound_hi (b : Bound) (t : Z) : Z :=
  match b with Unbounded => t | Included x => x | Excluded x => Z.max 0 (x - 1) end.
Definition bound_u64 (b : Bound) : Prop :=
  match b with Unbounded => True | Included x | Excluded x => 0 ≤ x ≤ u64_max end.
(** Neither end names a height outside [1..=t] (an empty range apart). *)
Definition bounds_within (sb eb : Bound) (t : Z) : Prop :=
  match sb with Unbounded => True | Included x => 0 < x ≤ t | Excluded x => x < t end ∧
  match eb with Unbounded => True | Included x => x ≤ t | Excluded x => x ≤ t + 1 end.

Lemma to_headers_range_spec sb eb t : bound_u64 sb → bound_u64 eb → 0 ≤ t < u64_max →
  (bounds_within sb eb t ∧ to_headers_range sb eb t = Ok (bound_lo sb ..= bound_hi eb t)) ∨
  (¬ bounds_within sb eb t ∧ to_headers_range sb eb t = Err NotFound).
Proof.
  intros Hs He Ht. unfold to_headers_range, bounds_within, u64_add, u64_sub, checked_add, checked_sub.
  destruct sb as [|x|x], eb as [|y|y]; simpl in *; cbv [mbind res_bind];
    repeat (case_ifs; simpl; cbv [mbind res_bind]);
    first [left; split; [lia|f_equal; f_equal; lia] | right; split; [lia|done] | lia].
Qed.

(** [get_range] is exact for every store that keeps its contract.  It never panics
    and fails only with [NotFound]: it returns the headers of precisely the heights the
    bounds denote, in order, when the bounds are within the stored heights and each of
    these heights is stored, and [NotFound] otherwise (also on an empty store). *)
Theorem get_range_correct {S} `{Store S} valid `{!ValidHeaders valid} `{!StoreSpec S valid}
    (s : S) m sb eb :
  store_rep s m → bound_u64 sb → bound_u64 eb →
  (∃ t l, is_head m t ∧ bounds_within sb eb t ∧ get_range s sb eb = Ok l ∧
     Forall2 (λ h e, m !! h = Some e) (range_heights (bound_lo sb ..= bound_hi eb t)) l) ∨
  (get_range s sb eb = Err NotFound ∧
    ∀ t, is_head m t → bounds_within sb eb t →
      ∃ h, h ∈ range_heights (bound_lo sb ..= bound_hi eb t) ∧ m !! h = None).
Proof.
  intros Hrep Hs He. unfold get_range.
  destruct (spec_head_height s m Hrep) as [[-> ->]|(t&->&Ht)]; cbv [mbind res_bind].
  { right. split; [done|]. intros t [[e He'] _]. by rewrite lookup_empty in He'. }
  assert (0 ≤ t < u64_max) as Hb.
  { destruct Ht as [[e Hte] _]. destruct (store_rep_ok s m Hrep) as [Hok _].
    destruct (Hok _ _ Hte) as [<- Hv]. pose proof (valid_height _ Hv).
    unfold u64_max, i64_max in *. lia. }
  assert (∀ t', is_head m t' → t' = t) as Huniq.
  { intros t' [H1' H2']. destruct Ht as [H3' H4']. apply H2' in H3'. apply H4' in H1'. lia. }
  destruct (to_headers_range_spec sb eb t Hs He Hb) as [[Hw ->]|[Hw ->]].
  2:{ right. split; [done|]. by intros t' ->%Huniq. }
  assert (∀ l, (∃ k, mapM (st_get_by_height s) l = Ok k ∧ Forall2 (λ h e, m !! h = Some e) l k) ∨
    (mapM (st_get_by_height s) l = Err NotFound ∧ ∃ h, h ∈ l ∧ m !! h = None)) as Hmap.
  { induction l as [|h l IH]; [left; by exists []|]. cbn [mapM]. cbv [mbind res_bind] in *.
    rewrite (spec_get_by_height s m h Hrep). destruct (m !! h) as [e|] eqn:E; simpl ok_or; cbv iota.
    - destruct IH as [(k&->&Hk)|[-> (h'&Hin&Hn)]].
      + left. exists (e :: k). split; [done|by constructor].
      + right. split; [done|]. exists h'. split; [by right|done].
    - right. split; [done|]. exists h. split; [left|done]. }
  destruct (Hmap (range_heights (bound_lo sb ..= bound_hi eb t))) as [(l&Hl&Hf)|[Hl Hn]].
  - left. by exists t, l.
  - right. split; [done|]. by intros t' ->%Huniq _.
Qed.

(** The stored form of sampling metadata round-trips, and none of the four
    combinations of the two flags is ambiguous: any raw metadata whose cids decode is
    read as the status that its re-encoding keeps. *)
Theorem sampling_metadata_roundtrip (read_bytes : bytes → option Cid) (to_bytes : Cid → bytes) md raw :
  (∀ c, read_bytes (to_bytes c) = Some c) →
  SamplingMetadata_try_from read_bytes (SamplingMetadata_into_raw to_bytes md) = Some md ∧
  ∀ md', SamplingMetadata_try_from read_bytes raw = Some md' →
    SamplingMetadata_try_from read_bytes (SamplingMetadata_into_raw to_bytes md') = Some md'.
Proof.
  intros Hrt. assert (∀ md, SamplingMetadata_try_from read_bytes
    (SamplingMetadata_into_raw to_bytes md) = Some md) as Hmd.
  { intros [st cs]. unfold SamplingMetadata_try_from, SamplingMetadata_into_raw.
    assert (mapM read_bytes (to_bytes <$> cs) = Some cs) as Hcs.
    { apply mapM_Some, Forall2_fmap_l, Forall_Forall2_diag, Forall_true. naive_solver. }
    destruct st; cbn [status cids raw_unknown raw_accepted raw_cids]; by rewrite Hcs. }
  split; [apply Hmd|]. intros md' _. apply Hmd.
Qed.

End Store.

(** A content id for the witnesses, and a codec. *)
Definition toy_cid (n : Z) : Cid :=
  cid_new_v1 SAMPLE_ID_CODEC {| mh_code := SAMPLE_ID_MULTIHASH_CODE; mh_digest := [n] |}.
Definition toy_cid_to_bytes (c : Cid) : bytes :=
  (if cid_version c then 0 else 1) :: cid_codec c :: mh_code (cid_hash c) :: mh_digest (cid_hash c).
Definition toy_cid_read_bytes (b : bytes) : option Cid :=
  match b with
  | version :: codec :: code :: digest =>
      Some {| cid_version := if version =? 0 then CidV0 else CidV1; cid_codec := codec;
              cid_hash := {| mh_code := code; mh_digest := digest |} |}
  | _ => None
  end.

Lemma sampling_metadata_roundtrip_witness :
  SamplingMetadata_try_from toy_cid_read_bytes (SamplingMetadata_into_raw toy_cid_to_bytes
    {| status := Rejected; cids := [toy_cid 1; toy_cid 2] |})
  = Some {| status := Rejected; cids := [toy_cid 1; toy_cid 2] |}.
Proof.
  apply (proj1 (sampling_metadata_roundtrip toy_cid_read_bytes toy_cid_to_bytes
    {| status := Rejected; cids := [toy_cid 1; toy_cid 2] |}
    {| raw_accepted := true; raw_cids := []; raw_unknown := true |} ltac:(by intros [[] ? []]))).
Defined.
