(* ===== verification/InMemoryStore.v ===== *)
(** * The in-memory store (src/node/src/store/in_memory_store.rs)

    [InMemoryStoreInner] and its operations; the lock around it makes each operation
    one atomic step.  An operation returns its result and the state it leaves, also
    when it fails.  The store is shown to satisfy [StoreSpec]. *)

From S2P Require Import Prelude Consts BlockRanges Nmt Merkle Dah Header ShwapIds Store.

Record InMemoryStoreInner := {
  im_headers : gmap Hash ExtendedHeader;
  im_height_to_hash : gmap Z Hash;
  im_header_ranges : BlockRanges;
  im_sampling_data : gmap Z SamplingMetadata;
  im_accepted_sampling_ranges : BlockRanges
}.

Definition im_new : InMemoryStoreInner :=
  {| im_headers := ∅; im_height_to_hash := ∅; im_header_ranges := [];
     im_sampling_data := ∅; im_accepted_sampling_ranges := [] |}.

Definition im_get_stored_ranges (s : InMemoryStoreInner) : BlockRanges := im_header_ranges s.
Definition im_get_accepted_sampling_ranges (s : InMemoryStoreInner) : BlockRanges :=
  im_accepted_sampling_ranges s.
Definition im_get_head_height (s : InMemoryStoreInner) : res StoreError Z :=
  ok_or (ranges_head (im_header_ranges s)) NotFound.
Definition im_contains_hash (s : InMemoryStoreInner) (hash : Hash) : bool :=
  bool_decide (is_Some (im_headers s !! hash)).
Definition im_get_by_hash (s : InMemoryStoreInner) (hash : Hash) : res StoreError ExtendedHeader :=
  ok_or (im_headers s !! hash) NotFound.
Definition im_contains_height (s : InMemoryStoreInner) (height : Z) : bool :=
  ranges_contains (im_header_ranges s) height.
Definition im_get_by_height (s : InMemoryStoreInner) (height : Z) : res StoreError ExtendedHeader :=
  match im_height_to_hash s !! height with
  | None => Err NotFound
  | Some hash => expect (im_headers s !! hash)
  end.
Definition im_get_head (s : InMemoryStoreInner) : res StoreError ExtendedHeader :=
  head_height ← im_get_head_height s; im_get_by_height s head_height.

(** [get_by_height] of a neighbour: [NotFound] becomes a panic. *)
Definition im_get_neighbour (s : InMemoryStoreInner) (height : Z) : res StoreError ExtendedHeader :=
  match im_get_by_height s height with Err NotFound => Panic | r => r end.

Section InMemoryStore.
Context `{Tendermint} `{DahExternals}.

Definition im_verify_against_neighbours (now : nat → Z) (s : InMemoryStoreInner)
    (lowest_header highest_header : option ExtendedHeader) : res StoreError unit :=
  verify_against_neighbours (im_get_neighbour s) now lowest_header highest_header.

(** The loop of [insert]; the state is kept when it returns early. *)
Fixpoint im_insert_loop (headers : list ExtendedHeader) (s : InMemoryStoreInner)
    : res StoreError unit * InMemoryStoreInner :=
  match headers with
  | [] => (Ok tt, s)
  | header :: headers =>
      let hash := eh_hash header in
      let height := eh_height header in
      if bool_decide (is_Some (im_height_to_hash s !! height)) then (Panic, s) (* debug_assert *)
      else if bool_decide (is_Some (im_headers s !! hash))
      then (Err (InsertionFailed (HashExists hash)), s)
      else im_insert_loop headers
        {| im_headers := <[hash := header]> (im_headers s);
           im_height_to_hash := <[height := hash]> (im_height_to_hash s);
           im_header_ranges := im_header_ranges s;
           im_sampling_data := im_sampling_data s;
           im_accepted_sampling_ranges := im_accepted_sampling_ranges s |}
  end.

Definition im_set_ranges (s : InMemoryStoreInner) (rs : BlockRanges) : InMemoryStoreInner :=
  {| im_headers := im_headers s; im_height_to_hash := im_height_to_hash s;
     im_header_ranges := rs; im_sampling_data := im_sampling_data s;
     im_accepted_sampling_ranges := im_accepted_sampling_ranges s |}.

(** [InMemoryStoreInner::insert], on headers that are verified. *)
Definition im_inner_insert (now : nat → Z) (s : InMemoryStoreInner) (headers : list ExtendedHeader)
    : res StoreError unit * InMemoryStoreInner :=
  match head headers, last headers with
  | Some hd, Some tl =>
      let headers_range := eh_height hd ..= eh_height tl in
      match check_insertion_constraints (im_header_ranges s) headers_range with
      | Panic => (Panic, s)
      | Err e => (Err (InsertionFailed (ContraintsNotMet e)), s)
      | Ok (prev_exists, next_exists) =>
          match im_verify_against_neighbours now s
                  (if prev_exists then Some hd else None) (if next_exists then Some tl else None) with
          | Panic => (Panic, s)
          | Err e => (Err e, s)
          | Ok _ =>
              match im_insert_loop headers s with
              | (Ok _, s) =>
                  match insert_relaxed (im_header_ranges s) headers_range with
                  | Ok rs => (Ok tt, im_set_ranges s rs)
                  | _ => (Panic, s)
                  end
              | (r, s) => (r, s)
              end
          end
      end
  | _, _ => (Ok tt, s)
  end.

(** [InMemoryStore::insert]; [now] after the verification of the headers themselves
    continues with the readings for the neighbours. *)
Definition im_insert (now : nat → Z) (s : InMemoryStoreInner) (headers : list ExtendedHeader)
    : res StoreError unit * InMemoryStoreInner :=
  match verified_try_from now headers with
  | Panic => (Panic, s)
  | Err e => (Err (InsertionFailed (HeadersVerificationFailed e)), s)
  | Ok verified => im_inner_insert (λ i, now (length headers + i)%nat) s verified
  end.

Definition im_update_sampling_metadata (s : InMemoryStoreInner) (height : Z) (st : SamplingStatus)
    (cs : list Cid) : res StoreError unit * InMemoryStoreInner :=
  if negb (im_contains_height s height) then (Err NotFound, s) else
  let entry :=
    match im_sampling_data s !! height with
    | None => {| status := st; cids := cs |}
    | Some metadata => {| status := st; cids := merge_cids (cids metadata) cs |}
    end in
  let s := {| im_headers := im_headers s; im_height_to_hash := im_height_to_hash s;
              im_header_ranges := im_header_ranges s;
              im_sampling_data := <[height := entry]> (im_sampling_data s);
              im_accepted_sampling_ranges := im_accepted_sampling_ranges s |} in
  let ranges :=
    match st with
    | Accepted => insert_relaxed (im_accepted_sampling_ranges s) (height ..= height)
    | _ => remove_relaxed (im_accepted_sampling_ranges s) (height ..= height)
    end in
  match ranges with
  | Ok rs =>
      (Ok tt, {| im_headers := im_headers s; im_height_to_hash := im_height_to_hash s;
                 im_header_ranges := im_header_ranges s; im_sampling_data := im_sampling_data s;
                 im_accepted_sampling_ranges := rs |})
  | _ => (Panic, s)
  end.

Definition im_get_sampling_metadata (s : InMemoryStoreInner) (height : Z)
    : res StoreError (option SamplingMetadata) :=
  if negb (im_contains_height s height) then Err NotFound else
  match im_sampling_data s !! height with
  | None => Ok None
  | Some metadata => Ok (Some metadata)
  end.

Definition im_remove_last (s : InMemoryStoreInner) : res StoreError Z * InMemoryStoreInner :=
  match ranges_tail (im_header_ranges s) with
  | None => (Err NotFound, s)
  | Some height =>
      match im_height_to_hash s !! height with
      | None => (Err StoredDataError, s)
      | Some hash =>
          if bool_decide (im_headers s !! hash = None) then (Err StoredDataError, s) else
          match pop_tail (im_header_ranges s) with
          | Ok (_, rs) =>
              (Ok height,
               {| im_headers := delete hash (im_headers s);
                  im_height_to_hash := delete height (im_height_to_hash s);
                  im_header_ranges := rs;
                  im_sampling_data := delete height (im_sampling_data s);
                  im_accepted_sampling_ranges := im_accepted_sampling_ranges s |})
          | _ => (Panic, s)
          end
      end
  end.

#[global] Instance InMemoryStore_Store : Store InMemoryStoreInner := {|
  st_get_head := im_get_head;
  st_get_by_hash := im_get_by_hash;
  st_get_by_height := im_get_by_height;
  st_head_height := im_get_head_height;
  st_has := im_contains_hash;
  st_has_at := im_contains_height;
  st_update_sampling_metadata := im_update_sampling_metadata;
  st_get_sampling_metadata := im_get_sampling_metadata;
  st_insert := im_insert;
  st_get_stored_header_ranges s := Ok (im_get_stored_ranges s);
  st_get_accepted_sampling_ranges s := Ok (im_get_accepted_sampling_ranges s);
  st_remove_last := im_remove_last
|}.

(** ** The invariant *)

Record im_rep (valid : ExtendedHeader → Prop) (s : InMemoryStoreInner)
    (m : gmap Z ExtendedHeader) : Prop := {
  im_rep_ok : store_ok valid m;
  im_rep_ranges : ranges_dom (im_header_ranges s) m;
  im_rep_hashes : im_height_to_hash s = eh_hash <$> m;
  im_rep_headers hash e : im_headers s !! hash = Some e ↔
    m !! eh_height e = Some e ∧ eh_hash e = hash;
  im_rep_accepted : canonical (im_accepted_sampling_ranges s);
  (** metadata exists for stored headers only, and the accepted ranges agree with it *)
  im_rep_sampling h md : im_sampling_data s !! h = Some md →
    is_Some (m !! h) ∧ (status md = Accepted ↔ in_ranges h (im_accepted_sampling_ranges s))
}.

(** ** Lemmas *)

Section Rep.
Context (valid : ExtendedHeader → Prop) `{!ValidHeaders valid} `{!TendermintSpec}.

Lemma im_rep_new : im_rep valid im_new ∅.
Proof.
  split.
  - done.
  - split; [done|]. intros h. cbn. rewrite in_ranges_nil, lookup_empty, is_Some_alt. done.
  - cbn [im_height_to_hash im_new]. by rewrite fmap_empty.
  - intros hash e. cbn [im_headers im_new]. rewrite !lookup_empty. naive_solver.
  - done.
  - done.
Qed.

Lemma im_lookup s m h e : im_rep valid s m → m !! h = Some e →
  im_headers s !! eh_hash e = Some e.
Proof.
  intros Hrep Hm. apply (im_rep_headers _ _ _ Hrep).
  destruct (im_rep_ok _ _ _ Hrep) as [Hok _]. destruct (Hok h e Hm) as [-> _]. done.
Qed.

Lemma im_get_by_height_spec s m h : im_rep valid s m →
  im_get_by_height s h = ok_or (m !! h) NotFound.
Proof.
  intros Hrep. unfold im_get_by_height. rewrite (im_rep_hashes _ _ _ Hrep), lookup_fmap.
  destruct (m !! h) as [e|] eqn:E; simpl; [|done]. by rewrite (im_lookup _ _ _ _ Hrep E).
Qed.

Lemma im_get_neighbour_spec s m h e : im_rep valid s m → m !! h = Some e →
  im_get_neighbour s h = Ok e.
Proof. intros Hrep E. unfold im_get_neighbour. by rewrite (im_get_by_height_spec _ m), E. Qed.

(** Both hashes of a representation and heights fit together. *)
Lemma im_hash_fresh s m e : im_rep valid s m → valid e → m !! eh_height e = None →
  im_headers s !! eh_hash e = None.
Proof.
  intros Hrep Hv Hfree. destruct (im_headers s !! eh_hash e) as [e'|] eqn:E; [|done].
  apply (im_rep_headers _ _ _ Hrep) in E as [Hm Heq].
  destruct (im_rep_ok _ _ _ Hrep) as [Hok _]. destruct (Hok _ _ Hm) as [_ Hv'].
  rewrite (valid_hash e' e Hv' Hv Heq) in Hm. congruence.
Qed.

(** The insertion loop: each step fills one free height; everything but the two maps
    stays. *)
Definition im_maps (s : InMemoryStoreInner) (m : gmap Z ExtendedHeader) : Prop :=
  (∀ h e, m !! h = Some e → eh_height e = h ∧ valid e) ∧
  im_height_to_hash s = eh_hash <$> m ∧
  ∀ hash e, im_headers s !! hash = Some e ↔ m !! eh_height e = Some e ∧ eh_hash e = hash.

Lemma im_insert_loop_spec l s m :
  im_maps s m → Forall valid l → NoDup (eh_height <$> l) →
  Forall (λ e, m !! eh_height e = None) l →
  ∃ s', im_insert_loop l s = (Ok tt, s') ∧ im_maps s' (insert_all m l) ∧
    im_header_ranges s' = im_header_ranges s ∧ im_sampling_data s' = im_sampling_data s ∧
    im_accepted_sampling_ranges s' = im_accepted_sampling_ranges s.
Proof.
  revert s m; induction l as [|e l IH]; intros s m Hmaps Hval Hnd Hfree; [by exists s|].
  apply Forall_cons in Hval as [Hv Hval]. apply Forall_cons in Hfree as [He Hfree].
  apply NoDup_cons in Hnd as [Hni Hnd]. destruct Hmaps as (Hok&Hh2h&Hhd). cbn [im_insert_loop].
  rewrite Hh2h, lookup_fmap, He. rewrite bool_decide_false by (by intros []).
  assert (im_headers s !! eh_hash e = None) as Hfresh.
  { destruct (im_headers s !! eh_hash e) as [e'|] eqn:E; [|done].
    apply Hhd in E as [Hm Heq]. destruct (Hok _ _ Hm) as [_ Hv'].
    rewrite (valid_hash e' e Hv' Hv Heq) in Hm. congruence. }
  rewrite Hfresh, bool_decide_false by (by intros []).
  set (s1 := {| im_headers := _ |}).
  destruct (IH s1 (<[eh_height e := e]> m)) as (s'&Hrun&Hmaps'&Hr&Hsd&Hacc); [|done..| |].
  - split; [|split].
    + intros h e' [[<- <-]|[_ Hm]]%lookup_insert_Some; [done|by apply Hok].
    + simpl. by rewrite fmap_insert.
    + intros hash e'. simpl. rewrite !lookup_insert_Some, Hhd. split.
      * intros [[<- <-]|[Hne [Hm Heq]]]; [by auto|]. split; [|done]. right. split; [|done].
        intros Heq'. rewrite <-Heq' in Hm. congruence.
      * intros [[[_ <-]|[Hne Hm]] Heq]; [by left|]. right. split; [|done].
        intros Heq'. destruct (Hok _ _ Hm) as [_ Hv']. apply Hne.
        apply valid_hash; [done..|congruence].
  - rewrite Forall_forall in Hfree |- *. intros x Hx. rewrite lookup_insert_ne; [by apply Hfree|].
    intros Heq. apply Hni. rewrite Heq. apply list_elem_of_fmap. eauto.
  - exists s'. done.
Qed.

(** [insert] on verified headers: all of them, or nothing. *)
Lemma im_inner_insert_spec now s m l : im_rep valid s m → clock_ok now → Forall valid l →
  match l with [] => True | hd :: tl => linked hd tl end →
  ((im_inner_insert now s l).1 = Ok tt ∧ insertable m l ∧
     im_rep valid (im_inner_insert now s l).2 (insert_all m l)) ∨
  ((∃ e, im_inner_insert now s l = (Err (InsertionFailed e), s)) ∧ ¬ extends now m l).
Proof.
  intros Hrep Hclock Hval Hl. destruct l as [|hd tl]; [by left|].
  destruct (last (hd :: tl)) as [la|] eqn:Hlast; [|by apply last_None in Hlast].
  unfold im_inner_insert. rewrite Hlast. change (head (hd :: tl)) with (Some hd). cbv iota zeta.
  pose proof (verified_last _ _ _ Hl Hlast) as Hla. rewrite Hla.
  assert (valid hd) as Hvhd by by inversion Hval.
  assert (valid la) as Hvla.
  { rewrite Forall_forall in Hval. apply Hval. by eapply last_Some_elem_of. }
  pose proof (valid_height _ Hvhd). pose proof (valid_height _ Hvla).
  destruct (constraints_spec (im_header_ranges s) m hd tl (im_rep_ranges _ _ _ Hrep) Hl)
    as [[[e ->] Hno]|(prev&next&->&Hpos&Hfree&Hanch&Hprev&Hnext&rs'&Hins&Hdom)];
    [lia|unfold u64_max, i64_max in *; lia|right; split; [by eexists|by apply not_extends_constraints]|].
  unfold im_verify_against_neighbours. rewrite <-Hla in Hnext.
  destruct (verify_against_neighbours_spec valid m (im_get_neighbour s) (im_rep_ok _ _ _ Hrep)
    ltac:(intros; by eapply im_get_neighbour_spec) now hd la prev next Hclock Hvhd Hvla Hprev Hnext)
    as [[[e ->] Hno]|[-> [Hp Hn]]];
    [right; split; [by eexists|by apply (not_extends_neighbours _ _ _ _ la)]|left].
  assert (Forall (λ e, m !! eh_height e = None) (hd :: tl)) as Hfree'.
  { apply Forall_lookup. intros k e Hk. apply Hfree. rewrite (verified_heights _ _ _ _ Hl Hk).
    apply lookup_lt_Some in Hk. simpl in Hk. lia. }
  destruct (im_insert_loop_spec (hd :: tl) s m) as (s'&->&(Hok'&Hh2h&Hhd)&Hr&Hsd&Hacc).
  - split; [apply (im_rep_ok _ _ _ Hrep)|]. split; [apply (im_rep_hashes _ _ _ Hrep)|].
    apply (im_rep_headers _ _ _ Hrep).
  - done.
  - by apply verified_NoDup.
  - done.
  - rewrite Hr, Hins. split; [done|]. split; [done|]. split; cbn [im_set_ranges im_headers im_height_to_hash
      im_header_ranges im_sampling_data im_accepted_sampling_ranges snd].
    + apply insert_all_ok; [apply (im_rep_ok _ _ _ Hrep)|done..|].
      intros l n Hl' Hln. rewrite Hlast in Hl'. injection Hl' as <-. by apply Hn.
    + done.
    + done.
    + done.
    + rewrite Hacc. apply (im_rep_accepted _ _ _ Hrep).
    + intros h md. rewrite Hsd, Hacc. intros Hmd.
      destruct (im_rep_sampling _ _ _ Hrep h md Hmd) as [Hs Hst]. split; [|done].
      by apply insert_all_mono.
Qed.
Lemma im_insert_spec now s m l : im_rep valid s m → clock_ok now → Forall valid l →
  ((im_insert now s l).1 = Ok tt ∧ insertable m l ∧
     im_rep valid (im_insert now s l).2 (insert_all m l)) ∨
  ((∃ e, im_insert now s l = (Err (InsertionFailed e), s)) ∧ ¬ extends now m l).
Proof.
  intros Hrep Hclock Hval. unfold im_insert.
  assert (verified_try_from now l ≠ Panic) as Hnp.
  { apply verified_try_from_no_panic; [done|]. eapply Forall_impl; [exact Hval|].
    apply valid_height. }
  destruct (verified_try_from now l) as [l'|e|] eqn:E; [|right|done].
  2:{ split; [by eexists|]. intros Hext. by rewrite (extends_verified _ _ _ _ Hclock Hval Hext) in E. }
  apply verified_try_from_Ok in E as [-> Hl].
  destruct (im_inner_insert_spec (λ i, now (length l + i)%nat) s m l) as [?|[? Hno]];
    [done|by intros i; apply Hclock|done..|by left|].
  right. split; [done|]. intros Hext. by apply Hno, extends_later.
Qed.

Lemma im_update_spec s m h st cs : im_rep valid s m → is_Some (m !! h) →
  ∃ s', im_update_sampling_metadata s h st cs = (Ok tt, s') ∧ im_rep valid s' m ∧
    im_sampling_data s' = <[h := updated_metadata (im_sampling_data s !! h) st cs]> (im_sampling_data s) ∧
    ∀ k, in_ranges k (im_accepted_sampling_ranges s') ↔
      if bool_decide (k = h) then st = Accepted else in_ranges k (im_accepted_sampling_ranges s).
Proof.
  intros Hrep Hh. pose proof (ranges_dom_valid _ _ _ (im_rep_ranges _ _ _ Hrep) Hh) as Hv.
  destruct (accepted_update_spec _ h st (im_rep_accepted _ _ _ Hrep) Hv) as (rs&Hrs&Hc&Hin).
  unfold im_update_sampling_metadata, im_contains_height.
  rewrite (ranges_dom_contains _ _ h (im_rep_ranges _ _ _ Hrep)), bool_decide_true by done.
  simpl negb. cbv iota zeta. cbn [im_accepted_sampling_ranges]. rewrite Hrs. eexists. split; [done|].
  split; [|split; [|done]].
  - split; cbn [im_headers im_height_to_hash im_header_ranges im_sampling_data
      im_accepted_sampling_ranges]; try apply Hrep; [done|].
    intros k md [[<- <-]|[Hne Hk]]%lookup_insert_Some.
    + split; [done|]. rewrite Hin, bool_decide_true by done. by destruct (im_sampling_data s !! h).
    + destruct (im_rep_sampling _ _ _ Hrep k md Hk) as [? ?]. split; [done|].
      by rewrite Hin, bool_decide_false by done.
  - cbn. f_equal. unfold updated_metadata. by destruct (im_sampling_data s !! h).
Qed.

Lemma im_remove_last_spec s m : im_rep valid s m →
  (m = ∅ ∧ im_remove_last s = (Err NotFound, s)) ∨
  ∃ t s', im_remove_last s = (Ok t, s') ∧ is_tail m t ∧ im_rep valid s' (delete t m) ∧
    im_sampling_data s' = delete t (im_sampling_data s) ∧
    im_accepted_sampling_ranges s' = im_accepted_sampling_ranges s.
Proof.
  intros Hrep. unfold im_remove_last.
  destruct (ranges_dom_tail _ _ (im_rep_ranges _ _ _ Hrep)) as [(->&Hrs&_)|(t&rs'&Hp&Ht&Htail&Hdom)].
  { left. split; [done|]. by rewrite Hrs. }
  right. rewrite Ht. destruct Htail as [[e He] Hmin].
  rewrite (im_rep_hashes _ _ _ Hrep), lookup_fmap, He. simpl fmap. cbv iota.
  pose proof (im_lookup _ _ _ _ Hrep He) as Hhe.
  rewrite (bool_decide_false (im_headers s !! eh_hash e = None)) by (by rewrite Hhe).
  rewrite Hp. eexists t, _. split; [done|]. split; [by split; [eexists|]|].
  split; [|done]. destruct (im_rep_ok _ _ _ Hrep) as [Hok _]. destruct (Hok _ _ He) as [Hte Hve].
  split; cbn [im_headers im_height_to_hash im_header_ranges im_sampling_data
    im_accepted_sampling_ranges].
  - by apply store_ok_delete, Hrep.
  - done.
  - by rewrite fmap_delete.
  - intros hash e'. rewrite !lookup_delete_Some, (im_rep_headers _ _ _ Hrep). split.
    + intros (Hne&Hm&Heq). split; [|done]. split; [|done]. intros Htt.
      rewrite <-Htt in Hm. congruence.
    + intros ((Hne&Hm)&Heq). split; [|done]. intros Hhh. apply Hne. rewrite <-Hte.
      destruct (Hok _ _ Hm) as [_ Hv']. apply (valid_hash e e'); [done..|congruence].
  - apply Hrep.
  - intros k md [Hne Hk]%lookup_delete_Some. destruct (im_rep_sampling _ _ _ Hrep k md Hk).
    by rewrite lookup_delete_ne by done.
Qed.

(** The metadata and the accepted ranges after an update. *)
Lemma im_sampling_update_spec s m h st cs : im_rep valid s m →
  (is_Some (m !! h) → ∃ s', im_update_sampling_metadata s h st cs = (Ok tt, s') ∧
    im_rep valid s' m ∧
    im_get_sampling_metadata s' h
      = Ok (Some (updated_metadata (im_sampling_data s !! h) st cs)) ∧
    (∀ k, k ≠ h → im_get_sampling_metadata s' k = im_get_sampling_metadata s k) ∧
    ∀ k, in_ranges k (im_get_accepted_sampling_ranges s') ↔
      if bool_decide (k = h) then st = Accepted
      else in_ranges k (im_get_accepted_sampling_ranges s)) ∧
  (m !! h = None → im_update_sampling_metadata s h st cs = (Err NotFound, s) ∧
    im_get_sampling_metadata s h = Err NotFound).
Proof.
  intros Hrep. split.
  - intros Hh. destruct (im_update_spec s m h st cs Hrep Hh) as (s'&Hupd&Hrep'&Hsd&Hacc).
    exists s'. do 2 (split; [done|]). unfold im_get_sampling_metadata, im_contains_height.
    split; [|split; [|done]].
    + rewrite (ranges_dom_contains _ _ h (im_rep_ranges _ _ _ Hrep')), bool_decide_true by done.
      by rewrite Hsd, lookup_insert_eq.
    + intros k Hk. rewrite (ranges_dom_contains _ _ k (im_rep_ranges _ _ _ Hrep')).
      rewrite (ranges_dom_contains _ _ k (im_rep_ranges _ _ _ Hrep)).
      by rewrite Hsd, lookup_insert_ne by done.
  - intros Hh. unfold im_update_sampling_metadata, im_get_sampling_metadata, im_contains_height.
    rewrite (ranges_dom_contains _ _ h (im_rep_ranges _ _ _ Hrep)), Hh.
    by rewrite bool_decide_false by (by intros []).
Qed.

#[global] Instance InMemoryStore_StoreSpec : StoreSpec InMemoryStoreInner valid.
Proof.
  refine {| store_rep := im_rep valid |}.
  - intros s m Hrep. apply Hrep.
  - intros s m Hrep. exists (im_header_ranges s). split; [done|]. apply (im_rep_ranges _ _ _ Hrep).
  - intros s m h Hrep. by apply im_get_by_height_spec.
  - intros s m h Hrep. by apply ranges_dom_contains, Hrep.
  - intros s m h e Hrep He. simpl. unfold im_get_by_hash. by rewrite (im_lookup _ _ _ _ Hrep He).
  - intros s m Hrep. simpl. unfold im_get_head_height.
    destruct (ranges_dom_head _ _ (im_rep_ranges _ _ _ Hrep)) as [[-> ->]|(t&->&Ht)]; [by left|].
    right. by exists t.
  - intros s m Hrep. simpl. unfold im_get_head, im_get_head_height.
    destruct (ranges_dom_head _ _ (im_rep_ranges _ _ _ Hrep)) as [[-> ->]|(t&->&Ht)]; [by left|].
    right. destruct Ht as [[e He] Hmax]. exists t, e. simpl.
    by rewrite (im_get_by_height_spec _ m), He.
  - intros s m now l Hrep Hval Hclock. simpl.
    destruct (im_insert_spec now s m l Hrep Hclock Hval) as [?|[[e ->] ?]]; [by left|].
    right. split; [by eexists|done].
  - intros s m h st cs Hrep. simpl. destruct (decide (is_Some (m !! h))) as [Hh|Hh].
    + destruct (im_update_spec s m h st cs Hrep Hh) as (s'&->&Hrep'&_). simpl.
      split; [done|]. by rewrite bool_decide_true.
    + unfold im_update_sampling_metadata, im_contains_height.
      rewrite (ranges_dom_contains _ _ h (im_rep_ranges _ _ _ Hrep)), bool_decide_false by done.
      done.
  - intros s m Hrep. exists (im_accepted_sampling_ranges s). split; [done|]. apply Hrep.
  - intros s m h st cs Hrep Hh. simpl.
    destruct (proj1 (im_sampling_update_spec s m h st cs Hrep) Hh) as (s'&->&_&Hget&_&Hacc).
    exists (im_sampling_data s !! h). eexists _, _. simpl. split; [|split; [exact Hget|]].
    + unfold im_get_sampling_metadata, im_contains_height.
      rewrite (ranges_dom_contains _ _ h (im_rep_ranges _ _ _ Hrep)), bool_decide_true by done.
      simpl. by destruct (im_sampling_data s !! h).
    + split; [done|]. split; [done|]. exact Hacc.
  - intros s m Hrep. destruct (im_remove_last_spec s m Hrep) as [?|(t&s'&?&?&Hrep'&Hsd&_)]; [by left|].
    right. exists t, s'. do 3 (split; [done|]). intros h Hh. simpl.
    unfold im_get_sampling_metadata, im_contains_height.
    rewrite (ranges_dom_contains _ _ h (im_rep_ranges _ _ _ Hrep')), bool_decide_true by done.
    destruct Hh as [e [Hne He]%lookup_delete_Some].
    rewrite (ranges_dom_contains _ _ h (im_rep_ranges _ _ _ Hrep)), bool_decide_true by eauto.
    by rewrite Hsd, lookup_delete_ne.
Defined.

(** An insertion does not touch the sampling data, whatever it answers. *)
Lemma im_insert_loop_sampling l s :
  im_sampling_data (im_insert_loop l s).2 = im_sampling_data s ∧
  im_accepted_sampling_ranges (im_insert_loop l s).2 = im_accepted_sampling_ranges s.
Proof.
  revert s; induction l as [|e l IH]; intros s; [done|]. cbn [im_insert_loop]. cbv zeta.
  do 2 (case_bool_decide; [done|]). by destruct (IH {|
    im_headers := <[eh_hash e := e]> (im_headers s);
    im_height_to_hash := <[eh_height e := eh_hash e]> (im_height_to_hash s);
    im_header_ranges := im_header_ranges s; im_sampling_data := im_sampling_data s;
    im_accepted_sampling_ranges := im_accepted_sampling_ranges s |}) as [-> ->].
Qed.

Lemma im_insert_sampling now s l :
  im_sampling_data (im_insert now s l).2 = im_sampling_data s ∧
  im_accepted_sampling_ranges (im_insert now s l).2 = im_accepted_sampling_ranges s.
Proof.
  unfold im_insert. destruct (verified_try_from now l) as [v| |]; [|done..].
  unfold im_inner_insert. destruct (head v), (last v); try done. cbv zeta.
  destruct (check_insertion_constraints _ _) as [[p n]| |]; [|done..].
  destruct (im_verify_against_neighbours _ _ _ _); [|done..].
  pose proof (im_insert_loop_sampling v s) as Hs.
  destruct (im_insert_loop v s) as [[] s']; [|done..]. by destruct (insert_relaxed _ _).
Qed.

(** The state of the abstract store that an in-memory store stands for. *)
Definition im_abs_rep (s : InMemoryStoreInner) (a : abs_store) : Prop :=
  im_rep valid s (ab_headers a) ∧ im_sampling_data s = ab_metadata a ∧
  ∀ h, in_ranges h (im_accepted_sampling_ranges s) ↔ h ∈ ab_accepted a.

#[global] Instance InMemoryStore_Refines : StoreRefines InMemoryStoreInner valid false.
Proof.
  refine {| abs_rep := im_abs_rep |}. intros s a op (Hrep&Hmd&Hacc) Hop.
  destruct op as [now l|h st cs|]; cbn [run_op op_result st_insert st_update_sampling_metadata
    st_remove_last InMemoryStore_Store].
  - destruct Hop as [Hval Hclock]. destruct (im_insert_sampling now s l) as [Hs1 Hs2].
    destruct (im_insert_spec now s _ l Hrep Hclock Hval) as [(Hr&Hi&Hrep')|[[e He] Hno]].
    + rewrite Hr. exists (abs_put_headers l a). split; [by constructor|].
      split; [done|]. by rewrite Hs1, Hs2.
    + rewrite He. exists a. by split; [constructor|].
  - destruct (decide (is_Some (ab_headers a !! h))) as [Hh|Hh%eq_None_not_Some].
    + destruct (im_update_spec s _ h st cs Hrep Hh) as (s'&->&Hrep'&Hsd&Hin).
      exists (abs_put_metadata h st cs a). split; [by constructor|]. split; [done|].
      split; [by cbn [snd]; rewrite Hsd, Hmd|]. by eapply accepted_put.
    + destruct (proj2 (im_sampling_update_spec s _ h st cs Hrep) Hh) as [-> _].
      exists a. by split; [constructor|].
  - destruct (im_remove_last_spec s _ Hrep) as [[Hemp ->]|(t&s'&->&Ht&Hrep'&Hsd&Ha)].
    + exists a. by split; [constructor|].
    + exists (abs_remove false t a). split; [by constructor|]. split; [done|].
      cbn [snd]. rewrite Hsd, Hmd, Ha. done.
Defined.

Lemma im_answers s a : im_abs_rep s a → store_answers (λ _, true) s a.
Proof.
  intros (Hrep&Hmd&Hacc). constructor.
  - intros h _. exact (spec_get_by_height _ _ h Hrep).
  - intros h _. exact (spec_has_at _ _ h Hrep).
  - intros h e He. exact (spec_get_by_hash _ _ h e Hrep He).
  - exact (spec_stored_ranges _ _ Hrep).
  - intros h _. cbn. unfold im_get_sampling_metadata, im_contains_height.
    rewrite (ranges_dom_contains _ _ h (im_rep_ranges _ _ _ Hrep)), Hmd.
    case_bool_decide; [|done]. cbn. by destruct (ab_metadata a !! h).
  - eexists. split; [done|]. split; [apply Hrep|done].
Qed.

(** ** Properties *)

(** C5. The in-memory store refines the abstract store of headers by height, sampling metadata
    by height and accepted heights.  Whatever sequence of insertions (of valid headers),
    sampling updates and removals is applied to the empty store, its answers are the answers
    of a run of the abstract store: an insertion answers [Ok] when exactly the given headers,
    a verified chain over free heights, were added, and an insertion error, with the state
    unchanged, only when they do not extend the stored chain; an update answers [Ok] when the
    metadata and the accepted heights were changed at a stored height, and [NotFound]
    otherwise; a removal answers the least stored height, which is removed with its metadata,
    or [NotFound] when nothing is stored.  In the state that is reached stored neighbours are
    hash-linked, and every read (by height, by hash, the head, the ranges, the metadata, the
    accepted ranges) answers from the abstract state. *)
Theorem inmemory_store_refines ops : Forall (op_valid valid) ops →
  let s := foldl run_op im_new ops in
  ∃ a, abs_run false abs_empty ops (op_results im_new ops) a ∧ store_ok valid (ab_headers a) ∧
    store_answers (λ _, true) s a ∧ head_answers s a.
Proof.
  intros Hops s. destruct (store_simulation valid false im_new abs_empty ops) as (a&Hrun&Hrep);
    [split; [apply im_rep_new|split; [done|]; intros h; cbn; rewrite in_ranges_nil; set_solver]|done|].
  exists a. split; [done|]. split; [apply Hrep|]. split; [by apply im_answers|].
  destruct Hrep as [Hrep _]. by eapply head_answers_spec.
Qed.

(** An insertion is all or nothing, and never panics: it either reports success,
    the headers are a verified chain over free heights, and the store is extended by
    exactly these headers; or it reports a non-fatal insertion error and the state is
    unchanged.  Headers that extend the stored chain (free heights that are a new head or
    touch a stored height, linked on both sides, not from the future) are never
    rejected. *)
Theorem inmemory_insert_atomic now s m l :
  im_rep valid s m → clock_ok now → Forall valid l →
  ((im_insert now s l).1 = Ok tt ∧ insertable m l ∧
     im_rep valid (im_insert now s l).2 (insert_all m l)) ∨
  ((∃ e, im_insert now s l = (Err (InsertionFailed e), s)) ∧ ¬ extends now m l).
Proof. apply im_insert_spec. Qed.

(** Sampling metadata: an update of a stored height succeeds, and the metadata read
    back has the new status and the old cids extended by the new ones without
    duplicates; other heights are untouched, and the accepted ranges change at this
    height only, holding it exactly when the status is [Accepted].  For a height that
    is not stored both calls report [NotFound]. *)
Theorem inmemory_sampling_update s m h st cs : im_rep valid s m →
  (is_Some (m !! h) → ∃ s', im_update_sampling_metadata s h st cs = (Ok tt, s') ∧
    im_rep valid s' m ∧
    im_get_sampling_metadata s' h
      = Ok (Some (updated_metadata (im_sampling_data s !! h) st cs)) ∧
    (∀ k, k ≠ h → im_get_sampling_metadata s' k = im_get_sampling_metadata s k) ∧
    ∀ k, in_ranges k (im_get_accepted_sampling_ranges s') ↔
      if bool_decide (k = h) then st = Accepted
      else in_ranges k (im_get_accepted_sampling_ranges s)) ∧
  (m !! h = None → im_update_sampling_metadata s h st cs = (Err NotFound, s) ∧
    im_get_sampling_metadata s h = Err NotFound).
Proof. apply im_sampling_update_spec. Qed.

End Rep.

End InMemoryStore.

(** ** Witnesses and counterexamples *)

#[local] Existing Instances toy_DahExternals toy_Tendermint toy_TendermintSpec.
#[local] Instance toy_validated : ValidHeaders validated :=
  validated_ValidHeaders enc_header_inj.

Lemma toy_1_validated : validated toy_1.
Proof. split; [vm_compute; reflexivity|done]. Qed.
Lemma toy_2_validated : validated toy_2.
Proof. split; [vm_compute; reflexivity|done]. Qed.
Lemma toy_3_validated : validated toy_3.
Proof. split; [vm_compute; reflexivity|done]. Qed.
Lemma toy_12_validated : Forall validated [toy_1; toy_2].
Proof. apply Forall_cons; split; [apply toy_1_validated|apply Forall_singleton, toy_2_validated]. Qed.
Definition toy_now (i : nat) : Z := 1000.
Lemma toy_clock_ok : clock_ok toy_now.
Proof. intros i. by eexists. Qed.

(** The second toy header with the block hash of the first. *)
Definition toy_2_bad : ExtendedHeader :=
  {| eh_header := eh_header toy_2;
     eh_commit := {| c_height := 2; c_round := 0; c_block_id := c_block_id (eh_commit toy_1);
       c_signatures := c_signatures (eh_commit toy_2) |};
     eh_validator_set := toy_valset; eh_dah := toy_dah |}.

(** With headers whose hashes repeat, a rejected insertion is not undone: the loop
    has already stored the headers before the offending one, so that [get_by_height]
    returns a header that the header ranges do not contain. *)
Theorem inmemory_insert_hash_exists_not_atomic :
  let '(r, s) := im_insert toy_now im_new [toy_1; toy_2_bad] in
  r = Err (InsertionFailed (HashExists (eh_hash toy_1))) ∧
  im_get_by_height s 1 = Ok toy_1 ∧ im_contains_height s 1 = false.
Proof. vm_compute. done. Qed.

(** Removing a header keeps its height among the accepted sampling ranges: after
    inserting a header, accepting it and removing it, the store is empty but still
    reports the height as accepted. *)
Theorem inmemory_remove_keeps_accepted :
  let s := foldl run_op im_new
    [OpInsert toy_now [toy_1]; OpUpdateSampling 1 Accepted []; OpRemoveLast] in
  im_get_stored_ranges s = [] ∧ im_get_accepted_sampling_ranges s = [1 ..= 1].
Proof. vm_compute. done. Qed.

Definition toy_ops : list store_op :=
  [OpInsert toy_now [toy_1; toy_2]; OpInsert toy_now [toy_3]; OpUpdateSampling 2 Accepted [toy_cid 1];
   OpRemoveLast].

Lemma toy_ops_valid : Forall (op_valid validated) toy_ops.
Proof.
  apply Forall_cons; split; [split; [exact toy_12_validated|exact toy_clock_ok]|].
  apply Forall_cons; split; [split; [apply Forall_singleton, toy_3_validated|exact toy_clock_ok]|].
  apply Forall_cons; split; [exact I|]. apply Forall_cons; split; [exact I|apply Forall_nil, I].
Qed.

(** The four operations answer [Ok], the last one with the removed height; the abstract store
    ends with the headers at 2 and 3, and with the metadata recorded at 2. *)
Lemma inmemory_store_refines_witness :
  let s := foldl run_op im_new toy_ops in
  ∃ a, abs_run false abs_empty toy_ops
      [RDone (Ok tt); RDone (Ok tt); RDone (Ok tt); RRemoved (Ok 1)] a ∧
    ab_headers a !! 1 = None ∧ ab_headers a !! 2 = Some toy_2 ∧ ab_headers a !! 3 = Some toy_3 ∧
    ab_metadata a !! 2 = Some {| status := Accepted; cids := [toy_cid 1] |} ∧ 2 ∈ ab_accepted a ∧
    store_answers (λ _, true) s a ∧ head_answers s a.
Proof.
  destruct (inmemory_store_refines validated toy_ops toy_ops_valid) as (a&Hrun&_&Hans&Hhead).
  assert (op_results im_new toy_ops = [RDone (Ok tt); RDone (Ok tt); RDone (Ok tt); RRemoved (Ok 1)])
    as Hres by (vm_compute; reflexivity).
  rewrite Hres in Hrun. exists a. split; [exact Hrun|].
  assert (∀ h r, st_get_by_height (foldl run_op im_new toy_ops) h = ok_or r NotFound → ab_headers a !! h = r) as Hget.
  { intros h r Hr. rewrite (sa_get_by_height _ _ _ Hans h eq_refl) in Hr. exact (ok_or_inj _ _ _ Hr). }
  assert (ab_headers a !! 2 = Some toy_2) as H2 by (apply Hget; vm_compute; reflexivity).
  split_and!; [apply Hget; vm_compute; reflexivity|exact H2|apply Hget; vm_compute; reflexivity|..|exact Hans|exact Hhead].
  - pose proof (sa_metadata _ _ _ Hans 2 eq_refl) as Hm. rewrite H2, bool_decide_true in Hm by by eexists.
    assert (st_get_sampling_metadata (foldl run_op im_new toy_ops) 2 =
      Ok (Some {| status := Accepted; cids := [toy_cid 1] |})) as Hv by (vm_compute; reflexivity).
    rewrite Hv in Hm. by injection Hm as <-.
  - destruct (sa_accepted_ranges _ _ _ Hans) as (rs&Hrs&_&Hin). apply Hin.
    assert (st_get_accepted_sampling_ranges (foldl run_op im_new toy_ops) = Ok [2 ..= 2]) as Hv by (vm_compute; reflexivity).
    rewrite Hv in Hrs. injection Hrs as <-. apply in_ranges_cons. left. unfold in_range. cbn. lia.
Defined.

Lemma toy_state_rep : im_rep validated (im_insert toy_now im_new [toy_1]).2 (insert_all ∅ [toy_1]).
Proof.
  destruct (im_insert_spec validated toy_now im_new ∅ [toy_1] (im_rep_new _) toy_clock_ok)
    as [(_&_&Hrep)|[[e He] _]]; [|exact Hrep|].
  - constructor; [apply toy_1_validated|constructor].
  - exfalso. apply (f_equal fst) in He. vm_compute in He. discriminate.
Qed.

Lemma inmemory_insert_atomic_witness :
  (im_insert toy_now im_new [toy_1; toy_2]).1 = Ok tt ∧
  im_rep validated (im_insert toy_now im_new [toy_1; toy_2]).2 (insert_all ∅ [toy_1; toy_2]).
Proof.
  destruct (inmemory_insert_atomic validated toy_now im_new ∅ [toy_1; toy_2] (im_rep_new _)
    toy_clock_ok) as [(H1&_&H2)|[[e He] _]].
  - exact toy_12_validated.
  - split; assumption.
  - exfalso. apply (f_equal fst) in He. vm_compute in He. discriminate.
Defined.

Lemma inmemory_sampling_update_witness :
  ∃ s', im_update_sampling_metadata (im_insert toy_now im_new [toy_1]).2 1 Accepted [toy_cid 5]
    = (Ok tt, s') ∧
  im_get_sampling_metadata s' 1 = Ok (Some {| status := Accepted; cids := [toy_cid 5] |}).
Proof.
  destruct (proj1 (inmemory_sampling_update validated _ _ 1 Accepted [toy_cid 5] toy_state_rep))
    as (s'&Hu&_&Hg&_).
  - eexists. reflexivity.
  - exists s'. split; [exact Hu|]. rewrite Hg. vm_compute. reflexivity.
Defined.
