(* ===== verification/StoreWait.v ===== *)
(** * Waiting on a store (src/node/src/store/: [wait_new_head], [wait_height] and the notifications
    of [insert])

    The waiting methods are the same in every store: they read the store, then loop over the
    notifications that [insert] sends after a successful write (Notify.v).  Writers and the waiter
    are tasks that interleave: a write is one step, the notification after it another.  One waiter
    is enough, as a notification reaches all of them alike.

    The theorems are proved against [StoreSpec], hence for every store with the contract.  The
    client is the sampling worker (daser.rs), which holds the future of [wait_new_head] across
    the turns of its loop. *)

From S2P Require Import Prelude Notify Consts BlockRanges Nmt Merkle Dah Header ShwapIds Store InMemoryStore.

Section StoreWait.
Context {S : Type} `{!Store S}.
(** Whether an insertion of no headers notifies: the browser store returns before. *)
Context (notifies_empty : bool).

(** ** Writers *)

(** A call of an operation of the store: before its write, after the write of an insertion that is
    going to notify, and after its end. *)
Inductive Writer := Todo (op : store_op) | Notifying | Finished.

Definition after_write (s : S) (op : store_op) : Writer :=
  match op with
  | OpInsert now l =>
      match (st_insert now s l).1 with
      | Ok _ => if notifies_empty || negb (bool_decide (l = [])) then Notifying else Finished
      | _ => Finished
      end
  | _ => Finished
  end.

(** ** Waiters *)

(** [self.head_height().await.unwrap_or(0)]. *)
Definition head_or_0 (s : S) : Z := match st_head_height s with Ok h => h | _ => 0 end.
Definition test_new_head (head : Z) (s : S) : option Z :=
  let new_head := head_or_0 s in if negb (head =? new_head) then Some new_head else None.
Definition test_height (height : Z) (s : S) : option unit := if st_has_at s height then Some tt else None.

(** The future of [wait_new_head] does nothing before it is polled; its first step reads the head. *)
Inductive HeadWaiter := Unpolled | Polled (head : Z) (l : Loop Z).
Definition wait_new_head_step (s : S) (w : HeadWaiter) : option HeadWaiter :=
  match w with
  | Unpolled => Some (Polled (head_or_0 s) Creating)
  | Polled head l => l' ← loop_step (test_new_head head s) l; Some (Polled head l')
  end.
Definition notify_head_waiter (w : HeadWaiter) : HeadWaiter :=
  match w with Unpolled => Unpolled | Polled head l => Polled head (notify_waiters l) end.
Definition wait_height_step (height : Z) (s : S) (l : Loop unit) : option (Loop unit) :=
  loop_step (test_height height s) l.

(** ** Interleaving *)

Section System.
Context {W : Type} (wait_step : S → W → option W) (notify : W → W).

Record System := { sy_store : S; sy_writers : list Writer; sy_waiter : W }.
Inductive Turn := Waits | Writes (i : nat).
Definition system_step (y : System) (t : Turn) : option System :=
  match t with
  | Waits => w ← wait_step (sy_store y) (sy_waiter y);
      Some {| sy_store := sy_store y; sy_writers := sy_writers y; sy_waiter := w |}
  | Writes i =>
      x ← sy_writers y !! i;
      match x with
      | Todo op => Some {| sy_store := run_op (sy_store y) op;
                           sy_writers := <[i := after_write (sy_store y) op]> (sy_writers y); sy_waiter := sy_waiter y |}
      | Notifying => Some {| sy_store := sy_store y; sy_writers := <[i := Finished]> (sy_writers y);
                             sy_waiter := notify (sy_waiter y) |}
      | Finished => None
      end
  end.
Inductive system_reachable (y0 : System) : System → Prop :=
| sys_start : system_reachable y0 y0
| sys_step y t y' : system_reachable y0 y → system_step y t = Some y' → system_reachable y0 y'.
(** Nobody can move. *)
Definition at_rest (y : System) : Prop := ∀ t, system_step y t = None.

Fixpoint system_run (y : System) (l : list Turn) : option System :=
  match l with [] => Some y | t :: l => y ← system_step y t; system_run y l end.
Lemma system_run_reachable y0 y l y' : system_reachable y0 y → system_run y l = Some y' → system_reachable y0 y'.
Proof.
  revert y; induction l as [|t l IH]; intros y Hy; cbn [system_run]; [by intros [= <-]|].
  destruct (system_step y t) as [y1|] eqn:E; [|done]. cbn [mbind option_bind]. apply IH. by apply (sys_step _ y t).
Qed.

(** At rest every call of the store has returned, and the waiter cannot move. *)
Lemma at_rest_writers y : at_rest y → Forall (λ x, x = Finished) (sy_writers y) ∧
  wait_step (sy_store y) (sy_waiter y) = None.
Proof.
  intros Hr. split.
  - apply Forall_forall. intros x [i Hi]%list_elem_of_lookup. specialize (Hr (Writes i)). cbn in Hr. rewrite Hi in Hr.
    by destruct x.
  - specialize (Hr Waits). cbn in Hr. by destruct (wait_step _ _).
Qed.

(** Every execution ends: a step makes what is left smaller. *)
Definition writer_weight (x : Writer) : nat := match x with Todo _ => 6 | Notifying => 5 | Finished => 0 end.
Fixpoint writers_weight (l : list Writer) : nat :=
  match l with [] => 0 | x :: l => writer_weight x + writers_weight l end.
Lemma writers_weight_insert l i x x' : l !! i = Some x →
  (writers_weight (<[i := x']> l) + writer_weight x = writers_weight l + writer_weight x')%nat.
Proof.
  revert i; induction l as [|y l IH]; intros [|i] Hi; [done|done| |].
  - injection Hi as ->. cbn [insert list_insert writers_weight]. lia.
  - specialize (IH i Hi). change (<[Datatypes.S i := x']> (y :: l)) with (y :: <[i := x']> l). cbn [writers_weight]. lia.
Qed.

Context (weight : W → nat).
Definition system_weight (y : System) : nat := writers_weight (sy_writers y) + weight (sy_waiter y).
Lemma system_step_weight y t y' :
  (∀ s w w', wait_step s w = Some w' → (weight w' < weight w)%nat) →
  (∀ w, (weight (notify w) ≤ weight w + 4)%nat) →
  system_step y t = Some y' → (system_weight y' < system_weight y)%nat.
Proof.
  intros Hw Hn. unfold system_weight. destruct t as [|i]; cbn [system_step].
  - destruct (wait_step _ _) as [w|] eqn:E; [|done]. apply Hw in E. intros [= <-]. cbn [sy_writers sy_waiter]. lia.
  - destruct (sy_writers y !! i) as [x|] eqn:Ei; [|done]. cbn [mbind option_bind].
    destruct x as [op| |]; intros Hs; [..|done]; injection Hs as <-; cbn [sy_writers sy_waiter].
    + pose proof (writers_weight_insert _ i _ (after_write (sy_store y) op) Ei) as Hi.
      assert (writer_weight (after_write (sy_store y) op) ≤ 5)%nat.
      { unfold after_write. repeat case_match; cbn; lia. }
      cbn [writer_weight] in Hi. lia.
    + pose proof (writers_weight_insert _ i _ Finished Ei) as Hi. pose proof (Hn (sy_waiter y)).
      cbn [writer_weight] in Hi. lia.
Qed.
End System.
End StoreWait.

(** ** Lemmas *)

Arguments System : clear implicits.

Section Lemmas.
Context `{!Tendermint} `{!DahExternals} {S : Type} `{!Store S}.
Context (valid : ExtendedHeader → Prop) `{!StoreSpec S valid} (notifies_empty : bool).

(** The height of the head, or zero. *)
Definition head_is (m : gmap Z ExtendedHeader) (t : Z) : Prop := (m = ∅ ∧ t = 0) ∨ is_head m t.
Lemma head_or_0_spec s m : store_rep s m → head_is m (head_or_0 s).
Proof.
  intros Hm. unfold head_or_0. destruct (spec_head_height s m Hm) as [[-> ->]|(t&->&Ht)]; [by left|by right].
Qed.
Lemma head_is_unique m t t' : head_is m t → head_is m t' → t = t'.
Proof.
  assert (∀ t, ¬ is_head (∅ : gmap Z ExtendedHeader) t) as Hn by (intros x [[e He] _]; by rewrite lookup_empty in He).
  intros [[-> ->]|Ht] [[? ->]|Ht']; [done|by apply Hn in Ht'|subst; by apply Hn in Ht|].
  destruct Ht as [Ht Hmax], Ht' as [Ht' Hmax']. apply Hmax' in Ht as ?. apply Hmax in Ht' as ?. lia.
Qed.
(** Removing the tail leaves the head, unless it was the only header. *)
Lemma head_is_delete m t h : is_tail m t → head_is m h → head_is (delete t m) h ∨ delete t m = ∅.
Proof.
  intros [[e He] Hmin] [[-> ->]|[Hh Hmax]]; [by rewrite lookup_empty in He|].
  destruct (decide (t = h)) as [->|Hne].
  - right. apply map_eq. intros k. rewrite lookup_empty. destruct (decide (k = h)) as [->|Hk]; [apply lookup_delete_eq|].
    rewrite lookup_delete_ne by done. apply eq_None_not_Some. intros Hs. apply Hmax in Hs as ?. apply Hmin in Hs. lia.
  - left. right. split; [by rewrite lookup_delete_ne|]. intros k [x Hx]. apply lookup_delete_Some in Hx as [_ Hx]. apply Hmax. by eexists.
Qed.

(** A write leaves the stored headers, is going to notify, or takes the tail out. *)
Lemma write_spec s m op : store_rep s m → op_valid valid op →
  ∃ m', store_rep (run_op s op) m' ∧
    (m' = m ∨ after_write notifies_empty s op = Notifying ∨ ∃ t, is_tail m t ∧ m' = delete t m).
Proof.
  intros Hm Hop. destruct op as [now l|h st cs|]; cbn [run_op after_write op_valid] in *.
  - destruct Hop as [Hl Hc]. destruct (spec_insert s m now l Hm Hl Hc) as [(->&_&Hr)|([e ->]&Hr&_)]; eexists; (split; [exact Hr|]).
    + destruct (decide (l = [])) as [->|Hne]; [by left|]. rewrite bool_decide_false by done. rewrite orb_true_r. auto.
    + by left.
  - exists m. split; [by apply spec_update_sampling|by left].
  - destruct (spec_remove_last s m Hm) as [[-> ->]|(t&s'&->&Ht&Hr&_)]; [exists ∅; by split; [|left]|].
    exists (delete t m). split; [done|]. right. right. by exists t.
Qed.

Section Generic.
Context {W : Type} (wait_step : S → W → option W) (notify : W → W).
(** The waiter awaits without having been notified; what it found when it came to do so. *)
Context (waiting : W → Prop) (quiet : W → gmap Z ExtendedHeader → Prop).
Context (Hwait : ∀ s m w w', store_rep s m → wait_step s w = Some w' → waiting w' → quiet w' m).
Context (Hnotify : ∀ w, ¬ waiting (notify w)).
Context (Hquiet : ∀ w m t, is_tail m t → quiet w m → quiet w (delete t m) ∨ delete t m = ∅).

Definition writer_ok (x : Writer) : Prop := match x with Todo op => op_valid valid op | _ => True end.
Definition system_inv (y : System S W) : Prop := ∃ m, store_rep (sy_store y) m ∧ Forall writer_ok (sy_writers y) ∧
  (waiting (sy_waiter y) → quiet (sy_waiter y) m ∨ Notifying ∈ sy_writers y ∨ m = ∅).

Lemma after_write_ok s op : writer_ok (after_write notifies_empty s op).
Proof. unfold after_write. by repeat case_match. Qed.

Lemma system_inv_step y t y' : system_inv y → system_step notifies_empty wait_step notify y t = Some y' → system_inv y'.
Proof.
  intros (m&Hm&Hok&Hq). destruct t as [|i]; cbn [system_step].
  { destruct (wait_step _ _) as [w|] eqn:Ew; [|done]. intros [= <-]. exists m. split_and!; [done..|]. cbn.
    intros Hw. left. by eapply Hwait. }
  destruct (sy_writers y !! i) as [x|] eqn:Ei; [|done]. cbn [mbind option_bind].
  assert (i < length (sy_writers y))%nat as Hi by by eapply lookup_lt_Some.
  rewrite Forall_lookup in Hok. pose proof (Hok _ _ Ei) as Hx.
  destruct x as [op| |]; intros Hs; [..|done]; injection Hs as <-.
  - destruct (write_spec _ _ op Hm Hx) as (m'&Hm'&Hor). exists m'. cbn [sy_store sy_writers sy_waiter]. split_and!; [done|..].
    { apply Forall_insert; [by apply Forall_lookup|apply after_write_ok]. }
    assert (Notifying ∈ sy_writers y → Notifying ∈ <[i := after_write notifies_empty (sy_store y) op]> (sy_writers y)) as Hkeep.
    { intros [j Hj]%list_elem_of_lookup. apply list_elem_of_lookup. exists j.
      rewrite list_lookup_insert_ne; [done|]. intros ->. congruence. }
    intros Hw. destruct Hor as [->|[->|(t&Ht&->)]].
    + destruct (Hq Hw) as [?|[?|?]]; auto.
    + right. left. apply list_elem_of_lookup. exists i. by apply list_lookup_insert_eq.
    + destruct (Hq Hw) as [Hqm|[?| ->]]; [destruct (Hquiet _ _ _ Ht Hqm); auto|auto|].
      destruct Ht as [[e He] _]. by rewrite lookup_empty in He.
  - exists m. cbn [sy_store sy_writers sy_waiter]. split_and!; [done| |].
    { apply Forall_insert; [by apply Forall_lookup|done]. }
    by intros []%Hnotify.
Qed.

Lemma system_inv_reachable y0 y : system_inv y0 → system_reachable notifies_empty wait_step notify y0 y → system_inv y.
Proof. intros Hinv. induction 1 as [|y t y' _ IH Hs]; [done|by eapply system_inv_step]. Qed.

(** No wakeup is lost: a waiter that still waits when everything rests has nothing to see. *)
Lemma rest_quiet y : system_inv y → at_rest notifies_empty wait_step notify y → waiting (sy_waiter y) →
  ∃ m, store_rep (sy_store y) m ∧ (quiet (sy_waiter y) m ∨ m = ∅).
Proof.
  intros (m&Hm&_&Hq) [Hf _]%at_rest_writers Hw. exists m. split; [done|].
  destruct (Hq Hw) as [?|[Hn|?]]; [by left| |by right]. rewrite Forall_forall in Hf. by apply Hf in Hn.
Qed.
End Generic.

(** *** The two waits *)

Definition new_head_system (s : S) (ops : list store_op) : System S HeadWaiter :=
  {| sy_store := s; sy_writers := Todo <$> ops; sy_waiter := Unpolled |}.
Definition height_system (s : S) (ops : list store_op) : System S (Loop unit) :=
  {| sy_store := s; sy_writers := Todo <$> ops; sy_waiter := Creating |}.
Definition head_weight (w : HeadWaiter) : nat := match w with Unpolled => 4 | Polled _ l => loop_weight l end.
#[local] Notation head_step := (system_step notifies_empty wait_new_head_step notify_head_waiter).
#[local] Notation height_step h := (system_step notifies_empty (wait_height_step h) notify_waiters).

Definition head_waiting (w : HeadWaiter) : Prop := ∃ head, w = Polled head (Awaiting false).
Definition head_quiet (w : HeadWaiter) (m : gmap Z ExtendedHeader) : Prop := ∃ head l, w = Polled head l ∧ head_is m head.

Lemma head_wait_quiet s m w w' : store_rep s m → wait_new_head_step s w = Some w' → head_waiting w' → head_quiet w' m.
Proof.
  intros Hm Hs [head ->]. destruct w as [|head' l]; [done|]. cbn in Hs.
  destruct (loop_step _ _) as [l'|] eqn:El; [|done]. injection Hs as -> ->. apply loop_waits in El.
  exists head, (Awaiting false). split; [done|]. unfold test_new_head in El.
  destruct (head =? head_or_0 s) eqn:E; [|done]. apply Z.eqb_eq in E. rewrite E. by apply head_or_0_spec.
Qed.
Lemma head_notify_waiting w : ¬ head_waiting (notify_head_waiter w).
Proof. destruct w as [|h l]; intros [head Hw]; [done|]. injection Hw as -> Hl. by apply notify_not_waiting in Hl. Qed.
Lemma head_quiet_delete w m t : is_tail m t → head_quiet w m → head_quiet w (delete t m) ∨ delete t m = ∅.
Proof. intros Ht (head&l&->&Hh). destruct (head_is_delete _ _ _ Ht Hh); [left; by exists head, l|by right]. Qed.
Lemma todo_ok ops : Forall (op_valid valid) ops → Forall writer_ok (Todo <$> ops).
Proof. intros Hops. by apply Forall_fmap. Qed.

(** C30. [wait_new_head] misses no new head, however the writes of other tasks, their notifications and
    its own steps interleave.  Only finitely many steps are left; it returns the height of the
    head that is stored when it looks, and that differs from the one it read first; and when
    everything rests it has returned, or the store still has (or has again) the head it read
    first, or all headers have been removed. *)
Theorem wait_new_head_correct s m ops y : store_rep s m → Forall (op_valid valid) ops →
  system_reachable notifies_empty wait_new_head_step notify_head_waiter (new_head_system s ops) y →
  (∀ t y', head_step y t = Some y' → (system_weight head_weight y' < system_weight head_weight y)%nat) ∧
  (∀ y' head v, head_step y Waits = Some y' → sy_waiter y' = Polled head (Returned v) →
     v = head_or_0 (sy_store y) ∧ v ≠ head) ∧
  (at_rest notifies_empty wait_new_head_step notify_head_waiter y → ∃ m', store_rep (sy_store y) m' ∧
     ∃ head, (∃ v, sy_waiter y = Polled head (Returned v)) ∨
       sy_waiter y = Polled head (Awaiting false) ∧ (head_is m' head ∨ m' = ∅)).
Proof.
  intros Hm Hops Hreach.
  assert (system_inv head_waiting head_quiet y) as Hinv.
  { eapply (system_inv_reachable _ _ head_waiting head_quiet);
      [exact head_wait_quiet|exact head_notify_waiting|exact head_quiet_delete| |exact Hreach].
    exists m. split_and!; [done|by apply todo_ok|by intros [? ?]]. }
  split_and!.
  - intros t y'. apply system_step_weight.
    + intros s' w w'. destruct w as [|h l]; cbn; [intros [= <-]; cbn; lia|].
      destruct (loop_step _ _) as [l'|] eqn:El; [|done]. intros [= <-]. by apply loop_step_weight in El.
    + intros [|h l]; cbn; [lia|apply notify_weight].
  - intros y' head v Hs Hv. cbn [system_step] in Hs. destruct (wait_new_head_step _ _) as [w|] eqn:Ew; [|done].
    injection Hs as <-. cbn in Hv. subst w. destruct (sy_waiter y) as [|h l]; [done|]. cbn in Ew.
    destruct (loop_step _ _) as [l'|] eqn:El; [|done]. injection Ew as -> ->. apply loop_returns in El.
    unfold test_new_head in El. destruct (Z.eqb_spec head (head_or_0 (sy_store y))); [done|].
    injection El as <-. split; [done|]. auto.
  - intros Hrest. pose proof (at_rest_writers _ _ _ _ Hrest) as [_ Hstuck].
    destruct (sy_waiter y) as [|h l] eqn:Ew; [done|]. cbn in Hstuck.
    destruct (loop_step _ _) as [l'|] eqn:El; [done|]. apply loop_stuck in El as [->|[v ->]].
    + destruct (rest_quiet _ _ head_waiting head_quiet y Hinv Hrest) as (m'&Hm'&Hq); [rewrite Ew; by exists h|].
      exists m'. split; [done|]. exists h. right. split; [done|]. destruct Hq as [(h'&l'&Hw&Hh)|?]; [|by right].
      rewrite Ew in Hw. injection Hw as -> _. by left.
    + destruct Hinv as (m'&Hm'&_). exists m'. split; [done|]. exists h. left. by exists v.
Qed.

(** [wait_height] misses no height: it returns only when the height is stored, and when
    everything rests it has returned, or the height is not stored. *)
Theorem wait_height_correct height s m ops y : store_rep s m → Forall (op_valid valid) ops →
  system_reachable notifies_empty (wait_height_step height) notify_waiters (height_system s ops) y →
  (∀ t y', height_step height y t = Some y' → (system_weight loop_weight y' < system_weight loop_weight y)%nat) ∧
  (∀ y', height_step height y Waits = Some y' → sy_waiter y' = Returned tt → st_has_at (sy_store y) height = true) ∧
  (at_rest notifies_empty (wait_height_step height) notify_waiters y →
     sy_waiter y = Returned tt ∨ st_has_at (sy_store y) height = false).
Proof.
  intros Hm Hops Hreach.
  set (quiet := λ (_ : Loop unit) (m : gmap Z ExtendedHeader), m !! height = None).
  assert (system_inv (λ l : Loop unit, l = Awaiting false) quiet y) as Hinv.
  { eapply (system_inv_reachable _ _ (λ l : Loop unit, l = Awaiting false) quiet); [| | | |exact Hreach].
    - intros s' m' w w' Hm' Hs ->. apply loop_waits in Hs. unfold test_height in Hs. rewrite (spec_has_at _ _ _ Hm') in Hs.
      case_bool_decide as Hh; [done|]. by apply eq_None_not_Some.
    - exact notify_not_waiting.
    - intros w m' t _ Hq. left. unfold quiet in *. by rewrite lookup_delete_None; right.
    - exists m. split_and!; [done|by apply todo_ok|done]. }
  split_and!.
  - intros t y'. apply system_step_weight; [intros s' w w'; apply loop_step_weight|apply notify_weight].
  - intros y' Hs Hv. cbn [system_step] in Hs. destruct (wait_height_step _ _ _) as [w|] eqn:Ew; [|done].
    injection Hs as <-. cbn in Hv. subst w. apply loop_returns in Ew. unfold test_height in Ew. by case_match.
  - intros Hrest. pose proof (at_rest_writers _ _ _ _ Hrest) as [_ Hstuck].
    apply loop_stuck in Hstuck as [Hw|[[] Hw]]; [|by left]. right.
    destruct (rest_quiet _ _ _ quiet y Hinv Hrest Hw) as (m'&Hm'&Hq).
    rewrite (spec_has_at _ _ _ Hm'). apply bool_decide_false. rewrite <-eq_None_not_Some.
    destruct Hq as [Hq| ->]; [exact Hq|apply lookup_empty].
Qed.

(** The future of [wait_new_head] reads the head when it is first polled, not when it is made.
    The sampling worker makes it, reads the store ([populate_queue]), schedules, and polls it
    last: headers that are inserted in between are neither read nor announced.  The wait rests
    although the head is a new one. *)
Theorem new_head_missed now s l s' : st_insert now s l = (Ok tt, s') →
  ∃ y, system_reachable notifies_empty wait_new_head_step notify_head_waiter (new_head_system s [OpInsert now l]) y ∧
    at_rest notifies_empty wait_new_head_step notify_head_waiter y ∧
    sy_store y = s' ∧ sy_waiter y = Polled (head_or_0 s') (Awaiting false).
Proof.
  intros Hins. exists {| sy_store := s'; sy_writers := [Finished]; sy_waiter := Polled (head_or_0 s') (Awaiting false) |}.
  assert (∀ t, test_new_head (head_or_0 t) t = None) as Htest by (intros t; unfold test_new_head; by rewrite Z.eqb_refl).
  split_and!; [|by intros [|[|i]]|done|done].
  destruct (notifies_empty || negb (bool_decide (l = []))) eqn:Hn.
  - apply (system_run_reachable _ _ _ _ (new_head_system s [OpInsert now l]) [Writes 0; Writes 0; Waits; Waits; Waits]); [constructor|].
    cbn. rewrite Hins. cbn. rewrite Hn. cbn. by rewrite Htest.
  - apply (system_run_reachable _ _ _ _ (new_head_system s [OpInsert now l]) [Writes 0; Waits; Waits; Waits]); [constructor|].
    cbn. rewrite Hins. cbn. rewrite Hn. cbn. by rewrite Htest.
Qed.

(** A wait that was polled before the insertion sees it. *)
Lemma new_head_seen now s l s' : st_insert now s l = (Ok tt, s') → l ≠ [] → head_or_0 s ≠ head_or_0 s' →
  system_reachable notifies_empty wait_new_head_step notify_head_waiter (new_head_system s [OpInsert now l])
    {| sy_store := s'; sy_writers := [Finished]; sy_waiter := Polled (head_or_0 s) (Returned (head_or_0 s')) |}.
Proof.
  intros Hins Hl Hne. apply (system_run_reachable _ _ _ _ (new_head_system s [OpInsert now l])
    [Waits; Waits; Waits; Writes 0; Writes 0; Waits; Waits; Waits]); [constructor|].
  cbn. unfold test_new_head. rewrite Z.eqb_refl. cbn. rewrite Hins, (bool_decide_false (l = [])), orb_true_r by done. cbn.
  unfold test_new_head. by rewrite (proj2 (Z.eqb_neq _ _) Hne).
Qed.
(** A height is seen before the notification of its insertion. *)
Lemma height_written now s l s' height : st_insert now s l = (Ok tt, s') → l ≠ [] →
  system_reachable notifies_empty (wait_height_step height) notify_waiters (height_system s [OpInsert now l])
    {| sy_store := s'; sy_writers := [Notifying]; sy_waiter := Testing false |}.
Proof.
  intros Hins Hl. apply (system_run_reachable _ _ _ _ (height_system s [OpInsert now l]) [Waits; Writes 0]); [constructor|].
  cbn. by rewrite Hins, (bool_decide_false (l = [])), orb_true_r by done.
Qed.
End Lemmas.

(** ** Concrete executions *)

#[local] Existing Instances toy_DahExternals toy_Tendermint toy_TendermintSpec toy_validated.

(** A store with one header, and one that got a second. *)
Definition toy_before : InMemoryStoreInner := (im_insert toy_now im_new [toy_1]).2.
Definition toy_after : InMemoryStoreInner := (im_insert toy_now toy_before [toy_2]).2.
Definition toy_insert : list store_op := [OpInsert toy_now [toy_2]].

Lemma toy_before_rep : store_rep (valid := validated) toy_before (insert_all ∅ [toy_1]).
Proof. exact toy_state_rep. Qed.
Lemma toy_insert_valid : Forall (op_valid validated) toy_insert.
Proof. apply Forall_singleton. split; [apply Forall_singleton, toy_2_validated|exact toy_clock_ok]. Qed.
Lemma toy_inserted : st_insert toy_now toy_before [toy_2] = (Ok tt, toy_after).
Proof.
  assert ((st_insert toy_now toy_before [toy_2]).1 = Ok tt) as H1 by (vm_compute; reflexivity).
  rewrite (surjective_pairing (st_insert toy_now toy_before [toy_2])), H1. reflexivity.
Qed.

Lemma toy_heads : head_or_0 toy_before = 1 ∧ head_or_0 toy_after = 2.
Proof. split; vm_compute; reflexivity. Qed.
Definition toy_woken : System InMemoryStoreInner HeadWaiter :=
  {| sy_store := toy_after; sy_writers := [Finished]; sy_waiter := Polled 1 (Returned 2) |}.
Lemma toy_woken_reachable :
  system_reachable true wait_new_head_step notify_head_waiter (new_head_system toy_before toy_insert) toy_woken.
Proof.
  pose proof (new_head_seen true toy_now toy_before [toy_2] toy_after toy_inserted) as Hseen.
  rewrite (proj1 toy_heads), (proj2 toy_heads) in Hseen. by apply Hseen.
Qed.
Lemma wait_new_head_correct_witness : ∃ m', store_rep (valid := validated) toy_after m' ∧
  ∃ head, (∃ v, sy_waiter toy_woken = Polled head (Returned v)) ∨
    sy_waiter toy_woken = Polled head (Awaiting false) ∧ (head_is m' head ∨ m' = ∅).
Proof.
  apply (wait_new_head_correct validated true toy_before (insert_all ∅ [toy_1]) toy_insert toy_woken
    toy_before_rep toy_insert_valid toy_woken_reachable).
  intros [|[|i]]; reflexivity.
Defined.

Lemma wait_height_correct_witness : st_has_at toy_after 2 = true.
Proof.
  refine (proj1 (proj2 (wait_height_correct validated true 2 toy_before (insert_all ∅ [toy_1]) toy_insert
    {| sy_store := toy_after; sy_writers := [Notifying]; sy_waiter := Testing false |}
    toy_before_rep toy_insert_valid (height_written true toy_now toy_before [toy_2] toy_after 2 toy_inserted _)))
    {| sy_store := toy_after; sy_writers := [Notifying]; sy_waiter := Returned tt |} _ eq_refl); [discriminate|].
  assert (st_has_at toy_after 2 = true) as Hat by (vm_compute; reflexivity).
  unfold system_step, wait_height_step, test_height, sy_store, sy_waiter. rewrite Hat. reflexivity.
Defined.

Lemma new_head_missed_witness : head_or_0 toy_before = 1 ∧ head_or_0 toy_after = 2 ∧
  ∃ y, system_reachable true wait_new_head_step notify_head_waiter (new_head_system toy_before toy_insert) y ∧
    at_rest true wait_new_head_step notify_head_waiter y ∧
    sy_store y = toy_after ∧ sy_waiter y = Polled (head_or_0 toy_after) (Awaiting false).
Proof.
  split; [exact (proj1 toy_heads)|]. split; [exact (proj2 toy_heads)|].
  apply (new_head_missed true toy_now toy_before [toy_2] toy_after toy_inserted).
Defined.
