(* ===== verification/RedbStore.v ===== *)
(** * The persistent store (src/node/src/store/redb_store.rs)

    The tables of the redb database and the operations on them, each in one
    transaction: a write transaction that returns an error leaves the database as it
    was, and a panic of the closure surfaces as [ExecutorError].  Failures of the
    database itself (I/O) are not modelled, so [FatalDatabaseError] never occurs.  The
    store is shown to satisfy [StoreSpec], like the in-memory one. *)

From S2P Require Import Prelude Consts BlockRanges Nmt Merkle Dah Header ShwapIds Store.

(** ** Encoding of sampling metadata: protobuf, external *)

Class StoreCodec := {
  sm_encode : SamplingMetadata → bytes;
  sm_decode : bytes → option SamplingMetadata
}.
Class StoreCodecSpec `{StoreCodec} := {
  sm_decode_encode md : sm_decode (sm_encode md) = Some md
}.

(** ** Data *)

(** The keys of [RANGES_TABLE]. *)
Inductive RangesKey := HEADER_RANGES_KEY | ACCEPTED_SAMPING_RANGES_KEY.
#[global] Instance RangesKey_eq_dec : EqDecision RangesKey.
Proof. solve_decision. Defined.
#[global] Instance RangesKey_countable : Countable RangesKey.
Proof.
  apply (inj_countable' (λ k, match k with HEADER_RANGES_KEY => true | _ => false end)
    (λ b : bool, if b then HEADER_RANGES_KEY else ACCEPTED_SAMPING_RANGES_KEY)). by intros [].
Defined.

(** The tables; [rd_height_ranges_v1] is the table of schema version 1, with its keys. *)
Record RedbTables := {
  rd_heights : gmap bytes Z;
  rd_headers : gmap Z bytes;
  rd_sampling_metadata : gmap Z bytes;
  rd_schema_version : option Z;
  rd_ranges : gmap RangesKey (list (Z * Z));
  rd_height_ranges_v1 : list (Z * (Z * Z))
}.

Definition SCHEMA_VERSION : Z := 2.

Definition rd_empty : RedbTables :=
  {| rd_heights := ∅; rd_headers := ∅; rd_sampling_metadata := ∅; rd_schema_version := None;
     rd_ranges := ∅; rd_height_ranges_v1 := [] |}.

Definition set_rd_heights (f : gmap bytes Z → gmap bytes Z) (db : RedbTables) : RedbTables :=
  {| rd_heights := f (rd_heights db); rd_headers := rd_headers db;
     rd_sampling_metadata := rd_sampling_metadata db; rd_schema_version := rd_schema_version db;
     rd_ranges := rd_ranges db; rd_height_ranges_v1 := rd_height_ranges_v1 db |}.
Definition set_rd_headers (f : gmap Z bytes → gmap Z bytes) (db : RedbTables) : RedbTables :=
  {| rd_heights := rd_heights db; rd_headers := f (rd_headers db);
     rd_sampling_metadata := rd_sampling_metadata db; rd_schema_version := rd_schema_version db;
     rd_ranges := rd_ranges db; rd_height_ranges_v1 := rd_height_ranges_v1 db |}.
Definition set_rd_sampling (f : gmap Z bytes → gmap Z bytes) (db : RedbTables) : RedbTables :=
  {| rd_heights := rd_heights db; rd_headers := rd_headers db;
     rd_sampling_metadata := f (rd_sampling_metadata db); rd_schema_version := rd_schema_version db;
     rd_ranges := rd_ranges db; rd_height_ranges_v1 := rd_height_ranges_v1 db |}.

(** ** Transactions *)

Definition read_tx {A} (db : RedbTables) (f : RedbTables → res StoreError A) : res StoreError A :=
  match f db with Panic => Err ExecutorError | r => r end.

Definition write_tx {A} (db : RedbTables) (f : RedbTables → res StoreError (A * RedbTables))
    : res StoreError A * RedbTables :=
  match f db with
  | Ok (a, db') => (Ok a, db')
  | Err e => (Err e, db)
  | Panic => (Err ExecutorError, db)
  end.

(** ** Helpers on tables *)

Definition get_ranges (db : RedbTables) (name : RangesKey) : res StoreError BlockRanges :=
  let raw_ranges := default [] (ranges_of_raw <$> rd_ranges db !! name) in
  map_err (λ _, StoredDataError) (from_vec raw_ranges).

Definition set_ranges (name : RangesKey) (ranges : BlockRanges) (db : RedbTables) : RedbTables :=
  {| rd_heights := rd_heights db; rd_headers := rd_headers db;
     rd_sampling_metadata := rd_sampling_metadata db; rd_schema_version := rd_schema_version db;
     rd_ranges := <[name := raw_of_ranges ranges]> (rd_ranges db);
     rd_height_ranges_v1 := rd_height_ranges_v1 db |}.

Definition get_height (db : RedbTables) (key : bytes) : res StoreError Z :=
  ok_or (rd_heights db !! key) NotFound.

Section RedbStore.
Context `{Tendermint} `{DahExternals} `{StoreCodec}.

Definition deserialize_extended_header (b : bytes) : res StoreError ExtendedHeader :=
  ok_or (eh_decode b) StoredDataError.
Definition deserialize_sampling_metadata (b : bytes) : res StoreError SamplingMetadata :=
  ok_or (sm_decode b) StoredDataError.

Definition get_header (db : RedbTables) (key : Z) : res StoreError ExtendedHeader :=
  serialized ← ok_or (rd_headers db !! key) NotFound;
  deserialize_extended_header serialized.

Definition get_sampling_metadata (db : RedbTables) (key : Z)
    : res StoreError (option SamplingMetadata) :=
  match rd_sampling_metadata db !! key with
  | None => Ok None
  | Some b => Some <$> deserialize_sampling_metadata b
  end.

(** ** Opening *)

(** [migrate_v1_to_v2]: the old table in the order of its keys. *)
Definition migrate_v1_to_v2 (db : RedbTables) : RedbTables :=
  if bool_decide (rd_schema_version db = Some 1) then
    {| rd_heights := rd_heights db; rd_headers := rd_headers db;
       rd_sampling_metadata := rd_sampling_metadata db; rd_schema_version := Some 2;
       rd_ranges := <[HEADER_RANGES_KEY := snd <$> rd_height_ranges_v1 db]> (rd_ranges db);
       rd_height_ranges_v1 := [] |}
  else db.

(** [RedbStore::new]; every error is reported as [OpenFailed]. *)
Definition rd_new (db : RedbTables) : res StoreError unit * RedbTables :=
  match write_tx db (λ db,
    db ← match rd_schema_version db with
         | Some schema_version =>
             if SCHEMA_VERSION <? schema_version then Err OpenFailed
             else Ok (migrate_v1_to_v2 db)
         | None =>
             Ok {| rd_heights := rd_heights db; rd_headers := rd_headers db;
                   rd_sampling_metadata := rd_sampling_metadata db;
                   rd_schema_version := Some SCHEMA_VERSION;
                   rd_ranges := rd_ranges db; rd_height_ranges_v1 := rd_height_ranges_v1 db |}
         end;
    if bool_decide (rd_schema_version db = Some SCHEMA_VERSION) then Ok (tt, db) else Panic) with
  | (Ok _, db) => (Ok tt, db)
  | (_, db) => (Err OpenFailed, db)
  end.

(** ** Reads *)

Definition rd_head_height (db : RedbTables) : res StoreError Z :=
  read_tx db (λ db,
    header_ranges ← get_ranges db HEADER_RANGES_KEY;
    ok_or (ranges_head header_ranges) NotFound).

Definition rd_get_by_hash (db : RedbTables) (hash : Hash) : res StoreError ExtendedHeader :=
  read_tx db (λ db, height ← get_height db (hash_as_bytes hash); get_header db height).

Definition rd_get_by_height (db : RedbTables) (height : Z) : res StoreError ExtendedHeader :=
  read_tx db (λ db, get_header db height).

Definition rd_get_head (db : RedbTables) : res StoreError ExtendedHeader :=
  read_tx db (λ db,
    header_ranges ← get_ranges db HEADER_RANGES_KEY;
    head ← ok_or (ranges_head header_ranges) NotFound;
    get_header db head).

Definition rd_contains_hash (db : RedbTables) (hash : Hash) : bool :=
  match read_tx db (λ db,
    height ← get_height db (hash_as_bytes hash);
    Ok (bool_decide (is_Some (rd_headers db !! height)))) with
  | Ok b => b | _ => false end.

Definition rd_contains_height (db : RedbTables) (height : Z) : bool :=
  match read_tx db (λ db, Ok (bool_decide (is_Some (rd_headers db !! height)))) with
  | Ok b => b | _ => false end.

Definition rd_get_sampling_metadata (db : RedbTables) (height : Z)
    : res StoreError (option SamplingMetadata) :=
  read_tx db (λ db,
    if bool_decide (rd_headers db !! height = None) then Err NotFound
    else get_sampling_metadata db height).

Definition rd_get_stored_ranges (db : RedbTables) : res StoreError BlockRanges :=
  read_tx db (λ db, get_ranges db HEADER_RANGES_KEY).
Definition rd_get_sampling_ranges (db : RedbTables) : res StoreError BlockRanges :=
  read_tx db (λ db, get_ranges db ACCEPTED_SAMPING_RANGES_KEY).

(** ** Writes *)

Definition rd_get_neighbour (db : RedbTables) (height : Z) : res StoreError ExtendedHeader :=
  match get_header db height with Err NotFound => Err StoredDataError | r => r end.

Definition rd_verify_against_neighbours (now : nat → Z) (db : RedbTables)
    (lowest_header highest_header : option ExtendedHeader) : res StoreError unit :=
  verify_against_neighbours (rd_get_neighbour db) now lowest_header highest_header.

Fixpoint rd_insert_loop (headers : list ExtendedHeader) (db : RedbTables)
    : res StoreError RedbTables :=
  match headers with
  | [] => Ok db
  | header :: headers =>
      let height := eh_height header in
      let hash := eh_hash header in
      let serialized_header := eh_encode header in
      if bool_decide (is_Some (rd_headers db !! height)) then Err StoredDataError else
      let db := set_rd_headers (insert height serialized_header) db in
      if bool_decide (is_Some (rd_heights db !! hash_as_bytes hash))
      then Err (InsertionFailed (HashExists hash)) else
      let db := set_rd_heights (insert (hash_as_bytes hash) height) db in
      rd_insert_loop headers db
  end.

Definition rd_insert_tx (now : nat → Z) (headers : list ExtendedHeader) (db : RedbTables)
    : res StoreError (unit * RedbTables) :=
  match head headers, last headers with
  | Some hd, Some tl =>
      header_ranges ← get_ranges db HEADER_RANGES_KEY;
      let headers_range := eh_height hd ..= eh_height tl in
      '(prev_exists, next_exists) ←
        map_err (λ e, InsertionFailed (ContraintsNotMet e))
          (check_insertion_constraints header_ranges headers_range);
      _ ← rd_verify_against_neighbours now db
            (if prev_exists : bool then Some hd else None)
            (if next_exists : bool then Some tl else None);
      db ← rd_insert_loop headers db;
      header_ranges ← expect_ok (insert_relaxed header_ranges headers_range);
      Ok (tt, set_ranges HEADER_RANGES_KEY header_ranges db)
  | _, _ => Ok (tt, db)
  end.

Definition rd_insert (now : nat → Z) (db : RedbTables) (headers : list ExtendedHeader)
    : res StoreError unit * RedbTables :=
  match verified_try_from now headers with
  | Panic => (Panic, db)
  | Err e => (Err (InsertionFailed (HeadersVerificationFailed e)), db)
  | Ok verified => write_tx db (rd_insert_tx (λ i, now (length headers + i)%nat) verified)
  end.

Definition rd_update_sampling_metadata (db : RedbTables) (height : Z) (st : SamplingStatus)
    (cs : list Cid) : res StoreError unit * RedbTables :=
  write_tx db (λ db,
    header_ranges ← get_ranges db HEADER_RANGES_KEY;
    sampling_ranges ← get_ranges db ACCEPTED_SAMPING_RANGES_KEY;
    if negb (ranges_contains header_ranges height) then Err NotFound else
    previous ← get_sampling_metadata db height;
    let entry :=
      match previous with
      | Some previous => {| status := st; cids := merge_cids (cids previous) cs |}
      | None => {| status := st; cids := cs |}
      end in
    let serialized := sm_encode entry in
    let db := set_rd_sampling (insert height serialized) db in
    sampling_ranges ← expect_ok
      match st with
      | Accepted => insert_relaxed sampling_ranges (height ..= height)
      | _ => remove_relaxed sampling_ranges (height ..= height)
      end;
    Ok (tt, set_ranges ACCEPTED_SAMPING_RANGES_KEY sampling_ranges db)).

Definition rd_remove_last (db : RedbTables) : res StoreError Z * RedbTables :=
  write_tx db (λ db,
    header_ranges ← get_ranges db HEADER_RANGES_KEY;
    '(popped, header_ranges) ← expect_ok (pop_tail header_ranges);
    height ← ok_or popped NotFound;
    let db := set_ranges HEADER_RANGES_KEY header_ranges db in
    header ← ok_or (rd_headers db !! height) StoredDataError;
    let db := set_rd_headers (delete height) db in
    decoded ← ok_or (eh_decode header) StoredDataError;
    let hash := hash_as_bytes (eh_hash decoded) in
    if bool_decide (rd_heights db !! hash = None) then Err StoredDataError else
    Ok (height, set_rd_heights (delete hash) db)).

#[global] Instance RedbStore_Store : Store RedbTables := {|
  st_get_head := rd_get_head;
  st_get_by_hash := rd_get_by_hash;
  st_get_by_height := rd_get_by_height;
  st_head_height := rd_head_height;
  st_has := rd_contains_hash;
  st_has_at := rd_contains_height;
  st_update_sampling_metadata := rd_update_sampling_metadata;
  st_get_sampling_metadata := rd_get_sampling_metadata;
  st_insert := rd_insert;
  st_get_stored_header_ranges := rd_get_stored_ranges;
  st_get_accepted_sampling_ranges := rd_get_sampling_ranges;
  st_remove_last := rd_remove_last
|}.

(** ** The invariant *)

Record rd_rep (valid : ExtendedHeader → Prop) (db : RedbTables)
    (m : gmap Z ExtendedHeader) : Prop := {
  rd_rep_ok : store_ok valid m;
  rd_rep_ranges : ∃ rs, default [] (ranges_of_raw <$> rd_ranges db !! HEADER_RANGES_KEY) = rs ∧
    ranges_dom rs m;
  rd_rep_headers : rd_headers db = eh_encode <$> m;
  rd_rep_heights b h : rd_heights db !! b = Some h ↔
    ∃ e, m !! h = Some e ∧ hash_as_bytes (eh_hash e) = b;
  rd_rep_accepted : canonical
    (default [] (ranges_of_raw <$> rd_ranges db !! ACCEPTED_SAMPING_RANGES_KEY));
  rd_rep_sampling h b : rd_sampling_metadata db !! h = Some b → ∃ md, b = sm_encode md
}.

(** ** Lemmas *)

(** Canonical stored ranges are read back. *)
Lemma get_ranges_canonical db name :
  canonical (default [] (ranges_of_raw <$> rd_ranges db !! name)) →
  get_ranges db name = Ok (default [] (ranges_of_raw <$> rd_ranges db !! name)).
Proof. intros Hc. unfold get_ranges. by rewrite from_vec_sorted by by apply canonical_sorted. Qed.

Section Rep.
Context (valid : ExtendedHeader → Prop) `{!ValidHeaders valid} `{!TendermintSpec} `{!StoreCodecSpec}.

Lemma rd_ranges_spec db m : rd_rep valid db m →
  ∃ rs, get_ranges db HEADER_RANGES_KEY = Ok rs ∧ ranges_dom rs m.
Proof.
  intros Hrep. destruct (rd_rep_ranges _ _ _ Hrep) as (rs&Hrs&Hdom). exists rs. split; [|done].
  rewrite get_ranges_canonical; rewrite Hrs; [done|apply Hdom].
Qed.

Lemma rd_accepted_spec db m : rd_rep valid db m →
  ∃ rs, get_ranges db ACCEPTED_SAMPING_RANGES_KEY = Ok rs ∧ canonical rs.
Proof.
  intros Hrep. eexists. split; [apply get_ranges_canonical|]; apply (rd_rep_accepted _ _ _ Hrep).
Qed.

Lemma rd_get_header_spec db m h : rd_rep valid db m →
  get_header db h = ok_or (m !! h) NotFound.
Proof.
  intros Hrep. unfold get_header. rewrite (rd_rep_headers _ _ _ Hrep), lookup_fmap.
  destruct (m !! h) as [e|]; [|done]. simpl. unfold deserialize_extended_header.
  by rewrite eh_decode_encode.
Qed.

Lemma rd_get_neighbour_spec db m h e : rd_rep valid db m → m !! h = Some e →
  rd_get_neighbour db h = Ok e.
Proof. intros Hrep E. unfold rd_get_neighbour. by rewrite (rd_get_header_spec _ m), E. Qed.

Lemma rd_headers_lookup db m h : rd_rep valid db m →
  bool_decide (is_Some (rd_headers db !! h)) = bool_decide (is_Some (m !! h)).
Proof.
  intros Hrep. rewrite (rd_rep_headers _ _ _ Hrep), lookup_fmap.
  apply bool_decide_ext. by rewrite fmap_is_Some.
Qed.

Lemma rd_get_metadata_total db m h : rd_rep valid db m →
  ∃ md, get_sampling_metadata db h = Ok md ∧
    rd_sampling_metadata db !! h = sm_encode <$> md.
Proof.
  intros Hrep. unfold get_sampling_metadata.
  destruct (rd_sampling_metadata db !! h) as [b|] eqn:E; [|by exists None].
  destruct (rd_rep_sampling _ _ _ Hrep _ _ E) as [md ->]. exists (Some md).
  unfold deserialize_sampling_metadata. by rewrite sm_decode_encode.
Qed.

(** The two header tables follow the map. *)
Definition rd_tables (db : RedbTables) (m : gmap Z ExtendedHeader) : Prop :=
  (∀ h e, m !! h = Some e → eh_height e = h ∧ valid e) ∧
  rd_headers db = eh_encode <$> m ∧
  ∀ b h, rd_heights db !! b = Some h ↔ ∃ e, m !! h = Some e ∧ hash_as_bytes (eh_hash e) = b.

Lemma rd_insert_loop_spec l db m :
  rd_tables db m → Forall valid l → NoDup (eh_height <$> l) →
  Forall (λ e, m !! eh_height e = None) l →
  ∃ db', rd_insert_loop l db = Ok db' ∧ rd_tables db' (insert_all m l) ∧
    rd_ranges db' = rd_ranges db ∧ rd_sampling_metadata db' = rd_sampling_metadata db.
Proof.
  revert db m; induction l as [|e l IH]; intros db m Ht Hval Hnd Hfree; [by exists db|].
  apply Forall_cons in Hval as [Hv Hval]. apply Forall_cons in Hfree as [He Hfree].
  apply NoDup_cons in Hnd as [Hni Hnd]. destruct Ht as (Hok&Hhd&Hht). cbn [rd_insert_loop].
  rewrite Hhd, lookup_fmap, He. rewrite bool_decide_false by (by intros []). cbv zeta.
  cbn [rd_heights set_rd_headers].
  assert (rd_heights db !! hash_as_bytes (eh_hash e) = None) as Hfresh.
  { destruct (rd_heights db !! _) as [h|] eqn:E; [|done]. apply Hht in E as (e'&Hm&Heq).
    destruct (Hok _ _ Hm) as [<- Hv']. rewrite (valid_hash_bytes e' e Hv' Hv Heq) in Hm. congruence. }
  rewrite Hfresh, bool_decide_false by (by intros []).
  set (db1 := set_rd_heights _ _).
  destruct (IH db1 (<[eh_height e := e]> m)) as (db'&Hrun&Ht'&Hr&Hsd); [|done..| |].
  - split; [|split].
    + intros h e' [[<- <-]|[_ Hm]]%lookup_insert_Some; [done|by apply Hok].
    + cbn. by rewrite Hhd, fmap_insert.
    + intros b h. cbn. rewrite lookup_insert_Some, Hht. split.
      * intros [[<- <-]|[Hne (e'&Hm&Heq)]]; [exists e; by rewrite lookup_insert_eq|].
        exists e'. rewrite lookup_insert_ne; [done|]. intros <-. congruence.
      * intros (e'&[[<- <-]|[Hne Hm]]%lookup_insert_Some&Heq); [by left|]. right.
        split; [|by eauto]. intros Heq'. destruct (Hok _ _ Hm) as [<- Hv']. apply Hne.
        apply valid_hash_bytes; [done..|congruence].
  - rewrite Forall_forall in Hfree |- *. intros x Hx. rewrite lookup_insert_ne; [by apply Hfree|].
    intros Heq. apply Hni. rewrite Heq. apply list_elem_of_fmap. eauto.
  - exists db'. done.
Qed.

Lemma rd_insert_tx_spec now db m l : rd_rep valid db m → clock_ok now → Forall valid l →
  match l with [] => True | hd :: tl => linked hd tl end →
  (∃ db', rd_insert_tx now l db = Ok (tt, db') ∧ insertable m l ∧ rd_rep valid db' (insert_all m l)) ∨
  ((∃ e, rd_insert_tx now l db = Err (InsertionFailed e)) ∧ ¬ extends now m l).
Proof.
  intros Hrep Hclock Hval Hl. destruct l as [|hd tl]; [left; by exists db|].
  destruct (last (hd :: tl)) as [la|] eqn:Hlast; [|by apply last_None in Hlast].
  unfold rd_insert_tx. rewrite Hlast. change (head (hd :: tl)) with (Some hd). cbv iota zeta.
  destruct (rd_ranges_spec _ _ Hrep) as (rs&->&Hdom). cbv [mbind res_bind].
  pose proof (verified_last _ _ _ Hl Hlast) as Hla. rewrite Hla.
  assert (valid hd) as Hvhd by by inversion Hval.
  assert (valid la) as Hvla.
  { rewrite Forall_forall in Hval. apply Hval. by eapply last_Some_elem_of. }
  pose proof (valid_height _ Hvhd). pose proof (valid_height _ Hvla).
  destruct (constraints_spec rs m hd tl Hdom Hl)
    as [[[e ->] Hno]|(prev&next&->&Hpos&Hfree&Hanch&Hprev&Hnext&rs'&Hins&Hdom')];
    [lia|unfold u64_max, i64_max in *; lia|right; split; [by eexists|by apply not_extends_constraints]|].
  cbn [map_err]. unfold rd_verify_against_neighbours. rewrite <-Hla in Hnext.
  destruct (verify_against_neighbours_spec valid m (rd_get_neighbour db) (rd_rep_ok _ _ _ Hrep)
    ltac:(intros; by eapply rd_get_neighbour_spec) now hd la prev next Hclock Hvhd Hvla Hprev Hnext)
    as [[[e ->] Hno]|[-> [Hp Hn]]];
    [right; split; [by eexists|by apply (not_extends_neighbours _ _ _ _ la)]|left].
  assert (Forall (λ e, m !! eh_height e = None) (hd :: tl)) as Hfree'.
  { apply Forall_lookup. intros k e Hk. apply Hfree. rewrite (verified_heights _ _ _ _ Hl Hk).
    apply lookup_lt_Some in Hk. simpl in Hk. lia. }
  destruct (rd_insert_loop_spec (hd :: tl) db m) as (db'&->&(Hok'&Hhd&Hht)&Hr&Hsd);
    [|done|by apply verified_NoDup|done|].
  { split; [apply (rd_rep_ok _ _ _ Hrep)|]. split; [apply (rd_rep_headers _ _ _ Hrep)|].
    apply (rd_rep_heights _ _ _ Hrep). }
  rewrite Hins. cbn [expect_ok]. eexists. split; [done|]. split; [done|].
  split; cbn [rd_heights rd_headers rd_sampling_metadata rd_ranges set_ranges]; [..|].
  - apply insert_all_ok; [apply (rd_rep_ok _ _ _ Hrep)|done..|].
    intros l n Hl' Hln. rewrite Hlast in Hl'. injection Hl' as <-. by apply Hn.
  - exists rs'. rewrite lookup_insert_eq. simpl. by rewrite ranges_raw_roundtrip.
  - done.
  - done.
  - rewrite lookup_insert_ne by done. rewrite Hr. apply (rd_rep_accepted _ _ _ Hrep).
  - rewrite Hsd. apply (rd_rep_sampling _ _ _ Hrep).
Qed.

Lemma rd_insert_spec now db m l : rd_rep valid db m → clock_ok now → Forall valid l →
  ((rd_insert now db l).1 = Ok tt ∧ insertable m l ∧
     rd_rep valid (rd_insert now db l).2 (insert_all m l)) ∨
  ((∃ e, rd_insert now db l = (Err (InsertionFailed e), db)) ∧ ¬ extends now m l).
Proof.
  intros Hrep Hclock Hval. unfold rd_insert.
  assert (verified_try_from now l ≠ Panic) as Hnp.
  { apply verified_try_from_no_panic; [done|]. eapply Forall_impl; [exact Hval|].
    apply valid_height. }
  destruct (verified_try_from now l) as [l'|e|] eqn:E; [|right|done].
  2:{ split; [by eexists|]. intros Hext. by rewrite (extends_verified _ _ _ _ Hclock Hval Hext) in E. }
  apply verified_try_from_Ok in E as [-> Hl]. unfold write_tx.
  destruct (rd_insert_tx_spec (λ i, now (length l + i)%nat) db m l)
    as [(db'&->&Hi&Hrep')|[[e ->] Hno]]; [done|intros i; apply Hclock|done..|by left|].
  right. split; [by eexists|]. intros Hext. by apply Hno, extends_later.
Qed.

Lemma rd_update_spec db m h st cs : rd_rep valid db m → is_Some (m !! h) →
  ∃ db' old, rd_update_sampling_metadata db h st cs = (Ok tt, db') ∧ rd_rep valid db' m ∧
    get_sampling_metadata db h = Ok old ∧
    rd_sampling_metadata db' = <[h := sm_encode (updated_metadata old st cs)]> (rd_sampling_metadata db) ∧
    ∃ rs rs', get_ranges db ACCEPTED_SAMPING_RANGES_KEY = Ok rs ∧
      get_ranges db' ACCEPTED_SAMPING_RANGES_KEY = Ok rs' ∧
      ∀ k, in_ranges k rs' ↔ if bool_decide (k = h) then st = Accepted else in_ranges k rs.
Proof.
  intros Hrep Hh. destruct (rd_ranges_spec _ _ Hrep) as (hr&Hhr&Hdom).
  destruct (rd_accepted_spec _ _ Hrep) as (ar&Har&Hcan).
  destruct (accepted_update_spec ar h st Hcan (ranges_dom_valid _ _ _ Hdom Hh)) as (rs&Hrs&Hc&Hin).
  destruct (rd_get_metadata_total db m h Hrep) as (old&Hold&_).
  unfold rd_update_sampling_metadata, write_tx. rewrite Hhr, Har. cbv [mbind res_bind].
  rewrite (ranges_dom_contains _ _ h Hdom), bool_decide_true by done. simpl negb. cbv iota zeta.
  rewrite Hold, Hrs. cbn [expect_ok]. eexists _, old. split; [done|]. split; [|split; [done|split]].
  - split; cbn [rd_heights rd_headers rd_sampling_metadata rd_ranges set_ranges set_rd_sampling];
      try apply Hrep.
    + rewrite lookup_insert_ne by done. apply (rd_rep_ranges _ _ _ Hrep).
    + rewrite lookup_insert_eq. simpl. by rewrite ranges_raw_roundtrip.
    + intros k b [[<- <-]|[_ Hk]]%lookup_insert_Some; [by eexists|].
      by eapply (rd_rep_sampling _ _ _ Hrep).
  - cbn. f_equal. by destruct old.
  - exists ar, rs. split; [done|]. split; [|done].
    rewrite get_ranges_canonical; cbn; rewrite lookup_insert_eq; cbn;
      by rewrite ranges_raw_roundtrip.
Qed.

Lemma rd_remove_last_spec db m : rd_rep valid db m →
  (m = ∅ ∧ rd_remove_last db = (Err NotFound, db)) ∨
  ∃ t db', rd_remove_last db = (Ok t, db') ∧ is_tail m t ∧ rd_rep valid db' (delete t m).
Proof.
  intros Hrep. unfold rd_remove_last, write_tx. destruct (rd_ranges_spec _ _ Hrep) as (rs&->&Hdom).
  cbv [mbind res_bind].
  destruct (ranges_dom_tail _ _ Hdom) as [(->&_&->)|(t&rs'&->&_&[[e He] Hmin]&Hdom')];
    [by left|]. right. cbn [expect_ok ok_or]. cbn [rd_headers set_ranges].
  rewrite (rd_rep_headers _ _ _ Hrep), lookup_fmap, He. cbn [fmap option_fmap option_map ok_or].
  rewrite eh_decode_encode. cbn [ok_or rd_heights set_rd_headers].
  destruct (rd_rep_ok _ _ _ Hrep) as [Hok _]. destruct (Hok _ _ He) as [Hte Hve].
  assert (rd_heights db !! hash_as_bytes (eh_hash e) = Some t) as Hht.
  { apply (rd_rep_heights _ _ _ Hrep). by exists e. }
  rewrite (bool_decide_false (rd_heights _ !! _ = None)) by (cbn; by rewrite Hht).
  eexists t, _. split; [done|]. split; [by split; [eexists|]|].
  split; cbn [rd_heights rd_headers rd_sampling_metadata rd_ranges set_ranges set_rd_heights
    set_rd_headers]; try apply Hrep.
  - by apply store_ok_delete, Hrep.
  - exists rs'. rewrite lookup_insert_eq. simpl. by rewrite ranges_raw_roundtrip.
  - by rewrite (rd_rep_headers _ _ _ Hrep), fmap_delete.
  - intros b h. rewrite lookup_delete_Some, (rd_rep_heights _ _ _ Hrep). split.
    + intros (Hne&e'&Hm&Heq). exists e'. rewrite lookup_delete_ne; [done|]. intros <-.
      congruence.
    + intros (e'&[Hne Hm]%lookup_delete_Some&Heq). split; [|by eauto]. intros Heq'.
      destruct (Hok _ _ Hm) as [<- Hv']. apply Hne. rewrite <-Hte.
      apply valid_hash_bytes; [done..|congruence].
  - rewrite lookup_insert_ne by done. apply (rd_rep_accepted _ _ _ Hrep).
Qed.

Lemma rd_remove_last_sampling db t db' : rd_remove_last db = (Ok t, db') →
  rd_sampling_metadata db' = rd_sampling_metadata db ∧
  rd_ranges db' !! ACCEPTED_SAMPING_RANGES_KEY = rd_ranges db !! ACCEPTED_SAMPING_RANGES_KEY.
Proof.
  unfold rd_remove_last, write_tx. destruct (_ ≫= _) as [[t' db1]| |] eqn:E; [|done..].
  intros [= -> <-]. inv_res E. destruct x0 as [p hr]. inv_res E.
  case_bool_decide; [done|]. injection E as _ <-. cbn. by rewrite lookup_insert_ne.
Qed.

#[global] Instance RedbStore_StoreSpec : StoreSpec RedbTables valid.
Proof.
  refine {| store_rep := rd_rep valid |}.
  - intros db m Hrep. apply Hrep.
  - intros db m Hrep. simpl. unfold rd_get_stored_ranges, read_tx.
    destruct (rd_ranges_spec _ _ Hrep) as (rs&->&Hdom). by exists rs.
  - intros db m h Hrep. simpl. unfold rd_get_by_height, read_tx.
    rewrite (rd_get_header_spec _ m) by done. by destruct (m !! h).
  - intros db m h Hrep. simpl. unfold rd_contains_height, read_tx. by apply rd_headers_lookup.
  - intros db m h e Hrep He. simpl. unfold rd_get_by_hash, read_tx, get_height.
    rewrite (proj2 (rd_rep_heights _ _ _ Hrep _ h)) by by exists e. simpl.
    by rewrite (rd_get_header_spec _ m), He.
  - intros db m Hrep. simpl. unfold rd_head_height, read_tx.
    destruct (rd_ranges_spec _ _ Hrep) as (rs&->&Hdom). cbv [mbind res_bind].
    destruct (ranges_dom_head _ _ Hdom) as [[-> ->]|(t&->&Ht)]; [by left|]. right. by exists t.
  - intros db m Hrep. simpl. unfold rd_get_head, read_tx.
    destruct (rd_ranges_spec _ _ Hrep) as (rs&->&Hdom). cbv [mbind res_bind].
    destruct (ranges_dom_head _ _ Hdom) as [[-> ->]|(t&->&Ht)]; [by left|]. right.
    destruct Ht as [[e He] Hmax]. exists t, e. simpl. by rewrite (rd_get_header_spec _ m), He.
  - intros db m now l Hrep Hval Hclock. simpl.
    destruct (rd_insert_spec now db m l Hrep Hclock Hval) as [?|[[e ->] ?]]; [by left|].
    right. split; [by eexists|done].
  - intros db m h st cs Hrep. simpl. destruct (decide (is_Some (m !! h))) as [Hh|Hh].
    + destruct (rd_update_spec db m h st cs Hrep Hh) as (db'&old&->&Hrep'&_). simpl.
      split; [done|]. by rewrite bool_decide_true.
    + unfold rd_update_sampling_metadata, write_tx.
      destruct (rd_ranges_spec _ _ Hrep) as (rs&->&Hdom).
      destruct (rd_accepted_spec _ _ Hrep) as (ar&->&_). cbv [mbind res_bind].
      rewrite (ranges_dom_contains _ _ h Hdom), bool_decide_false by done. done.
  - intros db m Hrep. simpl. unfold rd_get_sampling_ranges, read_tx.
    destruct (rd_accepted_spec _ _ Hrep) as (rs&->&Hc). by exists rs.
  - intros db m h st cs Hrep Hh. simpl.
    destruct (rd_update_spec db m h st cs Hrep Hh) as (db'&old&->&Hrep'&Hold&Hsm&rs&rs'&Hrs&Hrs'&Hin).
    assert (∀ d, rd_rep valid d m → rd_get_sampling_metadata d h = get_sampling_metadata d h) as Hget.
    { intros d Hd. unfold rd_get_sampling_metadata, read_tx.
      destruct Hh as [e He]. rewrite (rd_rep_headers _ _ _ Hd), lookup_fmap, He.
      rewrite bool_decide_false by done. 
      by destruct (rd_get_metadata_total d m h Hd) as (md&->&_). }
    exists old, rs, rs'. simpl. rewrite (Hget db Hrep), (Hget db' Hrep').
    unfold rd_get_sampling_ranges, read_tx. rewrite Hrs, Hrs'.
    split; [done|]. split; [|done]. unfold get_sampling_metadata. rewrite Hsm, lookup_insert_eq.
    unfold deserialize_sampling_metadata. by rewrite sm_decode_encode.
  - intros db m Hrep. destruct (rd_remove_last_spec db m Hrep) as [?|(t&db'&Hrm&Ht&Hrep')]; [by left|].
    right. exists t, db'. do 3 (split; [done|]). intros h [e He].
    destruct (rd_remove_last_sampling _ _ _ Hrm) as [Hsm _]. simpl.
    unfold rd_get_sampling_metadata, read_tx, get_sampling_metadata. rewrite Hsm.
    rewrite (rd_rep_headers _ _ _ Hrep), (rd_rep_headers _ _ _ Hrep'), !lookup_fmap, He.
    apply lookup_delete_Some in He as [_ He]. by rewrite He.
Defined.

Lemma rd_rep_new : ∃ db, rd_new rd_empty = (Ok tt, db) ∧ rd_rep valid db ∅.
Proof.
  eexists. split; [reflexivity|]. split; cbn.
  - done.
  - exists []. split; [done|]. split; [done|]. intros h.
    rewrite in_ranges_nil, lookup_empty, is_Some_alt. done.
  - by rewrite fmap_empty.
  - intros b h. rewrite lookup_empty. split; [done|]. intros (e&He&_). by rewrite lookup_empty in He.
  - done.
  - intros h b. by rewrite lookup_empty.
Qed.

(** What the operations leave alone: the table of sampling metadata and the accepted ranges. *)
Definition rd_same_sampling (db db' : RedbTables) : Prop :=
  rd_sampling_metadata db' = rd_sampling_metadata db ∧
  rd_ranges db' !! ACCEPTED_SAMPING_RANGES_KEY = rd_ranges db !! ACCEPTED_SAMPING_RANGES_KEY.

Lemma rd_insert_loop_sampling l db db' : rd_insert_loop l db = Ok db' →
  rd_sampling_metadata db' = rd_sampling_metadata db ∧ rd_ranges db' = rd_ranges db.
Proof.
  revert db; induction l as [|e l IH]; intros db; simpl; [by intros [= <-]|].
  case_bool_decide; [done|]. case_bool_decide; [done|]. intros Hrun. by destruct (IH _ Hrun) as [-> ->].
Qed.

Lemma rd_insert_sampling now db l db' : rd_insert now db l = (Ok tt, db') → rd_same_sampling db db'.
Proof.
  unfold rd_insert, write_tx. destruct (verified_try_from now l) as [l'| |]; [|done..].
  destruct (rd_insert_tx _ l' db) as [[[] db1]| |] eqn:E; [|done..]. intros [= <-].
  unfold rd_insert_tx in E. destruct (head l'), (last l'); try (by injection E as <-).
  inv_res E. destruct x0 as [prev next]. inv_res E. subst db1. unfold rd_same_sampling. cbn.
  match goal with Hl : rd_insert_loop _ _ = Ok _ |- _ => destruct (rd_insert_loop_sampling _ _ _ Hl) as [-> ->] end.
  by rewrite lookup_insert_ne.
Qed.

(** The state of the abstract store that a database stands for. *)
Definition rd_abs_rep (db : RedbTables) (a : abs_store) : Prop :=
  rd_rep valid db (ab_headers a) ∧ (∀ h, get_sampling_metadata db h = Ok (ab_metadata a !! h)) ∧
  ∃ rs, get_ranges db ACCEPTED_SAMPING_RANGES_KEY = Ok rs ∧ ∀ h, in_ranges h rs ↔ h ∈ ab_accepted a.

Lemma rd_abs_rep_same db db' a : rd_abs_rep db a → rd_same_sampling db db' →
  (∀ h, get_sampling_metadata db' h = Ok (ab_metadata a !! h)) ∧
  ∃ rs, get_ranges db' ACCEPTED_SAMPING_RANGES_KEY = Ok rs ∧ ∀ h, in_ranges h rs ↔ h ∈ ab_accepted a.
Proof.
  intros (_&Hmd&rs&Hrs&Hin) [Hs Hr]. split.
  - intros h. rewrite <-Hmd. unfold get_sampling_metadata. by rewrite Hs.
  - exists rs. split; [|done]. rewrite <-Hrs. unfold get_ranges. by rewrite Hr.
Qed.

#[global] Instance RedbStore_Refines : StoreRefines RedbTables valid true.
Proof.
  refine {| abs_rep := rd_abs_rep |}. intros db a op Habs Hop. pose proof Habs as (Hrep&Hmd&ar&Har&Hacc).
  destruct op as [now l|h st cs|]; cbn [run_op op_result st_insert st_update_sampling_metadata
    st_remove_last RedbStore_Store].
  - destruct Hop as [Hval Hclock].
    destruct (rd_insert_spec now db _ l Hrep Hclock Hval) as [(Hr&Hi&Hrep')|[[e He] Hno]].
    + rewrite Hr. exists (abs_put_headers l a). split; [by constructor|]. split; [done|].
      apply (rd_abs_rep_same db _ a); [done|]. apply (rd_insert_sampling now db l).
      by rewrite (surjective_pairing (rd_insert now db l)), Hr.
    + rewrite He. exists a. by split; [constructor|].
  - destruct (decide (is_Some (ab_headers a !! h))) as [Hh|Hh].
    + destruct (rd_update_spec db _ h st cs Hrep Hh) as (db'&old&->&Hrep'&Hold&Hsm&rs&rs'&Hrs&Hrs'&Hin).
      exists (abs_put_metadata h st cs a). split; [by constructor|]. split; [done|]. cbn [snd].
      rewrite Hmd in Hold. injection Hold as <-. rewrite Har in Hrs. injection Hrs as <-. split.
      * intros k. unfold get_sampling_metadata. rewrite Hsm. cbn [ab_metadata abs_put_metadata].
        destruct (decide (h = k)) as [<-|Hne].
        -- rewrite !lookup_insert_eq. unfold deserialize_sampling_metadata. by rewrite sm_decode_encode.
        -- rewrite !lookup_insert_ne by done. apply Hmd.
      * exists rs'. split; [done|]. by eapply accepted_put.
    + unfold rd_update_sampling_metadata, write_tx.
      destruct (rd_ranges_spec _ _ Hrep) as (rs&->&Hdom). rewrite Har. cbv [mbind res_bind].
      rewrite (ranges_dom_contains _ _ h Hdom), bool_decide_false by done. cbn.
      exists a. split; [|done]. by constructor; apply eq_None_not_Some.
  - destruct (rd_remove_last_spec db _ Hrep) as [[Hemp ->]|(t&db'&Hrm&Ht&Hrep')].
    + exists a. by split; [constructor|].
    + rewrite Hrm. exists (abs_remove true t a). split; [by constructor|]. split; [done|].
      apply (rd_abs_rep_same db _ a); [done|]. by apply (rd_remove_last_sampling db t).
Defined.

Lemma rd_answers db a : rd_abs_rep db a → store_answers (λ _, true) db a.
Proof.
  intros (Hrep&Hmd&rs&Hrs&Hacc). constructor.
  - intros h _. exact (spec_get_by_height _ _ h Hrep).
  - intros h _. exact (spec_has_at _ _ h Hrep).
  - intros h e He. exact (spec_get_by_hash _ _ h e Hrep He).
  - exact (spec_stored_ranges _ _ Hrep).
  - intros h _. cbn. unfold rd_get_sampling_metadata, read_tx. rewrite Hmd.
    rewrite (rd_rep_headers _ _ _ Hrep), lookup_fmap. by destruct (ab_headers a !! h).
  - destruct (rd_accepted_spec _ _ Hrep) as (rs'&Hrs'&Hc). exists rs. rewrite Hrs in Hrs'. injection Hrs' as <-.
    cbn. unfold rd_get_sampling_ranges, read_tx. by rewrite Hrs.
Qed.

Lemma rd_abs_rep_new : ∃ db, rd_new rd_empty = (Ok tt, db) ∧ rd_abs_rep db abs_empty.
Proof.
  destruct rd_rep_new as (db&Hn&Hrep). exists db. split; [done|]. injection Hn as <-. split; [done|].
  split; [done|]. exists []. split; [done|]. intros h. rewrite in_ranges_nil. cbn. set_solver.
Qed.

(** ** Properties *)

(** C6. The persistent store refines the same abstract store as the in-memory one, apart from
    the metadata of removed headers, which it keeps: opening an empty database succeeds, and
    whatever sequence of insertions (of valid headers), sampling updates and removals is
    applied to it, the answers are the answers of a run of the abstract store (an insertion
    answers [Ok] when exactly its headers were added and an insertion error only when they do
    not extend the stored chain, with nothing changed; an update answers [Ok] when the metadata
    and the accepted heights were changed at a stored height; a removal answers the least
    stored height, which was removed).  In the state that is reached stored neighbours are
    hash-linked and every read answers from the abstract state. *)
Theorem redb_store_refines ops : Forall (op_valid valid) ops →
  ∃ db0, rd_new rd_empty = (Ok tt, db0) ∧
  let db := foldl run_op db0 ops in
  ∃ a, abs_run true abs_empty ops (op_results db0 ops) a ∧ store_ok valid (ab_headers a) ∧
    store_answers (λ _, true) db a ∧ head_answers db a.
Proof.
  intros Hops. destruct rd_abs_rep_new as (db0&Hnew&Hrep0). exists db0. split; [done|]. intros db.
  destruct (store_simulation valid true db0 abs_empty ops) as (a&Hrun&Hrep); [exact Hrep0|done|].
  exists a. split; [done|]. split; [apply Hrep|]. split; [by apply rd_answers|].
  destruct Hrep as [Hrep _]. by eapply head_answers_spec.
Qed.

(** Writes are transactions: whatever the arguments and the state of the database,
    an insertion, a sampling update or a removal that does not succeed leaves the
    database exactly as it was. *)
Theorem redb_failed_write_unchanged now db l h st cs :
  ((rd_insert now db l).1 ≠ Ok tt → (rd_insert now db l).2 = db) ∧
  ((rd_update_sampling_metadata db h st cs).1 ≠ Ok tt →
    (rd_update_sampling_metadata db h st cs).2 = db) ∧
  ((∀ t, (rd_remove_last db).1 ≠ Ok t) → (rd_remove_last db).2 = db).
Proof.
  unfold rd_insert, rd_update_sampling_metadata, rd_remove_last, write_tx. split; [|split].
  - destruct (verified_try_from now l) as [l'| |]; [|done..].
    by destruct (rd_insert_tx _ l' db) as [[[] db']| |].
  - by destruct (_ ≫= _) as [[[] db']| |].
  - destruct (_ ≫= _) as [[t db']| |]; [|done..]. intros Hne. by destruct (Hne t).
Qed.

(** Sampling metadata survives the removal of its header: when the lowest header is
    removed and later inserted again, [get_sampling_metadata] returns what had been
    recorded before the removal, not [Ok(None)]. *)
Theorem redb_remove_keeps_metadata now db m t db1 l db2 :
  rd_rep valid db m → clock_ok now → Forall valid l →
  rd_remove_last db = (Ok t, db1) → rd_insert now db1 l = (Ok tt, db2) →
  t ∈ eh_height <$> l →
  rd_get_sampling_metadata db2 t = rd_get_sampling_metadata db t.
Proof.
  intros Hrep Hclock Hval Hrem Hins Ht.
  destruct (rd_remove_last_sampling _ _ _ Hrem) as [Hs1 _].
  destruct (rd_insert_sampling _ _ _ _ Hins) as [Hs2 _].
  destruct (rd_remove_last_spec db m Hrep) as [[_ Hr]|(t'&db1'&Hr&Htail&Hrep1)];
    rewrite Hr in Hrem; [done|]. injection Hrem as <- <-.
  destruct (rd_insert_spec now db1' (delete t' m) l Hrep1 Hclock Hval) as [(_&Hi&Hrep2)|[[e He] _]];
    [|by rewrite Hins in He]. rewrite Hins in Hrep2. cbn [snd] in Hrep2.
  unfold rd_get_sampling_metadata, get_sampling_metadata, read_tx. rewrite Hs2, Hs1.
  rewrite (bool_decide_false (rd_headers db2 !! t' = None)).
  2:{ rewrite (rd_rep_headers _ _ _ Hrep2), lookup_fmap. apply list_elem_of_fmap in Ht as (e&->&He).
      apply list_elem_of_lookup in He as [k Hk]. destruct Hi as [Hl _].
      destruct l as [|hd tl]; [done|]. destruct Hl as [Hl _]. simpl snd. rewrite (lookup_insert_all _ _ (eh_height hd)).
      2:{ intros j e'. by apply verified_heights. }
      rewrite (verified_heights _ _ _ _ Hl Hk). pose proof (lookup_lt_Some _ _ _ Hk).
      rewrite bool_decide_true by lia.
      replace (Z.to_nat (eh_height hd + Z.of_nat k - eh_height hd)) with k by lia. by rewrite Hk. }
  rewrite (bool_decide_false (rd_headers db !! t' = None)); [done|].
  destruct Htail as [[e He] _]. by rewrite (rd_rep_headers _ _ _ Hrep), lookup_fmap, He.
Qed.

(** Opening: a database of a newer schema is refused and left alone, and the
    migration from version 1 keeps the header ranges, which are then read back from
    the new table. *)
Theorem redb_open_migrates db rs :
  (∀ v, rd_schema_version db = Some v → SCHEMA_VERSION < v → rd_new db = (Err OpenFailed, db)) ∧
  (rd_schema_version db = Some 1 → snd <$> rd_height_ranges_v1 db = raw_of_ranges rs →
    sorted_ranges rs →
    ∃ db', rd_new db = (Ok tt, db') ∧ rd_schema_version db' = Some SCHEMA_VERSION ∧
      rd_get_stored_ranges db' = Ok rs ∧ rd_headers db' = rd_headers db ∧
      rd_heights db' = rd_heights db ∧ rd_new db' = (Ok tt, db')).
Proof.
  unfold rd_new, write_tx. split.
  - intros v -> Hv. by destruct (Z.ltb_spec SCHEMA_VERSION v); [|lia].
  - intros Hv Hraw Hs. rewrite Hv. unfold migrate_v1_to_v2. rewrite Hv.
    change (SCHEMA_VERSION <? 1) with false. cbv [mbind res_bind].
    rewrite (bool_decide_true (Some 1 = Some 1)) by done. cbn [rd_schema_version].
    rewrite bool_decide_true by done. eexists. split; [done|]. split; [done|]. split; [|done].
    unfold rd_get_stored_ranges, read_tx, get_ranges. cbn [rd_ranges]. rewrite lookup_insert_eq.
    cbn [fmap option_fmap option_map default from_option id]. by rewrite Hraw, ranges_raw_roundtrip, from_vec_sorted.
Qed.

End Rep.

End RedbStore.

(** ** Witnesses *)

#[local] Existing Instances toy_DahExternals toy_Tendermint toy_TendermintSpec.
#[local] Instance toy_validated_redb : ValidHeaders validated :=
  validated_ValidHeaders enc_header_inj.

#[local] Instance SamplingMetadata_countable : Countable SamplingMetadata.
Proof.
  apply (inj_countable'
    (λ md, (match status md with Unknown => 0 | Accepted => 1 | Rejected => 2 end, cids md))
    (λ '(a, b), {| status := if a =? 0 then Unknown else if a =? 1 then Accepted else Rejected;
                   cids := b |})).
  by intros [[] ?].
Defined.

#[local] Instance toy_StoreCodec : StoreCodec := {|
  sm_encode md := [Z.pos (encode md)];
  sm_decode b := match b with [Z.pos p] => decode p | _ => None end
|}.
#[local] Instance toy_StoreCodecSpec : StoreCodecSpec.
Proof. split. intros md. cbv [sm_decode sm_encode toy_StoreCodec]. by rewrite decode_encode. Qed.

Lemma toy_1_valid : validated toy_1.
Proof. split; [vm_compute; reflexivity|done]. Qed.
Lemma toy_clock : clock_ok (λ _, 1000).
Proof. intros i. by eexists. Qed.

(** Two insertions are accepted, a third one is rejected because its height is taken, the first
    header is accepted and removed: the database reads as the abstract store, which holds the
    second header, the metadata of the first one and its height among the accepted ones. *)
Definition toy_redb_ops : list store_op :=
  [OpInsert (λ _, 1000) [toy_1]; OpInsert (λ _, 1000) [toy_2]; OpInsert (λ _, 1000) [toy_1];
   OpUpdateSampling 1 Accepted [toy_cid 5]; OpRemoveLast].
Lemma toy_redb_2_valid : validated toy_2.
Proof. split; [vm_compute; reflexivity|done]. Qed.
Lemma toy_redb_ops_valid : Forall (op_valid validated) toy_redb_ops.
Proof.
  do 3 (apply Forall_cons; split; [split; [apply Forall_singleton; first [apply toy_1_valid|apply toy_redb_2_valid]|exact toy_clock]|]).
  apply Forall_cons; split; [exact I|]. apply Forall_cons; split; [exact I|apply Forall_nil, I].
Qed.

Lemma redb_store_refines_witness :
  let db0 := (rd_new rd_empty).2 in
  let db := foldl run_op db0 toy_redb_ops in
  ∃ e a, abs_run true abs_empty toy_redb_ops [RDone (Ok tt); RDone (Ok tt);
      RDone (Err (InsertionFailed e)); RDone (Ok tt); RRemoved (Ok 1)] a ∧
    ab_headers a !! 1 = None ∧ ab_headers a !! 2 = Some toy_2 ∧
    rd_get_by_height db 2 = Ok toy_2 ∧ rd_get_stored_ranges db = Ok [2 ..= 2] ∧
    rd_get_sampling_ranges db = Ok [1 ..= 1] ∧ 1 ∈ ab_accepted a ∧
    store_answers (λ _, true) db a ∧ head_answers db a.
Proof.
  destruct (redb_store_refines validated toy_redb_ops toy_redb_ops_valid) as (db0&Hn&a&Hrun&_&Hans&Hhead).
  assert (db0 = (rd_new rd_empty).2) as -> by exact (eq_sym (f_equal snd Hn)). cbv zeta. clear Hn.
  set (db := foldl run_op (rd_new rd_empty).2 toy_redb_ops) in *.
  assert (∃ e, op_results (rd_new rd_empty).2 toy_redb_ops = [RDone (Ok tt); RDone (Ok tt);
      RDone (Err (InsertionFailed e)); RDone (Ok tt); RRemoved (Ok 1)]) as [e Hres]
    by (eexists; vm_compute; reflexivity).
  rewrite Hres in Hrun. exists e, a. split; [exact Hrun|].
  assert (∀ h r, st_get_by_height db h = ok_or r NotFound → ab_headers a !! h = r) as Hget.
  { intros h r Hr. rewrite (sa_get_by_height _ _ _ Hans h eq_refl) in Hr. exact (ok_or_inj _ _ _ Hr). }
  assert (rd_get_sampling_ranges db = Ok [1 ..= 1]) as Hacc by (vm_compute; reflexivity).
  split_and!; [apply Hget; vm_compute; reflexivity|apply Hget; vm_compute; reflexivity|
    vm_compute; reflexivity|vm_compute; reflexivity|exact Hacc| |exact Hans|exact Hhead].
  destruct (sa_accepted_ranges _ _ _ Hans) as (rs&Hrs&_&Hin). apply Hin.
  pose proof (eq_trans (eq_sym Hacc) Hrs) as Heq. injection Heq as <-.
  apply in_ranges_cons. left. unfold in_range. cbn. lia.
Defined.

Lemma redb_failed_write_unchanged_witness :
  (rd_insert (λ _, 1000) rd_empty [toy_1; toy_1]).2 = rd_empty.
Proof.
  apply (proj1 (redb_failed_write_unchanged (λ _, 1000) rd_empty [toy_1; toy_1] 0 Unknown [])).
  vm_compute. discriminate.
Defined.

(** Insert the first header, accept it, remove it, insert it again. *)
Definition toy_db1 : RedbTables := (rd_insert (λ _, 1000) (rd_new rd_empty).2 [toy_1]).2.
Definition toy_db2 : RedbTables := (rd_update_sampling_metadata toy_db1 1 Accepted [toy_cid 5]).2.
Definition toy_db3 : RedbTables := (rd_remove_last toy_db2).2.
Definition toy_db4 : RedbTables := (rd_insert (λ _, 1000) toy_db3 [toy_1]).2.

Lemma toy_db2_rep : ∃ m, rd_rep validated toy_db2 m.
Proof.
  destruct (rd_rep_new validated) as (db0&Hn&Hrep0). unfold toy_db2, toy_db1. rewrite Hn. cbn [snd].
  destruct (rd_insert_spec validated (λ _, 1000) db0 ∅ [toy_1] Hrep0 toy_clock)
    as [(_&_&Hrep)|[[e ->] _]]; [apply Forall_singleton, toy_1_valid|..].
  - eexists. exact (proj1 (spec_update_sampling _ _ 1 Accepted [toy_cid 5] Hrep)).
  - eexists. exact (proj1 (spec_update_sampling _ _ 1 Accepted [toy_cid 5] Hrep0)).
Qed.

Lemma toy_db3_removed : rd_remove_last toy_db2 = (Ok 1, toy_db3).
Proof.
  rewrite (surjective_pairing (rd_remove_last toy_db2)). fold toy_db3. f_equal.
Qed.
Lemma toy_db4_inserted : rd_insert (λ _, 1000) toy_db3 [toy_1] = (Ok tt, toy_db4).
Proof.
  rewrite (surjective_pairing (rd_insert _ toy_db3 [toy_1])). fold toy_db4. f_equal.
Qed.
Lemma toy_db4_metadata :
  rd_get_sampling_metadata toy_db4 1 = Ok (Some {| status := Accepted; cids := [toy_cid 5] |}).
Proof. vm_compute. reflexivity. Qed.

Lemma redb_remove_keeps_metadata_witness :
  rd_get_sampling_metadata toy_db4 1 = rd_get_sampling_metadata toy_db2 1 ∧
  rd_get_sampling_metadata toy_db4 1 = Ok (Some {| status := Accepted; cids := [toy_cid 5] |}).
Proof.
  destruct toy_db2_rep as [m Hrep]. split; [|exact toy_db4_metadata].
  apply (redb_remove_keeps_metadata validated (λ _, 1000) toy_db2 m 1 toy_db3 [toy_1] toy_db4 Hrep
    toy_clock).
  - apply Forall_singleton, toy_1_valid.
  - exact toy_db3_removed.
  - exact toy_db4_inserted.
  - apply list_elem_of_singleton. reflexivity.
Defined.

Definition toy_v1_db : RedbTables :=
  {| rd_heights := ∅; rd_headers := ∅; rd_sampling_metadata := ∅; rd_schema_version := Some 1;
     rd_ranges := ∅; rd_height_ranges_v1 := [(0, (1, 5)); (1, (8, 9))] |}.
Lemma redb_open_migrates_witness :
  ∃ db', rd_new toy_v1_db = (Ok tt, db') ∧ rd_get_stored_ranges db' = Ok [1 ..= 5; 8 ..= 9].
Proof.
  destruct (proj2 (redb_open_migrates toy_v1_db [1 ..= 5; 8 ..= 9])) as (db'&H1&_&H2&_);
    [reflexivity|reflexivity|vm_compute; repeat split; discriminate|].
  exists db'. split; assumption.
Defined.
