(* ===== verification/IndexedDbStore.v ===== *)
(** * The browser store (src/node/src/store/indexed_db_store.rs)

    The object stores of the IndexedDB database and the operations on them.  The store of
    headers numbers its records and has unique indexes on height and hash; a transaction that
    returns an error is aborted.  JavaScript numbers hold integers up to 2^53 - 1 exactly;
    which [u64] the serializer accepts is the parameter [js_u64].  Failures of the database
    itself are not modelled.

    The head is cached outside of the database, and [remove_last] does not touch the cache.
    The store refines the abstract map of Store as long as the last header is never removed;
    [idb_stale_head] says what happens otherwise. *)

From S2P Require Import Prelude Consts BlockRanges Nmt Merkle Dah Header ShwapIds Store.

(** What [serde_wasm_bindgen] accepts as a number. *)
Definition MAX_SAFE_INTEGER : Z := 9007199254740991.
Class JsSerde := { js_u64 : Z → bool }.
Class JsSerdeSpec `{JsSerde} := { js_u64_safe h : 0 ≤ h ≤ MAX_SAFE_INTEGER → js_u64 h = true }.

(** ** Data *)

Record ExtendedHeaderEntry := { en_height : Z; en_hash : Hash; en_header : bytes }.

(** The named keys of the store of ranges. *)
Inductive IdbRangesKey := HEADER_RANGES_KEY | ACCEPTED_SAMPLING_RANGES_KEY.
#[global] Instance IdbRangesKey_eq_dec : EqDecision IdbRangesKey.
Proof. solve_decision. Defined.
#[global] Instance IdbRangesKey_countable : Countable IdbRangesKey.
Proof.
  apply (inj_countable' (λ k, match k with HEADER_RANGES_KEY => true | _ => false end)
    (λ b : bool, if b then HEADER_RANGES_KEY else ACCEPTED_SAMPLING_RANGES_KEY)). by intros [].
Defined.

(** The object stores.  [ib_ranges_v3] are the records that version 3 kept in the store of
    ranges, under numbers and in that order. *)
Record IdbTables := {
  ib_headers : list (Z * ExtendedHeaderEntry);
  ib_next_id : Z;
  ib_ranges : gmap IdbRangesKey (list (Z * Z));
  ib_ranges_v3 : list (Z * Z);
  ib_sampling : gmap Z SamplingMetadata;
  ib_schema : option Z
}.

Record IndexedDbStore := { ib_db : IdbTables; ib_head : option ExtendedHeader }.

Definition DB_VERSION : Z := 4.

Definition idb_empty : IdbTables :=
  {| ib_headers := []; ib_next_id := 1; ib_ranges := ∅; ib_ranges_v3 := []; ib_sampling := ∅;
     ib_schema := None |}.

Definition set_ib_headers (db : IdbTables) (l : list (Z * ExtendedHeaderEntry)) (n : Z) : IdbTables :=
  {| ib_headers := l; ib_next_id := n; ib_ranges := ib_ranges db; ib_ranges_v3 := ib_ranges_v3 db;
     ib_sampling := ib_sampling db; ib_schema := ib_schema db |}.
Definition set_ib_sampling (db : IdbTables) (m : gmap Z SamplingMetadata) : IdbTables :=
  {| ib_headers := ib_headers db; ib_next_id := ib_next_id db; ib_ranges := ib_ranges db;
     ib_ranges_v3 := ib_ranges_v3 db; ib_sampling := m; ib_schema := ib_schema db |}.

(** ** The store of headers *)

(** [index.get] on the indexes, [index.count] on the index of hashes. *)
Definition height_index_get (db : IdbTables) (h : Z) : option (Z * ExtendedHeaderEntry) :=
  find (λ r : Z * ExtendedHeaderEntry, en_height (r.2) =? h) (ib_headers db).
Definition hash_index_get (db : IdbTables) (hash : Hash) : option (Z * ExtendedHeaderEntry) :=
  find (λ r : Z * ExtendedHeaderEntry, bool_decide (en_hash (r.2) = hash)) (ib_headers db).
Definition hash_index_count (db : IdbTables) (hash : Hash) : nat :=
  length (filter (λ r : Z * ExtendedHeaderEntry, en_hash (r.2) = hash) (ib_headers db)).

(** [store.add]: a record that breaks a unique index is refused. *)
Definition headers_add (db : IdbTables) (en : ExtendedHeaderEntry) : res StoreError IdbTables :=
  match height_index_get db (en_height en), hash_index_get db (en_hash en) with
  | None, None =>
      Ok (set_ib_headers db (ib_headers db ++ [(ib_next_id db, en)]) (ib_next_id db + 1))
  | _, _ => Err FatalDatabaseError
  end.
Definition headers_delete (db : IdbTables) (id : Z) : IdbTables :=
  set_ib_headers db (filter (λ r : Z * ExtendedHeaderEntry, r.1 ≠ id) (ib_headers db)) (ib_next_id db).

(** ** Ranges *)

Definition idb_ranges_of (db : IdbTables) (name : IdbRangesKey) : BlockRanges :=
  default [] (ranges_of_raw <$> ib_ranges db !! name).

(** [get_ranges]: the deserialization of [BlockRanges] validates. *)
Definition idb_get_ranges (db : IdbTables) (name : IdbRangesKey) : res StoreError BlockRanges :=
  map_err (λ _, StoredDataError) (from_vec (idb_ranges_of db name)).

Section IndexedDb.
Context `{Tendermint} `{DahExternals} `{JsSerde}.

Definition idb_set_ranges (db : IdbTables) (name : IdbRangesKey) (ranges : BlockRanges) : res StoreError IdbTables :=
  if forallb (λ r, js_u64 (br_start r) && js_u64 (br_end r)) ranges then
    Ok {| ib_headers := ib_headers db; ib_next_id := ib_next_id db;
          ib_ranges := <[name := raw_of_ranges ranges]> (ib_ranges db);
          ib_ranges_v3 := ib_ranges_v3 db; ib_sampling := ib_sampling db; ib_schema := ib_schema db |}
  else Err StoredDataError.

(** ** Reads *)

Definition idb_decode (en : ExtendedHeaderEntry) : res StoreError ExtendedHeader :=
  ok_or (eh_decode (en_header en)) StoredDataError.

Definition idb_get_by_height (db : IdbTables) (height : Z) : res StoreError ExtendedHeader :=
  _ ← ensure (js_u64 height) StoredDataError;
  r ← ok_or (height_index_get db height) NotFound;
  idb_decode (r.2).

Definition idb_get_by_hash (db : IdbTables) (hash : Hash) : res StoreError ExtendedHeader :=
  r ← ok_or (hash_index_get db hash) NotFound;
  idb_decode (r.2).

Definition idb_get_head (s : IndexedDbStore) : res StoreError ExtendedHeader :=
  ok_or (ib_head s) NotFound.
Definition idb_get_head_height (s : IndexedDbStore) : res StoreError Z :=
  ok_or (eh_height <$> ib_head s) NotFound.

Definition idb_get_stored_header_ranges (db : IdbTables) : res StoreError BlockRanges :=
  idb_get_ranges db HEADER_RANGES_KEY.
Definition idb_get_sampling_ranges (db : IdbTables) : res StoreError BlockRanges :=
  idb_get_ranges db ACCEPTED_SAMPLING_RANGES_KEY.

Definition idb_contains_hash (db : IdbTables) (hash : Hash) : bool := (0 <? hash_index_count db hash)%nat.
Definition idb_contains_height (db : IdbTables) (height : Z) : bool :=
  match idb_get_stored_header_ranges db with
  | Ok stored_ranges => ranges_contains stored_ranges height
  | _ => false
  end.

Definition idb_get_sampling_metadata (db : IdbTables) (height : Z)
    : res StoreError (option SamplingMetadata) :=
  if negb (idb_contains_height db height) then Err NotFound else
  _ ← ensure (js_u64 height) StoredDataError;
  Ok (ib_sampling db !! height).

Definition get_head_from_database (db : IdbTables) : res StoreError ExtendedHeader :=
  ranges ← idb_get_ranges db HEADER_RANGES_KEY;
  head_height ← ok_or (ranges_head ranges) NotFound;
  idb_get_by_height db head_height.

(** ** Opening and migration *)

(** [detect_schema_version]: older versions are recognized by what they stored. *)
Definition detect_schema_version (db : IdbTables) : option Z :=
  match ib_schema db with
  | Some version => Some version
  | None =>
      if negb (bool_decide (ib_ranges db = ∅) && bool_decide (ib_ranges_v3 db = [])) then Some 3
      else if bool_decide (is_Some (height_index_get db 1)) then Some 2
      else None
  end.

(** [v2::get_head_header]: the last record. *)
Definition v2_get_head_header (db : IdbTables) : res StoreError ExtendedHeader :=
  r ← ok_or (last (ib_headers db)) NotFound;
  idb_decode (r.2).

(** [v3::get_header_ranges]: a record of another version is not a pair of numbers. *)
Fixpoint v3_insert_ranges (l : list (Z * Z)) (ranges : BlockRanges) : res StoreError BlockRanges :=
  match l with
  | [] => Ok ranges
  | (s, e) :: l =>
      ranges ← map_err (λ _, StoredDataError) (insert_relaxed ranges (s ..= e));
      v3_insert_ranges l ranges
  end.
Definition v3_get_header_ranges (db : IdbTables) : res StoreError BlockRanges :=
  ranges ← v3_insert_ranges (ib_ranges_v3 db) [];
  _ ← ensure (bool_decide (ib_ranges db = ∅)) StoredDataError;
  Ok ranges.

Definition migrate_older_to_v4 (db : IdbTables) : res StoreError IdbTables :=
  match detect_schema_version db with
  | None => Ok db
  | Some version =>
      if 4 <=? version then Ok db else
      ranges ←
        (if version <=? 2 then
           match v2_get_head_header db with
           | Ok head => map_err (λ _, StoredDataError) (from_vec [1 ..= eh_height head])
           | Err NotFound => Ok []
           | Err e => Err e
           | Panic => Panic
           end
         else v3_get_header_ranges db);
      let db := {| ib_headers := ib_headers db; ib_next_id := ib_next_id db; ib_ranges := ∅;
                   ib_ranges_v3 := []; ib_sampling := ib_sampling db; ib_schema := ib_schema db |} in
      db ← idb_set_ranges db HEADER_RANGES_KEY ranges;
      Ok {| ib_headers := ib_headers db; ib_next_id := ib_next_id db; ib_ranges := ib_ranges db;
            ib_ranges_v3 := ib_ranges_v3 db; ib_sampling := ib_sampling db; ib_schema := Some 4 |}
  end.

Definition idb_new (db : IdbTables) : res StoreError IndexedDbStore :=
  db ← match detect_schema_version db with
       | Some schema_version =>
           if DB_VERSION <? schema_version then Err OpenFailed else migrate_older_to_v4 db
       | None =>
           Ok {| ib_headers := ib_headers db; ib_next_id := ib_next_id db; ib_ranges := ib_ranges db;
                 ib_ranges_v3 := ib_ranges_v3 db; ib_sampling := ib_sampling db;
                 ib_schema := Some DB_VERSION |}
       end;
  if negb (bool_decide (detect_schema_version db = Some DB_VERSION)) then Panic else
  db_head ← match get_head_from_database db with
            | Ok v => Ok (Some v)
            | Err NotFound => Ok None
            | Err e => Err e
            | Panic => Panic
            end;
  Ok {| ib_db := db; ib_head := db_head |}.

(** ** Writes *)

(** [write_tx]: commit, or abort. *)
Definition idb_write_tx {A} (db : IdbTables) (r : res StoreError (A * IdbTables))
    : res StoreError A * IdbTables :=
  match r with
  | Ok (a, db') => (Ok a, db')
  | Err e => (Err e, db)
  | Panic => (Panic, db)
  end.

Definition idb_get_neighbour (db : IdbTables) (height : Z) : res StoreError ExtendedHeader :=
  match idb_get_by_height db height with Err NotFound => Err StoredDataError | r => r end.

Definition idb_verify_against_neighbours (now : nat → Z) (db : IdbTables)
    (lowest_header highest_header : option ExtendedHeader) : res StoreError unit :=
  verify_against_neighbours (idb_get_neighbour db) now lowest_header highest_header.

Definition entry_of (e : ExtendedHeader) : ExtendedHeaderEntry :=
  {| en_height := eh_height e; en_hash := eh_hash e; en_header := eh_encode e |}.

Fixpoint idb_insert_loop (headers : list ExtendedHeader) (db : IdbTables) : res StoreError IdbTables :=
  match headers with
  | [] => Ok db
  | header :: headers =>
      if negb (hash_index_count db (eh_hash header) =? 0)%nat
      then Err (InsertionFailed (HashExists (eh_hash header))) else
      _ ← ensure (js_u64 (eh_height header)) StoredDataError;
      db ← headers_add db (entry_of header);
      idb_insert_loop headers db
  end.

Definition insert_tx_op (now : nat → Z) (db : IdbTables) (headers : list ExtendedHeader)
    : res StoreError (ExtendedHeader * IdbTables) :=
  hd ← expect (head headers);
  tl ← expect (last headers);
  header_ranges ← idb_get_ranges db HEADER_RANGES_KEY;
  let headers_range := eh_height hd ..= eh_height tl in
  '(prev_exists, next_exists) ←
    map_err (λ e, InsertionFailed (ContraintsNotMet e))
      (check_insertion_constraints header_ranges headers_range);
  _ ← idb_verify_against_neighbours now db
        (if prev_exists : bool then Some hd else None)
        (if next_exists : bool then Some tl else None);
  db ← idb_insert_loop headers db;
  header_ranges ← expect_ok (insert_relaxed header_ranges headers_range);
  db ← idb_set_ranges db HEADER_RANGES_KEY header_ranges;
  Ok (tl, db).

Definition idb_insert (now : nat → Z) (s : IndexedDbStore) (headers : list ExtendedHeader)
    : res StoreError unit * IndexedDbStore :=
  match verified_try_from now headers with
  | Panic => (Panic, s)
  | Err e => (Err (InsertionFailed (HeadersVerificationFailed e)), s)
  | Ok verified =>
      match verified with
      | [] => (Ok tt, s)
      | _ =>
          match idb_write_tx (ib_db s) (insert_tx_op (λ i, now (length headers + i)%nat) (ib_db s) verified) with
          | (Ok tl, db) =>
              (Ok tt, {| ib_db := db;
                 ib_head := if default 0 (eh_height <$> ib_head s) <? eh_height tl then Some tl else ib_head s |})
          | (Err e, db) => (Err e, {| ib_db := db; ib_head := ib_head s |})
          | (Panic, db) => (Panic, {| ib_db := db; ib_head := ib_head s |})
          end
      end
  end.

Definition update_sampling_metadata_tx_op (db : IdbTables) (height : Z) (st : SamplingStatus)
    (cs : list Cid) : res StoreError (unit * IdbTables) :=
  header_ranges ← idb_get_ranges db HEADER_RANGES_KEY;
  accepted_ranges ← idb_get_ranges db ACCEPTED_SAMPLING_RANGES_KEY;
  if negb (ranges_contains header_ranges height) then Err NotFound else
  _ ← ensure (js_u64 height) StoredDataError;
  let new_entry :=
    match ib_sampling db !! height with
    | Some previous => {| status := st; cids := merge_cids (cids previous) cs |}
    | None => {| status := st; cids := cs |}
    end in
  let db := set_ib_sampling db (<[height := new_entry]> (ib_sampling db)) in
  accepted_ranges ← expect_ok
    match st with
    | Accepted => insert_relaxed accepted_ranges (height ..= height)
    | _ => remove_relaxed accepted_ranges (height ..= height)
    end;
  db ← idb_set_ranges db ACCEPTED_SAMPLING_RANGES_KEY accepted_ranges;
  Ok (tt, db).

Definition idb_update_sampling_metadata (s : IndexedDbStore) (height : Z) (st : SamplingStatus)
    (cs : list Cid) : res StoreError unit * IndexedDbStore :=
  let '(r, db) := idb_write_tx (ib_db s) (update_sampling_metadata_tx_op (ib_db s) height st cs) in
  (r, {| ib_db := db; ib_head := ib_head s |}).

Definition remove_last_tx_op (db : IdbTables) : res StoreError (Z * IdbTables) :=
  header_ranges ← idb_get_ranges db HEADER_RANGES_KEY;
  '(popped, header_ranges) ← expect_ok (pop_tail header_ranges);
  height ← ok_or popped NotFound;
  db ← idb_set_ranges db HEADER_RANGES_KEY header_ranges;
  _ ← expect (if js_u64 height then Some tt else None);
  header ← ok_or (height_index_get db height) StoredDataError;
  Ok (height, headers_delete db (header.1)).

Definition idb_remove_last (s : IndexedDbStore) : res StoreError Z * IndexedDbStore :=
  let '(r, db) := idb_write_tx (ib_db s) (remove_last_tx_op (ib_db s)) in
  (r, {| ib_db := db; ib_head := ib_head s |}).

#[global] Instance IndexedDbStore_Store : Store IndexedDbStore := {|
  st_get_head := idb_get_head;
  st_get_by_hash s := idb_get_by_hash (ib_db s);
  st_get_by_height s := idb_get_by_height (ib_db s);
  st_head_height := idb_get_head_height;
  st_has s := idb_contains_hash (ib_db s);
  st_has_at s := idb_contains_height (ib_db s);
  st_update_sampling_metadata := idb_update_sampling_metadata;
  st_get_sampling_metadata s := idb_get_sampling_metadata (ib_db s);
  st_insert := idb_insert;
  st_get_stored_header_ranges s := idb_get_stored_header_ranges (ib_db s);
  st_get_accepted_sampling_ranges s := idb_get_sampling_ranges (ib_db s);
  st_remove_last := idb_remove_last
|}.
(** ** The store of headers holds a map *)

Record headers_rep (db : IdbTables) (m : gmap Z ExtendedHeader) : Prop := {
  hr_entries : (ib_headers db).*2 ≡ₚ entry_of <$> (map_to_list m).*2;
  hr_ids : NoDup (ib_headers db).*1;
  hr_next : Forall (λ id, id < ib_next_id db) (ib_headers db).*1
}.

Lemma elem_of_map_values (m : gmap Z ExtendedHeader) e : e ∈ (map_to_list m).*2 ↔ ∃ h, m !! h = Some e.
Proof.
  rewrite list_elem_of_fmap. split.
  - intros ([h e']&->&Hin). exists h. by apply elem_of_map_to_list.
  - intros [h Hh]. exists (h, e). split; [done|]. by apply elem_of_map_to_list.
Qed.

Lemma headers_rep_elem db m r : headers_rep db m → r ∈ ib_headers db →
  ∃ h e, m !! h = Some e ∧ r.2 = entry_of e.
Proof.
  intros Hrep Hin. assert (r.2 ∈ (ib_headers db).*2) as Hin2 by (by apply list_elem_of_fmap_2).
  rewrite (hr_entries _ _ Hrep) in Hin2. apply list_elem_of_fmap in Hin2 as (e&->&[h Hh]%elem_of_map_values). eauto.
Qed.

Lemma headers_rep_lookup db m h e : headers_rep db m → m !! h = Some e →
  ∃ r, r ∈ ib_headers db ∧ r.2 = entry_of e.
Proof.
  intros Hrep Hh. assert (entry_of e ∈ (ib_headers db).*2) as Hin.
  { rewrite (hr_entries _ _ Hrep). apply list_elem_of_fmap_2, elem_of_map_values. eauto. }
  apply list_elem_of_fmap in Hin as (r&Hr&Hin). eauto.
Qed.

Lemma find_elem {A} (f : A → bool) l x : find f l = Some x → x ∈ l ∧ f x = true.
Proof. intros [Hin Hf]%find_some. split; [by apply list_elem_of_In|done]. Qed.
Lemma find_none_elem {A} (f : A → bool) l x : find f l = None → x ∈ l → f x = false.
Proof. intros Hf Hin. eapply find_none; [done|]. by apply list_elem_of_In. Qed.

Section Index.
Context (db : IdbTables) (m : gmap Z ExtendedHeader) (Hrep : headers_rep db m).
Context (Hheights : ∀ h e, m !! h = Some e → eh_height e = h).

Lemma height_index_spec h :
  match height_index_get db h with
  | Some r => ∃ e, m !! h = Some e ∧ r.2 = entry_of e ∧ r ∈ ib_headers db
  | None => m !! h = None
  end.
Proof.
  unfold height_index_get. destruct (find _ _) as [r|] eqn:Hf.
  - apply find_elem in Hf as [Hin Hh%Z.eqb_eq]. destruct (headers_rep_elem _ _ _ Hrep Hin) as (h'&e&Hm&Hr).
    exists e. rewrite Hr in Hh. cbn in Hh. rewrite (Hheights _ _ Hm) in Hh. subst. done.
  - destruct (m !! h) as [e|] eqn:Hm; [|done]. destruct (headers_rep_lookup _ _ _ _ Hrep Hm) as (r&Hin&Hr).
    pose proof (find_none_elem _ _ _ Hf Hin) as Hne. cbn in Hne. rewrite Hr in Hne. cbn in Hne.
    apply Z.eqb_neq in Hne. by rewrite (Hheights _ _ Hm) in Hne.
Qed.

Lemma hash_index_spec hash :
  match hash_index_get db hash with
  | Some r => ∃ h e, m !! h = Some e ∧ eh_hash e = hash ∧ r.2 = entry_of e
  | None => ∀ h e, m !! h = Some e → eh_hash e ≠ hash
  end.
Proof.
  unfold hash_index_get. destruct (find _ _) as [r|] eqn:Hf.
  - apply find_elem in Hf as [Hin Hh%bool_decide_eq_true]. destruct (headers_rep_elem _ _ _ Hrep Hin) as (h'&e&Hm&Hr).
    exists h', e. rewrite Hr in Hh. done.
  - intros h e Hm Heq. destruct (headers_rep_lookup _ _ _ _ Hrep Hm) as (r&Hin&Hr).
    pose proof (find_none_elem _ _ _ Hf Hin) as Hne. cbn in Hne. rewrite Hr in Hne. by apply bool_decide_eq_false in Hne.
Qed.

Lemma hash_count_zero hash : (∀ h e, m !! h = Some e → eh_hash e ≠ hash) → hash_index_count db hash = 0%nat.
Proof.
  intros Hno. unfold hash_index_count. apply length_zero_iff_nil, elem_of_nil_inv.
  intros r [Hh Hin]%list_elem_of_filter. destruct (headers_rep_elem _ _ _ Hrep Hin) as (h'&e&Hm&Hr).
  rewrite Hr in Hh. by apply (Hno h' e).
Qed.

(** A header at a free height with a fresh hash is added. *)
Lemma headers_add_spec e : m !! eh_height e = None → (∀ h e', m !! h = Some e' → eh_hash e' ≠ eh_hash e) →
  ∃ db', headers_add db (entry_of e) = Ok db' ∧ headers_rep db' (<[eh_height e := e]> m) ∧
    ib_ranges db' = ib_ranges db ∧ ib_sampling db' = ib_sampling db.
Proof.
  intros Hfree Hfresh. unfold headers_add. cbn [en_height en_hash entry_of].
  pose proof (height_index_spec (eh_height e)) as Hh. destruct (height_index_get _ _) as [r|]; [naive_solver congruence|].
  pose proof (hash_index_spec (eh_hash e)) as Hs.
  destruct (hash_index_get _ _) as [r|]; [destruct Hs as (h&e'&Hm&Heq&_); by destruct (Hfresh _ _ Hm)|].
  eexists. split; [done|]. split; [|done]. destruct Hrep as [He Hi Hn]. constructor; cbn.
  - rewrite fmap_app, He, map_to_list_insert by done. cbn. solve_Permutation.
  - rewrite fmap_app. cbn. apply NoDup_app. split_and!; [done| |apply NoDup_singleton].
    intros id Hid ->%list_elem_of_singleton. eapply Forall_forall in Hn; [|done]. cbn in Hn. lia.
  - rewrite fmap_app. apply Forall_app. split; [|repeat constructor; cbn; lia].
    eapply Forall_impl; [done|]. cbn. lia.
Qed.

(** The record that the index finds is deleted. *)
Lemma headers_delete_spec h e : m !! h = Some e →
  ∃ r, height_index_get db h = Some r ∧ headers_rep (headers_delete db (r.1)) (delete h m).
Proof.
  intros Hm. pose proof (height_index_spec h) as Hh. destruct (height_index_get db h) as [r|]; [|congruence].
  destruct Hh as (e'&Hm'&Hr&Hin). rewrite Hm in Hm'. injection Hm' as <-. exists r. split; [done|].
  destruct Hrep as [He Hi Hn].
  assert (ib_headers db ≡ₚ r :: filter (λ x : Z * ExtendedHeaderEntry, x.1 ≠ r.1) (ib_headers db)) as Hperm.
  { clear -Hi Hin. induction (ib_headers db) as [|x l IH]; [by apply not_elem_of_nil in Hin|].
    cbn in Hi. apply NoDup_cons in Hi as [Hx Hi]. apply elem_of_cons in Hin as [->|Hin].
    - rewrite filter_cons_False by tauto. rewrite filter_all; [done|]. intros y Hy Heq. apply Hx.
      rewrite <-Heq. by apply list_elem_of_fmap_2.
    - rewrite filter_cons_True by (intros Heq; apply Hx; rewrite Heq; by apply list_elem_of_fmap_2).
      rewrite (IH Hin Hi) at 1. solve_Permutation. }
  constructor; cbn.
  - apply (Permutation_cons_inv (a := entry_of e)).
    rewrite Hperm in He. cbn in He. rewrite Hr in He. rewrite He.
    rewrite <-(map_to_list_delete m h e Hm). done.
  - eapply sublist_NoDup; [exact Hi|]. apply fmap_sublist, sublist_filter.
  - apply Forall_forall. intros id Hid. eapply Forall_forall in Hn; [exact Hn|].
    eapply elem_of_sublist; [exact Hid|]. apply fmap_sublist, sublist_filter.
Qed.
End Index.
(** ** The invariant *)

Section Rep.
Context (valid : ExtendedHeader → Prop) `{!ValidHeaders valid} `{!TendermintSpec} `{!JsSerdeSpec}.
Context (Hjs : ∀ e, valid e → eh_height e ≤ MAX_SAFE_INTEGER).

Record db_rep (db : IdbTables) (m : gmap Z ExtendedHeader) : Prop := {
  ir_ok : store_ok valid m;
  ir_ranges : ranges_dom (idb_ranges_of db HEADER_RANGES_KEY) m;
  ir_headers : headers_rep db m;
  ir_accepted : canonical (idb_ranges_of db ACCEPTED_SAMPLING_RANGES_KEY);
  ir_accepted_js k : in_ranges k (idb_ranges_of db ACCEPTED_SAMPLING_RANGES_KEY) → js_u64 k = true
}.

(** The cached head is the head of the map. *)
Definition head_rep (o : option ExtendedHeader) (m : gmap Z ExtendedHeader) : Prop :=
  match o with
  | Some e => is_head m (eh_height e) ∧ m !! eh_height e = Some e
  | None => m = ∅
  end.

Definition idb_rep (s : IndexedDbStore) (m : gmap Z ExtendedHeader) : Prop :=
  db_rep (ib_db s) m ∧ head_rep (ib_head s) m.

Lemma stored_js m h e : store_ok valid m → m !! h = Some e → js_u64 h = true.
Proof.
  intros [Hok _] Hm. destruct (Hok _ _ Hm) as [<- Hv]. apply js_u64_safe.
  pose proof (valid_height _ Hv). split; [lia|by apply Hjs].
Qed.

Lemma idb_get_ranges_canonical db name : canonical (idb_ranges_of db name) →
  idb_get_ranges db name = Ok (idb_ranges_of db name).
Proof. intros Hc. unfold idb_get_ranges. by rewrite from_vec_sorted by by apply canonical_sorted. Qed.

(** Canonical ranges of numbers that JavaScript can hold are written, and read back. *)
Lemma idb_set_ranges_spec db name rs : canonical rs → (∀ k, in_ranges k rs → js_u64 k = true) →
  ∃ db', idb_set_ranges db name rs = Ok db' ∧ idb_ranges_of db' name = rs ∧
    (∀ name', name' ≠ name → idb_ranges_of db' name' = idb_ranges_of db name') ∧
    ib_headers db' = ib_headers db ∧ ib_next_id db' = ib_next_id db ∧ ib_sampling db' = ib_sampling db.
Proof.
  intros Hc Hall. unfold idb_set_ranges.
  assert (forallb (λ r, js_u64 (br_start r) && js_u64 (br_end r)) rs = true) as ->.
  { apply forallb_forall. intros r Hr%list_elem_of_In.
    pose proof (chain_lb 1 (-1) rs ltac:(lia) Hc) as Hv. eapply Forall_forall in Hv; [|done]. cbn in Hv.
    apply andb_true_iff. split; apply Hall, Exists_exists; exists r; (split; [done|]); unfold in_range; lia. }
  eexists. split; [done|]. unfold idb_ranges_of. cbn. split_and!; [| |done|done|done].
  - rewrite lookup_insert_eq. cbn. apply ranges_raw_roundtrip.
  - intros name' Hne. by rewrite lookup_insert_ne.
Qed.

Lemma headers_rep_same db db' m : headers_rep db m → ib_headers db' = ib_headers db →
  ib_next_id db' = ib_next_id db → headers_rep db' m.
Proof. intros [He Hi Hn] Hh Hnx. constructor; rewrite ?Hh, ?Hnx; done. Qed.

Lemma db_rep_heights db m : db_rep db m → ∀ h e, m !! h = Some e → eh_height e = h.
Proof. intros Hrep h e Hm. by destruct (proj1 (ir_ok _ _ Hrep) _ _ Hm). Qed.

Lemma idb_get_by_height_spec db m h : db_rep db m → js_u64 h = true →
  idb_get_by_height db h = ok_or (m !! h) NotFound.
Proof.
  intros Hrep Hj. unfold idb_get_by_height. rewrite Hj. cbv [mbind res_bind ensure].
  pose proof (height_index_spec db m (ir_headers _ _ Hrep) (db_rep_heights _ _ Hrep) h) as Hh.
  destruct (height_index_get db h) as [r|]; [|by rewrite Hh].
  destruct Hh as (e&->&Hr&_). cbn [ok_or]. rewrite Hr. unfold idb_decode. cbn [en_header entry_of].
  by rewrite eh_decode_encode.
Qed.

Lemma idb_get_neighbour_spec db m h e : db_rep db m → m !! h = Some e → idb_get_neighbour db h = Ok e.
Proof.
  intros Hrep Hm. unfold idb_get_neighbour.
  rewrite (idb_get_by_height_spec _ m) by (done || by eapply stored_js; [apply Hrep|]). by rewrite Hm.
Qed.

Lemma idb_get_by_hash_spec db m h e : db_rep db m → m !! h = Some e → idb_get_by_hash db (eh_hash e) = Ok e.
Proof.
  intros Hrep Hm. unfold idb_get_by_hash.
  pose proof (hash_index_spec db m (ir_headers _ _ Hrep) (eh_hash e)) as Hs.
  destruct (hash_index_get db (eh_hash e)) as [r|]; [|by destruct (Hs _ _ Hm)].
  destruct Hs as (h'&e'&Hm'&Heq&Hr). cbv [mbind res_bind ok_or]. rewrite Hr. unfold idb_decode. cbn [en_header entry_of].
  rewrite eh_decode_encode. cbn. f_equal.
  destruct (proj1 (ir_ok _ _ Hrep) _ _ Hm) as [Hh Hv], (proj1 (ir_ok _ _ Hrep) _ _ Hm') as [Hh' Hv'].
  pose proof (valid_hash e' e Hv' Hv Heq). assert (h' = h) as -> by congruence. congruence.
Qed.

Lemma idb_insert_loop_spec l db m :
  headers_rep db m → (∀ h e, m !! h = Some e → eh_height e = h ∧ valid e) → Forall valid l →
  NoDup (eh_height <$> l) → Forall (λ e, m !! eh_height e = None) l →
  ∃ db', idb_insert_loop l db = Ok db' ∧ headers_rep db' (insert_all m l) ∧
    ib_ranges db' = ib_ranges db ∧ ib_sampling db' = ib_sampling db.
Proof.
  revert db m; induction l as [|e l IH]; intros db m Hrep Hok Hval Hnd Hfree; [by exists db|].
  apply Forall_cons in Hval as [Hv Hval]. apply Forall_cons in Hfree as [He Hfree].
  apply NoDup_cons in Hnd as [Hni Hnd]. cbn [idb_insert_loop].
  assert (∀ h e', m !! h = Some e' → eh_hash e' ≠ eh_hash e) as Hfresh.
  { intros h e' Hm Heq. destruct (Hok _ _ Hm) as [<- Hv']. rewrite (valid_hash e' e Hv' Hv Heq) in Hm. congruence. }
  rewrite (hash_count_zero db m Hrep) by done. cbn [Nat.eqb negb].
  rewrite js_u64_safe by (split; [apply valid_height, Hv|by apply Hjs]). cbv [ensure]. cbn [mbind res_bind].
  destruct (headers_add_spec db m Hrep (λ h e Hm, proj1 (Hok h e Hm)) e He Hfresh) as (db1&Hadd&Hrep1&Hr1&Hs1).
  rewrite Hadd. cbn [mbind res_bind].
  destruct (IH db1 (<[eh_height e := e]> m) Hrep1) as (db'&Hrun&Hrep'&Hr&Hs); [|done|done| |].
  - intros h e' [[<- <-]|[_ Hm]]%lookup_insert_Some; [done|by apply Hok].
  - rewrite Forall_forall in Hfree |- *. intros x Hx. rewrite lookup_insert_ne; [by apply Hfree|].
    intros Heq. apply Hni. rewrite Heq. by apply list_elem_of_fmap_2.
  - exists db'. split_and!; [done|done|congruence|congruence].
Qed.
(** The metadata and the accepted ranges are the same in both. *)
Definition same_sampling (db db' : IdbTables) : Prop :=
  ib_sampling db' = ib_sampling db ∧
  idb_ranges_of db' ACCEPTED_SAMPLING_RANGES_KEY = idb_ranges_of db ACCEPTED_SAMPLING_RANGES_KEY.

Lemma insert_tx_op_spec now db m hd tl : db_rep db m → clock_ok now → Forall valid (hd :: tl) → linked hd tl →
  (∃ la db', insert_tx_op now db (hd :: tl) = Ok (la, db') ∧ last (hd :: tl) = Some la ∧ 0 < eh_height hd ∧
    (∀ h, eh_height hd ≤ h ≤ eh_height la → m !! h = None) ∧
    anchored m (eh_height hd) (eh_height hd + Z.of_nat (length tl)) ∧ db_rep db' (insert_all m (hd :: tl)) ∧
    same_sampling db db') ∨
  ((∃ e, insert_tx_op now db (hd :: tl) = Err (InsertionFailed e)) ∧ ¬ extends now m (hd :: tl)).
Proof.
  intros Hrep Hclock Hval Hl. destruct (last (hd :: tl)) as [la|] eqn:Hlast; [|by apply last_None in Hlast].
  unfold insert_tx_op. rewrite Hlast. cbn [head expect mbind res_bind].
  pose proof (ir_ranges _ _ Hrep) as Hdom. rewrite idb_get_ranges_canonical by apply Hdom. cbn [mbind res_bind].
  pose proof (verified_last _ _ _ Hl Hlast) as Hla. rewrite Hla.
  assert (valid hd) as Hvhd by by inversion Hval.
  assert (valid la) as Hvla.
  { rewrite Forall_forall in Hval. apply Hval. by eapply last_Some_elem_of. }
  pose proof (valid_height _ Hvhd). pose proof (valid_height _ Hvla).
  destruct (constraints_spec _ m hd tl Hdom Hl)
    as [[[e ->] Hno]|(prev&next&->&Hpos&Hfree&Hanch&Hprev&Hnext&rs'&Hins&Hdom')];
    [lia|unfold u64_max, i64_max in *; lia|right; split; [by eexists|by apply not_extends_constraints]|].
  cbn [map_err mbind res_bind]. unfold idb_verify_against_neighbours. rewrite <-Hla in Hnext.
  destruct (verify_against_neighbours_spec valid m (idb_get_neighbour db) (ir_ok _ _ Hrep)
    ltac:(intros; by eapply idb_get_neighbour_spec) now hd la prev next Hclock Hvhd Hvla Hprev Hnext)
    as [[[e ->] Hno]|[-> [Hp Hn]]];
    [right; split; [by eexists|by apply (not_extends_neighbours _ _ _ _ la)]|left].
  assert (Forall (λ e, m !! eh_height e = None) (hd :: tl)) as Hfree'.
  { apply Forall_lookup. intros k e Hk. apply Hfree. rewrite (verified_heights _ _ _ _ Hl Hk).
    apply lookup_lt_Some in Hk. simpl in Hk. lia. }
  destruct (idb_insert_loop_spec (hd :: tl) db m (ir_headers _ _ Hrep) (proj1 (ir_ok _ _ Hrep)) Hval
    (verified_NoDup _ _ Hl) Hfree') as (db1&->&Hrep1&Hr1&Hs1).
  rewrite Hins. cbn [expect_ok mbind res_bind].
  assert (store_ok valid (insert_all m (hd :: tl))) as Hok'.
  { apply insert_all_ok; [apply Hrep|done..|]. intros x n Hx Hxn. rewrite Hlast in Hx. injection Hx as <-. by apply Hn. }
  destruct (idb_set_ranges_spec db1 HEADER_RANGES_KEY rs') as (db2&->&Hh&Ho&Hhd&Hnx&Hsm); [apply Hdom'|..].
  { intros k [e Hk]%Hdom'. by eapply stored_js. }
  exists la, db2.
  assert (idb_ranges_of db2 ACCEPTED_SAMPLING_RANGES_KEY = idb_ranges_of db ACCEPTED_SAMPLING_RANGES_KEY) as Hacc.
  { rewrite Ho by done. unfold idb_ranges_of. by rewrite Hr1. }
  split_and!; [done|done|done|intros h Hh'; apply Hfree; lia|done| |split; [congruence|done]].
  constructor; rewrite ?Hacc; [done|by rewrite Hh|by eapply headers_rep_same|apply Hrep|apply Hrep].
Qed.

(** The cached head after an insertion. *)
Lemma head_rep_insert o m hd tl la : head_rep o m → linked hd tl → last (hd :: tl) = Some la → 0 < eh_height hd →
  (∀ h, eh_height hd ≤ h ≤ eh_height la → m !! h = None) →
  head_rep (if default 0 (eh_height <$> o) <? eh_height la then Some la else o) (insert_all m (hd :: tl)).
Proof.
  intros Hhead Hl Hlast Hpos Hfree. pose proof (verified_last _ _ _ Hl Hlast) as Hla.
  assert (∀ h, insert_all m (hd :: tl) !! h = if bool_decide (eh_height hd ≤ h ≤ eh_height la)
    then (hd :: tl) !! Z.to_nat (h - eh_height hd) else m !! h) as Hlook.
  { intros h. rewrite (lookup_insert_all m (hd :: tl) (eh_height hd)) by (intros k e; by apply verified_heights).
    cbn [length]. rewrite Nat2Z.inj_succ. repeat case_bool_decide; (done || lia). }
  assert (insert_all m (hd :: tl) !! eh_height la = Some la) as Hla'.
  { rewrite Hlook, bool_decide_true by lia. rewrite <-Hlast, last_lookup. f_equal. cbn. lia. }
  assert (∀ h, is_Some (insert_all m (hd :: tl) !! h) → h ≤ eh_height la ∨ is_Some (m !! h)) as Hdom.
  { intros h. rewrite Hlook. case_bool_decide; [left; lia|by right]. }
  destruct (Z.ltb_spec (default 0 (eh_height <$> o)) (eh_height la)) as [Hlt|Hge].
  - split; [|done]. split; [by eexists|]. intros h [?|Hm]%Hdom; [done|].
    destruct o as [e0|]; cbn in Hhead, Hlt; [|subst m; by rewrite lookup_empty in Hm; destruct Hm].
    destruct Hhead as [[_ Hmax] _]. specialize (Hmax _ Hm). lia.
  - destruct o as [e0|]; cbn in Hhead, Hge; [|lia]. destruct Hhead as [[_ Hmax] He0].
    assert (eh_height e0 ≠ eh_height la) as Hne.
    { intros Heq. rewrite Heq in He0. rewrite Hfree in He0 by lia. done. }
    cbn. rewrite Hlook, bool_decide_false by lia. split; [|done]. split.
    { rewrite Hlook, bool_decide_false by lia. by eexists. }
    intros h [?|Hm]%Hdom; [lia|by apply Hmax].
Qed.

(** An insertion of the whole store: the database, and the cached head. *)
Lemma idb_insert_db now s m l : db_rep (ib_db s) m → clock_ok now → Forall valid l →
  ((idb_insert now s l).1 = Ok tt ∧ insertable m l ∧ db_rep (ib_db (idb_insert now s l).2) (insert_all m l) ∧
     same_sampling (ib_db s) (ib_db (idb_insert now s l).2) ∧
     (head_rep (ib_head s) m → head_rep (ib_head (idb_insert now s l).2) (insert_all m l))) ∨
  ((∃ e, idb_insert now s l = (Err (InsertionFailed e), s)) ∧ ¬ extends now m l).
Proof.
  intros Hrep Hclock Hval. unfold idb_insert.
  assert (verified_try_from now l ≠ Panic) as Hnp.
  { apply verified_try_from_no_panic; [done|]. eapply Forall_impl; [exact Hval|]. apply valid_height. }
  destruct (verified_try_from now l) as [l'|e|] eqn:Hver; [|right|done].
  2:{ split; [by eexists|]. intros Hext. by rewrite (extends_verified _ _ _ _ Hclock Hval Hext) in Hver. }
  apply verified_try_from_Ok in Hver as [-> Hl]. destruct l as [|hd tl]; [by left|].
  destruct (insert_tx_op_spec (λ i, now (length (hd :: tl) + i)%nat) (ib_db s) m hd tl)
    as [(la&db'&->&Hla&Hpos&Hfree&Hanch&Hrep'&Hsame)|[[e ->] Hno]]; [done|intros i; apply Hclock|done|done|left|right].
  - cbn [idb_write_tx fst snd ib_db ib_head]. split; [done|]. split; [|split; [done|split; [done|]]].
    + split; [done|]. apply Forall_lookup. intros k e Hk. apply Hfree.
      rewrite (verified_heights _ _ _ _ Hl Hk), (verified_last _ _ _ Hl Hla).
      apply lookup_lt_Some in Hk. cbn in Hk. lia.
    + intros Hhead. by apply head_rep_insert.
  - cbn [idb_write_tx]. split; [eexists; by destruct s|]. intros Hext. by apply Hno, extends_later.
Qed.

Lemma idb_insert_spec now s m l : idb_rep s m → clock_ok now → Forall valid l →
  ((idb_insert now s l).1 = Ok tt ∧ insertable m l ∧ idb_rep (idb_insert now s l).2 (insert_all m l)) ∨
  ((∃ e, idb_insert now s l = (Err (InsertionFailed e), s)) ∧ ¬ extends now m l).
Proof.
  intros [Hrep Hhead] Hclock Hval.
  destruct (idb_insert_db now s m l Hrep Hclock Hval) as [(Hr&Hi&Hrep'&_&Hhead')|?]; [left|by right].
  split_and!; [done|done|]. split; [done|by apply Hhead'].
Qed.
Lemma idb_update_spec s m h st cs : db_rep (ib_db s) m → is_Some (m !! h) →
  ∃ db', idb_update_sampling_metadata s h st cs = (Ok tt, {| ib_db := db'; ib_head := ib_head s |}) ∧
    db_rep db' m ∧
    ib_sampling db' = <[h := updated_metadata (ib_sampling (ib_db s) !! h) st cs]> (ib_sampling (ib_db s)) ∧
    ∀ k, in_ranges k (idb_ranges_of db' ACCEPTED_SAMPLING_RANGES_KEY) ↔
      if bool_decide (k = h) then st = Accepted
      else in_ranges k (idb_ranges_of (ib_db s) ACCEPTED_SAMPLING_RANGES_KEY).
Proof.
  intros Hrep Hh. pose proof (ir_ranges _ _ Hrep) as Hdom.
  assert (js_u64 h = true) as Hj by (destruct Hh as [e He]; eapply stored_js; [apply Hrep|done]).
  destruct (accepted_update_spec _ h st (ir_accepted _ _ Hrep) (ranges_dom_valid _ _ _ Hdom Hh)) as (rs&Hrs&Hc&Hin).
  unfold idb_update_sampling_metadata, update_sampling_metadata_tx_op.
  rewrite !idb_get_ranges_canonical by first [apply Hdom|apply Hrep]. cbn [mbind res_bind].
  rewrite (ranges_dom_contains _ _ h Hdom), bool_decide_true by done. cbn [negb]. rewrite Hj. cbn [ensure mbind res_bind].
  rewrite Hrs. cbn [expect_ok mbind res_bind].
  set (db1 := set_ib_sampling (ib_db s) _).
  destruct (idb_set_ranges_spec db1 ACCEPTED_SAMPLING_RANGES_KEY rs Hc) as (db2&->&Ha&Ho&Hhd&Hnx&Hsm).
  { intros k Hk. apply Hin in Hk. case_bool_decide; [by subst|]. by apply (ir_accepted_js _ _ Hrep). }
  cbn [mbind res_bind idb_write_tx]. eexists. split; [done|]. split; [|split].
  - assert (idb_ranges_of db2 HEADER_RANGES_KEY = idb_ranges_of (ib_db s) HEADER_RANGES_KEY) as Hhr by (by rewrite Ho).
    constructor; rewrite ?Ha, ?Hhr; [apply Hrep|exact Hdom|by eapply headers_rep_same; [apply Hrep|..]|done|].
    intros k Hk. apply Hin in Hk. case_bool_decide; [by subst|]. by apply (ir_accepted_js _ _ Hrep).
  - rewrite Hsm. cbn. f_equal. unfold updated_metadata. by destruct (ib_sampling (ib_db s) !! h).
  - by rewrite Ha.
Qed.

Lemma idb_update_missing s m h st cs : db_rep (ib_db s) m → m !! h = None →
  idb_update_sampling_metadata s h st cs = (Err NotFound, s).
Proof.
  intros Hrep Hh. pose proof (ir_ranges _ _ Hrep) as Hdom.
  unfold idb_update_sampling_metadata, update_sampling_metadata_tx_op.
  rewrite !idb_get_ranges_canonical by first [apply Hdom|apply Hrep]. cbn [mbind res_bind].
  rewrite (ranges_dom_contains _ _ h Hdom), bool_decide_false by (rewrite Hh; by intros []). cbn. by destruct s.
Qed.

(** Removal takes the least height out of the database; the cached head stays. *)
Lemma idb_remove_last_spec s m : db_rep (ib_db s) m →
  (m = ∅ ∧ idb_remove_last s = (Err NotFound, s)) ∨
  ∃ t db', idb_remove_last s = (Ok t, {| ib_db := db'; ib_head := ib_head s |}) ∧ is_tail m t ∧
    db_rep db' (delete t m) ∧ same_sampling (ib_db s) db'.
Proof.
  intros Hrep. pose proof (ir_ranges _ _ Hrep) as Hdom. unfold idb_remove_last, remove_last_tx_op.
  rewrite idb_get_ranges_canonical by apply Hdom. cbn [mbind res_bind].
  destruct (ranges_dom_tail _ _ Hdom) as [(->&_&->)|(t&rs'&->&_&[[e He] Hmin]&Hdom')].
  { left. split; [done|]. cbn. by destruct s. }
  right. cbn [expect_ok mbind res_bind ok_or].
  destruct (idb_set_ranges_spec (ib_db s) HEADER_RANGES_KEY rs') as (db1&->&Hh&Ho&Hhd&Hnx&Hsm); [apply Hdom'|..].
  { intros k [e' Hk]%Hdom'. eapply stored_js; [by apply store_ok_delete, Hrep|done]. }
  cbn [mbind res_bind]. rewrite (stored_js m t e) by (done || apply Hrep). cbn [expect mbind res_bind].
  assert (headers_rep db1 m) as Hrep1 by (by eapply headers_rep_same; [apply Hrep|..]).
  destruct (headers_delete_spec db1 m Hrep1 (db_rep_heights _ _ Hrep) t e He) as (r&->&Hrep2).
  cbn [ok_or mbind res_bind idb_write_tx]. eexists t, _. split; [done|]. split; [by split; [eexists|]|].
  split; [|split; [by rewrite <-Hsm|by rewrite <-Ho]].
  assert (∀ name id, idb_ranges_of (headers_delete db1 id) name = idb_ranges_of db1 name) as Hsame by done.
  constructor; rewrite ?Hsame.
  - by apply store_ok_delete, Hrep.
  - by rewrite Hh.
  - done.
  - rewrite Ho by done. apply Hrep.
  - rewrite Ho by done. apply (ir_accepted_js _ _ Hrep).
Qed.

(** When another header is stored, the head is not the one that is removed. *)
Lemma head_rep_delete o m t : head_rep o m → is_tail m t → delete t m ≠ ∅ → head_rep o (delete t m).
Proof.
  intros Hhead [_ Hmin] Hne. destruct o as [e0|]; cbn in *; [|subst m; by rewrite delete_empty in Hne].
  destruct Hhead as [[_ Hmax] He0]. apply map_choose in Hne as (h&x&[Hneq Hx]%lookup_delete_Some).
  assert (eh_height e0 ≠ t) as Hne0.
  { intros Heq. pose proof (Hmin h (mk_is_Some _ _ Hx)). pose proof (Hmax h (mk_is_Some _ _ Hx)). lia. }
  rewrite lookup_delete_ne by done. split; [|done]. split; [by rewrite lookup_delete_ne|].
  intros k [y [_ Hy]%lookup_delete_Some]. apply Hmax. by eexists.
Qed.

(** ** Executions *)

(** No removal empties the store. *)
Definition removal_safe (s : IndexedDbStore) (op : store_op) : bool :=
  match op with OpRemoveLast => negb (length (ib_headers (ib_db s)) =? 1)%nat | _ => true end.
Fixpoint removals_safe (s : IndexedDbStore) (ops : list store_op) : bool :=
  match ops with
  | [] => true
  | op :: ops => removal_safe s op && removals_safe (run_op s op) ops
  end.

Lemma headers_rep_size db m : headers_rep db m → length (ib_headers db) = size m.
Proof.
  intros Hrep. pose proof (Permutation_length (hr_entries _ _ Hrep)) as Hlen.
  by rewrite !length_fmap, length_map_to_list in Hlen.
Qed.

(** The state of the abstract store that a database stands for; the cached head apart. *)
Definition idb_abs_rep (s : IndexedDbStore) (a : abs_store) : Prop :=
  db_rep (ib_db s) (ab_headers a) ∧ ib_sampling (ib_db s) = ab_metadata a ∧
  ∀ h, in_ranges h (idb_ranges_of (ib_db s) ACCEPTED_SAMPLING_RANGES_KEY) ↔ h ∈ ab_accepted a.

Lemma removal_safe_delete s m t : db_rep (ib_db s) m → is_tail m t →
  removal_safe s OpRemoveLast = true → delete t m ≠ ∅.
Proof.
  intros Hrep [[e He] _] Hsafe Hemp. cbn in Hsafe. rewrite (headers_rep_size _ _ (ir_headers _ _ Hrep)) in Hsafe.
  pose proof (map_size_delete_Some t m (mk_is_Some _ _ He)) as Hsz.
  rewrite Hemp, map_size_empty in Hsz. assert (size m ≠ 0%nat) by (eapply map_size_ne_0_lookup_2; eauto).
  assert (size m = 1%nat) as Hone by lia. by rewrite Hone in Hsafe.
Qed.

Lemma idb_step s a op : idb_abs_rep s a → op_valid valid op →
  ∃ a', abs_step true a op (op_result s op) a' ∧ idb_abs_rep (run_op s op) a' ∧
    (removal_safe s op = true → head_rep (ib_head s) (ab_headers a) →
     head_rep (ib_head (run_op s op)) (ab_headers a')).
Proof.
  intros (Hrep&Hmd&Hacc) Hop. destruct op as [now l|h st cs|];
    cbn [run_op op_result st_insert st_update_sampling_metadata st_remove_last IndexedDbStore_Store].
  - destruct Hop as [Hval Hclock].
    destruct (idb_insert_db now s _ l Hrep Hclock Hval) as [(Hr&Hi&Hrep'&[Hs1 Hs2]&Hhead)|[[e ->] Hno]].
    + rewrite Hr. exists (abs_put_headers l a). split; [by constructor|]. split; [|by intros _].
      split; [done|]. by rewrite Hs1, Hs2.
    + exists a. by split; [constructor|].
  - destruct (decide (is_Some (ab_headers a !! h))) as [Hh|Hh%eq_None_not_Some].
    + destruct (idb_update_spec s _ h st cs Hrep Hh) as (db'&->&Hrep'&Hsd&Hin).
      exists (abs_put_metadata h st cs a). split; [by constructor|]. split; [|done]. split; [done|].
      cbn [snd ib_db]. split; [by rewrite Hsd, Hmd|]. by eapply accepted_put.
    + rewrite (idb_update_missing s _ h st cs Hrep Hh). exists a. by split; [constructor|].
  - destruct (idb_remove_last_spec s _ Hrep) as [[Hemp ->]|(t&db'&->&Ht&Hrep'&[Hs1 Hs2])].
    + exists a. by split; [constructor|].
    + exists (abs_remove true t a). split; [by constructor|]. split.
      * split; [done|]. cbn [snd ib_db]. by rewrite Hs1, Hs2.
      * intros Hsafe Hhead. apply head_rep_delete; [done|done|by eapply removal_safe_delete].
Qed.

#[global] Instance IndexedDbStore_Refines : StoreRefines IndexedDbStore valid true.
Proof.
  refine {| abs_rep := idb_abs_rep |}. intros s a op Hrep Hop.
  destruct (idb_step s a op Hrep Hop) as (a'&?&?&_). by exists a'.
Defined.

Lemma idb_run ops s a : idb_abs_rep s a → Forall (op_valid valid) ops →
  ∃ a', abs_run true a ops (op_results s ops) a' ∧ idb_abs_rep (foldl run_op s ops) a' ∧
    (removals_safe s ops = true → head_rep (ib_head s) (ab_headers a) →
     head_rep (ib_head (foldl run_op s ops)) (ab_headers a')).
Proof.
  revert s a; induction ops as [|op ops IH]; intros s a Hrep Hops; cbn [removals_safe foldl op_results].
  { exists a. split; [constructor|done]. }
  apply Forall_cons in Hops as [Hop Hops].
  destruct (idb_step s a op Hrep Hop) as (a1&Hstep&Hrep1&Hhead1).
  destruct (IH _ _ Hrep1 Hops) as (a'&Hrun&Hrep'&Hhead'). exists a'.
  split; [by econstructor|]. split; [done|]. intros [Hsafe Hsafes]%andb_true_iff Hhead. auto.
Qed.

Lemma idb_answers s a : idb_abs_rep s a → store_answers js_u64 s a.
Proof.
  intros (Hrep&Hmd&Hacc). pose proof (ir_ranges _ _ Hrep) as Hdom.
  assert (∀ h, idb_contains_height (ib_db s) h = bool_decide (is_Some (ab_headers a !! h))) as Hhas.
  { intros h. unfold idb_contains_height, idb_get_stored_header_ranges.
    rewrite idb_get_ranges_canonical by apply Hdom. by apply ranges_dom_contains. }
  constructor.
  - intros h Hj. by apply idb_get_by_height_spec.
  - intros h _. apply Hhas.
  - intros h e He. by eapply idb_get_by_hash_spec.
  - cbn. unfold idb_get_stored_header_ranges. rewrite idb_get_ranges_canonical by apply Hdom. by eexists.
  - intros h Hj. cbn. unfold idb_get_sampling_metadata. rewrite Hhas, Hj, Hmd. by case_bool_decide.
  - cbn. unfold idb_get_sampling_ranges. rewrite idb_get_ranges_canonical by apply Hrep. eexists.
    split; [done|]. split; [apply Hrep|done].
Qed.

Lemma idb_rep_new : ∃ s, idb_new idb_empty = Ok s ∧ idb_rep s ∅.
Proof.
  eexists. split; [reflexivity|]. split; [constructor|done]; cbn.
  - done.
  - split; [done|]. intros h. rewrite in_ranges_nil, lookup_empty, is_Some_alt. done.
  - constructor; cbn; [by rewrite map_to_list_empty|constructor|constructor].
  - done.
  - intros k. by rewrite in_ranges_nil.
Qed.
(** ** Properties *)

(** C7. The browser store refines the same abstract store as the redb one, for headers whose
    heights JavaScript can hold: opening an empty database succeeds, and whatever sequence of
    insertions (of valid headers), sampling updates and removals is applied to it, the answers
    are the answers of a run of the abstract store (an insertion answers [Ok] when exactly its
    headers were added and an insertion error only when they do not extend the stored chain,
    with nothing changed; an update answers [Ok] when the metadata and the accepted heights
    were changed at a stored height; a removal answers the least stored height, which was
    removed).  In the state that is reached stored neighbours are hash-linked and every read of
    the database answers from the abstract state; the head, which is cached, does so as long as
    no removal has emptied the store. *)
Theorem idb_store_refines ops : Forall (op_valid valid) ops →
  ∃ s0, idb_new idb_empty = Ok s0 ∧
   let s := foldl run_op s0 ops in
   ∃ a, abs_run true abs_empty ops (op_results s0 ops) a ∧ store_ok valid (ab_headers a) ∧
    store_answers js_u64 s a ∧ (removals_safe s0 ops = true → head_answers s a).
Proof.
  intros Hops. destruct idb_rep_new as (s0&Hnew&Hrep0&Hhead0). exists s0. split; [done|]. intros s.
  destruct (idb_run ops s0 abs_empty) as (a&Hrun&Hrep&Hhead); [|done|].
  { split; [done|]. injection Hnew as <-. split; [done|]. intros h. cbn. rewrite in_ranges_nil. set_solver. }
  exists a. split; [done|]. split; [apply Hrep|]. split; [by apply idb_answers|].
  intros Hsafe. specialize (Hhead Hsafe Hhead0). fold s in Hhead. unfold head_answers. cbn. unfold idb_get_head.
  by destruct (ib_head s).
Qed.

(** C39. The cached head goes stale: when the only stored header is removed the database is empty,
    its ranges are empty and the header is not found any more, but [get_head] still returns the
    removed header; and a header inserted afterwards at a lower height does not become the
    head. *)
Theorem idb_stale_head s t e : idb_rep s {[t := e]} →
  ∃ s', idb_remove_last s = (Ok t, s') ∧ idb_get_head s' = Ok e ∧
    idb_get_by_height (ib_db s') t = Err NotFound ∧ idb_get_stored_header_ranges (ib_db s') = Ok [] ∧
    ∀ now e', valid e' → clock_ok now → (idb_insert now s' [e']).1 = Ok tt → eh_height e' < t →
      idb_get_by_height (ib_db (idb_insert now s' [e']).2) (eh_height e') = Ok e' ∧
      idb_get_head (idb_insert now s' [e']).2 = Ok e.
Proof.
  intros [Hrep Hhead].
  destruct (idb_remove_last_spec s _ Hrep) as [[Hemp _]|(t'&db'&Hrm&[[e' Ht'] _]&Hrep'&_)].
  { exfalso. by apply (map_non_empty_singleton t e) in Hemp. }
  apply lookup_singleton_Some in Ht' as [<- <-]. rewrite delete_singleton_eq in Hrep'. eexists. split; [done|].
  assert (ib_head s = Some e) as Hcache.
  { unfold head_rep in Hhead. destruct (ib_head s) as [e0|].
    - destruct Hhead as [_ He0]. apply lookup_singleton_Some in He0 as [_ ->]. done.
    - by apply (map_non_empty_singleton t e) in Hhead. }
  destruct (proj1 (ir_ok _ _ Hrep) t e (lookup_singleton_eq _ _)) as [Hth Hve].
  assert (js_u64 t = true) as Hjt by (eapply stored_js; [apply Hrep|apply lookup_singleton_eq]).
  assert (idb_ranges_of db' HEADER_RANGES_KEY = []) as Hnil.
  { destruct (ranges_dom_tail _ _ (ir_ranges _ _ Hrep')) as [(_&->&_)|(x&?&_&_&[[? Hx] _]&_)]; [done|].
    by rewrite lookup_empty in Hx. }
  cbn [ib_db ib_head]. split_and!.
  - unfold idb_get_head. cbn. by rewrite Hcache.
  - by rewrite (idb_get_by_height_spec _ ∅).
  - unfold idb_get_stored_header_ranges. rewrite idb_get_ranges_canonical; by rewrite Hnil.
  - intros now e' Hv Hclock Hins Hlt. unfold idb_insert in *. cbn [ib_db ib_head] in *.
    destruct (verified_try_from now [e']) as [l'| |] eqn:Hver; [|done|done].
    apply verified_try_from_Ok in Hver as [-> Hl].
    destruct (insert_tx_op_spec (λ i, now (length [e'] + i)%nat) db' ∅ e' [])
      as [(la&db2&->&Hla&_&_&_&Hrep2&_)|[[er Her] _]]; [done|intros i; apply Hclock|by constructor|done| |].
    + injection Hla as <-. cbn [idb_write_tx fst snd ib_db]. rewrite Hcache. cbn [fmap option_fmap option_map default from_option id].
      rewrite Hth, (proj2 (Z.ltb_ge _ _)) by lia. unfold idb_get_head. cbn [ib_head ok_or]. split; [|done].
      assert (insert_all ∅ [e'] !! eh_height e' = Some e') as Hin by (cbn; by rewrite lookup_insert_eq).
      rewrite (idb_get_by_height_spec _ _ _ Hrep2) by (eapply stored_js; [apply Hrep2|done]).
      by rewrite Hin.
    + rewrite Her in Hins. done.
Qed.

(** Migration: the ranges of version 3 are read back, sorted and merged, and the ranges of
    version 2, which had no gaps, run from 1 to its last record. *)
Theorem idb_migrates db : ib_schema db = None → ib_ranges db = ∅ →
  (∀ rs, ib_ranges_v3 db ≠ [] → v3_insert_ranges (ib_ranges_v3 db) [] = Ok rs → canonical rs →
    (∀ k, in_ranges k rs → js_u64 k = true) →
    ∃ db', migrate_older_to_v4 db = Ok db' ∧ idb_get_stored_header_ranges db' = Ok rs ∧
      detect_schema_version db' = Some DB_VERSION ∧ ib_headers db' = ib_headers db) ∧
  (∀ r e, ib_ranges_v3 db = [] → is_Some (height_index_get db 1) → last (ib_headers db) = Some r →
    eh_decode (en_header (r.2)) = Some e → 1 ≤ eh_height e ≤ MAX_SAFE_INTEGER →
    ∃ db', migrate_older_to_v4 db = Ok db' ∧ idb_get_stored_header_ranges db' = Ok [1 ..= eh_height e] ∧
      detect_schema_version db' = Some DB_VERSION ∧ ib_headers db' = ib_headers db).
Proof.
  intros Hs Hr. unfold migrate_older_to_v4, detect_schema_version. rewrite Hs, Hr.
  rewrite (bool_decide_true (∅ = ∅)) by done. split.
  - intros rs Hne Hv3 Hc Hall. rewrite (bool_decide_false (ib_ranges_v3 db = [])) by done. cbn [andb negb].
    unfold v3_get_header_ranges. rewrite Hv3, Hr. cbn.
    rewrite (bool_decide_true (∅ = ∅)) by done. cbn [ensure mbind res_bind].
    set (db0 := {| ib_headers := _ |}).
    destruct (idb_set_ranges_spec db0 HEADER_RANGES_KEY rs Hc Hall) as (db1&->&Hh&_&Hhd&_). cbn [mbind res_bind].
    eexists. split; [done|]. split_and!; [|done|done]. unfold idb_get_stored_header_ranges, idb_get_ranges.
    change (idb_ranges_of _ HEADER_RANGES_KEY) with (idb_ranges_of db1 HEADER_RANGES_KEY). rewrite Hh.
    by rewrite from_vec_sorted by by apply canonical_sorted.
  - intros r e -> Hone Hlast Hdec He. rewrite (bool_decide_true ([] = [])) by done. cbn [andb negb].
    rewrite (bool_decide_true (is_Some _)) by done. change (4 <=? 2) with false. change (2 <=? 2) with true. cbv iota.
    unfold v2_get_head_header. rewrite Hlast. cbn [ok_or mbind res_bind]. unfold idb_decode. rewrite Hdec. cbn [ok_or].
    assert (canonical [1 ..= eh_height e]) as Hc by (cbn; unfold MAX_SAFE_INTEGER, u64_max in *; lia).
    rewrite (from_vec_sorted [1 ..= eh_height e]) by by apply canonical_sorted.
    cbn [map_err mbind res_bind]. set (db0 := {| ib_headers := _ |}).
    destruct (idb_set_ranges_spec db0 HEADER_RANGES_KEY _ Hc) as (db1&->&Hh&_&Hhd&_).
    { intros k Hk. apply in_ranges_cons in Hk as [Hk|Hk%in_ranges_nil]; [|done]. unfold in_range in Hk. cbn in Hk.
      apply js_u64_safe. lia. }
    cbn [mbind res_bind]. eexists. split; [done|]. split_and!; [|done|done]. unfold idb_get_stored_header_ranges, idb_get_ranges.
    change (idb_ranges_of _ HEADER_RANGES_KEY) with (idb_ranges_of db1 HEADER_RANGES_KEY). rewrite Hh.
    by rewrite from_vec_sorted by by apply canonical_sorted.
Qed.
End Rep.
End IndexedDb.

(** ** Witnesses *)

#[local] Existing Instances toy_DahExternals toy_Tendermint toy_TendermintSpec.

#[local] Instance toy_js : JsSerde := {| js_u64 h := h <=? MAX_SAFE_INTEGER |}.
#[local] Instance toy_js_spec : JsSerdeSpec.
Proof. constructor. intros h Hh. apply Z.leb_le. lia. Qed.

(** Validated headers at heights that JavaScript can hold. *)
Definition js_validated (e : ExtendedHeader) : Prop := validated e ∧ eh_height e ≤ MAX_SAFE_INTEGER.
#[local] Instance toy_js_validated : ValidHeaders js_validated.
Proof.
  pose proof (validated_ValidHeaders enc_header_inj) as [Hd Hh]. constructor.
  - intros e1 e2 [H1 _] [H2 _]. by apply Hd.
  - intros e [Hv _]. by apply Hh.
Qed.
Lemma js_validated_height e : js_validated e → eh_height e ≤ MAX_SAFE_INTEGER.
Proof. by intros [_ ?]. Qed.

Lemma toy_js_valid_1 : js_validated toy_1.
Proof. split; [split; [vm_compute; reflexivity|done]|done]. Qed.
Lemma toy_js_valid_2 : js_validated toy_2.
Proof. split; [split; [vm_compute; reflexivity|done]|done]. Qed.
Lemma toy_js_clock : clock_ok (λ _, 1000).
Proof. intros i. by eexists. Qed.

Lemma toy_js_ops (l : list ExtendedHeader) : Forall js_validated l → op_valid js_validated (OpInsert (λ _, 1000) l).
Proof. intros Hl. split; [done|apply toy_js_clock]. Qed.

Definition toy_idb_ops : list store_op :=
  [OpInsert (λ _, 1000) [toy_1; toy_2]; OpInsert (λ _, 1000) [toy_2]; OpUpdateSampling 2 Accepted [toy_cid 5];
   OpRemoveLast].
Lemma toy_idb_ops_valid : Forall (op_valid js_validated) toy_idb_ops.
Proof.
  apply Forall_cons; split; [apply toy_js_ops; repeat constructor; [apply toy_js_valid_1..|apply toy_js_valid_2]|].
  apply Forall_cons; split; [apply toy_js_ops; repeat constructor; apply toy_js_valid_2|].
  apply Forall_cons; split; [exact I|]. apply Forall_cons; split; [exact I|apply Forall_nil, I].
Qed.

(** An insertion is accepted, a second one rejected because its height is taken, the second
    header is accepted and the first one removed: the database, its head included, reads as the
    abstract store, which holds the second header and its metadata. *)
Lemma idb_store_refines_witness :
  ∃ s0 e a, idb_new idb_empty = Ok s0 ∧
    abs_run true abs_empty toy_idb_ops [RDone (Ok tt); RDone (Err (InsertionFailed e)); RDone (Ok tt); RRemoved (Ok 1)] a ∧
    ab_headers a !! 1 = None ∧ ab_headers a !! 2 = Some toy_2 ∧
    idb_get_by_height (ib_db (foldl run_op s0 toy_idb_ops)) 2 = Ok toy_2 ∧
    idb_get_sampling_metadata (ib_db (foldl run_op s0 toy_idb_ops)) 2
      = Ok (Some {| status := Accepted; cids := [toy_cid 5] |}) ∧
    idb_get_head (foldl run_op s0 toy_idb_ops) = Ok toy_2 ∧ head_answers (foldl run_op s0 toy_idb_ops) a.
Proof.
  destruct (idb_store_refines js_validated js_validated_height toy_idb_ops toy_idb_ops_valid)
    as (s0&Hn&a&Hrun&_&Hans&Hhead).
  exists s0. injection Hn as <-. cbv zeta in Hans, Hhead.
  match goal with Hr : abs_run _ _ _ (op_results ?x _) _ |- _ => set (s0 := x) in * end.
  assert (∃ e, op_results s0 toy_idb_ops = [RDone (Ok tt); RDone (Err (InsertionFailed e)); RDone (Ok tt); RRemoved (Ok 1)])
    as [e Hres] by (eexists; vm_compute; reflexivity).
  rewrite Hres in Hrun. exists e, a. split; [reflexivity|]. split; [exact Hrun|].
  assert (∀ h r, h <= MAX_SAFE_INTEGER → st_get_by_height (foldl run_op s0 toy_idb_ops) h = ok_or r NotFound →
    ab_headers a !! h = r) as Hget.
  { intros h r Hh Hr. rewrite (sa_get_by_height _ _ _ Hans h) in Hr by by apply Z.leb_le. exact (ok_or_inj _ _ _ Hr). }
  split_and!; [apply Hget; [done|vm_compute; reflexivity]|apply Hget; [done|vm_compute; reflexivity]|
    vm_compute; reflexivity|vm_compute; reflexivity|vm_compute; reflexivity|].
  apply Hhead. vm_compute. reflexivity.
Defined.

Lemma toy_idb_rep : ∃ s, idb_rep js_validated s {[2 := toy_2]}.
Proof.
  destruct (idb_rep_new js_validated) as (s0&_&Hrep0).
  destruct (idb_insert_spec js_validated js_validated_height (λ _, 1000) s0 ∅ [toy_2] Hrep0 toy_js_clock)
    as [(_&_&Hrep)|[_ Hno]].
  - constructor; [apply toy_js_valid_2|constructor].
  - eexists. exact Hrep.
  - exfalso. apply Hno. split_and!; try done.
    + repeat constructor.
    + left. intros h [x Hx]. by rewrite lookup_empty in Hx.
    + repeat constructor.
Qed.

Lemma idb_stale_head_witness : ∃ s s', idb_remove_last s = (Ok 2, s') ∧ idb_get_head s' = Ok toy_2.
Proof.
  destruct toy_idb_rep as [s Hrep]. exists s.
  destruct (idb_stale_head js_validated js_validated_height s 2 toy_2 Hrep) as (s'&Hrm&Hhead&_).
  exists s'. exact (conj Hrm Hhead).
Defined.

Lemma idb_migrates_witness :
  ∃ db', migrate_older_to_v4 {| ib_headers := []; ib_next_id := 1; ib_ranges := ∅; ib_ranges_v3 := [(1, 5); (8, 9)];
      ib_sampling := ∅; ib_schema := None |} = Ok db' ∧ idb_get_stored_header_ranges db' = Ok [1 ..= 5; 8 ..= 9].
Proof.
  destruct (proj1 (idb_migrates {| ib_headers := []; ib_next_id := 1; ib_ranges := ∅; ib_ranges_v3 := [(1, 5); (8, 9)];
      ib_sampling := ∅; ib_schema := None |} eq_refl eq_refl) [1 ..= 5; 8 ..= 9]) as (db'&Hm&Hr&_).
  - discriminate.
  - vm_compute. reflexivity.
  - vm_compute. repeat split; discriminate.
  - intros k Hk. apply in_ranges_cons in Hk as [Hk|[Hk|Hk%in_ranges_nil]%in_ranges_cons]; [..|done];
      unfold in_range in Hk; cbn in Hk; apply Z.leb_le; unfold MAX_SAFE_INTEGER; lia.
  - exists db'. exact (conj Hm Hr).
Defined.
