(* ===== verification/EitherStore.v ===== *)
(** * Combining stores (src/node/src/store/either_store.rs)

    [EitherStore<L, R>] delegates every operation to the store it holds; it keeps the
    contract of a store when both sides do. *)

From S2P Require Import Prelude Consts BlockRanges Nmt Merkle Dah Header ShwapIds Store.
From S2P Require Import InMemoryStore.

Inductive EitherStore (L R : Type) := EsLeft (store : L) | EsRight (store : R).
Arguments EsLeft {L R} _.
Arguments EsRight {L R} _.

Section EitherStore.
Context {L R : Type}.

Definition es_is_left (s : EitherStore L R) : bool :=
  match s with EsLeft _ => true | EsRight _ => false end.
Definition es_is_right (s : EitherStore L R) : bool :=
  match s with EsLeft _ => false | EsRight _ => true end.
(** [left], [left_mut], [into_left] and their counterparts. *)
Definition es_left (s : EitherStore L R) : option L :=
  match s with EsLeft store => Some store | EsRight _ => None end.
Definition es_right (s : EitherStore L R) : option R :=
  match s with EsLeft _ => None | EsRight store => Some store end.

(** The macro [call!], for a method that reads and for one that changes the store. *)
Definition es_call {A} (s : EitherStore L R) (f : L → A) (g : R → A) : A :=
  match s with EsLeft store => f store | EsRight store => g store end.
Definition es_call_mut {A} (s : EitherStore L R) (f : L → A * L) (g : R → A * R)
    : A * EitherStore L R :=
  match s with
  | EsLeft store => let '(a, store) := f store in (a, EsLeft store)
  | EsRight store => let '(a, store) := g store in (a, EsRight store)
  end.

#[global] Instance EitherStore_Store `{Store L, Store R} : Store (EitherStore L R) := {|
  st_get_head s := es_call s st_get_head st_get_head;
  st_get_by_hash s hash := es_call s (λ st, st_get_by_hash st hash) (λ st, st_get_by_hash st hash);
  st_get_by_height s height :=
    es_call s (λ st, st_get_by_height st height) (λ st, st_get_by_height st height);
  st_head_height s := es_call s st_head_height st_head_height;
  st_has s hash := es_call s (λ st, st_has st hash) (λ st, st_has st hash);
  st_has_at s height := es_call s (λ st, st_has_at st height) (λ st, st_has_at st height);
  st_update_sampling_metadata s height status cids :=
    es_call_mut s (λ st, st_update_sampling_metadata st height status cids)
      (λ st, st_update_sampling_metadata st height status cids);
  st_get_sampling_metadata s height :=
    es_call s (λ st, st_get_sampling_metadata st height) (λ st, st_get_sampling_metadata st height);
  st_insert now s headers :=
    es_call_mut s (λ st, st_insert now st headers) (λ st, st_insert now st headers);
  st_get_stored_header_ranges s :=
    es_call s st_get_stored_header_ranges st_get_stored_header_ranges;
  st_get_accepted_sampling_ranges s :=
    es_call s st_get_accepted_sampling_ranges st_get_accepted_sampling_ranges;
  st_remove_last s := es_call_mut s st_remove_last st_remove_last
|}.

Context `{Tendermint} `{DahExternals} `{Store L, Store R}.
Context (valid : ExtendedHeader → Prop) `{!StoreSpec L valid, !StoreSpec R valid}.

Definition es_rep (s : EitherStore L R) (m : gmap Z ExtendedHeader) : Prop :=
  match s with EsLeft st => store_rep st m | EsRight st => store_rep st m end.

Lemma es_call_mut_fst {A} (s : EitherStore L R) (f : L → A * L) (g : R → A * R) :
  (es_call_mut s f g).1 = es_call s (λ st, (f st).1) (λ st, (g st).1).
Proof. destruct s as [st|st]; simpl; [by destruct (f st)|by destruct (g st)]. Qed.
Lemma es_call_mut_rep {A} (s : EitherStore L R) (f : L → A * L) (g : R → A * R) m :
  es_rep (es_call_mut s f g).2 m ↔
  es_call s (λ st, store_rep (f st).2 m) (λ st, store_rep (g st).2 m).
Proof. destruct s as [st|st]; simpl; [by destruct (f st)|by destruct (g st)]. Qed.

#[global] Instance EitherStore_StoreSpec : StoreSpec (EitherStore L R) valid.
Proof.
  refine {| store_rep := es_rep |}.
  - intros [s|s] m Hrep; exact (store_rep_ok s m Hrep).
  - intros [s|s] m Hrep; exact (spec_stored_ranges s m Hrep).
  - intros [s|s] m h Hrep; exact (spec_get_by_height s m h Hrep).
  - intros [s|s] m h Hrep; exact (spec_has_at s m h Hrep).
  - intros [s|s] m h e Hrep; exact (spec_get_by_hash s m h e Hrep).
  - intros [s|s] m Hrep; exact (spec_head_height s m Hrep).
  - intros [s|s] m Hrep; exact (spec_get_head s m Hrep).
  - intros s m now l Hrep Hv Hc. simpl. rewrite es_call_mut_fst, !es_call_mut_rep.
    destruct s as [s|s]; by apply (spec_insert s m now l).
  - intros s m h st cs Hrep. simpl. rewrite es_call_mut_fst, es_call_mut_rep.
    destruct s as [s|s]; by apply (spec_update_sampling s m h st cs).
  - intros [s|s] m Hrep; exact (spec_accepted s m Hrep).
  - intros [s|s] m h st cs Hrep Hh; simpl.
    + destruct (spec_sampled s m h st cs Hrep Hh) as (old&rs&rs'&?&?&?&?&?).
      destruct (st_update_sampling_metadata s h st cs). exists old, rs, rs'. auto.
    + destruct (spec_sampled s m h st cs Hrep Hh) as (old&rs&rs'&?&?&?&?&?).
      destruct (st_update_sampling_metadata s h st cs). exists old, rs, rs'. auto.
  - intros [s|s] m Hrep; simpl.
    + destruct (spec_remove_last s m Hrep) as [[-> ->]|(t&s'&->&Ht&Hr&Hmd)]; [by left|].
      right. by exists t, (EsLeft s').
    + destruct (spec_remove_last s m Hrep) as [[-> ->]|(t&s'&->&Ht&Hr&Hmd)]; [by left|].
      right. by exists t, (EsRight s').
Defined.

(** A combination of two stores that keep the contract keeps it too, and it never changes
    sides: its answers to any sequence of operations are the ones of the abstract store that
    the side it is on refines. *)
Theorem either_store_refines kl kr `{!StoreRefines L valid kl} `{!StoreRefines R valid kr}
    (s : EitherStore L R) a ops :
  match s with EsLeft st => abs_rep st a | EsRight st => abs_rep st a end →
  Forall (op_valid valid) ops →
  es_is_left (foldl run_op s ops) = es_is_left s ∧
  ∃ a', abs_run (if es_is_left s then kl else kr) a ops (op_results s ops) a' ∧
    match foldl run_op s ops with EsLeft st => abs_rep st a' | EsRight st => abs_rep st a' end.
Proof.
  revert s a. induction ops as [|op ops IH]; intros s a Hrep Hops.
  { split; [done|]. exists a. split; [constructor|done]. }
  apply Forall_cons in Hops as [Hop Hops]. cbn [foldl op_results].
  assert (∃ a1, abs_step (if es_is_left s then kl else kr) a op (op_result s op) a1 ∧
    es_is_left (run_op s op) = es_is_left s ∧
    match run_op s op with EsLeft st => abs_rep st a1 | EsRight st => abs_rep st a1 end) as (a1&Hstep&Hside&Hrep1).
  { destruct s as [s|s].
    - destruct (refines_step s a op Hrep Hop) as (a1&Hstep&Hrep1). exists a1.
      destruct op; cbn in *; by destruct (st_insert _ _ _) || destruct (st_update_sampling_metadata _ _ _ _) ||
        destruct (st_remove_last _).
    - destruct (refines_step s a op Hrep Hop) as (a1&Hstep&Hrep1). exists a1.
      destruct op; cbn in *; by destruct (st_insert _ _ _) || destruct (st_update_sampling_metadata _ _ _ _) ||
        destruct (st_remove_last _). }
  destruct (IH _ a1 Hrep1 Hops) as [Hside' (a'&Hrun&Hrep')]. rewrite Hside in Hside', Hrun.
  split; [done|]. exists a'. split; [by econstructor|done].
Qed.
End EitherStore.

(** ** Witnesses *)
#[local] Existing Instances toy_DahExternals toy_Tendermint toy_TendermintSpec toy_validated.

Lemma either_store_refines_witness :
  es_is_left (foldl run_op (EsLeft (R := InMemoryStoreInner) im_new) toy_ops) = true ∧
  ∃ a, abs_run false abs_empty toy_ops
    [RDone (Ok tt); RDone (Ok tt); RDone (Ok tt); RRemoved (Ok 1)] a.
Proof.
  destruct (either_store_refines validated false false (EsLeft (R := InMemoryStoreInner) im_new) abs_empty toy_ops)
    as [Hside (a&Hrun&_)]; [|exact toy_ops_valid|].
  - split; [exact (im_rep_new validated)|]. split; [reflexivity|]. intros h. cbn. rewrite in_ranges_nil. set_solver.
  - split; [exact Hside|]. exists a.
    assert (op_results (EsLeft (R := InMemoryStoreInner) im_new) toy_ops =
      [RDone (Ok tt); RDone (Ok tt); RDone (Ok tt); RRemoved (Ok 1)]) as Hres by (vm_compute; reflexivity).
    rewrite Hres in Hrun. exact Hrun.
Defined.

Lemma get_range_correct_witness :
  (∃ t l, is_head (insert_all ∅ [toy_1]) t ∧ bounds_within Unbounded (Included 1) t ∧
     get_range (im_insert toy_now im_new [toy_1]).2 Unbounded (Included 1) = Ok l ∧
     Forall2 (λ h e, insert_all ∅ [toy_1] !! h = Some e)
       (range_heights (bound_lo Unbounded ..= bound_hi (Included 1) t)) l) ∨
  (get_range (im_insert toy_now im_new [toy_1]).2 Unbounded (Included 1) = Err NotFound ∧
    ∀ t, is_head (insert_all ∅ [toy_1]) t → bounds_within Unbounded (Included 1) t →
      ∃ h, h ∈ range_heights (bound_lo Unbounded ..= bound_hi (Included 1) t) ∧
        insert_all ∅ [toy_1] !! h = None).
Proof.
  apply (get_range_correct validated (im_insert toy_now im_new [toy_1]).2 (insert_all ∅ [toy_1])
    Unbounded (Included 1)); [exact toy_state_rep|exact I|]. unfold bound_u64, u64_max. lia.
Defined.
