(* ===== verification/PeerTracker.v ===== *)
(** * The peer tracker

    src/node/src/peer_tracker.rs: what the node knows about its peers (their addresses, open
    connections, and whether they are trusted), the counters published to observers, and the
    choice of peers for requests.  The identifiers of peers, addresses and connections are
    types of libp2p; the order in which a [DashMap] is iterated and the shuffle of
    [best_peer] are parameters.

    The contract is a refinement: seen from outside, the tracker is a set of open connections
    and a set of trusted peers.  The events of a swarm (a connection is closed only while it is
    open) keep the counters and the published events exact. *)

From S2P Require Import Prelude.

(** What the tracker uses of libp2p and of the hash map: decidable identifiers, and the
    order of iteration over the map. *)
Class PeerTypes := {
  PeerId : Type; PeerId_eq :: EqDecision PeerId; PeerId_countable :: Countable PeerId;
  Multiaddr : Type; Multiaddr_eq :: EqDecision Multiaddr;
  ConnectionId : Type; ConnectionId_eq :: EqDecision ConnectionId;
  ConnectionId_countable :: Countable ConnectionId;
  map_iter {A} : gmap PeerId A → list (PeerId * A);
  map_iter_perm {A} (m : gmap PeerId A) : map_iter m ≡ₚ map_to_list m
}.

Inductive PeerState := Discovered | AddressesFound | Connected.
#[global] Instance PeerState_eq : EqDecision PeerState.
Proof. solve_decision. Defined.

Section PeerTracker.
Context `{PeerTypes}.

Record PeerInfo := {
  p_state : PeerState; addrs : list Multiaddr; connections : list ConnectionId; trusted : bool
}.

Record PeerTrackerInfo := { num_connected_peers : Z; num_connected_trusted_peers : Z }.

(** The events of src/node/src/events.rs that the tracker publishes. *)
Inductive PeerEvent :=
| PeerConnected (id : PeerId) (is_trusted : bool)
| PeerDisconnected (id : PeerId) (is_trusted : bool).

(** [published] is what was sent on [event_pub]. *)
Record PeerTracker := {
  peers : gmap PeerId PeerInfo; info : PeerTrackerInfo; published : list PeerEvent
}.

Definition info_is_connected (p : PeerInfo) : bool :=
  match p_state p with Connected => true | _ => false end.

Definition tracker_new : PeerTracker :=
  {| peers := ∅; published := [];
     info := {| num_connected_peers := 0; num_connected_trusted_peers := 0 |} |}.

Definition fresh_peer : PeerInfo :=
  {| p_state := Discovered; addrs := []; connections := []; trusted := false |}.

Definition set_peer (t : PeerTracker) (p : PeerId) (i : PeerInfo) : PeerTracker :=
  {| peers := <[p := i]> (peers t); info := info t; published := published t |}.
Definition set_info (t : PeerTracker) (i : PeerTrackerInfo) : PeerTracker :=
  {| peers := peers t; info := i; published := published t |}.
Definition publish (t : PeerTracker) (e : PeerEvent) : PeerTracker :=
  {| peers := peers t; info := info t; published := published t ++ [e] |}.

Definition set_maybe_discovered (t : PeerTracker) (p : PeerId) : PeerTracker * bool :=
  match peers t !! p with
  | None => (set_peer t p fresh_peer, true)
  | Some _ => (t, false)
  end.

(** [get]: the entry, which is created when it is missing.  Its users store it back. *)
Definition get_peer (t : PeerTracker) (p : PeerId) : PeerInfo := default fresh_peer (peers t !! p).

Definition push_addr (l : list Multiaddr) (a : Multiaddr) : list Multiaddr :=
  if bool_decide (a ∈ l) then l else l ++ [a].

Definition add_addresses (t : PeerTracker) (p : PeerId) (new : list Multiaddr) : PeerTracker :=
  let i := get_peer t p in
  let l := foldl push_addr (addrs i) new in
  let s := if bool_decide (p_state i = Discovered) && negb (bool_decide (l = []))
           then AddressesFound else p_state i in
  set_peer t p {| p_state := s; addrs := l; connections := connections i; trusted := trusted i |}.

Definition increment_connected_peers (n : PeerTrackerInfo) (is_trusted : bool) : res unit PeerTrackerInfo :=
  c ← u64_add (num_connected_peers n) 1;
  ct ← (if is_trusted then u64_add (num_connected_trusted_peers n) 1
        else Ok (num_connected_trusted_peers n));
  Ok {| num_connected_peers := c; num_connected_trusted_peers := ct |}.

Definition decrement_connected_peers (n : PeerTrackerInfo) (is_trusted : bool) : res unit PeerTrackerInfo :=
  c ← u64_sub (num_connected_peers n) 1;
  ct ← (if is_trusted then u64_sub (num_connected_trusted_peers n) 1
        else Ok (num_connected_trusted_peers n));
  Ok {| num_connected_peers := c; num_connected_trusted_peers := ct |}.

Definition set_trusted (t : PeerTracker) (p : PeerId) (is_trusted : bool) : res unit PeerTracker :=
  let i := get_peer t p in
  if eqb (trusted i) is_trusted then Ok (set_peer t p i) else
  let i := {| p_state := p_state i; addrs := addrs i; connections := connections i;
              trusted := is_trusted |} in
  let t := set_peer t p i in
  if info_is_connected i then
    let n := info t in
    ct ← (if is_trusted then u64_add (num_connected_trusted_peers n) 1
          else u64_sub (num_connected_trusted_peers n) 1);
    Ok (set_info t {| num_connected_peers := num_connected_peers n;
                      num_connected_trusted_peers := ct |})
  else Ok t.

Definition set_connected (t : PeerTracker) (p : PeerId) (c : ConnectionId)
    (address : option Multiaddr) : res unit PeerTracker :=
  let i := get_peer t p in
  let l := match address with Some a => push_addr (addrs i) a | None => addrs i end in
  let cs := connections i ++ [c] in
  if negb (info_is_connected i) then
    let t := set_peer t p {| p_state := Connected; addrs := l; connections := cs;
                             trusted := trusted i |} in
    n ← increment_connected_peers (info t) (trusted i);
    Ok (publish (set_info t n) (PeerConnected p (trusted i)))
  else Ok (set_peer t p {| p_state := p_state i; addrs := l; connections := cs;
                           trusted := trusted i |}).

Definition set_maybe_disconnected (t : PeerTracker) (p : PeerId) (c : ConnectionId)
    : res unit (PeerTracker * bool) :=
  let i := get_peer t p in
  let cs := filter (λ id, id ≠ c) (connections i) in
  if bool_decide (cs = []) then
    let s := if bool_decide (addrs i = []) then Discovered else AddressesFound in
    let t := set_peer t p {| p_state := s; addrs := addrs i; connections := cs;
                             trusted := trusted i |} in
    n ← decrement_connected_peers (info t) (trusted i);
    Ok (publish (set_info t n) (PeerDisconnected p (trusted i)), true)
  else Ok (set_peer t p {| p_state := p_state i; addrs := addrs i; connections := cs;
                           trusted := trusted i |}, false).

(** Both queries go through [get], so they add an unknown peer. *)
Definition is_connected (t : PeerTracker) (p : PeerId) : PeerTracker * bool :=
  (set_peer t p (get_peer t p), info_is_connected (get_peer t p)).
Definition addresses (t : PeerTracker) (p : PeerId) : PeerTracker * list Multiaddr :=
  (set_peer t p (get_peer t p), addrs (get_peer t p)).

Definition remove (t : PeerTracker) (p : PeerId) : PeerTracker :=
  {| peers := delete p (peers t); info := info t; published := published t |}.

(** *** The choice of peers *)

Definition peers_where (P : PeerInfo → bool) (t : PeerTracker) : list PeerId :=
  (filter (λ pair : PeerId * PeerInfo, P (pair.2) = true) (map_iter (peers t))).*1.
Definition connected_peers (t : PeerTracker) : list PeerId := peers_where info_is_connected t.
Definition tracker_connections (t : PeerTracker) : list (PeerId * list ConnectionId) :=
  (λ pair : PeerId * PeerInfo, (pair.1, connections (pair.2))) <$>
    filter (λ pair : PeerId * PeerInfo, info_is_connected (pair.2) = true) (map_iter (peers t)).

Definition MAX_PEER_SAMPLE : nat := 128.
Definition best_peer (shuffle : list PeerId → list PeerId) (t : PeerTracker) : option PeerId :=
  head (shuffle (take MAX_PEER_SAMPLE (peers_where info_is_connected t))).
Definition best_n_peers (t : PeerTracker) (limit : nat) : list PeerId :=
  take limit (peers_where info_is_connected t).
Definition trusted_n_peers (t : PeerTracker) (limit : nat) : list PeerId :=
  take limit (peers_where (λ i, info_is_connected i && trusted i) t).

(** ** The tracker seen from outside *)

Inductive TrackerOp :=
| OpDiscovered (p : PeerId)
| OpAddresses (p : PeerId) (l : list Multiaddr)
| OpTrusted (p : PeerId) (b : bool)
| OpConnected (p : PeerId) (c : ConnectionId) (a : option Multiaddr)
| OpDisconnected (p : PeerId) (c : ConnectionId)
| OpQuery (p : PeerId)
| OpRemove (p : PeerId).

Definition tracker_step (t : PeerTracker) (op : TrackerOp) : res unit PeerTracker :=
  match op with
  | OpDiscovered p => Ok (set_maybe_discovered t p).1
  | OpAddresses p l => Ok (add_addresses t p l)
  | OpTrusted p b => set_trusted t p b
  | OpConnected p c a => set_connected t p c a
  | OpDisconnected p c => fst <$> set_maybe_disconnected t p c
  | OpQuery p => Ok (is_connected t p).1
  | OpRemove p => Ok (remove t p)
  end.

Fixpoint tracker_run (t : PeerTracker) (ops : list TrackerOp) : res unit PeerTracker :=
  match ops with
  | [] => Ok t
  | op :: ops => t ← tracker_step t op; tracker_run t ops
  end.

(** The open connections and the trusted peers. *)
Record Network := { open : gset (PeerId * ConnectionId); trust : gset PeerId }.

Definition network_new : Network := {| open := ∅; trust := ∅ |}.
Definition online (w : Network) : gset PeerId := set_map fst (open w).

Definition network_step (w : Network) (op : TrackerOp) : Network :=
  match op with
  | OpDiscovered _ | OpAddresses _ _ | OpQuery _ => w
  | OpTrusted p b =>
      {| open := open w; trust := if b then {[p]} ∪ trust w else trust w ∖ {[p]} |}
  | OpConnected p c _ => {| open := {[(p, c)]} ∪ open w; trust := trust w |}
  | OpDisconnected p c => {| open := open w ∖ {[(p, c)]}; trust := trust w |}
  | OpRemove p => {| open := open w; trust := trust w ∖ {[p]} |}
  end.

(** What the tracker relies on: a connection is closed while it is open, and a peer is
    forgotten when it has no connection. *)
Definition op_valid (w : Network) (op : TrackerOp) : bool :=
  match op with
  | OpDisconnected p c => bool_decide ((p, c) ∈ open w)
  | OpRemove p => bool_decide (p ∉ online w)
  | _ => true
  end.

Fixpoint ops_valid (w : Network) (ops : list TrackerOp) : bool :=
  match ops with
  | [] => true
  | op :: ops => op_valid w op && ops_valid (network_step w op) ops
  end.

(** The peers that are connected according to the published events; [None] when the events
    do not alternate. *)
Definition replay_step (s : gset PeerId) (e : PeerEvent) : option (gset PeerId) :=
  match e with
  | PeerConnected p _ => if bool_decide (p ∈ s) then None else Some ({[p]} ∪ s)
  | PeerDisconnected p _ => if bool_decide (p ∈ s) then Some (s ∖ {[p]}) else None
  end.
Definition replay (es : list PeerEvent) : option (gset PeerId) :=
  foldl (λ s e, s ≫= λ s, replay_step s e) (Some ∅) es.

(** ** The invariant *)

Definition peer_ok (i : PeerInfo) : Prop :=
  (info_is_connected i = true ↔ connections i ≠ []) ∧
  (info_is_connected i = false → (p_state i = Discovered ↔ addrs i = [])) ∧
  NoDup (addrs i).

(** The entries of the map are those of the network. *)
Record entries (m : gmap PeerId PeerInfo) (w : Network) : Prop := {
  en_open p c : (p, c) ∈ open w ↔ c ∈ connections (default fresh_peer (m !! p));
  en_trust p : p ∈ trust w ↔ trusted (default fresh_peer (m !! p)) = true;
  en_ok p : peer_ok (default fresh_peer (m !! p))
}.

Record tracks (t : PeerTracker) (w : Network) : Prop := {
  tr_entries : entries (peers t) w;
  tr_num : num_connected_peers (info t) = Z.of_nat (size (online w));
  tr_num_trusted : num_connected_trusted_peers (info t) = Z.of_nat (size (online w ∩ trust w));
  tr_events : replay (published t) = Some (online w)
}.

Lemma elem_of_online w p : p ∈ online w ↔ ∃ c, (p, c) ∈ open w.
Proof. unfold online. rewrite elem_of_map. split; [intros ([q c]&->&?); eauto|intros [c ?]; by exists (p, c)]. Qed.

Lemma online_connected t w p : tracks t w →
  p ∈ online w ↔ info_is_connected (get_peer t p) = true.
Proof.
  intros [[Ho _ Hk] _ _ _]. rewrite elem_of_online. destruct (Hk p) as ((Hc1&Hc2)&_).
  split.
  - intros [c Hc%Ho]. apply Hc2. intros Hnil. rewrite Hnil in Hc. by apply not_elem_of_nil in Hc.
  - intros Hc%Hc1. unfold get_peer in *. destruct (connections _) as [|c l] eqn:Heq in Hc; [done|].
    exists c. rewrite Ho, Heq. left.
Qed.

Lemma get_peer_ok t w p : tracks t w → peer_ok (get_peer t p).
Proof. intros Hw. apply (en_ok _ _ (tr_entries _ _ Hw)). Qed.
Lemma get_peer_trust t w p : tracks t w → p ∈ trust w ↔ trusted (get_peer t p) = true.
Proof. intros Hw. apply (en_trust _ _ (tr_entries _ _ Hw)). Qed.
Lemma get_peer_open t w p c : tracks t w → (p, c) ∈ open w ↔ c ∈ connections (get_peer t p).
Proof. intros Hw. apply (en_open _ _ (tr_entries _ _ Hw)). Qed.

(** An entry is written, and the network changes at that peer only. *)
Lemma entries_insert m w w' p i : entries m w → peer_ok i →
  (∀ c, (p, c) ∈ open w' ↔ c ∈ connections i) → (p ∈ trust w' ↔ trusted i = true) →
  (∀ q c, q ≠ p → (q, c) ∈ open w' ↔ (q, c) ∈ open w) → (∀ q, q ≠ p → q ∈ trust w' ↔ q ∈ trust w) →
  entries (<[p := i]> m) w'.
Proof.
  intros [Ho Ht Hk] Hok Hop Htp Hoq Htq. constructor.
  - intros q c. destruct (decide (q = p)) as [->|]; [by rewrite lookup_insert_eq|].
    rewrite lookup_insert_ne by done. rewrite Hoq by done. apply Ho.
  - intros q. destruct (decide (q = p)) as [->|]; [by rewrite lookup_insert_eq|].
    rewrite lookup_insert_ne by done. rewrite Htq by done. apply Ht.
  - intros q. destruct (decide (q = p)) as [->|]; [by rewrite lookup_insert_eq|].
    rewrite lookup_insert_ne by done. apply Hk.
Qed.

(** The entry of a peer may be replaced by one with the same connections and trust. *)
Lemma tracks_set_peer t w p i : tracks t w → peer_ok i →
  connections i = connections (get_peer t p) → trusted i = trusted (get_peer t p) →
  tracks (set_peer t p i) w.
Proof.
  intros Hw Hok Hc Htr. constructor; [|apply Hw..].
  apply (entries_insert _ w); [apply Hw|done| | |done|done].
  - intros c. rewrite Hc. by apply get_peer_open.
  - rewrite Htr. by apply get_peer_trust.
Qed.

Lemma push_addr_NoDup l a : NoDup l → NoDup (push_addr l a).
Proof.
  unfold push_addr. intros Hl. case_bool_decide as Ha; [done|]. apply NoDup_app. split_and!; [done| |].
  - intros x Hx ->%list_elem_of_singleton. done.
  - apply NoDup_singleton.
Qed.
Lemma push_addr_ne l a : push_addr l a ≠ [].
Proof. unfold push_addr. case_bool_decide as Ha; [by destruct l; [apply not_elem_of_nil in Ha|]|by destruct l]. Qed.
Lemma push_addrs_NoDup new l : NoDup l → NoDup (foldl push_addr l new).
Proof. revert l; induction new as [|a new IH]; intros l Hl; simpl; [done|]. by apply IH, push_addr_NoDup. Qed.
Lemma push_addrs_ne new l : l ≠ [] → foldl push_addr l new ≠ [].
Proof. revert l; induction new as [|a new IH]; intros l Hl; simpl; [done|]. apply IH, push_addr_ne. Qed.

Lemma fresh_peer_ok : peer_ok fresh_peer.
Proof. split_and!; [done|done|constructor]. Qed.

Lemma replay_snoc es e s : replay es = Some s → replay (es ++ [e]) = replay_step s e.
Proof. unfold replay. intros Hes. rewrite foldl_app, Hes. done. Qed.

(** ** Every operation keeps the tracker exact *)

Lemma tracks_discovered t w p : tracks t w → tracks (set_maybe_discovered t p).1 w.
Proof.
  intros Hw. unfold set_maybe_discovered. destruct (peers t !! p) eqn:Hp; simpl; [done|].
  apply tracks_set_peer; [done|apply fresh_peer_ok|..]; unfold get_peer; by rewrite Hp.
Qed.

Lemma tracks_query t w p : tracks t w → tracks (is_connected t p).1 w.
Proof. intros Hw. simpl. apply tracks_set_peer; [done|by eapply get_peer_ok|done|done]. Qed.

Lemma tracks_addresses t w p l : tracks t w → tracks (add_addresses t p l) w.
Proof.
  intros Hw. apply tracks_set_peer; [done| |done|done].
  destruct (get_peer_ok _ _ p Hw) as (Hc&Hs&Hnd). set (i := get_peer t p) in *.
  assert (addrs i ≠ [] → foldl push_addr (addrs i) l ≠ []) as Hne by apply push_addrs_ne.
  unfold peer_ok, info_is_connected in *; simpl. split_and!; [| |by apply push_addrs_NoDup].
  - destruct (p_state i); simpl; [|done..]. case_bool_decide; done.
  - destruct (p_state i); simpl; [case_bool_decide; simpl; naive_solver| |done].
    intros _. naive_solver.
Qed.

Lemma size_add (X : gset PeerId) p : p ∉ X → Z.of_nat (size ({[p]} ∪ X)) = Z.of_nat (size X) + 1.
Proof. intros Hp. rewrite size_union, size_singleton by set_solver. lia. Qed.
Lemma size_remove (X : gset PeerId) p : p ∈ X → Z.of_nat (size (X ∖ {[p]})) = Z.of_nat (size X) - 1.
Proof.
  intros Hp. assert (X = {[p]} ∪ (X ∖ {[p]})) as Heq by (by rewrite <-union_difference_singleton_L).
  rewrite Heq at 2. rewrite size_add by set_solver. lia.
Qed.

Lemma trusted_le (X Y : gset PeerId) : Z.of_nat (size (X ∩ Y)) ≤ Z.of_nat (size X).
Proof. apply inj_le, subseteq_size. set_solver. Qed.

(** The number of trusted connected peers, when a connected peer is trusted or no longer is. *)
Lemma trust_count w p b : p ∈ online w → (p ∈ trust w ↔ b = false) →
  Z.of_nat (size (online w ∩ trust (network_step w (OpTrusted p b)))) =
  Z.of_nat (size (online w ∩ trust w)) + (if b then 1 else -1).
Proof.
  intros Hp Hb. destruct b; cbn [network_step trust].
  - rewrite <-(size_add _ p) by naive_solver set_solver. do 2 f_equal. set_solver.
  - assert (p ∈ trust w) by naive_solver.
    assert (online w ∩ (trust w ∖ {[p]}) = (online w ∩ trust w) ∖ {[p]}) as -> by set_solver.
    rewrite size_remove by set_solver. lia.
Qed.

Lemma tracks_trusted t w p b : tracks t w → Z.of_nat (size (online w)) ≤ u64_max →
  ∃ t', set_trusted t p b = Ok t' ∧ tracks t' (network_step w (OpTrusted p b)).
Proof.
  intros Hw Hsz. pose proof (get_peer_trust _ _ p Hw) as Htp. pose proof (tr_num_trusted _ _ Hw) as Hn.
  unfold set_trusted. destruct (eqb (trusted (get_peer t p)) b) eqn:Hb.
  - apply eqb_prop in Hb. eexists; split; [done|].
    assert (network_step w (OpTrusted p b) = w) as ->.
    { destruct w as [o tr]; simpl in *. f_equal.
      destruct b; [|assert (p ∉ tr) by (rewrite Htp; congruence)]; set_solver. }
    apply tracks_set_peer; [done|by eapply get_peer_ok|done|done].
  - apply eqb_false_iff in Hb.
    assert (p ∈ trust w ↔ b = false) as Hpb by (rewrite Htp; destruct (trusted (get_peer t p)), b; done).
    set (i := {| p_state := _ |}). set (w' := network_step w _).
    assert (entries (<[p := i]> (peers t)) w') as Hen.
    { apply (entries_insert _ w); [apply Hw|apply (get_peer_ok _ _ p Hw)| | |done|].
      - intros c. exact (get_peer_open _ _ p c Hw).
      - subst w' i; simpl. destruct b; set_solver.
      - intros q Hq. subst w'; simpl. destruct b; set_solver. }
    pose proof (online_connected t w p Hw) as Hon.
    change (info_is_connected i) with (info_is_connected (get_peer t p)).
    destruct (info_is_connected (get_peer t p)).
    + pose proof (trust_count w p b (proj2 Hon eq_refl) Hpb) as Hcount. fold w' in Hcount.
      pose proof (trusted_le (online w) (trust w')) as Hle.
      destruct b; cbn [info set_peer]; rewrite ?u64_add_Ok, ?u64_sub_Ok by lia;
        (eexists; split; [done|]); (constructor; [exact Hen|apply Hw| |apply Hw]);
        cbn [info set_info num_connected_trusted_peers]; change (online w') with (online w); lia.
    + eexists; split; [done|]. constructor; [exact Hen|apply Hw| |apply Hw].
      change (info (set_peer t p i)) with (info t). change (online w') with (online w). rewrite Hn. do 2 f_equal.
      assert (p ∉ online w) by naive_solver. subst w'. destruct b; set_solver.
Qed.
(** Opening a connection: the peer is online. *)
Lemma online_open w p c a :
  online (network_step w (OpConnected p c a)) = {[p]} ∪ online w.
Proof.
  apply set_eq. intros q. rewrite elem_of_union, elem_of_singleton, !elem_of_online.
  cbn [open network_step]. set_solver.
Qed.

Lemma online_trusted_add (X Y : gset PeerId) p b : p ∉ X → (p ∈ Y ↔ b = true) →
  Z.of_nat (size (({[p]} ∪ X) ∩ Y)) = Z.of_nat (size (X ∩ Y)) + (if b then 1 else 0).
Proof.
  intros Hp Hb. destruct b.
  - assert (p ∈ Y) by naive_solver. rewrite <-(size_add _ p) by set_solver. do 2 f_equal. set_solver.
  - assert (p ∉ Y) by naive_solver. rewrite Z.add_0_r. do 2 f_equal. set_solver.
Qed.

Lemma tracks_connected t w p c a : tracks t w → Z.of_nat (size (online w)) < u64_max →
  ∃ t', set_connected t p c a = Ok t' ∧ tracks t' (network_step w (OpConnected p c a)).
Proof.
  intros Hw Hsz. set (i := get_peer t p).
  set (l := match a with Some a => push_addr (addrs i) a | None => addrs i end).
  set (w' := network_step w (OpConnected p c a)).
  destruct (get_peer_ok _ _ p Hw) as (_&_&Hnd). fold i in Hnd.
  assert (entries (<[p := {| p_state := Connected; addrs := l; connections := connections i ++ [c];
                             trusted := trusted i |}]> (peers t)) w') as Hen.
  { apply (entries_insert _ w); [apply Hw| | | |..].
    - split_and!; [by destruct (connections i)|done|]. subst l. destruct a; [by apply push_addr_NoDup|done].
    - intros c'. pose proof (get_peer_open _ _ p c' Hw). cbn. set_solver.
    - apply (get_peer_trust _ _ p Hw).
    - intros q c' Hq. cbn. set_solver.
    - done. }
  pose proof (online_connected t w p Hw) as Hon. fold i in Hon.
  pose proof (online_open w p c a) as Hol. fold w' in Hol.
  unfold set_connected. fold i. fold l. destruct (info_is_connected i) eqn:Hc; cbn [negb].
  - assert (online w' = online w) as Heq by (rewrite Hol; set_solver).
    eexists; split; [done|]. unfold info_is_connected in Hc. destruct (p_state i); try done.
    constructor; [exact Hen|rewrite Heq; apply Hw..].
  - assert (p ∉ online w) as Hp by naive_solver.
    pose proof (size_add _ _ Hp) as Hs. rewrite <-Hol in Hs.
    pose proof (online_trusted_add _ _ p _ Hp (get_peer_trust _ _ p Hw)) as Hst. rewrite <-Hol in Hst. fold i in Hst.
    pose proof (trusted_le (online w') (trust w)) as Hle.
    pose proof (tr_num _ _ Hw) as Hn. pose proof (tr_num_trusted _ _ Hw) as Hnt.
    pose proof (trusted_le (online w) (trust w)) as Hle'.
    unfold increment_connected_peers. cbn [info set_peer]. rewrite !u64_add_Ok by lia. cbn [mbind res_bind].
    assert (replay (published t ++ [PeerConnected p (trusted i)]) = Some (online w')) as Hev.
    { rewrite (replay_snoc _ _ _ (tr_events _ _ Hw)). cbn [replay_step].
      rewrite bool_decide_false by done. by rewrite Hol. }
    destruct (trusted i); (eexists; split; [done|]);
      (constructor; [exact Hen| | |exact Hev]); cbn [info publish set_info num_connected_peers num_connected_trusted_peers];
      change (trust w') with (trust w); lia.
Qed.
(** Closing a connection: the peer stays online when it has another one. *)
Lemma online_close t w p c : entries (peers t) w →
  online (network_step w (OpDisconnected p c)) =
  if bool_decide (filter (λ id, id ≠ c) (connections (get_peer t p)) = []) then online w ∖ {[p]} else online w.
Proof.
  intros Hw. apply set_eq. intros q. rewrite elem_of_online. cbn [open network_step].
  pose proof (λ c', en_open _ _ Hw p c') as Hop. fold (get_peer t p) in Hop. case_bool_decide as Hf.
  - rewrite elem_of_difference, elem_of_singleton, elem_of_online. split.
    + intros [c' Hc']. destruct (decide (q = p)) as [->|Hq]; [exfalso|split; [|done]; exists c'; set_solver].
      { assert (c' ∈ filter (λ id, id ≠ c) (connections (get_peer t p))) as Hin.
        { apply list_elem_of_filter. set_solver. }
        rewrite Hf in Hin. by apply not_elem_of_nil in Hin. }
    + intros [[c' Hc'] Hq]. exists c'. set_solver.
  - rewrite elem_of_online. split; [intros [c' ?]; exists c'; set_solver|].
    intros [c' Hc']. destruct (decide (q = p)) as [->|]; [|exists c'; set_solver].
    destruct (filter _ _) as [|c'' r] eqn:Heq; [done|]. exists c''.
    assert (c'' ∈ c'' :: r) as Hin by left. rewrite <-Heq in Hin. apply list_elem_of_filter in Hin. set_solver.
Qed.

Lemma online_trusted_remove (X Y : gset PeerId) p b : p ∈ X → (p ∈ Y ↔ b = true) →
  Z.of_nat (size ((X ∖ {[p]}) ∩ Y)) = Z.of_nat (size (X ∩ Y)) - (if b then 1 else 0).
Proof.
  intros Hp Hb. destruct b.
  - assert (p ∈ Y) by naive_solver. rewrite <-(size_remove _ p) by set_solver. do 2 f_equal. set_solver.
  - assert (p ∉ Y) by naive_solver. rewrite Z.sub_0_r. do 2 f_equal. set_solver.
Qed.

Lemma tracks_disconnected t w p c : tracks t w → (p, c) ∈ open w →
  ∃ t' b, set_maybe_disconnected t p c = Ok (t', b) ∧
    tracks t' (network_step w (OpDisconnected p c)) ∧
    b = bool_decide (p ∉ online (network_step w (OpDisconnected p c))).
Proof.
  intros Hw Hpc. pose proof (online_close _ _ p c (tr_entries _ _ Hw)) as Hol. set (i := get_peer t p) in *.
  set (w' := network_step w (OpDisconnected p c)) in *.
  set (cs := filter (λ id, id ≠ c) (connections i)) in *.
  destruct (get_peer_ok _ _ p Hw) as (Hconn&_&Hnd). fold i in Hconn, Hnd.
  assert (p ∈ online w) as Hp by (apply elem_of_online; eauto).
  pose proof (proj1 (online_connected t w p Hw) Hp) as Hon. fold i in Hon.
  assert (∀ s, peer_ok {| p_state := s; addrs := addrs i; connections := cs; trusted := trusted i |} →
    entries (<[p := {| p_state := s; addrs := addrs i; connections := cs; trusted := trusted i |}]> (peers t)) w')
    as Hen.
  { intros s Hok. apply (entries_insert _ w); [apply Hw|done| | |..|done].
    - intros c'. subst w' cs. cbn [open network_step connections]. rewrite list_elem_of_filter.
      pose proof (get_peer_open _ _ p c' Hw). set_solver.
    - apply (get_peer_trust _ _ p Hw).
    - intros q c' Hq. cbn. set_solver. }
  unfold set_maybe_disconnected. fold i. fold cs. case_bool_decide as Hcs.
  - pose proof (size_remove _ _ Hp) as Hs. rewrite <-Hol in Hs.
    pose proof (online_trusted_remove _ _ p _ Hp (get_peer_trust _ _ p Hw)) as Hst. rewrite <-Hol in Hst.
    fold i in Hst. pose proof (tr_num _ _ Hw) as Hn. pose proof (tr_num_trusted _ _ Hw) as Hnt.
    assert (replay (published t ++ [PeerDisconnected p (trusted i)]) = Some (online w')) as Hev.
    { rewrite (replay_snoc _ _ _ (tr_events _ _ Hw)). cbn [replay_step].
      rewrite bool_decide_true by done. by rewrite Hol. }
    unfold decrement_connected_peers. cbn [info set_peer].
    destruct (trusted i) eqn:Htr; rewrite !u64_sub_Ok by lia; cbn [mbind res_bind]; (eexists _, _; split; [done|]); split.
    1, 3: constructor; [apply Hen| | |exact Hev];
      [|cbn [info publish set_info num_connected_peers num_connected_trusted_peers];
        change (trust w') with (trust w); lia..].
    1, 2: split_and!; [by rewrite Hcs; case_bool_decide|cbn; case_bool_decide; naive_solver|done].
    all: symmetry; apply bool_decide_true; rewrite Hol; set_solver.
  - eexists _, _; split; [done|]. split.
    + constructor; [|rewrite Hol; apply Hw..]. apply Hen. unfold peer_ok. cbn [connections addrs].
      change (info_is_connected _) with (info_is_connected i). rewrite Hon. done.
    + symmetry. apply bool_decide_false. rewrite Hol. tauto.
Qed.

(** A connection that the tracker was not told of is closed: as long as its peer has another
    one nothing changes. *)
Lemma tracks_closed_unknown t w p c : tracks t w → p ∈ online w → (p, c) ∉ open w →
  ∃ t', set_maybe_disconnected t p c = Ok (t', false) ∧ tracks t' (network_step w (OpDisconnected p c)).
Proof.
  intros Hw Hp Hpc. set (w' := network_step w (OpDisconnected p c)).
  assert (w' = w) as -> by (unfold w'; destruct w; cbn in *; f_equal; set_solver).
  assert (filter (λ id, id ≠ c) (connections (get_peer t p)) = connections (get_peer t p)) as Hcs.
  { apply filter_all. intros c' Hc' ->. apply Hpc. by apply (get_peer_open _ _ _ _ Hw). }
  destruct (get_peer_ok _ _ p Hw) as (Hconn&Hs&Hnd).
  unfold set_maybe_disconnected. rewrite Hcs, bool_decide_false by (by apply Hconn, (online_connected t w)).
  eexists. split; [done|]. by apply tracks_set_peer.
Qed.

(** In general a closed connection takes one from the counter when its peer has no other, or
    the counter underflows; the map of peers follows in any case. *)
Lemma disconnected_entries t w p c : entries (peers t) w →
  set_maybe_disconnected t p c = Panic ∨
  ∃ t' b, set_maybe_disconnected t p c = Ok (t', b) ∧ entries (peers t') (network_step w (OpDisconnected p c)) ∧
    (0 ≤ num_connected_peers (info t) → 0 ≤ num_connected_peers (info t')) ∧
    num_connected_peers (info t') - Z.of_nat (size (online (network_step w (OpDisconnected p c)))) ≤
    num_connected_peers (info t) - Z.of_nat (size (online w)) - (if bool_decide (p ∈ online w) then 0 else 1).
Proof.
  intros Hw. pose proof (online_close _ _ p c Hw) as Hol. set (w' := network_step w (OpDisconnected p c)) in *.
  destruct (en_ok _ _ Hw p) as (Hconn&_&Hnd). fold (get_peer t p) in Hconn, Hnd.
  set (i := get_peer t p) in *. set (cs := filter (λ id, id ≠ c) (connections i)) in *.
  assert (∀ s, peer_ok {| p_state := s; addrs := addrs i; connections := cs; trusted := trusted i |} →
    entries (<[p := {| p_state := s; addrs := addrs i; connections := cs; trusted := trusted i |}]> (peers t)) w')
    as Hen.
  { intros s Hok. apply (entries_insert _ w); [done|done| | |..|done].
    - intros c'. subst w' cs. cbn [open network_step connections]. rewrite list_elem_of_filter.
      pose proof (en_open _ _ Hw p c') as Hc'. fold (get_peer t p) in Hc'. fold i in Hc'. set_solver.
    - apply (en_trust _ _ Hw p).
    - intros q c' Hq. cbn. set_solver. }
  unfold set_maybe_disconnected. fold i. fold cs. case_bool_decide as Hcs.
  - unfold decrement_connected_peers. cbn [info set_peer].
    destruct (u64_sub_cases (E := unit) (num_connected_peers (info t)) 1) as [->|[-> Hn]]; [by left|].
    assert (Z.of_nat (size (online w ∖ {[p]})) =
      Z.of_nat (size (online w)) - (if bool_decide (p ∈ online w) then 1 else 0)) as Hsz.
    { case_bool_decide; [by apply size_remove|]. rewrite Z.sub_0_r. do 2 f_equal. set_solver. }
    assert (peer_ok {| p_state := if bool_decide (addrs i = []) then Discovered else AddressesFound;
      addrs := addrs i; connections := cs; trusted := trusted i |}) as Hok.
    { rewrite Hcs. unfold peer_ok, info_is_connected. cbn [p_state connections addrs].
      destruct (bool_decide_reflect (addrs i = [])); naive_solver. }
    cbn [mbind res_bind]. destruct (trusted i) eqn:Htr.
    1: destruct (u64_sub_cases (E := unit) (num_connected_trusted_peers (info t)) 1) as [->|[-> _]]; [by left|].
    all: right; eexists _, _; split; [done|]; (split; [by apply Hen|]);
      cbn [info publish set_info num_connected_peers]; split; [lia|]; rewrite Hol; destruct (bool_decide (p ∈ online w)); lia.
  - right. eexists _, _. split; [done|]. assert (connections i ≠ []) as Hne by (intros Hnil; by unfold cs in Hcs; rewrite Hnil in Hcs).
    assert (p ∈ online w) as Hp.
    { apply elem_of_online. destruct (connections i) as [|c' l] eqn:Hl; [done|]. exists c'.
      apply (en_open _ _ Hw). fold (get_peer t p). fold i. rewrite Hl. left. }
    split; [|split; [done|]]; [|rewrite Hol, bool_decide_true by done; cbn; lia].
    apply Hen. split_and!; [|cbn|done].
    + change (info_is_connected _) with (info_is_connected i). cbn. rewrite Hconn. done.
    + change (info_is_connected _) with (info_is_connected i). intros Hd. exfalso. apply Hconn in Hne. congruence.
Qed.
Lemma tracks_remove t w p : tracks t w → p ∉ online w → tracks (remove t p) (network_step w (OpRemove p)).
Proof.
  intros Hw Hp. pose proof (elem_of_online w p) as Hon. constructor.
  - constructor.
    + intros q c. cbn [remove peers open network_step]. destruct (decide (q = p)) as [->|].
      * rewrite lookup_delete_eq. cbn. rewrite elem_of_nil. split; [|done]. intros Hc. apply Hp, Hon. eauto.
      * rewrite lookup_delete_ne by done. apply (get_peer_open _ _ q c Hw).
    + intros q. cbn [remove peers trust network_step]. destruct (decide (q = p)) as [->|].
      * rewrite lookup_delete_eq. cbn. set_solver.
      * rewrite lookup_delete_ne by done. pose proof (get_peer_trust _ _ q Hw) as Hq.
        unfold get_peer in Hq. set_solver.
    + intros q. cbn [remove peers]. destruct (decide (q = p)) as [->|].
      * rewrite lookup_delete_eq. apply fresh_peer_ok.
      * rewrite lookup_delete_ne by done. apply (get_peer_ok _ _ q Hw).
  - apply Hw.
  - cbn [remove info]. rewrite (tr_num_trusted _ _ Hw). do 2 f_equal. cbn. set_solver.
  - apply Hw.
Qed.

Lemma tracks_new : tracks tracker_new network_new.
Proof.
  constructor; [constructor| | |]; [..|done|done|done].
  - intros p c. cbn. rewrite lookup_empty. set_solver.
  - intros p. cbn. rewrite lookup_empty. set_solver.
  - intros p. cbn. rewrite lookup_empty. apply fresh_peer_ok.
Qed.

Lemma tracker_step_tracks t w op : tracks t w → op_valid w op = true → Z.of_nat (size (online w)) < u64_max →
  ∃ t', tracker_step t op = Ok t' ∧ tracks t' (network_step w op).
Proof.
  intros Hw Hv Hsz. destruct op as [p|p l|p b|p c a|p c|p|p]; cbn [tracker_step op_valid] in *.
  - eexists; split; [done|]. by apply tracks_discovered.
  - eexists; split; [done|]. by apply tracks_addresses.
  - apply tracks_trusted; [done|lia].
  - by apply tracks_connected.
  - apply bool_decide_eq_true in Hv. destruct (tracks_disconnected _ _ _ _ Hw Hv) as (t'&b&->&Ht&_).
    by exists t'.
  - eexists; split; [done|]. by apply tracks_query.
  - apply bool_decide_eq_true in Hv. eexists; split; [done|]. by apply tracks_remove.
Qed.

Lemma online_step_le w op : (size (online (network_step w op)) ≤ S (size (online w)))%nat.
Proof.
  assert (online (network_step w op) ⊆ online w ∨ ∃ p, online (network_step w op) = {[p]} ∪ online w) as [Hs|[p ->]].
  { destruct op; cbn [network_step]; try by left.
    - right. eexists. apply (online_open _ _ _ None).
    - left. intros q. rewrite !elem_of_online. cbn. set_solver. }
  - apply subseteq_size in Hs. lia.
  - pose proof (size_union_alt {[p]} (online w)) as Hu. rewrite size_singleton in Hu.
    assert (size (online w ∖ {[p]}) ≤ size (online w))%nat by (apply subseteq_size; set_solver). lia.
Qed.

Lemma tracker_run_tracks ops t w : tracks t w → ops_valid w ops = true →
  Z.of_nat (size (online w)) + Z.of_nat (length ops) ≤ u64_max →
  ∃ t', tracker_run t ops = Ok t' ∧ tracks t' (foldl network_step w ops).
Proof.
  revert t w; induction ops as [|op ops IH]; intros t w Hw; cbn [ops_valid length tracker_run foldl].
  { intros _ _. by exists t. }
  intros [Hv Hvs]%andb_true_iff Hsz. pose proof (online_step_le w op).
  destruct (tracker_step_tracks _ _ _ Hw Hv) as (t'&Hstep&Ht'); [lia|].
  destruct (IH _ _ Ht' Hvs) as (t''&Hrun&Ht''); [lia|].
  exists t''. split; [|done]. by apply (bind_step Hstep).
Qed.

Lemma tracks_info t w : tracks t w →
  info t = {| num_connected_peers := Z.of_nat (size (online w));
              num_connected_trusted_peers := Z.of_nat (size (online w ∩ trust w)) |}.
Proof. intros [_ Hn Hnt _]. destruct (info t). simpl in *. congruence. Qed.

(** ** The choice of peers *)

Lemma map_iter_lookup {A} (m : gmap PeerId A) p i : (p, i) ∈ map_iter m ↔ m !! p = Some i.
Proof. by rewrite map_iter_perm, elem_of_map_to_list. Qed.

Lemma elem_of_peers_where P t p :
  p ∈ peers_where P t ↔ ∃ i, peers t !! p = Some i ∧ P i = true.
Proof.
  unfold peers_where. rewrite list_elem_of_fmap. split.
  - intros ([q i]&->&[HP Hin]%list_elem_of_filter). apply map_iter_lookup in Hin. eauto.
  - intros (i&Hi&HP). exists (p, i). split; [done|]. apply list_elem_of_filter. by rewrite map_iter_lookup.
Qed.

Lemma NoDup_peers_where P t : NoDup (peers_where P t).
Proof.
  unfold peers_where. apply (sublist_NoDup _ ((map_iter (peers t)).*1)).
  - rewrite map_iter_perm. apply NoDup_fst_map_to_list.
  - apply fmap_sublist, sublist_filter.
Qed.

Lemma connected_peers_online t w : tracks t w → connected_peers t ≡ₚ elements (online w).
Proof.
  intros Hw. apply NoDup_Permutation; [apply NoDup_peers_where|apply NoDup_elements|].
  intros p. rewrite elem_of_elements, (online_connected t w p Hw). unfold connected_peers.
  rewrite elem_of_peers_where. unfold get_peer. destruct (peers t !! p); naive_solver.
Qed.

(** Every open connection is among those the tracker lists. *)
Lemma tracker_connections_open t w p c : tracks t w → (p, c) ∈ open w → c ∈ concat (tracker_connections t).*2.
Proof.
  intros Hw Hpc. assert (p ∈ online w) as Hon%(online_connected t w p Hw) by (apply elem_of_online; eauto).
  apply (get_peer_open _ _ _ _ Hw) in Hpc. unfold get_peer in *.
  destruct (peers t !! p) as [i|] eqn:Hp; cbn [default] in *; [|by apply not_elem_of_nil in Hpc].
  apply list_elem_of_In, in_concat. exists (connections i). rewrite <-!list_elem_of_In. split; [|done].
  apply list_elem_of_fmap. exists (p, connections i). split; [done|].
  apply list_elem_of_fmap. exists (p, i). split; [done|]. apply list_elem_of_filter. by rewrite map_iter_lookup.
Qed.

Lemma trusted_peers_online t w : tracks t w →
  peers_where (λ i, info_is_connected i && trusted i) t ≡ₚ elements (online w ∩ trust w).
Proof.
  intros Hw. apply NoDup_Permutation; [apply NoDup_peers_where|apply NoDup_elements|].
  intros p. rewrite elem_of_elements, elem_of_intersection, (online_connected t w p Hw), (get_peer_trust t w p Hw).
  rewrite elem_of_peers_where. unfold get_peer. setoid_rewrite andb_true_iff.
  destruct (peers t !! p); naive_solver.
Qed.

Lemma trusted_n_peers_spec t w limit : tracks t w →
  NoDup (trusted_n_peers t limit) ∧
  (∀ p, p ∈ trusted_n_peers t limit → p ∈ online w ∩ trust w) ∧
  length (trusted_n_peers t limit) = Nat.min limit (size (online w ∩ trust w)).
Proof.
  intros Hw. pose proof (trusted_peers_online _ _ Hw) as Hperm. unfold trusted_n_peers. split_and!.
  - eapply sublist_NoDup, sublist_take. apply NoDup_peers_where.
  - intros p Hp. rewrite <-elem_of_elements, <-Hperm. by eapply elem_of_sublist, sublist_take.
  - by rewrite length_take, (Permutation_length Hperm).
Qed.

Lemma best_peer_spec t w shuffle : tracks t w → (∀ l, shuffle l ≡ₚ l) →
  match best_peer shuffle t with Some p => p ∈ online w | None => online w = ∅ end.
Proof.
  intros Hw Hsh. pose proof (connected_peers_online _ _ Hw) as Hperm. unfold best_peer.
  fold (connected_peers t) in *. destruct (shuffle _) as [|p l] eqn:Heq; cbn [head].
  - assert (take MAX_PEER_SAMPLE (connected_peers t) = []) as Hnil.
    { apply Permutation_nil. rewrite <-(Hsh (take _ _)). by rewrite Heq. }
    destruct (connected_peers t) eqn:Hc; [|done].
    apply Permutation_nil in Hperm. by apply leibniz_equiv, elements_empty_inv.
  - assert (p ∈ take MAX_PEER_SAMPLE (connected_peers t)) as Hin by (rewrite <-Hsh, Heq; left).
    rewrite <-elem_of_elements, <-Hperm. by eapply elem_of_sublist, sublist_take.
Qed.
(** C20. The tracker implements its contract.  For every sequence of calls in which a connection
    is closed only while it is open and a peer is forgotten only when it has no connection, no
    call panics, the published counters are the numbers of peers (of trusted peers) with an
    open connection, the published events alternate and replay to exactly the connected
    peers, the peers listed are exactly those, at most [limit] distinct trusted peers are
    chosen (all of them when there are fewer), and [best_peer] finds a connected peer whenever
    there is one. *)
Theorem peer_tracker_refines ops :
  ops_valid network_new ops = true → Z.of_nat (length ops) ≤ u64_max →
  ∃ t, tracker_run tracker_new ops = Ok t ∧
  let w := foldl network_step network_new ops in
  info t = {| num_connected_peers := Z.of_nat (size (online w));
              num_connected_trusted_peers := Z.of_nat (size (online w ∩ trust w)) |} ∧
  replay (published t) = Some (online w) ∧
  connected_peers t ≡ₚ elements (online w) ∧
  (∀ limit, NoDup (trusted_n_peers t limit) ∧
     (∀ p, p ∈ trusted_n_peers t limit → p ∈ online w ∩ trust w) ∧
     length (trusted_n_peers t limit) = Nat.min limit (size (online w ∩ trust w))) ∧
  (∀ shuffle, (∀ l, shuffle l ≡ₚ l) →
     match best_peer shuffle t with Some p => p ∈ online w | None => online w = ∅ end).
Proof.
  intros Hv Hlen. destruct (tracker_run_tracks ops _ _ tracks_new Hv) as (t&Hrun&Ht).
  { change (online network_new) with (∅ : gset PeerId). rewrite size_empty. lia. }
  exists t. split; [done|]. cbn zeta. split_and!.
  - by apply tracks_info.
  - apply Ht.
  - by apply connected_peers_online.
  - intros limit. by apply trusted_n_peers_spec.
  - intros shuffle Hs. by apply best_peer_spec.
Qed.

(** Outside that contract the counters break: [set_maybe_disconnected] does not look at
    whether the peer was connected.  For a peer without connections it publishes a
    disconnection and decrements the counter, which panics when no peer is connected and
    otherwise leaves the counter one below the number of connected peers; and removing a
    connected peer leaves the counter one above. *)
Theorem peer_tracker_counters_drift t w p c : tracks t w →
  (p ∉ online w → trusted (get_peer t p) = false →
    (online w = ∅ → set_maybe_disconnected t p c = Panic) ∧
    (online w ≠ ∅ → ∃ t', set_maybe_disconnected t p c = Ok (t', true) ∧
       connected_peers t' ≡ₚ elements (online w) ∧ replay (published t') = None ∧
       num_connected_peers (info t') = Z.of_nat (size (online w)) - 1)) ∧
  (p ∈ online w →
    connected_peers (remove t p) ≡ₚ elements (online w ∖ {[p]}) ∧
    num_connected_peers (info (remove t p)) = Z.of_nat (size (online w ∖ {[p]})) + 1).
Proof.
  intros Hw. pose proof (tr_num _ _ Hw) as Hn. pose proof (online_connected t w p Hw) as Hon. split.
  - intros Hp Htr. destruct (get_peer_ok _ _ p Hw) as (Hc&Hs&Hnd).
    assert (connections (get_peer t p) = []) as Hnil.
    { destruct (connections (get_peer t p)); [done|]. exfalso. naive_solver. }
    unfold set_maybe_disconnected, decrement_connected_peers. cbn [info set_peer].
    rewrite Hnil, Htr, filter_nil, bool_decide_true, Hn by done. split.
    + intros ->. done.
    + intros Hne. assert (size (online w) ≠ 0%nat) as Hsz by (apply size_non_empty_iff; by rewrite leibniz_equiv_iff).
      rewrite u64_sub_Ok by lia. eexists. split; [done|].
      set (i := {| p_state := _ |}).
      assert (tracks (set_peer t p i) w) as Hw'.
      { apply tracks_set_peer; [done| |done|done].
        unfold peer_ok, i, info_is_connected. cbn. case_bool_decide; naive_solver. }
      split_and!; [by apply (connected_peers_online _ _ Hw')| |done].
      cbn [published publish set_info]. rewrite (replay_snoc _ _ _ (tr_events _ _ Hw')). cbn [replay_step].
      by rewrite bool_decide_false.
  - intros Hp. split.
    + apply NoDup_Permutation; [apply NoDup_peers_where|apply NoDup_elements|]. intros q.
      rewrite elem_of_elements, elem_of_difference, elem_of_singleton, (online_connected t w q Hw).
      unfold connected_peers, get_peer. rewrite elem_of_peers_where. cbn [remove peers].
      setoid_rewrite lookup_delete_Some. destruct (peers t !! q); naive_solver.
    + cbn [remove info]. rewrite Hn, size_remove by done. lia.
Qed.
End PeerTracker.

(** ** Instances for the witnesses: peers, addresses and connections are numbers. *)
#[local] Instance toy_peers : PeerTypes := {|
  PeerId := nat; Multiaddr := nat; ConnectionId := nat;
  map_iter := λ A m, map_to_list m; map_iter_perm := λ A m, reflexivity _
|}.

(** Two peers, one of them trusted with two connections, of which one is closed. *)
Definition toy_ops : list TrackerOp :=
  [OpTrusted 1%nat true; OpConnected 1%nat 10%nat (Some 5%nat); OpConnected 1%nat 11%nat None;
   OpConnected 2%nat 12%nat None; OpDisconnected 1%nat 10%nat; OpAddresses 3%nat [7%nat]].

Lemma peer_tracker_refines_witness :
  ∃ t, tracker_run tracker_new toy_ops = Ok t ∧
    info t = {| num_connected_peers := 2; num_connected_trusted_peers := 1 |}.
Proof.
  destruct (peer_tracker_refines toy_ops eq_refl) as (t&Hrun&Hinfo&_); [vm_compute; discriminate|].
  exists t. split; [exact Hrun|]. exact Hinfo.
Defined.

Lemma peer_tracker_counters_drift_witness :
  set_maybe_disconnected tracker_new (1%nat : PeerId) (10%nat : ConnectionId) = Panic.
Proof.
  exact (proj1 (proj1 (peer_tracker_counters_drift tracker_new network_new (1%nat : PeerId) (10%nat : ConnectionId)
    tracks_new) ltac:(vm_compute; discriminate) eq_refl) eq_refl).
Defined.
