(* ===== verification/HeaderEx.v ===== *)
(** * The header exchange protocol

    src/node/src/p2p/header_ex/utils.rs, client.rs, server.rs and the errors of
    src/node/src/p2p.rs and header_ex.rs: well-formedness of requests, what the client
    accepts as a response, how the head is chosen among the answers of trusted peers,
    and what the server answers from its store.  The transport (libp2p) is outside;
    [sort_unstable_by_key] is the class [UnstableSort], so that nothing depends on how
    ties are ordered. *)

From stdpp Require Import sorting.
From S2P Require Import Prelude Consts BlockRanges Nmt Merkle Dah Header ShwapIds Store.
From S2P Require Import InMemoryStore.

(** ** Sorting *)

Class UnstableSort := {
  usort {A} (R : relation A) `{!RelDecision R} : list A → list A;
  usort_sorted {A} (R : relation A) `{!RelDecision R} `{!Transitive R, !Total R} l :
    StronglySorted R (usort R l);
  usort_perm {A} (R : relation A) `{!RelDecision R} l : usort R l ≡ₚ l
}.

(** ** Errors *)

Inductive HeaderExError :=
| HeaderNotFound
| InvalidResponse
| InvalidRequest
| InboundFailure
| OutboundFailure
| RequestCancelled.

Inductive P2pError :=
| GossipsubInit | TlsInit | NoiseInit | P2pWorkerDied | ChannelClosedUnexpectedly
| NoConnectedPeers | PHeaderEx (e : HeaderExError) | BootnodeAddrsWithoutPeerId | Bitswap
| ProtoDecodeFailed | PCid | BitswapQueryTimeout | Shwap | CelestiaTypes.

Definition p2p_error_is_fatal (e : P2pError) : bool :=
  match e with
  | GossipsubInit | NoiseInit | TlsInit | P2pWorkerDied | ChannelClosedUnexpectedly
  | BootnodeAddrsWithoutPeerId => true
  | NoConnectedPeers | PHeaderEx _ | Bitswap | ProtoDecodeFailed | PCid | BitswapQueryTimeout
  | Shwap | CelestiaTypes => false
  end.

(** ** Messages *)

Inductive RequestData := Origin (origin : Z) | DataHash (hash : bytes).
Record HeaderRequest := { req_data : option RequestData; req_amount : Z }.

Inductive StatusCode := StatusInvalid | StatusOk | StatusNotFound.
Record HeaderResponse := { resp_body : bytes; resp_status : StatusCode }.

Definition with_origin (origin amount : Z) : HeaderRequest :=
  {| req_data := Some (Origin origin); req_amount := amount |}.
Definition with_hash (hash : Hash) : HeaderRequest :=
  {| req_data := Some (DataHash (hash_as_bytes hash)); req_amount := 1 |}.
Definition head_request : HeaderRequest := with_origin 0 1.

(** [consts::HASH_SIZE] is 32. *)
Definition request_is_valid (r : HeaderRequest) : bool :=
  match req_data r with
  | None => false
  | Some data =>
      if req_amount r =? 0 then false else
      match data with
      | Origin o => negb ((o =? 0) && (1 <? req_amount r))
      | DataHash h => negb (negb (length h =? HASH_SIZE)%nat || (1 <? req_amount r))
      end
  end.

Definition is_head_request (r : HeaderRequest) : bool :=
  match req_data r with Some (Origin o) => (o =? 0) && (req_amount r =? 1) | _ => false end.

Definition response_not_found : HeaderResponse := {| resp_body := []; resp_status := StatusNotFound |}.
Definition response_invalid : HeaderResponse := {| resp_body := []; resp_status := StatusInvalid |}.

Section HeaderEx.
Context `{Tendermint} `{DahExternals} `{UnstableSort}.

Definition to_validated_extended_header (r : HeaderResponse) : res HeaderExError ExtendedHeader :=
  match resp_status r with
  | StatusInvalid => Err InvalidResponse
  | StatusNotFound => Err HeaderNotFound
  | StatusOk => map_err (λ _, InvalidResponse) (decode_and_validate (resp_body r))
  end.

Definition to_header_response (e : ExtendedHeader) : HeaderResponse :=
  {| resp_body := eh_encode e; resp_status := StatusOk |}.

(** ** Client *)

(** The early returns of [on_send_request]: a request that is not sent is answered at once. *)
Definition reject_request (cancelled : bool) (request : HeaderRequest) : option HeaderExError :=
  if cancelled then Some RequestCancelled
  else if negb (request_is_valid request) then Some InvalidRequest
  else None.

(** The decoding loop: an error is propagated only if nothing was decoded before. *)
Fixpoint decode_loop (responses : list HeaderResponse) (headers : list ExtendedHeader)
    : res HeaderExError (list ExtendedHeader) :=
  match responses with
  | [] => Ok headers
  | response :: responses =>
      match to_validated_extended_header response with
      | Ok header => decode_loop responses (headers ++ [header])
      | Err e => match headers with [] => Err e | _ => Ok headers end
      | Panic => Panic
      end
  end.

Definition height_le (e1 e2 : ExtendedHeader) : Prop := eh_height e1 ≤ eh_height e2.
#[global] Instance height_le_dec : RelDecision height_le.
Proof. intros ??. unfold height_le. apply _. Defined.
#[global] Instance height_le_trans : Transitive height_le.
Proof. intros ???. unfold height_le. lia. Qed.
#[global] Instance height_le_total : Total height_le.
Proof. intros ??. unfold height_le. lia. Qed.

(** The check [for (header, height) in headers.iter().zip(start..)]. *)
Fixpoint check_heights (headers : list ExtendedHeader) (height : Z) : bool :=
  match headers with
  | [] => true
  | header :: headers => (eh_height header =? height) && check_heights headers (height + 1)
  end.

Definition decode_and_verify_responses (request : HeaderRequest) (responses : list HeaderResponse)
    : res HeaderExError (list ExtendedHeader) :=
  if (length responses =? 0)%nat then Err InvalidResponse else
  if req_amount request <? Z.of_nat (length responses) then Err InvalidResponse else
  headers ← decode_loop responses [];
  let headers := usort height_le headers in
  match req_data request, headers with
  | Some (Origin start), [header] =>
      if start =? 0 then Ok headers else
      _ ← u64_add start 1;
      ensure (check_heights headers start) InvalidResponse ≫= λ _, Ok headers
  | Some (Origin start), _ :: _ =>
      if 0 <? start then
        _ ← u64_add start (Z.of_nat (length headers));
        ensure (check_heights headers start) InvalidResponse ≫= λ _, Ok headers
      else Err InvalidResponse
  | Some (DataHash hash), [header] =>
      if bool_decide (hash_as_bytes (eh_hash header) = hash) then Ok headers
      else Err InvalidResponse
  | _, _ => Err InvalidResponse
  end.

(** *** The choice of the head

    The body of the task of [send_head_request], after all peers answered: [None] is a
    dropped channel. *)
Definition MIN_HEAD_RESPONSES : nat := 2.
Definition MAX_PEERS : nat := 10.

Fixpoint collect_heads (results : list (option (res P2pError (list ExtendedHeader))))
    : list ExtendedHeader * bool :=
  match results with
  | [] => ([], false)
  | result :: results =>
      let '(resps, invalid_response) := collect_heads results in
      match result with
      | Some (Ok [header]) => (header :: resps, invalid_response)
      | Some (Ok (_ :: _ :: _)) => (resps, true)
      | Some (Err (PHeaderEx InvalidResponse)) => (resps, true)
      | _ => (resps, invalid_response)
      end
  end.

(** [counter[&resp.hash()]]: how many peers sent a header with this hash. *)
Definition peers_of (resps : list ExtendedHeader) (hash : Hash) : nat :=
  length (filter (λ e, eh_hash e = hash) resps).

(** Descending by height, then by number of peers. *)
Definition head_le (resps : list ExtendedHeader) (e1 e2 : ExtendedHeader) : Prop :=
  eh_height e2 < eh_height e1 ∨
  (eh_height e1 = eh_height e2 ∧ (peers_of resps (eh_hash e2) ≤ peers_of resps (eh_hash e1))%nat).
#[global] Instance head_le_dec resps : RelDecision (head_le resps).
Proof. intros ??. unfold head_le. apply _. Defined.
#[global] Instance head_le_trans resps : Transitive (head_le resps).
Proof. intros ???. unfold head_le. lia. Qed.
#[global] Instance head_le_total resps : Total (head_le resps).
Proof. intros ??. unfold head_le. lia. Qed.

Definition choose_head (results : list (option (res P2pError (list ExtendedHeader))))
    : res HeaderExError ExtendedHeader :=
  let '(resps, invalid_response) := collect_heads results in
  match resps with
  | [] => if invalid_response : bool then Err InvalidResponse else Err HeaderNotFound
  | _ =>
      let sorted := usort (head_le resps) resps in
      match find (λ e, (MIN_HEAD_RESPONSES <=? peers_of resps (eh_hash e))%nat) sorted with
      | Some resp => Ok resp
      | None => expect (head sorted)
      end
  end.

(** ** Server *)

Definition MAX_HEADERS_AMOUNT_RESPONSE : Z := 512.

Definition parse_request (r : HeaderRequest) : option (Z * RequestData) :=
  if negb (request_is_valid r) then None
  else (λ data, (req_amount r, data)) <$> req_data r.

Section Server.
Context {S : Type} `{Store S}.

Definition handle_request_current_head (s : S) : res unit (list HeaderResponse) :=
  match st_get_head s with
  | Ok head => Ok [to_header_response head]
  | Err _ => Ok [response_not_found]
  | Panic => Panic
  end.

Definition handle_request_by_hash (s : S) (hash : bytes) : res unit (list HeaderResponse) :=
  if negb (length hash =? HASH_SIZE)%nat then Ok [response_invalid] else
  match st_get_by_hash s (Sha256 hash) with
  | Ok head => Ok [to_header_response head]
  | Err _ => Ok [response_not_found]
  | Panic => Panic
  end.

(** The loop stops at the first height that is not stored. *)
Fixpoint serve_heights (s : S) (heights : list Z) : res unit (list HeaderResponse) :=
  match heights with
  | [] => Ok []
  | i :: heights =>
      match st_get_by_height s i with
      | Ok h => rest ← serve_heights s heights; Ok (to_header_response h :: rest)
      | Err _ => Ok []
      | Panic => Panic
      end
  end.

Definition handle_request_by_height (s : S) (origin amount : Z) : res unit (list HeaderResponse) :=
  let amount := Z.min amount MAX_HEADERS_AMOUNT_RESPONSE in
  last ← u64_add origin amount;
  responses ← serve_heights s (seqZ origin (last - origin));
  match responses with [] => Ok [response_not_found] | _ => Ok responses end.

(** [on_request_received] and the task it starts: [None] when no response is sent. *)
Definition on_request_received (s : S) (stopping : bool) (request : HeaderRequest)
    : option (res unit (list HeaderResponse)) :=
  if stopping then None else
  match parse_request request with
  | None => Some (Ok [response_invalid])
  | Some (amount, Origin origin) =>
      Some (if origin =? 0 then handle_request_current_head s
            else handle_request_by_height s origin amount)
  | Some (_, DataHash hash) => Some (handle_request_by_hash s hash)
  end.
End Server.

(** ** Lemmas *)

Lemma to_validated_Ok r e : to_validated_extended_header r = Ok e →
  resp_status r = StatusOk ∧ eh_decode (resp_body r) = Some e ∧ eh_validate e = Ok tt.
Proof.
  unfold to_validated_extended_header, decode_and_validate.
  destruct (resp_status r); intros Hr; inv_res Hr; simplify_eq; try done.
  by match goal with u : unit |- _ => destruct u end.
Qed.

(** What the decoding loop accepts is a prefix of the responses, each decoded and
    validated. *)
Lemma decode_loop_Ok rs acc hs : decode_loop rs acc = Ok hs →
  ∃ k new, hs = acc ++ new ∧
    Forall2 (λ r e, to_validated_extended_header r = Ok e) (take k rs) new.
Proof.
  revert acc; induction rs as [|r rs IH]; intros acc; simpl.
  { intros [= <-]. exists 0%nat, []. by rewrite app_nil_r. }
  destruct (to_validated_extended_header r) as [e|er|] eqn:Hr; [..|done].
  - intros (k&new&->&Hall)%IH. exists (S k), (e :: new). rewrite <-(assoc_L (++)); simpl.
    split; [done|]. by constructor.
  - destruct acc; [done|]. intros [= <-]. exists 0%nat, []. rewrite app_nil_r; simpl. by split.
Qed.

Lemma decode_loop_nonempty r rs hs : decode_loop (r :: rs) [] = Ok hs → hs ≠ [].
Proof.
  simpl. destruct (to_validated_extended_header r) as [e|?|]; [|done..].
  intros (k&new&->&_)%decode_loop_Ok. simpl. done.
Qed.

Lemma check_heights_seqZ hs h : check_heights hs h = true ↔
  eh_height <$> hs = seqZ h (Z.of_nat (length hs)).
Proof.
  revert h; induction hs as [|e hs IH]; intros h; cbn [check_heights fmap list_fmap length]; [done|].
  rewrite andb_true_iff, IH, Z.eqb_eq, Nat2Z.inj_succ.
  rewrite (seqZ_cons h) by lia. rewrite Z.pred_succ.
  change (Z.succ h) with (h + 1). split; [by intros [-> ->]|by intros [= -> ->]].
Qed.

(** The headers of an accepted response, before the request is looked at. *)
Lemma accepted_headers rs hs : decode_loop rs [] = Ok hs →
  (length hs ≤ length rs)%nat ∧
  Forall (λ e, eh_validate e = Ok tt ∧
    ∃ r, r ∈ rs ∧ resp_status r = StatusOk ∧ eh_decode (resp_body r) = Some e) hs.
Proof.
  intros (k&new&->&Hall)%decode_loop_Ok. simpl. split.
  { rewrite <-(Forall2_length _ _ _ Hall), length_take. lia. }
  apply Forall_forall. intros e He. apply list_elem_of_lookup in He as [i Hi].
  destruct (Forall2_lookup_r _ _ _ _ _ Hall Hi) as (r&Hr&(Hs&Hd&Hv)%to_validated_Ok).
  split; [done|]. exists r. split; [|done].
  apply list_elem_of_lookup_2 in Hr. eapply elem_of_take in Hr as (j&Hj&_).
  by apply list_elem_of_lookup_2 in Hj.
Qed.

(** Sorting by height leaves a run of consecutive heights as it is. *)
Lemma consecutive_sorted hs h :
  eh_height <$> hs = seqZ h (Z.of_nat (length hs)) → StronglySorted height_le hs ∧
  ∀ e1 e2, e1 ∈ hs → e2 ∈ hs → eh_height e1 = eh_height e2 → e1 = e2.
Proof.
  intros Heq.
  assert (∀ i e, hs !! i = Some e → eh_height e = h + Z.of_nat i) as Hl.
  { intros i e Hi. assert ((eh_height <$> hs) !! i = Some (eh_height e)) as Hf
      by (by rewrite list_lookup_fmap, Hi).
    rewrite Heq in Hf. by apply lookup_seqZ in Hf as [-> _]. }
  split.
  - clear Heq. revert h Hl; induction hs as [|e hs IH]; intros h Hl; constructor.
    + apply (IH (h + 1)). intros i e' Hi. rewrite (Hl (S i) e' Hi). lia.
    + apply Forall_forall. intros e' [i Hi]%list_elem_of_lookup. unfold height_le.
      rewrite (Hl 0%nat e eq_refl), (Hl (S i) e' Hi). lia.
  - intros e1 e2 [i Hi]%list_elem_of_lookup [j Hj]%list_elem_of_lookup Hh.
    rewrite (Hl i _ Hi), (Hl j _ Hj) in Hh. assert (i = j) as -> by lia. congruence.
Qed.

Lemma usort_consecutive hs h :
  eh_height <$> hs = seqZ h (Z.of_nat (length hs)) → usort height_le hs = hs.
Proof.
  intros [Hs Hu]%consecutive_sorted. pose proof (usort_perm height_le hs) as Hp.
  apply (StronglySorted_unique_strong height_le); [|apply usort_sorted; apply _|done|done].
  intros e1 e2 He1 He2 Hle1 Hle2. rewrite Hp in He1. apply Hu; [done..|].
  unfold height_le in *. lia.
Qed.

Lemma decode_loop_encoded `{!TendermintSpec} hs acc :
  Forall (λ e, eh_validate e = Ok tt) hs →
  decode_loop (to_header_response <$> hs) acc = Ok (acc ++ hs).
Proof.
  intros Hv. revert acc; induction Hv as [|e hs Hv _ IH]; intros acc; simpl.
  { by rewrite app_nil_r. }
  unfold to_validated_extended_header, decode_and_validate. simpl.
  rewrite eh_decode_encode. simpl. cbv [mbind res_bind]. rewrite Hv. simpl.
  by rewrite IH, <-(assoc_L (++)).
Qed.

(** The headers stored at [h], [h + 1], ..., up to [n] of them or the first gap. *)
Fixpoint stored_run (m : gmap Z ExtendedHeader) (h : Z) (n : nat) : list ExtendedHeader :=
  match n with
  | O => []
  | S n => match m !! h with Some e => e :: stored_run m (h + 1) n | None => [] end
  end.

Lemma stored_run_spec valid m h n : store_ok valid m →
  eh_height <$> stored_run m h n = seqZ h (Z.of_nat (length (stored_run m h n))) ∧
  Forall valid (stored_run m h n) ∧ (length (stored_run m h n) ≤ n)%nat.
Proof.
  intros Hok. revert h; induction n as [|n IH]; intros h; simpl; [by repeat split|].
  destruct (m !! h) as [e|] eqn:He; [|repeat split; simpl; [constructor|lia]].
  destruct (proj1 Hok _ _ He) as [Hh Hv]. destruct (IH (h + 1)) as (Hs&Hf&Hlen).
  cbn [length fmap list_fmap]. rewrite Nat2Z.inj_succ, (seqZ_cons h) by lia.
  rewrite Z.pred_succ, Hs, Hh. repeat split; [by constructor|lia].
Qed.

Section ServerLemmas.
Context {S : Type} (valid : ExtendedHeader → Prop) `{!Store S} `{!StoreSpec S valid}.

Lemma serve_heights_run (s : S) m h n : store_rep s m →
  serve_heights s (seqZ h (Z.of_nat n)) = Ok (to_header_response <$> stored_run m h n).
Proof.
  intros Hrep. revert h; induction n as [|n IH]; intros h; [done|].
  rewrite Nat2Z.inj_succ, seqZ_cons by lia. rewrite Z.pred_succ.
  cbn [serve_heights stored_run].
  rewrite (spec_get_by_height s m h Hrep). destruct (m !! h) as [e|]; [|done].
  cbn [ok_or]. change (Z.succ h) with (h + 1). by rewrite IH.
Qed.
End ServerLemmas.

(** The first element of a sorted list that satisfies [f] is below every other one that
    does. *)
Lemma find_sorted_least {A} (R : relation A) `{!Transitive R, !Total R} f l x :
  StronglySorted R l → find f l = Some x →
  x ∈ l ∧ f x = true ∧ ∀ y, y ∈ l → f y = true → R x y.
Proof.
  intros Hs; induction Hs as [|z l Hs IH Hz]; simpl; [done|].
  destruct (f z) eqn:Hf.
  - intros [= <-]. split; [by apply elem_of_cons; left|split; [done|]].
    intros y [->|Hy]%elem_of_cons _; [by destruct (total R z z)|].
    by eapply Forall_forall in Hz.
  - intros (Hin&Hx&Hle)%IH. split; [by apply elem_of_cons; right|split; [done|]].
    intros y [->|Hy]%elem_of_cons Hy'; [congruence|by apply Hle].
Qed.

Lemma find_None_Forall {A} (f : A → bool) l : find f l = None → ∀ y, y ∈ l → f y = false.
Proof.
  induction l as [|z l IH]; simpl; [set_solver|]. destruct (f z) eqn:?; [done|].
  intros Hl y [->|Hy]%elem_of_cons; auto.
Qed.

Lemma match_not_nil {A B} (l : list A) (x y : B) :
  l ≠ [] → match l with [] => x | _ :: _ => y end = y.
Proof. by destruct l. Qed.

(** The headers the peers answered with, and whether some answer was invalid. *)
Definition head_answer (r : option (res P2pError (list ExtendedHeader))) : option ExtendedHeader :=
  match r with Some (Ok [e]) => Some e | _ => None end.
Definition bad_answer (r : option (res P2pError (list ExtendedHeader))) : Prop :=
  r = Some (Err (PHeaderEx InvalidResponse)) ∨ ∃ l, r = Some (Ok l) ∧ (1 < length l)%nat.

Lemma collect_heads_spec results :
  (collect_heads results).1 = omap head_answer results ∧
  ((collect_heads results).2 = true ↔ Exists bad_answer results).
Proof.
  induction results as [|r results [IH1 IH2]]; simpl; [by rewrite Exists_nil|].
  destruct (collect_heads results) as [resps inv]; simpl in *. subst resps.
  assert (inv = true ↔ Exists bad_answer results) as IH by done.
  assert (¬ bad_answer r → inv = true ↔ Exists bad_answer (r :: results)) as Hgood
    by (rewrite Exists_cons; naive_solver).
  assert (bad_answer r → true = true ↔ Exists bad_answer (r :: results)) as Hbad
    by (rewrite Exists_cons; naive_solver).
  unfold bad_answer in Hgood, Hbad.
  destruct r as [[[|e [|e' l]]|[| | | | | |[]| | | | | | |]|]|]; simpl; (split; [done|]);
    first [apply Hbad; first [by left|right; eexists; split; [done|simpl; lia]]
          |apply Hgood; intros [?|(?&?&?)]; simplify_eq/=; lia].
Qed.

Lemma decode_and_verify_accepted request responses headers :
  decode_and_verify_responses request responses = Ok headers →
  headers ≠ [] ∧ Z.of_nat (length headers) ≤ req_amount request ∧
  Forall (λ e, eh_validate e = Ok tt ∧ ∃ r, r ∈ responses ∧
    resp_status r = StatusOk ∧ eh_decode (resp_body r) = Some e) headers ∧
  match req_data request with
  | None => False
  | Some (Origin start) =>
      if start =? 0 then length headers = 1%nat
      else eh_height <$> headers = seqZ start (Z.of_nat (length headers))
  | Some (DataHash hash) => ∃ e, headers = [e] ∧ hash_as_bytes (eh_hash e) = hash
  end.
Proof.
  unfold decode_and_verify_responses.
  destruct (Nat.eqb_spec (length responses) 0) as [|Hne]; [done|].
  destruct (Z.ltb_spec (req_amount request) (Z.of_nat (length responses))) as [|Hle]; [done|].
  intros Hr. apply bind_Ok in Hr as (hs&Hdec&Hr).
  assert (hs ≠ []) as Hnil.
  { destruct responses as [|r rs]; [done|]. by eapply decode_loop_nonempty. }
  apply accepted_headers in Hdec as [Hlen Hall].
  pose proof (usort_perm height_le hs) as Hp.
  assert (headers = usort height_le hs ∧ match req_data request with
    | None => False
    | Some (Origin start) => if start =? 0 then length headers = 1%nat
        else eh_height <$> headers = seqZ start (Z.of_nat (length headers))
    | Some (DataHash hash) => ∃ e, headers = [e] ∧ hash_as_bytes (eh_hash e) = hash
    end) as [-> Hfit].
  { destruct (req_data request) as [[start|hash]|]; [| |by destruct (usort height_le hs)].
    - destruct (usort height_le hs) as [|e1 [|e2 l]]; [done|..].
      + destruct (start =? 0); [by injection Hr as <-|].
        inv_res Hr. subst headers. split; [done|]. by apply check_heights_seqZ.
      + destruct (Z.ltb_spec 0 start); [|done]. destruct (Z.eqb_spec start 0); [lia|].
        inv_res Hr. subst headers. split; [done|]. by apply check_heights_seqZ.
    - destruct (usort height_le hs) as [|e1 [|e2 l]]; [done| |done].
      case_bool_decide; [|done]. injection Hr as <-. eauto. }
  repeat split; [| |by rewrite Hp|done].
  - intros Hnil'. rewrite Hnil' in Hp. by apply Permutation_nil_l in Hp.
  - rewrite Hp. lia.
Qed.

Lemma accepted_answer h a responses headers : 0 < h →
  decode_and_verify_responses (with_origin h a) responses = Ok headers →
  Z.of_nat (length headers) ≤ a ∧ Forall (λ e, eh_validate e = Ok tt) headers ∧
  eh_height <$> headers = seqZ h (Z.of_nat (length headers)).
Proof.
  intros Hh (_&Hlen&Hall&Hheights)%decode_and_verify_accepted. simpl in Hheights.
  destruct (Z.eqb_spec h 0); [lia|]. split_and!; [done| |done].
  eapply Forall_impl; [exact Hall|]. by intros e [? _].
Qed.

(** ** Theorems *)

(** What the client accepts: an answer that [decode_and_verify_responses] lets through
    is never empty and never longer than the requested amount, every header in it was
    decoded from a response with status [Ok] and passed [validate], and the headers fit the
    request: consecutive ascending heights from the requested origin, one header for a HEAD
    request, the one header with the requested hash. *)
Theorem decode_and_verify_responses_sound request responses headers :
  decode_and_verify_responses request responses = Ok headers →
  headers ≠ [] ∧ Z.of_nat (length headers) ≤ req_amount request ∧
  Forall (λ e, eh_validate e = Ok tt ∧ ∃ r, r ∈ responses ∧
    resp_status r = StatusOk ∧ eh_decode (resp_body r) = Some e) headers ∧
  match req_data request with
  | None => False
  | Some (Origin start) =>
      if start =? 0 then length headers = 1%nat
      else eh_height <$> headers = seqZ start (Z.of_nat (length headers))
  | Some (DataHash hash) => ∃ e, headers = [e] ∧ hash_as_bytes (eh_hash e) = hash
  end.
Proof. apply decode_and_verify_accepted. Qed.

(** The choice of the head among the answers of the trusted peers: it never panics; it
    fails exactly when no peer answered with one header, with the error that tells whether
    a peer misbehaved; otherwise it returns an answer, and one that at least two peers
    agree on whenever there is such an answer, the highest of them (of equal heights, one
    with the most peers); without any agreement it returns the highest answer. *)
Theorem choose_head_correct results :
  let answers := omap head_answer results in
  let agreed e := (2 ≤ peers_of answers (eh_hash e))%nat in
  match choose_head results with
  | Panic => False
  | Err e => answers = [] ∧
      ((e = InvalidResponse ∧ Exists bad_answer results) ∨
       (e = HeaderNotFound ∧ ¬ Exists bad_answer results))
  | Ok e => e ∈ answers ∧
      (agreed e ∨ ∀ e', e' ∈ answers → ¬ agreed e') ∧
      ∀ e', e' ∈ answers → agreed e' ∨ ¬ agreed e →
        eh_height e' < eh_height e ∨
        (eh_height e' = eh_height e ∧
         (peers_of answers (eh_hash e') ≤ peers_of answers (eh_hash e))%nat)
  end.
Proof.
  intros answers agreed. unfold choose_head.
  destruct (collect_heads_spec results) as [Hans Hbad].
  destruct (collect_heads results) as [resps inv]; simpl in Hans, Hbad.
  fold answers in Hans. subst resps agreed. clearbody answers. cbv beta.
  assert (answers = [] ∨ answers ≠ []) as [->|Hne] by (destruct answers; naive_solver).
  { destruct inv; (split; [done|]); [left|right]; naive_solver. }
  erewrite (match_not_nil answers) by done.
  pose proof (usort_perm (head_le answers) answers) as Hp.
  pose proof (usort_sorted (head_le answers) answers) as Hs.
  destruct (find _ _) as [e|] eqn:Hf.
  - apply (find_sorted_least (head_le answers)) in Hf as (Hin&Hag&Hle); [|apply _..|done].
    rewrite Hp in Hin. apply Nat.leb_le in Hag. split; [done|]. split; [by left|].
    intros e' He' [Hag'|Hn]; [|done]. rewrite <-Hp in He'.
    destruct (Hle e' He') as [?|[-> ?]]; [by apply Nat.leb_le|by left|by right].
  - pose proof (find_None_Forall _ _ Hf) as Hnone.
    destruct (usort _ _) as [|e sorted] eqn:Hu.
    { by apply Permutation_nil_l in Hp. }
    cbn [head expect]. assert (e ∈ answers) as Hin by (rewrite <-Hp; apply elem_of_cons; by left).
    assert (∀ e', e' ∈ answers → ¬ (2 ≤ peers_of answers (eh_hash e'))%nat) as Hno.
    { intros e' He' Hag. rewrite <-Hp in He'. apply Nat.leb_le in Hag.
      specialize (Hnone e' He'). unfold MIN_HEAD_RESPONSES in Hnone. congruence. }
    split; [done|]. split; [by right|]. intros e' He' _. rewrite <-Hp in He'.
    apply StronglySorted_cons in Hs as [Hs _]. apply elem_of_cons in He' as [->|He'].
    + right. by split.
    + eapply Forall_forall in Hs as [?|[-> ?]]; [by left|by right|done].
Qed.

(** What the server answers to a request by height, and what the client makes of answers from
    a store. *)
Lemma serve_by_height {S} `{!Store S} `{!StoreSpec S validated} (s : S) m origin amount :
  store_rep s m → 0 < origin → 0 < amount → origin + Z.min amount 512 ≤ u64_max →
  on_request_received s false (with_origin origin amount) =
    Some (Ok (match stored_run m origin (Z.to_nat (Z.min amount 512)) with
              | [] => [response_not_found]
              | headers => to_header_response <$> headers
              end)).
Proof.
  intros Hrep Ho Ha Hmax. unfold on_request_received, parse_request, request_is_valid; simpl.
  rewrite (proj2 (Z.eqb_neq amount 0)), (proj2 (Z.eqb_neq origin 0)) by lia. simpl.
  rewrite ?(proj2 (Z.eqb_neq origin 0)) by lia.
  unfold handle_request_by_height, MAX_HEADERS_AMOUNT_RESPONSE.
  rewrite u64_add_Ok by lia. cbv [mbind res_bind].
  replace (origin + Z.min amount 512 - origin) with (Z.of_nat (Z.to_nat (Z.min amount 512))) by lia.
  rewrite (serve_heights_run _ s m) by done. by destruct (stored_run _ _ _).
Qed.

Lemma decode_not_found origin amount : 0 < amount →
  decode_and_verify_responses (with_origin origin amount) [response_not_found] = Err HeaderNotFound.
Proof.
  intros Ha. unfold decode_and_verify_responses. cbn [length Nat.eqb req_amount with_origin].
  by rewrite (proj2 (Z.ltb_ge amount (Z.of_nat 1))) by lia.
Qed.

Lemma decode_consecutive `{!TendermintSpec} hs origin amount :
  hs ≠ [] → 0 < origin → Z.of_nat (length hs) ≤ amount → origin + Z.of_nat (length hs) ≤ u64_max →
  Forall (λ e, eh_validate e = Ok tt) hs → eh_height <$> hs = seqZ origin (Z.of_nat (length hs)) →
  decode_and_verify_responses (with_origin origin amount) (to_header_response <$> hs) = Ok hs.
Proof.
  intros Hne Ho Hlen Hmax Hv Hh. unfold decode_and_verify_responses. cbn [req_amount with_origin].
  rewrite length_fmap. destruct hs as [|e run]; [done|]. cbn [length Nat.eqb].
  destruct (Z.ltb_spec amount (Z.of_nat (Datatypes.S (length run)))); [simpl in *; lia|].
  rewrite decode_loop_encoded by done. cbv [mbind res_bind]. simpl app.
  rewrite (usort_consecutive _ origin) by done. cbn [req_data with_origin].
  pose proof (proj2 (check_heights_seqZ _ _) Hh) as Hc. simpl length in *.
  destruct run as [|e2 run].
  - destruct (Z.eqb_spec origin 0); [lia|]. rewrite u64_add_Ok by (simpl in *; lia). by rewrite Hc.
  - destruct (Z.ltb_spec 0 origin); [|lia]. simpl length in *. rewrite u64_add_Ok by lia. by rewrite Hc.
Qed.

(** The run of stored headers is what a request can be answered with. *)
Lemma stored_run_answer {S} `{!Store S} `{!StoreSpec S validated} (s : S) m origin n : store_rep s m →
  Forall (λ e, eh_validate e = Ok tt) (stored_run m origin n) ∧
  eh_height <$> stored_run m origin n = seqZ origin (Z.of_nat (length (stored_run m origin n))) ∧
  (length (stored_run m origin n) ≤ n)%nat.
Proof.
  intros Hrep. destruct (stored_run_spec _ m origin n (store_rep_ok s m Hrep)) as (Hh&Hv&Hlen).
  split_and!; [|done|done]. eapply Forall_impl; [exact Hv|by intros e [? _]].
Qed.

(** The exchange, end to end: for a request the arithmetic of the server can handle, a
    node whose store keeps its contract answers, and the client that sent the request gets
    from that answer the longest run of stored headers from the origin, limited by the
    requested amount and by 512, or [HeaderNotFound] when the first height is not stored. *)
Theorem header_exchange_by_height {S} `{!Store S} `{!StoreSpec S validated} `{!TendermintSpec}
    (s : S) m origin amount :
  store_rep s m → 0 < origin → 0 < amount → origin + Z.min amount 512 ≤ u64_max →
  ∃ responses,
    on_request_received s false (with_origin origin amount) = Some (Ok responses) ∧
    decode_and_verify_responses (with_origin origin amount) responses =
      match stored_run m origin (Z.to_nat (Z.min amount 512)) with
      | [] => Err HeaderNotFound
      | headers => Ok headers
      end.
Proof.
  intros Hrep Ho Ha Hmax. eexists. split; [by apply serve_by_height|].
  destruct (stored_run_answer s m origin (Z.to_nat (Z.min amount 512)) Hrep) as (Hv&Hh&Hlen).
  destruct (stored_run _ _ _) as [|e run]; [by apply decode_not_found|].
  apply decode_consecutive; [done|done| | |done|done]; simpl in *; lia.
Qed.

(** A well-formed request can make the server overflow: the range [origin..origin +
    amount] is built before anything is read from the store, so for an origin within the
    requested amount (at most 512) of the last [u64] a valid request panics instead of
    being answered with [NotFound]. *)
Theorem server_origin_overflow {S} `{Store S} (s : S) origin amount :
  0 < origin ≤ u64_max → 0 < amount → u64_max < origin + Z.min amount 512 →
  request_is_valid (with_origin origin amount) = true ∧
  on_request_received s false (with_origin origin amount) = Some Panic.
Proof.
  intros Ho Ha Hov. unfold on_request_received, parse_request.
  assert (request_is_valid (with_origin origin amount) = true) as Hval.
  { unfold request_is_valid; simpl. destruct (Z.eqb_spec amount 0); [lia|].
    by destruct (Z.eqb_spec origin 0); [lia|]. }
  split; [done|]. rewrite Hval. simpl. destruct (Z.eqb_spec origin 0); [lia|].
  unfold handle_request_by_height, MAX_HEADERS_AMOUNT_RESPONSE, u64_add, checked_add.
  destruct (Z.ltb_spec u64_max (origin + Z.min amount 512)); [done|lia].
Qed.

End HeaderEx.

(** ** A concrete exchange *)

#[local] Existing Instances toy_DahExternals toy_Tendermint toy_TendermintSpec toy_validated.

#[local] Instance merge_sort_UnstableSort : UnstableSort := {|
  usort A R _ := merge_sort R;
  usort_sorted A R _ _ _ := StronglySorted_merge_sort R;
  usort_perm A R _ := merge_sort_Permutation R
|}.

Definition toy_answer : list HeaderResponse :=
  [to_header_response toy_1; to_header_response toy_2; response_not_found].

(** Three answers, the last one [NotFound]: the two headers before it are accepted. *)
Lemma toy_accepted :
  decode_and_verify_responses (with_origin 1 3) toy_answer = Ok [toy_1; toy_2].
Proof. vm_compute. reflexivity. Qed.

Lemma decode_and_verify_responses_sound_witness :
  decode_and_verify_responses (with_origin 1 3) toy_answer = Ok [toy_1; toy_2] ∧
  eh_height <$> [toy_1; toy_2] = seqZ 1 2.
Proof.
  split; [exact toy_accepted|].
  exact (proj2 (proj2 (proj2 (decode_and_verify_responses_sound _ _ _ toy_accepted)))).
Defined.

Lemma header_exchange_by_height_witness :
  ∃ responses,
    on_request_received (im_insert toy_now im_new [toy_1]).2 false (with_origin 1 5)
      = Some (Ok responses) ∧
    decode_and_verify_responses (with_origin 1 5) responses =
      match stored_run (insert_all ∅ [toy_1]) 1 5 with
      | [] => Err HeaderNotFound
      | headers => Ok headers
      end.
Proof.
  apply (header_exchange_by_height (im_insert toy_now im_new [toy_1]).2 (insert_all ∅ [toy_1]) 1 5).
  - exact toy_state_rep.
  - lia.
  - lia.
  - unfold u64_max. lia.
Defined.

Lemma server_origin_overflow_witness :
  on_request_received im_new false (with_origin u64_max 1) = Some Panic.
Proof.
  refine (proj2 (server_origin_overflow im_new u64_max 1 _ _ _)); unfold u64_max; lia.
Defined.

(** Two peers agree on height 1, one claims height 3: the agreed header wins. *)
Example choose_head_agreement :
  choose_head [Some (Ok [toy_3]); Some (Ok [toy_1]); None; Some (Ok [toy_1])] = Ok toy_1.
Proof. vm_compute. reflexivity. Qed.
