(* ===== verification/HeaderExClient.v ===== *)
(** * The client of the header exchange

    src/node/src/p2p/header_ex/client.rs: the table of outstanding requests, the tasks that
    decode answers and choose heads, and the way every caller is answered.  A caller hands in
    the sending half of a oneshot channel; the type [OneshotSender] of the source answers
    [RequestCancelled] when it is dropped unused, so the model records a send for every sender
    that is dropped: when an entry of the table is overwritten, and when [on_stop] clears the
    tasks and the table.  The order of sends on different channels is not observable; the log
    [answers] keeps one.

    The transport is the class [RequestSender] (the trait of the source); nothing is assumed
    of it, not even that the ids it returns are fresh.  Which task a poll completes is an
    argument.  What a task computes ([decode_and_verify_responses], [choose_head]) is in
    HeaderEx. *)

From S2P Require Import Prelude Consts BlockRanges Nmt Merkle Dah Header ShwapIds Store.
From S2P Require Import InMemoryStore PeerTracker HeaderEx.

(** The trait [RequestSender]. *)
Class RequestSender `{PeerTypes} (R : Type) := {
  RequestId : Type;
  RequestId_eq :: EqDecision RequestId; RequestId_countable :: Countable RequestId;
  transport_send : R → PeerId → HeaderRequest → R * RequestId
}.

(** The sending half of a oneshot channel: one that a caller made, or one of
    [send_head_request]. *)
Inductive Chan := Caller (n : nat) | Internal (n : nat).
#[global] Instance Chan_eq : EqDecision Chan.
Proof. solve_decision. Defined.

Section Client.
Context `{Tendermint} `{DahExternals} `{UnstableSort} `{PeerTypes} {R : Type} `{!RequestSender R}.

Definition Answer : Type := res P2pError (list ExtendedHeader).

(** The struct [State]: an outstanding request. *)
Record ReqState := { rs_request : HeaderRequest; rs_respond_to : Chan }.

(** The asynchronous blocks that the handler pushes to [tasks]. *)
Inductive Task :=
| HeadTask (rxs : list Chan) (respond_to : Chan)
| DecodeTask (request : HeaderRequest) (responses : list HeaderResponse) (respond_to : Chan).

Definition task_respond_to (t : Task) : Chan :=
  match t with HeadTask _ ch => ch | DecodeTask _ _ ch => ch end.

(** The handler, the internal channels made so far, and the log of what was sent. *)
Record HeaderExClientHandler := {
  reqs : gmap RequestId ReqState;
  cancelled : bool;
  tasks : list Task;
  next_chan : nat;
  answers : list (Chan * Answer)
}.

Definition client_new : HeaderExClientHandler :=
  {| reqs := ∅; cancelled := false; tasks := []; next_chan := 0; answers := [] |}.

(** [OneshotSender::maybe_send] on a sender that was not used. *)
Definition send_answer (c : HeaderExClientHandler) (ch : Chan) (a : Answer) : HeaderExClientHandler :=
  {| reqs := reqs c; cancelled := cancelled c; tasks := tasks c; next_chan := next_chan c;
     answers := answers c ++ [(ch, a)] |}.
Definition request_cancelled : Answer := Err (PHeaderEx RequestCancelled).

Definition with_reqs (c : HeaderExClientHandler) (m : gmap RequestId ReqState) : HeaderExClientHandler :=
  {| reqs := m; cancelled := cancelled c; tasks := tasks c; next_chan := next_chan c;
     answers := answers c |}.
Definition with_tasks (c : HeaderExClientHandler) (ts : list Task) : HeaderExClientHandler :=
  {| reqs := reqs c; cancelled := cancelled c; tasks := ts; next_chan := next_chan c;
     answers := answers c |}.

(** [reqs.insert]: the entry that it replaces, if any, is dropped. *)
Definition reqs_insert (c : HeaderExClientHandler) (id : RequestId) (s : ReqState) : HeaderExClientHandler :=
  let c' := match reqs c !! id with
            | Some old => send_answer c (rs_respond_to old) request_cancelled
            | None => c
            end in
  with_reqs c' (<[id := s]> (reqs c)).

Definition send_request (shuffle : list PeerId → list PeerId) (c : HeaderExClientHandler) (r : R)
    (t : PeerTracker) (request : HeaderRequest) (respond_to : Chan) : HeaderExClientHandler * R :=
  if u64_max <? req_amount request
  then (send_answer c respond_to (Err (PHeaderEx InvalidRequest)), r) else
  match best_peer shuffle t with
  | None => (send_answer c respond_to (Err NoConnectedPeers), r)
  | Some peer =>
      let '(r, req_id) := transport_send r peer request in
      (reqs_insert c req_id {| rs_request := request; rs_respond_to := respond_to |}, r)
  end.

(** The loop over the peers: one internal channel for each. *)
Fixpoint send_to_peers (c : HeaderExClientHandler) (r : R) (request : HeaderRequest) (ps : list PeerId)
    : HeaderExClientHandler * R * list Chan :=
  match ps with
  | [] => (c, r, [])
  | peer :: ps =>
      let tx := Internal (next_chan c) in
      let c := {| reqs := reqs c; cancelled := cancelled c; tasks := tasks c;
                  next_chan := S (next_chan c); answers := answers c |} in
      let '(r, req_id) := transport_send r peer request in
      let c := reqs_insert c req_id {| rs_request := request; rs_respond_to := tx |} in
      let '(c, r, rxs) := send_to_peers c r request ps in
      (c, r, tx :: rxs)
  end.

Definition send_head_request (c : HeaderExClientHandler) (r : R) (t : PeerTracker)
    (request : HeaderRequest) (respond_to : Chan) : HeaderExClientHandler * R :=
  let ps := trusted_n_peers t MAX_PEERS in
  match ps with
  | [] => (send_answer c respond_to (Err NoConnectedPeers), r)
  | _ =>
      let '(c, r, rxs) := send_to_peers c r request ps in
      (with_tasks c (tasks c ++ [HeadTask rxs respond_to]), r)
  end.

Definition on_send_request (shuffle : list PeerId → list PeerId) (c : HeaderExClientHandler) (r : R)
    (t : PeerTracker) (request : HeaderRequest) (respond_to : Chan) : HeaderExClientHandler * R :=
  match reject_request (cancelled c) request with
  | Some e => (send_answer c respond_to (Err (PHeaderEx e)), r)
  | None =>
      if is_head_request request then send_head_request c r t request respond_to
      else send_request shuffle c r t request respond_to
  end.

Definition on_response_received (c : HeaderExClientHandler) (id : RequestId)
    (responses : list HeaderResponse) : HeaderExClientHandler :=
  match reqs c !! id with
  | None => c
  | Some s =>
      let c := with_reqs c (delete id (reqs c)) in
      with_tasks c (tasks c ++ [DecodeTask (rs_request s) responses (rs_respond_to s)])
  end.

Definition on_failure (c : HeaderExClientHandler) (id : RequestId) : HeaderExClientHandler :=
  match reqs c !! id with
  | None => c
  | Some s =>
      send_answer (with_reqs c (delete id (reqs c))) (rs_respond_to s)
        (Err (PHeaderEx OutboundFailure))
  end.

Definition cancel_all (c : HeaderExClientHandler) (chs : list Chan) : HeaderExClientHandler :=
  foldl (λ c ch, send_answer c ch request_cancelled) c chs.

Definition on_stop (c : HeaderExClientHandler) : HeaderExClientHandler :=
  let dropped := (task_respond_to <$> tasks c) ++
                 ((λ kv : RequestId * ReqState, rs_respond_to (kv.2)) <$> map_to_list (reqs c)) in
  cancel_all {| reqs := ∅; cancelled := true; tasks := []; next_chan := next_chan c;
                answers := answers c |} dropped.

(** What arrived on the receiving half of a channel. *)
Definition received (c : HeaderExClientHandler) (ch : Chan) : option Answer :=
  snd <$> find (λ a : Chan * Answer, bool_decide (a.1 = ch)) (answers c).

(** A task that is polled: [None] when it is still waiting ([join_all] of the answers). *)
Definition task_result (c : HeaderExClientHandler) (t : Task) : option Answer :=
  match t with
  | DecodeTask request responses _ =>
      Some (map_err PHeaderEx (decode_and_verify_responses request responses))
  | HeadTask rxs _ =>
      results ← mapM (received c) rxs;
      Some (match choose_head (Some <$> results) with
            | Ok header => Ok [header]
            | Err e => Err (PHeaderEx e)
            | Panic => Panic
            end)
  end.

(** [poll], when it is task [i] that makes progress. *)
Definition poll_task (c : HeaderExClientHandler) (i : nat) : res unit HeaderExClientHandler :=
  match tasks c !! i with
  | None => Ok c
  | Some t =>
      match task_result c t with
      | None => Ok c
      | Some Panic => Panic
      | Some a => Ok (send_answer (with_tasks c (delete i (tasks c))) (task_respond_to t) a)
      end
  end.

(** ** Executions *)

(** What happens to the handler.  The state of the peers and the shuffle are those at the
    time of the call. *)
Inductive ClientEvent :=
| EvSend (shuffle : list PeerId → list PeerId) (t : PeerTracker) (request : HeaderRequest) (caller : nat)
| EvResponse (id : RequestId) (responses : list HeaderResponse)
| EvFailure (id : RequestId)
| EvPoll (i : nat)
| EvStop.

Definition client_step (cr : HeaderExClientHandler * R) (e : ClientEvent)
    : res unit (HeaderExClientHandler * R) :=
  let '(c, r) := cr in
  match e with
  | EvSend shuffle t request caller => Ok (on_send_request shuffle c r t request (Caller caller))
  | EvResponse id responses => Ok (on_response_received c id responses, r)
  | EvFailure id => Ok (on_failure c id, r)
  | EvPoll i => c ← poll_task c i; Ok (c, r)
  | EvStop => Ok (on_stop c, r)
  end.

Fixpoint client_run (cr : HeaderExClientHandler * R) (es : list ClientEvent)
    : res unit (HeaderExClientHandler * R) :=
  match es with
  | [] => Ok cr
  | e :: es => cr ← client_step cr e; client_run cr es
  end.
(** ** Every sender is accounted for *)

(** The senders that are still held, and all senders that ever were. *)
Definition pending_reqs (m : gmap RequestId ReqState) : list Chan :=
  (λ kv : RequestId * ReqState, rs_respond_to (kv.2)) <$> map_to_list m.
Definition owned (c : HeaderExClientHandler) : list Chan :=
  pending_reqs (reqs c) ++ (task_respond_to <$> tasks c).
Definition all_chans (c : HeaderExClientHandler) : list Chan := (answers c).*1 ++ owned c.

Lemma send_answer_chans c ch a : all_chans (send_answer c ch a) ≡ₚ ch :: all_chans c.
Proof. unfold all_chans. cbn. rewrite fmap_app, <-(assoc_L (++)). cbn. symmetry. apply Permutation_middle. Qed.

Lemma pending_insert m id s : m !! id = None → pending_reqs (<[id := s]> m) ≡ₚ rs_respond_to s :: pending_reqs m.
Proof. intros Hid. unfold pending_reqs. by rewrite map_to_list_insert. Qed.

Lemma pending_delete m id s : m !! id = Some s → pending_reqs m ≡ₚ rs_respond_to s :: pending_reqs (delete id m).
Proof. intros Hid. unfold pending_reqs. by rewrite <-(map_to_list_delete m id s). Qed.

Lemma reqs_insert_chans c id s : all_chans (reqs_insert c id s) ≡ₚ rs_respond_to s :: all_chans c.
Proof.
  unfold reqs_insert. destruct (reqs c !! id) as [old|] eqn:Hold; unfold all_chans, owned; cbn.
  - rewrite <-insert_delete_eq, pending_insert by apply lookup_delete_eq.
    rewrite (pending_delete _ _ _ Hold), fmap_app. cbn. solve_Permutation.
  - rewrite pending_insert by done. solve_Permutation.
Qed.

Lemma reqs_insert_next c id s : next_chan (reqs_insert c id s) = next_chan c.
Proof. unfold reqs_insert. by destruct (reqs c !! id). Qed.

Lemma push_task_chans c t : all_chans (with_tasks c (tasks c ++ [t])) ≡ₚ task_respond_to t :: all_chans c.
Proof. unfold all_chans, owned. cbn. rewrite fmap_app. cbn. solve_Permutation. Qed.

Lemma send_to_peers_chans request ps c r c' r' rxs : send_to_peers c r request ps = (c', r', rxs) →
  all_chans c' ≡ₚ rxs ++ all_chans c ∧ rxs = Internal <$> seq (next_chan c) (length ps) ∧
  next_chan c' = (next_chan c + length ps)%nat.
Proof.
  revert c r c' r' rxs; induction ps as [|p ps IH]; intros c r c' r' rxs; cbn [send_to_peers].
  { intros [= <- <- <-]. cbn. split_and!; [done|done|lia]. }
  destruct (transport_send r p request) as [r1 id]. set (c1 := reqs_insert _ _ _).
  destruct (send_to_peers c1 r1 request ps) as [[c2 r2] rxs2] eqn:Hrec. intros [= <- <- <-].
  assert (next_chan c1 = S (next_chan c)) as Hn by (subst c1; by rewrite reqs_insert_next).
  apply IH in Hrec as (Hp&->&->). rewrite Hn. cbn [length seq fmap list_fmap app]. split_and!; [|done|lia].
  rewrite Hp, Hn. subst c1. rewrite reqs_insert_chans. cbn [rs_respond_to].
  rewrite <-Permutation_middle. done.
Qed.

Lemma on_response_chans c id responses : all_chans (on_response_received c id responses) ≡ₚ all_chans c.
Proof.
  unfold on_response_received. destruct (reqs c !! id) as [s|] eqn:Hs; [|done].
  unfold all_chans, owned. cbn. rewrite (pending_delete _ _ _ Hs), fmap_app. cbn. solve_Permutation.
Qed.

Lemma on_failure_chans c id : all_chans (on_failure c id) ≡ₚ all_chans c.
Proof.
  unfold on_failure. destruct (reqs c !! id) as [s|] eqn:Hs; [|done].
  rewrite send_answer_chans. unfold all_chans, owned. cbn. rewrite (pending_delete _ _ _ Hs).
  solve_Permutation.
Qed.

Lemma poll_task_chans c i c' : poll_task c i = Ok c' → all_chans c' ≡ₚ all_chans c.
Proof.
  unfold poll_task. destruct (tasks c !! i) as [t|] eqn:Ht; [|by intros [= <-]].
  assert (∀ a, all_chans (send_answer (with_tasks c (delete i (tasks c))) (task_respond_to t) a) ≡ₚ all_chans c) as Hd.
  { intros a. rewrite send_answer_chans. unfold all_chans, owned. cbn.
    rewrite (delete_Permutation (tasks c) i t Ht) at 2. cbn. solve_Permutation. }
  destruct (task_result c t) as [[hs|e|]|]; intros [= <-]; [apply Hd|apply Hd|done].
Qed.

Lemma cancel_all_spec chs c : answers (cancel_all c chs) = answers c ++ ((λ ch, (ch, request_cancelled)) <$> chs) ∧
  reqs (cancel_all c chs) = reqs c ∧ tasks (cancel_all c chs) = tasks c ∧
  next_chan (cancel_all c chs) = next_chan c ∧ cancelled (cancel_all c chs) = cancelled c.
Proof.
  revert c; induction chs as [|ch chs IH]; intros c; cbn; [by rewrite app_nil_r|].
  destruct (IH (send_answer c ch request_cancelled)) as (Ha&?&?&?&?). unfold cancel_all in *.
  rewrite Ha. cbn. by rewrite <-(assoc_L (++)).
Qed.

Lemma on_stop_owned c : owned (on_stop c) = [].
Proof.
  unfold on_stop, owned. destruct (cancel_all_spec ((task_respond_to <$> tasks c) ++ pending_reqs (reqs c))
    {| reqs := ∅; cancelled := true; tasks := []; next_chan := next_chan c; answers := answers c |})
    as (_&Hr&Ht&_). fold (pending_reqs (reqs c)). rewrite Hr, Ht. unfold pending_reqs. cbn [reqs tasks].
  by rewrite map_to_list_empty.
Qed.

Lemma on_stop_chans c : all_chans (on_stop c) ≡ₚ all_chans c.
Proof.
  unfold all_chans. rewrite on_stop_owned, app_nil_r. unfold on_stop. fold (pending_reqs (reqs c)).
  rewrite (proj1 (cancel_all_spec _ _)). cbn. rewrite fmap_app, <-list_fmap_compose.
  unfold owned. change (fst ∘ (λ ch, (ch, request_cancelled))) with (λ ch : Chan, ch).
  rewrite list_fmap_id. solve_Permutation.
Qed.
(** ** What the answers mean *)

(** The requests that callers sent, with the channels they gave. *)
Definition requests_of (e : ClientEvent) : list (nat * HeaderRequest) :=
  match e with EvSend _ _ request caller => [(caller, request)] | _ => [] end.
Definition sent_requests (es : list ClientEvent) : list (nat * HeaderRequest) := es ≫= requests_of.

(** The headers fit the request: what [decode_and_verify_responses] promises. *)
Definition accepted (request : HeaderRequest) (headers : list ExtendedHeader) : Prop :=
  headers ≠ [] ∧ Z.of_nat (length headers) ≤ req_amount request ∧
  Forall (λ e, eh_validate e = Ok tt) headers ∧
  match req_data request with
  | None => False
  | Some (Origin start) =>
      if start =? 0 then length headers = 1%nat
      else eh_height <$> headers = seqZ start (Z.of_nat (length headers))
  | Some (DataHash hash) => ∃ e, headers = [e] ∧ hash_as_bytes (eh_hash e) = hash
  end.

(** What a channel was made for. *)
Definition for_chan (sent : list (nat * HeaderRequest)) (ch : Chan) (request : HeaderRequest) : Prop :=
  match ch with
  | Caller n => (n, request) ∈ sent
  | Internal _ => is_head_request request = true
  end.

Definition task_ok (sent : list (nat * HeaderRequest)) (next : nat) (t : Task) : Prop :=
  match t with
  | DecodeTask request _ ch => for_chan sent ch request
  | HeadTask rxs ch =>
      (∃ n request, ch = Caller n ∧ (n, request) ∈ sent ∧ is_head_request request = true) ∧
      Forall (λ rx, ∃ k, rx = Internal k ∧ (k < next)%nat) rxs
  end.

Record sound (sent : list (nat * HeaderRequest)) (c : HeaderExClientHandler) : Prop := {
  so_reqs id s : reqs c !! id = Some s → for_chan sent (rs_respond_to s) (rs_request s);
  so_tasks t : t ∈ tasks c → task_ok sent (next_chan c) t;
  so_answers ch hs : (ch, Ok hs) ∈ answers c → ∃ request, for_chan sent ch request ∧ accepted request hs
}.

(** Every sender was made by a caller or by [send_head_request], and is held or used. *)
Definition accounts (sent : list (nat * HeaderRequest)) (c : HeaderExClientHandler) : Prop :=
  (Caller <$> sent.*1) ++ (Internal <$> seq 0 (next_chan c)) ≡ₚ all_chans c.

Lemma is_head_request_unique request : is_head_request request = true → request = head_request.
Proof.
  destruct request as [[[o|h]|] a]; cbn; [|done|done].
  intros [->%Z.eqb_eq ->%Z.eqb_eq]%andb_true_iff. done.
Qed.

Lemma choose_head_elem results e : choose_head results = Ok e → Some (Ok [e]) ∈ results.
Proof.
  unfold choose_head. destruct (collect_heads_spec results) as [Hans _].
  destruct (collect_heads results) as [resps inv]; simpl in Hans. intros Hch.
  assert (e ∈ resps) as Hin.
  { destruct resps as [|e0 resps0] eqn:Heq; [by destruct inv|]. rewrite <-Heq in *. clear Heq e0 resps0.
    pose proof (usort_perm (head_le resps) resps) as Hp. destruct (find _ _) eqn:Hf.
    - injection Hch as ->. apply find_some in Hf as [Hf _]. rewrite <-Hp. by apply list_elem_of_In.
    - destruct (usort _ _) as [|e1 l]; [done|]. injection Hch as ->. rewrite <-Hp. left. }
  rewrite Hans in Hin. apply list_elem_of_omap in Hin as (r&Hr&He).
  by destruct r as [[[|? [|]]| |]|]; simplify_eq/=.
Qed.

Lemma received_answer c ch a : received c ch = Some a → (ch, a) ∈ answers c.
Proof.
  unfold received. destruct (find _ _) as [[ch' a']|] eqn:Hf; [|done]. intros [= <-].
  apply find_some in Hf as [Hin Hch%bool_decide_eq_true]. simpl in Hch. subst. by apply list_elem_of_In.
Qed.

(** A task that completes with headers answers its channel correctly. *)
Lemma task_result_ok sent c t hs : sound sent c → t ∈ tasks c → task_result c t = Some (Ok hs) →
  ∃ request, for_chan sent (task_respond_to t) request ∧ accepted request hs.
Proof.
  intros Hinv Hin Hres. pose proof (so_tasks _ _ Hinv _ Hin) as Hok.
  destruct t as [rxs ch|request responses ch]; cbn [task_result task_ok task_respond_to] in *.
  - destruct Hok as [(n&request&->&Hsent&Hhead) Hrxs].
    destruct (mapM (received c) rxs) as [results|] eqn:Hm; cbn [mbind option_bind] in Hres; [|done].
    injection Hres as Hres. destruct (choose_head (Some <$> results)) as [e| |] eqn:Hch; [|done|done].
    injection Hres as <-. apply choose_head_elem, list_elem_of_fmap in Hch as (a&[= <-]&Ha).
    apply mapM_Some_1 in Hm. apply list_elem_of_lookup in Ha as [i Hi].
    destruct (Forall2_lookup_r _ _ _ _ _ Hm Hi) as (rx&Hrx&Hrec%received_answer).
    destruct (so_answers _ _ Hinv _ _ Hrec) as (request'&Hfor&Hacc).
    destruct (Forall_lookup_1 _ _ _ _ Hrxs Hrx) as (k&->&_). cbn in Hfor.
    apply is_head_request_unique in Hfor as ->. exists request. split; [done|].
    by rewrite (is_head_request_unique _ Hhead).
  - injection Hres as Hres. apply map_err_Ok in Hres. exists request. split; [done|].
    apply decode_and_verify_accepted in Hres as (Hne&Hlen&Hall&Hm). unfold accepted. split_and!; [done|done| |done].
    eapply Forall_impl; [exact Hall|]. by intros e [? _].
Qed.
(** ** Every step keeps this *)

Lemma for_chan_mono sent sent' ch request : sent ⊆ sent' → for_chan sent ch request → for_chan sent' ch request.
Proof. intros Hs. destruct ch; cbn; [apply Hs|done]. Qed.

Lemma task_ok_mono sent sent' n n' t : sent ⊆ sent' → (n ≤ n')%nat → task_ok sent n t → task_ok sent' n' t.
Proof.
  intros Hs Hn. destruct t as [rxs ch|request responses ch]; cbn [task_ok].
  - intros [(k&request&->&Hk&Hh) Hrxs]. split; [by eauto 6|].
    eapply Forall_impl; [exact Hrxs|]. intros rx (j&->&Hj). exists j. split; [done|lia].
  - by apply for_chan_mono.
Qed.

Lemma sound_mono sent sent' c : sent ⊆ sent' → sound sent c → sound sent' c.
Proof.
  intros Hs [Hr Ht Ha]. constructor.
  - intros id s Hid. by eapply for_chan_mono, Hr.
  - intros t Hin. by eapply task_ok_mono, Ht.
  - intros ch hs (request&Hf&Hacc)%Ha. exists request. split; [by eapply for_chan_mono|done].
Qed.

Lemma sound_send_answer sent c ch a : sound sent c →
  (∀ hs, a = Ok hs → ∃ request, for_chan sent ch request ∧ accepted request hs) → sound sent (send_answer c ch a).
Proof.
  intros [Hr Ht Ha] Hok. constructor; cbn; [done|done|].
  intros ch' hs [Hin|Hin%list_elem_of_singleton]%elem_of_app; [by apply Ha|]. injection Hin as -> <-. by apply Hok.
Qed.
Lemma sound_send_err sent c ch e : sound sent c → sound sent (send_answer c ch (Err e)).
Proof. intros Hs. by apply sound_send_answer. Qed.

Lemma sound_with_tasks sent c ts : sound sent c → (∀ t, t ∈ ts → task_ok sent (next_chan c) t) →
  sound sent (with_tasks c ts).
Proof. intros [Hr Ht Ha] Hts. by constructor. Qed.

Lemma sound_delete sent c id : sound sent c → sound sent (with_reqs c (delete id (reqs c))).
Proof.
  intros [Hr Ht Ha]. constructor; cbn; [|done|done]. intros id' s [_ Hid]%lookup_delete_Some. by eapply Hr.
Qed.

Lemma sound_reqs_insert sent c id s : sound sent c → for_chan sent (rs_respond_to s) (rs_request s) →
  sound sent (reqs_insert c id s).
Proof.
  intros Hs Hfor. set (c' := match reqs c !! id with Some old => send_answer c (rs_respond_to old) request_cancelled
                             | None => c end).
  assert (sound sent c') as [Hr Ht Ha].
  { subst c'. destruct (reqs c !! id); [by apply sound_send_err|done]. }
  unfold reqs_insert. fold c'. constructor; cbn; [|done|done].
  intros id' s' [[_ <-]|[_ Hid]]%lookup_insert_Some; [done|]. by eapply (so_reqs _ _ Hs).
Qed.

Lemma sound_send_to_peers sent request ps c r : sound sent c → is_head_request request = true →
  sound sent (send_to_peers c r request ps).1.1.
Proof.
  intros Hs Hhead. revert c r Hs; induction ps as [|p ps IH]; intros c r Hs; cbn [send_to_peers]; [done|].
  destruct (transport_send r p request) as [r1 id].
  match goal with |- context [send_to_peers ?c1 r1 request ps] => assert (sound sent c1) as Hs1 end.
  { apply sound_reqs_insert; [|done]. destruct Hs as [Hr Ht Ha]. constructor; cbn; [done| |done].
    intros t Hin. eapply task_ok_mono; [done| |by apply Ht]. cbn. lia. }
  specialize (IH _ r1 Hs1). by destruct (send_to_peers _ r1 request ps) as [[c2 r2] rxs2].
Qed.

Lemma on_send_request_ok sent shuffle c r t request n c' r' :
  on_send_request shuffle c r t request (Caller n) = (c', r') → sound sent c → accounts sent c →
  sound (sent ++ [(n, request)]) c' ∧ accounts (sent ++ [(n, request)]) c'.
Proof.
  intros Hrun Hs%(sound_mono _ (sent ++ [(n, request)])); [|set_solver]. intros Hacc.
  assert (for_chan (sent ++ [(n, request)]) (Caller n) request) as Hfor by (cbn; set_solver).
  assert (∀ d, all_chans d ≡ₚ Caller n :: (Internal <$> seq (next_chan c) (next_chan d - next_chan c)) ++ all_chans c →
    (next_chan c ≤ next_chan d)%nat → accounts (sent ++ [(n, request)]) d) as Hone.
  { intros d Hd Hn. unfold accounts. rewrite Hd, <-Hacc.
    replace (next_chan d) with (next_chan c + (next_chan d - next_chan c))%nat at 1 by lia.
    rewrite seq_app, !fmap_app. cbn. solve_Permutation. }
  assert (∀ e, sound (sent ++ [(n, request)]) (send_answer c (Caller n) (Err e)) ∧
               accounts (sent ++ [(n, request)]) (send_answer c (Caller n) (Err e))) as Herr.
  { intros e. split; [by apply sound_send_err|]. apply Hone; [|done]. by rewrite send_answer_chans, Nat.sub_diag. }
  unfold on_send_request in Hrun. destruct (reject_request _ _); [injection Hrun as <- _; apply Herr|].
  destruct (is_head_request request) eqn:Hhead.
  - unfold send_head_request in Hrun. destruct (trusted_n_peers t MAX_PEERS) as [|p ps]; [injection Hrun as <- _; apply Herr|].
    pose proof (sound_send_to_peers _ request (p :: ps) c r Hs Hhead) as Hs1.
    destruct (send_to_peers c r request (p :: ps)) as [[c1 r1] rxs] eqn:Hpeers. injection Hrun as <- _.
    apply send_to_peers_chans in Hpeers as (Hch&Hrxs&Hnext). split.
    + apply sound_with_tasks; [done|]. intros task [Hin| ->%list_elem_of_singleton]%elem_of_app.
      { by apply (so_tasks _ _ Hs1). }
      cbn. split; [exists n, request; split_and!; [done|set_solver|done]|]. rewrite Hrxs.
      apply Forall_fmap, Forall_seq. intros k Hk. exists k. split; [done|]. cbn in *. lia.
    + apply Hone; [|cbn; lia]. rewrite push_task_chans, Hch. cbn [next_chan with_tasks task_respond_to].
      rewrite Hnext, Nat.add_comm, Nat.add_sub, <-Hrxs. done.
  - unfold send_request in Hrun. destruct (u64_max <? _); [injection Hrun as <- _; apply Herr|].
    destruct (best_peer shuffle t) as [p|]; [|injection Hrun as <- _; apply Herr].
    destruct (transport_send r p request) as [r1 id]. injection Hrun as <- _. split.
    + by apply sound_reqs_insert.
    + apply Hone; rewrite reqs_insert_next; [|done]. by rewrite reqs_insert_chans, Nat.sub_diag.
Qed.
Lemma client_step_ok sent c r e c' r' : client_step (c, r) e = Ok (c', r') → sound sent c → accounts sent c →
  sound (sent ++ requests_of e) c' ∧ accounts (sent ++ requests_of e) c'.
Proof.
  intros Hstep Hs Hacc. destruct e as [shuffle t request n|id responses|id|i|]; cbn [client_step requests_of] in *;
    [injection Hstep as Hstep; by eapply on_send_request_ok|rewrite app_nil_r; unfold accounts..].
  - injection Hstep as <- _. rewrite on_response_chans. unfold on_response_received.
    destruct (reqs c !! id) as [s|] eqn:Hid; [|done]. split; [|done].
    apply sound_with_tasks; [by apply sound_delete|]. intros t [Hin| ->%list_elem_of_singleton]%elem_of_app.
    { by apply (so_tasks _ _ Hs). }
    by apply (so_reqs _ _ Hs id s).
  - injection Hstep as <- _. rewrite on_failure_chans. unfold on_failure.
    destruct (reqs c !! id) as [s|] eqn:Hid; [|done]. split; [|done]. by apply sound_send_err, sound_delete.
  - apply bind_Ok in Hstep as (c1&Hp&[= -> _]). rewrite (poll_task_chans _ _ _ Hp).
    unfold poll_task in Hp. destruct (tasks c !! i) as [t|] eqn:Hi; [|by injection Hp as <-].
    assert (t ∈ tasks c) as Hin by (by eapply list_elem_of_lookup_2).
    assert (∀ a, task_result c t = Some a →
      sound sent (send_answer (with_tasks c (delete i (tasks c))) (task_respond_to t) a)) as Hdone.
    { intros a Ha. apply sound_send_answer; [apply sound_with_tasks; [done|]|].
      - intros t' Ht'. apply (so_tasks _ _ Hs). by eapply sublist_subseteq; [apply sublist_delete|].
      - intros hs ->. by eapply task_result_ok. }
    destruct (task_result c t) as [[hs|e|]|]; try done; injection Hp as <-; (split; [by auto|done]).
  - injection Hstep as <- _. rewrite on_stop_chans. unfold on_stop. fold (pending_reqs (reqs c)).
    match goal with |- context [cancel_all ?c0 ?chs] => destruct (cancel_all_spec chs c0) as (Ha&Hr&Ht&Hn&_) end.
    rewrite Hn. split; [|done]. constructor; rewrite ?Hr, ?Ht, ?Ha; cbn.
    + intros id s Hid. by rewrite lookup_empty in Hid.
    + intros t Ht'. by apply not_elem_of_nil in Ht'.
    + intros ch hs [Hin|(ch'&Heq&_)%list_elem_of_fmap]%elem_of_app; [by apply (so_answers _ _ Hs)|done].
Qed.

Lemma client_run_ok es sent c r c' r' : client_run (c, r) es = Ok (c', r') → sound sent c → accounts sent c →
  sound (sent ++ sent_requests es) c' ∧ accounts (sent ++ sent_requests es) c'.
Proof.
  revert sent c r; induction es as [|e es IH]; intros sent c r; cbn [client_run sent_requests].
  { intros [= <- _]. by rewrite app_nil_r. }
  intros Hrun Hs Hacc. inv_res Hrun. rename Hc into Hstep. match type of Hstep with _ = Ok ?x => destruct x as [c1 r1] end.
  destruct (client_step_ok _ _ _ _ _ _ Hstep Hs Hacc) as [Hs1 Hacc1].
  destruct (IH _ _ _ Hrun Hs1 Hacc1) as [Hs2 Hacc2]. rewrite <-(assoc_L (++)) in Hs2, Hacc2. done.
Qed.

Lemma client_new_ok : sound [] client_new ∧ accounts [] client_new.
Proof.
  split; [constructor|].
  - intros id s Hid. cbn in Hid. by rewrite lookup_empty in Hid.
  - intros t Ht. by apply not_elem_of_nil in Ht.
  - intros ch hs Ha. by apply not_elem_of_nil in Ha.
  - unfold accounts, all_chans, owned, pending_reqs. cbn. by rewrite map_to_list_empty.
Qed.

(** The channels of the callers, among all. *)
Lemma callers_once sent c n : accounts sent c → NoDup (sent.*1) → n ∈ sent.*1 →
  NoDup (all_chans c) ∧ Caller n ∈ all_chans c.
Proof.
  intros Hacc Hnd Hn. split.
  - rewrite <-Hacc. apply NoDup_app. split_and!.
    + apply NoDup_fmap_2; [intros ??; congruence|done].
    + intros ch (?&->&_)%list_elem_of_fmap (?&?&_)%list_elem_of_fmap. done.
    + apply NoDup_fmap_2; [intros ??; congruence|apply NoDup_seq].
  - rewrite <-Hacc. apply elem_of_app. left. by apply list_elem_of_fmap_2.
Qed.

Lemma filter_chan_none (l : list (Chan * Answer)) ch : ch ∉ l.*1 → filter (λ p : Chan * Answer, p.1 = ch) l = [].
Proof. intros Hn. apply filter_none. intros p Hp <-. apply Hn. by apply list_elem_of_fmap_2. Qed.

Lemma answered_or_owned c ch : NoDup (all_chans c) → ch ∈ all_chans c →
  (∃ a, filter (λ p : Chan * Answer, p.1 = ch) (answers c) = [(ch, a)] ∧ ch ∉ owned c) ∨
  (filter (λ p : Chan * Answer, p.1 = ch) (answers c) = [] ∧ ch ∈ owned c).
Proof.
  unfold all_chans. intros (Hnd&Hdis&_)%NoDup_app Hin. apply elem_of_app in Hin as [Hin|Hin].
  - left. pose proof (Hdis ch Hin) as Hown. apply list_elem_of_fmap in Hin as ([ch' a]&->&Hin). cbn in Hown.
    exists a. split; [|done]. apply list_elem_of_split in Hin as (l1&l2&Heq). rewrite Heq in *.
    rewrite fmap_app in Hnd. cbn in Hnd. apply NoDup_app in Hnd as (_&Hd1&[Hd2 _]%NoDup_cons).
    rewrite filter_app, filter_cons_True by done. cbn [fst].
    rewrite !filter_chan_none; [done|done|]. intros Hin. apply (Hd1 _ Hin). left.
  - right. split; [|done]. apply filter_chan_none. intros Hin'. by apply (Hdis ch).
Qed.

Lemma received_Some c ch : ch ∈ (answers c).*1 → is_Some (received c ch).
Proof.
  intros ([ch' a]&->&Hin)%list_elem_of_fmap. unfold received. destruct (find _ _) eqn:Hf; [by eexists|].
  apply (find_None_Forall _ _) with (y := (ch', a)) in Hf; [|done]. cbn in Hf. by apply bool_decide_eq_false in Hf.
Qed.

Definition is_decode (t : Task) : bool := match t with DecodeTask _ _ _ => true | _ => false end.

Lemma some_task_ready sent c : sound sent c → accounts sent c → reqs c = ∅ → tasks c ≠ [] →
  ∃ i t a, tasks c !! i = Some t ∧ task_result c t = Some a.
Proof.
  intros Hs Hacc Hr Hne.
  destruct (decide (Exists (λ t, is_decode t = true) (tasks c))) as [Hex|Hno].
  - apply Exists_exists in Hex as (t&[i Hi]%list_elem_of_lookup&Ht). destruct t; [done|]. by eexists i, _, _.
  - destruct (tasks c) as [|[rxs ch|] ts] eqn:Hts; [done| |exfalso; apply Hno; by left].
    exists 0%nat, (HeadTask rxs ch). cbn [task_result lookup].
    assert (is_Some (mapM (received c) rxs)) as [results Hm].
    { apply mapM_is_Some_2. assert (HeadTask rxs ch ∈ tasks c) as Hin by (rewrite Hts; left).
      destruct (so_tasks _ _ Hs _ Hin) as [_ Hrxs]. eapply Forall_impl; [exact Hrxs|]. intros rx (k&->&Hk).
      apply received_Some. assert (Internal k ∈ all_chans c) as Hall.
      { rewrite <-Hacc. apply elem_of_app. right. apply list_elem_of_fmap_2, elem_of_seq. lia. }
      apply elem_of_app in Hall as [?|Hown]; [done|exfalso]. unfold owned, pending_reqs in Hown.
      rewrite Hr, map_to_list_empty in Hown. apply list_elem_of_fmap in Hown as (t&Ht&Hint).
      destruct t as [rxs' ch'|]; [|apply Hno; rewrite <-Hts; apply Exists_exists; by eexists].
      destruct (so_tasks _ _ Hs _ Hint) as [(?&?&->&_) _]. done. }
    eexists. split; [done|]. by rewrite Hm.
Qed.

Lemma poll_task_result c i t a : tasks c !! i = Some t → task_result c t = Some a → a ≠ Panic →
  poll_task c i = Ok (send_answer (with_tasks c (delete i (tasks c))) (task_respond_to t) a).
Proof. intros Hi Hres Hp. unfold poll_task. rewrite Hi, Hres. by destruct a. Qed.

(** C9. Every caller is answered exactly once.  In every execution of the handler, whatever the
    ids of the transport and the order of responses, failures and polls: a caller that sent a
    request got exactly one answer, or none and its channel is still held by an outstanding
    request or a task.  When the handler is stopped nothing is held any more, so every
    caller has its answer.  And nothing waits for ever: when no request is outstanding, some
    task that is left is ready to complete. *)
Theorem client_answers_exactly_once es r c r' : client_run (client_new, r) es = Ok (c, r') →
  NoDup (sent_requests es).*1 →
  (∀ n, n ∈ (sent_requests es).*1 →
    (∃ a, filter (λ p : Chan * Answer, p.1 = Caller n) (answers c) = [(Caller n, a)] ∧ Caller n ∉ owned c) ∨
    (filter (λ p : Chan * Answer, p.1 = Caller n) (answers c) = [] ∧ Caller n ∈ owned c)) ∧
  (∀ n, n ∈ (sent_requests es).*1 → Caller n ∈ (answers (on_stop c)).*1) ∧
  (reqs c = ∅ → tasks c ≠ [] → ∃ i t a, tasks c !! i = Some t ∧ task_result c t = Some a ∧
    (a ≠ Panic → ∃ c', poll_task c i = Ok c' ∧ length (tasks c') = pred (length (tasks c)))).
Proof.
  intros Hrun Hnd. destruct client_new_ok as [Hs0 Ha0].
  destruct (client_run_ok _ _ _ _ _ _ Hrun Hs0 Ha0) as [Hs Hacc]. cbn [app] in *. split_and!.
  - intros n Hn. destruct (callers_once _ _ _ Hacc Hnd Hn) as [Hall Hin]. by apply answered_or_owned.
  - intros n Hn. destruct (callers_once _ _ _ Hacc Hnd Hn) as [_ Hin]. rewrite <-on_stop_chans in Hin.
    unfold all_chans in Hin. by rewrite on_stop_owned, app_nil_r in Hin.
  - intros Hr Ht. destruct (some_task_ready _ _ Hs Hacc Hr Ht) as (i&t&a&Hi&Hres). exists i, t, a.
    split_and!; [done|done|]. intros Hp. eexists. split; [by eapply poll_task_result|]. cbn.
    rewrite length_delete by done. lia.
Qed.

(** C10. An answer with headers fits the request: a caller that is answered with headers sent a
    request for which these headers are what it asked for.  Every header passed [validate],
    there are at most as many as requested, and they have the consecutive heights from the
    requested origin, the requested hash, or, for a request of the head, there is one header. *)
Theorem client_answer_sound es r c r' n hs : client_run (client_new, r) es = Ok (c, r') →
  (Caller n, Ok hs) ∈ answers c →
  ∃ request, (n, request) ∈ sent_requests es ∧ accepted request hs.
Proof.
  intros Hrun Hin. destruct client_new_ok as [Hs0 Ha0].
  destruct (client_run_ok _ _ _ _ _ _ Hrun Hs0 Ha0) as [Hs _]. exact (so_answers _ _ Hs _ _ Hin).
Qed.
End Client.

(** ** A concrete execution *)

#[local] Existing Instances toy_DahExternals toy_Tendermint toy_TendermintSpec merge_sort_UnstableSort toy_peers.

(** The transport numbers its requests. *)
#[local] Instance toy_transport : RequestSender nat := {|
  RequestId := nat; transport_send r _ _ := (S r, r)
|}.

Definition toy_tracker : PeerTracker :=
  match tracker_run tracker_new [OpTrusted (1%nat : PeerId) true; OpConnected (1%nat : PeerId) (10%nat : ConnectionId) None] with
  | Ok t => t
  | _ => tracker_new
  end.

(** A request by height that is answered, and a request of the head that fails. *)
Definition toy_events : list ClientEvent :=
  [EvSend (λ l, l) toy_tracker (with_origin 1 3) 0; EvSend (λ l, l) toy_tracker head_request 1;
   EvResponse (0%nat : RequestId) toy_answer; EvFailure (1%nat : RequestId); EvPoll 1; EvPoll 0].

Definition toy_client : HeaderExClientHandler * nat :=
  match client_run (client_new, 0%nat) toy_events with Ok cr => cr | _ => (client_new, 0%nat) end.

Lemma toy_client_run : client_run (client_new, 0%nat) toy_events = Ok (toy_client.1, toy_client.2).
Proof. vm_compute. reflexivity. Qed.

Lemma client_answers_exactly_once_witness :
  Caller 1 ∈ (answers (on_stop toy_client.1)).*1 ∧
  answers toy_client.1 =
    [(Internal 0, Err (PHeaderEx OutboundFailure)); (Caller 0, Ok [toy_1; toy_2]);
     (Caller 1, Err (PHeaderEx HeaderNotFound))].
Proof.
  split; [|vm_compute; reflexivity].
  apply (client_answers_exactly_once toy_events 0%nat toy_client.1 toy_client.2 toy_client_run);
    [apply (bool_decide_unpack _); vm_compute; reflexivity..].
Defined.

Lemma client_answer_sound_witness : ∃ request,
  ((0%nat, request) ∈ sent_requests toy_events) ∧ accepted request [toy_1; toy_2].
Proof.
  apply (client_answer_sound toy_events 0%nat toy_client.1 toy_client.2 0 [toy_1; toy_2] toy_client_run).
  assert (answers toy_client.1 !! 1%nat = Some (Caller 0, Ok [toy_1; toy_2])) as Hl by (vm_compute; reflexivity).
  exact (list_elem_of_lookup_2 _ _ _ Hl).
Defined.
