(* ===== verification/HeaderExCodec.v ===== *)
(** * The wire format of the header exchange

    src/node/src/p2p/header_ex.rs, [HeaderCodec]: how requests and responses are written to
    and read from a stream.  Messages are length delimited.  The reader stops at a size limit,
    at the end of the stream or when its time is up, and takes from what it got the messages
    that are complete.  The delimiters and the protobuf coding are those of prost (class
    [Prost]); what a stream delivers is a list of the outcomes of its reads.

    The theorems say what a peer reads of what another peer wrote, however the stream cuts
    it into pieces, and compose the wire format with the server and the client of HeaderEx. *)

From S2P Require Import Prelude Consts BlockRanges Nmt Merkle Dah Header ShwapIds Store.
From S2P Require Import InMemoryStore PeerTracker HeaderEx.

(** What the codec uses of prost. *)
Class Prost := {
  encode_length_delimiter : nat → bytes;
  decode_length_delimiter : bytes → option (nat * bytes);
  encode_request : HeaderRequest → bytes;
  decode_request : bytes → option HeaderRequest;
  encode_response : HeaderResponse → bytes;
  decode_response : bytes → option HeaderResponse
}.

(** A delimiter is read back with what follows it, a delimiter that is cut off is not read,
    and reading one consumes input; messages decode to what was encoded. *)
Class ProstSpec `{Prost} := {
  decode_delimiter_encode n rest :
    decode_length_delimiter (encode_length_delimiter n ++ rest) = Some (n, rest);
  decode_delimiter_cut n p q :
    encode_length_delimiter n = p ++ q → q ≠ [] → decode_length_delimiter p = None;
  decode_delimiter_shorter b n rest : decode_length_delimiter b = Some (n, rest) →
    (length rest < length b)%nat;
  decode_encode_request r : decode_request (encode_request r) = Some r;
  decode_encode_response r : decode_response (encode_response r) = Some r
}.

Definition REQUEST_SIZE_LIMIT : nat := 1024.
Definition RESPONSE_SIZE_LIMIT : nat := N.to_nat (10 * 1024 * 1024).

(** Any error of the stream or of the codec ([io::Error]). *)
Inductive IoError := StreamError | InvalidOrIncomplete.

(** The outcome of a read: some bytes are there (the reader takes what fits its buffer), the
    read fails, or the time limit passes first. *)
Inductive ReadEvent := Arrived (chunk : bytes) | ReadFailed | TimeUp.

Section Codec.
Context `{Prost}.

(** [read_up_to]: [got] is the part of the buffer that is filled.  A read of no bytes is the end
    of the stream. *)
Fixpoint read_up_to (size_limit : nat) (got : bytes) (io : list ReadEvent) : res IoError bytes :=
  if (length got =? size_limit)%nat then Ok got else
  match io with
  | [] => Ok got
  | TimeUp :: _ => Ok got
  | ReadFailed :: _ => Err StreamError
  | Arrived chunk :: io =>
      let part := take (size_limit - length got) chunk in
      if (length part =? 0)%nat then Ok got else read_up_to size_limit (got ++ part) io
  end.

Definition parse_delimiter (buf : bytes) : option (nat * bytes) :=
  if bool_decide (buf = []) then None else decode_length_delimiter buf.

Definition parse_header_response (buf : bytes) : option (HeaderResponse * bytes) :=
  '(len, rest) ← parse_delimiter buf;
  if (length rest <? len)%nat then None else
  msg ← decode_response (take len rest);
  Some (msg, drop len rest).

Definition parse_header_request (buf : bytes) : option HeaderRequest :=
  '(len, rest) ← parse_delimiter buf;
  if (length rest <? len)%nat then None else decode_request (take len rest).

Definition read_request (io : list ReadEvent) : res IoError HeaderRequest :=
  data ← read_up_to REQUEST_SIZE_LIMIT [] io;
  ok_or (parse_header_request data) InvalidOrIncomplete.

(** [while let Some((header, rest)) = parse_header_response(data)]. *)
Fixpoint parse_responses (fuel : nat) (data : bytes) : option (list HeaderResponse) :=
  match fuel with
  | O => None
  | S fuel =>
      match parse_header_response data with
      | None => Some []
      | Some (msg, rest) => msgs ← parse_responses fuel rest; Some (msg :: msgs)
      end
  end.

Definition read_response (fuel : nat) (io : list ReadEvent) : run IoError (list HeaderResponse) :=
  data ← lift (read_up_to RESPONSE_SIZE_LIMIT [] io);
  msgs ← match parse_responses fuel data with Some msgs => Some (Ok msgs) | None => None end;
  lift (if bool_decide (length (msgs : list HeaderResponse) = 0%nat) then Err InvalidOrIncomplete else Ok msgs).

(** [encode_length_delimited] to a [Vec]: it cannot fail, since a [Vec] grows. *)
Definition delimited (msg : bytes) : bytes := encode_length_delimiter (length msg) ++ msg.

(** What is written to the stream. *)
Definition write_request (r : HeaderRequest) : bytes := delimited (encode_request r).
Definition write_response (rs : list HeaderResponse) : bytes :=
  concat ((λ r, delimited (encode_response r)) <$> rs).

(** ** Reading *)

(** The bytes of the stream, up to its end or the time limit; [None] when a read fails. *)
Fixpoint stream_bytes (io : list ReadEvent) : option bytes :=
  match io with
  | [] | TimeUp :: _ => Some []
  | ReadFailed :: _ => None
  | Arrived [] :: _ => Some []
  | Arrived chunk :: io => app chunk <$> stream_bytes io
  end.

Lemma read_up_to_spec limit got io b : (length got ≤ limit)%nat → stream_bytes io = Some b →
  read_up_to limit got io = Ok (got ++ take (limit - length got) b).
Proof.
  revert got b; induction io as [|ev io IH]; intros got b Hle; cbn [stream_bytes read_up_to];
    (destruct (Nat.eqb_spec (length got) limit) as [Hfull|Hfull];
      [intros _; rewrite Hfull, Nat.sub_diag, take_0, app_nil_r; by f_equal|]).
  - intros [= <-]. by rewrite take_nil, app_nil_r.
  - destruct ev as [[|x chunk]| |]; [| |done|].
    + intros [= <-]. rewrite !take_nil, app_nil_r. done.
    + intros Hb. destruct (stream_bytes io) as [b'|]; [|done]. injection Hb as <-.
      destruct (limit - length got)%nat as [|k] eqn:Hk; [lia|]. cbn [take length Nat.eqb].
      assert (length (got ++ x :: take k chunk) ≤ limit)%nat as Hle'.
      { rewrite length_app. cbn. rewrite length_take. lia. }
      rewrite (IH _ b' Hle' eq_refl), <-(assoc_L (++)). f_equal. f_equal.
      cbn [app take]. f_equal. rewrite take_app. f_equal.
      rewrite length_app. cbn [length]. rewrite length_take. f_equal. lia.
    + intros [= <-]. by rewrite take_nil, app_nil_r.
Qed.

Context `{!ProstSpec}.

Lemma parse_delimiter_delimited msg rest :
  parse_delimiter (delimited msg ++ rest) = Some (length msg, msg ++ rest).
Proof.
  unfold parse_delimiter, delimited. rewrite <-(assoc_L (++)), bool_decide_false, decode_delimiter_encode; [done|].
  intros Hnil. apply (f_equal length) in Hnil. rewrite length_app in Hnil. cbn in Hnil.
  assert (encode_length_delimiter (length msg) = []) as He by (apply length_zero_iff_nil; lia).
  pose proof (decode_delimiter_encode (length msg) []) as Hd. rewrite He in Hd.
  apply decode_delimiter_shorter in Hd. cbn in Hd. lia.
Qed.

Lemma parse_response_delimited r rest :
  parse_header_response (delimited (encode_response r) ++ rest) = Some (r, rest).
Proof.
  unfold parse_header_response. rewrite parse_delimiter_delimited. cbn [mbind option_bind].
  rewrite (proj2 (Nat.ltb_ge _ _)) by (rewrite length_app; lia).
  rewrite take_app_length, drop_app_length, decode_encode_response. done.
Qed.

(** A message that is cut off is not read: its delimiter is not there, or promises more bytes
    than there are. *)
Lemma parse_delimiter_cut msg p q : delimited msg = p ++ q → q ≠ [] →
  ∀ len rest, parse_delimiter p = Some (len, rest) → (length rest < len)%nat.
Proof.
  intros Heq Hq len rest. unfold parse_delimiter. case_bool_decide; [done|].
  unfold delimited in Heq. set (d := encode_length_delimiter (length msg)) in *.
  destruct (decide (length p < length d)%nat) as [Hlt|Hge].
  - assert (d = p ++ drop (length p) d) as Hd.
    { rewrite <-(take_drop (length p) d) at 1. f_equal.
      apply (f_equal (take (length p))) in Heq. rewrite take_app_le, take_app_length in Heq by lia. done. }
    rewrite (decode_delimiter_cut _ _ _ Hd); [done|]. intros Hn. apply (f_equal length) in Hn.
    rewrite length_drop in Hn. cbn in Hn. lia.
  - assert (p = d ++ drop (length d) p) as Hp.
    { rewrite <-(take_drop (length d) p) at 1. f_equal.
      apply (f_equal (take (length d))) in Heq. rewrite take_app_length, take_app_le in Heq by lia. done. }
    rewrite Hp. unfold d. rewrite decode_delimiter_encode. intros [= <- <-]. fold d.
    apply (f_equal length) in Heq. rewrite !length_app in Heq. apply (f_equal length) in Hp. rewrite length_app in Hp.
    assert (length q ≠ 0%nat) by (by destruct q). lia.
Qed.

Lemma parse_response_cut r p q : delimited (encode_response r) = p ++ q → q ≠ [] →
  parse_header_response p = None.
Proof.
  intros Heq Hq. unfold parse_header_response. pose proof (parse_delimiter_cut _ _ _ Heq Hq) as Hcut.
  destruct (parse_delimiter p) as [[len rest]|]; [|done]. cbn [mbind option_bind].
  by rewrite (proj2 (Nat.ltb_lt _ _)) by (by apply Hcut).
Qed.

(** The messages that fit into [limit] bytes completely. *)
Fixpoint fitting (limit : nat) (rs : list HeaderResponse) : list HeaderResponse :=
  match rs with
  | [] => []
  | r :: rs =>
      let n := length (delimited (encode_response r)) in
      if (n <=? limit)%nat then r :: fitting (limit - n) rs else []
  end.

(** Reading consumes input, so fuel for each byte and one more is enough. *)
Lemma parse_responses_total fuel data : (length data < fuel)%nat → is_Some (parse_responses fuel data).
Proof.
  revert data; induction fuel as [|fuel IH]; intros data Hlt; [lia|]. cbn [parse_responses].
  destruct (parse_header_response data) as [[msg rest]|] eqn:Hp; [|by eexists].
  assert (length rest < length data)%nat as Hs.
  { unfold parse_header_response, parse_delimiter in Hp. case_bool_decide; [done|].
    destruct (decode_length_delimiter data) as [[n r]|] eqn:Hd; cbn in Hp; [|done].
    apply decode_delimiter_shorter in Hd. case_ifs_in Hp; [done|].
    destruct (decode_response _); [|done]. injection Hp as _ <-. rewrite length_drop. lia. }
  destruct (IH rest) as [msgs ->]; [lia|]. by eexists.
Qed.

Lemma parse_responses_written rs limit fuel : (limit < fuel)%nat →
  parse_responses fuel (take limit (write_response rs)) = Some (fitting limit rs).
Proof.
  revert limit fuel; induction rs as [|r rs IH]; intros limit fuel Hlt; (destruct fuel as [|fuel]; [lia|]);
    cbn [parse_responses fitting].
  { unfold write_response. cbn. rewrite take_nil. done. }
  assert (write_response (r :: rs) = delimited (encode_response r) ++ write_response rs) as -> by done.
  set (m := delimited (encode_response r)). destruct (Nat.leb_spec (length m) limit) as [Hle|Hgt].
  - assert (take limit (m ++ write_response rs) = m ++ take (limit - length m) (write_response rs)) as ->
      by (rewrite take_app, take_ge; [done|lia]).
    subst m. rewrite parse_response_delimited.
    assert (length (delimited (encode_response r)) ≠ 0%nat) as Hne.
    { intros Hz%length_zero_iff_nil. pose proof (parse_delimiter_delimited (encode_response r) []) as Hp.
      rewrite Hz in Hp. done. }
    rewrite IH by lia. done.
  - rewrite take_app_le by lia. rewrite (parse_response_cut r _ (drop limit m)); [done| |].
    + by rewrite take_drop.
    + intros Hn. apply (f_equal length) in Hn. rewrite length_drop in Hn. cbn in Hn. lia.
Qed.
Lemma fitting_take limit rs : fitting limit rs = take (length (fitting limit rs)) rs.
Proof.
  revert limit; induction rs as [|r rs IH]; intros limit; cbn [fitting]; [done|].
  destruct (_ <=? _)%nat; [|done]. cbn [length take]. f_equal. apply IH.
Qed.

(** [fitting] is the longest prefix that fits. *)
Lemma fitting_maximal limit rs k : (length (write_response (take k rs)) ≤ limit)%nat →
  (Nat.min k (length rs) ≤ length (fitting limit rs))%nat.
Proof.
  revert limit k; induction rs as [|r rs IH]; intros limit [|k]; cbn [take fitting length]; try lia.
  intros Hle. assert (write_response (r :: take k rs) = delimited (encode_response r) ++ write_response (take k rs))
    as Hw by done. rewrite Hw, length_app in Hle. destruct (Nat.leb_spec (length (delimited (encode_response r))) limit); [|lia].
  cbn [length]. specialize (IH (limit - length (delimited (encode_response r)))%nat k). lia.
Qed.

Lemma fitting_size limit rs : (length (write_response (fitting limit rs)) ≤ limit)%nat.
Proof.
  revert limit; induction rs as [|r rs IH]; intros limit; cbn [fitting]; [cbn; lia|].
  destruct (Nat.leb_spec (length (delimited (encode_response r))) limit) as [Hle|]; [|cbn; lia].
  specialize (IH (limit - length (delimited (encode_response r)))%nat).
  assert (∀ l, write_response (r :: l) = delimited (encode_response r) ++ write_response l) as Hw by done.
  rewrite Hw, length_app. lia.
Qed.

Lemma fitting_all limit rs : (length (write_response rs) ≤ limit)%nat → fitting limit rs = rs.
Proof.
  intros Hle. rewrite fitting_take. apply take_ge.
  pose proof (fitting_maximal limit rs (length rs)) as Hm. rewrite take_ge in Hm by lia. specialize (Hm Hle). lia.
Qed.

Lemma fitting_cons limit r rs : (length (delimited (encode_response r)) ≤ limit)%nat → fitting limit (r :: rs) ≠ [].
Proof. intros Hle. cbn [fitting]. by rewrite (proj2 (Nat.leb_le _ _)). Qed.

Lemma read_response_written io rs fuel : stream_bytes io = Some (write_response rs) →
  (RESPONSE_SIZE_LIMIT < fuel)%nat →
  read_response fuel io = Some (match fitting RESPONSE_SIZE_LIMIT rs with
                                | [] => Err InvalidOrIncomplete
                                | msgs => Ok msgs
                                end).
Proof.
  intros Hio Hfuel. unfold read_response. rewrite (read_up_to_spec _ [] _ _ (Nat.le_0_l _) Hio).
  cbn [app length]. rewrite Nat.sub_0_r. cbv [lift mbind run_bind].
  rewrite parse_responses_written by done. by destruct (fitting _ _).
Qed.

Lemma read_request_written io r : stream_bytes io = Some (write_request r) →
  read_request io = if (length (write_request r) <=? REQUEST_SIZE_LIMIT)%nat then Ok r else Err InvalidOrIncomplete.
Proof.
  intros Hio. unfold read_request. rewrite (read_up_to_spec _ [] _ _ (Nat.le_0_l _) Hio).
  generalize REQUEST_SIZE_LIMIT as limit. intros limit. cbn [app length]. rewrite Nat.sub_0_r. cbv [mbind res_bind].
  unfold write_request, parse_header_request. destruct (Nat.leb_spec (length (delimited (encode_request r))) limit) as [Hle|Hgt].
  - rewrite take_ge by done. rewrite <-(app_nil_r (delimited _)), parse_delimiter_delimited. cbn [mbind option_bind].
    rewrite app_nil_r, Nat.ltb_irrefl, take_ge, decode_encode_request by done. done.
  - pose proof (parse_delimiter_cut (encode_request r) (take limit (delimited (encode_request r)))
      (drop limit (delimited (encode_request r)))) as Hcut.
    destruct (parse_delimiter _) as [[len rest]|]; [|done]. cbn [mbind option_bind].
    rewrite (proj2 (Nat.ltb_lt _ _)); [done|]. apply Hcut; [by rewrite take_drop| |done].
    intros Hn. apply (f_equal length) in Hn. rewrite length_drop in Hn. cbn in Hn. lia.
Qed.

(** What a peer reads of what another wrote, however the stream delivers it in pieces: a
    request is read back when its encoding has at most 1024 bytes and refused otherwise; of a
    response the longest prefix of messages that fits into 10 MiB is read back, all of it when
    it fits, and it is refused exactly when already its first message does not fit (or it is
    empty).  The loop over the messages ends. *)
Theorem codec_roundtrip :
  (∀ io r, stream_bytes io = Some (write_request r) →
    read_request io =
      if (length (write_request r) <=? REQUEST_SIZE_LIMIT)%nat then Ok r else Err InvalidOrIncomplete) ∧
  (∀ io rs fuel, stream_bytes io = Some (write_response rs) → (RESPONSE_SIZE_LIMIT < fuel)%nat →
    ∃ k, read_response fuel io = Some (match take k rs with [] => Err InvalidOrIncomplete | msgs => Ok msgs end) ∧
      (∀ j, (length (write_response (take j rs)) ≤ RESPONSE_SIZE_LIMIT)%nat → (Nat.min j (length rs) ≤ k)%nat) ∧
      (length (write_response (take k rs)) ≤ RESPONSE_SIZE_LIMIT)%nat).
Proof.
  split; [apply read_request_written|]. intros io rs fuel Hio Hfuel.
  exists (length (fitting RESPONSE_SIZE_LIMIT rs)). rewrite (read_response_written io rs fuel Hio Hfuel), <-fitting_take.
  split; [done|]. split; [apply fitting_maximal|]. apply fitting_size.
Qed.
End Codec.

(** ** The exchange over the wire *)

Section Exchange.
Context `{Prost} `{!ProstSpec} `{Tendermint} `{!TendermintSpec} `{DahExternals} `{UnstableSort}.
Context {S : Type} `{!Store S} `{!StoreSpec S validated}.

Lemma take_seqZ_nat o k n : take k (seqZ o (Z.of_nat n)) = seqZ o (Z.of_nat (Nat.min k n)).
Proof.
  revert o n; induction k as [|k IH]; intros o [|n]; [done..|]. rewrite <-Nat.succ_min_distr.
  rewrite !Nat2Z.inj_succ, !(seqZ_cons o) by lia. rewrite !Z.pred_succ. cbn [take]. f_equal. apply IH.
Qed.

Lemma fitting_answers limit hs :
  ∃ k, fitting limit (to_header_response <$> hs) = to_header_response <$> take k hs.
Proof. exists (length (fitting limit (to_header_response <$> hs))). by rewrite fitting_take at 1; rewrite fmap_take. Qed.

(** C28. The exchange of headers by height, from one node to the other and back over streams.
    The server reads the request that the client wrote and answers from its store; the client
    reads from that answer (whose first message must fit into 10 MiB) and accepts a non-empty
    prefix of the longest run of stored headers from the origin, limited by the requested
    amount and by 512: the whole run when the answer fits into 10 MiB.  It gets
    [HeaderNotFound] exactly when the first height is not stored. *)
Theorem header_exchange_over_wire (s : S) m origin amount io :
  store_rep s m → 0 < origin → 0 < amount → origin + Z.min amount 512 ≤ u64_max →
  let request := with_origin origin amount in
  let run := stored_run m origin (Z.to_nat (Z.min amount 512)) in
  stream_bytes io = Some (write_request request) →
  (length (write_request request) ≤ REQUEST_SIZE_LIMIT)%nat →
  ∃ responses,
    read_request io = Ok request ∧
    on_request_received s false request = Some (Ok responses) ∧
    ∀ io' fuel, stream_bytes io' = Some (write_response responses) → (RESPONSE_SIZE_LIMIT < fuel)%nat →
      (∀ r, head responses = Some r → (length (delimited (encode_response r)) ≤ RESPONSE_SIZE_LIMIT)%nat) →
      ∃ msgs k, read_response fuel io' = Some (Ok msgs) ∧
        decode_and_verify_responses request msgs =
          match run with [] => Err HeaderNotFound | _ => Ok (take k run) end ∧
        (run ≠ [] → take k run ≠ []) ∧
        ((length (write_response responses) ≤ RESPONSE_SIZE_LIMIT)%nat → take k run = run).
Proof.
  intros Hrep Ho Ha Hmax request run Hio Hreq. eexists. split_and!.
  { rewrite (read_request_written _ _ Hio). by rewrite (proj2 (Nat.leb_le _ _)). }
  { by apply serve_by_height. }
  fold run. intros io' fuel Hio' Hfuel Hfirst. rewrite (read_response_written _ _ _ Hio' Hfuel).
  destruct (stored_run_answer s m origin (Z.to_nat (Z.min amount 512)) Hrep) as (Hv&Hh&Hlen).
  fold run in Hv, Hh, Hlen. clearbody run.
  destruct run as [|e run].
  - exists [response_not_found], 0%nat. specialize (Hfirst _ eq_refl). cbn [fitting].
    rewrite (proj2 (Nat.leb_le _ _)) by done. split_and!; [done|by apply decode_not_found|done|done].
  - destruct (fitting_answers RESPONSE_SIZE_LIMIT (e :: run)) as [k Hk].
    pose proof (fitting_cons _ _ (to_header_response <$> run) (Hfirst _ eq_refl)) as Hne.
    change (to_header_response e :: (to_header_response <$> run)) with (to_header_response <$> (e :: run)) in Hne.
    exists (to_header_response <$> take k (e :: run)), k. rewrite Hk in Hne |- *.
    assert (take k (e :: run) ≠ []) as Hne' by (intros Hn; by rewrite Hn in Hne).
    split_and!; [by destruct (take k (e :: run))| |done|].
    + pose proof (length_take (e :: run) k) as Hl. apply decode_consecutive; [done|done|lia|lia|by apply Forall_take|].
      rewrite fmap_take, Hh, Hl. by rewrite take_seqZ_nat.
    + intros Hall%fitting_all. rewrite Hk in Hall. apply (f_equal length) in Hall. rewrite !length_fmap in Hall.
      apply take_ge. rewrite length_take in Hall. lia.
Qed.
End Exchange.

(** ** A concrete exchange *)

(** Delimiters in unary. *)
Fixpoint toy_decode_delimiter (b : bytes) : option (nat * bytes) :=
  match b with
  | [] => None
  | x :: b => if x =? 0 then Some (0%nat, b) else '(n, rest) ← toy_decode_delimiter b; Some (S n, rest)
  end.

Definition toy_encode_request (r : HeaderRequest) : bytes :=
  match req_data r with
  | None => [0; req_amount r]
  | Some (Origin o) => [1; req_amount r; o]
  | Some (DataHash h) => 2 :: req_amount r :: h
  end.
Definition toy_decode_request (b : bytes) : option HeaderRequest :=
  match b with
  | 0 :: a :: _ => Some {| req_data := None; req_amount := a |}
  | 1 :: a :: o :: _ => Some {| req_data := Some (Origin o); req_amount := a |}
  | 2 :: a :: h => Some {| req_data := Some (DataHash h); req_amount := a |}
  | _ => None
  end.
Definition toy_status (s : StatusCode) : Z :=
  match s with StatusInvalid => 0 | StatusOk => 1 | StatusNotFound => 2 end.
Definition toy_decode_response (b : bytes) : option HeaderResponse :=
  match b with
  | s :: body => Some {| resp_body := body;
      resp_status := if s =? 0 then StatusInvalid else if s =? 1 then StatusOk else StatusNotFound |}
  | [] => None
  end.

#[local] Instance toy_prost : Prost := {|
  encode_length_delimiter n := repeat 1 n ++ [0]; decode_length_delimiter := toy_decode_delimiter;
  encode_request := toy_encode_request; decode_request := toy_decode_request;
  encode_response r := toy_status (resp_status r) :: resp_body r; decode_response := toy_decode_response
|}.

Lemma toy_decode_encode n rest : toy_decode_delimiter ((repeat 1 n ++ [0]) ++ rest) = Some (n, rest).
Proof. induction n as [|n IH]; [done|]. cbn. by rewrite IH. Qed.

Lemma toy_decode_cut n p q : repeat 1 n ++ [0] = p ++ q → q ≠ [] → toy_decode_delimiter p = None.
Proof.
  revert p; induction n as [|n IH]; intros [|x p] Heq Hq; cbn in *; try done.
  - injection Heq as -> Heq. symmetry in Heq. apply app_eq_nil in Heq as [_ ->]. done.
  - injection Heq as <- Heq. cbn. by rewrite (IH p).
Qed.

Lemma toy_decode_shorter b n rest : toy_decode_delimiter b = Some (n, rest) → (length rest < length b)%nat.
Proof.
  revert n; induction b as [|x b IH]; intros n; cbn; [done|]. destruct (x =? 0); [intros [= _ <-]; lia|].
  destruct (toy_decode_delimiter b) as [[n' rest']|]; cbn; [|done]. intros [= _ <-]. specialize (IH _ eq_refl). lia.
Qed.

#[local] Instance toy_prost_spec : ProstSpec.
Proof.
  constructor.
  - apply toy_decode_encode.
  - apply toy_decode_cut.
  - apply toy_decode_shorter.
  - by intros [[[o|h]|] a].
  - by intros [body []].
Defined.

#[local] Existing Instances toy_DahExternals toy_Tendermint toy_TendermintSpec toy_validated merge_sort_UnstableSort.

(** A request that arrives in two pieces. *)
Lemma codec_roundtrip_witness :
  read_request [Arrived (take 3 (write_request (with_origin 1 5)));
                Arrived (drop 3 (write_request (with_origin 1 5)))] = Ok (with_origin 1 5) ∧
  ∃ k, read_response (S RESPONSE_SIZE_LIMIT) [Arrived (write_response toy_answer)] =
    Some (match take k toy_answer with [] => Err InvalidOrIncomplete | msgs => Ok msgs end).
Proof.
  split.
  { etransitivity; [apply (proj1 codec_roundtrip _ (with_origin 1 5)); vm_compute; reflexivity|].
    vm_compute. reflexivity. }
  destruct (proj2 codec_roundtrip [Arrived (write_response toy_answer)] toy_answer (S RESPONSE_SIZE_LIMIT))
    as (k&Hk&_); [vm_compute; reflexivity|apply Nat.lt_succ_diag_r|].
  exists k. exact Hk.
Defined.

Lemma header_exchange_over_wire_witness :
  ∃ responses,
    read_request [Arrived (write_request (with_origin 1 5))] = Ok (with_origin 1 5) ∧
    on_request_received (im_insert toy_now im_new [toy_1]).2 false (with_origin 1 5) = Some (Ok responses).
Proof.
  destruct (header_exchange_over_wire (im_insert toy_now im_new [toy_1]).2 (insert_all ∅ [toy_1]) 1 5
    [Arrived (write_request (with_origin 1 5))]) as (responses&Hread&Hserve&_).
  - exact toy_state_rep.
  - lia.
  - lia.
  - unfold u64_max. lia.
  - vm_compute. reflexivity.
  - apply Nat.leb_le. vm_compute. reflexivity.
  - exists responses. exact (conj Hread Hserve).
Defined.
