(* ===== verification/HeaderExBehaviour.v ===== *)
(** * The behaviour of the header exchange

    The server handler of src/node/src/p2p/header_ex/server.rs with its queue of tasks, and
    [HeaderExBehaviour] of src/node/src/p2p/header_ex.rs, which hands the events of the
    request-response protocol to the client or to the server and stops both.  A task of the
    server reads the store when it is polled; the state of the store at that time is an
    argument of the poll (a task that looks up several heights sees one state).

    What the server promises is proved here; what the client promises is proved in
    HeaderExClient and carried over by a projection of executions. *)

From S2P Require Import Prelude Consts BlockRanges Nmt Merkle Dah Header ShwapIds Store.
From S2P Require Import InMemoryStore PeerTracker HeaderEx HeaderExClient.

(** The asynchronous blocks of the server. *)
Inductive ServerTask :=
| ServeHead
| ServeHeights (origin amount : Z)
| ServeHash (hash : bytes).

(** The channel of an inbound request is a number; [responses_sent] is the log of
    [send_response]. *)
Record HeaderExServerHandler := {
  stopping : bool;
  server_tasks : list (nat * ServerTask);
  responses_sent : list (nat * list HeaderResponse)
}.

Definition server_new : HeaderExServerHandler :=
  {| stopping := false; server_tasks := []; responses_sent := [] |}.

Definition send_response (v : HeaderExServerHandler) (channel : nat) (rs : list HeaderResponse)
    : HeaderExServerHandler :=
  {| stopping := stopping v; server_tasks := server_tasks v;
     responses_sent := responses_sent v ++ [(channel, rs)] |}.
Definition push_server_task (v : HeaderExServerHandler) (channel : nat) (t : ServerTask)
    : HeaderExServerHandler :=
  {| stopping := stopping v; server_tasks := server_tasks v ++ [(channel, t)];
     responses_sent := responses_sent v |}.
Definition handle_invalid_request (v : HeaderExServerHandler) (channel : nat) : HeaderExServerHandler :=
  send_response v channel [response_invalid].

Definition server_on_request_received (v : HeaderExServerHandler) (request : HeaderRequest)
    (channel : nat) : HeaderExServerHandler :=
  if stopping v then v else
  match parse_request request with
  | None => handle_invalid_request v channel
  | Some (amount, Origin height) =>
      if height =? 0 then push_server_task v channel ServeHead
      else push_server_task v channel (ServeHeights height amount)
  | Some (_, DataHash hash) =>
      if negb (length hash =? HASH_SIZE)%nat then handle_invalid_request v channel
      else push_server_task v channel (ServeHash hash)
  end.

Definition server_on_stop (v : HeaderExServerHandler) : HeaderExServerHandler :=
  {| stopping := true; server_tasks := []; responses_sent := responses_sent v |}.

Section Behaviour.
Context `{Tendermint} `{DahExternals} `{UnstableSort} `{PeerTypes} {R : Type} `{!RequestSender R}.
Context {S : Type} `{!Store S}.

Definition run_server_task (s : S) (t : ServerTask) : res unit (list HeaderResponse) :=
  match t with
  | ServeHead => handle_request_current_head s
  | ServeHeights origin amount => handle_request_by_height s origin amount
  | ServeHash hash => handle_request_by_hash s hash
  end.

(** [poll] of the server, when it is task [i] that completes. *)
Definition server_poll (v : HeaderExServerHandler) (s : S) (i : nat) : res unit HeaderExServerHandler :=
  match server_tasks v !! i with
  | None => Ok v
  | Some (channel, t) =>
      rs ← run_server_task s t;
      Ok (send_response {| stopping := stopping v; server_tasks := delete i (server_tasks v);
                           responses_sent := responses_sent v |} channel rs)
  end.

Record HeaderExBehaviour := {
  req_resp : R; client_handler : HeaderExClientHandler; server_handler : HeaderExServerHandler
}.

Definition behaviour_new (r : R) : HeaderExBehaviour :=
  {| req_resp := r; client_handler := client_new; server_handler := server_new |}.

Definition with_client (b : HeaderExBehaviour) (c : HeaderExClientHandler) : HeaderExBehaviour :=
  {| req_resp := req_resp b; client_handler := c; server_handler := server_handler b |}.
Definition with_server (b : HeaderExBehaviour) (v : HeaderExServerHandler) : HeaderExBehaviour :=
  {| req_resp := req_resp b; client_handler := client_handler b; server_handler := v |}.

Definition behaviour_send_request (shuffle : list PeerId → list PeerId) (t : PeerTracker)
    (b : HeaderExBehaviour) (request : HeaderRequest) (respond_to : Chan) : HeaderExBehaviour :=
  let '(c, r) := on_send_request shuffle (client_handler b) (req_resp b) t request respond_to in
  {| req_resp := r; client_handler := c; server_handler := server_handler b |}.

Definition behaviour_stop (b : HeaderExBehaviour) : HeaderExBehaviour :=
  {| req_resp := req_resp b; client_handler := on_stop (client_handler b);
     server_handler := server_on_stop (server_handler b) |}.

(** The events of the request-response protocol. *)
Inductive ReqRespEvent :=
| ResponseMessage (id : RequestId) (response : list HeaderResponse)
| ReqOutboundFailure (id : RequestId)
| RequestMessage (request : HeaderRequest) (channel : nat)
| ResponseSent
| ReqInboundFailure.

Definition on_req_resp_event (b : HeaderExBehaviour) (ev : ReqRespEvent) : HeaderExBehaviour :=
  match ev with
  | ResponseMessage id response => with_client b (on_response_received (client_handler b) id response)
  | ReqOutboundFailure id => with_client b (on_failure (client_handler b) id)
  | RequestMessage request channel =>
      with_server b (server_on_request_received (server_handler b) request channel)
  | ResponseSent | ReqInboundFailure => b
  end.

(** What happens to the behaviour; one iteration of [poll] handles an event of the protocol,
    a task of the client or a task of the server. *)
Inductive BehaviourEvent :=
| BSend (shuffle : list PeerId → list PeerId) (t : PeerTracker) (request : HeaderRequest) (caller : nat)
| BReqResp (ev : ReqRespEvent)
| BPollClient (i : nat)
| BPollServer (s : S) (i : nat)
| BStop.

Definition behaviour_step (b : HeaderExBehaviour) (e : BehaviourEvent) : res unit HeaderExBehaviour :=
  match e with
  | BSend shuffle t request caller => Ok (behaviour_send_request shuffle t b request (Caller caller))
  | BReqResp ev => Ok (on_req_resp_event b ev)
  | BPollClient i => c ← poll_task (client_handler b) i; Ok (with_client b c)
  | BPollServer s i => v ← server_poll (server_handler b) s i; Ok (with_server b v)
  | BStop => Ok (behaviour_stop b)
  end.

Fixpoint behaviour_run (b : HeaderExBehaviour) (es : list BehaviourEvent) : res unit HeaderExBehaviour :=
  match es with
  | [] => Ok b
  | e :: es => b ← behaviour_step b e; behaviour_run b es
  end.

(** ** The client's part of an execution *)

Definition client_part (e : BehaviourEvent) : list ClientEvent :=
  match e with
  | BSend shuffle t request caller => [EvSend shuffle t request caller]
  | BReqResp (ResponseMessage id response) => [EvResponse id response]
  | BReqResp (ReqOutboundFailure id) => [EvFailure id]
  | BPollClient i => [EvPoll i]
  | BStop => [EvStop]
  | _ => []
  end.

Lemma client_run_app cr es es' cr' : client_run cr es = Ok cr' → client_run cr (es ++ es') = client_run cr' es'.
Proof.
  revert cr; induction es as [|e es IH]; intros cr; cbn [client_run app]; [by intros [= <-]|].
  intros Hrun. apply bind_Ok in Hrun as (cr1&Hstep&Hrun). rewrite Hstep. cbn [mbind res_bind]. by apply IH.
Qed.

Lemma behaviour_step_client b e b' : behaviour_step b e = Ok b' →
  client_run (client_handler b, req_resp b) (client_part e) = Ok (client_handler b', req_resp b').
Proof.
  destruct b as [r c v], e as [shuffle t request n|[]|i|s i|]; cbn [behaviour_step on_req_resp_event client_part];
    intros Hstep; try (by injection Hstep as <-).
  - injection Hstep as <-. cbn. unfold behaviour_send_request. cbn. by destruct (on_send_request _ _ _ _ _ _).
  - apply bind_Ok in Hstep as (c'&Hp&[= <-]). cbn in *. by rewrite Hp.
  - apply bind_Ok in Hstep as (v'&Hp&[= <-]). done.
Qed.

Lemma behaviour_run_client es b b' : behaviour_run b es = Ok b' →
  client_run (client_handler b, req_resp b) (es ≫= client_part) = Ok (client_handler b', req_resp b').
Proof.
  revert b; induction es as [|e es IH]; intros b; cbn [behaviour_run]; [by intros [= <-]|].
  intros Hrun. apply bind_Ok in Hrun as (b1&Hstep&Hrun).
  change ((e :: es) ≫= client_part) with (client_part e ++ (es ≫= client_part)).
  rewrite (client_run_app _ _ _ _ (behaviour_step_client _ _ _ Hstep)). by apply IH.
Qed.

(** ** The server's part *)

(** The requests that arrived, with their channels. *)
Definition request_part (e : BehaviourEvent) : list (nat * HeaderRequest) :=
  match e with BReqResp (RequestMessage request channel) => [(channel, request)] | _ => [] end.

(** The states of the store that tasks saw. *)
Definition store_part (e : BehaviourEvent) : list S :=
  match e with BPollServer s _ => [s] | _ => [] end.

(** A task computes, on the store of its poll, what the server answers to the request. *)
Definition task_serves (request : HeaderRequest) (t : ServerTask) : Prop :=
  ∀ s : S, on_request_received s false request = Some (run_server_task s t).

(** The answer was computed on one of the states, or does not depend on the store. *)
Definition serves (stores : list S) (request : HeaderRequest) (rs : list HeaderResponse) : Prop :=
  (∃ s, s ∈ stores ∧ on_request_received s false request = Some (Ok rs)) ∨
  (∀ s : S, on_request_received s false request = Some (Ok rs)).

Record server_inv (reqs : list (nat * HeaderRequest)) (stores : list S) (v : HeaderExServerHandler) : Prop := {
  si_channels : ∃ dropped, reqs.*1 ≡ₚ (responses_sent v).*1 ++ (server_tasks v).*1 ++ dropped ∧
    (stopping v = false → dropped = []);
  si_tasks ch t : (ch, t) ∈ server_tasks v → ∃ request, (ch, request) ∈ reqs ∧ task_serves request t;
  si_sent ch rs : (ch, rs) ∈ responses_sent v → ∃ request, (ch, request) ∈ reqs ∧ serves stores request rs
}.

Lemma server_inv_mono reqs stores reqs' stores' v : server_inv reqs stores v →
  (∃ dropped, reqs'.*1 ≡ₚ (responses_sent v).*1 ++ (server_tasks v).*1 ++ dropped ∧
    (stopping v = false → dropped = [])) →
  reqs ⊆ reqs' → stores ⊆ stores' → server_inv reqs' stores' v.
Proof.
  intros [_ Ht Hs] Hd Hr Hst. constructor; [done|..].
  - intros ch t (request&Hin&Hser)%Ht. eauto.
  - intros ch rs (request&Hin&[(s&Hin'&Hs')|Hall])%Hs; exists request; (split; [by apply Hr|]);
      [left; eauto|by right].
Qed.

(** A request is handled: it is answered at once, or a task will. *)
Lemma server_receive_inv reqs stores v request ch : server_inv reqs stores v →
  server_inv (reqs ++ [(ch, request)]) stores (server_on_request_received v request ch).
Proof.
  intros Hinv. destruct (si_channels _ _ _ Hinv) as (dropped&Hch&Hstop).
  assert (∀ t, task_serves request t → stopping v = false →
    server_inv (reqs ++ [(ch, request)]) stores (push_server_task v ch t)) as Hpush.
  { intros t Hser Hns. destruct Hinv as [_ Ht Hs]. constructor; cbn.
    - exists []. rewrite (Hstop Hns) in Hch. split; [|done]. rewrite !fmap_app, Hch. cbn. solve_Permutation.
    - intros ch' t' [(rq&Hin&Hs')%Ht|[= -> ->]%list_elem_of_singleton]%elem_of_app;
        [exists rq|exists request]; set_solver.
    - intros ch' rs (rq&Hin&Hs')%Hs. exists rq. set_solver. }
  assert ((∀ s : S, on_request_received s false request = Some (Ok [response_invalid])) → stopping v = false →
    server_inv (reqs ++ [(ch, request)]) stores (handle_invalid_request v ch)) as Hinvalid.
  { intros Hser Hns. destruct Hinv as [_ Ht Hs]. constructor; cbn.
    - exists []. rewrite (Hstop Hns) in Hch. split; [|done]. rewrite !fmap_app, Hch. cbn. solve_Permutation.
    - intros ch' t' (rq&Hin&Hs')%Ht. exists rq. set_solver.
    - intros ch' rs [(rq&Hin&Hs')%Hs|[= -> ->]%list_elem_of_singleton]%elem_of_app;
        [exists rq; set_solver|exists request; split; [set_solver|by right]]. }
  unfold server_on_request_received. destruct (stopping v) eqn:Hns.
  - eapply server_inv_mono; [done| |set_solver|done]. exists (ch :: dropped). split; [|by rewrite Hns].
    rewrite fmap_app, Hch. cbn. solve_Permutation.
  - unfold task_serves, on_request_received, run_server_task, handle_request_by_hash in *.
    destruct (parse_request request) as [[amount [height|hash]]|]; [| |by apply Hinvalid].
    + destruct (height =? 0); by apply Hpush.
    + destruct (length hash =? HASH_SIZE)%nat eqn:Hl; cbn [negb] in *; [|by apply Hinvalid].
      apply Hpush; [|done]. intros s. by rewrite Hl.
Qed.

Lemma server_poll_inv reqs stores v s i v' : server_poll v s i = Ok v' → server_inv reqs stores v →
  server_inv reqs (stores ++ [s]) v'.
Proof.
  intros Hpoll Hinv. apply (server_inv_mono _ _ reqs (stores ++ [s])) in Hinv;
    [|apply Hinv|done|set_solver].
  unfold server_poll in Hpoll. destruct (server_tasks v !! i) as [[ch t]|] eqn:Hi; [|by injection Hpoll as <-].
  apply bind_Ok in Hpoll as (rs&Hrun&[= <-]). destruct Hinv as [(dropped&Hch&Hstop) Ht Hs].
  assert (server_tasks v ≡ₚ (ch, t) :: delete i (server_tasks v)) as Hperm by (by apply delete_Permutation).
  generalize dependent (delete i (server_tasks v)). intros rest Hperm.
  constructor; cbn.
  - exists dropped. split; [|done]. rewrite Hch, Hperm, fmap_app. cbn. solve_Permutation.
  - intros ch' t' Hin. apply Ht. rewrite Hperm. by right.
  - intros ch' rs' [Hin|[= -> ->]%list_elem_of_singleton]%elem_of_app; [by apply Hs|].
    destruct (Ht ch t) as (request&Hin&Hser); [by rewrite Hperm; left|]. exists request. split; [done|].
    left. exists s. split; [set_solver|]. by rewrite (Hser s), Hrun.
Qed.

Lemma server_stop_inv reqs stores v : server_inv reqs stores v → server_inv reqs stores (server_on_stop v).
Proof.
  intros [(dropped&Hch&Hstop) Ht Hs]. constructor; cbn; [|by intros ch t ?%not_elem_of_nil|done].
  by exists ((server_tasks v).*1 ++ dropped).
Qed.

Lemma behaviour_step_server reqs stores b e b' : behaviour_step b e = Ok b' →
  server_inv reqs stores (server_handler b) →
  server_inv (reqs ++ request_part e) (stores ++ store_part e) (server_handler b').
Proof.
  intros Hstep Hinv. destruct e as [shuffle t request n|[]|i|s i|];
    cbn [behaviour_step on_req_resp_event request_part store_part] in *; rewrite ?app_nil_r;
    try (by injection Hstep as <-).
  - injection Hstep as <-. unfold behaviour_send_request. by destruct (on_send_request _ _ _ _ _ _).
  - injection Hstep as <-. by apply server_receive_inv.
  - by apply bind_Ok in Hstep as (c'&Hp&[= <-]).
  - apply bind_Ok in Hstep as (v'&Hp&[= <-]). by eapply server_poll_inv.
  - injection Hstep as <-. by apply server_stop_inv.
Qed.

Lemma behaviour_run_server es reqs stores b b' : behaviour_run b es = Ok b' →
  server_inv reqs stores (server_handler b) →
  server_inv (reqs ++ (es ≫= request_part)) (stores ++ (es ≫= store_part)) (server_handler b').
Proof.
  revert reqs stores b; induction es as [|e es IH]; intros reqs stores b; cbn [behaviour_run].
  { intros [= <-]. by rewrite !app_nil_r. }
  intros Hrun Hinv. apply bind_Ok in Hrun as (b1&Hstep&Hrun).
  apply (behaviour_step_server _ _ _ _ _ Hstep) in Hinv. apply (IH _ _ _ Hrun) in Hinv.
  by rewrite <-!(assoc_L (++)) in Hinv.
Qed.

Lemma server_new_inv : server_inv [] [] server_new.
Proof. constructor; [by exists []|..]; intros ?? Hin; by apply not_elem_of_nil in Hin. Qed.
(** The behaviour serves both sides.  In every execution, with the channels of inbound requests
    distinct: every response that is sent goes to a request that arrived, each request gets at
    most one, and it is the answer of the server to that request on a state of the store at
    which a task was polled; until the node is stopped, every request that arrived was answered
    or waits in a task.  And the client sees its own part of the execution only: the
    behaviour's handler is the client run on it. *)
Theorem behaviour_serves es r b : behaviour_run (behaviour_new r) es = Ok b →
  NoDup (es ≫= request_part).*1 →
  let v := server_handler b in
  NoDup (responses_sent v).*1 ∧
  (∀ ch rs, (ch, rs) ∈ responses_sent v →
    ∃ request, (ch, request) ∈ es ≫= request_part ∧ serves (es ≫= store_part) request rs) ∧
  (stopping v = false → ∀ ch, ch ∈ (es ≫= request_part).*1 →
    ch ∈ (responses_sent v).*1 ∨ ch ∈ (server_tasks v).*1) ∧
  client_run (client_new, r) (es ≫= client_part) = Ok (client_handler b, req_resp b).
Proof.
  intros Hrun Hnd. destruct (behaviour_run_server _ [] [] _ _ Hrun server_new_inv) as [(dropped&Hch&Hstop) _ Hs].
  cbn [app] in *. rewrite Hch in Hnd. split_and!.
  - by apply NoDup_app in Hnd as [? _].
  - done.
  - intros Hns ch. rewrite Hch, (Hstop Hns), app_nil_r. apply elem_of_app.
  - by apply behaviour_run_client in Hrun.
Qed.
End Behaviour.

(** ** A concrete execution *)

#[local] Existing Instances toy_DahExternals toy_Tendermint merge_sort_UnstableSort toy_peers toy_transport.

(** Two requests arrive; the one by height is served from a store with one header, and an
    invalid one at once. *)
Definition toy_inbound : list (BehaviourEvent (R := nat) (S := InMemoryStoreInner)) :=
  [BReqResp (RequestMessage (with_origin 1 5) 7); BReqResp (RequestMessage (with_origin 0 2) 8);
   BPollServer (im_insert toy_now im_new [toy_1]).2 0].

Definition toy_behaviour : HeaderExBehaviour (R := nat) :=
  match behaviour_run (behaviour_new 0%nat) toy_inbound with Ok b => b | _ => behaviour_new 0%nat end.

Lemma behaviour_serves_witness :
  (responses_sent (server_handler toy_behaviour)).*1 = [8%nat; 7%nat] ∧
  NoDup (responses_sent (server_handler toy_behaviour)).*1.
Proof.
  split; [vm_compute; reflexivity|].
  refine (proj1 (behaviour_serves toy_inbound 0%nat toy_behaviour _ _)); [vm_compute; reflexivity|].
  apply (bool_decide_unpack _). vm_compute. reflexivity.
Defined.
