(* ===== verification/P2pWorker.v ===== *)
(** * The p2p worker

    src/node/src/p2p.rs, [Worker]: the handlers of the events of the swarm and of the commands
    of the node, around the peer tracker, the subscription to new headers, the outstanding
    bitswap queries and the header exchange.  What the worker tells the behaviours of libp2p to
    do, and the event it publishes when it bootstraps, is a log of calls ([SwarmCall]); what
    they report is an event.  Bitswap's client is the
    class [BitswapClient].  The answers to [NetworkInfo] and [Listeners] come from the swarm and
    are in Handles.v. *)

From stdpp Require Import sorting.
From S2P Require Import Prelude Consts BlockRanges Nmt Merkle Dah Header Share Eds ShwapIds Containers Byzantine.
From S2P Require Import Store InMemoryStore PeerTracker HeaderEx HeaderExClient HeaderExBehaviour.

(** [beetswap::Behaviour::get]: a query is started. *)
Class BitswapClient (B : Type) := {
  QueryId : Type; QueryId_eq :: EqDecision QueryId; QueryId_countable :: Countable QueryId;
  bitswap_get : B → Cid → B * QueryId
}.

Definition MIN_CONNECTED_PEERS : Z := 4.
Definition FRAUD_PROOF_HEAD_HEIGHT_THRESHOLD : Z := 20.

Inductive MessageAcceptance := Accept | Reject | Ignore.
Inductive Topic := HeaderSubTopic | BadEncodingFraudSubTopic | OtherTopic.

Section Worker.
Context `{Tendermint} `{!DahExternals} `{UnstableSort} `{PeerTypes} {R : Type} `{!RequestSender R}.
Context {S : Type} `{!Store S} {B : Type} `{!BitswapClient B}.
Context `{!NmtExternals} `{!NmtProofs} `{!LeopardCodec} `{!LeopardReconstruct}.
(** [BadEncodingFraudProof::decode]: prost, then [befp_try_from]. *)
Context (befp_raw_decode : bytes → option RawBadEncodingFraudProof).
Context (hash_try_from : bytes → option Hash) (height_try_from : Z → option Z).

Definition befp_decode (data : bytes) : res TypesError BadEncodingFraudProof :=
  raw ← ok_or (befp_raw_decode data) EProtobuf;
  befp_try_from hash_try_from height_try_from raw.

(** ** Data *)

Record HeaderSubState := { known_head : ExtendedHeader; sub_channel : nat }.

Inductive SwarmCall :=
| Dial (p : PeerId) (addrs : list Multiaddr)
| KademliaBootstrap
| KademliaAddAddress (p : PeerId) (a : Multiaddr)
| CloseConnection (c : ConnectionId)
| CancelQuery (q : QueryId)
| BlacklistPeer (p : PeerId)
| ReportValidation (p : PeerId) (acceptance : MessageAcceptance)
| RemoveListener (l : nat)
| SetStopping
| PublishConnectingToBootnodes.

(** The worker, with what it sent: [sub_sent] on the channels of header-sub, [bitswap_answers]
    on those of the queries ([None] for a sender that was dropped). *)
Record P2pWorker := {
  wk_tracker : PeerTracker;
  wk_header_sub : option HeaderSubState;
  wk_sub_sent : list (nat * ExtendedHeader);
  wk_queries : gmap QueryId nat;
  wk_bitswap_answers : list (nat * option (res P2pError bytes));
  wk_compromised : bool;
  wk_calls : list SwarmCall;
  wk_bootnodes : list (PeerId * list Multiaddr);
  wk_header_ex : HeaderExBehaviour (R := R);
  wk_bitswap : B;
  wk_listeners : list nat
}.

Definition with_tracker (w : P2pWorker) (t : PeerTracker) : P2pWorker :=
  {| wk_tracker := t; wk_header_sub := wk_header_sub w; wk_sub_sent := wk_sub_sent w;
     wk_queries := wk_queries w; wk_bitswap_answers := wk_bitswap_answers w;
     wk_compromised := wk_compromised w; wk_calls := wk_calls w; wk_bootnodes := wk_bootnodes w;
     wk_header_ex := wk_header_ex w; wk_bitswap := wk_bitswap w; wk_listeners := wk_listeners w |}.
Definition with_sub (w : P2pWorker) (st : option HeaderSubState) (sent : list (nat * ExtendedHeader)) : P2pWorker :=
  {| wk_tracker := wk_tracker w; wk_header_sub := st; wk_sub_sent := sent;
     wk_queries := wk_queries w; wk_bitswap_answers := wk_bitswap_answers w;
     wk_compromised := wk_compromised w; wk_calls := wk_calls w; wk_bootnodes := wk_bootnodes w;
     wk_header_ex := wk_header_ex w; wk_bitswap := wk_bitswap w; wk_listeners := wk_listeners w |}.
Definition with_queries (w : P2pWorker) (b : B) (m : gmap QueryId nat)
    (l : list (nat * option (res P2pError bytes))) : P2pWorker :=
  {| wk_tracker := wk_tracker w; wk_header_sub := wk_header_sub w; wk_sub_sent := wk_sub_sent w;
     wk_queries := m; wk_bitswap_answers := l;
     wk_compromised := wk_compromised w; wk_calls := wk_calls w; wk_bootnodes := wk_bootnodes w;
     wk_header_ex := wk_header_ex w; wk_bitswap := b; wk_listeners := wk_listeners w |}.
Definition with_compromised (w : P2pWorker) : P2pWorker :=
  {| wk_tracker := wk_tracker w; wk_header_sub := wk_header_sub w; wk_sub_sent := wk_sub_sent w;
     wk_queries := wk_queries w; wk_bitswap_answers := wk_bitswap_answers w;
     wk_compromised := true; wk_calls := wk_calls w; wk_bootnodes := wk_bootnodes w;
     wk_header_ex := wk_header_ex w; wk_bitswap := wk_bitswap w; wk_listeners := wk_listeners w |}.
Definition with_header_ex (w : P2pWorker) (b : HeaderExBehaviour) : P2pWorker :=
  {| wk_tracker := wk_tracker w; wk_header_sub := wk_header_sub w; wk_sub_sent := wk_sub_sent w;
     wk_queries := wk_queries w; wk_bitswap_answers := wk_bitswap_answers w;
     wk_compromised := wk_compromised w; wk_calls := wk_calls w; wk_bootnodes := wk_bootnodes w;
     wk_header_ex := b; wk_bitswap := wk_bitswap w; wk_listeners := wk_listeners w |}.
Definition call (w : P2pWorker) (l : list SwarmCall) : P2pWorker :=
  {| wk_tracker := wk_tracker w; wk_header_sub := wk_header_sub w; wk_sub_sent := wk_sub_sent w;
     wk_queries := wk_queries w; wk_bitswap_answers := wk_bitswap_answers w;
     wk_compromised := wk_compromised w; wk_calls := wk_calls w ++ l; wk_bootnodes := wk_bootnodes w;
     wk_header_ex := wk_header_ex w; wk_bitswap := wk_bitswap w; wk_listeners := wk_listeners w |}.

(** [Worker::new], for bootnodes grouped by peer: bootstrap peers are trusted. *)
Fixpoint trust_all (t : PeerTracker) (ps : list PeerId) : res unit PeerTracker :=
  match ps with
  | [] => Ok t
  | p :: ps => t ← set_trusted t p true; trust_all t ps
  end.
Definition p2p_worker_new (t : PeerTracker) (r : R) (b : B) (bootnodes : list (PeerId * list Multiaddr)) (listeners : list nat)
    : res unit P2pWorker :=
  t ← trust_all t bootnodes.*1;
  Ok {| wk_tracker := t; wk_header_sub := None; wk_sub_sent := []; wk_queries := ∅;
        wk_bitswap_answers := []; wk_compromised := false; wk_calls := []; wk_bootnodes := bootnodes;
        wk_header_ex := behaviour_new r; wk_bitswap := b; wk_listeners := listeners |}.

(** ** Handlers *)

Definition bootstrap (w : P2pWorker) : P2pWorker :=
  call w (PublishConnectingToBootnodes ::
    ((λ '(p, addrs), Dial p addrs) <$> wk_bootnodes w) ++ [KademliaBootstrap]).

(** The channels that are closed are those in [closed]. *)
Definition prune_canceled_bitswap_queries (w : P2pWorker) (closed : list nat) : P2pWorker :=
  let cancelled := (filter (λ kv : QueryId * nat, kv.2 ∈ closed) (map_to_list (wk_queries w))).*1 in
  call (with_queries w (wk_bitswap w) (foldr delete (wk_queries w) cancelled) (wk_bitswap_answers w))
    (CancelQuery <$> cancelled).

Definition on_identify_event (w : P2pWorker) (p : PeerId) (listen_addrs : list Multiaddr) : P2pWorker :=
  call w (KademliaAddAddress p <$> listen_addrs).

Definition on_init_header_sub (w : P2pWorker) (head : ExtendedHeader) (channel : nat) : P2pWorker :=
  with_sub w (Some {| known_head := head; sub_channel := channel |}) (wk_sub_sent w).

(** [full] says whether [try_send] finds the channel full or closed. *)
Definition p2p_on_header_sub_message (w : P2pWorker) (now : Z) (full : bool) (data : bytes)
    : res unit (P2pWorker * MessageAcceptance) :=
  match decode_and_validate data with
  | Panic => Panic
  | Err _ => Ok (w, Reject)
  | Ok header =>
      match wk_header_sub w with
      | None => Ok (w, Ignore)
      | Some state =>
          match eh_verify now (known_head state) header with
          | Panic => Panic
          | Err _ => Ok (w, Ignore)
          | Ok _ =>
              let st := {| known_head := header; sub_channel := sub_channel state |} in
              let sent := if full then wk_sub_sent w else wk_sub_sent w ++ [(sub_channel state, header)] in
              Ok (with_sub w (Some st) sent, Accept)
          end
      end
  end.

(** The height of the head: of header-sub, or else of the store. *)
Definition current_height (w : P2pWorker) (s : S) : option Z :=
  match wk_header_sub w with
  | Some state => Some (eh_height (known_head state))
  | None => match st_get_head s with Ok local_head => Some (eh_height local_head) | _ => None end
  end.

Definition on_bad_encoding_fraud_sub_message (w : P2pWorker) (s : S) (data : bytes) (peer : PeerId)
    : res unit (P2pWorker * MessageAcceptance) :=
  match befp_decode data with
  | Panic => Panic
  | Err _ => Ok (call w [BlacklistPeer peer], Reject)
  | Ok befp =>
      match current_height w s with
      | None => Ok (w, Ignore)
      | Some current_height =>
          limit ← u64_add current_height FRAUD_PROOF_HEAD_HEIGHT_THRESHOLD;
          if limit <? befp_block_height befp then Ok (w, Ignore) else
          match st_get_by_hash s (befp_header_hash befp) with
          | Panic => Panic
          | Err _ => Ok (w, Ignore)
          | Ok header =>
              match befp_validate befp header with
              | Panic => Panic
              | Err _ => Ok (call w [BlacklistPeer peer], Reject)
              | Ok _ => Ok (with_compromised w, Accept)
              end
          end
      end
  end.

Definition peer_maybe_discovered (w : P2pWorker) (p : PeerId) : P2pWorker :=
  with_tracker w (set_maybe_discovered (wk_tracker w) p).1.

Definition on_gossip_sub_event (w : P2pWorker) (now : Z) (full : bool) (s : S) (source : option PeerId)
    (topic : Topic) (data : bytes) : res unit P2pWorker :=
  match source with
  | None => Ok w
  | Some peer =>
      '(w, acceptance) ←
        match topic with
        | HeaderSubTopic => p2p_on_header_sub_message w now full data
        | BadEncodingFraudSubTopic => on_bad_encoding_fraud_sub_message w s data peer
        | OtherTopic => Ok (w, Ignore)
        end;
      let w := match acceptance with Reject => w | _ => peer_maybe_discovered w peer end in
      Ok (call w [ReportValidation peer acceptance])
  end.

Definition on_kademlia_event (w : P2pWorker) (p : PeerId) (addresses : list Multiaddr) : P2pWorker :=
  with_tracker w (add_addresses (wk_tracker w) p addresses).

(** [bitswap_queries.insert] drops the sender that it replaces. *)
Definition on_get_shwap_cid (w : P2pWorker) (cid : Cid) (respond_to : nat) : P2pWorker :=
  let '(b, query_id) := bitswap_get (wk_bitswap w) cid in
  let l := match wk_queries w !! query_id with Some old => [(old, None)] | None => [] end in
  with_queries w b (<[query_id := respond_to]> (wk_queries w)) (wk_bitswap_answers w ++ l).

Definition on_bitswap_event (w : P2pWorker) (query_id : QueryId) (result : res P2pError bytes) : P2pWorker :=
  match wk_queries w !! query_id with
  | Some respond_to =>
      with_queries w (wk_bitswap w) (delete query_id (wk_queries w))
        (wk_bitswap_answers w ++ [(respond_to, Some result)])
  | None => w
  end.

Definition on_ping_event (w : P2pWorker) (c : ConnectionId) (success : bool) : P2pWorker :=
  if success then w else call w [CloseConnection c].

(** [ConnectedPoint]: dialed (as dialer or not), or accepted. *)
Inductive ConnectedPoint := Dialer (address : Multiaddr) (role_is_dialer : bool) | Listener.

Definition on_peer_connected (w : P2pWorker) (p : PeerId) (c : ConnectionId) (endpoint : ConnectedPoint)
    : res unit P2pWorker :=
  let dialed_addr := match endpoint with Dialer address true => Some address | _ => None end in
  t ← set_connected (wk_tracker w) p c dialed_addr;
  Ok (with_tracker w t).

Definition on_peer_disconnected (w : P2pWorker) (p : PeerId) (c : ConnectionId) : res unit P2pWorker :=
  '(t, _) ← set_maybe_disconnected (wk_tracker w) p c;
  Ok (with_tracker w t).

(** ** Commands and events *)

Inductive P2pCmd :=
| CmdHeaderExRequest (shuffle : list PeerId → list PeerId) (request : HeaderRequest) (caller : nat)
| CmdConnectedPeers
| CmdInitHeaderSub (head : ExtendedHeader) (channel : nat)
| CmdSetPeerTrust (p : PeerId) (is_trusted : bool)
| CmdGetShwapCid (cid : Cid) (respond_to : nat)
| CmdGetNetworkCompromisedToken
| CmdGetNetworkHead.

Inductive CmdReply := NoReply | ReplyPeers (l : list PeerId) | ReplyCompromised (b : bool)
| ReplyHead (h : option ExtendedHeader).

Definition on_cmd (local : PeerId) (w : P2pWorker) (cmd : P2pCmd) : res unit (P2pWorker * CmdReply) :=
  match cmd with
  | CmdHeaderExRequest shuffle request caller =>
      Ok (with_header_ex w (behaviour_send_request shuffle (wk_tracker w) (wk_header_ex w) request (Caller caller)),
          NoReply)
  | CmdConnectedPeers => Ok (w, ReplyPeers (connected_peers (wk_tracker w)))
  | CmdInitHeaderSub head channel => Ok (on_init_header_sub w head channel, NoReply)
  | CmdSetPeerTrust p is_trusted =>
      if bool_decide (local = p) then Ok (w, NoReply) else
      t ← set_trusted (wk_tracker w) p is_trusted;
      Ok (with_tracker w t, NoReply)
  | CmdGetShwapCid cid respond_to => Ok (on_get_shwap_cid w cid respond_to, NoReply)
  | CmdGetNetworkCompromisedToken => Ok (w, ReplyCompromised (wk_compromised w))
  | CmdGetNetworkHead => Ok (w, ReplyHead (known_head <$> wk_header_sub w))
  end.

(** The events of the swarm; those of header-ex happen inside of it. *)
Inductive SwarmEvent :=
| Identify (p : PeerId) (listen_addrs : list Multiaddr)
| Gossip (now : Z) (full : bool) (s : S) (source : option PeerId) (topic : Topic) (data : bytes)
| RoutingUpdated (p : PeerId) (addresses : list Multiaddr)
| BitswapResult (q : QueryId) (result : res P2pError bytes)
| Ping (c : ConnectionId) (success : bool)
| HeaderExStep (e : BehaviourEvent (R := R) (S := S))
| ConnectionEstablished (p : PeerId) (c : ConnectionId) (endpoint : ConnectedPoint)
| ConnectionClosed (p : PeerId) (c : ConnectionId)
| OtherEvent.

Definition on_swarm_event (w : P2pWorker) (ev : SwarmEvent) : res unit P2pWorker :=
  match ev with
  | Identify p listen_addrs => Ok (on_identify_event w p listen_addrs)
  | Gossip now full s source topic data => on_gossip_sub_event w now full s source topic data
  | RoutingUpdated p addresses => Ok (on_kademlia_event w p addresses)
  | BitswapResult q result => Ok (on_bitswap_event w q result)
  | Ping c success => Ok (on_ping_event w c success)
  | HeaderExStep e => b ← behaviour_step (wk_header_ex w) e; Ok (with_header_ex w b)
  | ConnectionEstablished p c endpoint => on_peer_connected w p c endpoint
  | ConnectionClosed p c => on_peer_disconnected w p c
  | OtherEvent => Ok w
  end.

(** The branches of the [select!] of [run]. *)
Inductive P2pEvent :=
| PeerInfoChanged
| KademliaTick
| QueriesClosed (closed : list nat)
| Swarm (ev : SwarmEvent)
| Cmd (cmd : P2pCmd).

Definition p2p_step (local : PeerId) (w : P2pWorker) (e : P2pEvent) : res unit P2pWorker :=
  match e with
  | PeerInfoChanged =>
      Ok (if num_connected_peers (info (wk_tracker w)) =? 0 then bootstrap w else w)
  | KademliaTick =>
      Ok (if num_connected_peers (info (wk_tracker w)) <? MIN_CONNECTED_PEERS then bootstrap w else w)
  | QueriesClosed closed => Ok (prune_canceled_bitswap_queries w closed)
  | Swarm ev => on_swarm_event w ev
  | Cmd cmd => fst <$> on_cmd local w cmd
  end.

(** The loop of [run], until the cancellation. *)
Fixpoint p2p_loop (local : PeerId) (w : P2pWorker) (es : list P2pEvent) : res unit P2pWorker :=
  match es with
  | [] => Ok w
  | e :: es => w ← p2p_step local w e; p2p_loop local w es
  end.

(** *** Stopping *)

(** The loop of [on_stop], over the events that arrive while the swarm counts an established
    connection: a connection that is established now is closed at once. *)
Fixpoint stop_loop (w : P2pWorker) (evs : list SwarmEvent) : res unit P2pWorker :=
  match evs with
  | [] => Ok w
  | ConnectionEstablished p c endpoint :: evs => stop_loop (call w [CloseConnection c]) evs
  | ConnectionClosed p c :: evs => w ← on_peer_disconnected w p c; stop_loop w evs
  | _ :: evs => stop_loop w evs
  end.

Definition drain_listeners (w : P2pWorker) : P2pWorker :=
  {| wk_tracker := wk_tracker w; wk_header_sub := wk_header_sub w; wk_sub_sent := wk_sub_sent w;
     wk_queries := wk_queries w; wk_bitswap_answers := wk_bitswap_answers w;
     wk_compromised := wk_compromised w; wk_calls := wk_calls w ++ (RemoveListener <$> wk_listeners w);
     wk_bootnodes := wk_bootnodes w; wk_header_ex := wk_header_ex w; wk_bitswap := wk_bitswap w;
     wk_listeners := [] |}.

Definition p2p_on_stop (w : P2pWorker) (evs : list SwarmEvent) : res unit P2pWorker :=
  let w := call w [SetStopping] in
  let w := with_header_ex w (behaviour_stop (wk_header_ex w)) in
  let w := drain_listeners w in
  let w := call w (CloseConnection <$> concat (tracker_connections (wk_tracker w)).*2) in
  stop_loop w evs.

(** [run]: discovery is started, then the loop, then [on_stop]. *)
Definition p2p_run (local : PeerId) (w : P2pWorker) (es : list P2pEvent) (evs : list SwarmEvent)
    : res unit P2pWorker :=
  w ← p2p_loop local (bootstrap w) es;
  p2p_on_stop w evs.

(** The task that [P2p::start] spawns owns the worker: at its end the worker is dropped, and
    with it the senders of the queries that are outstanding. *)
Definition p2p_worker_drop (w : P2pWorker) : P2pWorker :=
  with_queries w (wk_bitswap w) ∅
    (wk_bitswap_answers w ++ ((λ ch, (ch, None)) <$> (map_to_list (wk_queries w)).*2)).
Definition p2p_worker_task (local : PeerId) (w : P2pWorker) (es : list P2pEvent) (evs : list SwarmEvent)
    : res unit P2pWorker :=
  p2p_worker_drop <$> p2p_run local w es evs.

(** ** The tracker follows the swarm *)

(** What an event means for the network. *)
Definition network_part (local : PeerId) (e : P2pEvent) : list TrackerOp :=
  match e with
  | Swarm (ConnectionEstablished p c _) => [OpConnected p c None]
  | Swarm (ConnectionClosed p c) => [OpDisconnected p c]
  | Cmd (CmdSetPeerTrust p b) => if bool_decide (local = p) then [] else [OpTrusted p b]
  | _ => []
  end.
Definition network_of (local : PeerId) (n : Network) (es : list P2pEvent) : Network :=
  foldl network_step n (es ≫= network_part local).

Lemma network_step_addr n p c a a' : network_step n (OpConnected p c a) = network_step n (OpConnected p c a').
Proof. done. Qed.

Lemma header_sub_tracker w now full data w' acc : p2p_on_header_sub_message w now full data = Ok (w', acc) →
  wk_tracker w' = wk_tracker w.
Proof.
  unfold p2p_on_header_sub_message. destruct (decode_and_validate data) as [e| |]; [|by intros [= <- _]|done].
  destruct (wk_header_sub w) as [st|]; [|by intros [= <- _]].
  destruct (eh_verify _ _ _); [|by intros [= <- _]|done]. by intros [= <- _].
Qed.

Lemma fraud_sub_tracker w s data p w' acc : on_bad_encoding_fraud_sub_message w s data p = Ok (w', acc) →
  wk_tracker w' = wk_tracker w.
Proof.
  unfold on_bad_encoding_fraud_sub_message. destruct (befp_decode data) as [q| |]; [|by intros [= <- _]|done].
  destruct (current_height w s) as [h|]; [|by intros [= <- _]]. intros Hrun.
  apply bind_Ok in Hrun as (limit&_&Hrun). destruct (_ <? _); [by injection Hrun as <- _|].
  destruct (st_get_by_hash _ _); [|by injection Hrun as <- _|done].
  by destruct (befp_validate _ _); [injection Hrun as <- _..|].
Qed.

Lemma gossip_tracker n w now full s source topic data w' :
  on_gossip_sub_event w now full s source topic data = Ok w' → tracks (wk_tracker w) n → tracks (wk_tracker w') n.
Proof.
  unfold on_gossip_sub_event. destruct source as [p|]; [|by intros [= <-]]. intros Hrun Hn.
  apply bind_Ok in Hrun as ([w1 acc]&Hmsg&Hrun). injection Hrun as <-.
  assert (wk_tracker w1 = wk_tracker w) as Heq.
  { destruct topic; [by eapply header_sub_tracker|by eapply fraud_sub_tracker|by injection Hmsg as <- _]. }
  assert (tracks (wk_tracker w1) n) as Hn1 by (by rewrite Heq).
  destruct acc; [by apply tracks_discovered|done|by apply tracks_discovered].
Qed.

(** One step, for a swarm that closes only open connections.  The tracker does not panic. *)
Lemma p2p_step_tracks local n w e w' : p2p_step local w e = Ok w' → tracks (wk_tracker w) n →
  ops_valid n (network_part local e) = true → Z.of_nat (size (online n)) < u64_max →
  tracks (wk_tracker w') (network_of local n [e]).
Proof.
  intros Hstep Hn Hv Hsz. unfold network_of. cbn [mbind list_bind]. rewrite app_nil_r.
  destruct e as [| |closed|ev|cmd]; cbn [p2p_step network_part ops_valid foldl] in *;
    try (injection Hstep as <-; first [by case_ifs|done]).
  - destruct ev as [p l|now full s source topic data|p l|q r|c b|be|p c endpoint|p c|];
      cbn [on_swarm_event network_part foldl ops_valid] in *; try (by injection Hstep as <-).
    + by eapply gossip_tracker.
    + injection Hstep as <-. by apply tracks_addresses.
    + injection Hstep as <-. unfold on_bitswap_event. by destruct (wk_queries w !! q).
    + injection Hstep as <-. unfold on_ping_event. by destruct b.
    + by apply bind_Ok in Hstep as (b&_&[= <-]).
    + apply bind_Ok in Hstep as (t&Ht&[= <-]). set (a := match endpoint with Dialer _ _ => _ | _ => _ end) in Ht.
      destruct (tracks_connected _ _ p c a Hn Hsz) as (t'&Ht'&Htr). rewrite Ht in Ht'. injection Ht' as <-. done.
    + apply bind_Ok in Hstep as ([t b]&Ht&[= <-]). apply andb_true_iff in Hv as [Hv _]. apply bool_decide_eq_true in Hv.
      destruct (tracks_disconnected _ _ p c Hn Hv) as (t'&b'&Ht'&Htr&_). rewrite Ht in Ht'. injection Ht' as <- _. done.
  - destruct cmd as [shuffle request caller| |head ch|p b|cid ch| |]; cbn [on_cmd network_part foldl ops_valid] in *;
      try (by injection Hstep as <-).
    + destruct (bool_decide (local = p)); [by injection Hstep as <-|].
      destruct (tracks_trusted _ _ p b Hn) as (t'&Ht'&Htr); [lia|]. rewrite Ht' in Hstep. by injection Hstep as <-.
    + injection Hstep as <-. unfold on_get_shwap_cid. by destruct (bitswap_get _ _).
Qed.
Lemma ops_valid_app n l1 l2 : ops_valid n (l1 ++ l2) = ops_valid n l1 && ops_valid (foldl network_step n l1) l2.
Proof. revert n; induction l1 as [|op l1 IH]; intros n; cbn; [done|]. by rewrite IH, andb_assoc. Qed.

Lemma network_part_size local n e :
  (size (online (network_of local n [e])) ≤ Datatypes.S (size (online n)))%nat.
Proof.
  unfold network_of. cbn [mbind list_bind]. rewrite app_nil_r.
  assert (network_part local e = [] ∨ ∃ op, network_part local e = [op]) as [->|[op ->]].
  { destruct e as [| | |[]|[]]; cbn; try (by left); try (by right; eexists). destruct (bool_decide _); [by left|by right; eexists]. }
  - cbn. lia.
  - apply online_step_le.
Qed.

Lemma p2p_loop_tracks local es w n w' : p2p_loop local w es = Ok w' → tracks (wk_tracker w) n →
  ops_valid n (es ≫= network_part local) = true → Z.of_nat (size (online n)) + Z.of_nat (length es) ≤ u64_max →
  tracks (wk_tracker w') (network_of local n es).
Proof.
  revert w n; induction es as [|e es IH]; intros w n; cbn [p2p_loop length]; [by intros [= <-]|].
  intros Hrun Hn Hv Hsz. apply bind_Ok in Hrun as (w1&Hstep&Hrun).
  change ((e :: es) ≫= network_part local) with (network_part local e ++ (es ≫= network_part local)) in Hv.
  rewrite ops_valid_app in Hv. apply andb_true_iff in Hv as [Hv1 Hv2].
  pose proof (p2p_step_tracks _ _ _ _ _ Hstep Hn Hv1) as Hn1. pose proof (network_part_size local n e) as Hgrow.
  assert (network_of local n (e :: es) = network_of local (network_of local n [e]) es) as ->.
  { unfold network_of. cbn [mbind list_bind]. by rewrite app_nil_r, foldl_app. }
  apply (IH w1); [done|apply Hn1; lia| |lia].
  unfold network_of. cbn [mbind list_bind]. by rewrite app_nil_r.
Qed.

Lemma trust_all_tracks t n ps t' : tracks t n → trust_all t ps = Ok t' → Z.of_nat (size (online n)) ≤ u64_max →
  tracks t' {| open := open n; trust := trust n ∪ list_to_set ps |}.
Proof.
  revert t n; induction ps as [|p ps IH]; intros t n Hn; cbn [trust_all list_to_set].
  { intros [= <-] _. rewrite union_empty_r_L. by destruct n. }
  intros Hrun Hsz. apply bind_Ok in Hrun as (t1&Ht&Hrun).
  destruct (tracks_trusted t n p true Hn Hsz) as (t2&Ht2&Hn2). rewrite Ht in Ht2. injection Ht2 as <-.
  apply (IH _ _ Hn2) in Hrun; [|done]. cbn in Hrun.
  by replace (trust n ∪ ({[p]} ∪ list_to_set ps)) with ({[p]} ∪ trust n ∪ list_to_set ps) by set_solver.
Qed.

(** The connections that the loop of [on_stop] is told are closed, and those it is told are
    established. *)
Definition closed_connections (evs : list SwarmEvent) : list (PeerId * ConnectionId) :=
  omap (λ ev, match ev with ConnectionClosed p c => Some (p, c) | _ => None end) evs.
Definition established_connections (evs : list SwarmEvent) : list (PeerId * ConnectionId) :=
  omap (λ ev, match ev with ConnectionEstablished p c _ => Some (p, c) | _ => None end) evs.

(** Whenever a connection is closed its peer has one that the tracker knows. *)
Fixpoint stop_counted (n : Network) (evs : list SwarmEvent) : bool :=
  match evs with
  | [] => true
  | ConnectionClosed p c :: evs =>
      bool_decide (p ∈ online n) && stop_counted (network_step n (OpDisconnected p c)) evs
  | _ :: evs => stop_counted n evs
  end.

Definition stop_network (n : Network) (evs : list SwarmEvent) : Network :=
  {| open := open n ∖ list_to_set (closed_connections evs); trust := trust n |}.

Lemma stop_network_nil n : stop_network n [] = n.
Proof. unfold stop_network. cbn. rewrite difference_empty_L. by destruct n. Qed.
Lemma stop_network_closed n p c evs :
  stop_network n (ConnectionClosed p c :: evs) = stop_network (network_step n (OpDisconnected p c)) evs.
Proof. unfold stop_network. cbn. f_equal. set_solver. Qed.

(** What the loop leaves as it is. *)
Definition stop_frame (w w' : P2pWorker) : Prop :=
  wk_header_ex w' = wk_header_ex w ∧ wk_queries w' = wk_queries w ∧
  wk_bitswap_answers w' = wk_bitswap_answers w ∧ wk_compromised w' = wk_compromised w.

Lemma stop_loop_frame evs w w' : stop_loop w evs = Ok w' →
  stop_frame w w' ∧ wk_calls w' = wk_calls w ++ (CloseConnection <$> (established_connections evs).*2).
Proof.
  revert w; induction evs as [|ev evs IH]; intros w; cbn [stop_loop established_connections omap list_omap].
  { intros [= <-]. cbn. by rewrite app_nil_r. }
  destruct ev; try apply IH.
  - intros [Hf Hc]%IH. split; [done|]. rewrite Hc. cbn. by rewrite <-(assoc_L (++)).
  - intros Hr. apply bind_Ok in Hr as (w1&Hd&[Hf Hc]%IH). by apply bind_Ok in Hd as ([t b]&_&[= <-]).
Qed.

(** When every close is counted the tracker follows to the end. *)
Lemma stop_loop_counted evs w n : tracks (wk_tracker w) n → stop_counted n evs = true →
  ∃ w', stop_loop w evs = Ok w' ∧ tracks (wk_tracker w') (stop_network n evs).
Proof.
  revert w n; induction evs as [|ev evs IH]; intros w n Hn; cbn [stop_loop stop_counted].
  { exists w. by rewrite stop_network_nil. }
  destruct ev as [| | | | | | |p c|]; try (intros Hc; first [exact (IH w n Hn Hc)|exact (IH (call w _) n Hn Hc)]). rewrite stop_network_closed.
  intros [Hp%bool_decide_eq_true Hc]%andb_true_iff. unfold on_peer_disconnected.
  destruct (decide ((p, c) ∈ open n)) as [Hpc|Hpc].
  - destruct (tracks_disconnected _ _ p c Hn Hpc) as (t&b&->&Ht&_). exact (IH (with_tracker w t) _ Ht Hc).
  - destruct (tracks_closed_unknown _ _ p c Hn Hp Hpc) as (t&->&Ht). exact (IH (with_tracker w t) _ Ht Hc).
Qed.

(** Otherwise the counter is too low from there on, and underflows at the last peer. *)
Lemma stop_loop_miscounted evs w n : entries (peers (wk_tracker w)) n →
  0 ≤ num_connected_peers (info (wk_tracker w)) ≤ Z.of_nat (size (online n)) →
  open (stop_network n evs) = ∅ →
  stop_counted n evs = false ∨ num_connected_peers (info (wk_tracker w)) < Z.of_nat (size (online n)) →
  stop_loop w evs = Panic.
Proof.
  revert w n; induction evs as [|ev evs IH]; intros w n Hn Hnum Hopen; cbn [stop_loop stop_counted].
  { intros [?|Hlt]; [done|]. rewrite stop_network_nil in Hopen.
    assert (online n = ∅) as He by (unfold online; rewrite Hopen; set_solver). rewrite He, size_empty in Hlt. lia. }
  destruct ev as [| | | | | | |p c|]; try (intros Hc; first [exact (IH w n Hn Hnum Hopen Hc)|exact (IH (call w _) n Hn Hnum Hopen Hc)]).
  rewrite stop_network_closed in Hopen. intros Hc. unfold on_peer_disconnected.
  destruct (disconnected_entries _ _ p c Hn) as [->|(t&b&->&Ht&Hpos&Hle)]; [done|].
  apply (IH (with_tracker w t) _ Ht); [|done|]; cbn [wk_tracker with_tracker] in *.
  - split; [apply Hpos, Hnum|]. destruct (bool_decide _); lia.
  - destruct (bool_decide (p ∈ online n)); cbn [andb] in Hc; [destruct Hc; [by left|right; lia]|right; lia].
Qed.

Lemma stop_network_empty n evs : (∀ x, x ∈ open n → x ∈ closed_connections evs) → open (stop_network n evs) = ∅.
Proof. intros Hall. apply set_eq. intros x. cbn. rewrite elem_of_difference, elem_of_list_to_set. set_solver. Qed.

(** The senders of all queries, and those that are still held. *)
Definition query_senders (w : P2pWorker) : list nat :=
  (wk_bitswap_answers w).*1 ++ (map_to_list (wk_queries w)).*2.

(** Dropping the worker drops the senders that it holds, and no other. *)
Lemma worker_drop_senders w : wk_queries (p2p_worker_drop w) = ∅ ∧
  query_senders (p2p_worker_drop w) ≡ₚ query_senders w.
Proof.
  split; [done|]. unfold query_senders, p2p_worker_drop. cbn. rewrite map_to_list_empty. cbn.
  rewrite app_nil_r, fmap_app, <-list_fmap_compose, list_fmap_id. done.
Qed.

Lemma on_stop_counted w n evs : tracks (wk_tracker w) n → open (stop_network n evs) = ∅ →
  stop_counted n evs = true →
  ∃ w', p2p_on_stop w evs = Ok w' ∧
    info (wk_tracker w') = {| num_connected_peers := 0; num_connected_trusted_peers := 0 |} ∧
    replay (published (wk_tracker w')) = Some ∅ ∧
    (∀ p c, (p, c) ∈ open n ∨ (p, c) ∈ established_connections evs → CloseConnection c ∈ wk_calls w') ∧
    owned (client_handler (wk_header_ex w')) = [] ∧ server_tasks (server_handler (wk_header_ex w')) = [] ∧
    ∃ w'', p2p_worker_drop <$> p2p_on_stop w evs = Ok w'' ∧
      wk_queries w'' = ∅ ∧ query_senders w'' ≡ₚ query_senders w.
Proof.
  intros Hn Hopen Hc. unfold p2p_on_stop.
  match goal with |- context [stop_loop ?w1 _] => destruct (stop_loop_counted evs w1 n Hn Hc) as (w'&Hstop&Hn') end.
  rewrite Hstop. destruct (stop_loop_frame _ _ _ Hstop) as [(Hex&Hq&Ha&_) Hcalls].
  assert (online (stop_network n evs) = ∅) as Hoff by (unfold online; rewrite Hopen; set_solver).
  exists w'. split; [done|]. split_and!.
  - by rewrite (tracks_info _ _ Hn'), Hoff, intersection_empty_l_L, size_empty.
  - rewrite <-Hoff. apply Hn'.
  - intros p c Hpc. rewrite Hcalls, elem_of_app. destruct Hpc as [Hpc|Hpc].
    + left. apply elem_of_app. right. apply list_elem_of_fmap. exists c. split; [done|].
      apply (tracker_connections_open _ _ p c Hn Hpc).
    + right. apply list_elem_of_fmap. exists c. split; [done|]. apply list_elem_of_fmap. by exists (p, c).
  - rewrite Hex. apply on_stop_owned.
  - by rewrite Hex.
  - exists (p2p_worker_drop w'). split; [done|]. destruct (worker_drop_senders w') as [Hnone Hsnd].
    split; [done|]. rewrite Hsnd. unfold query_senders. by rewrite Hq, Ha.
Qed.

Lemma on_stop_miscounted w n evs : tracks (wk_tracker w) n → open (stop_network n evs) = ∅ →
  stop_counted n evs = false → p2p_on_stop w evs = Panic.
Proof.
  intros Hn Hopen Hc. apply (stop_loop_miscounted _ _ n); [apply Hn| |done|by left].
  cbn [wk_tracker call drain_listeners with_header_ex]. rewrite (tr_num _ _ Hn). lia.
Qed.

(** C21. The worker keeps the account of its peers.  For every execution of the event loop with
    a swarm that closes a connection only while it is open, the published counters are the
    numbers of connected and of connected trusted peers (bootnodes are trusted from the start),
    and the published events replay to the connected peers.  Then the worker stops, and the
    swarm reports at least the open connections closed, in any order and with any other events
    in between, connections that are still established included.  If every reported close is of
    a peer that has a connection the tracker knows, the worker ends with counters at zero and
    with every connected peer reported disconnected; it has asked the swarm to close every
    connection, open or established meanwhile; the header exchange holds no request any more;
    and with the worker the senders of all outstanding bitswap queries are dropped, each of them
    being answered or dropped once.  If not (a connection that was established during the stop
    is closed when its peer has no other, of which the tracker was not told), a counter
    underflows, which panics where overflow is checked. *)
Theorem p2p_worker_counts local r b bootnodes listeners w0 es w :
  p2p_worker_new tracker_new r b bootnodes listeners = Ok w0 → p2p_loop local (bootstrap w0) es = Ok w →
  let n0 := {| open := ∅; trust := list_to_set bootnodes.*1 |} in
  let n := network_of local n0 es in
  ops_valid n0 (es ≫= network_part local) = true → Z.of_nat (length es) ≤ u64_max →
  info (wk_tracker w) = {| num_connected_peers := Z.of_nat (size (online n));
                           num_connected_trusted_peers := Z.of_nat (size (online n ∩ trust n)) |} ∧
  replay (published (wk_tracker w)) = Some (online n) ∧
  ∀ evs, (∀ x, x ∈ open n → x ∈ closed_connections evs) →
    if stop_counted n evs then
      ∃ w', p2p_run local w0 es evs = Ok w' ∧
        info (wk_tracker w') = {| num_connected_peers := 0; num_connected_trusted_peers := 0 |} ∧
        replay (published (wk_tracker w')) = Some ∅ ∧
        (∀ p c, (p, c) ∈ open n ∨ (p, c) ∈ established_connections evs → CloseConnection c ∈ wk_calls w') ∧
        owned (client_handler (wk_header_ex w')) = [] ∧ server_tasks (server_handler (wk_header_ex w')) = [] ∧
        ∃ w'', p2p_worker_task local w0 es evs = Ok w'' ∧
          wk_queries w'' = ∅ ∧ query_senders w'' ≡ₚ query_senders w
    else p2p_run local w0 es evs = Panic ∧ p2p_worker_task local w0 es evs = Panic.
Proof.
  intros Hnew Hrun n0 n Hv Hlen. apply bind_Ok in Hnew as (t0&Ht0&[= <-]).
  pose proof (trust_all_tracks _ _ _ _ tracks_new Ht0 ltac:(done)) as Htr0.
  cbn [open trust network_new] in Htr0. rewrite union_empty_l_L in Htr0.
  assert (Z.of_nat (size (online n0)) = 0) as Hz by done.
  pose proof (p2p_loop_tracks _ _ _ n0 _ Hrun Htr0 Hv ltac:(lia)) as Hn. fold n in Hn.
  split; [by apply tracks_info|]. split; [apply Hn|].
  intros evs Hevs%stop_network_empty. unfold p2p_worker_task, p2p_run. rewrite Hrun. cbn [mbind res_bind].
  destruct (stop_counted n evs) eqn:Hc; [by apply on_stop_counted|].
  rewrite (on_stop_miscounted _ n) by done. done.
Qed.

(** A connection that is established while the worker stops is miscounted: the loop of
    [on_stop] closes it without telling the peer tracker that it was opened, and tells it that
    it was closed.  For a peer without other connections (and not trusted) this publishes
    a disconnection of a peer that was never connected, and decrements the counter below the
    number of connected peers: with no peer connected the decrement overflows, which panics. *)
Theorem p2p_stop_race_miscounts w n p c endpoint : tracks (wk_tracker w) n →
  p ∉ online n → trusted (get_peer (wk_tracker w) p) = false →
  let evs := [ConnectionEstablished p c endpoint; ConnectionClosed p c] in
  (online n = ∅ → stop_loop w evs = Panic) ∧
  (online n ≠ ∅ → ∃ w', stop_loop w evs = Ok w' ∧ connected_peers (wk_tracker w') ≡ₚ elements (online n) ∧
    num_connected_peers (info (wk_tracker w')) = Z.of_nat (size (online n)) - 1 ∧
    replay (published (wk_tracker w')) = None).
Proof.
  intros Hn Hp Htr evs. cbn [evs stop_loop]. unfold on_peer_disconnected. cbn [wk_tracker call].
  destruct (proj1 (peer_tracker_counters_drift _ _ p c Hn) Hp Htr) as [Hempty Hsome]. split.
  - intros He. by rewrite (Hempty He).
  - intros Hne. destruct (Hsome Hne) as (t'&->&Hconn&Hrep&Hnum). cbn [mbind res_bind]. by eexists.
Qed.
(** ** The subscription to headers *)

(** Headers that passed validation and were verified one after the other. *)
Fixpoint verified_after (h : ExtendedHeader) (l : list ExtendedHeader) : Prop :=
  match l with
  | [] => True
  | x :: l => eh_validate x = Ok tt ∧ (∃ now, eh_verify now h x = Ok tt) ∧ verified_after x l
  end.

Definition is_init_header_sub (e : P2pEvent) : bool :=
  match e with Cmd (CmdInitHeaderSub _ _) => true | _ => false end.

(** The parts of the worker that only gossip and [init_header_sub] change. *)
Definition same_sub (w w' : P2pWorker) : Prop :=
  wk_header_sub w' = wk_header_sub w ∧ wk_sub_sent w' = wk_sub_sent w ∧ wk_compromised w' = wk_compromised w.

Lemma p2p_step_frame local w e w' : p2p_step local w e = Ok w' →
  match e with Swarm (Gossip _ _ _ _ _ _) | Cmd (CmdInitHeaderSub _ _) => True | _ => same_sub w w' end.
Proof.
  intros Hstep. destruct e as [| |closed|ev|cmd]; cbn [p2p_step] in Hstep; try (injection Hstep as <-; by case_ifs).
  - destruct ev as [p l|now full s source topic data|p l|q r|c b|be|p c endpoint|p c|]; cbn [on_swarm_event] in Hstep;
      try done; try (by injection Hstep as <-).
    + injection Hstep as <-. unfold on_bitswap_event. by destruct (wk_queries w !! q).
    + injection Hstep as <-. unfold on_ping_event. by destruct b.
    + by apply bind_Ok in Hstep as (b&_&[= <-]).
    + by apply bind_Ok in Hstep as (t&_&[= <-]).
    + by apply bind_Ok in Hstep as ([t b]&_&[= <-]).
  - destruct cmd as [shuffle request caller| |head ch|p b|cid ch| |]; cbn [on_cmd] in *;
      try done; try (by injection Hstep as <-).
    + destruct (bool_decide (local = p)); [by injection Hstep as <-|].
      destruct (set_trusted _ _ _); [|done|done]. by injection Hstep as <-.
    + injection Hstep as <-. unfold on_get_shwap_cid. by destruct (bitswap_get _ _).
Qed.

(** A gossip message changes them as its handler does. *)
Lemma gossip_frame w now full s source topic data w' : on_gossip_sub_event w now full s source topic data = Ok w' →
  same_sub w w' ∨ ∃ p w1 acc, source = Some p ∧ same_sub w1 w' ∧
    ((topic = HeaderSubTopic ∧ p2p_on_header_sub_message w now full data = Ok (w1, acc)) ∨
     (topic = BadEncodingFraudSubTopic ∧ on_bad_encoding_fraud_sub_message w s data p = Ok (w1, acc))).
Proof.
  unfold on_gossip_sub_event. destruct source as [p|]; [|intros [= <-]; by left].
  intros Hrun. apply bind_Ok in Hrun as ([w1 acc]&Hmsg&[= <-]).
  assert (same_sub w1 (call (match acc with Reject => w1 | _ => peer_maybe_discovered w1 p end)
    [ReportValidation p acc])) as Hsame by (by destruct acc).
  destruct topic; [right|right|left; by injection Hmsg as -> _]; exists p, w1, acc; naive_solver.
Qed.

Lemma header_sub_message_sub st w now full data w' acc : p2p_on_header_sub_message w now full data = Ok (w', acc) →
  wk_header_sub w = Some st →
  wk_compromised w' = wk_compromised w ∧
  ((wk_header_sub w' = Some st ∧ wk_sub_sent w' = wk_sub_sent w) ∨
   ∃ h, verified_after (known_head st) [h] ∧
    wk_header_sub w' = Some {| known_head := h; sub_channel := sub_channel st |} ∧
    (wk_sub_sent w' = wk_sub_sent w ∨ wk_sub_sent w' = wk_sub_sent w ++ [(sub_channel st, h)])).
Proof.
  unfold p2p_on_header_sub_message. intros Hmsg Hst. rewrite Hst in Hmsg.
  destruct (decode_and_validate data) as [h| |] eqn:Hdec; [|injection Hmsg as <- _; by auto|done].
  destruct (eh_verify now (known_head st) h) as [[]| |] eqn:Hver; [|injection Hmsg as <- _; by auto|done].
  injection Hmsg as <- _. split; [done|]. right. exists h. split; [|split; [done|]].
  - split; [|by split; [eexists|]]. unfold decode_and_validate in Hdec.
    apply bind_Ok in Hdec as (h1&_&Hdec). by apply bind_Ok in Hdec as ([]&Hv&[= <-]).
  - destruct full; [by left|by right].
Qed.

Lemma fraud_message_sub w s data p w' acc : on_bad_encoding_fraud_sub_message w s data p = Ok (w', acc) →
  wk_header_sub w' = wk_header_sub w ∧ wk_sub_sent w' = wk_sub_sent w.
Proof.
  unfold on_bad_encoding_fraud_sub_message. intros Hmsg. destruct (befp_decode data); [|by injection Hmsg as <- _|done].
  destruct (current_height w s); [|by injection Hmsg as <- _]. apply bind_Ok in Hmsg as (limit&_&Hmsg).
  destruct (_ <? _); [by injection Hmsg as <- _|].
  destruct (st_get_by_hash _ _); [|by injection Hmsg as <- _|done].
  by destruct (befp_validate _ _); [injection Hmsg as <- _..|].
Qed.

Lemma header_sub_step st w e local w' : p2p_step local w e = Ok w' → is_init_header_sub e = false →
  wk_header_sub w = Some st →
  (wk_header_sub w' = Some st ∧ wk_sub_sent w' = wk_sub_sent w) ∨
  ∃ h, verified_after (known_head st) [h] ∧
    wk_header_sub w' = Some {| known_head := h; sub_channel := sub_channel st |} ∧
    (wk_sub_sent w' = wk_sub_sent w ∨ wk_sub_sent w' = wk_sub_sent w ++ [(sub_channel st, h)]).
Proof.
  intros Hstep Hno Hst. pose proof (p2p_step_frame _ _ _ _ Hstep) as Hframe.
  assert (same_sub w w' → wk_header_sub w' = Some st ∧ wk_sub_sent w' = wk_sub_sent w) as Hsame
    by (intros (->&->&_); done).
  destruct e as [| |closed|[]|[]]; try (left; by apply Hsame). cbn [p2p_step on_swarm_event] in Hstep.
  apply gossip_frame in Hstep as [?|(p&w1&acc&->&(->&->&_)&[[-> Hmsg]|[-> Hmsg]])]; [left; by apply Hsame|..].
  - by apply (header_sub_message_sub st) in Hmsg as [_ ?].
  - left. apply fraud_message_sub in Hmsg as [-> ->]. done.
Qed.

Lemma verified_after_app h l x : verified_after h l → verified_after (default h (last l)) [x] → verified_after h (l ++ [x]).
Proof.
  revert h; induction l as [|y l IH]; intros h; [done|]. intros (Hv&Hn&Hl) Hx. cbn. split; [done|]. split; [done|].
  apply IH; [done|]. rewrite last_cons in Hx. by destruct (last l).
Qed.

Lemma header_sub_run es local st w w' : p2p_loop local w es = Ok w' → forallb (λ e, negb (is_init_header_sub e)) es = true →
  wk_header_sub w = Some st →
  ∃ l new, verified_after (known_head st) l ∧ new `sublist_of` l ∧
    wk_header_sub w' = Some {| known_head := default (known_head st) (last l); sub_channel := sub_channel st |} ∧
    wk_sub_sent w' = wk_sub_sent w ++ ((λ h, (sub_channel st, h)) <$> new).
Proof.
  revert w' ; induction es as [|e es IH] using rev_ind; intros w'; cbn [p2p_loop].
  { intros [= <-] _ Hst. exists [], []. rewrite app_nil_r. destruct st. done. }
  intros Hrun Hno Hst. rewrite forallb_app in Hno. apply andb_true_iff in Hno as [Hno Hne]. cbn in Hne.
  rewrite andb_true_r in Hne. apply negb_true_iff in Hne.
  assert (∃ w1, p2p_loop local w es = Ok w1 ∧ p2p_step local w1 e = Ok w') as (w1&Hrun1&Hstep).
  { clear -Hrun. revert w Hrun. induction es as [|e' es IH]; intros w; cbn [app p2p_loop].
    - intros Hr. apply bind_Ok in Hr as (w1&Hs&[= <-]). by eexists.
    - intros Hr. apply bind_Ok in Hr as (w1&Hs&Hr). destruct (IH _ Hr) as (w2&Hr2&Hs2).
      exists w2. split; [|done]. by apply (bind_step Hs). }
  destruct (IH w1 Hrun1 Hno Hst) as (l&new&Hver&Hsub&Hst1&Hsent1).
  destruct (header_sub_step _ _ _ _ _ Hstep Hne Hst1) as [[Hs2 Hsent2]|(h&Hh&Hs2&Hsent2)]; cbn [known_head sub_channel] in *.
  - exists l, new. by rewrite Hs2, Hsent2.
  - exists (l ++ [h]). assert (verified_after (known_head st) (l ++ [h])) as Hver2 by (by apply verified_after_app).
    destruct Hsent2 as [Hsent2|Hsent2]; [exists new|exists (new ++ [h])]; rewrite Hs2, Hsent2, Hsent1, last_snoc.
    + split_and!; [done|by apply sublist_inserts_r|done|done].
    + split_and!; [done|by apply sublist_app|done|]. by rewrite fmap_app, (assoc_L (++)).
Qed.

Lemma verified_after_ascending `{!TendermintSpec} h l : verified_after h l →
  StronglySorted (λ a b, eh_height a < eh_height b) (h :: l).
Proof.
  revert h; induction l as [|x l IH]; intros h; [repeat constructor|].
  intros (_&[now Hv]&Hl). apply IH in Hl as Hs. apply eh_verify_Ok in Hv as (Hlt&_).
  constructor; [done|]. apply StronglySorted_cons in Hs as [Hall _]. constructor; [lia|].
  eapply Forall_impl; [exact Hall|]. cbn. lia.
Qed.

(** C22. What the subscription to headers delivers: from the head it was initialized with on, the
    worker accepts headers that decode, pass validation, and are verified against the last one
    it accepted; what it sends to the subscriber are such headers, in order (it may leave out
    some when the channel is full).  So the known head only rises, and the headers delivered
    have strictly ascending heights above the initial head. *)
Theorem header_sub_ascending `{!TendermintSpec} es local st w w' :
  p2p_loop local w es = Ok w' → forallb (λ e, negb (is_init_header_sub e)) es = true → wk_header_sub w = Some st →
  ∃ l new, verified_after (known_head st) l ∧ new `sublist_of` l ∧
    StronglySorted (λ a b, eh_height a < eh_height b) (known_head st :: l) ∧
    wk_header_sub w' = Some {| known_head := default (known_head st) (last l); sub_channel := sub_channel st |} ∧
    wk_sub_sent w' = wk_sub_sent w ++ ((λ h, (sub_channel st, h)) <$> new).
Proof.
  intros Hrun Hno Hst. destruct (header_sub_run _ _ _ _ _ Hrun Hno Hst) as (l&new&Hver&Hsub&Hs&Hsent).
  exists l, new. split_and!; [done|done|by apply verified_after_ascending|done|done].
Qed.
(** ** Fraud proofs *)

(** A valid proof arrived, for a header of the store at that time, and not too far ahead. *)
Definition proves_fraud (w : P2pWorker) (e : P2pEvent) : Prop :=
  ∃ now full s p data befp header h,
    e = Swarm (Gossip now full s (Some p) BadEncodingFraudSubTopic data) ∧
    befp_decode data = Ok befp ∧ current_height w s = Some h ∧
    befp_block_height befp ≤ h + FRAUD_PROOF_HEAD_HEIGHT_THRESHOLD ∧
    st_get_by_hash s (befp_header_hash befp) = Ok header ∧ befp_validate befp header = Ok tt.

Lemma fraud_message_compromised w s data p w' acc : on_bad_encoding_fraud_sub_message w s data p = Ok (w', acc) →
  wk_compromised w' = wk_compromised w ∨ (wk_compromised w' = true ∧
  ∃ befp header h, befp_decode data = Ok befp ∧ current_height w s = Some h ∧
    befp_block_height befp ≤ h + FRAUD_PROOF_HEAD_HEIGHT_THRESHOLD ∧
    st_get_by_hash s (befp_header_hash befp) = Ok header ∧ befp_validate befp header = Ok tt).
Proof.
  unfold on_bad_encoding_fraud_sub_message. intros Hrun.
  destruct (befp_decode data) as [befp| |] eqn:Hdec; [|left; by injection Hrun as <- _|done].
  destruct (current_height w s) as [h|]; [|left; by injection Hrun as <- _].
  apply bind_Ok in Hrun as (limit&Hlim&Hrun). apply u64_add_inv in Hlim as [-> _].
  destruct (Z.ltb_spec (h + FRAUD_PROOF_HEAD_HEIGHT_THRESHOLD) (befp_block_height befp));
    [left; by injection Hrun as <- _|].
  destruct (st_get_by_hash _ _) as [header| |] eqn:Hget; [|left; by injection Hrun as <- _|done].
  destruct (befp_validate befp header) as [[]| |] eqn:Hval; [right|left; by injection Hrun as <- _|done].
  injection Hrun as <- _. split; [done|]. by exists befp, header, h.
Qed.

(** How the worker reacts to a proof that is not too far ahead, for a header of the store. *)
Lemma fraud_message_reaction w s data p befp header h : befp_decode data = Ok befp →
  st_get_by_hash s (befp_header_hash befp) = Ok header → current_height w s = Some h →
  h + FRAUD_PROOF_HEAD_HEIGHT_THRESHOLD ≤ u64_max →
  befp_block_height befp ≤ h + FRAUD_PROOF_HEAD_HEIGHT_THRESHOLD →
  on_bad_encoding_fraud_sub_message w s data p =
    match befp_validate befp header with
    | Ok _ => Ok (with_compromised w, Accept)
    | Err _ => Ok (call w [BlacklistPeer p], Reject)
    | Panic => Panic
    end.
Proof.
  intros Hdec Hget Hcur Hmax Hle. unfold on_bad_encoding_fraud_sub_message.
  rewrite Hdec, Hcur, u64_add_Ok by done. cbn [mbind res_bind]. by rewrite (proj2 (Z.ltb_ge _ _)), Hget by done.
Qed.

Lemma header_sub_message_compromised w now full data w' acc :
  p2p_on_header_sub_message w now full data = Ok (w', acc) → wk_compromised w' = wk_compromised w.
Proof.
  unfold p2p_on_header_sub_message. intros Hmsg. destruct (decode_and_validate data); [|by injection Hmsg as <- _|done].
  destruct (wk_header_sub w); [|by injection Hmsg as <- _]. by destruct (eh_verify _ _ _); [injection Hmsg as <- _..|].
Qed.

(** The token is only ever triggered, and only by a proof of fraud. *)
Lemma p2p_step_compromised local w e w' : p2p_step local w e = Ok w' →
  wk_compromised w' = wk_compromised w ∨ (wk_compromised w' = true ∧ proves_fraud w e).
Proof.
  intros Hstep. pose proof (p2p_step_frame _ _ _ _ Hstep) as Hframe.
  destruct e as [| |closed|ev|cmd]; try (left; apply Hframe).
  - destruct ev as [p l|now full s source topic data|p l|q r|c b|be|p c endpoint|p c|]; try (left; apply Hframe).
    cbn [p2p_step on_swarm_event] in Hstep.
    apply gossip_frame in Hstep as [(_&_&?)|(p&w1&acc&->&(_&_&->)&[[-> Hmsg]|[-> Hmsg]])]; [by left|left|].
    + by eapply header_sub_message_compromised.
    + apply fraud_message_compromised in Hmsg as [?|(Hw1&befp&header&h&?)]; [by left|right].
      split; [done|]. by exists now, full, s, p, data, befp, header, h.
  - destruct cmd; try (left; apply Hframe). left. by injection Hstep as <-.
Qed.

Lemma proves_fraud_compromises local w e w' : p2p_step local w e = Ok w' → proves_fraud w e →
  wk_compromised w' = true.
Proof.
  intros Hstep (now&full&s&p&data&befp&header&h&->&Hdec&Hcur&Hle&Hget&Hval).
  cbn [p2p_step on_swarm_event on_gossip_sub_event] in Hstep.
  apply bind_Ok in Hstep as ([w1 acc]&Hmsg&Hstep).
  assert (h + FRAUD_PROOF_HEAD_HEIGHT_THRESHOLD ≤ u64_max) as Hmax.
  { unfold on_bad_encoding_fraud_sub_message in Hmsg. rewrite Hdec, Hcur in Hmsg.
    apply bind_Ok in Hmsg as (limit&[_ ?]%u64_add_inv&_). done. }
  rewrite (fraud_message_reaction _ _ _ _ befp header h), Hval in Hmsg by done.
  injection Hmsg as <- <-. by injection Hstep as <-.
Qed.

Lemma p2p_step_stays_compromised local w e w' : p2p_step local w e = Ok w' →
  wk_compromised w = true → wk_compromised w' = true.
Proof. intros Hstep Hw. destruct (p2p_step_compromised _ _ _ _ Hstep) as [->|[? _]]; done. Qed.

Lemma p2p_loop_stays_compromised es local w w' : p2p_loop local w es = Ok w' →
  wk_compromised w = true → wk_compromised w' = true.
Proof.
  revert w; induction es as [|e es IH]; intros w; cbn [p2p_loop]; [by intros [= <-]|].
  intros Hrun Hw. apply bind_Ok in Hrun as (w1&Hstep&Hrun).
  apply (IH w1 Hrun). by eapply p2p_step_stays_compromised.
Qed.

(** A proof of fraud among the events, for the worker as it was when the proof arrived. *)
Definition fraud_proved (local : PeerId) (w : P2pWorker) (es : list P2pEvent) : Prop :=
  ∃ es1 e es2 w1, es = es1 ++ e :: es2 ∧ p2p_loop local w es1 = Ok w1 ∧ proves_fraud w1 e.

Lemma p2p_loop_compromised es local w w' : p2p_loop local w es = Ok w' →
  wk_compromised w' = true ↔ wk_compromised w = true ∨ fraud_proved local w es.
Proof.
  revert w; induction es as [|e es IH]; intros w; cbn [p2p_loop].
  { intros [= <-]. split; [by left|]. intros [?|(es1&e&es2&w1&Hes&_)]; [done|by destruct es1]. }
  intros Hrun. apply bind_Ok in Hrun as (w1&Hstep&Hrun). rewrite (IH w1 Hrun). split.
  - intros [Hw1|(es1&e1&es2&w2&->&Hes1&Hf)].
    + destruct (p2p_step_compromised _ _ _ _ Hstep) as [<-|[_ Hf]]; [by left|right].
      by exists [], e, es, w.
    + right. exists (e :: es1), e1, es2, w2. split; [done|]. split; [|done]. by apply (bind_step Hstep).
  - intros [Hw|(es1&e1&es2&w2&Hes&Hes1&Hf)]; [left; by eapply p2p_step_stays_compromised|].
    destruct es1 as [|e' es1]; cbn [app p2p_loop] in *; injection Hes as -> ->.
    + injection Hes1 as <-. left. by eapply proves_fraud_compromises.
    + right. apply bind_Ok in Hes1 as (w3&Hs3&Hes1). rewrite Hstep in Hs3. injection Hs3 as <-.
      by exists es1, e1, es2, w2.
Qed.

(** C23. The network is declared compromised for a reason, and a reason is heard and not
    forgotten: after any execution the token is triggered exactly if it was before or if
    a fraud proof arrived that decodes, is not ahead of the head known at that time by more
    than the threshold, and validates against a header of the store; stopping keeps the token.
    Such a proof is passed on ([Accept]) and triggers the token for the rest of the execution,
    whatever follows, while a proof that does not validate is refused, its sender blacklisted,
    and the token left as it is. *)
Theorem network_compromised_exact es local w w' : p2p_loop local w es = Ok w' →
  (wk_compromised w' = true ↔ wk_compromised w = true ∨ fraud_proved local w es) ∧
  (∀ evs w'', p2p_on_stop w' evs = Ok w'' → wk_compromised w'' = wk_compromised w') ∧
  ∀ now full s data befp p header h, befp_decode data = Ok befp →
    st_get_by_hash s (befp_header_hash befp) = Ok header → current_height w' s = Some h →
    h + FRAUD_PROOF_HEAD_HEIGHT_THRESHOLD ≤ u64_max →
    befp_block_height befp ≤ h + FRAUD_PROOF_HEAD_HEIGHT_THRESHOLD →
    let e := Swarm (Gossip now full s (Some p) BadEncodingFraudSubTopic data) in
    match befp_validate befp header with
    | Ok _ => ∃ w'', p2p_step local w' e = Ok w'' ∧ ReportValidation p Accept ∈ wk_calls w'' ∧
        wk_compromised w'' = true ∧
        ∀ es2 w2, p2p_loop local w'' es2 = Ok w2 → wk_compromised w2 = true
    | Err _ => ∃ w'', p2p_step local w' e = Ok w'' ∧ ReportValidation p Reject ∈ wk_calls w'' ∧
        BlacklistPeer p ∈ wk_calls w'' ∧ wk_compromised w'' = wk_compromised w'
    | Panic => p2p_step local w' e = Panic
    end.
Proof.
  intros Hrun. split; [by apply p2p_loop_compromised|]. split.
  { intros evs w'' Hstop. by apply stop_loop_frame in Hstop as [(_&_&_&->) _]. }
  intros now full s data befp p header h Hdec Hget Hcur Hmax Hle e.
  cbn [e p2p_step on_swarm_event on_gossip_sub_event].
  rewrite (fraud_message_reaction _ _ _ _ befp header h) by done.
  destruct (befp_validate befp header) as [[]| |]; cbn [mbind res_bind]; [..|done].
  - eexists. split; [done|]. split; [apply elem_of_app; right; left|]. split; [done|].
    intros es2 w2 Hrun2. by apply (p2p_loop_stays_compromised _ _ _ _ Hrun2).
  - eexists. split; [done|]. split; [apply elem_of_app; right; left|]. split; [|done].
    cbn. apply elem_of_app. left. apply elem_of_app. right. left.
Qed.

(** ** Bitswap queries *)

Lemma get_shwap_cid_senders w cid ch : query_senders (on_get_shwap_cid w cid ch) ≡ₚ ch :: query_senders w.
Proof.
  unfold on_get_shwap_cid, query_senders. destruct (bitswap_get (wk_bitswap w) cid) as [b q]. cbn.
  destruct (wk_queries w !! q) as [old|] eqn:Hq.
  - rewrite <-insert_delete_eq, map_to_list_insert by apply lookup_delete_eq.
    rewrite <-(map_to_list_delete _ _ _ Hq), fmap_app. cbn. solve_Permutation.
  - rewrite map_to_list_insert, app_nil_r by done. cbn. solve_Permutation.
Qed.

(** A result answers the query it belongs to, and only that one; a result for a query that is
    not outstanding (it was cancelled, or answered before) changes nothing. *)
Lemma bitswap_result_senders w q r : query_senders (on_bitswap_event w q r) ≡ₚ query_senders w ∧
  wk_queries (on_bitswap_event w q r) = delete q (wk_queries w).
Proof.
  unfold on_bitswap_event, query_senders. destruct (wk_queries w !! q) as [ch|] eqn:Hq.
  - cbn. split; [|done]. rewrite <-(map_to_list_delete _ _ _ Hq), fmap_app. cbn. solve_Permutation.
  - by rewrite delete_id.
Qed.

Lemma lookup_foldr_delete_keys (m : gmap QueryId nat) l q :
  foldr delete m l !! q = if bool_decide (q ∈ l) then None else m !! q.
Proof.
  induction l as [|x l IH]; cbn; [done|]. destruct (decide (q = x)) as [->|Hne].
  - rewrite lookup_delete_eq, bool_decide_true; [done|left].
  - rewrite lookup_delete_ne, IH by done. case_bool_decide as Hl; case_bool_decide as Hc; try done; set_solver.
Qed.

(** Exactly the queries whose callers gave up are dropped, and bitswap is told. *)
Lemma prune_queries_spec w closed q :
  wk_queries (prune_canceled_bitswap_queries w closed) !! q =
    (ch ← wk_queries w !! q; if bool_decide (ch ∈ closed) then None else Some ch) ∧
  (CancelQuery q ∈ wk_calls (prune_canceled_bitswap_queries w closed) ↔
    CancelQuery q ∈ wk_calls w ∨ ∃ ch, wk_queries w !! q = Some ch ∧ ch ∈ closed).
Proof.
  unfold prune_canceled_bitswap_queries. set (l := (filter _ _).*1).
  assert (∀ q, q ∈ l ↔ ∃ ch, wk_queries w !! q = Some ch ∧ ch ∈ closed) as Hl.
  { intros q'. unfold l. rewrite list_elem_of_fmap. split.
    - intros ([q2 ch]&->&[Hc Hin]%list_elem_of_filter). exists ch. by rewrite <-elem_of_map_to_list.
    - intros (ch&Hq&Hc). exists (q', ch). split; [done|]. apply list_elem_of_filter. by rewrite elem_of_map_to_list. }
  cbn. split.
  - rewrite lookup_foldr_delete_keys. specialize (Hl q).
    destruct (wk_queries w !! q) as [ch|]; cbn; case_bool_decide as Hc; try done;
      case_bool_decide; naive_solver.
  - rewrite elem_of_app, list_elem_of_fmap. rewrite <-Hl. naive_solver.
Qed.

(** The answers to queries of shares and rows: at any time every sender is held by one
    outstanding query or was answered or dropped, once; a result answers the query it belongs to
    and no other; and exactly the queries whose callers gave up are cancelled. *)
Theorem bitswap_queries_accounted w cid ch q r closed :
  query_senders (on_get_shwap_cid w cid ch) ≡ₚ ch :: query_senders w ∧
  query_senders (on_bitswap_event w q r) ≡ₚ query_senders w ∧
  wk_queries (on_bitswap_event w q r) = delete q (wk_queries w) ∧
  (∀ q', wk_queries (prune_canceled_bitswap_queries w closed) !! q' =
    (ch ← wk_queries w !! q'; if bool_decide (ch ∈ closed) then None else Some ch)) ∧
  (∀ q', CancelQuery q' ∈ wk_calls (prune_canceled_bitswap_queries w closed) ↔
    CancelQuery q' ∈ wk_calls w ∨ ∃ ch, wk_queries w !! q' = Some ch ∧ ch ∈ closed).
Proof.
  split; [apply get_shwap_cid_senders|]. split; [apply bitswap_result_senders|].
  split; [apply bitswap_result_senders|]. split; intros q'; apply prune_queries_spec.
Qed.
End Worker.

(** ** A concrete worker *)

#[local] Existing Instances toy_DahExternals toy_Tendermint toy_TendermintSpec merge_sort_UnstableSort toy_peers
  toy_transport toy_NmtExternals toy_NmtProofs toy_LeopardCodec toy_LeopardReconstruct.

(** Bitswap numbers its queries. *)
#[local] Instance toy_bitswap : BitswapClient nat := {| QueryId := nat; bitswap_get b _ := (S b, b) |}.

(** One message is a fraud proof for the first header at a wrong height; any other is a proof
    that a header commits to a square that is not an encoding. *)
Definition toy_fraud_header : ExtendedHeader := toy_header_of toy_bad.
Definition toy_fraud : BadEncodingFraudProof :=
  {| befp_header_hash := eh_hash toy_fraud_header; befp_block_height := eh_height toy_fraud_header;
     befp_shares := shares_at toy_bad Row 0 [0; 1]; befp_index := 0; befp_axis := Row |}.
Definition toy_befp_decode (data : bytes) : option RawBadEncodingFraudProof :=
  match data with
  | [] => Some {| rbefp_header_hash := hash_as_bytes (eh_hash toy_1); rbefp_height := 7; rbefp_shares := [];
                  rbefp_index := 0; rbefp_axis := 0 |}
  | _ => Some (befp_into_raw hash_as_bytes toy_fraud)
  end.
Definition toy_hash_try_from (b : bytes) : option Hash := Some (Sha256 b).

Definition toy_p2p_worker : P2pWorker (R := nat) (B := nat) :=
  match p2p_worker_new tracker_new 0%nat 0%nat [(1%nat, [5%nat])] [3%nat] with
  | Ok w => on_init_header_sub w toy_1 0
  | _ => on_init_header_sub
           {| wk_tracker := tracker_new; wk_header_sub := None; wk_sub_sent := []; wk_queries := ∅;
              wk_bitswap_answers := []; wk_compromised := false; wk_calls := []; wk_bootnodes := [];
              wk_header_ex := behaviour_new 0%nat; wk_bitswap := 0%nat; wk_listeners := [] |} toy_1 0
  end.

Definition toy_p2p_events : list (P2pEvent (R := nat) (S := InMemoryStoreInner) (B := nat)) :=
  [Swarm (ConnectionEstablished (1%nat : PeerId) (10%nat : ConnectionId) Listener);
   Swarm (Gossip 1000 false (im_insert toy_now im_new [toy_1]).2 (Some (1%nat : PeerId)) HeaderSubTopic (eh_encode toy_2))].

(** A worker that never subscribed, before and after its bootnode connects. *)
Definition toy_p2p_start : P2pWorker (R := nat) (B := nat) :=
  match p2p_worker_new tracker_new 0%nat 0%nat [(1%nat, [5%nat])] [3%nat] with Ok w => w | _ => toy_p2p_worker end.
Definition toy_p2p_connected : P2pWorker (R := nat) (B := nat) :=
  match p2p_loop toy_befp_decode toy_hash_try_from Some (0%nat : @PeerId toy_peers) (bootstrap toy_p2p_start)
    (take 1 toy_p2p_events) with
  | Ok w => w
  | _ => toy_p2p_worker
  end.

Definition toy_closed : list (SwarmEvent (R := nat) (S := InMemoryStoreInner) (B := nat)) :=
  [ConnectionEstablished (1%nat : PeerId) (11%nat : ConnectionId) Listener;
   ConnectionClosed (1%nat : PeerId) (11%nat : ConnectionId);
   ConnectionClosed (1%nat : PeerId) (10%nat : ConnectionId)].
Definition toy_late : list (SwarmEvent (R := nat) (S := InMemoryStoreInner) (B := nat)) :=
  toy_closed ++ [ConnectionEstablished (2%nat : PeerId) (12%nat : ConnectionId) Listener;
                 ConnectionClosed (2%nat : PeerId) (12%nat : ConnectionId)].

(** One peer connects; during the stop it opens and closes another connection, which does no
    harm; one of a new peer does. *)
Lemma p2p_worker_counts_witness :
  info (wk_tracker toy_p2p_connected) = {| num_connected_peers := 1; num_connected_trusted_peers := 1 |} ∧
  (∃ w', p2p_run toy_befp_decode toy_hash_try_from Some (0%nat : @PeerId toy_peers) toy_p2p_start
      (take 1 toy_p2p_events) toy_closed = Ok w' ∧
    info (wk_tracker w') = {| num_connected_peers := 0; num_connected_trusted_peers := 0 |} ∧
    replay (published (wk_tracker w')) = Some ∅) ∧
  p2p_worker_task toy_befp_decode toy_hash_try_from Some (0%nat : @PeerId toy_peers) toy_p2p_start
    (take 1 toy_p2p_events) toy_late = Panic.
Proof.
  destruct (p2p_worker_counts toy_befp_decode toy_hash_try_from Some (0%nat : @PeerId toy_peers) 0%nat 0%nat
    [(1%nat, [5%nat])] [3%nat] toy_p2p_start (take 1 toy_p2p_events) toy_p2p_connected) as (Hinfo&_&Hstop).
  - vm_compute. reflexivity.
  - vm_compute. reflexivity.
  - vm_compute. reflexivity.
  - vm_compute. discriminate.
  - split; [exact Hinfo|]. split.
    + destruct (Hstop toy_closed) as (w'&Hrun&Hz&Hr&_).
      { intros x. cbn. set_solver. }
      exists w'. split; [exact Hrun|]. split; [exact Hz|exact Hr].
    + refine (proj2 (Hstop toy_late _)). intros x. cbn. set_solver.
Defined.

Lemma p2p_stop_race_miscounts_witness :
  stop_loop (S := InMemoryStoreInner) toy_p2p_worker
    [ConnectionEstablished (2%nat : PeerId) (11%nat : ConnectionId) Listener;
     ConnectionClosed (2%nat : PeerId) (11%nat : ConnectionId)] = Panic.
Proof.
  refine (proj1 (p2p_stop_race_miscounts (S := InMemoryStoreInner) toy_p2p_worker
    (@network_step toy_peers network_new (OpTrusted (1%nat : PeerId) true)) (2%nat : PeerId) (11%nat : ConnectionId) Listener _ _ _) _).
  - destruct (@tracks_trusted toy_peers tracker_new network_new (1%nat : @PeerId toy_peers) true tracks_new) as (t&Ht&Htr); [vm_compute; discriminate|].
    assert (Ok t = Ok (E := unit) (wk_tracker toy_p2p_worker)) as Heq by (rewrite <-Ht; vm_compute; reflexivity).
    injection Heq as ->. exact Htr.
  - vm_compute. discriminate.
  - reflexivity.
  - reflexivity.
Defined.

Definition toy_p2p_after : P2pWorker (R := nat) (B := nat) :=
  match p2p_loop toy_befp_decode toy_hash_try_from Some (0%nat : @PeerId toy_peers) toy_p2p_worker toy_p2p_events with
  | Ok w => w
  | _ => toy_p2p_worker
  end.

Lemma toy_p2p_run :
  p2p_loop toy_befp_decode toy_hash_try_from Some (0%nat : @PeerId toy_peers) toy_p2p_worker toy_p2p_events = Ok toy_p2p_after.
Proof. vm_compute. reflexivity. Qed.

Lemma header_sub_ascending_witness : ∃ l new,
  verified_after toy_1 l ∧ new `sublist_of` l ∧ wk_sub_sent toy_p2p_after = (λ h, (0%nat, h)) <$> new.
Proof.
  destruct (header_sub_ascending toy_befp_decode toy_hash_try_from Some toy_p2p_events (0%nat : @PeerId toy_peers)
    {| known_head := toy_1; sub_channel := 0 |} toy_p2p_worker toy_p2p_after toy_p2p_run eq_refl eq_refl)
    as (l&new&Hv&Hs&_&_&Hsent).
  exists l, new. exact (conj Hv (conj Hs Hsent)).
Defined.

(** A store that holds the headers of both proofs in turn. *)
Definition toy_fraud_store (e : ExtendedHeader) : InMemoryStoreInner :=
  {| im_headers := {[eh_hash e := e]}; im_height_to_hash := {[eh_height e := eh_hash e]};
     im_header_ranges := [eh_height e ..= eh_height e]; im_sampling_data := ∅; im_accepted_sampling_ranges := [] |}.
Definition toy_fraud_event (data : bytes) (e : ExtendedHeader)
    : P2pEvent (R := nat) (S := InMemoryStoreInner) (B := nat) :=
  Swarm (Gossip 1000 false (toy_fraud_store e) (Some (1%nat : PeerId)) BadEncodingFraudSubTopic data).

Definition toy_no_fraud : BadEncodingFraudProof :=
  {| befp_header_hash := eh_hash toy_1; befp_block_height := 7; befp_shares := []; befp_index := 0; befp_axis := Row |}.

Lemma toy_no_fraud_decodes : befp_decode toy_befp_decode toy_hash_try_from Some [] = Ok toy_no_fraud.
Proof. vm_compute. reflexivity. Qed.
Lemma toy_no_fraud_validates : befp_validate toy_no_fraud toy_1 = Err EValidation.
Proof. vm_compute. reflexivity. Qed.
Lemma toy_fraud_stored e : st_get_by_hash (toy_fraud_store e) (eh_hash e) = Ok e.
Proof. cbn. unfold im_get_by_hash. cbn. by rewrite lookup_singleton_eq. Qed.
Lemma toy_fraud_known s : current_height toy_p2p_after s = Some 2.
Proof. vm_compute. reflexivity. Qed.
Lemma toy_fraud_near : 7 ≤ 2 + FRAUD_PROOF_HEAD_HEIGHT_THRESHOLD ∧ 2 + FRAUD_PROOF_HEAD_HEIGHT_THRESHOLD ≤ u64_max ∧
  befp_block_height toy_fraud ≤ 2 + FRAUD_PROOF_HEAD_HEIGHT_THRESHOLD.
Proof. vm_compute. repeat split; discriminate. Qed.
Lemma toy_fraud_decodes : befp_decode toy_befp_decode toy_hash_try_from Some [1] = Ok toy_fraud.
Proof. vm_compute. reflexivity. Qed.
Lemma toy_fraud_validates : befp_validate toy_fraud toy_fraud_header = Ok tt.
Proof. vm_compute. reflexivity. Qed.

(** A proof that does not validate is refused; one that does triggers the token, for good. *)
Lemma network_compromised_exact_witness :
  wk_compromised toy_p2p_after = false ∧
  (∃ w'', p2p_step toy_befp_decode toy_hash_try_from Some (0%nat : @PeerId toy_peers) toy_p2p_after
      (toy_fraud_event [] toy_1) = Ok w'' ∧
    BlacklistPeer (1%nat : PeerId) ∈ wk_calls w'' ∧ wk_compromised w'' = false) ∧
  (∃ w'', p2p_step toy_befp_decode toy_hash_try_from Some (0%nat : @PeerId toy_peers) toy_p2p_after
      (toy_fraud_event [1] toy_fraud_header) = Ok w'' ∧
    ReportValidation (1%nat : PeerId) Accept ∈ wk_calls w'' ∧
    ∀ w2, p2p_loop toy_befp_decode toy_hash_try_from Some (0%nat : @PeerId toy_peers) w''
      [toy_fraud_event [] toy_1; KademliaTick] = Ok w2 → wk_compromised w2 = true).
Proof.
  destruct (network_compromised_exact toy_befp_decode toy_hash_try_from Some toy_p2p_events (0%nat : @PeerId toy_peers)
    toy_p2p_worker toy_p2p_after toy_p2p_run) as (_&_&Hx).
  assert (wk_compromised toy_p2p_after = false) as Hno by (vm_compute; reflexivity).
  split; [exact Hno|]. split.
  - pose proof (Hx 1000 false (toy_fraud_store toy_1) [] toy_no_fraud (1%nat : @PeerId toy_peers) toy_1 2
      toy_no_fraud_decodes (toy_fraud_stored toy_1) (toy_fraud_known _) (proj1 (proj2 toy_fraud_near))
      (proj1 toy_fraud_near)) as Hy.
    rewrite toy_no_fraud_validates in Hy. destruct Hy as (w''&Hw&_&Hb&Hc).
    exists w''. split; [exact Hw|]. split; [exact Hb|]. by rewrite Hc.
  - pose proof (Hx 1000 false (toy_fraud_store toy_fraud_header) [1] toy_fraud (1%nat : @PeerId toy_peers) toy_fraud_header 2
      toy_fraud_decodes (toy_fraud_stored toy_fraud_header) (toy_fraud_known _) (proj1 (proj2 toy_fraud_near))
      (proj2 (proj2 toy_fraud_near))) as Hy.
    rewrite toy_fraud_validates in Hy. destruct Hy as (w''&Hw&Ha&_&Hstay).
    exists w''. split; [exact Hw|]. split; [exact Ha|]. intros w2. apply Hstay.
Defined.
