(* ===== verification/Shwap.v ===== *)
(** * The shwap protocol over Bitswap (src/node/src/p2p/shwap.rs)

    The content id of a sample. *)

From S2P Require Import Prelude Consts BlockRanges Nmt Merkle Dah Header ShwapIds Store.
From S2P Require Import InMemoryStore HeaderEx.

Definition convert_cid `{CidExternals} (cid : CidGeneric) : res P2pError Cid :=
  ok_or (beetswap_convert_cid cid) PCid.

Definition sample_cid `{CidExternals} (row_index column_index block_height : Z) : res P2pError Cid :=
  sample_id ← map_err (λ _, PCid) (SampleId_new row_index column_index block_height);
  cid ← expect_ok (SampleId_into_cid sample_id);
  convert_cid cid.

(** The content id of a sample of an existing block exists, and determines the sample. *)
Lemma sample_cid_spec `{CidExternalsSpec} row col h :
  is_u16 row → is_u16 col → 0 < h → is_u64 h →
  ∃ cid, sample_cid row col h = Ok cid ∧
    SampleId_try_from cid
      = Ok {| si_row_id := {| ri_eds_id := {| eds_height := h |}; ri_index := row |};
              si_column_index := col |}.
Proof.
  intros Hr Hc Hpos Hh. unfold sample_cid, SampleId_new, RowId_new.
  destruct (Z.eqb_spec h 0); [lia|]. cbv [mbind res_bind map_err].
  destruct (exact_encoding_cid _ SAMPLE_ID_CODEC _ SAMPLE_ID_MULTIHASH_CODE _ _ sample_id_encoding)
    as (Hinto&_). set (id := {| si_row_id := _; si_column_index := _ |}).
  destruct (Hinto id) as (cid&Hcid&Htry); [by split|].
  unfold SampleId_into_cid. rewrite Hcid. simpl. exists cid. split; [|done].
  unfold convert_cid. rewrite convert_cid_fits; [done|]. revert Htry. unfold cid_try_into.
  destruct (cid_codec cid =? _); [|done]. simpl.
  destruct (Nat.eqb_spec (length (mh_digest (cid_hash cid))) SAMPLE_ID_SIZE) as [->|]; [|done].
  intros _. unfold SAMPLE_ID_SIZE. lia.
Qed.

Lemma sample_cid_inj `{CidExternalsSpec} row col row' col' h cid :
  is_u16 row → is_u16 col → is_u16 row' → is_u16 col' → 0 < h → is_u64 h →
  sample_cid row col h = Ok cid → sample_cid row' col' h = Ok cid → row = row' ∧ col = col'.
Proof.
  intros ? ? ? ? ? ? E1 E2. destruct (sample_cid_spec row col h) as (c1&S1&T1); [done..|].
  destruct (sample_cid_spec row' col' h) as (c2&S2&T2); [done..|].
  assert (c1 = c2) as <- by congruence. rewrite T1 in T2. by injection T2.
Qed.
