(* ===== verification/ShwapFetch.v ===== *)
(** * Retrieving data over shwap (src/node/src/p2p/shwap.rs; [get_shwap_cid], [get_row],
    [get_sample], [get_row_namespace_data] and [get_all_blobs] of src/node/src/p2p.rs)

    Bitswap asks peers for the block of a content id and delivers what the node's multihasher
    hashes to that id.  The multihasher of the node computes no hash: it verifies the container
    in the block against the stored header.  Bitswap is external (crate beetswap): a function
    [fetch], of which only that contract is assumed.  Protobuf and the byte form of content
    ids are external too: the class [ShwapCodec]. *)

From S2P Require Import Prelude Consts BlockRanges Nmt Merkle Dah Header Share Blob Eds.
From S2P Require Import ShwapIds Containers Store InMemoryStore HeaderEx Shwap.

(** ** External code *)

(** [celestia_proto::bitswap::Block]. *)
Record ShwapBlock := { sb_cid : bytes; sb_container : bytes }.

(** [prost::Message::decode] of the messages and [CidGeneric::read_bytes]; [None] for errors. *)
Class ShwapCodec := {
  block_decode : bytes → option ShwapBlock;
  cid_read_bytes : bytes → option CidGeneric;
  raw_row_decode : bytes → option RawRow;
  raw_sample_decode : bytes → option RawSample;
  raw_rnd_decode : bytes → option RawRowNamespaceData
}.

(** ** Kinds of containers *)

(** The two types that the macro [hash_shwap_block] takes, and what it uses of them. *)
Record ContainerKind (Id C : Type) := {
  ck_code : Z;
  ck_try_from : CidGeneric → res CidError Id;
  ck_into_cid : Id → res CidError CidGeneric;
  ck_block_height : Id → Z;
  ck_decode : Id → bytes → res TypesError C;
  ck_verify : C → Id → DataAvailabilityHeader → res TypesError unit
}.
Arguments ck_code {_ _}.
Arguments ck_try_from {_ _}.
Arguments ck_into_cid {_ _}.
Arguments ck_block_height {_ _}.
Arguments ck_decode {_ _}.
Arguments ck_verify {_ _}.

Inductive MultihasherError := CustomFatal | UnknownMultihashCode.

Section Shwap.
Context `{!DahExternals} `{!NmtExternals} `{!NmtProofs} `{!LeopardCodec} `{!LeopardReconstruct}.
Context `{!CidExternals} `{!ShwapCodec}.

Definition Row_decode (id : RowId) (buffer : bytes) : res TypesError RowData :=
  raw ← ok_or (raw_row_decode buffer) EProtobuf; Row_from_raw id raw.
Definition Sample_decode (id : SampleId) (buffer : bytes) : res TypesError Sample :=
  raw ← ok_or (raw_sample_decode buffer) EProtobuf; Sample_from_raw id raw.
Definition RowNamespaceData_decode (id : RowNamespaceDataId) (buffer : bytes)
    : res TypesError RowNamespaceData :=
  raw ← ok_or (raw_rnd_decode buffer) EProtobuf; RowNamespaceData_from_raw id raw.

Definition row_kind : ContainerKind RowId RowData := {|
  ck_code := ROW_ID_MULTIHASH_CODE; ck_try_from := RowId_try_from; ck_into_cid := RowId_into_cid;
  ck_block_height := RowId_block_height; ck_decode := Row_decode; ck_verify := Row_verify |}.
Definition sample_kind : ContainerKind SampleId Sample := {|
  ck_code := SAMPLE_ID_MULTIHASH_CODE; ck_try_from := SampleId_try_from;
  ck_into_cid := SampleId_into_cid; ck_block_height := SampleId_block_height;
  ck_decode := Sample_decode; ck_verify := Sample_verify |}.
Definition row_namespace_data_kind : ContainerKind RowNamespaceDataId RowNamespaceData := {|
  ck_code := ROW_NAMESPACE_DATA_ID_MULTIHASH_CODE; ck_try_from := RowNamespaceDataId_try_from;
  ck_into_cid := RowNamespaceDataId_into_cid; ck_block_height := RowNamespaceDataId_block_height;
  ck_decode := RowNamespaceData_decode; ck_verify := RowNamespaceData_verify |}.

(** ** The multihasher *)

Context {S : Type} `{!Store S}.

(** The macro [hash_shwap_block]; every error is fatal for the block. *)
Definition hash_shwap_block {Id C} (k : ContainerKind Id C) (header_store : S) (input : bytes)
    : res MultihasherError Multihash :=
  let fatal {E} (_ : E) := CustomFatal in
  block ← ok_or (block_decode input) CustomFatal;
  cid ← ok_or (cid_read_bytes (sb_cid block)) CustomFatal;
  id ← map_err fatal (ck_try_from k cid);
  container ← map_err fatal (ck_decode k id (sb_container block));
  cid ← expect_ok (ck_into_cid k id);
  cid ← map_err fatal (convert_cid cid);
  let hash := cid_hash cid in
  header ← map_err fatal (st_get_by_height header_store (ck_block_height k id));
  _ ← map_err fatal (ck_verify k container id (eh_dah header));
  Ok hash.

Definition ShwapMultihasher_hash (header_store : S) (multihash_code : Z) (input : bytes)
    : res MultihasherError Multihash :=
  if multihash_code =? ROW_ID_MULTIHASH_CODE then hash_shwap_block row_kind header_store input
  else if multihash_code =? ROW_NAMESPACE_DATA_ID_MULTIHASH_CODE
  then hash_shwap_block row_namespace_data_kind header_store input
  else if multihash_code =? SAMPLE_ID_MULTIHASH_CODE
  then hash_shwap_block sample_kind header_store input
  else Err UnknownMultihashCode.

(** ** Requests *)

Definition get_block_container (expected_cid : Cid) (block : bytes) : res P2pError bytes :=
  block ← ok_or (block_decode block) ProtoDecodeFailed;
  block_cid ← ok_or (cid_read_bytes (sb_cid block)) PCid;
  if negb (bool_decide (block_cid = expected_cid)) then Err HeaderEx.Shwap
  else Ok (sb_container block).

(** Sending the command to the worker and what Bitswap answers. *)
Context (fetch : Cid → res P2pError bytes).

Definition get_shwap_cid (cid : Cid) : res P2pError bytes :=
  data ← fetch cid; get_block_container cid data.

(** The common part of the three getters, from the id on. *)
Definition get_container {Id C} (k : ContainerKind Id C) (id : Id) : res P2pError C :=
  cid ← expect_ok (ck_into_cid k id);
  cid ← convert_cid cid;
  data ← get_shwap_cid cid;
  map_err (λ _, HeaderEx.Shwap) (ck_decode k id data).

Definition get_row (row_index block_height : Z) : res P2pError RowData :=
  id ← map_err (λ _, PCid) (RowId_new row_index block_height); get_container row_kind id.
Definition get_sample (row_index column_index block_height : Z) : res P2pError Sample :=
  id ← map_err (λ _, PCid) (SampleId_new row_index column_index block_height);
  get_container sample_kind id.
Definition get_row_namespace_data (namespace : Namespace) (row_index block_height : Z)
    : res P2pError RowNamespaceData :=
  id ← map_err (λ _, PCid) (RowNamespaceDataId_new namespace row_index block_height);
  get_container row_namespace_data_kind id.

(** [n as u16]. *)
Definition as_u16 (n : Z) : Z := n mod 2 ^ 16.
Definition rows_to_fetch (dah : DataAvailabilityHeader) (namespace : Namespace) : list Z :=
  (λ x : nat * NamespacedHash, as_u16 (Z.of_nat x.1))
    <$> filter (λ x : nat * NamespacedHash, nh_contains x.2 namespace = true) (imap pair (row_roots dah)).

(** The rows are requested at once and collected in order. *)
Definition get_all_blobs (header : ExtendedHeader) (namespace : Namespace) : run P2pError (list Blob) :=
  let height := eh_height header in
  app_version ← lift (map_err (λ _, CelestiaTypes) (eh_app_version header));
  rows ← lift (mapM (λ row_idx, get_row_namespace_data namespace row_idx height)
                 (rows_to_fetch (eh_dah header) namespace));
  let shares := concat (rnd_shares <$> rows) in
  option_map (map_err (λ _, CelestiaTypes)) (Blob_reconstruct_all shares app_version).
End Shwap.

(** ** Specification *)

(** What Bitswap promises: the data delivered for a content id is what the multihasher of the
    node, as the header store was then, hashed to it. *)
Definition delivers `{!DahExternals, !NmtExternals, !NmtProofs, !LeopardCodec, !LeopardReconstruct,
    !CidExternals, !ShwapCodec} {S} `{!Store S} (header_store : S) (fetch : Cid → res P2pError bytes) : Prop :=
  ∀ cid data, fetch cid = Ok data →
    ShwapMultihasher_hash header_store (mh_code (cid_hash cid)) data = Ok (cid_hash cid).

(** The ids of a kind are the content ids with its code. *)
Record lawful_kind {Id C} `{!CidExternals} (k : ContainerKind Id C) (ok : Id → Prop) : Prop := {
  lk_bijection : cid_bijection ok (ck_into_cid k) (ck_try_from k);
  lk_code cid id : ck_try_from k cid = Ok id → mh_code (cid_hash cid) = ck_code k;
  lk_convert cid id : ck_try_from k cid = Ok id → convert_cid cid = Ok cid
}.

Section Spec.
Context `{!DahExternals} `{!NmtExternals} `{!NmtProofs} `{!LeopardCodec} `{!LeopardReconstruct}.
Context `{!CidExternals} `{!CidExternalsSpec} `{!ShwapCodec} {S : Type} `{!Store S}.

Lemma cid_try_into_code {A} codec size code (decode : bytes → res CidError A) cid id :
  (size ≤ 64)%nat → cid_try_into codec size code decode cid = Ok id →
  mh_code (cid_hash cid) = code ∧ convert_cid cid = Ok cid.
Proof.
  intros Hs. unfold cid_try_into. destruct (cid_codec cid =? codec); [|done]. cbn [negb].
  destruct (Nat.eqb_spec (length (mh_digest (cid_hash cid))) size) as [Hl|]; [|done]. cbn [negb].
  destruct (Z.eqb_spec (mh_code (cid_hash cid)) code) as [Hc|]; [|done]. intros _. split; [done|].
  unfold convert_cid. rewrite convert_cid_fits; [done|lia].
Qed.

Lemma row_kind_lawful : lawful_kind row_kind row_id_ok.
Proof.
  split; [apply exact_encoding_cid, row_id_encoding|..]; intros cid id Hid;
    eapply cid_try_into_code in Hid; (tauto || unfold ROW_ID_SIZE, EDS_ID_SIZE; lia).
Qed.
Lemma sample_kind_lawful : lawful_kind sample_kind sample_id_ok.
Proof.
  split; [apply exact_encoding_cid, sample_id_encoding|..]; intros cid id Hid;
    eapply cid_try_into_code in Hid; (tauto || unfold SAMPLE_ID_SIZE; lia).
Qed.
Lemma row_namespace_data_kind_lawful : lawful_kind row_namespace_data_kind row_namespace_data_id_ok.
Proof.
  split; [apply exact_encoding_cid, row_namespace_data_id_encoding|..]; intros cid id Hid;
    eapply cid_try_into_code in Hid; (tauto || unfold ROW_NAMESPACE_DATA_ID_SIZE; lia).
Qed.

Context (s : S) (fetch : Cid → res P2pError bytes).

(** What a hash of a block of some kind says. *)
Lemma hash_shwap_block_Ok {Id C} (k : ContainerKind Id C) input mh : hash_shwap_block k s input = Ok mh →
  ∃ block bcid id c cid cid' header, block_decode input = Some block ∧
    cid_read_bytes (sb_cid block) = Some bcid ∧ ck_try_from k bcid = Ok id ∧
    ck_decode k id (sb_container block) = Ok c ∧ ck_into_cid k id = Ok cid ∧
    convert_cid cid = Ok cid' ∧ mh = cid_hash cid' ∧
    st_get_by_height s (ck_block_height k id) = Ok header ∧ ck_verify k c id (eh_dah header) = Ok tt.
Proof.
  intros Hh. unfold hash_shwap_block in Hh. inv_res Hh. destruct x6. subst.
  repeat eexists; eassumption || reflexivity.
Qed.

(** The container of an id that was retrieved verifies against the stored header. *)
Lemma fetched_verified {Id C} (k : ContainerKind Id C) ok id c :
  (∀ input, ShwapMultihasher_hash s (ck_code k) input = hash_shwap_block k s input) →
  lawful_kind k ok → delivers s fetch → ok id → get_container fetch k id = Ok c →
  ∃ header, st_get_by_height s (ck_block_height k id) = Ok header ∧ ck_verify k c id (eh_dah header) = Ok tt.
Proof.
  intros Hdisp [Hbij Hcode Hconv] Hdel Hid Hget.
  destruct Hbij as (Hinto&_&_). destruct (Hinto id Hid) as (cid&Hcid&Htry).
  unfold get_container in Hget. rewrite Hcid in Hget. cbn [expect_ok] in Hget.
  apply bind_Ok in Hget as (?&[= <-]&Hget). rewrite (Hconv cid id Htry) in Hget.
  apply bind_Ok in Hget as (?&[= <-]&Hget). unfold get_shwap_cid in Hget.
  rewrite bind_assoc_res in Hget. apply bind_Ok in Hget as (data&Hf&Hget).
  apply bind_Ok in Hget as (container&Hcont&Hget). apply map_err_Ok in Hget.
  pose proof (Hdel cid data Hf) as Hh. rewrite (Hcode cid id Htry), Hdisp in Hh.
  apply hash_shwap_block_Ok in Hh as (block&bcid&id'&c'&cid1&cid2&header&Hb&Hr&Ht&Hd&_&_&_&Hst&Hv).
  unfold get_block_container in Hcont. rewrite Hb in Hcont. cbn [ok_or] in Hcont.
  apply bind_Ok in Hcont as (?&[= <-]&Hcont). rewrite Hr in Hcont.
  apply bind_Ok in Hcont as (?&[= <-]&Hcont).
  destruct (decide (bcid = cid)) as [->|Hne]; [|by rewrite bool_decide_false in Hcont].
  rewrite bool_decide_true in Hcont by done. injection Hcont as <-.
  assert (id' = id) as -> by congruence. assert (c' = c) as -> by congruence. by exists header.
Qed.

Lemma get_row_verified row height r : is_u16 row → 0 < height → is_u64 height → delivers s fetch →
  get_row fetch row height = Ok r →
  ∃ header, st_get_by_height s height = Ok header ∧ Row_verify r (row_id row height) (eh_dah header) = Ok tt.
Proof.
  intros Hr Hpos Hh Hdel Hget. unfold get_row, RowId_new in Hget.
  destruct (Z.eqb_spec height 0); [lia|]. cbn [map_err] in Hget. apply bind_Ok in Hget as (?&[= <-]&Hget).
  by apply (fetched_verified row_kind row_id_ok) in Hget; [|done|apply row_kind_lawful|done|split_and!].
Qed.

Lemma get_sample_verified row col height x : is_u16 row → is_u16 col → 0 < height → is_u64 height →
  delivers s fetch → get_sample fetch row col height = Ok x →
  ∃ header, st_get_by_height s height = Ok header ∧
    Sample_verify x (sample_id row col height) (eh_dah header) = Ok tt.
Proof.
  intros Hr Hc Hpos Hh Hdel Hget. unfold get_sample, SampleId_new, RowId_new in Hget.
  destruct (Z.eqb_spec height 0); [lia|]. cbn [map_err] in Hget.
  apply bind_Ok in Hget as (?&[= <-]&Hget).
  by apply (fetched_verified sample_kind sample_id_ok) in Hget; [|done|apply sample_kind_lawful|done|split; [split|]].
Qed.

Definition rnd_id (ns : Namespace) (row height : Z) : RowNamespaceDataId :=
  {| rn_row_id := row_id row height; rn_namespace := ns |}.

Lemma get_row_namespace_data_verified ns row height d : is_u16 row → 0 < height → is_u64 height →
  are_bytes ns → valid_namespace ns → delivers s fetch → get_row_namespace_data fetch ns row height = Ok d →
  ∃ header, st_get_by_height s height = Ok header ∧
    RowNamespaceData_verify d (rnd_id ns row height) (eh_dah header) = Ok tt ∧
    (ns ≠ PARITY_SHARE → Forall (λ x, sh_is_parity x = false) (rnd_shares d)).
Proof.
  intros Hr Hpos Hh Hb Hv Hdel Hget. unfold get_row_namespace_data, RowNamespaceDataId_new, RowId_new in Hget.
  destruct (Z.eqb_spec height 0); [lia|]. cbn [map_err] in Hget.
  apply bind_Ok in Hget as (?&[= <-]&Hget). pose proof Hget as Hdec.
  apply (fetched_verified row_namespace_data_kind row_namespace_data_id_ok) in Hget as (header&?&?);
    [|done|apply row_namespace_data_kind_lawful|done|by split; [split_and!|split]].
  exists header. split_and!; [done|done|]. intros Hns.
  unfold get_container in Hdec. apply bind_Ok in Hdec as (?&_&Hdec). apply bind_Ok in Hdec as (?&_&Hdec).
  apply bind_Ok in Hdec as (data&_&Hdec). apply map_err_Ok in Hdec. cbn [ck_decode row_namespace_data_kind] in Hdec.
  unfold RowNamespaceData_decode, RowNamespaceData_from_raw in Hdec. apply bind_Ok in Hdec as (raw&_&Hdec).
  apply bind_Ok in Hdec as (p&_&Hdec). apply bind_Ok in Hdec as (shares&Hsh&Hdec).
  case_ifs_in Hdec; [done|]. apply bind_Ok in Hdec as (p'&_&Hdec). injection Hdec as <-. cbn [rnd_shares].
  apply mapM_res_Ok in Hsh. clear -Hsh Hns. induction Hsh as [|d x l k Hx _ IH]; constructor; [|done].
  cbn [rn_namespace] in Hx. rewrite bool_decide_false in Hx by done. cbn [negb] in Hx.
  unfold Share_from_raw in Hx. case_ifs_in Hx; [done|]. inv_res Hx. by subst x.
Qed.
End Spec.

(** ** Lemmas: the rows of a namespace *)

Section Rows.
Context `{!NmtExternals} `{!NmtExternalsSpec} `{!NmtProofs} `{!NmtProofsSpec} (v : AppVersion)
  (eds : ExtendedDataSquare) (dah : DataAvailabilityHeader) (Hwf : eds_wf v eds)
  (Hdah : dah_from_eds eds = Ok dah) (ns : Namespace) (Hns : ns ≠ PARITY_SHARE).
#[local] Notation w := (eds_square_width eds).

(** The rows that are not fetched have no share of the namespace. *)
Lemma rows_from_concat l n : 0 ≤ n → n + Z.of_nat (length l) ≤ w →
  (∀ k h, l !! k = Some h → row_root dah (n + Z.of_nat k) = Some h) →
  let rows := (λ x : nat * NamespacedHash, as_u16 (n + Z.of_nat x.1))
    <$> filter (λ x : nat * NamespacedHash, nh_contains x.2 ns = true) (imap pair l) in
  concat (ns_row eds ns <$> rows) = concat (ns_row eds ns <$> seqZ n (Z.of_nat (length l))) ∧
  Forall (λ i, 0 ≤ i < w) rows.
Proof.
  pose proof (eds_bounds _ _ Hwf) as Hw. rewrite max_width_256 in Hw.
  revert n. induction l as [|h l IH]; intros n Hn Hl Hr; [done|]. cbn zeta.
  rewrite imap_cons, filter_cons. cbn [snd]. cbn [length] in Hl.
  destruct (IH (n + 1)) as [IH1 IH2]; [lia|lia|intros k h' Hk; rewrite <-(Hr (Datatypes.S k) h' Hk); f_equal; lia|].
  assert ((λ x : nat * NamespacedHash, as_u16 (n + Z.of_nat x.1))
      <$> filter (λ x : nat * NamespacedHash, nh_contains x.2 ns = true) (imap (pair ∘ Datatypes.S) l)
    = (λ x : nat * NamespacedHash, as_u16 (n + 1 + Z.of_nat x.1))
      <$> filter (λ x : nat * NamespacedHash, nh_contains x.2 ns = true) (imap pair l)) as Heq.
  { clear. revert n. assert (∀ l (g : nat → nat) n, (λ x : nat * NamespacedHash, as_u16 (n + Z.of_nat x.1))
      <$> filter (λ x : nat * NamespacedHash, nh_contains x.2 ns = true) (imap (λ i h, (Datatypes.S (g i), h)) l)
      = (λ x : nat * NamespacedHash, as_u16 (n + 1 + Z.of_nat x.1))
      <$> filter (λ x : nat * NamespacedHash, nh_contains x.2 ns = true) (imap (λ i h, (g i, h)) l)) as Hg.
    { induction l0 as [|h l0 IH]; intros g n; [done|]. rewrite !imap_cons, !filter_cons. cbn [snd].
      case_decide; rewrite ?fmap_cons; [f_equal; [cbn [fst]; f_equal; lia|]|]; apply (IH (g ∘ Datatypes.S)). }
    intros n. apply (Hg l id n). }
  rewrite seqZ_cons by (cbn [length]; lia). rewrite fmap_cons. cbn [concat].
  replace (Z.pred (Z.of_nat (length (h :: l)))) with (Z.of_nat (length l)) by (cbn [length]; lia).
  rewrite <-Z.add_1_r.
  rewrite <-IH1. case_decide as Hc.
  - rewrite fmap_cons, Heq. cbn [fst].
    assert (as_u16 (n + Z.of_nat 0) = n) as -> by (unfold as_u16; rewrite Z.add_0_r; apply Z.mod_small; lia).
    rewrite fmap_cons. split; [done|]. constructor; [lia|done].
  - rewrite Heq. split; [|done]. rewrite (ns_row_absent v eds dah Hwf Hdah ns Hns n); [done|lia|].
    intros (h'&Hh'&Hcon). apply Hc. pose proof (Hr 0%nat h eq_refl) as Hr0. rewrite Z.add_0_r in Hr0. congruence.
Qed.

Lemma rows_to_fetch_spec : concat (ns_row eds ns <$> rows_to_fetch dah ns) = ns_shares ns eds ∧
  Forall (λ i, 0 ≤ i < w) (rows_to_fetch dah ns).
Proof.
  pose proof (from_eds_width v eds Hwf dah Hdah) as Hw.
  destruct (rows_from_concat (row_roots dah) 0) as [Hc Hr]; [lia|lia|intros k h Hk; unfold row_root; by rewrite Z.add_0_l, Nat2Z.id|].
  split; [|exact Hr]. etransitivity; [exact Hc|]. unfold ns_shares.
  rewrite <-Hw, (eds_data_grid v eds Hwf), filter_grid. f_equal. apply list_fmap_ext. intros _ r _.
  unfold ns_row, axis_of, axis_coords. by rewrite <-list_fmap_compose.
Qed.

Lemma ns_row_not_parity i : Forall (λ s, sh_is_parity s = false) (ns_row eds ns i).
Proof.
  clear -Hns. apply Forall_forall. intros s [Hs _]%list_elem_of_filter. destruct (sh_is_parity s) eqn:Ep; [|done].
  exfalso. apply Hns. rewrite <-Hs. unfold share_namespace. by rewrite Ep.
Qed.
End Rows.

(** ** Properties *)

Section Properties.
Context `{!DahExternals} `{!NmtExternals} `{!NmtExternalsSpec} `{!NmtProofs} `{!NmtProofsSpec}.
Context `{!LeopardCodec} `{!LeopardReconstruct} `{!CidExternals} `{!CidExternalsSpec} `{!ShwapCodec}.
Context {S : Type} `{!Store S}.

(** C17. Data retrieved from untrusted peers is the block's: when the node has the header of a
    well-formed square at a height and Bitswap delivers only what the multihasher accepts,
    [get_row] returns exactly the shares of that row of the square, and the share that
    [get_sample] returns is one of the shares of the requested row of the square (of the
    requested column, for a proof by column), with the same bytes and namespace. *)
Theorem retrieved_data_sound `{!NmtCollisionFree} (s : S) fetch v eds header height row :
  delivers s fetch → eds_wf v eds → st_get_by_height s height = Ok header →
  dah_from_eds eds = Ok (eh_dah header) → is_u16 row → 0 < height → is_u64 height →
  (∀ r, get_row fetch row height = Ok r → ∃ shares, eds_row eds row = Ok shares ∧
    sh_data <$> row_shares r = sh_data <$> shares ∧
    share_namespace <$> row_shares r = share_namespace <$> shares) ∧
  (∀ col x, is_u16 col → get_sample fetch row col height = Ok x →
    ∃ line share,
      match sample_proof_type x with Row => eds_row eds row | Col => eds_column eds col end = Ok line ∧
      share ∈ line ∧ sh_data share = sh_data (sample_share x) ∧ share_namespace share = share_namespace (sample_share x)).
Proof.
  intros Hdel Hwf Hst Hdah Hr Hpos Hh. split.
  - intros r Hget. destruct (get_row_verified s fetch row height r Hr Hpos Hh Hdel Hget) as (header'&Hst'&Hv).
    assert (header' = header) as -> by congruence.
    destruct (row_verified v eds _ Hwf Hdah r (row_id row height) ltac:(by destruct Hr) Hv) as [Hin Hl].
    eexists. split; [by apply (eds_axis_in v)|]. unfold axis_leaves in Hl. cbn [row_id ri_index] in Hl.
    split; [apply (f_equal (fmap fst)) in Hl|apply (f_equal (fmap snd)) in Hl];
      rewrite <-!list_fmap_compose in Hl; exact Hl.
  - intros col x Hc Hget.
    destruct (get_sample_verified s fetch row col height x Hr Hc Hpos Hh Hdel Hget) as (header'&Hst'&Hv).
    assert (header' = header) as -> by congruence.
    destruct (sample_verified v eds _ Hwf Hdah x (sample_id row col height)) as (r&c&Hr'&Hc'&Ha&Hd&Hn);
      [by destruct Hr|by destruct Hc|done|].
    assert (∀ axis, across axis r c = across axis row col → ∃ line,
      match axis with Row => eds_row eds row | Col => eds_column eds col end = Ok line ∧ cell eds r c ∈ line) as Hline.
    { intros axis Heq. exists (axis_of (cell eds) axis (eds_square_width eds) (across axis r c)). split.
      - rewrite Heq. destruct axis; cbn [across] in *; subst; by apply (eds_axis_in v).
      - apply list_elem_of_lookup. exists (Z.to_nat (match axis with Row => c | Col => r end)).
        rewrite axis_of_lookup by (destruct axis; lia). destruct axis; cbn [across]; by rewrite Z2Nat.id by lia. }
    destruct (Hline _ Ha) as (line&Hl&Hin). exists line, (cell eds r c). done.
Qed.

Lemma retrieved_rows (s : S) fetch v eds header ns rows ds :
  delivers s fetch → eds_wf v eds → st_get_by_height s (eh_height header) = Ok header →
  dah_from_eds eds = Ok (eh_dah header) → valid_namespace ns → are_bytes ns → ns ≠ PARITY_SHARE →
  0 < eh_height header → is_u64 (eh_height header) → Forall (λ i, 0 ≤ i < eds_square_width eds) rows →
  mapM (λ row_idx, get_row_namespace_data fetch ns row_idx (eh_height header)) rows = Ok ds →
  rnd_shares <$> ds = ns_row eds ns <$> rows.
Proof.
  intros Hdel Hwf Hst Hdah Hv Hb Hns Hpos Hh Hin Hm. apply mapM_res_Ok in Hm.
  pose proof (eds_bounds _ _ Hwf) as Hw. rewrite max_width_256 in Hw.
  induction Hm as [|i d rows ds Hd _ IH]; [done|]. apply Forall_cons in Hin as [Hi Hin]. cbn [fmap list_fmap].
  f_equal; [|by apply IH].
  destruct (get_row_namespace_data_verified s fetch ns i (eh_height header) d) as (header'&Hst'&Hver&Hpar);
    [unfold is_u16, u16_max; lia|done..|]. assert (header' = header) as -> by congruence.
  destruct (namespace_data_verified v eds _ Hwf Hdah ns Hns d (rnd_id ns i (eh_height header))) as [_ Hsh];
    [by destruct Hi|done|done|].
  apply shares_data_inj; [by apply Hpar|by apply ns_row_not_parity|exact Hsh].
Qed.

(** C2. Retrieving the blobs of a namespace end to end: suppose the header given is the one
    stored, of a well-formed square in which the shares of a (not reserved) namespace are those
    of some blobs in order.  If all the rows that [get_all_blobs] requests arrive, whoever
    sent them, it returns exactly these blobs; otherwise it returns no blobs at all. *)
Theorem get_all_blobs_correct `{!DahExternalsSpec} (s : S) fetch v eds header ns blobs :
  delivers s fetch → eds_wf v eds → st_get_by_height s (eh_height header) = Ok header →
  dah_from_eds eds = Ok (eh_dah header) → eh_app_version header = Ok v →
  valid_namespace ns → are_bytes ns → is_reserved ns = false →
  0 < eh_height header → is_u64 (eh_height header) → layout v blobs (ns_shares ns eds) →
  (forallb (λ i, is_ok (get_row_namespace_data fetch ns i (eh_height header)))
     (rows_to_fetch (eh_dah header) ns) = true → get_all_blobs fetch header ns = Some (Ok blobs)) ∧
  (∀ blobs', get_all_blobs fetch header ns = Some (Ok blobs') → blobs' = blobs).
Proof.
  intros Hdel Hwf Hst Hdah Hav Hv Hb Hres Hpos Hh Hlay.
  assert (ns ≠ PARITY_SHARE) as Hns by (intros ->; vm_compute in Hres; done).
  destruct (rows_to_fetch_spec v eds _ Hwf Hdah ns Hns) as [Hcon Hrows].
  assert (∀ ds, mapM (λ i, get_row_namespace_data fetch ns i (eh_height header))
      (rows_to_fetch (eh_dah header) ns) = Ok ds →
    Blob_reconstruct_all (concat (rnd_shares <$> ds)) v = Some (Ok blobs)) as Hrec.
  { intros ds Hm. rewrite (retrieved_rows s fetch v eds header ns _ ds Hdel) by done. rewrite Hcon.
    apply reconstruct_all_correct. rewrite (filter_all _ (ns_shares ns eds)); [done|].
    intros x Hx. unfold ns_shares in Hx. by apply list_elem_of_filter in Hx as [-> _]. }
  unfold get_all_blobs. rewrite Hav. cbn [map_err lift]. cbv [mbind run_bind]. split.
  - intros Hok. destruct (mapM_total _ _ Hok) as [ds Hm]. rewrite Hm. cbn [lift]. by rewrite (Hrec ds Hm).
  - intros blobs'. destruct (mapM _ _) as [ds| |] eqn:Hm; cbn [lift]; [|done|done].
    rewrite (Hrec ds eq_refl). cbn. congruence.
Qed.
End Properties.

(** ** Witnesses

    A square of one blob, its header in a store of one header, and a Bitswap that answers with
    blocks whose containers are fixed and passes on what the multihasher accepts. *)
#[local] Existing Instances toy_NmtExternals toy_NmtExternalsSpec toy_NmtCollisionFree
  toy_MerkleHash toy_CollisionFree toy_DomainSeparated toy_DahExternals toy_DahExternalsSpec
  toy_LeopardCodec toy_LeopardCodecSpec toy_LeopardReconstruct toy_LeopardReconstructSpec
  toy_NmtProofs toy_NmtProofsSpec toy_CidExternals toy_CidExternalsSpec.

Definition toy_blob_bytes : bytes := match toy_shares 3 with [x] => sh_data x | _ => [] end.
Definition toy_blob_square : ExtendedDataSquare :=
  {| eds_data_square := {| sh_data := toy_blob_bytes; sh_is_parity := false |}
       :: repeat {| sh_data := toy_blob_bytes; sh_is_parity := true |} 3;
     eds_codec := [76]; eds_square_width := 2 |}.
Lemma toy_blob_square_wf : eds_wf V3 toy_blob_square.
Proof.
  apply (eds_new_wf V3 (repeat toy_blob_bytes 4) [76] toy_blob_square); [|vm_compute; reflexivity].
  apply Forall_repeat_same.
  apply (bool_decide_eq_true_1 (Forall (λ b, 0 ≤ b ≤ 255) toy_blob_bytes)). vm_compute. reflexivity.
Qed.
Definition toy_blob_dah : DataAvailabilityHeader :=
  match dah_from_eds toy_blob_square with Ok dah => dah | _ => toy_dah end.
Lemma toy_blob_dah_of : dah_from_eds toy_blob_square = Ok toy_blob_dah.
Proof.
  destruct (from_eds_spec V3 toy_blob_square toy_blob_square_wf) as (dah&Hd&_). unfold toy_blob_dah. by rewrite Hd.
Qed.
Definition toy_blob_header : ExtendedHeader :=
  {| eh_header := {| version_block := 11; version_app := 3; h_chain_id := [99]; h_height := 1;
       h_time := 100; last_block_id := None; last_commit_hash := None;
       data_hash := Some (dah_hash toy_blob_dah); validators_hash := Sha256 [1];
       next_validators_hash := Sha256 [1]; consensus_hash := NoHash; app_hash := [];
       last_results_hash := None; evidence_hash := None; proposer_address := [7] |};
     eh_commit := eh_commit toy_1; eh_validator_set := eh_validator_set toy_1;
     eh_dah := toy_blob_dah |}.

#[local] Instance toy_Store : Store ExtendedHeader := {|
  st_get_head e := Ok e;
  st_get_by_hash e _ := Err NotFound;
  st_get_by_height e h := if h =? eh_height e then Ok e else Err NotFound;
  st_head_height e := Ok (eh_height e);
  st_has _ _ := false;
  st_has_at e h := h =? eh_height e;
  st_update_sampling_metadata e _ _ _ := (Err NotFound, e);
  st_get_sampling_metadata _ _ := Err NotFound;
  st_insert _ e _ := (Ok tt, e);
  st_get_stored_header_ranges _ := Ok [];
  st_get_accepted_sampling_ranges _ := Ok [];
  st_remove_last e := (Err NotFound, e)
|}.
#[local] Instance toy_ShwapCodec : ShwapCodec := {|
  block_decode data := Some {| sb_cid := data; sb_container := [] |};
  cid_read_bytes := toy_cid_read_bytes;
  raw_row_decode _ := Some {| raw_shares_half := [toy_blob_bytes]; raw_half_side := 0 |};
  raw_sample_decode _ := option_map Sample_into_raw
    (match Sample_new 0 0 Row toy_blob_square with Ok x => Some x | _ => None end);
  raw_rnd_decode _ := Some (RowNamespaceData_into_raw
    {| rnd_proof := get_namespace_proof (axis_leaves toy_blob_square Row 0) toy_ns;
       rnd_shares := ns_row toy_blob_square toy_ns 0 |})
|}.
Definition toy_fetch (cid : Cid) : res P2pError bytes :=
  let data := toy_cid_to_bytes cid in
  match ShwapMultihasher_hash toy_blob_header (mh_code (cid_hash cid)) data with
  | Ok mh => if decide (mh = cid_hash cid) then Ok data else Err Bitswap
  | _ => Err Bitswap
  end.
Lemma toy_delivers : delivers toy_blob_header toy_fetch.
Proof.
  intros cid data. unfold toy_fetch. destruct (ShwapMultihasher_hash _ _ _) as [mh| |] eqn:E; [|done..].
  case_decide; [|done]. intros [= <-]. by subst mh.
Qed.

Lemma retrieved_data_sound_witness :
  (∃ r shares, get_row toy_fetch 0 1 = Ok r ∧
    eds_row toy_blob_square 0 = Ok shares ∧ sh_data <$> row_shares r = sh_data <$> shares) ∧
  ∃ x line share, get_sample toy_fetch 0 0 1 = Ok x ∧ sample_proof_type x = Row ∧
    eds_row toy_blob_square 0 = Ok line ∧ share ∈ line ∧ sh_data share = sh_data (sample_share x).
Proof.
  destruct (retrieved_data_sound toy_blob_header toy_fetch V3 toy_blob_square toy_blob_header 1 0
    toy_delivers toy_blob_square_wf eq_refl toy_blob_dah_of ltac:(unfold is_u16, u16_max; lia) ltac:(lia)
    ltac:(unfold is_u64, u64_max; lia)) as [Hrow Hsample]. split.
  - destruct (get_row toy_fetch 0 1) as [r| |] eqn:Er;
      [|exfalso; apply (f_equal is_ok) in Er; vm_compute in Er; done..].
    destruct (Hrow r eq_refl) as (shares&Hs&Hd&_). exists r, shares. exact (conj eq_refl (conj Hs Hd)).
  - assert (match get_sample toy_fetch 0 0 1 with Ok x => bool_decide (sample_proof_type x = Row) | _ => false end = true)
      as Ht by (vm_compute; reflexivity).
    destruct (get_sample toy_fetch 0 0 1) as [x| |] eqn:Ex; [|discriminate Ht..].
    apply bool_decide_eq_true in Ht.
    destruct (Hsample 0 x ltac:(unfold is_u16, u16_max; lia) Ex) as (line&share&Hl&Hin&Hd&_). rewrite Ht in Hl.
    exists x, line, share. exact (conj eq_refl (conj Ht (conj Hl (conj Hin Hd)))).
Defined.

Lemma get_all_blobs_correct_witness : get_all_blobs toy_fetch toy_blob_header toy_ns = Some (Ok [toy_blob 3]).
Proof.
  apply (get_all_blobs_correct toy_blob_header toy_fetch V3 toy_blob_square toy_blob_header toy_ns [toy_blob 3]
    toy_delivers toy_blob_square_wf eq_refl toy_blob_dah_of);
    [vm_compute; reflexivity|apply toy_ns_valid|apply toy_ns_bytes|vm_compute; reflexivity|vm_compute; reflexivity|
     split; vm_compute; congruence| |vm_compute; reflexivity].
  destruct (toy_blob_spec 3) as (Hnew&Hns&Hd&Hsh); [unfold u32_max; lia|].
  assert (ns_shares toy_ns toy_blob_square = [] ++ toy_shares 3 ++ []) as -> by (vm_compute; reflexivity).
  apply layout_blob; [constructor| | | |apply Hsh; lia|constructor; constructor].
  - rewrite Hns, Hd. apply toy_input. unfold u32_max. lia.
  - by rewrite Hd.
  - by rewrite Hns, Hd.
Defined.
