(* ===== verification/HeaderSession.v ===== *)
(** * Fetching a range of headers

    src/node/src/p2p/header_session.rs and the functions of [P2p] in src/node/src/p2p.rs
    that use a session.  A session splits a range into batches, keeps at most eight
    requests in flight, asks again for what is missing in a short answer, and joins the
    answers.

    [FuturesUnordered] completes its tasks in any order: a run is given by a schedule, a
    list whose entries say which task completes next and how the network answers the
    request of that task ([run_loop] reads one entry per iteration of the [while] loop).
    A run whose schedule ends before the loop does is [None]: the session still waits. *)

From stdpp Require Import sorting.
From S2P Require Import Prelude Consts BlockRanges Nmt Merkle Dah Header ShwapIds Store.
From S2P Require Import InMemoryStore HeaderEx.

(** ** Data *)

Definition MIN_AMOUNT_PER_REQ : Z := 8.
Definition MAX_AMOUNT_PER_REQ : Z := 64.
Definition MAX_CONCURRENT_REQS : nat := 8.

(** A task is known by the height and the amount it requests. *)
Record HeaderSession := {
  hs_to_fetch : option BlockRange;
  hs_tasks : list (Z * Z);
  hs_batch_size : Z
}.

Notation answer := (res P2pError (list ExtendedHeader)).

(** Which task completes, and what the network answers to a request by height and amount. *)
Definition schedule := list (nat * (Z → Z → answer)).

(** ** The session *)

Definition session_new (range : BlockRange) : res P2pError HeaderSession :=
  len ← range_len range;
  Ok {| hs_to_fetch := Some range; hs_tasks := [];
        hs_batch_size := clamp (div_ceil len (Z.of_nat MAX_CONCURRENT_REQS))
                           MIN_AMOUNT_PER_REQ MAX_AMOUNT_PER_REQ |}.

(** The batch, and what is left in [range_to_fetch]. *)
Definition take_next_batch (range_to_fetch : option BlockRange) (limit : Z)
    : res P2pError (option BlockRange * option BlockRange) :=
  match checked_sub limit 1 with
  | None => Ok (None, range_to_fetch)
  | Some end_offset =>
      match range_to_fetch with
      | None => Ok (None, None)
      | Some to_fetch =>
          len ← range_len to_fetch;
          if len <=? limit then Ok (Some to_fetch, None)
          else
            last ← u64_sub (br_end to_fetch) limit;
            first ← u64_sub (br_end to_fetch) end_offset;
            Ok (Some (first ..= br_end to_fetch), Some (br_start to_fetch ..= last))
      end
  end.

(** The bounds of the batch are computed for the log line. *)
Definition send_request (s : HeaderSession) (height amount : Z) : res P2pError HeaderSession :=
  last ← u64_add height amount;
  _ ← u64_sub last 1;
  Ok {| hs_to_fetch := hs_to_fetch s; hs_tasks := hs_tasks s ++ [(height, amount)];
        hs_batch_size := hs_batch_size s |}.

Definition send_next_request (s : HeaderSession) : res P2pError HeaderSession :=
  '(batch, to_fetch) ← take_next_batch (hs_to_fetch s) (hs_batch_size s);
  let s := {| hs_to_fetch := to_fetch; hs_tasks := hs_tasks s;
              hs_batch_size := hs_batch_size s |} in
  match batch with
  | Some range =>
      amount ← range_len range;
      send_request s (br_start range) amount
  | None => Ok s
  end.

Fixpoint send_n_requests (n : nat) (s : HeaderSession) : res P2pError HeaderSession :=
  match n with O => Ok s | S n => s ← send_next_request s; send_n_requests n s end.

(** The body of the [while] loop. *)
Definition on_task_result (s : HeaderSession) (responses : list (list ExtendedHeader))
    (height requested_amount : Z) (r : answer)
    : res P2pError (HeaderSession * list (list ExtendedHeader)) :=
  match r with
  | Ok headers =>
      let headers_len := Z.of_nat (length headers) in
      let responses := if 0 <? headers_len then responses ++ [headers] else responses in
      if headers_len <? requested_amount then
        height ← u64_add height headers_len;
        amount ← u64_sub requested_amount headers_len;
        s ← send_request s height amount;
        Ok (s, responses)
      else
        s ← send_next_request s;
        Ok (s, responses)
  | Err (PHeaderEx _) =>
      s ← send_request s height requested_amount;
      Ok (s, responses)
  | Err e => Err e
  | Panic => Panic
  end.

(** [tasks.next()]: task [i] (counted from any start) completes and leaves the set. *)
Definition take_task (s : HeaderSession) (i : nat) : option ((Z * Z) * HeaderSession) :=
  let i := (i mod length (hs_tasks s))%nat in
  (λ t, (t, {| hs_to_fetch := hs_to_fetch s; hs_tasks := delete i (hs_tasks s);
               hs_batch_size := hs_batch_size s |})) <$> hs_tasks s !! i.

Fixpoint run_loop (sched : schedule) (s : HeaderSession) (responses : list (list ExtendedHeader))
    : option (res P2pError (list (list ExtendedHeader))) :=
  match hs_tasks s, sched with
  | [], _ => Some (Ok responses)
  | _ :: _, [] => None
  | _ :: _, (i, network) :: sched =>
      match take_task s i with
      | None => Some Panic
      | Some ((height, amount), s) =>
          match on_task_result s responses height amount (network height amount) with
          | Ok (s, responses) => run_loop sched s responses
          | Err e => Some (Err e)
          | Panic => Some Panic
          end
      end
  end.

(** The key of the final sort; empty spans aren't added in the receiving loop. *)
Definition span_height (span : list ExtendedHeader) : Z := default 0 (eh_height <$> head span).
Definition span_le (s1 s2 : list ExtendedHeader) : Prop := span_height s1 ≤ span_height s2.
#[global] Instance span_le_dec : RelDecision span_le.
Proof. intros ??. unfold span_le. apply _. Defined.
#[global] Instance span_le_trans : Transitive span_le.
Proof. intros ???. unfold span_le. lia. Qed.
#[global] Instance span_le_total : Total span_le.
Proof. intros ??. unfold span_le. lia. Qed.

Section Session.
Context `{UnstableSort}.

Definition session_run (sched : schedule) (s : HeaderSession) : option answer :=
  match send_n_requests MAX_CONCURRENT_REQS s with
  | Ok s =>
      match run_loop sched s [] with
      | Some (Ok responses) =>
          (** an empty span would make the key of the sort panic *)
          if bool_decide (Exists (eq []) responses) then Some Panic
          else Some (Ok (concat (usort span_le responses)))
      | Some (Err e) => Some (Err e)
      | Some Panic => Some Panic
      | None => None
      end
  | Err e => Some (Err e)
  | Panic => Some Panic
  end.

(** [HeaderSession::new] and [run], as the users of a session call them. *)
Definition session_fetch (sched : schedule) (range : BlockRange) : option answer :=
  match session_new range with
  | Ok s => session_run sched s
  | Err e => Some (Err e)
  | Panic => Some Panic
  end.

(** ** The users of a session in [P2p] *)

Definition get_unverified_header_range `{Tendermint} `{DahExternals}
    (now : nat → Z) (sched : schedule) (range : BlockRange) : option answer :=
  if range_is_empty range then Some (Err (PHeaderEx InvalidRequest)) else
  match session_fetch sched range with
  | Some (Ok headers) =>
      Some match headers with
           | [] => Err (PHeaderEx InvalidResponse)
           | head :: rest =>
               _ ← map_err (λ _, PHeaderEx InvalidResponse) (verify_adjacent_range now head rest);
               Ok headers
           end
  | r => r
  end.

Definition get_verified_headers_range `{Tendermint} `{DahExternals}
    (now : nat → Z) (sched : schedule) (from : ExtendedHeader) (amount : Z) : option answer :=
  match map_err (λ _, PHeaderEx InvalidRequest) (eh_validate from) with
  | Ok _ =>
      match height ← u64_add (eh_height from) 1;
            last ← u64_add height amount;
            last ← u64_sub last 1; Ok (height ..= last) with
      | Ok range =>
          match session_fetch sched range with
          | Some (Ok headers) =>
              Some (_ ← map_err (λ _, PHeaderEx InvalidResponse)
                          (verify_adjacent_range now from headers);
                    Ok headers)
          | r => r
          end
      | Err e => Some (Err e)
      | Panic => Some Panic
      end
  | Err e => Some (Err e)
  | Panic => Some Panic
  end.

(** ** Specification vocabulary *)

Definition heights_of (r : BlockRange) : list Z := seqZ (br_start r) (range_size r).
Definition task_heights (t : Z * Z) : list Z := seqZ t.1 t.2.

(** The heights that are still to be received. *)
Definition pending (s : HeaderSession) : list Z :=
  default [] (heights_of <$> hs_to_fetch s) ++ concat (task_heights <$> hs_tasks s).
Definition received (responses : list (list ExtendedHeader)) : list Z :=
  eh_height <$> concat responses.

Definition fetchable (r : BlockRange) : Prop := range_valid r ∧ br_end r < u64_max.
Definition task_ok (t : Z * Z) : Prop := 0 < t.1 ∧ 0 < t.2 ∧ t.1 + t.2 ≤ u64_max.

Section Spec.
(** What is known of every single header an answer carries. *)
Variable P : ExtendedHeader → Prop.

Definition span_ok (span : list ExtendedHeader) : Prop :=
  span ≠ [] ∧ eh_height <$> span = seqZ (span_height span) (Z.of_nat (length span)) ∧
  Forall P span.

(** The contract of the exchange client: an answer to a request by height holds no more
    headers than requested, at consecutive heights from the origin. *)
Definition answer_ok (height amount : Z) (r : answer) : Prop :=
  match r with
  | Ok headers => Z.of_nat (length headers) ≤ amount ∧
      eh_height <$> headers = seqZ height (Z.of_nat (length headers)) ∧ Forall P headers
  | Err _ => True
  | Panic => False
  end.
Definition conforming (entry : nat * (Z → Z → answer)) : Prop :=
  ∀ height amount, task_ok (height, amount) → answer_ok height amount (entry.2 height amount).

(** The network brings at least one header. *)
Definition productive (entry : nat * (Z → Z → answer)) : Prop :=
  ∀ height amount, task_ok (height, amount) →
    ∃ headers, entry.2 height amount = Ok headers ∧ headers ≠ [].

(** At least [n] entries of the schedule are productive. *)
Inductive progress : schedule → nat → Prop :=
| progress_nil : progress [] 0
| progress_skip x sched n : progress sched n → progress (x :: sched) n
| progress_productive x sched n :
    productive x → progress sched n → progress (x :: sched) (S n).

Record session_inv (range : BlockRange) (s : HeaderSession)
    (responses : list (list ExtendedHeader)) : Prop := {
  inv_to_fetch : ∀ r, hs_to_fetch s = Some r → fetchable r;
  inv_tasks : Forall task_ok (hs_tasks s);
  inv_batch : 1 ≤ hs_batch_size s;
  inv_spans : Forall span_ok responses;
  inv_cover : pending s ++ received responses ≡ₚ heights_of range;
  inv_concurrency : (length (hs_tasks s) ≤ MAX_CONCURRENT_REQS)%nat
}.

(** While there is something to fetch, a request is in flight. *)
Definition in_flight (s : HeaderSession) : Prop := hs_tasks s = [] → hs_to_fetch s = None.
End Spec.

(** ** Lemmas *)

Lemma range_size_valid r : range_valid r → range_size r = br_end r - br_start r + 1.
Proof. unfold range_size, range_valid. lia. Qed.
Lemma range_len_valid {E} r : range_valid r → @range_len E r = Ok (range_size r).
Proof. intros (?&?&?). apply range_len_Ok; lia. Qed.

(** The session [session_new] makes of a range. *)
Definition session_of (range : BlockRange) : HeaderSession :=
  {| hs_to_fetch := Some range; hs_tasks := [];
     hs_batch_size := clamp (div_ceil (range_size range) (Z.of_nat MAX_CONCURRENT_REQS))
                        MIN_AMOUNT_PER_REQ MAX_AMOUNT_PER_REQ |}.

Lemma take_next_batch_spec r limit : fetchable r → 1 ≤ limit →
  ∃ batch rest, take_next_batch (Some r) limit = Ok (Some batch, rest) ∧
    task_ok (br_start batch, range_size batch) ∧ (∀ r', rest = Some r' → fetchable r') ∧
    range_size batch ≤ limit ∧ @range_len P2pError batch = Ok (range_size batch) ∧
    default [] (heights_of <$> rest) ++ heights_of batch = heights_of r.
Proof.
  intros [Hv Hmax] Hlim. pose proof (range_size_valid r Hv) as Hlen. destruct Hv as (H1&H2&H3).
  unfold take_next_batch, checked_sub. destruct (Z.ltb_spec limit 1); [lia|].
  rewrite range_len_valid by done. cbv [mbind res_bind]. destruct (Z.leb_spec (range_size r) limit).
  { exists r, None. unfold task_ok; simpl. split; [done|]. split; [lia|]. split; [done|]. split; [lia|].
    split; [by apply range_len_valid|done]. }
  rewrite !u64_sub_Ok by lia. cbv [mbind res_bind].
  exists (br_end r - (limit - 1) ..= br_end r), (Some (br_start r ..= br_end r - limit)).
  set (batch := _ ..= br_end r).
  assert (range_size batch = limit) as Hb
    by (unfold batch, range_size; simpl; lia).
  assert (range_size (br_start r ..= br_end r - limit) = range_size r - limit) as Hr
    by (rewrite Hlen; unfold range_size; simpl; lia).
  split; [done|]. unfold task_ok, fetchable, range_valid; simpl. rewrite Hb.
  split; [lia|]. split; [intros r' [= <-]; simpl; lia|]. split; [done|].
  split; [rewrite <-Hb; apply range_len_Ok; simpl; lia|]. unfold heights_of. rewrite Hb, Hr. simpl.
  replace (br_end r - (limit - 1)) with (br_start r + (range_size r - limit)) by lia.
  rewrite <-seqZ_app by lia. f_equal. lia.
Qed.

Lemma send_request_ok s height amount : task_ok (height, amount) →
  send_request s height amount = Ok {| hs_to_fetch := hs_to_fetch s;
    hs_tasks := hs_tasks s ++ [(height, amount)]; hs_batch_size := hs_batch_size s |}.
Proof.
  unfold task_ok; simpl. intros (?&?&?). unfold send_request.
  rewrite u64_add_Ok by lia. cbv [mbind res_bind]. by rewrite u64_sub_Ok by lia.
Qed.

(** Sending the next request moves a batch from [to_fetch] to the tasks. *)
Lemma send_next_request_spec s :
  (∀ r, hs_to_fetch s = Some r → fetchable r) → 1 ≤ hs_batch_size s →
  ∃ s' new, send_next_request s = Ok s' ∧ hs_tasks s' = hs_tasks s ++ new ∧
    hs_batch_size s' = hs_batch_size s ∧ (∀ r, hs_to_fetch s' = Some r → fetchable r) ∧
    Forall task_ok new ∧ (length new ≤ 1)%nat ∧ (new = [] → hs_to_fetch s' = None) ∧
    pending s' ≡ₚ pending s.
Proof.
  intros Hf Hb. unfold send_next_request.
  destruct (hs_to_fetch s) as [r|] eqn:Hto.
  - destruct (take_next_batch_spec r (hs_batch_size s)) as (batch&rest&->&Ht&Hrest&_&Hlen&Hh);
      [by apply Hf|done|].
    cbv [mbind res_bind]. rewrite Hlen, send_request_ok by done.
    eexists _, [(br_start batch, range_size batch)]. split; [done|]. simpl.
    split; [done|]. split; [done|]. split; [done|]. split; [by constructor|].
    split; [lia|]. split; [done|].
    unfold pending; simpl. rewrite Hto. simpl. rewrite <-Hh, fmap_app, concat_app; simpl.
    unfold task_heights at 2; simpl. fold (heights_of batch). rewrite app_nil_r.
    rewrite <-(assoc_L (++)). f_equiv. apply Permutation_app_comm.
  - unfold take_next_batch, checked_sub. destruct (Z.ltb_spec (hs_batch_size s) 1); [lia|].
    exists s, []. cbv [mbind res_bind]. rewrite app_nil_r.
    split; [destruct s; simpl in *; congruence|]. rewrite Hto. repeat split; first [done|simpl; lia].
Qed.

Section Invariant.
Variable P : ExtendedHeader → Prop.

Lemma session_inv_new range : fetchable range →
  session_inv P range (session_of range) [].
Proof.
  intros Hf. constructor; simpl; try done.
  - by intros r [= <-].
  - unfold clamp, MIN_AMOUNT_PER_REQ, MAX_AMOUNT_PER_REQ. case_ifs; lia.
  - unfold pending, received; simpl. by rewrite !app_nil_r.
  - unfold MAX_CONCURRENT_REQS. lia.
Qed.

Lemma send_n_requests_spec range n s responses :
  session_inv P range s responses → (length (hs_tasks s) + n ≤ MAX_CONCURRENT_REQS)%nat →
  in_flight s ∨ n ≠ 0%nat →
  ∃ s', send_n_requests n s = Ok s' ∧ session_inv P range s' responses ∧ in_flight s' ∧
    pending s' ≡ₚ pending s.
Proof.
  revert s; induction n as [|n IH]; intros s Hinv Hlen Hfl; cbn [send_n_requests].
  { exists s. destruct Hfl; [|done]. split_and!; done. }
  destruct Hinv as [Hf Ht Hb Hsp Hcov Hc].
  destruct (send_next_request_spec s Hf Hb) as (s1&new&->&Htasks&Hbs&Hf1&Hnew&Hl1&Hn&Hp).
  cbv [mbind res_bind].
  assert (session_inv P range s1 responses) as Hinv1.
  { constructor; rewrite ?Htasks, ?Hbs, ?Hp; auto using Forall_app_2.
    rewrite length_app. lia. }
  destruct (IH s1) as (s'&?&?&?&Hp'); [done|rewrite Htasks, length_app; lia| |].
  { left. intros Hnil. rewrite Htasks in Hnil. apply app_nil in Hnil as [_ ->]. auto. }
  exists s'. rewrite Hp', Hp. done.
Qed.

Lemma seqZ_split h n k : 0 ≤ k ≤ n → seqZ h k ++ seqZ (h + k) (n - k) = seqZ h n.
Proof. intros. rewrite <-seqZ_app by lia. f_equal. lia. Qed.

Lemma seqZ_sorted h n : StronglySorted Z.le (seqZ h n).
Proof.
  destruct (Z.le_gt_cases n 0); [by rewrite seqZ_nil by lia; constructor|].
  revert h. replace n with (Z.of_nat (Z.to_nat n)) by lia.
  generalize (Z.to_nat n) as k. clear. induction k as [|k IH]; intros h; [constructor|].
  rewrite Nat2Z.inj_succ, seqZ_cons by lia. rewrite Z.pred_succ. constructor; [apply IH|].
  apply Forall_forall. intros x Hx. apply elem_of_seqZ in Hx. lia.
Qed.

(** Taking a task out of the set. *)
Lemma take_task_spec s i : hs_tasks s ≠ [] →
  ∃ t s', take_task s i = Some (t, s') ∧ hs_to_fetch s' = hs_to_fetch s ∧
    hs_batch_size s' = hs_batch_size s ∧ hs_tasks s ≡ₚ t :: hs_tasks s'.
Proof.
  intros Hne. unfold take_task.
  destruct (lookup_lt_is_Some_2 (hs_tasks s) (i mod length (hs_tasks s))) as [t Ht].
  { apply Nat.mod_upper_bound. by destruct (hs_tasks s). }
  rewrite Ht. simpl. eexists t, _. split; [done|]. simpl. repeat split.
  by apply delete_Permutation.
Qed.

Lemma pending_task s t s' : hs_to_fetch s' = hs_to_fetch s → hs_tasks s ≡ₚ t :: hs_tasks s' →
  pending s ≡ₚ task_heights t ++ pending s'.
Proof.
  intros Hto Hp. unfold pending. rewrite Hto, Hp. simpl. solve_Permutation.
Qed.

Lemma received_snoc responses span :
  received (responses ++ [span]) = received responses ++ (eh_height <$> span).
Proof. unfold received. by rewrite concat_app, fmap_app; simpl; rewrite app_nil_r. Qed.

(** Asking again for the [n] last heights of a task. *)
Lemma pending_resend s h n responses (all : list Z) prefix :
  prefix ++ seqZ h n ++ pending s ++ received responses ≡ₚ all →
  pending {| hs_to_fetch := hs_to_fetch s; hs_tasks := hs_tasks s ++ [(h, n)];
             hs_batch_size := hs_batch_size s |} ++ received responses ++ prefix ≡ₚ all.
Proof.
  intros <-. unfold pending; simpl. rewrite fmap_app, concat_app; simpl.
  rewrite app_nil_r. unfold task_heights at 2; simpl. solve_Permutation.
Qed.

Lemma span_ok_intro h headers : headers ≠ [] →
  eh_height <$> headers = seqZ h (Z.of_nat (length headers)) → Forall P headers →
  span_ok P headers.
Proof.
  intros Hne Hh HP. split; [done|]. split; [|done].
  destruct headers as [|e l]; [done|]. rewrite Hh. f_equal. unfold span_height; simpl.
  change (length (e :: l)) with (S (length l)) in Hh. rewrite Nat2Z.inj_succ in Hh.
  rewrite (seqZ_cons h) in Hh by lia. by injection Hh as ->.
Qed.

(** The responses after an answer: an empty one is not recorded. *)
Lemma record_response responses h headers :
  eh_height <$> headers = seqZ h (Z.of_nat (length headers)) → Forall P headers →
  Forall (span_ok P) responses →
  ∃ responses', (if 0 <? Z.of_nat (length headers) then responses ++ [headers] else responses)
      = responses' ∧ Forall (span_ok P) responses' ∧
    received responses' = received responses ++ seqZ h (Z.of_nat (length headers)).
Proof.
  intros Hh HP Hall. eexists; split; [done|].
  destruct (Z.ltb_spec 0 (Z.of_nat (length headers))) as [Hlt|Hge].
  - rewrite received_snoc, Hh. split; [|done]. apply Forall_app_2; [done|].
    constructor; [|done]. apply (span_ok_intro h); [|done..]. by intros ->.
  - destruct headers; [|simpl in Hge; lia]. simpl. by rewrite app_nil_r.
Qed.

(** The session after a request is sent again for what a task still misses. *)
Lemma resend_inv range s s1 h a h' a' responses :
  session_inv P range s responses → hs_to_fetch s1 = hs_to_fetch s →
  hs_batch_size s1 = hs_batch_size s → hs_tasks s ≡ₚ (h, a) :: hs_tasks s1 →
  task_ok (h', a') → ∀ responses', Forall (span_ok P) responses' →
  seqZ h' a' ++ received responses' ≡ₚ seqZ h a ++ received responses →
  ∃ s', send_request s1 h' a' = Ok s' ∧ session_inv P range s' responses' ∧ in_flight s'.
Proof.
  intros [Hf Ht Hb Hsp Hcov Hc] Hto Hbs Hp Hok responses' Hsp' Heq.
  rewrite send_request_ok by done. eexists; split; [done|]. split.
  - rewrite Hp in Ht. apply Forall_cons in Ht as [_ Ht].
    constructor; simpl; rewrite ?Hto, ?Hbs; auto.
    + apply Forall_app_2; [done|]. by constructor.
    + rewrite <-Hcov, (pending_task s (h, a) s1) by done. unfold pending at 1; simpl.
      rewrite fmap_app, concat_app; simpl. rewrite app_nil_r.
      transitivity (pending s1 ++ (seqZ h' a' ++ received responses')).
      { change (task_heights (h', a')) with (seqZ h' a'). unfold pending. rewrite Hto.
        solve_Permutation. }
      rewrite Heq. unfold task_heights; simpl. solve_Permutation.
    + rewrite length_app. apply Permutation_length in Hp. simpl in *. lia.
  - intros Hnil. simpl in Hnil. by apply app_nil in Hnil as [_ ?].
Qed.

Lemma on_task_result_spec range s h a s1 responses r :
  session_inv P range s responses → hs_to_fetch s1 = hs_to_fetch s →
  hs_batch_size s1 = hs_batch_size s → hs_tasks s ≡ₚ (h, a) :: hs_tasks s1 →
  task_ok (h, a) → answer_ok P h a r →
  match on_task_result s1 responses h a r with
  | Ok (s', responses') => session_inv P range s' responses' ∧ in_flight s' ∧
      length (received responses') =
        (length (received responses) + match r with Ok l => length l | _ => 0 end)%nat
  | Err e => r = Err e ∧ ∀ x, e ≠ PHeaderEx x
  | Panic => False
  end.
Proof.
  intros Hinv Hto Hbs Hp Hok Hr. pose proof Hinv as [Hf Ht Hb Hsp Hcov Hc].
  pose proof Hok as (Hh0&Ha0&Hmax); simpl in Hh0, Ha0, Hmax.
  unfold on_task_result. destruct r as [headers|e|]; [| |done].
  - destruct Hr as (Hlen&Hh&HP).
    destruct (record_response responses h headers Hh HP Hsp) as (responses'&->&Hsp'&Hrec).
    assert (length (received responses') = (length (received responses) + length headers)%nat)
      as Hcount by (rewrite Hrec, length_app, length_seqZ; lia).
    destruct (Z.ltb_spec (Z.of_nat (length headers)) a) as [Hlt|Hge].
    + rewrite u64_add_Ok by lia. cbv [mbind res_bind]. rewrite u64_sub_Ok by lia.
      destruct (resend_inv range s s1 h a (h + Z.of_nat (length headers))
        (a - Z.of_nat (length headers)) responses Hinv Hto Hbs Hp) with responses'
        as (s'&->&Hinv'&Hfl'); [unfold task_ok; simpl; lia|done| |done].
      rewrite Hrec, <-(seqZ_split h a (Z.of_nat (length headers))) by lia. solve_Permutation.
    + assert (a = Z.of_nat (length headers)) as -> by lia.
      destruct (send_next_request_spec s1) as (s'&new&->&Htasks&Hbs'&Hf'&Hnew&Hl1&Hn&Hp').
      { intros r'. rewrite Hto. apply Hf. }
      { by rewrite Hbs. }
      cbv [mbind res_bind]. rewrite Hp in Ht. apply Forall_cons in Ht as [_ Ht].
      split; [|split; [|done]].
      * constructor; rewrite ?Htasks, ?Hbs', ?Hbs; auto using Forall_app_2.
        -- rewrite <-Hcov, Hp', Hrec, (pending_task s _ s1 Hto Hp). unfold task_heights; simpl.
           solve_Permutation.
        -- apply Permutation_length in Hp. rewrite length_app. simpl in Hp. lia.
      * intros Hnil. rewrite Htasks in Hnil. apply app_nil in Hnil as [_ ->]. auto.
  - destruct e; try done.
    destruct (resend_inv range s s1 h a h a responses Hinv Hto Hbs Hp Hok responses Hsp)
      as (s'&->&?&?); [done|]. cbv [mbind res_bind]. split_and!; [done..|lia].
Qed.

Lemma inv_count range s responses : session_inv P range s responses →
  (length (pending s) + length (received responses) = length (heights_of range))%nat.
Proof. intros Hinv. rewrite <-(inv_cover _ _ _ _ Hinv), length_app. done. Qed.

Lemma pending_nonempty range s responses : session_inv P range s responses →
  hs_tasks s ≠ [] → (0 < length (pending s))%nat.
Proof.
  intros [_ Ht _ _ _ _] Hne. unfold pending. rewrite length_app.
  destruct (hs_tasks s) as [|[h a] l]; [done|]. apply Forall_cons in Ht as [(_&Ha&_) _].
  simpl in *. rewrite length_app. unfold task_heights; simpl. rewrite length_seqZ. lia.
Qed.

Lemma run_loop_spec range sched s responses :
  session_inv P range s responses → in_flight s → Forall (conforming P) sched →
  match run_loop sched s responses with
  | Some (Ok responses') => Forall (span_ok P) responses' ∧
      received responses' ≡ₚ heights_of range
  | Some (Err e) => (∀ x, e ≠ PHeaderEx x) ∧
      Exists (λ entry, ∃ h a, entry.2 h a = Err e) sched
  | Some Panic => False
  | None => ∀ n, progress sched n → (n < length (pending s))%nat
  end.
Proof.
  revert s responses; induction sched as [|[i network] sched IH]; intros s responses Hinv Hfl Hc;
    cbn [run_loop]; destruct (hs_tasks s) as [|t0 ts] eqn:Hts.
  1,3: split; [by destruct Hinv|]; pose proof (inv_cover _ _ _ _ Hinv) as Hcov;
    unfold pending in Hcov; rewrite Hts, (Hfl Hts) in Hcov; done.
  { intros n Hn. inversion Hn; subst. eapply pending_nonempty; [done|]. by rewrite Hts. }
  destruct (take_task_spec s i) as ([h a]&s1&->&Hto&Hbs&Hp); [by rewrite Hts|].
  apply Forall_cons in Hc as [Hx Hc].
  assert (task_ok (h, a)) as Hok
    by (pose proof (inv_tasks _ _ _ _ Hinv) as Ht; rewrite Hp in Ht; by apply Forall_cons in Ht as [? _]).
  pose proof (on_task_result_spec range s h a s1 responses _ Hinv Hto Hbs Hp Hok (Hx h a Hok))
    as Hstep. simpl in Hstep.
  destruct (on_task_result s1 responses h a (network h a)) as [[s' responses']|e|]; [| |done].
  - destruct Hstep as (Hinv'&Hfl'&Hcount). specialize (IH s' responses' Hinv' Hfl' Hc).
    destruct (run_loop sched s' responses') as [[?|?|]|]; [done| |done|].
    { destruct IH as [? ?]. split; [done|]. by apply Exists_cons_tl. }
    pose proof (inv_count _ _ _ Hinv) as Hn1. pose proof (inv_count _ _ _ Hinv') as Hn2.
    intros n Hn. inversion Hn as [|? ? ? Hn'|? ? m Hprod Hn']; subst.
    + specialize (IH n Hn'). lia.
    + specialize (IH m Hn'). destruct (Hprod h a Hok) as (l&Hl&Hne). simpl in Hl.
      rewrite Hl in Hcount. destruct l; [done|]. simpl in Hcount. lia.
  - destruct Hstep as [Hr He]. split; [done|]. apply Exists_cons_hd. by exists h, a.
Qed.

(** Consecutive runs that do not overlap, in the order of their first heights. *)
Lemma span_lookup span e : span_ok P span → e ∈ span →
  span_height span ≤ eh_height e ∧
  ∀ h, span_height span ≤ h ≤ eh_height e → h ∈ eh_height <$> span.
Proof.
  intros (_&Hh&_) He. assert (eh_height e ∈ eh_height <$> span) as Hin
    by (apply list_elem_of_fmap; eauto).
  rewrite Hh in Hin |- *. apply elem_of_seqZ in Hin. split; [lia|].
  intros h Hle. apply elem_of_seqZ. lia.
Qed.

Lemma span_first span : span_ok P span → span_height span ∈ eh_height <$> span.
Proof.
  intros (Hne&_). destruct span as [|e l]; [done|]. simpl. apply elem_of_cons. by left.
Qed.

Lemma list_elem_of_concat {A} (ls : list (list A)) x :
  x ∈ concat ls ↔ ∃ l, x ∈ l ∧ l ∈ ls.
Proof.
  setoid_rewrite list_elem_of_In. rewrite in_concat. naive_solver.
Qed.

Lemma sorted_spans spans : Forall (span_ok P) spans → StronglySorted span_le spans →
  NoDup (received spans) → StronglySorted Z.le (received spans).
Proof.
  intros Hall Hs. induction Hs as [|span spans Hs IH Hspan]; [constructor|].
  apply Forall_cons in Hall as [Hok Hall]. unfold received; simpl. rewrite fmap_app.
  intros (Hnd1&Hdisj&Hnd2)%NoDup_app. apply StronglySorted_app_2.
  - intros x1 x2 Hx1 Hx2. destruct (Z.le_gt_cases x1 x2) as [|Hgt]; [done|exfalso].
    apply list_elem_of_fmap in Hx1 as (e1&->&He1). apply list_elem_of_fmap in Hx2 as (e2&->&He2).
    apply list_elem_of_concat in He2 as (span'&He2&Hspan').
    eapply Forall_forall in Hspan; [|done]. unfold span_le in Hspan.
    pose proof (proj1 (Forall_forall _ _) Hall _ Hspan') as Hok'.
    destruct (span_lookup _ _ Hok He1) as [_ Hin1]. destruct (span_lookup _ _ Hok' He2) as [Hle2 _].
    apply (Hdisj (span_height span')); [apply Hin1; lia|].
    apply list_elem_of_fmap. pose proof (span_first _ Hok') as Hf.
    apply list_elem_of_fmap in Hf as (e&He&Hine). exists e. split; [done|].
    apply list_elem_of_concat. eauto.
  - destruct Hok as (_&Hh&_). rewrite Hh. apply seqZ_sorted.
  - by apply IH.
Qed.

(** Joining the answers: the heights in order, without gaps or duplicates. *)
Lemma join_responses h n responses : Forall (span_ok P) responses →
  received responses ≡ₚ seqZ h n →
  eh_height <$> concat (usort span_le responses) = seqZ h n ∧
  Forall P (concat (usort span_le responses)).
Proof.
  intros Hall Hrec. pose proof (usort_perm span_le responses) as Hp.
  assert (Forall (span_ok P) (usort span_le responses)) as Hall' by (by rewrite Hp).
  assert (received (usort span_le responses) ≡ₚ seqZ h n) as Hrec'
    by (unfold received in *; by rewrite Hp).
  split.
  - apply (StronglySorted_unique Z.le); [|apply seqZ_sorted|done].
    apply sorted_spans; [done|apply usort_sorted; apply _|]. rewrite Hrec'. apply NoDup_seqZ.
  - apply Forall_forall. intros e (l&He&Hl)%list_elem_of_concat.
    eapply Forall_forall in Hall' as (_&_&HP); [|done]. by eapply Forall_forall in HP.
Qed.

Lemma session_fetch_spec range sched : fetchable range → Forall (conforming P) sched →
  match session_fetch sched range with
  | Some (Ok headers) => eh_height <$> headers = heights_of range ∧ Forall P headers
  | Some (Err e) => (∀ x, e ≠ PHeaderEx x) ∧
      Exists (λ entry, ∃ h a, entry.2 h a = Err e) sched
  | Some Panic => False
  | None => ∀ n, progress sched n → Z.of_nat n < range_size range
  end.
Proof.
  intros Hf Hc. unfold session_fetch, session_new. rewrite range_len_valid by apply Hf. cbn [mbind res_bind].
  fold (session_of range). unfold session_run.
  destruct (send_n_requests_spec range MAX_CONCURRENT_REQS (session_of range) [])
    as (s'&->&Hinv&Hfl&Hp); [by apply session_inv_new|simpl; lia|by right|].
  pose proof (run_loop_spec range sched s' [] Hinv Hfl Hc) as Hrun.
  destruct (run_loop sched s' []) as [[responses|e|]|]; [|done..|].
  - destruct Hrun as [Hall Hrec]. rewrite bool_decide_eq_false_2.
    { by apply join_responses. }
    intros (l&Hl&<-)%Exists_exists. eapply Forall_forall in Hall as [? _]; done.
  - intros n Hn. specialize (Hrun n Hn). pose proof (inv_count _ _ _ Hinv) as Hcount.
    unfold received, heights_of in Hcount; simpl in Hcount. rewrite length_seqZ in Hcount. lia.
Qed.
End Invariant.

(** ** Theorems *)

(** C8. A session fetches its range: whatever order the requests complete in, and with
    answers that may be short or fail with exchange errors (as long as they hold what the
    client lets through), a session for a non-empty range never panics; if it returns
    headers, they are the headers of exactly the requested heights, in ascending order,
    without gaps or duplicates, and each is one the network sent; it fails only with an
    error of the network that is not an exchange error; and it still waits only as long as
    fewer answers with headers came in than the range has heights, so it terminates. *)
Theorem header_session_fetches_range (P : ExtendedHeader → Prop) range sched :
  range_valid range → br_end range < u64_max → Forall (conforming P) sched →
  match session_fetch sched range with
  | Some (Ok headers) => eh_height <$> headers = heights_of range ∧ Forall P headers
  | Some (Err e) => (∀ x, e ≠ PHeaderEx x) ∧
      Exists (λ entry, ∃ h a, entry.2 h a = Err e) sched
  | Some Panic => False
  | None => ∀ n, progress sched n → Z.of_nat n < range_size range
  end.
Proof. intros Hv Hmax. by apply session_fetch_spec. Qed.

Section Users.
Context `{!Tendermint} `{!DahExternals}.

(** The answers of the exchange client meet the contract of the session. *)
Lemma client_answer_ok h a responses headers : 0 < h →
  decode_and_verify_responses (with_origin h a) responses = Ok headers →
  answer_ok (λ e, eh_validate e = Ok tt) h a (Ok headers).
Proof.
  intros Hh Hr. apply accepted_answer in Hr as (Hlen&Hall&Hheights); [|done].
  done.
Qed.

(** The clock can be read, and the heights leave room for their successors. *)
Lemma session_heights_bounded range headers : range_valid range → br_end range < i64_max →
  eh_height <$> headers = heights_of range → Forall (λ e, 0 ≤ eh_height e < i64_max) headers.
Proof.
  intros Hv Hmax Hh. apply Forall_forall. intros e He.
  assert (eh_height e ∈ heights_of range) as Hin
    by (rewrite <-Hh; apply list_elem_of_fmap; eauto).
  apply elem_of_seqZ in Hin. rewrite range_size_valid in Hin by done. destruct Hv. lia.
Qed.

(** [get_unverified_header_range] on a non-empty range: it never panics; what it
    returns is the whole range in order, of validated headers that are linked to each
    other by hash and validator set; an exchange error it reports can only be
    [InvalidResponse], any other error is one of the network. *)
Theorem get_unverified_header_range_correct `{!TendermintSpec} now range sched :
  range_valid range → br_end range < i64_max → clock_ok now →
  Forall (conforming (λ e, eh_validate e = Ok tt)) sched →
  match get_unverified_header_range now sched range with
  | Some (Ok headers) => eh_height <$> headers = heights_of range ∧
      Forall (λ e, eh_validate e = Ok tt) headers ∧
      ∃ head rest, headers = head :: rest ∧ linked head rest
  | Some (Err e) => e = PHeaderEx InvalidResponse ∨
      (∀ x, e ≠ PHeaderEx x) ∧ Exists (λ entry, ∃ h a, entry.2 h a = Err e) sched
  | Some Panic => False
  | None => ∀ n, progress sched n → Z.of_nat n < range_size range
  end.
Proof.
  intros Hv Hmax Hclock Hc. unfold get_unverified_header_range.
  assert (range_is_empty range = false) as -> by range_tac.
  assert (fetchable range) as Hf by (split; [done|unfold i64_max, u64_max in *; lia]).
  pose proof (session_fetch_spec (λ e, eh_validate e = Ok tt) range sched Hf Hc) as Hrun.
  destruct (session_fetch sched range) as [[headers|e|]|];
    [|by right|done|done].
  destruct Hrun as [Hh Hval].
  destruct headers as [|head rest]; [by left|].
  pose proof (verify_adjacent_range_no_panic now head rest Hclock
    (session_heights_bounded range _ Hv Hmax Hh)) as Hnp.
  destruct (verify_adjacent_range now head rest) as [[]|e|] eqn:Hver; simpl; [|by left|done].
  split; [done|]. split; [done|]. exists head, rest. split; [done|].
  by apply adjacent_range_linked in Hver as [? _].
Qed.

(** [get_verified_headers_range] from a validated header, for a positive amount: it
    never panics, and what it returns are exactly the [amount] headers that follow [from],
    validated and linked to [from] and to each other. *)
Theorem get_verified_headers_range_correct `{!TendermintSpec} now from amount sched :
  eh_validate from = Ok tt → 0 ≤ eh_height from → 0 < amount →
  eh_height from + amount < i64_max → clock_ok now →
  Forall (conforming (λ e, eh_validate e = Ok tt)) sched →
  match get_verified_headers_range now sched from amount with
  | Some (Ok headers) => eh_height <$> headers = seqZ (eh_height from + 1) amount ∧
      Forall (λ e, eh_validate e = Ok tt) headers ∧ linked from headers
  | Some (Err e) => e = PHeaderEx InvalidResponse ∨
      (∀ x, e ≠ PHeaderEx x) ∧ Exists (λ entry, ∃ h a, entry.2 h a = Err e) sched
  | Some Panic => False
  | None => ∀ n, progress sched n → Z.of_nat n < amount
  end.
Proof.
  intros Hfrom Hpos Ha Hmax Hclock Hc. unfold get_verified_headers_range. rewrite Hfrom.
  cbn [map_err]. unfold i64_max in *.
  rewrite !u64_add_Ok by (unfold u64_max; lia). cbv [mbind res_bind].
  rewrite u64_add_Ok by (unfold u64_max; lia). rewrite u64_sub_Ok by lia.
  set (range := eh_height from + 1 ..= eh_height from + 1 + amount - 1).
  assert (range_valid range) as Hv by (unfold range, range_valid, u64_max; simpl; lia).
  assert (fetchable range) as Hf by (split; [done|unfold range, u64_max; simpl; lia]).
  assert (heights_of range = seqZ (eh_height from + 1) amount) as Hr.
  { unfold heights_of. rewrite range_size_valid by done. simpl. f_equal. lia. }
  assert (range_size range = amount) as Hlen by (rewrite range_size_valid by done; simpl; lia).
  pose proof (session_fetch_spec (λ e, eh_validate e = Ok tt) range sched Hf Hc) as Hrun.
  destruct (session_fetch sched range) as [[headers|e|]|];
    [|by right|done|by rewrite <-Hlen].
  destruct Hrun as [Hh Hval].
  assert (Forall (λ e, 0 ≤ eh_height e < i64_max) (from :: headers)) as Hb.
  { constructor; [unfold i64_max; lia|]. apply (session_heights_bounded range); [done| |done].
    unfold range, i64_max; simpl. lia. }
  pose proof (verify_adjacent_range_no_panic now from headers Hclock Hb) as Hnp.
  destruct (verify_adjacent_range now from headers) as [[]|e|] eqn:Hver; simpl; [|by left|done].
  rewrite <-Hr. split_and!; [done..|]. by apply adjacent_range_linked in Hver as [? _].
Qed.

Lemma run_loop_zero sched h batch responses : 0 < h < u64_max →
  Forall (λ entry, ∀ h a e, reject_request false (with_origin h a) = Some e →
    entry.2 h a = Err (PHeaderEx e)) sched →
  run_loop sched {| hs_to_fetch := None; hs_tasks := [(h, 0)]; hs_batch_size := batch |} responses
    = None.
Proof.
  intros Hh. induction 1 as [|[i network] sched Hx _ IH]; [done|]. cbn [run_loop hs_tasks].
  unfold take_task. cbn [hs_tasks length]. rewrite Nat.mod_1_r. simpl.
  assert (network h 0 = Err (PHeaderEx InvalidRequest)) as -> by (by apply (Hx h 0)). unfold on_task_result, send_request; simpl.
  rewrite u64_add_Ok by lia. cbv [mbind res_bind]. rewrite u64_sub_Ok by lia. apply IH.
Qed.

(** Asking for zero headers never returns: [get_verified_headers_range] does not
    check the amount, the session turns the empty range into a request for zero headers,
    the exchange client rejects every such request at once as invalid, and the session
    takes that for a failure to be retried, for ever. *)
Theorem get_verified_headers_range_zero_hangs now from sched :
  eh_validate from = Ok tt → 0 < eh_height from < i64_max →
  Forall (λ entry, ∀ h a e, reject_request false (with_origin h a) = Some e →
    entry.2 h a = Err (PHeaderEx e)) sched →
  get_verified_headers_range now sched from 0 = None.
Proof.
  intros Hfrom Hh Hs. unfold get_verified_headers_range. rewrite Hfrom. cbn [map_err].
  unfold i64_max in Hh. rewrite u64_add_Ok by (unfold u64_max; lia). cbv [mbind res_bind].
  rewrite u64_add_Ok by (unfold u64_max; lia). rewrite u64_sub_Ok by lia.
  set (h := eh_height from + 1).
  set (range := h ..= h + 0 - 1).
  assert (range_size range = 0) as Hlen
    by (unfold range, range_size; simpl; lia).
  assert (@range_len P2pError range = Ok 0) as Hlen'.
  { rewrite <-Hlen. apply range_len_Ok; unfold range, h, u64_max; simpl; lia. }
  assert (br_start range = h) as Hst by done. clearbody range.
  unfold session_fetch, session_new. rewrite Hlen'. cbn [mbind res_bind]. rewrite <-Hlen. fold (session_of range).
  assert (send_n_requests MAX_CONCURRENT_REQS (session_of range)
    = Ok {| hs_to_fetch := None; hs_tasks := [(h, 0)]; hs_batch_size := 8 |}) as Hsend.
  { assert (send_next_request (session_of range)
      = Ok {| hs_to_fetch := None; hs_tasks := [(h, 0)]; hs_batch_size := 8 |}) as Hfirst.
    { unfold session_of, send_next_request, take_next_batch. rewrite Hlen.
      change (clamp _ _ _) with 8. cbn [hs_to_fetch hs_batch_size hs_tasks].
      change (checked_sub 8 1) with (Some 7). cbv iota. rewrite Hlen'. cbv [mbind res_bind].
      change (0 <=? 8) with true. cbv iota. rewrite Hlen', Hst.
      unfold send_request. rewrite u64_add_Ok by (unfold h, u64_max; lia).
      cbv [mbind res_bind]. by rewrite u64_sub_Ok by (unfold h; lia). }
    unfold MAX_CONCURRENT_REQS. change (send_n_requests 8 (session_of range))
      with (send_next_request (session_of range) ≫= send_n_requests 7).
    by rewrite Hfirst. }
  unfold session_run. rewrite Hsend, run_loop_zero; [done| |done]. unfold h, u64_max. lia.
Qed.
End Users.
End Session.

(** ** A concrete session *)

#[local] Existing Instances toy_DahExternals toy_Tendermint toy_TendermintSpec
  merge_sort_UnstableSort.

(** A network with three headers that sends one at a time. *)
Definition toy_network (height amount : Z) : answer :=
  if height =? 1 then Ok [toy_1] else if height =? 2 then Ok [toy_2]
  else if height =? 3 then Ok [toy_3] else Err (PHeaderEx HeaderNotFound).
Definition toy_failing (height amount : Z) : answer := Err (PHeaderEx OutboundFailure).
Definition toy_sched : schedule :=
  [(0%nat, toy_failing); (1%nat, toy_network); (0%nat, toy_network); (5%nat, toy_network)].

Lemma toy_1_ok : eh_validate toy_1 = Ok tt. Proof. vm_compute. reflexivity. Qed.
Lemma toy_2_ok : eh_validate toy_2 = Ok tt. Proof. vm_compute. reflexivity. Qed.
Lemma toy_3_ok : eh_validate toy_3 = Ok tt. Proof. vm_compute. reflexivity. Qed.

Lemma toy_network_conforming i : conforming (λ e, eh_validate e = Ok tt) (i, toy_network).
Proof.
  intros h a (_&Ha&_). simpl in Ha |- *. unfold toy_network.
  destruct (Z.eqb_spec h 1) as [->|_].
  { split; [simpl length; lia|]. split; [reflexivity|]. constructor; [exact toy_1_ok|constructor]. }
  destruct (Z.eqb_spec h 2) as [->|_].
  { split; [simpl length; lia|]. split; [reflexivity|]. constructor; [exact toy_2_ok|constructor]. }
  destruct (Z.eqb_spec h 3) as [->|_]; [|exact I].
  split; [simpl length; lia|]. split; [reflexivity|]. constructor; [exact toy_3_ok|constructor].
Qed.

Lemma toy_sched_conforming : Forall (conforming (λ e, eh_validate e = Ok tt)) toy_sched.
Proof.
  apply Forall_cons; split; [intros h a _; exact I|].
  do 3 (apply Forall_cons; split; [apply toy_network_conforming|]). constructor.
Qed.

Lemma toy_session_run :
  session_fetch toy_sched (1 ..= 3) = Some (Ok [toy_1; toy_2; toy_3]).
Proof. vm_compute. reflexivity. Qed.

Lemma header_session_fetches_range_witness :
  session_fetch toy_sched (1 ..= 3) = Some (Ok [toy_1; toy_2; toy_3]) ∧
  eh_height <$> [toy_1; toy_2; toy_3] = heights_of (1 ..= 3).
Proof.
  split; [exact toy_session_run|].
  pose proof (header_session_fetches_range (λ e, eh_validate e = Ok tt) (1 ..= 3) toy_sched) as Hthm.
  rewrite toy_session_run in Hthm. apply Hthm.
  - unfold range_valid, u64_max; simpl. lia.
  - unfold u64_max; simpl. lia.
  - exact toy_sched_conforming.
Defined.

Lemma toy_range_fetched :
  get_unverified_header_range (λ _, 1000) toy_sched (1 ..= 3)
    = Some (Ok [toy_1; toy_2; toy_3]).
Proof. vm_compute. reflexivity. Qed.

Lemma get_unverified_header_range_correct_witness :
  get_unverified_header_range (λ _, 1000) toy_sched (1 ..= 3)
    = Some (Ok [toy_1; toy_2; toy_3]) ∧
  ∃ head rest, [toy_1; toy_2; toy_3] = head :: rest ∧ linked head rest.
Proof.
  split; [exact toy_range_fetched|].
  pose proof (get_unverified_header_range_correct (λ _, 1000) (1 ..= 3) toy_sched) as Hthm.
  rewrite toy_range_fetched in Hthm. apply Hthm.
  - unfold range_valid, u64_max; simpl. lia.
  - unfold i64_max; simpl. lia.
  - exact toy_clock_ok.
  - exact toy_sched_conforming.
Defined.

Lemma toy_continuation_fetched :
  get_verified_headers_range (λ _, 1000) toy_sched toy_1 2 = Some (Ok [toy_2; toy_3]).
Proof. vm_compute. reflexivity. Qed.

Lemma get_verified_headers_range_correct_witness :
  get_verified_headers_range (λ _, 1000) toy_sched toy_1 2 = Some (Ok [toy_2; toy_3]) ∧
  linked toy_1 [toy_2; toy_3].
Proof.
  split; [exact toy_continuation_fetched|].
  pose proof (get_verified_headers_range_correct (λ _, 1000) toy_1 2 toy_sched toy_1_ok) as Hthm.
  rewrite toy_continuation_fetched in Hthm. apply Hthm.
  - done.
  - lia.
  - vm_compute. reflexivity.
  - exact toy_clock_ok.
  - exact toy_sched_conforming.
Defined.

(** A client that answers requests it rejects, and never gets any other answer. *)
Definition toy_rejecting (height amount : Z) : answer :=
  Err (PHeaderEx match reject_request false (with_origin height amount) with
                 | Some e => e
                 | None => OutboundFailure
                 end).

Lemma get_verified_headers_range_zero_hangs_witness :
  get_verified_headers_range (λ _, 1000) (replicate 100 (0%nat, toy_rejecting)) toy_1 0 = None.
Proof.
  apply get_verified_headers_range_zero_hangs.
  - exact toy_1_ok.
  - split; vm_compute; reflexivity.
  - apply Forall_replicate. intros h a e He. simpl. unfold toy_rejecting. by rewrite He.
Defined.
