(* ===== verification/Syncer.v ===== *)
(** * The syncer (src/node/src/syncer.rs)

    The component that keeps the store up to date with the network: it learns the head of
    the network, computes which headers are missing, has one batch at a time fetched, and
    inserts what comes back.  The worker is a record, its handlers are functions on it, and
    the two event loops are given by what one iteration does on one event.

    The clock, the number of connected peers and the answers of the network come with the
    events.  [FusedReusableFuture] is an option: [None] is a terminated future, [Some r] one
    that fetches the range [r].  The error texts and durations of the events, and the log
    output, are not represented. *)

From S2P Require Import Prelude Consts BlockRanges Nmt Merkle Dah Header ShwapIds Store.
From S2P Require Import InMemoryStore HeaderEx HeaderSession.

(** ** Data *)

Inductive SyncerError :=
| SynP2p (e : P2pError)
| SynStore (e : StoreError)
| SynWorkerDied
| SynChannelClosedUnexpectedly.

Definition syncer_error_is_fatal (e : SyncerError) : bool :=
  match e with
  | SynP2p e => p2p_error_is_fatal e
  | SynStore e => store_error_is_fatal e
  | SynWorkerDied | SynChannelClosedUnexpectedly => true
  end.

(** The events of the node that the syncer publishes. *)
Inductive NodeEvent :=
| FetchingHeadHeaderStarted
| FetchingHeadHeaderFinished (height : Z)
| FetchingHeadersStarted (from_height to_height : Z)
| FetchingHeadersFinished (from_height to_height : Z)
| FetchingHeadersFailed (from_height to_height : Z)
| AddedHeaderFromHeaderSub (height : Z).

Record Worker (S : Type) := {
  w_store : S;
  (** [header_sub_rx] is set *)
  w_header_sub : bool;
  w_subjective_head_height : option Z;
  w_batch_size : Z;
  (** [ongoing_batch.range] and [ongoing_batch.task] *)
  w_ongoing : option BlockRange;
  w_task : option BlockRange;
  w_syncing_window : Z;
  (** what was sent on [event_pub] *)
  w_events : list NodeEvent
}.
Arguments w_store {S} _.
Arguments w_header_sub {S} _.
Arguments w_subjective_head_height {S} _.
Arguments w_batch_size {S} _.
Arguments w_ongoing {S} _.
Arguments w_task {S} _.
Arguments w_syncing_window {S} _.
Arguments w_events {S} _.

(** ** What to fetch *)

Definition calculate_range_to_fetch (subjective_head_height : Z) (store_headers : BlockRanges)
    (limit : Z) : res SyncerError BlockRange :=
  match reverse store_headers with
  | [] => Ok (truncate_right (1 ..= subjective_head_height) limit)
  | store_head_range :: store_headers_iter =>
      if br_end store_head_range <? subjective_head_height then
        start ← u64_add (br_end store_head_range) 1;
        Ok (truncate_right (start ..= subjective_head_height) limit)
      else
        let penultimate_range_end := default 0 (br_end <$> head store_headers_iter) in
        start ← u64_add penultimate_range_end 1;
        Ok (truncate_left (start ..= saturating_sub (br_start store_head_range) 1) limit)
  end.

Section Worker.
Context {S : Type} `{!Store S}.
(** [Time::checked_sub] of tendermint. *)
Context (time_checked_sub : Z → Z → option Z).

Definition set_events (w : Worker S) (evs : list NodeEvent) : Worker S :=
  {| w_store := w_store w; w_header_sub := w_header_sub w;
     w_subjective_head_height := w_subjective_head_height w; w_batch_size := w_batch_size w;
     w_ongoing := w_ongoing w; w_task := w_task w; w_syncing_window := w_syncing_window w;
     w_events := evs |}.
Definition send_event (w : Worker S) (ev : NodeEvent) : Worker S :=
  set_events w (w_events w ++ [ev]).
Definition set_store (w : Worker S) (s : S) : Worker S :=
  {| w_store := s; w_header_sub := w_header_sub w;
     w_subjective_head_height := w_subjective_head_height w; w_batch_size := w_batch_size w;
     w_ongoing := w_ongoing w; w_task := w_task w; w_syncing_window := w_syncing_window w;
     w_events := w_events w |}.
Definition set_ongoing (w : Worker S) (range task : option BlockRange) : Worker S :=
  {| w_store := w_store w; w_header_sub := w_header_sub w;
     w_subjective_head_height := w_subjective_head_height w; w_batch_size := w_batch_size w;
     w_ongoing := range; w_task := task; w_syncing_window := w_syncing_window w;
     w_events := w_events w |}.
Definition set_header_sub (w : Worker S) (b : bool) : Worker S :=
  {| w_store := w_store w; w_header_sub := b;
     w_subjective_head_height := w_subjective_head_height w; w_batch_size := w_batch_size w;
     w_ongoing := w_ongoing w; w_task := w_task w; w_syncing_window := w_syncing_window w;
     w_events := w_events w |}.

Definition worker_new (store : S) (batch_size syncing_window : Z) : Worker S :=
  {| w_store := store; w_header_sub := false; w_subjective_head_height := None;
     w_batch_size := batch_size; w_ongoing := None; w_task := None;
     w_syncing_window := syncing_window; w_events := [] |}.

(** ** Handlers *)

Definition set_subjective_head_height (w : Worker S) (height : Z) : Worker S :=
  let set :=
    {| w_store := w_store w; w_header_sub := w_header_sub w;
       w_subjective_head_height := Some height; w_batch_size := w_batch_size w;
       w_ongoing := w_ongoing w; w_task := w_task w; w_syncing_window := w_syncing_window w;
       w_events := w_events w |} in
  match w_subjective_head_height w with
  | Some old_height => if height <=? old_height then w else set
  | None => set
  end.

Definition syncing_info (w : Worker S) : res SyncerError (BlockRanges * Z) :=
  stored_headers ← map_err SynStore (st_get_stored_header_ranges (w_store w));
  Ok (stored_headers, default 0 (w_subjective_head_height w)).

(** [report] and [on_cmd] only read. *)
Definition report (w : Worker S) : res SyncerError unit := _ ← syncing_info w; Ok tt.

Definition on_header_sub_message (now : nat → Z) (w : Worker S) (new_head : ExtendedHeader)
    : res SyncerError (Worker S) :=
  let new_head_height := eh_height new_head in
  let w := set_subjective_head_height w new_head_height in
  match st_head_height (w_store w) with
  | Ok store_head_height =>
      next ← u64_add store_head_height 1;
      if next =? new_head_height then
        match st_insert now (w_store w) [new_head] with
        | (Ok _, s) => Ok (send_event (set_store w s) (AddedHeaderFromHeaderSub new_head_height))
        | (Err _, s) => Ok (set_store w s)
        | (Panic, _) => Panic
        end
      else Ok w
  | Err _ => Ok w
  | Panic => Panic
  end.

(** [Time::after] compares strictly; the unix epoch is 0. *)
Definition in_syncing_window (now : Z) (w : Worker S) (header : ExtendedHeader) : bool :=
  let syncing_window_start := default 0 (time_checked_sub now (w_syncing_window w)) in
  syncing_window_start <? eh_time header.

(** The last part of [fetch_next_batch]. *)
Definition start_batch (w : Worker S) (next_batch : BlockRange) : Worker S :=
  set_ongoing (send_event w (FetchingHeadersStarted (br_start next_batch) (br_end next_batch)))
    (Some next_batch) (Some next_batch).

(** [now] is read when the header above the batch is known; a violated [debug_assert]
    panics. *)
Definition fetch_next_batch (now : Z) (num_connected_peers : Z) (w : Worker S)
    : res SyncerError (Worker S) :=
  if negb (bool_decide (w_ongoing w = None ↔ w_task w = None)) then Panic else
  if bool_decide (is_Some (w_task w)) then Ok w else
  if num_connected_peers =? 0 then Ok w else
  match w_subjective_head_height w with
  | None => Ok w
  | Some subjective_head_height =>
      store_ranges ← map_err SynStore (st_get_stored_header_ranges (w_store w));
      next_batch ← calculate_range_to_fetch subjective_head_height store_ranges (w_batch_size w);
      if range_is_empty next_batch then Ok w else
      next ← u64_add (br_end next_batch) 1;
      match st_get_by_height (w_store w) next with
      | Ok known_header =>
          if negb (in_syncing_window now w known_header) then Ok w else Ok (start_batch w next_batch)
      | Err NotFound => Ok (start_batch w next_batch)
      | Err e => Err (SynStore e)
      | Panic => Panic
      end
  end.

(** The task has completed with [r], so it is terminated. *)
Definition on_fetch_next_batch_result (now : nat → Z) (w : Worker S) (r : answer)
    : res SyncerError (Worker S) :=
  range ← expect (w_ongoing w);
  let w := set_ongoing w None None in
  let from_height := br_start range in
  let to_height := br_end range in
  match r with
  | Panic => Panic
  | Err e =>
      if p2p_error_is_fatal e then Err (SynP2p e)
      else Ok (send_event w (FetchingHeadersFailed from_height to_height))
  | Ok headers =>
      match st_insert now (w_store w) headers with
      | (Panic, _) => Panic
      | (Err e, s) =>
          if store_error_is_fatal e then Err (SynStore e)
          else Ok (send_event (send_event (set_store w s) (FetchingHeadersFailed from_height to_height))
                     (FetchingHeadersFinished from_height to_height))
      | (Ok _, s) =>
          Ok (send_event (set_store w s) (FetchingHeadersFinished from_height to_height))
      end
  end.

(** ** Initialization *)

(** One [try_init] once a trusted peer is connected: [network_head] is the answer to
    [get_head_header].  The store after it, and the result. *)
Definition try_init (now : nat → Z) (store : S) (network_head : res P2pError ExtendedHeader)
    : res SyncerError ExtendedHeader * S :=
  match network_head with
  | Panic => (Panic, store)
  | Err e => (Err (SynP2p e), store)
  | Ok network_head =>
      let insert :=
        match st_insert now store [network_head] with
        | (Ok _, s) => (Ok network_head, s)
        | (Err e, s) => (Err (SynStore e), s)
        | (Panic, s) => (Panic, s)
        end in
      match st_get_head store with
      | Ok store_head =>
          if bool_decide (eh_hash store_head ≠ eh_hash network_head) then insert
          else (Ok network_head, store)
      | Err NotFound => insert
      | Err e => (Err (SynStore e), store)
      | Panic => (Panic, store)
      end
  end.

(** What [connecting_event_loop] does when [try_init_task] is done; [init] is the result of
    [init_header_sub]. *)
Definition on_initialized (w : Worker S) (network_head : ExtendedHeader)
    (init : res P2pError unit) : res SyncerError (Worker S) :=
  let height := eh_height network_head in
  let w := set_subjective_head_height w height in
  _ ← map_err SynP2p init;
  Ok (send_event (set_header_sub w true) (FetchingHeadHeaderFinished height)).

(** ** The event loop of a connected syncer *)

Inductive ConnectedEvent :=
| CeCancelled
| CePeersChanged
| CeReport
| CeHeaderSub (header : option ExtendedHeader)
| CeCmd
| CeBatch (r : answer).

(** The surroundings of an event: the clock while it is handled, and the number of
    connected peers. *)
Record Env := { env_now : nat → Z; env_peers : Z }.

(** One iteration of the loop; [false]: the loop is left. *)
Definition connected_step (w : Worker S) (env : Env) (ev : ConnectedEvent)
    : res SyncerError (Worker S * bool) :=
  match ev with
  | CeCancelled => Ok (w, false)
  | CePeersChanged => Ok (w, negb (env_peers env =? 0))
  | CeReport => _ ← report w; Ok (w, true)
  | CeHeaderSub header =>
      _ ← expect (if w_header_sub w then Some tt else None);
      header ← ok_or header (SynP2p P2pWorkerDied);
      w ← on_header_sub_message (env_now env) w header;
      w ← fetch_next_batch (env_now env 0%nat) (env_peers env) w;
      Ok (w, true)
  | CeCmd => _ ← syncing_info w; Ok (w, true)
  | CeBatch r =>
      (** a terminated future never completes *)
      match w_task w with
      | None => Ok (w, true)
      | Some _ =>
          w ← on_fetch_next_batch_result (env_now env) w r;
          w ← fetch_next_batch (env_now env 0%nat) (env_peers env) w;
          Ok (w, true)
      end
  end.

(** Leaving the loop: the ongoing batch is cancelled. *)
Definition leave_connected (w : Worker S) : Worker S :=
  let w := match w_ongoing w with Some _ => set_ongoing w None None | None => w end in
  set_header_sub w false.

(** Where a loop is after the events it saw: still waiting for the next one, left because
    its work is done or the peers are gone, or left because of the cancellation. *)
Inductive LoopExit := Waiting | Left | Cancelled.

(** The loop, on the events it gets to see. *)
Fixpoint connected_loop (w : Worker S) (evs : list (Env * ConnectedEvent))
    : res SyncerError (Worker S * LoopExit) :=
  match evs with
  | [] => Ok (w, Waiting)
  | (env, ev) :: evs =>
      '(w, continue) ← connected_step w env ev;
      if continue : bool then connected_loop w evs
      else Ok (leave_connected w, match ev with CeCancelled => Cancelled | _ => Left end)
  end.

(** The whole of [connected_event_loop]: without peers it is left at once. *)
Definition connected_event_loop (w : Worker S) (env : Env) (evs : list (Env * ConnectedEvent))
    : res SyncerError (Worker S * LoopExit) :=
  if env_peers env =? 0 then Ok (w, Left) else
  w ← fetch_next_batch (env_now env 0%nat) (env_peers env) w;
  _ ← report w;
  connected_loop w evs.
End Worker.

(** ** Lemmas: what to fetch *)

Lemma canonical_snoc rs hd : canonical (rs ++ [hd]) →
  canonical rs ∧ last_end 0 rs + 1 ≤ br_start hd ∧ br_start hd ≤ br_end hd ≤ u64_max ∧
  (rs ≠ [] → last_end 0 rs + 1 < br_start hd) ∧ 0 ≤ last_end 0 rs ∧
  (rs ≠ [] → in_ranges (last_end 0 rs) rs).
Proof.
  intros Hc. unfold canonical in *. apply chain_app in Hc as [Hc Hhd]. simpl in Hhd.
  split; [done|]. destruct rs as [|r rs _] using rev_ind; [simpl in *; split_and!; try done; lia|].
  rewrite !last_end_snoc in *. pose proof (chain_valid 1 _ ltac:(lia) Hc) as Hv.
  rewrite Forall_app, Forall_singleton in Hv. destruct Hv as [_ (?&?&?)].
  split_and!; try lia. intros _. apply in_block_last. unfold in_range. lia.
Qed.

Lemma calculate_cases head rs limit :
  calculate_range_to_fetch head rs limit =
  match last rs with
  | None => Ok (truncate_right (1 ..= head) limit)
  | Some hd =>
      if br_end hd <? head then
        start ← u64_add (br_end hd) 1; Ok (truncate_right (start ..= head) limit)
      else
        start ← u64_add (last_end 0 (removelast rs)) 1;
        Ok (truncate_left (start ..= saturating_sub (br_start hd) 1) limit)
  end.
Proof.
  unfold calculate_range_to_fetch. destruct rs as [|hd rs _] using rev_ind; [done|].
  rewrite reverse_snoc, last_snoc, removelast_last, last_end_last.
  by rewrite <-head_reverse.
Qed.

(** The shape of the range that is computed. *)
Lemma calculate_spec head rs limit :
  canonical rs → 1 ≤ head < u64_max → 1 ≤ limit ≤ u64_max →
  ∃ r, calculate_range_to_fetch head rs limit = Ok r ∧
    ((last_end 0 rs < head ∧
      r = (last_end 0 rs + 1 ..= Z.min head (last_end 0 rs + limit))) ∨
     (∃ rs0 hd, rs = rs0 ++ [hd] ∧ head ≤ br_end hd ∧ last_end 0 rs0 + 1 < br_start hd ∧
      r = (Z.max (last_end 0 rs0 + 1) (br_start hd - limit) ..= br_start hd - 1)) ∨
     (∃ hd, rs = [hd] ∧ head ≤ br_end hd ∧ br_start hd = 1 ∧ r = (1 ..= 0))).
Proof.
  intros Hc Hhead Hlim. rewrite calculate_cases.
  destruct rs as [|hd rs0 _] using rev_ind; simpl.
  { eexists; split; [done|]. left. split; [lia|]. unfold truncate_right, range_is_empty,
      saturating_add, checked_sub, u64_max in *. simpl. case_ifs; try lia; f_equal; lia. }
  rewrite last_snoc, removelast_last, last_end_snoc.
  destruct (canonical_snoc _ _ Hc) as (Hc0&Hp&Hhd&Hne&Hp0&_).
  destruct (Z.ltb_spec (br_end hd) head) as [Hlt|Hge].
  - rewrite u64_add_Ok by lia. cbv [mbind res_bind]. eexists; split; [done|]. left.
    split; [lia|]. unfold truncate_right, range_is_empty, saturating_add, checked_sub, u64_max in *.
    simpl. case_ifs; try lia; f_equal; lia.
  - rewrite u64_add_Ok by lia. cbv [mbind res_bind]. eexists; split; [done|]. right.
    destruct (Z.eq_dec (br_start hd) (last_end 0 rs0 + 1)) as [Heq|Hneq].
    + right. assert (rs0 = []) as ->.
      { destruct rs0 as [|b rs0]; [done|]. specialize (Hne ltac:(done)). lia. }
      simpl in *. exists hd. split_and!; [done|done|lia|].
      unfold truncate_left, range_is_empty, saturating_sub, checked_add. rewrite Heq. simpl. done.
    + left. exists rs0, hd. split_and!; [done|done|lia|].
      unfold truncate_left, range_is_empty, saturating_sub, checked_add, u64_max in *.
      simpl. case_ifs; try lia; f_equal; lia.
Qed.

Lemma next_batch_spec head rs limit :
  canonical rs → 1 ≤ head < u64_max → 1 ≤ limit ≤ u64_max →
  ∃ r, calculate_range_to_fetch head rs limit = Ok r ∧ range_size r ≤ limit ∧
    (∀ h, in_range h r → 0 < h ≤ Z.max head (last_end 0 rs) ∧ ¬ in_ranges h rs) ∧
    (range_is_empty r = true ↔ ∀ h, 1 ≤ h ≤ Z.max head (last_end 0 rs) → in_ranges h rs) ∧
    (range_is_empty r = false →
       br_start r = last_end 0 rs + 1 ∨
       in_ranges (br_end r + 1) rs ∧
       ∀ h, br_end r < h ≤ Z.max head (last_end 0 rs) → in_ranges h rs).
Proof.
  intros Hc Hhead Hlim. destruct (calculate_spec head rs limit Hc Hhead Hlim) as (r&Hcalc&Hr).
  exists r. split; [done|].
  assert (∀ h, in_ranges h rs → 0 < h ≤ last_end 0 rs) as Hub.
  { intros h Hh. split.
    - apply (in_ranges_u64 1) in Hh; [lia|lia|done].
    - destruct rs as [|x rs]; [by apply in_ranges_nil in Hh|].
      by apply (in_ranges_ub 1 (-1) (x :: rs) h ltac:(lia) Hc) in Hh. }
  destruct Hr as [[Hlt ->]|[(rs0&hd&->&Hle&Hgap&->)|(hd&->&Hle&Hone&->)]].
  - assert (0 ≤ last_end 0 rs) as Hpos.
    { destruct rs as [|x rs0 _] using rev_ind; [done|]. rewrite last_end_snoc.
      destruct (canonical_snoc _ _ Hc) as (?&?&?&?&?&?). lia. }
    unfold range_size, range_is_empty, in_range; simpl.
    split; [lia|]. split; [|split].
    + intros h Hh. split; [lia|]. intros Hin%Hub. lia.
    + split; [intros Hx; lia|]. intros Hall. exfalso.
      assert (in_ranges head rs) as Hin%Hub by (apply Hall; lia). lia.
    + intros _. by left.
  - destruct (canonical_snoc _ _ Hc) as (Hc0&Hp&Hhd&_&Hp0&_). rewrite last_end_snoc in *.
    assert (∀ h, in_ranges h rs0 → h ≤ last_end 0 rs0) as Hub0.
    { intros h Hh. destruct rs0 as [|x rs0]; [by apply in_ranges_nil in Hh|].
      by apply (in_ranges_ub 1 (-1) (x :: rs0) h ltac:(lia) Hc0) in Hh. }
    assert (∀ h, in_ranges h (rs0 ++ [hd]) ↔ in_ranges h rs0 ∨ br_start hd ≤ h ≤ br_end hd) as Hin.
    { intros h. rewrite in_ranges_app, in_ranges_cons, in_ranges_nil. unfold in_range. tauto. }
    unfold range_size, range_is_empty, in_range; simpl.
    split; [lia|]. split; [|split].
    + intros h Hh. split; [lia|]. rewrite Hin. intros [Hx%Hub0|?]; lia.
    + split; [intros Hx; lia|]. intros Hall. exfalso.
      assert (in_ranges (br_start hd - 1) (rs0 ++ [hd])) as Hx by (apply Hall; lia).
      apply Hin in Hx as [Hx%Hub0|?]; lia.
    + intros _. right. rewrite Hin. split; [right; lia|]. intros h Hh. rewrite Hin. right. lia.
  - simpl. split; [unfold range_size; simpl; lia|]. unfold in_range; simpl.
    split; [intros; lia|]. split; [|done]. split; [|done]. intros _ h Hh.
    apply in_ranges_cons. left. unfold in_range. lia.
Qed.

(** ** Lemmas: the worker *)

Section WorkerLemmas.
Context `{!Tendermint} `{!DahExternals} {S : Type} `{!Store S}.
Context (valid : ExtendedHeader → Prop) `{!ValidHeaders valid} `{!StoreSpec S valid}.
Context (time_checked_sub : Z → Z → option Z).

(** The store keeps its contract, the range and the task of the ongoing batch agree, and
    the heights stay below the last one. *)
Record worker_inv (w : Worker S) (m : gmap Z ExtendedHeader) : Prop := {
  winv_store : store_rep (w_store w) m;
  winv_task : w_ongoing w = w_task w;
  winv_range : ∀ r, w_task w = Some r → range_valid r ∧ br_end r < i64_max;
  winv_head : ∀ h, w_subjective_head_height w = Some h → 1 ≤ h < i64_max;
  winv_batch : 0 ≤ w_batch_size w ≤ u64_max
}.

(** The subjective head never goes back. *)
Definition head_le_opt (h1 h2 : option Z) : Prop :=
  match h1, h2 with
  | None, _ => True
  | Some a, Some b => a ≤ b
  | Some _, None => False
  end.
#[global] Instance head_le_opt_preorder : PreOrder head_le_opt.
Proof.
  split.
  - intros [a|]; simpl; lia.
  - intros [a|] [b|] [c|]; simpl; try lia; done.
Qed.

Lemma insert_all_other (m : gmap Z ExtendedHeader) l h :
  Forall (λ e, eh_height e ≠ h) l → insert_all m l !! h = m !! h.
Proof.
  unfold insert_all. intros Hl. revert m; induction Hl as [|e l He _ IH]; intros m; simpl; [done|].
  rewrite IH. by rewrite lookup_insert_ne.
Qed.

Lemma insertable_subseteq m l : insertable m l → m ⊆ insert_all m l.
Proof.
  intros [_ Hfree]. apply map_subseteq_spec. intros h e He. rewrite insert_all_other; [done|].
  eapply Forall_impl; [exact Hfree|]. intros x Hx <-. simpl in Hx. congruence.
Qed.

(** An insertion as the handlers see it: the store keeps its contract and only grows. *)
Lemma insert_grows s m now l : store_rep s m → Forall valid l → clock_ok now →
  ∃ m', store_rep (st_insert now s l).2 m' ∧ m ⊆ m' ∧
    ((st_insert now s l).1 = Ok tt ∧ m' = insert_all m l ∨
     (∃ e, (st_insert now s l).1 = Err (InsertionFailed e)) ∧ m' = m).
Proof.
  intros Hrep Hval Hclock.
  destruct (spec_insert s m now l Hrep Hval Hclock) as [(Hr&Hi&Hrep')|(He&Hrep'&_)].
  - exists (insert_all m l). split; [done|]. split; [by apply insertable_subseteq|by left].
  - exists m. split; [done|]. split; [done|by right].
Qed.

Lemma set_subjective_inv w m h : worker_inv w m → 1 ≤ h < i64_max →
  worker_inv (set_subjective_head_height w h) m ∧
  w_subjective_head_height (set_subjective_head_height w h)
    = Some (Z.max h (default 0 (w_subjective_head_height w))) ∧
  head_le_opt (w_subjective_head_height w)
    (w_subjective_head_height (set_subjective_head_height w h)) ∧
  w_store (set_subjective_head_height w h) = w_store w ∧
  w_header_sub (set_subjective_head_height w h) = w_header_sub w ∧
  w_task (set_subjective_head_height w h) = w_task w.
Proof.
  intros [Hs Ht Hr Hh Hb] Hn. unfold set_subjective_head_height.
  destruct (w_subjective_head_height w) as [old|] eqn:Hold.
  - destruct (Z.leb_spec h old).
    + rewrite Hold. split; [constructor; rewrite ?Hold; auto|]. simpl.
      split_and!; [f_equal; lia|lia|done..].
    + simpl. split; [constructor; simpl; auto; by intros ? [= <-]|].
      split_and!; [f_equal; lia|lia|done..].
  - simpl. split; [constructor; simpl; auto; by intros ? [= <-]|].
    split_and!; [f_equal; lia|done..].
Qed.

(** The stored ranges and what they say about the map. *)
Lemma stored_ranges_spec s m : store_rep s m →
  ∃ rs, st_get_stored_header_ranges s = Ok rs ∧ canonical rs ∧
    (∀ h, in_ranges h rs ↔ is_Some (m !! h)) ∧ 0 ≤ last_end 0 rs < i64_max ∧
    ∀ h, is_Some (m !! h) → 0 < h ≤ last_end 0 rs.
Proof.
  intros Hrep. destruct (spec_stored_ranges s m Hrep) as (rs&Hrs&Hc&Hdom).
  exists rs. do 3 (split; [done|]). split.
  - destruct rs as [|hd rs0 _] using rev_ind; [unfold i64_max; simpl; lia|].
    rewrite last_end_snoc. destruct (canonical_snoc _ _ Hc) as (?&?&?&_&?&_). split; [lia|].
    assert (in_ranges (br_end hd) (rs0 ++ [hd])) as [e He]%Hdom
      by (apply in_block_last; unfold in_range; lia).
    destruct (proj1 (store_rep_ok s m Hrep) _ _ He) as [<- Hv]. apply valid_height in Hv. lia.
  - intros h Hh%Hdom. split; [apply (in_ranges_u64 1) in Hh; [lia|lia|done]|].
    destruct rs as [|x rs]; [by apply in_ranges_nil in Hh|].
    by apply (in_ranges_ub 1 (-1) (x :: rs) h ltac:(lia) Hc) in Hh.
Qed.

(** With a batch size of zero nothing is fetched. *)
Lemma zero_batch_fetches_nothing now peers w m : store_rep (w_store w) m → w_ongoing w = w_task w →
  (∀ h, w_subjective_head_height w = Some h → 1 ≤ h < i64_max) → w_batch_size w = 0 →
  fetch_next_batch time_checked_sub now peers w = Ok w.
Proof.
  intros Hs Ht Hh Hb. unfold fetch_next_batch. rewrite bool_decide_true by (by rewrite Ht). cbn [negb].
  case_bool_decide; [done|]. destruct (peers =? 0); [done|].
  destruct (w_subjective_head_height w) as [h|]; [|done]. specialize (Hh h eq_refl).
  destruct (stored_ranges_spec _ _ Hs) as (rs&->&Hc&_&Hlast&_). cbn [map_err]. cbv [mbind res_bind]. rewrite Hb.
  assert (∃ r, calculate_range_to_fetch h rs 0 = Ok r ∧ range_is_empty r = true) as (r&->&->); [|done].
  rewrite calculate_cases. destruct rs as [|hd rs0 _] using rev_ind; cbn [last].
  { eexists. split; [done|]. unfold truncate_right, range_is_empty, saturating_add, checked_sub, u64_max; cbn. case_ifs; cbn; lia. }
  rewrite last_snoc, removelast_last. rewrite last_end_snoc in Hlast. destruct (canonical_snoc _ _ Hc) as (_&Hp&Hhd&_&Hp0&_).
  unfold i64_max, u64_max in *.
  destruct (Z.ltb_spec (br_end hd) h); rewrite u64_add_Ok by (unfold u64_max; lia); cbv [mbind res_bind]; (eexists; split; [done|]).
  - unfold truncate_right, range_is_empty, saturating_add, checked_sub, u64_max; cbn. case_ifs; cbn; lia.
  - unfold truncate_left, range_is_empty, saturating_sub, checked_add, u64_max; cbn. case_ifs; cbn; lia.
Qed.

(** What [fetch_next_batch] may do: nothing, or start a batch of missing headers.  It
    does nothing only if the batch size is zero, a batch is ongoing, no peer is connected, there is no head yet, no
    header is missing, or the header above the batch, which has no gap above it, is out of the
    syncing window. *)
Definition batch_started (now peers : Z) (w : Worker S) (m : gmap Z ExtendedHeader)
    (r : BlockRange) (h : Z) : Prop :=
  w_task w = None ∧ peers ≠ 0 ∧ w_subjective_head_height w = Some h ∧
  range_valid r ∧ br_end r < i64_max ∧ range_size r ≤ w_batch_size w ∧
  (∀ k, in_range k r → m !! k = None) ∧
  ((∀ k, is_Some (m !! k) → k < br_start r) ∧ (br_start r = 1 ∨ is_Some (m !! (br_start r - 1))) ∧
     br_end r ≤ h ∨
   is_Some (m !! (br_end r + 1))) ∧
  ∀ e, m !! (br_end r + 1) = Some e → in_syncing_window time_checked_sub now w e = true.

Definition nothing_to_fetch (now peers : Z) (w : Worker S) (m : gmap Z ExtendedHeader) : Prop :=
  w_batch_size w = 0 ∨ is_Some (w_task w) ∨ peers = 0 ∨ w_subjective_head_height w = None ∨
  (∃ h, w_subjective_head_height w = Some h ∧ ∀ k, 1 ≤ k ≤ h → is_Some (m !! k)) ∨
  ∃ h k e, w_subjective_head_height w = Some h ∧ m !! k = Some e ∧ m !! (k - 1) = None ∧
    (∀ j, k ≤ j ≤ h → is_Some (m !! j)) ∧ in_syncing_window time_checked_sub now w e = false.

Lemma fetch_next_batch_spec now peers w m : worker_inv w m →
  (fetch_next_batch time_checked_sub now peers w = Ok w ∧ nothing_to_fetch now peers w m) ∨
  ∃ r h, fetch_next_batch time_checked_sub now peers w = Ok (start_batch w r) ∧
    batch_started now peers w m r h.
Proof.
  intros [Hs Ht Hr Hh Hb]. unfold nothing_to_fetch.
  destruct (decide (w_batch_size w = 0)) as [Hz|Hnz]; [left; split; [by eapply zero_batch_fetches_nothing|by left]|].
  assert (1 ≤ w_batch_size w ≤ u64_max) as Hb1 by lia. clear Hb. unfold fetch_next_batch.
  rewrite bool_decide_true by (by rewrite Ht). cbn [negb].
  destruct (w_task w) as [r0|] eqn:Htask.
  { left. rewrite bool_decide_true by eauto. eauto 10. }
  rewrite bool_decide_false by (by intros []).
  destruct (Z.eqb_spec peers 0); [left; auto 10|].
  destruct (w_subjective_head_height w) as [h|] eqn:Hhead; [|left; auto 10].
  specialize (Hh h eq_refl).
  destruct (stored_ranges_spec _ _ Hs) as (rs&->&Hc&Hdom&Hlast&Hub). cbn [map_err].
  cbv [mbind res_bind].
  destruct (next_batch_spec h rs (w_batch_size w)) as (r&->&Hlen&Hin&Hempty&Hfull);
    [done|unfold i64_max, u64_max in *; lia|done|].
  destruct (range_is_empty r) eqn:Hre.
  { left. split; [done|]. do 4 right. left. exists h. split; [done|]. intros k Hk. apply Hdom.
    apply (proj1 Hempty eq_refl). lia. }
  clear Hempty. specialize (Hfull eq_refl).
  assert (br_start r ≤ br_end r) as Hne by (unfold range_is_empty in Hre; lia).
  destruct (Hin (br_start r)) as [Hlo _]; [unfold in_range; lia|].
  destruct (Hin (br_end r)) as [Hhi Hfree]; [unfold in_range; lia|].
  assert (range_valid r) as Hv by (unfold range_valid, i64_max, u64_max in *; lia).
  rewrite u64_add_Ok by (unfold i64_max, u64_max in *; lia).
  rewrite (spec_get_by_height _ _ _ Hs).
  assert ((∀ e, m !! (br_end r + 1) = Some e → in_syncing_window time_checked_sub now w e = true) →
    batch_started now peers w m r h) as Hstart.
  { intros Hwin. unfold batch_started. split_and!; try done; [lia| |].
    { intros k Hk. apply eq_None_not_Some. rewrite <-Hdom. by apply Hin. }
    destruct Hfull as [Hst|[Hnext _]]; [left|right; by apply Hdom].
    assert (¬ in_ranges (br_end r) rs → br_end r ≤ h) as Hle.
    { intros _. destruct (Z.le_gt_cases (br_end r) h); [done|exfalso].
      assert (br_end r ≤ last_end 0 rs) by lia. lia. }
    split_and!; [intros k Hk%Hub; lia| |by apply Hle].
    destruct rs as [|hd rs0 _] using rev_ind; [left; by rewrite Hst|right].
    rewrite last_end_snoc in Hst. apply Hdom. replace (br_start r - 1) with (br_end hd) by lia.
    apply in_block_last. destruct (canonical_snoc _ _ Hc) as (_&_&?&_). unfold in_range. lia. }
  destruct (m !! (br_end r + 1)) as [e|] eqn:He; cbn [ok_or].
  - destruct (in_syncing_window time_checked_sub now w e) eqn:Hwin; cbn [negb].
    + right. exists r, h. split; [done|]. apply Hstart. by intros e' [= <-].
    + left. split; [done|]. do 5 right. exists h, (br_end r + 1), e. split; [done|]. split; [done|].
      replace (br_end r + 1 - 1) with (br_end r) by lia.
      split; [apply eq_None_not_Some; by rewrite <-Hdom|]. split; [|done].
      intros j Hj. apply Hdom. destruct Hfull as [Hst|[_ Hall]]; [|apply Hall; lia].
      destruct (Hub (br_end r + 1)); [by eexists|lia].
  - right. exists r, h. split; [done|]. by apply Hstart.
Qed.

Lemma start_batch_inv now peers w m r h : worker_inv w m → batch_started now peers w m r h →
  worker_inv (start_batch w r) m.
Proof.
  intros [Hs Ht Hr Hh Hb] (_&_&_&Hv&Hmax&_). constructor; simpl; auto. by intros r' [= <-].
Qed.

Lemma fetch_next_batch_inv now peers w m : worker_inv w m →
  ∃ w', fetch_next_batch time_checked_sub now peers w = Ok w' ∧ worker_inv w' m ∧
    w_subjective_head_height w' = w_subjective_head_height w ∧
    w_header_sub w' = w_header_sub w ∧ w_store w' = w_store w.
Proof.
  intros Hinv. destruct (fetch_next_batch_spec now peers w m Hinv) as [[-> _]|(r&h&->&Hst)].
  - by exists w.
  - exists (start_batch w r). split; [done|]. split; [by eapply start_batch_inv|done].
Qed.

Lemma on_header_sub_inv now w m e : worker_inv w m → clock_ok now → valid e → 0 < eh_height e →
  ∃ w' m', on_header_sub_message now w e = Ok w' ∧ worker_inv w' m' ∧ m ⊆ m' ∧
    w_subjective_head_height w'
      = Some (Z.max (eh_height e) (default 0 (w_subjective_head_height w))) ∧
    head_le_opt (w_subjective_head_height w) (w_subjective_head_height w') ∧
    w_header_sub w' = w_header_sub w ∧
    (m' = m ∨ is_head m (eh_height e - 1) ∧ m' = insert_all m [e]).
Proof.
  intros Hinv Hclock Hv Hpos. unfold on_header_sub_message.
  pose proof (valid_height _ Hv) as Hh.
  destruct (set_subjective_inv w m (eh_height e) Hinv) as (Hinv1&Heq&Hle&Hst&Hsub&Htask); [lia|].
  set (w1 := set_subjective_head_height w (eh_height e)) in *. clearbody w1.
  assert (∃ w' m', Ok (E := SyncerError) w1 = Ok w' ∧ worker_inv w' m' ∧ m ⊆ m' ∧
    w_subjective_head_height w'
      = Some (Z.max (eh_height e) (default 0 (w_subjective_head_height w))) ∧
    head_le_opt (w_subjective_head_height w) (w_subjective_head_height w') ∧
    w_header_sub w' = w_header_sub w ∧
    (m' = m ∨ is_head m (eh_height e - 1) ∧ m' = insert_all m [e])) as Hsame.
  { exists w1, m. split_and!; auto. }
  pose proof (winv_store _ _ Hinv1) as Hrep.
  destruct (spec_head_height _ _ Hrep) as [[_ ->]|(t&->&Ht)]; [exact Hsame|].
  assert (t < i64_max) as Htm.
  { destruct (proj1 Ht) as [x Hx]. destruct (proj1 (store_rep_ok _ _ Hrep) _ _ Hx) as [<- Hxv].
    apply valid_height in Hxv. lia. }
  rewrite u64_add_Ok by (unfold i64_max, u64_max in *; lia). cbv [mbind res_bind].
  destruct (Z.eqb_spec (t + 1) (eh_height e)) as [Hadj|]; [|exact Hsame].
  destruct (insert_grows _ m now [e] Hrep) as (m'&Hrep'&Hsub'&Hres); [by constructor|done|].
  destruct (st_insert now (w_store w1) [e]) as [r s'] eqn:Hins. simpl in Hrep', Hres.
  assert (worker_inv (set_store w1 s') m') as Hinv2 by (destruct Hinv1; constructor; simpl; auto).
  destruct Hres as [[-> Hm']|[[er ->] Hm']].
  - eexists _, m'. split; [done|]. simpl. split_and!; auto.
    + destruct Hinv2; constructor; simpl; auto.
    + right. split; [|done]. by replace (eh_height e - 1) with t by lia.
  - eexists _, m'. split; [done|]. simpl. split_and!; auto.
Qed.

(** What handling the result of a batch does. *)
Lemma on_result_inv now w m r0 r : worker_inv w m → clock_ok now → w_task w = Some r0 →
  match r with Ok l => Forall valid l | Err _ => True | Panic => False end →
  match on_fetch_next_batch_result now w r with
  | Ok w' => ∃ m', worker_inv w' m' ∧ m ⊆ m' ∧ w_task w' = None ∧
      w_subjective_head_height w' = w_subjective_head_height w ∧
      w_header_sub w' = w_header_sub w ∧ w_batch_size w' = w_batch_size w ∧
      w_syncing_window w' = w_syncing_window w ∧
      match r with
      | Ok l => insertable m l ∧ m' = insert_all m l ∨ m' = m ∧ ¬ extends now m l
      | _ => m' = m
      end
  | Err e => ∃ e', r = Err e' ∧ e = SynP2p e' ∧ p2p_error_is_fatal e' = true
  | Panic => False
  end.
Proof.
  intros Hinv Hclock Htask Hr. pose proof Hinv as [Hs Ht Hrg Hh Hb].
  unfold on_fetch_next_batch_result. rewrite Ht, Htask. cbn [expect]. cbv [mbind res_bind].
  assert (∀ s' m' evs, store_rep s' m' →
    worker_inv (set_events (set_store (set_ongoing w None None) s') evs) m') as Hnew
    by (intros; constructor; simpl; naive_solver).
  destruct r as [l|e|]; [| |done].
  - destruct (spec_insert (w_store w) m now l Hs Hr Hclock) as [(Hres&Hi&Hrep')|((e&He)&Hrep'&Hno)].
    + cbn [w_store set_ongoing]. destruct (st_insert now (w_store w) l) as [r' s']. simpl in Hres, Hrep'.
      subst r'. exists (insert_all m l). split; [by apply Hnew|].
      split; [by apply insertable_subseteq|]. simpl. split_and!; auto.
    + cbn [w_store set_ongoing]. destruct (st_insert now (w_store w) l) as [r' s']. simpl in He, Hrep'.
      subst r'. cbn [store_error_is_fatal]. exists m. split; [by apply Hnew|]. simpl. split_and!; auto.
  - destruct (p2p_error_is_fatal e) eqn:Hf; [by exists e|].
    exists m. split; [|by simpl]. constructor; simpl; naive_solver.
Qed.

(** An event as the loop may see it. *)
Definition event_ok (x : Env * ConnectedEvent) : Prop :=
  clock_ok (env_now x.1) ∧
  match x.2 with
  | CeHeaderSub (Some e) => valid e ∧ 0 < eh_height e
  | CeBatch (Ok l) => Forall valid l
  | CeBatch Panic => False
  | _ => True
  end.

(** What one iteration does to a worker in the loop. *)
Definition step_safe (w : Worker S) (m : gmap Z ExtendedHeader) (w' : Worker S) : Prop :=
  ∃ m', worker_inv w' m' ∧ m ⊆ m' ∧
    head_le_opt (w_subjective_head_height w) (w_subjective_head_height w').

Lemma connected_step_spec w m env ev : worker_inv w m → w_header_sub w = true → event_ok (env, ev) →
  match connected_step time_checked_sub w env ev with
  | Ok (w', continue) => step_safe w m w' ∧ w_header_sub w' = true
  | Err e => syncer_error_is_fatal e = true ∧ ∃ e', e = SynP2p e'
  | Panic => False
  end.
Proof.
  intros Hinv Hsub [Hclock Hev]. simpl in Hclock, Hev.
  assert (step_safe w m w) as Hsame by (exists m; split_and!; [done|done|reflexivity]).
  destruct (stored_ranges_spec _ _ (winv_store _ _ Hinv)) as (rs&Hrs&_).
  unfold connected_step, report, syncing_info.
  destruct ev as [| | |header| |r]; [by split|by split|by rewrite Hrs| |by rewrite Hrs|].
  - rewrite Hsub. cbn [expect]. cbv [mbind res_bind].
    destruct header as [e|]; cbn [ok_or]; [|by split; [|eexists]]. destruct Hev as [Hv Hpos].
    destruct (on_header_sub_inv _ w m e Hinv Hclock Hv Hpos) as (w1&m1&->&Hinv1&Hm&_&Hle&Hs1&_).
    destruct (fetch_next_batch_inv (env_now env 0%nat) (env_peers env) w1 m1 Hinv1)
      as (w2&->&Hinv2&Hsj&Hs2&_).
    split; [|congruence]. exists m1. rewrite Hsj. auto.
  - destruct (w_task w) as [r0|] eqn:Htask; [|by split].
    pose proof (on_result_inv (env_now env) w m r0 r Hinv Hclock Htask Hev) as Hres.
    destruct (on_fetch_next_batch_result (env_now env) w r) as [w1|e|]; [| |done];
      cbv [mbind res_bind].
    + destruct Hres as (m1&Hinv1&Hm&_&Hsj1&Hs1&_).
      destruct (fetch_next_batch_inv (env_now env 0%nat) (env_peers env) w1 m1 Hinv1)
        as (w2&->&Hinv2&Hsj&Hs2&_).
      split; [|congruence]. exists m1. rewrite Hsj, Hsj1. split_and!; [done|done|reflexivity].
    + destruct Hres as (e'&_&->&Hf). simpl. eauto.
Qed.

Lemma leave_connected_inv w m : worker_inv w m → worker_inv (leave_connected w) m ∧
  w_subjective_head_height (leave_connected w) = w_subjective_head_height w ∧
  w_task (leave_connected w) = None.
Proof.
  intros [Hs Ht Hr Hh Hb]. unfold leave_connected.
  destruct (w_ongoing w) as [r|] eqn:Ho; (split; [|split; [done|]]); simpl; try congruence.
  - constructor; simpl; naive_solver.
  - constructor; simpl; auto. congruence.
Qed.

Lemma connected_loop_spec w m evs : worker_inv w m → w_header_sub w = true → Forall event_ok evs →
  match connected_loop time_checked_sub w evs with
  | Ok (w', ex) => step_safe w m w' ∧ (ex ≠ Waiting → w_task w' = None)
  | Err e => syncer_error_is_fatal e = true ∧ ∃ e', e = SynP2p e'
  | Panic => False
  end.
Proof.
  intros Hinv Hsub Hevs. revert w m Hinv Hsub; induction Hevs as [|[env ev] evs Hev _ IH];
    intros w m Hinv Hsub; cbn [connected_loop];
    [by split; [exists m; split_and!; [done|done|reflexivity]|]|].
  pose proof (connected_step_spec w m env ev Hinv Hsub Hev) as Hstep.
  destruct (connected_step time_checked_sub w env ev) as [[w1 continue]|e|]; [|done..].
  cbv [mbind res_bind]. destruct Hstep as [(m1&Hinv1&Hm&Hle) Hsub1]. destruct continue.
  - specialize (IH w1 m1 Hinv1 Hsub1).
    destruct (connected_loop time_checked_sub w1 evs) as [[w2 ex]|e|]; [|done..].
    destruct IH as [(m2&Hinv2&Hm2&Hle2) Hex]. split; [|done]. exists m2. split; [done|].
    split; [by etrans|by etrans].
  - destruct (leave_connected_inv w1 m1 Hinv1) as (?&Hsj&?). split; [|done]. exists m1. by rewrite Hsj.
Qed.

Lemma connected_event_loop_spec w m env evs :
  worker_inv w m → w_header_sub w = true → Forall event_ok evs →
  match connected_event_loop time_checked_sub w env evs with
  | Ok (w', ex) => step_safe w m w' ∧ (w_task w = None → ex ≠ Waiting → w_task w' = None)
  | Err e => syncer_error_is_fatal e = true ∧ ∃ e', e = SynP2p e'
  | Panic => False
  end.
Proof.
  intros Hinv Hsub Hevs. unfold connected_event_loop.
  destruct (env_peers env =? 0); [by split; [exists m; split_and!; [done|done|reflexivity]|]|].
  destruct (fetch_next_batch_inv (env_now env 0%nat) (env_peers env) w m Hinv)
    as (w1&->&Hinv1&Hsj&Hsub1&_).
  destruct (stored_ranges_spec _ _ (winv_store _ _ Hinv1)) as (rs&Hrs&_).
  cbv [mbind res_bind]. unfold report, syncing_info. rewrite Hrs. simpl.
  pose proof (connected_loop_spec w1 m evs Hinv1 ltac:(congruence) Hevs) as Hloop.
  destruct (connected_loop time_checked_sub w1 evs) as [[w2 ex]|e|]; [|done..].
  unfold step_safe in *. rewrite Hsj in Hloop. by destruct Hloop.
Qed.

(** ** Convergence *)

Section Convergence.
Context (env : Env) (top low : Z) (c : Z → ExtendedHeader).

(** The chain of the network up to height [top], as seen by a node with this clock and
    syncing window: the headers from height [low] on are inside the window. *)
Record honest_chain (w : Worker S) : Prop := {
  hc_valid : ∀ h, 1 ≤ h ≤ top → valid (c h);
  hc_height : ∀ h, 1 ≤ h ≤ top → eh_height (c h) = h;
  hc_linked : ∀ h, 1 ≤ h < top → linked (c h) [c (h + 1)];
  hc_timely : ∀ h, 1 ≤ h ≤ top → timely (env_now env) (c h);
  hc_window : ∀ h, 1 ≤ h ≤ top → low ≤ h →
    in_syncing_window time_checked_sub (env_now env 0%nat) w (c h) = true
}.

(** The store holds headers of that chain only. *)
Definition on_chain (m : gmap Z ExtendedHeader) : Prop :=
  ∀ h e, m !! h = Some e → 1 ≤ h ≤ top ∧ e = c h.

(** The store holds every header of the chain from one below the window on: the syncer asks for
    the header below a known one as long as the known one is in the window. *)
Definition covered (m : gmap Z ExtendedHeader) : Prop :=
  ∀ h, 1 ≤ h ≤ top → low - 1 ≤ h → is_Some (m !! h).

Definition missing (m : gmap Z ExtendedHeader) : nat :=
  length (filter (λ h, m !! h = None) (seqZ 1 top)).

Lemma filter_length_lt {A} (P Q : A → Prop) `{!∀ x, Decision (P x), !∀ x, Decision (Q x)} l x :
  (∀ y, Q y → P y) → x ∈ l → P x → ¬ Q x → (length (filter Q l) < length (filter P l))%nat.
Proof.
  intros HQP Hx HP HQ.
  assert (∀ k, (length (filter Q k) ≤ length (filter P k))%nat) as Hle.
  { induction k as [|y k IHk]; [done|]. rewrite !filter_cons.
    destruct (decide (Q y)), (decide (P y)); simpl; try lia. by exfalso; auto. }
  induction l as [|y l IH]; [by apply elem_of_nil in Hx|]. rewrite !filter_cons.
  apply elem_of_cons in Hx as [->|Hx].
  - rewrite decide_False, decide_True by done. simpl. specialize (Hle l). lia.
  - specialize (IH Hx). destruct (decide (Q y)), (decide (P y)); simpl; try lia. by exfalso; auto.
Qed.

Lemma missing_zero m : (∀ h, 1 ≤ h ≤ top → is_Some (m !! h)) ↔ missing m = 0%nat.
Proof.
  unfold missing. split.
  - intros Hall. destruct (filter _ _) as [|x l] eqn:Hf; [done|exfalso].
    assert (x ∈ filter (λ h, m !! h = None) (seqZ 1 top)) as [Hx Hin]%list_elem_of_filter
      by (rewrite Hf; apply elem_of_cons; by left).
    apply elem_of_seqZ in Hin. destruct (Hall x) as [e He]; [lia|congruence].
  - intros Hlen h Hh. destruct (m !! h) as [e|] eqn:He; [eauto|exfalso].
    assert (h ∈ filter (λ h, m !! h = None) (seqZ 1 top)) as Hin.
    { apply list_elem_of_filter. split; [done|]. apply elem_of_seqZ. lia. }
    destruct (filter _ _); [by apply elem_of_nil in Hin|done].
Qed.

Lemma chain_linked w a n : honest_chain w → 1 ≤ a → a + Z.of_nat n ≤ top →
  linked (c a) (c <$> seqZ (a + 1) (Z.of_nat n)).
Proof.
  intros Hc. revert a; induction n as [|n IH]; intros a Ha Hn; [done|].
  rewrite Nat2Z.inj_succ, seqZ_cons by lia. rewrite Z.pred_succ. cbn [fmap list_fmap linked].
  destruct (hc_linked _ Hc a) as (?&?&?&?&?&_); [lia|].
  split_and!; try done. apply IH; lia.
Qed.

(** A batch that may be inserted when the chain answers it. *)
Definition batch_ready (m : gmap Z ExtendedHeader) (r : BlockRange) : Prop :=
  1 ≤ br_start r ≤ br_end r ∧ br_end r ≤ top ∧ (∀ k, in_range k r → m !! k = None) ∧
  anchored m (br_start r) (br_end r).

Lemma honest_list r : 1 ≤ br_start r ≤ br_end r →
  c <$> heights_of r
    = c (br_start r) :: (c <$> seqZ (br_start r + 1) (br_end r - br_start r)).
Proof.
  intros Hr. unfold heights_of, range_size.
  rewrite seqZ_cons by lia. simpl. f_equal. f_equal. f_equal; lia.
Qed.

Lemma honest_extends w m r : honest_chain w → on_chain m → batch_ready m r →
  extends (env_now env) m (c <$> heights_of r).
Proof.
  intros Hc Hm (Hr&HrH&Hfree&Hanch). rewrite honest_list by done.
  set (n := Z.to_nat (br_end r - br_start r)).
  replace (br_end r - br_start r) with (Z.of_nat n) by lia.
  assert (∀ e, e ∈ c (br_start r) :: (c <$> seqZ (br_start r + 1) (Z.of_nat n)) →
    ∃ k, e = c k ∧ in_range k r) as Hmem.
  { intros e [->|(k&->&Hk)%list_elem_of_fmap]%elem_of_cons.
    - exists (br_start r). unfold in_range. split; [done|lia].
    - apply elem_of_seqZ in Hk. exists k. unfold in_range. split; [done|lia]. }
  assert (Forall (λ e, m !! eh_height e = None)
    (c (br_start r) :: (c <$> seqZ (br_start r + 1) (Z.of_nat n)))) as Hf.
  { apply Forall_forall. intros e (k&->&Hk)%Hmem. rewrite (hc_height _ Hc) by (unfold in_range in Hk; lia).
    by apply Hfree. }
  unfold extends. rewrite length_fmap, length_seqZ, Nat2Z.id.
  rewrite !(hc_height _ Hc (br_start r)) by lia.
  assert (linked (c (br_start r)) (c <$> seqZ (br_start r + 1) (Z.of_nat n))) as Hl
    by (apply (chain_linked w); [done|lia|lia]).
  split_and!; [lia|done|done| | | | |].
  - by replace (br_start r + Z.of_nat n) with (br_end r) by lia.
  - intros p [Hp ->]%Hm. pose proof (hc_linked _ Hc (br_start r - 1)) as Hlk.
    replace (br_start r - 1 + 1) with (br_start r) in Hlk by lia. apply Hlk. lia.
  - intros la x Hla Hx. pose proof (verified_last _ _ _ Hl Hla) as Hh.
    rewrite (hc_height _ Hc), length_fmap, length_seqZ, Nat2Z.id in Hh by lia.
    assert (la ∈ c (br_start r) :: (c <$> seqZ (br_start r + 1) (Z.of_nat n))) as (k&->&Hk)%Hmem
      by (by apply last_Some_elem_of).
    unfold in_range in Hk. rewrite (hc_height _ Hc) in Hh by lia.
    rewrite (hc_height _ Hc) in Hx by lia. apply Hm in Hx as [Hx ->].
    apply (hc_linked _ Hc). lia.
  - apply Forall_forall. intros e (k&->&Hk)%Hmem. apply (hc_timely _ Hc). unfold in_range in Hk. lia.
  - intros h e [Hh ->]%Hm. by apply (hc_timely _ Hc).
Qed.

Lemma heights_of_length r : 1 ≤ br_start r ≤ br_end r →
  length (c <$> heights_of r) = Z.to_nat (br_end r - br_start r + 1).
Proof.
  intros. rewrite length_fmap. unfold heights_of. rewrite length_seqZ.
  unfold range_size. lia.
Qed.

Lemma insert_chain w m r : honest_chain w → on_chain m → batch_ready m r →
  on_chain (insert_all m (c <$> heights_of r)) ∧
  (missing (insert_all m (c <$> heights_of r)) < missing m)%nat.
Proof.
  intros Hc Hm (Hr&HrH&Hfree&_).
  assert (∀ h, insert_all m (c <$> heights_of r) !! h
    = if bool_decide (br_start r ≤ h ≤ br_end r) then Some (c h) else m !! h) as Hlook.
  { intros h. rewrite (lookup_insert_all _ _ (br_start r)).
    - rewrite heights_of_length by done. rewrite list_lookup_fmap.
      repeat case_bool_decide; try lia; [|done]. unfold heights_of.
      rewrite lookup_seqZ_lt; [simpl; do 2 f_equal; lia|].
      unfold range_size. lia.
    - intros k e Hk. rewrite list_lookup_fmap in Hk. apply fmap_Some in Hk as (h'&Hh'&->).
      unfold heights_of, range_size in Hh'. apply lookup_seqZ in Hh' as [-> Hlt].
      rewrite (hc_height _ Hc); [done|]. lia. }
  split.
  - intros h e. rewrite Hlook. case_bool_decide; [|by apply Hm]. intros [= <-]. split; [lia|done].
  - apply filter_length_lt with (br_start r).
    + intros h. rewrite Hlook. case_bool_decide; [done|auto].
    + apply elem_of_seqZ. lia.
    + apply Hfree. unfold in_range. lia.
    + rewrite Hlook, bool_decide_true by lia. done.
Qed.

(** The state of the loop while the chain is fetched: either a batch is ready, or nothing
    that the window asks for is missing. *)
Definition fetching (w : Worker S) (m : gmap Z ExtendedHeader) : Prop :=
  worker_inv w m ∧ on_chain m ∧ honest_chain w ∧
  (w_subjective_head_height w = Some top ∧ w_batch_size w ≠ 0) ∧
  match w_task w with
  | Some r => batch_ready m r
  | None => covered m
  end.

Lemma fetch_step w m : worker_inv w m → on_chain m → honest_chain w →
  w_subjective_head_height w = Some top → w_batch_size w ≠ 0 → w_task w = None → env_peers env ≠ 0 →
  ∃ w', fetch_next_batch time_checked_sub (env_now env 0%nat) (env_peers env) w = Ok w' ∧
    fetching w' m ∧ w_store w' = w_store w.
Proof.
  intros Hinv Hm Hc Hsj Hbs Htask Hpeers.
  destruct (fetch_next_batch_spec (env_now env 0%nat) (env_peers env) w m Hinv)
    as [[-> Hno]|(r&h&->&Hst)].
  - exists w. split; [done|]. split; [|done]. unfold fetching. rewrite Htask. split_and!; auto.
    intros j Hj Hlow. destruct Hno as [?|[[? ?]|[?|[?|[(h&Hh&Hall)|(h&k&e&Hh&He&_&Hall&Hwin)]]]]];
      [done|congruence|done|congruence|rewrite Hsj in Hh; injection Hh as <-; by apply Hall|].
    rewrite Hsj in Hh. injection Hh as <-. apply Hm in He as [Hk ->]. apply Hall.
    destruct (decide (low ≤ k)); [|lia]. by rewrite (hc_window _ Hc) in Hwin.
  - exists (start_batch w r). split; [done|]. split; [|done].
    pose proof (start_batch_inv _ _ _ _ _ _ Hinv Hst) as Hinv'.
    destruct Hst as (_&_&Hh&Hv&_&_&Hfree&Hanch&_). rewrite Hsj in Hh. injection Hh as <-.
    split; [done|]. split; [done|]. split; [by destruct Hc; constructor|]. split; [done|].
    simpl. destruct Hv as (?&?&?). unfold batch_ready, anchored.
    destruct Hanch as [(Hhead&_&Hle)|Hn].
    + split_and!; [lia..|done|by left].
    + split_and!; [lia|done| |done|by auto].
      destruct Hn as [e He]. apply Hm in He as [? _]. lia.
Qed.

End Convergence.

(** The events that a batch leaves when the network failed, when the store rejected it,
    and when it was stored. *)
Lemma batch_events now w m r0 r w' : worker_inv w m → clock_ok now → w_task w = Some r0 →
  match r with Ok l => Forall valid l | Err _ => True | Panic => False end →
  on_fetch_next_batch_result now w r = Ok w' →
  let failed := FetchingHeadersFailed (br_start r0) (br_end r0) in
  let finished := FetchingHeadersFinished (br_start r0) (br_end r0) in
  match r with
  | Ok l => ∃ m', store_rep (w_store w') m' ∧
      (m' = insert_all m l ∧ w_events w' = w_events w ++ [finished] ∨
       m' = m ∧ w_events w' = w_events w ++ [failed; finished])
  | _ => w_store w' = w_store w ∧ w_events w' = w_events w ++ [failed]
  end.
Proof.
  intros [Hs Ht _ _ _] Hclock Htask Hr. unfold on_fetch_next_batch_result. rewrite Ht, Htask.
  cbn [expect]. cbv [mbind res_bind]. destruct r as [l|e|]; [| |done].
  - cbn [w_store set_ongoing].
    destruct (spec_insert (w_store w) m now l Hs Hr Hclock) as [(Hres&_&Hrep)|((e&He)&Hrep&_)];
      destruct (st_insert now (w_store w) l) as [r' s']; simpl in *; subst r'; intros [= <-]; simpl.
    + exists (insert_all m l). split; [done|]. by left.
    + exists m. split; [done|]. right. by rewrite <-(assoc_L (++)).
  - destruct (p2p_error_is_fatal e); [done|]. by intros [= <-].
Qed.

Lemma try_init_spec now s m network_head :
  store_rep s m → clock_ok now → (∀ e, network_head = Ok e → valid e) → network_head ≠ Panic →
  ∃ m', store_rep (try_init now s network_head).2 m' ∧ m ⊆ m' ∧
    match (try_init now s network_head).1 with
    | Ok e => network_head = Ok e ∧ ∃ e', m' !! eh_height e = Some e' ∧ eh_hash e' = eh_hash e
    | Err e => m' = m ∧
        ((∃ e', network_head = Err e' ∧ e = SynP2p e') ∨
         ∃ x head, e = SynStore (InsertionFailed x) ∧ network_head = Ok head ∧
           ¬ extends now m [head])
    | Panic => False
    end.
Proof.
  intros Hrep Hclock Hv Hnp. unfold try_init. destruct network_head as [e|e|]; [| |done].
  2:{ exists m. split; [done|]. split; [done|]. simpl. split; [done|]. left. eauto. }
  specialize (Hv e eq_refl).
  set (ins := match st_insert now s [e] with (Ok _, s) => _ | _ => _ end).
  assert (∃ m', store_rep ins.2 m' ∧ m ⊆ m' ∧
    match ins.1 with
    | Ok e0 => Ok (E := P2pError) e = Ok e0 ∧ ∃ e', m' !! eh_height e0 = Some e' ∧ eh_hash e' = eh_hash e0
    | Err er => m' = m ∧ ((∃ e', Ok e = Err e' ∧ er = SynP2p e') ∨
         ∃ x head, er = SynStore (InsertionFailed x) ∧ Ok (E := P2pError) e = Ok head ∧
           ¬ extends now m [head])
    | Panic => False
    end) as Hins.
  { subst ins. destruct (spec_insert s m now [e] Hrep) as [(Hres&Hi&Hrep')|((x&Hx)&Hrep'&Hno)];
      [by constructor|done|..]; destruct (st_insert now s [e]) as [r s']; simpl in *; subst r; simpl.
    - exists (insert_all m [e]). split; [done|]. split; [by apply insertable_subseteq|].
      split; [done|]. exists e. split; [|done]. simpl. by rewrite lookup_insert_eq.
    - exists m. split; [done|]. split; [done|]. split; [done|]. right. eauto. }
  clearbody ins.
  destruct (spec_get_head s m Hrep) as [[-> ->]|(t&e0&->&Ht&He0)]; [done|].
  case_bool_decide as Hne; [done|].
  assert (eh_hash e0 = eh_hash e) as Heq.
  { destruct (decide (eh_hash e0 = eh_hash e)); [done|]. by destruct Hne. }
  exists m. simpl. split; [done|]. split; [done|]. split; [done|]. exists e0. split; [|done].
  destruct (proj1 (store_rep_ok s m Hrep) _ _ He0) as [Hh Hv0].
  by rewrite <-(valid_hash e0 e Hv0 Hv Heq), Hh.
Qed.

(** ** Theorems *)

(** [calculate_range_to_fetch], on the ranges of a store and a head: it never panics;
    the range holds only heights that are missing, at most [limit] of them; it is empty
    exactly when nothing is missing up to the subjective head and the stored head; and a
    range that is not empty either continues the stored head upwards or ends right below
    the lowest of the stored heights that have no gap above them, so it can be
    inserted. *)
Theorem calculate_range_to_fetch_correct head rs limit :
  canonical rs → 1 ≤ head < u64_max → 1 ≤ limit ≤ u64_max →
  ∃ r, calculate_range_to_fetch head rs limit = Ok r ∧ range_size r ≤ limit ∧
    (∀ h, in_range h r → 0 < h ≤ Z.max head (last_end 0 rs) ∧ ¬ in_ranges h rs) ∧
    (range_is_empty r = true ↔ ∀ h, 1 ≤ h ≤ Z.max head (last_end 0 rs) → in_ranges h rs) ∧
    (range_is_empty r = false →
       br_start r = last_end 0 rs + 1 ∨
       in_ranges (br_end r + 1) rs ∧
       ∀ h, br_end r < h ≤ Z.max head (last_end 0 rs) → in_ranges h rs).
Proof. apply next_batch_spec. Qed.

(** [fetch_next_batch] either changes nothing or starts one batch.  It starts one only
    when none is ongoing, a peer is connected and the head is known; the batch has no more
    than [batch_size] heights, none of them stored, is a new head above an unbroken end or
    ends below a stored header, and that header is inside the syncing window.  It changes
    nothing only for one of the listed reasons. *)
Theorem fetch_next_batch_correct now peers w m : worker_inv w m →
  (fetch_next_batch time_checked_sub now peers w = Ok w ∧ nothing_to_fetch now peers w m) ∨
  ∃ r h, fetch_next_batch time_checked_sub now peers w = Ok (start_batch w r) ∧
    batch_started now peers w m r h.
Proof. apply fetch_next_batch_spec. Qed.

(** A batch size of zero, which the builder does not refuse: nothing is ever fetched, whatever
    is missing, and no error tells. *)
Theorem zero_batch_size_never_fetches now peers w m : store_rep (w_store w) m → w_ongoing w = w_task w →
  (∀ h, w_subjective_head_height w = Some h → 1 ≤ h < i64_max) → w_batch_size w = 0 →
  fetch_next_batch time_checked_sub now peers w = Ok w.
Proof. apply zero_batch_fetches_nothing. Qed.

(** Initialization: [try_init] never panics, only ever adds to the store, and when it
    returns a network head, the store has a header with that hash at that height; when it
    fails the store is as before, because the network failed or because the head does not
    extend the stored chain. *)
Theorem try_init_correct now s m network_head :
  store_rep s m → clock_ok now → (∀ e, network_head = Ok e → valid e) → network_head ≠ Panic →
  ∃ m', store_rep (try_init now s network_head).2 m' ∧ m ⊆ m' ∧
    match (try_init now s network_head).1 with
    | Ok e => network_head = Ok e ∧ ∃ e', m' !! eh_height e = Some e' ∧ eh_hash e' = eh_hash e
    | Err e => m' = m ∧
        ((∃ e', network_head = Err e' ∧ e = SynP2p e') ∨
         ∃ x head, e = SynStore (InsertionFailed x) ∧ network_head = Ok head ∧
           ¬ extends now m [head])
    | Panic => False
    end.
Proof. apply try_init_spec. Qed.
End WorkerLemmas.

(** ** A concrete syncer *)

#[local] Existing Instances toy_DahExternals toy_Tendermint toy_TendermintSpec toy_validated.

Definition toy_store : InMemoryStoreInner := (im_insert toy_now im_new [toy_1]).2.
Definition toy_worker : Worker InMemoryStoreInner :=
  {| w_store := toy_store; w_header_sub := true; w_subjective_head_height := Some 3;
     w_batch_size := 1; w_ongoing := None; w_task := None; w_syncing_window := 1000000;
     w_events := [] |}.
Definition toy_env : Env := {| env_now := toy_now; env_peers := 4 |}.
Definition toy_sub (t d : Z) : option Z := Some (t - d).
Definition toy_chain (h : Z) : ExtendedHeader :=
  if h =? 1 then toy_1 else if h =? 2 then toy_2 else toy_3.

Lemma toy_worker_inv : worker_inv validated toy_worker (insert_all ∅ [toy_1]).
Proof.
  split.
  - exact toy_state_rep.
  - reflexivity.
  - intros r Hr. discriminate Hr.
  - intros h Hh. injection Hh as <-. unfold i64_max. lia.
  - simpl. unfold u64_max. lia.
Qed.

Lemma toy_linked : linked toy_1 [toy_2; toy_3].
Proof. apply (adjacent_range_linked (λ _, 1000) toy_1 [toy_2; toy_3]). vm_compute. reflexivity. Qed.

Lemma toy_honest_chain : honest_chain validated toy_sub toy_env 3 1 toy_chain toy_worker.
Proof.
  assert (∀ h, 1 ≤ h ≤ 3 → h = 1 ∨ h = 2 ∨ h = 3) as Hcases by lia.
  split.
  - intros h [->|[->| ->]]%Hcases; [exact toy_1_validated|exact toy_2_validated|exact toy_3_validated].
  - intros h [->|[->| ->]]%Hcases; reflexivity.
  - destruct toy_linked as (H1&H2&H3&H4&H5&H6&H7&H8&H9&H10&_). intros h Hh.
    assert (h = 1 ∨ h = 2) as [->| ->] by lia.
    + change (toy_chain 1) with toy_1. change (toy_chain (1 + 1)) with toy_2. simpl. auto 10.
    + change (toy_chain 2) with toy_2. change (toy_chain (2 + 1)) with toy_3. simpl. auto 10.
  - intros h [->|[->| ->]]%Hcases i; vm_compute; reflexivity.
  - intros h [->|[->| ->]]%Hcases _; vm_compute; reflexivity.
Qed.

Lemma toy_on_chain : on_chain 3 toy_chain (insert_all ∅ [toy_1]).
Proof.
  intros h e. unfold insert_all. cbn [foldl].
  intros [[<- <-]|[_ He]]%lookup_insert_Some; [|by rewrite lookup_empty in He].
  change (eh_height toy_1) with 1. split; [lia|]. reflexivity.
Qed.

Lemma calculate_range_to_fetch_correct_witness :
  ∃ r, calculate_range_to_fetch 20 [1 ..= 3; 7 ..= 20] 2 = Ok r ∧ range_size r ≤ 2.
Proof.
  destruct (calculate_range_to_fetch_correct 20 [1 ..= 3; 7 ..= 20] 2) as (r&Hr&Hlen&_).
  - vm_compute. repeat split; reflexivity || discriminate.
  - unfold u64_max. lia.
  - unfold u64_max. lia.
  - exists r. split; assumption.
Defined.

Lemma fetch_next_batch_correct_witness :
  (fetch_next_batch toy_sub 1000 4 toy_worker = Ok toy_worker ∧
     nothing_to_fetch toy_sub 1000 4 toy_worker (insert_all ∅ [toy_1])) ∨
  ∃ r h, fetch_next_batch toy_sub 1000 4 toy_worker = Ok (start_batch toy_worker r) ∧
    batch_started toy_sub 1000 4 toy_worker (insert_all ∅ [toy_1]) r h.
Proof.
  apply (fetch_next_batch_correct validated toy_sub 1000 4 toy_worker (insert_all ∅ [toy_1])).
  exact toy_worker_inv.
Defined.

Lemma zero_batch_size_never_fetches_witness :
  let w := {| w_store := toy_store; w_header_sub := true; w_subjective_head_height := Some 3;
     w_batch_size := 0; w_ongoing := None; w_task := None; w_syncing_window := 1000000; w_events := [] |} in
  fetch_next_batch toy_sub 1000 4 w = Ok w.
Proof.
  apply (zero_batch_size_never_fetches validated toy_sub 1000 4 _ (insert_all ∅ [toy_1])).
  - exact toy_state_rep.
  - reflexivity.
  - intros h [= <-]. unfold i64_max. lia.
  - reflexivity.
Defined.

(** An announced head that does not fit yet, a failed batch, then the batch. *)
Definition toy_events : list (Env * ConnectedEvent) :=
  [(toy_env, CeHeaderSub (Some toy_3)); (toy_env, CeBatch (Err NoConnectedPeers));
   (toy_env, CeBatch (Ok [toy_2])); (toy_env, CeCancelled)].

Lemma toy_events_ok : Forall (event_ok validated) toy_events.
Proof.
  apply Forall_cons; split; [split; [exact toy_clock_ok|]|].
  { split; [exact toy_3_validated|]. vm_compute. reflexivity. }
  apply Forall_cons; split; [split; [exact toy_clock_ok|exact I]|].
  apply Forall_cons; split; [split; [exact toy_clock_ok|]|].
  { apply Forall_singleton. exact toy_2_validated. }
  apply Forall_cons; split; [split; [exact toy_clock_ok|exact I]|constructor].
Qed.

Lemma try_init_correct_witness :
  ∃ m', im_rep validated (try_init toy_now toy_store (Ok toy_3)).2 m' ∧ insert_all ∅ [toy_1] ⊆ m'.
Proof.
  destruct (try_init_correct validated toy_now toy_store (insert_all ∅ [toy_1]) (Ok toy_3))
    as (m'&Hrep&Hm&_).
  - exact toy_state_rep.
  - exact toy_clock_ok.
  - intros e He. injection He as <-. exact toy_3_validated.
  - discriminate.
  - exists m'. split; assumption.
Defined.
