(* ===== verification/SyncerRun.v ===== *)
(** * The life of the syncer (src/node/src/syncer.rs, [Worker::run])

    The worker alternates between two loops until it is cancelled: [connecting_event_loop]
    waits for a trusted peer and obtains the head of the network ([try_init_task], which
    retries everything that is not fatal), [connected_event_loop] (Syncer.v) fetches what is
    missing.  A loop runs on the list of the events it sees and reports how it was left; the
    whole life is a list of phases, one per turn of [run].  The durations between retries are
    not represented; an event is handled without being interrupted. *)

From S2P Require Import Prelude Consts BlockRanges Nmt Merkle Dah Header ShwapIds Store.
From S2P Require Import InMemoryStore HeaderEx HeaderSession Syncer.

(** ** The loop of a syncer that is not connected *)

(** [CnTryInit] is one round of [try_init_task]: the result of [wait_connected_trusted], the
    answer to [get_head_header], and, should it come to that, the result of
    [init_header_sub]. *)
Inductive ConnectingEvent :=
| CnCancelled
| CnReport
| CnTryInit (connected : res P2pError unit) (network_head : res P2pError ExtendedHeader)
    (init : res P2pError unit)
| CnCmd.

Section Run.
Context {S : Type} `{!Store S} (time_checked_sub : Z → Z → option Z).

(** One round of [try_init_task]; [event_reported] is its local variable.  The worker
    after it, whether the event was reported, and the network head if it is done. *)
Definition try_init_round (w : Worker S) (event_reported : bool) (env : Env)
    (connected : res P2pError unit) (network_head : res P2pError ExtendedHeader)
    : res SyncerError (Worker S * bool * option ExtendedHeader) :=
  let retry (e : SyncerError) (w : Worker S) (event_reported : bool) :=
    if syncer_error_is_fatal e then Err e else Ok (w, event_reported, None) in
  match connected with
  | Panic => Panic
  | Err e => retry (SynP2p e) w event_reported
  | Ok _ =>
      let w := if event_reported then w else send_event w FetchingHeadHeaderStarted in
      match try_init (env_now env) (w_store w) network_head with
      | (Panic, _) => Panic
      | (Err e, s) => retry e (set_store w s) true
      | (Ok network_head, s) => Ok (set_store w s, true, Some network_head)
      end
  end.

(** One iteration; [false]: the loop is left. *)
Definition connecting_step (w : Worker S) (event_reported : bool) (env : Env) (ev : ConnectingEvent)
    : res SyncerError (Worker S * bool * bool) :=
  match ev with
  | CnCancelled => Ok (w, event_reported, false)
  | CnReport => _ ← report w; Ok (w, event_reported, true)
  | CnTryInit connected network_head init =>
      '(w, event_reported, done) ← try_init_round w event_reported env connected network_head;
      match done with
      | None => Ok (w, event_reported, true)
      | Some network_head => w ← on_initialized w network_head init; Ok (w, event_reported, false)
      end
  | CnCmd => _ ← syncing_info w; Ok (w, event_reported, true)
  end.

Fixpoint connecting_loop (w : Worker S) (event_reported : bool) (evs : list (Env * ConnectingEvent))
    : res SyncerError (Worker S * LoopExit) :=
  match evs with
  | [] => Ok (w, Waiting)
  | (env, ev) :: evs =>
      '(w, event_reported, continue) ← connecting_step w event_reported env ev;
      if continue : bool then connecting_loop w event_reported evs
      else Ok (w, match ev with CnCancelled => Cancelled | _ => Left end)
  end.

Definition connecting_event_loop (w : Worker S) (evs : list (Env * ConnectingEvent))
    : res SyncerError (Worker S * LoopExit) :=
  _ ← report w;
  connecting_loop w false evs.

(** ** The run of the worker *)

(** What one turn of the loop of [run] meets: the cancellation token where it is read, the
    events of the two loops, and the surroundings when the second one is entered. *)
Record Phase := {
  ph_cancelled_1 : bool;
  ph_connecting : list (Env * ConnectingEvent);
  ph_cancelled_2 : bool;
  ph_env : Env;
  ph_connected : list (Env * ConnectedEvent)
}.

Fixpoint syncer_run (w : Worker S) (phases : list Phase) : res SyncerError (Worker S * LoopExit) :=
  match phases with
  | [] => Ok (w, Waiting)
  | ph :: phases =>
      if ph_cancelled_1 ph then Ok (w, Cancelled) else
      '(w, ex) ← connecting_event_loop w (ph_connecting ph);
      match ex with
      | Waiting => Ok (w, Waiting)
      | Cancelled => Ok (w, Cancelled)
      | Left =>
          if ph_cancelled_2 ph then Ok (w, Cancelled) else
          '(w, ex) ← connected_event_loop time_checked_sub w (ph_env ph) (ph_connected ph);
          match ex with
          | Left => syncer_run w phases
          | _ => Ok (w, ex)
          end
      end
  end.

(** [Syncer::start] and the task it spawns: the fatal error is published as an event. *)
Definition syncer_start (store : S) (batch_size syncing_window : Z) (phases : list Phase)
    : res SyncerError (Worker S * LoopExit) * bool :=
  let r := syncer_run (worker_new store batch_size syncing_window) phases in
  (r, match r with Err _ => true | _ => false end).
End Run.

(** ** Lemmas: safety *)

Section Safety.
Context `{!Tendermint} `{!DahExternals} {S : Type} `{!Store S}.
Context (valid : ExtendedHeader → Prop) `{!ValidHeaders valid} `{!StoreSpec S valid}.
Context (time_checked_sub : Z → Z → option Z).

(** [wait_connected_trusted] and [init_header_sub] fail only because the p2p worker died
    (src/node/src/p2p.rs); heads that the network answered were validated. *)
Definition connecting_event_ok (x : Env * ConnectingEvent) : Prop :=
  clock_ok (env_now x.1) ∧
  match x.2 with
  | CnTryInit connected network_head init =>
      connected ∈ [Ok tt; Err P2pWorkerDied] ∧ init ∈ [Ok tt; Err P2pWorkerDied] ∧
      match network_head with Ok e => valid e ∧ 0 < eh_height e | Err _ => True | Panic => False end
  | _ => True
  end.

Definition phase_ok (ph : Phase) : Prop :=
  Forall connecting_event_ok (ph_connecting ph) ∧ Forall (event_ok valid) (ph_connected ph).

(** Events and the header-sub channel are no part of the invariant. *)
Lemma worker_inv_same w w' m : worker_inv valid w m →
  store_rep (w_store w') m → w_ongoing w' = w_ongoing w → w_task w' = w_task w →
  w_subjective_head_height w' = w_subjective_head_height w → w_batch_size w' = w_batch_size w →
  worker_inv valid w' m.
Proof. intros [Hs Ht Hr Hh Hb] Hs' Ho Ht' Hh' Hb'. constructor; rewrite ?Ho, ?Ht', ?Hh', ?Hb'; auto. Qed.

Lemma on_initialized_spec w m e init : worker_inv valid w m → valid e → 0 < eh_height e →
  init ∈ [Ok tt; Err P2pWorkerDied] →
  match on_initialized w e init with
  | Ok w' => worker_inv valid w' m ∧ head_le_opt (w_subjective_head_height w) (w_subjective_head_height w') ∧
      w_header_sub w' = true ∧ w_task w' = w_task w ∧ w_syncing_window w' = w_syncing_window w ∧
      w_batch_size w' = w_batch_size w ∧
      w_subjective_head_height w' = Some (Z.max (eh_height e) (default 0 (w_subjective_head_height w)))
  | Err er => er = SynP2p P2pWorkerDied
  | Panic => False
  end.
Proof.
  intros Hinv Hv Hpos Hi. pose proof (valid_height e Hv).
  destruct (set_subjective_inv valid w m (eh_height e) Hinv ltac:(lia)) as (Hinv'&Hsj&Hle&Hs&_&Ht).
  unfold on_initialized. apply elem_of_cons in Hi as [->|Hi]; [|by apply list_elem_of_singleton in Hi as ->].
  cbn. split; [by destruct Hinv'; constructor|]. split_and!; try done.
  all: unfold set_subjective_head_height; by repeat case_match.
Qed.

Lemma connecting_step_spec w m b env ev : worker_inv valid w m → w_task w = None →
  connecting_event_ok (env, ev) →
  match connecting_step w b env ev with
  | Ok (w', _, continue) => step_safe valid w m w' ∧ w_task w' = None ∧
      (continue = false → ev = CnCancelled ∨ w_header_sub w' = true)
  | Err e => syncer_error_is_fatal e = true ∧ ∃ e', e = SynP2p e'
  | Panic => False
  end.
Proof.
  intros Hinv Htask [Hclock Hev]. cbn in Hclock, Hev.
  assert (∀ w', w_store w' = w_store w → w_ongoing w' = w_ongoing w → w_task w' = w_task w →
    w_subjective_head_height w' = w_subjective_head_height w → w_batch_size w' = w_batch_size w →
    step_safe valid w m w') as Hsame.
  { intros w' Hs Ho Ht Hh Hb. exists m. split; [|by rewrite Hh].
    apply (worker_inv_same w); auto. rewrite Hs. apply (winv_store _ _ _ Hinv). }
  destruct (stored_ranges_spec valid _ _ (winv_store _ _ _ Hinv)) as (rs&Hrs&_).
  unfold connecting_step, report, syncing_info.
  destruct ev as [| |connected network_head init|]; [by auto|rewrite Hrs; by split_and!; auto| |rewrite Hrs; by split_and!; auto].
  destruct Hev as (Hc&Hi&Hn). unfold try_init_round.
  apply elem_of_cons in Hc as [->|Hc]; [|apply list_elem_of_singleton in Hc as ->; cbn; eauto].
  set (w1 := if b then w else send_event w FetchingHeadHeaderStarted).
  assert (w_store w1 = w_store w ∧ w_ongoing w1 = w_ongoing w ∧ w_task w1 = w_task w ∧
    w_subjective_head_height w1 = w_subjective_head_height w ∧ w_batch_size w1 = w_batch_size w)
    as (Hs1&Ho1&Ht1&Hh1&Hb1) by (by subst w1; destruct b).
  destruct (try_init_spec valid (env_now env) (w_store w) m network_head) as (m1&Hrep&Hm&Hres);
    [apply (winv_store _ _ _ Hinv)|done|by intros e ->; apply Hn|by intros ->|].
  rewrite Hs1. destruct (try_init (env_now env) (w_store w) network_head) as [[e|e|] s]; cbn [fst snd] in *; [| |done].
  - destruct Hres as (->&_). destruct Hn as [Hv Hpos]. cbv [mbind res_bind].
    assert (worker_inv valid (set_store w1 s) m1) as Hinv1.
    { destruct Hinv as [? ? ? ? ?]. constructor; cbn; rewrite ?Ho1, ?Ht1, ?Hh1, ?Hb1; auto. }
    pose proof (on_initialized_spec (set_store w1 s) m1 e init Hinv1 Hv Hpos Hi) as Ho.
    destruct (on_initialized (set_store w1 s) e init) as [w2|er|]; [|subst er; cbn; eauto|done].
    destruct Ho as (Hinv2&Hle&Hsub&Ht2&_). cbn in Hle, Ht2. rewrite Hh1 in Hle.
    split; [by exists m1|split; [congruence|auto]].
  - destruct Hres as (->&[(e'&->&->)|(x&hd&->&->&_)]); cbn.
    + destruct (p2p_error_is_fatal e') eqn:Hf; [by split; [|eauto]|]. cbv [mbind res_bind].
      split; [|split; [cbn; congruence|done]]. exists m. split; [|cbn; by rewrite Hh1].
      apply (worker_inv_same w); auto.
    + split; [|split; [cbn; congruence|done]]. exists m. split; [|cbn; by rewrite Hh1].
      apply (worker_inv_same w); auto.
Qed.

Lemma connecting_loop_spec w m b evs : worker_inv valid w m → w_task w = None →
  Forall connecting_event_ok evs →
  match connecting_loop w b evs with
  | Ok (w', ex) => step_safe valid w m w' ∧ w_task w' = None ∧ (ex = Left → w_header_sub w' = true)
  | Err e => syncer_error_is_fatal e = true ∧ ∃ e', e = SynP2p e'
  | Panic => False
  end.
Proof.
  intros Hinv Ht Hevs. revert w m b Hinv Ht; induction Hevs as [|[env ev] evs Hev _ IH];
    intros w m b Hinv Ht; cbn [connecting_loop];
    [by split_and!; [exists m; split_and!; [done|done|reflexivity]| |]|].
  pose proof (connecting_step_spec w m b env ev Hinv Ht Hev) as Hstep.
  destruct (connecting_step w b env ev) as [[[w1 b1] continue]|e|]; [|done..].
  cbv [mbind res_bind]. destruct Hstep as (Hsafe&Ht1&Hleft). destruct continue.
  - destruct Hsafe as (m1&Hinv1&Hm1&Hle1). specialize (IH w1 m1 b1 Hinv1 Ht1).
    destruct (connecting_loop w1 b1 evs) as [[w2 ex]|e|]; [|done..].
    destruct IH as ((m2&Hinv2&Hm2&Hle2)&Ht2&Hex). split; [|done]. exists m2.
    split; [done|]. split; by etrans.
  - split; [done|]. split; [done|]. destruct (Hleft eq_refl) as [->|Hs]; [done|]. by destruct ev.
Qed.

Lemma syncer_run_spec w m phases : worker_inv valid w m → w_task w = None → Forall phase_ok phases →
  match syncer_run time_checked_sub w phases with
  | Ok (w', ex) => step_safe valid w m w' ∧ (ex = Cancelled → w_task w' = None)
  | Err e => syncer_error_is_fatal e = true ∧ ∃ e', e = SynP2p e'
  | Panic => False
  end.
Proof.
  intros Hinv Ht Hphs. revert w m Hinv Ht; induction Hphs as [|ph phases [Hcn Hcd] _ IH];
    intros w m Hinv Ht; cbn [syncer_run].
  { split; [|done]. exists m. split_and!; [done|done|reflexivity]. }
  destruct (ph_cancelled_1 ph); [split; [|done]; exists m; split_and!; [done|done|reflexivity]|].
  unfold connecting_event_loop, report, syncing_info.
  destruct (stored_ranges_spec valid _ _ (winv_store _ _ _ Hinv)) as (rs&->&_). cbn [map_err].
  pose proof (connecting_loop_spec w m false _ Hinv Ht Hcn) as Hcl.
  cbv [mbind res_bind]. destruct (connecting_loop w false (ph_connecting ph)) as [[w1 ex]|e|]; [|done..].
  destruct Hcl as (Hsafe1&Ht1&Hsub1). destruct ex; [by split| |by split].
  destruct (ph_cancelled_2 ph); [by split|].
  destruct Hsafe1 as (m1&Hinv1&Hm1&Hle1).
  pose proof (connected_event_loop_spec valid time_checked_sub w1 m1 (ph_env ph) _ Hinv1 (Hsub1 eq_refl) Hcd) as Hel.
  destruct (connected_event_loop time_checked_sub w1 (ph_env ph) (ph_connected ph)) as [[w2 ex2]|e|]; [|done..].
  destruct Hel as [(m2&Hinv2&Hm2&Hle2) Ht2]. specialize (Ht2 Ht1).
  assert (m ⊆ m2 ∧ head_le_opt (w_subjective_head_height w) (w_subjective_head_height w2)) as [Hm' Hle']
    by (split; by etrans).
  assert (step_safe valid w m w2) as Hsafe2 by (by exists m2).
  destruct ex2; [by split| |by split; [|auto]]. specialize (IH w2 m2 Hinv2 (Ht2 ltac:(done))).
  destruct (syncer_run time_checked_sub w2 phases) as [[w3 ex3]|e|]; [|done..].
  destruct IH as [(m3&Hinv3&Hm3&Hle3) Hex3]. split; [|done]. exists m3. split; [done|]. split; by etrans.
Qed.
End Safety.

(** ** Lemmas: a network that eventually answers *)

Section Liveness.
Context `{!Tendermint} `{!DahExternals} {S : Type} `{!Store S}.
Context (valid : ExtendedHeader → Prop) `{!ValidHeaders valid} `{!StoreSpec S valid}.
Context (time_checked_sub : Z → Z → option Z).
Context (top low : Z) (c : Z → ExtendedHeader).

(** The surroundings in which the chain is fetched, for a worker with this syncing window. *)
Definition honest_env (w : Worker S) (env : Env) : Prop :=
  honest_chain valid time_checked_sub env top low c w ∧ clock_ok (env_now env) ∧ env_peers env ≠ 0.

(** Events before the network answers: reports, commands, and rounds that fail for a reason
    that is not fatal. *)
Definition transient (x : Env * ConnectingEvent) : Prop :=
  match x.2 with
  | CnReport | CnCmd => True
  | CnTryInit (Ok _) (Err e) _ => p2p_error_is_fatal e = false
  | _ => False
  end.

(** The events of a loop that starts in [w] and gets [n] batches answered with the headers of
    the chain; in between, batches may fail and whatever else may happen that does not concern
    the chain. *)
Fixpoint served (w : Worker S) (evs : list (Env * ConnectedEvent)) (n : nat) : Prop :=
  match evs with
  | [] => n = 0%nat
  | (env, ev) :: evs =>
      honest_env w env ∧
      let next n := ∀ w', connected_step time_checked_sub w env ev = Ok (w', true) → served w' evs n in
      match ev with
      | CeReport | CeCmd | CePeersChanged => next n
      | CeBatch (Err e) => p2p_error_is_fatal e = false ∧ next n
      | CeBatch (Ok l) =>
          (∀ r, w_task w = Some r → l = c <$> heights_of r) ∧ ∃ n', n = Datatypes.S n' ∧ next n'
      | _ => False
      end
  end.

Lemma honest_chain_same env (w w' : Worker S) : w_syncing_window w' = w_syncing_window w →
  honest_chain valid time_checked_sub env top low c w → honest_chain valid time_checked_sub env top low c w'.
Proof.
  intros Hw [? ? ? ? Hwin]. constructor; auto. intros h Hh. unfold in_syncing_window in *. rewrite Hw. auto.
Qed.

Lemma fetching_env env env' w m : honest_env w env' →
  fetching valid time_checked_sub env top low c w m → fetching valid time_checked_sub env' top low c w m.
Proof. intros (Hc&_&_) (?&?&_&?&?). do 4 (split; [done|]). done. Qed.

(** A batch that came back: after a failure it is fetched again, after an answer less is
    missing. *)
Lemma served_batch w m env r (x : answer) : honest_env w env →
  fetching valid time_checked_sub env top low c w m → w_task w = Some r →
  match x with Ok l => l = c <$> heights_of r | Err e => p2p_error_is_fatal e = false | Panic => False end →
  ∃ w' m', connected_step time_checked_sub w env (CeBatch x) = Ok (w', true) ∧
    fetching valid time_checked_sub env top low c w' m' ∧ w_syncing_window w' = w_syncing_window w ∧
    (missing top m' ≤ missing top m)%nat ∧ (is_ok x = true → (missing top m' < missing top m)%nat) ∧
    m ⊆ m'.
Proof.
  intros (Hc&Hclock&Hpeers) (Hinv&Hm&_&[Hsj Hbs]&Htask) Ht Hx. rewrite Ht in Htask. unfold connected_step. rewrite Ht.
  assert (match x with Ok l => Forall valid l | Err _ => True | Panic => False end) as Hval.
  { destruct x as [l|e|]; [|done|done]. subst l. apply Forall_forall. intros e (h&->&Hh)%list_elem_of_fmap.
    apply (hc_valid _ _ _ _ _ _ _ Hc). unfold heights_of, range_size in Hh. apply elem_of_seqZ in Hh.
    destruct Htask as (?&?&_). lia. }
  pose proof (on_result_inv valid time_checked_sub (env_now env) w m r x Hinv Hclock Ht Hval) as Hres.
  destruct (on_fetch_next_batch_result (env_now env) w x) as [w1|e|];
    [|destruct Hres as (e'&->&_&Hf); congruence|done].
  destruct Hres as (m1&Hinv1&Hsub&Ht1&Hsj1&_&Hbs1&Hwin1&Hm1). cbv [mbind res_bind].
  assert (on_chain top c m1 ∧ (missing top m1 ≤ missing top m)%nat ∧
    (is_ok x = true → (missing top m1 < missing top m)%nat)) as (Hon&Hle&Hlt).
  { destruct x as [l|e|]; [|by subst m1|done]. subst l.
    destruct Hm1 as [[_ ->]|[-> Hno]]; [|by destruct Hno; eapply honest_extends].
    destruct (insert_chain valid time_checked_sub env top low c w m r Hc Hm Htask) as [? ?]. split; [done|]. split; [lia|done]. }
  assert (honest_chain valid time_checked_sub env top low c w1) as Hc1 by (by eapply honest_chain_same).
  destruct (fetch_next_batch_spec valid time_checked_sub (env_now env 0%nat) (env_peers env) w1 m1 Hinv1) as [[Hf _]|(r'&h&Hf&_)];
    destruct (fetch_step valid time_checked_sub env top low c w1 m1 Hinv1 Hon Hc1 ltac:(congruence) ltac:(congruence) Ht1 Hpeers) as (w2&Hw2&Hfe&_);
    rewrite Hf in Hw2; injection Hw2 as <-; rewrite Hf; eexists _, m1; by split_and!.
Qed.

Lemma connected_loop_served w m env0 evs n : fetching valid time_checked_sub env0 top low c w m → served w evs n →
  covered top low m ∨ (missing top m ≤ n)%nat →
  ∃ w' m', connected_loop time_checked_sub w evs = Ok (w', Waiting) ∧ worker_inv valid w' m' ∧
    on_chain top c m' ∧ covered top low m'.
Proof.
  revert w m env0 n; induction evs as [|[env ev] evs IH]; intros w m env0 n Hfe Hs Hn; cbn [served connected_loop] in *.
  { exists w, m. destruct Hfe as (?&?&_). split_and!; auto. destruct Hn as [?|?]; [done|].
    intros h Hh _. apply (proj2 (missing_zero top m)); [lia|done]. }
  destruct Hs as [Henv Hev]. apply (fetching_env env0 env) in Hfe; [|done].
  assert (∀ n', connected_step time_checked_sub w env ev = Ok (w, true) → covered top low m ∨ (missing top m ≤ n')%nat →
    (∀ w', connected_step time_checked_sub w env ev = Ok (w', true) → served w' evs n') →
    ∃ w' m', ('(w, continue) ← connected_step time_checked_sub w env ev;
       if continue : bool then connected_loop time_checked_sub w evs
       else Ok (leave_connected w, match ev with CeCancelled => Cancelled | _ => Left end)) = Ok (w', Waiting) ∧
      worker_inv valid w' m' ∧ on_chain top c m' ∧ covered top low m') as Hidle.
  { intros n' Hstep Hle Hnext. rewrite Hstep. apply (IH w m env n'); auto. }
  assert (∀ x : answer, ev = CeBatch x → w_task w = None → covered top low m ∧
    connected_step time_checked_sub w env ev = Ok (w, true)) as Hterm.
  { intros x -> Ht. destruct Hfe as (_&_&_&_&Hz). rewrite Ht in Hz. unfold connected_step. by rewrite Ht. }
  destruct (stored_ranges_spec valid _ _ (winv_store _ _ _ (proj1 Hfe))) as (rs&Hrs&_).
  destruct ev as [| | |hd| |x]; [done| | |done| |].
  - apply (Hidle n); [|done..]. destruct Henv as (_&_&Hp). cbn. by rewrite (proj2 (Z.eqb_neq _ _)).
  - apply (Hidle n); [|done..]. cbn. unfold report, syncing_info. by rewrite Hrs.
  - apply (Hidle n); [|done..]. cbn. unfold syncing_info. by rewrite Hrs.
  - destruct (w_task w) as [r|] eqn:Ht.
    2:{ destruct (Hterm x eq_refl eq_refl) as [Hz Hstep]. destruct x as [l|e|]; [|by apply (Hidle n); try apply Hev|done].
        destruct Hev as (_&n'&->&Hnext). apply (Hidle n'); [done|by left|done]. }
    assert (match x with Ok l => l = c <$> heights_of r | Err e => p2p_error_is_fatal e = false | Panic => False end) as Hx
      by (destruct x; [by apply Hev|apply Hev|done]).
    destruct (served_batch w m env r x Henv Hfe Ht Hx) as (w1&m1&Hstep&Hfe1&_&Hle&Hlt&Hsub). rewrite Hstep.
    assert (covered top low m → covered top low m1) as Hcov
      by (intros Hcov h Hh Hl; destruct (Hcov h Hh Hl) as [e He]; exists e; by eapply lookup_weaken). cbv [mbind res_bind].
    destruct x as [l|e|]; [| |done].
    + destruct Hev as (_&n'&->&Hnext). specialize (Hlt eq_refl). apply (IH w1 m1 env n'); auto. destruct Hn; [left; auto|right; lia].
    + destruct Hev as (_&Hnext). apply (IH w1 m1 env n); auto. destruct Hn; [left; auto|right; lia].
Qed.

(** Nothing that is transient changes anything but the published events. *)
Lemma connecting_transient w m b pre evs : worker_inv valid w m → Forall transient pre →
  ∃ w' b', connecting_loop w b (pre ++ evs) = connecting_loop w' b' evs ∧ worker_inv valid w' m ∧
    w_task w' = w_task w ∧ w_subjective_head_height w' = w_subjective_head_height w ∧
    w_syncing_window w' = w_syncing_window w ∧ w_batch_size w' = w_batch_size w.
Proof.
  intros Hinv Hpre. revert w b Hinv; induction Hpre as [|[env ev] pre Hev _ IH]; intros w b Hinv; [by exists w, b|].
  destruct (stored_ranges_spec valid _ _ (winv_store _ _ _ Hinv)) as (rs&Hrs&_).
  assert (∃ w1 b1, connecting_step w b env ev = Ok (w1, b1, true) ∧ worker_inv valid w1 m ∧ w_task w1 = w_task w ∧
    w_subjective_head_height w1 = w_subjective_head_height w ∧ w_syncing_window w1 = w_syncing_window w ∧
    w_batch_size w1 = w_batch_size w) as (w1&b1&Hstep&Hinv1&Ht1&Hh1&Hw1&Hb1).
  { unfold connecting_step, report, syncing_info, try_init_round. destruct ev as [| |[[]|?|] [?|e|] init|]; try done.
    - rewrite Hrs. by exists w, b.
    - cbn in Hev. cbn. rewrite Hev. eexists _, true. split; [done|]. destruct b; by split_and!; [destruct Hinv; constructor|..].
    - rewrite Hrs. by exists w, b. }
  destruct (IH w1 b1 Hinv1) as (w'&b'&Heq&Hinv'&Ht'&Hh'&Hw'&Hb'). exists w', b'. cbn [app connecting_loop]. rewrite Hstep.
  cbv [mbind res_bind]. split_and!; [done|done|congruence..].
Qed.

(** The head of the chain is taken over by a store that holds a part of the chain. *)
Lemma try_init_honest s m env w : store_rep s m → on_chain top c m → honest_env w env → 1 ≤ top →
  ∃ s' m', try_init (env_now env) s (Ok (c top)) = (Ok (c top), s') ∧ store_rep s' m' ∧ on_chain top c m'.
Proof.
  intros Hrep Hm (Hc&Hclock&_) Htop.
  assert (Forall valid [c top]) as Hv by (apply Forall_singleton, (hc_valid _ _ _ _ _ _ _ Hc); lia).
  assert (c <$> heights_of (top ..= top) = [c top]) as Hone.
  { rewrite honest_list by (cbn; lia). cbn [br_start br_end]. by rewrite Z.sub_diag. }
  assert ((∀ h, is_Some (m !! h) → h < top) → ∃ s' m',
    st_insert (env_now env) s [c top] = (Ok tt, s') ∧ store_rep s' m' ∧ on_chain top c m') as Hins.
  { intros Hlt. assert (batch_ready top m (top ..= top)) as Hready.
    { split; [cbn; lia|]. split; [cbn; lia|]. split; [|by left]. intros k Hk. unfold in_range in Hk. cbn in Hk.
      apply eq_None_not_Some. intros Hk'%Hlt. lia. }
    pose proof (honest_extends valid time_checked_sub env top low c w m _ Hc Hm Hready) as He. rewrite Hone in He.
    destruct (insert_chain valid time_checked_sub env top low c w m _ Hc Hm Hready) as [Hon _]. rewrite Hone in Hon.
    destruct (spec_insert s m (env_now env) [c top] Hrep Hv Hclock) as [(Hr&_&Hrep')|(_&_&Hno)]; [|done].
    destruct (st_insert (env_now env) s [c top]) as [r s']. cbn in Hr, Hrep'. subst r. by exists s', (insert_all m [c top]). }
  unfold try_init. destruct (spec_get_head s m Hrep) as [[Hm0 ->]|(t&e&->&Ht&He)].
  { destruct Hins as (s'&m'&->&?&?); [|by exists s', m']. intros h [x Hx]. by rewrite Hm0, lookup_empty in Hx. }
  pose proof (Hm _ _ He) as [Hrng ->]. case_bool_decide as Hne; [|by exists s, m].
  destruct Hins as (s'&m'&->&?&?); [|by exists s', m']. intros h [x Hx].
  assert (h ≤ t) by (apply Ht; eauto). assert (t ≠ top) by (intros ->; by destruct Hne). lia.
Qed.

Lemma connecting_honest w m b pre env : worker_inv valid w m → on_chain top c m → honest_env w env → 1 ≤ top →
  (∀ h, w_subjective_head_height w = Some h → h ≤ top) → Forall transient pre →
  ∃ w' m', connecting_loop w b (pre ++ [(env, CnTryInit (Ok tt) (Ok (c top)) (Ok tt))]) = Ok (w', Left) ∧
    worker_inv valid w' m' ∧ on_chain top c m' ∧ honest_env w' env ∧ w_task w' = w_task w ∧
    w_subjective_head_height w' = Some top ∧ w_batch_size w' = w_batch_size w.
Proof.
  intros Hinv Hm Henv Htop Hsj Hpre.
  destruct (connecting_transient w m b pre [(env, CnTryInit (Ok tt) (Ok (c top)) (Ok tt))] Hinv Hpre)
    as (w1&b1&->&Hinv1&Ht1&Hh1&Hw1&Hb1).
  destruct (try_init_honest _ m env w (winv_store _ _ _ Hinv1) Hm Henv Htop) as (s'&m'&Htry&Hrep&Hon).
  cbn [connecting_loop connecting_step]. unfold try_init_round.
  set (w2 := if b1 then w1 else send_event w1 FetchingHeadHeaderStarted).
  replace (w_store w2) with (w_store w1) by (by subst w2; destruct b1). rewrite Htry. cbv [mbind res_bind].
  assert (worker_inv valid (set_store w2 s') m' ∧ w_syncing_window w2 = w_syncing_window w1 ∧ w_task w2 = w_task w1 ∧
    w_subjective_head_height w2 = w_subjective_head_height w1 ∧ w_batch_size w2 = w_batch_size w1)
    as (Hinv2&Hw2&Ht2&Hh2&Hb2).
  { subst w2. destruct b1; split_and!; try done; destruct Hinv1; by constructor. }
  destruct Henv as (Hc&Hclock&Hp).
  pose proof (hc_height _ _ _ _ _ _ _ Hc top ltac:(lia)) as Htoph.
  pose proof (on_initialized_spec valid (set_store w2 s') m' (c top) (Ok tt) Hinv2 (hc_valid _ _ _ _ _ _ _ Hc top ltac:(lia))
    ltac:(rewrite Htoph; lia) ltac:(by left)) as Ho.
  destruct (on_initialized (set_store w2 s') (c top) (Ok tt)) as [w3|e|] eqn:Hi; [|exfalso; unfold on_initialized in Hi; discriminate Hi|done].
  destruct Ho as (Hinv3&_&_&Ht3&Hw3&Hb3&Hh3). cbn in Ht3, Hw3, Hb3, Hh3. exists w3, m'.
  split_and!; [done|done|done| |congruence| |congruence].
  - split; [|done]. eapply honest_chain_same; [|exact Hc]. congruence.
  - rewrite Hh3, Htoph, Hh2, Hh1. f_equal. destruct (w_subjective_head_height w) as [h|]; cbn; [|lia].
    specialize (Hsj h eq_refl). lia.
Qed.

(** ** Theorems *)

(** C1. The syncer fetches the chain of the network as far back as the syncing window asks for.
    Let the headers from height [low] up to the head [top] be inside the syncing window whenever
    it is checked (older ones may be inside or not).  A new worker whose store holds any part of
    the chain meets any number of rounds that fail for reasons that are not fatal, then a trusted
    peer that knows the head: it leaves the connecting loop, and whatever events follow (failed
    batches, reports, commands), after at most as many answered batches as there are heights,
    the store holds every header of the chain from [low - 1] (the one below the last header of
    the window) to the head; with [low = 1], when the whole chain is inside the window, that is
    all of it.  Nothing ends the run. *)
Theorem syncer_syncs_network s m batch_size syncing_window pre env :
  let w := worker_new s batch_size syncing_window in
  let connecting := pre ++ [(env, CnTryInit (Ok tt) (Ok (c top)) (Ok tt))] in
  store_rep s m → on_chain top c m → 1 ≤ batch_size ≤ u64_max → 1 ≤ top →
  honest_env w env → Forall transient pre →
  ∃ w1 w2, connecting_event_loop w connecting = Ok (w1, Left) ∧
    fetch_next_batch time_checked_sub (env_now env 0%nat) (env_peers env) w1 = Ok w2 ∧
    ∀ evs n, served w2 evs n → top ≤ Z.of_nat n →
      ∃ w' m', syncer_run time_checked_sub w
          [{| ph_cancelled_1 := false; ph_connecting := connecting; ph_cancelled_2 := false;
              ph_env := env; ph_connected := evs |}] = Ok (w', Waiting) ∧
        store_rep (w_store w') m' ∧
        ∀ h, 1 ≤ h ≤ top → low - 1 ≤ h → m' !! h = Some (c h).
Proof.
  intros w connecting Hrep Hm Hb Htop Henv Hpre.
  assert (worker_inv valid w m) as Hinv by (constructor; try done; cbn; lia).
  destruct (stored_ranges_spec valid _ _ Hrep) as (rs&Hrs&_).
  destruct (connecting_honest w m false pre env Hinv Hm Henv Htop ltac:(done) Hpre) as (w1&m1&Hcl&Hinv1&Hm1&Henv1&Ht1&Hsj1&Hb1).
  destruct Henv1 as (Hc1&Hclock&Hpeers).
  destruct (fetch_step valid time_checked_sub env top low c w1 m1 Hinv1 Hm1 Hc1 Hsj1
    ltac:(rewrite Hb1; cbn; lia) Ht1 Hpeers) as (w2&Hf&Hfe&_).
  assert (connecting_event_loop w connecting = Ok (w1, Left)) as Hce.
  { unfold connecting_event_loop, report, syncing_info. change (w_store w) with s. by rewrite Hrs. }
  exists w1, w2. split_and!; [done|done|]. intros evs n Hs Hn.
  assert (missing top m1 ≤ n)%nat as Hmiss.
  { unfold missing. pose proof (length_filter (λ h, m1 !! h = None) (seqZ 1 top)) as Hle. rewrite length_seqZ in Hle. lia. }
  destruct (connected_loop_served w2 m1 env evs n Hfe Hs (or_intror Hmiss)) as (w'&m'&Hl&Hinv'&Hon&Hz). exists w', m'.
  destruct (stored_ranges_spec valid _ _ (winv_store _ _ _ (proj1 Hfe))) as (rs2&Hrs2&_).
  split_and!; [|apply (winv_store _ _ _ Hinv')|].
  - cbn [syncer_run ph_cancelled_1 ph_connecting ph_cancelled_2 ph_env ph_connected]. rewrite Hce. cbv [mbind res_bind].
    unfold connected_event_loop. rewrite (proj2 (Z.eqb_neq _ _)) by done. rewrite Hf. cbv [mbind res_bind].
    unfold report, syncing_info. rewrite Hrs2. cbn [map_err]. cbv [mbind res_bind]. by rewrite Hl.
  - intros h Hh Hl'. destruct (Hz h Hh Hl') as [e He]. by apply Hon in He as He'; destruct He' as [_ ->].
Qed.
End Liveness.

Section SafetyTheorem.
Context `{!Tendermint} `{!DahExternals} {S : Type} `{!Store S}.
Context (valid : ExtendedHeader → Prop) `{!ValidHeaders valid} `{!StoreSpec S valid}.
Context (time_checked_sub : Z → Z → option Z).

(** C3. The whole life of the syncer is safe, whatever the events of its phases: it never panics (in
    particular header-sub is initialized whenever the connected loop reads from it), a fatal
    error of the p2p layer is the only one that ends it, no stored header is ever lost or
    replaced, the store stays a chain, and when the worker was cancelled no batch is left
    running. *)
Theorem syncer_run_safe s m batch_size syncing_window phases :
  store_rep s m → 0 ≤ batch_size ≤ u64_max → Forall (phase_ok valid) phases →
  match syncer_start time_checked_sub s batch_size syncing_window phases with
  | (Ok (w', ex), fatal) => fatal = false ∧ (ex = Cancelled → w_task w' = None ∧ w_ongoing w' = None) ∧
      ∃ m', store_rep (w_store w') m' ∧ m ⊆ m' ∧ store_ok valid m'
  | (Err e, fatal) => fatal = true ∧ syncer_error_is_fatal e = true ∧ ∃ e', e = SynP2p e'
  | (Panic, _) => False
  end.
Proof.
  intros Hrep Hb Hph. set (w := worker_new s batch_size syncing_window).
  assert (worker_inv valid w m) as Hinv by (by constructor).
  pose proof (syncer_run_spec valid time_checked_sub w m phases Hinv eq_refl Hph) as Hrun. unfold syncer_start. fold w.
  destruct (syncer_run time_checked_sub w phases) as [[w' ex]|e|]; [|done..].
  destruct Hrun as [(m'&Hinv'&Hm&_) Hex]. split; [done|]. split.
  - intros Hc. rewrite (winv_task _ _ _ Hinv'). auto.
  - exists m'. split_and!; [apply (winv_store _ _ _ Hinv')|done|]. exact (store_rep_ok _ _ (winv_store _ _ _ Hinv')).
Qed.
End SafetyTheorem.

(** ** Witnesses *)

#[local] Existing Instances toy_DahExternals toy_Tendermint toy_TendermintSpec toy_validated.

Definition toy_pre : list (Env * ConnectingEvent) :=
  [(toy_env, CnReport); (toy_env, CnTryInit (Ok tt) (Err NoConnectedPeers) (Ok tt))].
Definition toy_connecting : list (Env * ConnectingEvent) :=
  toy_pre ++ [(toy_env, CnTryInit (Ok tt) (Ok (toy_chain 3)) (Ok tt))].
(** A report, a batch that fails, the same batch answered; then nothing is missing any more. *)
Definition toy_served_events : list (Env * ConnectedEvent) :=
  [(toy_env, CeReport); (toy_env, CeBatch (Err NoConnectedPeers)); (toy_env, CeBatch (Ok [toy_2]));
   (toy_env, CeBatch (Ok [])); (toy_env, CeBatch (Ok []))].
Definition toy_new : Worker InMemoryStoreInner := worker_new toy_store 1 1000000.
Definition toy_entered : option (Worker InMemoryStoreInner) :=
  match connecting_event_loop toy_new toy_connecting with
  | Ok (w, _) => match fetch_next_batch toy_sub 1000 4 w with Ok w => Some w | _ => None end
  | _ => None
  end.

Lemma toy_honest_env (w : Worker InMemoryStoreInner) : w_syncing_window w = 1000000 → honest_env validated toy_sub 3 1 toy_chain w toy_env.
Proof.
  intros Hw. split; [|split; [exact toy_clock_ok|discriminate]].
  apply (honest_chain_same validated toy_sub 3 1 toy_chain toy_env toy_worker); [exact Hw|exact toy_honest_chain].
Qed.

Definition toy_after (w : Worker InMemoryStoreInner) (ev : ConnectedEvent) : Worker InMemoryStoreInner :=
  match connected_step toy_sub w toy_env ev with Ok (w, _) => w | _ => w end.

Lemma toy_after_eq w ev w' : connected_step toy_sub w toy_env ev = Ok (w', true) → w' = toy_after w ev.
Proof. unfold toy_after. by intros ->. Qed.

Lemma toy_served (w : Worker InMemoryStoreInner) :
  toy_entered = Some w → served validated toy_sub 3 1 toy_chain w toy_served_events 3.
Proof.
  intros Hw. assert (w = default toy_new toy_entered) as -> by (by rewrite Hw). clear Hw.
  unfold toy_served_events. cbn [served].
  split; [apply toy_honest_env; vm_compute; reflexivity|]. intros w1 ->%toy_after_eq.
  split; [apply toy_honest_env; vm_compute; reflexivity|]. split; [done|]. intros w2 ->%toy_after_eq.
  split; [apply toy_honest_env; vm_compute; reflexivity|]. split.
  { intros r Hr. assert (Some r = Some (2 ..= 2)) as [= ->] by (rewrite <-Hr; vm_compute; reflexivity). reflexivity. }
  exists 2%nat. split; [done|]. intros w3 ->%toy_after_eq.
  split; [apply toy_honest_env; vm_compute; reflexivity|]. split.
  { intros r Hr. assert (Some r = None) as [=] by (rewrite <-Hr; vm_compute; reflexivity). }
  exists 1%nat. split; [done|]. intros w4 ->%toy_after_eq.
  split; [apply toy_honest_env; vm_compute; reflexivity|]. split.
  { intros r Hr. assert (Some r = None) as [=] by (rewrite <-Hr; vm_compute; reflexivity). }
  by exists 0%nat.
Qed.

Lemma syncer_syncs_network_witness :
  ∃ w' m', syncer_run toy_sub toy_new
      [{| ph_cancelled_1 := false; ph_connecting := toy_connecting; ph_cancelled_2 := false;
          ph_env := toy_env; ph_connected := toy_served_events |}] = Ok (w', Waiting) ∧
    im_rep validated (w_store w') m' ∧ ∀ h, 1 ≤ h ≤ 3 → m' !! h = Some (toy_chain h).
Proof.
  destruct (syncer_syncs_network validated toy_sub 3 1 toy_chain toy_store (insert_all ∅ [toy_1]) 1 1000000 toy_pre toy_env)
    as (w1&w2&Hc&Hf&Hrun).
  - exact toy_state_rep.
  - exact toy_on_chain.
  - unfold u64_max. lia.
  - lia.
  - by apply toy_honest_env.
  - repeat constructor.
  - destruct (Hrun toy_served_events 3%nat) as (w'&m'&Hr&Hrep&Hall); [|lia|].
    + apply toy_served. unfold toy_entered, toy_new, toy_connecting.
      rewrite Hc. change (fetch_next_batch toy_sub 1000 4 w1 = Ok w2) in Hf. by rewrite Hf.
    + exists w', m'. split; [exact Hr|]. split; [exact Hrep|]. intros h Hh. apply Hall; lia.
Defined.

(** The edge of the window: only the head is inside it, so the header below is still fetched and
    nothing below that one. *)
Example toy_window_edge :
  match (syncer_start toy_sub im_new 1 (1000 - eh_time toy_2)
    [{| ph_cancelled_1 := false; ph_connecting := toy_connecting; ph_cancelled_2 := false; ph_env := toy_env;
        ph_connected := [(toy_env, CeBatch (Ok [toy_2])); (toy_env, CeReport)] |}]).1 with
  | Ok (w, Waiting) => im_get_stored_ranges (w_store w) = [2 ..= 3] ∧ w_task w = None
  | _ => False
  end.
Proof. vm_compute. split; reflexivity. Qed.

(** Two phases: the peers are lost while a batch is fetched, the syncer reconnects, and is
    cancelled later. *)
Definition toy_phases : list Phase :=
  [{| ph_cancelled_1 := false; ph_connecting := toy_connecting; ph_cancelled_2 := false; ph_env := toy_env;
      ph_connected := [({| env_now := toy_now; env_peers := 0 |}, CePeersChanged)] |};
   {| ph_cancelled_1 := false; ph_connecting := toy_connecting; ph_cancelled_2 := false; ph_env := toy_env;
      ph_connected := toy_events |}].

Lemma toy_phases_ok : Forall (phase_ok validated) toy_phases.
Proof.
  assert (Forall (connecting_event_ok validated) toy_connecting) as Hc.
  { repeat apply Forall_cons_2; try apply Forall_nil_2; (split; [exact toy_clock_ok|]); cbn; try done.
    - split_and!; [by left|by left|done].
    - split_and!; [by left|by left|exact toy_3_validated|vm_compute; reflexivity]. }
  repeat apply Forall_cons_2; try apply Forall_nil_2; (split; [exact Hc|]); cbn.
  - apply Forall_singleton. split; [exact toy_clock_ok|done].
  - exact toy_events_ok.
Qed.

Example toy_two_phases :
  match (syncer_start toy_sub toy_store 1 1000000 toy_phases).1 with
  | Ok (w, Cancelled) => im_get_stored_ranges (w_store w) = [1 ..= 3] ∧
      w_events w = [FetchingHeadHeaderStarted; FetchingHeadHeaderFinished 3; FetchingHeadersStarted 2 2;
                    FetchingHeadHeaderStarted; FetchingHeadHeaderFinished 3; FetchingHeadersStarted 2 2;
                    FetchingHeadersFailed 2 2; FetchingHeadersStarted 2 2; FetchingHeadersFinished 2 2]
  | _ => False
  end.
Proof. vm_compute. split; reflexivity. Qed.

Lemma toy_phases_return :
  match (syncer_start toy_sub toy_store 1 1000000 toy_phases).1 with Ok (_, Cancelled) => true | _ => false end = true.
Proof. vm_compute. reflexivity. Qed.

Lemma syncer_run_safe_witness :
  ∃ w' m', syncer_start toy_sub toy_store 1 1000000 toy_phases = (Ok (w', Cancelled), false) ∧
    w_task w' = None ∧ im_rep validated (w_store w') m' ∧ insert_all ∅ [toy_1] ⊆ m'.
Proof.
  pose proof (syncer_run_safe validated toy_sub toy_store (insert_all ∅ [toy_1]) 1 1000000 toy_phases
    toy_state_rep ltac:(unfold u64_max; lia) toy_phases_ok) as Hrun.
  pose proof toy_phases_return as Hret.
  destruct (syncer_start toy_sub toy_store 1 1000000 toy_phases) as [[[w' ex]|e|] fatal].
  - destruct ex; [discriminate Hret|discriminate Hret|]. destruct Hrun as (->&Ht&m'&Hrep&Hm&_).
    exists w', m'. destruct (Ht eq_refl) as [Ht1 _]. split; [reflexivity|]. split; [exact Ht1|]. split; [exact Hrep|exact Hm].
  - discriminate Hret.
  - discriminate Hret.
Defined.
