(* ===== verification/Pruner.v ===== *)
(** * The pruner (src/node/src/pruner.rs)

    Removes from the store, from the lowest height on, the headers that are older than the
    pruning window, after the blocks that were fetched while sampling them.

    The blockstore is an external crate: a type with a removal that may fail.  One pass of
    the inner [while] loop takes fuel; the theorems use one more than the number of stored
    headers.  [other] stands for what other tasks do to the store between the moment the
    tail is read and the moment the last header is removed. *)

From S2P Require Import Prelude Consts BlockRanges Nmt Merkle Dah Header ShwapIds Store.
From S2P Require Import InMemoryStore HeaderEx.

(** ** Data *)

Inductive PrunerError :=
| PrP2p (e : P2pError)
| PrStore (e : StoreError)
| PrBlockstore
| WrongHeightRemoved.

Section Pruner.
Context {S B : Type} `{!Store S}.
(** [Blockstore::remove]; [None] is an error. *)
Context (bs_remove : B → Cid → option B).

Record PrunerState := {
  pr_store : S;
  pr_blockstore : B;
  pr_last_reported : option Z;
  pr_last_removed : option Z;
  (** the heights of the [PrunedHeaders] events *)
  pr_events : list Z
}.

(** ** Operations *)

Definition get_tail_header_to_prune (s : S) (cutoff : Z)
    : res PrunerError (option ExtendedHeader) :=
  ranges ← map_err PrStore (st_get_stored_header_ranges s);
  match ranges_tail ranges with
  | None => Ok None
  | Some current_tail_height =>
      header ← map_err PrStore (st_get_by_height s current_tail_height);
      if cutoff <? eh_time header then Ok None else Ok (Some header)
  end.

(** [for cid in cids]: the blocks removed before a failure stay removed. *)
Fixpoint remove_cids (b : B) (cids : list Cid) : res PrunerError unit * B :=
  match cids with
  | [] => (Ok tt, b)
  | cid :: cids =>
      match bs_remove b cid with
      | None => (Err PrBlockstore, b)
      | Some b => remove_cids b cids
      end
  end.

(** The body of the [while] loop, for the header at the tail. *)
Definition prune_header (other : S → S) (s : S) (b : B) (header : ExtendedHeader)
    : res PrunerError unit * (S * B) :=
  let height := eh_height header in
  match st_get_sampling_metadata s height with
  | Panic => (Panic, (s, b))
  | Err e => (Err (PrStore e), (s, b))
  | Ok metadata =>
      match remove_cids b (default [] (cids <$> metadata)) with
      | (Ok _, b) =>
          let s := other s in
          match st_remove_last s with
          | (Ok removed_height, s) =>
              (if height =? removed_height then Ok tt else Err WrongHeightRemoved, (s, b))
          | (Err e, s) => (Err (PrStore e), (s, b))
          | (Panic, s) => (Panic, (s, b))
          end
      | (r, b) => (r, (s, b))
      end
  end.

(** The [while] loop; [cancelled i] is the token in its [i]-th iteration.  [None]: out of
    fuel. *)
Fixpoint prune_pass (fuel : nat) (cancelled : nat → bool) (i : nat) (cutoff : Z) (s : S) (b : B)
    (last_removed : option Z) : option (res PrunerError (option Z) * (S * B)) :=
  match fuel with
  | O => None
  | Datatypes.S fuel =>
      match get_tail_header_to_prune s cutoff with
      | Panic => Some (Panic, (s, b))
      | Err e => Some (Err e, (s, b))
      | Ok None => Some (Ok last_removed, (s, b))
      | Ok (Some header) =>
          if cancelled i then Some (Ok last_removed, (s, b)) else
          match prune_header id s b header with
          | (Ok _, (s, b)) =>
              prune_pass fuel cancelled (Datatypes.S i) cutoff s b (Some (eh_height header))
          | (Err e, st) => Some (Err e, st)
          | (Panic, st) => Some (Panic, st)
          end
      end
  end.

(** One round of the outer loop, up to the sleep; [time_checked_sub] is [Time::checked_sub]
    of tendermint. *)
Definition prune_round (time_checked_sub : Z → Z → option Z) (fuel : nat) (cancelled : nat → bool) (now pruning_window : Z)
    (p : PrunerState) : option (res PrunerError PrunerState) :=
  let pruning_window_end := default 0 (time_checked_sub now pruning_window) in
  match prune_pass fuel cancelled 0 pruning_window_end (pr_store p) (pr_blockstore p)
          (pr_last_removed p) with
  | None => None
  | Some (Ok last_removed, (s, b)) =>
      Some (if bool_decide (pr_last_reported p ≠ last_removed) then
              to_height ← expect last_removed;
              Ok {| pr_store := s; pr_blockstore := b; pr_last_reported := last_removed;
                    pr_last_removed := last_removed; pr_events := pr_events p ++ [to_height] |}
            else
              Ok {| pr_store := s; pr_blockstore := b; pr_last_reported := pr_last_reported p;
                    pr_last_removed := last_removed; pr_events := pr_events p |})
  | Some (Err e, _) => Some (Err e)
  | Some (Panic, _) => Some Panic
  end.

(** ** Specification *)

(** The headers a pass removes: the ones up to which everything stored is old enough. *)
Definition prunable (m : gmap Z ExtendedHeader) (cutoff h : Z) : Prop :=
  map_Forall (λ k e, k ≤ h → eh_time e ≤ cutoff) m.
#[global] Instance prunable_dec m cutoff h : Decision (prunable m cutoff h).
Proof. unfold prunable. apply _. Defined.
Definition pruned (m : gmap Z ExtendedHeader) (cutoff : Z) : gmap Z ExtendedHeader :=
  filter (λ x, ¬ prunable m cutoff x.1) m.

(** What the pruner relies on in a blockstore, where [bs_has b] is the set of its blocks: a
    removal that succeeds removes that block and no other.  Any removal may fail. *)
Class BlockstoreSpec (bs_has : B → Cid → Prop) : Prop :=
  bs_remove_spec : ∀ b c b', bs_remove b c = Some b' →
    ∀ c', bs_has b' c' ↔ bs_has b c' ∧ c' ≠ c.
Definition bs_reliable : Prop := ∀ b c, is_Some (bs_remove b c).

Context `{!Tendermint} `{!DahExternals}.
Context (valid : ExtendedHeader → Prop) `{!ValidHeaders valid} `{!StoreSpec S valid}.
Context (bs_has : B → Cid → Prop) `{!BlockstoreSpec bs_has}.

(** The cids recorded for a height. *)
Definition recorded (s : S) (h : Z) (c : Cid) : Prop :=
  ∃ md, st_get_sampling_metadata s h = Ok (Some md) ∧ c ∈ cids md.

(** ** Lemmas *)

Lemma get_tail_spec s m cutoff : store_rep s m →
  (m = ∅ ∧ get_tail_header_to_prune s cutoff = Ok None) ∨
  ∃ t e, is_tail m t ∧ m !! t = Some e ∧
    get_tail_header_to_prune s cutoff = Ok (if cutoff <? eh_time e then None else Some e).
Proof.
  intros Hrep. unfold get_tail_header_to_prune.
  destruct (spec_stored_ranges s m Hrep) as (rs&->&Hc&Hdom). cbn [map_err]. cbv [mbind res_bind].
  destruct (ranges_dom_tail rs m (conj Hc Hdom)) as [(->&->&_)|(t&rs'&_&->&Ht&_)]; [by left|].
  right. destruct (proj1 Ht) as [e He]. exists t, e. split; [done|]. split; [done|].
  rewrite (spec_get_by_height s m t Hrep), He. simpl. by case_ifs.
Qed.

(** All the blocks are removed, or the blockstore failed and only some of them are. *)
Lemma remove_cids_spec b cs :
  (∃ b', remove_cids b cs = (Ok tt, b') ∧ ∀ c, bs_has b' c ↔ bs_has b c ∧ c ∉ cs) ∨
  ∃ b', remove_cids b cs = (Err PrBlockstore, b') ∧ ¬ bs_reliable ∧
    (∀ c, bs_has b' c → bs_has b c) ∧ ∀ c, bs_has b c → c ∉ cs → bs_has b' c.
Proof.
  revert b; induction cs as [|c cs IH]; intros b; simpl.
  { left. exists b. split; [done|]. intros c. rewrite elem_of_nil. tauto. }
  destruct (bs_remove b c) as [b1|] eqn:Hrm.
  - pose proof (bs_remove_spec _ _ _ Hrm) as Hb1.
    destruct (IH b1) as [(b'&->&Hb')|(b'&->&Hnr&Hsub&Hkeep)]; [left|right]; exists b'; (split; [done|]).
    + intros c'. rewrite Hb', Hb1, elem_of_cons. tauto.
    + split; [done|]. split; [intros c' Hc%Hsub; by apply Hb1|].
      intros c' Hc. rewrite elem_of_cons. intros Hn. apply Hkeep; [|tauto]. apply Hb1. tauto.
  - right. exists b. split; [done|]. split; [|done]. intros Hr. destruct (Hr b c) as [? Hs]. congruence.
Qed.

Lemma recorded_cids (old : option SamplingMetadata) c :
  c ∉ default [] (cids <$> old) ↔ ¬ ∃ md, Ok (E := StoreError) old = Ok (Some md) ∧ c ∈ cids md.
Proof.
  destruct old as [md|]; simpl; [|rewrite elem_of_nil; naive_solver].
  split; intros Hc Hx; apply Hc; [|by eauto]. by destruct Hx as (md'&[= <-]&?).
Qed.

(** Pruning the header at the tail, when nothing else touches the store: it is removed after
    its blocks, or the blockstore failed and it stays. *)
Lemma prune_header_spec s m b t e : store_rep s m → is_tail m t → m !! t = Some e →
  (∃ s' b', prune_header id s b e = (Ok tt, (s', b')) ∧ store_rep s' (delete t m) ∧
    (∀ h, is_Some (delete t m !! h) →
       st_get_sampling_metadata s' h = st_get_sampling_metadata s h) ∧
    ∀ c, bs_has b' c ↔ bs_has b c ∧ ¬ recorded s t c) ∨
  ∃ b', prune_header id s b e = (Err PrBlockstore, (s, b')) ∧ ¬ bs_reliable ∧
    (∀ c, bs_has b' c → bs_has b c) ∧ ∀ c, bs_has b c → ¬ recorded s t c → bs_has b' c.
Proof.
  intros Hrep Htail He. destruct (proj1 (store_rep_ok s m Hrep) _ _ He) as [Hh _].
  unfold prune_header, recorded. rewrite Hh.
  destruct (spec_sampled s m t Unknown [] Hrep) as (old&_&_&->&_); [eauto|].
  destruct (remove_cids_spec b (default [] (cids <$> old))) as [(b'&->&Hb')|(b'&->&Hnr&Hsub&Hkeep)].
  2:{ right. exists b'. do 3 (split; [done|]). intros c Hc Hn. apply Hkeep; [done|]. by apply recorded_cids. }
  left. unfold id.
  destruct (spec_remove_last s m Hrep) as [[-> _]|(t'&s'&->&Htail'&Hrep'&Hmd)];
    [by rewrite lookup_empty in He|].
  assert (t' = t) as ->.
  { destruct Htail as [Hs Hmin], Htail' as [Hs' Hmin'].
    apply Hmin' in Hs. apply Hmin in Hs'. lia. }
  rewrite Z.eqb_refl. exists s', b'. split; [done|]. split; [done|]. split; [done|].
  intros c. by rewrite Hb', (recorded_cids old).
Qed.

Lemma prunable_delete m cutoff t e h : is_tail m t → m !! t = Some e → eh_time e ≤ cutoff →
  prunable (delete t m) cutoff h ↔ prunable m cutoff h.
Proof.
  intros _ He Hle. unfold prunable. split; intros Hp k e' Hk Hkh.
  - destruct (decide (k = t)) as [->|Hne]; [by rewrite He in Hk; injection Hk as <-|].
    apply (Hp k e'); [|done]. by rewrite lookup_delete_ne.
  - apply lookup_delete_Some in Hk as [_ Hk]. by apply (Hp k e').
Qed.

Lemma prunable_tail m cutoff t e : is_tail m t → m !! t = Some e → eh_time e ≤ cutoff →
  prunable m cutoff t.
Proof.
  intros [_ Hmin] He Hle k e' Hk Hkt. assert (t ≤ k) by (apply Hmin; eauto).
  assert (k = t) as -> by lia. rewrite He in Hk. by injection Hk as <-.
Qed.

Lemma pruned_delete m cutoff t e : is_tail m t → m !! t = Some e → eh_time e ≤ cutoff →
  pruned (delete t m) cutoff = pruned m cutoff.
Proof.
  intros Ht He Hle. unfold pruned. apply map_eq. intros h. apply option_eq. intros x.
  rewrite !map_lookup_filter_Some, lookup_delete_Some. simpl.
  rewrite (prunable_delete m cutoff t e h) by done. split; [tauto|].
  intros [Hx Hn]. split; [|done]. split; [|done]. intros <-. by apply Hn, (prunable_tail m cutoff t e).
Qed.

(** A stored header is kept from the first one on that is too young. *)
Lemma pruned_none m cutoff t e : is_tail m t → m !! t = Some e → cutoff < eh_time e →
  pruned m cutoff = m ∧ ∀ h, is_Some (m !! h) → ¬ prunable m cutoff h.
Proof.
  intros [_ Hmin] He Hlt.
  assert (∀ h, is_Some (m !! h) → ¬ prunable m cutoff h) as Hno.
  { intros h Hh Hp. specialize (Hp t e He (Hmin h Hh)). simpl in Hp. lia. }
  split; [|done]. apply map_filter_id. intros h x Hx. apply Hno. eauto.
Qed.

(** What a whole pass does: all of it, or up to a failure of the blockstore. *)
Definition pass_result (s : S) (m : gmap Z ExtendedHeader) (b : B) (cutoff : Z)
    (last last' : option Z) (s' : S) (b' : B) : Prop :=
  store_rep s' (pruned m cutoff) ∧
  (∀ c, bs_has b' c ↔ bs_has b c ∧
     ¬ ∃ h, is_Some (m !! h) ∧ prunable m cutoff h ∧ recorded s h c) ∧
  ((last' = last ∧ pruned m cutoff = m) ∨
   ∃ h, last' = Some h ∧ is_Some (m !! h) ∧ prunable m cutoff h ∧
     ∀ k, is_Some (m !! k) → prunable m cutoff k → k ≤ h).
Definition pass_failed (s : S) (m : gmap Z ExtendedHeader) (b : B) (cutoff : Z) (s' : S) (b' : B) : Prop :=
  ¬ bs_reliable ∧ ∃ m', store_rep s' m' ∧ m' ⊆ m ∧ pruned m cutoff ⊆ m' ∧ m' ≠ pruned m cutoff ∧
    (∀ h c, is_Some (m !! h) → m' !! h = None → recorded s h c → ¬ bs_has b' c) ∧
    (∀ c, bs_has b' c → bs_has b c) ∧
    ∀ c, bs_has b c → ¬ bs_has b' c → ∃ h, is_Some (m !! h) ∧ prunable m cutoff h ∧ recorded s h c.

(** The outcome after the header at the tail, put together with what follows. *)
Section Tail.
Context (s s1 : S) (m : gmap Z ExtendedHeader) (b b1 : B) (cutoff t : Z) (e : ExtendedHeader).
Context (Htail : is_tail m t) (He : m !! t = Some e) (Hle : eh_time e ≤ cutoff).
Context (Hmd : ∀ h, is_Some (delete t m !! h) → st_get_sampling_metadata s1 h = st_get_sampling_metadata s h).
Context (Hb1 : ∀ c, bs_has b1 c ↔ bs_has b c ∧ ¬ recorded s t c).

Lemma pass_cons last last' s' b' : pass_result s1 (delete t m) b1 cutoff (Some t) last' s' b' →
  pass_result s m b cutoff last last' s' b'.
Proof.
  intros (Hr1&Hr2&Hr3).
  assert (prunable m cutoff t) as Hpt by (by apply (prunable_tail m cutoff t e)).
  assert (∀ h, prunable (delete t m) cutoff h ↔ prunable m cutoff h) as Hpd
    by (intros h; by apply (prunable_delete m cutoff t e)).
  unfold pass_result. rewrite (pruned_delete m cutoff t e) in Hr1, Hr3 by done.
  split; [done|]. split.
  - intros c. rewrite Hr2, Hb1. split.
    + intros [[Hc Hnt] Hn]. split; [done|]. intros (h&Hs&Hp&Hrec).
      destruct (decide (h = t)) as [->|Hne]; [done|]. apply Hn. exists h.
      assert (is_Some (delete t m !! h)) as Hs' by (by rewrite lookup_delete_ne).
      split; [done|]. rewrite Hpd. split; [done|]. unfold recorded in *. by rewrite Hmd.
    + intros [Hc Hn]. split; [split; [done|]|].
      * intros Hrec. apply Hn. exists t. eauto.
      * intros (h&Hs&Hp&Hrec). apply Hn. exists h. rewrite Hpd in Hp.
        unfold recorded in *. rewrite Hmd in Hrec by done.
        destruct Hs as [x [Hne Hx]%lookup_delete_Some]. eauto.
  - right. destruct Hr3 as [[-> Hsame]|(h&->&Hs&Hp&Hmax)].
    + exists t. split; [done|]. split; [eauto|]. split; [done|]. intros k [x Hk] Hpk.
      destruct (decide (k = t)) as [->|Hne]; [lia|exfalso].
      assert (pruned m cutoff !! k = Some x) as Hkk by (by rewrite Hsame, lookup_delete_ne).
      apply map_lookup_filter_Some in Hkk as [_ Hn]. by apply Hn.
    + exists h. rewrite Hpd in Hp. destruct Hs as [x [Hne Hx]%lookup_delete_Some].
      split; [done|]. split; [eauto|]. split; [done|]. intros k [y Hk] Hpk.
      destruct (decide (k = t)) as [->|Hnk]; [apply Htail; eauto|].
      apply Hmax; [|by apply Hpd]. by rewrite lookup_delete_ne.
Qed.

Lemma pass_failed_cons s' b' : pass_failed s1 (delete t m) b1 cutoff s' b' → pass_failed s m b cutoff s' b'.
Proof.
  intros (Hnr&m'&Hrep&Hsub&Hpr&Hne&Hgone&Hbs&Hrec). split; [done|]. exists m'.
  assert (∀ h, prunable (delete t m) cutoff h ↔ prunable m cutoff h) as Hpd
    by (intros h; by apply (prunable_delete m cutoff t e)).
  rewrite (pruned_delete m cutoff t e) in Hpr, Hne by done. split; [done|].
  split; [etrans; [exact Hsub|apply delete_subseteq]|]. split; [done|]. split; [done|]. split; [|split].
  - intros h c Hh Hno Hr. destruct (decide (h = t)) as [->|Hn].
    + intros Hc%Hbs%Hb1. tauto.
    + assert (is_Some (delete t m !! h)) as Hs' by (by rewrite lookup_delete_ne).
      apply (Hgone h c); [done|done|]. unfold recorded in *. by rewrite Hmd.
  - intros c Hc%Hbs%Hb1. tauto.
  - intros c Hc Hnc.
    assert (bs_has b1 c ∨ recorded s t c) as [Hc1|Hr].
    { destruct (st_get_sampling_metadata s t) as [[md|]| |] eqn:Hm;
        [destruct (decide (c ∈ cids md)) as [Hin|Hin]; [right; by exists md|left]|left..];
        (apply Hb1; split; [done|]; intros (md'&Hmd'&Hc'); congruence || (rewrite Hm in Hmd'; by injection Hmd' as <-)). }
    + destruct (Hrec c Hc1 Hnc) as (h&Hh&Hp&Hr). exists h. rewrite Hpd in Hp. unfold recorded in *.
      rewrite Hmd in Hr by done. destruct Hh as [x [Hne' Hx]%lookup_delete_Some]. eauto.
    + exists t. split; [eauto|]. split; [|done]. by apply (prunable_tail m cutoff t e).
Qed.
End Tail.

Lemma prune_pass_spec fuel i cutoff s m b last : store_rep s m → (size m < fuel)%nat →
  ∃ r s' b', prune_pass fuel (λ _, false) i cutoff s b last = Some (r, (s', b')) ∧
    match r with
    | Ok last' => pass_result s m b cutoff last last' s' b'
    | Err e => e = PrBlockstore ∧ pass_failed s m b cutoff s' b'
    | Panic => False
    end.
Proof.
  revert i s m b last; induction fuel as [|fuel IH]; intros i s m b last Hrep Hf; [lia|].
  cbn [prune_pass]. destruct (get_tail_spec s m cutoff Hrep) as [[-> ->]|(t&e&Htail&He&->)].
  { exists (Ok last), s, b. split; [done|]. unfold pass_result, pruned. rewrite map_filter_empty.
    split; [done|]. split; [|by left]. intros c. split; [|tauto]. intros Hc. split; [done|].
    intros (h&[x Hx]&_). by rewrite lookup_empty in Hx. }
  destruct (Z.ltb_spec cutoff (eh_time e)) as [Hlt|Hle].
  { exists (Ok last), s, b. split; [done|]. destruct (pruned_none m cutoff t e) as [Heq Hno]; [done..|].
    unfold pass_result. rewrite Heq. split; [done|]. split; [|by left].
    intros c. split; [|tauto]. intros Hc. split; [done|]. intros (h&Hh&Hp&_). by apply (Hno h). }
  destruct (prune_header_spec s m b t e) as [(s1&b1&->&Hrep1&Hmd&Hb1)|(b1&->&Hnr&Hsub&Hkeep)]; [done..| |].
  - destruct (proj1 (store_rep_ok s m Hrep) _ _ He) as [Hh _]. rewrite Hh.
    destruct (IH (Datatypes.S i) s1 (delete t m) b1 (Some t)) as (r&s'&b'&Hrun&Hres); [done| |].
    { rewrite map_size_delete, He. destruct (size m) eqn:Hsz; [|lia].
      apply map_size_empty_inv in Hsz. rewrite Hsz in He. by rewrite lookup_empty in He. }
    exists r, s', b'. split; [done|]. destruct r as [last'|er|]; [|destruct Hres as [-> Hres]; split; [done|]|done].
    + by eapply pass_cons.
    + by eapply pass_failed_cons.
  - exists (Err PrBlockstore), s, b1. split; [done|]. split; [done|]. split; [done|]. exists m.
    split; [done|]. split; [done|]. split; [apply map_filter_subseteq|]. split.
    { intros Heq. assert (pruned m cutoff !! t = Some e) as Hp by (by rewrite <-Heq).
      apply map_lookup_filter_Some in Hp as [_ Hp]. by apply Hp, (prunable_tail m cutoff t e). }
    split; [intros h c [x Hx] Hno; congruence|]. split; [done|]. intros c Hc Hnc. exists t.
    split; [eauto|]. split; [by apply (prunable_tail m cutoff t e)|].
    destruct (spec_sampled s m t Unknown [] Hrep) as (old&_&_&Hold&_); [eauto|]. unfold recorded. rewrite Hold.
    destruct (decide (c ∈ default [] (cids <$> old))) as [Hin|Hin].
    + destruct old as [md|]; [by exists md|by apply elem_of_nil in Hin].
    + exfalso. apply Hnc, Hkeep; [done|]. unfold recorded. rewrite Hold. by apply recorded_cids.
Qed.

Lemma pruned_eq_iff m cutoff : pruned m cutoff = m ↔ ∀ h, is_Some (m !! h) → ¬ prunable m cutoff h.
Proof.
  split.
  - intros Heq h [x Hx] Hp. rewrite <-Heq in Hx. by apply map_lookup_filter_Some in Hx as [_ Hn].
  - intros Hno. apply map_filter_id. intros h x Hx. apply Hno. eauto.
Qed.

(** ** Theorems *)

(** C32. One pass of the pruner terminates (a pass over [n] stored headers takes at most
    [n + 1] iterations) and never panics.  When the blockstore does not fail, exactly the headers
    up to the first stored one that is younger than the cutoff are removed from the store,
    exactly the blocks recorded for the removed headers are removed from the blockstore, and the
    result is the greatest removed height.  A failure of the blockstore, the only error there
    is, ends the pass before that: the headers that are gone were to be pruned and have none of
    their recorded blocks left, at least one that was to be pruned is still stored, and no other
    block was removed than one recorded for a header that was to be pruned. *)
Theorem prune_pass_correct cutoff s m b last :
  store_rep s m →
  ∃ r s' b',
    prune_pass (Datatypes.S (size m)) (λ _, false) 0 cutoff s b last = Some (r, (s', b')) ∧
    match r with
    | Ok last' =>
        store_rep s' (pruned m cutoff) ∧
        (∀ c, bs_has b' c ↔ bs_has b c ∧
           ¬ ∃ h, is_Some (m !! h) ∧ prunable m cutoff h ∧ recorded s h c) ∧
        ((last' = last ∧ pruned m cutoff = m) ∨
         ∃ h, last' = Some h ∧ is_Some (m !! h) ∧ prunable m cutoff h ∧
           ∀ k, is_Some (m !! k) → prunable m cutoff k → k ≤ h)
    | Err e =>
        e = PrBlockstore ∧ ¬ bs_reliable ∧
        ∃ m', store_rep s' m' ∧ m' ⊆ m ∧ pruned m cutoff ⊆ m' ∧ m' ≠ pruned m cutoff ∧
          (∀ h c, is_Some (m !! h) → m' !! h = None → recorded s h c → ¬ bs_has b' c) ∧
          (∀ c, bs_has b' c → bs_has b c) ∧
          ∀ c, bs_has b c → ¬ bs_has b' c → ∃ h, is_Some (m !! h) ∧ prunable m cutoff h ∧ recorded s h c
    | Panic => False
    end.
Proof.
  intros Hrep. destruct (prune_pass_spec (Datatypes.S (size m)) 0 cutoff s m b last Hrep)
    as (r&s'&b'&Hrun&Hres); [lia|].
  exists r, s', b'. split; [done|]. exact Hres.
Qed.

(** A round of the outer loop keeps the last reported height equal to the last removed
    one, so its [expect] never fails; it reports nothing when nothing is removed, and the
    greatest removed height (unless it was the last one reported) otherwise.  It fails only
    because the blockstore does. *)
Theorem prune_round_correct time_checked_sub now window p m :
  store_rep (pr_store p) m → pr_last_reported p = pr_last_removed p →
  let cutoff := default 0 (time_checked_sub now window) in
  (∃ p', prune_round time_checked_sub (Datatypes.S (size m)) (λ _, false) now window p = Some (Ok p') ∧
    store_rep (pr_store p') (pruned m cutoff) ∧
    pr_last_reported p' = pr_last_removed p' ∧
    ((∀ h, is_Some (m !! h) → ¬ prunable m cutoff h) ∧
       pr_last_removed p' = pr_last_removed p ∧ pr_events p' = pr_events p ∨
     ∃ h, is_Some (m !! h) ∧ prunable m cutoff h ∧
       (∀ k, is_Some (m !! k) → prunable m cutoff k → k ≤ h) ∧
       pr_last_removed p' = Some h ∧
       pr_events p' = pr_events p ++ (if bool_decide (pr_last_removed p = Some h) then [] else [h]))) ∨
  (prune_round time_checked_sub (Datatypes.S (size m)) (λ _, false) now window p = Some (Err PrBlockstore) ∧
   ¬ bs_reliable).
Proof.
  intros Hrep Heq cutoff. unfold prune_round. fold cutoff.
  destruct (prune_pass_spec (Datatypes.S (size m)) 0 cutoff (pr_store p) m (pr_blockstore p)
    (pr_last_removed p) Hrep) as (r&s'&b'&->&Hres); [lia|].
  destruct r as [last'|e|]; [left|right; by destruct Hres as [-> [? _]]|done].
  destruct Hres as (Hrep'&_&Hlast).
  rewrite Heq. destruct Hlast as [[-> Hsame]|(h&->&Hs&Hp&Hmax)].
  - rewrite bool_decide_false by (intros Hne; by apply Hne). eexists. split; [done|]. simpl.
    split; [done|]. split; [done|]. left. split; [|done]. by apply pruned_eq_iff.
  - destruct (decide (pr_last_removed p = Some h)) as [Hl|Hl].
    + rewrite bool_decide_false by (intros Hne; by apply Hne). eexists. split; [done|]. simpl.
      split; [done|]. split; [done|]. right. exists h. rewrite bool_decide_true by done.
      by rewrite app_nil_r.
    + rewrite bool_decide_true by done. eexists. split; [done|]. simpl.
      split; [done|]. split; [done|]. right. exists h. by rewrite bool_decide_false by done.
Qed.

(** Removal is not tied to the header that was inspected: if another task changes the
    lowest stored header after the tail was read, the pruner removes that other header from
    the store, keeps its recorded blocks, and only then reports [WrongHeightRemoved]. *)
Theorem prune_wrong_height other s m b t e m' t' :
  store_rep s m → is_tail m t → m !! t = Some e →
  store_rep (other s) m' → is_tail m' t' → t' ≠ t → bs_reliable →
  ∃ s' b', prune_header other s b e = (Err WrongHeightRemoved, (s', b')) ∧
    store_rep s' (delete t' m') ∧
    ∀ c, bs_has b' c ↔ bs_has b c ∧ ¬ recorded s t c.
Proof.
  intros Hrep Htail He Hrep' Htail' Hne Hrel.
  destruct (proj1 (store_rep_ok s m Hrep) _ _ He) as [Hh _]. unfold prune_header, recorded.
  rewrite Hh. destruct (spec_sampled s m t Unknown [] Hrep) as (old&_&_&->&_); [eauto|].
  destruct (remove_cids_spec b (default [] (cids <$> old))) as [(b'&->&Hb')|(b'&_&Hnr&_)]; [|done].
  destruct (spec_remove_last (other s) m' Hrep') as [[-> _]|(t2&s'&->&Htail2&Hrep2&_)].
  { destruct Htail' as [[x Hx] _]. by rewrite lookup_empty in Hx. }
  assert (t2 = t') as ->.
  { destruct Htail' as [Hs1 Hmin1], Htail2 as [Hs2 Hmin2].
    apply Hmin2 in Hs1. apply Hmin1 in Hs2. lia. }
  rewrite (proj2 (Z.eqb_neq t t')) by done. exists s', b'. split; [done|]. split; [done|].
  intros c. by rewrite Hb', (recorded_cids old).
Qed.
End Pruner.

(** ** A concrete pruner *)

#[local] Existing Instances toy_DahExternals toy_Tendermint toy_TendermintSpec toy_validated.

Definition toy_bs_remove (b : list Cid) (c : Cid) : option (list Cid) := Some (filter (λ x, x ≠ c) b).
#[local] Instance toy_BlockstoreSpec : BlockstoreSpec toy_bs_remove (λ b c, c ∈ b).
Proof.
  intros b c b' [= <-] c'. rewrite list_elem_of_filter. tauto.
Qed.
Lemma toy_bs_reliable : bs_reliable toy_bs_remove.
Proof. intros b c. by eexists. Qed.
(** A blockstore in which the block [bad] cannot be removed. *)
Definition toy_bs_failing (bad : Cid) (b : list Cid) (c : Cid) : option (list Cid) :=
  if bool_decide (c = bad) then None else Some (filter (λ x, x ≠ c) b).
Definition toy_minus (t d : Z) : option Z := Some (t - d).

Definition toy_pruner : PrunerState :=
  {| pr_store := (im_insert toy_now im_new [toy_1]).2; pr_blockstore := [toy_cid 5; toy_cid 6] : list Cid;
     pr_last_reported := None; pr_last_removed := None; pr_events := [] |}.

Lemma prune_pass_correct_witness :
  ∃ s' b' last',
    prune_pass toy_bs_remove (S (size (insert_all ∅ [toy_1]))) (λ _, false) 0 1000
      (im_insert toy_now im_new [toy_1]).2 [toy_cid 5; toy_cid 6] None = Some (Ok last', (s', b')) ∧
    im_rep validated s' (pruned (insert_all ∅ [toy_1]) 1000).
Proof.
  destruct (prune_pass_correct toy_bs_remove validated (λ b c, c ∈ b) 1000
    (im_insert toy_now im_new [toy_1]).2 (insert_all ∅ [toy_1]) [toy_cid 5; toy_cid 6] None)
    as (r&s'&b'&Hrun&Hres); [exact toy_state_rep|].
  destruct r as [last'|e|]; [|exfalso; destruct Hres as (_&Hno&_); exact (Hno toy_bs_reliable)|destruct Hres].
  exists s', b', last'. split; [exact Hrun|exact (proj1 Hres)].
Defined.

Lemma prune_round_correct_witness :
  ∃ p', prune_round toy_bs_remove toy_minus (S (size (insert_all ∅ [toy_1]))) (λ _, false) 2000 500
      toy_pruner = Some (Ok p') ∧ pr_last_reported p' = pr_last_removed p'.
Proof.
  destruct (prune_round_correct toy_bs_remove validated (λ b c, c ∈ b) toy_minus 2000 500 toy_pruner
    (insert_all ∅ [toy_1])) as [(p'&Hrun&_&Heq&_)|[_ Hno]]; [exact toy_state_rep|reflexivity| |].
  - exists p'. split; [exact Hrun|exact Heq].
  - exfalso. exact (Hno toy_bs_reliable).
Defined.

(** Evaluated: the blockstore fails at the second of two blocks; the first one is gone, the
    header stays. *)
Example toy_prune_failed :
  match prune_round (toy_bs_failing (toy_cid 6)) toy_minus 5 (λ _, false) 2000 500
    {| pr_store := (im_update_sampling_metadata (im_insert toy_now im_new [toy_1]).2 1 Accepted [toy_cid 5; toy_cid 6]).2;
       pr_blockstore := [toy_cid 5; toy_cid 6] : list Cid;
       pr_last_reported := None; pr_last_removed := None; pr_events := [] |} with
  | Some (Err PrBlockstore) => True
  | _ => False
  end.
Proof. vm_compute. exact I. Qed.

(** Evaluated: the header and the block recorded for it are removed, and reported. *)
Example toy_pruned :
  match prune_round toy_bs_remove toy_minus 5 (λ _, false) 2000 500
    {| pr_store := (im_update_sampling_metadata (im_insert toy_now im_new [toy_1]).2 1 Accepted [toy_cid 5]).2;
       pr_blockstore := [toy_cid 5; toy_cid 6] : list Cid;
       pr_last_reported := None; pr_last_removed := None; pr_events := [] |} with
  | Some (Ok p) => im_get_stored_ranges (pr_store p) = [] ∧ pr_blockstore p = [toy_cid 6] ∧ pr_events p = [1]
  | _ => False
  end.
Proof. vm_compute. repeat split; reflexivity. Qed.

(** A store whose lowest header is 2, to which another task adds header 1. *)
Lemma toy_2_rep : im_rep validated (im_insert toy_now im_new [toy_2]).2 (insert_all ∅ [toy_2]).
Proof.
  destruct (im_insert_spec validated toy_now im_new ∅ [toy_2] (im_rep_new _) toy_clock_ok)
    as [(_&_&Hrep)|[[e He] _]]; [|exact Hrep|].
  - constructor; [apply toy_2_validated|constructor].
  - exfalso. apply (f_equal fst) in He. vm_compute in He. discriminate.
Qed.
Lemma toy_21_rep :
  im_rep validated (im_insert toy_now (im_insert toy_now im_new [toy_2]).2 [toy_1]).2
    (insert_all (insert_all ∅ [toy_2]) [toy_1]).
Proof.
  destruct (im_insert_spec validated toy_now _ _ [toy_1] toy_2_rep toy_clock_ok)
    as [(_&_&Hrep)|[[e He] _]]; [|exact Hrep|].
  - constructor; [apply toy_1_validated|constructor].
  - exfalso. apply (f_equal fst) in He. vm_compute in He. discriminate.
Qed.

Lemma toy_tails : is_tail (insert_all ∅ [toy_2]) 2 ∧
  is_tail (insert_all (insert_all ∅ [toy_2]) [toy_1]) 1.
Proof.
  unfold insert_all; cbn [foldl]. change (eh_height toy_2) with 2. change (eh_height toy_1) with 1.
  split; (split; [eexists; reflexivity|]); intros h Hh.
  - destruct (decide (h = 2)) as [->|Hne]; [lia|].
    rewrite lookup_insert_ne, lookup_empty in Hh by done. by destruct Hh.
  - destruct (decide (h = 1)) as [->|Hne]; [lia|]. rewrite lookup_insert_ne in Hh by done.
    destruct (decide (h = 2)) as [->|Hne2]; [lia|].
    rewrite lookup_insert_ne, lookup_empty in Hh by done. by destruct Hh.
Qed.

Lemma prune_wrong_height_witness :
  ∃ s' b', prune_header toy_bs_remove (λ s, (im_insert toy_now s [toy_1]).2)
      (im_insert toy_now im_new [toy_2]).2 [toy_cid 5; toy_cid 6] toy_2 = (Err WrongHeightRemoved, (s', b')) ∧
    im_rep validated s' (delete 1 (insert_all (insert_all ∅ [toy_2]) [toy_1])).
Proof.
  destruct (prune_wrong_height toy_bs_remove validated (λ b c, c ∈ b)
    (λ s, (im_insert toy_now s [toy_1]).2) (im_insert toy_now im_new [toy_2]).2 (insert_all ∅ [toy_2])
    [toy_cid 5; toy_cid 6] 2 toy_2 (insert_all (insert_all ∅ [toy_2]) [toy_1]) 1) as (s'&b'&Hrun&Hrep&_).
  - exact toy_2_rep.
  - exact (proj1 toy_tails).
  - reflexivity.
  - exact toy_21_rep.
  - exact (proj2 toy_tails).
  - discriminate.
  - exact toy_bs_reliable.
  - exists s', b'. split; [exact Hrun|exact Hrep].
Defined.
