(* ===== verification/Daser.v ===== *)
(** * The sampling scheduler (src/node/src/daser.rs)

    Chooses which blocks to sample and which shares of them, records the cids it is going to
    fetch, and records the verdict when the fetching is over.

    A sampling future is represented by the height and the share indexes it works on; it
    completes with one result per share.  The clock, the random numbers, the number of
    peers and the order in which futures complete come with the events.  A [HashSet] of
    indexes is a list without duplicates, in the order of insertion; no theorem depends on
    that order.  The events of the node and the log output are not represented. *)

From S2P Require Import Prelude Consts BlockRanges Nmt Merkle Dah Header ShwapIds Store.
From S2P Require Import InMemoryStore HeaderEx Shwap.

(** ** Data *)

Definition MAX_SAMPLES_NEEDED : nat := 16.

Inductive DaserError :=
| DaP2p (e : P2pError)
| DaStore (e : StoreError).

(** A future: the height and the (row, column) pairs it samples. *)
Record SamplingFut := { sf_height : Z; sf_shares : list (Z * Z) }.

Record Daser (S : Type) := {
  d_store : S;
  d_max_samples_needed : nat;
  d_sampling_futs : list SamplingFut;
  d_queue : BlockRanges;
  d_done : BlockRanges;
  d_ongoing : BlockRanges;
  d_prev_head : option Z;
  d_sampling_window : Z
}.
Arguments d_store {S} _.
Arguments d_max_samples_needed {S} _.
Arguments d_sampling_futs {S} _.
Arguments d_queue {S} _.
Arguments d_done {S} _.
Arguments d_ongoing {S} _.
Arguments d_prev_head {S} _.
Arguments d_sampling_window {S} _.

(** ** Which shares *)

(** [(0..width).flat_map(|row| (0..width).map(|col| (row, col)))]. *)
Definition all_indexes (square_width : Z) : list (Z * Z) :=
  row ← seqZ 0 square_width; (λ col, (row, col)) <$> seqZ 0 square_width.

(** The [while] loop; [draws] are the pairs of random [u16]s it gets to see.  [None]: it
    still draws. *)
Fixpoint random_loop (draws : list (Z * Z)) (square_width : Z) (max_samples_needed : nat)
    (indexes : list (Z * Z)) : option (list (Z * Z)) :=
  if (length indexes <? max_samples_needed)%nat then
    match draws with
    | [] => None
    | (r, c) :: draws =>
        let x := (r mod square_width, c mod square_width) in
        random_loop draws square_width max_samples_needed
          (if bool_decide (x ∈ indexes) then indexes else indexes ++ [x])
    end
  else Some indexes.

Definition random_indexes (draws : list (Z * Z)) (square_width : Z) (max_samples_needed : nat)
    : option (list (Z * Z)) :=
  let samples_in_block := square_width ^ 2 in
  if samples_in_block <=? Z.of_nat max_samples_needed then Some (all_indexes square_width)
  else random_loop draws square_width max_samples_needed [].

(** ** The verdict *)

(** What [get_sample] returned for a share: [Ok] of the sample, or an error. *)
Inductive ShareResult := Received | Failed (e : P2pError).

(** The loop over the completed shares of one block. *)
Fixpoint run_samples (results : list ShareResult) (block_accepted : bool) : res DaserError bool :=
  match results with
  | [] => Ok block_accepted
  | Received :: results => run_samples results (block_accepted && true)
  | Failed BitswapQueryTimeout :: results => run_samples results (block_accepted && false)
  | Failed e :: _ => Err (DaP2p e)
  end.

(** ** The worker *)

Section Worker.
Context {S : Type} `{!Store S} `{!CidExternals}.
(** [Time::duration_since] of tendermint. *)
Context (duration_since : Z → Z → option Z).

Definition daser_new (store : S) (sampling_window : Z) : Daser S :=
  {| d_store := store; d_max_samples_needed := MAX_SAMPLES_NEEDED; d_sampling_futs := [];
     d_queue := []; d_done := []; d_ongoing := []; d_prev_head := None;
     d_sampling_window := sampling_window |}.

Definition set_queue_done (d : Daser S) (queue done : BlockRanges) : Daser S :=
  {| d_store := d_store d; d_max_samples_needed := d_max_samples_needed d;
     d_sampling_futs := d_sampling_futs d; d_queue := queue; d_done := done;
     d_ongoing := d_ongoing d; d_prev_head := d_prev_head d;
     d_sampling_window := d_sampling_window d |}.
Definition set_sampling (d : Daser S) (store : S) (futs : list SamplingFut)
    (done ongoing : BlockRanges) : Daser S :=
  {| d_store := store; d_max_samples_needed := d_max_samples_needed d;
     d_sampling_futs := futs; d_queue := d_queue d; d_done := done;
     d_ongoing := ongoing; d_prev_head := d_prev_head d;
     d_sampling_window := d_sampling_window d |}.
Definition set_prev_head (d : Daser S) (prev_head : option Z) : Daser S :=
  {| d_store := d_store d; d_max_samples_needed := d_max_samples_needed d;
     d_sampling_futs := d_sampling_futs d; d_queue := d_queue d; d_done := d_done d;
     d_ongoing := d_ongoing d; d_prev_head := prev_head;
     d_sampling_window := d_sampling_window d |}.

Definition in_sampling_window (now : Z) (d : Daser S) (time : Z) : bool :=
  if now <? time then true else
  match duration_since now time with
  | None => false
  | Some age => age <=? d_sampling_window d
  end.

(** [stored - accepted - &self.done - &self.ongoing]. *)
Definition populate_queue (d : Daser S) : res DaserError (Daser S) :=
  stored ← map_err DaStore (st_get_stored_header_ranges (d_store d));
  accepted ← map_err DaStore (st_get_accepted_sampling_ranges (d_store d));
  queue ← expect_ok (ranges_sub stored accepted);
  queue ← expect_ok (ranges_sub queue (d_done d));
  queue ← expect_ok (ranges_sub queue (d_ongoing d));
  Ok (set_queue_done d queue (d_done d)).

(** The [loop] that finds the header to sample.  [None]: out of fuel. *)
Fixpoint next_header (fuel : nat) (d : Daser S)
    : option (res DaserError (option ExtendedHeader * Daser S)) :=
  match fuel with
  | O => None
  | Datatypes.S fuel =>
      match expect_ok (E' := DaserError) (pop_head (d_queue d)) with
      | Ok (None, _) => Some (Ok (None, d))
      | Ok (Some height, queue) =>
          let d := set_queue_done d queue (d_done d) in
          match st_get_by_height (d_store d) height with
          | Ok header => Some (Ok (Some header, d))
          | Err NotFound =>
              match populate_queue d with
              | Ok d => next_header fuel d
              | Err e => Some (Err e)
              | Panic => Some Panic
              end
          | Err e => Some (Err (DaStore e))
          | Panic => Some Panic
          end
      | Err e => Some (Err e)
      | Panic => Some Panic
      end
  end.

(** What is done with the header that was found. *)
Definition schedule_header (now : Z) (draws : list (Z * Z)) (d : Daser S) (header : ExtendedHeader)
    : option (res DaserError (Daser S)) :=
  let height := eh_height header in
  match expect_ok (E' := DaserError) (square_width (eh_dah header)) with
  | Ok square_width =>
      if negb (in_sampling_window now d (eh_time header)) then
        Some (queue ← expect_ok (remove_relaxed (d_queue d) (1 ..= height));
              done ← expect_ok (insert_relaxed (d_done d) (1 ..= height));
              Ok (set_queue_done d queue done))
      else
        match random_indexes draws square_width (d_max_samples_needed d) with
        | None => None
        | Some share_indexes =>
            Some (cids ← map_err DaP2p (mapM (λ '(row, col), sample_cid row col height) share_indexes);
                  let '(r, store) :=
                    st_update_sampling_metadata (d_store d) height Unknown cids in
                  _ ← map_err DaStore r;
                  ongoing ← expect_ok (insert_relaxed (d_ongoing d) (height ..= height));
                  Ok (set_sampling d store
                        (d_sampling_futs d ++ [{| sf_height := height; sf_shares := share_indexes |}])
                        (d_done d) ongoing))
        end
  | Err e => Some (Err e)
  | Panic => Some Panic
  end.

Definition schedule_next_sample_block (fuel : nat) (now : Z) (draws : list (Z * Z)) (d : Daser S)
    : option (res DaserError (Daser S)) :=
  match next_header fuel d with
  | None => None
  | Some (Ok (None, d)) => Some (Ok d)
  | Some (Ok (Some header, d)) => schedule_header now draws d header
  | Some (Err e) => Some (Err e)
  | Some Panic => Some Panic
  end.

(** The arm of the [select!] for a completed future: the future [i] (counted from any
    start) leaves the set; when there is none, the arm never fires. *)
Definition on_sampled (d : Daser S) (i : nat) (results : list ShareResult)
    : res DaserError (Daser S) :=
  let i := (i mod length (d_sampling_futs d))%nat in
  match d_sampling_futs d !! i with
  | None => Ok d
  | Some fut =>
      accepted ← run_samples results true;
      let height := sf_height fut in
      let status := if accepted : bool then Accepted else Rejected in
      let '(r, store) := st_update_sampling_metadata (d_store d) height status [] in
      _ ← map_err DaStore r;
      ongoing ← expect_ok (remove_relaxed (d_ongoing d) (height ..= height));
      done ← expect_ok (insert_relaxed (d_done d) (height ..= height));
      Ok (set_sampling d store (delete i (d_sampling_futs d)) done ongoing)
  end.

(** ** The event loop of a connected worker *)

Record DaserEnv := { de_now : Z; de_draws1 : list (Z * Z); de_draws2 : list (Z * Z) }.

Inductive DaserEvent :=
| DeCancelled
| DePeersChanged (num_connected_peers : Z)
| DeSampled (i : nat) (results : list ShareResult)
| DeNewHead
(** another task changed the store *)
| DeStoreChanged (store : S).

(** Scheduling at the top of the loop. *)
Definition schedule_new_head (fuel : nat) (env : DaserEnv) (d : Daser S)
    : option (res DaserError (Daser S)) :=
  match ranges_head (d_queue d) with
  | Some queue_head =>
      if default 0 (d_prev_head d) <? queue_head then
        match schedule_next_sample_block fuel (de_now env) (de_draws1 env) d with
        | Some (Ok d) => Some (Ok (set_prev_head d (Some queue_head)))
        | r => r
        end
      else Some (Ok d)
  | None => Some (Ok d)
  end.
Definition schedule_if_idle (fuel : nat) (env : DaserEnv) (d : Daser S)
    : option (res DaserError (Daser S)) :=
  if (length (d_sampling_futs d) =? 0)%nat
  then schedule_next_sample_block fuel (de_now env) (de_draws2 env) d
  else Some (Ok d).

Definition on_event (d : Daser S) (ev : DaserEvent) : res DaserError (Daser S * bool) :=
  match ev with
  | DeCancelled => Ok (d, false)
  | DePeersChanged n => Ok (d, negb (n =? 0))
  | DeSampled i results => d ← on_sampled d i results; Ok (d, true)
  | DeNewHead => d ← populate_queue d; Ok (d, true)
  | DeStoreChanged store =>
      Ok (set_sampling d store (d_sampling_futs d) (d_done d) (d_ongoing d), true)
  end.

(** After the loop. *)
Definition daser_reset (d : Daser S) : Daser S :=
  {| d_store := d_store d; d_max_samples_needed := d_max_samples_needed d; d_sampling_futs := [];
     d_queue := []; d_done := []; d_ongoing := []; d_prev_head := None;
     d_sampling_window := d_sampling_window d |}.

(** The iterations of the loop, on the events it gets to see. *)
Fixpoint daser_loop (fuel : nat) (d : Daser S) (evs : list (DaserEnv * DaserEvent))
    : option (res DaserError (Daser S)) :=
  match evs with
  | [] => Some (Ok d)
  | (env, ev) :: evs =>
      match schedule_new_head fuel env d with
      | Some (Ok d) =>
          match schedule_if_idle fuel env d with
          | Some (Ok d) =>
              match on_event d ev with
              | Ok (d, true) => daser_loop fuel d evs
              | Ok (d, false) => Some (Ok (daser_reset d))
              | Err e => Some (Err e)
              | Panic => Some Panic
              end
          | r => r
          end
      | r => r
      end
  end.

(** The whole of [connected_event_loop]. *)
Definition daser_connected (fuel : nat) (d : Daser S) (num_connected_peers : Z)
    (evs : list (DaserEnv * DaserEvent)) : option (res DaserError (Daser S)) :=
  if num_connected_peers =? 0 then Some (Ok d) else
  match populate_queue d with
  | Ok d => daser_loop fuel d evs
  | Err e => Some (Err e)
  | Panic => Some Panic
  end.
End Worker.

(** ** Lemmas: the shares *)

Definition share_in (w : Z) (x : Z * Z) : Prop := 0 ≤ x.1 < w ∧ 0 ≤ x.2 < w.

Lemma all_indexes_spec w : 0 ≤ w →
  NoDup (all_indexes w) ∧ Forall (share_in w) (all_indexes w) ∧
  length (all_indexes w) = Z.to_nat (w ^ 2).
Proof.
  intros Hw. unfold all_indexes. split; [|split].
  - apply NoDup_bind.
    + intros r1 r2 [x y] _ _ Hx Hy. apply list_elem_of_fmap in Hx as (c1&Hx&_).
      apply list_elem_of_fmap in Hy as (c2&Hy&_). congruence.
    + intros r _. apply NoDup_fmap_2; [by intros ?? [= ->]|apply NoDup_seqZ].
    + apply NoDup_seqZ.
  - apply Forall_forall. intros x (r&Hx&Hr)%list_elem_of_bind.
    apply list_elem_of_fmap in Hx as (c&->&Hc).
    apply elem_of_seqZ in Hr. apply elem_of_seqZ in Hc. unfold share_in; simpl. lia.
  - assert (∀ l : list Z, length (row ← l; (λ col, (row, col)) <$> seqZ 0 w)
      = (length l * Z.to_nat w)%nat) as Hlen.
    { induction l as [|r l IH]; [done|].
      rewrite bind_cons, length_app, length_fmap, length_seqZ, IH. simpl. lia. }
    rewrite Hlen, length_seqZ. lia.
Qed.

Lemma random_loop_spec draws w max idx l : 0 < w → NoDup idx → Forall (share_in w) idx →
  (length idx ≤ max)%nat → random_loop draws w max idx = Some l →
  NoDup l ∧ Forall (share_in w) l ∧ length l = max.
Proof.
  intros Hw. revert idx; induction draws as [|[r c] draws IH]; intros idx Hnd Hin Hlen;
    cbn [random_loop]; destruct (Nat.ltb_spec (length idx) max) as [Hlt|Hge]; try done;
    try (intros [= <-]; split_and!; [done|done|lia]).
  case_bool_decide as Hx; [apply IH; [done|done|lia]|]. apply IH.
  - apply NoDup_app. split; [done|]. split; [|by constructor; [apply not_elem_of_nil|constructor]].
    intros x Hxi ->%list_elem_of_singleton. done.
  - apply Forall_app_2; [done|]. constructor; [|done]. unfold share_in; simpl.
    split; apply Z.mod_pos_bound; lia.
  - rewrite length_app; simpl. lia.
Qed.

(** The loop ends as soon as it has seen enough different pairs. *)
Definition drawn (w : Z) (draws : list (Z * Z)) : list (Z * Z) :=
  (λ x, (x.1 mod w, x.2 mod w)) <$> draws.

Lemma random_loop_ends draws w max idx :
  (max ≤ size (list_to_set (idx ++ drawn w draws) : gset (Z * Z)))%nat →
  is_Some (random_loop draws w max idx).
Proof.
  revert idx; induction draws as [|[r c] draws IH]; intros idx Hmax;
    cbn [random_loop]; destruct (Nat.ltb_spec (length idx) max) as [Hlt|Hge]; try by eexists.
  - exfalso. unfold drawn in Hmax. cbn [fmap list_fmap] in Hmax. rewrite app_nil_r in Hmax.
    assert (size (list_to_set (C := gset (Z * Z)) idx) ≤ length idx)%nat as Hle.
    { clear. induction idx as [|x idx IH]; [done|]. simpl.
      pose proof (size_union_alt {[x]} (list_to_set (C := gset (Z * Z)) idx)) as Hu.
      rewrite size_singleton in Hu. rewrite Hu.
      pose proof (subseteq_size (list_to_set (C := gset (Z * Z)) idx ∖ {[x]})
        (list_to_set (C := gset (Z * Z)) idx)) as Hs. specialize (Hs ltac:(set_solver)). lia. }
    lia.
  - apply IH. eapply Nat.le_trans; [exact Hmax|]. apply subseteq_size. unfold drawn. cbn [fmap list_fmap fst snd].
    case_bool_decide; set_solver.
Qed.

Lemma random_indexes_spec draws w max l : 0 ≤ w → random_indexes draws w max = Some l →
  NoDup l ∧ Forall (share_in w) l ∧ length l = Nat.min max (Z.to_nat (w ^ 2)).
Proof.
  intros Hw. unfold random_indexes. destruct (Z.leb_spec (w ^ 2) (Z.of_nat max)) as [Hle|Hgt].
  - intros [= <-]. destruct (all_indexes_spec w Hw) as (?&?&->). split_and!; [done|done|lia].
  - intros (?&?&->)%random_loop_spec; [split_and!; [done|done|lia]|lia|constructor|done|simpl; lia].
Qed.

(** ** Lemmas: the verdict *)

Definition received (r : ShareResult) : bool := match r with Received => true | _ => false end.
Definition timed_out_or_received (r : ShareResult) : Prop :=
  r = Received ∨ r = Failed BitswapQueryTimeout.

Lemma run_samples_spec results acc :
  (Forall timed_out_or_received results ∧
   run_samples results acc = Ok (acc && forallb received results)) ∨
  ∃ e, Failed e ∈ results ∧ e ≠ BitswapQueryTimeout ∧ run_samples results acc = Err (DaP2p e).
Proof.
  revert acc; induction results as [|r results IH]; intros acc.
  { left. split; [done|]. by rewrite andb_true_r. }
  assert (timed_out_or_received r ∧
    run_samples (r :: results) acc = run_samples results (acc && received r) ∨
    ∃ e, r = Failed e ∧ e ≠ BitswapQueryTimeout ∧ run_samples (r :: results) acc = Err (DaP2p e))
    as [[Hr ->]|(e&->&Hne&->)].
  { destruct r as [|e]; [left; split; [by left|done]|].
    destruct e; first [left; split; [by right|done] | right; eexists; split_and!; done]. }
  - destruct (IH (acc && received r)) as [[Hall ->]|(e&He&Hne&->)].
    + left. split; [by constructor|]. simpl. by rewrite andb_assoc.
    + right. exists e. split_and!; [by right|done|done].
  - right. exists e. split_and!; [left|done|done].
Qed.

(** The samples of a block are distinct, and as many as they should be: [random_indexes] returns
    distinct positions inside the square, all of them when the square has at most
    [max_samples_needed] shares and exactly [max_samples_needed] otherwise; the [while] loop
    ends as soon as the random numbers hit that many different positions. *)
Theorem random_indexes_correct draws w max : 0 ≤ w →
  (∀ l, random_indexes draws w max = Some l →
    NoDup l ∧ Forall (share_in w) l ∧ length l = Nat.min max (Z.to_nat (w ^ 2))) ∧
  (w ^ 2 ≤ Z.of_nat max ∨
   (max ≤ size (list_to_set (drawn w draws) : gset (Z * Z)))%nat →
   is_Some (random_indexes draws w max)).
Proof.
  intros Hw. split; [intros l; by apply random_indexes_spec|]. intros Hmax. unfold random_indexes.
  destruct (Z.leb_spec (w ^ 2) (Z.of_nat max)); [by eexists|].
  destruct Hmax as [?|Hmax]; [lia|]. by apply random_loop_ends.
Qed.

(** ** Lemmas: the worker *)

Section DaserLemmas.
Context `{!Tendermint} `{!DahExternals} {S : Type} `{!Store S}.
Context (valid : ExtendedHeader → Prop) `{!ValidHeaders valid} `{!StoreSpec S valid}.
(** The square of a valid header fits its width into a [u16]. *)
Context (valid_width : ∀ e, valid e → ∃ w, square_width (eh_dah e) = Ok w ∧ 0 ≤ w).
Context `{!CidExternals} `{!CidExternalsSpec} (duration_since : Z → Z → option Z).

Record daser_inv (d : Daser S) (m : gmap Z ExtendedHeader) : Prop := {
  di_store : store_rep (d_store d) m;
  di_queue : canonical (d_queue d);
  di_done : canonical (d_done d);
  di_ongoing : canonical (d_ongoing d);
  (** what is ongoing is what the futures work on, each block once *)
  di_futs : ∀ h, in_ranges h (d_ongoing d) ↔ h ∈ sf_height <$> d_sampling_futs d;
  di_nodup : NoDup (sf_height <$> d_sampling_futs d);
  di_fresh : ∀ h, in_ranges h (d_queue d) → ¬ in_ranges h (d_done d) ∧ ¬ in_ranges h (d_ongoing d)
}.

Lemma canonical_valid rs : canonical rs → Forall range_valid rs.
Proof. by apply (chain_valid 1). Qed.

Lemma canonical_height rs h : canonical rs → in_ranges h rs → range_valid (h ..= h).
Proof.
  intros Hc Hh. apply (in_ranges_u64 1) in Hh; [|lia|done]. unfold range_valid; simpl. lia.
Qed.

(** The queue after [populate_queue]: what is stored and not accepted, done or ongoing. *)
Definition wanted (d : Daser S) (m : gmap Z ExtendedHeader) (h : Z) : Prop :=
  is_Some (m !! h) ∧ ¬ in_ranges h (d_done d) ∧ ¬ in_ranges h (d_ongoing d) ∧
  ∀ rs, st_get_accepted_sampling_ranges (d_store d) = Ok rs → ¬ in_ranges h rs.

Lemma populate_queue_spec d m : store_rep (d_store d) m → canonical (d_done d) →
  canonical (d_ongoing d) →
  ∃ queue, populate_queue d = Ok (set_queue_done d queue (d_done d)) ∧ canonical queue ∧
    ∀ h, in_ranges h queue ↔ wanted d m h.
Proof.
  intros Hrep Hd Ho. unfold populate_queue.
  destruct (spec_stored_ranges _ _ Hrep) as (rs&->&Hc&Hdom). cbn [map_err]. cbv [mbind res_bind].
  destruct (spec_accepted _ _ Hrep) as (acc&Hacc&Hca). rewrite Hacc. cbn [map_err].
  destruct (ranges_sub_chain 1 rs acc) as (q1&->&Hc1&Hin1); [lia|done|by apply canonical_valid|].
  cbn [expect_ok].
  destruct (ranges_sub_chain 1 q1 (d_done d)) as (q2&->&Hc2&Hin2); [lia|done|by apply canonical_valid|].
  cbn [expect_ok].
  destruct (ranges_sub_chain 1 q2 (d_ongoing d)) as (q3&->&Hc3&Hin3);
    [lia|done|by apply canonical_valid|]. cbn [expect_ok].
  exists q3. split; [done|]. split; [done|]. intros h. unfold wanted. rewrite Hin3, Hin2, Hin1, Hdom.
  split.
  - intros [[[??]?]?]. split_and!; try done. intros rs' Hrs'. rewrite Hacc in Hrs'. by injection Hrs' as <-.
  - intros (?&?&?&Hn). split_and!; try done. by apply Hn.
Qed.

(** Changing queue and done only. *)
Lemma daser_inv_queue d m queue : daser_inv d m → canonical queue →
  (∀ h, in_ranges h queue → in_ranges h (d_queue d) ∨ wanted d m h) →
  daser_inv (set_queue_done d queue (d_done d)) m.
Proof.
  intros [? ? ? ? ? ? Hfresh] Hc Hq. constructor; simpl; try done.
  intros h [Hh|(_&?&?&_)]%Hq; [by apply Hfresh|done].
Qed.

(** The header that is found is stored, highest in the queue, and not sampled yet.  Two
    iterations are enough: after the queue is populated again its head is stored. *)
Definition best (P : Z → Prop) (o : option Z) : Prop :=
  match o with Some h => P h ∧ ∀ k, P k → k ≤ h | None => ∀ k, ¬ P k end.

Definition found (d : Daser S) (m : gmap Z ExtendedHeader) (header : option ExtendedHeader)
    (d' : Daser S) : Prop :=
  daser_inv d' m ∧ d_store d' = d_store d ∧ d_sampling_futs d' = d_sampling_futs d ∧
  d_done d' = d_done d ∧ d_ongoing d' = d_ongoing d ∧ d_max_samples_needed d' = d_max_samples_needed d ∧
  d_sampling_window d' = d_sampling_window d ∧ d_prev_head d' = d_prev_head d ∧
  (best (λ k, in_ranges k (d_queue d)) (eh_height <$> header) ∨
   best (wanted d m) (eh_height <$> header)) ∧
  ((∀ k, in_ranges k (d_queue d) → is_Some (m !! k)) →
    ∀ k, in_ranges k (d_queue d) ↔ in_ranges k (d_queue d') ∨ Some k = eh_height <$> header) ∧
  match header with
  | None => d_queue d' = []
  | Some e => m !! eh_height e = Some e ∧ 0 < eh_height e ∧
      ¬ in_ranges (eh_height e) (d_done d) ∧ ¬ in_ranges (eh_height e) (d_ongoing d) ∧
      (∀ k, in_ranges k (d_queue d') → k < eh_height e)
  end.

Lemma next_header_step fuel d m : daser_inv d m →
  (∃ header d', next_header (Datatypes.S fuel) d = Some (Ok (header, d')) ∧ found d m header d') ∨
  (¬ (∀ h, in_ranges h (d_queue d) → is_Some (m !! h)) ∧
   ∃ queue, canonical queue ∧ (∀ h, in_ranges h queue ↔ wanted d m h) ∧
     next_header (Datatypes.S fuel) d = next_header fuel (set_queue_done d queue (d_done d))).
Proof.
  intros Hinv. pose proof Hinv as [Hs Hq Hd Ho Hf Hnd Hfresh]. cbn [next_header].
  destruct (pop_head_chain 1 (d_queue d)) as [[Hnil Hpop]|(t&rs'&->&_&Hc'&Hin&Hmax&Hrs')]; [lia|done|..].
  { left. rewrite Hpop. exists None, d. split; [done|]. unfold found. split_and!; try done.
    - left. simpl. rewrite Hnil. by intros k ?%in_ranges_nil.
    - intros _ k. simpl. naive_solver. }
  cbn [expect_ok d_store set_queue_done]. rewrite (spec_get_by_height _ _ t Hs).
  assert (daser_inv (set_queue_done d rs' (d_done d)) m) as Hinv'.
  { apply daser_inv_queue; [done|done|]. intros h Hh. left. by apply Hrs'. }
  destruct (m !! t) as [e|] eqn:He; cbn [ok_or].
  - left. destruct (proj1 (store_rep_ok _ _ Hs) _ _ He) as [Hh _].
    exists (Some e), (set_queue_done d rs' (d_done d)). split; [done|]. unfold found; simpl.
    rewrite Hh. pose proof (canonical_height _ _ Hq Hin) as [? _]. destruct (Hfresh _ Hin).
    split_and!; try done; [by left| |].
    + intros _ k. rewrite Hrs'. destruct (decide (k = t)); naive_solver.
    + intros k [Hk Hne]%Hrs'. apply Hmax in Hk. lia.
  - right. split; [intros Hall; destruct (Hall t Hin); congruence|].
    destruct (populate_queue_spec (set_queue_done d rs' (d_done d)) m) as (queue&->&Hcq&Hinq);
      [done..|]. exists queue. split; [done|]. split; [|done]. exact Hinq.
Qed.

Lemma next_header_spec fuel d m : daser_inv d m → (2 ≤ fuel)%nat →
  ∃ header d', next_header fuel d = Some (Ok (header, d')) ∧ found d m header d'.
Proof.
  intros Hinv Hf. destruct fuel as [|[|fuel]]; [lia|lia|].
  destruct (next_header_step (Datatypes.S fuel) d m Hinv) as [?|(Hnstored&queue&Hc&Hq&->)]; [done|].
  assert (daser_inv (set_queue_done d queue (d_done d)) m) as Hinv'.
  { apply daser_inv_queue; [done|done|]. intros h Hh. right. by apply Hq. }
  destruct (next_header_step fuel (set_queue_done d queue (d_done d)) m Hinv')
    as [(header&d'&->&Hfound)|[Hno _]].
  - exists header, d'. split; [done|]. unfold found in *. cbn [d_queue set_queue_done] in Hfound.
    destruct Hfound as (?&?&?&?&?&?&?&?&Hw&_&?). split_and!; try done. right.
    destruct Hw as [Hw|Hw]; [|exact Hw]. unfold best in *.
    destruct (eh_height <$> header) as [h|].
    + destruct Hw as [Hw1 Hw2]. split; [by apply Hq|]. intros k Hk. by apply Hw2, Hq.
    + intros k Hk. by apply (Hw k), Hq.
  - exfalso. apply Hno. simpl. intros h Hh. by apply Hq in Hh as [? _].
Qed.

(** ** Lemmas: scheduling a block *)

(** All the cids that are going to be fetched are recorded, next to the ones that were. *)
Definition cids_recorded (store store' : S) (h : Z) (shares : list (Z * Z)) : Prop :=
  ∃ md, st_get_sampling_metadata store' h = Ok (Some md) ∧ status md = Unknown ∧
    (∀ row col, (row, col) ∈ shares → ∃ c, sample_cid row col h = Ok c ∧ c ∈ cids md) ∧
    ∀ old c, st_get_sampling_metadata store h = Ok (Some old) → c ∈ cids old → c ∈ cids md.

Definition scheduled (now : Z) (d : Daser S) (e : ExtendedHeader) (d' : Daser S) : Prop :=
  if in_sampling_window duration_since now d (eh_time e) then
    ∃ w shares, square_width (eh_dah e) = Ok w ∧
      d_sampling_futs d'
        = d_sampling_futs d ++ [{| sf_height := eh_height e; sf_shares := shares |}] ∧
      NoDup shares ∧ Forall (share_in w) shares ∧
      length shares = Nat.min (d_max_samples_needed d) (Z.to_nat (w ^ 2)) ∧
      cids_recorded (d_store d) (d_store d') (eh_height e) shares ∧ d_done d' = d_done d
  else
    d_store d' = d_store d ∧ d_sampling_futs d' = d_sampling_futs d ∧
    (∀ k, ¬ in_ranges k (d_queue d')) ∧
    ∀ k, in_ranges k (d_done d') ↔ in_ranges k (d_done d) ∨ 1 ≤ k ≤ eh_height e.

Lemma mapM_sample_cid w h shares : 0 < h → is_u64 h → w ≤ u16_max → Forall (share_in w) shares →
  ∃ cs, mapM (λ '(row, col), sample_cid row col h) shares = Ok cs ∧
    ∀ row col, (row, col) ∈ shares → ∃ c, sample_cid row col h = Ok c ∧ c ∈ cs.
Proof.
  intros Hpos Hu Hw. induction 1 as [|[row col] shares [Hr Hc] _ (cs&Hcs&Hin)].
  { exists []. split; [done|]. by intros ?? ?%elem_of_nil. }
  simpl in Hr, Hc. destruct (sample_cid_spec row col h) as (c&Hcid&_);
    [unfold is_u16; lia..|done|done|].
  exists (c :: cs). split.
  - cbn [mapM]. rewrite Hcid. cbv [mbind res_bind mret res_ret] in *. by rewrite Hcs.
  - intros row' col' [[= -> ->]|Hx]%elem_of_cons; [exists c; split; [done|left]|].
    destruct (Hin _ _ Hx) as (c'&?&?). exists c'. split; [done|by right].
Qed.

(** A block that can be scheduled: stored, above the rest of the queue, not sampled yet. *)
Definition schedulable (d : Daser S) (m : gmap Z ExtendedHeader) (e : ExtendedHeader) : Prop :=
  m !! eh_height e = Some e ∧ 0 < eh_height e ∧ ¬ in_ranges (eh_height e) (d_done d) ∧
  ¬ in_ranges (eh_height e) (d_ongoing d) ∧ ∀ k, in_ranges k (d_queue d) → k < eh_height e.

Lemma schedulable_valid d m e : daser_inv d m → schedulable d m e →
  range_valid (1 ..= eh_height e) ∧ range_valid (eh_height e ..= eh_height e) ∧ is_u64 (eh_height e).
Proof.
  intros Hinv (Hm&Hpos&_). destruct (proj1 (store_rep_ok _ _ (di_store _ _ Hinv)) _ _ Hm) as [_ Hv].
  pose proof (valid_height _ Hv). unfold range_valid, is_u64, u64_max, i64_max in *. simpl. lia.
Qed.

Lemma schedule_skipped d m e queue done : daser_inv d m → schedulable d m e →
  canonical queue → canonical done → (∀ k, ¬ in_ranges k queue) →
  daser_inv (set_queue_done d queue done) m.
Proof.
  intros [Hs Hq Hd Ho Hf Hnd Hfresh] Hsch Hcq Hcd Hno. constructor; simpl; try done.
  intros k Hk. by apply Hno in Hk.
Qed.

Lemma schedule_started d m e store shares ongoing : daser_inv d m → schedulable d m e →
  store_rep store m → canonical ongoing →
  (∀ k, in_ranges k ongoing ↔ in_ranges k (d_ongoing d) ∨ in_range k (eh_height e ..= eh_height e)) →
  daser_inv (set_sampling d store
    (d_sampling_futs d ++ [{| sf_height := eh_height e; sf_shares := shares |}]) (d_done d) ongoing) m.
Proof.
  intros [Hs Hq Hd Ho Hf Hnd Hfresh] (Hm&Hpos&Hnd'&Hno&Hlt) Hs' Hco Hin. constructor; simpl; try done.
  - intros h. rewrite Hin, Hf, fmap_app, elem_of_app. simpl. rewrite list_elem_of_singleton.
    unfold in_range; simpl. split; (intros [?|?]; [by left|right; lia]).
  - rewrite fmap_app. simpl. apply NoDup_app. split; [done|]. split; [|apply NoDup_singleton].
    intros x Hx ->%list_elem_of_singleton. by apply Hno, Hf.
  - intros h Hh. destruct (Hfresh h Hh) as [? ?]. split; [done|]. rewrite Hin.
    intros [?|[? ?]]; [done|]. simpl in *. apply Hlt in Hh. lia.
Qed.

Lemma schedule_header_spec now draws d m e : daser_inv d m → schedulable d m e →
  (∀ w, square_width (eh_dah e) = Ok w → is_Some (random_indexes draws w (d_max_samples_needed d))) →
  ∃ d', schedule_header duration_since now draws d e = Some (Ok d') ∧ daser_inv d' m ∧
    scheduled now d e d' ∧ d_max_samples_needed d' = d_max_samples_needed d ∧
    (in_sampling_window duration_since now d (eh_time e) = true → d_queue d' = d_queue d).
Proof.
  intros Hinv Hsch Hdraws. pose proof Hsch as (Hm&Hpos&Hnd'&Hno&Hlt).
  destruct (schedulable_valid d m e Hinv Hsch) as (Hv1&Hvh&Hu).
  destruct (proj1 (store_rep_ok _ _ (di_store _ _ Hinv)) _ _ Hm) as [_ Hval].
  destruct (valid_width e Hval) as (w&Hw&Hw0). specialize (Hdraws w Hw) as [shares Hshares].
  unfold schedule_header, scheduled. rewrite Hw. cbn [expect_ok].
  destruct (in_sampling_window duration_since now d (eh_time e)); cbn [negb].
  - rewrite Hshares. destruct (random_indexes_spec _ _ _ _ Hw0 Hshares) as (Hsnd&Hsin&Hslen).
    assert (w ≤ u16_max) as Hw16 by (unfold square_width in Hw; case_ifs_in Hw; simplify_eq; lia).
    destruct (mapM_sample_cid w (eh_height e) shares) as (cs&Hcs&Hcin); [done..|].
    rewrite Hcs. cbn [map_err]. cbv [mbind res_bind].
    pose proof (spec_update_sampling _ _ (eh_height e) Unknown cs (di_store _ _ Hinv)) as [Hrep Hres].
    destruct (spec_sampled _ _ (eh_height e) Unknown cs (di_store _ _ Hinv))
      as (old&rs&rs'&Hold&Hnew&_); [by eexists|].
    destruct (st_update_sampling_metadata _ _ _ _) as [r store]. cbn [fst snd] in *.
    rewrite bool_decide_true in Hres by by eexists. rewrite Hres. cbn [map_err].
    destruct (insert_relaxed_chain 1 (d_ongoing d) (eh_height e ..= eh_height e))
      as (ongoing&->&Hco&Hin); [lia|apply Hinv|done|]. cbn [expect_ok].
    eexists. split; [done|]. split; [by apply schedule_started|]. split; [|done].
    exists w, shares. split_and!; try done. eexists. split; [exact Hnew|]. split; [done|].
    destruct old as [old|]; simpl; (split; [|intros old' c Hold'; rewrite Hold in Hold'; simplify_eq]).
    + intros row col Hx. destruct (Hcin _ _ Hx) as (c&?&?). exists c. split; [done|].
      apply elem_of_merge_cids. by right.
    + intros Hc. apply elem_of_merge_cids. by left.
    + done.
  - destruct (remove_relaxed_chain 1 (d_queue d) (1 ..= eh_height e)) as (queue&->&Hcq&Hinq);
      [lia|apply Hinv|done|]. cbv [mbind res_bind]. cbn [expect_ok].
    destruct (insert_relaxed_chain 1 (d_done d) (1 ..= eh_height e)) as (done'&->&Hcd&Hind);
      [lia|apply Hinv|done|]. cbn [expect_ok].
    assert (∀ k, ¬ in_ranges k queue) as Hnone.
    { intros k [Hk Hr]%Hinq. apply Hr. unfold in_range; simpl.
      pose proof (canonical_height _ _ (di_queue _ _ Hinv) Hk) as Hkv. unfold range_valid in Hkv. simpl in Hkv.
      apply Hlt in Hk. lia. }
    eexists. split; [done|]. split; [by eapply schedule_skipped|]. split; [|done].
    split_and!; done.
Qed.

(** The random numbers are enough to pick the samples of any square. *)
Definition draws_ok (draws : list (Z * Z)) (max : nat) : Prop :=
  ∀ w, 0 ≤ w ≤ u16_max → is_Some (random_indexes draws w max).

(** What one call of [schedule_next_sample_block] does. *)
Definition schedule_outcome (now : Z) (d : Daser S) (m : gmap Z ExtendedHeader) (d' : Daser S) : Prop :=
  ∃ header : option ExtendedHeader,
    (best (λ k, in_ranges k (d_queue d)) (eh_height <$> header) ∨
     best (wanted d m) (eh_height <$> header)) ∧
    match header with
    | None => d_store d' = d_store d ∧ d_sampling_futs d' = d_sampling_futs d ∧ d_done d' = d_done d
    | Some e => m !! eh_height e = Some e ∧ ¬ in_ranges (eh_height e) (d_done d) ∧
        ¬ in_ranges (eh_height e) (d_ongoing d) ∧ scheduled now d e d'
    end.

Lemma schedule_next_spec fuel now draws d m : daser_inv d m → (2 ≤ fuel)%nat →
  draws_ok draws (d_max_samples_needed d) →
  ∃ d', schedule_next_sample_block duration_since fuel now draws d = Some (Ok d') ∧
    daser_inv d' m ∧ d_max_samples_needed d' = d_max_samples_needed d ∧ schedule_outcome now d m d'.
Proof.
  intros Hinv Hfuel Hdraws. unfold schedule_next_sample_block.
  destruct (next_header_spec fuel d m Hinv Hfuel)
    as (header&d1&->&Hinv1&Hst&Hfu&Hdo&Hon&Hmax&Hwin&_&Hbest&_&Hfound).
  destruct header as [e|].
  - destruct Hfound as (Hm&Hpos&Hnd&Hno&Hlt).
    destruct (schedule_header_spec now draws d1 m e) as (d'&->&Hinv'&Hsch&Hmax'&_).
    + done.
    + split_and!; try done; congruence.
    + intros w Hw. rewrite Hmax. apply Hdraws. unfold square_width in Hw.
      case_ifs_in Hw; simplify_eq; lia.
    + exists d'. split; [done|]. split; [done|]. split; [congruence|]. exists (Some e).
      split_and!; try done. unfold scheduled, in_sampling_window in *.
      rewrite Hst, Hfu, Hdo, Hmax, Hwin in Hsch. exact Hsch.
  - exists d1. split; [done|]. split; [done|]. split; [done|]. by exists None.
Qed.

(** How the verdict on a block is recorded: only this block's status changes. *)
Definition verdict_recorded (store store' : S) (h : Z) (accepted : bool) : Prop :=
  (∃ rs rs', st_get_accepted_sampling_ranges store = Ok rs ∧
     st_get_accepted_sampling_ranges store' = Ok rs' ∧
     ∀ k, in_ranges k rs' ↔ if bool_decide (k = h) then accepted = true else in_ranges k rs) ∧
  ∃ md, st_get_sampling_metadata store' h = Ok (Some md) ∧
    status md = (if accepted then Accepted else Rejected) ∧
    ∀ old, st_get_sampling_metadata store h = Ok (Some old) → cids md = cids old.

(** What the arm for a completed future does, when there is one. *)
Definition sampled_outcome (d : Daser S) (m : gmap Z ExtendedHeader) (fut : SamplingFut)
    (results : list ShareResult) (r : res DaserError (Daser S)) : Prop :=
  (∃ e, Failed e ∈ results ∧ e ≠ BitswapQueryTimeout ∧ r = Err (DaP2p e)) ∨
  Forall timed_out_or_received results ∧
  (m !! sf_height fut = None ∧ r = Err (DaStore NotFound) ∨
   ∃ d', r = Ok d' ∧ daser_inv d' m ∧ d_max_samples_needed d' = d_max_samples_needed d ∧
     verdict_recorded (d_store d) (d_store d') (sf_height fut) (forallb received results) ∧
     d_queue d' = d_queue d ∧
     length (d_sampling_futs d) = Datatypes.S (length (d_sampling_futs d')) ∧
     (∀ k, in_ranges k (d_ongoing d') ↔ in_ranges k (d_ongoing d) ∧ k ≠ sf_height fut) ∧
     (∀ k, in_ranges k (d_done d') ↔ in_ranges k (d_done d) ∨ k = sf_height fut)).

Lemma sampled_inv d m i fut store ongoing done : daser_inv d m →
  d_sampling_futs d !! i = Some fut → store_rep store m → canonical ongoing → canonical done →
  (∀ k, in_ranges k ongoing ↔ in_ranges k (d_ongoing d) ∧ k ≠ sf_height fut) →
  (∀ k, in_ranges k done ↔ in_ranges k (d_done d) ∨ k = sf_height fut) →
  daser_inv (set_sampling d store (delete i (d_sampling_futs d)) done ongoing) m.
Proof.
  clear duration_since. intros [Hs Hq Hd Ho Hf Hnd Hfresh] Hfut Hs' Hco Hcd Hino Hind.
  rewrite <-(take_drop_middle _ _ _ Hfut) in Hf, Hnd. rewrite fmap_app, fmap_cons in Hf, Hnd.
  pose proof Hnd as (Hnd1&Hnin&[Hnin2 Hnd2]%NoDup_cons)%NoDup_app.
  assert (sf_height <$> delete i (d_sampling_futs d) = (sf_height <$> take i (d_sampling_futs d)) ++
    (sf_height <$> drop (Datatypes.S i) (d_sampling_futs d))) as Hdel
    by by rewrite delete_take_drop, fmap_app.
  constructor; cbn [set_sampling d_store d_queue d_done d_ongoing d_sampling_futs]; try done.
  - intros h. rewrite Hino, Hf, Hdel, !elem_of_app, elem_of_cons. split.
    + intros [[?|[?|?]] ?]; [by left|done|by right].
    + intros [Hh|Hh].
      * split; [by left|]. intros ->. apply (Hnin _ Hh). left.
      * split; [by right; right|]. by intros ->.
  - rewrite Hdel. apply NoDup_app. split; [done|]. split; [|done]. intros h Hh Hh'.
    apply (Hnin _ Hh). by right.
  - intros h Hh. destruct (Hfresh h Hh) as [Hnd' Hno'].
    assert (h ≠ sf_height fut).
    { intros ->. apply Hno', Hf, elem_of_app. right. left. }
    split; [rewrite Hind; naive_solver|rewrite Hino; naive_solver].
Qed.

Lemma on_sampled_spec d m i results : daser_inv d m →
  (d_sampling_futs d = [] ∧ on_sampled d i results = Ok d) ∨
  ∃ fut, fut ∈ d_sampling_futs d ∧ sampled_outcome d m fut results (on_sampled d i results).
Proof.
  clear duration_since. intros Hinv. unfold on_sampled. set (j := (i mod length (d_sampling_futs d))%nat).
  destruct (d_sampling_futs d !! j) as [fut|] eqn:Hfut.
  2:{ left. split; [|done]. apply lookup_ge_None in Hfut. apply length_zero_iff_nil.
      destruct (length (d_sampling_futs d)) as [|n] eqn:Hn; [done|].
      pose proof (Nat.mod_upper_bound i (Datatypes.S n)). lia. }
  right. exists fut. split; [by eapply list_elem_of_lookup_2|]. unfold sampled_outcome.
  destruct (run_samples_spec results true) as [[Hall ->]|(e&?&?&->)]; [right; split; [done|]|by left; exists e].
  cbv [mbind res_bind]. rewrite andb_true_l. set (st := if forallb received results then _ else _).
  pose proof (spec_update_sampling _ _ (sf_height fut) st [] (di_store _ _ Hinv)) as [Hrep Hres].
  destruct (m !! sf_height fut) as [e|] eqn:He.
  2:{ left. split; [done|]. destruct (st_update_sampling_metadata _ _ _ _) as [r store]. cbn [fst] in Hres.
      rewrite bool_decide_false in Hres by (intros [? ?]; congruence). by rewrite Hres. }
  right. destruct (spec_sampled _ _ (sf_height fut) st [] (di_store _ _ Hinv))
    as (old&rs&rs'&Hold&Hnew&Hrs&Hrs'&Hin); [by eexists|].
  destruct (st_update_sampling_metadata _ _ _ _) as [r store]. cbn [fst snd] in *.
  rewrite bool_decide_true in Hres by by eexists. rewrite Hres. cbn [map_err].
  assert (range_valid (sf_height fut ..= sf_height fut)) as Hv.
  { apply (canonical_height (d_ongoing d)); [apply Hinv|]. apply (di_futs _ _ Hinv), list_elem_of_fmap.
    exists fut. split; [done|]. by eapply list_elem_of_lookup_2. }
  destruct (remove_relaxed_chain 1 (d_ongoing d) (sf_height fut ..= sf_height fut))
    as (ongoing&->&Hco&Hino); [lia|apply Hinv|done|]. cbn [expect_ok].
  destruct (insert_relaxed_chain 1 (d_done d) (sf_height fut ..= sf_height fut))
    as (done'&->&Hcd&Hind); [lia|apply Hinv|done|]. cbn [expect_ok].
  unfold in_range in Hino, Hind. cbn [br_start br_end] in Hino, Hind.
  assert (∀ k, in_ranges k ongoing ↔ in_ranges k (d_ongoing d) ∧ k ≠ sf_height fut) as Hino'
    by (intros k; rewrite Hino; split; (intros [? ?]; split; [done|lia])).
  assert (∀ k, in_ranges k done' ↔ in_ranges k (d_done d) ∨ k = sf_height fut) as Hind'
    by (intros k; rewrite Hind; split; (intros [?|?]; [by left|right; lia])).
  eexists. split; [done|]. split; [by eapply sampled_inv|]. split; [done|].
  split; [|split; [done|split; [|done]]].
  2:{ cbn [set_sampling d_sampling_futs]. rewrite length_delete by done.
      apply lookup_lt_Some in Hfut. lia. }
  split.
  - exists rs, rs'. split_and!; try done. intros k. rewrite Hin. unfold st.
    case_bool_decide; by destruct (forallb received results).
  - eexists. split; [exact Hnew|]. split; [done|]. intros old' Hold'. rewrite Hold in Hold'.
    injection Hold' as ->. done.
Qed.

(** ** Lemmas: the event loop *)

Definition env_ok (max : nat) (env : DaserEnv) : Prop :=
  draws_ok (de_draws1 env) max ∧ draws_ok (de_draws2 env) max.

(** Everything that is being sampled is stored. *)
Definition ongoing_stored (d : Daser S) (m : gmap Z ExtendedHeader) : Prop :=
  ∀ h, in_ranges h (d_ongoing d) → is_Some (m !! h).

(** A step that keeps the store as it is and all invariants. *)
Definition keeps (m : gmap Z ExtendedHeader) (d d' : Daser S) : Prop :=
  daser_inv d' m ∧ d_max_samples_needed d' = d_max_samples_needed d ∧
  (ongoing_stored d m → ongoing_stored d' m).

Lemma keeps_refl d m : daser_inv d m → keeps m d d.
Proof. done. Qed.
Lemma keeps_trans d1 d2 d3 m : keeps m d1 d2 → keeps m d2 d3 → keeps m d1 d3.
Proof. intros (_&?&?) (?&?&?). split_and!; [done|congruence|auto]. Qed.

Lemma daser_inv_prev_head d m p : daser_inv d m → daser_inv (set_prev_head d p) m.
Proof. by intros []. Qed.

Lemma schedule_keeps fuel now draws d m : daser_inv d m → (2 ≤ fuel)%nat →
  draws_ok draws (d_max_samples_needed d) →
  ∃ d', schedule_next_sample_block duration_since fuel now draws d = Some (Ok d') ∧ keeps m d d'.
Proof.
  intros Hinv Hf Hd. destruct (schedule_next_spec fuel now draws d m)
    as (d'&->&Hinv'&Hmax&header&_&Hout); [done..|].
  exists d'. split; [done|]. split_and!; [done|done|]. intros Hst h Hh.
  apply (di_futs _ _ Hinv') in Hh. destruct header as [e|].
  - destruct Hout as (He&_&_&Hsch). unfold scheduled in Hsch.
    destruct (in_sampling_window _ _ _ _).
    + destruct Hsch as (w&shares&_&Hfu&_). rewrite Hfu, fmap_app, elem_of_app in Hh. simpl in Hh.
      destruct Hh as [Hh| ->%list_elem_of_singleton]; [by apply Hst, (di_futs _ _ Hinv)|by eexists].
    + destruct Hsch as (_&Hfu&_). rewrite Hfu in Hh. by apply Hst, (di_futs _ _ Hinv).
  - destruct Hout as (_&Hfu&_). rewrite Hfu in Hh. by apply Hst, (di_futs _ _ Hinv).
Qed.

Lemma schedule_new_head_keeps fuel env d m : daser_inv d m → (2 ≤ fuel)%nat →
  env_ok (d_max_samples_needed d) env →
  ∃ d', schedule_new_head duration_since fuel env d = Some (Ok d') ∧ keeps m d d'.
Proof.
  intros Hinv Hf [Hd _]. unfold schedule_new_head.
  destruct (ranges_head (d_queue d)) as [t|]; [|by exists d].
  case_ifs; [|by exists d].
  destruct (schedule_keeps fuel (de_now env) (de_draws1 env) d m) as (d'&->&?&?&?); [done..|].
  eexists. split; [done|]. split_and!; [by apply daser_inv_prev_head|done|done].
Qed.

Lemma schedule_if_idle_keeps fuel env d m : daser_inv d m → (2 ≤ fuel)%nat →
  env_ok (d_max_samples_needed d) env →
  ∃ d', schedule_if_idle duration_since fuel env d = Some (Ok d') ∧ keeps m d d'.
Proof.
  intros Hinv Hf [_ Hd]. unfold schedule_if_idle. case_ifs; [by apply schedule_keeps|by exists d].
Qed.

(** A store that another task left behind keeps the contract; [changed] says whether there
    may be one. *)
Definition event_ok (changed : Prop) (ev : @DaserEvent S) : Prop :=
  match ev with DeStoreChanged store => changed ∧ ∃ m, store_rep store m | _ => True end.

(** The only errors: a failed retrieval that is no timeout, and a block that disappeared from
    the store while it was sampled. *)
Definition error_ok (changed : Prop) (evs : list (DaserEnv * @DaserEvent S)) (e : DaserError) : Prop :=
  match e with
  | DaP2p e => e ≠ BitswapQueryTimeout ∧
      ∃ env i results, (env, DeSampled i results) ∈ evs ∧ Failed e ∈ results
  | DaStore e => e = NotFound ∧ changed
  end.

Lemma daser_inv_store d m m' store : daser_inv d m → store_rep store m' →
  daser_inv (set_sampling d store (d_sampling_futs d) (d_done d) (d_ongoing d)) m'.
Proof. by intros []. Qed.

Lemma on_event_spec changed env d m ev : daser_inv d m → event_ok changed ev →
  (changed ∨ ongoing_stored d m) →
  match on_event d ev with
  | Ok (d', _) => ∃ m', daser_inv d' m' ∧ d_max_samples_needed d' = d_max_samples_needed d ∧
      (changed ∨ ongoing_stored d' m')
  | Err e => error_ok changed [(env, ev)] e
  | Panic => False
  end.
Proof.
  intros Hinv Hev Hch. destruct ev as [|n|i results| |store]; cbn [on_event].
  - by exists m.
  - by exists m.
  - destruct (on_sampled_spec d m i results Hinv) as [[_ ->]|(fut&Hfut&Hout)]; [by exists m|].
    destruct Hout as [(e&He&Hne&->)|[_ [[Hno ->]|(d'&->&Hinv'&Hmax&_&_&_&Hon&_)]]].
    + cbv [mbind res_bind error_ok]. split; [done|]. exists env, i, results. split; [left|done].
    + cbv [mbind res_bind error_ok]. split; [done|]. destruct Hch as [?|Hst]; [done|]. exfalso.
      destruct (Hst (sf_height fut)); [|congruence]. apply (di_futs _ _ Hinv), list_elem_of_fmap. eauto.
    + cbv [mbind res_bind]. exists m. split_and!; [done|done|]. destruct Hch as [?|Hst]; [by left|right].
      intros h [Hh _]%Hon. by apply Hst.
  - destruct (populate_queue_spec d m) as (queue&->&Hc&Hq); [apply Hinv..|]. cbv [mbind res_bind].
    exists m. split_and!; [|done|done]. apply daser_inv_queue; [done|done|]. intros h Hh. right. by apply Hq.
  - destruct Hev as [Hc [m' Hm']]. exists m'. split_and!; [by apply (daser_inv_store d m)|done|by left].
Qed.

Lemma daser_inv_reset d m : daser_inv d m → daser_inv (daser_reset d) m.
Proof.
  intros Hinv. constructor; simpl; try done.
  - apply Hinv.
  - intros h. by rewrite in_ranges_nil, elem_of_nil.
  - constructor.
  - by intros h ?%in_ranges_nil.
Qed.

Lemma error_ok_mono changed evs evs' e :
  evs ⊆ evs' → error_ok changed evs e → error_ok changed evs' e.
Proof. intros Hsub. destruct e; [|done]. intros (?&env&i&results&?&?). split; [done|]. exists env, i, results. auto. Qed.

Lemma daser_loop_safe changed fuel d m evs : daser_inv d m → (2 ≤ fuel)%nat →
  (∀ env ev, (env, ev) ∈ evs → env_ok (d_max_samples_needed d) env ∧ event_ok changed ev) →
  (changed ∨ ongoing_stored d m) →
  ∃ r, daser_loop duration_since fuel d evs = Some r ∧
    match r with Ok d' => ∃ m', daser_inv d' m' | Err e => error_ok changed evs e | Panic => False end.
Proof.
  intros Hinv Hf. revert d m Hinv; induction evs as [|[env ev] evs IH]; intros d m Hinv Hevs Hch.
  { eexists. split; [done|]. by exists m. }
  cbn [daser_loop]. destruct (Hevs env ev) as [Henv Hev]; [left|].
  destruct (schedule_new_head_keeps fuel env d m) as (d1&->&Hinv1&Hmax1&Hst1); [done..|].
  destruct (schedule_if_idle_keeps fuel env d1 m) as (d2&->&Hinv2&Hmax2&Hst2);
    [done|done|by rewrite Hmax1|].
  pose proof (on_event_spec changed env d2 m ev Hinv2 Hev ltac:(tauto)) as Hon.
  destruct (on_event d2 ev) as [[d3 b]|e|]; [|eexists; split; [done|]|done].
  - destruct Hon as (m3&Hinv3&Hmax3&Hst3). destruct b.
    + destruct (IH d3 m3 Hinv3) as (r&->&Hr); [|done|].
      * intros env' ev' Hin. rewrite Hmax3, Hmax2, Hmax1. apply Hevs. by right.
      * exists r. split; [done|]. destruct r; [done| |done].
        eapply error_ok_mono; [|done]. intros x Hx. by right.
    + eexists. split; [done|]. exists m3. by apply daser_inv_reset.
  - eapply error_ok_mono; [|done]. intros x ->%list_elem_of_singleton. left.
Qed.

(** ** Lemmas: progress, while no other task changes the store *)

(** At most [n] blocks are queued or being sampled, and all stored blocks are, or are done,
    or are among [P]. *)
Record live (P : Z → Prop) (m : gmap Z ExtendedHeader) (n : nat) (d : Daser S) : Prop := {
  live_inv : daser_inv d m;
  live_queue : ∀ h, in_ranges h (d_queue d) → is_Some (m !! h);
  live_ongoing : ongoing_stored d m;
  live_covers : ∀ h, is_Some (m !! h) →
    in_ranges h (d_queue d) ∨ in_ranges h (d_done d) ∨ in_ranges h (d_ongoing d) ∨ P h;
  live_todo : ∃ X : gset Z, (∀ h, in_ranges h (d_queue d) ↔ h ∈ X) ∧
    (size X + length (d_sampling_futs d) ≤ n)%nat
}.

Definition queue_drained (d : Daser S) : Prop := ∀ h, ¬ in_ranges h (d_queue d).

Lemma live_scheduled P m n d e d1 now draws :
  live P m n d → daser_inv d1 m → schedulable d1 m e →
  d_sampling_futs d1 = d_sampling_futs d → d_done d1 = d_done d → d_ongoing d1 = d_ongoing d →
  (∀ k, in_ranges k (d_queue d) ↔ in_ranges k (d_queue d1) ∨ Some k = Some (eh_height e)) →
  draws_ok draws (d_max_samples_needed d1) →
  ∃ d', schedule_header duration_since now draws d1 e = Some (Ok d') ∧ live P m n d' ∧
    d_max_samples_needed d' = d_max_samples_needed d1 ∧ (d_sampling_futs d' = [] → queue_drained d').
Proof.
  intros [Hinv Hqs Hos Hcov (X&HX&Hsize)] Hinv1 Hsch Hfu Hdo Hon Hq Hdraws.
  destruct (schedule_header_spec now draws d1 m e) as (d'&->&Hinv'&Hout&Hmax&Hwin); [done|done| |].
  { intros w Hw. apply Hdraws. unfold square_width in Hw. case_ifs_in Hw; simplify_eq; lia. }
  exists d'. split; [done|]. destruct Hsch as (Hm&Hpos&_&_&Hlt). unfold scheduled in Hout.
  destruct (in_sampling_window _ _ _ _).
  - destruct Hout as (w&shares&_&Hfu'&_&_&_&_&Hdo'). specialize (Hwin eq_refl).
    assert (∀ k, in_ranges k (d_ongoing d') ↔ in_ranges k (d_ongoing d) ∨ k = eh_height e) as Hon'.
    { intros k. rewrite (di_futs _ _ Hinv'), (di_futs _ _ Hinv), Hfu', Hfu, fmap_app, elem_of_app.
      simpl. by rewrite list_elem_of_singleton. }
    split; [|split; [done|]]; [|rewrite Hfu'; by intros []%app_nil]. constructor.
    + done.
    + intros h Hh. apply Hqs, Hq. left. by rewrite <-Hwin.
    + intros h [Hh| ->]%Hon'; [by apply Hos|by eexists].
    + intros h Hh. rewrite Hwin, Hdo', Hdo, Hon'. destruct (Hcov h Hh) as [[?|[= ->]]%Hq|[?|[?|?]]]; tauto.
    + exists (X ∖ {[eh_height e]}). rewrite Hwin, Hfu', Hfu, length_app. simpl length. split.
      * intros h. rewrite elem_of_difference, elem_of_singleton, <-HX, Hq. split; [|naive_solver].
        intros Hh. split; [by left|]. intros ->. apply Hlt in Hh. lia.
      * assert ({[eh_height e]} ⊆ X) as Hsub by (apply singleton_subseteq_l, HX, Hq; by right).
        pose proof (subseteq_size _ _ Hsub) as Hle. rewrite size_difference by done.
        rewrite size_singleton in *. lia.
  - destruct Hout as (_&Hfu'&Hnone&Hdo'). split; [|split; [done|done]]. constructor.
    + done.
    + by intros h Hh%Hnone.
    + intros h. rewrite (di_futs _ _ Hinv'), Hfu', Hfu, <-(di_futs _ _ Hinv). apply Hos.
    + intros h Hh. rewrite Hdo', Hdo, (di_futs _ _ Hinv'), Hfu', Hfu, <-(di_futs _ _ Hinv).
      destruct (Hcov h Hh) as [Hh'|[?|[?|?]]]; try tauto. right; left; right.
      pose proof (canonical_height _ _ (di_queue _ _ Hinv) Hh') as [Hh1 _]. simpl in Hh1.
      apply Hq in Hh' as [Hh'%Hlt|[= ->]]; lia.
    + exists ∅. split; [|rewrite Hfu', Hfu, size_empty; lia]. intros h. split; [by intros Hh%Hnone|set_solver].
Qed.

Lemma schedule_live P m n fuel now draws d : live P m n d → (2 ≤ fuel)%nat →
  draws_ok draws (d_max_samples_needed d) →
  ∃ d', schedule_next_sample_block duration_since fuel now draws d = Some (Ok d') ∧ live P m n d' ∧
    d_max_samples_needed d' = d_max_samples_needed d ∧ (d_sampling_futs d' = [] → queue_drained d').
Proof.
  intros Hl Hf Hdraws. pose proof Hl as [Hinv Hqs Hos Hcov Htodo]. unfold schedule_next_sample_block.
  destruct (next_header_spec fuel d m Hinv Hf)
    as (header&d1&->&Hinv1&_&Hfu&Hdo&Hon&Hmax&_&_&_&Hq&Hfound). specialize (Hq Hqs).
  destruct header as [e|].
  - destruct Hfound as (Hm&Hpos&Hnd&Hno&Hlt).
    destruct (live_scheduled P m n d e d1 now draws) as (d'&->&?&?&?); try done.
    + split_and!; try done; congruence.
    + by rewrite Hmax.
    + exists d'. split_and!; try done. congruence.
  - assert (∀ k, in_ranges k (d_queue d) ↔ in_ranges k (d_queue d1)) as Hq' by naive_solver.
    exists d1. split; [done|]. split_and!; [|done|intros _ h Hh; by rewrite Hfound, in_ranges_nil in Hh].
    constructor; try done.
    + intros h Hh. by apply Hqs, Hq'.
    + unfold ongoing_stored. by rewrite Hon.
    + intros h. rewrite Hdo, Hon, <-Hq'. apply Hcov.
    + destruct Htodo as (X&HX&Hsize). exists X. rewrite Hfu. split; [|done]. intros h. by rewrite <-Hq'.
Qed.

Lemma live_prev_head P m n d p : live P m n d → live P m n (set_prev_head d p).
Proof. intros [Hinv ? ? ? ?]. constructor; try done. by apply daser_inv_prev_head. Qed.

Lemma schedules_live P m n fuel env d : live P m n d → (2 ≤ fuel)%nat →
  env_ok (d_max_samples_needed d) env →
  ∃ d1 d2, schedule_new_head duration_since fuel env d = Some (Ok d1) ∧
    schedule_if_idle duration_since fuel env d1 = Some (Ok d2) ∧ live P m n d2 ∧
    d_max_samples_needed d2 = d_max_samples_needed d ∧ (d_sampling_futs d2 = [] → queue_drained d2).
Proof.
  intros Hl Hf [Hd1 Hd2].
  assert (∃ d1, schedule_new_head duration_since fuel env d = Some (Ok d1) ∧ live P m n d1 ∧
    d_max_samples_needed d1 = d_max_samples_needed d) as (d1&->&Hl1&Hmax1).
  { unfold schedule_new_head. destruct (ranges_head (d_queue d)) as [t|]; [|by exists d].
    case_ifs; [|by exists d].
    destruct (schedule_live P m n fuel (de_now env) (de_draws1 env) d) as (d'&->&?&?&_); [done..|].
    eexists. split; [done|]. split; [by apply live_prev_head|done]. }
  exists d1. unfold schedule_if_idle. destruct (Nat.eqb_spec (length (d_sampling_futs d1)) 0) as [Hz|Hz].
  - destruct (schedule_live P m n fuel (de_now env) (de_draws2 env) d1) as (d2&->&?&?&?);
      [done|done|by rewrite Hmax1|]. exists d2. split_and!; try done. congruence.
  - exists d1. split_and!; try done. intros Hnil. by rewrite Hnil in Hz.
Qed.

(** A completed future makes progress, and when there is none all the work is done. *)
Lemma on_sampled_live P m n d i results : live P m (Datatypes.S n) d →
  (d_sampling_futs d = [] → queue_drained d) → Forall timed_out_or_received results →
  ∃ d', on_sampled d i results = Ok d' ∧ live P m n d' ∧
    d_max_samples_needed d' = d_max_samples_needed d.
Proof.
  intros [Hinv Hqs Hos Hcov (X&HX&Hsize)] Hidle Hall.
  destruct (on_sampled_spec d m i results Hinv) as [[Hnil ->]|(fut&Hfut&Hout)].
  { exists d. split; [done|]. split; [|done]. constructor; try done. exists ∅.
    rewrite Hnil, size_empty. split; [|simpl; lia]. intros h. specialize (Hidle Hnil h). set_solver. }
  assert (is_Some (m !! sf_height fut)) as [e He].
  { apply Hos, (di_futs _ _ Hinv), list_elem_of_fmap. eauto. }
  destruct Hout as [(e'&Hin&Hne&_)|[_ [[Hno _]|(d'&->&Hinv'&Hmax&_&Hq&Hlen&Hon&Hdo)]]].
  - exfalso. rewrite Forall_forall in Hall. destruct (Hall _ Hin) as [?|?]; congruence.
  - congruence.
  - exists d'. split; [done|]. split; [|done]. constructor; try done.
    + by rewrite Hq.
    + intros h [Hh _]%Hon. by apply Hos.
    + intros h Hh. rewrite Hq, Hdo, Hon. destruct (decide (h = sf_height fut)); [tauto|].
      specialize (Hcov h Hh). tauto.
    + exists X. rewrite Hq. split; [done|]. lia.
Qed.

Lemma daser_loop_live P m fuel d evs : live P m (length evs) d → (2 ≤ fuel)%nat →
  (∀ env ev, (env, ev) ∈ evs → env_ok (d_max_samples_needed d) env ∧
     ∃ i results, ev = DeSampled i results ∧ Forall timed_out_or_received results) →
  ∃ d', daser_loop duration_since fuel d evs = Some (Ok d') ∧ live P m 0 d'.
Proof.
  intros Hl Hf. revert d Hl; induction evs as [|[env ev] evs IH]; intros d Hl Hevs; [by exists d|].
  destruct (Hevs env ev) as (Henv&i&results&->&Hres); [left|]. cbn [daser_loop length] in *.
  destruct (schedules_live P m (Datatypes.S (length evs)) fuel env d) as (d1&d2&->&->&Hl2&Hmax2&Hidle);
    [done..|]. cbn [on_event].
  destruct (on_sampled_live P m (length evs) d2 i results) as (d3&->&Hl3&Hmax3); [done..|].
  cbv [mbind res_bind]. apply IH; [done|]. intros env' ev' Hin. rewrite Hmax3, Hmax2. apply Hevs. by right.
Qed.

Lemma daser_inv_new s m window : store_rep s m → daser_inv (daser_new s window) m.
Proof.
  intros Hrep. constructor; simpl; try done.
  - intros h. by rewrite in_ranges_nil, elem_of_nil.
  - constructor.
  - by intros h ?%in_ranges_nil.
Qed.

Lemma live_populated s m window queue :
  store_rep s m → canonical queue → (∀ h, in_ranges h queue ↔ wanted (daser_new s window) m h) →
  live (λ h, ∀ rs, st_get_accepted_sampling_ranges s = Ok rs → in_ranges h rs) m (size m)
    (set_queue_done (daser_new s window) queue []).
Proof.
  intros Hrep Hc Hq. constructor.
  - apply (daser_inv_queue (daser_new s window)); [by apply daser_inv_new|done|].
    intros h Hh. right. by apply Hq.
  - simpl. by intros h [? _]%Hq.
  - by intros h ?%in_ranges_nil.
  - intros h Hh. simpl. rewrite Hq. unfold wanted. simpl. rewrite !in_ranges_nil.
    destruct (spec_accepted s m Hrep) as (rs&->&_). destruct (decide (in_ranges h rs)) as [?|Hn].
    + do 3 right. by intros rs' [= <-].
    + left. split_and!; [done|by intros []..|]. by intros rs' [= <-].
  - exists (filter (λ h, in_ranges h queue) (dom m)). split.
    + intros h. simpl. rewrite elem_of_filter, elem_of_dom. split; [|by intros [? _]].
      intros Hh. split; [done|]. by apply Hq in Hh as [? _].
    + simpl. rewrite Nat.add_0_r, <-size_dom. apply subseteq_size. intros h. rewrite elem_of_filter. tauto.
Qed.

(** ** Properties *)

(** Scheduling picks the newest block that still needs sampling and records before it
    fetches.  The block has the greatest height of the queue (of a queue computed anew from
    what is stored, minus what is accepted, done or ongoing, when the queue turned out to be
    stale); it is stored, not done and not ongoing.  Inside the sampling window a future is
    added for it with distinct shares of its square, [min(16, width^2)] of them, and the
    cids of all these shares are in the store, next to the ones recorded earlier, with
    status unknown.  Outside the window the queue is emptied and every height up to the
    block's counts as done.  The call terminates and neither fails nor panics. *)
Theorem schedule_next_sample_block_correct fuel now draws d m :
  daser_inv d m → (2 ≤ fuel)%nat → draws_ok draws (d_max_samples_needed d) →
  ∃ d', schedule_next_sample_block duration_since fuel now draws d = Some (Ok d') ∧
    daser_inv d' m ∧ schedule_outcome now d m d'.
Proof.
  intros Hinv Hf Hd. destruct (schedule_next_spec fuel now draws d m Hinv Hf Hd)
    as (d'&?&?&_&?). by exists d'.
Qed.

(** A completed sampling is recorded exactly: the block is accepted if and only if all
    its shares arrived, rejected if one of them timed out; the accepted ranges of the store
    change at this height only, the recorded cids stay; the height leaves the ongoing blocks
    and joins the done ones.  Another error of a share, or the absence of the block from the
    store, is returned. *)
Theorem sampling_verdict_correct d m i results : daser_inv d m →
  (d_sampling_futs d = [] ∧ on_sampled d i results = Ok d) ∨
  ∃ fut, fut ∈ d_sampling_futs d ∧ sampled_outcome d m fut results (on_sampled d i results).
Proof. apply on_sampled_spec. Qed.

(** The worker is safe on every sequence of events: it keeps its invariant (queue, done
    and ongoing are sorted ranges, the futures are exactly the ongoing blocks, each once, and
    nothing is queued that is done or ongoing), it never panics, the search for the next
    header ends, and it fails only with the error of a share that is not a timeout, or with
    [NotFound] if another task changed the store meanwhile. *)
Theorem daser_connected_safe fuel d m n (evs : list (DaserEnv * @DaserEvent S)) :
  daser_inv d m → ongoing_stored d m → (2 ≤ fuel)%nat →
  (∀ env ev, (env, ev) ∈ evs → env_ok (d_max_samples_needed d) env ∧
     match ev with DeStoreChanged store => ∃ m', store_rep store m' | _ => True end) →
  ∃ r, daser_connected duration_since fuel d n evs = Some r ∧
    match r with
    | Ok d' => ∃ m', daser_inv d' m'
    | Err e => error_ok (∃ env store, (env, DeStoreChanged store) ∈ evs) evs e
    | Panic => False
    end.
Proof.
  intros Hinv Hst Hf Hevs. unfold daser_connected. case_ifs; [eexists; split; [done|]; by exists m|].
  destruct (populate_queue_spec d m) as (queue&->&Hc&Hq); [apply Hinv..|].
  apply (daser_loop_safe _ _ _ m); [|done| |by right].
  - apply daser_inv_queue; [done|done|]. intros h Hh. right. by apply Hq.
  - intros env ev Hin. destruct (Hevs env ev Hin) as [Henv Hev]. split; [done|].
    destruct ev; try done. split; [by eexists _, _|done].
Qed.

(** C29. Sampling gets through the whole store: a worker that starts with a store of [size m]
    headers and sees that many samplings complete, in any order and with any mixture of
    received shares and timeouts, is then idle, and every stored block is done (sampled, or
    found to be out of the sampling window) unless it was accepted before. *)
Theorem daser_samples_everything fuel s m window n (evs : list (DaserEnv * @DaserEvent S)) :
  store_rep s m → n ≠ 0 → (2 ≤ fuel)%nat → length evs = size m →
  (∀ env ev, (env, ev) ∈ evs → env_ok MAX_SAMPLES_NEEDED env ∧
     ∃ i results, ev = DeSampled i results ∧ Forall timed_out_or_received results) →
  ∃ d', daser_connected duration_since fuel (daser_new s window) n evs = Some (Ok d') ∧
    daser_inv d' m ∧ d_sampling_futs d' = [] ∧
    ∀ h, is_Some (m !! h) → in_ranges h (d_done d') ∨
      ∀ rs, st_get_accepted_sampling_ranges s = Ok rs → in_ranges h rs.
Proof.
  intros Hrep Hn Hf Hlen Hevs. unfold daser_connected. destruct (Z.eqb_spec n 0); [done|].
  destruct (populate_queue_spec (daser_new s window) m) as (queue&->&Hc&Hq); [done..|].
  change (d_done (daser_new s window)) with ([] : BlockRanges).
  destruct (daser_loop_live (λ h, ∀ rs, st_get_accepted_sampling_ranges s = Ok rs → in_ranges h rs)
    m fuel (set_queue_done (daser_new s window) queue []) evs) as (d'&->&[Hinv _ _ Hcov (X&HX&Hsize)]);
    [rewrite Hlen; by apply live_populated|done|done|].
  assert (d_sampling_futs d' = []) as Hnil by (apply length_zero_iff_nil; lia).
  exists d'. split_and!; try done. intros h [Hh|[?|[Hh|?]]]%Hcov; [|by left| |by right]; exfalso.
  - assert (size X = 0%nat) as ->%size_empty_inv%leibniz_equiv by lia. by apply HX, elem_of_empty in Hh.
  - apply (di_futs _ _ Hinv) in Hh. rewrite Hnil in Hh. by apply elem_of_nil in Hh.
Qed.
End DaserLemmas.

(** Validated headers have squares of at most [u16::MAX] rows. *)
Lemma validated_width `{!Tendermint} `{!DahExternals} e :
  validated e → ∃ w, square_width (eh_dah e) = Ok w ∧ 0 ≤ w.
Proof.
  intros [(_&_&_&_&_&_&v&_&Hd)%eh_validate_Ok _]. apply dah_validate_Ok in Hd as [_ Hw].
  assert (max_extended_square_width v = 256%nat) as Hmax by by destruct v.
  unfold square_width, u16_max. case_ifs; [lia|]. eexists. split; [done|lia].
Qed.

(** ** A concrete worker *)

#[local] Existing Instances toy_DahExternals toy_Tendermint toy_TendermintSpec toy_validated
  toy_CidExternals toy_CidExternalsSpec.

Definition toy_since (now time : Z) : option Z := if now <? time then None else Some (now - time).

(** Random numbers that are enough for every square. *)
Definition toy_draws : list (Z * Z) := all_indexes 5.
Lemma drawn_small w : 5 ≤ w → drawn w toy_draws = toy_draws.
Proof.
  intros Hw. assert (Forall (share_in 5) toy_draws) as Hin by (apply all_indexes_spec; lia).
  unfold drawn. induction Hin as [|[r c] l [Hr Hc] _ IH]; [done|]. cbn [fst snd] in Hr, Hc.
  rewrite fmap_cons, IH. cbn [fst snd]. by rewrite !Z.mod_small by lia.
Qed.
Lemma toy_draws_ok : draws_ok toy_draws MAX_SAMPLES_NEEDED.
Proof.
  intros w [Hw _]. unfold random_indexes. destruct (Z.leb_spec (w ^ 2) (Z.of_nat MAX_SAMPLES_NEEDED)) as [|Hgt];
    [by eexists|]. apply random_loop_ends. cbn [app]. unfold MAX_SAMPLES_NEEDED in Hgt.
  rewrite drawn_small by nia. vm_compute. lia.
Qed.
Definition toy_env : DaserEnv := {| de_now := 1000; de_draws1 := toy_draws; de_draws2 := toy_draws |}.
Lemma toy_env_ok : env_ok MAX_SAMPLES_NEEDED toy_env.
Proof. split; exact toy_draws_ok. Qed.

Definition toy_store1 : InMemoryStoreInner := (im_insert toy_now im_new [toy_1]).2.
Definition toy_daser (window : Z) : Daser InMemoryStoreInner := daser_new toy_store1 window.

Lemma toy_daser_inv window : daser_inv validated (toy_daser window) (insert_all ∅ [toy_1]).
Proof. apply daser_inv_new. exact toy_state_rep. Qed.

Definition toy_queued : Daser InMemoryStoreInner :=
  set_queue_done (toy_daser 100000) [1 ..= 1] [].
Lemma toy_queued_inv : daser_inv validated toy_queued (insert_all ∅ [toy_1]).
Proof.
  destruct (populate_queue_spec validated (toy_daser 100000) (insert_all ∅ [toy_1]))
    as (queue&Hrun&Hc&Hq); [exact toy_state_rep|done..|].
  assert (match populate_queue (toy_daser 100000) with Ok d => d_queue d | _ => [] end = [1 ..= 1])
    as Heq by (vm_compute; reflexivity).
  rewrite Hrun in Heq. cbn [set_queue_done d_queue] in Heq. subst queue.
  apply (daser_inv_queue validated (toy_daser 100000) (insert_all ∅ [toy_1]));
    [exact (toy_daser_inv 100000)|done|]. intros h Hh. right. by apply Hq.
Qed.

Lemma toy_scheduled :
  match schedule_next_sample_block toy_since 2 1000 toy_draws toy_queued with
  | Some (Ok d) => sf_height <$> d_sampling_futs d
  | _ => []
  end = [1].
Proof. vm_compute. reflexivity. Qed.

(** The block is being sampled. *)
Definition toy_busy : Daser InMemoryStoreInner :=
  match schedule_next_sample_block toy_since 2 1000 toy_draws toy_queued with
  | Some (Ok d) => d
  | _ => toy_queued
  end.
Lemma toy_busy_inv : daser_inv validated toy_busy (insert_all ∅ [toy_1]).
Proof.
  destruct (schedule_next_spec validated validated_width toy_since 2 1000 toy_draws toy_queued
    (insert_all ∅ [toy_1]) toy_queued_inv ltac:(lia) toy_draws_ok) as (d'&Hrun&Hinv&_).
  unfold toy_busy. by rewrite Hrun.
Qed.

Lemma random_indexes_correct_witness :
  ∃ l, random_indexes toy_draws 3 4 = Some l ∧ NoDup l ∧ length l = 4%nat.
Proof.
  destruct (random_indexes_correct toy_draws 3 4 ltac:(lia)) as [Hspec Hends].
  destruct Hends as [l Hl]; [right; vm_compute; lia|].
  exists l. split; [exact Hl|]. destruct (Hspec l Hl) as (Hnd&_&Hlen). split; [exact Hnd|exact Hlen].
Defined.

Lemma schedule_next_sample_block_correct_witness :
  ∃ d', schedule_next_sample_block toy_since 2 1000 toy_draws toy_queued = Some (Ok d') ∧
    schedule_outcome toy_since 1000 toy_queued (insert_all ∅ [toy_1]) d' ∧
    sf_height <$> d_sampling_futs d' = [1].
Proof.
  destruct (schedule_next_sample_block_correct validated validated_width toy_since 2 1000 toy_draws
    toy_queued (insert_all ∅ [toy_1])) as (d'&Hrun&Hinv&Hout).
  - exact toy_queued_inv.
  - lia.
  - exact toy_draws_ok.
  - exists d'. split; [exact Hrun|]. split; [exact Hout|]. pose proof toy_scheduled as Heq.
    rewrite Hrun in Heq. exact Heq.
Defined.

Definition toy_all_received : list ShareResult := [Received; Received; Received; Received].
Definition toy_one_timeout : list ShareResult :=
  [Received; Failed BitswapQueryTimeout; Received; Received].

Lemma sampling_verdict_correct_witness :
  ∃ fut, fut ∈ d_sampling_futs toy_busy ∧
    sampled_outcome validated toy_busy (insert_all ∅ [toy_1]) fut toy_all_received
      (on_sampled toy_busy 0 toy_all_received) ∧
    match on_sampled toy_busy 0 toy_all_received with
    | Ok d => im_accepted_sampling_ranges (d_store d) = [1 ..= 1]
    | _ => False
    end.
Proof.
  destruct (sampling_verdict_correct validated toy_busy (insert_all ∅ [toy_1]) 0 toy_all_received
    toy_busy_inv) as [[Hnil _]|(fut&Hfut&Hout)].
  - exfalso. apply (f_equal (fmap sf_height)) in Hnil. vm_compute in Hnil. discriminate.
  - exists fut. split; [exact Hfut|]. split; [exact Hout|]. vm_compute. reflexivity.
Defined.

(** One header, a sampling that completes. *)
Lemma daser_samples_everything_witness :
  ∃ d', daser_connected toy_since 2 (toy_daser 100000) 1 [(toy_env, DeSampled 0 toy_one_timeout)]
      = Some (Ok d') ∧ d_sampling_futs d' = [].
Proof.
  destruct (daser_samples_everything validated validated_width toy_since 2 toy_store1
    (insert_all ∅ [toy_1]) 100000 1 [(toy_env, DeSampled 0 toy_one_timeout)]) as (d'&Hrun&_&Hnil&_).
  - exact toy_state_rep.
  - lia.
  - lia.
  - reflexivity.
  - intros env ev Hin. apply list_elem_of_singleton in Hin. injection Hin as -> ->.
    split; [exact toy_env_ok|]. exists 0%nat, toy_one_timeout. split; [reflexivity|].
    repeat (apply Forall_cons; split; [first [left; reflexivity|right; reflexivity]|]).
    apply Forall_nil. exact I.
  - exists d'. split; [exact Hrun|exact Hnil].
Defined.

Lemma daser_connected_safe_witness :
  ∃ r, daser_connected toy_since 2 (toy_daser 100000) 1
      [(toy_env, DeNewHead); (toy_env, DeSampled 0 [Failed Bitswap]); (toy_env, DePeersChanged 0)]
      = Some r ∧ r = Err (DaP2p Bitswap).
Proof.
  destruct (daser_connected_safe validated validated_width toy_since 2 (toy_daser 100000)
    (insert_all ∅ [toy_1]) 1
    [(toy_env, DeNewHead); (toy_env, DeSampled 0 [Failed Bitswap]); (toy_env, DePeersChanged 0)])
    as (r&Hrun&_).
  - exact (toy_daser_inv 100000).
  - intros h Hh. by apply in_ranges_nil in Hh.
  - lia.
  - intros env ev Hin. rewrite !elem_of_cons, elem_of_nil in Hin.
    destruct Hin as [[= -> ->]|[[= -> ->]|[[= -> ->]|[]]]]; (split; [exact toy_env_ok|exact I]).
  - exists r. split; [exact Hrun|]. vm_compute in Hrun. congruence.
Defined.
