(* ===== verification/StateTypes.v ===== *)
(** * State types (src/types/src/state)

    Addresses (address.rs), coins and balances (balance.rs, tx.rs), bit arrays (bit_array.rs),
    transactions with the authorization that is signed (tx.rs), and accounts (auth.rs), with
    their conversions from and to the protobuf messages (types named [Raw...]) and strings.

    A [String] is the list of its bytes; [str] writes one down.  Outside the repository are the
    bech32 encoding of addresses, the text form of hashes and of 256-bit integers, and the
    public keys of tendermint. *)

From Stdlib Require Import String Ascii.
From S2P Require Import Prelude Consts Nmt Merkle Dah.

Definition str (s : string) : bytes := (λ c, Z.of_N (N_of_ascii c)) <$> list_ascii_of_string s.
Arguments str _%_string_scope.

(** The errors of src/types/src/error.rs that these conversions return. *)
Inductive StateError :=
| InvalidAddressPrefix (s : bytes)
| InvalidAddressSize (n : nat)
| InvalidAddress (s : bytes)
| InvalidBalanceDenomination (s : bytes)
| InvalidBalanceAmount (s : bytes)
| InvalidCoinAmount (s : bytes)
| InvalidPublicKeyType (s : bytes)
| InvalidPublicKey
| MissingFee | MissingSum | MissingModeInfo | MissingBitarray
| BitarrayTooLarge | MalformedCompactBitArray
| UnsupportedAppVersion (v : Z)
| StateValidation | StateProtobuf | StateTendermint.

(** ** Decimal numbers

    [u64::to_string] and [u64::from_str] of the standard library: parsing allows one leading
    [+] and leading zeros, and fails on overflow. *)

(** A [u64] has at most 20 digits. *)
Fixpoint dec_digits (fuel : nat) (n : Z) : bytes :=
  match fuel with
  | O => []
  | S fuel => if n <? 10 then [48 + n] else dec_digits fuel (n / 10) ++ [48 + n mod 10]
  end.
Definition u64_to_string (n : Z) : bytes := dec_digits 20 n.

Fixpoint parse_digits (acc : Z) (s : bytes) : option Z :=
  match s with
  | [] => Some acc
  | c :: s =>
      if (48 <=? c) && (c <=? 57) then
        acc ← checked_mul acc 10;
        acc ← checked_add acc (c - 48);
        parse_digits acc s
      else None
  end.
Definition u64_from_str (s : bytes) : option Z :=
  match s with
  | [] => None
  | [_] => parse_digits 0 s
  | c :: rest => if c =? 43 then parse_digits 0 rest else parse_digits 0 s
  end.

(** ** Addresses *)

(** The crate bech32: encoding of a prefix and bytes, decoding into them. *)
Class Bech32 := {
  bech32_encode : bytes → bytes → option bytes;
  bech32_decode : bytes → option (bytes * bytes)
}.

Inductive AddressKind := Account | Validator | Consensus.
#[global] Instance AddressKind_eq : EqDecision AddressKind.
Proof. solve_decision. Defined.

(** [consts::cosmos]. *)
Definition PREFIX_ACCOUNT : bytes := str "celestia".
Definition PREFIX_VALIDATOR : bytes := str "val".
Definition PREFIX_OPERATOR : bytes := str "oper".
Definition PREFIX_CONSENSUS : bytes := str "cons".
Definition BECH32_PREFIX_ACC_ADDR : bytes := PREFIX_ACCOUNT.
Definition BECH32_PREFIX_VAL_ADDR : bytes := PREFIX_ACCOUNT ++ PREFIX_VALIDATOR ++ PREFIX_OPERATOR.
Definition BECH32_PREFIX_CONS_ADDR : bytes := PREFIX_ACCOUNT ++ PREFIX_VALIDATOR ++ PREFIX_CONSENSUS.

Definition kind_prefix (k : AddressKind) : bytes :=
  match k with
  | Account => BECH32_PREFIX_ACC_ADDR
  | Validator => BECH32_PREFIX_VAL_ADDR
  | Consensus => BECH32_PREFIX_CONS_ADDR
  end.

Definition AddressKind_from_str (s : bytes) : res StateError AddressKind :=
  if bool_decide (s = BECH32_PREFIX_ACC_ADDR) then Ok Account
  else if bool_decide (s = BECH32_PREFIX_VAL_ADDR) then Ok Validator
  else if bool_decide (s = BECH32_PREFIX_CONS_ADDR) then Ok Consensus
  else Err (InvalidAddressPrefix s).

(** [tendermint::account::Id], 20 bytes, is the list of them.  The three structs of the source
    hold an id only; [Address] is their sum. *)
Definition ID_LENGTH : nat := 20.
Record AccAddressT := AccAddress_new { acc_id : bytes }.
Record ValAddressT := ValAddress_new { val_id : bytes }.
Record ConsAddressT := ConsAddress_new { cons_id : bytes }.
Inductive Address :=
| AccAddress (a : AccAddressT)
| ValAddress (a : ValAddressT)
| ConsAddress (a : ConsAddressT).
#[global] Instance AccAddressT_eq : EqDecision AccAddressT.
Proof. solve_decision. Defined.
#[global] Instance ValAddressT_eq : EqDecision ValAddressT.
Proof. solve_decision. Defined.
#[global] Instance ConsAddressT_eq : EqDecision ConsAddressT.
Proof. solve_decision. Defined.
#[global] Instance Address_eq : EqDecision Address.
Proof. solve_decision. Defined.

(** The trait [AddressTrait]. *)
Class AddressTrait (A : Type) := { addr_id : A → bytes; addr_kind : A → AddressKind }.
#[global] Instance AccAddress_trait : AddressTrait AccAddressT := {| addr_id := acc_id; addr_kind _ := Account |}.
#[global] Instance ValAddress_trait : AddressTrait ValAddressT := {| addr_id := val_id; addr_kind _ := Validator |}.
#[global] Instance ConsAddress_trait : AddressTrait ConsAddressT := {| addr_id := cons_id; addr_kind _ := Consensus |}.
#[global] Instance Address_trait : AddressTrait Address := {|
  addr_id a := match a with AccAddress a => addr_id a | ValAddress a => addr_id a | ConsAddress a => addr_id a end;
  addr_kind a := match a with AccAddress a => addr_kind a | ValAddress a => addr_kind a | ConsAddress a => addr_kind a end
|}.

Section Addresses.
Context `{Bech32}.

(** The two [expect]s are on the prefix and on the length. *)
Definition address_to_string {A} `{!AddressTrait A} (a : A) : res StateError bytes :=
  expect (bech32_encode (kind_prefix (addr_kind a)) (addr_id a)).

Definition string_to_kind_and_id (s : bytes) : res StateError (AddressKind * bytes) :=
  '(hrp, data) ← ok_or (bech32_decode s) (InvalidAddress s);
  kind ← AddressKind_from_str hrp;
  if (length data =? ID_LENGTH)%nat then Ok (kind, data) else Err (InvalidAddressSize (length data)).

Definition Address_from_str (s : bytes) : res StateError Address :=
  '(kind, id) ← string_to_kind_and_id s;
  match kind with
  | Account => Ok (AccAddress (AccAddress_new id))
  | Validator => Ok (ValAddress (ValAddress_new id))
  | Consensus => Ok (ConsAddress (ConsAddress_new id))
  end.

Definition AccAddress_from_str (s : bytes) : res StateError AccAddressT :=
  '(kind, id) ← string_to_kind_and_id s;
  match kind with Account => Ok (AccAddress_new id) | _ => Err (InvalidAddressPrefix (kind_prefix kind)) end.
Definition ValAddress_from_str (s : bytes) : res StateError ValAddressT :=
  '(kind, id) ← string_to_kind_and_id s;
  match kind with Validator => Ok (ValAddress_new id) | _ => Err (InvalidAddressPrefix (kind_prefix kind)) end.
Definition ConsAddress_from_str (s : bytes) : res StateError ConsAddressT :=
  '(kind, id) ← string_to_kind_and_id s;
  match kind with Consensus => Ok (ConsAddress_new id) | _ => Err (InvalidAddressPrefix (kind_prefix kind)) end.

Definition Address_to_string (a : Address) : res StateError bytes :=
  match a with
  | AccAddress a => address_to_string a
  | ValAddress a => address_to_string a
  | ConsAddress a => address_to_string a
  end.
End Addresses.

(** ** Coins and balances *)

Definition BOND_DENOM : bytes := str "utia".
Record RawCoin := { rc_denom : bytes; rc_amount : bytes }.
Record Coin := { coin_denom : bytes; coin_amount : Z }.
Definition Coin_utia (amount : Z) : Coin := {| coin_denom := str "utia"; coin_amount := amount |}.

Definition Coin_into_raw (c : Coin) : RawCoin :=
  {| rc_denom := coin_denom c; rc_amount := u64_to_string (coin_amount c) |}.
Definition Coin_try_from (c : RawCoin) : res StateError Coin :=
  amount ← ok_or (u64_from_str (rc_amount c)) (InvalidCoinAmount (rc_amount c));
  Ok {| coin_denom := rc_denom c; coin_amount := amount |}.

(** Bytes of ASCII characters; a character that is not ASCII has no byte below 128. *)
Definition is_letter (c : Z) : bool := (97 <=? c) && (c <=? 122) || (65 <=? c) && (c <=? 90).
Definition is_denom_char (c : Z) : bool :=
  is_letter c || (48 <=? c) && (c <=? 57) || bool_decide (c ∈ str "/:._-").
Definition validate_denom (denom : bytes) : res StateError unit :=
  if ((length denom <? 3) || (128 <? length denom))%nat then Err (InvalidBalanceDenomination denom) else
  match denom with
  | c :: chars =>
      if negb (is_letter c) then Err (InvalidBalanceDenomination denom)
      else if forallb is_denom_char chars then Ok tt
      else Err (InvalidBalanceDenomination denom)
  | [] => Err (InvalidBalanceDenomination denom)
  end.

(** [ruint::aliases::U256] with its text form. *)
Class Ruint := { Uint : Type; uint_from_str : bytes → option Uint; uint_to_string : Uint → bytes }.
Record Balance `{Ruint} := { bal_denom : bytes; bal_amount : Uint }.
Section Balances.
Context `{Ruint}.
Definition Balance_validate (b : Balance) : res StateError unit := validate_denom (bal_denom b).
Definition Balance_try_from (value : RawCoin) : res StateError Balance :=
  _ ← validate_denom (rc_denom value);
  amount ← ok_or (uint_from_str (rc_amount value)) (InvalidBalanceAmount (rc_amount value));
  Ok {| bal_denom := rc_denom value; bal_amount := amount |}.
Definition Balance_into_raw (b : Balance) : res StateError RawCoin :=
  _ ← Balance_validate b;
  Ok {| rc_denom := bal_denom b; rc_amount := uint_to_string (bal_amount b) |}.
End Balances.

(** ** Bit arrays *)

(** A [BitVec<u8, Msb0>]: the most significant bit of a byte comes first. *)
Definition BitVector := list bool.
Record CompactBitArray := { extra_bits_stored : Z; elems : bytes }.
Definition bits_of_byte (b : Z) : list bool := Z.testbit b <$> [7; 6; 5; 4; 3; 2; 1; 0].
Definition byte_of_bits (l : list bool) : Z := foldl (λ (b : Z) (x : bool), 2 * b + Z.b2z x) 0 l.

(** How many bytes a [BitVec] can hold ([BitVec::try_from_vec] refuses more). *)
Class BitvecLimit := { bitvec_max_elems : nat }.

Definition BitVector_try_from `{BitvecLimit} (value : CompactBitArray) : res StateError BitVector :=
  let num_bytes := length (elems value) in
  if (num_bytes =? 0)%nat && negb (extra_bits_stored value =? 0) then Err MalformedCompactBitArray else
  last_byte_bits ← (if extra_bits_stored value =? 0 then Ok 8%nat
                    else if (1 <=? extra_bits_stored value) && (extra_bits_stored value <=? 7)
                    then Ok (Z.to_nat (extra_bits_stored value))
                    else Err MalformedCompactBitArray);
  let num_bits := ((num_bytes - 1) * 8 + last_byte_bits)%nat in
  if (bitvec_max_elems <? num_bytes)%nat then Err BitarrayTooLarge
  else Ok (take num_bits (elems value ≫= bits_of_byte)).

(** [into_vec] returns the bytes that the bits span, after the bits past the end were set to
    zero. *)
Fixpoint bytes_of_bits (l : list bool) : bytes :=
  match l with
  | b7 :: b6 :: b5 :: b4 :: b3 :: b2 :: b1 :: b0 :: l =>
      byte_of_bits [b7; b6; b5; b4; b3; b2; b1; b0] :: bytes_of_bits l
  | [] => []
  | l => [byte_of_bits (l ++ repeat false (8 - length l))]
  end.
Definition BitVector_into_raw (value : BitVector) : CompactBitArray :=
  {| extra_bits_stored := Z.of_nat (length value mod 8); elems := bytes_of_bits value |}.

(** ** Transactions *)

(** [google::protobuf::Any]. *)
Record Any := { type_url : bytes; any_value : bytes }.

Inductive ModeInfo := MkModeInfo (sum : Sum)
with Sum := Single (mode : Z) | Multi (bitarray : BitVector) (mode_infos : list ModeInfo).
Inductive RawModeInfo := MkRawModeInfo (sum : option RawSum)
with RawSum := RawSingle (mode : Z) | RawMulti (bitarray : option CompactBitArray) (mode_infos : list RawModeInfo).

Record SignerInfo := { si_public_key : option Any; si_mode_info : ModeInfo; si_sequence : Z }.
Record RawSignerInfo := { rsi_public_key : option Any; rsi_mode_info : option RawModeInfo; rsi_sequence : Z }.

(** The payer and the granter of a raw fee are empty strings when they are not set. *)
Record Fee := { fee_amount : list Coin; fee_gas_limit : Z; fee_payer : option Address; fee_granter : option Address }.
Record RawFee := { rf_amount : list RawCoin; rf_gas_limit : Z; rf_payer : bytes; rf_granter : bytes }.
Definition Fee_new (utia_fee gas_limit : Z) : Fee :=
  {| fee_amount := [{| coin_denom := BOND_DENOM; coin_amount := utia_fee |}]; fee_gas_limit := gas_limit;
     fee_payer := None; fee_granter := None |}.

Record AuthInfo := { ai_signer_infos : list SignerInfo; ai_fee : Fee }.
(** The deprecated [tip] is left out: it is never set and never read. *)
Record RawAuthInfo := { rai_signer_infos : list RawSignerInfo; rai_fee : option RawFee }.

Record TxBody := {
  tb_messages : list Any; tb_memo : bytes; tb_timeout_height : Z;
  tb_extension_options : list Any; tb_non_critical_extension_options : list Any
}.
Record RawTxBody := {
  rtb_messages : list Any; rtb_memo : bytes; rtb_timeout_height : Z;
  rtb_extension_options : list Any; rtb_non_critical_extension_options : list Any
}.
Record RawTx := { rtx_body : option RawTxBody; rtx_auth_info : option RawAuthInfo; rtx_signatures : list bytes }.

Section Transactions.
Context `{Bech32} `{BitvecLimit}.

Fixpoint ModeInfo_try_from (value : RawModeInfo) : res StateError ModeInfo :=
  match value with
  | MkRawModeInfo None => Err MissingSum
  | MkRawModeInfo (Some sum) => sum ← Sum_try_from sum; Ok (MkModeInfo sum)
  end
with Sum_try_from (value : RawSum) : res StateError Sum :=
  match value with
  | RawSingle mode => Ok (Single mode)
  | RawMulti bitarray mode_infos =>
      bitarray ← ok_or bitarray MissingBitarray;
      bitarray ← BitVector_try_from bitarray;
      mode_infos ← mapM ModeInfo_try_from mode_infos;
      Ok (Multi bitarray mode_infos)
  end.

Fixpoint ModeInfo_into_raw (value : ModeInfo) : RawModeInfo :=
  match value with MkModeInfo sum => MkRawModeInfo (Some (Sum_into_raw sum)) end
with Sum_into_raw (value : Sum) : RawSum :=
  match value with
  | Single mode => RawSingle mode
  | Multi bitarray mode_infos => RawMulti (Some (BitVector_into_raw bitarray)) (ModeInfo_into_raw <$> mode_infos)
  end.

Definition SignerInfo_try_from (value : RawSignerInfo) : res StateError SignerInfo :=
  mode_info ← ok_or (rsi_mode_info value) MissingModeInfo;
  mode_info ← ModeInfo_try_from mode_info;
  Ok {| si_public_key := rsi_public_key value; si_mode_info := mode_info; si_sequence := rsi_sequence value |}.
Definition SignerInfo_into_raw (value : SignerInfo) : RawSignerInfo :=
  {| rsi_public_key := si_public_key value; rsi_mode_info := Some (ModeInfo_into_raw (si_mode_info value));
     rsi_sequence := si_sequence value |}.

Definition optional_address (s : bytes) : res StateError (option Address) :=
  if (length s =? 0)%nat then Ok None else a ← Address_from_str s; Ok (Some a).
Definition optional_string (o : option Address) : res StateError bytes :=
  match o with Some a => Address_to_string a | None => Ok [] end.

Definition Fee_try_from (value : RawFee) : res StateError Fee :=
  amount ← mapM Coin_try_from (rf_amount value);
  payer ← optional_address (rf_payer value);
  granter ← optional_address (rf_granter value);
  Ok {| fee_amount := amount; fee_gas_limit := rf_gas_limit value; fee_payer := payer; fee_granter := granter |}.
(** Only the [expect]s of [address_to_string] can fail. *)
Definition Fee_into_raw (value : Fee) : res StateError RawFee :=
  payer ← optional_string (fee_payer value);
  granter ← optional_string (fee_granter value);
  Ok {| rf_amount := Coin_into_raw <$> fee_amount value; rf_gas_limit := fee_gas_limit value;
        rf_payer := payer; rf_granter := granter |}.

Definition AuthInfo_try_from (value : RawAuthInfo) : res StateError AuthInfo :=
  signer_infos ← mapM SignerInfo_try_from (rai_signer_infos value);
  fee ← ok_or (rai_fee value) MissingFee;
  fee ← Fee_try_from fee;
  Ok {| ai_signer_infos := signer_infos; ai_fee := fee |}.
Definition AuthInfo_into_raw (value : AuthInfo) : res StateError RawAuthInfo :=
  fee ← Fee_into_raw (ai_fee value);
  Ok {| rai_signer_infos := SignerInfo_into_raw <$> ai_signer_infos value; rai_fee := Some fee |}.

(** A [Height] of tendermint fits into an [i64]. *)
Definition height_try_from (h : Z) : res StateError Z :=
  if (h <? 0) || (i64_max <? h) then Err StateTendermint else Ok h.
Definition TxBody_try_from (value : RawTxBody) : res StateError TxBody :=
  timeout_height ← height_try_from (rtb_timeout_height value);
  Ok {| tb_messages := rtb_messages value; tb_memo := rtb_memo value; tb_timeout_height := timeout_height;
        tb_extension_options := rtb_extension_options value;
        tb_non_critical_extension_options := rtb_non_critical_extension_options value |}.
Definition TxBody_into_raw (value : TxBody) : RawTxBody :=
  {| rtb_messages := tb_messages value; rtb_memo := tb_memo value; rtb_timeout_height := tb_timeout_height value;
     rtb_extension_options := tb_extension_options value;
     rtb_non_critical_extension_options := tb_non_critical_extension_options value |}.
End Transactions.

(** ** Codes of responses *)

Inductive ErrorCode :=
| EcSuccess | EcTxDecode | EcInvalidSequence | EcUnauthorized | EcInsufficientFunds
| EcUnknownRequest | EcInvalidAddress | EcInvalidPubKey | EcUnknownAddress | EcInvalidCoins
| EcOutOfGas | EcMemoTooLarge | EcInsufficientFee | EcTooManySignatures | EcNoSignatures
| EcJSONMarshal | EcJSONUnmarshal | EcInvalidRequest | EcTxInMempoolCache | EcMempoolIsFull
| EcTxTooLarge | EcKeyNotFound | EcWrongPassword | EcInvalidSigner | EcInvalidGasAdjustment
| EcInvalidHeight | EcInvalidVersion | EcInvalidChainID | EcInvalidType | EcTxTimeoutHeight
| EcUnknownExtensionOptions | EcWrongSequence | EcPackAny | EcUnpackAny | EcLogic | EcConflict
| EcNotSupported | EcNotFound | EcIO | EcAppConfig | EcInvalidGasLimit | EcPanic.
#[global] Instance ErrorCode_eq : EqDecision ErrorCode.
Proof. solve_decision. Defined.

(** The representation of the enum. *)
Definition ErrorCode_repr (c : ErrorCode) : Z :=
  match c with
  | EcSuccess => 0 | EcTxDecode => 2 | EcInvalidSequence => 3 | EcUnauthorized => 4
  | EcInsufficientFunds => 5 | EcUnknownRequest => 6 | EcInvalidAddress => 7 | EcInvalidPubKey => 8
  | EcUnknownAddress => 9 | EcInvalidCoins => 10 | EcOutOfGas => 11 | EcMemoTooLarge => 12
  | EcInsufficientFee => 13 | EcTooManySignatures => 14 | EcNoSignatures => 15 | EcJSONMarshal => 16
  | EcJSONUnmarshal => 17 | EcInvalidRequest => 18 | EcTxInMempoolCache => 19 | EcMempoolIsFull => 20
  | EcTxTooLarge => 21 | EcKeyNotFound => 22 | EcWrongPassword => 23 | EcInvalidSigner => 24
  | EcInvalidGasAdjustment => 25 | EcInvalidHeight => 26 | EcInvalidVersion => 27
  | EcInvalidChainID => 28 | EcInvalidType => 29 | EcTxTimeoutHeight => 30
  | EcUnknownExtensionOptions => 31 | EcWrongSequence => 32 | EcPackAny => 33 | EcUnpackAny => 34
  | EcLogic => 35 | EcConflict => 36 | EcNotSupported => 37 | EcNotFound => 38 | EcIO => 39
  | EcAppConfig => 40 | EcInvalidGasLimit => 41 | EcPanic => 111222
  end.

Definition ErrorCode_try_from (value : Z) : res StateError ErrorCode :=
  match value with
  | 0 => Ok EcSuccess | 2 => Ok EcTxDecode | 3 => Ok EcInvalidSequence | 4 => Ok EcUnauthorized
  | 5 => Ok EcInsufficientFunds | 6 => Ok EcUnknownRequest | 7 => Ok EcInvalidAddress
  | 8 => Ok EcInvalidPubKey | 9 => Ok EcUnknownAddress | 10 => Ok EcInvalidCoins
  | 11 => Ok EcOutOfGas | 12 => Ok EcMemoTooLarge | 13 => Ok EcInsufficientFee
  | 14 => Ok EcTooManySignatures | 15 => Ok EcNoSignatures | 16 => Ok EcJSONMarshal
  | 17 => Ok EcJSONUnmarshal | 18 => Ok EcInvalidRequest | 19 => Ok EcTxInMempoolCache
  | 20 => Ok EcMempoolIsFull | 21 => Ok EcTxTooLarge | 22 => Ok EcKeyNotFound
  | 23 => Ok EcWrongPassword | 24 => Ok EcInvalidSigner | 25 => Ok EcInvalidGasAdjustment
  | 26 => Ok EcInvalidHeight | 27 => Ok EcInvalidVersion | 28 => Ok EcInvalidChainID
  | 29 => Ok EcInvalidType | 30 => Ok EcTxTimeoutHeight | 31 => Ok EcUnknownExtensionOptions
  | 32 => Ok EcWrongSequence | 33 => Ok EcPackAny | 34 => Ok EcUnpackAny | 35 => Ok EcLogic
  | 36 => Ok EcConflict | 37 => Ok EcNotSupported | 38 => Ok EcNotFound | 39 => Ok EcIO
  | 40 => Ok EcAppConfig | 41 => Ok EcInvalidGasLimit | 111222 => Ok EcPanic
  | _ => Err StateValidation
  end.

(** ** Responses *)

(** Logs and events are kept as they are: [L] and [V] stand for their protobuf types. *)
Record RawTxResponse (L V : Type) := {
  rtr_height : Z; rtr_txhash : bytes; rtr_codespace : bytes; rtr_code : Z; rtr_data : bytes;
  rtr_raw_log : bytes; rtr_logs : L; rtr_info : bytes; rtr_gas_wanted : Z; rtr_gas_used : Z;
  rtr_tx : option Any; rtr_timestamp : bytes; rtr_events : V
}.
Record TxResponse (L V : Type) := {
  tr_height : Z; tr_txhash : Hash; tr_codespace : bytes; tr_code : ErrorCode; tr_data : bytes;
  tr_raw_log : bytes; tr_logs : L; tr_info : bytes; tr_gas_wanted : Z; tr_gas_used : Z;
  tr_tx : option Any; tr_timestamp : bytes; tr_events : V
}.

(** [Hash::from_str] of tendermint. *)
Definition TxResponse_try_from {L V} (hash_from_str : bytes → option Hash) (response : RawTxResponse L V)
    : res StateError (TxResponse L V) :=
  height ← height_try_from (rtr_height _ _ response);
  txhash ← ok_or (hash_from_str (rtr_txhash _ _ response)) StateTendermint;
  code ← ErrorCode_try_from (rtr_code _ _ response);
  Ok {| tr_height := height; tr_txhash := txhash; tr_codespace := rtr_codespace _ _ response; tr_code := code;
        tr_data := rtr_data _ _ response; tr_raw_log := rtr_raw_log _ _ response; tr_logs := rtr_logs _ _ response;
        tr_info := rtr_info _ _ response; tr_gas_wanted := rtr_gas_wanted _ _ response;
        tr_gas_used := rtr_gas_used _ _ response; tr_tx := rtr_tx _ _ response;
        tr_timestamp := rtr_timestamp _ _ response; tr_events := rtr_events _ _ response |}.

(** ** Accounts *)

(** [tendermint::PublicKey], and the protobuf messages that carry a key.  The keys that the
    code does not support (a feature of tendermint) are [OtherKey]. *)
Class PublicKeys := {
  Ed25519Key : Type; Secp256k1Key : Type;
  ed25519_from_raw : bytes → option Ed25519Key; ed25519_to_bytes : Ed25519Key → bytes;
  secp256k1_from_raw : bytes → option Secp256k1Key; secp256k1_to_bytes : Secp256k1Key → bytes;
  pubkey_encode : bytes → bytes; pubkey_decode : bytes → option bytes
}.
Inductive PublicKey `{PublicKeys} := Ed25519 (k : Ed25519Key) | Secp256k1 (k : Secp256k1Key) | OtherKey.

Definition COSMOS_ED25519_PUBKEY : bytes := str "/cosmos.crypto.ed25519.PubKey".
Definition COSMOS_SECP256K1_PUBKEY : bytes := str "/cosmos.crypto.secp256k1.PubKey".

Record BaseAccount `{PublicKeys} := {
  acct_address : Address; acct_pub_key : option PublicKey; acct_number : Z; acct_sequence : Z
}.
Record RawBaseAccount := {
  rba_address : bytes; rba_pub_key : option Any; rba_account_number : Z; rba_sequence : Z
}.
Record ModuleAccount `{PublicKeys} := {
  ma_base_account : BaseAccount; ma_name : bytes; ma_permissions : list bytes
}.
Record RawModuleAccount := {
  rma_base_account : option RawBaseAccount; rma_name : bytes; rma_permissions : list bytes
}.

Section Accounts.
Context `{Bech32} `{PublicKeys}.

Definition public_key_from_any (any : Any) : res StateError PublicKey :=
  if bool_decide (type_url any = COSMOS_ED25519_PUBKEY) then
    key ← ok_or (pubkey_decode (any_value any)) StateProtobuf;
    k ← ok_or (ed25519_from_raw key) InvalidPublicKey; Ok (Ed25519 k)
  else if bool_decide (type_url any = COSMOS_SECP256K1_PUBKEY) then
    key ← ok_or (pubkey_decode (any_value any)) StateProtobuf;
    k ← ok_or (secp256k1_from_raw key) InvalidPublicKey; Ok (Secp256k1 k)
  else Err (InvalidPublicKeyType (type_url any)).

Definition any_from_public_key (key : PublicKey) : res StateError Any :=
  match key with
  | Ed25519 k => Ok {| type_url := COSMOS_ED25519_PUBKEY; any_value := pubkey_encode (ed25519_to_bytes k) |}
  | Secp256k1 k => Ok {| type_url := COSMOS_SECP256K1_PUBKEY; any_value := pubkey_encode (secp256k1_to_bytes k) |}
  | OtherKey => Panic
  end.

Definition transpose {E A B} (f : A → res E B) (o : option A) : res E (option B) :=
  match o with Some a => b ← f a; Ok (Some b) | None => Ok None end.

Definition BaseAccount_into_raw (account : BaseAccount) : res StateError RawBaseAccount :=
  address ← Address_to_string (acct_address account);
  pub_key ← transpose any_from_public_key (acct_pub_key account);
  Ok {| rba_address := address; rba_pub_key := pub_key; rba_account_number := acct_number account;
        rba_sequence := acct_sequence account |}.
Definition BaseAccount_try_from (account : RawBaseAccount) : res StateError BaseAccount :=
  pub_key ← transpose public_key_from_any (rba_pub_key account);
  address ← Address_from_str (rba_address account);
  Ok {| acct_address := address; acct_pub_key := pub_key; acct_number := rba_account_number account;
        acct_sequence := rba_sequence account |}.

Definition ModuleAccount_into_raw (account : ModuleAccount) : res StateError RawModuleAccount :=
  base_account ← BaseAccount_into_raw (ma_base_account account);
  Ok {| rma_base_account := Some base_account; rma_name := ma_name account; rma_permissions := ma_permissions account |}.
Definition ModuleAccount_try_from (account : RawModuleAccount) : res StateError ModuleAccount :=
  base_account ← ok_or (rma_base_account account) StateValidation;
  base_account ← BaseAccount_try_from base_account;
  Ok {| ma_base_account := base_account; ma_name := rma_name account; ma_permissions := rma_permissions account |}.
End Accounts.

(** ** Lemmas *)

(** Decimal numbers. *)
Lemma parse_digits_snoc s c acc : parse_digits acc (s ++ [c]) = (x ← parse_digits acc s; parse_digits x [c]).
Proof.
  revert acc; induction s as [|d s IH]; intros acc; [done|]. cbn [app parse_digits].
  destruct (_ && _); [|done]. destruct (checked_mul acc 10) as [a|]; [|done]. cbn [mbind option_bind].
  destruct (checked_add a _); [|done]. apply IH.
Qed.

Lemma parse_digit x d : 0 ≤ x → 0 ≤ d < 10 → 10 * x + d ≤ u64_max → parse_digits x [48 + d] = Some (10 * x + d).
Proof.
  intros Hx Hd Hm. cbn [parse_digits]. rewrite (proj2 (Z.leb_le _ _)), (proj2 (Z.leb_le _ _)) by lia. cbn [andb].
  unfold checked_mul. rewrite (proj2 (Z.ltb_ge _ _)) by lia. cbn [mbind option_bind].
  unfold checked_add. rewrite (proj2 (Z.ltb_ge _ _)) by lia. cbn [mbind option_bind]. f_equal. lia.
Qed.

Lemma dec_digits_spec fuel n : 0 ≤ n ≤ u64_max → n < 10 ^ Z.of_nat fuel → (0 < fuel)%nat →
  parse_digits 0 (dec_digits fuel n) = Some n ∧ dec_digits fuel n ≠ [] ∧
  Forall (λ c, 48 ≤ c ≤ 57) (dec_digits fuel n).
Proof.
  revert n; induction fuel as [|fuel IH]; intros n Hn Hlt Hf; [lia|]. cbn [dec_digits].
  destruct (n <? 10) eqn:E; [apply Z.ltb_lt in E|apply Z.ltb_ge in E].
  - split_and!; [by rewrite parse_digit by lia|done|]. constructor; [lia|constructor].
  - rewrite Nat2Z.inj_succ, Z.pow_succ_r in Hlt by lia.
    assert (0 ≤ n mod 10 < 10) as Hm by (apply Z.mod_pos_bound; lia).
    pose proof (Z.div_mod n 10 ltac:(lia)) as Hdm.
    assert (0 < fuel)%nat as Hpos by (destruct fuel; [cbn in Hlt; lia|lia]).
    destruct (IH (n / 10)) as (Hp&Hne&Hall); [lia|lia|done|].
    split_and!; [|by destruct (dec_digits fuel _)|].
    + rewrite parse_digits_snoc, Hp. cbn [mbind option_bind]. rewrite parse_digit by lia. f_equal. lia.
    + apply Forall_app. split; [done|]. constructor; [lia|constructor].
Qed.

Lemma u64_string_roundtrip n : is_u64 n → u64_from_str (u64_to_string n) = Some n.
Proof.
  intros Hn. assert (n < 10 ^ Z.of_nat 20) by (unfold is_u64, u64_max in Hn; lia).
  destruct (dec_digits_spec 20 n) as (Hp&Hne&Hall); [done|done|lia|]. unfold u64_to_string.
  destruct (dec_digits 20 n) as [|c [|c' l]]; [done|done|]. cbn [u64_from_str].
  apply Forall_cons in Hall as [Hc _]. by rewrite (proj2 (Z.eqb_neq c 43)) by lia.
Qed.

(** Bytes and bits. *)
Lemma byte_bits_roundtrip b7 b6 b5 b4 b3 b2 b1 b0 :
  bits_of_byte (byte_of_bits [b7; b6; b5; b4; b3; b2; b1; b0]) = [b7; b6; b5; b4; b3; b2; b1; b0].
Proof. by destruct b7, b6, b5, b4, b3, b2, b1, b0. Qed.

Lemma bytes_of_bits_step b7 b6 b5 b4 b3 b2 b1 b0 l :
  bytes_of_bits (b7 :: b6 :: b5 :: b4 :: b3 :: b2 :: b1 :: b0 :: l) =
  byte_of_bits [b7; b6; b5; b4; b3; b2; b1; b0] :: bytes_of_bits l.
Proof. done. Qed.

(** The bytes hold the bits, then zeros up to the next byte. *)
Lemma bytes_of_bits_spec l : ∃ k, (k < 8)%nat ∧
  bytes_of_bits l ≫= bits_of_byte = l ++ repeat false k ∧ (length (bytes_of_bits l) * 8 = length l + k)%nat.
Proof.
  remember (length l) as n eqn:Hn. revert l Hn. induction (lt_wf n) as [n _ IH]; intros l ->.
  destruct l as [|b7 [|b6 [|b5 [|b4 [|b3 [|b2 [|b1 [|b0 l]]]]]]]];
    [exists 0%nat; split_and!; [lia|done|done]|exists 7%nat|exists 6%nat|exists 5%nat|exists 4%nat|exists 3%nat
    |exists 2%nat|exists 1%nat|].
  1-7: split_and!; [lia| |done]; cbn [bytes_of_bits length repeat Nat.sub app mbind list_bind];
    rewrite byte_bits_roundtrip; done.
  destruct (IH (length l) ltac:(cbn; lia) l eq_refl) as (k&Hk&Heq&Hlen). exists k. split; [done|].
  rewrite bytes_of_bits_step. cbn [mbind list_bind length app]. rewrite byte_bits_roundtrip.
  split; [by rewrite <-Heq|lia].
Qed.

Lemma bits_mod l k : (k < 8)%nat → (length (bytes_of_bits l) * 8 = length l + k)%nat →
  (length l mod 8 = (8 - k) mod 8)%nat.
Proof.
  intros Hk Hlen. set (n := length (bytes_of_bits l)) in *.
  destruct (decide (k = 0%nat)) as [->|Hk0].
  - replace (length l) with (n * 8)%nat by lia. by rewrite Nat.Div0.mod_mul.
  - rewrite (Nat.mod_small (8 - k)) by lia. symmetry. apply (Nat.mod_unique _ 8 (n - 1)); lia.
Qed.

Lemma bit_vector_roundtrip `{BitvecLimit} (v : BitVector) : (length v ≤ 8 * bitvec_max_elems)%nat →
  BitVector_try_from (BitVector_into_raw v) = Ok v.
Proof.
  intros Hmax. destruct (bytes_of_bits_spec v) as (k&Hk&Hbits&Hlen). pose proof (bits_mod v k Hk Hlen) as Hmod.
  unfold BitVector_try_from, BitVector_into_raw. cbn [elems extra_bits_stored]. rewrite Hmod, Hbits.
  set (n := length (bytes_of_bits v)) in *.
  destruct (decide (n = 0%nat)) as [Hn|Hn].
  { rewrite Hn in Hlen. assert (v = [] ∧ k = 0%nat) as [-> ->] by (destruct v; cbn [length] in Hlen; split; (done || lia)).
    done. }
  rewrite (proj2 (Nat.eqb_neq n 0)) by done. cbn [andb].
  rewrite (proj2 (Nat.ltb_ge _ _)) by lia.
  destruct (decide (k = 0%nat)) as [->|Hk0].
  - change (Z.of_nat ((8 - 0) mod 8)) with 0. cbn [Z.eqb mbind res_bind repeat].
    rewrite app_nil_r, take_ge by lia. done.
  - rewrite Nat.mod_small by lia. rewrite (proj2 (Z.eqb_neq _ 0)) by lia.
    rewrite (proj2 (Z.leb_le _ _)), (proj2 (Z.leb_le _ _)) by lia. cbn [andb mbind res_bind]. rewrite Nat2Z.id.
    rewrite take_app_length'; [done|lia].
Qed.

(** The error codes are exactly the numbers of the enum. *)
Lemma error_code_exact v c : ErrorCode_try_from v = Ok c ↔ ErrorCode_repr c = v.
Proof.
  split; [|by intros <-; destruct c].
  unfold ErrorCode_try_from. intros Hc.
  repeat match type of Hc with context [match ?p with _ => _ end] => destruct p; try discriminate Hc end;
  injection Hc as <-; reflexivity.
Qed.

(** The laws of bech32: a prefix of lower case letters and data of the length of an id are
    encoded, and decoding returns them; the empty string is no encoding. *)
Class Bech32Spec `{Bech32} := {
  bech32_roundtrip hrp data : hrp ≠ [] → (length hrp ≤ 83)%nat → Forall (λ c, 97 ≤ c ≤ 122) hrp →
    (length data ≤ 32)%nat → ∃ s, bech32_encode hrp data = Some s ∧ bech32_decode s = Some (hrp, data);
  bech32_decode_empty : bech32_decode [] = None
}.

Section AddressLemmas.
Context `{Bech32Spec}.

Lemma kind_prefix_hrp k : kind_prefix k ≠ [] ∧ (length (kind_prefix k) ≤ 83)%nat ∧
  Forall (λ c, 97 ≤ c ≤ 122) (kind_prefix k).
Proof.
  destruct k; (split; [done|split; [cbn; lia|]]); repeat constructor; vm_compute; discriminate.
Qed.

Lemma kind_from_prefix k : AddressKind_from_str (kind_prefix k) = Ok k.
Proof. by destruct k. Qed.

Lemma to_string_spec {A} `{!AddressTrait A} (a : A) : length (addr_id a) = ID_LENGTH →
  ∃ s, address_to_string a = Ok s ∧ s ≠ [] ∧ string_to_kind_and_id s = Ok (addr_kind a, addr_id a).
Proof.
  intros Hl. destruct (kind_prefix_hrp (addr_kind a)) as (Hne&Hle&Hall).
  destruct (bech32_roundtrip _ (addr_id a) Hne Hle Hall) as (s&Henc&Hdec); [rewrite Hl; unfold ID_LENGTH; lia|].
  exists s. unfold address_to_string, string_to_kind_and_id. rewrite Henc, Hdec. split_and!; [done| |].
  - intros ->. by rewrite bech32_decode_empty in Hdec.
  - cbn [ok_or mbind res_bind]. rewrite kind_from_prefix. cbn [mbind res_bind]. by rewrite Hl.
Qed.

Lemma address_to_string_spec (a : Address) : length (addr_id a) = ID_LENGTH →
  ∃ s, Address_to_string a = Ok s ∧ s ≠ [] ∧ Address_from_str s = Ok a.
Proof.
  intros Hl. destruct a as [a|a|a]; destruct (to_string_spec a Hl) as (s&Hs&Hne&Hparse);
    exists s; (split_and!; [done|done|]); unfold Address_from_str; rewrite Hparse; by destruct a.
Qed.
End AddressLemmas.

(** The bit arrays of nested modes fit into a [BitVec]. *)
Fixpoint mode_info_ok `{BitvecLimit} (m : ModeInfo) : bool :=
  match m with MkModeInfo s => sum_ok s end
with sum_ok `{BitvecLimit} (s : Sum) : bool :=
  match s with
  | Single _ => true
  | Multi v l => (length v <=? 8 * bitvec_max_elems)%nat && forallb mode_info_ok l
  end.

Lemma mode_info_roundtrip `{BitvecLimit} : ∀ m, mode_info_ok m = true → ModeInfo_try_from (ModeInfo_into_raw m) = Ok m.
Proof.
  fix IH 1. intros [[mode|v l]]; [done|]. cbn [mode_info_ok sum_ok ModeInfo_into_raw Sum_into_raw ModeInfo_try_from Sum_try_from].
  intros [Hv%Nat.leb_le Hl]%andb_true_iff. cbn [ok_or mbind res_bind]. rewrite bit_vector_roundtrip by done.
  cbn [mbind res_bind].
  assert (mapM ModeInfo_try_from (ModeInfo_into_raw <$> l) = Ok l) as Hm; [|by rewrite Hm].
  clear Hv. induction l as [|m l IHl]; [done|]. cbn [forallb] in Hl. apply andb_true_iff in Hl as [Hm Hl].
  cbn [fmap list_fmap mapM]. rewrite (IH m Hm). cbn [mbind res_bind]. by rewrite (IHl Hl).
Qed.

Lemma mapM_roundtrip {E A B} (f : A → B) (g : B → res E A) l : Forall (λ x, g (f x) = Ok x) l →
  mapM g (f <$> l) = Ok l.
Proof. induction 1 as [|x l Hx _ IH]; [done|]. cbn [fmap list_fmap mapM]. rewrite Hx. cbn [mbind res_bind]. by rewrite IH. Qed.

(** What a value of the Rust types satisfies: ids have 20 bytes, amounts are [u64], a height
    fits into an [i64], bit arrays fit into a [BitVec]. *)
Definition address_ok (a : Address) : Prop := length (addr_id a) = ID_LENGTH.
Definition coin_ok (c : Coin) : Prop := is_u64 (coin_amount c).
Record auth_info_ok `{BitvecLimit} (a : AuthInfo) : Prop := {
  aio_modes : Forall (λ s, mode_info_ok (si_mode_info s) = true) (ai_signer_infos a);
  aio_coins : Forall coin_ok (fee_amount (ai_fee a));
  aio_payer : ∀ x, fee_payer (ai_fee a) = Some x → address_ok x;
  aio_granter : ∀ x, fee_granter (ai_fee a) = Some x → address_ok x
}.

Section Roundtrips.
Context `{Bech32Spec} `{BitvecLimit}.

Lemma optional_roundtrip o : (∀ x, o = Some x → address_ok x) →
  ∃ s, optional_string o = Ok s ∧ optional_address s = Ok o.
Proof.
  intros Ho. destruct o as [a|]; [|by exists []]. destruct (address_to_string_spec a (Ho a eq_refl)) as (s&Hs&Hne&Hp).
  exists s. split; [done|]. unfold optional_address. destruct s; [done|]. cbn [length Nat.eqb]. by rewrite Hp.
Qed.

Lemma fee_roundtrip f : Forall coin_ok (fee_amount f) → (∀ x, fee_payer f = Some x → address_ok x) →
  (∀ x, fee_granter f = Some x → address_ok x) → ∃ raw, Fee_into_raw f = Ok raw ∧ Fee_try_from raw = Ok f.
Proof.
  intros Hc Hp Hg. destruct (optional_roundtrip _ Hp) as (sp&Hsp&Hap). destruct (optional_roundtrip _ Hg) as (sg&Hsg&Hag).
  unfold Fee_into_raw. rewrite Hsp. cbn [mbind res_bind]. rewrite Hsg. cbn [mbind res_bind].
  eexists. split; [done|]. unfold Fee_try_from. cbn [rf_amount rf_payer rf_granter rf_gas_limit].
  rewrite mapM_roundtrip; [|]. { cbn [mbind res_bind]. rewrite Hap. cbn [mbind res_bind]. rewrite Hag. by destruct f. }
  eapply Forall_impl; [exact Hc|]. intros [d n] Hn. unfold Coin_try_from, Coin_into_raw.
  cbn [rc_amount coin_amount coin_denom rc_denom]. by rewrite u64_string_roundtrip by apply Hn.
Qed.

(** The parts of a transaction that are signed survive their protobuf form: authorization
    (signers with nested modes and bit arrays, fee with coins in decimal and addresses as
    strings) and body are read back as they were written; writing never panics.  Unset payers
    and granters stay unset. *)
Theorem tx_raw_roundtrip a body : auth_info_ok a → 0 ≤ tb_timeout_height body ≤ i64_max →
  (∃ raw, AuthInfo_into_raw a = Ok raw ∧ AuthInfo_try_from raw = Ok a) ∧
  TxBody_try_from (TxBody_into_raw body) = Ok body.
Proof.
  intros [Hm Hc Hp Hg] Hh. split.
  - destruct (fee_roundtrip (ai_fee a) Hc Hp Hg) as (raw&Hraw&Hfee). unfold AuthInfo_into_raw. rewrite Hraw.
    eexists. split; [done|]. unfold AuthInfo_try_from. cbn [rai_signer_infos rai_fee].
    rewrite mapM_roundtrip; [cbn [ok_or mbind res_bind]; rewrite Hfee; by destruct a|].
    eapply Forall_impl; [exact Hm|]. intros s Hs. unfold SignerInfo_try_from, SignerInfo_into_raw. cbn.
    rewrite mode_info_roundtrip by done. by destruct s.
  - unfold TxBody_try_from, TxBody_into_raw, height_try_from. cbn [rtb_timeout_height].
    rewrite (proj2 (Z.ltb_ge _ 0)), (proj2 (Z.ltb_ge _ _)) by lia. by destruct body.
Qed.

(** Addresses and their strings.  An address is read back from its string, as a general address
    and as one of its kind; the string of another kind is refused with that kind's prefix; and
    different addresses have different strings. *)
Theorem address_string_roundtrip a : address_ok a → ∃ s, Address_to_string a = Ok s ∧
  Address_from_str s = Ok a ∧
  AccAddress_from_str s = match a with AccAddress x => Ok x | _ => Err (InvalidAddressPrefix (kind_prefix (addr_kind a))) end ∧
  ValAddress_from_str s = match a with ValAddress x => Ok x | _ => Err (InvalidAddressPrefix (kind_prefix (addr_kind a))) end ∧
  ConsAddress_from_str s = match a with ConsAddress x => Ok x | _ => Err (InvalidAddressPrefix (kind_prefix (addr_kind a))) end ∧
  ∀ b, address_ok b → Address_to_string b = Ok s → a = b.
Proof.
  intros Ha. destruct (address_to_string_spec a Ha) as (s&Hs&Hne&Hp). exists s.
  assert (string_to_kind_and_id s = Ok (addr_kind a, addr_id a)) as Hk.
  { destruct a as [a|a|a]; destruct (to_string_spec a Ha) as (s'&Hs'&_&Hk); unfold Address_to_string in Hs;
      rewrite Hs' in Hs; injection Hs as <-; done. }
  split_and!; [done|done| | | |].
  1-3: unfold AccAddress_from_str, ValAddress_from_str, ConsAddress_from_str; rewrite Hk; by destruct a as [[]|[]|[]].
  intros b Hb Hbs. destruct (address_to_string_spec b Hb) as (s'&Hs'&_&Hp'). rewrite Hs' in Hbs. injection Hbs as ->.
  rewrite Hp in Hp'. by injection Hp'.
Qed.

(** ** Accounts *)

Class PublicKeysSpec `{PublicKeys} := {
  ed25519_roundtrip k : ed25519_from_raw (ed25519_to_bytes k) = Some k;
  secp256k1_roundtrip k : secp256k1_from_raw (secp256k1_to_bytes k) = Some k;
  pubkey_roundtrip b : pubkey_decode (pubkey_encode b) = Some b
}.

(** Accounts of both kinds survive their protobuf form, when their key is of one of the two
    supported types (with another the conversion panics). *)
Theorem account_raw_roundtrip `{PublicKeysSpec} (m : ModuleAccount) :
  address_ok (acct_address (ma_base_account m)) →
  (acct_pub_key (ma_base_account m) ≠ Some OtherKey →
   (∃ raw, BaseAccount_into_raw (ma_base_account m) = Ok raw ∧ BaseAccount_try_from raw = Ok (ma_base_account m)) ∧
   ∃ raw, ModuleAccount_into_raw m = Ok raw ∧ ModuleAccount_try_from raw = Ok m) ∧
  (acct_pub_key (ma_base_account m) = Some OtherKey → ModuleAccount_into_raw m = Panic).
Proof.
  intros Ha. destruct m as [[addr key num seq] name perms]. cbn in Ha |- *.
  destruct (address_to_string_spec addr Ha) as (s&Hs&_&Hp). unfold ModuleAccount_into_raw, BaseAccount_into_raw.
  cbn. rewrite Hs. cbn [mbind res_bind]. split; [|by intros ->].
  intros Hk. destruct key as [[k|k| ]|]; [| |done|]; cbn;
    (split; (eexists; split; [done|])); unfold ModuleAccount_try_from, BaseAccount_try_from; cbn;
    unfold public_key_from_any; cbn;
    rewrite ?bool_decide_eq_true_2, ?(bool_decide_eq_false_2 (COSMOS_SECP256K1_PUBKEY = COSMOS_ED25519_PUBKEY)) by done;
    rewrite ?pubkey_roundtrip; cbn; rewrite ?ed25519_roundtrip, ?secp256k1_roundtrip; cbn; by rewrite Hp.
Qed.
End Roundtrips.

(** ** Witnesses *)

(** A small concrete encoding: the length of the prefix, the prefix, the data. *)
#[local] Instance toy_bech32 : Bech32 := {|
  bech32_encode hrp data := Some (Z.of_nat (length hrp) :: hrp ++ data);
  bech32_decode s := match s with [] => None | n :: s => Some (take (Z.to_nat n) s, drop (Z.to_nat n) s) end
|}.
#[local] Instance toy_bech32_spec : Bech32Spec.
Proof.
  split; [|done]. intros hrp data _ _ _ _. eexists. split; [done|]. cbn.
  by rewrite Nat2Z.id, take_app_length, drop_app_length.
Qed.
#[local] Instance toy_bitvec : BitvecLimit := {| bitvec_max_elems := 1000 |}.
#[local] Instance toy_keys : PublicKeys := {|
  Ed25519Key := bytes; Secp256k1Key := bytes; ed25519_from_raw b := Some b; ed25519_to_bytes k := k;
  secp256k1_from_raw b := Some b; secp256k1_to_bytes k := k; pubkey_encode b := 10 :: b;
  pubkey_decode b := match b with 10 :: b => Some b | _ => None end
|}.
#[local] Instance toy_keys_spec : PublicKeysSpec.
Proof. by split. Qed.

Definition toy_address : Address := ValAddress (ValAddress_new (repeat 7 20)).
Definition toy_auth_info : AuthInfo := {|
  ai_signer_infos := [
    {| si_public_key := None;
       si_mode_info := MkModeInfo (Multi [true; false; true] [MkModeInfo (Single 1); MkModeInfo (Multi [] [])]);
       si_sequence := 7 |}];
  ai_fee := {| fee_amount := [Coin_utia 18446744073709551615; Coin_utia 0]; fee_gas_limit := 5;
               fee_payer := Some toy_address; fee_granter := None |}
|}.
Definition toy_body : TxBody := {|
  tb_messages := []; tb_memo := []; tb_timeout_height := 9; tb_extension_options := [];
  tb_non_critical_extension_options := []
|}.

Lemma tx_raw_roundtrip_witness :
  (∃ raw, AuthInfo_into_raw toy_auth_info = Ok raw ∧ AuthInfo_try_from raw = Ok toy_auth_info) ∧
  TxBody_try_from (TxBody_into_raw toy_body) = Ok toy_body.
Proof.
  apply tx_raw_roundtrip; [|cbn; unfold i64_max; lia]. constructor.
  - by repeat constructor.
  - repeat constructor; by vm_compute.
  - by intros x [= <-].
  - done.
Defined.

Lemma address_string_roundtrip_witness : ∃ s, Address_to_string toy_address = Ok s ∧ Address_from_str s = Ok toy_address ∧
  AccAddress_from_str s = Err (InvalidAddressPrefix (str "celestiavaloper")).
Proof.
  destruct (address_string_roundtrip toy_address eq_refl) as (s&Hs&Hp&Ha&_). exists s. split; [exact Hs|].
  split; [exact Hp|exact Ha].
Defined.

Definition toy_account : ModuleAccount := {|
  ma_base_account := {| acct_address := toy_address; acct_pub_key := Some (Secp256k1 ([1; 2] : @Secp256k1Key toy_keys));
                        acct_number := 1; acct_sequence := 2 |};
  ma_name := str "mint"; ma_permissions := []
|}.

Lemma account_raw_roundtrip_witness :
  ∃ raw, ModuleAccount_into_raw toy_account = Ok raw ∧ ModuleAccount_try_from raw = Ok toy_account.
Proof.
  destruct (account_raw_roundtrip toy_account eq_refl) as [Hok _].
  destruct (Hok ltac:(discriminate)) as [_ Hraw]. exact Hraw.
Defined.
