(* ===== verification/Wire.v ===== *)
(** * Protobuf forms (the [TryFrom<Raw...>] and [From<...>] conversions of
    src/types/src/extended_header.rs, block.rs, block/data.rs, data_availability_header.rs,
    share/proof.rs, fraud_proof.rs)

    What travels between nodes is a protobuf message; these are the conversions between the
    messages and the types the other files work with: extended headers (also in the form they
    have in JSON), blocks, row and share proofs, and fraud proofs in their envelope.  The
    messages themselves are bytes by prost, and the parts of a tendermint block are converted by
    the tendermint crate: both are parameters. *)

From Stdlib Require Import String.
From S2P Require Import Prelude Consts Nmt Merkle Dah Header Share Eds ShwapIds Containers Byzantine StateTypes.

(** ** External code *)

(** Messages and conversions of tendermint and tendermint-proto; [None] is an error. *)
Class TendermintProto := {
  RawHeader : Type;
  header_try_from : RawHeader → option Header;
  header_into_raw : Header → RawHeader;
  RawBlockId : Type;
  RawCommitSig : Type;
  RawValidatorSet : Type;
  valset_try_from : RawValidatorSet → option ValidatorSet;
  valset_into_raw : ValidatorSet → RawValidatorSet;
  EvidenceList : Type;
  RawEvidenceList : Type;
  evidence_default : EvidenceList;
  evidence_try_from : RawEvidenceList → option EvidenceList;
  evidence_into_raw : EvidenceList → RawEvidenceList;
  (** [Commit::default()] *)
  commit_default : Commit
}.

(** [tendermint_proto::types::Commit]. *)
Record RawCommit `{TendermintProto} := {
  rcm_height : Z;
  rcm_round : Z;
  rcm_block_id : option RawBlockId;
  rcm_signatures : list RawCommitSig
}.
Class CommitProto `{TendermintProto} := {
  commit_try_from : RawCommit → option Commit;
  commit_into_raw : Commit → RawCommit
}.

(** Reading what was written. *)
Class TendermintProtoSpec `{CommitProto} : Prop := {
  header_proto_roundtrip h : header_try_from (header_into_raw h) = Some h;
  commit_proto_roundtrip c : commit_try_from (commit_into_raw c) = Some c;
  valset_proto_roundtrip v : valset_try_from (valset_into_raw v) = Some v;
  evidence_proto_roundtrip e : evidence_try_from (evidence_into_raw e) = Some e
}.

(** The errors of these conversions. *)
Inductive WireError :=
| MissingHeader | MissingCommit | MissingValidatorSet | MissingDataAvailabilityHeader
| MissingData | WireTendermint | WireDah (e : DahError) | WireTypes (e : TypesError)
| WireMerkle (e : MerkleError) | WireValidation | WireProtobuf
| UnsupportedFraudProofType (s : bytes).

(** ** Extended headers *)

Section Headers.
Context `{CommitProto} `{DahExternals}.

Record RawExtendedHeader := {
  reh_header : option RawHeader;
  reh_commit : option RawCommit;
  reh_validator_set : option RawValidatorSet;
  reh_dah : option RawDataAvailabilityHeader
}.

Definition ExtendedHeader_try_from (value : RawExtendedHeader) : res WireError ExtendedHeader :=
  header ← ok_or (reh_header value) MissingHeader;
  header ← ok_or (header_try_from header) WireTendermint;
  commit ← ok_or (reh_commit value) MissingCommit;
  commit ← ok_or (commit_try_from commit) WireTendermint;
  validator_set ← ok_or (reh_validator_set value) MissingValidatorSet;
  validator_set ← ok_or (valset_try_from validator_set) WireTendermint;
  dah ← ok_or (reh_dah value) MissingDataAvailabilityHeader;
  dah ← map_err WireDah (dah_try_from dah);
  Ok {| eh_header := header; eh_commit := commit; eh_validator_set := validator_set; eh_dah := dah |}.

Definition ExtendedHeader_into_raw (value : ExtendedHeader) : RawExtendedHeader :=
  {| reh_header := Some (header_into_raw (eh_header value));
     reh_commit := Some (commit_into_raw (eh_commit value));
     reh_validator_set := Some (valset_into_raw (eh_validator_set value));
     reh_dah := Some (dah_into_raw (eh_dah value)) |}.

(** The form in JSON: the commit has a type of its own. *)
Record SerdeCommit := {
  sc_height : Z;
  sc_round : Z;
  sc_block_id : option RawBlockId;
  sc_signatures : list RawCommitSig
}.
Record SerdeExtendedHeader := {
  seh_header : option RawHeader;
  seh_commit : option SerdeCommit;
  seh_validator_set : option RawValidatorSet;
  seh_dah : option RawDataAvailabilityHeader
}.
Definition SerdeCommit_from (value : RawCommit) : SerdeCommit :=
  {| sc_height := rcm_height value; sc_round := rcm_round value; sc_block_id := rcm_block_id value;
     sc_signatures := rcm_signatures value |}.
Definition RawCommit_from (value : SerdeCommit) : RawCommit :=
  {| rcm_height := sc_height value; rcm_round := sc_round value; rcm_block_id := sc_block_id value;
     rcm_signatures := sc_signatures value |}.
Definition SerdeExtendedHeader_from (value : RawExtendedHeader) : SerdeExtendedHeader :=
  {| seh_header := reh_header value; seh_commit := SerdeCommit_from <$> reh_commit value;
     seh_validator_set := reh_validator_set value; seh_dah := reh_dah value |}.
Definition RawExtendedHeader_from (value : SerdeExtendedHeader) : RawExtendedHeader :=
  {| reh_header := seh_header value; reh_commit := RawCommit_from <$> seh_commit value;
     reh_validator_set := seh_validator_set value; reh_dah := seh_dah value |}.
(** [serialize] and [deserialize] up to the format. *)
Definition ExtendedHeader_serialize (value : ExtendedHeader) : SerdeExtendedHeader :=
  SerdeExtendedHeader_from (ExtendedHeader_into_raw value).
Definition ExtendedHeader_deserialize (value : SerdeExtendedHeader) : res WireError ExtendedHeader :=
  ExtendedHeader_try_from (RawExtendedHeader_from value).

(** ** Blocks *)

Record Data := { da_txs : list bytes; da_square_size : Z; da_hash : bytes }.
(** The message has the same fields. *)
Definition Data_try_from (value : Data) : Data :=
  {| da_txs := da_txs value; da_square_size := da_square_size value; da_hash := da_hash value |}.

Record Block := {
  bl_header : Header;
  bl_data : Data;
  bl_evidence : EvidenceList;
  bl_last_commit : option Commit
}.
Record RawBlock := {
  rbl_header : option RawHeader;
  rbl_data : option Data;
  rbl_evidence : option RawEvidenceList;
  rbl_last_commit : option RawCommit
}.

(** [map(TryInto::try_into).transpose()]. *)
Definition transpose_map {A B E} (f : A → res E B) (o : option A) : res E (option B) :=
  match o with None => Ok None | Some x => Some <$> f x end.

Definition Block_try_from (value : RawBlock) : res WireError Block :=
  header ← ok_or (rbl_header value) WireTendermint;
  header ← ok_or (header_try_from header) WireTendermint;
  last_commit ← transpose_map (λ c, ok_or (commit_try_from c) WireTendermint) (rbl_last_commit value);
  let last_commit := last_commit ≫= λ c, if bool_decide (c ≠ commit_default) then Some c else None in
  data ← ok_or (rbl_data value) WireTendermint;
  evidence ← transpose_map (λ e, ok_or (evidence_try_from e) WireTendermint) (rbl_evidence value);
  Ok {| bl_header := header; bl_data := Data_try_from data; bl_evidence := default evidence_default evidence;
        bl_last_commit := last_commit |}.
Definition Block_into_raw (value : Block) : RawBlock :=
  {| rbl_header := Some (header_into_raw (bl_header value)); rbl_data := Some (Data_try_from (bl_data value));
     rbl_evidence := Some (evidence_into_raw (bl_evidence value));
     rbl_last_commit := commit_into_raw <$> bl_last_commit value |}.

(** ** Lemmas *)

Context `{!TendermintProtoSpec} `{!DahExternalsSpec}.

Lemma eh_raw_roundtrip e : dah_wf (eh_dah e) → ExtendedHeader_try_from (ExtendedHeader_into_raw e) = Ok e.
Proof.
  intros Hd. unfold ExtendedHeader_try_from, ExtendedHeader_into_raw.
  cbn [reh_header reh_commit reh_validator_set reh_dah ok_or mbind res_bind].
  rewrite header_proto_roundtrip, commit_proto_roundtrip, valset_proto_roundtrip. cbn [ok_or mbind res_bind].
  rewrite dah_raw_roundtrip by done. cbn [map_err mbind res_bind]. by destruct e.
Qed.

Lemma serde_raw (raw : RawExtendedHeader) : RawExtendedHeader_from (SerdeExtendedHeader_from raw) = raw.
Proof. by destruct raw as [h [[]|] v d]. Qed.

(** What a block is after a round trip: a default commit counts as none. *)
Definition drop_default_commit (b : Block) : Block :=
  {| bl_header := bl_header b; bl_data := bl_data b; bl_evidence := bl_evidence b;
     bl_last_commit := bl_last_commit b ≫= λ c, if bool_decide (c ≠ commit_default) then Some c else None |}.

Lemma block_raw_roundtrip b : Block_try_from (Block_into_raw b) = Ok (drop_default_commit b).
Proof.
  unfold Block_try_from, Block_into_raw. cbn [rbl_header rbl_data rbl_evidence rbl_last_commit ok_or mbind res_bind].
  rewrite header_proto_roundtrip. cbn [ok_or mbind res_bind].
  assert (transpose_map (λ c, ok_or (commit_try_from c) WireTendermint) (commit_into_raw <$> bl_last_commit b) =
    Ok (bl_last_commit b)) as ->.
  { destruct (bl_last_commit b) as [c|]; [|done]. cbn. by rewrite commit_proto_roundtrip. }
  cbn [transpose_map ok_or mbind res_bind]. rewrite evidence_proto_roundtrip. cbn. by destruct b as [? [] ? ?].
Qed.

Lemma drop_default_commit_id b : drop_default_commit b = b ↔ bl_last_commit b ≠ Some commit_default.
Proof.
  destruct b as [h d e [c|]]; [|done]. unfold drop_default_commit. cbn. case_bool_decide as Hc; naive_solver.
Qed.

(** Extended headers survive the protobuf message and the JSON form, and a header without one of
    its four parts is refused; blocks survive their message exactly when the last commit is not a
    default commit, which is read as no commit. *)
Theorem headers_and_blocks_wire :
  (∀ e, dah_wf (eh_dah e) → ExtendedHeader_try_from (ExtendedHeader_into_raw e) = Ok e ∧
                            ExtendedHeader_deserialize (ExtendedHeader_serialize e) = Ok e) ∧
  (∀ raw e, ExtendedHeader_try_from raw = Ok e →
     is_Some (reh_header raw) ∧ is_Some (reh_commit raw) ∧ is_Some (reh_validator_set raw) ∧ is_Some (reh_dah raw)) ∧
  (∀ b, Block_try_from (Block_into_raw b) = Ok b ↔ bl_last_commit b ≠ Some commit_default).
Proof.
  split_and!.
  - intros e He. unfold ExtendedHeader_deserialize, ExtendedHeader_serialize. rewrite serde_raw.
    by rewrite eh_raw_roundtrip.
  - intros raw e Ht. unfold ExtendedHeader_try_from in Ht. repeat (apply bind_Ok in Ht as (?&?%ok_or_Ok&Ht)). apply bind_Ok in Ht as (?&?&?). split_and!; by eexists.
  - intros b. rewrite block_raw_roundtrip, <- drop_default_commit_id. split; [congruence|by intros ->].
Qed.
End Headers.

(** ** Proofs *)

Section ProofMessages.
Context `{DahExternals} `{NmtProofs}.

(** [Hash::try_from(Vec<u8>)] on the 32 bytes of a Merkle hash. *)
Definition merkle_hash_of_bytes (b : bytes) : option bytes := if (length b =? 32)%nat then Some b else None.
Definition merkle_hash_bytes (b : bytes) : bytes := b.

(** [celestia.core.v1.proof.RowProof]; rows are [u32]. *)
Record RawRowProof := {
  rrp_row_roots : list bytes;
  rrp_proofs : list RawMerkleProof;
  rrp_root : bytes;
  rrp_start_row : Z;
  rrp_end_row : Z
}.

Definition row_try_into (row : Z) : res TypesError Z :=
  if u16_max <? row then Err EValidation else Ok row.
Definition RowProof_try_from (value : RawRowProof) : res TypesError RowProof :=
  row_roots ← mapM nh_from_raw_res (rrp_row_roots value);
  proofs ← mapM (λ p, map_err (λ e, EDah (DahMerkle e)) (MerkleProof_try_from merkle_hash_of_bytes p)) (rrp_proofs value);
  start_row ← row_try_into (rrp_start_row value);
  end_row ← row_try_into (rrp_end_row value);
  Ok {| rp_row_roots := row_roots; rp_proofs := proofs; rp_start_row := start_row; rp_end_row := end_row |}.
Definition RowProof_into_raw (value : RowProof) : RawRowProof :=
  {| rrp_row_roots := nh_to_array <$> rp_row_roots value;
     rrp_proofs := MerkleProof_into_raw merkle_hash_bytes <$> rp_proofs value; rrp_root := [];
     rrp_start_row := rp_start_row value; rrp_end_row := rp_end_row value |}.

(** [celestia.core.v1.proof.ShareProof]; the version is a [u32]. *)
Record RawShareProof := {
  rsp_data : list bytes;
  rsp_share_proofs : list RawNmtProof;
  rsp_namespace_id : bytes;
  rsp_row_proof : option RawRowProof;
  rsp_namespace_version : Z
}.

Definition share_array (b : bytes) : res TypesError bytes :=
  if (length b =? SHARE_SIZE)%nat then Ok b else Err EValidation.
Definition ShareProof_try_from (value : RawShareProof) : res TypesError ShareProof :=
  data ← mapM share_array (rsp_data value);
  version ← (if 255 <? rsp_namespace_version value then Err EValidation else Ok (rsp_namespace_version value));
  namespace_id ← map_err ENamespace (Namespace_new version (rsp_namespace_id value));
  share_proofs ← mapM NamespaceProof_try_from_nmt (rsp_share_proofs value);
  row_proof ← ok_or (rsp_row_proof value) EValidation;
  row_proof ← RowProof_try_from row_proof;
  Ok {| sp_data := data; sp_namespace_id := namespace_id; sp_share_proofs := share_proofs; sp_row_proof := row_proof |}.
Definition ShareProof_into_raw (value : ShareProof) : res TypesError RawShareProof :=
  version ← map_err ENamespace (Namespace_version (sp_namespace_id value));
  Ok {| rsp_data := sp_data value; rsp_share_proofs := NamespaceProof_into_nmt <$> sp_share_proofs value;
        rsp_namespace_id := Namespace_id (sp_namespace_id value);
        rsp_row_proof := Some (RowProof_into_raw (sp_row_proof value)); rsp_namespace_version := version |}.

(** ** Fraud proofs *)

(** The conversions of hashes and heights of tendermint, and the bytes of the message. *)
Context (hash_try_from : bytes → option Hash) (hash_into : Hash → bytes) (height_try_from : Z → option Z).
Context (befp_decode : bytes → option RawBadEncodingFraudProof) (befp_encode : RawBadEncodingFraudProof → bytes).

Definition BEFP_TYPE : bytes := str "badencoding".
Record RawFraudProof := { rfp_proof_type : bytes; rfp_data : bytes }.
Inductive Proof := BadEncoding (befp : BadEncodingFraudProof).

Definition Proof_try_from (value : RawFraudProof) : res WireError Proof :=
  if bool_decide (rfp_proof_type value = BEFP_TYPE) then
    raw ← ok_or (befp_decode (rfp_data value)) WireProtobuf;
    befp ← map_err WireTypes (befp_try_from hash_try_from height_try_from raw);
    Ok (BadEncoding befp)
  else Err (UnsupportedFraudProofType (rfp_proof_type value)).
Definition Proof_into_raw (value : Proof) : RawFraudProof :=
  match value with
  | BadEncoding befp => {| rfp_proof_type := BEFP_TYPE; rfp_data := befp_encode (befp_into_raw hash_into befp) |}
  end.

(** ** Lemmas *)

Context `{!DahExternalsSpec} `{NmtExternals} `{!NmtProofsSpec}.

(** Values of the sizes the Rust types give. *)
Definition merkle_proof_wf (p : MerkleProof bytes) : Prop :=
  Z.of_nat (mp_index p) ≤ i64_max ∧ 0 < Z.of_nat (mp_total p) ≤ i64_max ∧ length (mp_leaf_hash p) = 32%nat ∧
  Forall (λ b, length b = 32%nat) (mp_aunts p).
Definition row_proof_wf (p : RowProof) : Prop :=
  Forall nh_wf (rp_row_roots p) ∧ Forall merkle_proof_wf (rp_proofs p) ∧
  0 ≤ rp_start_row p ≤ u16_max ∧ 0 ≤ rp_end_row p ≤ u16_max.
Definition share_proof_wf (p : ShareProof) : Prop :=
  Forall (λ b, length b = SHARE_SIZE) (sp_data p) ∧ valid_namespace (sp_namespace_id p) ∧
  Forall (λ x, nproof_wf x ∧ max_ns_ignored x = true) (sp_share_proofs p) ∧ row_proof_wf (sp_row_proof p).
Definition share_with_proof_wf (s : ShareWithProof) : Prop :=
  length (leaf_share (swp_leaf s)) = SHARE_SIZE ∧ valid_namespace (leaf_namespace (swp_leaf s)) ∧
  nproof_wf (swp_proof s) ∧ is_of_absence (swp_proof s) = false.
Definition befp_wf (p : BadEncodingFraudProof) : Prop :=
  Forall (λ o, ∀ s, o = Some s → share_with_proof_wf s) (befp_shares p) ∧ 0 ≤ befp_index p ≤ u16_max ∧
  hash_try_from (hash_into (befp_header_hash p)) = Some (befp_header_hash p) ∧
  height_try_from (befp_block_height p) = Some (befp_block_height p).

Lemma mapM_inverse {A B E} (f : B → res E A) (g : A → B) l :
  Forall (λ x, f (g x) = Ok x) l → mapM f (g <$> l) = Ok l.
Proof. intros Hl. by apply mapM_res_Ok, Forall2_fmap_l, Forall_Forall2_diag. Qed.

Lemma merkle_proof_wire p : merkle_proof_wf p →
  MerkleProof_try_from merkle_hash_of_bytes (MerkleProof_into_raw merkle_hash_bytes p) = Ok p.
Proof.
  intros (Hi&Ht&Hl&Ha). apply merkle_raw_inverse; [|done|done].
  assert (∀ b : bytes, length b = 32%nat → merkle_hash_of_bytes (merkle_hash_bytes b) = Some b) as Hb
    by (intros b Hlen; unfold merkle_hash_of_bytes, merkle_hash_bytes; by rewrite Hlen).
  constructor; [by apply Hb|]. eapply Forall_impl; [exact Ha|exact Hb].
Qed.

Lemma row_proof_wire p : row_proof_wf p → RowProof_try_from (RowProof_into_raw p) = Ok p.
Proof.
  intros (Hr&Hp&Hs&He). unfold RowProof_try_from, RowProof_into_raw.
  cbn [rrp_row_roots rrp_proofs rrp_start_row rrp_end_row]. rewrite siblings_from_raw by done. cbn [mbind res_bind].
  rewrite mapM_inverse.
  2:{ eapply Forall_impl; [exact Hp|]. intros x Hx. cbn. by rewrite merkle_proof_wire. }
  cbn [mbind res_bind]. unfold row_try_into. rewrite !(proj2 (Z.ltb_ge _ _)) by lia. cbn [mbind res_bind]. by destruct p.
Qed.

Lemma valid_namespace_parts ns : valid_namespace ns → ∃ v, Namespace_version ns = Ok v ∧ 0 ≤ v ≤ 255 ∧
  Namespace_new v (Namespace_id ns) = Ok ns.
Proof.
  intros Hv. destruct (proj1 (namespace_from_raw_exact ns ns)) as [_ Hr]. specialize (Hr (conj eq_refl Hv)).
  unfold Namespace_from_raw in Hr. destruct (negb (length ns =? NS_SIZE)%nat); [done|].
  apply bind_Ok in Hr as (v&Hver&Hnew). exists v. split; [done|]. split; [|done].
  unfold Namespace_new in Hnew. destruct (Z.eqb_spec v 0); [lia|]. destruct (Z.eqb_spec v 255); [lia|done].
Qed.

Lemma share_proof_wire p : share_proof_wf p →
  ∃ raw, ShareProof_into_raw p = Ok raw ∧ ShareProof_try_from raw = Ok p.
Proof.
  intros (Hd&Hn&Hs&Hr). destruct (valid_namespace_parts _ Hn) as (v&Hv&Hb&Hnew).
  unfold ShareProof_into_raw. rewrite Hv. cbn [map_err mbind res_bind]. eexists. split; [done|]. unfold ShareProof_try_from.
  cbn [rsp_data rsp_share_proofs rsp_namespace_id rsp_row_proof rsp_namespace_version].
  assert (mapM share_array (sp_data p) = Ok (sp_data p)) as ->.
  { apply mapM_res_Ok, Forall_Forall2_diag. eapply Forall_impl; [exact Hd|]. intros b Hlen. cbn. unfold share_array. by rewrite Hlen. }
  cbn [mbind res_bind]. rewrite (proj2 (Z.ltb_ge _ _)) by lia. cbn [mbind res_bind]. rewrite Hnew. cbn [map_err mbind res_bind].
  rewrite mapM_inverse.
  2:{ eapply Forall_impl; [exact Hs|]. intros x [Hx Hi]. by apply proof_nmt_roundtrip. }
  cbn [ok_or mbind res_bind]. rewrite row_proof_wire by done. cbn [mbind res_bind]. by destruct p.
Qed.

Lemma share_with_proof_wire s : share_with_proof_wf s → ShareWithProof_try_from (ShareWithProof_into_raw s) = Ok s.
Proof.
  intros (Hl&Hn&Hp&Ha). unfold ShareWithProof_try_from, ShareWithProof_into_raw.
  cbn [rswp_data rswp_proof rswp_proof_axis]. unfold NmtLeaf_new, NmtLeaf_to_vec.
  assert (length (leaf_namespace (swp_leaf s)) = NS_SIZE) as Hns.
  { destruct Hn as [(suf&Hsuf&->)|(b&->)]; rewrite length_app, repeat_length; [by rewrite Hsuf|done]. }
  rewrite length_app, Hns, Hl. rewrite Nat.add_comm, Nat.eqb_refl. cbn [negb]. unfold split_at.
  rewrite length_app, Hns. rewrite (proj2 (Nat.ltb_ge _ _)) by lia.
  cbn [mbind res_bind]. rewrite take_app_length', drop_app_length' by done.
  rewrite (proj2 (proj1 (namespace_from_raw_exact _ _)) (conj eq_refl Hn)). cbn [map_err mbind res_bind ok_or].
  rewrite proof_raw_roundtrip by done. cbn [mbind res_bind]. rewrite Ha.
  destruct s as [[ns sh] pr ax]. by destruct ax.
Qed.

Lemma befp_wire p : befp_wf p → befp_try_from hash_try_from height_try_from (befp_into_raw hash_into p) = Ok p.
Proof.
  intros (Hs&Hi&Hh&Ht). unfold befp_try_from, befp_into_raw.
  cbn [rbefp_axis rbefp_index rbefp_shares rbefp_header_hash rbefp_height].
  assert (AxisType_try_from (axis_as_i32 (befp_axis p)) = Some (befp_axis p)) as -> by (by destruct (befp_axis p)).
  cbn [ok_or mbind res_bind]. rewrite (proj2 (Z.ltb_ge _ _)) by lia. cbn [mbind res_bind]. rewrite mapM_inverse.
  2:{ eapply Forall_impl; [exact Hs|]. intros [s|] Hw; cbn; [|done].
      rewrite share_with_proof_wire by (by apply Hw). done. }
  cbn [mbind res_bind]. rewrite Hh, Ht. cbn [ok_or mbind res_bind]. by destruct p.
Qed.

(** Row proofs, share proofs and fraud proofs in their envelope survive their messages; an
    envelope of another type is refused. *)
Theorem proof_messages_wire :
  (∀ p, row_proof_wf p → RowProof_try_from (RowProof_into_raw p) = Ok p) ∧
  (∀ p, share_proof_wf p → ∃ raw, ShareProof_into_raw p = Ok raw ∧ ShareProof_try_from raw = Ok p) ∧
  (∀ p, befp_wf p → befp_decode (befp_encode (befp_into_raw hash_into p)) = Some (befp_into_raw hash_into p) →
     Proof_try_from (Proof_into_raw (BadEncoding p)) = Ok (BadEncoding p)) ∧
  (∀ raw, rfp_proof_type raw ≠ BEFP_TYPE → Proof_try_from raw = Err (UnsupportedFraudProofType (rfp_proof_type raw))).
Proof.
  split_and!; [apply row_proof_wire|apply share_proof_wire|..].
  - intros p Hp Hbytes. unfold Proof_try_from, Proof_into_raw. cbn [rfp_proof_type rfp_data]. rewrite bool_decide_true by done.
    rewrite Hbytes. cbn [ok_or mbind res_bind]. by rewrite befp_wire.
  - intros raw Hr. unfold Proof_try_from. by rewrite bool_decide_false.
Qed.
End ProofMessages.

(** ** Witnesses *)

#[local] Existing Instances toy_NmtExternals toy_NmtExternalsSpec toy_MerkleHash toy_DahExternals
  toy_DahExternalsSpec toy_NmtProofs toy_NmtProofsSpec.

(** Messages that are the values, so that the conversions are the identity. *)
#[local] Instance toy_TendermintProto : TendermintProto := {|
  RawHeader := Header; header_try_from := Some; header_into_raw h := h;
  RawBlockId := BlockId; RawCommitSig := CommitSig;
  RawValidatorSet := ValidatorSet; valset_try_from := Some; valset_into_raw v := v;
  EvidenceList := unit; RawEvidenceList := unit; evidence_default := tt;
  evidence_try_from := Some; evidence_into_raw e := e;
  commit_default := {| c_height := 0; c_round := 0;
    c_block_id := {| bid_hash := NoHash; bid_parts_total := 0; bid_parts_hash := NoHash |}; c_signatures := [] |}
|}.
(** A commit without a block id would be an error; the default one stands for it here. *)
#[local] Instance toy_CommitProto : CommitProto := {|
  commit_try_from r := b ← rcm_block_id r;
    Some {| c_height := rcm_height r; c_round := rcm_round r; c_block_id := b; c_signatures := rcm_signatures r |};
  commit_into_raw c := {| rcm_height := c_height c; rcm_round := c_round c; rcm_block_id := Some (c_block_id c);
                          rcm_signatures := c_signatures c |}
|}.
#[local] Instance toy_TendermintProtoSpec : TendermintProtoSpec.
Proof. split; [done| |done|done]. by intros []. Qed.

Lemma headers_and_blocks_wire_witness :
  ExtendedHeader_deserialize (ExtendedHeader_serialize toy_2) = Ok toy_2 ∧
  (let b := {| bl_header := eh_header toy_1; bl_data := {| da_txs := []; da_square_size := 1; da_hash := [] |};
               bl_evidence := tt; bl_last_commit := Some commit_default |} in
   Block_try_from (Block_into_raw b) ≠ Ok b).
Proof.
  destruct headers_and_blocks_wire as (He&_&Hb). split.
  - apply He. vm_compute. repeat constructor; vm_compute; done.
  - cbv zeta. rewrite Hb. by intros [].
Defined.

Definition toy_row_proof : RowProof :=
  {| rp_row_roots := [toy_nh 1]; rp_proofs := []; rp_start_row := 0; rp_end_row := 65535 |}.
Lemma proof_messages_wire_witness :
  RowProof_try_from (RowProof_into_raw toy_row_proof) = Ok toy_row_proof ∧
  (let befp := {| befp_header_hash := NoHash; befp_block_height := 3; befp_shares := [None; None]; befp_index := 1;
                  befp_axis := Col |} in
   let raw := befp_into_raw (λ _, []) befp in
   Proof_try_from (λ _, Some NoHash) Some (λ _, Some raw) (Proof_into_raw (λ _, []) (λ _, [7]) (BadEncoding befp)) =
     Ok (BadEncoding befp)).
Proof.
  cbv zeta. destruct (proof_messages_wire (λ _, Some NoHash) (λ _, []) Some
    (λ _, Some (befp_into_raw (λ _, []) {| befp_header_hash := NoHash; befp_block_height := 3;
       befp_shares := [None; None]; befp_index := 1; befp_axis := Col |})) (λ _, [7])) as (Hr&_&Hf&_). split.
  - apply Hr. split_and!; [by repeat constructor|constructor|done..].
  - apply Hf; [|done]. split_and!; [|done..]. by repeat constructor.
Defined.
