(* ===== verification/Serializers.v ===== *)
(** * Serializers (src/proto/src/serializers/, src/types/src/serializers/hash.rs, nmt.rs)

    How bytes, hashes, namespaces, durations and optional values are written into and read from JSON
    (or any other format of serde).  A serde value is a tree [Json]; the text of JSON is serde's.
    The encodings hex and base64 are of other crates: class [TextEncodings] with laws
    [TextEncodingsSpec].  Strings are bytes in UTF-8, whose validity is checked as the standard library does. *)

From Stdlib Require Import String.
From S2P Require Import StateTypes Prelude Nmt Merkle Dah.

Inductive Json :=
| JNull
| JBool (b : bool)
| JNumber (n : Z)
| JString (s : bytes)
| JArray (l : list Json)
| JObject (l : list (bytes * Json)).

(** ** UTF-8 *)

Definition in_range (lo hi b : Z) : bool := (lo <=? b) && (b <=? hi).
Definition continuation (b : Z) : bool := in_range 0x80 0xBF b.
(** [std::str::from_utf8]: sequences of one to four bytes, without overlong forms and surrogates. *)
Fixpoint valid_utf8 (s : bytes) : bool :=
  match s with
  | [] => true
  | b0 :: s0 =>
      if b0 <? 0x80 then valid_utf8 s0 else
      match s0 with
      | [] => false
      | b1 :: s1 =>
          if in_range 0xC2 0xDF b0 then continuation b1 && valid_utf8 s1 else
          match s1 with
          | [] => false
          | b2 :: s2 =>
              if ((b0 =? 0xE0) && in_range 0xA0 0xBF b1) || ((in_range 0xE1 0xEC b0 || in_range 0xEE 0xEF b0) && continuation b1)
                 || ((b0 =? 0xED) && in_range 0x80 0x9F b1)
              then continuation b2 && valid_utf8 s2 else
              match s2 with
              | [] => false
              | b3 :: s3 =>
                  (((b0 =? 0xF0) && in_range 0x90 0xBF b1) || (in_range 0xF1 0xF3 b0 && continuation b1)
                   || ((b0 =? 0xF4) && in_range 0x80 0x8F b1))
                  && continuation b2 && continuation b3 && valid_utf8 s3
              end
          end
      end
  end.
Definition from_utf8 (s : bytes) : option bytes := if valid_utf8 s then Some s else None.

Class TextEncodings := {
  hex_encode_upper : bytes → bytes;
  hex_decode_upper : bytes → option bytes;
  hex_decode : bytes → option bytes;
  base64_encode : bytes → bytes;
  base64_decode : bytes → option bytes;
  (** [Engine::decode_slice] into a buffer of a size *)
  base64_decode_slice : nat → bytes → option bytes
}.

(** ** Values *)

(** [CowStr::deserialize], and [Option::<CowStr>::deserialize(..)?.unwrap_or_default()]. *)
Definition cow_str_deserialize (j : Json) : option bytes := match j with JString s => Some s | _ => None end.
Definition optional_str (j : Json) : option bytes := match j with JNull => Some [] | _ => cow_str_deserialize j end.
(** [Option::<Vec<CowStr>>::deserialize(..)?.unwrap_or_default()]. *)
Definition optional_strs (j : Json) : option (list bytes) :=
  match j with JNull => Some [] | JArray l => mapM cow_str_deserialize l | _ => None end.

Section Serializers.
Context `{TextEncodings}.

(** bytes.rs. *)
Definition hexstring_deserialize (j : Json) : option bytes :=
  string ← optional_str j;
  match hex_decode_upper string with Some b => Some b | None => hex_decode string end.
Definition hexstring_serialize (value : bytes) : option Json := s ← from_utf8 (hex_encode_upper value); Some (JString s).
Definition vec_hexstring_deserialize (j : Json) : option (list bytes) := l ← optional_strs j; mapM hex_decode_upper l.
Definition vec_hexstring_serialize (value : list bytes) : option Json :=
  l ← mapM (λ v, from_utf8 (hex_encode_upper v)) value; Some (JArray (JString <$> l)).
Definition base64string_deserialize (j : Json) : option bytes := s ← optional_str j; base64_decode s.
Definition base64string_deserialize_to_string (j : Json) : option bytes := s ← optional_str j; b ← base64_decode s; from_utf8 b.
Definition base64string_serialize (value : bytes) : option Json := s ← from_utf8 (base64_encode value); Some (JString s).
Definition vec_base64string_deserialize (j : Json) : option (list bytes) := l ← optional_strs j; mapM base64_decode l.
Definition vec_base64string_serialize (value : list bytes) : option Json :=
  l ← mapM (λ v, from_utf8 (base64_encode v)) value; Some (JArray (JString <$> l)).
Definition option_base64string_deserialize (j : Json) : option bytes := s ← optional_str j; base64_decode s.
Definition option_base64string_serialize (value : bytes) : option Json := s ← from_utf8 (base64_encode value); Some (JString s).

(** from_str.rs, for a type with [FromStr] and [Display]. *)
Definition from_str_deserialize {T} (parse : bytes → option T) (j : Json) : option T := s ← cow_str_deserialize j; parse s.
Definition from_str_serialize {T} (to_string : T → bytes) (value : T) : option Json := Some (JString (to_string value)).

(** null_default.rs, for a type with its own serializer. *)
Definition null_default_deserialize {T} (default_value : T) (deserialize : Json → option T) (j : Json) : option T :=
  match j with JNull => Some default_value | _ => deserialize j end.
Definition null_default_serialize {T} (serialize : T → option Json) (value : T) : option Json := serialize value.

(** option_protobuf_duration.rs: the derived code of [Def] reads an object in which each of the two
    fields is there once (others are ignored), or an array of the two, with numbers that fit into [i64]
    and [i32]. *)
Record ProtoDuration := { pd_seconds : Z; pd_nanos : Z }.
Definition number_in (lo hi : Z) (j : Json) : option Z :=
  match j with JNumber n => if in_range lo hi n then Some n else None | _ => None end.
Definition field (name : bytes) (l : list (bytes * Json)) : option Json :=
  match filter (λ p : bytes * Json, p.1 = name) l with [(_, j)] => Some j | _ => None end.
Definition duration_def (seconds nanos : Json) : option (option ProtoDuration) :=
  seconds ← number_in (- 2 ^ 63) (2 ^ 63 - 1) seconds;
  nanos ← number_in (- 2 ^ 31) (2 ^ 31 - 1) nanos;
  Some (Some {| pd_seconds := seconds; pd_nanos := nanos |}).
Definition duration_deserialize (j : Json) : option (option ProtoDuration) :=
  match j with
  | JNull => Some None
  | JObject l => seconds ← field (str "seconds") l; nanos ← field (str "nanos") l; duration_def seconds nanos
  | JArray [seconds; nanos] => duration_def seconds nanos
  | _ => None
  end.
Definition duration_serialize (value : option ProtoDuration) : option Json :=
  match value with
  | Some d => Some (JObject [(str "seconds", JNumber (pd_seconds d)); (str "nanos", JNumber (pd_nanos d))])
  | None => Some JNull
  end.

(** option_timestamp.rs, over the serializer of timestamps of tendermint. *)
Definition option_timestamp_deserialize {T} (timestamp_deserialize : Json → option T) (j : Json) : option (option T) :=
  match j with JNull => Some None | _ => t ← timestamp_deserialize j; Some (Some t) end.
Definition option_timestamp_serialize {T} (timestamp_serialize : T → option Json) (value : option T) : option Json :=
  match value with Some t => timestamp_serialize t | None => Some JNull end.

(** serializers/hash.rs, over the parser and printer of tendermint's hash. *)
Definition hash_deserialize (hash_from_str : bytes → option Hash) (j : Json) : option Hash :=
  hex ← optional_str j; hash_from_str hex.
Definition hash_serialize (hash_to_string : Hash → bytes) (value : Hash) : option Json := Some (JString (hash_to_string value)).

(** [Namespace] (nmt.rs). *)
Definition Namespace_serialize (ns : Namespace) : option Json := Some (JString (base64_encode ns)).
Definition Namespace_deserialize (j : Json) : option (res NsError Namespace) :=
  s ← cow_str_deserialize j;
  buf ← base64_decode_slice (NS_SIZE * 2) s;
  Some (Namespace_from_raw buf).

(** ** Laws *)

Class TextEncodingsSpec : Prop := {
  hex_roundtrip b : are_bytes b → hex_decode_upper (hex_encode_upper b) = Some b;
  base64_roundtrip b : are_bytes b → base64_decode (base64_encode b) = Some b;
  (** the encoded text is ASCII *)
  hex_ascii b : Forall (λ c, 0 ≤ c < 0x80) (hex_encode_upper b);
  base64_ascii b : Forall (λ c, 0 ≤ c < 0x80) (base64_encode b);
  hex_empty : hex_decode_upper [] = Some [];
  base64_empty : base64_decode [] = Some [];
  (** a decoder into a buffer needs room for the length it estimates: whole groups of three bytes *)
  base64_slice_roundtrip size b : are_bytes b → (length b + 2 ≤ size)%nat →
    base64_decode_slice size (base64_encode b) = Some b
}.
Context `{!TextEncodingsSpec}.

(** ** Lemmas *)

Lemma ascii_utf8 s : Forall (λ c, 0 ≤ c < 0x80) s → from_utf8 s = Some s.
Proof.
  intros Hs. unfold from_utf8. assert (valid_utf8 s = true) as ->; [|done].
  induction Hs as [|c s Hc _ IH]; [done|]. cbn [valid_utf8]. by rewrite (proj2 (Z.ltb_lt c 0x80)) by lia.
Qed.
Lemma mapM_Some {A B} (f : A → option B) (g : B → A) l : (∀ b, b ∈ l → f (g b) = Some b) → mapM f (g <$> l) = Some l.
Proof.
  intros Hf. apply mapM_Some_2. apply Forall2_fmap_l. apply Forall_Forall2_diag. apply Forall_forall. exact Hf.
Qed.
Lemma mapM_utf8 (encode : bytes → bytes) l : (∀ b, Forall (λ c, 0 ≤ c < 0x80) (encode b)) →
  mapM (λ v, from_utf8 (encode v)) l = Some (encode <$> l).
Proof.
  intros He. apply mapM_Some_2. apply Forall2_fmap_r. apply Forall_Forall2_diag. apply Forall_forall.
  intros b _. apply ascii_utf8, He.
Qed.
Lemma vec_roundtrip (encode : bytes → bytes) (decode : bytes → option bytes) l :
  (∀ b, Forall (λ c, 0 ≤ c < 0x80) (encode b)) → (∀ b, are_bytes b → decode (encode b) = Some b) → Forall are_bytes l →
  ∃ j, (s ← mapM (λ v, from_utf8 (encode v)) l; Some (JArray (JString <$> s))) = Some j ∧
       (s ← optional_strs j; mapM decode s) = Some l.
Proof.
  intros Ha Hd Hl. rewrite mapM_utf8 by done. eexists. split; [done|]. cbn [optional_strs].
  rewrite (mapM_Some cow_str_deserialize JString) by done. cbn [mbind option_bind]. apply mapM_Some.
  intros b Hb. rewrite Forall_forall in Hl. by apply Hd, Hl.
Qed.
Lemma str_roundtrip (encode : bytes → bytes) (decode : bytes → option bytes) b :
  Forall (λ c, 0 ≤ c < 0x80) (encode b) → decode (encode b) = Some b →
  ∃ j, (s ← from_utf8 (encode b); Some (JString s)) = Some j ∧ (s ← optional_str j; decode s) = Some b.
Proof. intros Ha Hd. rewrite ascii_utf8 by done. eexists. by split. Qed.

(** Every serializer of bytes is read back by its deserializer, and a missing value ([null]) is read
    as no bytes: the deserializers never fail on what the serializers write, and the serializers never
    fail, as encoded bytes are ASCII. *)
Theorem byte_serializers_roundtrip b l : are_bytes b → Forall are_bytes l →
  (∃ j, hexstring_serialize b = Some j ∧ hexstring_deserialize j = Some b) ∧
  (∃ j, base64string_serialize b = Some j ∧ base64string_deserialize j = Some b) ∧
  (∃ j, option_base64string_serialize b = Some j ∧ option_base64string_deserialize j = Some b) ∧
  (∃ j, vec_hexstring_serialize l = Some j ∧ vec_hexstring_deserialize j = Some l) ∧
  (∃ j, vec_base64string_serialize l = Some j ∧ vec_base64string_deserialize j = Some l) ∧
  hexstring_deserialize JNull = Some [] ∧ base64string_deserialize JNull = Some [] ∧
  vec_hexstring_deserialize JNull = Some [] ∧ vec_base64string_deserialize JNull = Some [].
Proof.
  intros Hb Hl. split_and!; try done.
  - unfold hexstring_serialize, hexstring_deserialize. rewrite ascii_utf8 by apply hex_ascii. eexists. split; [done|].
    cbn. by rewrite hex_roundtrip.
  - apply str_roundtrip; [apply base64_ascii|by apply base64_roundtrip].
  - apply str_roundtrip; [apply base64_ascii|by apply base64_roundtrip].
  - apply vec_roundtrip; [apply hex_ascii|apply hex_roundtrip|done].
  - apply vec_roundtrip; [apply base64_ascii|apply base64_roundtrip|done].
  - cbn. by rewrite hex_empty.
  - apply base64_empty.
Qed.

(** Lists of hex strings are read more strictly than single ones: a text that is hex only in lower
    case is read alone, but not in a list. *)
Theorem vec_hexstring_upper_only s b : hex_decode_upper s = None → hex_decode s = Some b →
  hexstring_deserialize (JString s) = Some b ∧ vec_hexstring_deserialize (JArray [JString s]) = None.
Proof. intros Hu Hl. split; cbn; by rewrite Hu. Qed.

(** A namespace survives its JSON form, and whatever is read is a namespace. *)
Theorem namespace_json_roundtrip ns :
  (valid_namespace ns → are_bytes ns →
     ∃ j, Namespace_serialize ns = Some j ∧ Namespace_deserialize j = Some (Ok ns)) ∧
  (∀ j, Namespace_deserialize j = Some (Ok ns) → valid_namespace ns).
Proof.
  split.
  - intros Hv Hb. eexists. split; [done|]. cbn. assert (length ns = NS_SIZE) as Hlen
      by (destruct Hv as [(suffix&Hs&->)|[c ->]]; rewrite length_app, repeat_length; [rewrite Hs|]; done).
    rewrite base64_slice_roundtrip; [|done|rewrite Hlen; cbn; lia]. cbn. f_equal. by apply (proj1 (namespace_from_raw_exact _ _)).
  - intros j Hj. unfold Namespace_deserialize in Hj. destruct (cow_str_deserialize j) as [s|]; [|done]. cbn [mbind option_bind] in Hj.
    destruct (base64_decode_slice _ s) as [buf|]; [|done]. apply (inj Some) in Hj. by apply (proj1 (namespace_from_raw_exact _ _)) in Hj as [? ?].
Qed.

(** Optional durations and timestamps survive: durations whose numbers fit, and timestamps as long as
    their own form is read back and is not [null]. *)
Theorem optional_values_roundtrip {T} (ts_ser : T → option Json) (ts_de : Json → option T) d t j :
  - 2 ^ 63 ≤ pd_seconds d < 2 ^ 63 → - 2 ^ 31 ≤ pd_nanos d < 2 ^ 31 →
  ts_ser t = Some j → ts_de j = Some t → j ≠ JNull →
  (duration_serialize (Some d) ≫= duration_deserialize) = Some (Some d) ∧
  (duration_serialize None ≫= duration_deserialize) = Some None ∧
  (option_timestamp_serialize ts_ser (Some t) ≫= option_timestamp_deserialize ts_de) = Some (Some t) ∧
  (option_timestamp_serialize ts_ser None ≫= option_timestamp_deserialize ts_de) = Some None.
Proof.
  intros Hs Hn Hser Hde Hj. split_and!; [|done| |done].
  - destruct d as [s n]. cbn [pd_seconds pd_nanos] in *. cbn [duration_serialize mbind option_bind duration_deserialize].
    assert (∀ x y : Json, field (str "seconds") [(str "seconds", x); (str "nanos", y)] = Some x) as -> by done.
    assert (∀ x y : Json, field (str "nanos") [(str "seconds", x); (str "nanos", y)] = Some y) as -> by done.
    cbn [mbind option_bind]. unfold duration_def, number_in, in_range.
    cbn [pd_seconds pd_nanos].     rewrite (proj2 (Z.leb_le (- 2 ^ 63) s)), (proj2 (Z.leb_le s (2 ^ 63 - 1))), (proj2 (Z.leb_le (- 2 ^ 31) n)),
      (proj2 (Z.leb_le n (2 ^ 31 - 1))) by lia. done.
  - cbn [option_timestamp_serialize]. rewrite Hser. cbn [mbind option_bind]. unfold option_timestamp_deserialize.
    destruct j; try done; by rewrite Hde.
Qed.
End Serializers.

(** ** A concrete encoding *)

(** Hexadecimal digits, also in the place of base64 here. *)
Definition toy_digit (upper : bool) (n : Z) : Z := if n <? 10 then 48 + n else (if upper then 55 else 87) + n.
Definition toy_value (upper : bool) (c : Z) : option Z :=
  if in_range 48 57 c then Some (c - 48)
  else if upper then (if in_range 65 70 c then Some (c - 55) else None)
  else if in_range 97 102 c then Some (c - 87) else None.
Fixpoint toy_hex (s : bytes) : bytes :=
  match s with [] => [] | b :: s => toy_digit true ((b / 16) mod 16) :: toy_digit true (b mod 16) :: toy_hex s end.
Fixpoint toy_unhex (upper : bool) (s : bytes) : option bytes :=
  match s with
  | [] => Some []
  | c :: c' :: s => x ← toy_value upper c; y ← toy_value upper c'; l ← toy_unhex upper s; Some (x * 16 + y :: l)
  | [_] => None
  end.
#[local] Instance toy_encodings : TextEncodings := {|
  hex_encode_upper := toy_hex; hex_decode_upper := toy_unhex true; hex_decode := toy_unhex false;
  base64_encode := toy_hex; base64_decode := toy_unhex true;
  base64_decode_slice size s := if (length s <=? 2 * size)%nat then toy_unhex true s else None
|}.
Lemma toy_digit_value n : 0 ≤ n < 16 → toy_value true (toy_digit true n) = Some n.
Proof.
  intros Hn. assert (n ∈ seqZ 0 16) as Hin by (apply elem_of_seqZ; lia). revert n Hin Hn. enough (Forall (λ n, toy_value true (toy_digit true n) = Some n) (seqZ 0 16)) as Hall by (intros n Hin _; by apply (proj1 (Forall_forall _ _) Hall)).
  repeat (apply Forall_cons; split; [vm_compute; reflexivity|]). apply Forall_nil_2.
Qed.
Lemma toy_hex_roundtrip b : are_bytes b → toy_unhex true (toy_hex b) = Some b.
Proof.
  induction 1 as [|x b Hx _ IH]; [done|]. cbn [toy_hex toy_unhex]. unfold is_byte in Hx.
  rewrite !toy_digit_value by (apply Z.mod_pos_bound; lia). cbn [mbind option_bind]. rewrite IH. cbn [mbind option_bind].
  rewrite (Z.mod_small (x / 16)) by (split; [apply Z.div_pos; lia|apply Z.div_lt_upper_bound; lia]).
  do 2 f_equal. rewrite Z.mul_comm. symmetry. by apply Z.div_mod.
Qed.
Lemma toy_hex_ascii b : Forall (λ c, 0 ≤ c < 0x80) (toy_hex b).
Proof.
  assert (∀ n, 0 ≤ n < 16 → 0 ≤ toy_digit true n < 0x80) as Hd by (intros n Hn; unfold toy_digit; case_match; lia).
  induction b as [|x b IH]; [constructor|]. cbn [toy_hex].
  repeat (apply Forall_cons; split; [apply Hd, Z.mod_pos_bound; lia|]). exact IH.
Qed.
Lemma toy_hex_length b : length (toy_hex b) = (2 * length b)%nat.
Proof. induction b as [|x b IH]; [done|]. cbn [toy_hex length]. lia. Qed.
#[local] Instance toy_encodings_spec : TextEncodingsSpec.
Proof.
  split; try done.
  - exact toy_hex_roundtrip.
  - exact toy_hex_roundtrip.
  - exact toy_hex_ascii.
  - exact toy_hex_ascii.
  - intros size b Hb Hs. cbn. rewrite toy_hex_length, (proj2 (Nat.leb_le _ _)) by lia. by apply toy_hex_roundtrip.
Qed.

Lemma byte_serializers_roundtrip_witness :
  ∃ j, hexstring_serialize [0; 171; 255] = Some j ∧ hexstring_deserialize j = Some [0; 171; 255].
Proof.
  apply (byte_serializers_roundtrip [0; 171; 255] []); [|constructor]. unfold are_bytes, is_byte. repeat constructor; lia.
Defined.
Lemma vec_hexstring_upper_only_witness :
  hexstring_deserialize (JString [97; 98]) = Some [171] ∧ vec_hexstring_deserialize (JArray [JString [97; 98]]) = None.
Proof. apply (vec_hexstring_upper_only [97; 98] [171]); reflexivity. Defined.
Lemma namespace_json_roundtrip_witness :
  ∃ j, Namespace_serialize (repeat 255 29) = Some j ∧ Namespace_deserialize j = Some (Ok (repeat 255 29)).
Proof.
  apply (proj1 (namespace_json_roundtrip (repeat 255 29))); [right; by exists 255|].
  apply Forall_forall. intros x Hx. apply list_elem_of_In, repeat_spec in Hx as ->. unfold is_byte. lia.
Defined.
Lemma optional_values_roundtrip_witness :
  (duration_serialize (Some {| pd_seconds := -3; pd_nanos := 5 |}) ≫= duration_deserialize) = Some (Some {| pd_seconds := -3; pd_nanos := 5 |}).
Proof.
  apply (optional_values_roundtrip (λ n, Some (JNumber n)) (number_in 0 9) {| pd_seconds := -3; pd_nanos := 5 |} 7 (JNumber 7));
    [cbn; lia|cbn; lia|reflexivity|reflexivity|discriminate].
Defined.
