(* ===== verification/BlockRangesIter.v ===== *)
(** * Block ranges as iterators, texts and values (src/node/src/block_ranges.rs)

    [BlockRanges] is a double-ended iterator over its heights, has a text and a serde form.  The
    serde form of a single range is of serde and is a parameter. *)

From Stdlib Require Import String.
From S2P Require Import StateTypes Prelude Nmt Serializers BlockRanges.

(** ** The code *)

Definition ranges_new : BlockRanges := [].
(** [Iterator::next] and [DoubleEndedIterator::next_back]. *)
Definition ranges_next (rs : BlockRanges) : res Empty_set (option Z * BlockRanges) := pop_tail rs.
Definition ranges_next_back (rs : BlockRanges) : res Empty_set (option Z * BlockRanges) := pop_head rs.

(** [Display for BlockRangeDisplay] and [Display for BlockRanges]: the first range is written
    without, the others with a separator before it. *)
Definition range_to_string (r : BlockRange) : bytes := u64_to_string (br_start r) ++ str "-" ++ u64_to_string (br_end r).
Definition ranges_to_string (rs : BlockRanges) : bytes :=
  str "[" ++
  concat (imap (λ idx range, if (idx =? 0)%nat then range_to_string range else str ", " ++ range_to_string range) rs) ++
  str "]".

Section Serde.
Context (range_serialize : BlockRange → Json) (range_deserialize : Json → option BlockRange).
Definition ranges_serialize (rs : BlockRanges) : Json := JArray (map range_serialize rs).
Definition ranges_deserialize (j : Json) : option BlockRanges :=
  match j with
  | JArray l =>
      raw_ranges ← mapM range_deserialize l;
      match from_vec raw_ranges with Ok ranges => Some ranges | _ => None end
  | _ => None
  end.
End Serde.

(** ** Iterating from both ends *)

(** Calls of [next] ([true]) and [next_back] ([false]): what each end gave, and the rest. *)
Fixpoint iterate (calls : list bool) (rs : BlockRanges) : res Empty_set (list Z * list Z * BlockRanges) :=
  match calls with
  | [] => Ok ([], [], rs)
  | call :: calls =>
      '(h, rs) ← (if call then ranges_next rs else ranges_next_back rs);
      '(front, back, rs) ← iterate calls rs;
      let got := from_option (λ h, [h]) [] h in
      Ok (if call then (got ++ front, back, rs) else (front, got ++ back, rs))
  end.

(** The heights of ranges, in order. *)
Definition range_heights (r : BlockRange) : list Z := seqZ (br_start r) (br_end r - br_start r + 1).
Definition heights (rs : BlockRanges) : list Z := rs ≫= range_heights.

(** ** Lemmas *)

Lemma heights_app l k : heights (l ++ k) = heights l ++ heights k.
Proof. apply bind_app. Qed.
Lemma heights_singleton r : heights [r] = range_heights r.
Proof. unfold heights. cbn. apply app_nil_r. Qed.

Lemma range_heights_first r : br_start r ≤ br_end r →
  range_heights r = br_start r :: range_heights (br_start r + 1 ..= br_end r).
Proof.
  intros Hr. unfold range_heights. cbn [br_start br_end]. rewrite seqZ_cons by lia. f_equal. apply (f_equal2 seqZ); lia.
Qed.
Lemma range_heights_last r : br_start r ≤ br_end r →
  range_heights r = range_heights (br_start r ..= br_end r - 1) ++ [br_end r].
Proof.
  intros Hr. unfold range_heights. cbn [br_start br_end].
  replace (br_end r - br_start r + 1) with ((br_end r - 1 - br_start r + 1) + 1) by lia.
  rewrite seqZ_app by lia. f_equal. change (seqZ ?a 1) with [Z.of_nat 0 + a]. f_equal. lia.
Qed.
Lemma range_heights_empty s e : e < s → range_heights (s ..= e) = [].
Proof. intros Hr. unfold range_heights. cbn [br_start br_end]. apply seqZ_nil. lia. Qed.

Lemma heights_nil rs : sorted_ranges rs → heights rs = [] → rs = [].
Proof.
  destruct rs as [|r rs]; [done|]. intros (_&Hle&_) Hh. change (range_heights r ++ heights rs = []) in Hh.
  by rewrite range_heights_first in Hh by done.
Qed.

(** One end takes the first height, the other the last. *)
Lemma ranges_next_spec rs : sorted_ranges rs → ∃ h rs', ranges_next rs = Ok (h, rs') ∧ sorted_ranges rs' ∧
  heights rs = from_option (λ h, [h]) [] h ++ heights rs' ∧ (h = None → rs = []).
Proof.
  intros Hc. destruct rs as [|f rest]; [by exists None, []|]. destruct Hc as (Hs&Hle&Hmax&Hc).
  unfold ranges_next, pop_tail. rewrite range_len_Ok by lia. cbn [mbind res_bind]. unfold range_size. rewrite (Z.max_r 0) by lia.
  destruct (Z.eqb_spec (br_end f - br_start f + 1) 1) as [Hone|Hmore].
  - exists (Some (br_start f)), rest. split_and!; [done| |change (heights (f :: rest)) with (range_heights f ++ heights rest)|done].
    + eapply chain_gap; [..|exact Hc]; lia.
    + rewrite range_heights_first, range_heights_empty by lia. done.
  - rewrite u64_add_Ok by lia. exists (Some (br_start f)), ((br_start f + 1 ..= br_end f) :: rest).
    split_and!; [done| |change (heights (f :: rest)) with (range_heights f ++ heights rest)|done].
    + cbn. split_and!; [lia..|done].
    + by rewrite range_heights_first by lia.
Qed.
Lemma ranges_next_back_spec rs : sorted_ranges rs → ∃ h rs', ranges_next_back rs = Ok (h, rs') ∧ sorted_ranges rs' ∧
  heights rs = heights rs' ++ from_option (λ h, [h]) [] h ∧ (h = None → rs = []).
Proof.
  intros Hc. destruct rs as [|l rest _] using rev_ind; [by exists None, []|].
  pose proof (proj1 (chain_app 0 0 rest [l]) Hc) as [Hrest (Hs&Hle&Hmax&_)].
  assert (0 ≤ last_end 0 rest) as Hpos.
  { apply (chain_ub 0 0 rest); [lia|done]. }
  unfold ranges_next_back, pop_head. rewrite last_snoc, range_len_Ok by lia. cbn [mbind res_bind].
  unfold range_size. rewrite (Z.max_r 0), length_app, Nat.add_sub by lia.
  rewrite heights_app, heights_singleton.
  destruct (Z.eqb_spec (br_end l - br_start l + 1) 1) as [Hone|Hmore].
  - exists (Some (br_end l)), rest. rewrite take_app_length. split_and!; [done|done| |by destruct rest].
    rewrite range_heights_last, range_heights_empty by lia. done.
  - rewrite u64_sub_Ok by lia. exists (Some (br_end l)), (rest ++ [br_start l ..= br_end l - 1]).
    cbn [mbind res_bind]. rewrite insert_app_r_alt, Nat.sub_diag by lia. split_and!; [done| | |by destruct rest].
    + apply chain_app. split; [done|]. cbn. split_and!; [lia..|done].
    + rewrite heights_app, heights_singleton. cbn [from_option]. rewrite <-app_assoc. f_equal. by apply range_heights_last.
Qed.

(** Taking heights from both ends in any order never panics, gives the heights of the ranges from
    below and from above without a gap, and ends when and only when all of them were taken. *)
Theorem iteration_exact calls rs : sorted_ranges rs → ∃ front back rs',
  iterate calls rs = Ok (front, back, rs') ∧ sorted_ranges rs' ∧
  heights rs = front ++ heights rs' ++ reverse back ∧
  (length front + length back = length calls ∨ rs' = [])%nat.
Proof.
  revert rs; induction calls as [|call calls IH]; intros rs Hs.
  - exists [], [], rs. rewrite app_nil_r. split_and!; try done. by left.
  - cbn [iterate]. destruct call.
    + destruct (ranges_next_spec rs Hs) as (h&rs1&->&Hs1&Hh&Hend). cbn [mbind res_bind].
      destruct (IH rs1 Hs1) as (front&back&rs2&Hit&Hs2&Hh2&Hl). rewrite Hit. cbn [mbind res_bind].
      eexists _, back, rs2. split_and!; [done|done| |].
      * by rewrite Hh, Hh2, <-!app_assoc.
      * destruct Hl as [Hl| ->]; [|by right]. destruct h as [h|]; [left; cbn; lia|right].
        rewrite (Hend eq_refl), Hh2 in Hh. apply heights_nil; [done|]. by destruct front, (heights rs2).
    + destruct (ranges_next_back_spec rs Hs) as (h&rs1&->&Hs1&Hh&Hend). cbn [mbind res_bind].
      destruct (IH rs1 Hs1) as (front&back&rs2&Hit&Hs2&Hh2&Hl). rewrite Hit. cbn [mbind res_bind].
      eexists front, _, rs2. split_and!; [done|done| |].
      * rewrite Hh, Hh2, reverse_app, <-!app_assoc. by destruct h.
      * destruct Hl as [Hl| ->]; [|by right]. destruct h as [h|]; [left; cbn; lia|right].
        rewrite (Hend eq_refl), Hh2, app_nil_r in Hh. apply heights_nil; [done|]. by destruct front, (heights rs2).
Qed.

(** ** Texts *)

(** A number is written with digits, so what follows it can be told apart. *)
Lemma digits_then (d1 d2 : bytes) c1 c2 r1 r2 :
  Forall (λ c, 48 ≤ c ≤ 57) d1 → Forall (λ c, 48 ≤ c ≤ 57) d2 → ¬ 48 ≤ c1 ≤ 57 → ¬ 48 ≤ c2 ≤ 57 →
  d1 ++ c1 :: r1 = d2 ++ c2 :: r2 → d1 = d2 ∧ c1 :: r1 = c2 :: r2.
Proof.
  intros H1. revert d2. induction H1 as [|x d1 Hx H1 IH]; intros d2 H2 Hc1 Hc2 Heq.
  - destruct H2 as [|y d2 Hy]; [done|]. cbn in Heq. by injection Heq as -> _.
  - destruct H2 as [|y d2 Hy H2]; cbn in Heq; [by injection Heq as -> _|]. injection Heq as -> Heq.
    destruct (IH d2 H2 Hc1 Hc2 Heq) as [-> ?]. done.
Qed.
Lemma u64_digits n : is_u64 n → Forall (λ c, 48 ≤ c ≤ 57) (u64_to_string n).
Proof. intros Hn. unfold is_u64 in Hn. apply (dec_digits_spec 20 n); [lia|unfold u64_max in *; lia|lia]. Qed.
Lemma u64_to_string_inj n m : is_u64 n → is_u64 m → u64_to_string n = u64_to_string m → n = m.
Proof.
  intros Hn Hm Heq. apply u64_string_roundtrip in Hn. apply u64_string_roundtrip in Hm. congruence.
Qed.
Lemma u64_to_string_then n m c1 c2 r1 r2 : is_u64 n → is_u64 m → ¬ 48 ≤ c1 ≤ 57 → ¬ 48 ≤ c2 ≤ 57 →
  u64_to_string n ++ c1 :: r1 = u64_to_string m ++ c2 :: r2 → n = m ∧ c1 = c2 ∧ r1 = r2.
Proof.
  intros Hn Hm Hc1 Hc2 Heq. apply digits_then in Heq as [Hd [= -> ->]]; [|by apply u64_digits..|done|done].
  split; [by apply u64_to_string_inj|done].
Qed.

Definition rest_to_string (rs : BlockRanges) : bytes := rs ≫= λ range, str ", " ++ range_to_string range.
Lemma ranges_to_string_eq rs :
  ranges_to_string rs = str "[" ++ match rs with [] => str "]" | r :: rs => range_to_string r ++ rest_to_string rs ++ str "]" end.
Proof.
  unfold ranges_to_string. f_equal. destruct rs as [|r rs]; [done|]. rewrite imap_cons. cbn [concat Nat.eqb].
  rewrite <-app_assoc. do 2 f_equal. unfold rest_to_string.
  assert (∀ n, concat (imap ((λ idx range, if (idx =? 0)%nat then range_to_string range else str ", " ++ range_to_string range)
    ∘ S ∘ Nat.add n) rs) = rs ≫= λ range, str ", " ++ range_to_string range) as Hn.
  { induction rs as [|r' rs IH]; intros n; [done|]. rewrite imap_cons. cbn [concat mbind list_bind]. f_equal.
    rewrite <-(IH (S n)). apply (f_equal (@concat _)), imap_ext. done. }
  rewrite <-(Hn 0%nat). done.
Qed.
Definition range_u64 (r : BlockRange) : Prop := is_u64 (br_start r) ∧ is_u64 (br_end r).
Lemma range_text_then r q c1 c2 k1 k2 : range_u64 r → range_u64 q → ¬ 48 ≤ c1 ≤ 57 → ¬ 48 ≤ c2 ≤ 57 →
  range_to_string r ++ c1 :: k1 = range_to_string q ++ c2 :: k2 → r = q ∧ c1 = c2 ∧ k1 = k2.
Proof.
  intros [Hr1 Hr2] [Hq1 Hq2] Hc1 Hc2 Heq. unfold range_to_string in Heq. rewrite <-!app_assoc in Heq.
  change (str "-") with [45] in Heq. cbn [app] in Heq.
  apply u64_to_string_then in Heq as (Hs&_&Heq); [|done|done|lia|lia].
  apply u64_to_string_then in Heq as (He&->&->); [|done|done|done|done].
  destruct r, q. cbn in *. by subst.
Qed.
Lemma rest_text_first rs : ∃ c k, rest_to_string rs ++ str "]" = c :: k ∧ ¬ 48 ≤ c ≤ 57.
Proof.
  destruct rs as [|r l]; [exists 93, []; split; [done|lia]|]. exists 44, (32 :: range_to_string r ++ rest_to_string l ++ str "]").
  split; [|lia]. unfold rest_to_string. cbn [mbind list_bind]. by rewrite <-!app_assoc.
Qed.
Lemma rest_text_inj rs qs : Forall range_u64 rs → Forall range_u64 qs →
  rest_to_string rs ++ str "]" = rest_to_string qs ++ str "]" → rs = qs.
Proof.
  intros Hrs. revert qs. induction Hrs as [|r rs Hr Hrs IH]; intros qs Hqs Heq; destruct Hqs as [|q qs Hq Hqs]; [done|done|done|].
  change (rest_to_string (?x :: ?l)) with ((str ", " ++ range_to_string x) ++ rest_to_string l) in Heq.
  rewrite <-!app_assoc in Heq. apply (inj (str ", " ++.)) in Heq.
  destruct (rest_text_first rs) as (c1&k1&E1&N1), (rest_text_first qs) as (c2&k2&E2&N2). rewrite E1, E2 in Heq.
  apply range_text_then in Heq as (->&->&->); [|done..]. f_equal. apply IH; [done|]. by rewrite E1, E2.
Qed.

Lemma range_text_not_end r k : range_u64 r → str "]" ≠ range_to_string r ++ k.
Proof.
  intros [Hr _] Heq. unfold range_to_string in Heq. rewrite <-!app_assoc in Heq. change (str "-") with [45] in Heq. cbn [app] in Heq.
  apply (digits_then [] _ 93 45 []) in Heq as [_ [=]]; [constructor|by apply u64_digits|lia|lia].
Qed.

(** The text of ranges says which ranges they are. *)
Theorem ranges_to_string_injective rs qs : Forall range_u64 rs → Forall range_u64 qs →
  ranges_to_string rs = ranges_to_string qs → rs = qs.
Proof.
  intros Hrs Hqs Heq. rewrite !ranges_to_string_eq in Heq. apply (inj (str "[" ++.)) in Heq.
  destruct Hrs as [|r rs Hr Hrs], Hqs as [|q qs Hq Hqs].
  - done.
  - by apply range_text_not_end in Heq.
  - symmetry in Heq. by apply range_text_not_end in Heq.
  - destruct (rest_text_first rs) as (c1&k1&E1&N1), (rest_text_first qs) as (c2&k2&E2&N2). rewrite E1, E2 in Heq.
    apply range_text_then in Heq as (->&->&->); [|done..]. f_equal. apply rest_text_inj; [done..|]. by rewrite E1, E2.
Qed.
Lemma ranges_to_string_injective_witness :
  ranges_to_string [1 ..= 5; 7 ..= 10] = str "[1-5, 7-10]" ∧ [1 ..= 5; 7 ..= 10] = [1 ..= 5; 7 ..= 10].
Proof.
  split; [vm_compute; reflexivity|]. apply ranges_to_string_injective; [..|reflexivity];
    repeat constructor; vm_compute; discriminate.
Defined.

Lemma sorted_u64 rs r : sorted_ranges rs → r ∈ rs → range_u64 r.
Proof.
  intros Hs Hr. apply (chain_valid 0) in Hs; [|lia]. rewrite Forall_forall in Hs. destruct (Hs r Hr) as (?&?&?).
  split; split; lia.
Qed.

(** What is read from JSON are always sorted ranges, and sorted ranges are read back. *)
Theorem ranges_serde_roundtrip ser de rs : (∀ r, range_u64 r → de (ser r) = Some r) → (∀ j r, de j = Some r → range_u64 r) →
  (sorted_ranges rs → ranges_deserialize de (ranges_serialize ser rs) = Some rs) ∧
  (∀ j, ranges_deserialize de j = Some rs → sorted_ranges rs).
Proof.
  intros Hrt Hu. split.
  - intros Hs. unfold ranges_deserialize, ranges_serialize. change (map ser rs) with (ser <$> rs).
    rewrite (mapM_Some de ser) by (intros r Hr; apply Hrt; by apply (sorted_u64 rs)). cbn [mbind option_bind]. by rewrite from_vec_sorted.
  - intros j Hj. destruct j as [| | | |l|]; try done. cbn [ranges_deserialize] in Hj.
    destruct (mapM de l) as [raw|] eqn:Hl; [|done]. cbn [mbind option_bind] in Hj.
    destruct (from_vec raw) as [ranges| |] eqn:Hf; [|done|done]. injection Hj as ->.
    unfold from_vec in Hf. destruct (from_vec_loop None raw) as [[]| |] eqn:Hloop; [|done|done]. injection Hf as ->.
    apply from_vec_loop_spec in Hloop as [Hloop _]; [done|]. apply mapM_Some_1 in Hl.
    apply Forall_forall. intros r Hr. apply list_elem_of_lookup in Hr as [i Hi].
    destruct (Forall2_lookup_r _ _ _ _ _ Hl Hi) as (x&_&Hx). destruct (Hu _ _ Hx) as [_ [_ He]]; cbn in He. lia.
Qed.

(** ** Examples *)

Definition toy_range_json (r : BlockRange) : Json := JArray [JNumber (br_start r); JNumber (br_end r)].
Definition toy_range_unjson (j : Json) : option BlockRange :=
  match j with
  | JArray [JNumber s; JNumber e] => if decide (is_u64 s ∧ is_u64 e) then Some (s ..= e) else None
  | _ => None
  end.
Lemma iteration_exact_witness : ∃ front back rs',
  iterate [true; false; true; true] [1 ..= 2; 5 ..= 6] = Ok (front, back, rs') ∧
  heights [1 ..= 2; 5 ..= 6] = front ++ heights rs' ++ reverse back.
Proof.
  destruct (iteration_exact [true; false; true; true] [1 ..= 2; 5 ..= 6]) as (front&back&rs'&Hi&_&Hh&_).
  - repeat split; vm_compute; (reflexivity || discriminate).
  - exists front, back, rs'. split; [exact Hi|exact Hh].
Defined.
Lemma toy_range_roundtrip r : range_u64 r → toy_range_unjson (toy_range_json r) = Some r.
Proof. intros Hr. cbn. rewrite decide_True by exact Hr. by destruct r. Qed.
Lemma toy_range_bounds j r : toy_range_unjson j = Some r → range_u64 r.
Proof.
  destruct j as [| | | |[|[] [|[] [|]]]|]; try done. cbn. case_decide as Hd; [|done]. by intros [= <-].
Qed.
Lemma ranges_serde_roundtrip_witness :
  ranges_deserialize toy_range_unjson (ranges_serialize toy_range_json [1 ..= 2; 5 ..= 6]) = Some [1 ..= 2; 5 ..= 6].
Proof.
  apply (ranges_serde_roundtrip toy_range_json toy_range_unjson [1 ..= 2; 5 ..= 6] toy_range_roundtrip toy_range_bounds).
  repeat split; vm_compute; (reflexivity || discriminate).
Defined.
