(* ===== verification/RpcConfig.v ===== *)
(** * Options of transactions over JSON-RPC (src/rpc/src/tx_config.rs)

    The options with which a node is asked to submit a transaction, and their JSON form.  The forms of
    addresses and of floating point numbers are parameters. *)

From Stdlib Require Import String.
From S2P Require Import StateTypes Prelude Nmt Serializers.

Section RpcConfig.
Context {Addr Price : Type} (address_json : Addr → Json) (price_json : Price → Json).

Record RpcTxConfig := {
  signer_address : option Addr; key_name : option bytes; gas_price : option Price; gas : option Z; fee_granter_address : option Addr
}.
Definition config_default : RpcTxConfig :=
  {| signer_address := None; key_name := None; gas_price := None; gas := None; fee_granter_address := None |}.
Definition with_gas_price (c : RpcTxConfig) (x : Price) : RpcTxConfig :=
  {| signer_address := signer_address c; key_name := key_name c; gas_price := Some x; gas := gas c; fee_granter_address := fee_granter_address c |}.
Definition with_gas (c : RpcTxConfig) (x : Z) : RpcTxConfig :=
  {| signer_address := signer_address c; key_name := key_name c; gas_price := gas_price c; gas := Some x; fee_granter_address := fee_granter_address c |}.
Definition with_fee_granter_address (c : RpcTxConfig) (x : Addr) : RpcTxConfig :=
  {| signer_address := signer_address c; key_name := key_name c; gas_price := gas_price c; gas := gas c; fee_granter_address := Some x |}.
Definition with_signer_address (c : RpcTxConfig) (x : Addr) : RpcTxConfig :=
  {| signer_address := Some x; key_name := key_name c; gas_price := gas_price c; gas := gas c; fee_granter_address := fee_granter_address c |}.
Definition with_key_name (c : RpcTxConfig) (x : bytes) : RpcTxConfig :=
  {| signer_address := signer_address c; key_name := Some x; gas_price := gas_price c; gas := gas c; fee_granter_address := fee_granter_address c |}.

(** [if let Some(x) = &self.field { state.serialize_field(name, x)?; }]. *)
Definition optional_field {T} (o : option T) (fields : T → list (bytes * Json)) : list (bytes * Json) :=
  match o with Some x => fields x | None => [] end.
Definition config_fields (c : RpcTxConfig) : list (bytes * Json) :=
  optional_field (signer_address c) (λ a, [(str "signer_address", address_json a)]) ++
  optional_field (key_name c) (λ k, [(str "key_name", JString k)]) ++
  optional_field (gas_price c) (λ p, [(str "gas_price", price_json p); (str "is_gas_price_set", JBool true)]) ++
  optional_field (gas c) (λ g, [(str "gas", JNumber g)]) ++
  optional_field (fee_granter_address c) (λ a, [(str "fee_granter_address", address_json a)]).
Definition config_serialize (c : RpcTxConfig) : Json := JObject (config_fields c).

(** The node gets exactly the options that were set, each field once; the mark that a gas price is set is
    there exactly when one is. *)
Theorem config_fields_exact c :
  Serializers.field (str "signer_address") (config_fields c) = address_json <$> signer_address c ∧
  Serializers.field (str "key_name") (config_fields c) = JString <$> key_name c ∧
  Serializers.field (str "gas_price") (config_fields c) = price_json <$> gas_price c ∧
  Serializers.field (str "is_gas_price_set") (config_fields c) = (λ _, JBool true) <$> gas_price c ∧
  Serializers.field (str "gas") (config_fields c) = JNumber <$> gas c ∧
  Serializers.field (str "fee_granter_address") (config_fields c) = address_json <$> fee_granter_address c ∧
  NoDup (config_fields c).*1.
Proof.
  destruct c as [[sa|] [kn|] [gp|] [g|] [fg|]]; split_and!; try reflexivity;
    (apply (bool_decide_unpack _); vm_compute; exact I).
Qed.
End RpcConfig.
