(* ===== verification/Events.v ===== *)
(** * Events of the node (src/node/src/events.rs)

    The events with their texts, and the channel over which subscribers get them.  The channel is the
    [broadcast] channel of tokio: it keeps the last [EVENT_CHANNEL_CAPACITY] events; a receiver that is
    further behind is told so once ([Lagged]) and goes on with the oldest event that is kept. *)

From Stdlib Require Import String.
From S2P Require Import StateTypes Prelude Nmt.

Section Events.
(** Peers and their texts, and [{:?}] of a duration. *)
Context {Peer Duration : Type} (show_peer : Peer → bytes) (debug_duration : Duration → bytes).

Inductive NodeEvent :=
| ConnectingToBootnodes
| PeerConnected (id : Peer) (trusted : bool)
| PeerDisconnected (id : Peer) (trusted : bool)
| SamplingStarted (height square_width : Z) (shares : list (Z * Z))
| ShareSamplingResult (height square_width row column : Z) (accepted : bool)
| SamplingFinished (height : Z) (accepted : bool) (took : Duration)
| FatalDaserError (error : bytes)
| AddedHeaderFromHeaderSub (height : Z)
| FetchingHeadHeaderStarted
| FetchingHeadHeaderFinished (height : Z) (took : Duration)
| FetchingHeadersStarted (from_height to_height : Z)
| FetchingHeadersFinished (from_height to_height : Z) (took : Duration)
| FetchingHeadersFailed (from_height to_height : Z) (error : bytes) (took : Duration)
| FatalSyncerError (error : bytes)
| PrunedHeaders (to_height : Z)
| FatalPrunerError (error : bytes)
| NetworkCompromised
| NodeStopped.

Definition is_error (e : NodeEvent) : bool :=
  match e with
  | FatalDaserError _ | FatalSyncerError _ | FatalPrunerError _ | FetchingHeadersFailed _ _ _ _ | NetworkCompromised => true
  | ConnectingToBootnodes | PeerConnected _ _ | PeerDisconnected _ _ | SamplingStarted _ _ _ | ShareSamplingResult _ _ _ _ _
  | SamplingFinished _ _ _ | AddedHeaderFromHeaderSub _ | FetchingHeadHeaderStarted | FetchingHeadHeaderFinished _ _
  | FetchingHeadersStarted _ _ | FetchingHeadersFinished _ _ _ | PrunedHeaders _ | NodeStopped => false
  end.

(** [{:?}] of a vector of pairs. *)
Definition debug_pair (p : Z * Z) : bytes :=
  str "(" ++ u64_to_string p.1 ++ str ", " ++ u64_to_string p.2 ++ str ")".
Fixpoint comma_separated (l : list bytes) : bytes :=
  match l with [] => [] | [x] => x | x :: l => x ++ str ", " ++ comma_separated l end.
Definition debug_shares (l : list (Z * Z)) : bytes := str "[" ++ comma_separated (debug_pair <$> l) ++ str "]".

(** The text of a range of heights in the three events about fetching. *)
Definition fetching_text (from_height to_height : Z) : bytes :=
  if from_height =? to_height then str "Fetching header of block " ++ u64_to_string from_height
  else str "Fetching headers of blocks " ++ u64_to_string from_height ++ str "-" ++ u64_to_string to_height.

(** [Display for NodeEvent]. *)
Definition event_to_string (e : NodeEvent) : bytes :=
  match e with
  | ConnectingToBootnodes => str "Connecting to bootnodes"
  | PeerConnected id trusted => (if trusted then str "Trusted peer connected: " else str "Peer connected: ") ++ show_peer id
  | PeerDisconnected id trusted =>
      (if trusted then str "Trusted peer disconnected: " else str "Peer disconnected: ") ++ show_peer id
  | SamplingStarted height square_width shares =>
      str "Sampling of block " ++ u64_to_string height ++ str " started. Square: " ++ u64_to_string square_width ++ str "x"
      ++ u64_to_string square_width ++ str ", Shares: " ++ debug_shares shares
  | ShareSamplingResult height _ row column accepted =>
      str "Sampling for share [" ++ u64_to_string row ++ str ", " ++ u64_to_string column ++ str "] of block "
      ++ u64_to_string height ++ str " was " ++ (if accepted then str "accepted" else str "rejected")
  | SamplingFinished height _ took =>
      str "Sampling of block " ++ u64_to_string height ++ str " finished. Took: " ++ debug_duration took
  | FatalDaserError error => str "Daser stopped because of a fatal error: " ++ error
  | AddedHeaderFromHeaderSub height => str "Added header " ++ u64_to_string height ++ str " from header-sub"
  | FetchingHeadHeaderStarted => str "Fetching header of network head block started"
  | FetchingHeadHeaderFinished height took =>
      str "Fetching header of network head block finished. Height: " ++ u64_to_string height ++ str ", Took: "
      ++ debug_duration took
  | FetchingHeadersStarted from_height to_height => fetching_text from_height to_height ++ str " started"
  | FetchingHeadersFinished from_height to_height took =>
      fetching_text from_height to_height ++ str " finished. Took: " ++ debug_duration took
  | FetchingHeadersFailed from_height to_height error took =>
      fetching_text from_height to_height ++ str " failed. Took: " ++ debug_duration took ++ str ", Error: " ++ error
  | FatalSyncerError error => str "Syncer stopped because of a fatal error: " ++ error
  | PrunedHeaders to_height => str "Pruned headers up to and including " ++ u64_to_string to_height
  | FatalPrunerError error => str "Pruner stopped because of a fatal error: " ++ error
  | NetworkCompromised =>
      str "The network is compromised and should not be trusted. "
      ++ str "Node stopped synchronizing and sampling, but you can still make some queries to the network."
  | NodeStopped => str "Node stopped"
  end.

(** The error that an event carries is the end of its text, and only errors carry one. *)
Definition error_of (e : NodeEvent) : option bytes :=
  match e with
  | FatalDaserError error | FatalSyncerError error | FatalPrunerError error | FetchingHeadersFailed _ _ error _ => Some error
  | _ => None
  end.
Theorem event_errors_shown e error : error_of e = Some error → is_error e = true ∧ error `suffix_of` event_to_string e.
Proof.
  destruct e; cbn [error_of]; try done; intros [= <-]; (split; [done|]); cbn [event_to_string]; rewrite ?app_assoc; by eexists.
Qed.
End Events.

(** ** The channel *)

Section Channel.
Context {E : Type}.
Definition EVENT_CHANNEL_CAPACITY : nat := 1024.

(** What was sent, and whether the node and all its publishers are gone. *)
Record Channel := { ch_sent : list E; ch_closed : bool }.

(** The receiver of tokio; its position is the number of the next event. *)
Inductive Received := Value (e : E) | Lagged | Empty | Closed.
Definition broadcast_try_recv (c : Channel) (next : nat) : Received * nat :=
  if (next + EVENT_CHANNEL_CAPACITY <? length (ch_sent c))%nat then (Lagged, (length (ch_sent c) - EVENT_CHANNEL_CAPACITY)%nat)
  else match ch_sent c !! next with
       | Some e => (Value e, S next)
       | None => (if ch_closed c then Closed else Empty, next)
       end.

(** [EventSubscriber::try_recv]: the loop goes on after [Lagged].  [recv] does the same, waiting where
    this one returns [Empty]. *)
Inductive TryRecvError := TryEmpty | TryClosed.
Fixpoint try_recv (fuel : nat) (c : Channel) (next : nat) : option (res TryRecvError E * nat) :=
  match fuel with
  | O => None
  | S fuel =>
      match broadcast_try_recv c next with
      | (Value e, next) => Some (Ok e, next)
      | (Lagged, next) => try_recv fuel c next
      | (Empty, next) => Some (Err TryEmpty, next)
      | (Closed, next) => Some (Err TryClosed, next)
      end
  end.

(** A subscriber that reads now and then, while events are sent. *)
Inductive ChannelOp := Send (e : E) | Recv.
Record Subscription := { su_channel : Channel; su_next : nat; su_received : list E }.
Definition channel_step (u : Subscription) (op : ChannelOp) : Subscription :=
  match op with
  | Send e => {| su_channel := {| ch_sent := ch_sent (su_channel u) ++ [e]; ch_closed := ch_closed (su_channel u) |};
                 su_next := su_next u; su_received := su_received u |}
  | Recv =>
      match try_recv 2 (su_channel u) (su_next u) with
      | Some (Ok e, next) => {| su_channel := su_channel u; su_next := next; su_received := su_received u ++ [e] |}
      | Some (_, next) => {| su_channel := su_channel u; su_next := next; su_received := su_received u |}
      | None => u
      end
  end.
(** [subscribe] starts at what is sent next. *)
Definition subscribe (c : Channel) : Subscription := {| su_channel := c; su_next := length (ch_sent c); su_received := [] |}.
Definition unread (u : Subscription) : nat := (length (ch_sent (su_channel u)) - su_next u)%nat.

(** ** Lemmas *)

(** Two turns of the loop are enough, and what the loop returns is exact: the next event, or after a lag
    the oldest one kept; nothing only when everything was read. *)
Lemma try_recv_spec c next : (next ≤ length (ch_sent c))%nat →
  let start := Nat.max next (length (ch_sent c) - EVENT_CHANNEL_CAPACITY) in
  try_recv 2 c next = Some (match ch_sent c !! start with
                            | Some e => (Ok e, S start)
                            | None => (Err (if ch_closed c then TryClosed else TryEmpty), start)
                            end).
Proof.
  intros Hn. cbv zeta. assert (∀ k fuel, (length (ch_sent c) ≤ k + EVENT_CHANNEL_CAPACITY)%nat →
    try_recv (S fuel) c k = Some (match ch_sent c !! k with
                            | Some e => (Ok e, S k)
                            | None => (Err (if ch_closed c then TryClosed else TryEmpty), k)
                            end)) as Hread.
  { intros k fuel Hk. cbn [try_recv]. unfold broadcast_try_recv. rewrite (proj2 (Nat.ltb_ge _ _)) by lia.
    destruct (ch_sent c !! k); [done|]. by destruct (ch_closed c). }
  destruct (Nat.ltb_spec (next + EVENT_CHANNEL_CAPACITY) (length (ch_sent c))) as [Hl|Hl].
  - rewrite Nat.max_r by lia. rewrite <-(Hread _ 0%nat) by lia.
    change (try_recv 2 c next) with (match broadcast_try_recv c next with
      | (Value e, next) => Some (Ok e, next) | (Lagged, next) => try_recv 1 c next
      | (Empty, next) => Some (Err TryEmpty, next) | (Closed, next) => Some (Err TryClosed, next) end).
    unfold broadcast_try_recv at 1. by rewrite (proj2 (Nat.ltb_lt _ _)) by lia.
  - rewrite Nat.max_l by lia. by apply Hread.
Qed.

Definition sub_inv (k : nat) (u : Subscription) : Prop :=
  (k ≤ su_next u ≤ length (ch_sent (su_channel u)))%nat ∧
  su_received u `sublist_of` take (su_next u - k) (drop k (ch_sent (su_channel u))).

Lemma take_sublist_le {A} (l : list A) (a b : nat) : (a ≤ b)%nat → take a l `sublist_of` take b l.
Proof.
  intros Hab. rewrite <-(take_drop a (take b l)), take_take, Nat.min_l by done. by apply sublist_inserts_r.
Qed.

Lemma channel_step_inv k u op : sub_inv k u → sub_inv k (channel_step u op).
Proof.
  intros [[Hk Hn] Hs]. destruct op as [e|]; cbn [channel_step].
  - split; cbn [su_next su_channel ch_sent su_received]; [rewrite length_app; cbn; lia|].
    rewrite drop_app_le, take_app_le by (rewrite ?length_drop; lia). exact Hs.
  - rewrite try_recv_spec by done. set (start := Nat.max (su_next u) _).
    assert (su_next u ≤ start ≤ length (ch_sent (su_channel u)))%nat as [Hst1 Hst2] by (unfold start; lia).
    assert (su_received u `sublist_of` take (start - k) (drop k (ch_sent (su_channel u)))) as Hs'.
    { etrans; [exact Hs|]. apply take_sublist_le. lia. }
    destruct (ch_sent (su_channel u) !! start) as [e|] eqn:He; (split; cbn [su_next su_channel ch_sent su_received]).
    + apply lookup_lt_Some in He. lia.
    + replace (S start - k)%nat with (S (start - k)) by lia.
      rewrite (take_S_r _ _ e); [by apply sublist_app|]. rewrite lookup_drop. by replace (k + (start - k))%nat with start by lia.
    + lia.
    + exact Hs'.
Qed.

(** A subscriber gets the events that are sent after it subscribed, each at most once and in their order,
    also when it is slow; and as long as it is never more than 1024 events behind it misses none: what it got
    and what it has not read yet are together exactly what was sent since. *)
Theorem events_delivered_in_order c ops :
  let u := foldl channel_step (subscribe c) ops in
  let sent_since := drop (length (ch_sent c)) (ch_sent (su_channel u)) in
  su_received u ++ drop (su_next u) (ch_sent (su_channel u)) `sublist_of` sent_since ∧
  ((∀ i, (unread (foldl channel_step (subscribe c) (take i ops)) ≤ EVENT_CHANNEL_CAPACITY)%nat) →
   su_received u ++ drop (su_next u) (ch_sent (su_channel u)) = sent_since).
Proof.
  cbv zeta. set (k := length (ch_sent c)).
  assert (∀ ops, sub_inv k (foldl channel_step (subscribe c) ops)) as Hinv.
  { intros ops'. induction ops' as [|op ops' IH] using rev_ind; [|rewrite foldl_app; by apply channel_step_inv].
    split; cbn; [unfold k; lia|]. unfold k. rewrite Nat.sub_diag. apply sublist_nil_l. }
  split.
  - destruct (Hinv ops) as [[Hk Hn] Hs]. set (u := foldl _ _ _) in *.
    rewrite <-(take_drop (su_next u - k) (drop k (ch_sent (su_channel u)))), drop_drop.
    replace (k + (su_next u - k))%nat with (su_next u) by lia. apply sublist_app; [exact Hs|done].
  - intros Hlag. induction ops as [|op ops IH] using rev_ind; [done|]. rewrite foldl_app. cbn [foldl].
    assert (su_received (foldl channel_step (subscribe c) ops) ++ drop (su_next (foldl channel_step (subscribe c) ops))
        (ch_sent (su_channel (foldl channel_step (subscribe c) ops)))
      = drop k (ch_sent (su_channel (foldl channel_step (subscribe c) ops)))) as Heq.
    { apply IH. intros i. destruct (decide (i ≤ length ops)%nat) as [Hi|Hi].
      - specialize (Hlag i). by rewrite take_app_le in Hlag.
      - specialize (Hlag (length ops)). rewrite take_app_length in Hlag. by rewrite take_ge by lia. }
    specialize (Hlag (length ops)). rewrite take_app_length in Hlag. destruct (Hinv ops) as [[Hk Hn] _]. unfold unread in Hlag.
    set (u := foldl channel_step (subscribe c) ops) in *. destruct op as [e|]; cbn [channel_step].
    + cbn [su_next su_channel ch_sent su_received]. rewrite !drop_app_le by lia. by rewrite app_assoc, Heq.
    + rewrite try_recv_spec by done. rewrite Nat.max_l by lia.
      destruct (ch_sent (su_channel u) !! su_next u) as [e|] eqn:He; cbn [su_next su_channel ch_sent su_received]; [|exact Heq].
      rewrite <-app_assoc. cbn [app]. by rewrite <-(drop_S _ _ _ He).
Qed.
End Channel.
