(* ===== verification/P2pHandle.v ===== *)
(** * The handle of the p2p component (src/node/src/p2p.rs, utils.rs, p2p/connection_control.rs)

    The names under which nodes of a network find each other, the check of the bootnodes and their
    grouping by peer, the requests for single headers that the handle makes, and the behaviour
    that refuses connections while the node stops.

    Strings are bytes.  What answers a request is the client of HeaderExClient.v, here behind the
    interface [HeaderExPromise]. *)

From Stdlib Require Import String.
From stdpp Require Import sorting.
From S2P Require Import StateTypes Prelude Consts Nmt Merkle Dah Header BlockRanges Store PeerTracker HeaderEx HeaderExClient.

(** ** Names of protocols and topics (utils.rs) *)

Definition slash : Z := 47.
(** [str::trim_start_matches] and [trim_matches] with a slash. *)
Fixpoint trim_start (s : bytes) : bytes :=
  match s with c :: s' => if c =? slash then trim_start s' else s | [] => [] end.
Definition trim_matches (s : bytes) : bytes := reverse (trim_start (reverse (trim_start s))).

(** [StreamProtocol::try_from_owned] refuses a name that does not start with a slash. *)
Definition try_from_owned (s : bytes) : option bytes :=
  match s with c :: _ => if c =? slash then Some s else None | [] => None end.

Definition protocol_id (network protocol : bytes) : res unit bytes :=
  let network := trim_matches network in
  let protocol := trim_matches protocol in
  expect (try_from_owned (slash :: network ++ slash :: protocol)).
Definition celestia_protocol_id (network protocol : bytes) : res unit bytes :=
  let network := trim_matches network in
  protocol_id (str "/celestia/" ++ network) protocol.
Definition gossipsub_ident_topic (network topic : bytes) : bytes :=
  slash :: trim_matches network ++ slash :: trim_matches topic.
Definition fraudsub_ident_topic (proof_type network : bytes) : bytes :=
  slash :: trim_matches proof_type ++ str "/fraud-sub/" ++ trim_matches network ++ str "/v0.0.1".

(** ** Bootnodes *)

Section Bootnodes.
(** Addresses are lists of protocols; their order is that of libp2p. *)
Context {Peer : Type} `{Countable Peer} {OtherProtocol : Type}.
Inductive Protocol := P2pProtocol (peer : Peer) | Other (p : OtherProtocol).
Definition Addr : Type := list Protocol.
Context `{!EqDecision Addr} (addr_le : relation Addr) `{!RelDecision addr_le}.

(** [MultiaddrExt::peer_id]. *)
Fixpoint addr_peer_id (a : Addr) : option Peer :=
  match a with
  | [] => None
  | P2pProtocol p :: _ => Some p
  | Other _ :: a => addr_peer_id a
  end.

Definition validate_bootnode_addrs (addrs : list Addr) : res (list Addr) unit :=
  let invalid_addrs := filter (λ a, addr_peer_id a = None) addrs in
  match invalid_addrs with [] => Ok tt | _ => Err invalid_addrs end.

(** [Vec::dedup]: equal neighbours are removed. *)
Fixpoint dedup (l : list Addr) : list Addr :=
  match l with
  | a :: (b :: _) as l' => if decide (a = b) then dedup l' else a :: dedup l'
  | l => l
  end.

(** The two loops of [Worker::new]. *)
Fixpoint group_loop (addrs : list Addr) (m : gmap Peer (list Addr)) : res (list Addr) (gmap Peer (list Addr)) :=
  match addrs with
  | [] => Ok m
  | a :: addrs => p ← expect (addr_peer_id a); group_loop addrs (<[p := default [] (m !! p) ++ [a]]> m)
  end.
Definition sort_groups (m : gmap Peer (list Addr)) : gmap Peer (list Addr) := (λ l, dedup (merge_sort addr_le l)) <$> m.
Definition group_bootnodes (addrs : list Addr) : res (list Addr) (gmap Peer (list Addr)) :=
  sort_groups <$> group_loop addrs ∅.

(** [P2p::start] up to the bootnodes of the worker. *)
Definition start_bootnodes (addrs : list Addr) : res (list Addr) (gmap Peer (list Addr)) :=
  _ ← validate_bootnode_addrs addrs; group_bootnodes addrs.
End Bootnodes.

(** ** Requests of single headers *)

Section Handle.
Context `{Tendermint} `{DahExternals}.
(** The command [HeaderExRequest] and the answer on its channel: the worker with its client. *)
Context (header_ex_request : HeaderRequest → res P2pError (list ExtendedHeader)).

Definition next_or_not_found (hs : list ExtendedHeader) : res P2pError ExtendedHeader :=
  ok_or (head hs) (PHeaderEx HeaderNotFound).
Definition get_header (hash : Hash) : res P2pError ExtendedHeader :=
  hs ← header_ex_request {| req_data := Some (DataHash (hash_as_bytes hash)); req_amount := 1 |};
  next_or_not_found hs.
Definition get_header_by_height (height : Z) : res P2pError ExtendedHeader :=
  hs ← header_ex_request {| req_data := Some (Origin height); req_amount := 1 |};
  next_or_not_found hs.
Definition get_head_header : res P2pError ExtendedHeader := get_header_by_height 0.
End Handle.

(** What the client promises its callers (HeaderExClient.v): headers it answers with fit the
    request. *)
Class HeaderExPromise `{Tendermint} `{DahExternals}
    (header_ex_request : HeaderRequest → res P2pError (list ExtendedHeader)) : Prop := {
  answer_accepted request hs : header_ex_request request = Ok hs → accepted request hs
}.

(** ** Connections while the node stops (connection_control.rs) *)

(** What the swarm asks the behaviour; the arguments of the questions are not looked at. *)
Inductive Question := PendingInbound | EstablishedInbound | PendingOutbound | EstablishedOutbound.
(** The answers: the connection goes on, with a dummy handler when it is established and with no
    further addresses to dial when it is pending. *)
Inductive Permission := Unit | NoAddresses | DummyHandler.

Definition handle_pending_inbound_connection (stopping : bool) : option Permission :=
  if stopping then None else Some Unit.
Definition handle_established_inbound_connection (stopping : bool) : option Permission :=
  if stopping then None else Some DummyHandler.
Definition handle_pending_outbound_connection (stopping : bool) : option Permission :=
  if stopping then None else Some NoAddresses.
Definition handle_established_outbound_connection (stopping : bool) : option Permission :=
  if stopping then None else Some DummyHandler.
Definition control_answer (stopping : bool) (q : Question) : option Permission :=
  match q with
  | PendingInbound => handle_pending_inbound_connection stopping
  | EstablishedInbound => handle_established_inbound_connection stopping
  | PendingOutbound => handle_pending_outbound_connection stopping
  | EstablishedOutbound => handle_established_outbound_connection stopping
  end.

(** ** Lemmas: names *)

Lemma trim_start_split s : ∃ n, s = repeat slash n ++ trim_start s.
Proof.
  induction s as [|c s [n IH]]; [by exists 0%nat|]. cbn [trim_start]. destruct (Z.eqb_spec c slash) as [->|].
  - exists (S n). cbn. by f_equal.
  - by exists 0%nat.
Qed.
Lemma trim_start_head s : head (trim_start s) ≠ Some slash.
Proof.
  induction s as [|c s IH]; [done|]. cbn [trim_start]. destruct (Z.eqb_spec c slash); [done|]. cbn. congruence.
Qed.
Lemma trim_start_id s : head s ≠ Some slash → trim_start s = s.
Proof. destruct s as [|c s]; [done|]. cbn. intros Hc. destruct (Z.eqb_spec c slash); [congruence|done]. Qed.

Definition trimmed (s : bytes) : Prop := head s ≠ Some slash ∧ last s ≠ Some slash.
Lemma trim_matches_trimmed s : trimmed (trim_matches s).
Proof.
  unfold trim_matches. split.
  - destruct (trim_start_split (reverse (trim_start s))) as [n Hn].
    apply (f_equal reverse) in Hn. rewrite reverse_involutive, reverse_app in Hn.
    pose proof (trim_start_head s) as Hh. rewrite Hn in Hh. intros Hc. apply Hh.
    destruct (reverse (trim_start (reverse (trim_start s)))) as [|c l]; [done|exact Hc].
  - rewrite last_reverse. apply trim_start_head.
Qed.
Lemma trim_matches_id s : trimmed s → trim_matches s = s.
Proof.
  intros [Hh Hl]. unfold trim_matches. rewrite (trim_start_id s Hh).
  rewrite trim_start_id; [apply reverse_involutive|]. by rewrite head_reverse.
Qed.

Lemma cons_inv (c : Z) (s s' : bytes) : c :: s = c :: s' → s = s'.
Proof. by intros [= ->]. Qed.
Lemma Ok_cons_inv (c : Z) (s s' : bytes) : Ok (E := unit) (c :: s) = Ok (c :: s') → s = s'.
Proof. by intros [= ->]. Qed.

(** The middle of the name of a protocol. *)
Lemma celestia_network n : trim_matches (str "/celestia/" ++ trim_matches n) =
  match trim_matches n with [] => str "celestia" | t => str "celestia/" ++ t end.
Proof.
  pose proof (trim_matches_trimmed n) as [_ Hl]. destruct (trim_matches n) as [|c t] eqn:E; [by vm_compute|].
  unfold trim_matches. change (trim_start (str "/celestia/" ++ c :: t)) with (str "celestia/" ++ c :: t).
  rewrite trim_start_id; [apply reverse_involutive|]. rewrite head_reverse, last_app_cons. exact Hl.
Qed.

(** Nodes of different networks never share a protocol or a topic: two networks have the same
    names exactly when they differ only in slashes around them.  Making a name never panics. *)
Theorem networks_are_separate n n' p :
  (∃ id, celestia_protocol_id n p = Ok id) ∧
  (celestia_protocol_id n p = celestia_protocol_id n' p ↔ trim_matches n = trim_matches n') ∧
  (gossipsub_ident_topic n p = gossipsub_ident_topic n' p ↔ trim_matches n = trim_matches n') ∧
  (fraudsub_ident_topic p n = fraudsub_ident_topic p n' ↔ trim_matches n = trim_matches n').
Proof.
  assert (∀ n, celestia_protocol_id n p =
    Ok (slash :: trim_matches (str "/celestia/" ++ trim_matches n) ++ slash :: trim_matches p)) as Hid by done.
  split_and!.
  - rewrite Hid. by eexists.
  - rewrite !Hid, !celestia_network. split; [|by intros ->]. intros Heq%Ok_cons_inv%app_inv_tail.
    revert Heq. destruct (trim_matches n), (trim_matches n'); intros Heq; [done|discriminate Heq..|exact (app_inv_head _ _ _ Heq)].
  - unfold gossipsub_ident_topic. split; [|by intros ->]. by intros Heq%cons_inv%app_inv_tail.
  - unfold fraudsub_ident_topic. split; [|by intros ->]. intros Heq%cons_inv%app_inv_head%app_inv_head. by apply app_inv_tail in Heq.
Qed.

(** ** Lemmas: bootnodes *)

Section BootnodeLemmas.
Context {Peer : Type} `{Countable Peer} {OtherProtocol : Type}.
#[local] Notation Addr := (Addr (Peer := Peer) (OtherProtocol := OtherProtocol)).
Context `{!EqDecision Addr} (addr_le : relation Addr) `{!RelDecision addr_le}.
Context `{!Transitive addr_le} `{!Total addr_le} `{!AntiSymm (=) addr_le}.

Lemma dedup_cons (a b : Addr) l : dedup (a :: b :: l) = if decide (a = b) then dedup (b :: l) else a :: dedup (b :: l).
Proof. done. Qed.
Lemma elem_of_dedup (x : Addr) l : x ∈ dedup l ↔ x ∈ l.
Proof.
  induction l as [|a l IH]; [done|]. destruct l as [|b l]; [done|]. rewrite dedup_cons.
  case_decide as Hab; [subst; rewrite IH; set_solver|]. rewrite !elem_of_cons, IH. set_solver.
Qed.
Lemma NoDup_dedup (l : list Addr) : StronglySorted addr_le l → NoDup (dedup l).
Proof.
  induction l as [|a l IH]; intros Hs; [constructor|]. apply StronglySorted_cons in Hs as [Ha Hs].
  destruct l as [|b l]; [apply NoDup_singleton|]. rewrite dedup_cons. case_decide as Hab; [by apply IH|].
  apply NoDup_cons. split; [|by apply IH]. intros Hin. apply (proj1 (elem_of_dedup _ _)) in Hin. apply elem_of_cons in Hin as [->|Hin]; [done|].
  apply StronglySorted_cons in Hs as [Hb _]. rewrite Forall_forall in Hb. apply Forall_cons in Ha as [Ha _].
  apply Hab. apply (anti_symm addr_le); [done|by apply Hb].
Qed.

Lemma group_loop_spec (addrs : list Addr) m : Forall (λ a, is_Some (addr_peer_id a)) addrs →
  ∃ m', group_loop addrs m = Ok m' ∧
    ∀ p a, a ∈ default [] (m' !! p) ↔ a ∈ default [] (m !! p) ∨ a ∈ addrs ∧ addr_peer_id a = Some p.
Proof.
  revert m; induction addrs as [|x addrs IH]; intros m Hf; [exists m; split; [done|]; set_solver|].
  apply Forall_cons in Hf as [[q Hq] Hf]. cbn [group_loop]. rewrite Hq. cbn [expect mbind res_bind].
  destruct (IH (<[q := default [] (m !! q) ++ [x]]> m) Hf) as (m'&->&Hm). exists m'. split; [done|].
  intros p a. rewrite Hm. destruct (decide (p = q)) as [->|Hne].
  - rewrite lookup_insert_eq. cbn. rewrite elem_of_app, list_elem_of_singleton, elem_of_cons. naive_solver.
  - rewrite lookup_insert_ne by done. rewrite elem_of_cons. split; [naive_solver|]. intros [?|[[->|?] ?]]; [by left|congruence|by right].
Qed.

(** Starting p2p with bootnodes: it fails exactly when an address names no peer, with the list of
    those; otherwise the worker's [expect] on the peer ids cannot fail, and every peer has exactly
    the addresses that name it, each once. *)
Theorem start_bootnodes_exact (addrs : list Addr) :
  (∀ bad, start_bootnodes addr_le addrs = Err bad ↔ bad = filter (λ a, addr_peer_id a = None) addrs ∧ bad ≠ []) ∧
  (filter (λ a, addr_peer_id a = None) addrs = [] → ∃ m, start_bootnodes addr_le addrs = Ok m ∧
     ∀ p, NoDup (default [] (m !! p)) ∧ ∀ a, a ∈ default [] (m !! p) ↔ a ∈ addrs ∧ addr_peer_id a = Some p).
Proof.
  assert (filter (λ a, addr_peer_id a = None) addrs = [] → ∃ m, start_bootnodes addr_le addrs = Ok m ∧
     ∀ p, NoDup (default [] (m !! p)) ∧ ∀ a, a ∈ default [] (m !! p) ↔ a ∈ addrs ∧ addr_peer_id a = Some p) as Hok.
  { intros Hnil. unfold start_bootnodes, validate_bootnode_addrs. rewrite Hnil. cbn [mbind res_bind].
    unfold group_bootnodes. destruct (group_loop_spec addrs ∅) as (m&->&Hm).
    { apply Forall_forall. intros a Ha. destruct (addr_peer_id a) as [p|] eqn:E; [by eexists|].
      assert (a ∈ filter (λ a, addr_peer_id a = None) addrs) as Hin by (by apply list_elem_of_filter).
      rewrite Hnil in Hin. by apply elem_of_nil in Hin. }
    eexists. split; [done|]. intros p. specialize (Hm p). unfold sort_groups. rewrite lookup_fmap.
    destruct (m !! p) as [l|]; cbn in *.
    - split; [apply NoDup_dedup, StronglySorted_merge_sort; apply _|]. intros a. rewrite elem_of_dedup, merge_sort_Permutation, Hm.
      rewrite lookup_empty. cbn. set_solver.
    - split; [constructor|]. intros a. rewrite Hm, lookup_empty. cbn. set_solver. }
  split; [|exact Hok]. intros bad. destruct (filter (λ a, addr_peer_id a = None) addrs) as [|x l] eqn:E.
  - destruct (Hok eq_refl) as (m&->&_). split; [done|]. by intros [-> ?].
  - unfold start_bootnodes, validate_bootnode_addrs. rewrite E. cbn. split; [by intros [= <-]|by intros [-> _]].
Qed.
End BootnodeLemmas.


(** ** Lemmas: requests *)

Section HandleLemmas.
Context `{Tendermint} `{DahExternals} (header_ex_request : HeaderRequest → res P2pError (list ExtendedHeader)).
Context `{!HeaderExPromise header_ex_request}.

Lemma single_answer data hs : header_ex_request {| req_data := data; req_amount := 1 |} = Ok hs →
  ∃ e, hs = [e] ∧ eh_validate e = Ok tt ∧
    match data with
    | Some (Origin h) => h ≠ 0 → eh_height e = h
    | Some (DataHash hash) => hash_as_bytes (eh_hash e) = hash
    | None => False
    end.
Proof.
  intros (Hne&Hlen&Hval&Hdata)%answer_accepted. cbn [req_amount req_data] in *.
  destruct hs as [|e [|e' hs]]; [done| |cbn in Hlen; lia]. exists e. apply Forall_cons in Hval as [Hval _].
  split_and!; [done|done|]. destruct data as [[h|hash]|]; [|by destruct Hdata as (?&[= ->]&?)|done].
  intros Hh. destruct (Z.eqb_spec h 0); [done|]. change (eh_height <$> [e]) with [eh_height e] in Hdata.
  change (seqZ h (Z.of_nat (length [e]))) with [Z.add 0 h] in Hdata. injection Hdata. lia.
Qed.

(** The handle returns the header that was asked for: with a promise of the client a returned
    header passed validation and has the hash or the height; an answer of the client is never
    lost (the error [HeaderNotFound] of the handle does not occur after an answer), and errors of
    the client come through. *)
Theorem handle_requests_sound hash height :
  (∀ e, get_header header_ex_request hash = Ok e →
     eh_validate e = Ok tt ∧ hash_as_bytes (eh_hash e) = hash_as_bytes hash) ∧
  (∀ e, get_header_by_height header_ex_request height = Ok e →
     eh_validate e = Ok tt ∧ (height ≠ 0 → eh_height e = height)) ∧
  (∀ e, get_head_header header_ex_request = Ok e → eh_validate e = Ok tt) ∧
  (∀ err, get_header_by_height header_ex_request height = Err err →
     header_ex_request (with_origin height 1) = Err err) ∧
  (∀ err, get_header header_ex_request hash = Err err → header_ex_request (with_hash hash) = Err err).
Proof.
  assert (∀ height e, get_header_by_height header_ex_request height = Ok e →
     eh_validate e = Ok tt ∧ (height ≠ 0 → eh_height e = height)) as Hheight.
  { intros h e Hget. apply bind_Ok in Hget as (hs&Hreq&Hnext). apply single_answer in Hreq as (e'&->&Hv&Hh).
    injection Hnext as <-. by split. }
  split_and!; [|exact (Hheight height)|intros e He; by apply (Hheight 0)| |].
  - intros e Hget. apply bind_Ok in Hget as (hs&Hreq&Hnext). apply single_answer in Hreq as (e'&->&Hv&Hh).
    injection Hnext as <-. by split.
  - intros err Herr. unfold get_header_by_height in Herr. fold (with_origin height 1) in Herr.
    destruct (header_ex_request (with_origin height 1)) as [hs|e|] eqn:Hreq; [|by injection Herr as ->|done].
    apply single_answer in Hreq as (e'&->&_). done.
  - intros err Herr. unfold get_header in Herr. fold (with_hash hash) in Herr.
    destruct (header_ex_request (with_hash hash)) as [hs|e|] eqn:Hreq; [|by injection Herr as ->|done].
    apply single_answer in Hreq as (e'&->&_). done.
Qed.
End HandleLemmas.

(** While the node stops every connection is refused, at each of its four steps and whatever its
    direction; before that none is. *)
Lemma stopping_refuses_connections stopping q : control_answer stopping q = None ↔ stopping = true.
Proof. by destruct stopping, q. Qed.

(** ** Concrete cases *)

#[local] Existing Instances toy_DahExternals toy_Tendermint toy_TendermintSpec.

(** A client that knows one header. *)
Definition toy_header_ex (request : HeaderRequest) : res P2pError (list ExtendedHeader) :=
  match req_data request with
  | Some (Origin h) => if (h =? 1) && (1 <=? req_amount request) then Ok [toy_1] else Err (PHeaderEx HeaderNotFound)
  | _ => Err (PHeaderEx HeaderNotFound)
  end.
#[local] Instance toy_promise : HeaderExPromise toy_header_ex.
Proof.
  split. intros request hs. unfold toy_header_ex. destruct (req_data request) as [[h|hash]|] eqn:Hd; [|done..].
  destruct ((h =? 1) && (1 <=? req_amount request)) eqn:Hb; [|done]. intros [= <-].
  apply andb_true_iff in Hb as [->%Z.eqb_eq Ha%Z.leb_le]. unfold accepted. rewrite Hd.
  split_and!; [done|cbn; lia| |vm_compute; reflexivity].
  constructor; [vm_compute; reflexivity|constructor].
Qed.

Lemma handle_requests_sound_witness :
  get_header_by_height toy_header_ex 1 = Ok toy_1 ∧ eh_validate toy_1 = Ok tt ∧ (1 ≠ 0 → eh_height toy_1 = 1).
Proof.
  split; [vm_compute; reflexivity|].
  apply (proj1 (proj2 (handle_requests_sound toy_header_ex NoHash 1))). vm_compute. reflexivity.
Defined.

(** Two bootnode addresses of one peer, one of them twice, and one of another. *)
Definition toy_addr (p i : nat) : Addr (Peer := nat) (OtherProtocol := nat) := [Other i; P2pProtocol p].
#[local] Instance toy_protocol_eq : EqDecision (Protocol (Peer := nat) (OtherProtocol := nat)).
Proof. solve_decision. Defined.
(** The order of the addresses as the lists of their components. *)
Definition toy_key (a : Addr (Peer := nat) (OtherProtocol := nat)) : list Z :=
  (λ p, match p with P2pProtocol p => 2 * Z.of_nat p | Other p => 2 * Z.of_nat p + 1 end) <$> a.
Fixpoint toy_lex (a b : list Z) : bool :=
  match a, b with
  | [], _ => true
  | _, [] => false
  | x :: a, y :: b => (x <? y) || ((x =? y) && toy_lex a b)
  end.
Definition toy_addr_le (a b : Addr (Peer := nat) (OtherProtocol := nat)) : Prop := toy_lex (toy_key a) (toy_key b) = true.
#[local] Instance toy_addr_le_dec : RelDecision toy_addr_le.
Proof. intros a b. unfold toy_addr_le. apply _. Defined.
Lemma toy_lex_cons x y a b : toy_lex (x :: a) (y :: b) = true ↔ x < y ∨ (x = y ∧ toy_lex a b = true).
Proof. cbn. rewrite orb_true_iff, andb_true_iff, Z.ltb_lt, Z.eqb_eq. done. Qed.
#[local] Instance toy_addr_le_trans : Transitive toy_addr_le.
Proof.
  intros a b c. unfold toy_addr_le. generalize (toy_key a) (toy_key b) (toy_key c). clear a b c.
  intros a. induction a as [|x a IH]; intros [|y b] [|z c]; [done..|]. rewrite !toy_lex_cons.
  intros [?|[-> ?]] [?|[-> ?]]; [left; lia|by left|by left|right; split; [done|by eapply IH]].
Qed.
#[local] Instance toy_addr_le_total : Total toy_addr_le.
Proof.
  intros a b. unfold toy_addr_le. generalize (toy_key a) (toy_key b). clear a b.
  intros a. induction a as [|x a IH]; intros [|y b]; [by left|by left|by right|]. rewrite !toy_lex_cons.
  destruct (Z.lt_trichotomy x y) as [?|[->|?]]; [by left; left| |by right; left].
  destruct (IH b); [left|right]; right; done.
Qed.
#[local] Instance toy_addr_le_antisym : AntiSymm (=) toy_addr_le.
Proof.
  intros a b. unfold toy_addr_le. revert b. induction a as [|x a IH]; intros [|y b]; [done..|].
  change (toy_key (x :: a)) with ((toy_key [x] ++ toy_key a)). change (toy_key (y :: b)) with ((toy_key [y] ++ toy_key b)).
  cbn [toy_key fmap list_fmap app]. rewrite !toy_lex_cons. intros [?|[Hx Ha]] [?|[Hy Hb]]; try lia.
  f_equal; [destruct x, y; f_equal; lia|by apply IH].
Qed.

Lemma start_bootnodes_exact_witness : ∃ m,
  start_bootnodes toy_addr_le [toy_addr 1 5; toy_addr 2 5; toy_addr 1 3; toy_addr 1 5] = Ok m ∧
  m !! 1%nat = Some [toy_addr 1 3; toy_addr 1 5] ∧
  ∀ p, NoDup (default [] (m !! p)).
Proof.
  destruct (proj2 (start_bootnodes_exact toy_addr_le [toy_addr 1 5; toy_addr 2 5; toy_addr 1 3; toy_addr 1 5]))
    as (m&Hm&Hall); [vm_compute; reflexivity|].
  exists m. split_and!; [exact Hm| |intros p; apply (Hall p)].
  vm_compute in Hm. injection Hm as <-. vm_compute. reflexivity.
Defined.
