(* ===== verification/P2pInit.v ===== *)
(** * What the swarm of a node is made of (src/node/src/p2p.rs)

    The settings that [Worker::new] gives to the behaviours of libp2p: names of protocols and topics,
    addresses of the routing table, and addresses to listen on.  The behaviours themselves are of libp2p;
    subscribing to a topic and setting a prefix may fail there. *)

From Stdlib Require Import String.
From S2P Require Import StateTypes Prelude Nmt P2pHandle.

Section Init.
Context {Peer : Type} {OtherProtocol : Type}.
#[local] Notation Addr := (Addr (Peer := Peer) (OtherProtocol := OtherProtocol)).
(** [Behaviour::subscribe] of gossipsub, [protocol_prefix] of beetswap and [Swarm::listen_on]. *)
Context (subscribe : bytes → bool) (protocol_prefix : bytes → bool) (listen_on : Addr → option nat) (version : bytes).

Record P2pArgs := { pa_network_id : bytes; pa_bootnodes : list Addr; pa_listen_on : list Addr }.
Inductive InitError := GossipsubInitFailed | BitswapFailed.

(** The topics that are subscribed to; messages are validated strictly and by the application. *)
Record Gossipsub := { gs_strict : bool; gs_validate_messages : bool; gs_topics : list bytes }.
Fixpoint subscribe_all (topics : list bytes) (g : Gossipsub) : res InitError Gossipsub :=
  match topics with
  | [] => Ok g
  | topic :: topics =>
      if subscribe topic
      then subscribe_all topics {| gs_strict := gs_strict g; gs_validate_messages := gs_validate_messages g; gs_topics := gs_topics g ++ [topic] |}
      else Err GossipsubInitFailed
  end.
Definition init_gossipsub (topics : list bytes) : res InitError Gossipsub :=
  subscribe_all topics {| gs_strict := true; gs_validate_messages := true; gs_topics := [] |}.

Inductive KadMode := KadAuto | KadServer.
Record Kademlia := { kd_protocol : bytes; kd_addresses : list (Peer * Addr); kd_mode : KadMode }.
Fixpoint add_bootnodes (addrs : list Addr) (k : list (Peer * Addr)) : list (Peer * Addr) :=
  match addrs with
  | [] => k
  | addr :: addrs => add_bootnodes addrs (match addr_peer_id addr with Some peer_id => k ++ [(peer_id, addr)] | None => k end)
  end.
Definition init_kademlia (args : P2pArgs) : res InitError Kademlia :=
  protocol_id ← expect_ok (celestia_protocol_id (pa_network_id args) (str "/kad/1.0.0"));
  Ok {| kd_protocol := protocol_id; kd_addresses := add_bootnodes (pa_bootnodes args) [];
        kd_mode := if bool_decide (pa_listen_on args = []) then KadAuto else KadServer |}.

Definition init_bitswap (network_id : bytes) : res InitError bytes :=
  prefix ← expect_ok (celestia_protocol_id network_id (str "shwap"));
  if protocol_prefix prefix then Ok prefix else Err BitswapFailed.

(** [Worker::new] up to the bootnodes: the behaviours, then the listeners; an address on which the
    swarm cannot listen is only logged. *)
Record Setup := {
  su_agent_version : bytes; su_header_sub_topic : bytes; su_fraud_sub_topic : bytes;
  su_gossipsub : Gossipsub; su_kademlia : Kademlia; su_bitswap : bytes; su_header_ex : bytes; su_listeners : list nat
}.
Definition swarm_setup (args : P2pArgs) : res InitError Setup :=
  let agent_version := str "lumina/" ++ pa_network_id args ++ str "/" ++ version in
  let header_sub_topic := gossipsub_ident_topic (pa_network_id args) (str "/header-sub/v0.0.1") in
  let bad_encoding_fraud_sub_topic := fraudsub_ident_topic (str "badencoding") (pa_network_id args) in
  gossipsub ← init_gossipsub [header_sub_topic; bad_encoding_fraud_sub_topic];
  kademlia ← init_kademlia args;
  bitswap ← init_bitswap (pa_network_id args);
  header_ex ← expect_ok (protocol_id (pa_network_id args) (str "/header-ex/v0.0.3"));
  Ok {| su_agent_version := agent_version; su_header_sub_topic := header_sub_topic; su_fraud_sub_topic := bad_encoding_fraud_sub_topic;
        su_gossipsub := gossipsub; su_kademlia := kademlia; su_bitswap := bitswap; su_header_ex := header_ex;
        su_listeners := omap listen_on (pa_listen_on args) |}.

(** ** Lemmas *)

Lemma add_bootnodes_spec addrs k : add_bootnodes addrs k = k ++ omap (λ a, p ← addr_peer_id a; Some (p, a)) addrs.
Proof.
  revert k; induction addrs as [|a addrs IH]; intros k; cbn [add_bootnodes]; [by rewrite app_nil_r|]. rewrite IH. cbn.
  destruct (addr_peer_id a); [by rewrite <-app_assoc|done].
Qed.
Lemma subscribe_all_topics topics g g' : subscribe_all topics g = Ok g' →
  gs_topics g' = gs_topics g ++ topics ∧ gs_strict g' = gs_strict g ∧ gs_validate_messages g' = gs_validate_messages g.
Proof.
  revert g; induction topics as [|t topics IH]; intros g Hg; cbn in Hg; [injection Hg as <-; by rewrite app_nil_r|].
  destruct (subscribe t); [|done]. apply IH in Hg as (Ht&Hs&Hv). cbn in *. by rewrite Ht, <-app_assoc.
Qed.
Lemma protocol_id_separate n n' p : protocol_id n p = protocol_id n' p ↔ trim_matches n = trim_matches n'.
Proof.
  assert (∀ n, protocol_id n p = Ok (slash :: trim_matches n ++ slash :: trim_matches p)) as Hid by done.
  rewrite !Hid. split; [|by intros ->]. by intros Heq%Ok_cons_inv%app_inv_tail.
Qed.
Lemma expect_ok_inj {E} (r r' : res unit bytes) x : expect_ok (E' := E) r = Ok x → expect_ok (E' := E) r' = Ok x → r = r'.
Proof. destruct r, r'; cbn; congruence. Qed.

Lemma init_kademlia_spec args k : init_kademlia args = Ok k →
  expect_ok (E' := InitError) (celestia_protocol_id (pa_network_id args) (str "/kad/1.0.0")) = Ok (kd_protocol k) ∧
  kd_addresses k = omap (λ a, p ← addr_peer_id a; Some (p, a)) (pa_bootnodes args) ∧
  kd_mode k = if bool_decide (pa_listen_on args = []) then KadAuto else KadServer.
Proof. unfold init_kademlia. intros Hk. apply bind_Ok in Hk as (p&Hp&Hk). injection Hk as <-. split_and!; [done|apply add_bootnodes_spec|done]. Qed.
Lemma init_bitswap_Ok n b : init_bitswap n = Ok b → expect_ok (E' := InitError) (celestia_protocol_id n (str "shwap")) = Ok b.
Proof. unfold init_bitswap. intros Hb. apply bind_Ok in Hb as (p&Hp&Hb). destruct (protocol_prefix p); [|done]. by injection Hb as <-. Qed.
Lemma setup_parts args s : swarm_setup args = Ok s → ∃ g k b h,
  init_gossipsub [gossipsub_ident_topic (pa_network_id args) (str "/header-sub/v0.0.1"); fraudsub_ident_topic (str "badencoding") (pa_network_id args)] = Ok g ∧
  init_kademlia args = Ok k ∧ init_bitswap (pa_network_id args) = Ok b ∧
  expect_ok (E' := InitError) (protocol_id (pa_network_id args) (str "/header-ex/v0.0.3")) = Ok h ∧
  s = {| su_agent_version := str "lumina/" ++ pa_network_id args ++ str "/" ++ version;
         su_header_sub_topic := gossipsub_ident_topic (pa_network_id args) (str "/header-sub/v0.0.1");
         su_fraud_sub_topic := fraudsub_ident_topic (str "badencoding") (pa_network_id args);
         su_gossipsub := g; su_kademlia := k; su_bitswap := b; su_header_ex := h;
         su_listeners := omap listen_on (pa_listen_on args) |}.
Proof.
  unfold swarm_setup. intros Hs. apply bind_Ok in Hs as (g&Hg&Hs). apply bind_Ok in Hs as (k&Hk&Hs). apply bind_Ok in Hs as (b&Hb&Hs).
  apply bind_Ok in Hs as (h&Hh&Hs). injection Hs as <-. by exists g, k, b, h.
Qed.

(** The swarm never panics while it is set up.  It subscribes to the two topics of its network and
    validates their messages, knows exactly the bootnodes that name a peer, serves the routing table
    only if it listens, and shares no protocol and no topic with a node of another network. *)
Theorem swarm_setup_correct args args' : swarm_setup args ≠ Panic ∧
  ∀ s, swarm_setup args = Ok s →
    gs_topics (su_gossipsub s) = [su_header_sub_topic s; su_fraud_sub_topic s] ∧
    gs_strict (su_gossipsub s) = true ∧ gs_validate_messages (su_gossipsub s) = true ∧
    (∀ p a, (p, a) ∈ kd_addresses (su_kademlia s) ↔ a ∈ pa_bootnodes args ∧ addr_peer_id a = Some p) ∧
    (kd_mode (su_kademlia s) = KadServer ↔ pa_listen_on args ≠ []) ∧
    ∀ s', swarm_setup args' = Ok s' → trim_matches (pa_network_id args) ≠ trim_matches (pa_network_id args') →
      su_header_sub_topic s ≠ su_header_sub_topic s' ∧ su_fraud_sub_topic s ≠ su_fraud_sub_topic s' ∧
      kd_protocol (su_kademlia s) ≠ kd_protocol (su_kademlia s') ∧ su_bitswap s ≠ su_bitswap s' ∧ su_header_ex s ≠ su_header_ex s'.
Proof.
  destruct (networks_are_separate (pa_network_id args) (pa_network_id args') (str "/kad/1.0.0")) as ([kad Hkad]&Hkads&_&_).
  destruct (networks_are_separate (pa_network_id args) (pa_network_id args') (str "shwap")) as ([bs Hbs]&Hbss&_&_).
  split.
  - unfold swarm_setup, init_kademlia, init_bitswap. rewrite Hkad, Hbs. cbn [expect_ok mbind res_bind].
    destruct (init_gossipsub _) as [g| |] eqn:Hg; [|done|].
    + cbn [mbind res_bind]. by destruct (protocol_prefix bs).
    + exfalso. revert Hg. unfold init_gossipsub. cbn. by repeat case_match.
  - intros s Hs. apply setup_parts in Hs as (g&kad'&b&h&Hg&Hk&Hb&Hh&->). apply subscribe_all_topics in Hg as (Ht&Hst&Hv). cbn in Ht, Hst, Hv.
    apply init_kademlia_spec in Hk as (Hkp&Hka&Hkm). split_and!; [done|done|done| |cbn; rewrite Hkm; case_bool_decide; naive_solver|].
    + intros p a. cbn [su_kademlia]. rewrite Hka, list_elem_of_omap. split.
      * intros (a'&Hin&Ha). destruct (addr_peer_id a') as [p'|] eqn:Hp; [|done]. by injection Ha as -> ->.
      * intros [Hin Hp]. exists a. split; [done|]. by rewrite Hp.
    + intros s' Hs' Hne. apply setup_parts in Hs' as (g2&kad2&b2&h2&_&Hk2&Hb2&Hh2&->). apply init_kademlia_spec in Hk2 as (Hkp2&_&_).
      cbn [su_header_sub_topic su_fraud_sub_topic su_kademlia su_bitswap su_header_ex]. split_and!.
      * intros Heq. by apply Hne, (proj1 (proj2 (proj2 (networks_are_separate _ _ (str "/header-sub/v0.0.1"))))).
      * intros Heq. by apply Hne, (proj2 (proj2 (proj2 (networks_are_separate _ _ (str "badencoding"))))).
      * intros Heq. rewrite Heq in Hkp. by apply Hne, Hkads, (expect_ok_inj (E := InitError) _ _ (kd_protocol kad2)).
      * intros Heq. apply init_bitswap_Ok in Hb, Hb2. rewrite Heq in Hb. by apply Hne, Hbss, (expect_ok_inj (E := InitError) _ _ _ Hb Hb2).
      * intros Heq. rewrite Heq in Hh. by apply Hne, (protocol_id_separate _ _ (str "/header-ex/v0.0.3")), (expect_ok_inj (E := InitError) _ _ _ Hh Hh2).
Qed.
End Init.
