(* ===== verification/HeaderGenerator.v ===== *)
(** * The generator of headers (src/types/src/test_utils.rs)

    [ExtendedHeaderGenerator] makes chains of signed headers, and [invalidate] and [unverify]
    break a header in one way only.  The tests of the node stand on them: what they produce has
    to satisfy the verification of Header.v, which the theorems here show.

    Keys, signatures and the constructors of the tendermint crate are the class [Signing].  What
    the code draws from the random number generator and reads from the clock while it makes one
    header is a [Draw]; the methods of the generator return the new generator with the header. *)

From Stdlib Require Import String.
From S2P Require Import StateTypes Prelude Consts Nmt Merkle Dah Header Share Eds.

(** ** External code *)

Class Signing := {
  SigningKey : Type;
  (** [signing_key.verification_key().to_bytes()] *)
  verification_key : SigningKey → bytes;
  (** [signing_key.sign(msg).to_bytes()] *)
  sign : SigningKey → bytes → bytes;
  (** [PublicKey::from_raw_ed25519] *)
  from_raw_ed25519 : bytes → option bytes;
  (** [Signature::new]: an error, no signature, or a signature *)
  signature_new : bytes → option (option bytes);
  (** [ValidatorSet::new] *)
  valset_new : list Validator → option Validator → ValidatorSet;
  (** [Height::try_from(u64)] *)
  height_try_from : Z → option Z;
  (** [parts::Header::new] *)
  parts_header_new : Z → Hash → option (Z * Hash)
}.

Class SigningSpec `{Tendermint} `{Signing} : Prop := {
  from_raw_key k : from_raw_ed25519 (verification_key k) = Some (verification_key k);
  sign_verifies k v m : val_pub_key v = verification_key k → verify_signature v m (sign k m) = true;
  length_sign k m : length (sign k m) = SIGNATURE_LENGTH;
  signature_new_sign k m : signature_new (sign k m) = Some (Some (sign k m));
  valset_new_single v p :
    valset_new [v] p = {| validators := [v]; proposer := p; total_voting_power := val_power v |};
  height_try_from_Some h : 0 ≤ h ≤ i64_max → height_try_from h = Some h;
  parts_header_new_one h : parts_header_new 1 h = Some (1, h);
  validator_index_first : is_Some (validator_index_try_from 0);
  (** the signature of a vote is not part of what is signed *)
  signable_vec_unsigned v s chain_id :
    signable_vec {| vote_height := vote_height v; vote_round := vote_round v;
      vote_block_id := vote_block_id v; vote_timestamp := vote_timestamp v;
      vote_validator_address := vote_validator_address v;
      vote_validator_index := vote_validator_index v; vote_signature := s |} chain_id
    = signable_vec v chain_id
}.

(** ** hash.rs *)

Definition default_sha256 : Hash :=
  Sha256 [227; 176; 196; 66; 152; 252; 28; 20; 154; 251; 244; 200; 153; 111; 185; 36; 39; 174; 65; 228;
          100; 155; 147; 76; 164; 149; 153; 27; 120; 82; 184; 85].
(** [as_bytes]. *)
Definition sha256_bytes (h : Hash) : bytes := match h with Sha256 d => d | NoHash => [] end.

(** ** What is random, and the clock *)

Record Draw := {
  (** the reading of [Time::now()] by the generator and the one by [verify] *)
  dr_now : Z;
  dr_verify_now : Z;
  (** [tendermint::account::Id::new(rand::random())] *)
  dr_address : bytes;
  (** the id of a previous block that does not exist *)
  dr_last_hash : bytes;
  dr_last_parts : bytes;
  dr_consensus : bytes;
  dr_parts : bytes
}.

Section Generator.
Context `{Tendermint} `{DahExternals} `{Signing} `{LeopardCodec} `{NmtExternals}.

(** [header.validate().expect(..)] and the like. *)
Definition must_validate (e : ExtendedHeader) : res HeaderError unit := expect_ok (eh_validate e).

(** ** hash_and_sign *)

Definition set_hashes (h : Header) (vals : Hash) (data : Hash) : Header :=
  {| version_block := version_block h; version_app := version_app h; h_chain_id := h_chain_id h;
     h_height := h_height h; h_time := h_time h; last_block_id := last_block_id h;
     last_commit_hash := last_commit_hash h; data_hash := Some data; validators_hash := vals;
     next_validators_hash := vals; consensus_hash := consensus_hash h; app_hash := app_hash h;
     last_results_hash := last_results_hash h; evidence_hash := evidence_hash h;
     proposer_address := proposer_address h |}.
Definition set_block_hash (c : Commit) (hash : Hash) : Commit :=
  {| c_height := c_height c; c_round := c_round c;
     c_block_id := {| bid_hash := hash; bid_parts_total := bid_parts_total (c_block_id c);
                      bid_parts_hash := bid_parts_hash (c_block_id c) |};
     c_signatures := c_signatures c |}.
Definition set_signatures (c : Commit) (sigs : list CommitSig) : Commit :=
  {| c_height := c_height c; c_round := c_round c; c_block_id := c_block_id c; c_signatures := sigs |}.

(** The assignment to the signature inside [commit.signatures[0]]. *)
Definition set_signature (s : CommitSig) (sig : bytes) : res HeaderError CommitSig :=
  match s with
  | BlockIdFlagAbsent => Ok BlockIdFlagAbsent
  | BlockIdFlagNil a t _ => o ← expect (signature_new sig); g ← expect o; Ok (BlockIdFlagNil a t (Some g))
  | BlockIdFlagCommit a t _ => o ← expect (signature_new sig); g ← expect o; Ok (BlockIdFlagCommit a t (Some g))
  end.

Definition hash_and_sign (e : ExtendedHeader) (signing_key : SigningKey) : res HeaderError ExtendedHeader :=
  let hash := valset_hash (eh_validator_set e) in
  let header := set_hashes (eh_header e) hash (dah_hash (eh_dah e)) in
  let commit := set_block_hash (eh_commit e) (header_hash header) in
  vote_sign ← expect_ok (vote_sign_bytes commit (h_chain_id header) 0);
  let sig := sign signing_key vote_sign in
  s ← vec_index (c_signatures commit) 0;
  s ← set_signature s sig;
  Ok {| eh_header := header; eh_commit := set_signatures commit (<[0%nat := s]> (c_signatures commit));
        eh_validator_set := eh_validator_set e; eh_dah := eh_dah e |}.

(** ** generate_new and generate_next *)

(** The set of the one validator that signs. *)
Definition single_validator_set (pub_key address : bytes) : ValidatorSet :=
  let info := {| val_address := address; val_pub_key := pub_key; val_power := 5000 |} in
  valset_new [info] (Some info).

(** The id of a block that does not exist. *)
Definition random_block_id (d : Draw) : res HeaderError BlockId :=
  '(total, hash) ← expect (parts_header_new 1 (Sha256 (dr_last_parts d)));
  Ok {| bid_hash := Sha256 (dr_last_hash d); bid_parts_total := total; bid_parts_hash := hash |}.

(** [dah.unwrap_or_else(|| from_eds(&ExtendedDataSquare::empty()))]. *)
Definition dah_or_empty (dah : option DataAvailabilityHeader) : res HeaderError DataAvailabilityHeader :=
  match dah with
  | Some dah => Ok dah
  | None => eds ← expect_ok eds_empty; expect_ok (dah_from_eds eds)
  end.

(** The header both functions fill in, before it is hashed and signed. *)
Definition unsigned_header (v_block v_app : Z) (chain_id : bytes) (height time : Z) (last_id : option BlockId)
    (validator_address : bytes) (set : ValidatorSet) (dah : option DataAvailabilityHeader) (d : Draw)
    : res HeaderError ExtendedHeader :=
  '(total, hash) ← expect (parts_header_new 1 (Sha256 (dr_parts d)));
  dah ← dah_or_empty dah;
  Ok {| eh_header :=
          {| version_block := v_block; version_app := v_app; h_chain_id := chain_id; h_height := height;
             h_time := time; last_block_id := last_id; last_commit_hash := Some default_sha256;
             data_hash := Some NoHash; validators_hash := NoHash; next_validators_hash := NoHash;
             consensus_hash := Sha256 (dr_consensus d); app_hash := sha256_bytes default_sha256;
             last_results_hash := Some default_sha256; evidence_hash := Some default_sha256;
             proposer_address := validator_address |};
        eh_commit :=
          {| c_height := height; c_round := 0;
             c_block_id := {| bid_hash := NoHash; bid_parts_total := total; bid_parts_hash := hash |};
             c_signatures := [BlockIdFlagCommit validator_address time None] |};
        eh_validator_set := set; eh_dah := dah |}.

Definition generate_new (height : Z) (chain_id : bytes) (time : Z) (signing_key : SigningKey)
    (dah : option DataAvailabilityHeader) (d : Draw) : res HeaderError ExtendedHeader :=
  if negb (GENESIS_HEIGHT <=? height) then Panic else
  pub_key ← expect (from_raw_ed25519 (verification_key signing_key));
  let validator_address := dr_address d in
  last_id ← (if height =? GENESIS_HEIGHT then Ok None else Some <$> random_block_id d);
  h ← expect (height_try_from height);
  e ← unsigned_header BLOCK_PROTOCOL 1 chain_id h time last_id validator_address
        (single_validator_set pub_key validator_address) dah d;
  e ← hash_and_sign e signing_key;
  _ ← must_validate e;
  Ok e.

Definition generate_next (increment : Z) (current : ExtendedHeader) (time : Z) (signing_key : SigningKey)
    (dah : option DataAvailabilityHeader) (d : Draw) : res HeaderError ExtendedHeader :=
  if negb (0 <? increment) then Panic else
  first ← vec_index (validators (eh_validator_set current)) 0;
  let validator_address := val_address first in
  height ← u64_add (h_height (eh_header current)) increment;
  height ← expect (height_try_from height);
  last_id ← (if increment =? 1 then Ok (c_block_id (eh_commit current)) else random_block_id d);
  e ← unsigned_header (version_block (eh_header current)) (version_app (eh_header current))
        (h_chain_id (eh_header current)) height time (Some last_id) validator_address
        (eh_validator_set current) dah d;
  e ← hash_and_sign e signing_key;
  _ ← must_validate e;
  _ ← expect_ok (eh_verify (dr_verify_now d) current e);
  Ok e.

(** ** ExtendedHeaderGenerator *)

Record ExtendedHeaderGenerator := {
  g_chain_id : bytes;
  g_key : SigningKey;
  g_current_header : option ExtendedHeader;
  (** the time and the time between blocks *)
  g_spoofed_block_time : option (Z * Z)
}.
Definition set_current (g : ExtendedHeaderGenerator) (e : option ExtendedHeader) : ExtendedHeaderGenerator :=
  {| g_chain_id := g_chain_id g; g_key := g_key g; g_current_header := e;
     g_spoofed_block_time := g_spoofed_block_time g |}.
Definition set_spoofed (g : ExtendedHeaderGenerator) (t : option (Z * Z)) : ExtendedHeaderGenerator :=
  {| g_chain_id := g_chain_id g; g_key := g_key g; g_current_header := g_current_header g;
     g_spoofed_block_time := t |}.

(** [new] with the random key [key]. *)
Definition generator_new (key : SigningKey) : ExtendedHeaderGenerator :=
  {| g_chain_id := str "private"; g_key := key; g_current_header := None; g_spoofed_block_time := None |}.

Definition new_from_height (key : SigningKey) (height : Z) (d : Draw) : res HeaderError ExtendedHeaderGenerator :=
  let prev_height := saturating_sub height 1 in
  let gen := generator_new key in
  if prev_height =? 0 then Ok (set_current gen None) else
  e ← generate_new prev_height (g_chain_id gen) (dr_now d) (g_key gen) None d;
  Ok (set_current gen (Some e)).

Definition get_and_increment_time (g : ExtendedHeaderGenerator) (d : Draw)
    : res HeaderError (ExtendedHeaderGenerator * Z) :=
  match g_spoofed_block_time g with
  | None => Ok (g, dr_now d)
  | Some (spoofed_time, block_time) =>
      timestamp ← expect (time_checked_add spoofed_time block_time);
      Ok (set_spoofed g (Some (timestamp, block_time)), timestamp)
  end.

(** The body of [next] and of [next_with_dah]. *)
Definition next_dah (g : ExtendedHeaderGenerator) (dah : option DataAvailabilityHeader) (d : Draw)
    : res HeaderError (ExtendedHeaderGenerator * ExtendedHeader) :=
  '(g, time) ← get_and_increment_time g d;
  header ← match g_current_header g with
           | Some header => generate_next 1 header time (g_key g) dah d
           | None => generate_new GENESIS_HEIGHT (g_chain_id g) time (g_key g) dah d
           end;
  Ok (set_current g (Some header), header).
Definition next (g : ExtendedHeaderGenerator) (d : Draw) := next_dah g None d.
Definition next_with_dah (g : ExtendedHeaderGenerator) (dah : DataAvailabilityHeader) (d : Draw) :=
  next_dah g (Some dah) d.

(** One draw for each header. *)
Fixpoint next_many (g : ExtendedHeaderGenerator) (ds : list Draw)
    : res HeaderError (ExtendedHeaderGenerator * list ExtendedHeader) :=
  match ds with
  | [] => Ok (g, [])
  | d :: ds => '(g, header) ← next g d; '(g, headers) ← next_many g ds; Ok (g, header :: headers)
  end.

(** [spoofed_block_time.map(|t| t.0).unwrap_or_else(Time::now)]. *)
Definition time_of (g : ExtendedHeaderGenerator) (d : Draw) : Z := default (dr_now d) (fst <$> g_spoofed_block_time g).
Definition next_of (g : ExtendedHeaderGenerator) (header : ExtendedHeader) (d : Draw) : res HeaderError ExtendedHeader :=
  generate_next 1 header (time_of g d) (g_key g) None d.
Definition next_of_with_dah (g : ExtendedHeaderGenerator) (header : ExtendedHeader) (dah : DataAvailabilityHeader)
    (d : Draw) : res HeaderError ExtendedHeader :=
  generate_next 1 header (time_of g d) (g_key g) (Some dah) d.
Fixpoint next_many_of (g : ExtendedHeaderGenerator) (header : ExtendedHeader) (ds : list Draw)
    : res HeaderError (list ExtendedHeader) :=
  match ds with
  | [] => Ok []
  | d :: ds => e ← next_of g header d; headers ← next_many_of g e ds; Ok (e :: headers)
  end.

Definition set_consensus (h : Header) (consensus : Hash) : Header :=
  {| version_block := version_block h; version_app := version_app h; h_chain_id := h_chain_id h;
     h_height := h_height h; h_time := h_time h; last_block_id := last_block_id h;
     last_commit_hash := last_commit_hash h; data_hash := data_hash h; validators_hash := validators_hash h;
     next_validators_hash := next_validators_hash h; consensus_hash := consensus; app_hash := app_hash h;
     last_results_hash := last_results_hash h; evidence_hash := evidence_hash h;
     proposer_address := proposer_address h |}.
Definition set_parts (c : Commit) (parts : Z * Hash) : Commit :=
  {| c_height := c_height c; c_round := c_round c;
     c_block_id := {| bid_hash := bid_hash (c_block_id c); bid_parts_total := parts.1; bid_parts_hash := parts.2 |};
     c_signatures := c_signatures c |}.
Definition another_of (g : ExtendedHeaderGenerator) (e : ExtendedHeader) (d : Draw) : res HeaderError ExtendedHeader :=
  parts ← expect (parts_header_new 1 (Sha256 (dr_parts d)));
  e ← hash_and_sign {| eh_header := set_consensus (eh_header e) (Sha256 (dr_consensus d));
                       eh_commit := set_parts (eh_commit e) parts; eh_validator_set := eh_validator_set e;
                       eh_dah := eh_dah e |} (g_key g);
  _ ← must_validate e;
  Ok e.

Definition skip (g : ExtendedHeaderGenerator) (amount : Z) (d : Draw) : res HeaderError ExtendedHeaderGenerator :=
  if amount =? 0 then Ok g else
  '(g, time) ← get_and_increment_time g d;
  header ← match g_current_header g with
           | Some header => generate_next amount header time (g_key g) None d
           | None => generate_new amount (g_chain_id g) time (g_key g) None d
           end;
  Ok (set_current g (Some header)).

Definition fork (g : ExtendedHeaderGenerator) : ExtendedHeaderGenerator := g.
Definition set_time (g : ExtendedHeaderGenerator) (time block_time : Z) : ExtendedHeaderGenerator :=
  set_spoofed g (Some (time, block_time)).
Definition reset_time (g : ExtendedHeaderGenerator) : ExtendedHeaderGenerator := set_spoofed g None.

(** ** invalidate and unverify *)

Definition set_dah (e : ExtendedHeader) (dah : DataAvailabilityHeader) : ExtendedHeader :=
  {| eh_header := eh_header e; eh_commit := eh_commit e; eh_validator_set := eh_validator_set e; eh_dah := dah |}.
(** [unwrap_err] panics on [Ok]. *)
Definition invalidate (e : ExtendedHeader) : res HeaderError ExtendedHeader :=
  let e := set_dah e {| row_roots := []; column_roots := [] |} in
  match eh_validate e with Err _ => Ok e | _ => Panic end.

Definition set_proposer (h : Header) (address : bytes) : Header :=
  {| version_block := version_block h; version_app := version_app h; h_chain_id := h_chain_id h;
     h_height := h_height h; h_time := h_time h; last_block_id := last_block_id h;
     last_commit_hash := last_commit_hash h; data_hash := data_hash h; validators_hash := validators_hash h;
     next_validators_hash := next_validators_hash h; consensus_hash := consensus_hash h; app_hash := app_hash h;
     last_results_hash := last_results_hash h; evidence_hash := evidence_hash h;
     proposer_address := address |}.
(** [key] is the new key, [dr_address d] the new address. *)
Definition unverify (e : ExtendedHeader) (key : SigningKey) (d : Draw) : res HeaderError ExtendedHeader :=
  was_invalidated ← (match eh_validate e with Ok _ => Ok false | Err _ => Ok true | Panic => Panic end);
  pub_key ← expect (from_raw_ed25519 (verification_key key));
  let validator_address := dr_address d in
  e ← hash_and_sign {| eh_header := set_proposer (eh_header e) validator_address; eh_commit := eh_commit e;
                       eh_validator_set := single_validator_set pub_key validator_address; eh_dah := eh_dah e |} key;
  if was_invalidated : bool then invalidate e else _ ← must_validate e; Ok e.

(** ** Lemmas *)

Context `{!TendermintSpec} `{!SigningSpec} `{!LeopardCodecSpec} `{!NmtExternalsSpec}.

(** The validator set of one signer. *)
Definition signer (key : SigningKey) (address : bytes) : Validator :=
  {| val_address := address; val_pub_key := verification_key key; val_power := 5000 |}.
Definition signer_set (key : SigningKey) (address : bytes) : ValidatorSet :=
  {| validators := [signer key address]; proposer := Some (signer key address); total_voting_power := 5000 |}.

Lemma single_set key address : single_validator_set (verification_key key) address = signer_set key address.
Proof. apply valset_new_single. Qed.

(** A header [e] with one signature for the set of [key], as [hash_and_sign] expects and leaves it. *)
Record signable (key : SigningKey) (e : ExtendedHeader) : Prop := {
  sg_set : ∃ a, eh_validator_set e = signer_set key a;
  sg_sig : ∃ a t s, c_signatures (eh_commit e) = [BlockIdFlagCommit a t s];
  sg_header : header_validate_basic (eh_header e) = Ok tt;
  sg_height : c_height (eh_commit e) = eh_height e;
  sg_parts : bid_parts_total (c_block_id (eh_commit e)) = 1;
  sg_app : version_app (eh_header e) = 1;
  sg_dah : dah_validate_basic (eh_dah e) V1 = Ok tt
}.

(** A header this key has made: valid, and announcing its own validators for the next block. *)
Record made_by (key : SigningKey) (e : ExtendedHeader) : Prop := {
  mb_valid : eh_validate e = Ok tt;
  mb_signable : signable key e;
  mb_next : next_validators_hash (eh_header e) = valset_hash (eh_validator_set e);
  mb_height : 1 ≤ eh_height e ≤ i64_max
}.

(** What is signed does not depend on the signature. *)
Lemma signed_vote c chain_id a t s : c_signatures c = [BlockIdFlagCommit a t s] →
  ∃ m, vote_sign_bytes c chain_id 0 = Ok m ∧
    ∀ s', vote_sign_bytes (set_signatures c [BlockIdFlagCommit a t s']) chain_id 0 = Ok m.
Proof.
  intros Hs. destruct validator_index_first as [i Hi].
  unfold vote_sign_bytes. rewrite Hs. cbn [lookup list_lookup ok_or mbind res_bind]. rewrite Hi. cbn [ok_or mbind res_bind].
  eexists. split; [done|]. intros s'.
  cbn [set_signatures c_signatures c_height c_round c_block_id lookup list_lookup ok_or mbind res_bind]. f_equal.
  exact (signable_vec_unsigned {| vote_height := c_height c; vote_round := c_round c; vote_block_id := Some (c_block_id c);
    vote_timestamp := Some t; vote_validator_address := a; vote_validator_index := i; vote_signature := s |} s' chain_id).
Qed.

(** The fields of the header that [hash_and_sign] sets, and the rest of it. *)
Definition rehashed (e e' : ExtendedHeader) : Prop :=
  eh_header e' = set_hashes (eh_header e) (valset_hash (eh_validator_set e)) (dah_hash (eh_dah e)) ∧
  c_block_id (eh_commit e') = {| bid_hash := header_hash (eh_header e');
    bid_parts_total := bid_parts_total (c_block_id (eh_commit e));
    bid_parts_hash := bid_parts_hash (c_block_id (eh_commit e)) |} ∧
  eh_validator_set e' = eh_validator_set e ∧ eh_dah e' = eh_dah e.

(** A vote with a valid signature of the only validator is accepted, also by a verifier that
    trusts that validator. *)
Lemma one_vote_light key a b t c chain_id m :
  c_signatures c = [BlockIdFlagCommit b t (Some (sign key m))] → vote_sign_bytes c chain_id 0 = Ok m →
  verify_commit_light (signer_set key a) chain_id (c_height c) c = Ok tt.
Proof.
  intros Hs Hm. unfold verify_commit_light. rewrite Hs, Z.eqb_refl. cbn [negb length signer_set validators Nat.eqb].
  cbv [voting_power_needed]. cbn [mbind res_bind numerator denominator total_voting_power].
  change (ok_or (checked_mul 2 5000) VotingPowerOverflow : res HeaderError Z) with (Ok 10000 : res HeaderError Z).
  cbn [mbind res_bind]. change (ok_or (checked_div 10000 3) VotingPowerDivision : res HeaderError Z) with (Ok 3333 : res HeaderError Z).
  cbn [mbind res_bind zip zip_with verify_commit_light_loop]. rewrite Hm. cbn [mbind res_bind].
  rewrite sign_verifies by done. reflexivity.
Qed.
Lemma one_vote_trusting key a t c chain_id m :
  c_signatures c = [BlockIdFlagCommit a t (Some (sign key m))] → vote_sign_bytes c chain_id 0 = Ok m →
  verify_commit_light_trusting (signer_set key a) chain_id c DEFAULT_TRUST_LEVEL = Ok tt.
Proof.
  intros Hs Hm. unfold verify_commit_light_trusting. rewrite Hs.
  change (voting_power_needed DEFAULT_TRUST_LEVEL (total_voting_power (signer_set key a))) with (Ok 1666 : res HeaderError Z).
  cbn [mbind res_bind verify_trusting_loop]. unfold find_validator. cbn [signer_set validators find_validator_from signer val_address].
  rewrite bool_decide_true by done. rewrite lookup_empty, Hm. cbn [mbind res_bind]. rewrite sign_verifies by done. reflexivity.
Qed.

(** What [hash_and_sign] does with a header that has one signature. *)
Lemma hash_and_sign_shape key e a t s : c_signatures (eh_commit e) = [BlockIdFlagCommit a t s] →
  ∃ e' m, hash_and_sign e key = Ok e' ∧ rehashed e e' ∧ c_height (eh_commit e') = c_height (eh_commit e) ∧
    c_signatures (eh_commit e') = [BlockIdFlagCommit a t (Some (sign key m))] ∧
    vote_sign_bytes (eh_commit e') (eh_chain_id e') 0 = Ok m.
Proof.
  intros Hsig. unfold hash_and_sign. set (hdr := set_hashes _ _ _). set (c := set_block_hash _ _).
  destruct (signed_vote c (h_chain_id hdr) a t s Hsig) as (m&Hm&Hm').
  rewrite Hm. cbn [expect_ok mbind res_bind]. unfold vec_index. change (c_signatures c) with (c_signatures (eh_commit e)).
  rewrite Hsig. cbn [lookup list_lookup expect mbind res_bind set_signature]. rewrite signature_new_sign. cbn [expect mbind res_bind].
  eexists _, m. split; [done|]. split; [by split_and!|]. split_and!; [done|done|apply Hm'].
Qed.

(** [hash_and_sign] on a header of the key makes it valid. *)
Lemma hash_and_sign_valid key e : signable key e → 1 ≤ eh_height e ≤ i64_max →
  ∃ e' a t m, hash_and_sign e key = Ok e' ∧ made_by key e' ∧ rehashed e e' ∧
    (∃ s, c_signatures (eh_commit e) = [BlockIdFlagCommit a t s]) ∧
    c_signatures (eh_commit e') = [BlockIdFlagCommit a t (Some (sign key m))] ∧
    vote_sign_bytes (eh_commit e') (eh_chain_id e') 0 = Ok m.
Proof.
  intros [[va Hset] (a&t&s&Hsig) Hh Hch Hp Happ Hd] Hr.
  destruct (hash_and_sign_shape key e a t s Hsig) as (e'&m&Hrun&(Hh'&Hb&Hs'&Hd')&Hc'&Hg&Hv).
  exists e', a, t, m. split_and!; [done| |done|by exists s|done|done].
  assert (header_validate_basic (eh_header e') = Ok tt) as Hhb by (rewrite Hh'; exact Hh).
  assert (eh_height e' = eh_height e) as Hhe by (unfold eh_height; by rewrite Hh').
  assert (bid_parts_total (c_block_id (eh_commit e')) = 1) as Hp' by (rewrite Hb; exact Hp).
  assert (version_app (eh_header e') = 1) as Happ' by (rewrite Hh'; exact Happ).
  split; [|split|by rewrite Hh', Hs'|lia]; [|exists va; congruence|by eexists _, _, _|done|lia|done|done|by rewrite Hd'].
  unfold eh_validate. rewrite Hhb. cbn [mbind res_bind].
  assert (commit_validate_basic (eh_commit e') = Ok tt) as ->.
  { unfold commit_validate_basic, is_zero. rewrite Hp', andb_false_r, Hg. cbn [length Nat.eqb commit_sigs_validate
      commit_sig_validate_basic]. rewrite length_sign. by case_ifs. }
  cbn [mbind res_bind]. rewrite Hs'. assert (valset_validate_basic (eh_validator_set e) = Ok tt) as -> by by rewrite Hset.
  cbn [mbind res_bind]. rewrite !bool_decide_true; [|by rewrite Hh'|by rewrite Hh', Hd'|unfold eh_hash; by rewrite Hb].
  cbn [ensure mbind res_bind]. rewrite (proj2 (Z.eqb_eq _ _)) by lia. cbn [ensure mbind res_bind].
  rewrite Hset. replace (eh_height e') with (c_height (eh_commit e')) by lia.
  rewrite (one_vote_light key va a t (eh_commit e') (h_chain_id (eh_header e')) m Hg Hv). cbn [mbind res_bind].
  unfold eh_app_version. rewrite Happ'. change (AppVersion_from_u64 1) with (Some V1). cbn [ok_or mbind res_bind].
  by rewrite Hd', Hd.
Qed.

(** The header of an empty block is valid. *)
Lemma dah_or_empty_spec dah : (∀ d, dah = Some d → dah_validate_basic d V1 = Ok tt) →
  ∃ d, dah_or_empty dah = Ok d ∧ dah_validate_basic d V1 = Ok tt.
Proof.
  intros Hd. destruct dah as [d|]; [by exists d; auto|]. unfold dah_or_empty, eds_empty, empty_ods.
  change (InfoByte_new 0 true) with (Ok 1 : res TypesError Z). cbn [expect_ok mbind res_bind].
  set (share := TAIL_PADDING ++ [1] ++ repeat 0 (SHARE_SIZE - NS_SIZE - 1)).
  assert (are_bytes share) as Hb.
  { apply (bool_decide_eq_true_1 (Forall (λ b, 0 ≤ b ≤ 255) share)). vm_compute. reflexivity. }
  destruct (from_ods_spec 1 [share] V1) as (eds&He&Hwf&_).
  { split; [done|split; [lia|by exists 0%nat]| |lia|lia].
    constructor; [|done]. split; [split; [done|exact Hb]|]. right. by exists 254. }
  rewrite He. cbn [expect_ok mbind res_bind].
  destruct (dah_from_eds_correct V1 eds Hwf) as (d&Hd'&Hv&_). exists d. by rewrite Hd'.
Qed.

(** What is filled in is signable. *)
Lemma unsigned_header_spec key v_block chain_id height time last_id a va dah d :
  (∀ x, dah = Some x → dah_validate_basic x V1 = Ok tt) →
  v_block = BLOCK_PROTOCOL → (length chain_id ≤ MAX_CHAIN_ID_LEN)%nat → 1 ≤ height →
  (height = 1 ↔ last_id = None) →
  ∃ e, unsigned_header v_block 1 chain_id height time last_id a (signer_set key va) dah d = Ok e ∧ signable key e ∧
    h_height (eh_header e) = height ∧ h_time (eh_header e) = time ∧ h_chain_id (eh_header e) = chain_id ∧
    last_block_id (eh_header e) = last_id ∧ eh_validator_set e = signer_set key va ∧
    c_signatures (eh_commit e) = [BlockIdFlagCommit a time None].
Proof.
  intros Hdah -> Hc Hh Hl. destruct (dah_or_empty_spec dah Hdah) as (x&Hx&Hv). unfold unsigned_header.
  rewrite parts_header_new_one. cbn [expect mbind res_bind]. rewrite Hx. cbn [mbind res_bind].
  eexists. split; [done|]. split; [|done]. split; [by exists va|by eexists _, _, _| |done|done|done|exact Hv].
  unfold header_validate_basic. cbn [eh_header version_block h_chain_id h_height last_block_id].
  rewrite Z.eqb_refl. cbn [negb]. rewrite (proj2 (Nat.ltb_ge _ _)) by lia. rewrite (proj2 (Z.eqb_neq _ _)) by lia.
  unfold GENESIS_HEIGHT. destruct (Z.eqb_spec height 1) as [E|E]; cbn [andb negb].
  - rewrite (proj1 Hl E). by rewrite bool_decide_false by (by intros []).
  - rewrite (bool_decide_false (last_id = None)) by tauto. done.
Qed.

Lemma random_block_id_Ok d : ∃ id, random_block_id d = Ok id.
Proof. unfold random_block_id. rewrite parts_header_new_one. by eexists. Qed.

Lemma generate_new_spec height chain_id time key dah d : 1 ≤ height ≤ i64_max →
  (∀ x, dah = Some x → dah_validate_basic x V1 = Ok tt) → (length chain_id ≤ MAX_CHAIN_ID_LEN)%nat →
  ∃ e, generate_new height chain_id time key dah d = Ok e ∧ made_by key e ∧ eh_height e = height ∧
    eh_time e = time ∧ eh_chain_id e = chain_id.
Proof.
  intros Hh Hdah Hc. unfold generate_new, GENESIS_HEIGHT. rewrite (proj2 (Z.leb_le _ _)) by lia. cbn [negb].
  rewrite from_raw_key. cbn [expect mbind res_bind]. rewrite single_set.
  assert (∃ o, (if height =? 1 then Ok None else Some <$> random_block_id d) = (Ok o : res HeaderError _) ∧
    (height = 1 ↔ o = None)) as (o&->&Ho).
  { destruct (Z.eqb_spec height 1); [by exists None|]. destruct (random_block_id_Ok d) as [id ->]. by exists (Some id). }
  cbn [mbind res_bind]. rewrite height_try_from_Some by lia. cbn [expect mbind res_bind].
  destruct (unsigned_header_spec key BLOCK_PROTOCOL chain_id height time o (dr_address d) (dr_address d) dah d)
    as (e&->&Hs&He&Ht&Hch&_&_&_); [done|done|done|lia|done|]. cbn [mbind res_bind].
  destruct (hash_and_sign_valid key e Hs) as (e'&_&_&_&->&Hm&(Hh'&_)&_); [unfold eh_height; lia|].
  cbn [mbind res_bind]. unfold must_validate. rewrite (mb_valid _ _ Hm). cbn [expect_ok mbind res_bind].
  exists e'. split; [done|]. unfold eh_height, eh_time, eh_chain_id. rewrite Hh'. by split_and!.
Qed.

(** The times at which [generate_next] makes a header after [e]. *)
Definition time_fits (e : ExtendedHeader) (time : Z) (d : Draw) : Prop :=
  eh_time e < time < dr_verify_now d + VERIFY_CLOCK_DRIFT ∧
  is_Some (time_checked_add (dr_verify_now d) VERIFY_CLOCK_DRIFT).

Lemma made_by_chain_id key e : made_by key e → (length (eh_chain_id e) ≤ MAX_CHAIN_ID_LEN)%nat ∧
  version_block (eh_header e) = BLOCK_PROTOCOL.
Proof.
  intros [_ [_ _ Hh _ _ _ _] _ _]. unfold header_validate_basic in Hh.
  destruct (Z.eqb_spec (version_block (eh_header e)) BLOCK_PROTOCOL); [|done]. cbn [negb] in Hh.
  destruct (Nat.ltb_spec MAX_CHAIN_ID_LEN (length (h_chain_id (eh_header e)))); [done|]. by unfold eh_chain_id.
Qed.

Lemma generate_next_spec increment current time key dah d : made_by key current →
  0 < increment → eh_height current + increment ≤ i64_max → time_fits current time d →
  (∀ x, dah = Some x → dah_validate_basic x V1 = Ok tt) →
  ∃ e, generate_next increment current time key dah d = Ok e ∧ made_by key e ∧
    eh_height e = eh_height current + increment ∧ eh_time e = time ∧ eh_chain_id e = eh_chain_id current ∧
    eh_verify (dr_verify_now d) current e = Ok tt ∧ (increment = 1 → linked current [e]).
Proof.
  intros Hcur Hi Hmax [Htime Hnow] Hdah. destruct (made_by_chain_id key current Hcur) as [Hcid Hver].
  destruct Hcur as [Hval [[va Hset] Hsig0 Hhb Hch0 Hp0 Happ0 _] Hnext Hht]. unfold generate_next.
  rewrite (proj2 (Z.ltb_lt _ _)) by lia. cbn [negb].
  assert (vec_index (validators (eh_validator_set current)) 0 = (Ok (signer key va) : res HeaderError _)) as ->
    by (by rewrite Hset). cbn [mbind res_bind signer val_address].
  rewrite u64_add_Ok by (unfold eh_height, i64_max, u64_max in *; lia). cbn [mbind res_bind].
  rewrite height_try_from_Some by (unfold eh_height in *; lia). cbn [expect mbind res_bind].
  destruct (random_block_id_Ok d) as [rid Hrid].
  assert (∃ id, (if increment =? 1 then Ok (c_block_id (eh_commit current)) else random_block_id d) = Ok id ∧
    (increment = 1 → id = c_block_id (eh_commit current))) as (id&->&Hid).
  { destruct (Z.eqb_spec increment 1); [by eexists|]. rewrite Hrid. by eexists. }
  cbn [mbind res_bind]. rewrite Happ0, Hset.
  destruct (unsigned_header_spec key (version_block (eh_header current)) (h_chain_id (eh_header current))
    (h_height (eh_header current) + increment) time (Some id) va va dah d)
    as (e0&->&Hs&He&Ht&Hch&Hlast&Hset0&Hsig); [done|done|exact Hcid|unfold eh_height in *; lia|
      split; [unfold eh_height in *; lia|done]|].
  cbn [mbind res_bind].
  destruct (hash_and_sign_valid key e0 Hs) as (e&a&t&m&->&Hm&(Hh'&Hbid&Hse&_)&[s Ha]&Hsg&Hvs); [unfold eh_height in *; lia|].
  cbn [mbind res_bind]. unfold must_validate. rewrite (mb_valid _ _ Hm). cbn [expect_ok mbind res_bind].
  rewrite Hsig in Ha. injection Ha as <- <- _.
  assert (eh_height e = eh_height current + increment) as Hhe by (unfold eh_height; by rewrite Hh').
  assert (eh_time e = time) as Hte by (unfold eh_time; by rewrite Hh').
  assert (eh_chain_id e = eh_chain_id current) as Hce by (unfold eh_chain_id; by rewrite Hh').
  assert (increment = 1 → linked current [e]) as Hlink.
  { intros ->. split_and!; [done|..|lia|done].
    - unfold last_header_hash, eh_hash. rewrite Hh'. cbn [set_hashes last_block_id]. rewrite Hlast. cbn. by rewrite Hid.
    - rewrite Hh', Hnext, Hset. cbn [set_hashes validators_hash]. by rewrite Hset0.
    - done. }
  assert (eh_verify (dr_verify_now d) current e = Ok tt) as Hver'.
  { destruct (Z.eq_dec increment 1) as [->|Hn].
    - apply eh_verify_linked; [done|lia|by apply Hlink|lia].
    - destruct Hnow as [until Hu]. unfold eh_verify. rewrite (proj2 (Z.leb_gt _ _)) by lia.
      rewrite Hce, bool_decide_true by done. rewrite (proj2 (Z.ltb_lt _ _)) by lia. cbn [negb]. rewrite Hu.
      apply time_checked_add_Some in Hu as ->. cbn [expect mbind res_bind]. rewrite (proj2 (Z.ltb_lt _ _)) by lia.
      cbn [negb]. destruct (height_increment_total (eh_height current)) as [h1 Hh1]; [lia|]. rewrite Hh1.
      apply height_increment_Some in Hh1 as ->. cbn [expect mbind res_bind]. rewrite (proj2 (Z.eqb_neq _ _)) by lia.
      rewrite Hset. apply (one_vote_trusting key va time _ _ m); [done|by rewrite <- Hce]. }
  rewrite Hver'. cbn [expect_ok mbind res_bind]. exists e. by split_and!.
Qed.

(** ** Chains *)

(** The state of a generator between calls. *)
Definition gen_ok (g : ExtendedHeaderGenerator) : Prop :=
  (length (g_chain_id g) ≤ MAX_CHAIN_ID_LEN)%nat ∧
  ∀ e, g_current_header g = Some e → made_by (g_key g) e ∧ eh_chain_id e = g_chain_id g.
(** The height of the last header, 0 before the first. *)
Definition gen_height (g : ExtendedHeaderGenerator) : Z := default 0 (eh_height <$> g_current_header g).

(** The time of the next header, and what is left of the set time after it. *)
Definition stamp (spoofed : option (Z * Z)) (d : Draw) : Z :=
  match spoofed with None => dr_now d | Some (t, b) => t + b end.
Definition spoofed_after (spoofed : option (Z * Z)) : option (Z * Z) := (λ '(t, b), (t + b, b)) <$> spoofed.

(** The clock, or the time that was set, goes up from header to header and is not ahead of the
    clock that [verify] reads. *)
Definition stamp_ok (last : option Z) (spoofed : option (Z * Z)) (d : Draw) : Prop :=
  (∀ t, last = Some t → t < stamp spoofed d) ∧ stamp spoofed d < dr_verify_now d + VERIFY_CLOCK_DRIFT ∧
  is_Some (time_checked_add (dr_verify_now d) VERIFY_CLOCK_DRIFT) ∧
  (∀ t b, spoofed = Some (t, b) → is_Some (time_checked_add t b)).
Fixpoint stamps_ok (last : option Z) (spoofed : option (Z * Z)) (ds : list Draw) : Prop :=
  match ds with
  | [] => True
  | d :: ds => stamp_ok last spoofed d ∧ stamps_ok (Some (stamp spoofed d)) (spoofed_after spoofed) ds
  end.
Definition gen_time (g : ExtendedHeaderGenerator) : option Z := eh_time <$> g_current_header g.

Lemma get_time_spec g d : stamp_ok (gen_time g) (g_spoofed_block_time g) d →
  get_and_increment_time g d =
    Ok (set_spoofed g (spoofed_after (g_spoofed_block_time g)), stamp (g_spoofed_block_time g) d).
Proof.
  intros (_&_&_&Hs). unfold get_and_increment_time. destruct (g_spoofed_block_time g) as [[t b]|] eqn:E.
  - destruct (Hs t b eq_refl) as [u Hu]. rewrite Hu. by apply time_checked_add_Some in Hu as ->.
  - destruct g. cbn in *. by subst.
Qed.

(** One call of [next] or [next_with_dah]. *)
Lemma next_dah_spec g dah d : gen_ok g → gen_height g < i64_max →
  stamp_ok (gen_time g) (g_spoofed_block_time g) d → (∀ x, dah = Some x → dah_validate_basic x V1 = Ok tt) →
  ∃ g' e, next_dah g dah d = Ok (g', e) ∧ gen_ok g' ∧ g_current_header g' = Some e ∧ eh_validate e = Ok tt ∧
    eh_height e = gen_height g + 1 ∧ eh_time e = stamp (g_spoofed_block_time g) d ∧
    g_spoofed_block_time g' = spoofed_after (g_spoofed_block_time g) ∧
    (∀ e0, g_current_header g = Some e0 → linked e0 [e]).
Proof.
  intros [Hc Hcur] Hh Hst Hdah. unfold next_dah. rewrite get_time_spec by done. cbn [mbind res_bind].
  destruct Hst as (Hlast&Hfut&Hclk&_). unfold gen_height, gen_time in *. cbn [g_current_header set_spoofed g_key g_chain_id].
  destruct (g_current_header g) as [e0|] eqn:E.
  - destruct (Hcur e0 eq_refl) as [Hm He]. cbn [fmap option_fmap option_map from_option id] in *.
    destruct (generate_next_spec 1 e0 (stamp (g_spoofed_block_time g) d) (g_key g) dah d Hm)
      as (e&->&Hm'&Hhe&Hte&Hce&_&Hl); [lia|lia|split; [split; [by apply Hlast|done]|done]|done|].
    cbn [mbind res_bind]. eexists _, e. split; [done|].
    split; [split; [exact Hc|intros e' [= <-]; cbn; split; [done|congruence]]|].
    split_and!; try done; [apply (mb_valid _ _ Hm')|]. intros e' [= <-]. by apply Hl.
  - destruct (generate_new_spec GENESIS_HEIGHT (g_chain_id g) (stamp (g_spoofed_block_time g) d) (g_key g) dah d)
      as (e&->&Hm'&Hhe&Hte&Hce); [done|done|done|].
    cbn [mbind res_bind]. eexists _, e. split; [done|].
    split; [split; [exact Hc|by intros e' [= <-]]|]. split_and!; try done. apply (mb_valid _ _ Hm').
Qed.

Lemma next_many_spec g ds : gen_ok g → gen_height g + Z.of_nat (length ds) ≤ i64_max →
  stamps_ok (gen_time g) (g_spoofed_block_time g) ds →
  ∃ g' headers, next_many g ds = Ok (g', headers) ∧ gen_ok g' ∧ length headers = length ds ∧
    Forall (λ e, eh_validate e = Ok tt) headers ∧
    (∀ k e, headers !! k = Some e → eh_height e = gen_height g + 1 + Z.of_nat k) ∧
    match g_current_header g with
    | Some e0 => linked e0 headers
    | None => match headers with [] => True | e :: rest => linked e rest end
    end.
Proof.
  revert g; induction ds as [|d ds IH]; intros g Hg Hh Hst; cbn [next_many].
  - exists g, []. split_and!; try done. by destruct (g_current_header g).
  - cbn [length stamps_ok] in *. destruct Hst as [Hst Hsts].
    destruct (next_dah_spec g None d Hg) as (g1&e&Hrun&Hg1&Hcur&Hval&Hhe&Hte&Hsp&Hl); [lia|done|done|].
    unfold next. rewrite Hrun. cbn [mbind res_bind].
    assert (gen_height g1 = eh_height e) as Hgh by (unfold gen_height; by rewrite Hcur).
    destruct (IH g1 Hg1) as (g2&headers&->&Hg2&Hlen&Hvs&Hhs&Hlk); [lia|unfold gen_time; rewrite Hcur, Hsp; cbn; by rewrite Hte|].
    rewrite Hcur in Hlk. cbn [mbind res_bind]. exists g2, (e :: headers). split_and!; [done|done|cbn; lia|by constructor| |].
    + intros [|k] x; [intros [= <-]; lia|]. intros Hk. rewrite (Hhs k x Hk). lia.
    + destruct (g_current_header g) as [e0|]; [|done]. apply (linked_app e0 [e] headers). split; [by apply Hl|exact Hlk].
Qed.

(** Any header of a linked list is linked to those after it. *)
Lemma linked_suffix (e0 : ExtendedHeader) l1 e l2 : linked e0 (l1 ++ e :: l2) → linked e l2.
Proof. intros [_ Hl]%linked_app. by destruct Hl as (_&_&_&_&_&Hl). Qed.

(** [next_many] on a generator made by [new], [new_from_height], [set_time] and earlier calls
    never panics while the clock goes up: it returns as many headers as asked for, at
    consecutive heights after the last one, each valid, and each of them verifies all that
    follow. *)
Theorem generated_chain_verifies g ds : gen_ok g → gen_height g + Z.of_nat (length ds) < i64_max →
  stamps_ok (gen_time g) (g_spoofed_block_time g) ds →
  ∃ g' headers, next_many g ds = Ok (g', headers) ∧ gen_ok g' ∧ length headers = length ds ∧
    Forall (λ e, eh_validate e = Ok tt) headers ∧
    (∀ k e, headers !! k = Some e → eh_height e = gen_height g + 1 + Z.of_nat k) ∧
    (∀ now e l1 l2, option_list (g_current_header g) ++ headers = l1 ++ e :: l2 → clock_ok now →
       Forall (λ e, ∀ i, eh_time e < now i + VERIFY_CLOCK_DRIFT) l2 → verify_adjacent_range now e l2 = Ok tt).
Proof.
  intros Hg Hh Hst. destruct (next_many_spec g ds Hg) as (g'&headers&Hrun&Hg'&Hlen&Hv&Hhs&Hl); [lia|done|].
  exists g', headers. split_and!; try done. intros now e l1 l2 Heq Hclk Ht.
  assert (∀ x, x ∈ option_list (g_current_header g) ++ headers → 0 ≤ eh_height x < i64_max) as Hb.
  { intros x [Hx|Hx]%elem_of_app.
    - destruct (g_current_header g) as [e0|] eqn:E; [|by apply elem_of_nil in Hx].
      apply list_elem_of_singleton in Hx as ->. destruct Hg as [_ Hc]. destruct (Hc e0 E) as [[_ _ _ ?] _].
      unfold gen_height in Hh. rewrite E in Hh. cbn in Hh. lia.
    - apply list_elem_of_lookup in Hx as [k Hk]. rewrite (Hhs k x Hk). apply lookup_lt_Some in Hk.
      assert (0 ≤ gen_height g); [|lia]. unfold gen_height. destruct (g_current_header g) as [e0|] eqn:E; [|done].
      destruct Hg as [_ Hc]. destruct (Hc e0 E) as [[_ _ _ ?] _]. cbn. lia. }
  apply verify_adjacent_range_complete; [done| | |done].
  - apply Forall_forall. intros x Hx. apply Hb. rewrite Heq. apply elem_of_app. by right.
  - destruct (g_current_header g) as [e0|]; cbn in Heq.
    + destruct l1 as [|y l1]; injection Heq as -> ->; [done|]. by apply (linked_suffix y l1 e).
    + destruct headers as [|y rest]; [by destruct l1|]. destruct l1 as [|z l1]; injection Heq as -> ->; [done|].
      by apply (linked_suffix z l1 e).
Qed.

(** ** Starting and skipping *)

Lemma new_ok key : gen_ok (generator_new key).
Proof. split; [by apply Nat.leb_le|done]. Qed.

(** A generator made for a height starts there (at 1 for 0), and a skip leaves the last header
    where it should be; the header before the gap verifies the one after it. *)
Theorem generator_heights key d :
  (∀ height, 0 ≤ height ≤ i64_max → ∃ g, new_from_height key height d = Ok g ∧ gen_ok g ∧
     gen_height g + 1 = Z.max 1 height) ∧
  (∀ g amount, gen_ok g → 0 < amount → gen_height g + amount ≤ i64_max →
     stamp_ok (gen_time g) (g_spoofed_block_time g) d →
     ∃ g' e, skip g amount d = Ok g' ∧ gen_ok g' ∧ gen_height g' = gen_height g + amount ∧
       g_current_header g' = Some e ∧
       ∀ e0, g_current_header g = Some e0 → eh_verify (dr_verify_now d) e0 e = Ok tt).
Proof.
  split.
  - intros height Hh. unfold new_from_height, saturating_sub.
    destruct (new_ok key) as [Hc _]. destruct (Z.ltb_spec height 1) as [Hlt|Hge].
    { eexists. split; [done|]. split; [by split|]. cbn. lia. }
    destruct (Z.eqb_spec (height - 1) 0); [eexists; split; [done|]; split; [by split|]; cbn; lia|].
    destruct (generate_new_spec (height - 1) (g_chain_id (generator_new key)) (dr_now d) key None d)
      as (e&He&Hm&Hhe&_&Hce); [lia|done|done|].
    change (g_key (generator_new key)) with key. rewrite He. cbn [mbind res_bind].
    eexists. split; [done|]. split; [split; [done|by intros e' [= <-]]|]. cbn. lia.
  - intros g amount [Hc Hcur] Ha Hh Hst. unfold skip. rewrite (proj2 (Z.eqb_neq _ _)) by lia.
    rewrite get_time_spec by done. cbn [mbind res_bind]. destruct Hst as (Hlast&Hfut&Hclk&_).
    unfold gen_height, gen_time in *. cbn [g_current_header set_spoofed g_key g_chain_id].
    destruct (g_current_header g) as [e0|] eqn:E; cbn [fmap option_fmap option_map from_option id] in *.
    + destruct (Hcur e0 eq_refl) as [Hm He].
      destruct (generate_next_spec amount e0 (stamp (g_spoofed_block_time g) d) (g_key g) None d Hm)
        as (e&->&Hm'&Hhe&_&Hce&Hv&_); [lia|lia|split; [split; [by apply Hlast|done]|done]|done|].
      cbn [mbind res_bind]. eexists _, e. split; [done|].
      split; [split; [exact Hc|intros e' [= <-]; cbn; split; [done|congruence]]|].
      split_and!; [cbn; lia|done|]. by intros e' [= <-].
    + destruct (generate_new_spec amount (g_chain_id g) (stamp (g_spoofed_block_time g) d) (g_key g) None d)
        as (e&->&Hm'&Hhe&_&Hce); [lia|done|done|]. cbn [mbind res_bind]. eexists _, e. split; [done|].
      split; [split; [exact Hc|by intros e' [= <-]]|]. split_and!; [cbn; lia|done|done].
Qed.

(** ** Time that stands still *)

Lemma generate_next_time increment current time key dah d e :
  generate_next increment current time key dah d = Ok e → eh_time current < eh_time e ∧ eh_time e = time.
Proof.
  unfold generate_next. destruct (negb (0 <? increment)); [done|]. intros Hrun.
  apply bind_Ok in Hrun as (v0&_&Hrun). apply bind_Ok in Hrun as (h0&_&Hrun). apply bind_Ok in Hrun as (h1&_&Hrun).
  apply bind_Ok in Hrun as (l0&_&Hrun). apply bind_Ok in Hrun as (e0&He0&Hrun). apply bind_Ok in Hrun as (e1&He1&Hrun).
  apply bind_Ok in Hrun as ([]&_&Hrun). apply bind_Ok in Hrun as ([]&Hv&Hrun). injection Hrun as ->.
  apply expect_ok_Ok, eh_verify_Ok in Hv as (_&_&[Ht _]&_). split; [done|].
  unfold unsigned_header in He0. apply bind_Ok in He0 as ([to ha]&_&He0). apply bind_Ok in He0 as (x&_&[= <-]).
  unfold hash_and_sign in He1. apply bind_Ok in He1 as (y&_&He1). apply bind_Ok in He1 as (z&_&He1).
  by apply bind_Ok in He1 as (u&_&[= <-]).
Qed.

(** All methods panic instead of returning an error. *)
Definition never_err {A} (c : res HeaderError A) : Prop := ∀ e, c ≠ Err e.
Lemma never_err_bind {A B} (c : res HeaderError A) (k : A → res HeaderError B) :
  never_err c → (∀ a, never_err (k a)) → never_err (c ≫= k).
Proof. intros Hc Hk. destruct c as [a|e|]; [apply Hk|by destruct (Hc e)|done]. Qed.
Lemma never_err_expect {A} (o : option A) : never_err (expect o).
Proof. by destruct o. Qed.
Lemma never_err_expect_ok {E A} (c : res E A) : never_err (expect_ok c).
Proof. by destruct c. Qed.
Ltac no_err :=
  repeat first [ done | apply never_err_bind; intros | apply never_err_expect | apply never_err_expect_ok
               | match goal with |- never_err (match ?x with _ => _ end) => destruct x end ].
Lemma generate_next_never_err increment current time key dah d : never_err (generate_next increment current time key dah d).
Proof.
  unfold generate_next, vec_index, u64_add, random_block_id, unsigned_header, dah_or_empty, hash_and_sign, must_validate, set_signature.
  no_err.
Qed.
Lemma next_many_of_never_err g e ds : never_err (next_many_of g e ds).
Proof.
  revert e; induction ds as [|d ds IH]; intros e; [done|]. cbn [next_many_of].
  apply never_err_bind; [apply generate_next_never_err|]. intros a. apply never_err_bind; [apply IH|done].
Qed.
Lemma never_err_panic {A} (c : res HeaderError A) : never_err c → (∀ a, c ≠ Ok a) → c = Panic.
Proof. intros He Ha. destruct c as [a|e|]; [by destruct (Ha a)|by destruct (He e)|done]. Qed.

(** A header made with given roots has them. *)
Lemma signed_dah v_block v_app chain_id h time last_id a set dah d e0 e key :
  unsigned_header v_block v_app chain_id h time last_id a set (Some dah) d = Ok e0 → hash_and_sign e0 key = Ok e → eh_dah e = dah.
Proof.
  intros He0 He. unfold unsigned_header in He0. apply bind_Ok in He0 as ([to ha]&_&He0). apply bind_Ok in He0 as (x&[= <-]&[= <-]).
  unfold hash_and_sign in He. apply bind_Ok in He as (y&_&He). apply bind_Ok in He as (z&_&He). by apply bind_Ok in He as (u&_&[= <-]).
Qed.
Lemma next_with_dah_roots g dah d g' e : next_with_dah g dah d = Ok (g', e) → eh_dah e = dah.
Proof.
  unfold next_with_dah, next_dah. intros Hrun. apply bind_Ok in Hrun as ([g1 t]&_&Hrun). apply bind_Ok in Hrun as (x&Hx&[= _ <-]).
  destruct (g_current_header g1) as [cur|].
  - unfold generate_next in Hx. destruct (negb (0 <? 1)); [done|].
    apply bind_Ok in Hx as (v0&_&Hx). apply bind_Ok in Hx as (h0&_&Hx). apply bind_Ok in Hx as (h1&_&Hx).
    apply bind_Ok in Hx as (l0&_&Hx). apply bind_Ok in Hx as (e0&He0&Hx). apply bind_Ok in Hx as (e1&He1&Hx).
    apply bind_Ok in Hx as ([]&_&Hx). apply bind_Ok in Hx as ([]&_&[= <-]). by eapply signed_dah.
  - unfold generate_new in Hx. destruct (negb (GENESIS_HEIGHT <=? GENESIS_HEIGHT)); [done|].
    apply bind_Ok in Hx as (v0&_&Hx). apply bind_Ok in Hx as (h0&_&Hx). apply bind_Ok in Hx as (h1&_&Hx).
    apply bind_Ok in Hx as (e0&He0&Hx). apply bind_Ok in Hx as (e1&He1&Hx). apply bind_Ok in Hx as ([]&_&[= <-]).
    by eapply signed_dah.
Qed.

(** While a time is set, [next_of] gives every header that same time: it panics on a header
    that is not older, and [next_many_of] panics whenever it is asked for two headers or more. *)
Theorem next_of_set_time_panics g t b header d ds : g_spoofed_block_time g = Some (t, b) →
  (t ≤ eh_time header → next_of g header d = Panic) ∧
  ((2 ≤ length ds)%nat → next_many_of g header ds = Panic).
Proof.
  intros Hs. assert (∀ h d e, next_of g h d = Ok e → eh_time h < t ∧ eh_time e = t) as Hn.
  { intros h d' e He. unfold next_of in He. assert (time_of g d' = t) as Ht by (unfold time_of; by rewrite Hs). rewrite Ht in He.
    apply generate_next_time in He as [??]. lia. }
  split.
  - intros Ht. apply never_err_panic; [apply generate_next_never_err|]. intros e He. apply Hn in He as [??]. lia.
  - intros Hl. apply never_err_panic; [apply next_many_of_never_err|]. intros l Hrun. destruct ds as [|d1 [|d2 ds]]; cbn in Hl; [lia|lia|]. cbn [next_many_of] in Hrun.
    apply bind_Ok in Hrun as (e1&He1&Hrun). apply bind_Ok in Hrun as (l1&Hl1&_).
    apply bind_Ok in Hl1 as (e2&He2&_). apply Hn in He1 as [_ Ht1]. apply Hn in He2 as [Ht2 _]. lia.
Qed.

(** Without a set time, [next_many_of] continues any header of the key, and leaves the generator
    alone. *)
Lemma next_many_of_spec g e0 ds : made_by (g_key g) e0 → g_spoofed_block_time g = None →
  eh_height e0 + Z.of_nat (length ds) ≤ i64_max → stamps_ok (Some (eh_time e0)) None ds →
  ∃ headers, next_many_of g e0 ds = Ok headers ∧ length headers = length ds ∧ linked e0 headers ∧
    Forall (λ e, eh_validate e = Ok tt) headers.
Proof.
  intros Hm Hs. revert e0 Hm; induction ds as [|d ds IH]; intros e0 Hm Hh Hst; [by exists []|].
  cbn [stamps_ok stamp spoofed_after fmap option_fmap option_map length] in *.
  destruct Hst as [(Hlast&Hfut&Hclk&_) Hst]. cbn [stamp] in Hlast, Hfut.
  destruct (generate_next_spec 1 e0 (dr_now d) (g_key g) None d Hm) as (e&He&Hm'&Hhe&Hte&_&_&Hl);
    [lia|lia|split; [split; [by apply Hlast|done]|done]|done|].
  cbn [next_many_of]. unfold next_of, time_of. rewrite Hs. cbn [fmap option_fmap option_map from_option]. rewrite He.
  cbn [mbind res_bind]. destruct (IH e Hm') as (l&Hrun&Hlen&Hlk&Hv); [lia|by rewrite Hte|].
 rewrite Hrun. cbn [mbind res_bind].
  exists (e :: l). split_and!; [done|cbn; lia| |constructor; [apply (mb_valid _ _ Hm')|done]].
  apply (linked_app e0 [e] l). split; [by apply Hl|done].
Qed.

(** ** Breaking a header *)

Lemma vote_sign_bytes_no_panic c chain_id i : vote_sign_bytes c chain_id i ≠ Panic.
Proof. unfold vote_sign_bytes. destruct (c_signatures c !! i) as [[]|]; cbn; try done; by destruct (validator_index_try_from i). Qed.

Lemma light_loop_no_panic c chain_id needed i l tallied :
  Forall (λ x, 0 ≤ val_power x.1) l → 0 ≤ tallied → tallied + power_sum l.*1 ≤ u64_max →
  verify_commit_light_loop c chain_id needed i l tallied ≠ Panic.
Proof.
  intros Hl. revert i tallied; induction Hl as [|[v s] l Hv Hl IH]; intros i tallied Ht Hsum; [done|].
  change (0 ≤ val_power v) in Hv. change (tallied + (val_power v + power_sum l.*1) ≤ u64_max) in Hsum.
  assert (0 ≤ power_sum l.*1) as Hp.
  { clear -Hl. induction Hl as [|x l Hx Hl IH]; [done|]. change (0 ≤ val_power x.1 + power_sum l.*1). lia. }
  cbn [verify_commit_light_loop]. destruct s as [|a t [sig|]|a t sig]; [apply IH; lia| |done|apply IH; lia].
  pose proof (vote_sign_bytes_no_panic c chain_id i). destruct (vote_sign_bytes c chain_id i); [|done|done].
  cbn [mbind res_bind ensure]. unfold ensure. case_ifs; [|done..]; cbn [mbind res_bind]; rewrite u64_add_Ok by lia;
    cbn [mbind res_bind]; case_ifs; [done|]; apply IH; lia.
Qed.
Lemma light_no_panic s chain_id height c : valset_wf s → verify_commit_light s chain_id height c ≠ Panic.
Proof.
  intros (Hpos&Htot&Hmax). unfold verify_commit_light. case_ifs; [done|done|].
  unfold voting_power_needed. destruct (checked_mul _ _); [|done]. cbn [ok_or mbind res_bind].
  destruct (checked_div _ _) as [n|]; [|done]. cbn [ok_or mbind res_bind].
  apply light_loop_no_panic; [|done|].
  - apply Forall_forall. intros [v g] Hin. apply elem_of_zip_l in Hin. rewrite Forall_forall in Hpos. by apply Hpos.
  - rewrite fst_zip by (destruct (Nat.eqb_spec (length (validators s)) (length (c_signatures c))); [lia|done]).
    unfold u64_max, i64_max in *. lia.
Qed.

(** A header without roots is never valid. *)
Lemma empty_dah_invalid e : valset_wf (eh_validator_set e) → eh_dah e = {| row_roots := []; column_roots := [] |} →
  ∃ err, eh_validate e = Err err.
Proof.
  intros Hw Hd. unfold eh_validate.
  assert (header_validate_basic (eh_header e) ≠ Panic) as Hp1 by (unfold header_validate_basic; by case_ifs).
  destruct (header_validate_basic (eh_header e)) as [[]|e1|]; [|by eexists|done]. cbn [mbind res_bind].
  assert (∀ l, commit_sigs_validate l ≠ Panic) as Hcs.
  { induction l as [|[|a t [g|]|a t [g|]] l IH]; cbn; try done; by case_ifs. }
  assert (commit_validate_basic (eh_commit e) ≠ Panic) as Hp2 by (unfold commit_validate_basic; case_ifs; done || apply Hcs).
  destruct (commit_validate_basic (eh_commit e)) as [[]|e2|]; [|by eexists|done]. cbn [mbind res_bind].
  assert (valset_validate_basic (eh_validator_set e) ≠ Panic) as Hp3 by (unfold valset_validate_basic; by case_ifs).
  destruct (valset_validate_basic (eh_validator_set e)) as [[]|e3|]; [|by eexists|done]. cbn [mbind res_bind].
  do 4 (match goal with |- ∃ err, ensure ?b _ ≫= _ = _ => destruct b end; cbn [ensure mbind res_bind]; [|by eexists]).
  pose proof (light_no_panic (eh_validator_set e) (h_chain_id (eh_header e)) (eh_height e) (eh_commit e) Hw).
  destruct (verify_commit_light _ _ _ _) as [[]|e4|]; [|by eexists|done]. cbn [mbind res_bind].
  unfold eh_app_version. destruct (AppVersion_from_u64 _); [|by eexists]. cbn [ok_or mbind res_bind]. rewrite Hd. by eexists.
Qed.

Lemma signer_set_wf key a : valset_wf (signer_set key a).
Proof. split; [by repeat constructor|done]. Qed.

(** Signatures and set hashes stand for keys. *)
Class SignatureBinding : Prop := {
  sign_own_key k v m : verify_signature v m (sign k m) = true → val_pub_key v = verification_key k;
  valset_hash_keys s s' : valset_hash s = valset_hash s' → val_pub_key <$> validators s = val_pub_key <$> validators s'
}.

(** A header signed by another key than that of the trusted header's only validator. *)
Lemma other_key_unverified `{!SignatureBinding} now key key' a a' m trusted e :
  eh_validator_set trusted = signer_set key a → next_validators_hash (eh_header trusted) = valset_hash (eh_validator_set trusted) →
  validators_hash (eh_header e) = valset_hash (signer_set key' a') →
  (∃ b t, c_signatures (eh_commit e) = [BlockIdFlagCommit b t (Some (sign key' m))]) →
  vote_sign_bytes (eh_commit e) (eh_chain_id e) 0 = Ok m →
  verification_key key ≠ verification_key key' → eh_verify now trusted e ≠ Ok tt.
Proof.
  intros Hset Hnext Hvh (b&t&Hb) Hm Hk Hv. apply eh_verify_Ok in Hv as (_&Hce&_&Hadj&Htr).
  destruct (Z.eq_dec (eh_height e) (eh_height trusted + 1)) as [He|He].
  - destruct (Hadj He) as [Hh _]. rewrite Hvh, Hnext, Hset in Hh. apply valset_hash_keys in Hh. by injection Hh.
  - specialize (Htr He). unfold verify_commit_light_trusting in Htr. rewrite Hset in Htr.
    change (voting_power_needed DEFAULT_TRUST_LEVEL (total_voting_power (signer_set key a))) with (Ok 1666 : res HeaderError Z) in Htr.
    cbn [mbind res_bind] in Htr.
    rewrite Hb in Htr. cbn [verify_trusting_loop] in Htr. unfold find_validator in Htr.
    cbn [signer_set validators find_validator_from signer val_address] in Htr. case_bool_decide; [|done].
    rewrite lookup_empty, <- Hce, Hm in Htr. cbn [mbind res_bind] in Htr.
    destruct (verify_signature _ m (sign key' m)) eqn:E; [|done]. by apply sign_own_key in E.
Qed.

Lemma invalidate_spec e : valset_wf (eh_validator_set e) →
  ∃ e' err, invalidate e = Ok e' ∧ eh_validate e' = Err err ∧ e' = set_dah e {| row_roots := []; column_roots := [] |}.
Proof.
  intros Hw. unfold invalidate. destruct (empty_dah_invalid (set_dah e {| row_roots := []; column_roots := [] |}) Hw eq_refl)
    as [err He]. rewrite He. by eexists _, err.
Qed.

Lemma made_by_set_wf key e : made_by key e → valset_wf (eh_validator_set e).
Proof. intros [_ [[a ->] _ _ _ _ _ _] _ _]. apply signer_set_wf. Qed.

(** The header that [unverify] signs, from a header of a key with any roots. *)
Definition unverified (e : ExtendedHeader) (key : SigningKey) (d : Draw) : ExtendedHeader :=
  {| eh_header := set_proposer (eh_header e) (dr_address d); eh_commit := eh_commit e;
     eh_validator_set := signer_set key (dr_address d); eh_dah := eh_dah e |}.

(** Whatever its roots are, no header of the old key verifies a header signed anew. *)
Lemma unverified_fails `{!SignatureBinding} key key' e e' d now trusted :
  signable key e → verification_key key ≠ verification_key key' → hash_and_sign (unverified e key' d) key' = Ok e' →
  made_by key trusted → eh_verify now trusted e' ≠ Ok tt.
Proof.
  intros [_ (a&t&s&Hsig) _ _ _ _ _] Hk Hrun Ht.
  destruct (hash_and_sign_shape key' (unverified e key' d) a t s Hsig) as (x&m&Hx&(Hh&_)&_&Hs&Hv).
  rewrite Hrun in Hx. injection Hx as <-. destruct Ht as [_ [[ta Hts] _ _ _ _ _ _] Htn _].
  apply (other_key_unverified now key key' ta (dr_address d) m); try done; [by rewrite Hh|by eexists _, _].
Qed.

Lemma unverify_valid_spec key key' e d : made_by key e →
  ∃ e', unverify e key' d = Ok e' ∧ hash_and_sign (unverified e key' d) key' = Ok e' ∧ eh_validate e' = Ok tt.
Proof.
  intros [Hval [_ Hsig Hh Hch Hp Happ Hd] _ Hr]. unfold unverify. rewrite Hval. cbn [mbind res_bind].
  rewrite from_raw_key. cbn [expect mbind res_bind]. rewrite single_set. fold (unverified e key' d).
  destruct (hash_and_sign_valid key' (unverified e key' d)) as (e'&_&_&_&Hrun&Hm&_); [|done|].
  { split; [by eexists|done|exact Hh|done|done|done|done]. }
  rewrite Hrun. cbn [mbind res_bind]. unfold must_validate. rewrite (mb_valid _ _ Hm).
  cbn [expect_ok mbind res_bind]. exists e'. split_and!; [done|done|apply (mb_valid _ _ Hm)].
Qed.

(** The two ways to break a header are independent: [invalidate] makes any header invalid and
    changes no verification; [unverify] keeps a generated header valid, and no header of the
    generator verifies it any more; a header that was invalidated before is both. *)
Theorem broken_headers `{!SignatureBinding} key key' e d :
  verification_key key ≠ verification_key key' → made_by key e →
  (∃ e1 err, invalidate e = Ok e1 ∧ eh_validate e1 = Err err ∧
     (∀ now trusted, eh_verify now trusted e1 = eh_verify now trusted e) ∧
     ∃ e2 err2, unverify e1 key' d = Ok e2 ∧ eh_validate e2 = Err err2 ∧
       ∀ now trusted, made_by key trusted → eh_verify now trusted e2 ≠ Ok tt) ∧
  (∃ e', unverify e key' d = Ok e' ∧ eh_validate e' = Ok tt ∧
     ∀ now trusted, made_by key trusted → eh_verify now trusted e' ≠ Ok tt).
Proof.
  intros Hk Hm. split.
  - destruct (invalidate_spec e (made_by_set_wf key e Hm)) as (e1&err&Hi&He&Heq). exists e1, err.
    split_and!; [done|done|by subst|]. unfold unverify. rewrite He. cbn [mbind res_bind]. rewrite from_raw_key.
    cbn [expect mbind res_bind]. rewrite single_set. fold (unverified e1 key' d).
    destruct (mb_signable _ _ Hm) as [_ (a&t&s&Hsig) _ _ _ _ _].
    destruct (hash_and_sign_shape key' (unverified e1 key' d) a t s) as (x&m&Hx&(Hxh&Hxb&Hxs&Hxd)&Hxc&Hxg&Hxv); [by subst|].
    rewrite Hx. cbn [mbind res_bind]. destruct (invalidate_spec x) as (e2&err2&Hi2&He2&Heq2).
    { rewrite Hxs. apply signer_set_wf. }
    exists e2, err2. split_and!; [done|done|]. intros now trusted Ht Hv.
    assert (eh_verify now trusted x = Ok tt) as Hv' by (rewrite <- Hv, Heq2; done).
    destruct Ht as [_ [[ta Hts] _ _ _ _ _ _] Htn _]. revert Hv'.
    apply (other_key_unverified now key key' ta (dr_address d) m); try done; [by rewrite Hxh|by eexists _, _].
  - destruct (unverify_valid_spec key key' e d Hm) as (e'&Hu&Hrun&Hv). exists e'. split_and!; [done|done|].
    intros now trusted. apply (unverified_fails key key' e e' d); [apply (mb_signable _ _ Hm)|done|done].
Qed.

(** [another_of] gives a second header of the same height that continues the same history: it is
    valid, linked to whatever the first was linked to, and has another hash when the random
    consensus hash differs and hashes do not collide. *)
Theorem another_of_correct g e d : made_by (g_key g) e →
  ∃ e', another_of g e d = Ok e' ∧ made_by (g_key g) e' ∧ eh_height e' = eh_height e ∧
    (∀ p, made_by (g_key g) p → eh_validator_set p = eh_validator_set e → linked p [e] → linked p [e']) ∧
    (Inj (=) (=) header_hash → consensus_hash (eh_header e) ≠ Sha256 (dr_consensus d) → eh_hash e' ≠ eh_hash e).
Proof.
  intros [Hval [Hset Hsig Hh Hch Hp Happ Hd] Hn Hr]. unfold another_of. rewrite parts_header_new_one. cbn [expect mbind res_bind].
  set (e0 := {| eh_header := _; eh_commit := _; eh_validator_set := _; eh_dah := _ |}).
  destruct (hash_and_sign_valid (g_key g) e0) as (e'&_&_&_&Hrun&Hm&(Hh'&Hb&Hs'&_)&_); [by split|done|].
  rewrite Hrun. cbn [mbind res_bind]. unfold must_validate. rewrite (mb_valid _ _ Hm). cbn [expect_ok mbind res_bind].
  exists e'. split_and!; [done|done|unfold eh_height; by rewrite Hh'| |].
  - intros p [_ _ Hpn _] Hps (Hl1&Hl2&Hl3&Hl4&Hl5&_).
    split_and!; [|unfold last_header_hash; by rewrite Hh'|by rewrite Hh', Hpn, Hps|unfold eh_chain_id; by rewrite Hh'
      |unfold eh_time; by rewrite Hh'|done].
    unfold eh_height. by rewrite Hh'.
  - intros Hinj Hc Heq. apply eh_validate_Ok in Hval as (_&_&_&_&Hhe&_). apply Hc.
    assert (header_hash (eh_header e') = header_hash (eh_header e)) as Hhh.
    { rewrite <- Hhe, <- Heq. unfold eh_hash. by rewrite Hb. }
    apply Hinj in Hhh. rewrite <- Hhh, Hh'. done.
Qed.

End Generator.

(** ** Witnesses

    Keys are numbers, and a signature is its key 64 times. *)
#[local] Existing Instances toy_NmtExternals toy_NmtExternalsSpec toy_MerkleHash toy_DahExternals
  toy_DahExternalsSpec toy_LeopardCodec toy_LeopardCodecSpec.
#[local] Instance toy_Chain : Tendermint := {|
  header_hash h := Sha256 (enc_header h);
  valset_hash s := Sha256 [Z.pos (encode (val_pub_key <$> validators s))];
  signable_vec v _ := vote_validator_address v;
  verify_signature v _ sig := match val_pub_key v with [k] => bool_decide (sig = repeat k 64) | _ => false end;
  validator_index_try_from n := Some (Z.of_nat n);
  time_checked_add t d := Some (t + d);
  height_increment h := if h <? i64_max then Some (h + 1) else None;
  eh_decode b := match b with [Z.pos p] => decode p | _ => None end;
  eh_encode e := [Z.pos (encode e)]
|}.
#[local] Instance toy_ChainSpec : TendermintSpec.
Proof.
  split; [| |by intros t d t' [= <-]|].
  - intros h h'. cbv [height_increment toy_Chain]. case_ifs; by intros [= <-].
  - intros h Hh. cbv [height_increment toy_Chain]. destruct (Z.ltb_spec h i64_max); [by eexists|lia].
  - intros e. cbv [eh_decode eh_encode toy_Chain]. by rewrite decode_encode.
Qed.
#[local] Instance toy_Signing : Signing := {|
  SigningKey := Z; verification_key k := [k]; sign k _ := repeat k 64;
  from_raw_ed25519 := Some; signature_new := λ s, Some (Some s);
  valset_new l p := {| validators := l; proposer := p; total_voting_power := power_sum l |};
  height_try_from h := if h <=? i64_max then Some h else None;
  parts_header_new t h := Some (t, h)
|}.
#[local] Instance toy_SigningSpec : SigningSpec.
Proof.
  split; try done.
  - intros k v m Hk. cbv [verify_signature toy_Chain]. rewrite Hk. by apply bool_decide_true.
  - intros v p. cbv [valset_new toy_Signing]. f_equal. cbv [power_sum foldr]. lia.
  - intros h Hh. cbv [height_try_from toy_Signing]. by rewrite (proj2 (Z.leb_le _ _)) by lia.
Qed.
#[local] Instance toy_SignatureBinding : SignatureBinding.
Proof.
  split.
  - intros k v m. cbv [verify_signature toy_Chain]. destruct (val_pub_key v) as [|x [|]]; try done.
    intros Hb%bool_decide_eq_true. by injection Hb as ->.
  - intros s s' [= Heq]. by apply encode_inj in Heq.
Qed.

Definition seven : SigningKey := (7 : @SigningKey toy_Signing).
Definition eight : SigningKey := (8 : @SigningKey toy_Signing).
Definition toy_draw (i : Z) : Draw :=
  {| dr_now := 100 + i; dr_verify_now := 100 + i; dr_address := [5]; dr_last_hash := [i]; dr_last_parts := [i];
     dr_consensus := [i]; dr_parts := [i] |}.

Lemma generated_chain_verifies_witness : ∃ g headers,
  next_many (generator_new seven) [toy_draw 1; toy_draw 2; toy_draw 3] = Ok (g, headers) ∧ length headers = 3%nat.
Proof.
  destruct (generated_chain_verifies (generator_new seven) [toy_draw 1; toy_draw 2; toy_draw 3]) as (g&headers&Hr&_&Hl&_);
    [apply new_ok|reflexivity| |exists g, headers; split; [exact Hr|exact Hl]].
  repeat split; try done; try (by intros t [= <-]); by eexists.
Defined.

Lemma toy_made : ∃ e, generate_new 4 [9] 50 seven None (toy_draw 0) = Ok e ∧ made_by seven e.
Proof. destruct (generate_new_spec 4 [9] 50 seven None (toy_draw 0)) as (e&He&Hm&_); [done|done|by apply Nat.leb_le|exists e; split; [exact He|exact Hm]]. Qed.

Lemma generator_heights_witness : ∃ g g', new_from_height seven 5 (toy_draw 0) = Ok g ∧
  gen_height g = 4 ∧ skip (generator_new seven) 3 (toy_draw 0) = Ok g' ∧ gen_height g' = 3.
Proof.
  destruct (generator_heights seven (toy_draw 0)) as [Hn Hs].
  destruct (Hn 5) as (g&Hg&_&Hh); [done|]. destruct (Hs (generator_new seven) 3) as (g'&e&Hg'&_&Hh'&_); [apply new_ok|done|done| |].
  { repeat split; try done. }
  exists g, g'. split; [exact Hg|]. split; [lia|]. split; [exact Hg'|exact Hh'].
Defined.

Lemma next_of_set_time_panics_witness : ∃ e, generate_new 4 [9] 50 seven None (toy_draw 0) = Ok e ∧
  next_many_of (set_time (generator_new seven) 60 1) e [toy_draw 0; toy_draw 1] = Panic.
Proof.
  destruct toy_made as (e&He&_). exists e. split; [exact He|].
  apply (next_of_set_time_panics (set_time (generator_new seven) 60 1) 60 1 e (toy_draw 0) [toy_draw 0; toy_draw 1] eq_refl). done.
Defined.

Lemma broken_headers_witness : ∃ e e', generate_new 4 [9] 50 seven None (toy_draw 0) = Ok e ∧
  unverify e eight (toy_draw 1) = Ok e' ∧ eh_validate e' = Ok tt.
Proof.
  destruct toy_made as (e&He&Hm). destruct (broken_headers seven eight e (toy_draw 1)) as [_ (e'&Hu&Hv&_)]; [done|exact Hm|].
  exists e, e'. split; [exact He|]. split; [exact Hu|exact Hv].
Defined.

Lemma another_of_correct_witness : ∃ e e', generate_new 4 [9] 50 seven None (toy_draw 0) = Ok e ∧
  another_of (generator_new seven) e (toy_draw 1) = Ok e' ∧ eh_height e' = eh_height e.
Proof.
  destruct toy_made as (e&He&Hm). destruct (another_of_correct (generator_new seven) e (toy_draw 1) Hm) as (e'&Ha&_&Hh&_).
  exists e, e'. split; [exact He|]. split; [exact Ha|exact Hh].
Defined.
