(* ===== verification/SquareGenerator.v ===== *)
(** * The generator of squares (src/types/src/test_utils.rs)

    [generate_dummy_eds] and [generate_eds] make extended squares that look like blocks.  Every
    [unwrap] in them stands for a claim about squares and blobs: that the shares they lay out are
    in order, of the right size and as many as the square has room for.

    What is random (numbers, ids of namespaces, bytes) is an argument [EdsRandom]. *)

From stdpp Require Import sorting.
From S2P Require Import Prelude Consts Nmt Merkle Dah Header Share Blob Eds ShwapIds Containers Byzantine HeaderGenerator.

(** What [generate_eds] draws: lengths, ids of namespaces, and the bytes of the [n]-th buffer. *)
Record EdsRandom := {
  er_pfb : Z;
  er_ids : nat → bytes;
  er_big : Z;
  er_len : nat → Z;
  er_fill : nat → nat → Z
}.
Definition random_bytes (r : EdsRandom) (n len : nat) : bytes := er_fill r n <$> seq 0 len.

(** [assert_ne!(shares, 0)]. *)
Definition blob_len {E} (shares : nat) : res E nat :=
  if (shares =? 0)%nat then Panic
  else Ok (FIRST_SPARSE_SHARE_CONTENT_SIZE + (shares - 1) * CONTINUATION_SPARSE_SHARE_CONTENT_SIZE)%nat.

(** [unwrap] on a computation with fuel. *)
Definition unwrap_run {E A} (c : run E A) : run E A := match c with Some r => Some (expect_ok r) | None => None end.

Definition ns_leb (a b : Namespace) : Prop := bytes_le a b = true.
#[global] Instance ns_leb_dec : RelDecision ns_leb.
Proof. intros a b. unfold ns_leb. apply _. Defined.
(** [Vec::sort] on namespaces. *)
Definition sort_namespaces (l : list Namespace) : list Namespace := merge_sort ns_leb l.

Section Squares.
Context `{DahExternals} `{NmtExternals} `{LeopardCodec}.

Definition generate_dummy_eds (square_width : nat) (app_version : AppVersion) (r : EdsRandom)
    : res TypesError ExtendedDataSquare :=
  let ns := const_v0 (er_ids r 0) in
  let ods_width := (square_width / 2)%nat in
  let shares := (λ n, ns ++ repeat 0 SHARE_INFO_BYTES
                    ++ random_bytes r n (SHARE_SIZE - NS_SIZE - SHARE_INFO_BYTES)) <$> seq 0 (ods_width * ods_width) in
  expect_ok (eds_from_ods shares app_version).

(** A run of padding shares. *)
Definition padding (ns : Namespace) (count : nat) : list bytes :=
  repeat (ns ++ repeat 0 (SHARE_SIZE - NS_SIZE)) count.

(** [Blob::new(ns, data, app_version).unwrap().to_shares().unwrap()], as bytes. *)
Definition blob_shares_of (ns : Namespace) (count : nat) (r : EdsRandom) (n : nat) (app_version : AppVersion)
    : run TypesError (list bytes) :=
  len ← lift (blob_len count);
  blob ← unwrap_run (Blob_new ns (random_bytes r n len) app_version);
  shares ← unwrap_run (Blob_to_shares blob);
  Some (Ok (sh_data <$> shares)).

(** The loop over the namespaces: a row for each. *)
Fixpoint blob_rows (ods_width : nat) (last_ns : Namespace) (namespaces : list Namespace) (i : nat) (r : EdsRandom)
    (app_version : AppVersion) : run TypesError (list bytes) :=
  match namespaces with
  | [] => Some (Ok [])
  | ns :: namespaces =>
      let blob_shares := (Z.to_nat (er_len r i mod Z.of_nat (ods_width - 1)) + 1)%nat in
      blob ← blob_shares_of ns blob_shares r (ods_width + 1 + i) app_version;
      let padding_ns := if bool_decide (ns ≠ last_ns) then ns else TAIL_PADDING in
      rows ← blob_rows ods_width last_ns namespaces (S i) r app_version;
      Some (Ok (blob ++ padding padding_ns (ods_width - blob_shares) ++ rows))
  end.

Definition generate_eds (square_width : nat) (app_version : AppVersion) (r : EdsRandom)
    : run TypesError ExtendedDataSquare :=
  if (square_width <? 8)%nat then Some Panic else
  let ods_width := (square_width / 2)%nat in
  let pfb_shares := (Z.to_nat (er_pfb r mod Z.of_nat (ods_width - 1)) + 1)%nat in
  let pfbs := (λ n, PAY_FOR_BLOB ++ [if (n =? 0)%nat then 1 else 0]
                 ++ random_bytes r n (SHARE_SIZE - NS_SIZE - SHARE_INFO_BYTES)) <$> seq 0 pfb_shares in
  let primary := padding PRIMARY_RESERVED_PADDING (ods_width - pfb_shares) in
  let namespaces := sort_namespaces ((λ i, const_v0 (er_ids r i)) <$> seq 0 (ods_width - 3)) in
  let blob_shares := (Z.to_nat (er_big r mod Z.of_nat (ods_width - 1)) + ods_width + 1)%nat in
  ns0 ← lift (vec_index namespaces 0);
  big ← blob_shares_of ns0 blob_shares r ods_width app_version;
  let big_padding := padding ns0 (ods_width - (blob_shares - ods_width)) in
  last_ns ← lift (expect (last namespaces));
  rows ← blob_rows ods_width last_ns namespaces 0 r app_version;
  unwrap_run (Some (eds_from_ods (pfbs ++ primary ++ big ++ big_padding ++ rows) app_version)).

(** ** Lemmas *)

Context `{!NmtExternalsSpec} `{!LeopardCodecSpec}.

Definition good_share (s : bytes) : Prop := is_shard s ∧ valid_namespace (ns_of s).
Definition in_ns_order (a b : bytes) : Prop := bytes_le (ns_of a) (ns_of b) = true.

(** Shares in order of their namespaces fill a square. *)
Lemma sorted_ods k ods : length ods = (k * k)%nat → (1 ≤ k ≤ 128)%nat → (∃ j, k = 2 ^ j)%nat →
  Forall good_share ods → StronglySorted in_ns_order ods → ods_ok k ods.
Proof.
  intros Hlen Hk Hj Hok Hs. assert (∀ i j s s', (i < j)%nat → ods !! i = Some s → ods !! j = Some s' →
    bytes_le (ns_of s) (ns_of s') = true) as Hle.
  { intros i j s s' Hij Hi Hj'. apply (StronglySorted_app_1_elem_of in_ns_order (take j ods) (drop j ods)).
    - by rewrite take_drop.
    - apply list_elem_of_lookup. exists i. by rewrite lookup_take_lt.
    - apply list_elem_of_lookup. exists 0%nat. rewrite lookup_drop. by rewrite Nat.add_0_r. }
  split; [done|done|done| |].
  - intros r c s s' Hr Hc. apply Hle. lia.
  - intros r c s s' Hr Hc. apply Hle. nia.
Qed.

(** A run of good shares in order, with namespaces between two bounds. *)
Record segment (lo hi : Namespace) (l : list bytes) : Prop := {
  seg_ok : Forall good_share l;
  seg_sorted : StronglySorted in_ns_order l;
  seg_bounds : Forall (λ s, ns_leb lo (ns_of s) ∧ ns_leb (ns_of s) hi) l
}.

Lemma segment_app lo hi lo' hi' l1 l2 : segment lo hi l1 → segment lo' hi' l2 → ns_leb hi lo' →
  ns_leb lo lo' → ns_leb hi hi' → segment lo hi' (l1 ++ l2).
Proof.
  intros [Ho1 Hs1 Hb1] [Ho2 Hs2 Hb2] Hm Hlo Hhi. unfold ns_leb in *.
  assert (∀ s, s ∈ l1 → bytes_le lo (ns_of s) = true ∧ bytes_le (ns_of s) hi = true) as H1' by by apply Forall_forall.
  assert (∀ s, s ∈ l2 → bytes_le lo' (ns_of s) = true ∧ bytes_le (ns_of s) hi' = true) as H2' by by apply Forall_forall.
  split; [by apply Forall_app| |].
  - apply StronglySorted_app_2; [|done|done]. intros a b Ha Hb. unfold in_ns_order.
    apply (bytes_le_trans _ hi); [by apply H1'|]. apply (bytes_le_trans _ lo'); [done|by apply H2'].
  - apply Forall_app. split; apply Forall_forall; intros s Hs.
    + destruct (H1' s Hs). split; [done|]. by apply (bytes_le_trans _ hi).
    + destruct (H2' s Hs). split; [|done]. by apply (bytes_le_trans _ lo').
Qed.

(** Shares of one namespace. *)
Lemma segment_const ns l : Forall (λ s, is_shard s ∧ ns_of s = ns) l → valid_namespace ns → segment ns ns l.
Proof.
  intros Hl Hv. split.
  - eapply Forall_impl; [exact Hl|]. intros s [Hs Hn]. split; [done|]. by rewrite Hn.
  - induction Hl as [|s l [_ Hs] Hl IH]; constructor; [done|]. eapply Forall_impl; [exact Hl|].
    intros s' [_ Hs']. unfold in_ns_order. rewrite Hs', Hs. apply bytes_le_refl.
  - eapply Forall_impl; [exact Hl|]. intros s [_ Hn]. cbn beta. rewrite Hn. split; apply bytes_le_refl.
Qed.

Lemma ns_share_shard ns rest : length ns = NS_SIZE → are_bytes ns → length rest = (SHARE_SIZE - NS_SIZE)%nat →
  are_bytes rest → is_shard (ns ++ rest) ∧ ns_of (ns ++ rest) = ns.
Proof.
  intros Hn Hb Hl Hr. split; [split; [rewrite length_app, Hn, Hl; done|by apply Forall_app]|].
  unfold ns_of. by rewrite take_app_length' by done.
Qed.
Lemma zeros_bytes n : are_bytes (repeat 0 n).
Proof. apply Forall_repeat_same. unfold is_byte. lia. Qed.

Definition good_ns (ns : Namespace) : Prop := valid_namespace ns ∧ are_bytes ns.
Lemma padding_segment ns n : good_ns ns → segment ns ns (padding ns n).
Proof.
  intros [Hv Hb]. apply segment_const; [|done]. apply Forall_repeat_same.
  apply ns_share_shard; [by apply valid_namespace_length|done|by rewrite repeat_length|apply zeros_bytes].
Qed.
Lemma length_padding ns n : length (padding ns n) = n.
Proof. apply repeat_length. Qed.

Definition good_fill (r : EdsRandom) : Prop := ∀ n i, is_byte (er_fill r n i).
Lemma random_bytes_ok r n len : good_fill r → are_bytes (random_bytes r n len) ∧ length (random_bytes r n len) = len.
Proof.
  intros Hr. unfold random_bytes. split; [|by rewrite length_fmap, length_seq].
  apply Forall_fmap, Forall_forall. intros i _. apply Hr.
Qed.

(** [blob_len] is the length of data that takes exactly that many shares. *)
Lemma blob_len_shares (n : nat) : (1 ≤ n)%nat → ∃ len, @blob_len TypesError n = Ok len ∧ (0 < len)%nat ∧
  Z.of_nat len ≤ 482 * Z.of_nat n ∧ shares_needed_for_blob (Z.of_nat len) = Z.of_nat n.
Proof.
  intros Hn. unfold blob_len. rewrite (proj2 (Nat.eqb_neq _ _)) by lia.
  change FIRST_SPARSE_SHARE_CONTENT_SIZE with 478%nat. change CONTINUATION_SPARSE_SHARE_CONTENT_SIZE with 482%nat.
  eexists. split; [done|]. split; [lia|]. split; [lia|].
  unfold shares_needed_for_blob, checked_sub. change (Z.of_nat FIRST_SPARSE_SHARE_CONTENT_SIZE) with 478.
  change (Z.of_nat CONTINUATION_SPARSE_SHARE_CONTENT_SIZE) with 482. rewrite (proj2 (Z.ltb_ge _ _)) by lia.
  replace (Z.of_nat (478 + (n - 1) * 482) - 478) with ((Z.of_nat n - 1) * 482) by lia.
  unfold div_ceil. rewrite Z.mod_mul, Z.div_mul by lia. cbn. lia.
Qed.

(** The shares of a blob have the size of a share. *)
Lemma sparse_body_shard ns data position b : valid_namespace ns → are_bytes ns → are_bytes data → is_byte b →
  is_shard (ns ++ b :: share_body data position).
Proof.
  intros Hv Hnb Hdb Hb. pose proof (valid_namespace_length ns Hv) as Hns. unfold share_body.
  set (first := (position =? 0)%nat). set (chunk := take (room first) (drop position data)).
  assert (length chunk ≤ room first)%nat as Hc by (unfold chunk; rewrite length_take; lia). split.
  - rewrite length_app, Hns. cbn [length]. rewrite !length_app, repeat_length.
    change NS_SIZE with 29%nat. change SHARE_SIZE with 512%nat.
    destruct first; [rewrite length_be_bytes; change (room true) with 478%nat in *|change (room false) with 482%nat in *; cbn [length]]; lia.
  - apply Forall_app_2; [done|]. constructor; [done|].
    apply Forall_app_2; [destruct first; [apply are_bytes_be|constructor]|].
    apply Forall_app_2; [by apply Forall_take, Forall_drop|apply zeros_bytes].
Qed.
Lemma split_shares_shards ns data shares : valid_namespace ns → are_bytes ns → are_bytes data →
  Z.of_nat (length data) ≤ u32_max → split_blob_to_shares ns 0 data = Some (Ok shares) →
  Forall (λ s, is_shard (sh_data s)) shares.
Proof.
  intros Hv Hnb Hdb Hlen. unfold split_blob_to_shares. cbn [negb Z.eqb SHARE_VERSION_ZERO].
  generalize 0%nat as position, (S (length data)) as fuel. intros position fuel. revert position shares.
  induction fuel as [|fuel IH]; intros position shares Hs; [done|].
  destruct (decide (position < length data)%nat) as [Hp|Hp].
  - rewrite (split_loop_step ns Hv Hnb data Hdb Hlen) in Hs by done.
    destruct (split_loop fuel ns data _) as [[l| |]|] eqn:E; try done. injection Hs as <-. constructor; [|by eapply IH].
    apply sparse_body_shard; [done..|]. unfold is_byte. case_match; lia.
  - cbn [split_loop] in Hs. rewrite (proj2 (Nat.ltb_ge _ _)) in Hs by lia. by injection Hs as <-.
Qed.

(** The blob of a row: as many shares as planned, all of its namespace. *)
Lemma blob_shares_of_spec ns n r m v : good_ns ns → is_reserved ns = false → good_fill r → (1 ≤ n ≤ 256)%nat →
  ∃ l, blob_shares_of ns n r m v = Some (Ok l) ∧ length l = n ∧ segment ns ns l.
Proof.
  intros [Hv Hb] Hres Hr Hn. destruct (blob_len_shares n) as (len&Hlen&Hpos&Hmax&Hneed); [lia|].
  unfold blob_shares_of. rewrite Hlen. cbn [lift mbind run_bind].
  destruct (random_bytes_ok r m len Hr) as [Hdb Hdl]. set (data := random_bytes r m len) in *.
  assert (data ≠ []) as Hne by (destruct data; [cbn in Hdl; lia|done]).
  assert (Z.of_nat (length data) ≤ u32_max) as Hu by (unfold u32_max; lia).
  destruct (Blob_new_spec ns data v) as (b&->&Hbn&Hbd&Hbv); [by split_and!|].
  cbn [unwrap_run expect_ok mbind run_bind]. unfold Blob_to_shares. rewrite Hbn, Hbd, Hbv.
  destruct (split_spec ns Hv Hb data Hdb Hu Hne) as (shares&Hs&Hc&Hl&_). rewrite Hs.
  cbn [unwrap_run expect_ok mbind run_bind]. eexists. split; [done|].
  split; [rewrite length_fmap; cbn [length]; rewrite Hdl in Hl; lia|].
  apply segment_const; [|done].
  pose proof (split_shares_shards ns data _ Hv Hb Hdb Hu Hs) as Hsh.
  apply Forall_fmap. apply Forall_forall. intros x Hx. rewrite Forall_forall in Hsh. split; [by apply Hsh|].
  pose proof (valid_namespace_length ns Hv) as Hns.
  apply elem_of_cons in Hx as [->|Hx]; [unfold ns_of; cbn; by rewrite take_app_length' by done|].
  rewrite Forall_forall in Hc. destruct (Hc x Hx) as [body ->]. unfold ns_of; cbn. by rewrite take_app_length' by done.
Qed.

Lemma const_v0_good id : length id = NS_ID_V0_SIZE → are_bytes id → good_ns (const_v0 id).
Proof.
  intros Hl Hb. split; [|apply Forall_app; split; [apply zeros_bytes|done]].
  left. exists id. by split.
Qed.
Lemma pfb_good : good_ns PAY_FOR_BLOB.
Proof.
  apply const_v0_good; [done|].
  apply (bool_decide_eq_true_1 (Forall (λ b, 0 ≤ b ≤ 255) [0;0;0;0;0;0;0;0;0;4])). vm_compute. reflexivity.
Qed.
Lemma primary_good : good_ns PRIMARY_RESERVED_PADDING.
Proof.
  apply (const_v0_good [0;0;0;0;0;0;0;0;0;255]); [done|].
  apply (bool_decide_eq_true_1 (Forall (λ b, 0 ≤ b ≤ 255) [0;0;0;0;0;0;0;0;0;255])). vm_compute. reflexivity.
Qed.
Lemma tail_good : good_ns TAIL_PADDING.
Proof.
  split; [right; by exists 254|].
  apply (bool_decide_eq_true_1 (Forall (λ b, 0 ≤ b ≤ 255) TAIL_PADDING)). vm_compute. reflexivity.
Qed.

(** Namespaces that are not reserved lie between the reserved ones. *)
Lemma unreserved_between ns : is_reserved ns = false → ns_leb PRIMARY_RESERVED_PADDING ns ∧ ns_leb ns TAIL_PADDING.
Proof.
  unfold is_reserved. intros [Hlo Hhi]%orb_false_iff. split.
  - destruct (bytes_le_total PRIMARY_RESERVED_PADDING ns) as [?|Hle]; [done|]. exfalso. unfold PRIMARY_RESERVED_PADDING in Hle. congruence.
  - apply (bytes_le_trans _ MIN_SECONDARY_RESERVED); [|vm_compute; reflexivity].
    destruct (bytes_le_total ns MIN_SECONDARY_RESERVED) as [?|Hle]; [done|]. exfalso. congruence.
Qed.

(** The lengths that are drawn leave room for padding. *)
Lemma drawn_length x w : (4 ≤ w)%nat → (Z.to_nat (x mod Z.of_nat (w - 1)) + 1 ≤ w - 1)%nat.
Proof. intros Hw. pose proof (Z.mod_pos_bound x (Z.of_nat (w - 1))). lia. Qed.

(** The shares of the payments. *)
Lemma pfb_segment r n : good_fill r → segment PAY_FOR_BLOB PAY_FOR_BLOB
  ((λ n, PAY_FOR_BLOB ++ [if (n =? 0)%nat then 1 else 0]
     ++ random_bytes r n (SHARE_SIZE - NS_SIZE - SHARE_INFO_BYTES)) <$> seq 0 n).
Proof.
  intros Hr. destruct pfb_good as [Hv Hb]. apply segment_const; [|done]. apply Forall_fmap, Forall_forall. intros m _.
  destruct (random_bytes_ok r m (SHARE_SIZE - NS_SIZE - SHARE_INFO_BYTES) Hr) as [Hrb Hrl'].
  apply ns_share_shard; [done|done|rewrite length_app, Hrl'; done|].
  constructor; [unfold is_byte; case_match; lia|done].
Qed.

(** One row for each namespace, in order; the last one ends in tail padding. *)
Lemma blob_rows_spec w last_ns l i r v : (4 ≤ w ≤ 128)%nat → good_fill r →
  StronglySorted ns_leb l → NoDup l → Forall (λ ns, good_ns ns ∧ is_reserved ns = false) l → last l = Some last_ns →
  ∃ rows, blob_rows w last_ns l i r v = Some (Ok rows) ∧ length rows = (length l * w)%nat ∧
    ∀ ns l', l = ns :: l' → segment ns TAIL_PADDING rows.
Proof.
  intros Hw Hr. revert i; induction l as [|ns l IH]; intros i Hs Hd Hg Hl; [done|].
  apply StronglySorted_cons in Hs as [Hle Hs]. apply NoDup_cons in Hd as [Hn Hd]. apply Forall_cons in Hg as [[Hgn Hres] Hg].
  cbn [blob_rows]. set (n := (Z.to_nat (er_len r i mod Z.of_nat (w - 1)) + 1)%nat).
  assert (1 ≤ n ≤ w - 1)%nat as Hn' by (pose proof (drawn_length (er_len r i) w); unfold n; lia).
  destruct (blob_shares_of_spec ns n r (w + 1 + i) v Hgn Hres Hr) as (blob&->&Hbl&Hbs); [lia|].
  cbn [mbind run_bind]. destruct (unreserved_between ns Hres) as [_ Htail].
  destruct l as [|ns' l].
  - injection Hl as <-. cbn [blob_rows mbind run_bind]. rewrite bool_decide_false by naive_solver.
    eexists. split; [done|]. rewrite app_nil_r. split; [rewrite length_app, length_padding; cbn; lia|].
    intros x l' [= <- <-]. apply (segment_app ns ns TAIL_PADDING TAIL_PADDING); [done|apply padding_segment, tail_good|done..].
  - rewrite last_cons_cons in Hl.
    assert (last_ns ∈ ns' :: l) as Hin by (apply last_Some_elem_of; done).
    destruct (IH (S i)) as (rows&->&Hlen&Hseg); [done..|]. cbn [mbind run_bind].
    rewrite bool_decide_true by (intros ->; done). specialize (Hseg ns' l eq_refl).
    eexists. split; [done|]. split; [rewrite !length_app, length_padding; cbn [length] in *; lia|].
    intros x l' [= <- <-]. apply Forall_cons in Hle as [Hle _].
    apply (segment_app ns ns ns TAIL_PADDING); [done| |apply bytes_le_refl|apply bytes_le_refl|done].
    apply (segment_app ns ns ns' TAIL_PADDING); [by apply padding_segment|done..].
Qed.

(** A square of dummy data can always be made, for every width of a square. *)
Theorem generate_dummy_eds_valid k v r : (1 ≤ k ≤ 128)%nat → (∃ j, k = 2 ^ j)%nat → good_fill r →
  length (er_ids r 0) = NS_ID_V0_SIZE → are_bytes (er_ids r 0) →
  ∃ eds, generate_dummy_eds (k * 2) v r = Ok eds ∧ eds_wf v eds ∧ eds_square_width eds = Z.of_nat (k * 2).
Proof.
  intros Hk Hj Hr Hil Hib. unfold generate_dummy_eds. rewrite Nat.div_mul by done.
  set (shares := _ <$> _). destruct (const_v0_good _ Hil Hib) as [Hv Hb].
  assert (segment (const_v0 (er_ids r 0)) (const_v0 (er_ids r 0)) shares) as [Ho Hs _].
  { apply segment_const; [|done]. apply Forall_fmap, Forall_forall. intros n _.
    destruct (random_bytes_ok r n (SHARE_SIZE - NS_SIZE - SHARE_INFO_BYTES) Hr) as [Hrb Hrl]. cbn [compose].
    apply ns_share_shard; [by apply valid_namespace_length|done|rewrite length_app, Hrl; done|].
    apply Forall_app. split; [apply zeros_bytes|done]. }
  destruct (from_ods_spec k shares v) as (eds&->&Hwf&Hw&_).
  { apply sorted_ods; try done. unfold shares. by rewrite length_fmap, length_seq. }
  by exists eds.
Qed.

(** Whatever is drawn, as long as the namespaces of the blobs are distinct and not reserved,
    [generate_eds] returns a well-formed square: all its shares fit and are in order. *)
Theorem generate_eds_valid k v r : (4 ≤ k ≤ 128)%nat → (∃ j, k = 2 ^ j)%nat → good_fill r →
  (∀ i, (i < k - 3)%nat → length (er_ids r i) = NS_ID_V0_SIZE ∧ are_bytes (er_ids r i) ∧
     is_reserved (const_v0 (er_ids r i)) = false) →
  NoDup ((λ i, const_v0 (er_ids r i)) <$> seq 0 (k - 3)) →
  ∃ eds, generate_eds (k * 2) v r = Some (Ok eds) ∧ eds_wf v eds ∧ eds_square_width eds = Z.of_nat (k * 2).
Proof.
  intros Hk Hj Hr Hids Hnd. unfold generate_eds. rewrite (proj2 (Nat.ltb_ge _ _)) by lia. rewrite Nat.div_mul by done.
  set (pfb := (Z.to_nat _ + 1)%nat). set (pfbs := _ <$> seq 0 pfb). set (nss := sort_namespaces _).
  set (n := (Z.to_nat _ + k + 1)%nat).
  assert (1 ≤ pfb ≤ k - 1)%nat as Hpfb by (pose proof (drawn_length (er_pfb r) k); unfold pfb; lia).
  assert (k + 1 ≤ n ≤ 2 * k - 1)%nat as Hn by (pose proof (drawn_length (er_big r) k); unfold n; lia).
  assert (nss ≡ₚ (λ i, const_v0 (er_ids r i)) <$> seq 0 (k - 3)) as Hperm by apply merge_sort_Permutation.
  assert (StronglySorted ns_leb nss) as Hss.
  { apply StronglySorted_merge_sort; [intros a b c; apply bytes_le_trans|intros a b; apply bytes_le_total]. }
  assert (NoDup nss) as Hnd' by (by rewrite Hperm).
  assert (length nss = k - 3)%nat as Hnl by (by rewrite Hperm, length_fmap, length_seq).
  assert (Forall (λ ns, good_ns ns ∧ is_reserved ns = false) nss) as Hgood.
  { rewrite Hperm. apply Forall_fmap, Forall_forall. intros i Hi. apply elem_of_seq in Hi.
    destruct (Hids i) as (Hl&Hb&Hres); [lia|]. split; [by apply const_v0_good|done]. }
  destruct nss as [|ns0 nss'] eqn:Enss; [cbn in Hnl; lia|].
  pose proof Hgood as Hgood'. apply Forall_cons in Hgood' as [[Hg0 Hres0] _].
  cbn [vec_index lookup list_lookup expect lift mbind run_bind].
  destruct (blob_shares_of_spec ns0 n r k v Hg0 Hres0 Hr) as (big&Hbig&Hbl&Hbs); [lia|]. unfold vec_index.
  cbn [lookup list_lookup expect lift mbind run_bind]. rewrite Hbig. cbn [mbind run_bind].
  destruct (last (ns0 :: nss')) as [lst|] eqn:El; [|by apply last_None in El]. cbn [expect lift mbind run_bind].
  destruct (blob_rows_spec k lst (ns0 :: nss') 0 r v) as (rows&Hrows&Hrl&Hseg); [lia|done..|]. rewrite Hrows.
  cbn [mbind run_bind unwrap_run]. specialize (Hseg ns0 nss' eq_refl).
  destruct (unreserved_between ns0 Hres0) as [Hprim Htail].
  assert (segment PAY_FOR_BLOB TAIL_PADDING (pfbs ++ padding PRIMARY_RESERVED_PADDING (k - pfb) ++ big
    ++ padding ns0 (k - (n - k)) ++ rows)) as [Hok Hso _].
  { apply (segment_app PAY_FOR_BLOB PAY_FOR_BLOB PRIMARY_RESERVED_PADDING TAIL_PADDING);
      [by apply pfb_segment| |vm_compute; reflexivity..].
    apply (segment_app PRIMARY_RESERVED_PADDING PRIMARY_RESERVED_PADDING ns0 TAIL_PADDING);
      [apply padding_segment, primary_good| |done|done|vm_compute; reflexivity].
    apply (segment_app ns0 ns0 ns0 TAIL_PADDING); [done| |apply bytes_le_refl|apply bytes_le_refl|done].
    apply (segment_app ns0 ns0 ns0 TAIL_PADDING); [by apply padding_segment|done|apply bytes_le_refl|apply bytes_le_refl|done]. }
  destruct (from_ods_spec k (pfbs ++ padding PRIMARY_RESERVED_PADDING (k - pfb) ++ big
    ++ padding ns0 (k - (n - k)) ++ rows) v) as (eds&He&Hwf&Hw&_).
  { apply sorted_ods; [|lia|done|done|done]. rewrite !length_app, !length_padding, Hbl, Hrl. unfold pfbs.
    rewrite length_fmap, length_seq, Hnl. nia. }
  exists eds. split; [exact (f_equal (λ c, Some (expect_ok c)) He)|done].
Qed.

End Squares.

(** ** Corrupting a square (byzantine.rs, [test_utils]) *)

Section Corrupt.
Context `{Tendermint} `{!MerkleHash bytes} `{DahExternals} `{Signing}.
Context `{!NmtExternals} `{!NmtProofs} `{!LeopardCodec} `{!LeopardReconstruct}.

(** [eds.share_mut(row, column)] and the change made through the reference. *)
Definition eds_share_mut (eds : ExtendedDataSquare) (row column : Z) (f : Share → Share)
    : res TypesError ExtendedDataSquare :=
  let index := flatten_index row column (eds_square_width eds) in
  match eds_data_square eds !! index with
  | None => Err (EdsIndexOutOfRange row column)
  | Some s => Ok {| eds_data_square := <[index := f s]> (eds_data_square eds); eds_codec := eds_codec eds;
                    eds_square_width := eds_square_width eds |}
  end.

(** What [corrupt_eds] draws: the axis index, the places to break, the bytes put there, and the
    axes of the proofs. *)
Record CorruptDraw := {
  cd_axis_idx : Z;
  cd_places : list Z;
  cd_trash : Z → bytes;
  cd_axes : Z → AxisType
}.

Definition trash_offset : nat := SHARE_SIZE - FIRST_SPARSE_SHARE_CONTENT_SIZE.
(** [copy_from_slice] into [share.as_mut()[offset..]]. *)
Definition trash_share (new : bytes) (s : Share) : Share :=
  {| sh_data := take trash_offset (sh_data s) ++ new; sh_is_parity := sh_is_parity s |}.

Fixpoint break_shares (axis : AxisType) (axis_idx : Z) (trash : Z → bytes) (places : list Z)
    (eds : ExtendedDataSquare) : res TypesError ExtendedDataSquare :=
  match places with
  | [] => Ok eds
  | share_idx :: places =>
      eds ← expect_ok (match axis with
                       | Row => eds_share_mut eds axis_idx share_idx (trash_share (trash share_idx))
                       | Col => eds_share_mut eds share_idx axis_idx (trash_share (trash share_idx))
                       end);
      break_shares axis axis_idx trash places eds
  end.

(** The axis is drawn from [0..1], which is always 0. *)
Definition corrupt_eds (gen : ExtendedHeaderGenerator) (eds : ExtendedDataSquare) (c : CorruptDraw) (d : Draw)
    : res TypesError (ExtendedHeaderGenerator * ExtendedDataSquare * ExtendedHeader * BadEncodingFraudProof) :=
  axis ← expect (AxisType_try_from 0);
  eds ← break_shares axis (cd_axis_idx c) (cd_trash c) (cd_places c) eds;
  dah ← expect_ok (dah_from_eds eds);
  '(gen, eh) ← expect_ok (next_with_dah gen dah d);
  befp ← befp_from_header_and_eds eh eds (cd_axis_idx c) axis (cd_axes c);
  Ok (gen, eds, eh, befp).

(** ** Lemmas *)

(** Squares that differ only behind the namespaces of their shares. *)
Definition same_shape (s s' : Share) : Prop :=
  length (sh_data s') = length (sh_data s) ∧ take NS_SIZE (sh_data s') = take NS_SIZE (sh_data s) ∧
  sh_is_parity s' = sh_is_parity s.

Lemma same_shape_wf v eds eds' : eds_wf v eds → eds_square_width eds' = eds_square_width eds →
  Forall2 same_shape (eds_data_square eds) (eds_data_square eds') → eds_wf v eds'.
Proof.
  intros [Hp Hb Hl Hs Hr Hc] Hw Hf.
  assert (∀ r c s', at_ (eds_data_square eds') (eds_square_width eds') r c = Some s' →
    ∃ s, at_ (eds_data_square eds) (eds_square_width eds) r c = Some s ∧ same_shape s s') as Hat.
  { intros r c s' Hs'. unfold at_ in *. rewrite Hw in Hs'.
    destruct (Forall2_lookup_r _ _ _ _ _ Hf Hs') as (s&?&?). by exists s. }
  assert (∀ s s', same_shape s s' → share_namespace s' = share_namespace s) as Hns.
  { intros s s' (_&Hn&Hpar). unfold share_namespace. by rewrite Hpar, Hn. }
  assert (∀ r c r' c', in_order (eds_data_square eds) (eds_square_width eds) r c r' c' →
    in_order (eds_data_square eds') (eds_square_width eds') r c r' c') as Hord.
  { intros r c r' c' Ho x y (sx&Hx&Hsx)%Hat (sy&Hy&Hsy)%Hat. rewrite (Hns _ _ Hsx), (Hns _ _ Hsy). by apply Ho. }
  split; rewrite ?Hw; try done.
  - by rewrite <- (Forall2_length _ _ _ Hf).
  - intros r c s' Hr' Hc' Hs'. rewrite <- Hw in Hs'. apply Hat in Hs' as (s&Hs0&(Hlen&Hn&Hpar)).
    destruct (Hs r c s Hr' Hc' Hs0) as [[Hok1 Hok2] Hpar2]. unfold share_ok. rewrite Hlen, Hn, Hpar. done.
  - intros. rewrite <- Hw. apply Hord. by apply Hr.
  - intros. rewrite <- Hw. apply Hord. by apply Hc.
Qed.

Lemma same_shape_refl s : same_shape s s.
Proof. done. Qed.
Lemma same_shape_trans s s' s'' : same_shape s s' → same_shape s' s'' → same_shape s s''.
Proof. intros (?&?&?) (?&?&?). split_and!; congruence. Qed.

Lemma trash_shape new s : length (sh_data s) = SHARE_SIZE → length new = (SHARE_SIZE - trash_offset)%nat →
  same_shape s (trash_share new s).
Proof.
  intros Hl Hn. change trash_offset with 34%nat in *. change SHARE_SIZE with 512%nat in *.
  unfold same_shape, trash_share. cbn [sh_data sh_is_parity]. change trash_offset with 34%nat. split_and!; [| |done].
  - rewrite length_app, length_take. lia.
  - rewrite take_app_le by (rewrite length_take; change NS_SIZE with 29%nat; lia).
    rewrite take_take. by change (Nat.min NS_SIZE 34) with NS_SIZE.
Qed.

(** Breaking shares keeps a square a square. *)
Lemma break_shares_spec v axis axis_idx trash places eds : eds_wf v eds → square_bytes eds →
  0 ≤ axis_idx < eds_square_width eds → Forall (λ j, 0 ≤ j < eds_square_width eds) places →
  (∀ j, length (trash j) = (SHARE_SIZE - trash_offset)%nat ∧ are_bytes (trash j)) →
  ∃ eds', break_shares axis axis_idx trash places eds = Ok eds' ∧ eds_wf v eds' ∧ square_bytes eds' ∧
    eds_square_width eds' = eds_square_width eds.
Proof.
  intros Hwf Hb Hi Hpl Ht. revert eds Hwf Hb Hi Hpl. induction places as [|j places IH]; intros eds Hwf Hb Hi Hpl; [by exists eds|].
  apply Forall_cons in Hpl as [Hj Hpl]. destruct (Ht j) as [Htl Htb].
  assert (∀ r c, 0 ≤ r < eds_square_width eds → 0 ≤ c < eds_square_width eds → ∃ eds1,
    eds_share_mut eds r c (trash_share (trash j)) = Ok eds1 ∧ eds_wf v eds1 ∧ square_bytes eds1 ∧
    eds_square_width eds1 = eds_square_width eds) as Hmut.
  { intros r c Hr Hc. unfold eds_share_mut, flatten_index. pose proof (cell_at v eds Hwf r c Hr Hc) as Hat. unfold at_ in Hat.
    rewrite Hat. eexists. split; [done|].
    assert (Forall2 same_shape (eds_data_square eds) (<[Z.to_nat (r * eds_square_width eds + c) :=
      trash_share (trash j) (cell eds r c)]> (eds_data_square eds))) as Hf.
    { apply Forall2_same_length_lookup_2; [by rewrite length_insert|]. intros i x y Hx Hy.
      destruct (decide (i = Z.to_nat (r * eds_square_width eds + c))) as [->|Hne].
      - rewrite list_lookup_insert_eq in Hy by (by eapply lookup_lt_Some). injection Hy as <-. rewrite Hat in Hx.
        injection Hx as <-. apply trash_shape; [|done]. apply (cell_ok v eds Hwf r c Hr Hc).
      - rewrite list_lookup_insert_ne in Hy by done. rewrite Hx in Hy. injection Hy as <-. apply same_shape_refl. }
    split_and!; [by apply (same_shape_wf v eds)| |done].
    unfold square_bytes in *. cbn [eds_data_square]. apply Forall_insert; [done|].
    cbn. apply Forall_app. split; [|done]. apply Forall_take. by apply (Forall_lookup_1 _ _ _ _ Hb Hat). }
  cbn [break_shares]. destruct axis.
  - destruct (Hmut axis_idx j Hi Hj) as (eds1&->&Hw1&Hb1&He1). cbn [expect_ok mbind res_bind]. rewrite <- He1 in Hi, Hpl.
    destruct (IH eds1 Hw1 Hb1 Hi Hpl) as (eds'&?&?&?&?). exists eds'. split_and!; congruence.
  - destruct (Hmut j axis_idx Hj Hi) as (eds1&->&Hw1&Hb1&He1). cbn [expect_ok mbind res_bind]. rewrite <- He1 in Hi, Hpl.
    destruct (IH eds1 Hw1 Hb1 Hi Hpl) as (eds'&?&?&?&?). exists eds'. split_and!; congruence.
Qed.

Context `{!TendermintSpec} `{!SigningSpec} `{!NmtExternalsSpec} `{!NmtProofsSpec} `{!NmtCollisionFree}.
Context `{!LeopardCodecSpec} `{!LeopardReconstructSpec}.

(** [corrupt_eds] makes a valid header of a broken square, and the fraud proof it returns is
    accepted with that header whenever the broken row is in the data half and is no code word. *)
Theorem corrupted_square_caught g eds v c d : gen_ok g → gen_height g < i64_max →
  stamp_ok (gen_time g) (g_spoofed_block_time g) d → eds_wf v eds → square_bytes eds →
  0 ≤ cd_axis_idx c < eds_square_width eds / 2 → Forall (λ j, 0 ≤ j < eds_square_width eds) (cd_places c) →
  (∀ j, length (cd_trash c j) = (SHARE_SIZE - trash_offset)%nat ∧ are_bytes (cd_trash c j)) →
  ∃ g' eds' eh befp, corrupt_eds g eds c d = Ok (g', eds', eh, befp) ∧ eds_wf v eds' ∧
    eh_validate eh = Ok tt ∧ dah_from_eds eds' = Ok (eh_dah eh) ∧
    (¬ codeword (Z.to_nat (eds_square_width eds / 2)) (axis_data eds' Row (cd_axis_idx c)) →
     befp_validate befp eh = Ok tt).
Proof.
  intros Hg Hh Hst Hwf Hb Hi Hpl Ht. unfold corrupt_eds.
  change (AxisType_try_from 0) with (Some Row). cbn [expect mbind res_bind].
  pose proof (eds_bounds _ _ Hwf) as Hbounds.
  assert (eds_square_width eds / 2 ≤ eds_square_width eds) as Hhalf by (apply Z.div_le_upper_bound; lia).
  destruct (break_shares_spec v Row (cd_axis_idx c) (cd_trash c) (cd_places c) eds Hwf Hb) as (eds'&Hbr&Hwf'&Hb'&Hw');
    [lia|done|done|]. rewrite Hbr. cbn [mbind res_bind].
  assert (0 ≤ cd_axis_idx c < eds_square_width eds') as Hin by lia.
  destruct (dah_from_eds_correct v eds' Hwf') as (dah&Hd&Hdv&_). rewrite Hd. cbn [expect_ok mbind res_bind].
  assert (dah_validate_basic dah V1 = Ok tt) as Hd1.
  { apply dah_validate_Ok. apply dah_validate_Ok in Hdv. by rewrite max_width_256 in *. }
  destruct (next_dah_spec g (Some dah) d Hg Hh Hst) as (g'&eh&Hn&_&_&Hval&_); [by intros x [= <-]|].
  change (next_dah g (Some dah) d) with (next_with_dah g dah d) in Hn. rewrite Hn. cbn [expect_ok mbind res_bind].
  apply next_with_dah_roots in Hn. rewrite (befp_from_in v eds' eh Hwf' Row (cd_axis_idx c) (cd_axes c) Hb' Hin).
  cbn [mbind res_bind]. eexists _, eds', eh, _. split; [done|]. split_and!; [done|done|congruence|].
  intros Hnc. rewrite <- Hw' in Hi, Hnc.
  destruct (bad_encoding_found v eds' eh Row (cd_axis_idx c) (cd_axes c) Hwf' Hb') as (proof&Hp&Hv); [congruence|done|done|].
  rewrite (befp_from_in v eds' eh Hwf' Row (cd_axis_idx c) (cd_axes c) Hb' Hin) in Hp. by injection Hp as <-.
Qed.
End Corrupt.

(** ** Witnesses *)

#[local] Existing Instances toy_NmtExternals toy_NmtExternalsSpec toy_MerkleHash toy_DahExternals
  toy_LeopardCodec toy_LeopardCodecSpec.
Definition toy_random : EdsRandom :=
  {| er_pfb := 5; er_ids := λ i, [0; 0; 0; 0; 0; 0; 0; 0; 1; 9]; er_big := 4; er_len := λ _, 2; er_fill := λ _ _, 7 |}.
Lemma toy_fill_ok : good_fill toy_random.
Proof. intros n i. unfold is_byte. cbn. lia. Qed.
Lemma toy_id_bytes : are_bytes (er_ids toy_random 0).
Proof. apply (bool_decide_eq_true_1 (Forall (λ b, 0 ≤ b ≤ 255) (er_ids toy_random 0))). vm_compute. reflexivity. Qed.

Lemma generate_dummy_eds_valid_witness : ∃ eds, generate_dummy_eds 8 V3 toy_random = Ok eds ∧ eds_square_width eds = 8.
Proof.
  destruct (generate_dummy_eds_valid 4 V3 toy_random) as (eds&He&_&Hw);
    [lia|by exists 2%nat|apply toy_fill_ok|done|apply toy_id_bytes|]. exists eds. split; [exact He|exact Hw].
Defined.
Lemma generate_eds_valid_witness : ∃ eds, generate_eds 8 V3 toy_random = Some (Ok eds) ∧ eds_square_width eds = 8.
Proof.
  destruct (generate_eds_valid 4 V3 toy_random) as (eds&He&_&Hw);
    [lia|by exists 2%nat|apply toy_fill_ok| |repeat constructor; set_solver|exists eds; split; [exact He|exact Hw]].
  intros i Hi. split; [done|]. split; [apply toy_id_bytes|vm_compute; reflexivity].
Defined.

#[local] Existing Instances toy_Chain toy_ChainSpec toy_Signing toy_SigningSpec toy_NmtProofs toy_NmtProofsSpec
  toy_NmtCollisionFree toy_LeopardReconstruct toy_LeopardReconstructSpec.
Definition toy_corruption : CorruptDraw :=
  {| cd_axis_idx := 0; cd_places := [1; 0]; cd_trash := λ j, repeat 3 478; cd_axes := λ _, Col |}.
Lemma corrupted_square_caught_witness : ∃ g eds eh befp,
  corrupt_eds (generator_new seven) toy_square toy_corruption (toy_draw 0) = Ok (g, eds, eh, befp) ∧ eh_validate eh = Ok tt.
Proof.
  destruct (corrupted_square_caught (generator_new seven) toy_square V3 toy_corruption (toy_draw 0))
    as (g&eds&eh&befp&Hc&_&Hv&_).
  - apply new_ok.
  - reflexivity.
  - repeat split; try done.
  - apply toy_square_wf.
  - apply toy_square_bytes.
  - vm_compute. split; [discriminate|reflexivity].
  - repeat constructor; vm_compute; discriminate || reflexivity.
  - intros j. split; [reflexivity|]. apply Forall_repeat_same. unfold is_byte. lia.
  - exists g, eds, eh, befp. split; [exact Hc|exact Hv].
Defined.
