(* ===== verification/TxClient.v ===== *)
(** * The transaction client (src/grpc/src/tx.rs)

    [TxClient] submits messages and blobs: it estimates gas and fee, signs with the sequence of
    its account, broadcasts, retries when the fee was too low, and waits for the transaction to
    be committed.  Signing and broadcast hold the lock of the account; several submissions may
    run at the same time, and what one does between two steps of another is any step of its own.

    A submission is a task: it attempts the broadcast, then polls for confirmation, then is
    finished.  One event is one locked section of a task, or one poll, with what the node
    answers; an execution is a list of events.  The gRPC node, protobuf and the signature are
    outside.  The arithmetic of gas and fees is that of [f64] (Float64). *)

From Stdlib Require Import SpecFloat String.
From S2P Require Import Prelude Consts Nmt Merkle Dah Share Blob StateTypes Float64.

(** ** Errors and answers of the node *)

(** [celestia_grpc::Error]. *)
Inductive GrpcError :=
| TonicError
| TransportError
| CelestiaTypesError (e : TypesError)
| CelestiaStateError (e : StateError)
| FailedToParseResponse
| UnexpectedResponseType (s : bytes)
| TxEmptyBlobList
| TxBroadcastFailed (hash : Hash) (code : ErrorCode) (log : bytes)
| TxExecutionFailed (hash : Hash) (code : ErrorCode) (log : bytes)
| TxEvicted (hash : Hash)
| TxNotFound (hash : Hash)
| PublicKeyMismatch.

Inductive TxStatus := Unknown | Pending | Evicted | Committed.
Definition TxStatus_to_string (s : TxStatus) : bytes :=
  match s with
  | Unknown => str "UNKNOWN" | Pending => str "PENDING" | Evicted => str "EVICTED" | Committed => str "COMMITTED"
  end.
Definition TxStatus_from_str (s : bytes) : res GrpcError TxStatus :=
  if bool_decide (s = str "UNKNOWN") then Ok Unknown
  else if bool_decide (s = str "PENDING") then Ok Pending
  else if bool_decide (s = str "EVICTED") then Ok Evicted
  else if bool_decide (s = str "COMMITTED") then Ok Committed
  else Err FailedToParseResponse.

Record RawTxStatusResponse := {
  rts_height : Z; rts_index : Z; rts_execution_code : Z; rts_error : bytes; rts_status : bytes
}.
Record TxStatusResponse := {
  ts_height : Z; ts_index : Z; ts_execution_code : ErrorCode; ts_error : bytes; ts_status : TxStatus
}.
Definition TxStatusResponse_try_from (value : RawTxStatusResponse) : res GrpcError TxStatusResponse :=
  height ← map_err (λ e, CelestiaStateError e) (height_try_from (rts_height value));
  execution_code ← map_err (λ e, CelestiaStateError e) (ErrorCode_try_from (rts_execution_code value));
  status ← TxStatus_from_str (rts_status value);
  Ok {| ts_height := height; ts_index := rts_index value; ts_execution_code := execution_code;
        ts_error := rts_error value; ts_status := status |}.

(** The fields of the response to a broadcast that are read. *)
Record BroadcastResponse := { br_txhash : Hash; br_code : ErrorCode; br_raw_log : bytes }.

(** What the node answers while one locked section runs. *)
Record Node := {
  nd_simulate : bytes → res GrpcError Z;
  nd_min_gas_price : res GrpcError f64;
  nd_broadcast_tx : bytes → res GrpcError BroadcastResponse
}.

(** [ConfigResponse::try_from_response]; [parse_f64] is [f64::from_str] of the standard library. *)
Definition strip_suffix (suffix s : bytes) : option bytes :=
  let n := (length s - length suffix)%nat in
  if bool_decide (drop n s = suffix) then Some (take n s) else None.
Definition min_gas_price_from_response (parse_f64 : bytes → option f64) (minimum_gas_price : bytes)
    : res GrpcError f64 :=
  price ← ok_or (strip_suffix (str "utia") minimum_gas_price) FailedToParseResponse;
  ok_or (parse_f64 price) FailedToParseResponse.

(** ** Accounts *)

(** [grpc::Account] with [Deref] and [DerefMut] to the base account. *)
Inductive GrpcAccount `{PublicKeys} := Base (a : BaseAccount) | Module_ (m : ModuleAccount).

(** Protobuf, type names of generated messages, and the signature with the key of the client. *)
Class TxExternals := {
  encode_base_account : RawBaseAccount → bytes; decode_base_account : bytes → option RawBaseAccount;
  decode_module_account : bytes → option RawModuleAccount;
  base_account_type_url : bytes; module_account_type_url : bytes;
  pubkey_type_url : bytes; pfb_type_url : bytes;
  encode_pfb : RawMsgPayForBlobs → bytes;
  encode_tx_body : RawTxBody → bytes; encode_auth_info : RawAuthInfo → bytes;
  encode_sign_doc : bytes → bytes → bytes → Z → bytes;
  encode_tx : RawTx → bytes;
  encode_blob_tx : bytes → list RawBlob → bytes → bytes;
  signer_sign : bytes → bytes
}.

(** ** Gas *)

Definition PFB_GAS_FIXED_COST : Z := 75000.
Definition BYTES_PER_BLOB_INFO : Z := 70.
Definition DEFAULT_GAS_MULTIPLIER : f64 := f64_1_1.
Definition BLOB_TX_TYPE_ID : bytes := str "BLOB".

Definition u64_mul {E} (x y : Z) : res E Z := expect (checked_mul x y).
Fixpoint sum_u64 {E} (acc : Z) (l : list Z) : res E Z :=
  match l with [] => Ok acc | x :: l => acc ← u64_add acc x; sum_u64 acc l end.

Definition estimate_gas (blobs : list Blob) (app_version : AppVersion) (gas_multiplier : f64) : res GrpcError Z :=
  shares ← sum_u64 0 (Blob_shares_len <$> blobs);
  blobs_bytes ← u64_mul shares (Z.of_nat SHARE_SIZE);
  data_gas ← u64_mul blobs_bytes (gas_per_blob_byte app_version);
  info_gas ← u64_mul (tx_size_cost_per_byte app_version) BYTES_PER_BLOB_INFO;
  info_gas ← u64_mul info_gas (Z.of_nat (length blobs));
  gas ← u64_add data_gas info_gas;
  gas ← u64_add gas PFB_GAS_FIXED_COST;
  Ok (f64_as_u64 (f64_mul (u64_as_f64 gas) gas_multiplier)).

(** ** The client *)

Record TxConfig := { cfg_gas_limit : option Z; cfg_gas_price : option f64 }.
Record TxInfo := { txi_hash : Hash; txi_height : Z }.

Section Client.
Context `{Bech32} `{BitvecLimit} `{PublicKeys} `{DahExternals} `{NmtExternals} `{TxExternals}.

Definition account_from_any (any : Any) : res GrpcError GrpcAccount :=
  if bool_decide (type_url any = base_account_type_url) then
    raw ← ok_or (decode_base_account (any_value any)) FailedToParseResponse;
    a ← map_err (λ e, CelestiaStateError e) (BaseAccount_try_from raw); Ok (Base a)
  else if bool_decide (type_url any = module_account_type_url) then
    raw ← ok_or (decode_module_account (any_value any)) FailedToParseResponse;
    m ← map_err (λ e, CelestiaStateError e) (ModuleAccount_try_from raw); Ok (Module_ m)
  else Err (UnexpectedResponseType (type_url any)).

Definition account_base (a : GrpcAccount) : BaseAccount :=
  match a with Base b => b | Module_ m => ma_base_account m end.
Definition base_with_sequence (b : BaseAccount) (n : Z) : BaseAccount :=
  {| acct_address := acct_address b; acct_pub_key := acct_pub_key b; acct_number := acct_number b; acct_sequence := n |}.
Definition with_sequence (a : GrpcAccount) (n : Z) : GrpcAccount :=
  match a with
  | Base b => Base (base_with_sequence b n)
  | Module_ m => Module_ {| ma_base_account := base_with_sequence (ma_base_account m) n; ma_name := ma_name m;
                            ma_permissions := ma_permissions m |}
  end.

(** The field [client], through which the node is called, is a history: the transactions that
    [broadcast_tx] sent, with what the node answered to each. *)
Record TxClient := {
  tc_broadcasts : list (bytes * res GrpcError BroadcastResponse);
  tc_account : GrpcAccount;
  tc_pubkey : Secp256k1Key;
  tc_app_version : AppVersion;
  tc_chain_id : bytes;
  tc_gas_price : f64
}.
Definition tc_sequence (c : TxClient) : Z := acct_sequence (account_base (tc_account c)).
Definition set_account (c : TxClient) (a : GrpcAccount) : TxClient :=
  {| tc_broadcasts := tc_broadcasts c; tc_account := a; tc_pubkey := tc_pubkey c; tc_app_version := tc_app_version c;
     tc_chain_id := tc_chain_id c; tc_gas_price := tc_gas_price c |}.
Definition set_gas_price (c : TxClient) (p : f64) : TxClient :=
  {| tc_broadcasts := tc_broadcasts c; tc_account := tc_account c; tc_pubkey := tc_pubkey c;
     tc_app_version := tc_app_version c; tc_chain_id := tc_chain_id c; tc_gas_price := p |}.
(** [self.client.broadcast_tx]: the call is made, and answered. *)
Definition log_broadcast (c : TxClient) (tx : bytes) (answer : res GrpcError BroadcastResponse) : TxClient :=
  {| tc_broadcasts := tc_broadcasts c ++ [(tx, answer)]; tc_account := tc_account c; tc_pubkey := tc_pubkey c;
     tc_app_version := tc_app_version c; tc_chain_id := tc_chain_id c; tc_gas_price := tc_gas_price c |}.

(** [TxClient::new], from the answers to the three queries it makes (the latest block counts
    with its application version and chain id).  [key_eqb] is the equality of keys. *)
Definition tx_client_new (key_eqb : Secp256k1Key → Secp256k1Key → bool) (pubkey : Secp256k1Key)
    (account : res GrpcError GrpcAccount) (min_gas_price : res GrpcError f64)
    (latest_block : res GrpcError (Z * bytes)) : res GrpcError TxClient :=
  account ← account;
  _ ← match acct_pub_key (account_base account) with
      | Some (Secp256k1 k) => if key_eqb k pubkey then Ok tt else Err PublicKeyMismatch
      | Some _ => Err PublicKeyMismatch
      | None => Ok tt
      end;
  gas_price ← min_gas_price;
  '(app_version, chain_id) ← latest_block;
  app_version ← ok_or (AppVersion_from_u64 app_version) (CelestiaStateError (UnsupportedAppVersion app_version));
  Ok {| tc_broadcasts := []; tc_account := account; tc_pubkey := pubkey; tc_app_version := app_version; tc_chain_id := chain_id;
        tc_gas_price := gas_price |}.

(** ** Signing *)

Definition sign_tx (tx_body : RawTxBody) (chain_id : bytes) (base_account : BaseAccount) (verifying_key : Secp256k1Key)
    (gas_limit fee : Z) : res StateError RawTx :=
  let public_key_as_any :=
    {| type_url := pubkey_type_url; any_value := pubkey_encode (secp256k1_to_bytes verifying_key) |} in
  let fee := Fee_new fee gas_limit in
  let fee := {| fee_amount := fee_amount fee; fee_gas_limit := fee_gas_limit fee;
                fee_payer := Some (acct_address base_account); fee_granter := fee_granter fee |} in
  let auth_info := {|
    ai_signer_infos := [{| si_public_key := Some public_key_as_any; si_mode_info := MkModeInfo (Single 1);
                           si_sequence := acct_sequence base_account |}];
    ai_fee := fee |} in
  raw_auth_info ← AuthInfo_into_raw auth_info;
  let bytes_to_sign := encode_sign_doc (encode_tx_body tx_body) (encode_auth_info raw_auth_info) chain_id
                         (acct_number base_account) in
  Ok {| rtx_body := Some tx_body; rtx_auth_info := Some raw_auth_info; rtx_signatures := [signer_sign bytes_to_sign] |}.

Definition into_any (url : bytes) (msg : bytes) : Any := {| type_url := url; any_value := msg |}.
Definition tx_body_of (message : Any) : RawTxBody :=
  {| rtb_messages := [message]; rtb_memo := []; rtb_timeout_height := 0; rtb_extension_options := [];
     rtb_non_critical_extension_options := [] |}.

(** ** Broadcast: one locked section

    The guard of the account is held; the state is the client afterwards, with the result. *)

Definition update_gas_price (c : TxClient) (node : Node) : TxClient * res GrpcError f64 :=
  match nd_min_gas_price node with
  | Ok p => (set_gas_price c p, Ok p)
  | r => (c, r)
  end.

Definition broadcast_tx_with_account (c : TxClient) (node : Node) (tx : bytes) : TxClient * res GrpcError (Hash * Z) :=
  let c := log_broadcast c tx (nd_broadcast_tx node tx) in
  match nd_broadcast_tx node tx with
  | Ok resp =>
      if negb (bool_decide (br_code resp = EcSuccess))
      then (c, Err (TxBroadcastFailed (br_txhash resp) (br_code resp) (br_raw_log resp)))
      else
        match u64_add (tc_sequence c) 1 with
        | Ok next => (set_account c (with_sequence (tc_account c) next), Ok (br_txhash resp, tc_sequence c))
        | Err e => (c, Err e)
        | Panic => (c, Panic)
        end
  | Err e => (c, Err e)
  | Panic => (c, Panic)
  end.

(** The gas price of the configuration, or the minimal one of the node. *)
Definition choose_gas_price (c : TxClient) (node : Node) (cfg : TxConfig) : TxClient * res GrpcError f64 :=
  match cfg_gas_price cfg with Some p => (c, Ok p) | None => update_gas_price c node end.

Definition fee_of (gas_limit : Z) (gas_price : f64) : Z :=
  f64_as_u64 (f64_ceil (f64_mul (u64_as_f64 gas_limit) gas_price)).

Definition client_sign (c : TxClient) (body : RawTxBody) (gas fee : Z) : res GrpcError RawTx :=
  map_err (λ e, CelestiaStateError e)
    (sign_tx body (tc_chain_id c) (account_base (tc_account c)) (tc_pubkey c) gas fee).

Definition sign_and_broadcast_tx (c : TxClient) (node : Node) (tx : RawTxBody) (cfg : TxConfig)
    : TxClient * res GrpcError (Hash * Z) :=
  let gas_limit :=
    match cfg_gas_limit cfg with
    | Some gas_limit => Ok gas_limit
    | None =>
        simulated ← client_sign c tx 0 1;
        gas_used ← nd_simulate node (encode_tx simulated);
        Ok (f64_as_u64 (f64_mul (u64_as_f64 gas_used) DEFAULT_GAS_MULTIPLIER))
    end in
  match gas_limit with
  | Ok gas_limit =>
      let '(c, price) := choose_gas_price c node cfg in
      match (price ← price; client_sign c tx gas_limit (fee_of gas_limit price)) with
      | Ok signed => broadcast_tx_with_account c node (encode_tx signed)
      | Err e => (c, Err e)
      | Panic => (c, Panic)
      end
  | Err e => (c, Err e)
  | Panic => (c, Panic)
  end.

Definition pay_for_blobs (c : TxClient) (blobs : list Blob) : res GrpcError RawTxBody :=
  let address := acct_address (account_base (tc_account c)) in
  pfb ← map_err (λ e, CelestiaTypesError e) (MsgPayForBlobs_new blobs address);
  signer ← map_err (λ e, CelestiaStateError e) (Address_to_string address);
  Ok (tx_body_of (into_any pfb_type_url (encode_pfb (MsgPayForBlobs_into_raw (λ _, signer) pfb)))).

Definition sign_and_broadcast_blobs (c : TxClient) (node : Node) (blobs : list Blob) (cfg : TxConfig)
    : TxClient * res GrpcError (Hash * Z) :=
  let prepared :=
    body ← pay_for_blobs c blobs;
    gas_limit ← match cfg_gas_limit cfg with
                | Some gas_limit => Ok gas_limit
                | None => estimate_gas blobs (tc_app_version c) DEFAULT_GAS_MULTIPLIER
                end;
    Ok (body, gas_limit) in
  match prepared with
  | Ok (body, gas_limit) =>
      let '(c, price) := choose_gas_price c node cfg in
      let blob_tx :=
        price ← price;
        signed ← client_sign c body gas_limit (fee_of gas_limit price);
        raw_blobs ← map_err (λ e, CelestiaTypesError e) (mapM Blob_into_raw blobs);
        Ok (encode_blob_tx (encode_tx signed) raw_blobs BLOB_TX_TYPE_ID) in
      match blob_tx with
      | Ok tx => broadcast_tx_with_account c node tx
      | Err e => (c, Err e)
      | Panic => (c, Panic)
      end
  | Err e => (c, Err e)
  | Panic => (c, Panic)
  end.

(** ** Submissions as tasks *)

Inductive Payload := Message (body : RawTxBody) | Blobs (blobs : list Blob).

Inductive TxTask :=
| Attempt (p : Payload) (cfg : TxConfig) (retries : nat)
| Confirm (hash : Hash) (sequence : Z)
| Finished (r : res GrpcError TxInfo).

Definition submit_message (url message : bytes) (cfg : TxConfig) : TxTask :=
  Attempt (Message (tx_body_of (into_any url message))) cfg 0.

Fixpoint validate_blobs (blobs : list Blob) (app_version : AppVersion) : run TypesError unit :=
  match blobs with
  | [] => Some (Ok tt)
  | blob :: blobs => _ ← Blob_validate blob app_version; validate_blobs blobs app_version
  end.

(** [None] would be a validation that does not return. *)
Definition submit_blobs (c : TxClient) (blobs : list Blob) (cfg : TxConfig) : option TxTask :=
  if (length blobs =? 0)%nat then Some (Finished (Err TxEmptyBlobList)) else
  r ← validate_blobs blobs (tc_app_version c);
  Some match r with
       | Ok _ => Attempt (Blobs blobs) cfg 0
       | Err e => Finished (Err (CelestiaTypesError e))
       | Panic => Finished Panic
       end.

(** The guard of the arm that retries. *)
Definition retries_fee (e : GrpcError) (cfg : TxConfig) (retries : nat) : bool :=
  match e with
  | TxBroadcastFailed _ EcInsufficientFee _ =>
      (retries <? 3)%nat && match cfg_gas_price cfg with None => true | Some _ => false end
  | _ => false
  end.

(** One round of the loop of [submit_message] or [submit_blobs]. *)
Definition attempt (c : TxClient) (node : Node) (p : Payload) (cfg : TxConfig) (retries : nat) : TxClient * TxTask :=
  let '(c, r) :=
    match p with
    | Message body => sign_and_broadcast_tx c node body cfg
    | Blobs blobs => sign_and_broadcast_blobs c node blobs cfg
    end in
  (c, match r with
      | Ok (tx_hash, sequence) => Confirm tx_hash sequence
      | Err e => if retries_fee e cfg retries then Attempt p cfg (S retries) else Finished (Err e)
      | Panic => Finished Panic
      end).

(** One round of the loop of [confirm_tx], with the status it is told. *)
Definition confirm_tx (c : TxClient) (hash : Hash) (sequence : Z) (status : res GrpcError TxStatusResponse)
    : TxClient * TxTask :=
  match status with
  | Ok tx_status =>
      match ts_status tx_status with
      | Pending => (c, Confirm hash sequence)
      | Committed =>
          if bool_decide (ts_execution_code tx_status = EcSuccess)
          then (c, Finished (Ok {| txi_hash := hash; txi_height := ts_height tx_status |}))
          else (c, Finished (Err (TxExecutionFailed hash (ts_execution_code tx_status) (ts_error tx_status))))
      | Evicted => (set_account c (with_sequence (tc_account c) sequence), Finished (Err (TxEvicted hash)))
      | Unknown => (set_account c (with_sequence (tc_account c) sequence), Finished (Err (TxNotFound hash)))
      end
  | Err e => (c, Finished (Err e))
  | Panic => (c, Finished Panic)
  end.

(** ** Concurrent submissions *)

Record TxSystem := { sys_client : TxClient; sys_tasks : list TxTask }.

Inductive TxEvent :=
| EvMessage (url message : bytes) (cfg : TxConfig)
| EvBlobs (blobs : list Blob) (cfg : TxConfig)
| EvAttempt (i : nat) (node : Node)
| EvPoll (i : nat) (status : res GrpcError TxStatusResponse).

Definition tx_step (s : TxSystem) (e : TxEvent) : TxSystem :=
  match e with
  | EvMessage url message cfg =>
      {| sys_client := sys_client s; sys_tasks := sys_tasks s ++ [submit_message url message cfg] |}
  | EvBlobs blobs cfg =>
      {| sys_client := sys_client s;
         sys_tasks := sys_tasks s ++ match submit_blobs (sys_client s) blobs cfg with Some t => [t] | None => [] end |}
  | EvAttempt i node =>
      match sys_tasks s !! i with
      | Some (Attempt p cfg retries) =>
          let '(c, t) := attempt (sys_client s) node p cfg retries in
          {| sys_client := c; sys_tasks := <[i := t]> (sys_tasks s) |}
      | _ => s
      end
  | EvPoll i status =>
      match sys_tasks s !! i with
      | Some (Confirm hash sequence) =>
          let '(c, t) := confirm_tx (sys_client s) hash sequence status in
          {| sys_client := c; sys_tasks := <[i := t]> (sys_tasks s) |}
      | _ => s
      end
  end.
Definition tx_run (s : TxSystem) (es : list TxEvent) : TxSystem := foldl tx_step s es.
End Client.

(** ** One attempt *)

Section Attempts.
Context `{Bech32} `{BitvecLimit} `{PublicKeys} `{DahExternals} `{NmtExternals} `{TxExternals}.

(** The transactions that the node accepted: those it answered with the code of success. *)
Definition node_accepted (x : bytes * res GrpcError BroadcastResponse) : option bytes :=
  match x.2 with Ok resp => if bool_decide (br_code resp = EcSuccess) then Some x.1 else None | _ => None end.
Definition accepted_txs (c : TxClient) : list bytes := omap node_accepted (tc_broadcasts c).

(** The bytes that carry a transaction, and the sequence it names. *)
Inductive carries : bytes → RawTx → Prop :=
| carries_tx t : carries (encode_tx t) t
| carries_blobs t blobs : carries (encode_blob_tx (encode_tx t) blobs BLOB_TX_TYPE_ID) t.
Definition tx_sequence (t : RawTx) : option Z :=
  auth_info ← rtx_auth_info t; rsi_sequence <$> head (rai_signer_infos auth_info).

(** The transaction names the sequence [n] once, and its signature is over the document made of
    its own body and authorization, the chain and the account. *)
Definition signed_with (chain_id : bytes) (number n : Z) (t : RawTx) : Prop :=
  ∃ body auth_info, rtx_body t = Some body ∧ rtx_auth_info t = Some auth_info ∧
    rsi_sequence <$> rai_signer_infos auth_info = [n] ∧
    rtx_signatures t = [signer_sign (encode_sign_doc (encode_tx_body body) (encode_auth_info auth_info) chain_id number)].

Definition tc_number (c : TxClient) : Z := acct_number (account_base (tc_account c)).
(** Everything of the client that a submission leaves as it is. *)
Definition same_signer (c c' : TxClient) : Prop := tc_chain_id c' = tc_chain_id c ∧ tc_number c' = tc_number c.

Lemma signed_tx_sequence chain_id number n t : signed_with chain_id number n t → tx_sequence t = Some n.
Proof.
  intros (body&ai&_&Hai&Hseq&_). unfold tx_sequence. rewrite Hai. cbn.
  destruct (rai_signer_infos ai) as [|si [|]]; cbn in *; congruence.
Qed.

Lemma client_sign_signed c body gas fee t : client_sign c body gas fee = Ok t →
  signed_with (tc_chain_id c) (tc_number c) (tc_sequence c) t.
Proof.
  unfold client_sign. intros Ht%map_err_Ok. unfold sign_tx in Ht. apply bind_Ok in Ht as (raw&Hraw&[= <-]).
  unfold AuthInfo_into_raw in Hraw. apply bind_Ok in Hraw as (fee'&_&[= <-]). by eexists _, _.
Qed.

Lemma choose_gas_price_same c node cfg : let c' := (choose_gas_price c node cfg).1 in
  tc_sequence c' = tc_sequence c ∧ same_signer c c' ∧ tc_broadcasts c' = tc_broadcasts c.
Proof. unfold choose_gas_price, update_gas_price. destruct (cfg_gas_price cfg); [done|]. by destruct (nd_min_gas_price node). Qed.

(** A transaction signed with the current sequence was sent, and the node answered with
    success. *)
Definition accepts (c : TxClient) (node : Node) (c' : TxClient) (hash : Hash) : Prop :=
  ∃ b t resp, carries b t ∧ signed_with (tc_chain_id c) (tc_number c) (tc_sequence c) t ∧
    nd_broadcast_tx node b = Ok resp ∧ br_code resp = EcSuccess ∧ br_txhash resp = hash ∧
    accepted_txs c' = accepted_txs c ++ [b].

(** One locked section: the transaction was accepted and its sequence is used up; or none was
    accepted and the sequence is the same; or it was accepted and the increment overflowed. *)
Definition section_ok (c : TxClient) (node : Node) (c' : TxClient) (r : res GrpcError (Hash * Z)) : Prop :=
  same_signer c c' ∧
  match r with
  | Ok (hash, sequence) => sequence = tc_sequence c ∧ tc_sequence c' = tc_sequence c + 1 ∧ accepts c node c' hash
  | Err _ => tc_sequence c' = tc_sequence c ∧ accepted_txs c' = accepted_txs c
  | Panic => tc_sequence c' = tc_sequence c ∧
      (accepted_txs c' = accepted_txs c ∨ u64_max ≤ tc_sequence c ∧ ∃ hash, accepts c node c' hash)
  end.

Lemma section_same c node c' r : tc_sequence c' = tc_sequence c → same_signer c c' → tc_broadcasts c' = tc_broadcasts c →
  match r with Ok _ => False | _ => True end → section_ok c node c' r.
Proof.
  intros Hs Hi Hb Hr. assert (accepted_txs c' = accepted_txs c) as Ha by (unfold accepted_txs; by rewrite Hb).
  split; [done|]. destruct r as [[]| |]; [done|done|]. split; [done|by left].
Qed.

Lemma broadcast_cases c0 c node b t : tc_sequence c = tc_sequence c0 → same_signer c0 c →
  tc_broadcasts c = tc_broadcasts c0 → carries b t →
  signed_with (tc_chain_id c) (tc_number c) (tc_sequence c) t →
  section_ok c0 node (broadcast_tx_with_account c node b).1 (broadcast_tx_with_account c node b).2.
Proof.
  intros Hc [Hi1 Hi2] Hlog Hb Ht. unfold broadcast_tx_with_account.
  set (answer := nd_broadcast_tx node b). set (c1 := log_broadcast c b answer).
  assert (tc_sequence c1 = tc_sequence c0 ∧ same_signer c0 c1) as [Hs1 Hi] by done.
  assert (accepted_txs c1 = accepted_txs c0 ++ option_list (node_accepted (b, answer))) as Hacc.
  { unfold accepted_txs. cbn [c1 log_broadcast tc_broadcasts]. by rewrite Hlog, omap_app. }
  assert (∀ resp, answer = Ok resp → br_code resp = EcSuccess → ∀ c', accepted_txs c' = accepted_txs c1 →
    accepts c0 node c' (br_txhash resp)) as Hyes.
  { intros resp Hr Hcode c' Hc'. exists b, t, resp. rewrite <-Hc, <-Hi1, <-Hi2. split_and!; try done.
    rewrite Hc', Hacc, Hr. unfold node_accepted. cbn [fst snd]. rewrite bool_decide_true; done. }
  destruct answer as [resp|e|] eqn:Hr.
  - case_bool_decide as Hcode; cbn [negb].
    + destruct (u64_add (tc_sequence c1) 1) as [n|e|] eqn:Hn.
      * unfold u64_add, checked_add in Hn. destruct (_ <? _); [done|]. injection Hn as <-.
        split; [split; [done|]; rewrite <-(proj2 Hi); unfold tc_number; cbn; by destruct (tc_account c)|].
        split; [done|]. split; [rewrite <-Hs1; unfold tc_sequence; cbn; by destruct (tc_account c)|].
        by apply Hyes.
      * exfalso. unfold u64_add, checked_add in Hn. by destruct (_ <? _).
      * split; [done|]. split; [done|]. right. unfold u64_add, checked_add in Hn.
        destruct (Z.ltb_spec u64_max (tc_sequence c1 + 1)); [|done]. split; [lia|]. exists (br_txhash resp). by apply Hyes.
    + split; [done|]. cbn [fst snd]. split; [done|]. rewrite Hacc. unfold node_accepted. cbn [fst snd].
      by rewrite bool_decide_false, app_nil_r by done.
  - split; [done|]. cbn [fst snd]. split; [done|]. by rewrite Hacc, app_nil_r.
  - split; [done|]. cbn [fst snd]. split; [done|]. left. by rewrite Hacc, app_nil_r.
Qed.

Lemma broadcast_tx_cases c node body cfg :
  section_ok c node (sign_and_broadcast_tx c node body cfg).1 (sign_and_broadcast_tx c node body cfg).2.
Proof.
  unfold sign_and_broadcast_tx. destruct (match cfg_gas_limit cfg with Some _ => _ | None => _ end) as [gas| |];
    [|by apply section_same..].
  destruct (choose_gas_price_same c node cfg) as (Hs&Hi&Hb). destruct (choose_gas_price c node cfg) as [c1 price]. cbn [fst] in *.
  destruct (price ← price; _) as [t| |] eqn:Ht; [|by apply section_same..]. apply bind_Ok in Ht as (p&_&Ht).
  apply broadcast_cases with (t := t); [done|done|done|constructor|by eapply client_sign_signed].
Qed.

Lemma broadcast_blobs_cases c node blobs cfg :
  section_ok c node (sign_and_broadcast_blobs c node blobs cfg).1 (sign_and_broadcast_blobs c node blobs cfg).2.
Proof.
  unfold sign_and_broadcast_blobs. destruct (body ← pay_for_blobs c blobs; _) as [[body gas]| |]; [|by apply section_same..].
  destruct (choose_gas_price_same c node cfg) as (Hs&Hi&Hb). destruct (choose_gas_price c node cfg) as [c1 price]. cbn [fst] in *.
  destruct (price ← price; _) as [b| |] eqn:Ht; [|by apply section_same..].
  apply bind_Ok in Ht as (p&_&Ht). apply bind_Ok in Ht as (t&Ht&Hb'). apply bind_Ok in Hb' as (raw&_&[= <-]).
  apply broadcast_cases with (t := t); [done|done|done|constructor|by eapply client_sign_signed].
Qed.

(** An attempt either has its transaction accepted and uses up one sequence number, or leaves
    the sequence alone and retries (at most until the third retry) or finishes; then nothing was
    accepted, unless the sequence overflowed. *)
Lemma attempt_cases c node p cfg retries c' t : attempt c node p cfg retries = (c', t) → same_signer c c' ∧
  ((∃ hash, t = Confirm hash (tc_sequence c) ∧ tc_sequence c' = tc_sequence c + 1 ∧ accepts c node c' hash) ∨
   (tc_sequence c' = tc_sequence c ∧
    (accepted_txs c' = accepted_txs c ∨ u64_max ≤ tc_sequence c ∧ ∃ hash, accepts c node c' hash) ∧
    ((t = Attempt p cfg (S retries) ∧ (retries < 3)%nat ∧ cfg_gas_price cfg = None) ∨ ∃ r, t = Finished r))).
Proof.
  unfold attempt. intros Ha.
  assert (let x := match p with Message body => sign_and_broadcast_tx c node body cfg
                   | Blobs blobs => sign_and_broadcast_blobs c node blobs cfg end in section_ok c node x.1 x.2) as [Hi Hcases]
    by (destruct p; [apply broadcast_tx_cases|apply broadcast_blobs_cases]).
  destruct (match p with Message _ => _ | Blobs _ => _ end) as [c1 [[hash sequence]|e| ]]; injection Ha as <- <-;
    cbn [fst snd] in *; (split; [done|]).
  - left. destruct Hcases as (->&Hn&Hacc). by exists hash.
  - right. destruct Hcases as [Hs Hacc]. split; [done|]. split; [by left|].
    destruct (retries_fee e cfg retries) eqn:Hr; [left|right; by eexists].
    split; [done|]. unfold retries_fee in Hr. destruct e as [| | | | | | |? [] ?| | | |]; try done.
    apply andb_true_iff in Hr as [Hr%Nat.ltb_lt Hp]. by destruct (cfg_gas_price cfg).
  - right. destruct Hcases as [Hs Hacc]. split; [done|]. split; [done|]. right. by eexists.
Qed.
End Attempts.

(** ** Properties *)

Section Properties.
Context `{Bech32} `{BitvecLimit} `{PublicKeys} `{DahExternals} `{NmtExternals} `{TxExternals}.

(** The sequences of the submissions that wait for confirmation. *)
Definition waits_with (t : TxTask) : list Z := match t with Confirm _ sequence => [sequence] | _ => [] end.
Definition pending (ts : list TxTask) : list Z := ts ≫= waits_with.

Lemma tx_pending_insert ts i t : ts !! i = Some t → ∃ rest,
  pending ts ≡ₚ waits_with t ++ rest ∧ ∀ t', pending (<[i := t']> ts) ≡ₚ waits_with t' ++ rest.
Proof.
  intros Hi. exists (pending (take i ts) ++ pending (drop (S i) ts)).
  assert (∀ l1 l2 x, pending (l1 ++ x :: l2) ≡ₚ waits_with x ++ pending l1 ++ pending l2) as Happ.
  { intros l1 l2 x. unfold pending. rewrite bind_app, bind_cons. solve_Permutation. }
  split; [by rewrite <-Happ, take_drop_middle|]. intros t'. rewrite <-Happ, insert_take_drop; [done|].
  by eapply lookup_lt_Some.
Qed.

Lemma tx_pending_snoc ts t : waits_with t = [] → pending (ts ++ [t]) = pending ts.
Proof. intros Ht. unfold pending. rewrite bind_app, bind_singleton, Ht. by rewrite app_nil_r. Qed.

Lemma submit_blobs_new c blobs cfg t : submit_blobs c blobs cfg = Some t → waits_with t = [].
Proof.
  unfold submit_blobs. destruct (_ =? _)%nat; [by intros [= <-]|].
  destruct (validate_blobs _ _) as [[]|]; cbn; by intros [= <-].
Qed.

(** A poll that finds the transaction dropped by the node. *)
Definition reports_loss (e : TxEvent) : bool :=
  match e with
  | EvPoll _ (Ok st) => match ts_status st with Evicted | Unknown => true | _ => false end
  | _ => false
  end.

(** The transactions the node accepted are signed with consecutive sequences from [s0] on, the
    account is at the next one, and who waits for confirmation waits for one of them. *)
Record accounted (chain_id : bytes) (number s0 : Z) (s : TxSystem) : Prop := {
  ac_chain : tc_chain_id (sys_client s) = chain_id;
  ac_number : tc_number (sys_client s) = number;
  ac_log : ∃ txs, Forall2 carries (accepted_txs (sys_client s)) txs ∧
    Forall2 (signed_with chain_id number) (seqZ s0 (Z.of_nat (length txs))) txs;
  ac_sequence : tc_sequence (sys_client s) = s0 + Z.of_nat (length (accepted_txs (sys_client s)));
  ac_nodup : NoDup (pending (sys_tasks s));
  ac_pending : ∀ n, n ∈ pending (sys_tasks s) → s0 ≤ n < tc_sequence (sys_client s)
}.

Lemma accounted_attempt ch nb s0 s i node p cfg r c t : accounted ch nb s0 s → sys_tasks s !! i = Some (Attempt p cfg r) →
  tc_sequence (sys_client s) < u64_max → attempt (sys_client s) node p cfg r = (c, t) →
  accounted ch nb s0 {| sys_client := c; sys_tasks := <[i := t]> (sys_tasks s) |} ∧
  tc_sequence c ≤ tc_sequence (sys_client s) + 1.
Proof.
  intros [Hch Hnb (txs&Hcar&Hsig) Hseq Hnd Hp] Hi Hmax Ha. destruct (tx_pending_insert _ _ _ Hi) as (rest&Hrest&Hins).
  cbn [waits_with app] in Hrest.
  apply attempt_cases in Ha as [[Hi1 Hi2] [(hash&->&Hc&b&tx&resp&Hb&Htx&_&_&_&Hacc)|(Hc&Hacc&Ht)]].
  - assert (length txs = length (accepted_txs (sys_client s))) as Hlen by (symmetry; by eapply Forall2_length).
    rewrite Hch, Hnb in Htx. split; [|lia]. constructor; cbn [sys_client sys_tasks]; [congruence|congruence| | | |].
    + exists (txs ++ [tx]). rewrite Hacc. split; [by apply Forall2_app; [|constructor]|].
      rewrite length_app. cbn [length]. rewrite Nat2Z.inj_add, seqZ_app by lia. apply Forall2_app; [done|].
      rewrite Hlen. change (Z.of_nat 1) with 1. rewrite <-Hseq. apply Forall2_cons. split; [|constructor].
      done.
    + rewrite Hacc, length_app. cbn [length]. lia.
    + rewrite Hins. cbn [waits_with app]. apply NoDup_cons. rewrite <-Hrest. split; [|done]. intros Hin%Hp. lia.
    + intros m. rewrite Hins. cbn [waits_with app]. rewrite elem_of_cons, <-Hrest. intros [->|Hin%Hp]; lia.
  - destruct Hacc as [Hacc|[? _]]; [|lia]. split; [|lia].
    assert (waits_with t = []) as Hnone by (by destruct Ht as [(->&_)|(?&->)]).
    assert (pending (<[i := t]> (sys_tasks s)) ≡ₚ pending (sys_tasks s)) as Hsame.
    { rewrite Hins, Hnone. by rewrite Hrest. }
    constructor; cbn [sys_client sys_tasks]; [congruence|congruence| | | |].
    + exists txs. by rewrite Hacc.
    + rewrite Hacc. lia.
    + by rewrite Hsame.
    + intros n. rewrite Hsame, Hc. apply Hp.
Qed.

Lemma accounted_poll ch nb s0 s i st hash n c t : accounted ch nb s0 s → sys_tasks s !! i = Some (Confirm hash n) →
  confirm_tx (sys_client s) hash n st = (c, t) → reports_loss (EvPoll i st) = false →
  accounted ch nb s0 {| sys_client := c; sys_tasks := <[i := t]> (sys_tasks s) |} ∧ c = sys_client s.
Proof.
  intros [Hch Hnb Hlog Hseq Hnd Hp] Hi Hc Hl. destruct (tx_pending_insert _ _ _ Hi) as (rest&Hrest&Hins). cbn [waits_with app] in Hrest.
  assert (c = sys_client s ∧ (t = Confirm hash n ∨ ∃ r, t = Finished r)) as [-> Ht].
  { unfold confirm_tx in Hc. destruct st as [st| |]; [|injection Hc as <- <-; split; [done|right; by eexists]..].
    cbn in Hl. destruct (ts_status st); try done; [injection Hc as <- <-; split; [done|by left]|].
    case_bool_decide; injection Hc as <- <-; (split; [done|right; by eexists]). }
  assert (NoDup (pending (<[i := t]> (sys_tasks s))) ∧
    ∀ m, m ∈ pending (<[i := t]> (sys_tasks s)) → m ∈ pending (sys_tasks s)) as [Hnd' Hsub].
  { rewrite Hrest in Hnd. rewrite Hins. setoid_rewrite Hins. setoid_rewrite Hrest.
    destruct Ht as [->|(r&->)]; cbn [waits_with app]; [done|]. apply NoDup_cons in Hnd as [_ Hnd].
    split; [done|]. intros m Hm. by right. }
  split; [|done]. constructor; cbn [sys_client sys_tasks]; [done|done|done|done|done|]. intros m Hm. by apply Hp, Hsub.
Qed.

Lemma accounted_run ch nb s0 es s : accounted ch nb s0 s → tc_sequence (sys_client s) + Z.of_nat (length es) ≤ u64_max →
  forallb (λ e, negb (reports_loss e)) es = true → accounted ch nb s0 (tx_run s es).
Proof.
  revert s; induction es as [|e es IH]; intros s Hs Hmax Hes; [done|]. cbn [forallb length] in Hes, Hmax.
  apply andb_true_iff in Hes as [He%negb_true_iff Hes].
  assert (accounted ch nb s0 (tx_step s e) ∧ tc_sequence (sys_client (tx_step s e)) ≤ tc_sequence (sys_client s) + 1) as [Hs' Hle];
    [|apply (IH (tx_step s e)); [done|lia|done]].
  assert (∀ ts, pending ts = pending (sys_tasks s) → accounted ch nb s0 {| sys_client := sys_client s; sys_tasks := ts |}) as Hnew.
  { intros ts Hts. destruct Hs as [? ? ? ? Hnd Hp]. constructor; cbn [sys_client sys_tasks]; [done|done|done|done| |]; by rewrite Hts. }
  destruct e as [url m cfg|blobs cfg|i node|i st]; cbn [tx_step].
  - split; [apply Hnew; by apply tx_pending_snoc|cbn; lia].
  - split; [apply Hnew|cbn; lia]. destruct (submit_blobs _ _ _) as [t|] eqn:Ht; [|by rewrite app_nil_r].
    apply tx_pending_snoc. by eapply submit_blobs_new.
  - destruct (sys_tasks s !! i) as [[p cfg r| |]|] eqn:Hi; [|split; [done|lia]..].
    destruct (attempt _ _ _ _ _) as [c t] eqn:Ha. apply (accounted_attempt _ _ _ _ _ _ _ _ _ _ _ Hs Hi) in Ha; [done|lia].
  - destruct (sys_tasks s !! i) as [[|hash n|]|] eqn:Hi; [split; [done|lia]| |split; [done|lia]..].
    destruct (confirm_tx _ _ _ _) as [c t] eqn:Hc. destruct (accounted_poll _ _ _ _ _ _ _ _ _ _ Hs Hi Hc He) as [? ->].
    split; [done|]. cbn. lia.
Qed.

(** C19. The sequence numbers of concurrent submissions.  Whatever submissions run at the same time,
    in whatever order they take their steps and whatever the node answers, as long as the node
    drops no accepted transaction and the sequence does not overflow: the transactions that were
    sent and that the node answered with the code of success are, in the order they were sent,
    transactions that name the consecutive sequences from the initial one of the account on,
    without gap or repetition, each signed over a document with its own body and authorization,
    the chain and the account; the account is at the next sequence; and the submissions that
    wait for confirmation wait with different sequences of these. *)
Theorem tx_sequences_consecutive c es :
  let s := tx_run {| sys_client := c; sys_tasks := [] |} es in
  tc_broadcasts c = [] → tc_sequence c + Z.of_nat (length es) ≤ u64_max →
  forallb (λ e, negb (reports_loss e)) es = true →
  ∃ txs, Forall2 carries (accepted_txs (sys_client s)) txs ∧
    Forall2 (signed_with (tc_chain_id c) (tc_number c)) (seqZ (tc_sequence c) (Z.of_nat (length txs))) txs ∧
    tc_sequence (sys_client s) = tc_sequence c + Z.of_nat (length txs) ∧
    NoDup (pending (sys_tasks s)) ∧
    ∀ n, n ∈ pending (sys_tasks s) → tc_sequence c ≤ n < tc_sequence (sys_client s).
Proof.
  intros s Hnew Hmax Hes.
  assert (accounted (tc_chain_id c) (tc_number c) (tc_sequence c) s) as [_ _ (txs&Hcar&Hsig) Hs Hn Hp].
  { apply accounted_run; [|done|done]. assert (accepted_txs c = []) as Hnone by (unfold accepted_txs; by rewrite Hnew).
    constructor; cbn [sys_client sys_tasks]; rewrite ?Hnone; [done|done| |cbn; lia|constructor|by intros n ?%elem_of_nil].
    exists []. split; constructor. }
  exists txs. rewrite (Forall2_length _ _ _ Hcar) in Hs. done.
Qed.

(** ** Retries *)

(** The round of a task when it holds the lock, whatever state the others left the client in. *)
Definition attempt_round (t : TxTask) (cn : TxClient * Node) : TxTask :=
  match t with Attempt p cfg r => (attempt (cn.1) (cn.2) p cfg r).2 | t => t end.

Lemma rounds_stop t l : (match t with Attempt _ _ _ => False | _ => True end) → foldl attempt_round t l = t.
Proof. intros Ht. induction l as [|x l IH]; [done|]. by destruct t. Qed.

Lemma attempt_rounds p cfg r l : (r ≤ 3)%nat → (3 < length l + r)%nat →
  match foldl attempt_round (Attempt p cfg r) l with Attempt _ _ _ => False | _ => True end.
Proof.
  revert r; induction l as [|[c node] l IH]; intros r Hr Hl; [cbn in Hl; lia|]. cbn [foldl attempt_round fst snd].
  destruct (attempt c node p cfg r) as [c' t] eqn:Ha. cbn [snd].
  destruct (attempt_cases _ _ _ _ _ _ _ Ha) as [_ [(h&->&_)|(_&_&[(->&Hlt&_)|(x&->)])]]; [by rewrite rounds_stop| |by rewrite rounds_stop].
  apply IH; cbn in Hl; lia.
Qed.

(** C36. A submission stops trying: after four rounds it was accepted or has failed, and after one
    round when the gas price was given.  A retry happens only because the fee was refused as
    too low. *)
Theorem tx_attempts_bounded p cfg l :
  ((4 ≤ length l)%nat ∨ (1 ≤ length l)%nat ∧ is_Some (cfg_gas_price cfg) →
   match foldl attempt_round (Attempt p cfg 0) l with Attempt _ _ _ => False | _ => True end) ∧
  ∀ c node r c', attempt c node p cfg r = (c', Attempt p cfg (S r)) →
    ∃ hash log, (match p with
                 | Message body => sign_and_broadcast_tx c node body cfg
                 | Blobs blobs => sign_and_broadcast_blobs c node blobs cfg
                 end).2 = Err (TxBroadcastFailed hash EcInsufficientFee log).
Proof.
  split.
  - intros [Hl|[Hl [price Hp]]]; [apply attempt_rounds; lia|]. destruct l as [|[c node] l]; [cbn in Hl; lia|].
    cbn [foldl attempt_round fst snd]. destruct (attempt c node p cfg 0) as [c' t] eqn:Ha. cbn [snd].
    destruct (attempt_cases _ _ _ _ _ _ _ Ha) as [_ [(h&->&_)|(_&_&[(_&_&Hnone)|(x&->)])]]; [by rewrite rounds_stop|congruence|by rewrite rounds_stop].
  - intros c node r c' Ha. unfold attempt in Ha.
    destruct (match p with Message _ => _ | Blobs _ => _ end) as [c1 [[hash sequence]|e| ]]; cbn [snd];
      injection Ha as _ Ha; [done| |done].
    destruct (retries_fee e cfg r) eqn:Hr; [|done]. unfold retries_fee in Hr.
    destruct e as [| | | | | | |hash [] log| | | |]; try done. by exists hash, log.
Qed.

(** ** Dropped transactions *)

(** A node that expects the sequence [n] accepts no transaction with another one. *)
Definition expects (n : Z) (node : Node) : Prop := ∀ b t resp,
  carries b t → tx_sequence t ≠ Some n → nd_broadcast_tx node b = Ok resp → br_code resp ≠ EcSuccess.

Definition expecting (n : Z) (e : TxEvent) : Prop :=
  match e with EvAttempt _ node => expects n node | EvPoll _ _ => False | _ => True end.

Lemma stuck_run n es s : Forall (expecting n) es → tc_sequence (sys_client s) ≠ n →
  tc_sequence (sys_client (tx_run s es)) = tc_sequence (sys_client s) ∧
  accepted_txs (sys_client (tx_run s es)) = accepted_txs (sys_client s).
Proof.
  intros Hes. revert s; induction Hes as [|e es He _ IH]; intros s Hs; [done|]. cbn [tx_run foldl].
  assert (tc_sequence (sys_client (tx_step s e)) = tc_sequence (sys_client s) ∧
    accepted_txs (sys_client (tx_step s e)) = accepted_txs (sys_client s)) as [Hc Ha].
  { destruct e as [| |i node|]; [done|done| |done]. cbn [tx_step].
    destruct (sys_tasks s !! i) as [[p cfg r| |]|]; [|done..].
    destruct (attempt _ _ _ _ _) as [c t] eqn:Hat. cbn [sys_client].
    assert (∀ hash, ¬ accepts (sys_client s) node c hash) as Hno.
    { intros hash (b&tx&resp&Hb&Htx&Hr&Hok&_). apply (He b tx resp Hb); [|done|done].
      rewrite (signed_tx_sequence _ _ _ _ Htx). congruence. }
    apply attempt_cases in Hat as [_ [(hash&_&_&Hac)|(Hc&[Hac|(_&hash&Hac)]&_)]]; [by destruct (Hno hash)|done|by destruct (Hno hash)]. }
  fold (tx_run (tx_step s e) es). destruct (IH (tx_step s e)) as [Hc' Ha']; [congruence|]. split; congruence.
Qed.

Definition lost (r : res GrpcError TxStatusResponse) : Prop :=
  match r with Ok st => ts_status st = Evicted ∨ ts_status st = Unknown | _ => False end.

Lemma confirm_lost c hash n st : lost st → ∃ r, confirm_tx c hash n st = (set_account c (with_sequence (tc_account c) n), Finished r).
Proof. destruct st as [st| |]; [|done..]. cbn. intros [->| ->]; by eexists. Qed.

Lemma set_sequence c n : tc_sequence (set_account c (with_sequence (tc_account c) n)) = n.
Proof. unfold tc_sequence, set_account. cbn. by destruct (tc_account c). Qed.

(** C37. When the node drops two transactions that follow one another, the client goes back to the
    sequence of the one whose loss it notices last.  Noticed in the order of the sequences, that
    is the wrong one: the node expects the sequence of the first, the client is at the second,
    and from then on no submission is accepted any more, whatever the client submits.  Noticed
    in the other order the client is right. *)
Theorem lost_transactions_block_client s i j hi hj n sti stj es : i ≠ j →
  sys_tasks s !! i = Some (Confirm hi n) → sys_tasks s !! j = Some (Confirm hj (n + 1)) → lost sti → lost stj →
  Forall (expecting n) es →
  (let s' := tx_run s ([EvPoll i sti; EvPoll j stj] ++ es) in
   tc_sequence (sys_client s') = n + 1 ∧ accepted_txs (sys_client s') = accepted_txs (sys_client s)) ∧
  tc_sequence (sys_client (tx_run s [EvPoll j stj; EvPoll i sti])) = n.
Proof.
  intros Hij Hi Hj Hsi Hsj Hes. unfold tx_run. split.
  - rewrite foldl_app. cbn [foldl tx_step]. rewrite Hi.
    destruct (confirm_lost (sys_client s) hi n sti Hsi) as (r&->). cbn [sys_tasks sys_client].
    rewrite list_lookup_insert_ne, Hj by done.
    destruct (confirm_lost (set_account (sys_client s) (with_sequence (tc_account (sys_client s)) n)) hj (n + 1) stj Hsj) as (r'&->).
    set (s1 := {| sys_client := _; sys_tasks := _ |}).
    destruct (stuck_run n es s1 Hes) as [Hc Ha]; [unfold s1; cbn [sys_client]; rewrite set_sequence; lia|].
    unfold tx_run in Hc, Ha. cbn. rewrite Hc, Ha. unfold s1. cbn [sys_client]. by rewrite set_sequence.
  - cbn [foldl tx_step]. rewrite Hj.
    destruct (confirm_lost (sys_client s) hj (n + 1) stj Hsj) as (r&->). cbn [sys_tasks sys_client].
    rewrite list_lookup_insert_ne, Hi by done.
    destruct (confirm_lost (set_account (sys_client s) (with_sequence (tc_account (sys_client s)) (n + 1))) hi n sti Hsi) as (r'&->).
    cbn [sys_client]. apply set_sequence.
Qed.
End Properties.

(** ** Gas *)

Definition total_shares (blobs : list Blob) : Z := foldr (λ b n, Blob_shares_len b + n) 0 blobs.

(** The formula for the gas of a transaction that pays for blobs: gas per byte of the shares the
    blobs occupy, a cost per blob, and a fixed cost. *)
Definition pfb_gas (blobs : list Blob) (v : AppVersion) : Z :=
  total_shares blobs * Z.of_nat SHARE_SIZE * gas_per_blob_byte v +
  tx_size_cost_per_byte v * BYTES_PER_BLOB_INFO * Z.of_nat (length blobs) + PFB_GAS_FIXED_COST.

Lemma shares_len_pos b : 0 < Blob_shares_len b.
Proof.
  unfold Blob_shares_len, shares_needed_for_blob, checked_sub. destruct (_ <? _) eqn:E; [lia|]. apply Z.ltb_ge in E.
  unfold div_ceil. set (x := Z.of_nat (length (b_data b)) - Z.of_nat FIRST_SPARSE_SHARE_CONTENT_SIZE).
  assert (0 ≤ x / Z.of_nat CONTINUATION_SPARSE_SHARE_CONTENT_SIZE) by (apply Z.div_pos; [unfold x; lia|done]).
  destruct (_ =? _); lia.
Qed.

Lemma total_shares_nonneg blobs : 0 ≤ total_shares blobs.
Proof. unfold total_shares. induction blobs as [|b blobs IH]; cbn [foldr]; [lia|]. pose proof (shares_len_pos b). lia. Qed.

Lemma sum_u64_spec {E} acc blobs : 0 ≤ acc → acc + total_shares blobs ≤ u64_max →
  @sum_u64 E acc (Blob_shares_len <$> blobs) = Ok (acc + total_shares blobs).
Proof.
  revert acc; induction blobs as [|b blobs IH]; intros acc Ha Hm; [cbn; by rewrite Z.add_0_r|].
  change (total_shares (b :: blobs)) with (Blob_shares_len b + total_shares blobs) in *. cbn [fmap list_fmap sum_u64].
  pose proof (shares_len_pos b). pose proof (total_shares_nonneg blobs). rewrite u64_add_Ok by lia. cbn [mbind res_bind].
  rewrite IH by lia. f_equal. lia.
Qed.

Lemma u64_mul_Ok {E} x y : x * y ≤ u64_max → @u64_mul E x y = Ok (x * y).
Proof. intros Hm. unfold u64_mul, checked_mul. by rewrite (proj2 (Z.ltb_ge _ _)) by lia. Qed.

(** C34. The estimate of the gas for blobs: for amounts up to 2^48 nothing overflows, and the
    computation with floating point numbers stays within one unit below eleven tenths of the
    formula, never above; in particular the limit covers the formula. *)
Theorem estimate_gas_bounds blobs v : pfb_gas blobs v ≤ 2 ^ 48 →
  ∃ gas, estimate_gas blobs v DEFAULT_GAS_MULTIPLIER = Ok gas ∧
    11 * pfb_gas blobs v / 10 - 1 ≤ gas ≤ 11 * pfb_gas blobs v / 10 ∧ pfb_gas blobs v ≤ gas.
Proof.
  intros Hg. pose proof (total_shares_nonneg blobs) as Hn. unfold pfb_gas in *. set (n := total_shares blobs) in *.
  assert (gas_per_blob_byte v = 8 ∧ tx_size_cost_per_byte v = 10) as [H8 H10] by (by destruct v).
  unfold PFB_GAS_FIXED_COST, BYTES_PER_BLOB_INFO in *. change (Z.of_nat SHARE_SIZE) with 512 in *. rewrite H8, H10 in *.
  unfold estimate_gas. rewrite sum_u64_spec by (fold n; unfold u64_max; lia). cbn [mbind res_bind]. fold n.
  rewrite Z.add_0_l. change (Z.of_nat SHARE_SIZE) with 512. rewrite H8, H10. unfold BYTES_PER_BLOB_INFO, PFB_GAS_FIXED_COST.
  rewrite u64_mul_Ok by (unfold u64_max; lia). cbn [mbind res_bind].
  rewrite u64_mul_Ok by (unfold u64_max; lia). cbn [mbind res_bind].
  rewrite u64_mul_Ok by (unfold u64_max; lia). cbn [mbind res_bind].
  rewrite u64_mul_Ok by (unfold u64_max; lia). cbn [mbind res_bind].
  rewrite u64_add_Ok by (unfold u64_max; lia). cbn [mbind res_bind].
  rewrite u64_add_Ok by (unfold u64_max; lia). cbn [mbind res_bind].
  eexists. split; [done|]. set (g := n * 512 * 8 + 10 * 70 * Z.of_nat (length blobs) + 75000) in *.
  destruct (times_1_1_bounds g) as [Hlo Hhi]; [lia|]. split; [by split|]. etrans; [|exact Hlo].
  assert (g + 1 ≤ 11 * g / 10); [|lia]. apply Z.div_le_lower_bound; lia.
Qed.

(** ** Witnesses *)

#[local] Existing Instances toy_DahExternals toy_NmtExternals toy_bech32 toy_bitvec toy_keys.

(** Transactions are encoded by their sequence only. *)
#[local] Instance toy_tx : TxExternals := {|
  encode_base_account _ := []; decode_base_account _ := None; decode_module_account _ := None;
  base_account_type_url := []; module_account_type_url := []; pubkey_type_url := []; pfb_type_url := [];
  encode_pfb _ := []; encode_tx_body _ := []; encode_auth_info _ := []; encode_sign_doc _ _ _ _ := [];
  encode_tx t := match tx_sequence t with Some n => [n] | None => [] end;
  encode_blob_tx b _ _ := b; signer_sign b := b
|}.

(** A node that accepts exactly the sequence [n]. *)
Definition toy_node (n : Z) : Node := {|
  nd_simulate _ := Ok 80000; nd_min_gas_price := Ok f64_1_1;
  nd_broadcast_tx b := Ok {| br_txhash := Sha256 b; br_raw_log := [];
                             br_code := if bool_decide (b = [n]) then EcSuccess else EcWrongSequence |}
|}.
Definition toy_cfg : TxConfig := {| cfg_gas_limit := None; cfg_gas_price := None |}.
Definition toy_tx_client : TxClient := {| tc_broadcasts := [];
  tc_account := Base {| acct_address := toy_address; acct_pub_key := None; acct_number := 1; acct_sequence := 7 |};
  tc_pubkey := ([1; 2] : @Secp256k1Key toy_keys); tc_app_version := V3; tc_chain_id := []; tc_gas_price := f64_1_1
|}.
Definition toy_tx_system : TxSystem := {| sys_client := toy_tx_client; sys_tasks := [] |}.
Definition toy_tx_events : list TxEvent :=
  [EvMessage [1] [] toy_cfg; EvMessage [2] [] toy_cfg; EvAttempt 1 (toy_node 7); EvAttempt 0 (toy_node 8)].

(** Two submissions, of which the second one goes first; a third one is refused by a node that
    expects another sequence. *)
Lemma tx_sequences_consecutive_witness :
  let s := tx_run toy_tx_system (toy_tx_events ++ [EvMessage [3] [] toy_cfg; EvAttempt 2 (toy_node 100)]) in
  accepted_txs (sys_client s) = [[7]; [8]] ∧ length (tc_broadcasts (sys_client s)) = 3%nat ∧
  ∃ txs, Forall2 carries [[7]; [8]] txs ∧ Forall2 (signed_with [] 1) [7; 8] txs ∧ tc_sequence (sys_client s) = 9.
Proof.
  intros s. destruct (tx_sequences_consecutive toy_tx_client (toy_tx_events ++ [EvMessage [3] [] toy_cfg; EvAttempt 2 (toy_node 100)]))
    as (txs&Hc&Hs&Hn&_); [reflexivity|vm_compute; discriminate|reflexivity|].
  assert (accepted_txs (sys_client s) = [[7]; [8]]) as Ha by (vm_compute; reflexivity).
  split; [exact Ha|]. split; [vm_compute; reflexivity|]. exists txs.
  pose proof (eq_rect _ (λ l, Forall2 carries l txs) Hc _ Ha) as Hc'. split; [exact Hc'|].
  pose proof (Forall2_length _ _ _ Hc') as Hl. cbn [length] in Hl. rewrite <-Hl in Hs, Hn. split; [exact Hs|exact Hn].
Defined.

Lemma tx_attempts_bounded_witness :
  match foldl attempt_round (Attempt (Message (tx_body_of (into_any [] []))) toy_cfg 0)
          (repeat (toy_tx_client, toy_node 7) 4) with Attempt _ _ _ => False | _ => True end.
Proof.
  destruct (tx_attempts_bounded (Message (tx_body_of (into_any [] []))) toy_cfg (repeat (toy_tx_client, toy_node 7) 4)) as [Hb _].
  apply Hb. left. apply Nat.le_refl.
Defined.

Lemma toy_node_expects n : expects n (toy_node n).
Proof.
  intros b t resp Hb Ht [= <-]. cbn [br_code]. case_bool_decide as Hbn; [|done]. exfalso. apply Ht.
  destruct Hb as [t|t ?]; cbn in Hbn; destruct (tx_sequence t); by simplify_eq.
Qed.

Definition toy_lost : res GrpcError TxStatusResponse :=
  Ok {| ts_height := 0; ts_index := 0; ts_execution_code := EcSuccess; ts_error := []; ts_status := Evicted |}.

(** The two transactions with sequences 7 and 8 are dropped; a third submission is refused. *)
Lemma lost_transactions_block_client_witness :
  let s := tx_run (tx_run toy_tx_system toy_tx_events)
             ([EvPoll 1 toy_lost; EvPoll 0 toy_lost] ++ [EvMessage [3] [] toy_cfg; EvAttempt 2 (toy_node 7)]) in
  tc_sequence (sys_client s) = 8 ∧ accepted_txs (sys_client s) = [[7]; [8]].
Proof.
  destruct (lost_transactions_block_client (tx_run toy_tx_system toy_tx_events) 1 0 (Sha256 [7]) (Sha256 [8]) 7
    toy_lost toy_lost [EvMessage [3] [] toy_cfg; EvAttempt 2 (toy_node 7)]) as [[Hc Ha] _];
    [discriminate|by vm_compute|by vm_compute|by left|by left| |].
  - constructor; [exact I|]. constructor; [exact (toy_node_expects 7)|constructor].
  - split; [exact Hc|]. etransitivity; [exact Ha|]. by vm_compute.
Defined.

Lemma estimate_gas_bounds_witness : ∃ gas, estimate_gas [toy_blob 1000] V3 DEFAULT_GAS_MULTIPLIER = Ok gas ∧
  pfb_gas [toy_blob 1000] V3 = 87988 ∧ 96785 ≤ gas ≤ 96786.
Proof.
  assert (pfb_gas [toy_blob 1000] V3 = 87988) as Hg by (by vm_compute).
  destruct (estimate_gas_bounds [toy_blob 1000] V3) as (gas&Hgas&Hb&_); [rewrite Hg; lia|].
  exists gas. split; [exact Hgas|]. split; [exact Hg|]. rewrite Hg in Hb. exact Hb.
Defined.
