(* ===== verification/GrpcMessages.v ===== *)
(** * The methods of the gRPC client (src/grpc/src/grpc.rs and grpc/)

    A method makes a message of its arguments, sends it, and makes its result of the response
    (the attribute [grpc_method]).  The node is a record of functions from requests to responses, with the
    errors of tonic; messages have the fields that the client sets or reads. *)

From Stdlib Require Import String.
From S2P Require Import StateTypes Prelude Consts Nmt Merkle Dah Header Share Blob Eds Wire Float64 TxClient.

(** ** Messages *)

(** [PageRequest] and [PageResponse]; the client never sets the first. *)
Record PageRequest := { pq_key : bytes; pq_limit : Z }.
Record PageResponse := { pr_next_key : bytes; pr_total : Z }.
Record AddressRequest := { ar_address : bytes; ar_pagination : option PageRequest }.
Record BalanceRequest := { bq_address : bytes; bq_denom : bytes }.
Record CoinsResponse := { cr_coins : list RawCoin; cr_pagination : option PageResponse }.
Record AccountsResponse := { as_accounts : list Any; as_pagination : option PageResponse }.
Inductive BroadcastMode := BroadcastUnspecified | BroadcastBlock | BroadcastSync | BroadcastAsync.
Definition mode_into (m : BroadcastMode) : Z :=
  match m with BroadcastUnspecified => 0 | BroadcastBlock => 1 | BroadcastSync => 2 | BroadcastAsync => 3 end.
Record BroadcastTxRequest := { btr_tx_bytes : bytes; btr_mode : Z }.
Record AuthParams := {
  max_memo_characters : Z; tx_sig_limit : Z; ap_tx_size_cost_per_byte : Z; sig_verify_cost_ed25519 : Z; sig_verify_cost_secp256k1 : Z
}.
Record BlobParams := { gas_per_blob_byte : Z; gov_max_square_size : Z }.
(** [SimulateRequest]: the deprecated field [tx] is left at its default. *)
Record SimulateRequest := { sq_tx_bytes : bytes }.

Section Methods.
Context `{Bech32} `{BitvecLimit} `{PublicKeys} `{DahExternals} `{NmtExternals} `{TxExternals} {L V GasInfo : Type}.
Context (hash_from_str : bytes → option Hash) (hash_to_string : Hash → bytes).

Record GetTxResponse := { gt_body : TxBody; gt_auth_info : AuthInfo; gt_signatures : list bytes; gt_tx_response : TxResponse L V }.
Record RawGetTxResponse := { rgt_tx : option RawTx; rgt_tx_response : option (RawTxResponse L V) }.

(** What the node does. *)
Record Server := {
  sv_params : unit → res GrpcError (option AuthParams);
  sv_account : bytes → res GrpcError (option Any);
  sv_accounts : option PageRequest → res GrpcError AccountsResponse;
  sv_balance : BalanceRequest → res GrpcError (option RawCoin);
  sv_all_balances : AddressRequest → res GrpcError CoinsResponse;
  sv_spendable_balances : AddressRequest → res GrpcError CoinsResponse;
  sv_total_supply : option PageRequest → res GrpcError CoinsResponse;
  sv_broadcast_tx : BroadcastTxRequest → res GrpcError (option (RawTxResponse L V));
  sv_get_tx : bytes → res GrpcError RawGetTxResponse;
  sv_simulate : SimulateRequest → res GrpcError (option GasInfo);
  sv_blob_params : unit → res GrpcError (option BlobParams);
  sv_tx_status : bytes → res GrpcError RawTxStatusResponse
}.

(** The method that [grpc_method] makes. *)
Definition grpc_method {Q R A} (call : Q → res GrpcError R) (try_from_response : R → res GrpcError A) (param : Q) : res GrpcError A :=
  response ← call param; try_from_response response.
Definition state_error {A} (r : res StateError A) : res GrpcError A := map_err CelestiaStateError r.
Definition required {A} (o : option A) : res GrpcError A := ok_or o FailedToParseResponse.

(** auth.rs *)
Definition get_auth_params (s : Server) : res GrpcError AuthParams :=
  grpc_method (sv_params s) (λ r, p ← required r;
    Ok {| max_memo_characters := max_memo_characters p; tx_sig_limit := tx_sig_limit p;
          ap_tx_size_cost_per_byte := ap_tx_size_cost_per_byte p; sig_verify_cost_ed25519 := sig_verify_cost_ed25519 p;
          sig_verify_cost_secp256k1 := sig_verify_cost_secp256k1 p |}) tt.
Definition address_param (a : Address) : res GrpcError bytes := state_error (Address_to_string a).
Definition get_account (s : Server) (a : Address) : res GrpcError GrpcAccount :=
  address ← address_param a;
  grpc_method (sv_account s) (λ r, any ← required r; account_from_any any) address.
Definition get_accounts (s : Server) : res GrpcError (list GrpcAccount) :=
  grpc_method (sv_accounts s) (λ r, mapM account_from_any (as_accounts r)) None.

(** bank.rs *)
Definition coins_from_response (r : CoinsResponse) : res GrpcError (list Coin) := state_error (mapM Coin_try_from (cr_coins r)).
Definition get_balance (s : Server) (a : Address) (denom : bytes) : res GrpcError Coin :=
  address ← address_param a;
  grpc_method (sv_balance s) (λ r, c ← required r; state_error (Coin_try_from c)) {| bq_address := address; bq_denom := denom |}.
Definition get_all_balances (s : Server) (a : Address) : res GrpcError (list Coin) :=
  address ← address_param a;
  grpc_method (sv_all_balances s) coins_from_response {| ar_address := address; ar_pagination := None |}.
Definition get_spendable_balances (s : Server) (a : Address) : res GrpcError (list Coin) :=
  address ← address_param a;
  grpc_method (sv_spendable_balances s) coins_from_response {| ar_address := address; ar_pagination := None |}.
Definition get_total_supply (s : Server) : res GrpcError (list Coin) :=
  grpc_method (sv_total_supply s) coins_from_response None.

(** cosmos_tx.rs *)
Definition broadcast_tx (s : Server) (tx_bytes : bytes) (mode : BroadcastMode) : res GrpcError (TxResponse L V) :=
  grpc_method (sv_broadcast_tx s) (λ r, r ← required r; state_error (TxResponse_try_from hash_from_str r))
    {| btr_tx_bytes := tx_bytes; btr_mode := mode_into mode |}.
Definition get_tx_from_response (r : RawGetTxResponse) : res GrpcError GetTxResponse :=
  tx_response ← required (rgt_tx_response r);
  tx_response ← state_error (TxResponse_try_from hash_from_str tx_response);
  tx ← required (rgt_tx r);
  body ← required (rtx_body tx);
  body ← state_error (TxBody_try_from body);
  auth_info ← required (rtx_auth_info tx);
  auth_info ← state_error (AuthInfo_try_from auth_info);
  Ok {| gt_body := body; gt_auth_info := auth_info; gt_signatures := rtx_signatures tx; gt_tx_response := tx_response |}.
Definition get_tx (s : Server) (hash : Hash) : res GrpcError GetTxResponse :=
  grpc_method (sv_get_tx s) get_tx_from_response (hash_to_string hash).
Definition simulate (s : Server) (tx_bytes : bytes) : res GrpcError GasInfo :=
  grpc_method (sv_simulate s) required {| sq_tx_bytes := tx_bytes |}.

(** blob.rs and celestia_tx.rs *)
Definition get_blob_params (s : Server) : res GrpcError BlobParams :=
  grpc_method (sv_blob_params s) (λ r, p ← required r;
    Ok {| gas_per_blob_byte := gas_per_blob_byte p; gov_max_square_size := gov_max_square_size p |}) tt.
Definition tx_status (s : Server) (hash : Hash) : res GrpcError TxStatusResponse :=
  grpc_method (sv_tx_status s) TxStatusResponse_try_from (hash_to_string hash).

(** ** Theorems *)

Lemma state_error_Ok {A} (r : res StateError A) x : state_error r = Ok x ↔ r = Ok x.
Proof. destruct r; cbn; split; congruence. Qed.
Lemma required_Ok {A} (o : option A) x : required o = Ok x ↔ o = Some x.
Proof. apply ok_or_Ok. Qed.

(** Lists of coins are all or nothing: the result has exactly the coins of the response in their
    order, and a single coin that does not convert (an amount of more than 64 bits, say) hides all. *)
Theorem get_all_balances_exact s a l : get_all_balances s a = Ok l ↔
  ∃ address r, Address_to_string a = Ok address ∧ sv_all_balances s {| ar_address := address; ar_pagination := None |} = Ok r ∧
    Forall2 (λ raw c, Coin_try_from raw = Ok c) (cr_coins r) l.
Proof.
  unfold get_all_balances, grpc_method, coins_from_response, address_param. split.
  - intros Hr. apply bind_Ok in Hr as (address&Ha&Hr). apply bind_Ok in Hr as (r&Hs&Hr). exists address, r.
    split_and!; [by apply state_error_Ok|done|]. by apply state_error_Ok, mapM_res_Ok in Hr.
  - intros (address&r&Ha&Hs&Hr). rewrite Ha. cbn. rewrite Hs. cbn. apply state_error_Ok. by apply mapM_res_Ok.
Qed.

(** A node that keeps to the limit of its pages: without a page asked for, it answers with the first,
    and says whether there is more. *)
Definition first_page (limit : nat) (all : list RawCoin) : CoinsResponse :=
  {| cr_coins := take limit all;
     cr_pagination := Some {| pr_next_key := if (limit <? length all)%nat then [1] else []; pr_total := Z.of_nat (length all) |} |}.
(** The balance of all coins is the first page of it: the client neither asks for the others nor tells
    that they exist. *)
Theorem balances_first_page_only s a limit (all : list Coin) l : Forall (λ c, is_u64 (coin_amount c)) all →
  (∀ address, sv_all_balances s {| ar_address := address; ar_pagination := None |} = Ok (first_page limit (Coin_into_raw <$> all))) →
  get_all_balances s a = Ok l → l = take limit all ∧ ((limit < length all)%nat → l ≠ all).
Proof.
  intros Hall Hs Hl. apply get_all_balances_exact in Hl as (address&r&_&Hr&Hl). rewrite Hs in Hr. injection Hr as <-. cbn in Hl.
  assert (l = take limit all) as ->.
  { rewrite <-fmap_take in Hl. apply Forall2_fmap_l in Hl.
    assert (Forall (λ c, is_u64 (coin_amount c)) (take limit all)) as Ht by (by apply Forall_take). revert l Hl.
    induction Ht as [|c cs Hc _ IH]; intros l Hl; inversion Hl as [|? c' ? l' Hcc Hll]; subst; [done|]. f_equal; [|by apply IH].
    change (Coin_try_from (Coin_into_raw c) = Ok c') in Hcc. unfold Coin_try_from, Coin_into_raw in Hcc. cbn [rc_amount rc_denom] in Hcc.
    rewrite u64_string_roundtrip in Hcc by done. injection Hcc as <-. by destruct c. }
  split; [done|]. intros Hlt Heq. apply (f_equal length) in Heq. rewrite length_take in Heq. lia.
Qed.

(** A transaction is returned exactly when the response has all its parts and all of them convert. *)
Theorem get_tx_exact r t : get_tx_from_response r = Ok t ↔ ∃ raw_response raw_tx raw_body raw_auth,
  rgt_tx_response r = Some raw_response ∧ TxResponse_try_from hash_from_str raw_response = Ok (gt_tx_response t) ∧
  rgt_tx r = Some raw_tx ∧ rtx_body raw_tx = Some raw_body ∧ TxBody_try_from raw_body = Ok (gt_body t) ∧
  rtx_auth_info raw_tx = Some raw_auth ∧ AuthInfo_try_from raw_auth = Ok (gt_auth_info t) ∧ gt_signatures t = rtx_signatures raw_tx.
Proof.
  unfold get_tx_from_response. split.
  - intros Hr. apply bind_Ok in Hr as (x1&E1&Hr). apply bind_Ok in Hr as (x2&E2&Hr). apply bind_Ok in Hr as (x3&E3&Hr).
    apply bind_Ok in Hr as (x4&E4&Hr). apply bind_Ok in Hr as (x5&E5&Hr). apply bind_Ok in Hr as (x6&E6&Hr).
    apply bind_Ok in Hr as (x7&E7&Hr). injection Hr as <-. apply required_Ok in E1, E3, E4, E6. apply state_error_Ok in E2, E5, E7.
    exists x1, x3, x4, x6. split_and!; done.
  - intros (x1&x3&x4&x6&E1&E2&E3&E4&E5&E6&E7&E8). rewrite E1. cbn. rewrite E2. cbn. rewrite E3. cbn. rewrite E4. cbn. rewrite E5. cbn.
    rewrite E6. cbn. rewrite E7. cbn. rewrite <-E8. by destruct t.
Qed.
End Methods.

(** ** Blocks (tendermint.rs) *)

Section Blocks.
Context `{CommitProto}.

(** The errors of converting a block are of the types crate. *)
Inductive BlockError := BlockGrpc (e : GrpcError) | BlockTypes (e : WireError).
Definition block_from_response (r : option RawBlock) : res BlockError Block :=
  raw ← ok_or r (BlockGrpc FailedToParseResponse);
  map_err BlockTypes (Block_try_from raw).
Definition get_latest_block (sv_get_latest_block : unit → res GrpcError (option RawBlock)) : res BlockError Block :=
  r ← map_err BlockGrpc (sv_get_latest_block tt); block_from_response r.
Definition get_block_by_height (sv_get_block_by_height : Z → res GrpcError (option RawBlock)) (height : Z) : res BlockError Block :=
  r ← map_err BlockGrpc (sv_get_block_by_height height); block_from_response r.

(** Over a node that answers with the blocks of its chain, the client gets them back, up to a default commit,
    which counts as none. *)
Theorem blocks_received `{!TendermintProtoSpec} (chain : Z → option Block) height b : chain height = Some b →
  get_block_by_height (λ h, Ok (Block_into_raw <$> chain h)) height = Ok (drop_default_commit b).
Proof.
  intros Hb. unfold get_block_by_height. rewrite Hb. cbn [fmap option_fmap option_map map_err mbind res_bind].
  unfold block_from_response. cbn [ok_or mbind res_bind]. by rewrite block_raw_roundtrip.
Qed.
End Blocks.
