(* ===== verification/NodeConfig.v ===== *)
(** * Networks and the configuration of a node (src/node/src/network.rs,
    src/node/src/node/builder.rs)

    The networks a node may join, their names and bootnodes, and the builder that turns what the
    user set into the configuration of a node.  A [Duration] is its number of nanoseconds.  The
    parser of multiaddresses and the generation of key pairs are external; which store types are
    the in-memory ones ([TypeId::of]) is a parameter of [build_config]. *)

From Stdlib Require Import String.
From S2P Require Import Prelude Consts Nmt StateTypes.

(** ** Networks *)

Record NetworkId := { nid_id : bytes }.
Inductive Network := Mainnet | Arabica | Mocha | Custom (id : NetworkId).
Inductive InvalidNetworkId := InvalidNetworkIdOf (id : bytes).

#[global] Instance NetworkId_eq_dec : EqDecision NetworkId.
Proof. solve_decision. Defined.
#[global] Instance Network_eq_dec : EqDecision Network.
Proof. solve_decision. Defined.

(** The character [/]. *)
Definition SLASH : Z := 47.

Definition NetworkId_new (id : bytes) : res InvalidNetworkId NetworkId :=
  if bool_decide (SLASH ∈ id) then Err (InvalidNetworkIdOf id) else Ok {| nid_id := id |}.
Definition NetworkId_from_str (s : bytes) : res InvalidNetworkId NetworkId := NetworkId_new s.
Definition NetworkId_to_string (n : NetworkId) : bytes := nid_id n.

Definition Network_custom (id : bytes) : res InvalidNetworkId Network :=
  id ← NetworkId_new id; Ok (Custom id).
Definition Network_is_custom (n : Network) : bool := match n with Custom _ => true | _ => false end.

Definition Network_id (n : Network) : bytes :=
  match n with
  | Mainnet => str "celestia"
  | Arabica => str "arabica-11"
  | Mocha => str "mocha-4"
  | Custom s => nid_id s
  end.

(** The arms of the [match] on the name. *)
Definition mainnet_names : list bytes := [str "Mainnet"; str "MainNet"; str "mainnet"; str "celestia"].
Definition arabica_names : list bytes := [str "Arabica"; str "arabica"; str "arabica-11"].
Definition mocha_names : list bytes := [str "Mocha"; str "mocha"; str "mocha-4"].

Definition Network_from_str (value : bytes) : res InvalidNetworkId Network :=
  if bool_decide (value ∈ mainnet_names) then Ok Mainnet
  else if bool_decide (value ∈ arabica_names) then Ok Arabica
  else if bool_decide (value ∈ mocha_names) then Ok Mocha
  else Network_custom value.

Definition Network_to_string (n : Network) : bytes :=
  match n with
  | Mainnet => str "Mainnet"
  | Arabica => str "Arabica"
  | Mocha => str "Mocha"
  | Custom s => NetworkId_to_string s
  end.

Definition bootnode_strings (n : Network) : list bytes :=
  match n with
  | Mainnet =>
      [str "/dnsaddr/da-bridge-1.celestia-bootstrap.net/p2p/12D3KooWSqZaLcn5Guypo2mrHr297YPJnV8KMEMXNjs3qAS8msw8";
       str "/dnsaddr/da-bridge-2.celestia-bootstrap.net/p2p/12D3KooWQpuTFELgsUypqp9N4a1rKBccmrmQVY8Em9yhqppTJcXf";
       str "/dnsaddr/da-bridge-3.celestia-bootstrap.net/p2p/12D3KooWSGa4huD6ts816navn7KFYiStBiy5LrBQH1HuEahk4TzQ";
       str "/dnsaddr/da-bridge-4.celestia-bootstrap.net/p2p/12D3KooWHBXCmXaUNat6ooynXG837JXPsZpSTeSzZx6DpgNatMmR";
       str "/dnsaddr/da-bridge-5.celestia-bootstrap.net/p2p/12D3KooWDGTBK1a2Ru1qmnnRwP6Dmc44Zpsxi3xbgFk7ATEPfmEU";
       str "/dnsaddr/da-bridge-6.celestia-bootstrap.net/p2p/12D3KooWLTUFyf3QEGqYkHWQS2yCtuUcL78vnKBdXU5gABM1YDeH";
       str "/dnsaddr/da-full-1.celestia-bootstrap.net/p2p/12D3KooWKZCMcwGCYbL18iuw3YVpAZoyb1VBGbx9Kapsjw3soZgr";
       str "/dnsaddr/da-full-2.celestia-bootstrap.net/p2p/12D3KooWE3fmRtHgfk9DCuQFfY3H3JYEnTU3xZozv1Xmo8KWrWbK";
       str "/dnsaddr/da-full-3.celestia-bootstrap.net/p2p/12D3KooWK6Ftsd4XsWCsQZgZPNhTrE5urwmkoo5P61tGvnKmNVyv";
       str "/dnsaddr/boot.celestia.pops.one/p2p/12D3KooWBBzzGy5hAHUQVh2vBvL25CKwJ7wbmooPcz4amQhzJHJq";
       str "/dnsaddr/celestia.qubelabs.io/p2p/12D3KooWAzucnC7yawvLbmVxv53ihhjbHFSVZCsPuuSzTg6A7wgx"]
  | Arabica =>
      [str "/dnsaddr/da-bridge-1.celestia-arabica-11.com/p2p/12D3KooWGqwzdEqM54Dce6LXzfFr97Bnhvm6rN7KM7MFwdomfm4S";
       str "/dnsaddr/da-bridge-2.celestia-arabica-11.com/p2p/12D3KooWCMGM5eZWVfCN9ZLAViGfLUWAfXP5pCm78NFKb9jpBtua";
       str "/dnsaddr/da-bridge-3.celestia-arabica-11.com/p2p/12D3KooWEWuqrjULANpukDFGVoHW3RoeUU53Ec9t9v5cwW3MkVdQ";
       str "/dnsaddr/da-bridge-4.celestia-arabica-11.com/p2p/12D3KooWLT1ysSrD7XWSBjh7tU1HQanF5M64dHV6AuM6cYEJxMPk"]
  | Mocha =>
      [str "/dnsaddr/da-bridge-1-mocha-4.celestia-mocha.com/p2p/12D3KooWCBAbQbJSpCpCGKzqz3rAN4ixYbc63K68zJg9aisuAajg";
       str "/dnsaddr/da-bridge-2-mocha-4.celestia-mocha.com/p2p/12D3KooWK6wJkScGQniymdWtBwBuU36n6BRXp9rCDDUD6P5gJr3G";
       str "/dnsaddr/da-full-1-mocha-4.celestia-mocha.com/p2p/12D3KooWCUHPLqQXZzpTx1x3TAsdn3vYmTNDhzg66yG8hqoxGGN8";
       str "/dnsaddr/da-full-2-mocha-4.celestia-mocha.com/p2p/12D3KooWR6SHsXPkkvhCRn6vp1RqSefgaT1X1nMNvrVjU2o3GoYy";
       str "/dnsaddr/mocha-boot.pops.one/p2p/12D3KooWDzNyDSvTBdKQAmnsUdAyQCQWwM3ReXTmPaaf6LzfNwRs";
       str "/dnsaddr/celestia-mocha.qubelabs.io/p2p/12D3KooWQVmHy7JpfxpKZfLjvn12GjvMgKrWdsHkFbV2kKqQFBCG"]
  | Custom _ => []
  end.

(** ** Durations *)

Definition NANOS : Z := 1000000000.
Definition from_secs (s : Z) : Z := s * NANOS.
(** [Duration::MAX]. *)
Definition DURATION_MAX : Z := u64_max * NANOS + 999999999.
Definition duration_saturating_add (a b : Z) : Z := Z.min DURATION_MAX (a + b).

Definition HOUR : Z := 60 * 60.
Definition DAY : Z := 24 * HOUR.
Definition DEFAULT_SAMPLING_WINDOW : Z := from_secs (30 * DAY).
Definition MIN_SAMPLING_WINDOW : Z := from_secs 60.
Definition DEFAULT_PRUNING_DELAY : Z := from_secs HOUR.
Definition MIN_PRUNING_DELAY : Z := from_secs 60.
Definition DEFAULT_SYNC_BATCH_SIZE : Z := 512.

(** ** The builder *)

Section Builder.
(** The blockstore, the store, addresses and key pairs. *)
Context {B S Multiaddr Keypair : Type}.
(** [Multiaddr::from_str] and [Keypair::generate_ed25519]. *)
Context (parse_multiaddr : bytes → option Multiaddr) (generate_ed25519 : Keypair).

(** [canonical_bootnodes(...).collect()]: an address that does not parse panics. *)
Definition canonical_bootnodes {E} (n : Network) : res E (list Multiaddr) :=
  mapM (λ s, expect (parse_multiaddr s)) (bootnode_strings n).

Record NodeBuilder := {
  nb_blockstore : B;
  nb_store : S;
  nb_keypair : option Keypair;
  nb_network : option Network;
  nb_bootnodes : list Multiaddr;
  nb_listen : list Multiaddr;
  nb_sync_batch_size : option Z;
  nb_sampling_window : option Z;
  nb_pruning_delay : option Z
}.

Inductive NodeBuilderError :=
| NetworkNotSpecified
| SamplingWindowTooSmall (d : Z)
| PruningDelayTooSmall (d : Z).

Record NodeConfig := {
  nc_blockstore : B;
  nc_store : S;
  nc_network_id : bytes;
  nc_p2p_local_keypair : Keypair;
  nc_p2p_bootnodes : list Multiaddr;
  nc_p2p_listen_on : list Multiaddr;
  nc_sync_batch_size : Z;
  nc_sampling_window : Z;
  nc_pruning_window : Z
}.

Definition builder_new (blockstore : B) (store : S) : NodeBuilder :=
  {| nb_blockstore := blockstore; nb_store := store; nb_keypair := None; nb_network := None;
     nb_bootnodes := []; nb_listen := []; nb_sync_batch_size := None; nb_sampling_window := None;
     nb_pruning_delay := None |}.

(** The setters. *)
Definition with_network (network : Network) (b : NodeBuilder) : NodeBuilder :=
  {| nb_blockstore := nb_blockstore b; nb_store := nb_store b; nb_keypair := nb_keypair b; nb_network := Some network;
     nb_bootnodes := nb_bootnodes b; nb_listen := nb_listen b;
     nb_sync_batch_size := nb_sync_batch_size b; nb_sampling_window := nb_sampling_window b; nb_pruning_delay := nb_pruning_delay b |}.
Definition with_keypair (keypair : Keypair) (b : NodeBuilder) : NodeBuilder :=
  {| nb_blockstore := nb_blockstore b; nb_store := nb_store b; nb_keypair := Some keypair; nb_network := nb_network b;
     nb_bootnodes := nb_bootnodes b; nb_listen := nb_listen b;
     nb_sync_batch_size := nb_sync_batch_size b; nb_sampling_window := nb_sampling_window b; nb_pruning_delay := nb_pruning_delay b |}.
Definition with_bootnodes (addrs : list Multiaddr) (b : NodeBuilder) : NodeBuilder :=
  {| nb_blockstore := nb_blockstore b; nb_store := nb_store b; nb_keypair := nb_keypair b; nb_network := nb_network b;
     nb_bootnodes := addrs; nb_listen := nb_listen b;
     nb_sync_batch_size := nb_sync_batch_size b; nb_sampling_window := nb_sampling_window b; nb_pruning_delay := nb_pruning_delay b |}.
Definition with_listen (addrs : list Multiaddr) (b : NodeBuilder) : NodeBuilder :=
  {| nb_blockstore := nb_blockstore b; nb_store := nb_store b; nb_keypair := nb_keypair b; nb_network := nb_network b;
     nb_bootnodes := nb_bootnodes b; nb_listen := addrs;
     nb_sync_batch_size := nb_sync_batch_size b; nb_sampling_window := nb_sampling_window b; nb_pruning_delay := nb_pruning_delay b |}.
Definition with_sync_batch_size (batch_size : Z) (b : NodeBuilder) : NodeBuilder :=
  {| nb_blockstore := nb_blockstore b; nb_store := nb_store b; nb_keypair := nb_keypair b; nb_network := nb_network b;
     nb_bootnodes := nb_bootnodes b; nb_listen := nb_listen b;
     nb_sync_batch_size := Some batch_size; nb_sampling_window := nb_sampling_window b; nb_pruning_delay := nb_pruning_delay b |}.
Definition with_sampling_window (dur : Z) (b : NodeBuilder) : NodeBuilder :=
  {| nb_blockstore := nb_blockstore b; nb_store := nb_store b; nb_keypair := nb_keypair b; nb_network := nb_network b;
     nb_bootnodes := nb_bootnodes b; nb_listen := nb_listen b;
     nb_sync_batch_size := nb_sync_batch_size b; nb_sampling_window := Some dur; nb_pruning_delay := nb_pruning_delay b |}.
Definition with_pruning_delay (dur : Z) (b : NodeBuilder) : NodeBuilder :=
  {| nb_blockstore := nb_blockstore b; nb_store := nb_store b; nb_keypair := nb_keypair b; nb_network := nb_network b;
     nb_bootnodes := nb_bootnodes b; nb_listen := nb_listen b;
     nb_sync_batch_size := nb_sync_batch_size b; nb_sampling_window := nb_sampling_window b; nb_pruning_delay := Some dur |}.

(** The windows: what the user set, or a default that is smaller for in-memory stores. *)
Definition chosen_sampling_window (in_memory_stores_used : bool) (b : NodeBuilder) : Z :=
  match nb_sampling_window b with
  | Some dur => dur
  | None => if in_memory_stores_used then MIN_SAMPLING_WINDOW else DEFAULT_SAMPLING_WINDOW
  end.
Definition chosen_pruning_delay (in_memory_stores_used : bool) (b : NodeBuilder) : Z :=
  match nb_pruning_delay b with
  | Some dur => dur
  | None => if in_memory_stores_used then MIN_PRUNING_DELAY else DEFAULT_PRUNING_DELAY
  end.

Definition build_config (in_memory_stores_used : bool) (b : NodeBuilder) : res NodeBuilderError NodeConfig :=
  network ← ok_or (nb_network b) NetworkNotSpecified;
  bootnodes ← (if bool_decide (nb_bootnodes b = []) then canonical_bootnodes network else Ok (nb_bootnodes b));
  let sampling_window := chosen_sampling_window in_memory_stores_used b in
  let pruning_delay := chosen_pruning_delay in_memory_stores_used b in
  if sampling_window <? MIN_SAMPLING_WINDOW then Err (SamplingWindowTooSmall sampling_window) else
  if pruning_delay <? MIN_PRUNING_DELAY then Err (PruningDelayTooSmall pruning_delay) else
  let pruning_window := duration_saturating_add sampling_window pruning_delay in
  Ok {| nc_blockstore := nb_blockstore b; nc_store := nb_store b; nc_network_id := Network_id network;
        nc_p2p_local_keypair := default generate_ed25519 (nb_keypair b);
        nc_p2p_bootnodes := bootnodes; nc_p2p_listen_on := nb_listen b;
        nc_sync_batch_size := default DEFAULT_SYNC_BATCH_SIZE (nb_sync_batch_size b);
        nc_sampling_window := sampling_window; nc_pruning_window := pruning_window |}.

(** ** Lemmas *)

(** What a configuration promises to the components. *)
Lemma build_config_windows im b c : build_config im b = Ok c →
  MIN_SAMPLING_WINDOW ≤ nc_sampling_window c ∧ nc_sampling_window c = chosen_sampling_window im b ∧
  MIN_PRUNING_DELAY ≤ chosen_pruning_delay im b ∧
  nc_pruning_window c = duration_saturating_add (nc_sampling_window c) (chosen_pruning_delay im b) ∧
  nc_sync_batch_size c = default DEFAULT_SYNC_BATCH_SIZE (nb_sync_batch_size b) ∧
  nc_store c = nb_store b ∧ nc_blockstore c = nb_blockstore b.
Proof.
  unfold build_config. intros Hr. apply bind_Ok in Hr as (network&_&Hr). apply bind_Ok in Hr as (boot&_&Hr).
  destruct (Z.ltb_spec (chosen_sampling_window im b) MIN_SAMPLING_WINDOW) as [|Hs]; [done|].
  destruct (Z.ltb_spec (chosen_pruning_delay im b) MIN_PRUNING_DELAY) as [|Hp]; [done|]. injection Hr as <-. by cbn.
Qed.
End Builder.

(** ** Theorems *)

Definition reserved_names : list bytes := mainnet_names ++ arabica_names ++ mocha_names.

Lemma reserved_no_slash s : s ∈ reserved_names → SLASH ∉ s.
Proof.
  intros Hs. assert (Forall (λ s, SLASH ∉ s) reserved_names) as Hall; [|by apply (proj1 (Forall_forall _ _) Hall)].
  unfold reserved_names, mainnet_names, arabica_names, mocha_names. cbn [app].
  repeat (apply Forall_cons; split; [apply (bool_decide_unpack _); vm_compute; exact I|]). apply Forall_nil_2.
Qed.

Lemma from_str_cases s :
  (s ∈ reserved_names ∧ ∃ n, Network_from_str s = Ok n ∧ Network_is_custom n = false) ∨
  s ∉ reserved_names ∧ Network_from_str s = Network_custom s.
Proof.
  unfold Network_from_str, reserved_names. rewrite !elem_of_app.
  destruct (bool_decide_reflect (s ∈ mainnet_names)) as [|H1]; [left; split; [tauto|by eexists]|].
  destruct (bool_decide_reflect (s ∈ arabica_names)) as [|H2]; [left; split; [tauto|by eexists]|].
  destruct (bool_decide_reflect (s ∈ mocha_names)) as [|H3]; [left; split; [tauto|by eexists]|].
  right. split; [tauto|done].
Qed.

(** Names of networks: a string is refused exactly when it contains a slash; the names and the
    ids of the known networks are read as these networks; and a custom network survives printing
    and parsing exactly when its id is not one of the names of the known ones. *)
Theorem network_names_roundtrip :
  (∀ s, (∃ e, Network_from_str s = Err e) ↔ SLASH ∈ s) ∧
  (∀ n, Network_is_custom n = false →
     Network_from_str (Network_to_string n) = Ok n ∧ Network_from_str (Network_id n) = Ok n) ∧
  ∀ id n, Network_custom id = Ok n →
    Network_id n = id ∧ (Network_from_str (Network_to_string n) = Ok n ↔ id ∉ reserved_names).
Proof.
  split; [|split].
  - intros s. destruct (from_str_cases s) as [(Hs&n&->&_)|[Hs ->]].
    + split; [by intros []|]. intros Hin. by destruct (reserved_no_slash s Hs).
    + unfold Network_custom, NetworkId_new. case_bool_decide; cbv [mbind res_bind]; [by split; [|eexists]|by split; [intros []|]].
  - intros [| | |id]; [..|done]; intros _; by split; vm_compute.
  - intros id n Hn. unfold Network_custom, NetworkId_new in Hn.
    case_bool_decide as Hs; [done|]. cbv [mbind res_bind] in Hn. injection Hn as <-. split; [done|]. cbn.
    destruct (from_str_cases id) as [(Hr&n&->&Hc)|[Hr ->]].
    + split; [intros [= ->]; done|by intros []].
    + split; [done|]. intros _. unfold Network_custom, NetworkId_new. by rewrite bool_decide_false.
Qed.
Arguments NodeBuilder : clear implicits.
Arguments NodeConfig : clear implicits.
