(* ===== verification/NodeApi.v ===== *)
(** * The methods of the node (src/node/src/node.rs)

    The methods with which a user asks a running node: each forwards to the store, to the syncer or to
    the p2p component and wraps the error.  The store is any store of the trait; the handles of the
    syncer and of p2p are records of operations, as they are at the time of the call (their
    requests of headers are modelled in P2pHandle.v and HeaderSession.v, those of data in
    ShwapFetch.v). *)

From S2P Require Import Prelude Consts BlockRanges Nmt Merkle Dah Header Share Eds Blob ShwapIds Containers Store PeerTracker HeaderEx Syncer.

(** [NodeError]; the errors of the builder and of the sampling worker do not come from these
    methods. *)
Inductive NodeApiError := NaP2p (e : P2pError) | NaSyncer (e : SyncerError) | NaStore (e : StoreError).

Record SyncingInfo := { stored_headers : BlockRanges; subjective_head : Z }.

Section NodeApi.
Context `{PeerTypes} {S NetworkInfo Timeout : Type} `{!Store S}.

(** The handle of p2p. *)
Record P2pOps := {
  op_local_peer_id : PeerId;
  op_peer_tracker_info : PeerTrackerInfo;
  op_wait_connected : res P2pError unit;
  op_wait_connected_trusted : res P2pError unit;
  op_network_info : res P2pError NetworkInfo;
  op_listeners : res P2pError (list Multiaddr);
  op_connected_peers : res P2pError (list PeerId);
  op_set_peer_trust : PeerId → bool → res P2pError unit;
  op_get_head_header : res P2pError ExtendedHeader;
  op_get_header : Hash → res P2pError ExtendedHeader;
  op_get_header_by_height : Z → res P2pError ExtendedHeader;
  op_get_verified_headers_range : ExtendedHeader → Z → res P2pError (list ExtendedHeader);
  op_get_row : Z → Z → option Timeout → res P2pError RowData;
  op_get_sample : Z → Z → Z → option Timeout → res P2pError Sample;
  op_get_row_namespace_data : Namespace → Z → Z → option Timeout → res P2pError RowNamespaceData;
  op_get_all_blobs : ExtendedHeader → Namespace → option Timeout → res P2pError (list Blob);
  op_get_network_head : res P2pError (option ExtendedHeader)
}.

Record NodeHandle := { nh_p2p : P2pOps; nh_syncer_info : res SyncerError SyncingInfo; nh_store : S }.
Implicit Types n : NodeHandle.

Definition node_local_peer_id n : PeerId := op_local_peer_id (nh_p2p n).
Definition node_peer_tracker_info n : PeerTrackerInfo := op_peer_tracker_info (nh_p2p n).
Definition node_wait_connected n : res NodeApiError unit := map_err NaP2p (op_wait_connected (nh_p2p n)).
Definition node_wait_connected_trusted n : res NodeApiError unit := map_err NaP2p (op_wait_connected_trusted (nh_p2p n)).
Definition node_network_info n : res NodeApiError NetworkInfo := map_err NaP2p (op_network_info (nh_p2p n)).
Definition node_listeners n : res NodeApiError (list Multiaddr) := map_err NaP2p (op_listeners (nh_p2p n)).
Definition node_connected_peers n : res NodeApiError (list PeerId) := map_err NaP2p (op_connected_peers (nh_p2p n)).
Definition node_set_peer_trust n (peer_id : PeerId) (is_trusted : bool) : res NodeApiError unit :=
  map_err NaP2p (op_set_peer_trust (nh_p2p n) peer_id is_trusted).
Definition node_request_head_header n : res NodeApiError ExtendedHeader := map_err NaP2p (op_get_head_header (nh_p2p n)).
Definition node_request_header_by_hash n (hash : Hash) : res NodeApiError ExtendedHeader :=
  map_err NaP2p (op_get_header (nh_p2p n) hash).
Definition node_request_header_by_height n (height : Z) : res NodeApiError ExtendedHeader :=
  map_err NaP2p (op_get_header_by_height (nh_p2p n) height).
Definition node_request_verified_headers n (from : ExtendedHeader) (amount : Z) : res NodeApiError (list ExtendedHeader) :=
  map_err NaP2p (op_get_verified_headers_range (nh_p2p n) from amount).
Definition node_request_row n (row_index block_height : Z) (timeout : option Timeout) : res NodeApiError RowData :=
  map_err NaP2p (op_get_row (nh_p2p n) row_index block_height timeout).
Definition node_request_sample n (row_index column_index block_height : Z) (timeout : option Timeout) : res NodeApiError Sample :=
  map_err NaP2p (op_get_sample (nh_p2p n) row_index column_index block_height timeout).
Definition node_request_row_namespace_data n (namespace : Namespace) (row_index block_height : Z) (timeout : option Timeout)
    : res NodeApiError RowNamespaceData :=
  map_err NaP2p (op_get_row_namespace_data (nh_p2p n) namespace row_index block_height timeout).
Definition node_request_all_blobs n (header : ExtendedHeader) (namespace : Namespace) (timeout : option Timeout)
    : res NodeApiError (list Blob) :=
  map_err NaP2p (op_get_all_blobs (nh_p2p n) header namespace timeout).
Definition node_syncer_info n : res NodeApiError SyncingInfo := map_err NaSyncer (nh_syncer_info n).
Definition node_get_network_head_header n : res NodeApiError (option ExtendedHeader) :=
  map_err NaP2p (op_get_network_head (nh_p2p n)).
Definition node_get_local_head_header n : res NodeApiError ExtendedHeader := map_err NaStore (st_get_head (nh_store n)).
Definition node_get_header_by_hash n (hash : Hash) : res NodeApiError ExtendedHeader :=
  map_err NaStore (st_get_by_hash (nh_store n) hash).
Definition node_get_header_by_height n (height : Z) : res NodeApiError ExtendedHeader :=
  map_err NaStore (st_get_by_height (nh_store n) height).
Definition node_get_headers n (start_bound end_bound : Bound) : res NodeApiError (list ExtendedHeader) :=
  map_err NaStore (get_range (nh_store n) start_bound end_bound).
Definition node_get_sampling_metadata n (height : Z) : res NodeApiError (option SamplingMetadata) :=
  match st_get_sampling_metadata (nh_store n) height with
  | Ok val => Ok val
  | Err NotFound => Ok None
  | Err e => Err (NaStore e)
  | Panic => Panic
  end.
End NodeApi.
Arguments P2pOps {_} _ _.
Arguments NodeHandle {_} _ _ _.
