(* ===== verification/Handles.v ===== *)
(** * The handles of p2p and of the syncer (src/node/src/p2p.rs and syncer.rs)

    The methods of [P2p] and [Syncer] that ask the worker, over the commands of Actor.v: the commands,
    what the workers answer, and what the methods return.  The swarm's own account of its
    connections and listeners and the addresses are of libp2p. *)

From S2P Require Import Prelude Actor Consts BlockRanges Nmt Merkle Dah Header Share Eds ShwapIds Containers Byzantine.
From S2P Require Import Store InMemoryStore PeerTracker HeaderEx HeaderExClient HeaderExBehaviour P2pWorker Syncer NodeApi.

(** ** p2p *)

Section P2pHandles.
Context `{Tendermint} `{!DahExternals} `{UnstableSort} `{PeerTypes} {R : Type} `{!RequestSender R}.
Context {B : Type} `{!BitswapClient B} {NetworkInfo : Type}.
Context (has_p2p : Multiaddr → bool) (push_p2p : PeerId → Multiaddr → Multiaddr) (local : PeerId).

(** The worker, with what its swarm reports. *)
Record P2pTask := { pt_worker : P2pWorker (R := R) (B := B); pt_network_info : NetworkInfo; pt_listeners : list Multiaddr }.
Definition with_worker (t : P2pTask) (w : P2pWorker) : P2pTask :=
  {| pt_worker := w; pt_network_info := pt_network_info t; pt_listeners := pt_listeners t |}.

Inductive HandleCmd := HNetworkInfo | HListeners | HCmd (cmd : P2pCmd).
Inductive HandleReply :=
| RNetworkInfo (i : NetworkInfo)
| RListeners (l : list Multiaddr)
| RPeers (l : list PeerId)
| RCompromised (b : bool)
| RHead (h : option ExtendedHeader)
| RHeaders (r : res P2pError (list ExtendedHeader))
| RBlock (r : res P2pError bytes).

(** The commands with a field [respond_to], and the type of the channel. *)
Definition p2p_needs_reply (c : HandleCmd) : bool :=
  match c with HCmd (CmdInitHeaderSub _ _) | HCmd (CmdSetPeerTrust _ _) => false | _ => true end.
Definition p2p_reply_fits (c : HandleCmd) (r : HandleReply) : bool :=
  match c, r with
  | HNetworkInfo, RNetworkInfo _ | HListeners, RListeners _ | HCmd CmdConnectedPeers, RPeers _
  | HCmd CmdGetNetworkCompromisedToken, RCompromised _ | HCmd CmdGetNetworkHead, RHead _
  | HCmd (CmdHeaderExRequest _ _ _), RHeaders _ | HCmd (CmdGetShwapCid _ _), RBlock _ => true
  | _, _ => false
  end.

(** An address of a listener always names the node. *)
Definition listener_address (ma : Multiaddr) : Multiaddr := if has_p2p ma then ma else push_p2p local ma.
(** [Worker::on_cmd] with the answers; the requests of headers and of blocks keep the sender. *)
Definition reply_of (cmd : P2pCmd) (r : CmdReply) : Answered :=
  match r with
  | ReplyPeers l => Replied (RPeers l)
  | ReplyCompromised b => Replied (RCompromised b)
  | ReplyHead h => Replied (RHead h)
  | NoReply => match cmd with CmdHeaderExRequest _ _ _ | CmdGetShwapCid _ _ => KeepsSender | _ => DropsSender end
  end.
Definition p2p_handle (t : P2pTask) (c : HandleCmd) : option (P2pTask * Answered) :=
  match c with
  | HNetworkInfo => Some (t, Replied (RNetworkInfo (pt_network_info t)))
  | HListeners => Some (t, Replied (RListeners (map listener_address (pt_listeners t))))
  | HCmd cmd =>
      match on_cmd local (pt_worker t) cmd with
      | Ok (w, r) => Some (with_worker t w, reply_of cmd r)
      | Err _ => Some (t, DropsSender)
      | Panic => None
      end
  end.

#[local] Notation Outcome := (Outcome (Reply := HandleReply)).
(** [send_command], and a method that awaits its answer, from the way its call ended. *)
Definition p2p_send_command (o : Outcome) : res P2pError unit :=
  match o with NotSent => Err P2pWorkerDied | _ => Ok tt end.
Definition p2p_ask {A} (get : HandleReply → option A) (o : Outcome) : res P2pError A :=
  p2p_send_command o ;;
  match o with
  | Got r => expect (get r)
  | NoAnswer => Err ChannelClosedUnexpectedly
  | _ => Panic
  end.
Definition p2p_network_info : Outcome → res P2pError NetworkInfo :=
  p2p_ask (λ r, match r with RNetworkInfo i => Some i | _ => None end).
Definition p2p_listeners : Outcome → res P2pError (list Multiaddr) :=
  p2p_ask (λ r, match r with RListeners l => Some l | _ => None end).
Definition p2p_connected_peers : Outcome → res P2pError (list PeerId) :=
  p2p_ask (λ r, match r with RPeers l => Some l | _ => None end).
Definition p2p_get_network_compromised_token : Outcome → res P2pError bool :=
  p2p_ask (λ r, match r with RCompromised b => Some b | _ => None end).
Definition p2p_get_network_head : Outcome → res P2pError (option ExtendedHeader) :=
  p2p_ask (λ r, match r with RHead h => Some h | _ => None end).
Definition p2p_header_ex_request (o : Outcome) : res P2pError (list ExtendedHeader) :=
  r ← p2p_ask (λ r, match r with RHeaders r => Some r | _ => None end) o; r.
Definition p2p_set_peer_trust (o : Outcome) : res P2pError unit := p2p_send_command o.
Definition p2p_init_header_sub (o : Outcome) : res P2pError unit := p2p_send_command o.

Context {Ev : Type} (on_event : P2pTask → Ev → option P2pTask).
#[local] Notation p2p_reachable := (reachable p2p_needs_reply p2p_reply_fits p2p_handle on_event).

(** ** Lemmas *)

Lemma p2p_handle_fits t c t' r : p2p_handle t c = Some (t', Replied r) → p2p_reply_fits c r = true.
Proof.
  destruct c as [| |cmd]; cbn [p2p_handle]; [by intros [= _ <-]|by intros [= _ <-]|].
  destruct cmd as [sh rq cl| |hd ch|p tr|cid to| |]; cbn [on_cmd]; try by intros [= _ <-]. case_bool_decide; [done|].
  destruct (set_trusted _ _ _); done.
Qed.

(** How the call of a method that asks ended: with an answer of the type of its channel, or
    with one of two errors. *)
Lemma p2p_ask_ended t a id c o {A} (get : HandleReply → option A) : p2p_reachable t a →
  ac_calls a !! id = Some (Finished c o) → p2p_needs_reply c = true →
  (∀ r, p2p_reply_fits c r = true → is_Some (get r)) →
  p2p_ask get o = Err P2pWorkerDied ∨ p2p_ask get o = Err ChannelClosedUnexpectedly ∨
  ∃ r x t0 t1 answered, o = Got r ∧ get r = Some x ∧ p2p_ask get o = Ok x ∧
    (id, c, t0) ∈ ac_handled a ∧ p2p_handle t0 c = Some (t1, answered) ∧ (answered = Replied r ∨ answered = KeepsSender).
Proof.
  intros Hr Hl Hn Hget. apply actor_reachable_inv in Hr as I. pose proof (inv_calls _ _ _ _ I _ _ Hl) as Hok.
  destruct o as [| |r|]; cbn in Hok; [by left| | |by right; left].
  - destruct Hok. congruence.
  - destruct Hok as (_&t0&t1&answered&Hin&Hh&Hans). assert (p2p_reply_fits c r = true) as Hf.
    { destruct Hans as [->|[_ ?]]; [by eapply p2p_handle_fits|done]. }
    destruct (Hget r Hf) as [x Hx]. right; right. exists r, x, t0, t1, answered. unfold p2p_ask. cbn. rewrite Hx. cbn. tauto.
Qed.

(** Every method of the p2p handle that asks the worker returns what the worker knew when it took
    its command, or an error once the worker is gone; it never gets an answer meant for
    somebody else. *)
Theorem p2p_methods_answered t a id o : p2p_reachable t a →
  let ended A (result : res P2pError A) (c : HandleCmd) (value : P2pTask → A) :=
    ac_calls a !! id = Some (Finished c o) →
    result = Err P2pWorkerDied ∨ result = Err ChannelClosedUnexpectedly ∨
    ∃ t0, (id, c, t0) ∈ ac_handled a ∧ result = Ok (value t0) in
  ended _ (p2p_network_info o) HNetworkInfo pt_network_info ∧
  ended _ (p2p_listeners o) HListeners (λ t0, map listener_address (pt_listeners t0)) ∧
  ended _ (p2p_connected_peers o) (HCmd CmdConnectedPeers) (λ t0, connected_peers (wk_tracker (pt_worker t0))) ∧
  ended _ (p2p_get_network_compromised_token o) (HCmd CmdGetNetworkCompromisedToken) (λ t0, wk_compromised (pt_worker t0)) ∧
  ended _ (p2p_get_network_head o) (HCmd CmdGetNetworkHead) (λ t0, known_head <$> wk_header_sub (pt_worker t0)) ∧
  (∀ shuffle request caller, ac_calls a !! id = Some (Finished (HCmd (CmdHeaderExRequest shuffle request caller)) o) →
     o ≠ Sent ∧ (p2p_header_ex_request o = Panic → o = Got (RHeaders Panic))).
Proof.
  intros Hr. cbv zeta. split_and!.
  1-5: intros Hl;
    (eapply (p2p_ask_ended _ _ _ _ _ _ Hr) in Hl as [?|[?|(r&x&t0&t1&an&->&Hx&Ho&Hin&Hh&Hans)]]);
    [by left|by right; left|right; right; exists t0; split; [exact Hin|]|done|by intros []; try done; eauto].
  1-5: cbn in Hh; injection Hh as _ <-; destruct Hans as [[= <-]|?]; [|done]; cbn in Hx; by injection Hx as <-.
  intros sh rq cl Hl. pose proof (p2p_ask_ended _ _ _ _ _ (λ r, match r with RHeaders r => Some r | _ => None end) Hr Hl) as He.
  destruct He as [He|[He|(r&x&t0&t1&an&->&Hx&Ho&_)]]; [done|intros []; try done; eauto| | |].
  - split; [by intros ->|]. unfold p2p_header_ex_request. by rewrite He.
  - split; [by intros ->|]. unfold p2p_header_ex_request. by rewrite He.
  - split; [done|]. unfold p2p_header_ex_request. rewrite Ho. cbn. intros ->. by destruct r; simplify_eq.
Qed.
End P2pHandles.

(** ** The syncer *)

Section SyncerHandle.
Context `{Tendermint} `{!DahExternals} {S : Type} `{!Store S}.

(** [SyncerCmd]. *)
Inductive SyncerCmd := GetInfo.
Definition syncer_needs_reply (c : SyncerCmd) : bool := true.
Definition syncer_reply_fits (c : SyncerCmd) (r : SyncingInfo) : bool := true.
(** [Worker::on_cmd]: an error of the store ends the worker. *)
Definition syncer_handle (w : Worker S) (c : SyncerCmd) : option (Worker S * Answered) :=
  match c with
  | GetInfo =>
      match syncing_info w with
      | Ok (ranges, head) => Some (w, Replied {| stored_headers := ranges; subjective_head := head |})
      | _ => None
      end
  end.
Definition syncer_send_command (o : Outcome (Reply := SyncingInfo)) : res SyncerError unit :=
  match o with NotSent => Err SynWorkerDied | _ => Ok tt end.
Definition syncer_info (o : Outcome) : res SyncerError SyncingInfo :=
  syncer_send_command o ;;
  match o with Got r => Ok r | NoAnswer => Err SynChannelClosedUnexpectedly | _ => Panic end.

Context {Ev : Type} (on_event : Worker S → Ev → option (Worker S)).

(** [Syncer::info] returns the ranges of the store and the head that the worker had when it took the
    command, or an error once the worker is gone. *)
Theorem syncer_info_answered w a id o :
  reachable syncer_needs_reply syncer_reply_fits syncer_handle on_event w a →
  ac_calls a !! id = Some (Finished GetInfo o) →
  syncer_info o = Err SynWorkerDied ∨ syncer_info o = Err SynChannelClosedUnexpectedly ∨
  ∃ w0 ranges, (id, GetInfo, w0) ∈ ac_handled a ∧ st_get_stored_header_ranges (w_store w0) = Ok ranges ∧
    syncer_info o = Ok {| stored_headers := ranges; subjective_head := default 0 (w_subjective_head_height w0) |}.
Proof.
  intros Hr Hl. apply actor_reachable_inv in Hr as I. pose proof (inv_calls _ _ _ _ I _ _ Hl) as Hok.
  destruct o as [| |r|]; cbn in Hok; [by left|by destruct Hok| |by right; left].
  destruct Hok as (_&w0&w1&answered&Hin&Hh&Hans). right; right. exists w0. unfold syncer_handle, syncing_info in Hh.
  destruct (st_get_stored_header_ranges (w_store w0)) as [ranges| |] eqn:Hranges; [|done|done]. injection Hh as _ <-.
  exists ranges. split; [exact Hin|]. split; [done|]. by destruct Hans as [[= <-]|[? _]].
Qed.
End SyncerHandle.

(** ** A concrete call *)

#[local] Existing Instances toy_DahExternals toy_Tendermint.
Definition toy_calls : list (Choice (Cmd := SyncerCmd) (Reply := SyncingInfo) (Ev := Empty_set)) :=
  [NewCall 0 GetInfo; NewCall 1 GetInfo; Send 0; Take; Cancel; Send 1; End].
Definition toy_actor : Actor :=
  default (actor_new toy_worker) (actor_run syncer_needs_reply syncer_reply_fits syncer_handle (λ w _, Some w) (actor_new toy_worker) toy_calls).
Lemma syncer_info_answered_witness :
  ac_calls toy_actor !! 0%nat = Some (Finished GetInfo (Got {| stored_headers := [1 ..= 1]; subjective_head := 3 |})) ∧
  ac_calls toy_actor !! 1%nat = Some (Finished GetInfo NoAnswer) ∧
  (∃ w0 ranges, (0%nat, GetInfo, w0) ∈ ac_handled toy_actor ∧ st_get_stored_header_ranges (w_store w0) = Ok ranges).
Proof.
  split; [vm_compute; reflexivity|]. split; [vm_compute; reflexivity|].
  destruct (syncer_info_answered (λ w (_ : Empty_set), Some w) toy_worker toy_actor 0%nat (Got {| stored_headers := [1 ..= 1]; subjective_head := 3 |}))
    as [?|[?|(w0&ranges&Hin&Hr&_)]]; [apply actor_run_ends|vm_compute; reflexivity|discriminate|discriminate|].
  exists w0, ranges. split; [exact Hin|exact Hr].
Defined.
