(* ===== verification/WasmWorker.v ===== *)
(** * The worker of the browser node (src/node-wasm/src/commands.rs, ports.rs, worker.rs, client.rs)

    In a browser the node runs in a worker, and pages talk to it over message ports: a client posts
    a command and waits for the next message on its port.  Nothing in a message says which command
    it answers, and a client pings the worker with a timeout until it is there, so that answers to
    pings may arrive late.  The worker handles the commands of all its clients one after the other.

    Messages of a port arrive once and in order; a message posted before the other side listens
    waits.  What the worker only logs may happen at any time: a command that it cannot
    deserialize, and a response that it cannot serialize or post, are lost.  (A client reports
    a failure to post at once; a response that was posted is taken to deserialize.)  The node
    behind the worker is a handle (NodeApi.v), and may change between two commands. *)

From Stdlib Require Import SpecFloat String.
From S2P Require Import StateTypes Prelude Consts BlockRanges Nmt Merkle Dah Header Share Blob ShwapIds Store PeerTracker.
From S2P Require Import HeaderEx Syncer Float64 NodeApi InMemoryStore.

(** ** Commands and responses (commands.rs) *)

Inductive SingleHeaderQuery := QHead | QByHash (hash : Hash) | QByHeight (height : Z).

(** [crate::error::Error]: the text of an error of the node, or a text. *)
Inductive WasmError := ENode (e : NodeApiError) | EMessage (message : bytes).

(** [Duration::from_secs_f64], in nanoseconds: a panic ([None]) for negative numbers, for those that
    are not finite and for those that do not fit; otherwise rounded to the nearest, ties to even. *)
Definition div_round_even (a b : Z) : Z :=
  let q := a / b in
  match 2 * (a mod b) ?= b with Lt => q | Gt => q + 1 | Eq => if Z.even q then q else q + 1 end.
Definition from_secs_f64 (x : f64) : option Z :=
  match x with
  | S754_zero _ => Some 0
  | S754_finite false m e =>
      let nanos := if 0 <=? e then Zpos m * 2 ^ e * 1000000000 else div_round_even (Zpos m * 1000000000) (2 ^ (- e)) in
      if nanos <? (u64_max + 1) * 1000000000 then Some nanos else None
  | S754_finite true _ _ | S754_infinity _ | S754_nan => None
  end.

Section Commands.
Context `{PeerTypes} {Config NetworkInfo : Type}.

Inductive NodeCommand :=
| InternalPing
| IsRunning
| StartNode (config : Config)
| StopNode
| GetEventsChannelName
| GetLocalPeerId
| GetSyncerInfo
| GetPeerTrackerInfo
| GetNetworkInfo
| GetConnectedPeers
| SetPeerTrust (peer_id : PeerId) (is_trusted : bool)
| WaitConnected (trusted : bool)
| GetListeners
| RequestHeader (q : SingleHeaderQuery)
| GetVerifiedHeaders (from : ExtendedHeader) (amount : Z)
| GetHeadersRange (start_height end_height : option Z)
| GetHeader (q : SingleHeaderQuery)
| LastSeenNetworkHead
| GetSamplingMetadata (height : Z)
| RequestAllBlobs (header : ExtendedHeader) (namespace : Namespace) (timeout_secs : option f64).

(** A result inside a response is [Ok] or [Err]. *)
Inductive WorkerResponse :=
| InternalPong
| NodeNotRunning
| RIsRunning (running : bool)
| RNodeStarted (r : res WasmError unit)
| RNodeStopped
| REventsChannelName (name : bytes)
| RLocalPeerId (peer_id : bytes)
| RSyncerInfo (r : res WasmError SyncingInfo)
| RPeerTrackerInfo (info : PeerTrackerInfo)
| RNetworkInfo (r : res WasmError NetworkInfo)
| RConnectedPeers (r : res WasmError (list bytes))
| RSetPeerTrust (r : res WasmError unit)
| RConnected (r : res WasmError unit)
| RListeners (r : res WasmError (list Multiaddr))
| RHeader (r : res WasmError ExtendedHeader)
| RHeaders (r : res WasmError (list ExtendedHeader))
| RLastSeenNetworkHead (r : res WasmError (option ExtendedHeader))
| RSamplingMetadata (r : res WasmError (option SamplingMetadata))
| RBlobs (r : res WasmError (list Blob)).

Definition is_internal_pong (r : WorkerResponse) : bool := match r with InternalPong => true | _ => false end.
Definition is_ping (c : NodeCommand) : bool := match c with InternalPing => true | _ => false end.

(** ** The worker (worker.rs) *)

Context {S : Type} `{!Store S} (peer_to_string : PeerId → bytes).
#[local] Notation NodeHandle := (NodeHandle S NetworkInfo Z).

(** A result of the node in a response; a panic of the node is one of the worker. *)
Definition respond {A} (response : res WasmError A → WorkerResponse) (r : res NodeApiError A) : res unit WorkerResponse :=
  match r with Ok a => Ok (response (Ok a)) | Err e => Ok (response (Err (ENode e))) | Panic => Panic end.

Definition request_header (n : NodeHandle) (q : SingleHeaderQuery) : res NodeApiError ExtendedHeader :=
  match q with
  | QHead => node_request_head_header n
  | QByHash hash => node_request_header_by_hash n hash
  | QByHeight height => node_request_header_by_height n height
  end.
Definition worker_get_header (n : NodeHandle) (q : SingleHeaderQuery) : res NodeApiError ExtendedHeader :=
  match q with
  | QHead => node_get_local_head_header n
  | QByHash hash => node_get_header_by_hash n hash
  | QByHeight height => node_get_header_by_height n height
  end.
Definition get_headers_range (n : NodeHandle) (start_height end_height : option Z) : res NodeApiError (list ExtendedHeader) :=
  match start_height, end_height with
  | None, None => node_get_headers n Unbounded Unbounded
  | Some start, None => node_get_headers n (Included start) Unbounded
  | None, Some e => node_get_headers n Unbounded (Included e)
  | Some start, Some e => node_get_headers n (Included start) (Included e)
  end.
Definition worker_wait_connected (n : NodeHandle) (trusted : bool) : res NodeApiError unit :=
  if trusted then node_wait_connected_trusted n else node_wait_connected n.
Definition get_connected_peers (n : NodeHandle) : res NodeApiError (list bytes) :=
  peers ← node_connected_peers n; Ok (map peer_to_string peers).
Definition worker_request_all_blobs (n : NodeHandle) (header : ExtendedHeader) (namespace : Namespace)
    (timeout_secs : option f64) : res NodeApiError (list Blob) :=
  timeout ← match timeout_secs with None => Ok None | Some s => d ← expect (from_secs_f64 s); Ok (Some d) end;
  node_request_all_blobs n header namespace timeout.

Definition process_command (events_channel_name : bytes) (n : NodeHandle) (c : NodeCommand) : res unit WorkerResponse :=
  match c with
  | IsRunning => Ok (RIsRunning true)
  | StartNode _ => Ok (RNodeStarted (Err (EMessage (str "Node already started"))))
  | StopNode => Panic
  | GetLocalPeerId => Ok (RLocalPeerId (peer_to_string (node_local_peer_id n)))
  | GetEventsChannelName => Ok (REventsChannelName events_channel_name)
  | GetSyncerInfo => respond RSyncerInfo (node_syncer_info n)
  | GetPeerTrackerInfo => Ok (RPeerTrackerInfo (node_peer_tracker_info n))
  | GetNetworkInfo => respond RNetworkInfo (node_network_info n)
  | GetConnectedPeers => respond RConnectedPeers (get_connected_peers n)
  | SetPeerTrust peer_id is_trusted => respond RSetPeerTrust (node_set_peer_trust n peer_id is_trusted)
  | WaitConnected trusted => respond RConnected (worker_wait_connected n trusted)
  | GetListeners => respond RListeners (node_listeners n)
  | RequestHeader q => respond RHeader (request_header n q)
  | GetHeader q => respond RHeader (worker_get_header n q)
  | GetVerifiedHeaders from amount => respond RHeaders (node_request_verified_headers n from amount)
  | GetHeadersRange s e => respond RHeaders (get_headers_range n s e)
  | LastSeenNetworkHead => respond RLastSeenNetworkHead (node_get_network_head_header n)
  | GetSamplingMetadata height => respond RSamplingMetadata (node_get_sampling_metadata n height)
  | RequestAllBlobs header namespace timeout_secs =>
      respond RBlobs (worker_request_all_blobs n header namespace timeout_secs)
  | InternalPing => Ok InternalPong
  end.

Record NodeWorker := { event_channel_name : bytes; nw_node : option NodeHandle }.
Definition set_node (w : NodeWorker) (n : option NodeHandle) : NodeWorker :=
  {| event_channel_name := event_channel_name w; nw_node := n |}.

(** A turn of the loop of [run]; [start] is what starting a node with a configuration would give. *)
Definition run_command (start : Config → res WasmError NodeHandle) (w : NodeWorker) (c : NodeCommand)
    : res unit (NodeWorker * WorkerResponse) :=
  match c, nw_node w with
  | StopNode, Some _ => Ok (set_node w None, RNodeStopped)
  | _, Some n => r ← process_command (event_channel_name w) n c; Ok (w, r)
  | _, None =>
      match c with
      | InternalPing => Ok (w, InternalPong)
      | IsRunning => Ok (w, RIsRunning false)
      | GetEventsChannelName => Ok (w, REventsChannelName (event_channel_name w))
      | StartNode config =>
          match start config with
          | Ok n => Ok (set_node w (Some n), RNodeStarted (Ok tt))
          | Err e => Ok (w, RNodeStarted (Err e))
          | Panic => Panic
          end
      | _ => Ok (w, NodeNotRunning)
      end
  end.

(** ** Ports (ports.rs) *)

(** What a client posts: a command, and a port to transfer.  Ports are numbers. *)
Record Message := { m_command : NodeCommand; m_port : option nat }.
Inductive ClientMessage := Command (id : nat) (command : NodeCommand) | AddConnection (port : nat).

(** [ws_ports] is the vector of connections; the callback of a port has the number that its
    connection got ([ws_listening]). *)
Record WorkerServer := { ws_ports : list nat; ws_queue : list ClientMessage; ws_listening : gmap nat nat }.
(** Whether [prepare_message_port] accepts a port. *)
Context (port_ok : nat → bool).

(** The callback [onmessage] of a [ClientConnection]; [readable] says whether the data of the
    message deserializes to its command, which is lost otherwise. *)
Definition on_message (id : nat) (m : Message) (readable : bool) : list ClientMessage :=
  match m_port m with Some port => [AddConnection port] | None => [] end ++
  (if readable then [Command id (m_command m)] else []).
(** The arm of [recv] for a new connection. *)
Definition add_connection (v : WorkerServer) (port : nat) : WorkerServer :=
  let client_id := length (ws_ports v) in
  if port_ok port
  then {| ws_ports := ws_ports v ++ [port]; ws_queue := ws_queue v; ws_listening := <[port := client_id]> (ws_listening v) |}
  else v.

(** A client holds the lock of its responses during a call, so that it has one call at a time.
    [wc_responses] are the messages that wait for it; [wc_log] the calls that have returned. *)
Inductive Call := Exec (command : NodeCommand) | AddingConnection.
Record WorkerClient := {
  wc_call : option Call; wc_outgoing : list Message; wc_responses : list WorkerResponse;
  wc_log : list (NodeCommand * WorkerResponse)
}.
Definition worker_client_new : WorkerClient := {| wc_call := None; wc_outgoing := []; wc_responses := []; wc_log := [] |}.

Definition post (k : WorkerClient) (call : Call) (m : Message) : WorkerClient :=
  {| wc_call := Some call; wc_outgoing := wc_outgoing k ++ [m]; wc_responses := wc_responses k; wc_log := wc_log k |}.
Definition exec_post (k : WorkerClient) (command : NodeCommand) : WorkerClient :=
  post k (Exec command) {| m_command := command; m_port := None |}.
Definition add_connection_post (k : WorkerClient) (port : nat) : WorkerClient :=
  post k AddingConnection {| m_command := InternalPing; m_port := Some port |}.

(** A response is taken from the channel: the turn of the loop of [exec], and the end of
    [add_connection_to_worker]. *)
Definition returned (k : WorkerClient) (rs : list WorkerResponse) (call : option Call) (l : list (NodeCommand * WorkerResponse))
    : WorkerClient :=
  {| wc_call := call; wc_outgoing := wc_outgoing k; wc_responses := rs; wc_log := wc_log k ++ l |}.
Definition client_receive (k : WorkerClient) : option WorkerClient :=
  match wc_call k, wc_responses k with
  | Some (Exec command), r :: rs =>
      Some (if is_internal_pong r && negb (is_ping command) then returned k rs (Some (Exec command)) []
            else returned k rs None [(command, r)])
  | Some AddingConnection, r :: rs => Some (returned k rs None [(InternalPing, r)])
  | _, _ => None
  end.
(** The timeout around a ping in [NodeClient::new] drops the call. *)
Definition client_timeout (k : WorkerClient) : option WorkerClient :=
  match wc_call k with
  | Some (Exec InternalPing) => Some (returned k (wc_responses k) None [])
  | _ => None
  end.

(** ** Worker, ports and clients together *)

(** [ps_served] is the history of the commands that were handled, with the port of the client;
    [ps_lost] are the ports on which a command or a response was lost. *)
Record PortSystem := {
  ps_worker : NodeWorker; ps_server : WorkerServer; ps_clients : nat → WorkerClient;
  ps_served : list (nat * NodeCommand * WorkerResponse); ps_lost : gset nat
}.
Inductive PortEvent :=
| PExec (p : nat) (command : NodeCommand)
| PAddConnection (p port : nat)
| PDeliver (p : nat) (readable : bool)
| PServe (start : Config → res WasmError NodeHandle) (sent : bool)
| PReceive (p : nat)
| PTimeout (p : nat)
| PNode (n : NodeHandle).

Definition set_client (f : nat → WorkerClient) (p : nat) (k : WorkerClient) : nat → WorkerClient :=
  λ p', if decide (p' = p) then k else f p'.
Definition with_client (y : PortSystem) (p : nat) (k : WorkerClient) : PortSystem :=
  {| ps_worker := ps_worker y; ps_server := ps_server y; ps_clients := set_client (ps_clients y) p k; ps_served := ps_served y;
     ps_lost := ps_lost y |}.
Definition with_server (y : PortSystem) (v : WorkerServer) : PortSystem :=
  {| ps_worker := ps_worker y; ps_server := v; ps_clients := ps_clients y; ps_served := ps_served y; ps_lost := ps_lost y |}.
(** A message on port [p] was lost, if it did not get [through]. *)
Definition note_lost (through : bool) (p : nat) (l : gset nat) : gset nat := if through then l else {[p]} ∪ l.
Definition set_queue (v : WorkerServer) (q : list ClientMessage) : WorkerServer :=
  {| ws_ports := ws_ports v; ws_queue := q; ws_listening := ws_listening v |}.

(** [respond_to], after a command of client [id] was handled; [sent] says whether the response
    could be serialized and posted, and otherwise the failure is only logged. *)
Definition respond_to (y : PortSystem) (w : NodeWorker) (q : list ClientMessage) (id : nat) (c : NodeCommand) (r : WorkerResponse)
    (sent : bool) : res unit PortSystem :=
  p ← expect (ws_ports (ps_server y) !! id);
  let k := ps_clients y p in
  Ok {| ps_worker := w; ps_server := set_queue (ps_server y) q;
        ps_clients := set_client (ps_clients y) p
          {| wc_call := wc_call k; wc_outgoing := wc_outgoing k;
             wc_responses := wc_responses k ++ (if sent then [r] else []); wc_log := wc_log k |};
        ps_served := ps_served y ++ [(p, c, r)]; ps_lost := note_lost sent p (ps_lost y) |}.

Definition serve (y : PortSystem) (start : Config → res WasmError NodeHandle) (sent : bool) : option (res unit PortSystem) :=
  match ws_queue (ps_server y) with
  | [] => None
  | AddConnection port :: q => Some (Ok (with_server y (add_connection (set_queue (ps_server y) q) port)))
  | Command id c :: q => Some ('(w, r) ← run_command start (ps_worker y) c; respond_to y w q id c r sent)
  end.

(** The callback of the worker takes the next message of port [p]. *)
Definition deliver (y : PortSystem) (p id : nat) (m : Message) (ms : list Message) (readable : bool) : PortSystem :=
  let k := ps_clients y p in
  {| ps_worker := ps_worker y;
     ps_server := set_queue (ps_server y) (ws_queue (ps_server y) ++ on_message id m readable);
     ps_clients := set_client (ps_clients y) p
       {| wc_call := wc_call k; wc_outgoing := ms; wc_responses := wc_responses k; wc_log := wc_log k |};
     ps_served := ps_served y; ps_lost := note_lost readable p (ps_lost y) |}.

Definition port_step (y : PortSystem) (e : PortEvent) : option (res unit PortSystem) :=
  match e with
  | PExec p command =>
      match wc_call (ps_clients y p) with
      | None => Some (Ok (with_client y p (exec_post (ps_clients y p) command)))
      | Some _ => None
      end
  | PAddConnection p port =>
      match wc_call (ps_clients y p) with
      | None => Some (Ok (with_client y p (add_connection_post (ps_clients y p) port)))
      | Some _ => None
      end
  | PDeliver p readable =>
      id ← ws_listening (ps_server y) !! p;
      match wc_outgoing (ps_clients y p) with
      | [] => None
      | m :: ms => Some (Ok (deliver y p id m ms readable))
      end
  | PServe start sent => serve y start sent
  | PReceive p => k ← client_receive (ps_clients y p); Some (Ok (with_client y p k))
  | PTimeout p => k ← client_timeout (ps_clients y p); Some (Ok (with_client y p k))
  | PNode n =>
      match nw_node (ps_worker y) with
      | Some _ => Some (Ok {| ps_worker := set_node (ps_worker y) (Some n); ps_server := ps_server y;
                              ps_clients := ps_clients y; ps_served := ps_served y; ps_lost := ps_lost y |})
      | None => None
      end
  end.

(** [NodeWorker::new] with the port of the first client. *)
Definition node_worker_new (channel : bytes) (port : nat) : PortSystem :=
  {| ps_worker := {| event_channel_name := channel; nw_node := None |};
     ps_server := {| ws_ports := []; ws_queue := [AddConnection port]; ws_listening := ∅ |};
     ps_clients := λ _, worker_client_new; ps_served := []; ps_lost := ∅ |}.
Inductive port_reachable (channel : bytes) (port : nat) : PortSystem → Prop :=
| pr_start : port_reachable channel port (node_worker_new channel port)
| pr_step y e y' : port_reachable channel port y → port_step y e = Some (Ok y') → port_reachable channel port y'.

(** ** Lemmas *)

(** The history of one client, and the part that is not pings. *)
Definition served_to (p : nat) (l : list (nat * NodeCommand * WorkerResponse)) : list (NodeCommand * WorkerResponse) :=
  omap (λ x : nat * NodeCommand * WorkerResponse, if decide (x.1.1 = p) then Some (x.1.2, x.2) else None) l.
Definition calls (l : list (NodeCommand * WorkerResponse)) : list (NodeCommand * WorkerResponse) :=
  filter (λ x : NodeCommand * WorkerResponse, is_ping x.1 = false) l.

(** The commands of a client that have not been handled: in the queue, and on the way. *)
Definition queued (ports : list nat) (p : nat) (q : list ClientMessage) : list NodeCommand :=
  omap (λ m, match m with
             | Command id c => if decide (ports !! id = Some p) then Some c else None
             | AddConnection _ => None
             end) q.
Definition pending (y : PortSystem) (p : nat) : list NodeCommand :=
  queued (ws_ports (ps_server y)) p (ws_queue (ps_server y)) ++ (m_command <$> wc_outgoing (ps_clients y p)).

(** What may be in flight during a call: pings that timed out, and then the command of the call,
    unless it was lost. *)
Definition aligned (lost : Prop) (call : option Call) (flight : list NodeCommand) : Prop :=
  match call with
  | None => Forall (λ c, is_ping c = true) flight
  | Some AddingConnection => Forall (λ c, is_ping c = true) flight ∧ (flight = [] → lost)
  | Some (Exec c) => ∃ pings, Forall (λ c, is_ping c = true) pings ∧
      (flight = pings ++ [c] ∨ flight = pings ∧ (lost ∨ is_ping c = true ∧ pings ≠ []))
  end.

(** [taken] are the responses that the client has taken from its channel, [waiting] those in the
    channel, [missing] the call that was handled and whose response was lost. *)
Record client_inv (y : PortSystem) (p : nat) (taken waiting missing : list (NodeCommand * WorkerResponse)) : Prop := {
  ci_served : calls (served_to p (ps_served y)) = calls taken ++ calls waiting ++ missing;
  ci_real x : x ∈ taken ++ waiting → x ∈ served_to p (ps_served y);
  ci_responses : wc_responses (ps_clients y p) = waiting.*2;
  ci_log : calls taken = calls (wc_log (ps_clients y p));
  ci_pings x : x ∈ wc_log (ps_clients y p) → is_ping x.1 = is_internal_pong x.2;
  ci_aligned : aligned (p ∈ ps_lost y) (wc_call (ps_clients y p)) (waiting.*1 ++ pending y p);
  ci_missing : missing ≠ [] → (∃ c, wc_call (ps_clients y p) = Some (Exec c) ∧ is_ping c = false) ∧
    Forall (λ c, is_ping c = true) (waiting.*1 ++ pending y p)
}.
Definition ports_ok (v : WorkerServer) : Prop :=
  (∀ id c, Command id c ∈ ws_queue v → is_Some (ws_ports v !! id)) ∧
  (∀ p id, ws_listening v !! p = Some id → ws_ports v !! id = Some p).
Record port_inv (y : PortSystem) : Prop := {
  pi_ports : ports_ok (ps_server y);
  pi_pongs x : x ∈ ps_served y → is_ping x.1.2 = is_internal_pong x.2;
  pi_clients p : ∃ taken waiting missing, client_inv y p taken waiting missing
}.

(** A command is answered with a pong exactly when it is a ping. *)
Lemma respond_not_pong {A} (f : res WasmError A → WorkerResponse) x r :
  (∀ a, is_internal_pong (f a) = false) → respond f x = Ok r → is_internal_pong r = false.
Proof. intros Hf. destruct x; cbn; intros Hr; try done; injection Hr as <-; apply Hf. Qed.
Lemma run_command_pong start w c w' r : run_command start w c = Ok (w', r) → is_ping c = is_internal_pong r.
Proof.
  unfold run_command. intros Hrun.
  destruct (nw_node w) as [n|]; destruct c; cbn [process_command mbind res_bind] in Hrun;
    try (injection Hrun as <- <-; done); try done;
    try (destruct (start _); try done; by injection Hrun as <- <-);
    (match type of Hrun with context [respond ?f ?x] => destruct (respond f x) as [r'| |] eqn:E end; try done;
     injection Hrun as <- <-; apply respond_not_pong in E; by rewrite ?E).
Qed.

(** The worker panics only where the node does. *)
Lemma run_command_panic start w c : run_command start w c = Panic →
  match nw_node w with
  | Some n => c ≠ StopNode ∧ process_command (event_channel_name w) n c = Panic
  | None => ∃ config, c = StartNode config ∧ start config = Panic
  end.
Proof.
  unfold run_command. intros Hrun. destruct (nw_node w) as [n|].
  - destruct c; try done; (split; [done|]); cbn [process_command mbind res_bind] in Hrun |- *; try done;
      by match type of Hrun with context [respond ?f ?x] => destruct (respond f x) eqn:E end.
  - destruct c; try done. exists config. split; [done|]. by destruct (start config).
Qed.

Lemma served_to_app p l l' : served_to p (l ++ l') = served_to p l ++ served_to p l'.
Proof. apply omap_app. Qed.
Lemma queued_app ports p q q' : queued ports p (q ++ q') = queued ports p q ++ queued ports p q'.
Proof. apply omap_app. Qed.
Lemma calls_app l l' : calls (l ++ l') = calls l ++ calls l'.
Proof. apply filter_app. Qed.
(** New connections do not change whose the queued commands are. *)
Lemma queued_ports ports port p q : (∀ id c, Command id c ∈ q → is_Some (ports !! id)) →
  queued (ports ++ [port]) p q = queued ports p q.
Proof.
  intros Hq. unfold queued. induction q as [|[id c|port'] q IH]; [done| |]; cbn [omap list_omap];
    rewrite IH by (intros id' c' Hin; apply (Hq id' c'); by right); [|done].
  destruct (Hq id c) as [p' Hp']; [by left|]. rewrite lookup_app_l by (by eapply lookup_lt_Some). done.
Qed.

Lemma is_ping_eq c : is_ping c = true → c = InternalPing.
Proof. by destruct c. Qed.
#[local] Notation all_pings := (Forall (λ c : NodeCommand, is_ping c = true)).

Lemma aligned_exec P f c : aligned P None f → aligned P (Some (Exec c)) (f ++ [c]).
Proof. intros Hf. exists f. by split; [|left]. Qed.
Lemma aligned_adding P f : aligned P None f → aligned P (Some AddingConnection) (f ++ [InternalPing]).
Proof.
  intros Hf. split; [apply Forall_app; split; [done|by apply Forall_singleton]|]. by destruct f.
Qed.
Lemma aligned_ping P f : aligned P (Some (Exec InternalPing)) f → all_pings f.
Proof.
  intros (pings&Hp&[->|(->&_)]); [|done]. apply Forall_app. split; [done|by apply Forall_singleton].
Qed.
Lemma aligned_waits P call : aligned P (Some call) [] → P.
Proof.
  destruct call as [c|]; [|intros [_ Hl]; by apply Hl]. intros (pings&_&[Hnil|(<-&[?|[_ ?]])]); [by destruct pings|done|done].
Qed.
Lemma aligned_mono (P Q : Prop) call f : (P → Q) → aligned P call f → aligned Q call f.
Proof. intros HPQ. destruct call as [[]|]; cbn; naive_solver. Qed.
(** The first response during a call that is not a ping. *)
Lemma aligned_first P c c0 f : is_ping c = false → aligned P (Some (Exec c)) (c0 :: f) →
  if is_ping c0 then aligned P (Some (Exec c)) f else c0 = c ∧ f = [].
Proof.
  intros Hc (pings&Hp&[Heq|(<-&[HP|[? _]])]); [|..|congruence].
  - destruct pings as [|c1 pings].
    + injection Heq as -> ->. by rewrite Hc.
    + injection Heq as -> ->. apply Forall_cons in Hp as [Hc1 Hp]. rewrite Hc1. exists pings. by split; [|left].
  - apply Forall_cons in Hp as [Hc0 Hp]. rewrite Hc0. exists f. split; [done|]. right. by split; [|left].
Qed.
(** A command that is lost: what remains is aligned, and if it was not a ping then it was the
    command of the call. *)
Lemma aligned_lose P call f1 c f2 : aligned P call (f1 ++ c :: f2) →
  aligned True call (f1 ++ f2) ∧ (is_ping c = false → call = Some (Exec c) ∧ all_pings (f1 ++ f2)).
Proof.
  assert (∀ l, all_pings (l ++ c :: f2) → all_pings (l ++ f2) ∧ is_ping c = true) as Hdrop.
  { intros l. rewrite !Forall_app, Forall_cons. tauto. }
  destruct call as [[c'|]|]; cbn [aligned].
  - intros (pings&Hp&[Heq|(<-&_)]).
    2:{ apply Hdrop in Hp as [Hp Hc]. split; [|congruence]. exists (f1 ++ f2). split; [done|]. right. by split; [|left]. }
    destruct f2 as [|x f2 _] using rev_ind.
    + apply app_inj_tail in Heq as [<- <-]. rewrite app_nil_r. split; [|done].
      exists f1. split; [done|]. right. by split; [|left].
    + rewrite app_comm_cons, app_assoc in Heq. apply app_inj_tail in Heq as [<- ->].
      rewrite Forall_app, Forall_cons in Hp. destruct Hp as (Hf1&Hc&Hf2). split; [|congruence].
      exists (f1 ++ f2). rewrite app_assoc. split; [by apply Forall_app|by left].
  - intros [[Hp Hc]%Hdrop _]. by split; [|congruence].
  - intros [Hp Hc]%Hdrop. by split; [|congruence].
Qed.

Lemma client_inv_other y y' p taken waiting missing :
  ps_clients y' p = ps_clients y p → served_to p (ps_served y') = served_to p (ps_served y) → pending y' p = pending y p →
  ps_lost y ⊆ ps_lost y' → client_inv y p taken waiting missing → client_inv y' p taken waiting missing.
Proof.
  intros Hk Hs Hp Hlost [H1 H2 H3 H4 H5 H6 H7]. split; rewrite ?Hk, ?Hs, ?Hp; try done.
  revert H6. apply aligned_mono. set_solver.
Qed.

(** What a client takes from its channel. *)
Lemma client_receive_inv y p k : port_inv y → client_receive (ps_clients y p) = Some k →
  ∃ taken waiting missing, client_inv (with_client y p k) p taken waiting missing.
Proof.
  intros [_ Hpongs Hcl] Hk. destruct (Hcl p) as (taken&waiting&missing&[Hs Hre Hr Hl Hpi Ha Hm]). unfold client_receive in Hk.
  assert (∀ x, x ∈ taken ++ waiting → is_ping x.1 = is_internal_pong x.2) as Hserved.
  { intros x (x0&Hx0&Hx)%Hre%list_elem_of_omap. apply Hpongs in Hx0. case_decide; [|done]. by injection Hx as <-. }
  assert (∀ k', set_client (ps_clients y) p k' p = k') as Hset by (intros k'; unfold set_client; by rewrite decide_True).
  destruct waiting as [|[c0 r] waiting]; rewrite Hr in Hk; [by destruct (wc_call _) as [[]|]|].
  assert (is_ping c0 = is_internal_pong r) as Hc0 by (exact (Hserved (c0, r) (proj2 (elem_of_app _ _ _) (or_intror (list_elem_of_here _ _))))).
  exists (taken ++ [(c0, r)]), waiting, missing.
  assert (∀ call l, k = returned (ps_clients y p) (waiting.*2) call l →
    calls [(c0, r)] = calls l → (∀ x, x ∈ l → is_ping x.1 = is_internal_pong x.2) →
    aligned (p ∈ ps_lost y) call (waiting.*1 ++ pending y p) →
    (missing ≠ [] → call = wc_call (ps_clients y p)) →
    client_inv (with_client y p k) p (taken ++ [(c0, r)]) waiting missing) as Hdone.
  { intros call l -> Hcalls Hpl Hal Hmc. split; cbn [with_client ps_served ps_clients ps_lost].
    - rewrite Hs, calls_app. change ((c0, r) :: waiting) with ([(c0, r)] ++ waiting). by rewrite calls_app, !app_assoc.
    - intros x. rewrite <-app_assoc. apply Hre.
    - by rewrite Hset.
    - rewrite Hset. cbn. by rewrite !calls_app, Hl, Hcalls.
    - intros x. rewrite Hset. cbn. intros [Hx|Hx]%elem_of_app; auto.
    - unfold pending. cbn. rewrite Hset. exact Hal.
    - intros Hne. destruct (Hm Hne) as [Hcall Hpings]. unfold pending. cbn. rewrite Hset. cbn. rewrite (Hmc Hne).
      split; [exact Hcall|]. cbn in Hpings. by apply Forall_cons in Hpings as [_ ?]. }
  cbn [fmap list_fmap app fst] in Ha. destruct (wc_call (ps_clients y p)) as [[c|]|] eqn:Ecall; [..|done].
  - injection Hk as Hk. destruct (is_ping c) eqn:Ec.
    + rewrite andb_false_r in Hk. apply is_ping_eq in Ec as ->. apply aligned_ping in Ha.
      apply Forall_cons in Ha as [Hp0 Ha]. apply is_ping_eq in Hp0 as ->. eapply Hdone; [by rewrite <-Hk|done| |done|].
      * intros x Hx. apply list_elem_of_singleton in Hx as ->. done.
      * intros Hne. by destruct (Hm Hne) as [(c&[= <-]&?) _].
    + pose proof Ha as Ha'. apply (aligned_first _ _ _ _ Ec) in Ha. destruct (is_internal_pong r) eqn:Er; rewrite Hc0 in Ha; cbn in Hk.
      * eapply Hdone; [by rewrite <-Hk| |by intros x ?%elem_of_nil|done|done].
        unfold calls. by rewrite filter_cons_False by (cbn; congruence).
      * destruct Ha as [-> Hf]. eapply Hdone; [by rewrite <-Hk|done| |rewrite Hf; by constructor|].
        -- intros x Hx. apply list_elem_of_singleton in Hx as ->. cbn. congruence.
        -- intros Hne. destruct (Hm Hne) as [_ Hpings]. cbn in Hpings. apply Forall_cons in Hpings as [? _]. congruence.
  - injection Hk as Hk. destruct Ha as [Ha _]. apply Forall_cons in Ha as [Hp0 Ha]. apply is_ping_eq in Hp0 as ->.
    eapply Hdone; [by rewrite <-Hk|done| |done|].
    + intros x Hx. by apply list_elem_of_singleton in Hx as ->.
    + intros Hne. by destruct (Hm Hne) as [(c&?&_) _].
Qed.

Lemma set_client_eq f p k : set_client f p k p = k.
Proof. unfold set_client. by rewrite decide_True. Qed.
Lemma set_client_ne f p p' k : p' ≠ p → set_client f p k p' = f p'.
Proof. intros Hne. unfold set_client. by rewrite decide_False. Qed.

Lemma with_client_inv y p k : port_inv y → (∃ taken waiting missing, client_inv (with_client y p k) p taken waiting missing) →
  port_inv (with_client y p k).
Proof.
  intros [Hports Hpongs Hcl] Hp. split; [done|done|]. intros p'. destruct (decide (p' = p)) as [->|Hne]; [done|].
  destruct (Hcl p') as (taken&waiting&missing&Hci). exists taken, waiting, missing. revert Hci. apply client_inv_other.
  - by apply set_client_ne.
  - done.
  - unfold pending. cbn. by rewrite set_client_ne.
  - done.
Qed.

(** Nothing is missing for a client that does not wait. *)
Lemma nothing_missing y p taken waiting missing : client_inv y p taken waiting missing →
  wc_call (ps_clients y p) = None → missing = [].
Proof.
  intros Hci Hnone. destruct missing; [done|]. destruct (ci_missing _ _ _ _ _ Hci) as [(c&Hc&_) _]; [done|congruence].
Qed.

Lemma post_inv y p call m : port_inv y → wc_call (ps_clients y p) = None →
  (∀ P f, aligned P None f → aligned P (Some call) (f ++ [m_command m])) →
  port_inv (with_client y p (post (ps_clients y p) call m)).
Proof.
  intros Hinv Hnone Hal. apply with_client_inv; [done|]. destruct (pi_clients _ Hinv p) as (taken&waiting&missing&Hci).
  pose proof (nothing_missing _ _ _ _ _ Hci Hnone) as ->. destruct Hci as [Hs Hre Hr Hl Hpi Ha Hm].
  exists taken, waiting, []. rewrite Hnone in Ha. split; cbn; rewrite ?set_client_eq; try done.
  unfold pending. cbn. rewrite set_client_eq. cbn. rewrite fmap_app, !app_assoc. apply Hal.
  by rewrite <-!app_assoc.
Qed.

Lemma timeout_inv y p k : port_inv y → client_timeout (ps_clients y p) = Some k → port_inv (with_client y p k).
Proof.
  intros Hinv Hk. apply with_client_inv; [done|].
  destruct (pi_clients _ Hinv p) as (taken&waiting&missing&[Hs Hre Hr Hl Hpi Ha Hm]).
  exists taken, waiting, missing. unfold client_timeout in Hk. destruct (wc_call (ps_clients y p)) as [[[]|]|] eqn:Ec; try done.
  assert (missing = []) as ->.
  { destruct missing; [done|]. by destruct Hm as [(c&[= <-]&?) _]. }
  injection Hk as <-. apply aligned_ping in Ha. rewrite app_nil_r in Hs.
  split; cbn; rewrite ?set_client_eq; cbn; rewrite ?app_nil_r; try done.
  unfold pending. cbn. by rewrite set_client_eq.
Qed.

(** A message of port [p] moves on, or is lost. *)
Lemma deliver_inv y p id m ms readable : port_inv y → ws_listening (ps_server y) !! p = Some id →
  wc_outgoing (ps_clients y p) = m :: ms → port_inv (deliver y p id m ms readable).
Proof.
  intros [[Hids Hlis] Hpongs Hcl] Hid Hout. apply Hlis in Hid as Hport.
  assert (∀ p', queued (ws_ports (ps_server y)) p' (on_message id m readable) =
    if decide (p' = p) then if readable then [m_command m] else [] else []) as Hq.
  { intros p'. unfold on_message. rewrite queued_app. assert (queued (ws_ports (ps_server y)) p'
      match m_port m with Some port => [AddConnection port] | None => [] end = []) as -> by (by destruct (m_port m)).
    destruct readable; cbn; [|by case_decide]. rewrite Hport.
    destruct (decide (p' = p)) as [->|Hne]; [by rewrite decide_True|]. rewrite decide_False by congruence. done. }
  split; [split|done|].
  - intros id' c. cbn. rewrite elem_of_app. intros [Hin|Hin]; [by apply (Hids id' c)|]. unfold on_message in Hin.
    apply elem_of_app in Hin as [Hin|Hin]; [destruct (m_port m); set_solver|]. destruct readable; [|by apply elem_of_nil in Hin].
    apply list_elem_of_singleton in Hin. injection Hin as -> ->. by eexists.
  - exact Hlis.
  - intros p'. destruct (Hcl p') as (taken&waiting&missing&Hci). exists taken, waiting, missing.
    assert (pending (deliver y p id m ms readable) p' =
      queued (ws_ports (ps_server y)) p' (ws_queue (ps_server y)) ++
      (if decide (p' = p) then if readable then [m_command m] else [] else []) ++
      (m_command <$> (if decide (p' = p) then ms else wc_outgoing (ps_clients y p')))) as Hpend.
    { unfold pending. cbn [deliver set_queue ps_server ps_clients ws_queue ws_ports].
      rewrite queued_app, Hq, <-app_assoc. destruct (decide (p' = p)) as [->|Hne]; [by rewrite set_client_eq|by rewrite set_client_ne]. }
    assert (ps_lost y ⊆ ps_lost (deliver y p id m ms readable)) as Hlost by (cbn; destruct readable; set_solver).
    destruct (decide (p' = p)) as [->|Hne].
    2:{ revert Hci. apply client_inv_other; [by apply set_client_ne|done|exact Hpend|done]. }
    assert (pending y p = queued (ws_ports (ps_server y)) p (ws_queue (ps_server y)) ++ m_command m :: (m_command <$> ms)) as Hold
      by (unfold pending; by rewrite Hout).
    destruct Hci as [Hs Hre Hr Hl Hpi Ha Hm]. rewrite Hold in Ha, Hm.
    destruct readable; [split; rewrite ?Hpend; cbn; rewrite ?set_client_eq; done|].
    rewrite app_assoc in Ha, Hm. destruct (aligned_lose _ _ _ _ _ Ha) as [Ha' _].
    split; rewrite ?Hpend; cbn [app]; cbn [deliver ps_clients ps_served ps_lost]; rewrite ?set_client_eq;
      cbn [wc_call wc_outgoing wc_responses wc_log]; try done.
    + rewrite app_assoc. revert Ha'. apply aligned_mono. intros _. set_solver.
    + intros [Hcall Hp]%Hm. split; [done|]. rewrite app_assoc. rewrite Forall_app, Forall_cons in Hp.
      destruct Hp as (?&_&?). by apply Forall_app.
Qed.

Lemma add_connection_inv y port q : port_inv y → ws_queue (ps_server y) = AddConnection port :: q →
  port_inv (with_server y (add_connection (set_queue (ps_server y) q) port)).
Proof.
  intros [[Hids Hlis] Hpongs Hcl] Hq.
  assert (∀ id c, Command id c ∈ q → is_Some (ws_ports (ps_server y) !! id)) as Hids'.
  { intros id c Hin. apply (Hids id c). rewrite Hq. by right. }
  assert (∀ p, queued (ws_ports (ps_server y)) p (ws_queue (ps_server y)) = queued (ws_ports (ps_server y)) p q) as Hsame
    by (intros p; by rewrite Hq).
  unfold add_connection. cbn [set_queue ws_ports ws_queue ws_listening]. destruct (port_ok port).
  - split; [split|done|]; cbn [with_server ps_server ws_ports ws_queue ws_listening].
    + intros id c Hin. destruct (Hids' id c Hin) as [x Hx]. exists x. by apply lookup_app_l_Some.
    + intros p id. destruct (decide (port = p)) as [->|Hne].
      * rewrite lookup_insert_eq. intros [= <-]. by rewrite lookup_app_r, Nat.sub_diag.
      * rewrite lookup_insert_ne by done. intros Hp%Hlis. by apply lookup_app_l_Some.
    + intros p. destruct (Hcl p) as (taken&waiting&missing&Hci). exists taken, waiting, missing. revert Hci.
      apply client_inv_other; [done|done| |done].
      unfold pending. cbn [with_server ps_server ps_clients ws_ports ws_queue]. by rewrite queued_ports, Hsame.
  - split; [by split|done|]. intros p. destruct (Hcl p) as (taken&waiting&missing&Hci). exists taken, waiting, missing. revert Hci.
    apply client_inv_other; [done|done| |done]. unfold pending. cbn [with_server ps_server ps_clients set_queue ws_ports ws_queue].
    by rewrite Hsame.
Qed.

(** The client whose command was handled. *)
Lemma respond_to_client y w q id c r sent p taken waiting missing : ws_ports (ps_server y) !! id = Some p →
  ws_queue (ps_server y) = Command id c :: q → is_ping c = is_internal_pong r → client_inv y p taken waiting missing →
  ∀ y', respond_to y w q id c r sent = Ok y' → ∃ taken waiting missing, client_inv y' p taken waiting missing.
Proof.
  intros Hp Hq Hpong [Hs Hre Hr Hl Hpi Ha Hm] y' Hres. unfold respond_to in Hres. rewrite Hp in Hres. injection Hres as <-.
  assert (pending y p = c :: queued (ws_ports (ps_server y)) p q ++ (m_command <$> wc_outgoing (ps_clients y p))) as Hold.
  { unfold pending. rewrite Hq. cbn [queued omap list_omap]. by rewrite Hp, decide_True by done. }
  set (rest := queued _ p q ++ _) in Hold. rewrite Hold in Ha, Hm.
  assert (served_to p (ps_served y ++ [(p, c, r)]) = served_to p (ps_served y) ++ [(c, r)]) as Hserved.
  { rewrite served_to_app. cbn. by rewrite decide_True by done. }
  destruct (aligned_lose _ _ _ _ _ Ha) as [Ha' Hown]. destruct sent.
  - exists taken, (waiting ++ [(c, r)]), missing.
    split; cbn [ps_clients ps_served ps_lost note_lost]; rewrite ?set_client_eq, ?Hserved; cbn [wc_call wc_responses wc_log]; try done.
    + rewrite !calls_app, Hs. destruct (decide (missing = [])) as [->|Hne]; [by rewrite !app_nil_r, app_assoc|].
      destruct (Hm Hne) as [_ Hpings]. rewrite Forall_app, Forall_cons in Hpings. destruct Hpings as (_&Hc&_).
assert (calls [(c, r)] = []) as -> by (unfold calls; by rewrite filter_cons_False by (cbn; congruence)).
      by rewrite !app_nil_r.
    + intros x Hx. apply elem_of_app. rewrite app_assoc in Hx. apply elem_of_app in Hx as [Hx|Hx]; [left; by apply Hre|by right].
    + by rewrite Hr, fmap_app.
    + unfold pending. cbn [ps_clients ps_server set_queue ws_ports ws_queue]. rewrite set_client_eq. cbn [wc_outgoing].
      fold rest. rewrite fmap_app, <-app_assoc. exact Ha.
    + unfold pending. cbn [ps_clients ps_server set_queue ws_ports ws_queue]. rewrite set_client_eq. cbn [wc_outgoing].
      fold rest. rewrite fmap_app, <-app_assoc. exact Hm.
  - exists taken, waiting, (missing ++ calls [(c, r)]).
    split; cbn [ps_clients ps_served ps_lost note_lost]; rewrite ?set_client_eq, ?Hserved; cbn [wc_call wc_responses wc_log]; try done.
    + by rewrite calls_app, Hs, !app_assoc.
    + intros x Hx. apply elem_of_app. left. by apply Hre.
    + by rewrite app_nil_r.
    + unfold pending. cbn [ps_clients ps_server set_queue ws_ports ws_queue]. rewrite set_client_eq. cbn [wc_outgoing].
      fold rest. revert Ha'. apply aligned_mono. intros _. set_solver.
    + unfold pending. cbn [ps_clients ps_server set_queue ws_ports ws_queue]. rewrite set_client_eq. cbn [wc_outgoing]. fold rest.
      intros Hne. destruct (is_ping c) eqn:Hc.
      * unfold calls in Hne. rewrite filter_cons_False, filter_nil, app_nil_r in Hne by (cbn; congruence).
        destruct (Hm Hne) as [Hcall Hpings]. split; [done|]. rewrite Forall_app, Forall_cons in Hpings.
        destruct Hpings as (?&_&?). by apply Forall_app.
      * destruct (Hown eq_refl) as [Hcall Hpings]. split; [by exists c|done].
Qed.

Lemma respond_to_inv y w q id c r sent y' : port_inv y → ws_queue (ps_server y) = Command id c :: q →
  is_ping c = is_internal_pong r → respond_to y w q id c r sent = Ok y' → port_inv y'.
Proof.
  intros [[Hids Hlis] Hpongs Hcl] Hq Hpong Hres. pose proof Hres as Hres'. unfold respond_to in Hres.
  destruct (ws_ports (ps_server y) !! id) as [p|] eqn:Hp; [|done]. cbn [expect mbind res_bind] in Hres. injection Hres as <-.
  split; [split|..]; cbn [ps_server ps_served ps_clients set_queue ws_ports ws_queue ws_listening].
  - intros id' c' Hin. apply (Hids id' c'). rewrite Hq. by right.
  - exact Hlis.
  - intros x [Hx|Hx]%elem_of_app; [by apply Hpongs|]. by apply list_elem_of_singleton in Hx as ->.
  - intros p'. destruct (Hcl p') as (taken&waiting&missing&Hci). destruct (decide (p' = p)) as [->|Hne].
    + exact (respond_to_client _ _ _ _ _ _ _ _ _ _ _ Hp Hq Hpong Hci _ Hres').
    + exists taken, waiting, missing. revert Hci. apply client_inv_other.
      * by apply set_client_ne.
      * cbn [ps_served]. rewrite served_to_app. cbn. rewrite decide_False by done. by rewrite app_nil_r.
      * unfold pending. cbn [ps_clients ps_server set_queue ws_ports ws_queue]. rewrite set_client_ne by done. rewrite Hq.
        cbn [queued omap list_omap]. rewrite Hp, decide_False by congruence. done.
      * cbn [ps_lost]. destruct sent; set_solver.
Qed.

Lemma port_step_inv y e y' : port_inv y → port_step y e = Some (Ok y') → port_inv y'.
Proof.
  intros Hinv. destruct e as [p c|p port|p readable|start sent|p|p|n]; cbn [port_step].
  - destruct (wc_call (ps_clients y p)) eqn:Ec; [done|]. intros [= <-]. apply post_inv; [done|done|]. intros P f. apply aligned_exec.
  - destruct (wc_call (ps_clients y p)) eqn:Ec; [done|]. intros [= <-]. apply post_inv; [done|done|]. apply aligned_adding.
  - destruct (ws_listening (ps_server y) !! p) as [id|] eqn:Hid; [|done]. cbn [mbind option_bind].
    destruct (wc_outgoing (ps_clients y p)) as [|m ms] eqn:Hout; [done|]. intros [= <-]. by apply deliver_inv.
  - unfold serve. destruct (ws_queue (ps_server y)) as [|[id c|port] q] eqn:Hq; [done|..]; intros Hs; apply (inj Some) in Hs.
    + apply bind_Ok in Hs as ([w r]&Hrun&Hres). apply run_command_pong in Hrun. by eapply respond_to_inv.
    + injection Hs as <-. by apply add_connection_inv.
  - destruct (client_receive _) as [k|] eqn:Hk; [|done]. intros [= <-]. apply with_client_inv; [done|]. by apply client_receive_inv.
  - destruct (client_timeout _) as [k|] eqn:Hk; [|done]. intros [= <-]. by apply timeout_inv.
  - destruct (nw_node (ps_worker y)); [|done]. intros [= <-]. destruct Hinv as [Hports Hpongs Hcl]. split; [done|done|].
    intros p. destruct (Hcl p) as (taken&waiting&missing&Hci). exists taken, waiting, missing. by revert Hci; apply client_inv_other.
Qed.

Lemma port_reachable_inv channel port y : port_reachable channel port y → port_inv y.
Proof.
  induction 1 as [|y e y' _ IH Hs]; [|by eapply port_step_inv]. split.
  - split; [intros id c Hin; cbn in Hin; set_solver|done].
  - by intros x ?%elem_of_nil.
  - intros p. exists [], [], []. split; [done|done|done|done|by intros x ?%elem_of_nil|by constructor|done].
Qed.

(** C24. Every call over a port returns the response to its own command, whatever pings have timed out
    before it, whoever else uses the worker and however the steps interleave: the calls of a client
    that are not pings are, in their order, a prefix of what the worker handled for it, and all of
    it when no such call is waiting; pings, and they only, return pongs (so that adding a connection
    never gets an unexpected response).  While a call waits, its response, its command in the
    queue or on the way is still there, unless a message on the port of the client was lost (a
    command the worker could not read or a response it could not send), which never makes
    a later call return a wrong response.  The worker panics only where the node does: the number of
    a client always names a connection, and the [unreachable!] for [StopNode] is not reached. *)
Theorem calls_return_own_responses channel port y p : port_reachable channel port y →
  let k := ps_clients y p in
  calls (wc_log k) `prefix_of` calls (served_to p (ps_served y)) ∧
  (wc_call k = None → calls (wc_log k) = calls (served_to p (ps_served y))) ∧
  (∀ x, x ∈ wc_log k → is_ping x.1 = is_internal_pong x.2) ∧
  (wc_call k ≠ None → wc_responses k ≠ [] ∨ wc_outgoing k ≠ [] ∨
     (∃ id c, Command id c ∈ ws_queue (ps_server y) ∧ ws_ports (ps_server y) !! id = Some p) ∨ p ∈ ps_lost y) ∧
  (∀ e, port_step y e = Some Panic → ∃ start sent id c q, e = PServe start sent ∧ ws_queue (ps_server y) = Command id c :: q ∧
     match nw_node (ps_worker y) with
     | Some n => c ≠ StopNode ∧ process_command (event_channel_name (ps_worker y)) n c = Panic
     | None => ∃ config, c = StartNode config ∧ start config = Panic
     end).
Proof.
  intros Hinv%port_reachable_inv k. destruct (pi_clients _ Hinv p) as (taken&waiting&missing&Hci).
  pose proof (nothing_missing _ _ _ _ _ Hci) as Hmiss. destruct Hci as [Hs Hre Hr Hl Hpi Ha _]. fold k in Hr, Hl, Hpi, Ha, Hmiss.
  split_and!.
  - rewrite Hs, Hl. by eexists.
  - intros Hnone. rewrite Hnone in Ha. rewrite Hs, (Hmiss Hnone), Hl, app_nil_r. apply Forall_app in Ha as [Ha _].
    assert (calls waiting = []) as ->; [|by rewrite app_nil_r]. clear -Ha. induction waiting as [|x l IH]; [done|].
    cbn in Ha. apply Forall_cons in Ha as [Hx Ha]. unfold calls. rewrite filter_cons_False by congruence. by apply IH.
  - exact Hpi.
  - intros Hcall. destruct (wc_call k) as [call|] eqn:Ec; [|done].
    destruct waiting as [|x waiting]; [|left; by rewrite Hr]. right. cbn in Ha. unfold pending in Ha.
    destruct (wc_outgoing (ps_clients y p)) eqn:Eo; [right|left; fold k in Eo; by rewrite Eo].
    rewrite app_nil_r in Ha. destruct (queued _ _ _) as [|c l] eqn:Eq; [right; by apply aligned_waits in Ha|left].
    assert (c ∈ queued (ws_ports (ps_server y)) p (ws_queue (ps_server y))) as Hin by (rewrite Eq; apply list_elem_of_here).
    apply list_elem_of_omap in Hin as ([id c'|]&Hin&Hc); [|done]. case_decide as Hport; [|done]. by exists id, c'.
  - intros e Hpanic. destruct e as [p' c|p' port'|p' readable|start sent|p'|p'|n]; cbn [port_step] in Hpanic;
      try (by repeat case_match).
    + destruct (ws_listening _ !! p'); cbn in Hpanic; [by case_match|done].
    + unfold serve in Hpanic. destruct (ws_queue (ps_server y)) as [|[id c|port'] q] eqn:Hq; [done| |done].
      exists start, sent, id, c, q. split_and!; [done|done|]. apply (inj Some) in Hpanic. apply run_command_panic.
      destruct (run_command start (ps_worker y) c) as [[w r]| |]; [|done|done]. cbn [mbind res_bind] in Hpanic.
      exfalso. destruct (proj1 (pi_ports _ Hinv) id c) as [p' Hp']; [rewrite Hq; by left|].
      unfold respond_to in Hpanic. rewrite Hp' in Hpanic. done.
    + destruct (client_receive _); done.
    + destruct (client_timeout _); done.
Qed.

(** *** Whether the node runs *)

Definition running_step (running : bool) (r : WorkerResponse) : bool :=
  match r with RNodeStarted (Ok _) => true | RNodeStopped => false | _ => running end.
Definition running_after (l : list (nat * NodeCommand * WorkerResponse)) : bool :=
  foldl (λ b x, running_step b x.2) false l.

Lemma respond_shape {A} (f : res WasmError A → WorkerResponse) x r : respond f x = Ok r → ∃ a, r = f a.
Proof. destruct x; cbn; intros Hr; try done; injection Hr as <-; by eexists. Qed.

Lemma run_command_running start w c w' r : run_command start w c = Ok (w', r) →
  bool_decide (is_Some (nw_node w')) = running_step (bool_decide (is_Some (nw_node w))) r ∧
  (∀ b, r = RIsRunning b → b = bool_decide (is_Some (nw_node w))) ∧
  (r = NodeNotRunning → bool_decide (is_Some (nw_node w)) = false).
Proof.
  unfold run_command. intros Hrun. destruct (nw_node w) as [n|] eqn:Hn.
  - destruct c; cbn [process_command mbind res_bind] in Hrun;
      try (injection Hrun as <- <-; rewrite ?Hn; split_and!; [done|intros b [= <-]; done|done]); try done;
      (match type of Hrun with context [respond ?f ?x] => destruct (respond f x) as [r'| |] eqn:E end; try done;
       injection Hrun as <- <-; apply respond_shape in E as [a ->]; rewrite Hn; done).
  - destruct c; cbn in Hrun; try (injection Hrun as <- <-; rewrite ?Hn; split_and!; [done|intros b [= <-]; done|done]).
    destruct (start _); try done; injection Hrun as <- <-; rewrite ?Hn; done.
Qed.

(** The answers of the worker about itself are those of its history: a client is told that the node runs
    exactly when, among the commands handled before (of all clients), a successful start was the
    last of the starts and stops; and it is told that the node is not running only then. *)
Theorem worker_history channel port y : port_reachable channel port y →
  (∀ pre p c b post, ps_served y = pre ++ (p, c, RIsRunning b) :: post → b = running_after pre) ∧
  (∀ pre p c post, ps_served y = pre ++ (p, c, NodeNotRunning) :: post → running_after pre = false).
Proof.
  intros Hreach. assert (bool_decide (is_Some (nw_node (ps_worker y))) = running_after (ps_served y) ∧
    ∀ pre x post, ps_served y = pre ++ x :: post →
      (∀ b, x.2 = RIsRunning b → b = running_after pre) ∧ (x.2 = NodeNotRunning → running_after pre = false)) as [_ Hall].
  { induction Hreach as [|y e y' _ [IHrun IH] Hs]; [split; [done|]; by intros [] ? ?|].
    destruct e as [p' c|p' port'|p' readable|start sent|p'|p'|n]; cbn [port_step] in Hs.
    - destruct (wc_call _); [done|]. by injection Hs as <-.
    - destruct (wc_call _); [done|]. by injection Hs as <-.
    - destruct (ws_listening _ !! p'); [|done]. cbn in Hs. destruct (wc_outgoing _); [done|]. by injection Hs as <-.
    - unfold serve in Hs. destruct (ws_queue (ps_server y)) as [|[id c|port'] q] eqn:Hq; [done|..].
      + apply (inj Some) in Hs. apply bind_Ok in Hs as ([w r]&Hrun&Hres). unfold respond_to in Hres.
        destruct (ws_ports (ps_server y) !! id) as [p'|]; [|done]. cbn in Hres. injection Hres as <-. cbn [ps_worker ps_served].
        apply run_command_running in Hrun as (Hw&Hb&Hn). rewrite IHrun in Hw, Hb, Hn. split.
        { rewrite Hw. unfold running_after. by rewrite foldl_app. }
        intros pre x post Heq. destruct post as [|z post _] using rev_ind.
        * apply app_inj_tail in Heq as [<- <-]. by split.
        * rewrite app_comm_cons, app_assoc in Heq. apply app_inj_tail in Heq as [Heq _]. by apply (IH _ _ post).
      + by injection Hs as <-.
    - destruct (client_receive _); [|done]. by injection Hs as <-.
    - destruct (client_timeout _); [|done]. by injection Hs as <-.
    - destruct (nw_node (ps_worker y)) eqn:En; [|done]. injection Hs as <-. cbn [ps_worker ps_served set_node nw_node].
      split; [|exact IH]. rewrite <-IHrun. done. }
  split.
  - intros pre p c b post Heq. by apply (Hall _ _ _ Heq).
  - intros pre p c post Heq. by apply (Hall _ _ _ Heq).
Qed.

(** ** The methods of the client (client.rs) *)

(** What a method returns as an error: the error of [exec], a text that does not parse, the two
    errors of [check_variant], or the error inside the response. *)
Inductive JsError := JExec | JParse | JNotRunning | JInvalidResponse | JWorker (e : WasmError).
Definition check_variant {A} (into : WorkerResponse → option A) (r : WorkerResponse) : res JsError A :=
  match into r with
  | Some a => Ok a
  | None => match r with NodeNotRunning => Err JNotRunning | _ => Err JInvalidResponse end
  end.
(** [check_variant()??]. *)
Definition check_result {A} (into : WorkerResponse → option (res WasmError A)) (r : WorkerResponse) : res JsError A :=
  x ← check_variant into r; map_err JWorker x.

Definition into_is_running r := match r with RIsRunning b => Some b | _ => None end.
Definition into_node_started r := match r with RNodeStarted x => Some x | _ => None end.
Definition into_node_stopped r := match r with RNodeStopped => Some tt | _ => None end.
Definition into_events_channel_name r := match r with REventsChannelName n => Some n | _ => None end.
Definition into_local_peer_id r := match r with RLocalPeerId n => Some n | _ => None end.
Definition into_syncer_info r := match r with RSyncerInfo x => Some x | _ => None end.
Definition into_peer_tracker_info r := match r with RPeerTrackerInfo x => Some x | _ => None end.
Definition into_network_info r := match r with RNetworkInfo x => Some x | _ => None end.
Definition into_connected_peers r := match r with RConnectedPeers x => Some x | _ => None end.
Definition into_set_peer_trust r := match r with RSetPeerTrust x => Some x | _ => None end.
Definition into_connected r := match r with RConnected x => Some x | _ => None end.
Definition into_listeners r := match r with RListeners x => Some x | _ => None end.
Definition into_header r := match r with RHeader x => Some x | _ => None end.
Definition into_headers r := match r with RHeaders x => Some x | _ => None end.
Definition into_last_seen_network_head r := match r with RLastSeenNetworkHead x => Some x | _ => None end.
Definition into_sampling_metadata r := match r with RSamplingMetadata x => Some x | _ => None end.
Definition into_blobs r := match r with RBlobs x => Some x | _ => None end.

Section Client.
(** [WorkerClient::exec], and the parsers of hashes and peer ids. *)
Context (exec : NodeCommand → res JsError WorkerResponse).
Context (parse_hash : bytes → option Hash) (parse_peer_id : bytes → option PeerId).

Definition client_is_running : res JsError bool := r ← exec IsRunning; check_variant into_is_running r.
Definition client_start (config : Config) : res JsError unit := r ← exec (StartNode config); check_result into_node_started r.
Definition client_stop : res JsError unit := r ← exec StopNode; check_variant into_node_stopped r.
Definition client_local_peer_id : res JsError bytes := r ← exec GetLocalPeerId; check_variant into_local_peer_id r.
Definition client_peer_tracker_info : res JsError PeerTrackerInfo :=
  r ← exec GetPeerTrackerInfo; check_variant into_peer_tracker_info r.
(** The result inside the response is dropped. *)
Definition client_wait_connected : res JsError unit :=
  r ← exec (WaitConnected false); _ ← check_variant into_connected r; Ok tt.
Definition client_wait_connected_trusted : res JsError unit := r ← exec (WaitConnected true); check_result into_connected r.
Definition client_network_info : res JsError NetworkInfo := r ← exec GetNetworkInfo; check_result into_network_info r.
Definition client_listeners : res JsError (list Multiaddr) := r ← exec GetListeners; check_result into_listeners r.
Definition client_connected_peers : res JsError (list bytes) := r ← exec GetConnectedPeers; check_result into_connected_peers r.
Definition client_set_peer_trust (peer_id : bytes) (is_trusted : bool) : res JsError unit :=
  peer_id ← ok_or (parse_peer_id peer_id) JParse;
  r ← exec (SetPeerTrust peer_id is_trusted); check_result into_set_peer_trust r.
Definition client_request_head_header : res JsError ExtendedHeader := r ← exec (RequestHeader QHead); check_result into_header r.
Definition client_request_header_by_hash (hash : bytes) : res JsError ExtendedHeader :=
  hash ← ok_or (parse_hash hash) JParse; r ← exec (RequestHeader (QByHash hash)); check_result into_header r.
Definition client_request_header_by_height (height : Z) : res JsError ExtendedHeader :=
  r ← exec (RequestHeader (QByHeight height)); check_result into_header r.
Definition client_request_verified_headers (from : ExtendedHeader) (amount : Z) : res JsError (list ExtendedHeader) :=
  r ← exec (GetVerifiedHeaders from amount); check_result into_headers r.
Definition client_request_all_blobs (header : ExtendedHeader) (namespace : Namespace) (timeout_secs : option f64)
    : res JsError (list Blob) :=
  r ← exec (RequestAllBlobs header namespace timeout_secs); check_result into_blobs r.
Definition client_syncer_info : res JsError SyncingInfo := r ← exec GetSyncerInfo; check_result into_syncer_info r.
Definition client_get_network_head_header : res JsError (option ExtendedHeader) :=
  r ← exec LastSeenNetworkHead; check_result into_last_seen_network_head r.
Definition client_get_local_head_header : res JsError ExtendedHeader := r ← exec (GetHeader QHead); check_result into_header r.
Definition client_get_header_by_hash (hash : bytes) : res JsError ExtendedHeader :=
  hash ← ok_or (parse_hash hash) JParse; r ← exec (GetHeader (QByHash hash)); check_result into_header r.
Definition client_get_header_by_height (height : Z) : res JsError ExtendedHeader :=
  r ← exec (GetHeader (QByHeight height)); check_result into_header r.
Definition client_get_headers (start_height end_height : option Z) : res JsError (list ExtendedHeader) :=
  r ← exec (GetHeadersRange start_height end_height); check_result into_headers r.
Definition client_get_sampling_metadata (height : Z) : res JsError (option SamplingMetadata) :=
  r ← exec (GetSamplingMetadata height); check_result into_sampling_metadata r.
Definition client_events_channel : res JsError bytes := r ← exec GetEventsChannelName; check_variant into_events_channel_name r.
End Client.

(** The kind of response that a command has, or [NodeNotRunning]. *)
Definition fits (c : NodeCommand) (r : WorkerResponse) : bool :=
  match r, c with
  | InternalPong, InternalPing | RIsRunning _, IsRunning | RNodeStarted _, StartNode _ | RNodeStopped, StopNode
  | REventsChannelName _, GetEventsChannelName | RLocalPeerId _, GetLocalPeerId | RSyncerInfo _, GetSyncerInfo
  | RPeerTrackerInfo _, GetPeerTrackerInfo | RNetworkInfo _, GetNetworkInfo | RConnectedPeers _, GetConnectedPeers
  | RSetPeerTrust _, SetPeerTrust _ _ | RConnected _, WaitConnected _ | RListeners _, GetListeners
  | RHeader _, RequestHeader _ | RHeader _, GetHeader _ | RHeaders _, GetVerifiedHeaders _ _
  | RHeaders _, GetHeadersRange _ _ | RLastSeenNetworkHead _, LastSeenNetworkHead
  | RSamplingMetadata _, GetSamplingMetadata _ | RBlobs _, RequestAllBlobs _ _ _ => true
  | NodeNotRunning, (InternalPing | IsRunning | StartNode _ | GetEventsChannelName) => false
  | NodeNotRunning, _ => true
  | _, _ => false
  end.
(** What the worker promises its clients. *)
Class ExecPromise (exec : NodeCommand → res JsError WorkerResponse) : Prop :=
  exec_fits c r : exec c = Ok r → fits c r = true.

Lemma run_command_fits start w c w' r : run_command start w c = Ok (w', r) → fits c r = true.
Proof.
  unfold run_command. intros Hrun. destruct (nw_node w) as [n|].
  - destruct c; cbn [process_command mbind res_bind] in Hrun; try (by injection Hrun as <- <-); try done;
      (match type of Hrun with context [respond ?f ?x] => destruct (respond f x) as [r'| |] eqn:E end; try done;
       injection Hrun as <- <-; by apply respond_shape in E as [a ->]).
  - destruct c; cbn in Hrun; try (by injection Hrun as <- <-). destruct (start _); try done; by injection Hrun as <- <-.
Qed.

Lemma served_fits channel port y : port_reachable channel port y → ∀ x, x ∈ ps_served y → fits x.1.2 x.2 = true.
Proof.
  induction 1 as [|y e y' _ IH Hs]; [by intros x ?%elem_of_nil|].
  destruct e as [p' c|p' port'|p' readable|start sent|p'|p'|n]; cbn [port_step] in Hs.
  - destruct (wc_call _); [done|]. by injection Hs as <-.
  - destruct (wc_call _); [done|]. by injection Hs as <-.
  - destruct (ws_listening _ !! p'); [|done]. cbn in Hs. destruct (wc_outgoing _); [done|]. by injection Hs as <-.
  - unfold serve in Hs. destruct (ws_queue (ps_server y)) as [|[id c|port'] q]; [done| |by injection Hs as <-].
    apply (inj Some) in Hs. apply bind_Ok in Hs as ([w r]&Hrun&Hres). unfold respond_to in Hres.
    destruct (ws_ports (ps_server y) !! id) as [p'|]; [|done]. cbn in Hres. injection Hres as <-. cbn [ps_served].
    intros x [Hx|Hx]%elem_of_app; [by apply IH|]. apply list_elem_of_singleton in Hx as ->. by eapply run_command_fits.
  - destruct (client_receive _); [|done]. by injection Hs as <-.
  - destruct (client_timeout _); [|done]. by injection Hs as <-.
  - destruct (nw_node (ps_worker y)); [|done]. by injection Hs as <-.
Qed.

(** What a call has returned is of the kind of its command: the ports keep the promise
    [ExecPromise]. *)
Theorem returned_responses_fit channel port y p c r : port_reachable channel port y →
  (c, r) ∈ wc_log (ps_clients y p) → fits c r = true.
Proof.
  intros Hreach Hin. pose proof (port_reachable_inv _ _ _ Hreach) as Hinv.
  destruct (pi_clients _ Hinv p) as (taken&waiting&missing&[_ Hre _ Hl Hpi _ _]). apply Hpi in Hin as Hpong. cbn in Hpong.
  destruct (is_ping c) eqn:Ec; [apply is_ping_eq in Ec as ->; by destruct r|].
  assert ((c, r) ∈ calls taken) as Hc by (rewrite Hl; by apply list_elem_of_filter).
  apply list_elem_of_filter in Hc as [_ Hc].
  assert ((c, r) ∈ served_to p (ps_served y)) as Hx by (apply Hre, elem_of_app; by left).
  apply list_elem_of_omap in Hx as (x&Hx&Heq). case_decide; [|done]. injection Heq as <- <-. by apply (served_fits _ _ _ Hreach).
Qed.

Section ClientLemmas.
Context (exec : NodeCommand → res JsError WorkerResponse) `{!ExecPromise exec}.
Context (exec_errors : ∀ c e, exec c = Err e → e = JExec).
Context (parse_hash : bytes → option Hash) (parse_peer_id : bytes → option PeerId).

Lemma check_variant_valid {A} c (into : WorkerResponse → option A) :
  (∀ r, fits c r = true → r = NodeNotRunning ∨ is_Some (into r)) →
  (r ← exec c; check_variant into r) ≠ Err JInvalidResponse.
Proof.
  intros Hinto Heq. destruct (exec c) as [r|e|] eqn:E; cbn [mbind res_bind] in Heq; [|injection Heq as ->; by apply exec_errors in E|done].
  apply exec_fits, Hinto in E as [->|[a Ha]]; unfold check_variant in Heq; [by destruct (into _)|by rewrite Ha in Heq].
Qed.
Lemma check_result_valid {A} c (into : WorkerResponse → option (res WasmError A)) :
  (∀ r, fits c r = true → r = NodeNotRunning ∨ is_Some (into r)) →
  (r ← exec c; check_result into r) ≠ Err JInvalidResponse.
Proof.
  intros Hinto Heq. destruct (exec c) as [r|e|] eqn:E; cbn [mbind res_bind] in Heq; [|injection Heq as ->; by apply exec_errors in E|done].
  apply exec_fits, Hinto in E as [->|[a Ha]]; unfold check_result, check_variant in Heq; [|rewrite Ha in Heq; by destruct a].
  destruct (into _) as [[]|]; done.
Qed.

(** No method of the client ever reports an invalid response: over ports that keep their promise every
    response is of the kind its method expects, or says that the node is not running. *)
Theorem client_methods_valid config peer trust hash height from amount header ns timeout s e :
  Forall (λ P : Prop, ¬ P)
    [client_is_running exec = Err JInvalidResponse; client_start exec config = Err JInvalidResponse;
     client_stop exec = Err JInvalidResponse; client_local_peer_id exec = Err JInvalidResponse;
     client_peer_tracker_info exec = Err JInvalidResponse; client_wait_connected_trusted exec = Err JInvalidResponse;
     client_network_info exec = Err JInvalidResponse; client_listeners exec = Err JInvalidResponse;
     client_connected_peers exec = Err JInvalidResponse;
     client_set_peer_trust exec parse_peer_id peer trust = Err JInvalidResponse;
     client_request_head_header exec = Err JInvalidResponse;
     client_request_header_by_hash exec parse_hash hash = Err JInvalidResponse;
     client_request_header_by_height exec height = Err JInvalidResponse;
     client_request_verified_headers exec from amount = Err JInvalidResponse;
     client_request_all_blobs exec header ns timeout = Err JInvalidResponse;
     client_syncer_info exec = Err JInvalidResponse; client_get_network_head_header exec = Err JInvalidResponse;
     client_get_local_head_header exec = Err JInvalidResponse;
     client_get_header_by_hash exec parse_hash hash = Err JInvalidResponse;
     client_get_header_by_height exec height = Err JInvalidResponse; client_get_headers exec s e = Err JInvalidResponse;
     client_get_sampling_metadata exec height = Err JInvalidResponse; client_events_channel exec = Err JInvalidResponse].
Proof.
  repeat constructor;
    try (apply check_variant_valid; intros []; cbn; intros; try done; eauto; fail);
    try (apply check_result_valid; intros []; cbn; intros; try done; eauto; fail).
  - unfold client_set_peer_trust. destruct (parse_peer_id peer); [|done]. apply check_result_valid.
    intros []; cbn; intros; try done; eauto.
  - unfold client_request_header_by_hash. destruct (parse_hash hash); [|done]. apply check_result_valid.
    intros []; cbn; intros; try done; eauto.
  - unfold client_get_header_by_hash. destruct (parse_hash hash); [|done]. apply check_result_valid.
    intros []; cbn; intros; try done; eauto.
Qed.
End ClientLemmas.

(** [wait_connected] reports success also when waiting failed; [wait_connected_trusted] does not. *)
Theorem wait_connected_drops_errors exec err :
  exec (WaitConnected false) = Ok (RConnected (Err err)) → exec (WaitConnected true) = Ok (RConnected (Err err)) →
  client_wait_connected exec = Ok tt ∧ client_wait_connected_trusted exec = Err (JWorker err).
Proof. intros Hf Ht. unfold client_wait_connected, client_wait_connected_trusted. rewrite Hf, Ht. done. Qed.

(** A timeout that is negative or not a finite number panics the worker. *)
Theorem bad_timeout_panics name n header ns x :
  match x with S754_finite true _ _ | S754_infinity _ | S754_nan => True | _ => False end →
  process_command name n (RequestAllBlobs header ns (Some x)) = Panic.
Proof. by destruct x as [|[]| |[]]. Qed.
End Commands.

(** ** A concrete execution *)

#[local] Existing Instances toy_DahExternals toy_Tendermint toy_peers.

Definition toy_p2p : P2pOps nat Z := {|
  op_local_peer_id := (7%nat : PeerId);
  op_peer_tracker_info := {| num_connected_peers := 0; num_connected_trusted_peers := 0 |};
  op_wait_connected := Err P2pWorkerDied; op_wait_connected_trusted := Err P2pWorkerDied;
  op_network_info := Err P2pWorkerDied; op_listeners := Ok []; op_connected_peers := Ok [];
  op_set_peer_trust _ _ := Ok tt; op_get_head_header := Err NoConnectedPeers; op_get_header _ := Err NoConnectedPeers;
  op_get_header_by_height _ := Err NoConnectedPeers; op_get_verified_headers_range _ _ := Err NoConnectedPeers;
  op_get_row _ _ _ := Err NoConnectedPeers; op_get_sample _ _ _ _ := Err NoConnectedPeers;
  op_get_row_namespace_data _ _ _ _ := Err NoConnectedPeers;
  op_get_all_blobs _ _ _ := Err NoConnectedPeers; op_get_network_head := Ok None
|}.
Definition toy_handle : NodeHandle InMemoryStoreInner nat Z :=
  {| nh_p2p := toy_p2p; nh_syncer_info := Err SynWorkerDied; nh_store := im_new |}.

#[local] Notation toy_step := (port_step (Config := unit) (NetworkInfo := nat) (S := InMemoryStoreInner) (λ _, []) (λ _, true)).
#[local] Notation toy_reachable := (port_reachable (Config := unit) (NetworkInfo := nat) (S := InMemoryStoreInner) (λ _, []) (λ _, true)).
Fixpoint toy_port_run (y : PortSystem) (es : list PortEvent) : option PortSystem :=
  match es with [] => Some y | e :: es => match toy_step y e with Some (Ok y) => toy_port_run y es | _ => None end end.
Lemma toy_port_run_reachable channel port y es y' : toy_reachable channel port y → toy_port_run y es = Some y' → toy_reachable channel port y'.
Proof.
  revert y; induction es as [|e es IH]; intros y Hy; cbn [toy_port_run]; [by intros [= <-]|].
  destruct (toy_step y e) as [[y1| |]|] eqn:E; try done. apply IH. by apply (pr_step _ _ _ _ y e).
Qed.

(** Page 1 pings before the worker listens and times out, pings again, starts the node, and lends the
    worker to page 2; a late pong is on the wire before the answer to the start. *)
Definition toy_port_events : list PortEvent :=
  [PExec 1 InternalPing; PTimeout 1; PExec 1 InternalPing; PServe (λ _, Err (EMessage [])) true; PDeliver 1 true; PDeliver 1 true;
   PServe (λ _, Err (EMessage [])) true; PReceive 1;
   PExec 1 (StartNode tt); PDeliver 1 true; PServe (λ _, Ok toy_handle) true; PServe (λ _, Ok toy_handle) true;
   PReceive 1; PReceive 1;
   PAddConnection 1 2; PExec 2 IsRunning; PDeliver 1 true; PServe (λ _, Ok toy_handle) true; PServe (λ _, Ok toy_handle) true;
   PDeliver 2 true; PServe (λ _, Ok toy_handle) true; PReceive 2; PReceive 1].
Definition toy_ports : option PortSystem := toy_port_run (node_worker_new [] 1) toy_port_events.

Lemma toy_ports_reachable y : toy_ports = Some y → toy_reachable [] 1 y.
Proof. unfold toy_ports. apply toy_port_run_reachable, pr_start. Qed.
Lemma toy_ports_served : (λ y : PortSystem, (ps_served y, wc_log (ps_clients y 1%nat), wc_log (ps_clients y 2%nat), wc_call (ps_clients y 1%nat)))
    <$> toy_ports =
  Some ([(1, InternalPing, InternalPong); (1, InternalPing, InternalPong); (1, StartNode tt, RNodeStarted (Ok tt));
         (1, InternalPing, InternalPong); (2, IsRunning, RIsRunning true)]%nat,
        [(InternalPing, InternalPong); (StartNode tt, RNodeStarted (Ok tt)); (InternalPing, InternalPong)],
        [(IsRunning, RIsRunning true)], None).
Proof. vm_compute. reflexivity. Qed.

Lemma calls_return_own_responses_witness : ∃ y, toy_ports = Some y ∧
  calls (wc_log (ps_clients y 1%nat)) = calls (served_to 1 (ps_served y)).
Proof.
  pose proof toy_ports_served as Hs. destruct toy_ports as [y|] eqn:E; [|discriminate Hs]. exists y. split; [reflexivity|].
  apply (calls_return_own_responses (λ _, []) (λ _, true) [] 1 y 1 (toy_ports_reachable y E)).
  cbn [fmap option_fmap option_map] in Hs. apply (inj Some) in Hs. exact (f_equal snd Hs).
Defined.

Lemma worker_history_witness : ∃ y, toy_ports = Some y ∧ true = running_after (take 4 (ps_served y)).
Proof.
  pose proof toy_ports_served as Hs. destruct toy_ports as [y|] eqn:E; [|discriminate Hs]. exists y. split; [reflexivity|].
  cbn [fmap option_fmap option_map] in Hs. apply (inj Some), (f_equal fst), (f_equal fst), (f_equal fst) in Hs. cbn [fst] in Hs.
  apply (proj1 (worker_history (λ _, []) (λ _, true) [] 1 y (toy_ports_reachable y E)) _ 2%nat IsRunning true []).
  rewrite Hs. reflexivity.
Defined.

Lemma returned_responses_fit_witness : ∃ y, toy_ports = Some y ∧
  fits (Config := unit) (NetworkInfo := nat) (StartNode tt) (RNodeStarted (Ok tt)) = true.
Proof.
  pose proof toy_ports_served as Hs. destruct toy_ports as [y|] eqn:E; [|discriminate Hs]. exists y. split; [reflexivity|].
  cbn [fmap option_fmap option_map] in Hs. apply (inj Some), (f_equal fst), (f_equal fst), (f_equal snd) in Hs. cbn [fst snd] in Hs.
  apply (returned_responses_fit (λ _, []) (λ _, true) [] 1 y 1 _ _ (toy_ports_reachable y E)).
  rewrite Hs. right. left.
Defined.

Definition toy_exec (c : NodeCommand (Config := unit)) : res JsError (WorkerResponse (NetworkInfo := nat)) :=
  match c with
  | IsRunning => Ok (RIsRunning true)
  | WaitConnected _ => Ok (RConnected (Err (ENode (NaP2p P2pWorkerDied))))
  | _ => Err JExec
  end.
#[local] Instance toy_exec_promise : ExecPromise toy_exec.
Proof. intros c r. destruct c; try discriminate; intros [= <-]; reflexivity. Qed.
Lemma client_methods_valid_witness : client_wait_connected_trusted toy_exec ≠ Err JInvalidResponse.
Proof.
  assert (∀ c e, toy_exec c = Err e → e = JExec) as Herr by (intros []; cbn; congruence).
  exact (proj1 (Forall_lookup _ _) (client_methods_valid toy_exec Herr (λ _, None) (λ _, None) tt [] true [] 0 toy_1 0 toy_1 []
    None None None) 5%nat _ eq_refl).
Defined.
Lemma wait_connected_drops_errors_witness :
  client_wait_connected toy_exec = Ok tt ∧ client_wait_connected_trusted toy_exec = Err (JWorker (ENode (NaP2p P2pWorkerDied))).
Proof. apply (wait_connected_drops_errors toy_exec); reflexivity. Defined.
Lemma bad_timeout_panics_witness :
  process_command (Config := unit) (λ _, []) [] toy_handle (RequestAllBlobs toy_1 [] (Some (S754_finite true 1 0))) = Panic.
Proof. apply (bad_timeout_panics (λ _, []) [] toy_handle toy_1 [] (S754_finite true 1 0)). exact I. Defined.
