(* ===== verification/WasmConfig.v ===== *)
(** * The configuration of the browser node (src/node-wasm/src/client.rs and utils.rs)

    How the configuration that a page gives becomes a builder of a node (NodeConfig.v): the networks,
    the stores, the windows, and the bootnodes, whose [dnsaddr] addresses are resolved by DNS over HTTPS.

    Opening the databases of the browser, parsing addresses and JSON strings, and the answer of the
    DNS server are parameters. *)

From Stdlib Require Import String.
From S2P Require Import StateTypes Prelude Nmt Merkle Dah Header BlockRanges Store InMemoryStore IndexedDbStore EitherStore.
From S2P Require Import P2pHandle NodeConfig.

(** ** Networks (utils.rs) *)

Inductive WasmNetwork := WMainnet | WArabica | WMocha | WPrivate.

Definition private_id : bytes := str "private".
Definition Network_from_wasm {E} (n : WasmNetwork) : res E Network :=
  match n with
  | WMainnet => Ok Mainnet
  | WArabica => Ok Arabica
  | WMocha => Ok Mocha
  | WPrivate => expect_ok (Network_custom private_id)
  end.
(** The text of the error is not formatted. *)
Definition Network_into_wasm (n : Network) : res bytes WasmNetwork :=
  match n with
  | Mainnet => Ok WMainnet
  | Arabica => Ok WArabica
  | Mocha => Ok WMocha
  | Custom id =>
      if bool_decide (nid_id id = private_id) then Ok WPrivate else Err (str "Unsupported network id: {id}")
  end.

Record WasmNodeConfig := {
  wc_network : WasmNetwork;
  wc_bootnodes : list bytes;
  wc_use_persistent_memory : bool;
  wc_custom_sampling_window_secs : option Z;
  wc_custom_pruning_delay_secs : option Z
}.

(** ** Addresses *)

(** Protocols of an address other than a peer. *)
Inductive DnsOrOther (R : Type) := Dnsaddr (name : bytes) | Rest (r : R).
Arguments Dnsaddr {R} _. Arguments Rest {R} _.

(** [str::split_once]. *)
Fixpoint split_once (c : Z) (s : bytes) : option (bytes * bytes) :=
  match s with
  | [] => None
  | x :: s => if x =? c then Some ([], s) else '(a, b) ← split_once c s; Some (x :: a, b)
  end.

Record DohEntry := { doh_type : Z; doh_data : bytes }.
Definition TXT_TYPE : Z := 16.
Definition EQUALS : Z := 61.

(** What [into_node_builder] returns as errors. *)
Inductive ConfigError := StoreFailed | BlockstoreFailed | InvalidMultiaddr (addr : bytes) | PeerIdNotFound | DohFailed.

Section Config.
Context {Peer R Keypair S1 S2 B1 B2 : Type} `{EqDecision Peer}.
#[local] Notation Addr := (Addr (Peer := Peer) (OtherProtocol := DnsOrOther R)).
Context (parse_multiaddr : bytes → option Addr) (print_multiaddr : Addr → bytes).
Context (json_string : bytes → option bytes) (dns_query : bytes → res ConfigError (list DohEntry)).
Context (open_store : bytes → res ConfigError S2) (open_blockstore : bytes → res ConfigError B2).
Context (memory_store : S1) (memory_blockstore : B1).

(** [WasmNodeConfig::default]. *)
Definition wasm_config_default (network : WasmNetwork) : res ConfigError WasmNodeConfig :=
  n ← Network_from_wasm network;
  bootnodes ← canonical_bootnodes parse_multiaddr n;
  Ok {| wc_network := network; wc_bootnodes := map print_multiaddr bootnodes; wc_use_persistent_memory := true;
        wc_custom_sampling_window_secs := None; wc_custom_pruning_delay_secs := None |}.

Definition get_peer_id (ma : Addr) : option Peer := addr_peer_id ma.
Fixpoint get_dnsaddr (ma : Addr) : option bytes :=
  match ma with
  | [] => None
  | Other (Dnsaddr name) :: _ => Some name
  | _ :: ma => get_dnsaddr ma
  end.

(** The body of the loop over the entries of the answer. *)
Definition resolve_entry (peer_id : Peer) (entry : DohEntry) : option Addr :=
  if doh_type entry =? TXT_TYPE then
    data ← json_string (doh_data entry);
    '(_, ma) ← split_once EQUALS data;
    ma ← parse_multiaddr ma;
    if decide (Some peer_id = get_peer_id ma) then Some ma else None
  else None.
Definition resolve_dnsaddr_multiaddress (ma : Addr) : res ConfigError (list Addr) :=
  match get_dnsaddr ma with
  | None => Ok [ma]
  | Some dnsaddr =>
      match get_peer_id ma with
      | None => Err PeerIdNotFound
      | Some peer_id => answer ← dns_query dnsaddr; Ok (omap (resolve_entry peer_id) (answer : list DohEntry))
      end
  end.
Definition resolve_bootnode (addr : bytes) : res ConfigError (list Addr) :=
  ma ← ok_or (parse_multiaddr addr) (InvalidMultiaddr addr); resolve_dnsaddr_multiaddress ma.
(** The loop over the bootnodes. *)
Fixpoint resolve_bootnodes (addrs : list bytes) (bootnodes : list Addr) : res ConfigError (list Addr) :=
  match addrs with
  | [] => Ok bootnodes
  | addr :: addrs => l ← resolve_bootnode addr; resolve_bootnodes addrs (bootnodes ++ l)
  end.

#[local] Notation WasmBuilder := (NodeBuilder (B1 + B2) (EitherStore S1 S2) Addr Keypair).

Definition into_node_builder (c : WasmNodeConfig) : res ConfigError WasmBuilder :=
  network ← Network_from_wasm (wc_network c);
  let network_id := Network_id network in
  builder ← (if wc_use_persistent_memory c then
               store ← open_store network_id;
               blockstore ← open_blockstore (network_id ++ str "-blockstore");
               Ok (builder_new (inr blockstore) (EsRight store))
             else
               Ok (with_pruning_delay MIN_PRUNING_DELAY (with_sampling_window MIN_SAMPLING_WINDOW
                     (builder_new (inl memory_blockstore) (EsLeft memory_store)))));
  let builder := with_sync_batch_size 128 (with_network network builder) in
  bootnodes ← resolve_bootnodes (wc_bootnodes c) [];
  let builder := with_bootnodes bootnodes builder in
  let builder := match wc_custom_sampling_window_secs c with
                 | Some secs => with_sampling_window (from_secs secs) builder
                 | None => builder
                 end in
  Ok (match wc_custom_pruning_delay_secs c with
      | Some secs => with_pruning_delay (from_secs secs) builder
      | None => builder
      end).

(** ** Lemmas *)

Lemma private_custom : Network_custom private_id = Ok (Custom {| nid_id := private_id |}).
Proof. vm_compute. reflexivity. Qed.

(** Networks of pages and of nodes convert one into the other: making one for the node never
    panics, and exactly the networks of pages come back. *)
Theorem wasm_networks_roundtrip :
  (∀ w, ∃ n, Network_from_wasm (E := unit) w = Ok n ∧ Network_into_wasm n = Ok w) ∧
  (∀ n w, Network_into_wasm n = Ok w → Network_from_wasm (E := unit) w = Ok n).
Proof.
  split.
  - intros []; by eexists.
  - intros [| | |[id]] w; cbn [Network_into_wasm nid_id]; try (by intros [= <-]). case_bool_decide as Hid; [|done].
    intros [= <-]. subst id. cbn [Network_from_wasm]. by rewrite private_custom.
Qed.

(** A resolved address names the peer of the address it comes from, or is that address. *)
Definition resolves_to (addrs : list bytes) (a : Addr) : Prop := ∃ s ma, s ∈ addrs ∧ parse_multiaddr s = Some ma ∧
  (a = ma ∧ get_dnsaddr ma = None ∨ get_dnsaddr ma ≠ None ∧ addr_peer_id a = addr_peer_id ma ∧ is_Some (addr_peer_id a)).
Lemma resolve_entry_peer p e a : resolve_entry p e = Some a → addr_peer_id a = Some p.
Proof.
  unfold resolve_entry. destruct (doh_type e =? TXT_TYPE); [|done]. destruct (json_string _) as [d|]; [|done]. cbn [mbind option_bind].
  destruct (split_once EQUALS d) as [[x y]|]; [|done]. cbn [mbind option_bind]. destruct (parse_multiaddr y) as [ma|]; [|done].
  cbn [mbind option_bind]. case_decide as Hp; [|done]. intros [= <-]. done.
Qed.
Lemma resolve_bootnode_sound s l a : resolve_bootnode s = Ok l → a ∈ l → resolves_to [s] a.
Proof.
  intros Hr Hin. apply bind_Ok in Hr as (ma&Hma&Hr). destruct (parse_multiaddr s) as [ma'|] eqn:Hp; [|done]. injection Hma as ->.
  exists s, ma. split_and!; [by apply list_elem_of_singleton|done|]. unfold resolve_dnsaddr_multiaddress in Hr.
  destruct (get_dnsaddr ma) as [name|] eqn:Hd.
  - right. split; [done|]. unfold get_peer_id in Hr. destruct (addr_peer_id ma) as [p|] eqn:Hpeer; [|done].
    apply bind_Ok in Hr as (answer&_&Hr). injection Hr as <-. apply list_elem_of_omap in Hin as (e&_&He).
    apply resolve_entry_peer in He. rewrite He. by split.
  - left. injection Hr as <-. by apply list_elem_of_singleton in Hin.
Qed.
Lemma resolve_bootnodes_sound addrs acc l a : resolve_bootnodes addrs acc = Ok l → a ∈ l → a ∈ acc ∨ resolves_to addrs a.
Proof.
  revert acc; induction addrs as [|s addrs IH]; intros acc Hr Hin; cbn [resolve_bootnodes] in Hr; [injection Hr as <-; by left|].
  apply bind_Ok in Hr as (l1&Hl1&Hr). destruct (IH _ Hr Hin) as [Ha|(s'&ma&Hs'&Hrest)].
  - apply elem_of_app in Ha as [Ha|Ha]; [by left|]. right. destruct (resolve_bootnode_sound _ _ _ Hl1 Ha) as (s'&ma&Hs'&Hrest).
    exists s', ma. split; [|done]. apply list_elem_of_singleton in Hs' as ->. by left.
  - right. exists s', ma. split; [by right|done].
Qed.

(** The windows that the documentation of the configuration promises. *)
Definition documented_sampling_window (c : WasmNodeConfig) : Z :=
  match wc_custom_sampling_window_secs c with
  | Some secs => from_secs secs
  | None => if wc_use_persistent_memory c then from_secs (30 * 24 * 60 * 60) else from_secs 60
  end.
Definition documented_pruning_delay (c : WasmNodeConfig) : Z :=
  match wc_custom_pruning_delay_secs c with
  | Some secs => from_secs secs
  | None => if wc_use_persistent_memory c then from_secs (60 * 60) else from_secs 60
  end.

Lemma into_node_builder_spec c b : into_node_builder c = Ok b →
  (∃ n, Network_from_wasm (E := ConfigError) (wc_network c) = Ok n ∧ nb_network b = Some n) ∧
  resolve_bootnodes (wc_bootnodes c) [] = Ok (nb_bootnodes b) ∧ nb_sync_batch_size b = Some 128 ∧
  chosen_sampling_window false b = documented_sampling_window c ∧
  chosen_pruning_delay false b = documented_pruning_delay c ∧
  match nb_store b with EsRight _ => wc_use_persistent_memory c = true | EsLeft _ => wc_use_persistent_memory c = false end.
Proof.
  unfold into_node_builder, documented_sampling_window, documented_pruning_delay. intros Hb.
  apply bind_Ok in Hb as (n&Hn&Hb). apply bind_Ok in Hb as (b0&Hb0&Hb). apply bind_Ok in Hb as (l&Hl&Hb). injection Hb as <-.
  destruct (wc_use_persistent_memory c).
  - apply bind_Ok in Hb0 as (store&_&Hb0). apply bind_Ok in Hb0 as (bs&_&Hb0). injection Hb0 as <-.
    destruct (wc_custom_sampling_window_secs c), (wc_custom_pruning_delay_secs c); (split; [by exists n|]); by split_and!.
  - injection Hb0 as <-.
    destruct (wc_custom_sampling_window_secs c), (wc_custom_pruning_delay_secs c); (split; [by exists n|]); by split_and!.
Qed.

(** What a page configures is what the node gets: the windows are the documented ones (the type of
    the stores alone would not tell that they are in memory), a node is configured exactly when both
    are at least a minute, and every bootnode is one that the page gave, or was resolved from one and
    names the same peer: an answer of the DNS server cannot bring in another peer. *)
Theorem wasm_config_faithful generate_ed25519 c b : into_node_builder c = Ok b → nb_bootnodes b ≠ [] →
  ((∃ nc, build_config parse_multiaddr generate_ed25519 false b = Ok nc) ↔
     from_secs 60 ≤ documented_sampling_window c ∧ from_secs 60 ≤ documented_pruning_delay c) ∧
  ∀ nc, build_config parse_multiaddr generate_ed25519 false b = Ok nc →
    nc_sampling_window nc = documented_sampling_window c ∧
    nc_pruning_window nc = duration_saturating_add (documented_sampling_window c) (documented_pruning_delay c) ∧
    nc_sync_batch_size nc = 128 ∧ ∀ a, a ∈ nc_p2p_bootnodes nc → resolves_to (wc_bootnodes c) a.
Proof.
  intros Hb Hne. apply into_node_builder_spec in Hb as ((n&_&Hn)&Hl&Hbatch&Hs&Hp&_).
  unfold build_config. rewrite Hn, Hs, Hp, Hbatch, bool_decide_false by done. cbn [ok_or mbind res_bind].
  unfold MIN_SAMPLING_WINDOW, MIN_PRUNING_DELAY.
  destruct (Z.ltb_spec (documented_sampling_window c) (from_secs 60)) as [|H1]; [split; [split; [by intros []|lia]|done]|].
  destruct (Z.ltb_spec (documented_pruning_delay c) (from_secs 60)) as [|H2]; [split; [split; [by intros []|lia]|done]|].
  split; [split; [done|by eexists]|]. intros nc Hnc. injection Hnc as <-. cbn. split_and!; [done..|]. intros a Ha.
  destruct (resolve_bootnodes_sound _ _ _ _ Hl Ha) as [?%elem_of_nil|?]; done.
Qed.

(** When the addresses of a page resolve to nothing, the node connects to the canonical bootnodes of
    the network instead. *)
Theorem unresolved_bootnodes_replaced generate_ed25519 c b nc n : into_node_builder c = Ok b → nb_bootnodes b = [] →
  Network_from_wasm (E := ConfigError) (wc_network c) = Ok n → build_config parse_multiaddr generate_ed25519 false b = Ok nc →
  canonical_bootnodes (E := unit) parse_multiaddr n = Ok (nc_p2p_bootnodes nc).
Proof.
  intros Hb Hnil Hn Hnc. apply into_node_builder_spec in Hb as ((n'&Hn'&Hnet)&_&_&_&_&_). assert (n' = n) as -> by congruence.
  unfold build_config in Hnc. rewrite Hnet, Hnil, bool_decide_true in Hnc by done. cbn [ok_or mbind res_bind] in Hnc.
  apply bind_Ok in Hnc as (l&Hl&Hnc). repeat case_match; try done. injection Hnc as <-. cbn.
  unfold canonical_bootnodes in *. revert l Hl. clear. generalize (bootnode_strings n). intros ss.
  induction ss as [|s ss IH]; intros l Hl; cbn [mapM] in *; [by injection Hl as <-|].
  destruct (parse_multiaddr s); [|done]. cbn [expect mbind res_bind] in *. apply bind_Ok in Hl as (l'&Hl'&Hl).
  apply IH in Hl'. rewrite Hl'. by injection Hl as <-.
Qed.
End Config.

(** ** Concrete configurations *)

#[local] Notation ToyAddr := (Addr (Peer := nat) (OtherProtocol := DnsOrOther unit)).
(** [[1; p]] is the address of peer [p]; [[2; p]] is one to resolve. *)
Definition toy_parse_addr (s : bytes) : option ToyAddr :=
  match s with
  | [1; p] => Some [Other (Rest tt); P2pProtocol (Z.to_nat p)]
  | [2; p] => Some [Other (Dnsaddr [p]); P2pProtocol (Z.to_nat p)]
  | _ => None
  end.
(** The server answers with peers 5 and 6, and is silent about peer 9. *)
Definition toy_dns (name : bytes) : res ConfigError (list DohEntry) :=
  if bool_decide (name = [9]) then Ok [] else
  Ok [{| doh_type := 16; doh_data := [100; 61; 1; 6] |}; {| doh_type := 16; doh_data := [100; 61; 1; 5] |}].
#[local] Notation toy_builder := (into_node_builder (Keypair := unit) toy_parse_addr Some toy_dns (λ _, Ok tt) (λ _, Ok tt) tt tt).
Definition toy_config (bootnodes : list bytes) : WasmNodeConfig :=
  {| wc_network := WPrivate; wc_bootnodes := bootnodes; wc_use_persistent_memory := false;
     wc_custom_sampling_window_secs := Some 120; wc_custom_pruning_delay_secs := None |}.

#[local] Notation ToyBuilder := (NodeBuilder (unit + unit) (EitherStore unit unit) ToyAddr unit).
Definition toy_built (bootnodes : list bytes) : ToyBuilder :=
  match toy_builder (toy_config bootnodes) with Ok b => b | _ => builder_new (inl tt) (EsLeft tt) end.
Lemma toy_built_ok : toy_builder (toy_config [[1; 3]; [2; 5]]) = Ok (toy_built [[1; 3]; [2; 5]]) ∧
  toy_builder (toy_config [[2; 9]]) = Ok (toy_built [[2; 9]]).
Proof. split; vm_compute; reflexivity. Qed.

Lemma wasm_config_faithful_witness :
  nb_bootnodes (toy_built [[1; 3]; [2; 5]]) = [[Other (Rest tt); P2pProtocol 3%nat]; [Other (Rest tt); P2pProtocol 5%nat]] ∧
  ∃ nc, build_config toy_parse_addr tt false (toy_built [[1; 3]; [2; 5]]) = Ok nc.
Proof.
  assert (nb_bootnodes (toy_built [[1; 3]; [2; 5]]) = [[Other (Rest tt); P2pProtocol 3%nat]; [Other (Rest tt); P2pProtocol 5%nat]])
    as Hb by (vm_compute; reflexivity). split; [exact Hb|].
  apply (wasm_config_faithful (Keypair := unit) toy_parse_addr Some toy_dns (λ _, Ok tt) (λ _, Ok tt) tt tt tt
    (toy_config [[1; 3]; [2; 5]]) _ (proj1 toy_built_ok)); [rewrite Hb; discriminate|]. split; vm_compute; discriminate.
Defined.

Definition toy_node_config : option (NodeConfig (unit + unit) (EitherStore unit unit) ToyAddr unit) :=
  match build_config toy_parse_addr tt false (toy_built [[2; 9]]) with Ok nc => Some nc | _ => None end.
Lemma unresolved_bootnodes_replaced_witness : ∃ nc, toy_node_config = Some nc ∧
  canonical_bootnodes (E := unit) toy_parse_addr (Custom {| nid_id := private_id |}) = Ok (nc_p2p_bootnodes nc).
Proof.
  assert (bool_decide (is_Some toy_node_config) = true) as Hs by (vm_compute; reflexivity). unfold toy_node_config in *.
  destruct (build_config toy_parse_addr tt false (toy_built [[2; 9]])) as [nc| |] eqn:E; [|discriminate Hs..]. exists nc. split; [reflexivity|].
  apply (unresolved_bootnodes_replaced (Keypair := unit) toy_parse_addr Some toy_dns (λ _, Ok tt) (λ _, Ok tt) tt tt tt (toy_config [[2; 9]])
    _ nc _ (proj2 toy_built_ok)); [vm_compute; reflexivity|vm_compute; reflexivity|exact E].
Defined.
