(* ===== verification/Mobile.v ===== *)
(** * The bindings for mobile applications (src/node-uniffi/src/)

    The types in which applications see events, peers, syncing and the network, the configuration, and the
    methods of [LuminaNode] on the node behind its lock; the locks themselves are in MobileLocks.v.
    Parsers and texts of tendermint, libp2p and serde are parameters: a parser returns the text of its error. *)

From Stdlib Require Import String.
From S2P Require Import StateTypes Prelude Consts BlockRanges Nmt Merkle Dah Header Share Blob ShwapIds Store PeerTracker HeaderEx Syncer.
From S2P Require Import Events NodeConfig NodeApi.

(** ** Errors (error.rs) *)

Inductive LuminaError :=
| NodeNotRunning
| Network (msg : bytes)
| Storage (msg : bytes)
| AlreadyRunning
| InvalidHash (msg : bytes)
| InvalidHeader (msg : bytes)
| StorageInit (msg : bytes).

(** ** Types (types/) *)

Module Types.
Section Types.
Context {Peer : Type} (peer_to_string : Peer → bytes) (peer_from_str : bytes → res bytes Peer).

Record PeerId := { peer_id : bytes }.
Definition to_libp2p (p : PeerId) : res bytes Peer :=
  map_err (λ e, str "Invalid peer ID format: " ++ e) (peer_from_str (peer_id p)).
Definition from_libp2p (p : Peer) : PeerId := {| peer_id := peer_to_string p |}.

Record ShareCoordinate := { row : Z; column : Z }.

(** Durations are in milliseconds. *)
Inductive NodeEvent :=
| ConnectingToBootnodes
| PeerConnected (id : PeerId) (trusted : bool)
| PeerDisconnected (id : PeerId) (trusted : bool)
| SamplingStarted (height square_width : Z) (shares : list ShareCoordinate)
| ShareSamplingResult (height square_width row column : Z) (accepted : bool)
| SamplingFinished (height : Z) (accepted : bool) (took_ms : Z)
| FatalDaserError (error : bytes)
| AddedHeaderFromHeaderSub (height : Z)
| FetchingHeadHeaderStarted
| FetchingHeadHeaderFinished (height took_ms : Z)
| FetchingHeadersStarted (from_height to_height : Z)
| FetchingHeadersFinished (from_height to_height took_ms : Z)
| FetchingHeadersFailed (from_height to_height : Z) (error : bytes) (took_ms : Z)
| FatalSyncerError (error : bytes)
| PrunedHeaders (to_height : Z)
| FatalPrunerError (error : bytes)
| NetworkCompromised
| NodeStopped.

(** [Duration::as_millis] of a duration in nanoseconds, and the cast to [u64]. *)
Definition as_millis (d : Z) : Z := d / 1000000.
Definition took_ms (d : Z) : Z := as_millis d mod 2 ^ 64.
(** The last arm of the match, which panics, is for events that are added later. *)
Definition event_from (e : Events.NodeEvent (Peer := Peer) (Duration := Z)) : NodeEvent :=
  match e with
  | Events.ConnectingToBootnodes => ConnectingToBootnodes
  | Events.PeerConnected id trusted => PeerConnected (from_libp2p id) trusted
  | Events.PeerDisconnected id trusted => PeerDisconnected (from_libp2p id) trusted
  | Events.SamplingStarted height square_width shares =>
      SamplingStarted height square_width (map (λ '(row, col), {| row := row; column := col |}) shares)
  | Events.ShareSamplingResult height square_width row column accepted =>
      ShareSamplingResult height square_width row column accepted
  | Events.SamplingFinished height accepted took => SamplingFinished height accepted (took_ms took)
  | Events.FatalDaserError error => FatalDaserError error
  | Events.AddedHeaderFromHeaderSub height => AddedHeaderFromHeaderSub height
  | Events.FetchingHeadHeaderStarted => FetchingHeadHeaderStarted
  | Events.FetchingHeadHeaderFinished height took => FetchingHeadHeaderFinished height (took_ms took)
  | Events.FetchingHeadersStarted from_height to_height => FetchingHeadersStarted from_height to_height
  | Events.FetchingHeadersFinished from_height to_height took => FetchingHeadersFinished from_height to_height (took_ms took)
  | Events.FetchingHeadersFailed from_height to_height error took =>
      FetchingHeadersFailed from_height to_height error (took_ms took)
  | Events.FatalSyncerError error => FatalSyncerError error
  | Events.PrunedHeaders to_height => PrunedHeaders to_height
  | Events.FatalPrunerError error => FatalPrunerError error
  | Events.NetworkCompromised => NetworkCompromised
  | Events.NodeStopped => NodeStopped
  end.

(** network.rs: the counters of libp2p are [u32], the number of peers is a [usize]. *)
Record ConnectionCounters := {
  num_connections : Z; num_pending : Z; num_pending_incoming : Z; num_pending_outgoing : Z;
  num_established : Z; num_established_incoming : Z; num_established_outgoing : Z
}.
(** What [libp2p::swarm::NetworkInfo] reports, with the same counters. *)
Record SwarmInfo := { si_num_peers : Z; si_counters : ConnectionCounters }.
Record NetworkInfo := { num_peers : Z; connection_counters : ConnectionCounters }.
Definition counters_from (counters : ConnectionCounters) : ConnectionCounters :=
  {| num_connections := num_connections counters; num_pending := num_pending counters;
     num_pending_incoming := num_pending_incoming counters; num_pending_outgoing := num_pending_outgoing counters;
     num_established := num_established counters; num_established_incoming := num_established_incoming counters;
     num_established_outgoing := num_established_outgoing counters |}.
Definition network_info_from (info : SwarmInfo) : NetworkInfo :=
  {| num_peers := si_num_peers info mod 2 ^ 32; connection_counters := counters_from (si_counters info) |}.

(** sync.rs. *)
Record MobileRange := { start : Z; end_ : Z }.
Definition range_from (r : BlockRange) : MobileRange := {| start := br_start r; end_ := br_end r |}.
Record MobileSyncingInfo := { ms_stored_headers : list MobileRange; ms_subjective_head : Z }.
Definition syncing_info_from (info : SyncingInfo) : MobileSyncingInfo :=
  {| ms_stored_headers := map range_from (stored_headers info); ms_subjective_head := subjective_head info |}.
End Types.
Arguments event_from {Peer} _ _.
End Types.

(** ** The configuration (types/config.rs) *)

Section Config.
Context {Addr Keypair B S Db : Type}.
Context (parse_multiaddr : bytes → res bytes Addr) (generate_ed25519 : Keypair) (ed25519_from_bytes : bytes → res bytes Keypair).
(** The file system and redb. *)
Context (path_join : bytes → bytes → bytes) (create_dir_all : bytes → res bytes unit).
Context (create_database : bytes → res bytes Db) (store_new : Db → res bytes S) (blockstore_new : Db → B).

Record MobileConfig := {
  mc_base_path : bytes;
  mc_network : NodeConfig.Network;
  mc_bootnodes : option (list bytes);
  mc_syncing_window_secs : option Z;
  mc_pruning_delay_secs : option Z;
  mc_batch_size : option Z;
  mc_ed25519_secret_key_bytes : option bytes
}.

Definition parsed (s : bytes) : option Addr := match parse_multiaddr s with Ok a => Some a | _ => None end.
Fixpoint parse_bootnodes (addrs : list bytes) : res LuminaError (list Addr) :=
  match addrs with
  | [] => Ok []
  | addr :: addrs =>
      a ← map_err (λ e, Network (str "Invalid multiaddr: " ++ e)) (parse_multiaddr addr);
      l ← parse_bootnodes addrs;
      Ok (a :: l)
  end.
Definition config_keypair (c : MobileConfig) : res LuminaError Keypair :=
  match mc_ed25519_secret_key_bytes c with
  | Some key_bytes =>
      if negb (Nat.eqb (length key_bytes) 32) then Err (Network (str "Ed25519 private key must be 32 bytes"))
      else map_err (λ e, Network (str "Invalid Ed25519 key: " ++ e)) (ed25519_from_bytes key_bytes)
  | None => Ok generate_ed25519
  end.
Definition into_node_builder (c : MobileConfig) : res LuminaError (NodeBuilder B S Addr Keypair) :=
  let network_id := Network_id (mc_network c) in
  let store_path := path_join (mc_base_path c) (str "store-" ++ network_id) in
  map_err (λ e, Storage (str "Failed to create base directory: " ++ e)) (create_dir_all (mc_base_path c)) ;;
  db ← map_err (λ e, StorageInit (str "Failed to create database: " ++ e)) (create_database store_path);
  store ← map_err (λ e, StorageInit (str "Failed to initialize store: " ++ e)) (store_new db);
  bootnodes ← match mc_bootnodes c with
              | Some bootnodes => parse_bootnodes bootnodes
              | None => canonical_bootnodes parsed (mc_network c)
              end;
  keypair ← config_keypair c;
  let builder :=
    with_sync_batch_size (default 128 (mc_batch_size c)) (with_keypair keypair (with_bootnodes bootnodes
      (with_network (mc_network c) (builder_new (blockstore_new db) store)))) in
  let builder := match mc_syncing_window_secs c with
                 | Some secs => with_sampling_window (from_secs secs) builder
                 | None => builder
                 end in
  Ok (match mc_pruning_delay_secs c with
      | Some secs => with_pruning_delay (from_secs secs) builder
      | None => builder
      end).
End Config.

(** ** The text of a header (src/types/src/extended_header.rs) *)

Definition eh_to_string `{Tendermint} (hash_to_string : Hash → bytes) (h : ExtendedHeader) : bytes :=
  str "hash: " ++ hash_to_string (eh_hash h) ++ str "; height: " ++ u64_to_string (eh_height h).

(** ** Methods (lib.rs) *)

Section Methods.
Context `{Tendermint} `{!DahExternals} `{PeerTypes} {S : Type} `{!Store S}.
Context (peer_to_string : PeerId → bytes) (peer_from_str : bytes → res bytes PeerId) (addr_to_string : Multiaddr → bytes).
Context (hash_to_string : Hash → bytes) (hash_from_str : bytes → res bytes Hash).
(** [serde_json], and the texts of the errors of the node. *)
Context (header_from_json : bytes → res bytes ExtendedHeader) (metadata_to_json : SamplingMetadata → option bytes).
Context (node_error_to_string : NodeApiError → bytes).

#[local] Notation Handle := (NodeHandle S Types.SwarmInfo unit).
#[local] Notation header_text := (eh_to_string hash_to_string).
Implicit Types node : option Handle.

Definition node_failed {A} (r : res NodeApiError A) : res LuminaError A := map_err (λ e, Network (node_error_to_string e)) r.
(** [node.as_ref().ok_or(NodeNotRunning)?], then the rest of the method. *)
Definition with_running {A} node (f : Handle → res LuminaError A) : res LuminaError A := n ← ok_or node NodeNotRunning; f n.

Definition lm_is_running node : bool := match node with Some _ => true | None => false end.
Definition lm_local_peer_id node : res LuminaError bytes := with_running node (λ n, Ok (peer_to_string (node_local_peer_id n))).
Definition lm_peer_tracker_info node : res LuminaError PeerTrackerInfo := with_running node (λ n, Ok (node_peer_tracker_info n)).
Definition lm_wait_connected node : res LuminaError unit := with_running node (λ n, node_failed (node_wait_connected n)).
Definition lm_wait_connected_trusted node : res LuminaError unit := with_running node (λ n, node_failed (node_wait_connected_trusted n)).
Definition lm_network_info node : res LuminaError Types.NetworkInfo :=
  with_running node (λ n, info ← node_failed (node_network_info n); Ok (Types.network_info_from info)).
Definition lm_listeners node : res LuminaError (list bytes) :=
  with_running node (λ n, l ← node_failed (node_listeners n); Ok (map addr_to_string l)).
Definition lm_connected_peers node : res LuminaError (list Types.PeerId) :=
  with_running node (λ n, l ← node_failed (node_connected_peers n); Ok (map (Types.from_libp2p peer_to_string) l)).
Definition lm_set_peer_trust node (peer_id : Types.PeerId) (is_trusted : bool) : res LuminaError unit :=
  with_running node (λ n,
    peer_id ← map_err Network (Types.to_libp2p peer_from_str peer_id);
    node_failed (node_set_peer_trust n peer_id is_trusted)).
Definition lm_request_head_header node : res LuminaError bytes :=
  with_running node (λ n, h ← node_failed (node_request_head_header n); Ok (header_text h)).
Definition lm_request_header_by_hash node (hash : bytes) : res LuminaError bytes :=
  with_running node (λ n,
    hash ← map_err InvalidHash (hash_from_str hash);
    h ← node_failed (node_request_header_by_hash n hash);
    Ok (header_text h)).
Definition lm_request_header_by_height node (height : Z) : res LuminaError bytes :=
  with_running node (λ n, h ← node_failed (node_request_header_by_height n height); Ok (header_text h)).
Definition lm_request_verified_headers node (from : bytes) (amount : Z) : res LuminaError (list bytes) :=
  with_running node (λ n,
    from ← map_err (λ e, InvalidHeader (str "Invalid header JSON: " ++ e)) (header_from_json from);
    hs ← node_failed (node_request_verified_headers n from amount);
    Ok (map header_text hs)).
Definition lm_syncer_info node : res LuminaError Types.MobileSyncingInfo :=
  with_running node (λ n, info ← node_failed (node_syncer_info n); Ok (Types.syncing_info_from info)).
Definition lm_get_network_head_header node : res LuminaError bytes :=
  with_running node (λ n,
    h ← node_failed (node_get_network_head_header n);
    match h with Some h => Ok (header_text h) | None => Err (Network (str "No network head header available")) end).
Definition lm_get_local_head_header node : res LuminaError bytes :=
  with_running node (λ n, h ← node_failed (node_get_local_head_header n); Ok (header_text h)).
Definition lm_get_header_by_hash node (hash : bytes) : res LuminaError bytes :=
  with_running node (λ n,
    hash ← map_err InvalidHash (hash_from_str hash);
    h ← node_failed (node_get_header_by_hash n hash);
    Ok (header_text h)).
Definition lm_get_header_by_height node (height : Z) : res LuminaError bytes :=
  with_running node (λ n, h ← node_failed (node_get_header_by_height n height); Ok (header_text h)).
Definition lm_get_headers node (start_height end_height : option Z) : res LuminaError (list bytes) :=
  with_running node (λ n,
    hs ← node_failed (match start_height, end_height with
                      | None, None => node_get_headers n Unbounded Unbounded
                      | Some start, None => node_get_headers n (Included start) Unbounded
                      | None, Some end_ => node_get_headers n Unbounded (Included end_)
                      | Some start, Some end_ => node_get_headers n (Included start) (Included end_)
                      end);
    Ok (map header_text hs)).
Definition lm_get_sampling_metadata node (height : Z) : res LuminaError (option bytes) :=
  with_running node (λ n,
    metadata ← node_failed (node_get_sampling_metadata n height);
    match metadata with
    | Some m => json ← expect (metadata_to_json m); Ok (Some json)
    | None => Ok None
    end).
End Methods.

(** ** Events survive *)

(** A duration as an application sees it. *)
Definition in_millis (d : Z) : Z := d / 1000000 * 1000000.
Definition map_took {P} (f : Z → Z) (e : Events.NodeEvent (Peer := P) (Duration := Z)) : Events.NodeEvent :=
  match e with
  | Events.SamplingFinished height accepted took => Events.SamplingFinished height accepted (f took)
  | Events.FetchingHeadHeaderFinished height took => Events.FetchingHeadHeaderFinished height (f took)
  | Events.FetchingHeadersFinished from_height to_height took => Events.FetchingHeadersFinished from_height to_height (f took)
  | Events.FetchingHeadersFailed from_height to_height error took => Events.FetchingHeadersFailed from_height to_height error (f took)
  | e => e
  end.
Definition took_of {P} (e : Events.NodeEvent (Peer := P) (Duration := Z)) : option Z :=
  match e with
  | Events.SamplingFinished _ _ took | Events.FetchingHeadHeaderFinished _ took | Events.FetchingHeadersFinished _ _ took
  | Events.FetchingHeadersFailed _ _ _ took => Some took
  | _ => None
  end.
(** What an application can tell from its event. *)
Definition read_event {P} (peer_from_str : bytes → res bytes P) (e : Types.NodeEvent)
    : res bytes (Events.NodeEvent (Peer := P) (Duration := Z)) :=
  match e with
  | Types.ConnectingToBootnodes => Ok Events.ConnectingToBootnodes
  | Types.PeerConnected id trusted => p ← Types.to_libp2p peer_from_str id; Ok (Events.PeerConnected p trusted)
  | Types.PeerDisconnected id trusted => p ← Types.to_libp2p peer_from_str id; Ok (Events.PeerDisconnected p trusted)
  | Types.SamplingStarted height square_width shares =>
      Ok (Events.SamplingStarted height square_width (map (λ c, (Types.row c, Types.column c)) shares))
  | Types.ShareSamplingResult height square_width row column accepted =>
      Ok (Events.ShareSamplingResult height square_width row column accepted)
  | Types.SamplingFinished height accepted ms => Ok (Events.SamplingFinished height accepted (ms * 1000000))
  | Types.FatalDaserError error => Ok (Events.FatalDaserError error)
  | Types.AddedHeaderFromHeaderSub height => Ok (Events.AddedHeaderFromHeaderSub height)
  | Types.FetchingHeadHeaderStarted => Ok Events.FetchingHeadHeaderStarted
  | Types.FetchingHeadHeaderFinished height ms => Ok (Events.FetchingHeadHeaderFinished height (ms * 1000000))
  | Types.FetchingHeadersStarted from_height to_height => Ok (Events.FetchingHeadersStarted from_height to_height)
  | Types.FetchingHeadersFinished from_height to_height ms => Ok (Events.FetchingHeadersFinished from_height to_height (ms * 1000000))
  | Types.FetchingHeadersFailed from_height to_height error ms =>
      Ok (Events.FetchingHeadersFailed from_height to_height error (ms * 1000000))
  | Types.FatalSyncerError error => Ok (Events.FatalSyncerError error)
  | Types.PrunedHeaders to_height => Ok (Events.PrunedHeaders to_height)
  | Types.FatalPrunerError error => Ok (Events.FatalPrunerError error)
  | Types.NetworkCompromised => Ok Events.NetworkCompromised
  | Types.NodeStopped => Ok Events.NodeStopped
  end.

(** An application sees every event of the node with all that it carries; only durations are cut, to
    milliseconds, which fit as long as they are shorter than half a billion years. *)
Theorem mobile_events_faithful {P} (peer_to_string : P → bytes) peer_from_str e :
  (∀ p, peer_from_str (peer_to_string p) = Ok p) →
  (∀ took, took_of e = Some took → 0 ≤ took < 2 ^ 64 * 1000000) →
  read_event peer_from_str (Types.event_from peer_to_string e) = Ok (map_took in_millis e).
Proof.
  intros Hp Ht. assert (∀ took, took_of e = Some took → Types.took_ms took * 1000000 = in_millis took) as Hms.
  { intros took Htook. specialize (Ht took Htook). unfold Types.took_ms, Types.as_millis, in_millis.
    rewrite Z.mod_small; [done|]. split; [apply Z.div_pos; lia|apply Z.div_lt_upper_bound; lia]. }
  destruct e; cbn [Types.event_from read_event map_took took_of] in *; unfold Types.to_libp2p, Types.from_libp2p; cbn [Types.peer_id];
    rewrite ?Hp, ?Hms by done; try done.
  cbn [mbind res_bind]. do 2 f_equal. rewrite map_map. induction shares as [|[r c] shares IH]; [done|]. cbn in *. by rewrite IH.
Qed.

(** ** The configuration is what the node gets *)

Section ConfigTheorems.
Context {Addr Keypair B S Db : Type}.
Context (parse_multiaddr : bytes → res bytes Addr) (generate_ed25519 : Keypair) (ed25519_from_bytes : bytes → res bytes Keypair).
Context (path_join : bytes → bytes → bytes) (create_dir_all : bytes → res bytes unit).
Context (create_database : bytes → res bytes Db) (store_new : Db → res bytes S) (blockstore_new : Db → B).
#[local] Notation into_builder :=
  (into_node_builder parse_multiaddr generate_ed25519 ed25519_from_bytes path_join create_dir_all create_database store_new blockstore_new).

Lemma parse_bootnodes_spec addrs l : parse_bootnodes parse_multiaddr addrs = Ok l ↔ Forall2 (λ s a, parse_multiaddr s = Ok a) addrs l.
Proof.
  revert l; induction addrs as [|s addrs IH]; intros l; cbn [parse_bootnodes].
  - split; [intros [= <-]; constructor|by inversion 1].
  - split.
    + intros Hr. apply bind_Ok in Hr as (a&Ha&Hr). apply bind_Ok in Hr as (l'&Hl'&Hr). injection Hr as <-.
      constructor; [|by apply IH]. by destruct (parse_multiaddr s); simplify_eq/=.
    + inversion 1 as [|? a ? l' Ha Hl']; subst. rewrite Ha. cbn. by rewrite (proj2 (IH l') Hl').
Qed.

(** What the documentation of the configuration promises. *)
Definition documented_window (c : MobileConfig) : Z := from_secs (default (30 * 24 * 60 * 60) (mc_syncing_window_secs c)).
Definition documented_delay (c : MobileConfig) : Z := from_secs (default (60 * 60) (mc_pruning_delay_secs c)).
Definition configured_bootnodes (c : MobileConfig) (l : list Addr) : Prop :=
  match mc_bootnodes c with
  | Some (s :: ss) => Forall2 (λ s a, parse_multiaddr s = Ok a) (s :: ss) l
  | _ => canonical_bootnodes (E := unit) (parsed parse_multiaddr) (mc_network c) = Ok l
  end.

Lemma canonical_any_error {E E'} (parse : bytes → option Addr) n l :
  canonical_bootnodes (E := E) parse n = Ok l → canonical_bootnodes (E := E') parse n = Ok l.
Proof.
  unfold canonical_bootnodes. revert l. generalize (bootnode_strings n). intros ss.
  induction ss as [|s ss IH]; intros l Hl; cbn [mapM] in *; [by injection Hl as <-|].
  destruct (parse s) as [a|]; [|done]. cbn in *. apply bind_Ok in Hl as (k&Hk&Hl). injection Hl as <-. by rewrite (IH k Hk).
Qed.

Lemma into_builder_fields c b : into_builder c = Ok b →
  nb_network b = Some (mc_network c) ∧ nb_sync_batch_size b = Some (default 128 (mc_batch_size c)) ∧
  (∃ key, config_keypair generate_ed25519 ed25519_from_bytes c = Ok key ∧ nb_keypair b = Some key) ∧
  match mc_bootnodes c with
  | Some ss => parse_bootnodes parse_multiaddr ss
  | None => canonical_bootnodes (parsed parse_multiaddr) (mc_network c)
  end = Ok (nb_bootnodes b) ∧
  chosen_sampling_window false b = documented_window c ∧ chosen_pruning_delay false b = documented_delay c.
Proof.
  unfold into_node_builder, documented_window, documented_delay. intros Hb.
  apply bind_Ok in Hb as ([]&_&Hb). apply bind_Ok in Hb as (db&_&Hb). apply bind_Ok in Hb as (store&_&Hb).
  apply bind_Ok in Hb as (boot&Hboot&Hb). apply bind_Ok in Hb as (key&Hkey&Hb). injection Hb as <-.
  destruct (mc_syncing_window_secs c), (mc_pruning_delay_secs c); cbn; eauto 10.
Qed.

(** The node runs with what the application configured: the network, the documented windows and
    batch size, the given key, which has 32 bytes, and the given bootnodes; the canonical ones when none are
    given, and also when an empty list is. *)
Theorem mobile_config_faithful c b nc : into_builder c = Ok b → build_config (parsed parse_multiaddr) generate_ed25519 false b = Ok nc →
  nc_network_id nc = Network_id (mc_network c) ∧
  nc_sampling_window nc = documented_window c ∧
  nc_pruning_window nc = duration_saturating_add (documented_window c) (documented_delay c) ∧
  from_secs 60 ≤ documented_window c ∧ from_secs 60 ≤ documented_delay c ∧
  nc_sync_batch_size nc = default 128 (mc_batch_size c) ∧
  configured_bootnodes c (nc_p2p_bootnodes nc) ∧
  match mc_ed25519_secret_key_bytes c with
  | Some k => length k = 32%nat ∧ ed25519_from_bytes k = Ok (nc_p2p_local_keypair nc)
  | None => nc_p2p_local_keypair nc = generate_ed25519
  end.
Proof.
  intros Hb Hnc. apply into_builder_fields in Hb as (Hn&Hbatch&(key&Hkey&Hk)&Hboot&Hw&Hd).
  unfold build_config in Hnc. rewrite Hn, Hbatch, Hk, Hw, Hd in Hnc. cbn [ok_or mbind res_bind] in Hnc.
  apply bind_Ok in Hnc as (boot&Hboot'&Hnc). unfold MIN_SAMPLING_WINDOW, MIN_PRUNING_DELAY in Hnc.
  destruct (Z.ltb_spec (documented_window c) (from_secs 60)) as [|Hmin1]; [done|].
  destruct (Z.ltb_spec (documented_delay c) (from_secs 60)) as [|Hmin2]; [done|]. injection Hnc as <-. cbn [default from_option id].
  split_and!; cbn; try done.
  - unfold configured_bootnodes. destruct (mc_bootnodes c) as [[|s ss]|].
    + cbn in Hboot. injection Hboot as Hnil. rewrite <-Hnil, bool_decide_true in Hboot' by done. by eapply canonical_any_error.
    + apply parse_bootnodes_spec in Hboot. rewrite bool_decide_false in Hboot'; [by injection Hboot' as <-|].
      intros Hnil. rewrite Hnil in Hboot. inversion Hboot.
    + case_bool_decide; [by eapply canonical_any_error|]. injection Hboot' as <-. by eapply canonical_any_error.
  - unfold config_keypair in Hkey. destruct (mc_ed25519_secret_key_bytes c) as [k|]; [|by injection Hkey as <-].
    destruct (Nat.eqb_spec (length k) 32) as [Hlen|]; [|done]. split; [done|]. cbn in Hkey. by destruct (ed25519_from_bytes k); simplify_eq/=.
Qed.
End ConfigTheorems.

(** ** Headers as texts *)

Section HeaderTexts.
Context `{Tendermint} `{!DahExternals} `{PeerTypes} {S : Type} `{!Store S}.
Context (hash_to_string : Hash → bytes) (hash_from_str : bytes → res bytes Hash).
Context (header_from_json : bytes → res bytes ExtendedHeader) (node_error_to_string : NodeApiError → bytes).

(** The JSON text of a structure is an object or an array, after white space. *)
Definition white_space (c : Z) : bool := (c =? 32) || (c =? 9) || (c =? 10) || (c =? 13).
Fixpoint json_structure (s : bytes) : bool :=
  match s with
  | [] => false
  | c :: s => if white_space c then json_structure s else (c =? 123) || (c =? 91)
  end.

(** A header that one method returns cannot be given to the method that asks for headers after it: the
    text of a header is not its JSON form, contrary to what is documented. *)
Theorem returned_headers_rejected (n : NodeHandle S Types.SwarmInfo unit) text amount l :
  (∀ s h, header_from_json s = Ok h → json_structure s = true) →
  (lm_request_head_header hash_to_string node_error_to_string (Some n) = Ok text ∨
   (∃ height, lm_request_header_by_height hash_to_string node_error_to_string (Some n) height = Ok text) ∨
   (∃ hash, lm_request_header_by_hash hash_to_string hash_from_str node_error_to_string (Some n) hash = Ok text) ∨
   (∃ hash, lm_get_header_by_hash hash_to_string hash_from_str node_error_to_string (Some n) hash = Ok text) ∨
   (∃ height, lm_get_header_by_height hash_to_string node_error_to_string (Some n) height = Ok text) ∨
   lm_get_local_head_header hash_to_string node_error_to_string (Some n) = Ok text ∨
   lm_get_network_head_header hash_to_string node_error_to_string (Some n) = Ok text) →
  lm_request_verified_headers hash_to_string header_from_json node_error_to_string (Some n) text amount ≠ Ok l.
Proof.
  intros Hjson Htext. assert (∃ h, text = eh_to_string hash_to_string h) as [h ->].
  { destruct Htext as [Ht|[[? Ht]|[[? Ht]|[[? Ht]|[[? Ht]|[Ht|Ht]]]]]];
      cbn [lm_request_head_header lm_request_header_by_height lm_request_header_by_hash lm_get_header_by_hash
           lm_get_header_by_height lm_get_local_head_header lm_get_network_head_header with_running ok_or mbind res_bind] in Ht;
      repeat (apply bind_Ok in Ht as (?&?&Ht)); [..|case_match; [|done]]; injection Ht as <-; eauto. }
  intros Hl. unfold lm_request_verified_headers, with_running in Hl. cbn [ok_or mbind res_bind] in Hl.
  apply bind_Ok in Hl as (from&Hfrom&_). destruct (header_from_json _) as [h'| |] eqn:Hf; [|done|done].
  apply Hjson in Hf. vm_compute in Hf. done.
Qed.
End HeaderTexts.
