(* ===== verification/MobileLocks.v ===== *)
(** * Calls of a mobile application at the same time (src/node-uniffi/src/lib.rs)

    [LuminaNode] keeps its node behind a [RwLock] and the subscriber of its events behind a [Mutex], both of
    tokio: whoever waits longest is served first, readers share, and a writer that waits keeps later
    readers waiting.  [start] and [stop] take the lock for writing, all other methods but
    [next_event] for reading, and every one of them keeps it until it returns; [next_event] keeps the mutex.

    A method is its kind and, for a query, what it asks; what the node answers and whether it can
    be started are parameters or choices. *)

From S2P Require Import Prelude.

Section Locks.
(** Nodes, the events they publish, queries with their results, and the errors of starting a node. *)
Context {N Event Query Value Error : Type} (node_stopped : Event) (ask : N → Query → Value).

Inductive Kind := Start | Stop | IsRunning | WaitConnected | WaitConnectedTrusted | Ask (q : Query) | NextEvent.

(** The peers the running node is connected to: none, none that is trusted, or a trusted one. *)
Inductive Peers := NoPeers | UntrustedPeers | TrustedPeers.
(** Whether the wait of a call ends. *)
Definition wait_over (k : Kind) (peers : Peers) : bool :=
  match k, peers with
  | WaitConnected, (UntrustedPeers | TrustedPeers) | WaitConnectedTrusted, TrustedPeers => true
  | _, _ => false
  end.
Inductive Result :=
| Started | AlreadyRunning | StartFailed (e : Error)
| Stopped | NodeNotRunning
| Running (b : bool)
| Connected
| Answer (v : Value)
| GotEvent (e : Event).

(** A call waits for the lock (or the mutex), holds it, has a new node and waits for the mutex, or has
    returned. *)
Inductive Call := Queued | Holding | Storing (n : N) | Returned (r : Result).

(** The channel of a subscriber: the events not read yet, and whether publishers are left. *)
Record Subscriber := { sb_events : list Event; sb_open : bool }.

Record Lumina := {
  lm_node : option N;
  lm_peers : Peers;
  lm_subscriber : option Subscriber;
  lm_calls : gmap nat (Kind * Call);
  lm_queue : list nat;      (* of the lock *)
  lm_holders : list nat;
  lm_mutex : list nat;      (* of the mutex; the first one holds it *)
  lm_started : nat; lm_stopped : nat  (* how many nodes were *)
}.
Definition lumina_new : Lumina :=
  {| lm_node := None; lm_peers := NoPeers; lm_subscriber := None; lm_calls := ∅; lm_queue := []; lm_holders := [];
     lm_mutex := []; lm_started := 0; lm_stopped := 0 |}.

Definition writes (k : Kind) : bool := match k with Start | Stop => true | _ => false end.
Definition kind_of (l : Lumina) (id : nat) : option Kind := fst <$> lm_calls l !! id.

(** Updates. *)
Definition set_call (l : Lumina) (id : nat) (k : Kind) (c : Call) : Lumina :=
  {| lm_node := lm_node l; lm_peers := lm_peers l; lm_subscriber := lm_subscriber l; lm_calls := <[id := (k, c)]> (lm_calls l);
     lm_queue := lm_queue l; lm_holders := lm_holders l; lm_mutex := lm_mutex l; lm_started := lm_started l; lm_stopped := lm_stopped l |}.
Definition set_locks (l : Lumina) (queue holders mutex : list nat) : Lumina :=
  {| lm_node := lm_node l; lm_peers := lm_peers l; lm_subscriber := lm_subscriber l; lm_calls := lm_calls l;
     lm_queue := queue; lm_holders := holders; lm_mutex := mutex; lm_started := lm_started l; lm_stopped := lm_stopped l |}.
Definition set_node (l : Lumina) (n : option N) (peers : Peers) (s : option Subscriber) (started stopped : nat) : Lumina :=
  {| lm_node := n; lm_peers := peers; lm_subscriber := s; lm_calls := lm_calls l;
     lm_queue := lm_queue l; lm_holders := lm_holders l; lm_mutex := lm_mutex l; lm_started := started; lm_stopped := stopped |}.
Definition release (l : Lumina) (id : nat) : Lumina := set_locks l (lm_queue l) (filter (λ i, i ≠ id) (lm_holders l)) (lm_mutex l).
(** A call returns and drops the guard of the lock. *)
Definition return_ (l : Lumina) (id : nat) (k : Kind) (r : Result) : Lumina := release (set_call l id k (Returned r)) id.

(** The first of the queue gets the lock when the holders allow it. *)
Definition may_acquire (l : Lumina) (k : Kind) : bool :=
  if writes k then bool_decide (lm_holders l = [])
  else forallb (λ id, negb (from_option writes false (kind_of l id))) (lm_holders l).

(** What a call that holds the lock does up to its next [await] that may not return; [built] is
    what starting a node gives. *)
Definition act (l : Lumina) (id : nat) (k : Kind) (built : N + Error) : option Lumina :=
  match k with
  | Start =>
      match lm_node l with
      | Some _ => Some (return_ l id k AlreadyRunning)
      | None =>
          match built with
          | inr e => Some (return_ l id k (StartFailed e))
          | inl n => Some (set_locks (set_call l id k (Storing n)) (lm_queue l) (lm_holders l) (lm_mutex l ++ [id]))
          end
      end
  | Stop =>
      match lm_node l with
      | Some _ =>
          (* the node is consumed: its last event is [NodeStopped], then the channel is closed *)
          let s := (λ s, {| sb_events := sb_events s ++ [node_stopped]; sb_open := false |}) <$> lm_subscriber l in
          Some (return_ (set_node l None NoPeers s (lm_started l) (S (lm_stopped l))) id k Stopped)
      | None => Some (return_ l id k NodeNotRunning)
      end
  | IsRunning => Some (return_ l id k (Running (bool_decide (is_Some (lm_node l)))))
  | WaitConnected | WaitConnectedTrusted =>
      match lm_node l with
      | Some _ => if wait_over k (lm_peers l) then Some (return_ l id k Connected) else None
      | None => Some (return_ l id k NodeNotRunning)
      end
  | Ask q =>
      match lm_node l with
      | Some n => Some (return_ l id k (Answer (ask n q)))
      | None => Some (return_ l id k NodeNotRunning)
      end
  | NextEvent => None
  end.

(** What the holder of the mutex does; [early] are the events that a new node published before its
    subscriber was stored. *)
Definition mutex_act (l : Lumina) (id : nat) (k : Kind) (c : Call) (rest : list nat) (early : list Event) : option Lumina :=
  match k, c with
  | Start, Storing n =>
      let l := set_locks l (lm_queue l) (lm_holders l) rest in
      Some (return_ (set_node l (Some n) NoPeers (Some {| sb_events := early; sb_open := true |}) (S (lm_started l)) (lm_stopped l)) id k Started)
  | NextEvent, _ =>
      let l := set_locks l (lm_queue l) (lm_holders l) rest in
      match lm_subscriber l with
      | None => Some (set_call l id k (Returned NodeNotRunning))
      | Some s =>
          match sb_events s with
          | e :: es =>
              let s := {| sb_events := es; sb_open := sb_open s |} in
              Some (set_call (set_node l (lm_node l) (lm_peers l) (Some s) (lm_started l) (lm_stopped l)) id k (Returned (GotEvent e)))
          | [] => if sb_open s then None else Some (set_call l id k (Returned NodeNotRunning))
          end
      end
  | _, _ => None
  end.

Inductive Choice :=
| Invoke (id : nat) (k : Kind)
| Acquire
| Act (id : nat) (built : N + Error)
| MutexAct (early : list Event)
| PeerChange (peers : Peers)
| Publish (e : Event).

Definition lumina_step (l : Lumina) (ch : Choice) : option Lumina :=
  match ch with
  | Invoke id k =>
      match lm_calls l !! id with
      | Some _ => None
      | None =>
          let l := set_call l id k Queued in
          Some (match k with
                | NextEvent => set_locks l (lm_queue l) (lm_holders l) (lm_mutex l ++ [id])
                | _ => set_locks l (lm_queue l ++ [id]) (lm_holders l) (lm_mutex l)
                end)
      end
  | Acquire =>
      match lm_queue l with
      | id :: queue =>
          k ← kind_of l id;
          if may_acquire l k then Some (set_locks (set_call l id k Holding) queue (lm_holders l ++ [id]) (lm_mutex l)) else None
      | [] => None
      end
  | Act id built =>
      match lm_calls l !! id with
      | Some (k, Holding) => act l id k built
      | _ => None
      end
  | MutexAct early =>
      match lm_mutex l with
      | id :: rest =>
          '(k, c) ← lm_calls l !! id;
          mutex_act l id k c rest early
      | [] => None
      end
  | PeerChange peers =>
      match lm_node l with
      | Some n => Some (set_node l (lm_node l) peers (lm_subscriber l) (lm_started l) (lm_stopped l))
      | None => None
      end
  | Publish e =>
      match lm_subscriber l with
      | Some s => if sb_open s then
          Some (set_node l (lm_node l) (lm_peers l) (Some {| sb_events := sb_events s ++ [e]; sb_open := true |}) (lm_started l) (lm_stopped l))
          else None
      | None => None
      end
  end.
Inductive lumina_reachable : Lumina → Prop :=
| lr_new : lumina_reachable lumina_new
| lr_step l ch l' : lumina_reachable l → lumina_step l ch = Some l' → lumina_reachable l'.
Fixpoint lumina_run (l : Lumina) (choices : list Choice) : option Lumina :=
  match choices with
  | [] => Some l
  | ch :: choices => l ← lumina_step l ch; lumina_run l choices
  end.

(** ** The invariant *)

(** Where a call stands is where the locks have it. *)
Definition call_placed (l : Lumina) (id : nat) (k : Kind) (c : Call) : Prop :=
  match c with
  | Queued => match k with NextEvent => id ∈ lm_mutex l | _ => id ∈ lm_queue l end
  | Holding => id ∈ lm_holders l ∧ k ≠ NextEvent
  | Storing n => k = Start ∧ id ∈ lm_holders l ∧ id ∈ lm_mutex l ∧ lm_node l = None
  | Returned _ => True
  end.
Record lumina_inv (l : Lumina) : Prop := {
  li_placed id k c : lm_calls l !! id = Some (k, c) → call_placed l id k c;
  li_queue id : id ∈ lm_queue l → ∃ k, lm_calls l !! id = Some (k, Queued) ∧ k ≠ NextEvent;
  li_holders id : id ∈ lm_holders l → ∃ k c, lm_calls l !! id = Some (k, c) ∧ (c = Holding ∨ ∃ n, c = Storing n);
  li_mutex id : id ∈ lm_mutex l → ∃ k c, lm_calls l !! id = Some (k, c) ∧ (k = NextEvent ∧ c = Queued ∨ ∃ n, c = Storing n);
  li_nodup : NoDup (lm_queue l) ∧ NoDup (lm_mutex l);
  (** a writer is alone *)
  li_exclusive id k : id ∈ lm_holders l → kind_of l id = Some k → writes k = true → lm_holders l = [id];
  (** without a node no publisher is left *)
  li_closed s : lm_node l = None → lm_subscriber l = Some s → sb_open s = false;
  li_count : lm_started l = (lm_stopped l + if lm_node l then 1 else 0)%nat
}.

Lemma lumina_new_inv : lumina_inv lumina_new.
Proof. split; cbn; try done; try (by intros ? []%elem_of_nil). split; constructor. Qed.

Lemma kind_of_Some l id k c : lm_calls l !! id = Some (k, c) → kind_of l id = Some k.
Proof. intros Hl. unfold kind_of. by rewrite Hl. Qed.
Lemma set_call_kind l id k c0 c id' : lm_calls l !! id = Some (k, c0) → fst <$> <[id := (k, c)]> (lm_calls l) !! id' = kind_of l id'.
Proof.
  intros Hl. unfold kind_of. destruct (decide (id' = id)) as [->|Hne]; [by rewrite lookup_insert_eq, Hl|by rewrite lookup_insert_ne].
Qed.
(** A call is in at most one of the places. *)
Lemma holding_not_mutex l id k : lumina_inv l → lm_calls l !! id = Some (k, Holding) → id ∉ lm_mutex l.
Proof. intros I Hl Hm. destruct (li_mutex _ I _ Hm) as (k'&c'&Hl'&[[_ ->]|[n ->]]); congruence. Qed.

(** A holder of the lock returns. *)
Lemma return_inv l id k c r mutex : lumina_inv l → lm_calls l !! id = Some (k, c) → (c = Holding ∨ ∃ n, c = Storing n) →
  (∀ id', id' ∈ mutex ↔ id' ∈ lm_mutex l ∧ id' ≠ id) → NoDup mutex →
  lumina_inv (return_ (set_locks l (lm_queue l) (lm_holders l) mutex) id k r).
Proof.
  intros I Hl Hc Hm Hnd. unfold return_, release.
  assert (∀ id', id' ∈ filter (λ i, i ≠ id) (lm_holders l) ↔ id' ∈ lm_holders l ∧ id' ≠ id) as Hh
    by (intros id'; rewrite list_elem_of_filter; tauto).
  split; cbn [set_locks set_call lm_node lm_subscriber lm_calls lm_queue lm_holders lm_mutex lm_started lm_stopped].
  - intros id' k' c' Hl'. apply lookup_insert_Some in Hl' as [[<- [= <- <-]]|[Hne Hl']]; [done|].
    apply (li_placed _ I) in Hl'. destruct c' as [| |n|]; cbn in *; [|rewrite Hh; naive_solver|rewrite Hh, Hm; naive_solver|done].
    destruct k'; try done. by rewrite Hm.
  - intros id' Hq. destruct (li_queue _ I _ Hq) as (k'&Hl'&Hk'). exists k'. rewrite lookup_insert_ne; [done|].
    intros ->. destruct Hc as [->|[n ->]]; congruence.
  - intros id' [Hin Hne]%Hh. rewrite lookup_insert_ne by done. by apply I.
  - intros id' [Hin Hne]%Hm. rewrite lookup_insert_ne by done. by apply I.
  - split; [apply I|done].
  - intros id' k' [Hin Hne]%Hh Hk' Hw. unfold kind_of in Hk'. cbn in Hk'. rewrite (set_call_kind _ _ _ _ _ _ Hl) in Hk'.
    rewrite (li_exclusive _ I _ _ Hin Hk' Hw), filter_cons_True by done. done.
  - apply I.
  - apply I.
Qed.
Lemma return_holding_inv l id k r : lumina_inv l → lm_calls l !! id = Some (k, Holding) → lumina_inv (return_ l id k r).
Proof.
  intros I Hl. pose proof (holding_not_mutex _ _ _ I Hl). destruct l. apply (return_inv _ _ _ _ _ _ I Hl); [by left| |apply I].
  intros id'. cbn in *. split; [|tauto]. intros Hin. split; [done|]. by intros ->.
Qed.

(** The node changes, while nobody stores another one. *)
Lemma set_node_inv l n b s started stopped : lumina_inv l →
  (is_Some n → ∀ id k m, lm_calls l !! id ≠ Some (k, Storing m)) → (∀ s', n = None → s = Some s' → sb_open s' = false) →
  started = (stopped + if n then 1 else 0)%nat → lumina_inv (set_node l n b s started stopped).
Proof.
  intros I Hn Hs Hc. split; cbn; try apply I; [|done|done].
  intros id k c Hl. pose proof (li_placed _ I _ _ _ Hl) as Hp. destruct c as [| |m|]; try done. cbn in *. destruct n; [|tauto].
  exfalso. by eapply Hn.
Qed.

(** A call of [next_event] returns. *)
Lemma next_event_inv l id rest r : lumina_inv l → lm_mutex l = id :: rest → lm_calls l !! id = Some (NextEvent, Queued) →
  lumina_inv (set_call (set_locks l (lm_queue l) (lm_holders l) rest) id NextEvent (Returned r)).
Proof.
  intros I Hm Hl. destruct (li_nodup _ I) as [Hq Hnd]. rewrite Hm in Hnd. apply NoDup_cons in Hnd as [Hni Hnd].
  split; cbn [set_locks set_call lm_node lm_subscriber lm_calls lm_queue lm_holders lm_mutex lm_started lm_stopped].
  - intros id' k' c' Hl'. apply lookup_insert_Some in Hl' as [[<- [= <- <-]]|[Hne Hl']]; [done|].
    apply (li_placed _ I) in Hl'. unfold call_placed in *. rewrite Hm in Hl'. cbn. destruct c' as [| |n|]; [|done| |done].
    + destruct k'; try done. by apply elem_of_cons in Hl' as [->|].
    + destruct Hl' as (->&Hh&Hin&Hnode). apply elem_of_cons in Hin as [->|]; [done|]. done.
  - intros id' Hin. destruct (li_queue _ I _ Hin) as (k'&Hl'&Hk'). exists k'. rewrite lookup_insert_ne; [done|]. intros ->. congruence.
  - intros id' Hin. destruct (li_holders _ I _ Hin) as (k'&c'&Hl'&Hc'). exists k', c'. rewrite lookup_insert_ne; [done|].
    intros ->. rewrite Hl in Hl'. injection Hl' as <- <-. destruct Hc' as [?|[? ?]]; done.
  - intros id' Hin. rewrite lookup_insert_ne by (intros ->; done). apply (li_mutex _ I). rewrite Hm. by right.
  - done.
  - intros id' k' Hin Hk'. unfold kind_of in Hk'. cbn in Hk'. rewrite (set_call_kind _ _ _ _ _ _ Hl) in Hk'. by apply (li_exclusive _ I).
  - apply I.
  - apply I.
Qed.

Lemma invoke_inv l id k l' : lumina_inv l → lumina_step l (Invoke id k) = Some l' → lumina_inv l'.
Proof.
  intros I. cbn [lumina_step]. destruct (lm_calls l !! id) eqn:Hl; [done|]. intros [= <-].
  assert (id ∉ lm_queue l) as Hq by (intros Hin; destruct (li_queue _ I _ Hin) as (?&?&_); congruence).
  assert (id ∉ lm_holders l) as Hh by (intros Hin; destruct (li_holders _ I _ Hin) as (?&?&?&_); congruence).
  assert (id ∉ lm_mutex l) as Hm by (intros Hin; destruct (li_mutex _ I _ Hin) as (?&?&?&_); congruence).
  destruct (li_nodup _ I) as [Hnq Hnm].
  assert (∀ q m, (∀ x, x ∈ q ↔ x ∈ lm_queue l ∨ x = id ∧ k ≠ NextEvent) → (∀ x, x ∈ m ↔ x ∈ lm_mutex l ∨ x = id ∧ k = NextEvent) →
    NoDup q ∧ NoDup m → lumina_inv (set_locks (set_call l id k Queued) q (lm_holders l) m)) as Hgen.
  { intros q m Hqs Hms Hnds.
    split; cbn [set_locks set_call lm_node lm_subscriber lm_calls lm_queue lm_holders lm_mutex lm_started lm_stopped]; [| | | |done| |apply I|apply I].
    - intros id' k' c' Hl'. apply lookup_insert_Some in Hl' as [[<- [= <- <-]]|[Hne Hl']].
      + cbn. destruct k; rewrite ?Hqs, ?Hms; by right.
      + apply (li_placed _ I) in Hl'. destruct c' as [| |n|]; cbn in *; [destruct k'; rewrite ?Hqs, ?Hms; by left|done| |done].
        rewrite Hms. naive_solver.
    - intros id' [Hin|[-> Hk]]%Hqs; [|exists k; by rewrite lookup_insert_eq]. rewrite lookup_insert_ne by (by intros ->). by apply I.
    - intros id' Hin. rewrite lookup_insert_ne by (by intros ->). by apply I.
    - intros id' [Hin|[-> Hk]]%Hms; [|exists k, Queued; rewrite lookup_insert_eq; tauto]. rewrite lookup_insert_ne by (by intros ->). by apply I.
    - intros id' k' Hin Hk' Hw. apply (li_exclusive _ I _ k'); [done| |done]. unfold kind_of in *. cbn in Hk'.
      by rewrite lookup_insert_ne in Hk' by (by intros ->). }
  assert (∀ (m : list nat) x, x ∈ m ++ [id] ↔ x ∈ m ∨ x = id) as Happ by (intros m x; rewrite elem_of_app; split; intros [?|?]; [by left|right; by apply list_elem_of_singleton|by left|right; by apply list_elem_of_singleton]).
  assert (∀ m : list nat, NoDup m → id ∉ m → NoDup (m ++ [id])) as Hnd.
  { intros m Hn Hni. apply NoDup_app. split_and!; [done| |apply NoDup_singleton]. by intros x Hx ->%list_elem_of_singleton. }
  destruct k; apply Hgen; try (intros x; cbn; rewrite ?Happ; naive_solver); cbn; split; auto.
Qed.

Lemma acquire_inv l l' : lumina_inv l → lumina_step l Acquire = Some l' → lumina_inv l'.
Proof.
  intros I. cbn [lumina_step]. destruct (lm_queue l) as [|id queue] eqn:Hq; [done|]. destruct (kind_of l id) as [k0|] eqn:Hk0; [|done].
  cbn [mbind option_bind]. destruct (may_acquire l k0) eqn:Hmay; [|done]. intros [= <-].
  destruct (li_queue _ I id) as (k&Hl&Hne); [rewrite Hq; by left|]. assert (k0 = k) as -> by (apply kind_of_Some in Hl; congruence).
  destruct (li_nodup _ I) as [Hnd Hnm]. rewrite Hq in Hnd. apply NoDup_cons in Hnd as [Hni Hnd].
  split; cbn [set_locks set_call lm_node lm_subscriber lm_calls lm_queue lm_holders lm_mutex lm_started lm_stopped]; [| | | |done| |apply I|apply I].
  - intros id' k' c' Hl'. apply lookup_insert_Some in Hl' as [[<- [= <- <-]]|[Hne' Hl']].
    + cbn. split; [|done]. apply elem_of_app. right. by apply list_elem_of_singleton.
    + apply (li_placed _ I) in Hl'. unfold call_placed in *. rewrite Hq in Hl'. cbn.
      destruct c' as [| |n|]; [destruct k'; try done; by apply elem_of_cons in Hl' as [->|]|rewrite elem_of_app; tauto..|done].
  - intros id' Hin. rewrite lookup_insert_ne by (by intros ->). apply (li_queue _ I). rewrite Hq. by right.
  - intros id' [Hin| ->%list_elem_of_singleton]%elem_of_app; [|exists k, Holding; rewrite lookup_insert_eq; tauto].
    rewrite lookup_insert_ne; [by apply I|]. intros ->. destruct (li_holders _ I _ Hin) as (?&?&Hl'&[->|[? ->]]); congruence.
  - intros id' Hin. rewrite lookup_insert_ne; [by apply I|]. intros ->.
    destruct (li_mutex _ I _ Hin) as (?&?&Hl'&[[-> ->]|[? ->]]); congruence.
  - intros id' k' Hin Hk' Hw. unfold kind_of in Hk'. cbn in Hk'. rewrite (set_call_kind _ _ _ _ _ _ Hl) in Hk'. unfold may_acquire in Hmay.
    apply elem_of_app in Hin as [Hin| ->%list_elem_of_singleton].
    + destruct (writes k); [case_bool_decide as Hh; [|done]; rewrite Hh in Hin; by apply elem_of_nil in Hin|].
      rewrite forallb_forall in Hmay. specialize (Hmay id' (proj1 (list_elem_of_In _ _) Hin)). rewrite Hk' in Hmay. cbn in Hmay.
      by rewrite Hw in Hmay.
    + assert (k' = k) as -> by (apply kind_of_Some in Hl; congruence). rewrite Hw in Hmay. by case_bool_decide as Hh; [rewrite Hh|].
Qed.

Lemma storing_inv l id n : lumina_inv l → lm_calls l !! id = Some (Start, Holding) → lm_node l = None →
  lumina_inv (set_locks (set_call l id Start (Storing n)) (lm_queue l) (lm_holders l) (lm_mutex l ++ [id])).
Proof.
  intros I Hl Hnode. pose proof (holding_not_mutex _ _ _ I Hl) as Hm. destruct (li_nodup _ I) as [Hq Hnd].
  destruct (li_placed _ I _ _ _ Hl) as [Hh _].
  split; cbn [set_locks set_call lm_node lm_subscriber lm_calls lm_queue lm_holders lm_mutex lm_started lm_stopped]; [| | | | | |apply I|apply I].
  - intros id' k' c' Hl'. apply lookup_insert_Some in Hl' as [[<- [= <- <-]]|[Hne' Hl']].
    + cbn. rewrite elem_of_app, list_elem_of_singleton. tauto.
    + apply (li_placed _ I) in Hl'. unfold call_placed in *. cbn.
      destruct c'; [destruct k'; rewrite ?elem_of_app; tauto|done|rewrite elem_of_app; tauto|done].
  - intros id' Hin. destruct (li_queue _ I _ Hin) as (k'&Hl'&Hk'). exists k'. rewrite lookup_insert_ne; [done|]. intros ->. congruence.
  - intros id' Hin. destruct (decide (id' = id)) as [->|Hne]; [exists Start, (Storing n); rewrite lookup_insert_eq; eauto|].
    rewrite lookup_insert_ne by done. by apply I.
  - intros id' [Hin| ->%list_elem_of_singleton]%elem_of_app; [|exists Start, (Storing n); rewrite lookup_insert_eq; eauto].
    rewrite lookup_insert_ne by (by intros ->). by apply I.
  - split; [done|]. apply NoDup_app. split_and!; [done| |apply NoDup_singleton]. by intros x Hx ->%list_elem_of_singleton.
  - intros id' k' Hin Hk' Hw. unfold kind_of in Hk'. cbn in Hk'. rewrite (set_call_kind _ _ _ _ _ _ Hl) in Hk'. by apply (li_exclusive _ I _ k').
Qed.

Lemma act_inv l id k built l' : lumina_inv l → lm_calls l !! id = Some (k, Holding) → act l id k built = Some l' → lumina_inv l'.
Proof.
  intros I Hl. destruct k; cbn [act].
  - destruct (lm_node l) eqn:Hn; [intros [= <-]; by apply return_holding_inv|].
    destruct built; intros [= <-]; [by apply storing_inv|by apply return_holding_inv].
  - destruct (lm_node l) eqn:Hn; intros [= <-]; [|by apply return_holding_inv].
    match goal with |- lumina_inv (return_ (set_node l None NoPeers ?s ?a ?b) id Stop Stopped) =>
      change (lumina_inv (set_node (return_ l id Stop Stopped) None NoPeers s a b)) end.
    apply set_node_inv; [by apply return_holding_inv|by intros [? ?]| |].
    + intros s' _. destruct (lm_subscriber l) as [s0|]; [|done]. by intros [= <-].
    + pose proof (li_count _ I) as Hc. rewrite Hn in Hc. lia.
  - intros [= <-]. by apply return_holding_inv.
  - destruct (lm_node l); [destruct (wait_over _ _)|]; intros [= <-]; by apply return_holding_inv.
  - destruct (lm_node l); [destruct (wait_over _ _)|]; intros [= <-]; by apply return_holding_inv.
  - destruct (lm_node l); intros [= <-]; by apply return_holding_inv.
  - done.
Qed.

Lemma mutex_act_inv l id k c rest early l' : lumina_inv l → lm_mutex l = id :: rest → lm_calls l !! id = Some (k, c) →
  mutex_act l id k c rest early = Some l' → lumina_inv l'.
Proof.
  intros I Hm Hl. destruct (li_nodup _ I) as [Hq Hnd]. rewrite Hm in Hnd. apply NoDup_cons in Hnd as [Hni Hnd].
  destruct k; cbn [mutex_act set_locks lm_subscriber lm_node lm_peers lm_started lm_stopped]; try done.
  - destruct c as [| |n|]; try done. intros [= <-]. pose proof (li_placed _ I _ _ _ Hl) as (_&Hh&_&Hnode).
    pose proof (li_exclusive _ I _ _ Hh (kind_of_Some _ _ _ _ Hl) eq_refl) as Halone.
    set (l1 := set_locks l (lm_queue l) (lm_holders l) rest).
    match goal with |- lumina_inv (return_ (set_node _ ?n ?b ?s ?st ?sp) id Start Started) =>
      change (lumina_inv (set_node (return_ l1 id Start Started) n b s st sp)) end.
    apply set_node_inv; [| |done|].
    + apply (return_inv _ _ _ _ _ _ I Hl); [by right; exists n| |done].
      intros id'. rewrite Hm, elem_of_cons. split; [intros Hin; split; [by right|by intros ->]|intros [[->|?] ?]; done].
    + intros _ id' k' m. cbn. intros Hl'. apply lookup_insert_Some in Hl' as [[_ ?]|[Hne Hl']]; [done|].
      apply (li_placed _ I) in Hl' as (_&Hin&_). rewrite Halone in Hin. by apply list_elem_of_singleton in Hin.
    + pose proof (li_count _ I) as Hc. rewrite Hnode in Hc. cbn. lia.
  - assert (c = Queued ∨ ∃ r, c = Returned r) as Hc.
    { destruct c as [| |n|r]; [by left| |apply (li_placed _ I) in Hl as [? _]; done|eauto]. by apply (li_placed _ I) in Hl as [_ ?]. }
    assert (lm_calls l !! id = Some (NextEvent, Queued)) as Hl'.
    { destruct (li_mutex _ I id) as (k'&c'&Hl'&Hk'); [rewrite Hm; by left|]. rewrite Hl in Hl'. injection Hl' as <- <-.
      destruct Hk' as [[_ ->]|[n ->]]; [done|]. destruct Hc as [?|[? ?]]; done. }
    pose proof (λ r, next_event_inv l id rest r I Hm Hl') as Hne. destruct (lm_subscriber l) as [sub|] eqn:Hs; [|intros [= <-]; apply Hne].
    destruct (sb_events sub) as [|e es]; [destruct (sb_open sub); intros [= <-]; apply Hne|]. intros [= <-].
    match goal with |- lumina_inv (set_call (set_node _ ?n ?b ?s ?st ?sp) id NextEvent ?r) =>
      change (lumina_inv (set_node (set_call (set_locks l (lm_queue l) (lm_holders l) rest) id NextEvent r) n b s st sp)) end.
    apply set_node_inv; [apply Hne| | |apply I].
    + intros [n Hn] id' k' m Hst. cbn in Hn. pose proof (li_placed _ (Hne (GotEvent e)) _ _ _ Hst) as (_&_&_&Hno). cbn in Hno. congruence.
    + intros s' Hnone [= <-]. cbn. by apply (li_closed _ I).
Qed.

Lemma lumina_step_inv l ch l' : lumina_inv l → lumina_step l ch = Some l' → lumina_inv l'.
Proof.
  intros I. destruct ch as [id k| |id built|early|b|e]; [by apply invoke_inv|by apply acquire_inv|..]; cbn [lumina_step].
  - destruct (lm_calls l !! id) as [[k []]|] eqn:Hl; try done. by apply act_inv.
  - destruct (lm_mutex l) as [|id rest] eqn:Hm; [done|]. destruct (lm_calls l !! id) as [[k c]|] eqn:Hl; [|done].
    cbn [mbind option_bind]. by apply mutex_act_inv.
  - destruct (lm_node l) as [n|] eqn:Hn; [|done]. intros [= <-]. apply set_node_inv; [done| |done|].
    + intros _ id k m Hl. pose proof (li_placed _ I _ _ _ Hl) as (_&_&_&?). congruence.
    + pose proof (li_count _ I) as Hc. by rewrite Hn in Hc.
  - destruct (lm_subscriber l) as [sub|] eqn:Hs; [|done]. destruct (sb_open sub) eqn:Ho; [|done]. intros [= <-].
    apply set_node_inv; [done| | |apply I].
    + intros [n Hn] id k m Hl. pose proof (li_placed _ I _ _ _ Hl) as (_&_&_&?). congruence.
    + intros s' Hn _. by rewrite (li_closed _ I _ Hn Hs) in Ho.
Qed.
Lemma lumina_reachable_inv l : lumina_reachable l → lumina_inv l.
Proof. induction 1 as [|l ch l' _ IH Hs]; [apply lumina_new_inv|by eapply lumina_step_inv]. Qed.

(** ** Progress *)

Definition call_weight (kc : Kind * Call) : nat := match kc.2 with Queued => 3 | Holding => 2 | Storing _ => 1 | Returned _ => 0 end.
Definition lumina_weight (l : Lumina) : nat := map_weight call_weight (lm_calls l).
(** The steps of calls. *)
Definition call_moves (ch : Choice) : bool := match ch with Acquire | Act _ _ | MutexAct _ => true | _ => false end.

(** What the steps do to the table of calls. *)
Lemma act_calls l id k built l' : act l id k built = Some l' →
  ∃ c, lm_calls l' = <[id := (k, c)]> (lm_calls l) ∧ (call_weight (k, c) < 2)%nat.
Proof. intros Ha. destruct k; cbn [act] in Ha; repeat case_match; simplify_eq; (eexists; split; [reflexivity|cbn; lia]). Qed.
Lemma mutex_act_calls l id k c rest early l' : mutex_act l id k c rest early = Some l' →
  ∃ r, lm_calls l' = <[id := (k, Returned r)]> (lm_calls l).
Proof. intros Ha. destruct k, c; cbn [mutex_act set_locks lm_subscriber] in Ha; repeat case_match; simplify_eq; by eexists. Qed.

Lemma call_moves_weight l ch l' : lumina_inv l → call_moves ch = true → lumina_step l ch = Some l' → (lumina_weight l' < lumina_weight l)%nat.
Proof.
  intros I. assert (∀ id k c c', lm_calls l !! id = Some (k, c) → (call_weight (k, c') < call_weight (k, c))%nat →
    (map_weight call_weight (<[id := (k, c')]> (lm_calls l)) < lumina_weight l)%nat) as Hw.
  { intros id k c c' Hl Hlt. pose proof (map_weight_insert call_weight _ _ _ (k, c') Hl). unfold lumina_weight. lia. }
  destruct ch as [id k| |id built|early|b|e]; try done; intros _; cbn [lumina_step].
  - destruct (lm_queue l) as [|id queue] eqn:Hq; [done|]. destruct (li_queue _ I id) as (k&Hl&_); [rewrite Hq; by left|].
    rewrite (kind_of_Some _ _ _ _ Hl). cbn [mbind option_bind]. destruct (may_acquire l k); [|done]. intros [= <-].
    apply (Hw _ _ _ _ Hl). cbn. lia.
  - destruct (lm_calls l !! id) as [[k []]|] eqn:Hl; try done. intros Ha.
    destruct (act_calls _ _ _ _ _ Ha) as (c'&Hc&Hlt).
    unfold lumina_weight at 1. rewrite Hc. by apply (Hw _ _ _ _ Hl).
  - destruct (lm_mutex l) as [|id rest] eqn:Hm; [done|]. destruct (li_mutex _ I id) as (k&c&Hl&Hc); [rewrite Hm; by left|].
    rewrite Hl. cbn [mbind option_bind]. intros Ha.
    destruct (mutex_act_calls _ _ _ _ _ _ _ Ha) as (r&Hr).
    unfold lumina_weight at 1. rewrite Hr. apply (Hw _ _ _ _ Hl). destruct Hc as [[_ ->]|[n ->]]; cbn; lia.
Qed.

Definition at_rest (l : Lumina) : Prop := ∀ ch, call_moves ch = true → lumina_step l ch = None.
(** Somebody waits for a peer that is not there, with the lock. *)
Definition waits (k : Kind) (l : Lumina) : Prop := (k = WaitConnected ∨ k = WaitConnectedTrusted) ∧
  ∃ id, lm_calls l !! id = Some (k, Holding) ∧ is_Some (lm_node l) ∧ wait_over k (lm_peers l) = false.
Definition somebody_waits (l : Lumina) : Prop := ∃ k, waits k l.
Definition events_awaited (l : Lumina) : Prop := ∃ s, lm_subscriber l = Some s ∧ sb_open s = true ∧ sb_events s = [].

(** The holder of the mutex waits only for events of a running node. *)
Lemma rest_mutex l id rest : lumina_inv l → at_rest l → lm_mutex l = id :: rest → events_awaited l.
Proof.
  intros I Hrest Hm. specialize (Hrest (MutexAct []) eq_refl). cbn [lumina_step] in Hrest. rewrite Hm in Hrest.
  destruct (li_mutex _ I id) as (k&c&Hl&Hc); [rewrite Hm; by left|]. rewrite Hl in Hrest. cbn [mbind option_bind] in Hrest.
  destruct Hc as [[-> ->]|[n ->]].
  - cbn [mutex_act set_locks lm_subscriber] in Hrest. destruct (lm_subscriber l) as [sub|] eqn:Hs; [|done].
    exists sub. destruct (sb_events sub) eqn:He; [|done]. by destruct (sb_open sub).
  - apply (li_placed _ I) in Hl as [-> _]. done.
Qed.
(** A holder of the lock that cannot move waits for a peer. *)
Lemma rest_holders l id (built : N + Error) : lumina_inv l → at_rest l → id ∈ lm_holders l → somebody_waits l.
Proof.
  intros I Hrest Hin. destruct (li_holders _ I _ Hin) as (k&c&Hl&[->|[n ->]]).
  - exists k. specialize (Hrest (Act id built) eq_refl). cbn [lumina_step] in Hrest. rewrite Hl in Hrest.
    destruct k; cbn [act] in Hrest; repeat case_match; try done; [| |by apply (li_placed _ I) in Hl as [_ ?]];
      (split; [by auto|]; by exists id).
  - apply (li_placed _ I) in Hl as (->&_&Hm&Hn). destruct (lm_mutex l) as [|id' rest] eqn:Hmx; [by apply elem_of_nil in Hm|].
    destruct (rest_mutex _ _ _ I Hrest Hmx) as (sub&Hs&Ho&_). by rewrite (li_closed _ I _ Hn Hs) in Ho.
Qed.

(** Whatever an application calls at the same time: at most one node runs, a call of [start] or [stop]
    is alone with it, and calls come to an end.  Their steps run out, and when they have, every
    call has returned, except calls of [next_event] while the node has no event, and any calls as
    long as one waits for a peer. *)
Theorem mobile_calls_return l (built : N + Error) : lumina_reachable l →
  lm_started l = (lm_stopped l + if lm_node l then 1 else 0)%nat ∧
  (∀ id k, id ∈ lm_holders l → kind_of l id = Some k → writes k = true → lm_holders l = [id]) ∧
  (∀ ch l', call_moves ch = true → lumina_step l ch = Some l' → (lumina_weight l' < lumina_weight l)%nat) ∧
  (at_rest l → ∀ id k c, lm_calls l !! id = Some (k, c) →
     (∃ r, c = Returned r) ∨ (k = NextEvent ∧ events_awaited l) ∨ somebody_waits l).
Proof.
  intros Hr. pose proof (lumina_reachable_inv _ Hr) as I. split_and!; [apply I|apply I|by intros; eapply call_moves_weight|].
  intros Hrest id k c Hl. pose proof (li_placed _ I _ _ _ Hl) as Hp. destruct c as [| |n|r]; [| | |left; eauto]; right.
  - assert (id ∈ lm_queue l → somebody_waits l) as Hq.
    { intros Hin. destruct (lm_holders l) as [|h hs] eqn:Hh; [|apply (rest_holders l h built I Hrest); rewrite Hh; by left].
      destruct (lm_queue l) as [|id0 queue] eqn:Hqueue; [by apply elem_of_nil in Hin|].
      specialize (Hrest Acquire eq_refl). cbn [lumina_step] in Hrest. rewrite Hqueue in Hrest.
      destruct (li_queue _ I id0) as (k0&Hl0&_); [rewrite Hqueue; by left|]. rewrite (kind_of_Some _ _ _ _ Hl0) in Hrest.
      cbn [mbind option_bind] in Hrest. unfold may_acquire in Hrest. rewrite Hh in Hrest. by destruct (writes k0). }
    destruct k; cbn in Hp; try (right; by apply Hq). left. split; [done|].
    destruct (lm_mutex l) as [|id0 rest] eqn:Hm; [by apply elem_of_nil in Hp|]. by eapply rest_mutex.
  - right. destruct Hp as [Hin _]. by apply (rest_holders l id built).
  - right. destruct Hp as (_&Hin&_). by apply (rest_holders l id built).
Qed.

(** A call of kind [kw] waits for a peer, and a call that writes is first in the queue. *)
Definition blocked (kw : Kind) (l : Lumina) : Prop :=
  waits kw l ∧ ∃ id k queue, lm_queue l = id :: queue ∧ kind_of l id = Some k ∧ writes k = true.
Lemma blocked_step kw l ch l' : lumina_inv l → blocked kw l →
  (∀ peers, ch = PeerChange peers → wait_over kw peers = false) → lumina_step l ch = Some l' →
  blocked kw l' ∧ lm_queue l `prefix_of` lm_queue l' ∧ lm_node l' = lm_node l.
Proof.
  intros I [(Hkw&w&Hw&[n Hn]&Hc) (id&k&queue&Hq&Hk&Hwr)] Hch.
  assert (w ∈ lm_holders l) as Hwin by (by apply (li_placed _ I) in Hw as [? _]).
  assert (lm_calls l !! id = Some (k, Queued)) as Hid.
  { destruct (li_queue _ I id) as (k'&Hl&_); [rewrite Hq; by left|]. apply kind_of_Some in Hl as Hk'. congruence. }
  (* what keeps a state blocked *)
  assert (∀ l2, lm_node l2 = lm_node l → lm_peers l2 = lm_peers l → lm_queue l `prefix_of` lm_queue l2 →
    lm_calls l2 !! w = lm_calls l !! w → lm_calls l2 !! id = lm_calls l !! id →
    blocked kw l2 ∧ lm_queue l `prefix_of` lm_queue l2 ∧ lm_node l2 = lm_node l) as Hkeep.
  { intros l2 Hn2 Hc2 Hq2 Hw2 Hid2. split; [|done]. split.
    - split; [done|]. exists w. rewrite Hw2, Hn2, Hc2, Hn. eauto.
    - destruct Hq2 as [q2 Hq2]. exists id, k, (queue ++ q2). rewrite Hq2, Hq. split; [done|]. split; [|done].
      unfold kind_of. by rewrite Hid2, Hid. }
  destruct ch as [id' k'| |id' built|early|b|e]; cbn [lumina_step].
  - destruct (lm_calls l !! id') eqn:Hl; [done|]. intros [= <-].
    apply Hkeep; destruct k'; cbn; try done; try (by apply prefix_app_r); by rewrite lookup_insert_ne by congruence.
  - rewrite Hq, Hk. cbn [mbind option_bind]. unfold may_acquire. rewrite Hwr, bool_decide_false; [done|]. intros Hh. rewrite Hh in Hwin.
    by apply elem_of_nil in Hwin.
  - destruct (lm_calls l !! id') as [[k' []]|] eqn:Hl; try done. intros Ha.
    assert (writes k' = false) as Hro.
    { destruct (writes k') eqn:Hw'; [|done]. pose proof (li_placed _ I _ _ _ Hl) as [Hin _].
      pose proof (li_exclusive _ I _ _ Hin (kind_of_Some _ _ _ _ Hl) Hw') as Halone. rewrite Halone in Hwin.
      apply list_elem_of_singleton in Hwin as ->. rewrite Hw in Hl. injection Hl as <-. by destruct Hkw as [-> | ->]. }
    assert (id' ≠ id) as Hne2 by (intros ->; congruence).
    assert (id' ≠ w) as Hne1.
    { intros ->. rewrite Hw in Hl. injection Hl as <-. destruct Hkw as [-> | ->]; cbn [act] in Ha; by rewrite Hn, Hc in Ha. }
    destruct k'; try done; cbn [act] in Ha; rewrite ?Hn in Ha; 
      try (match type of Ha with context [wait_over ?a ?b] => destruct (wait_over a b) end; [|done]); injection Ha as <-;
      (apply Hkeep; cbn; [done|done|done|by rewrite lookup_insert_ne..]).
  - destruct (lm_mutex l) as [|id' rest] eqn:Hm; [done|]. destruct (lm_calls l !! id') as [[k' c']|] eqn:Hl; [|done].
    cbn [mbind option_bind]. intros Ha.
    assert (k' = NextEvent) as ->.
    { destruct (li_mutex _ I id') as (k2&c2&Hl2&Hc2); [rewrite Hm; by left|]. rewrite Hl in Hl2. injection Hl2 as <- <-.
      destruct Hc2 as [[-> _]|[m ->]]; [done|]. apply (li_placed _ I) in Hl as (_&_&_&?). congruence. }
    assert (id' ≠ w ∧ id' ≠ id) as [Hne1 Hne2].
    { split; intros ->; [destruct Hkw; congruence|].
      destruct (li_queue _ I id) as (?&?&?); [rewrite Hq; by left|congruence]. }
    cbn [mutex_act set_locks lm_subscriber] in Ha. repeat case_match; simplify_eq; (apply Hkeep; cbn; [done|done|done|by rewrite lookup_insert_ne..]).
  - destruct (lm_node l) eqn:Hn'; [|done]. intros [= <-]. specialize (Hch _ eq_refl). split; [|done]. split.
    + split; [done|]. exists w. cbn. eauto.
    + by exists id, k, queue.
  - destruct (lm_subscriber l) as [sub|]; [|done]. destruct (sb_open sub); [|done]. intros [= <-]. by apply Hkeep.
Qed.

(** The steps only add calls and move them on. *)
Lemma step_calls l ch l' : lumina_step l ch = Some l' →
  lm_calls l' = lm_calls l ∨
  ∃ id k c, lm_calls l' = <[id := (k, c)]> (lm_calls l) ∧
    (kind_of l id = Some k ∨ ch = Invoke id k ∧ (k ≠ NextEvent → id ∈ lm_queue l')).
Proof.
  destruct ch as [id k| |id built|early|b|e]; cbn [lumina_step]; intros Hs.
  - destruct (lm_calls l !! id) eqn:Hl; [done|]. injection Hs as <-. right. exists id, k, Queued. split; [by destruct k|]. right.
    split; [done|]. intros Hk. destruct k; try done; cbn; apply elem_of_app; right; by apply list_elem_of_singleton.
  - destruct (lm_queue l) as [|id queue]; [done|]. destruct (kind_of l id) as [k|] eqn:Hk; [|done]. cbn in Hs.
    destruct (may_acquire l k); [|done]. injection Hs as <-. right. exists id, k, Holding. split; [done|by left].
  - destruct (lm_calls l !! id) as [[k []]|] eqn:Hl; try done. destruct (act_calls _ _ _ _ _ Hs) as (c&Hc&_).
    right. exists id, k, c. split; [done|left; by eapply kind_of_Some].
  - destruct (lm_mutex l) as [|id rest]; [done|]. destruct (lm_calls l !! id) as [[k c]|] eqn:Hl; [|done]. cbn in Hs.
    destruct (mutex_act_calls _ _ _ _ _ _ _ Hs) as (r&Hc). right. exists id, k, (Returned r). split; [done|left; by eapply kind_of_Some].
  - destruct (lm_node l); [|done]. injection Hs as <-. by left.
  - destruct (lm_subscriber l) as [sub|]; [|done]. destruct (sb_open sub); [|done]. injection Hs as <-. by left.
Qed.
Lemma step_kind l ch l' id k : lumina_step l ch = Some l' → kind_of l id = Some k → kind_of l' id = Some k.
Proof.
  intros Hs Hk. destruct (step_calls _ _ _ Hs) as [Hc|(id'&k'&c&Hc&Hk')]; unfold kind_of in *; rewrite Hc; [done|].
  destruct (decide (id = id')) as [<-|Hne]; [|by rewrite lookup_insert_ne]. rewrite lookup_insert_eq. cbn.
  destruct Hk' as [Hk'|[-> _]]; [congruence|]. cbn in Hs. by destruct (lm_calls l !! id).
Qed.
Lemma run_kind l choices l' id k : lumina_run l choices = Some l' → kind_of l id = Some k → kind_of l' id = Some k.
Proof.
  revert l; induction choices as [|ch choices IH]; intros l Hrun Hk; cbn in Hrun; [by injection Hrun as <-|].
  destruct (lumina_step l ch) as [l1|] eqn:Hs; [|done]. apply (IH l1); [done|]. by eapply step_kind.
Qed.
Lemma new_call_queued l ch l' id k : lumina_step l ch = Some l' → lm_calls l !! id = None → kind_of l' id = Some k →
  k ≠ NextEvent → id ∈ lm_queue l'.
Proof.
  intros Hs Hnone Hk Hne. destruct (step_calls _ _ _ Hs) as [Hc|(id'&k'&c&Hc&Hk')]; unfold kind_of in *; rewrite Hc in Hk; [by rewrite Hnone in Hk|].
  destruct (decide (id = id')) as [<-|Hne']; [|by rewrite lookup_insert_ne, Hnone in Hk]. rewrite lookup_insert_eq in Hk. injection Hk as ->.
  destruct Hk' as [Hk'|[_ Hq]]; [by rewrite Hnone in Hk'|by apply Hq].
Qed.

End Locks.

(** ** A concrete application *)

(** Nodes and answers are numbers. *)
#[local] Notation toy_run := (lumina_run (N := nat) (Event := nat) (Query := nat) (Value := nat) (Error := nat) 0%nat (λ n q, (n + q)%nat)).
Definition toy_blocked : Lumina (N := nat) (Event := nat) (Query := nat) (Value := nat) (Error := nat) :=
  default lumina_new (toy_run lumina_new
    [Invoke 0 Start; Acquire; Act 0 (inl 7%nat); MutexAct []; Invoke 1 WaitConnectedTrusted; Acquire; Invoke 2 Stop]).
Lemma toy_run_reachable choices l l' : lumina_reachable 0%nat (λ n q, (n + q)%nat) l → toy_run l choices = Some l' →
  lumina_reachable 0%nat (λ n q, (n + q)%nat) l'.
Proof.
  revert l; induction choices as [|ch choices IH]; intros l Hr Hrun; cbn in Hrun; [by injection Hrun as <-|].
  destruct (lumina_step _ _ l ch) as [l1|] eqn:Hs; [|done]. apply (IH l1); [by eapply lr_step|done].
Qed.
Lemma toy_run_ends choices : lumina_reachable 0%nat (λ n q, (n + q)%nat) (default lumina_new (toy_run lumina_new choices)).
Proof.
  destruct (toy_run lumina_new choices) as [l|] eqn:Hrun; [|apply lr_new]. eapply toy_run_reachable; [apply lr_new|exact Hrun].
Qed.
Lemma mobile_calls_return_witness : lm_started toy_blocked = (lm_stopped toy_blocked + 1)%nat.
Proof. apply (mobile_calls_return 0%nat (λ n q, (n + q)%nat) toy_blocked (inl 7%nat) (toy_run_ends _)). Defined.
