(* ===== verification/Node.v ===== *)
(** * The node: its components on one store (src/node/src/node.rs)

    A running node is the syncer, the sampling worker and the pruner, which share one header
    store; each is a task of its own, and their handlers interleave freely.  The state of the node
    has the workers of Syncer.v and Daser.v and the position of the pruner in its loop; a step is
    one handler of one component at one instant of time, run on the shared store.  A fatal error
    ends only the component it occurs in.

    [n_batch_since] and [n_sampled_since] record when what is under way was started; nothing
    reads them but the statements about time. *)

From S2P Require Import Prelude Consts BlockRanges Nmt Merkle Dah Header ShwapIds Store.
From S2P Require Import InMemoryStore HeaderEx HeaderSession Syncer SyncerRun Pruner Shwap Daser StateTypes NodeConfig.

(** ** State *)

Inductive NodeError := NeSyncer (e : SyncerError) | NeDaser (e : DaserError) | NePruner (e : PrunerError).

(** Where the tasks are: in the connecting loop, on the way into the connected one, in it, or
    ended. *)
Inductive SyncerMode := SmConnecting (event_reported : bool) | SmEntering | SmConnected | SmStopped.
Inductive DaserMode := DmConnecting | DmConnected | DmStopped.
(** The pruner: between two passes, at the head of the [while] loop, with a header to prune, and
    with the blocks of that header already removed. *)
Inductive PrunerMode :=
| PmSleeping
| PmPruning (cutoff : Z)
| PmTail (cutoff : Z) (header : ExtendedHeader)
| PmCleared (cutoff : Z) (header : ExtendedHeader)
| PmStopped.

Record Node (S B : Type) := {
  n_store : S;
  n_blockstore : B;
  n_syncer : Worker S;
  n_syncer_mode : SyncerMode;
  n_batch_since : Z;
  n_daser : Daser.Daser S;
  n_daser_mode : DaserMode;
  n_sampled_since : Z → Z;
  n_pruner_mode : PrunerMode;
  n_pruning_window : Z;
  n_last_reported : option Z;
  n_last_removed : option Z;
  (** the heights of the [PrunedHeaders] events *)
  n_pruned : list Z;
  (** the [Fatal...Error] events *)
  n_fatal : list NodeError
}.
Arguments n_store {S B} _.
Arguments n_blockstore {S B} _.
Arguments n_syncer {S B} _.
Arguments n_syncer_mode {S B} _.
Arguments n_batch_since {S B} _.
Arguments n_daser {S B} _.
Arguments n_daser_mode {S B} _.
Arguments n_sampled_since {S B} _ _.
Arguments n_pruner_mode {S B} _.
Arguments n_pruning_window {S B} _.
Arguments n_last_reported {S B} _.
Arguments n_last_removed {S B} _.
Arguments n_pruned {S B} _.
Arguments n_fatal {S B} _.

Inductive NodeStep (S : Type) :=
| StSyncerConnecting (ev : ConnectingEvent)
| StSyncerEnter (cancelled : bool) (peers : Z)
| StSyncer (peers : Z) (ev : ConnectedEvent)
| StDaserEnter (cancelled : bool) (peers : Z)
| StDaser (draws1 draws2 : list (Z * Z)) (ev : @DaserEvent S)
| StPrunerWake
| StPrunerTail (cancelled : bool)
| StPrunerBlocks
| StPrunerRemove
| StPrunerCancelled.
Arguments StSyncerConnecting {S} _.
Arguments StSyncerEnter {S} _ _.
Arguments StSyncer {S} _ _.
Arguments StDaserEnter {S} _ _.
Arguments StDaser {S} _ _ _.
Arguments StPrunerWake {S}.
Arguments StPrunerTail {S} _.
Arguments StPrunerBlocks {S}.
Arguments StPrunerRemove {S}.
Arguments StPrunerCancelled {S}.

Section Node.
Context {S B : Type} `{!Store S} `{!CidExternals}.
Context (time_checked_sub duration_since : Z → Z → option Z).
Context (bs_remove : B → Cid → option B).

(** ** Start *)

(** [Node::start]: the components on the stores of the configuration. *)
Definition node_start {M K} (c : NodeConfig B S M K) : Node S B :=
  {| n_store := nc_store c; n_blockstore := nc_blockstore c;
     n_syncer := worker_new (nc_store c) (nc_sync_batch_size c) (nc_sampling_window c);
     n_syncer_mode := SmConnecting false; n_batch_since := 0;
     n_daser := daser_new (nc_store c) (nc_sampling_window c); n_daser_mode := DmConnecting;
     n_sampled_since := λ _, 0; n_pruner_mode := PmSleeping;
     n_pruning_window := nc_pruning_window c; n_last_reported := None; n_last_removed := None;
     n_pruned := []; n_fatal := [] |}.

(** ** The workers on the shared store *)

Definition node_syncer (n : Node S B) : Worker S := set_store (n_syncer n) (n_store n).
Definition node_daser (n : Node S B) : Daser.Daser S :=
  set_sampling (n_daser n) (n_store n) (d_sampling_futs (n_daser n)) (d_done (n_daser n)) (d_ongoing (n_daser n)).

Definition with_syncer (n : Node S B) (w : Worker S) (mode : SyncerMode) (since : Z) : Node S B :=
  {| n_store := w_store w; n_blockstore := n_blockstore n; n_syncer := w; n_syncer_mode := mode;
     n_batch_since := since; n_daser := n_daser n; n_daser_mode := n_daser_mode n;
     n_sampled_since := n_sampled_since n; n_pruner_mode := n_pruner_mode n;
     n_pruning_window := n_pruning_window n; n_last_reported := n_last_reported n;
     n_last_removed := n_last_removed n; n_pruned := n_pruned n; n_fatal := n_fatal n |}.
Definition with_daser (n : Node S B) (d : Daser.Daser S) (mode : DaserMode) (since : Z → Z) : Node S B :=
  {| n_store := d_store d; n_blockstore := n_blockstore n; n_syncer := n_syncer n;
     n_syncer_mode := n_syncer_mode n; n_batch_since := n_batch_since n; n_daser := d;
     n_daser_mode := mode; n_sampled_since := since; n_pruner_mode := n_pruner_mode n;
     n_pruning_window := n_pruning_window n; n_last_reported := n_last_reported n;
     n_last_removed := n_last_removed n; n_pruned := n_pruned n; n_fatal := n_fatal n |}.
Definition with_pruner (n : Node S B) (s : S) (b : B) (mode : PrunerMode) (removed : option Z) : Node S B :=
  {| n_store := s; n_blockstore := b; n_syncer := n_syncer n; n_syncer_mode := n_syncer_mode n;
     n_batch_since := n_batch_since n; n_daser := n_daser n; n_daser_mode := n_daser_mode n;
     n_sampled_since := n_sampled_since n; n_pruner_mode := mode;
     n_pruning_window := n_pruning_window n; n_last_reported := n_last_reported n;
     n_last_removed := removed; n_pruned := n_pruned n; n_fatal := n_fatal n |}.
Definition with_report (n : Node S B) (height : Z) : Node S B :=
  {| n_store := n_store n; n_blockstore := n_blockstore n; n_syncer := n_syncer n;
     n_syncer_mode := n_syncer_mode n; n_batch_since := n_batch_since n; n_daser := n_daser n;
     n_daser_mode := n_daser_mode n; n_sampled_since := n_sampled_since n;
     n_pruner_mode := n_pruner_mode n; n_pruning_window := n_pruning_window n;
     n_last_reported := n_last_removed n; n_last_removed := n_last_removed n;
     n_pruned := n_pruned n ++ [height]; n_fatal := n_fatal n |}.
Definition with_fatal (n : Node S B) (e : NodeError) : Node S B :=
  {| n_store := n_store n; n_blockstore := n_blockstore n; n_syncer := n_syncer n;
     n_syncer_mode := n_syncer_mode n; n_batch_since := n_batch_since n; n_daser := n_daser n;
     n_daser_mode := n_daser_mode n; n_sampled_since := n_sampled_since n;
     n_pruner_mode := n_pruner_mode n; n_pruning_window := n_pruning_window n;
     n_last_reported := n_last_reported n; n_last_removed := n_last_removed n;
     n_pruned := n_pruned n; n_fatal := n_fatal n ++ [e] |}.

(** ** Steps of the syncer *)

(** A task that ends drops its worker, with what it had under way; [store] is what it leaves
    behind when it fails. *)
Definition syncer_result (n : Node S B) (store : S) (r : res SyncerError (Worker S * SyncerMode)) (since : Z)
    : res unit (Node S B) :=
  match r with
  | Ok (w, mode) => Ok (with_syncer n w mode since)
  | Err e =>
      Ok (with_fatal (with_syncer n (leave_connected (set_store (n_syncer n) store)) SmStopped since) (NeSyncer e))
  | Panic => Panic
  end.

(** A head that was inserted stays when [init_header_sub] fails. *)
Definition store_after_try_init (t : Z) (n : Node S B) (ev : ConnectingEvent) : S :=
  match ev with
  | CnTryInit (Ok _) network_head _ => (try_init (λ _, t) (n_store n) network_head).2
  | _ => n_store n
  end.

Definition syncer_connecting (t : Z) (n : Node S B) (ev : ConnectingEvent) : res unit (Node S B) :=
  match n_syncer_mode n with
  | SmConnecting b =>
      syncer_result n (store_after_try_init t n ev)
        ('(w, b, continue) ← connecting_step (node_syncer n) b {| env_now := λ _, t; env_peers := 0 |} ev;
         Ok (w, if continue : bool then SmConnecting b
                else match ev with CnCancelled => SmStopped | _ => SmEntering end))
        (n_batch_since n)
  | _ => Ok n
  end.

(** Between the loops: the token is read, then the connected loop is entered, which is left at
    once without peers. *)
Definition syncer_enter (t : Z) (n : Node S B) (cancelled : bool) (peers : Z) : res unit (Node S B) :=
  match n_syncer_mode n with
  | SmEntering =>
      syncer_result n (n_store n)
        (if cancelled then Ok (node_syncer n, SmStopped) else
         if peers =? 0 then _ ← report (node_syncer n); Ok (node_syncer n, SmConnecting false) else
         w ← fetch_next_batch time_checked_sub t peers (node_syncer n);
         _ ← report w;
         Ok (w, SmConnected))
        t
  | _ => Ok n
  end.

Definition batch_since (t : Z) (n : Node S B) (ev : ConnectedEvent) : Z :=
  match ev, w_task (n_syncer n) with
  | CeBatch _, _ | _, None => t
  | _, Some _ => n_batch_since n
  end.

Definition syncer_connected (t : Z) (n : Node S B) (peers : Z) (ev : ConnectedEvent) : res unit (Node S B) :=
  match n_syncer_mode n with
  | SmConnected =>
      syncer_result n (n_store n)
        ('(w, continue) ← connected_step time_checked_sub (node_syncer n) {| env_now := λ _, t; env_peers := peers |} ev;
         if continue : bool then Ok (w, SmConnected) else
         match ev with
         | CeCancelled => Ok (leave_connected w, SmStopped)
         | _ => _ ← report (leave_connected w); Ok (leave_connected w, SmConnecting false)
         end)
        (batch_since t n ev)
  | _ => Ok n
  end.

(** ** Steps of the sampling worker *)

Definition daser_result (n : Node S B) (dropped : Daser.Daser S)
    (r : res DaserError (Daser.Daser S * DaserMode)) (since : Z → Z) : res unit (Node S B) :=
  match r with
  | Ok (d, mode) => Ok (with_daser n d mode since)
  | Err e => Ok (with_fatal (with_daser n (daser_reset dropped) DmStopped since) (NeDaser e))
  | Panic => Panic
  end.

(** [connecting_event_loop] waits for peers; the connected loop starts with [populate_queue]. *)
Definition daser_enter (n : Node S B) (cancelled : bool) (peers : Z) : res unit (Node S B) :=
  match n_daser_mode n with
  | DmConnecting =>
      daser_result n (node_daser n)
        (if cancelled then Ok (node_daser n, DmStopped) else
         if peers =? 0 then Ok (node_daser n, DmConnecting) else
         d ← populate_queue (node_daser n); Ok (d, DmConnected))
        (n_sampled_since n)
  | _ => Ok n
  end.

(** The scheduling at the head of the loop. *)
Definition daser_schedule (fuel : nat) (env : DaserEnv) (d : Daser.Daser S)
    : option (res DaserError (Daser.Daser S)) :=
  match schedule_new_head duration_since fuel env d with
  | Some (Ok d) => schedule_if_idle duration_since fuel env d
  | r => r
  end.

Definition sampled_since (t : Z) (n : Node S B) (h : Z) : Z :=
  if bool_decide (h ∈ sf_height <$> d_sampling_futs (n_daser n)) then n_sampled_since n h else t.

(** One iteration of the connected loop; two rounds of the search for a header are enough.
    [None]: the random draws do not suffice. *)
Definition daser_connected_step (t : Z) (n : Node S B) (draws1 draws2 : list (Z * Z)) (ev : DaserEvent)
    : option (res unit (Node S B)) :=
  match n_daser_mode n with
  | DmConnected =>
      match daser_schedule 2 {| de_now := t; de_draws1 := draws1; de_draws2 := draws2 |} (node_daser n) with
      | None => None
      | Some (Ok d) =>
          Some (daser_result n d
            ('(d, continue) ← on_event d ev;
             Ok (if continue : bool then (d, DmConnected)
                 else (daser_reset d, match ev with DeCancelled => DmStopped | _ => DmConnecting end)))
            (sampled_since t n))
      | Some (Err e) => Some (daser_result n (node_daser n) (Err e) (n_sampled_since n))
      | Some Panic => Some Panic
      end
  | _ => Some (Ok n)
  end.

(** ** Steps of the pruner *)

(** The two halves of the body of the [while] loop. *)
Definition prune_blocks (s : S) (b : B) (header : ExtendedHeader) : res PrunerError unit * B :=
  match st_get_sampling_metadata s (eh_height header) with
  | Panic => (Panic, b)
  | Err e => (Err (PrStore e), b)
  | Ok metadata => remove_cids bs_remove b (default [] (cids <$> metadata))
  end.
Definition prune_last (s : S) (header : ExtendedHeader) : res PrunerError unit * S :=
  match st_remove_last s with
  | (Ok removed_height, s) =>
      (if eh_height header =? removed_height then Ok tt else Err WrongHeightRemoved, s)
  | (Err e, s) => (Err (PrStore e), s)
  | (Panic, s) => (Panic, s)
  end.

Definition pruner_result (n : Node S B) (s : S) (b : B) (r : res PrunerError PrunerMode) (removed : option Z)
    : res unit (Node S B) :=
  match r with
  | Ok mode => Ok (with_pruner n s b mode removed)
  | Err e => Ok (with_fatal (with_pruner n s b PmStopped (n_last_removed n)) (NePruner e))
  | Panic => Panic
  end.

(** After the [while] loop: what was removed is reported, then the pruner sleeps unless it is
    cancelled. *)
Definition pruner_report (n : Node S B) (mode : PrunerMode) : res unit (Node S B) :=
  let n := with_pruner n (n_store n) (n_blockstore n) mode (n_last_removed n) in
  if bool_decide (n_last_reported n ≠ n_last_removed n) then
    height ← expect (n_last_removed n); Ok (with_report n height)
  else Ok n.

Definition pruner_step (t : Z) (n : Node S B) (st : NodeStep S) : res unit (Node S B) :=
  match st, n_pruner_mode n with
  | StPrunerWake, PmSleeping =>
      Ok (with_pruner n (n_store n) (n_blockstore n)
            (PmPruning (default 0 (time_checked_sub t (n_pruning_window n)))) (n_last_removed n))
  | StPrunerTail cancelled, PmPruning cutoff =>
      match get_tail_header_to_prune (n_store n) cutoff with
      | Ok None => pruner_report n PmSleeping
      | Ok (Some header) =>
          if cancelled then pruner_report n PmStopped
          else Ok (with_pruner n (n_store n) (n_blockstore n) (PmTail cutoff header) (n_last_removed n))
      | Err e => pruner_result n (n_store n) (n_blockstore n) (Err e) (n_last_removed n)
      | Panic => Panic
      end
  | StPrunerBlocks, PmTail cutoff header =>
      let '(r, b) := prune_blocks (n_store n) (n_blockstore n) header in
      pruner_result n (n_store n) b (_ ← r; Ok (PmCleared cutoff header)) (n_last_removed n)
  | StPrunerRemove, PmCleared cutoff header =>
      let '(r, s) := prune_last (n_store n) header in
      pruner_result n s (n_blockstore n) (_ ← r; Ok (PmPruning cutoff)) (Some (eh_height header))
  | StPrunerCancelled, PmSleeping =>
      Ok (with_pruner n (n_store n) (n_blockstore n) PmStopped (n_last_removed n))
  | _, _ => Ok n
  end.

(** ** The node *)

Definition node_step (t : Z) (n : Node S B) (st : NodeStep S) : option (res unit (Node S B)) :=
  match st with
  | StSyncerConnecting ev => Some (syncer_connecting t n ev)
  | StSyncerEnter cancelled peers => Some (syncer_enter t n cancelled peers)
  | StSyncer peers ev => Some (syncer_connected t n peers ev)
  | StDaserEnter cancelled peers => Some (daser_enter n cancelled peers)
  | StDaser draws1 draws2 ev => daser_connected_step t n draws1 draws2 ev
  | _ => Some (pruner_step t n st)
  end.

Fixpoint node_run (n : Node S B) (steps : list (Z * NodeStep S)) : option (res unit (Node S B)) :=
  match steps with
  | [] => Some (Ok n)
  | (t, st) :: steps =>
      match node_step t n st with
      | Some (Ok n) => node_run n steps
      | r => r
      end
  end.

(** The two halves are the body of the loop of Pruner.v. *)
Lemma prune_header_halves other s b header :
  prune_header bs_remove other s b header =
  match prune_blocks s b header with
  | (Ok _, b) => let '(r, s) := prune_last (other s) header in (r, (s, b))
  | (r, b) => (r, (s, b))
  end.
Proof.
  unfold prune_header, prune_blocks, prune_last.
  destruct (st_get_sampling_metadata s (eh_height header)) as [md|e|]; [|done..].
  destruct (remove_cids bs_remove b (default [] (cids <$> md))) as [[[]|e|] b']; [|done..].
  by destruct (st_remove_last (other s)) as [[h|e|] s'].
Qed.
End Node.

(** ** Lemmas *)

Section NodeLemmas.
Context `{!Tendermint} `{!DahExternals} {S B : Type} `{!Store S}.
Context (valid : ExtendedHeader → Prop) `{!ValidHeaders valid} `{!StoreSpec S valid}.
Context (valid_width : ∀ e, valid e → ∃ w, square_width (eh_dah e) = Ok w ∧ 0 ≤ w).
(** Blocks are younger than the unix epoch. *)
Context (valid_time : ∀ e, valid e → 0 < eh_time e).
Context `{!CidExternals} `{!CidExternalsSpec}.
Context (time_checked_sub duration_since : Z → Z → option Z).
(** [Time::checked_sub] and [Time::duration_since] of tendermint: the former fails only when the
    result would be far before the epoch. *)
Context (time_checked_sub_spec : ∀ t d, 0 ≤ d →
  match time_checked_sub t d with Some x => x = t - d | None => t - d < 0 end).
Context (duration_since_spec : ∀ now time age, duration_since now time = Some age → age = now - time).
Context (bs_remove : B → Cid → option B).
(** The window of sampling and syncing, and how long a job may take. *)
Context (window delay : Z).

(** A store holds one map. *)
Lemma store_rep_unique s m1 m2 : store_rep s m1 → store_rep s m2 → m1 = m2.
Proof.
  intros Hr1 Hr2. apply map_eq. intros h. pose proof (spec_get_by_height s m1 h Hr1) as E1.
  rewrite (spec_get_by_height s m2 h Hr2) in E1. by destruct (m1 !! h), (m2 !! h); simplify_eq/=.
Qed.

(** What a cutoff of the pruner at time [t] means for headers: they are older than the window by
    more than a job may take. *)
Definition cutoff_ok (t c : Z) : Prop := ∀ x, 0 < x ≤ c → x ≤ t - window - delay.

(** An ongoing batch that was started at [t0]: it ends below a header that was in the window, or
    it is above everything stored, or its first height was filled meanwhile. *)
Definition batch_safe (m : gmap Z ExtendedHeader) (t0 : Z) (r : BlockRange) : Prop :=
  (∃ e, m !! (br_end r + 1) = Some e ∧ t0 - window < eh_time e) ∨
  (∀ k, is_Some (m !! k) → k < br_start r) ∨
  ∃ e, m !! br_start r = Some e ∧ t0 - window < eh_time e.

(** The header the pruner is about to remove. *)
Definition about_to_prune (t : Z) (m : gmap Z ExtendedHeader) (c : Z) (e : ExtendedHeader) : Prop :=
  cutoff_ok t c ∧ is_tail m (eh_height e) ∧ m !! eh_height e = Some e ∧ eh_time e ≤ c.

Definition pruner_safe (t : Z) (m : gmap Z ExtendedHeader) (p : PrunerMode) : Prop :=
  match p with
  | PmPruning c => cutoff_ok t c
  | PmTail c e | PmCleared c e => about_to_prune t m c e
  | _ => True
  end.

(** Errors that come from outside: the p2p layer, and the blockstore for the pruner. *)
Definition outside_only (e : NodeError) : Prop :=
  match e with
  | NeSyncer e => syncer_error_is_fatal e = true ∧ ∃ e', e = SynP2p e'
  | NeDaser e => ∃ e', e = DaP2p e' ∧ e' ≠ BitswapQueryTimeout
  | NePruner e => e = PrBlockstore
  end.

Record node_inv (t : Z) (n : Node S B) (m : gmap Z ExtendedHeader) : Prop := {
  ni_syncer : worker_inv valid (node_syncer n) m;
  ni_mode : match n_syncer_mode n with
            | SmConnected => w_header_sub (n_syncer n) = true
            | SmEntering => w_header_sub (n_syncer n) = true ∧ w_task (n_syncer n) = None
            | _ => w_task (n_syncer n) = None
            end;
  ni_window : w_syncing_window (n_syncer n) = window;
  ni_since : w_task (n_syncer n) ≠ None → n_batch_since n ≤ t;
  ni_batch : ∀ r, w_task (n_syncer n) = Some r → batch_safe m (n_batch_since n) r;
  ni_daser : daser_inv valid (node_daser n) m;
  ni_dwindow : d_sampling_window (n_daser n) = window;
  ni_dmax : d_max_samples_needed (n_daser n) = MAX_SAMPLES_NEEDED;
  ni_futs : ∀ h, h ∈ sf_height <$> d_sampling_futs (n_daser n) →
    ∃ e, m !! h = Some e ∧ n_sampled_since n h - window ≤ eh_time e;
  ni_pruner : pruner_safe t m (n_pruner_mode n);
  ni_pwindow : n_pruning_window n = duration_saturating_add window delay;
  ni_reported : n_last_removed n = None → n_last_reported n = None;
  ni_fatal : Forall outside_only (n_fatal n)
}.

(** What is under way was started less than [delay] ago. *)
Definition prompt (t : Z) (n : Node S B) : Prop :=
  (w_task (n_syncer n) ≠ None → t < n_batch_since n + delay) ∧
  ∀ h, h ∈ sf_height <$> d_sampling_futs (n_daser n) → t < n_sampled_since n h + delay.

Lemma node_store_rep t n m : node_inv t n m → store_rep (n_store n) m.
Proof. intros Hn. exact (winv_store _ _ _ (ni_syncer _ _ _ Hn)). Qed.

(** ** Lemmas: time *)

Lemma cutoff_ok_mono t t' c : t ≤ t' → cutoff_ok t c → cutoff_ok t' c.
Proof. intros Hle Hc x Hx. specialize (Hc x Hx). lia. Qed.

Lemma pruner_safe_mono t t' m p : t ≤ t' → pruner_safe t m p → pruner_safe t' m p.
Proof.
  intros Hle. unfold pruner_safe, about_to_prune. destruct p; try done; [by apply cutoff_ok_mono|..];
    (intros (?&?); split; [by eapply cutoff_ok_mono|done]).
Qed.

Lemma node_inv_mono t t' n m : t ≤ t' → node_inv t n m → node_inv t' n m.
Proof.
  intros Hle [? ? ? Hs ? ? ? ? ? ? ? ? ?]. constructor; try done.
  - intros Hw. specialize (Hs Hw). lia.
  - by eapply pruner_safe_mono.
Qed.

(** The cutoff of a pass, with a pruning window from the builder. *)
Lemma cutoff_ok_now t : 0 ≤ window → 0 ≤ delay → t < DURATION_MAX →
  cutoff_ok t (default 0 (time_checked_sub t (duration_saturating_add window delay))).
Proof.
  intros Hw Hd Ht x Hx. unfold duration_saturating_add in *.
  pose proof (time_checked_sub_spec t (Z.min DURATION_MAX (window + delay))) as Hs.
  destruct (time_checked_sub t _) as [c|]; cbn in Hx; [|lia].
  assert (0 ≤ DURATION_MAX) by (unfold DURATION_MAX, u64_max, NANOS; lia). specialize (Hs ltac:(lia)). lia.
Qed.

Lemma in_window_syncing t (w : Worker S) e : 0 ≤ window → w_syncing_window w = window →
  in_syncing_window time_checked_sub t w e = true → valid e → t - window < eh_time e.
Proof.
  intros Hw Hww Hin Hv. unfold in_syncing_window in Hin. rewrite Hww in Hin.
  pose proof (time_checked_sub_spec t window Hw) as Hs. pose proof (valid_time e Hv).
  destruct (time_checked_sub t window) as [c|]; cbn in Hin; lia.
Qed.

Lemma in_window_sampling t (d : Daser.Daser S) e : d_sampling_window d = window → 0 ≤ window →
  in_sampling_window duration_since t d (eh_time e) = true → t - window ≤ eh_time e.
Proof.
  intros Hw Hnn Hin. unfold in_sampling_window in Hin. rewrite Hw in Hin.
  destruct (Z.ltb_spec t (eh_time e)); [lia|].
  destruct (duration_since t (eh_time e)) as [age|] eqn:Ha; [|done]. apply duration_since_spec in Ha. lia.
Qed.

(** ** Lemmas: what the syncer inserts stays above the header that is being pruned *)

(** A change of the map that keeps what is there and adds only above the tail [h]. *)
Definition adds_above (h : Z) (m m' : gmap Z ExtendedHeader) : Prop :=
  m ⊆ m' ∧ ∀ k, is_Some (m' !! k) → is_Some (m !! k) ∨ h < k.

Lemma adds_above_tail t m m' c e : about_to_prune t m c e → adds_above (eh_height e) m m' →
  about_to_prune t m' c e.
Proof.
  intros (Hc&Ht&He&Hle) [Hsub Habove]. split; [done|]. rewrite map_subseteq_spec in Hsub.
  split; [|split; [by apply Hsub|done]]. split; [eexists; by apply Hsub|].
  intros k [Hk|Hk]%Habove; [by apply Ht|lia].
Qed.

Lemma insert_all_dom (m : gmap Z ExtendedHeader) l k :
  is_Some (insert_all m l !! k) → is_Some (m !! k) ∨ k ∈ eh_height <$> l.
Proof.
  unfold insert_all. revert m; induction l as [|e l IH]; intros m; cbn [foldl fmap list_fmap]; [by left|].
  intros [Hk|Hk]%IH; [|right; by right]. destruct (decide (eh_height e = k)) as [<-|Hne]; [right; left|].
  rewrite lookup_insert_ne in Hk by done. by left.
Qed.

Lemma heights_of_elem r k : range_valid r → k ∈ heights_of r ↔ br_start r ≤ k ≤ br_end r.
Proof.
  intros (?&?&?). unfold heights_of, range_size. rewrite elem_of_seqZ. lia.
Qed.

Lemma batch_above t m c e r t0 l : about_to_prune t m c e → valid e → t < t0 + delay → batch_safe m t0 r →
  range_valid r → insertable m l → eh_height <$> l = heights_of r →
  adds_above (eh_height e) m (insert_all m l).
Proof.
  intros (Hc&[_ Hmin]&He&Hle) Hv Ht Hb Hr Hi Hl. specialize (Hc (eh_time e)). pose proof (valid_time e Hv).
  split; [by apply insertable_subseteq|].
  assert (∀ k, br_start r ≤ k ≤ br_end r → m !! k = None) as Hfree.
  { intros k Hk. apply (heights_of_elem r k Hr) in Hk. rewrite <-Hl in Hk.
    apply list_elem_of_fmap in Hk as (x&->&Hx). destruct Hi as [_ Hf]. rewrite Forall_forall in Hf. by apply Hf. }
  assert (eh_height e < br_start r) as Hlt.
  { assert (¬ br_start r ≤ eh_height e ≤ br_end r) as Hno by (intros ?%Hfree; congruence).
    destruct Hb as [(x&Hx&Htx)|[Hup|(x&Hx&_)]].
    - assert (eh_height e ≤ br_end r + 1) by (apply Hmin; eauto).
      assert (eh_height e ≠ br_end r + 1); [|lia]. intros Heq. rewrite <-Heq, He in Hx. injection Hx as <-. lia.
    - apply Hup. eauto.
    - destruct Hr as (?&?&?). rewrite Hfree in Hx by lia. done. }
  intros k [Hk|Hk]%insert_all_dom; [by left|right]. rewrite Hl in Hk. apply heights_of_elem in Hk; [lia|done].
Qed.

Lemma head_above t m c e x : about_to_prune t m c e → is_head m (eh_height x - 1) →
  m ⊆ insert_all m [x] → adds_above (eh_height e) m (insert_all m [x]).
Proof.
  intros (_&_&He&_) [_ Hmax] Hsub. split; [done|].
  assert (eh_height e ≤ eh_height x - 1) by (apply Hmax; eauto).
  intros k [Hk| ->%list_elem_of_singleton]%insert_all_dom; [by left|right; lia].
Qed.

(** The head of the network, when it is recent. *)
Lemma init_above t m c e x : about_to_prune t m c e → valid e → 0 ≤ delay → t - window < eh_time x →
  insertable m [x] → store_ok valid (insert_all m [x]) → adds_above (eh_height e) m (insert_all m [x]).
Proof.
  intros (Hc&[_ Hmin]&He&Hle) Hv Hd Hx Hi [_ Hlinks]. specialize (Hc (eh_time e)). pose proof (valid_time e Hv).
  split; [by apply insertable_subseteq|].
  destruct Hi as [[_ Hanch] Hfree]. rewrite Forall_singleton in Hfree. cbn [length] in Hanch. rewrite Z.add_0_r in Hanch.
  assert (eh_height e < eh_height x) as Hlt.
  { assert (eh_height e ≠ eh_height x) by congruence.
    destruct Hanch as [Hup|[Hp|Hn]]; [apply Hup; eauto|apply Hmin in Hp; lia|].
    assert (eh_height e ≤ eh_height x + 1) by (by apply Hmin).
    destruct (decide (eh_height e = eh_height x + 1)) as [Heq|]; [exfalso|lia].
    destruct (Hlinks (eh_height x) x e) as (_&_&_&_&Ht&_); cbn.
    - by rewrite lookup_insert_eq.
    - by rewrite <-Heq, lookup_insert_ne.
    - lia. }
  intros k [Hk| ->%list_elem_of_singleton]%insert_all_dom; [by left|by right].
Qed.

(** ** Lemmas: the steps of the syncer *)

Lemma set_store_same (w : Worker S) : set_store w (w_store w) = w.
Proof. by destruct w. Qed.

(** A new state of the syncer, with a store that only grew above what is being pruned. *)
Lemma node_inv_syncer t n m w m' mode since : node_inv t n m → worker_inv valid w m' → m ⊆ m' →
  match mode with
  | SmConnected => w_header_sub w = true
  | SmEntering => w_header_sub w = true ∧ w_task w = None
  | _ => w_task w = None
  end →
  w_syncing_window w = window → (w_task w ≠ None → since ≤ t) →
  (∀ r, w_task w = Some r → batch_safe m' since r) →
  (∀ c e, about_to_prune t m c e → adds_above (eh_height e) m m') →
  node_inv t (with_syncer n w mode since) m'.
Proof.
  intros Hn Hw Hsub Hmode Hwin Hsince Hb Hp. destruct Hn. constructor; try done.
  - unfold node_syncer. cbn. by rewrite set_store_same.
  - apply (daser_inv_store valid (node_daser n) m m'); [done|]. apply (winv_store _ _ _ Hw).
  - cbn. intros h Hh. destruct (ni_futs0 h Hh) as (e&He&Ht). exists e. split; [|done].
    by eapply map_subseteq_spec.
  - cbn. unfold pruner_safe in *. destruct (n_pruner_mode n); try done; by eapply adds_above_tail; [|apply (Hp cutoff)].
Qed.

Lemma node_inv_fatal t n m e : node_inv t n m → outside_only e → node_inv t (with_fatal n e) m.
Proof. intros Hn He. destruct Hn. constructor; try done. cbn. apply Forall_app. by split; [|constructor]. Qed.

Lemma no_change m h : adds_above h m m.
Proof. split; [done|]. intros k Hk. by left. Qed.

(** What a round of initialization does to the store. *)
Lemma try_init_effect now s m nh : store_rep s m → clock_ok now → (∀ e, nh = Ok e → valid e) →
  ∃ m', store_rep (try_init now s nh).2 m' ∧
    (m' = m ∨ ∃ x, nh = Ok x ∧ insertable m [x] ∧ m' = insert_all m [x]).
Proof.
  intros Hrep Hclock Hv. unfold try_init. destruct nh as [x|e|]; [|by exists m; auto..].
  assert (∃ m', store_rep (st_insert now s [x]).2 m' ∧ (m' = m ∨ ∃ y, Ok (E := P2pError) x = Ok y ∧
    insertable m [y] ∧ m' = insert_all m [y])) as (m'&Hrep'&Hm').
  { destruct (spec_insert s m now [x] Hrep) as [(_&Hi&Hr)|(_&Hr&_)]; [by constructor; [apply Hv|]|done|..].
    - exists (insert_all m [x]). split; [done|]. right. by exists x.
    - exists m. auto. }
  destruct (st_insert now s [x]) as [r s']. cbn in Hrep'.
  destruct (st_get_head s) as [h|[]|]; try (by exists m; auto); [case_bool_decide|]; try (by exists m; auto);
    destruct r; by exists m'.
Qed.

Definition init_store (now : nat → Z) (s : S) (ev : ConnectingEvent) : S :=
  match ev with CnTryInit (Ok _) nh _ => (try_init now s nh).2 | _ => s end.

Lemma connecting_store (w : Worker S) b env ev w' b' k : connecting_step w b env ev = Ok (w', b', k) →
  w_store w' = init_store (env_now env) (w_store w) ev ∧ w_syncing_window w' = w_syncing_window w.
Proof.
  assert (∀ (w0 : Worker S) h, w_store (set_subjective_head_height w0 h) = w_store w0 ∧
    w_syncing_window (set_subjective_head_height w0 h) = w_syncing_window w0) as Hset.
  { intros w0 h. unfold set_subjective_head_height. by repeat case_match. }
  unfold connecting_step, try_init_round, init_store. destruct ev as [| |[[]|e|] nh init|].
  - by intros [= <- _ _].
  - intros Hs. apply bind_Ok in Hs as (?&_&Hs). by injection Hs as <- _ _.
  - set (w1 := if b then w else send_event w FetchingHeadHeaderStarted).
    assert (w_store w1 = w_store w ∧ w_syncing_window w1 = w_syncing_window w) as [Hs1 Hw1] by (by subst w1; destruct b).
    rewrite Hs1. destruct (try_init (env_now env) (w_store w) nh) as [[x|e|] s]; cbn [snd]; [| |done].
    + cbv [mbind res_bind]. unfold on_initialized. destruct (map_err SynP2p init) as [[]|e|]; cbv [mbind res_bind]; [|done..].
      intros [= <- _ _]. cbn. destruct (Hset (set_store w1 s) (eh_height x)) as [-> ->]. by cbn.
    + cbv [mbind res_bind]. destruct (syncer_error_is_fatal e); [done|]. intros [= <- _ _]. by cbn.
  - cbv [mbind res_bind]. destruct (syncer_error_is_fatal (SynP2p e)); [done|]. by intros [= <- _ _].
  - done.
  - intros Hs. apply bind_Ok in Hs as (?&_&Hs). by injection Hs as <- _ _.
Qed.

(** Heads from the network are recent. *)
Definition fresh (t : Z) (e : ExtendedHeader) : Prop := t - window < eh_time e.

Lemma syncer_connecting_inv t n m ev : node_inv t n m → 0 ≤ delay →
  connecting_event_ok valid ({| env_now := λ _, t; env_peers := 0 |}, ev) →
  (∀ c x i, ev = CnTryInit c (Ok x) i → fresh t x) →
  ∃ n' m', syncer_connecting t n ev = Ok n' ∧ node_inv t n' m'.
Proof.
  intros Hn Hd Hev Hfresh. unfold syncer_connecting.
  destruct (n_syncer_mode n) as [b| | |] eqn:Hmode; [|by exists n, m..].
  pose proof (ni_mode _ _ _ Hn) as Htask. rewrite Hmode in Htask. pose proof (ni_syncer _ _ _ Hn) as Hw.
  pose proof (node_store_rep _ _ _ Hn) as Hrep.
  set (env := {| env_now := λ _, t; env_peers := 0 |}) in *.
  assert (∃ m', store_rep (init_store (λ _, t) (n_store n) ev) m' ∧ m ⊆ m' ∧
    ∀ c e, about_to_prune t m c e → adds_above (eh_height e) m m') as (m'&Hrep'&Hsub&Habove).
  { unfold init_store. destruct ev as [| |[[]|e|] nh i|]; try (exists m; split_and!; [done|done|intros; apply no_change]).
    destruct Hev as (Hclock&_&_&Hv). cbn in Hclock, Hv.
    destruct (try_init_effect (λ _, t) (n_store n) m nh Hrep Hclock) as (m'&Hr&Hm'); [by intros e ->; apply Hv|].
    exists m'. split; [done|]. destruct Hm' as [->|(x&->&Hi&->)]; [split; [done|intros; apply no_change]|].
    split; [by apply insertable_subseteq|]. intros c e Hp.
    apply (init_above t m c e x); auto; [|by eapply Hfresh|apply (store_rep_ok _ _ Hr)].
    apply (proj1 (store_rep_ok _ _ Hrep) (eh_height e) e). by destruct Hp as (_&_&?&_). }
  pose proof (connecting_step_spec valid (node_syncer n) m b env ev Hw Htask Hev) as Hstep.
  destruct (connecting_step (node_syncer n) b env ev) as [[[w' b'] k]|e|] eqn:Hrun; [| |done]; cbv [mbind res_bind syncer_result].
  - destruct (connecting_store _ _ _ _ _ _ _ Hrun) as [Hst Hwin].
    destruct Hstep as ((m1&Hinv1&_)&Ht1&Hleft).
    assert (m1 = m') as ->.
    { apply (store_rep_unique (w_store w')); [apply (winv_store _ _ _ Hinv1)|]. by rewrite Hst. }
    eexists _, m'. split; [done|]. apply (node_inv_syncer t n m w' m'); try done.
    + destruct k; [done|]. destruct (Hleft eq_refl) as [->|Hs]; [done|]. by destruct ev.
    + rewrite Hwin. apply (ni_window _ _ _ Hn).
    + by rewrite Ht1.
  - eexists _, m'. split; [done|]. apply node_inv_fatal; [|done].
    change (store_after_try_init t n ev) with (init_store (λ _, t) (n_store n) ev).
    assert (worker_inv valid (set_store (n_syncer n) (init_store (λ _, t) (n_store n) ev)) m') as Hw'
      by (destruct Hw; by constructor).
    destruct (leave_connected_inv valid time_checked_sub _ _ Hw') as (Hinv'&_&Ht').
    apply (node_inv_syncer t n m _ m'); try done.
    + unfold leave_connected. destruct (w_ongoing _); apply (ni_window _ _ _ Hn).
    + by rewrite Ht'.
Qed.

Lemma started_safe t peers (w : Worker S) m r h : store_ok valid m → 0 ≤ window → w_syncing_window w = window →
  batch_started time_checked_sub t peers w m r h → batch_safe m t r.
Proof.
  intros Hok Hw Hww (_&_&_&_&_&_&_&Hanch&Hwin). destruct (m !! (br_end r + 1)) as [e|] eqn:He.
  - left. exists e. split; [done|]. apply (in_window_syncing t w); auto. by eapply Hok.
  - right. left. destruct Hanch as [(Hup&_)|[? ?]]; [done|congruence].
Qed.

(** [fetch_next_batch] leaves a batch alone or starts one that is safe. *)
Lemma fetch_safe t peers w m : worker_inv valid w m → 0 ≤ window → w_syncing_window w = window →
  ∃ w', fetch_next_batch time_checked_sub t peers w = Ok w' ∧ worker_inv valid w' m ∧
    w_header_sub w' = w_header_sub w ∧ w_syncing_window w' = window ∧
    (w_task w' = w_task w ∨ w_task w = None ∧ ∀ r, w_task w' = Some r → batch_safe m t r).
Proof.
  intros Hinv Hw Hww. destruct (fetch_next_batch_spec valid time_checked_sub t peers w m Hinv) as [[-> _]|(r&h&->&Hst)].
  - exists w. by split_and!; try left.
  - exists (start_batch w r). split; [done|]. split; [by eapply start_batch_inv|]. split_and!; [done|done|].
    right. split; [apply Hst|]. intros r' [= <-]. apply (started_safe t peers w m r h); auto.
    apply (store_rep_ok _ _ (winv_store _ _ _ Hinv)).
Qed.

Lemma header_batch_safe t t0 m r x : batch_safe m t0 r → is_head m (eh_height x - 1) → t0 ≤ t → fresh t x →
  m ⊆ insert_all m [x] → batch_safe (insert_all m [x]) t0 r.
Proof.
  intros Hb [Hhs Hmax] Hle Hf Hsub. rewrite map_subseteq_spec in Hsub.
  destruct Hb as [(e&He&Ht)|[Hup|(e&He&Ht)]]; [left; eauto| |right; right; eauto].
  assert (eh_height x - 1 < br_start r) by by apply Hup.
  destruct (decide (eh_height x = br_start r)) as [Heq|Hne].
  - right. right. exists x. cbn. rewrite Heq, lookup_insert_eq. unfold fresh in Hf. split; [done|lia].
  - right. left. intros k [Hk| ->%list_elem_of_singleton]%insert_all_dom; [by apply Hup|lia].
Qed.

Lemma header_sub_task now (w : Worker S) e w' : on_header_sub_message now w e = Ok w' →
  w_task w' = w_task w ∧ w_syncing_window w' = w_syncing_window w.
Proof.
  assert (w_task (set_subjective_head_height w (eh_height e)) = w_task w ∧
    w_syncing_window (set_subjective_head_height w (eh_height e)) = w_syncing_window w) as [Ht Hw].
  { unfold set_subjective_head_height. by repeat case_match. }
  unfold on_header_sub_message. set (w1 := set_subjective_head_height w (eh_height e)) in *. clearbody w1.
  destruct (st_head_height (w_store w1)) as [h|?|]; [|by intros [= <-]|done].
  intros Hr. apply bind_Ok in Hr as (nx&_&Hr). destruct (nx =? eh_height e); [|by injection Hr as <-].
  destruct (st_insert now (w_store w1) [e]) as [[[]|?|] s]; [|by injection Hr as <-|done].
  by injection Hr as <-.
Qed.

(** Events of a connected syncer, at time [t] in the worker [w]: heads are recent, and a batch is
    answered with the heights that were asked for. *)
Definition connected_event_ok (t : Z) (w : Worker S) (ev : ConnectedEvent) : Prop :=
  match ev with
  | CeHeaderSub (Some e) => valid e ∧ 0 < eh_height e ∧ fresh t e
  | CeBatch (Ok l) => Forall valid l ∧ ∀ r, w_task w = Some r → eh_height <$> l = heights_of r
  | CeBatch Panic => False
  | _ => True
  end.

Definition since_of (t t0 : Z) (ev : ConnectedEvent) (task : option BlockRange) : Z :=
  match ev, task with CeBatch _, _ | _, None => t | _, Some _ => t0 end.

Lemma connected_effect t t0 w m peers ev : worker_inv valid w m → w_header_sub w = true → 0 ≤ window →
  w_syncing_window w = window → clock_ok (λ _, t) → (w_task w ≠ None → t0 ≤ t < t0 + delay) →
  (∀ r, w_task w = Some r → batch_safe m t0 r) → connected_event_ok t w ev →
  match connected_step time_checked_sub w {| env_now := λ _, t; env_peers := peers |} ev with
  | Ok (w', _) => ∃ m', worker_inv valid w' m' ∧ m ⊆ m' ∧ w_header_sub w' = true ∧ w_syncing_window w' = window ∧
      (∀ c e, about_to_prune t m c e → adds_above (eh_height e) m m') ∧
      (∀ r, w_task w' = Some r → batch_safe m' (since_of t t0 ev (w_task w)) r)
  | Err e => outside_only (NeSyncer e)
  | Panic => False
  end.
Proof.
  intros Hinv Hsub Hw Hww Hclock Hprompt Hb Hev.
  pose proof (store_rep_ok _ _ (winv_store _ _ _ Hinv)) as Hok.
  destruct (stored_ranges_spec valid _ _ (winv_store _ _ _ Hinv)) as (rs&Hrs&_).
  assert (match ev with CeBatch _ => False | _ => True end → ∃ m', worker_inv valid w m' ∧ m ⊆ m' ∧ w_header_sub w = true ∧
      w_syncing_window w = window ∧ (∀ c e, about_to_prune t m c e → adds_above (eh_height e) m m') ∧
      (∀ r, w_task w = Some r → batch_safe m' (since_of t t0 ev (w_task w)) r)) as Hsame.
  { intros Hnb. exists m. split_and!; try done; [intros; apply no_change|]. intros r Hr. rewrite Hr. destruct ev; try done; by apply Hb. }
  unfold connected_step, report, syncing_info.
  destruct ev as [| | |[x|]| |r]; [by apply Hsame|by apply Hsame|rewrite Hrs; by apply Hsame| | |rewrite Hrs; by apply Hsame|].
  - rewrite Hsub. cbn [expect ok_or]. cbv [mbind res_bind]. destruct Hev as (Hv&Hpos&Hf).
    destruct (on_header_sub_inv valid (λ _, t) w m x Hinv Hclock Hv Hpos) as (w1&m1&Hrun&Hinv1&Hm&_&_&Hs1&Hm1).
    cbn [env_now env_peers]. rewrite Hrun. destruct (header_sub_task _ _ _ _ Hrun) as [Ht1 Hw1].
    destruct (fetch_safe t peers w1 m1 Hinv1 Hw ltac:(congruence)) as (w2&->&Hinv2&Hs2&Hw2&Ht2).
    exists m1. split_and!; [done|done|congruence|done| |].
    + intros c e Hp. destruct Hm1 as [->|[Hh ->]]; [apply no_change|by eapply head_above].
    + intros r Hr. cbn. destruct Ht2 as [Ht2|[Hnone Hst]].
      * rewrite Ht2, Ht1 in Hr. rewrite Hr. rewrite Hr in Hprompt. specialize (Hprompt ltac:(done)).
        destruct Hm1 as [->|[Hh ->]]; [by apply Hb|]. eapply header_batch_safe; [by apply Hb|done|apply Hprompt|done|done].
      * rewrite <-Ht1, Hnone. by apply Hst.
  - rewrite Hsub. cbn [expect ok_or]. cbv [mbind res_bind]. cbn. eauto.
  - destruct (w_task w) as [r0|] eqn:Htask.
    2:{ exists m. split_and!; try done; [intros; apply no_change|]. by rewrite Htask. }
    assert (match r with Ok l => Forall valid l | Err _ => True | Panic => False end) as Hval
      by (destruct r; [apply Hev|done|done]).
    pose proof (on_result_inv valid time_checked_sub (λ _, t) w m r0 r Hinv Hclock Htask Hval) as Hres.
    cbn [env_now env_peers].
    destruct (on_fetch_next_batch_result (λ _, t) w r) as [w1|e|]; cbv [mbind res_bind]; [| |done].
    2:{ destruct Hres as (e'&_&->&Hfatal). split; [done|by eexists]. }
    destruct Hres as (m1&Hinv1&Hm&Ht1&_&Hs1&_&Hw1&Hm1).
    destruct (fetch_safe t peers w1 m1 Hinv1 Hw ltac:(congruence)) as (w2&->&Hinv2&Hs2&Hw2&Ht2).
    exists m1. split_and!; [done|done|congruence|done| |].
    + intros c e Hp. destruct r as [l|e'|]; [|subst m1; apply no_change|done].
      destruct Hm1 as [[Hi ->]|[-> _]]; [|apply no_change]. destruct Hev as [_ Hl].
      apply (batch_above t m c e r0 t0 l); auto; [| |by apply (winv_range _ _ _ Hinv r0)].
      * destruct Hp as (_&_&He&_). by eapply Hok.
      * apply Hprompt. done.
    + intros r' Hr'. destruct Ht2 as [Ht2|[_ Hst]]; [congruence|]. by apply Hst.
Qed.

Lemma syncer_enter_inv t n m cancelled peers : node_inv t n m → 0 ≤ window →
  ∃ n' m', syncer_enter time_checked_sub t n cancelled peers = Ok n' ∧ node_inv t n' m'.
Proof.
  intros Hn Hw. unfold syncer_enter. destruct (n_syncer_mode n) eqn:Hmode; try by exists n, m.
  pose proof (ni_mode _ _ _ Hn) as Hm. rewrite Hmode in Hm. destruct Hm as [Hsub Htask].
  pose proof (ni_syncer _ _ _ Hn) as Hinv. pose proof (ni_window _ _ _ Hn) as Hwin.
  destruct (stored_ranges_spec valid _ _ (winv_store _ _ _ Hinv)) as (rs&Hrs&_).
  assert (∀ b, node_inv t (with_syncer n (node_syncer n) (SmConnecting b) t) m ∧
    node_inv t (with_syncer n (node_syncer n) SmStopped t) m) as Hidle.
  { intros b. split; apply (node_inv_syncer t n m (node_syncer n) m); try done; try (intros; apply no_change); cbn; by rewrite Htask. }
  destruct cancelled; [eexists _, m; split; [done|]; by apply (Hidle false)|].
  destruct (peers =? 0).
  { unfold report, syncing_info. rewrite Hrs. eexists _, m. split; [done|]. by apply Hidle. }
  destruct (fetch_safe t peers (node_syncer n) m Hinv Hw Hwin) as (w&->&Hinv'&Hs'&Hw'&Ht').
  destruct (stored_ranges_spec valid _ _ (winv_store _ _ _ Hinv')) as (rs'&Hrs'&_).
  cbv [mbind res_bind]. unfold report, syncing_info. rewrite Hrs'. eexists _, m. split; [done|].
  apply (node_inv_syncer t n m w m); try done; [by rewrite Hs'| |intros; apply no_change].
  intros r Hr. destruct Ht' as [Ht'|[_ Hst]]; [|by apply Hst]. rewrite Ht' in Hr. cbn in Hr. congruence.
Qed.

Lemma syncer_connected_inv t n m peers ev : node_inv t n m → 0 ≤ window → clock_ok (λ _, t) → prompt t n →
  connected_event_ok t (n_syncer n) ev →
  ∃ n' m', syncer_connected time_checked_sub t n peers ev = Ok n' ∧ node_inv t n' m'.
Proof.
  intros Hn Hw Hclock Hprompt Hev. unfold syncer_connected. destruct (n_syncer_mode n) eqn:Hmode; try by exists n, m.
  pose proof (ni_mode _ _ _ Hn) as Hsub. rewrite Hmode in Hsub.
  pose proof (connected_effect t (n_batch_since n) (node_syncer n) m peers ev (ni_syncer _ _ _ Hn) Hsub Hw
    (ni_window _ _ _ Hn) Hclock) as Hstep.
  specialize (Hstep ltac:(intros Ht; split; [by apply (ni_since _ _ _ Hn)|by apply Hprompt]) (ni_batch _ _ _ Hn) Hev).
  destruct (connected_step time_checked_sub (node_syncer n) {| env_now := λ _, t; env_peers := peers |} ev)
    as [[w' k]|e|]; [| |done]; cbv [mbind res_bind syncer_result].
  - destruct Hstep as (m'&Hinv'&Hm&Hs'&Hw'&Hab&Hb'). destruct (leave_connected_inv valid time_checked_sub _ _ Hinv') as (Hinv2&_&Ht2).
    destruct (stored_ranges_spec valid _ _ (winv_store _ _ _ Hinv2)) as (rs&Hrs&_).
    assert (w_syncing_window (leave_connected w') = window) as Hw2 by (unfold leave_connected; by destruct (w_ongoing w')).
    assert (∀ mode since, match mode with SmConnected | SmEntering => False | _ => True end →
      node_inv t (with_syncer n (leave_connected w') mode since) m') as Hleave.
    { intros mode since Hmd. apply (node_inv_syncer t n m _ m'); try done; try (by destruct mode); by rewrite Ht2. }
    destruct k.
    + eexists _, m'. split; [done|]. apply (node_inv_syncer t n m w' m'); try done.
      intros _. unfold batch_since. pose proof (ni_since _ _ _ Hn) as Hs. destruct ev, (w_task (n_syncer n)); try lia; by apply Hs.
    + destruct ev; unfold report, syncing_info; rewrite ?Hrs; eexists _, m'; (split; [done|]); by apply Hleave.
  - eexists _, m. split; [done|]. apply node_inv_fatal; [|done].
    pose proof (ni_syncer _ _ _ Hn) as Hinv. destruct (leave_connected_inv valid time_checked_sub _ _ Hinv) as (Hinv2&_&Ht2).
    apply (node_inv_syncer t n m (leave_connected (node_syncer n)) m); try done; try (by rewrite Ht2); [|intros; apply no_change].
    unfold leave_connected. destruct (w_ongoing _); apply (ni_window _ _ _ Hn).
Qed.

(** ** Lemmas: the steps of the sampling worker *)

Lemma node_inv_daser t n m d mode since : node_inv t n m → daser_inv valid d m →
  d_sampling_window d = window → d_max_samples_needed d = MAX_SAMPLES_NEEDED →
  (∀ h, h ∈ sf_height <$> d_sampling_futs d → ∃ e, m !! h = Some e ∧ since h - window ≤ eh_time e) →
  node_inv t (with_daser n d mode since) m.
Proof.
  intros Hn Hd Hwin Hmax Hfuts. destruct Hn. constructor; try done.
  - destruct ni_syncer0. constructor; try done. apply (di_store _ _ _ Hd).
  - unfold node_daser. cbn. by destruct d.
Qed.

Lemma populate_queue_window (d d' : Daser.Daser S) : populate_queue d = Ok d' → d_sampling_window d' = d_sampling_window d.
Proof.
  unfold populate_queue. intros Hr. do 5 (apply bind_Ok in Hr as (?&_&Hr)). by injection Hr as <-.
Qed.

Lemma next_header_window fuel (d d' : Daser.Daser S) x : next_header fuel d = Some (Ok (x, d')) →
  d_sampling_window d' = d_sampling_window d.
Proof.
  revert d; induction fuel as [|fuel IH]; intros d; [done|]. cbn [next_header].
  destruct (expect_ok (pop_head (d_queue d))) as [[[h|] q]|e|]; [|by intros [= _ <-]|done..].
  destruct (st_get_by_height _ h) as [hd|[]|]; try done; [by intros [= _ <-]|].
  destruct (populate_queue _) as [d1|e|] eqn:Hp; [|done..]. intros Hr%IH. by rewrite Hr, (populate_queue_window _ _ Hp).
Qed.

Lemma schedule_window fuel now draws (d d' : Daser.Daser S) :
  schedule_next_sample_block duration_since fuel now draws d = Some (Ok d') → d_sampling_window d' = d_sampling_window d.
Proof.
  unfold schedule_next_sample_block. destruct (next_header fuel d) as [[[[e|] d1]|?|]|] eqn:Hn; try done;
    [|intros [= <-]; by eapply next_header_window].
  rewrite <-(next_header_window _ _ _ _ Hn). unfold schedule_header.
  destruct (expect_ok (square_width (eh_dah e))) as [w|?|]; [|done..]. destruct (in_sampling_window _ _ _ _); cbn [negb].
  - destruct (random_indexes _ _ _); [|done]. intros [= Hr]. apply bind_Ok in Hr as (cids&_&Hr).
    destruct (st_update_sampling_metadata _ _ _ _) as [r store]. apply bind_Ok in Hr as (?&_&Hr).
    apply bind_Ok in Hr as (?&_&Hr). by injection Hr as <-.
  - intros [= Hr]. do 2 (apply bind_Ok in Hr as (?&_&Hr)). by injection Hr as <-.
Qed.

(** What becomes of the heights that are being sampled: new ones are stored and in the window. *)
Definition new_in_window (t : Z) (m : gmap Z ExtendedHeader) (d d' : Daser.Daser S) : Prop :=
  ∀ h, h ∈ sf_height <$> d_sampling_futs d' →
    h ∈ sf_height <$> d_sampling_futs d ∨ ∃ e, m !! h = Some e ∧ t - window ≤ eh_time e.

(** The state of a sampling worker as scheduling needs it. *)
Definition daser_ready (d : Daser.Daser S) (m : gmap Z ExtendedHeader) : Prop :=
  daser_inv valid d m ∧ d_max_samples_needed d = MAX_SAMPLES_NEEDED ∧ d_sampling_window d = window.

Lemma schedule_safe t draws d m : daser_ready d m → 0 ≤ window → draws_ok draws MAX_SAMPLES_NEEDED →
  ∃ d', schedule_next_sample_block duration_since 2 t draws d = Some (Ok d') ∧ daser_ready d' m ∧ new_in_window t m d d'.
Proof.
  intros (Hinv&Hmax&Hwin) Hw Hdraws.
  destruct (schedule_next_spec valid valid_width duration_since 2 t draws d m) as (d'&Hrun&Hinv'&Hmax'&header&_&Hout);
    [done|lia|by rewrite Hmax|].
  exists d'. split; [done|]. pose proof (schedule_window _ _ _ _ _ Hrun).
  split; [split_and!; [done|congruence|congruence]|]. intros h Hh.
  destruct header as [e|]; [|destruct Hout as (_&Hf&_); rewrite Hf in Hh; by left].
  destruct Hout as (He&_&_&Hsch). unfold scheduled in Hsch.
  destruct (in_sampling_window duration_since t d (eh_time e)) eqn:Hin.
  - destruct Hsch as (w&shares&_&Hf&_). rewrite Hf, fmap_app, elem_of_app in Hh. destruct Hh as [Hh|Hh]; [by left|right].
    apply list_elem_of_singleton in Hh as ->. exists e. split; [done|]. by apply (in_window_sampling t d).
  - destruct Hsch as (_&Hf&_). rewrite Hf in Hh. by left.
Qed.

Lemma new_in_window_trans t m d1 d2 d3 : new_in_window t m d1 d2 → new_in_window t m d2 d3 → new_in_window t m d1 d3.
Proof. intros H12 H23 h [Hh|?]%H23; [by apply H12|by right]. Qed.

Lemma daser_schedule_safe t draws1 draws2 d m : daser_ready d m → 0 ≤ window →
  draws_ok draws1 MAX_SAMPLES_NEEDED → draws_ok draws2 MAX_SAMPLES_NEEDED →
  ∃ d', daser_schedule duration_since 2 {| de_now := t; de_draws1 := draws1; de_draws2 := draws2 |} d = Some (Ok d') ∧
    daser_ready d' m ∧ new_in_window t m d d'.
Proof.
  intros Hr Hw Hd1 Hd2. assert (∀ d, new_in_window t m d d) as Hrefl by (by intros d0 h ?; left).
  unfold daser_schedule, schedule_new_head, schedule_if_idle. cbn [de_now de_draws1 de_draws2].
  assert (∃ d1, match ranges_head (d_queue d) with
    | Some queue_head => if default 0 (d_prev_head d) <? queue_head then
        match schedule_next_sample_block duration_since 2 t draws1 d with
        | Some (Ok d) => Some (Ok (set_prev_head d (Some queue_head))) | r => r end
      else Some (Ok d)
    | None => Some (Ok d) end = Some (Ok d1) ∧ daser_ready d1 m ∧ new_in_window t m d d1) as (d1&->&Hr1&Hn1).
  { destruct (ranges_head (d_queue d)) as [qh|]; [|by exists d]. destruct (_ <? qh); [|by exists d].
    destruct (schedule_safe t draws1 d m Hr Hw Hd1) as (d1&->&(Hi&Hm&Hww)&Hn). eexists. split; [done|].
    split; [split_and!; [by apply daser_inv_prev_head|done|done]|done]. }
  destruct (length (d_sampling_futs d1) =? 0)%nat; [|by exists d1].
  destruct (schedule_safe t draws2 d1 m Hr1 Hw Hd2) as (d2&->&Hr2&Hn2). exists d2. split; [done|].
  split; [done|]. by eapply new_in_window_trans.
Qed.

Lemma on_sampled_window (d d' : Daser.Daser S) i results : on_sampled d i results = Ok d' →
  d_sampling_window d' = d_sampling_window d.
Proof.
  unfold on_sampled. destruct (d_sampling_futs d !! _) as [fut|]; [|by intros [= <-]].
  intros Hr. apply bind_Ok in Hr as (a&_&Hr). destruct (st_update_sampling_metadata _ _ _ _) as [r store].
  do 3 (apply bind_Ok in Hr as (?&_&Hr)). by injection Hr as <-.
Qed.

Lemma daser_event_safe d m ev : daser_ready d m → (∀ h, h ∈ sf_height <$> d_sampling_futs d → is_Some (m !! h)) →
  match ev with DeStoreChanged _ => False | _ => True end →
  match on_event d ev with
  | Ok (d', _) => daser_ready d' m ∧ ∀ h, h ∈ sf_height <$> d_sampling_futs d' → h ∈ sf_height <$> d_sampling_futs d
  | Err e => outside_only (NeDaser e)
  | Panic => False
  end.
Proof.
  intros (Hinv&Hmax&Hwin) Hst Hev. destruct ev as [|k|i results| |s]; [done|done| | |done]; cbn [on_event].
  - destruct (on_sampled_spec valid d m i results Hinv) as [[_ ->]|(fut&Hfut&Hout)]; [done|].
    destruct Hout as [(e&_&Hne&->)|[_ [[Hno ->]|(d'&Hrun&Hinv'&Hmax'&_&_&_&Hon&_)]]]; cbv [mbind res_bind].
    + by exists e.
    + destruct (Hst (sf_height fut)) as [x Hx]; [|congruence]. apply list_elem_of_fmap. eauto.
    + rewrite Hrun. split; [split_and!; [done|congruence|]|].
      * by rewrite (on_sampled_window _ _ _ _ Hrun).
      * intros h Hh. apply (di_futs _ _ _ Hinv') in Hh. apply Hon in Hh as [Hh _]. by apply (di_futs _ _ _ Hinv).
  - destruct (populate_queue_spec valid d m) as (queue&Hrun&Hc&Hq); [apply Hinv..|]. rewrite Hrun. cbv [mbind res_bind].
    split; [|done]. split_and!; [|done|done]. apply daser_inv_queue; [done|done|]. intros h Hh. right. by apply Hq.
Qed.

Lemma node_ready t n m : node_inv t n m → daser_ready (node_daser n) m.
Proof. intros []. by split_and!. Qed.

(** A worker that is dropped or left works on nothing. *)
Lemma node_inv_reset t n m d mode since : node_inv t n m → daser_ready d m →
  node_inv t (with_daser n (daser_reset d) mode since) m.
Proof.
  intros Hn (Hd&Hmax&Hwin). apply node_inv_daser; [done|by apply daser_inv_reset|done|done|].
  cbn. by intros h ?%elem_of_nil.
Qed.

Lemma daser_enter_inv t n m cancelled peers : node_inv t n m →
  ∃ n', daser_enter n cancelled peers = Ok n' ∧ node_inv t n' m.
Proof.
  intros Hn. unfold daser_enter. destruct (n_daser_mode n); try by exists n.
  pose proof (node_ready _ _ _ Hn) as (Hd&Hmax&Hwin).
  assert (∀ mode, node_inv t (with_daser n (node_daser n) mode (n_sampled_since n)) m) as Hsame.
  { intros mode. apply node_inv_daser; try done. apply (ni_futs _ _ _ Hn). }
  destruct cancelled; [by eexists|]. destruct (peers =? 0); [by eexists|].
  destruct (populate_queue_spec valid (node_daser n) m) as (queue&->&Hc&Hq); [apply Hd..|]. cbv [mbind res_bind daser_result].
  eexists. split; [done|]. apply node_inv_daser; try done; [|apply (ni_futs _ _ _ Hn)].
  apply daser_inv_queue; [done|done|]. intros h Hh. right. by apply Hq.
Qed.

Lemma daser_connected_inv t n m draws1 draws2 ev : node_inv t n m → 0 ≤ window →
  draws_ok draws1 MAX_SAMPLES_NEEDED → draws_ok draws2 MAX_SAMPLES_NEEDED →
  match ev with DeStoreChanged _ => False | _ => True end →
  ∃ n', daser_connected_step duration_since t n draws1 draws2 ev = Some (Ok n') ∧ node_inv t n' m.
Proof.
  intros Hn Hw Hd1 Hd2 Hev. unfold daser_connected_step. destruct (n_daser_mode n); try by exists n.
  destruct (daser_schedule_safe t draws1 draws2 _ _ (node_ready _ _ _ Hn) Hw Hd1 Hd2) as (d1&->&Hr1&Hnew).
  assert (∀ h, h ∈ sf_height <$> d_sampling_futs d1 → ∃ e, m !! h = Some e ∧ sampled_since t n h - window ≤ eh_time e) as Hf1.
  { intros h Hh. unfold sampled_since. destruct (Hnew h Hh) as [Hold|(e&He&Ht)].
    - rewrite bool_decide_true by done. by apply (ni_futs _ _ _ Hn).
    - exists e. split; [done|]. case_bool_decide as Hold; [|done].
      destruct (ni_futs _ _ _ Hn h Hold) as (e'&He'&Ht'). rewrite He in He'. by injection He' as <-. }
  pose proof (daser_event_safe d1 m ev Hr1) as Hstep.
  specialize (Hstep ltac:(intros h Hh; destruct (Hf1 h Hh) as (e&?&_); by eexists) Hev).
  destruct (on_event d1 ev) as [[d2 k]|e|]; [| |done]; cbv [mbind res_bind daser_result].
  - destruct Hstep as [Hr2 Hsub]. destruct k; (eexists; split; [done|]); [|by apply node_inv_reset].
    destruct Hr2 as (?&?&?). apply node_inv_daser; try done. intros h Hh. by apply Hf1, Hsub.
  - eexists. split; [done|]. apply node_inv_fatal; [|done]. by apply node_inv_reset.
Qed.

(** ** Lemmas: the steps of the pruner *)

Lemma node_inv_pruner t n m b mode removed : node_inv t n m → pruner_safe t m mode →
  (removed = None → n_last_reported n = None) → node_inv t (with_pruner n (n_store n) b mode removed) m.
Proof. intros [] Hp Hr. by constructor. Qed.

(** Removing the header that the pruner chose takes it away from nobody. *)
Lemma node_inv_pruned t n m s c e : node_inv t n m → prompt t n → about_to_prune t m c e →
  store_rep s (delete (eh_height e) m) →
  node_inv t (with_pruner n s (n_blockstore n) (PmPruning c) (Some (eh_height e))) (delete (eh_height e) m).
Proof.
  intros Hn [Hpb Hps] (Hc&Ht&He&Hle) Hrep.
  assert (eh_time e ≤ t - window - delay) as Hold.
  { apply Hc. split; [|done]. apply valid_time, (proj1 (store_rep_ok _ _ (node_store_rep _ _ _ Hn)) _ _ He). }
  assert (∀ k x, m !! k = Some x → t - window - delay < eh_time x → delete (eh_height e) m !! k = Some x) as Hkeep.
  { intros k x Hk Hx. rewrite lookup_delete_ne; [done|]. intros <-. rewrite He in Hk. injection Hk as <-. lia. }
  destruct Hn. constructor; try done.
  - destruct ni_syncer0. by constructor.
  - cbn. intros r Hr. assert (w_task (n_syncer n) ≠ None) as Hsome by congruence. specialize (Hpb Hsome).
    destruct (ni_batch0 r Hr) as [(x&Hx&Htx)|[Hup|(x&Hx&Htx)]].
    + left. exists x. split; [|done]. apply Hkeep; [done|lia].
    + right. left. intros k [x Hx]. apply lookup_delete_Some in Hx as [_ Hx]. apply Hup. eauto.
    + right. right. exists x. split; [|done]. apply Hkeep; [done|lia].
  - apply (daser_inv_store valid (node_daser n) m); done.
  - cbn. intros h Hh. destruct (ni_futs0 h Hh) as (x&Hx&Htx). exists x. split; [|done].
    apply Hkeep; [done|]. specialize (Hps h Hh). lia.
Qed.

Lemma pruner_report_inv t n m mode : node_inv t n m → pruner_safe t m mode →
  ∃ n', pruner_report n mode = Ok n' ∧ node_inv t n' m.
Proof.
  intros Hn Hp. unfold pruner_report. pose proof (ni_reported _ _ _ Hn) as Hrep.
  pose proof (node_inv_pruner t n m (n_blockstore n) mode (n_last_removed n) Hn Hp Hrep) as Hn1.
  set (n1 := with_pruner n (n_store n) (n_blockstore n) mode (n_last_removed n)) in *.
  case_bool_decide as Hne; [|by exists n1]. cbn in Hne.
  assert (n_last_removed n1 = n_last_removed n) as Heq by done. rewrite Heq.
  destruct (n_last_removed n) as [h|]; [|by destruct Hne; apply Hrep].
  cbn [expect]. cbv [mbind res_bind]. eexists. split; [done|]. destruct Hn1. by constructor.
Qed.

(** Whatever the blockstore does, removing blocks succeeds or reports its failure. *)
Lemma remove_cids_cases b cs : ∃ b', remove_cids bs_remove b cs = (Ok tt, b') ∨
  remove_cids bs_remove b cs = (Err PrBlockstore, b').
Proof.
  revert b; induction cs as [|c cs IH]; intros b; cbn [remove_cids]; [exists b; by left|].
  destruct (bs_remove b c) as [b1|]; [apply IH|exists b; by right].
Qed.

Lemma pruner_step_inv t n m st : node_inv t n m → 0 ≤ window → 0 ≤ delay → t < DURATION_MAX → prompt t n →
  ∃ n' m', pruner_step time_checked_sub bs_remove t n st = Ok n' ∧ node_inv t n' m'.
Proof.
  intros Hn Hw Hd Ht Hp. pose proof (node_store_rep _ _ _ Hn) as Hrep. pose proof (ni_reported _ _ _ Hn) as Hr.
  pose proof (ni_pruner _ _ _ Hn) as Hps. unfold pruner_step.
  destruct st as [| | | | | |cancelled| | |]; try (by exists n, m); destruct (n_pruner_mode n) as [|c|c e|c e|] eqn:Hmode;
    try (by exists n, m); cbn in Hps.
  - eexists _, m. split; [done|]. apply node_inv_pruner; [done| |done]. cbn. rewrite (ni_pwindow _ _ _ Hn). by apply cutoff_ok_now.
  - destruct (get_tail_spec valid (n_store n) m c Hrep) as [[_ ->]|(h&e&Htail&He&->)].
    { destruct (pruner_report_inv t n m PmSleeping Hn I) as (n'&->&Hn'). by exists n', m. }
    destruct (Z.ltb_spec c (eh_time e)) as [Hlt|Hle].
    { destruct (pruner_report_inv t n m PmSleeping Hn I) as (n'&->&Hn'). by exists n', m. }
    destruct cancelled.
    { destruct (pruner_report_inv t n m PmStopped Hn I) as (n'&->&Hn'). by exists n', m. }
    eexists _, m. split; [done|]. apply node_inv_pruner; [done| |done]. cbn.
    destruct (proj1 (store_rep_ok _ _ Hrep) _ _ He) as [Hh _]. unfold about_to_prune. by rewrite Hh.
  - destruct Hps as (Hc&Htail&He&Hle). unfold prune_blocks.
    destruct (spec_sampled (n_store n) m (eh_height e) Unknown [] Hrep) as (md&_&_&->&_); [by eexists|].
    destruct (remove_cids_cases (n_blockstore n) (default [] (cids <$> md))) as [b [-> | ->]].
    + eexists _, m. split; [done|]. by apply node_inv_pruner.
    + eexists _, m. split; [done|]. apply node_inv_fatal; [|done]. by apply node_inv_pruner.
  - unfold prune_last. destruct (spec_remove_last (n_store n) m Hrep) as [[Hm0 _]|(h&s&->&Htail&Hrep'&_)].
    { destruct Hps as (_&_&He&_). by rewrite Hm0, lookup_empty in He. }
    assert (h = eh_height e) as ->.
    { destruct Hps as (_&[Hs Hmin]&_&_), Htail as [Hs' Hmin']. apply Hmin' in Hs. apply Hmin in Hs'. lia. }
    rewrite Z.eqb_refl. eexists _, _. split; [done|]. by apply node_inv_pruned.
  - eexists _, m. split; [done|]. by apply node_inv_pruner.
Qed.

(** ** Lemmas: the run *)

(** A step as the node may see it at time [t]. *)
Definition step_ok (t : Z) (n : Node S B) (st : NodeStep S) : Prop :=
  t < DURATION_MAX ∧ clock_ok (λ _, t) ∧
  match st with
  | StSyncerConnecting ev =>
      connecting_event_ok valid ({| env_now := λ _, t; env_peers := 0 |}, ev) ∧
      ∀ c x i, ev = CnTryInit c (Ok x) i → fresh t x
  | StSyncer _ ev => connected_event_ok t (n_syncer n) ev
  | StDaser draws1 draws2 ev =>
      draws_ok draws1 MAX_SAMPLES_NEEDED ∧ draws_ok draws2 MAX_SAMPLES_NEEDED ∧
      match ev with DeStoreChanged _ => False | _ => True end
  | _ => True
  end.

Lemma node_step_inv t n m st : node_inv t n m → 0 ≤ window → 0 ≤ delay → prompt t n → step_ok t n st →
  ∃ n' m', node_step time_checked_sub duration_since bs_remove t n st = Some (Ok n') ∧ node_inv t n' m'.
Proof.
  intros Hn Hw Hd Hp (Ht&Hclock&Hst). unfold node_step.
  assert (∃ n' m', Some (pruner_step time_checked_sub bs_remove t n st) = Some (Ok n') ∧ node_inv t n' m') as Hpr.
  { destruct (pruner_step_inv t n m st Hn Hw Hd Ht Hp) as (n'&m'&->&Hn'). by exists n', m'. }
  destruct st as [ev|cancelled peers|peers ev|cancelled peers|d1 d2 ev| | | | |]; try exact Hpr.
  - destruct Hst as [Hev Hf]. destruct (syncer_connecting_inv t n m ev Hn Hd Hev Hf) as (n'&m'&->&Hn'). by exists n', m'.
  - destruct (syncer_enter_inv t n m cancelled peers Hn Hw) as (n'&m'&->&Hn'). by exists n', m'.
  - destruct (syncer_connected_inv t n m peers ev Hn Hw Hclock Hp Hst) as (n'&m'&->&Hn'). by exists n', m'.
  - destruct (daser_enter_inv t n m cancelled peers Hn) as (n'&->&Hn'). by exists n', m.
  - destruct Hst as (Hd1&Hd2&Hev). destruct (daser_connected_inv t n m d1 d2 ev Hn Hw Hd1 Hd2 Hev) as (n'&->&Hn'). by exists n', m.
Qed.

(** A sequence of steps as they may follow one another: time does not go back, and nothing that
    is under way takes [delay] or longer. *)
Fixpoint timely_steps (t0 : Z) (n : Node S B) (steps : list (Z * NodeStep S)) : Prop :=
  match steps with
  | [] => True
  | (t, st) :: steps =>
      t0 ≤ t ∧ prompt t n ∧ step_ok t n st ∧
      ∀ n', node_step time_checked_sub duration_since bs_remove t n st = Some (Ok n') → timely_steps t n' steps
  end.

Lemma node_run_inv t0 n m steps : node_inv t0 n m → 0 ≤ window → 0 ≤ delay → timely_steps t0 n steps →
  ∃ t n' m', node_run time_checked_sub duration_since bs_remove n steps = Some (Ok n') ∧ node_inv t n' m'.
Proof.
  intros Hn Hw Hd. revert t0 n m Hn; induction steps as [|[t st] steps IH]; intros t0 n m Hn Hs; [by exists t0, n, m|].
  destruct Hs as (Hle&Hp&Hst&Hnext). cbn [node_run].
  destruct (node_step_inv t n m st (node_inv_mono _ _ _ _ Hle Hn) Hw Hd Hp Hst) as (n1&m1&Hrun&Hn1). rewrite Hrun.
  apply (IH t n1 m1 Hn1). by apply Hnext.
Qed.

Lemma node_start_inv {M K} t (c : NodeConfig B S M K) m : store_rep (nc_store c) m →
  0 ≤ nc_sync_batch_size c ≤ u64_max → nc_sampling_window c = window →
  nc_pruning_window c = duration_saturating_add window delay → node_inv t (node_start c) m.
Proof.
  intros Hrep Hb Hw Hp. constructor; try done.
  - apply (daser_inv_new valid (nc_store c) m (nc_sampling_window c)). done.
  - cbn. by intros h ?%elem_of_nil.
Qed.
End NodeLemmas.

(** ** Theorems *)

Section NodeTheorem.
Context `{!Tendermint} `{!DahExternals} {S B M K : Type} `{!Store S}.
Context (valid : ExtendedHeader → Prop) `{!ValidHeaders valid} `{!StoreSpec S valid}.
Context (valid_width : ∀ e, valid e → ∃ w, square_width (eh_dah e) = Ok w ∧ 0 ≤ w).
Context (valid_time : ∀ e, valid e → 0 < eh_time e).
Context `{!CidExternals} `{!CidExternalsSpec} (time_checked_sub duration_since : Z → Z → option Z).
Context (time_checked_sub_spec : ∀ t d, 0 ≤ d →
  match time_checked_sub t d with Some x => x = t - d | None => t - d < 0 end).
Context (duration_since_spec : ∀ now time age, duration_since now time = Some age → age = now - time).
Context (bs_remove : B → Cid → option B).
Context (parse_multiaddr : bytes → option M) (generate_ed25519 : K).

(** C18. The components of a node do not get in each other's way.  Take any configuration the
    builder accepts (with any batch size of 64 bits, zero included), and let the syncer, the
    sampling worker and the pruner interleave their steps on the shared store in any order, with
    any failures of the network and of the blockstore, under these assumptions on the
    surroundings: time does not go back, no batch and no sampling takes as long as the pruning
    delay, the heads the network announces are more recent than the sampling window, batches
    come back with the heights that were asked for, and headers carry times after the epoch.
    Then nothing panics and no component ends for any other reason than a fatal error of the p2p
    layer or, for the pruner, a failure of the blockstore: in particular no block disappears
    while it is being sampled ([NotFound]) and the pruner never removes another header than the
    one it looked at ([WrongHeightRemoved]).  The store stays a chain, and what is being sampled
    is stored. *)
Theorem node_components_coexist im (b : NodeBuilder B S M K) c m t0 steps :
  build_config parse_multiaddr generate_ed25519 im b = Ok c → store_rep (nb_store b) m →
  is_u64 (default DEFAULT_SYNC_BATCH_SIZE (nb_sync_batch_size b)) →
  timely_steps valid time_checked_sub duration_since bs_remove (nc_sampling_window c) (chosen_pruning_delay im b)
    t0 (node_start c) steps →
  ∃ n m', node_run time_checked_sub duration_since bs_remove (node_start c) steps = Some (Ok n) ∧
    store_rep (n_store n) m' ∧ store_ok valid m' ∧ Forall outside_only (n_fatal n) ∧
    ∀ f, f ∈ d_sampling_futs (n_daser n) → is_Some (m' !! sf_height f).
Proof.
  intros Hc Hrep Hb Hsteps.
  destruct (build_config_windows _ _ _ _ _ Hc) as (Hsw&_&Hpd&Hpw&Hbs&Hst&_).
  assert (0 ≤ nc_sampling_window c ∧ 0 ≤ chosen_pruning_delay im b) as [Hw Hd]
    by (unfold MIN_SAMPLING_WINDOW, MIN_PRUNING_DELAY, from_secs, NANOS in *; lia).
  rewrite <-Hst in Hrep. rewrite <-Hbs in Hb.
  pose proof (node_start_inv valid (nc_sampling_window c) (chosen_pruning_delay im b) t0 c m Hrep Hb eq_refl Hpw) as Hn0.
  destruct (node_run_inv valid valid_width valid_time time_checked_sub duration_since time_checked_sub_spec
    duration_since_spec bs_remove _ _ t0 _ m steps Hn0 Hw Hd Hsteps) as (t&n&m'&Hrun&Hn).
  exists n, m'. pose proof (node_store_rep _ _ _ _ _ _ Hn) as Hrep'.
  split_and!; [done|done|apply (store_rep_ok _ _ Hrep')|apply (ni_fatal _ _ _ _ _ _ Hn)|].
  intros f Hf. destruct (ni_futs _ _ _ _ _ _ Hn (sf_height f)) as (e&He&_); [|by eexists].
  apply list_elem_of_fmap. by exists f.
Qed.
End NodeTheorem.

(** ** A concrete node *)

#[local] Existing Instances toy_DahExternals toy_Tendermint toy_TendermintSpec toy_validated
  toy_CidExternals toy_CidExternalsSpec.

Definition toy_valid (e : ExtendedHeader) : Prop := validated e ∧ 0 < eh_time e.
#[local] Instance toy_valid_headers : ValidHeaders toy_valid.
Proof.
  destruct toy_validated as [Hh Hv]. split.
  - intros e1 e2 [He1 _] [He2 _]. by apply Hh.
  - intros e [He _]. by apply Hv.
Qed.

Lemma toy_sub_spec t d : 0 ≤ d → match toy_sub t d with Some x => x = t - d | None => t - d < 0 end.
Proof. done. Qed.
Lemma toy_since_spec now time age : toy_since now time = Some age → age = now - time.
Proof. unfold toy_since. case_match; [done|]. by intros [= <-]. Qed.
Lemma toy_valid_width e : toy_valid e → ∃ w, square_width (eh_dah e) = Ok w ∧ 0 ≤ w.
Proof. intros [He _]. by apply validated_width. Qed.

Definition toy_builder : NodeBuilder (list Cid) InMemoryStoreInner unit unit :=
  with_network Mocha (builder_new [toy_cid 5] (im_insert toy_now im_new [toy_1]).2).
Definition toy_config : NodeConfig (list Cid) InMemoryStoreInner unit unit :=
  match build_config (λ _, Some tt) tt true toy_builder with
  | Ok c => c
  | _ => {| nc_blockstore := []; nc_store := im_new; nc_network_id := []; nc_p2p_local_keypair := tt;
            nc_p2p_bootnodes := []; nc_p2p_listen_on := []; nc_sync_batch_size := 0; nc_sampling_window := 0;
            nc_pruning_window := 0 |}
  end.

(** Initialization with header 2; block 2 is sampled; later header 1 and its blocks are pruned. *)
Definition toy_steps : list (Z * NodeStep InMemoryStoreInner) :=
  [(1000, StSyncerConnecting (CnTryInit (Ok tt) (Ok toy_2) (Ok tt)));
   (1000, StSyncerEnter false 4);
   (1000, StDaserEnter false 4);
   (1000, StDaser toy_draws toy_draws (DePeersChanged 4));
   (2000, StPrunerWake);
   (2000, StDaser toy_draws toy_draws (DeSampled 0 toy_all_received));
   (2000, StPrunerTail false);
   (100000000000, StPrunerWake);
   (180000000000, StPrunerTail false);
   (180000000000, StPrunerWake);
   (180000000000, StPrunerTail false);
   (180000000000, StPrunerBlocks);
   (180000000001, StPrunerRemove)].

Example toy_node_runs :
  match node_run toy_sub toy_since toy_bs_remove (node_start toy_config) toy_steps with
  | Some (Ok n) => im_get_stored_ranges (n_store n) = [2 ..= 2] ∧ n_fatal n = [] ∧ n_last_removed n = Some 1
  | _ => False
  end.
Proof. vm_compute. repeat split; reflexivity. Qed.

Definition toy_next (t : Z) (n : Node InMemoryStoreInner (list Cid)) (st : NodeStep InMemoryStoreInner)
    : Node InMemoryStoreInner (list Cid) :=
  match node_step toy_sub toy_since toy_bs_remove t n st with Some (Ok n) => n | _ => n end.
Definition toy_prompt (t delay : Z) (n : Node InMemoryStoreInner (list Cid)) : bool :=
  match w_task (n_syncer n) with None => true | Some _ => t <? n_batch_since n + delay end &&
  forallb (λ h, t <? n_sampled_since n h + delay) (sf_height <$> d_sampling_futs (n_daser n)).

Lemma toy_prompt_ok t delay n : toy_prompt t delay n = true → prompt delay t n.
Proof.
  unfold toy_prompt. intros [Hb Hf]%andb_true_iff. split.
  - destruct (w_task (n_syncer n)); [intros _; lia|done].
  - intros h Hh. rewrite forallb_forall in Hf. apply list_elem_of_In, Hf in Hh. lia.
Qed.

Lemma toy_timely_cons window delay t0 t n st steps : t0 ≤ t → toy_prompt t delay n = true →
  step_ok toy_valid window t n st →
  timely_steps toy_valid toy_sub toy_since toy_bs_remove window delay t (toy_next t n st) steps →
  timely_steps toy_valid toy_sub toy_since toy_bs_remove window delay t0 n ((t, st) :: steps).
Proof.
  intros Hle Hp Hst Hrest. cbn [timely_steps]. split_and!; [done|by apply toy_prompt_ok|done|].
  intros n' Hn'. unfold toy_next in Hrest. by rewrite Hn' in Hrest.
Qed.

Lemma toy_node_clock t : clock_ok (λ _, t).
Proof. intros i. by eexists. Qed.

Lemma toy_2_valid : toy_valid toy_2.
Proof. split; [exact toy_2_validated|vm_compute; reflexivity]. Qed.

Lemma toy_node_rep : im_rep toy_valid (im_insert toy_now im_new [toy_1]).2 (insert_all ∅ [toy_1]).
Proof.
  destruct (im_insert_spec toy_valid toy_now im_new ∅ [toy_1] (im_rep_new _) toy_clock_ok)
    as [(_&_&Hrep)|[[e He] _]]; [|exact Hrep|].
  - constructor; [split; [apply toy_1_validated|vm_compute; reflexivity]|constructor].
  - exfalso. apply (f_equal fst) in He. vm_compute in He. discriminate.
Qed.

Lemma toy_timely : timely_steps toy_valid toy_sub toy_since toy_bs_remove 60000000000 60000000000 0
  (node_start toy_config) toy_steps.
Proof.
  unfold toy_steps.
  repeat (apply toy_timely_cons; [lia|vm_compute; reflexivity|
    split; [unfold DURATION_MAX, u64_max, NANOS; lia|split; [apply toy_node_clock|]]|]); try exact I.
  - split; [split; [exact (toy_node_clock 1000)|split_and!; [by left|by left|exact toy_2_valid|vm_compute; reflexivity]]|].
    intros c x i [= <- <- <-]. vm_compute. reflexivity.
  - split; [exact toy_draws_ok|split; [exact toy_draws_ok|exact I]].
  - split; [exact toy_draws_ok|split; [exact toy_draws_ok|exact I]].
Qed.

Lemma node_components_coexist_witness :
  ∃ n m', node_run toy_sub toy_since toy_bs_remove (node_start toy_config) toy_steps = Some (Ok n) ∧
    im_rep toy_valid (n_store n) m' ∧ store_ok toy_valid m' ∧ Forall outside_only (n_fatal n).
Proof.
  destruct (node_components_coexist toy_valid toy_valid_width ltac:(intros e [_ He]; exact He)
    toy_sub toy_since toy_sub_spec toy_since_spec toy_bs_remove (λ _, Some tt) tt true
    toy_builder toy_config (insert_all ∅ [toy_1]) 0 toy_steps) as (n&m'&Hrun&Hrep&Hok&Hf&_).
  - reflexivity.
  - exact toy_node_rep.
  - cbn. vm_compute. split; discriminate.
  - exact toy_timely.
  - exists n, m'. split; [exact Hrun|]. split; [exact Hrep|]. split; [exact Hok|exact Hf].
Defined.
