(* ===== verification/Shutdown.v ===== *)
(** * Stopping (src/node/src/utils/counter.rs, utils/token.rs, executor.rs, and the end of node.rs)

    How a node ends: the counter with which the database waits for its blocking tasks, the tokens
    and join handles of spawned tasks, and [Node::stop], which cancels and joins the tasks of the
    components and then takes the store and the blockstore out of their [Arc]s.

    These are programs of several threads, so they are step functions: a choice says who makes
    the next step, and a state is reachable when some sequence of choices leads there.  A step is
    one operation on the shared state. *)

From S2P Require Import Prelude Notify.

(** ** The counter *)

Module Counter.

(** The life of a blocking task of the database ([read_tx] and [write_tx] of redb_store.rs): its
    transaction, then the two statements of [CounterGuard::drop] (the reference is taken, the
    waiters are notified), and last the variables that the closure captured. *)
Inductive GuardPhase := Working | Decremented | Notified | Gone.

#[global] Instance GuardPhase_eq_dec : EqDecision GuardPhase.
Proof. solve_decision. Defined.

Record Counter := { cn_tasks : list GuardPhase; cn_waiter : Loop unit }.

(** The counter's own reference and one of each guard. *)
Definition strong_count (c : Counter) : nat := S (length (filter (λ t, t = Working) (cn_tasks c))).

(** A task's step; the step in which it notifies also changes the waiter. *)
Definition guard_step (p : GuardPhase) (w : Loop unit) : option (GuardPhase * Loop unit) :=
  match p with
  | Working => Some (Decremented, w)
  | Decremented => Some (Notified, notify_waiters w)
  | Notified => Some (Gone, w)
  | Gone => None
  end.

(** A step of [wait_guards]; [None] while it waits. *)
Definition wait_step (c : Counter) : option (Loop unit) :=
  loop_step (if (1 <? strong_count c)%nat then None else Some tt) (cn_waiter c).

Inductive Choice := Wait | Task (i : nat).
Definition step (c : Counter) (ch : Choice) : option Counter :=
  match ch with
  | Wait => w ← wait_step c; Some {| cn_tasks := cn_tasks c; cn_waiter := w |}
  | Task i =>
      p ← cn_tasks c !! i;
      '(p', w) ← guard_step p (cn_waiter c);
      Some {| cn_tasks := <[i := p']> (cn_tasks c); cn_waiter := w |}
  end.

(** [wait_guards] is called while tasks are anywhere in their lives; it has the counter for itself,
    so no guard is made meanwhile. *)
Definition start (tasks : list GuardPhase) : Counter := {| cn_tasks := tasks; cn_waiter := Creating |}.
Inductive reachable (tasks : list GuardPhase) : Counter → Prop :=
| reach_start : reachable tasks (start tasks)
| reach_step c ch c' : reachable tasks c → step c ch = Some c' → reachable tasks c'.

Fixpoint run_steps (c : Counter) (l : list Choice) : option Counter :=
  match l with [] => Some c | ch :: l => c ← step c ch; run_steps c l end.

(** ** Lemmas *)

Lemma run_reachable tasks c l c' : reachable tasks c → run_steps c l = Some c' → reachable tasks c'.
Proof.
  revert c; induction l as [|ch l IH]; intros c Hc; cbn [run_steps]; [by intros [= <-]|].
  destruct (step c ch) as [c1|] eqn:E; [|done]. cbn [mbind option_bind]. apply IH. by apply (reach_step _ c ch).
Qed.

(** A waiter that has not been notified waits for a task that is going to notify it. *)
Definition inv (c : Counter) : Prop :=
  (cn_waiter c = Awaiting false → ∃ p, p ∈ cn_tasks c ∧ (p = Working ∨ p = Decremented)) ∧
  (cn_waiter c = Returned tt → Working ∉ cn_tasks c).

Lemma strong_count_working c : (1 < strong_count c)%nat ↔ Working ∈ cn_tasks c.
Proof.
  unfold strong_count. split.
  - intros Hc. destruct (filter (λ t, t = Working) (cn_tasks c)) as [|x l] eqn:E; [cbn in Hc; lia|].
    assert (x ∈ filter (λ t, t = Working) (cn_tasks c)) as Hx by (rewrite E; apply list_elem_of_here).
    apply list_elem_of_filter in Hx as [-> Hx]. done.
  - intros Hw. assert (Working ∈ filter (λ t, t = Working) (cn_tasks c)) as Hx by (by apply list_elem_of_filter).
    destruct (filter _ _) as [|x l]; [by apply elem_of_nil in Hx|cbn; lia].
Qed.

Lemma inv_step c ch c' : inv c → step c ch = Some c' → inv c'.
Proof.
  intros [Ha Hr]. destruct ch as [|i]; cbn [step].
  - unfold wait_step. destruct (loop_step _ _) as [w|] eqn:Ew; [|done]. cbn [mbind option_bind]. intros [= <-].
    split; cbn [cn_waiter cn_tasks]; intros ->; [apply loop_waits in Ew|apply loop_returns in Ew];
      destruct (Nat.ltb_spec 1 (strong_count c)) as [Hc|Hc]; try done.
    + exists Working. split; [by apply strong_count_working|by left].
    + intros Hw%strong_count_working. lia.
  - destruct (cn_tasks c !! i) as [p|] eqn:Ei; [|done]. cbn [mbind option_bind]. unfold guard_step.
    assert (i < length (cn_tasks c))%nat as Hi by by eapply lookup_lt_Some.
    assert (∀ p' q, q ∈ cn_tasks c → q ≠ p → q ∈ <[i := p']> (cn_tasks c)) as Hkeep.
    { intros p' q Hq Hne. apply list_elem_of_lookup in Hq as [j Hj]. apply list_elem_of_lookup. exists j.
      rewrite list_lookup_insert_ne; [done|]. intros ->. congruence. }
    assert (∀ p', p' ∈ <[i := p']> (cn_tasks c)) as Hnew.
    { intros p'. apply list_elem_of_lookup. exists i. by apply list_lookup_insert_eq. }
    assert (∀ p', p' ≠ Working → Working ∈ <[i := p']> (cn_tasks c) → Working ∈ cn_tasks c) as Hold.
    { intros p' Hne Hw. apply list_elem_of_lookup in Hw as [j Hj]. apply list_elem_of_lookup. exists j.
      destruct (decide (i = j)) as [->|Hij]; [|by rewrite list_lookup_insert_ne in Hj].
      rewrite list_lookup_insert_eq in Hj by done. congruence. }
    destruct p; cbn [mbind option_bind]; intros Hs; [..|done]; injection Hs as <-; split; cbn [cn_waiter cn_tasks].
    + intros _. exists Decremented. auto.
    + intros Hw Hin. apply (Hr Hw). by apply Hold in Hin.
    + by intros ?%notify_not_waiting.
    + intros Hw Hin. apply Hold in Hin; [|done]. apply Hr; [by apply notify_returned|done].
    + intros Hb. destruct (Ha Hb) as (q&Hq&Hor). exists q. split; [|done].
      apply Hkeep; [done|]. by destruct Hor as [->| ->].
    + intros Hw Hin. apply (Hr Hw). by apply Hold in Hin.
Qed.

Lemma reachable_inv tasks c : reachable tasks c → inv c.
Proof. induction 1 as [|c ch c' _ IH Hs]; [by split|by apply (inv_step c ch)]. Qed.

(** What is left to do. *)
Definition guard_weight (p : GuardPhase) : nat :=
  match p with Working => 7 | Decremented => 6 | Notified => 1 | Gone => 0 end.
Fixpoint guards_weight (l : list GuardPhase) : nat :=
  match l with [] => 0 | p :: l => guard_weight p + guards_weight l end.
Definition weight (c : Counter) : nat := guards_weight (cn_tasks c) + loop_weight (cn_waiter c).

Lemma guards_weight_insert l i p p' : l !! i = Some p →
  (guards_weight (<[i := p']> l) + guard_weight p = guards_weight l + guard_weight p')%nat.
Proof.
  revert i; induction l as [|x l IH]; intros [|i] Hi; [done|done| |].
  - injection Hi as ->. cbn [insert list_insert guards_weight]. lia.
  - specialize (IH i Hi). change (<[S i := p']> (x :: l)) with (x :: <[i := p']> l). cbn [guards_weight]. lia.
Qed.

Lemma step_weight c ch c' : step c ch = Some c' → (weight c' < weight c)%nat.
Proof.
  unfold weight. destruct ch as [|i]; cbn [step].
  - unfold wait_step. destruct (loop_step _ _) as [w|] eqn:Ew; [|done]. apply loop_step_weight in Ew.
    cbn [mbind option_bind]. intros [= <-]. cbn [cn_waiter cn_tasks]. lia.
  - destruct (cn_tasks c !! i) as [p|] eqn:Ei; [|done]. cbn [mbind option_bind]. unfold guard_step.
    destruct p; cbn [mbind option_bind]; [..|done]; intros Hs; injection Hs as <-; cbn [cn_waiter cn_tasks].
    + pose proof (guards_weight_insert _ i _ Decremented Ei). cbn in *. lia.
    + pose proof (guards_weight_insert _ i _ Notified Ei).
      pose proof (notify_weight (cn_waiter c)). cbn [guard_weight] in *. lia.
    + pose proof (guards_weight_insert _ i _ Gone Ei). cbn in *. lia.
Qed.

(** Nobody is stuck: a waiter that cannot move has a task that can. *)
Lemma step_progress c : inv c → cn_waiter c ≠ Returned tt → ∃ ch c', step c ch = Some c'.
Proof.
  intros [Ha _] Hr. destruct (wait_step c) as [w|] eqn:Ew; [exists Wait; unfold step; rewrite Ew; by eexists|].
  apply loop_stuck in Ew as [Hw|[[] Hw]]; [|done]. destruct (Ha Hw) as (p&Hp&Hor).
  apply list_elem_of_lookup in Hp as [i Hi]. exists (Task i). unfold step. rewrite Hi. by destruct Hor as [->| ->]; eexists.
Qed.

(** [wait_guards] loses no wakeup.  From every state it can be in, whatever the order in which
    the threads run, only finitely many steps are left; as long as it has not returned, some
    thread can make one; and once it has returned, every transaction has ended. *)
Theorem wait_guards_correct tasks c : reachable tasks c →
  (∀ ch c', step c ch = Some c' → (weight c' < weight c)%nat) ∧
  (cn_waiter c ≠ Returned tt → ∃ ch c', step c ch = Some c') ∧
  (cn_waiter c = Returned tt → Working ∉ cn_tasks c ∧ strong_count c = 1%nat).
Proof.
  intros Hinv%reachable_inv. split_and!.
  - intros ch c'. apply step_weight.
  - by apply step_progress.
  - intros Hr. destruct Hinv as [_ Hw]. split; [by apply Hw|]. pose proof (strong_count_working c) as Hc.
    assert (¬ (1 < strong_count c)%nat) by (rewrite Hc; by apply Hw). unfold strong_count in *. lia.
Qed.

(** The guard is dropped before what the closure captured: [close] can return while a task still
    holds the database. *)
Theorem close_before_release : ∃ c, reachable [Working] c ∧ cn_waiter c = Returned tt ∧ cn_tasks c = [Notified].
Proof.
  exists {| cn_tasks := [Notified]; cn_waiter := Returned tt |}. split; [|done].
  by apply (run_reachable _ (start [Working]) [Task 0; Task 0; Wait; Wait]); [apply reach_start|].
Qed.

Lemma wait_guards_correct_witness :
  let c := {| cn_tasks := [Decremented; Working]; cn_waiter := Awaiting false |} in ∃ ch c', step c ch = Some c'.
Proof.
  cbv zeta. apply (wait_guards_correct [Working; Working]); [|done].
  by apply (run_reachable _ (start [Working; Working]) [Wait; Wait; Task 0]); [apply reach_start|].
Defined.

End Counter.

(** ** Tokens, tasks and [Node::stop] *)

Module Stopping.

(** The tasks that [Node::start] leaves running, in the order of its text. *)
Inductive TaskId := TP2p | TSyncer | TDaser | TPruner | TCompromised.
(** What is shared by [Arc]: the two stores and the handles of the components. *)
Inductive Shared := SStore | SBlockstore | SP2p | SSyncer | SDaser | SPruner.
#[global] Instance TaskId_eq_dec : EqDecision TaskId.
Proof. solve_decision. Defined.
#[global] Instance Shared_eq_dec : EqDecision Shared.
Proof. solve_decision. Defined.
Definition all_tasks : list TaskId := [TP2p; TSyncer; TDaser; TPruner; TCompromised].

(** The references that the future of a task has captured: the worker of p2p keeps the store, and
    so do the server and the multihasher of its swarm; the other workers keep the store and p2p,
    or the two stores; the last task keeps the handles it may stop. *)
Definition captured (t : TaskId) : list Shared :=
  match t with
  | TP2p => [SBlockstore; SStore; SStore; SStore]
  | TSyncer => [SStore; SP2p]
  | TDaser => [SP2p; SStore]
  | TPruner => [SStore; SBlockstore]
  | TCompromised => [SSyncer; SDaser; SPruner]
  end.
(** The task a handle stops when its last reference is dropped ([Drop] of the components). *)
Definition task_of (o : Shared) : option TaskId :=
  match o with
  | SP2p => Some TP2p | SSyncer => Some TSyncer | SDaser => Some TDaser | SPruner => Some TPruner
  | SStore | SBlockstore => None
  end.

(** A spawned task ([spawn] and [spawn_cancellable]): its future runs, has been dropped with all
    it captured, or the guard after it has been dropped too, which triggers the token of the
    [JoinHandle]. *)
Inductive TaskPhase := Running | FutureDropped | Triggered.
#[global] Instance TaskPhase_eq_dec : EqDecision TaskPhase.
Proof. solve_decision. Defined.

(** The statements of [stop]. *)
Inductive Instr :=
| Take (o : Shared)                  (* [self.daser.take().expect(..)] *)
| Cancel (t : TaskId)                (* [daser.stop()], [tasks_cancellation_token.cancel()] *)
| Join (t : TaskId)                  (* [daser.join().await] *)
| EndOfBlock                         (* the handles go out of scope *)
| IntoInner (o : Shared)             (* [Arc::into_inner(store).expect(..)] *)
| Close (o : Shared)                 (* [store.close().await] *)
| SendStopped.                       (* [NodeEvent::NodeStopped] *)

Definition node_stop : list Instr :=
  [Take SDaser; Take SSyncer; Take SPruner; Take SP2p;
   Cancel TCompromised; Join TCompromised;
   Cancel TDaser; Cancel TSyncer; Cancel TPruner;
   Join TDaser; Join TSyncer; Join TPruner;
   Cancel TP2p; Join TP2p;
   EndOfBlock;
   Take SBlockstore; IntoInner SBlockstore; Close SBlockstore;
   Take SStore; IntoInner SStore; Close SStore;
   SendStopped].

Record Runtime := {
  rt_phase : TaskId → TaskPhase;
  rt_cancelled : TaskId → bool;
  (** the fields of the node that are not [None], and the variables of [stop] *)
  rt_fields : list Shared;
  rt_locals : list Shared;
  rt_rest : list Instr;
  rt_closed : list Shared;
  rt_stopped : bool
}.

(** [Arc::strong_count]. *)
Definition count (o : Shared) (l : list Shared) : nat := length (filter (λ x, x = o) l).
Definition held_by_task (r : Runtime) (t : TaskId) : list Shared :=
  match rt_phase r t with Running => captured t | _ => [] end.
Definition references (r : Runtime) (o : Shared) : nat :=
  count o (rt_fields r) + count o (rt_locals r) + sum_list (count o ∘ held_by_task r <$> all_tasks).

Definition set {A} (f : TaskId → A) (t : TaskId) (a : A) : TaskId → A := λ t', if decide (t' = t) then a else f t'.
Fixpoint remove_one (o : Shared) (l : list Shared) : list Shared :=
  match l with [] => [] | x :: l => if decide (x = o) then l else x :: remove_one o l end.

Definition with_phase (r : Runtime) (t : TaskId) (p : TaskPhase) : Runtime :=
  {| rt_phase := set (rt_phase r) t p; rt_cancelled := rt_cancelled r; rt_fields := rt_fields r; rt_locals := rt_locals r;
     rt_rest := rt_rest r; rt_closed := rt_closed r; rt_stopped := rt_stopped r |}.
Definition with_cancelled (r : Runtime) (t : TaskId) : Runtime :=
  {| rt_phase := rt_phase r; rt_cancelled := set (rt_cancelled r) t true; rt_fields := rt_fields r; rt_locals := rt_locals r;
     rt_rest := rt_rest r; rt_closed := rt_closed r; rt_stopped := rt_stopped r |}.
Definition with_main (r : Runtime) (fields locals : list Shared) (rest : list Instr) (closed : list Shared) (stopped : bool) :=
  {| rt_phase := rt_phase r; rt_cancelled := rt_cancelled r; rt_fields := fields; rt_locals := locals;
     rt_rest := rest; rt_closed := closed; rt_stopped := stopped |}.

(** Dropping references: a handle whose last one goes stops its component. *)
Fixpoint drop_handles (r : Runtime) (l : list Shared) : Runtime :=
  match l with
  | [] => r
  | o :: l =>
      let r := match task_of o with
               | Some t => if (references r o =? 0)%nat then with_cancelled r t else r
               | None => r
               end in
      drop_handles r l
  end.

(** The next statement of [stop]: [None] while it waits, and a panic of its [expect]s. *)
Definition main_step (r : Runtime) : option (res unit Runtime) :=
  match rt_rest r with
  | [] => None
  | i :: rest =>
      let next fields locals := with_main r fields locals rest (rt_closed r) (rt_stopped r) in
      match i with
      | Take o => Some (if decide (o ∈ rt_fields r)
                        then Ok (next (remove_one o (rt_fields r)) (o :: rt_locals r)) else Panic)
      | Cancel t => Some (Ok (with_cancelled (next (rt_fields r) (rt_locals r)) t))
      | Join t => if decide (rt_phase r t = Triggered) then Some (Ok (next (rt_fields r) (rt_locals r))) else None
      | EndOfBlock => Some (Ok (drop_handles (next (rt_fields r) []) (rt_locals r)))
      | IntoInner o => Some (if (references r o =? 1)%nat then Ok (next (rt_fields r) (rt_locals r)) else Panic)
      | Close o => Some (Ok (with_main r (rt_fields r) (remove_one o (rt_locals r)) rest (o :: rt_closed r) (rt_stopped r)))
      | SendStopped => Some (Ok (with_main r (rt_fields r) (rt_locals r) rest (rt_closed r) true))
      end
  end.

(** A step of a task: it ends after its cancellation or by itself (a fatal error of a worker);
    the last task stops the components when the network is compromised, and ends. *)
Definition task_step (r : Runtime) (t : TaskId) (by_itself : bool) : option Runtime :=
  match rt_phase r t with
  | Running =>
      if rt_cancelled r t || by_itself then
        let r := if by_itself && bool_decide (t = TCompromised)
                 then with_cancelled (with_cancelled (with_cancelled r TSyncer) TDaser) TPruner else r in
        Some (drop_handles (with_phase r t FutureDropped) (captured t))
      else None
  | FutureDropped => Some (with_phase r t Triggered)
  | Triggered => None
  end.

Inductive Choice := Main | TaskStep (t : TaskId) (by_itself : bool).
Definition step (r : Runtime) (ch : Choice) : option (res unit Runtime) :=
  match ch with Main => main_step r | TaskStep t b => Ok <$> task_step r t b end.

(** The node when [stop] is called: tasks may have ended already. *)
Definition running (phase : TaskId → TaskPhase) (cancelled : TaskId → bool) : Runtime :=
  {| rt_phase := phase; rt_cancelled := cancelled; rt_fields := [SP2p; SBlockstore; SStore; SSyncer; SDaser; SPruner];
     rt_locals := []; rt_rest := node_stop; rt_closed := []; rt_stopped := false |}.
Inductive reachable : Runtime → Prop :=
| reach_start phase cancelled : reachable (running phase cancelled)
| reach_step r ch r' : reachable r → step r ch = Some (Ok r') → reachable r'.

(** ** Lemmas *)

Record same_main (r r' : Runtime) : Prop := {
  sm_phase : rt_phase r' = rt_phase r;
  sm_fields : rt_fields r' = rt_fields r;
  sm_locals : rt_locals r' = rt_locals r;
  sm_rest : rt_rest r' = rt_rest r;
  sm_closed : rt_closed r' = rt_closed r;
  sm_stopped : rt_stopped r' = rt_stopped r;
  sm_cancelled t : rt_cancelled r t = true → rt_cancelled r' t = true
}.
Lemma same_main_refl r : same_main r r.
Proof. by split. Qed.
Lemma same_main_trans r1 r2 r3 : same_main r1 r2 → same_main r2 r3 → same_main r1 r3.
Proof. intros [] []. split; try congruence. auto. Qed.
Lemma same_main_cancel r t : same_main r (with_cancelled r t).
Proof. split; try done. intros t' Ht. cbn. unfold set. by case_decide. Qed.

(** Dropping handles only cancels. *)
Lemma drop_handles_same l r : same_main r (drop_handles r l).
Proof.
  revert r; induction l as [|o l IH]; intros r; cbn [drop_handles]; [apply same_main_refl|].
  eapply same_main_trans; [|apply IH]. destruct (task_of o); [|apply same_main_refl].
  case_match; [apply same_main_cancel|apply same_main_refl].
Qed.

(** What [stop] does to the fields and variables, statement by statement. *)
Definition Main_state : Type := list Shared * list Shared * list Shared * bool.
Definition main_state (r : Runtime) : Main_state := (rt_fields r, rt_locals r, rt_closed r, rt_stopped r).
Definition effect (m : Main_state) (i : Instr) : Main_state :=
  let '(fields, locals, closed, stopped) := m in
  match i with
  | Take o => (remove_one o fields, o :: locals, closed, stopped)
  | EndOfBlock => (fields, [], closed, stopped)
  | Close o => (fields, remove_one o locals, o :: closed, stopped)
  | SendStopped => (fields, locals, closed, true)
  | Cancel _ | Join _ | IntoInner _ => m
  end.
Definition initial_main : Main_state := ([SP2p; SBlockstore; SStore; SSyncer; SDaser; SPruner], [], [], false).
Definition main_after (k : nat) : Main_state := foldl effect initial_main (take k node_stop).
#[global] Instance Instr_eq_dec : EqDecision Instr.
Proof. solve_decision. Defined.

Record inv (k : nat) (r : Runtime) : Prop := {
  inv_rest : rt_rest r = drop k node_stop;
  inv_main : main_state r = main_after k;
  inv_joined t : Join t ∈ take k node_stop → rt_phase r t = Triggered;
  inv_cancelled t : Cancel t ∈ take k node_stop → rt_cancelled r t = true
}.

(** The program is in order: what is taken is there, what is joined was cancelled before, and
    what is unwrapped has one reference in the program while every task has been joined. *)
Definition statement_ok (k : nat) : bool :=
  let '(fields, locals, _, _) := main_after k in
  match node_stop !! k with
  | Some (Take o) => bool_decide (o ∈ fields)
  | Some (Join t) => bool_decide (Cancel t ∈ take k node_stop)
  | Some (IntoInner o) => (count o fields + count o locals =? 1)%nat &&
      forallb (λ t, bool_decide (Join t ∈ take k node_stop)) all_tasks
  | _ => true
  end.
Lemma statements_ok k : statement_ok k = true.
Proof.
  destruct (decide (k < length node_stop)%nat) as [Hk|Hk].
  - assert (forallb statement_ok (seq 0 (length node_stop)) = true) as Hall by (vm_compute; reflexivity).
    rewrite forallb_forall in Hall. apply Hall, in_seq. lia.
  - unfold statement_ok. destruct (main_after k) as [[[??]?]?]. by rewrite lookup_ge_None_2 by lia.
Qed.

Lemma in_all_tasks t : t ∈ all_tasks.
Proof. destruct t; vm_compute; set_solver. Qed.

(** When all tasks have been joined, only the program holds references. *)
Lemma references_joined r o : (∀ t, rt_phase r t = Triggered) → references r o = (count o (rt_fields r) + count o (rt_locals r))%nat.
Proof. intros Ht. unfold references, held_by_task, all_tasks. cbn. rewrite !Ht. cbn. lia. Qed.

Lemma take_S_instr k i : node_stop !! k = Some i → take (S k) node_stop = take k node_stop ++ [i].
Proof. apply take_S_r. Qed.
Lemma main_after_S k i : node_stop !! k = Some i → main_after (S k) = effect (main_after k) i.
Proof. intros Hi. unfold main_after. by rewrite (take_S_instr k i Hi), foldl_app. Qed.

(** The next statement runs as it should. *)
Lemma main_step_inv k r i : inv k r → node_stop !! k = Some i →
  (∃ t, i = Join t ∧ rt_phase r t ≠ Triggered ∧ rt_cancelled r t = true ∧ main_step r = None) ∨
  (∃ r', main_step r = Some (Ok r') ∧ inv (S k) r' ∧ rt_phase r' = rt_phase r).
Proof.
  intros [Hrest Hmain Hj Hc] Hi. pose proof (statements_ok k) as Hok. unfold statement_ok in Hok.
  rewrite Hi, <- Hmain in Hok. cbn [main_state] in Hok.
  assert (rt_rest r = i :: drop (S k) node_stop) as Hr by (rewrite Hrest; by apply drop_S).
  pose proof (main_after_S k i Hi) as Ha. rewrite <- Hmain in Ha. cbn [main_state effect] in Ha.
  assert (∀ t, Join t ∈ take (S k) node_stop → Join t ∈ take k node_stop ∨ i = Join t) as Hj'.
  { intros t. rewrite (take_S_instr k i Hi), elem_of_app, list_elem_of_singleton. naive_solver. }
  assert (∀ t, Cancel t ∈ take (S k) node_stop → Cancel t ∈ take k node_stop ∨ i = Cancel t) as Hc'.
  { intros t. rewrite (take_S_instr k i Hi), elem_of_app, list_elem_of_singleton. naive_solver. }
  unfold main_step. rewrite Hr. destruct i as [o|t|t| |o|o|].
  - right. rewrite decide_True by (by apply bool_decide_eq_true in Hok). eexists. split; [done|]. split; [|done].
    split; [done|by rewrite Ha|..]; intros t Ht; [apply Hj|apply Hc]; [apply Hj' in Ht|apply Hc' in Ht]; naive_solver.
  - right. eexists. split; [done|]. split; [|done]. split; [done|by rewrite Ha|..].
    + intros t' Ht. apply Hj. apply Hj' in Ht. naive_solver.
    + intros t' Ht. cbn. unfold set. case_decide; [done|]. apply Hc. apply Hc' in Ht. naive_solver.
  - apply bool_decide_eq_true in Hok. destruct (decide (rt_phase r t = Triggered)) as [Hp|Hp].
    + right. eexists. split; [done|]. split; [|done]. split; [done|by rewrite Ha|..].
      * intros t' Ht. apply Hj' in Ht as [Ht|[= <-]]; [by apply Hj|done].
      * intros t' Ht. apply Hc. apply Hc' in Ht. naive_solver.
    + left. exists t. split_and!; try done. by apply Hc.
  - right. eexists. split; [done|].
    destruct (drop_handles_same (rt_locals r) (with_main r (rt_fields r) [] (drop (S k) node_stop) (rt_closed r) (rt_stopped r)))
      as [Hs1 Hs2 Hs3 Hs4 Hs5 Hs6 Hs7].
    split; [|done]. split; [done|unfold main_state; rewrite Hs2, Hs3, Hs5, Hs6; by rewrite Ha|..].
    + intros t Ht. rewrite Hs1. apply Hj. apply Hj' in Ht. naive_solver.
    + intros t Ht. apply Hs7. apply Hc. apply Hc' in Ht. naive_solver.
  - right. apply andb_true_iff in Hok as [Hone Hall]. rewrite forallb_forall in Hall.
    assert (∀ t, rt_phase r t = Triggered) as Hp.
    { intros t. apply Hj. eapply bool_decide_eq_true, Hall, list_elem_of_In, in_all_tasks. }
    rewrite (references_joined r o Hp), Hone. eexists. split; [done|]. split; [|done].
    split; [done|by rewrite Ha|..]; intros t Ht; [apply Hj|apply Hc]; [apply Hj' in Ht|apply Hc' in Ht]; naive_solver.
  - right. eexists. split; [done|]. split; [|done].
    split; [done|by rewrite Ha|..]; intros t Ht; [apply Hj|apply Hc]; [apply Hj' in Ht|apply Hc' in Ht]; naive_solver.
  - right. eexists. split; [done|]. split; [|done].
    split; [done|by rewrite Ha|..]; intros t Ht; [apply Hj|apply Hc]; [apply Hj' in Ht|apply Hc' in Ht]; naive_solver.
Qed.

Lemma task_step_inv k r t b r' : inv k r → task_step r t b = Some r' →
  inv k r' ∧ ∃ p, rt_phase r' = set (rt_phase r) t p ∧
    (rt_phase r t = Running ∧ p = FutureDropped ∨ rt_phase r t = FutureDropped ∧ p = Triggered).
Proof.
  intros [Hrest Hmain Hj Hc] Hs. unfold task_step in Hs. destruct (rt_phase r t) eqn:Ep; [| |done].
  - destruct (rt_cancelled r t || b); [|done].
    set (r1 := if b && bool_decide (t = TCompromised) then _ else r) in Hs. injection Hs as <-.
    assert (same_main r r1) as H1.
    { unfold r1. case_match; [|apply same_main_refl]. repeat (eapply same_main_trans; [|apply same_main_cancel]). apply same_main_refl. }
    destruct (drop_handles_same (captured t) (with_phase r1 t FutureDropped)) as [Hs1 Hs2 Hs3 Hs4 Hs5 Hs6 Hs7].
    destruct H1 as [Hr1 Hr2 Hr3 Hr4 Hr5 Hr6 Hr7].
    cbn [with_phase rt_phase rt_fields rt_locals rt_rest rt_closed rt_stopped rt_cancelled] in *.
    split; [split|].
    + congruence.
    + unfold main_state in *. by rewrite Hs2, Hs3, Hs5, Hs6, Hr2, Hr3, Hr5, Hr6.
    + intros t' Ht. rewrite Hs1. unfold set. case_decide as Ht'; [subst; apply Hj in Ht; congruence|]. rewrite Hr1. by apply Hj.
    + intros t' Ht. by apply Hs7, Hr7, Hc.
    + exists FutureDropped. split; [by rewrite Hs1, Hr1|by left].
  - injection Hs as <-. split; [split; try done|exists Triggered; split; [done|by right]].
    intros t' Ht. cbn. unfold set. case_decide; [done|]. by apply Hj.
Qed.

Lemma stop_reachable_inv r : reachable r → ∃ k, inv k r.
Proof.
  induction 1 as [phase cancelled|r ch r' _ [k Hk] Hs].
  - exists 0%nat. split; [done|done|..]; cbn; intros t Ht; by apply elem_of_nil in Ht.
  - destruct ch as [|t b]; cbn [step] in Hs.
    + destruct (node_stop !! k) as [i|] eqn:Ei.
      * destruct (main_step_inv k r i Hk Ei) as [(t&_&_&_&Hn)|(r1&Hr1&Hi&_)]; [congruence|]. exists (S k). congruence.
      * unfold main_step in Hs. rewrite (inv_rest _ _ Hk), drop_ge in Hs; [done|]. by apply lookup_ge_None_1.
    + destruct (task_step r t b) as [r1|] eqn:Et; [|done]. injection Hs as <-. exists k. by apply (task_step_inv k r t b).
Qed.

(** What is left to do. *)
Definition phase_weight (p : TaskPhase) : nat := match p with Running => 2 | FutureDropped => 1 | Triggered => 0 end.
Definition tasks_weight (f : TaskId → TaskPhase) : nat :=
  phase_weight (f TP2p) + phase_weight (f TSyncer) + phase_weight (f TDaser) + phase_weight (f TPruner)
  + phase_weight (f TCompromised).
Definition weight (r : Runtime) : nat := length (rt_rest r) + tasks_weight (rt_phase r).

Lemma tasks_weight_set f t p : (tasks_weight (set f t p) + phase_weight (f t) = tasks_weight f + phase_weight p)%nat.
Proof. unfold tasks_weight, set. destruct t; repeat (case_decide; try done); lia. Qed.

(** C35. [Node::stop] ends cleanly, in whatever order the tasks run, also when some of them had ended
    before or the network was found compromised meanwhile: none of its [expect]s fails (when the
    stores are taken out of their [Arc]s no task holds them any more), it is never stuck while
    cancelled tasks end, it takes finitely many steps, and at its end both stores have been closed
    once, every task has ended, and nothing is shared any more. *)
Theorem node_stop_correct r : reachable r →
  (∀ ch, step r ch ≠ Some Panic) ∧
  (∀ ch r', step r ch = Some (Ok r') → (weight r' < weight r)%nat) ∧
  (rt_rest r ≠ [] → ∃ ch r', (∀ t, ch ≠ TaskStep t true) ∧ step r ch = Some (Ok r')) ∧
  (rt_rest r = [] → rt_stopped r = true ∧ rt_closed r = [SStore; SBlockstore] ∧
     (∀ t, rt_phase r t = Triggered) ∧ ∀ o, references r o = 0%nat).
Proof.
  intros [k Hk]%stop_reachable_inv. split_and!.
  - intros [|t b]; cbn [step]; [|by destruct (task_step r t b)]. destruct (node_stop !! k) as [i|] eqn:Ei.
    + destruct (main_step_inv k r i Hk Ei) as [(t&_&_&_&Hn)|(r1&Hr1&_)]; congruence.
    + unfold main_step. by rewrite (inv_rest _ _ Hk), drop_ge by (by apply lookup_ge_None_1).
  - intros [|t b] r'; cbn [step].
    + intros Hs. destruct (node_stop !! k) as [i|] eqn:Ei.
      * destruct (main_step_inv k r i Hk Ei) as [(t&_&_&_&Hn)|(r1&Hr1&Hi&Hp)]; [congruence|].
        assert (r1 = r') as -> by congruence. unfold weight. rewrite Hp, (inv_rest _ _ Hi), (inv_rest _ _ Hk).
        rewrite (drop_S _ _ _ Ei). cbn [length]. lia.
      * unfold main_step in Hs. by rewrite (inv_rest _ _ Hk), drop_ge in Hs by (by apply lookup_ge_None_1).
    + destruct (task_step r t b) as [r1|] eqn:Et; [|done]. intros [= <-].
      destruct (task_step_inv k r t b r1 Hk Et) as [Hi (p&Hp&Hor)]. unfold weight.
      rewrite (inv_rest _ _ Hi), (inv_rest _ _ Hk), Hp. pose proof (tasks_weight_set (rt_phase r) t p) as Hw.
      destruct Hor as [[E ->]|[E ->]]; rewrite E in Hw; cbn [phase_weight] in Hw; lia.
  - intros Hne. destruct (node_stop !! k) as [i|] eqn:Ei.
    + destruct (main_step_inv k r i Hk Ei) as [(t&_&Hp&Hc&_)|(r1&Hr1&_)]; [|by exists Main, r1].
      destruct (rt_phase r t) eqn:Ep; [..|done]; exists (TaskStep t false); cbn [step]; unfold task_step; rewrite Ep.
      * rewrite Hc. cbn. by eexists.
      * by eexists.
    + destruct Hne. rewrite (inv_rest _ _ Hk). apply drop_ge. by apply lookup_ge_None_1.
  - intros Hr. rewrite (inv_rest _ _ Hk) in Hr. apply drop_nil_inv in Hr.
    pose proof (inv_main _ _ Hk) as Hm. unfold main_after in Hm. rewrite take_ge in Hm by done. cbn in Hm.
    injection Hm as Hf Hl Hcl Hst. assert (∀ t, rt_phase r t = Triggered) as Hp.
    { intros t. apply (inv_joined _ _ Hk). rewrite take_ge by done. destruct t; cbn; set_solver. }
    split_and!; [done|done|done|]. intros o. by rewrite references_joined, Hf, Hl by done.
Qed.

(** ** Witnesses *)

Fixpoint run_steps (r : Runtime) (l : list Choice) : option Runtime :=
  match l with
  | [] => Some r
  | ch :: l => match step r ch with Some (Ok r) => run_steps r l | _ => None end
  end.
Lemma stop_run_reachable l r r' : reachable r → run_steps r l = Some r' → reachable r'.
Proof.
  revert r; induction l as [|ch l IH]; intros r Hr; cbn [run_steps]; [by intros [= <-]|].
  destruct (step r ch) as [[r1| |]|] eqn:E; try done. apply IH. by apply (reach_step r ch).
Qed.

(** The network is found compromised while [stop] waits for the first task. *)
Definition toy_schedule : list Choice :=
  replicate 5 Main ++ [TaskStep TCompromised true; TaskStep TCompromised false] ++ replicate 4 Main
  ++ [TaskStep TPruner false; TaskStep TDaser false; TaskStep TDaser false; TaskStep TPruner false]
  ++ [Main; TaskStep TSyncer false; TaskStep TSyncer false] ++ replicate 3 Main
  ++ [TaskStep TP2p false; TaskStep TP2p false] ++ replicate 9 Main.
Definition toy_end : option Runtime := run_steps (running (λ _, Running) (λ _, false)) toy_schedule.

Lemma toy_end_reachable r : toy_end = Some r → reachable r.
Proof. unfold toy_end. apply stop_run_reachable, reach_start. Qed.
Lemma node_stop_correct_witness : ∃ r, toy_end = Some r ∧ rt_closed r = [SStore; SBlockstore].
Proof.
  assert (match toy_end with Some r => match rt_rest r with [] => true | _ => false end | None => false end = true) as Hb
    by (vm_compute; reflexivity).
  destruct toy_end as [r|] eqn:E; [|discriminate Hb]. exists r. split; [reflexivity|].
  apply (node_stop_correct r).
  - apply toy_end_reachable. exact E.
  - destruct (rt_rest r); [reflexivity|discriminate Hb].
Defined.

(** ** Dropping a node *)

(** [if let Some(daser) = self.daser.take() { daser.stop(); }]; the handle is dropped at the end of the block. *)
Definition take_and_stop (r : Runtime) (o : Shared) : Runtime :=
  if decide (o ∈ rt_fields r) then
    let r := with_main r (remove_one o (rt_fields r)) (rt_locals r) (rt_rest r) (rt_closed r) (rt_stopped r) in
    let r := match task_of o with Some t => with_cancelled r t | None => r end in
    drop_handles r [o]
  else r.
(** [Drop for Node]: the worker tasks are told to stop and nobody waits for them; then the fields are
    dropped. *)
Definition node_drop (r : Runtime) : Runtime :=
  let r := with_cancelled r TCompromised in
  let r := foldl take_and_stop r [SDaser; SSyncer; SPruner; SP2p] in
  drop_handles (with_main r [] (rt_locals r) (rt_rest r) (rt_closed r) (rt_stopped r)) (rt_fields r).

Lemma drop_handles_keeps r l t : rt_cancelled r t = true → rt_cancelled (drop_handles r l) t = true.
Proof.
  revert r; induction l as [|o l IH]; intros r Hc; [done|]. cbn [drop_handles]. apply IH.
  destruct (task_of o); [|done]. case_match; [|done]. cbn. unfold set. by case_decide.
Qed.
Lemma take_and_stop_keeps r o t : rt_cancelled r t = true → rt_cancelled (take_and_stop r o) t = true.
Proof.
  intros Hc. unfold take_and_stop. case_decide; [|done]. apply drop_handles_keeps. destruct (task_of o); [|done].
  cbn. unfold set. by case_decide.
Qed.
Lemma take_and_stop_cancels r o t : o ∈ rt_fields r → task_of o = Some t → rt_cancelled (take_and_stop r o) t = true.
Proof.
  intros Hin Ht. unfold take_and_stop. rewrite decide_True, Ht by done. apply drop_handles_keeps. cbn. unfold set. by rewrite decide_True.
Qed.
Lemma drop_handles_fields r l : rt_fields (drop_handles r l) = rt_fields r.
Proof.
  revert r; induction l as [|o l IH]; intros r; [done|]. cbn [drop_handles]. rewrite IH. by destruct (task_of o); [case_match|].
Qed.
Lemma remove_one_other o o' l : o' ≠ o → o' ∈ l → o' ∈ remove_one o l.
Proof.
  intros Hne. induction l as [|x l IH]; intros Hin; [done|]. cbn [remove_one]. case_decide as Hx.
  - apply elem_of_cons in Hin as [->|Hin]; [done|exact Hin].
  - apply elem_of_cons in Hin as [->|Hin]; [by left|right; by apply IH].
Qed.
Lemma take_and_stop_others r o o' : o' ≠ o → o' ∈ rt_fields r → o' ∈ rt_fields (take_and_stop r o).
Proof.
  intros Hne Hin. unfold take_and_stop. case_decide; [|done]. rewrite drop_handles_fields. destruct (task_of o); by apply remove_one_other.
Qed.

(** A node that is dropped without having been stopped leaves no task running: all five are told to
    stop, so each of them can end without any other, and later steps of other tasks do not take
    that back. *)
Theorem node_drop_cancels_all phase cancelled t : rt_cancelled (node_drop (running phase cancelled)) t = true.
Proof.
  unfold node_drop. apply drop_handles_keeps. cbn [with_main rt_cancelled]. cbn [foldl].
  set (r0 := with_cancelled _ _). assert (∀ o, o ∈ [SDaser; SSyncer; SPruner; SP2p] → o ∈ rt_fields r0) as Hin by (intros o; cbn; set_solver).
  destruct t.
  - apply take_and_stop_cancels; [|done]. repeat apply take_and_stop_others; try done. apply Hin. set_solver.
  - do 2 apply take_and_stop_keeps. apply take_and_stop_cancels; [|done]. apply take_and_stop_others; [done|]. apply Hin. set_solver.
  - do 3 apply take_and_stop_keeps. apply take_and_stop_cancels; [|done]. apply Hin. set_solver.
  - apply take_and_stop_keeps. apply take_and_stop_cancels; [|done]. repeat apply take_and_stop_others; try done. apply Hin. set_solver.
  - do 4 apply take_and_stop_keeps. cbn. unfold set. by rewrite decide_True.
Qed.
Theorem cancelled_task_ends r t : rt_cancelled r t = true → rt_phase r t ≠ Triggered →
  ∃ r', task_step r t false = Some r' ∧ rt_cancelled r' t = true.
Proof.
  intros Hc Hp. unfold task_step. rewrite Hc. cbn [orb andb]. destruct (rt_phase r t); [|by eexists|done]. eexists. split; [done|].
  by apply drop_handles_keeps.
Qed.

End Stopping.
